(* ===== verification/_CoqProject ===== *)
-Q . S2P
Prelude.v
OSFile.v
HHSegment.v
HHQueue.v
HHFifo.v
HHRecovery.v
HHNode.v
HHService.v
MetaData.v
MetaPlacement.v
MetaDelete.v
MetaMarshal.v
MetaNodes.v
StoreFSM.v
StoreFSMFacts.v
ShardWrite.v
Values.v
Varint.v
BoolCodec.v
Simple8b.v
TimeCodec.v
IntCodec.v
StringCodec.v
BitReader.v
FloatCodec.v
ValueCodec.v
Blocks.v
BlockFacts.v
TypedValues.v
Bytes.v
ShardMap.v
WritePoints.v
TSMWriter.v
TSMIndex.v
TSMIndexFacts.v
TSMDelete.v
Tombstone.v
TSMReader.v
TSMFile.v
TSMDurable.v
TSMStore.v
TSMIter.v
Ring.v
Cache.v
CacheFacts.v
WALEntry.v
WALSegment.v
WAL.v
WALSegmentFacts.v
WALFacts.v
WALDurable.v
CacheLoader.v
CacheReplay.v
CrashRecovery.v
KeyIterator.v
KeyMerge.v
KeyTypes.v
KeyFiles.v
TSMNames.v
Compactor.v
CacheIterator.v
CompactorFacts.v
CacheTypes.v
CacheSnapshot.v
CompactionDone.v
CompactPlan.v
KeyCursor.v
CursorFacts.v
CursorStore.v
ValueCursor.v
ValueCursorFacts.v
QueryRead.v
Iterators.v
IteratorFacts.v
IteratorRead.v
FileStoreKeys.v
FileStore.v
FileStoreFacts.v
FileStoreRun.v
