(* ===== verification/Prelude.v ===== *)
(** * myts: a verification library for a clustered time-series store

    The program is a cluster of data nodes and meta nodes in Go, built on the
    storage engine of InfluxDB.  This library models its own logic and proves
    what the parts promise each other.

    ** The program and its models

    A write of points arrives at the points writer of a data node
    ([src/services/data/point_writer.go]): the points are mapped to shards by
    time and by hash, every shard is written to its owners, and a consistency
    level decides how many must answer.
    - [ShardMap]: [MapShards] and the groups a point falls in, over the metadata;
      the binary search of package [sort] is in [Bytes].
    - [ShardWrite], [WritePoints]: [writeToShard] and [WritePointsPrivileged] as
      step machines over the interleavings of their goroutines and of the
      timeout; the meta client, the local store, the remote writer and hinted
      handoff are the answers their calls give.

    A write that an owner does not take goes to hinted handoff
    ([src/services/hh/]): a queue of blocks on disk per node, sent again
    later.
    - [OSFile]: the directory the queue lives in; every system call consults a
      fault plan, so that each error branch can be taken.
    - [HHSegment], [HHQueue]: [segment] and [queue] of [queue.go], operation by
      operation, on a heap of segments; [HHFifo], [HHRecovery]: the queue as a
      first-in-first-out list, reopening, purging by age.
    - [HHNode]: [NodeProcessor.SendWrite], the retry loop and its backoff;
      [HHService]: opening and closing processors, the service, configuration.

    The cluster's metadata ([src/services/meta/]) is a state machine under
    raft.
    - [MetaData]: the records of [data.go], nodes, shard groups and owners, the
      status map that clones share; [MetaPlacement], [MetaDelete], [MetaNodes]:
      placement of replicas, removal of nodes, ids; [MetaMarshal]: [marshal] and
      [unmarshal] of every record.
    - [StoreFSM], [StoreFSMFacts]: [Apply] with every command, [Snapshot],
      [Persist], [Restore] of [store_fsm.go].

    A data node keeps its shards in the TSM engine
    ([src/tsdb/engine/tsm1/]): points go to the cache and the write-ahead
    log, the cache is written out as TSM files, and deletions are tombstones
    beside those.
    - [Values], [TypedValues]: the slices of values of [encoding.gen.go], the
      template once and its instances.
    - [Varint], [Simple8b], [TimeCodec], [IntCodec], [BoolCodec],
      [StringCodec], [BitReader], [FloatCodec], [ValueCodec], [Blocks],
      [BlockFacts]: the block encodings of [encoding.go], [timestamp.go],
      [int.go], [bool.go], [string.go], [float.go], [bit_reader.go].
    - [Bytes], [TSMWriter], [TSMIndex], [TSMIndexFacts], [TSMDelete],
      [Tombstone], [TSMReader], [TSMFile], [TSMDurable],
      [TSMStore], [TSMIter]: writing a TSM file ([writer.go]), its index and the
      reader with deletions ([reader.go]), the three tombstone formats
      ([tombstone.go]), the block iterator.
    - [Ring], [Cache], [CacheFacts]: the hash ring and the cache of
      [ring.go] and [cache.go].
    - [WALEntry], [WALSegment], [WALSegmentFacts], [WAL], [WALFacts],
      [WALDurable]: the entries,
      the segment writer and reader, the log of [wal.go], with crashes.
    - [CacheLoader], [CacheReplay], [CrashRecovery]: [CacheLoader.Load] and
      [reloadCache], and the three together.
    - [KeyIterator], [KeyMerge], [KeyTypes], [KeyFiles]: [tsmKeyIterator] of
      [compact.go] and the merges of [compact.gen.go], the template once and its
      five instances; [TSMNames]: names of files, a file by its blocks; [Compactor], [CompactorFacts], [CompactionDone]: the compactor with
      its switches, temporary files and interruptions; [CacheIterator],
      [CacheTypes], [CacheSnapshot]: [cacheKeyIterator], [WriteSnapshot];
      [CompactPlan]: [DefaultPlanner].
    - [KeyCursor]: the cursors of [file_store.go] and the block readers of
      [file_store.gen.go], the template once and its five instances;
      [CursorFacts], [CursorStore]: what a drained cursor gives.
    - [ValueCursor]: the cursors of [iterator.gen.go] and [batch_cursor.gen.go] that
      merge cache and files, with their five instances; [ValueCursorFacts]:
      the merge they compute; [QueryRead]: the [build*Cursor] functions of the engine; [Iterators]: buffered cursors,
      iterators and limits of [iterator.gen.go], casts of [iterator.go];
      [IteratorFacts], [IteratorRead]: what they give.
    - [FileStore]: the store over the files of a shard ([file_store.go], with the
      operations of [reader.go] that touch files and [cleanup] of [engine.go]), every
      system call of which may fail or be the last one; [FileStoreKeys]: the walk
      of the keys; [FileStoreFacts]: the replacement of files when calls fail and
      the process dies; [FileStoreRun]: what replacing, opening and purging do
      when they work.

    ** What the theorems show

    - Handoff: while its system calls work a queue hands out blocks exactly once
      and in order; reopening a queue gives back its blocks; a pass of the processor delivers a
      prefix of what the queue hands out and keeps the rest (blocks behind an exhausted
      segment are not handed out); purges drop only what is old or unneeded.
    - Writes: the answer of a write to a shard is the one its consistency level calls
      for; an acknowledged write reached the required owners; every run ends; every point
      is mapped to the shard of its time and key.
    - Metadata: replicas are placed on distinct nodes round robin; removing a node
      leaves no shard with it, when no shard lists an owner twice; ids are unique,
      under conditions on addresses that the theorem names; snapshots restore the
      metadata up to the fields they leave out; a failed command changes nothing of
      the metadata, and of the statuses at most those of a node it was to remove.
    - Encodings: decoding gives back what was encoded, for every codec and for
      blocks and files of them; the buffered bit reader is a list of bits.
    - Engine: a TSM file reads back as written; deletions are exact and survive
      reopening; the cache is two maps of timestamped values, where ranges are
      deleted from sorted entries or over all of time; the log gives back every
      acknowledged entry of a segment that was not removed after any crash that keeps
      the entries of the directory; a cache loaded from it holds what the entries say,
      when each key has one type.
    - Compaction: merging blocks overlays them in the order of the files, for
      every type, and the compacted file holds for every key what the files
      together held, when the blocks of a key are ordered by start and something
      is left of it; a compaction is all or nothing in the directory; the cache
      flushed to files is what it was; entries of the cache have one type; plans
      that are out share no file.
    - Reads: a cursor over the files of a store, drained in either direction,
      gives the values of the key, newest file winning, deleted values left out; merged with the cache, one at a
      time or in batches, it is the field as a map from times to values, in situations the theorems name
      (no block loses its end, the blocks can be ordered); iterators
      join the fields of a series at each time and keep what meets the condition.
    - Files: replacing files that are neighbours is atomic for readers at every
      crash, and when it
      works the store lists what it should; a store opens with exactly the live
      files; the keys listed are those the files have.
    - Situations in which the code does not keep a promise are theorems too, and
      are named as such.

    ** Conventions

    Integers are [Z] and wrapped where Go wraps them ([u8] to [i64] below);
    bytes are [Z]; a slice is a list, and where code shares one buffer between
    values the buffer is in a heap ([Tombstone], the status map of [MetaData],
    the segments of [HHQueue]).  A function that returns an error is in the monad
    [M] or returns [res]; a run-time panic is [Panic].  Loops that are not
    structural take fuel; it is the length of what the loop consumes (plus
    one), or the bound of the loop (ten bytes of a varint, twenty digits), and where the
    result says that a loop ends it is proved that the fuel is enough.

    Code outside [src/] is a parameter with the laws it is documented to have:
    [simple8b], [snappy], [gzip], the search of [bytesutil], [xxhash], the bit
    writer and zero counts, the protobuf byte format, [models.ParsePoints].
    Each theorem with such a law has a witness in which the parameter is a concrete
    function.

    ** Not modelled

    The HTTP front end and the query executors (dispatch to libraries), the
    generated protobuf code, process start-up and configuration, the load generator,
    the rate limiter of handoff (sleeps), logging and the export of statistics.
    Errors of writing, flushing and syncing a TSM file while it is compacted, and
    the contents of the file its index goes through meanwhile.  That the entry of a
    new log segment in its directory survives a crash is assumed: the code does not
    sync the directory.
    Of the engine: the loops that start compactions, the index of series (another
    package), backup and restore (tar streams); locks
    are left out where operations are single critical sections, and the cache,
    the reader and the planner run one operation at a time.
    Of the data service: the remote writer, the connection pool and the framing of its
    messages (network input and output).  Effects of system calls are durable in the
    order of the calls. *)

From Stdlib Require Import ZArith Lia.
From stdpp Require Export prelude list strings gmap sorting.
#[global] Open Scope Z_scope.

(** ** Machine integers

    A Go integer of width [w] is a [Z]; every arithmetic operation that can
    leave the range goes through one of the wrap functions below. *)

Definition two64 : Z := 2 ^ 64.
Definition u8 (z : Z) : Z := z mod 2 ^ 8.
Definition u32 (z : Z) : Z := z mod 2 ^ 32.
Definition u64 (z : Z) : Z := z mod 2 ^ 64.
Definition i64 (z : Z) : Z := (z + 2 ^ 63) mod 2 ^ 64 - 2 ^ 63.
Definition i32 (z : Z) : Z := (z + 2 ^ 31) mod 2 ^ 32 - 2 ^ 31.
#[global] Arguments u8 : simpl never.
#[global] Arguments u32 : simpl never.
#[global] Arguments u64 : simpl never.
#[global] Arguments i64 : simpl never.
#[global] Arguments i32 : simpl never.

Definition is_u64 (z : Z) : Prop := 0 <= z < 2 ^ 64.
Definition is_i64 (z : Z) : Prop := - 2 ^ 63 <= z < 2 ^ 63.

Lemma u64_small z : 0 <= z < 2 ^ 64 -> u64 z = z.
Proof. intros H. unfold u64. apply Z.mod_small. exact H. Qed.

Lemma i64_small z : - 2 ^ 63 <= z < 2 ^ 63 -> i64 z = z.
Proof. intros H. unfold i64. rewrite Z.mod_small; lia. Qed.

Lemma u64_range z : is_u64 (u64 z).
Proof. unfold is_u64, u64. apply Z.mod_pos_bound. lia. Qed.

Lemma i64_range z : is_i64 (i64 z).
Proof.
  unfold is_i64, i64.
  pose proof (Z.mod_pos_bound (z + 2 ^ 63) (2 ^ 64)). lia.
Qed.

(** The conversions [int64(uint64(x))] and [uint64(int64(x))] of Go lose
    nothing: they only move between the two readings of the same 64 bits. *)
Lemma i64_u64 z : i64 (u64 z) = i64 z.
Proof.
  unfold i64, u64. f_equal.
  rewrite (Z.add_mod_idemp_l z (2 ^ 63) (2 ^ 64)) by lia. reflexivity.
Qed.

Lemma u64_i64 z : u64 (i64 z) = u64 z.
Proof.
  unfold i64, u64.
  rewrite Zminus_mod_idemp_l. f_equal. lia.
Qed.

Lemma u64_add_l a b : u64 (u64 a + b) = u64 (a + b).
Proof. unfold u64. rewrite Z.add_mod_idemp_l by lia. reflexivity. Qed.

Lemma u64_add_r a b : u64 (a + u64 b) = u64 (a + b).
Proof. unfold u64. rewrite Z.add_mod_idemp_r by lia. reflexivity. Qed.

Lemma u64_sub_l a b : u64 (u64 a - b) = u64 (a - b).
Proof. unfold u64. rewrite Zminus_mod_idemp_l. reflexivity. Qed.

Lemma u64_sub_r a b : u64 (a - u64 b) = u64 (a - b).
Proof. unfold u64. rewrite Zminus_mod_idemp_r. reflexivity. Qed.

Lemma u64_mul_l a b : u64 (u64 a * b) = u64 (a * b).
Proof. unfold u64. rewrite Z.mul_mod_idemp_l by lia. reflexivity. Qed.

Lemma u64_u64 a : u64 (u64 a) = u64 a.
Proof. apply u64_small, u64_range. Qed.

Lemma i64_i64 a : i64 (i64 a) = i64 a.
Proof. apply i64_small, i64_range. Qed.

(** ** Results of fallible Go code

    A Go function returning [(T, error)] returns [Ok v] or [Err e]; a run-time
    panic (nil dereference, index out of range, explicit [panic]) is [Panic]. *)

Inductive res (E A : Type) : Type :=
| Ok (a : A)
| Err (e : E)
| Panic.
Arguments Ok {E A} a.
Arguments Err {E A} e.
Arguments Panic {E A}.

(** State-passing computations keep the state on errors, as Go does: effects
    performed before an early return stay. *)
Definition M (S E A : Type) : Type := S -> res E A * S.

Definition ret {S E A} (a : A) : M S E A := fun s => (Ok a, s).
Definition throw {S E A} (e : E) : M S E A := fun s => (Err e, s).
Definition panic {S E A} : M S E A := fun s => (Panic, s).
Definition get {S E} : M S E S := fun s => (Ok s, s).
Definition modify {S E} (f : S -> S) : M S E unit := fun s => (Ok tt, f s).

Definition bind {S E A B} (m : M S E A) (k : A -> M S E B) : M S E B :=
  fun s => match m s with
           | (Ok a, s') => k a s'
           | (Err e, s') => (Err e, s')
           | (Panic, s') => (Panic, s')
           end.

(** [catch m k] is Go's [x, err := m(); ...] where the code goes on with the
    error in hand. *)
Definition catch {S E A B} (m : M S E A) (k : (A + E) -> M S E B) : M S E B :=
  fun s => match m s with
           | (Ok a, s') => k (inl a) s'
           | (Err e, s') => k (inr e) s'
           | (Panic, s') => (Panic, s')
           end.

Declare Scope go_scope.
Delimit Scope go_scope with go.
#[global] Open Scope go_scope.

Notation "'let*' x ':=' m 'in' k" := (bind m (fun x => k))
  (at level 10, x name, m at level 100, k at level 200) : go_scope.
Notation "'do*' m 'in' k" := (bind m (fun _ => k))
  (at level 10, m at level 100, k at level 200) : go_scope.

Lemma bind_ok {S E A B} (m : M S E A) (k : A -> M S E B) s a s' :
  m s = (Ok a, s') -> bind m k s = k a s'.
Proof. intros H. unfold bind. rewrite H. reflexivity. Qed.

Lemma bind_err {S E A B} (m : M S E A) (k : A -> M S E B) s e s' :
  m s = (Err e, s') -> bind m k s = (Err e, s').
Proof. intros H. unfold bind. rewrite H. reflexivity. Qed.

(** ** Slices *)

Definition zlen {A} (l : list A) : Z := Z.of_nat (length l).
#[global] Arguments zlen : simpl never.

Lemma zlen_nonneg {A} (l : list A) : 0 <= zlen l.
Proof. unfold zlen. lia. Qed.

Lemma zlen_app {A} (l k : list A) : zlen (l ++ k) = zlen l + zlen k.
Proof. unfold zlen. rewrite length_app. lia. Qed.

Lemma zlen_nil {A} : zlen (@nil A) = 0.
Proof. reflexivity. Qed.

Lemma zlen_cons {A} (x : A) l : zlen (x :: l) = 1 + zlen l.
Proof. unfold zlen. simpl. lia. Qed.

Lemma take_app_zlen {A} (l k : list A) : take (Z.to_nat (zlen l)) (l ++ k) = l.
Proof. unfold zlen. rewrite Nat2Z.id. apply take_app_length. Qed.

Lemma drop_app_zlen {A} (l k : list A) : drop (Z.to_nat (zlen l)) (l ++ k) = k.
Proof. unfold zlen. rewrite Nat2Z.id. apply drop_app_length. Qed.

Lemma elem_of_map {A B} (g : A -> B) x l : x ∈ l -> g x ∈ map g l.
Proof. intros H. apply list_elem_of_In, in_map, list_elem_of_In, H. Qed.

(** ** Big-endian words ([encoding/binary].BigEndian) *)

Fixpoint be_enc (n : nat) (v : Z) : list Z :=
  match n with
  | O => []
  | S n' => be_enc n' (v / 256) ++ [v mod 256]
  end.

Definition be_dec (bs : list Z) : Z := fold_left (fun acc b => acc * 256 + b) bs 0.

Definition be64 (v : Z) : list Z := be_enc 8 v.
Definition de64 (bs : list Z) : Z := be_dec bs.
#[global] Arguments be64 : simpl never.
#[global] Arguments de64 : simpl never.

Lemma length_be_enc n v : length (be_enc n v) = n.
Proof.
  revert v. induction n as [|n IH]; intros v; [reflexivity|].
  simpl. rewrite length_app, IH. simpl. lia.
Qed.

Lemma be_dec_snoc bs b : be_dec (bs ++ [b]) = be_dec bs * 256 + b.
Proof. unfold be_dec. rewrite fold_left_app. reflexivity. Qed.

Lemma be_dec_enc n v : be_dec (be_enc n v) = v mod 256 ^ Z.of_nat n.
Proof.
  revert v. induction n as [|n IH]; intros v.
  - simpl. rewrite Z.mod_1_r. reflexivity.
  - cbn [be_enc]. rewrite be_dec_snoc, IH, Nat2Z.inj_succ, Z.pow_succ_r by lia.
    rewrite (Z.rem_mul_r v 256 (256 ^ Z.of_nat n)) by lia. lia.
Qed.

Lemma length_be64 v : length (be64 v) = 8%nat.
Proof. apply length_be_enc. Qed.
Lemma zlen_be64 v : zlen (be64 v) = 8.
Proof. unfold zlen. rewrite length_be64. reflexivity. Qed.

Lemma de64_be64 v : is_u64 v -> de64 (be64 v) = v.
Proof.
  intros H. unfold de64, be64. rewrite be_dec_enc.
  apply Z.mod_small. exact H.
Qed.

Lemma be64_inj v w : is_u64 v -> is_u64 w -> be64 v = be64 w -> v = w.
Proof.
  intros Hv Hw H. rewrite <- (de64_be64 v Hv), <- (de64_be64 w Hw), H. reflexivity.
Qed.

(** ** Automation *)

Create HintDb myts.
Create Rewrite HintDb zlen.
#[export] Hint Resolve zlen_nonneg u64_range i64_range : myts.
#[export] Hint Rewrite @zlen_app @zlen_nil @zlen_cons zlen_be64 : zlen.

(** Normalise slice lengths, then arithmetic. *)
Ltac zlen_lia :=
  autorewrite with zlen in *;
  repeat match goal with
         | |- context [zlen ?l] =>
             lazymatch goal with
             | _ : 0 <= zlen l |- _ => fail
             | _ => pose proof (zlen_nonneg l)
             end
         | _ : context [zlen ?l] |- _ =>
             lazymatch goal with
             | _ : 0 <= zlen l |- _ => fail
             | _ => pose proof (zlen_nonneg l)
             end
         end;
  lia.

(** Split on every boolean comparison of a goal and bring its meaning in. *)
Ltac zcases :=
  repeat match goal with
         | |- context [Z.ltb ?a ?b] => destruct (Z.ltb_spec a b)
         | |- context [Z.leb ?a ?b] => destruct (Z.leb_spec a b)
         | |- context [Z.eqb ?a ?b] => destruct (Z.eqb_spec a b)
         | |- context [Z.gtb ?a ?b] => rewrite (Z.gtb_ltb a b)
         | |- context [Z.geb ?a ?b] => rewrite (Z.geb_leb a b)
         end.

(** ** Postconditions of state-passing code

    [wp m Q s]: run from [s], [m] ends with a result and a state in [Q]. *)

Definition wp {S E A} (m : M S E A) (Q : res E A -> S -> Prop) (s : S) : Prop := let '(r, s') := m s in Q r s'.

Lemma wp_ret {S E A} (a : A) (Q : res E A -> S -> Prop) s : Q (Ok a) s -> wp (ret a) Q s.
Proof. exact id. Qed.
Lemma wp_throw {S E A} (e : E) (Q : res E A -> S -> Prop) s : Q (Err e) s -> wp (throw e) Q s.
Proof. exact id. Qed.
Lemma wp_get {S E} (Q : res E S -> S -> Prop) s : Q (Ok s) s -> wp get Q s.
Proof. exact id. Qed.
Lemma wp_modify {S E} (f : S -> S) (Q : res E unit -> S -> Prop) s : Q (Ok tt) (f s) -> wp (modify f) Q s.
Proof. exact id. Qed.

(** What a continuation needs: nothing runs after an error or a panic. *)
Definition seq_post {S E A B} (k : A -> M S E B) (Q : res E B -> S -> Prop) (r : res E A) (s : S) : Prop :=
  match r with Ok a => wp (k a) Q s | Err e => Q (Err e) s | Panic => Q Panic s end.

Lemma wp_bind {S E A B} (m : M S E A) (k : A -> M S E B) Q s : wp m (seq_post k Q) s -> wp (bind m k) Q s.
Proof. unfold wp, bind. destruct (m s) as [[a|e|] s']; exact id. Qed.

Lemma wp_catch {S E A B} (m : M S E A) (k : A + E -> M S E B) Q s :
  wp m (fun r s' => match r with Ok a => wp (k (inl a)) Q s' | Err e => wp (k (inr e)) Q s' | Panic => Q Panic s' end) s -> wp (catch m k) Q s.
Proof. unfold wp, catch. destruct (m s) as [[a|e|] s']; exact id. Qed.

Lemma wp_mono {S E A} (m : M S E A) (Q Q' : res E A -> S -> Prop) s : wp m Q s -> (forall r s', Q r s' -> Q' r s') -> wp m Q' s.
Proof. unfold wp. destruct (m s). auto. Qed.
