(* ===== verification/OSFile.v ===== *)
(** * The operating system the hinted-handoff queue runs on

    One directory of files, as package [os] and [io/ioutil] present it to
    [services/hh/queue.go]: names, contents, modification times.  Every system
    call first consults a fault plan, so that the error branches of the code
    are reachable: an entry [Bad k] makes the call fail, a failing write having
    transferred its first [k] bytes.  An empty plan is a fault-free run. *)

From S2P Require Import Prelude.
From Stdlib Require Import Ascii.

(** The errors the package [services/hh] returns or receives. *)
Inductive error :=
| io_EOF
| os_Error            (* an error of a system call *)
| ErrNotOpen
| ErrQueueFull
| ErrSegmentFull
| ErrBadRead          (* "bad read. exp %v, got %v" *)
| ErrShortWrite       (* "short write. got %d, exp %d" *)
| ErrRecordSize       (* "record size out of range: max %d: got %d" *)
| ErrQueueOpen        (* "queue is open" *)
| ErrProcessorOpen    (* "node processor is open" *)
| ErrProcessorClosed  (* "node processor is closed" *)
| ErrHintedHandoffDisabled
| ErrTooShort         (* "too short: len = %d" *)
| ErrParse            (* an error of models.ParsePoints *)
| ErrMeta             (* an error of the meta client *)
| ErrWriter           (* an error of the shard writer *)
| OutOfFuel           (* no Go error: a bounded model loop did not finish *).

#[export] Instance error_eq_dec : EqDecision error.
Proof. solve_decision. Defined.

Record dirent := mkDirent { de_dir : bool; de_data : list Z; de_mtime : Z }.

Inductive fault := Good | Bad (n : nat).

Record fs := mkFs { disk : gmap string dirent; faults : list fault; now : Z }.

Abbreviation FM := (M fs error).

Definition set_disk (d : gmap string dirent) (f : fs) : fs := mkFs d (faults f) (now f).

(** Take the next entry of the fault plan. *)
Definition tick : FM fault :=
  fun f => match faults f with
           | [] => (Ok Good, f)
           | x :: r => (Ok x, mkFs (disk f) r (now f))
           end.

(** A system call that either fails or behaves as [m]. *)
Definition syscall {A} (m : FM A) : FM A :=
  let* x := tick in
  match x with Good => m | Bad _ => throw os_Error end.

(** [os.OpenFile(path, O_CREATE|O_RDWR, 0600)] *)
Definition os_OpenFile (p : string) : FM unit :=
  syscall (fun f => match disk f !! p with
                    | Some e => if de_dir e then (Err os_Error, f) else (Ok tt, f)
                    | None => (Ok tt, set_disk (<[p := mkDirent false [] (now f)]> (disk f)) f)
                    end).

(** [os.Stat(path)] *)
Definition os_Stat (p : string) : FM dirent :=
  syscall (fun f => match disk f !! p with
                    | Some e => (Ok e, f)
                    | None => (Err os_Error, f)
                    end).

(** [os.Remove(path)] of a file *)
Definition os_Remove (p : string) : FM unit :=
  syscall (fun f => match disk f !! p with
                    | Some _ => (Ok tt, set_disk (delete p (disk f)) f)
                    | None => (Err os_Error, f)
                    end).

(** [os.RemoveAll(dir)]: the whole directory goes. *)
Definition os_RemoveAll : FM unit := syscall (modify (set_disk ∅)).

(** [ioutil.ReadDir(dir)]: the entries sorted by file name. *)
Definition os_ReadDir : FM (list (string * dirent)) :=
  syscall (fun f =>
    let names := merge_sort String.le (map fst (map_to_list (disk f))) in
    (Ok (omap (fun n => match disk f !! n with Some e => Some (n, e) | None => None end) names), f)).

(** [f.Read(b)] of [n] bytes at offset [off]: short at the end of the file,
    [io.EOF] when nothing is left. *)
Definition os_Read (p : string) (off n : Z) : FM (list Z) :=
  syscall (fun f => match disk f !! p with
                    | None => (Err os_Error, f)
                    | Some e =>
                        let b := take (Z.to_nat n) (drop (Z.to_nat off) (de_data e)) in
                        if (0 <? n) && (zlen b =? 0) then (Err io_EOF, f) else (Ok b, f)
                    end).

(** The contents after writing [b] at [off], a gap being filled with zeros. *)
Definition splice (data : list Z) (off : Z) (b : list Z) : list Z :=
  let o := Z.to_nat off in
  take o data ++ replicate (o - length data)%nat 0 ++ b ++ drop (o + length b)%nat data.

Definition put_data (p : string) (off : Z) (b : list Z) (f : fs) : fs :=
  match disk f !! p with
  | None => f
  | Some e => set_disk (<[p := mkDirent false (splice (de_data e) off b) (now f)]> (disk f)) f
  end.

(** [f.Write(b)] at offset [off]: the number of bytes written and whether the
    call succeeded. *)
Definition os_Write (p : string) (off : Z) (b : list Z) : FM (Z * bool) :=
  let* x := tick in
  match x with
  | Good => fun f => (Ok (zlen b, true), put_data p off b f)
  | Bad k => fun f => let b' := take k b in (Ok (zlen b', false), put_data p off b' f)
  end.

(** [strconv.FormatUint(n, 10)] and [strconv.ParseUint(s, 10, 64)] *)
Definition digit (n : Z) : ascii := ascii_of_N (48 + Z.to_N n).

Fixpoint digits (fuel : nat) (n : Z) : list ascii :=
  match fuel with
  | O => []
  | S f => (if n <? 10 then [] else digits f (n / 10)) ++ [digit (n mod 10)]
  end.

Definition FormatUint (n : Z) : string := String.string_of_list_ascii (digits 20 n).

Definition digit_val (c : ascii) : option Z :=
  let v := Z.of_N (N_of_ascii c) - 48 in
  if (0 <=? v) && (v <=? 9) then Some v else None.

Definition parse_step (acc : option Z) (c : ascii) : option Z :=
  match acc, digit_val c with
  | Some a, Some d => Some (a * 10 + d)
  | _, _ => None
  end.

Definition ParseUint (s : string) : option Z :=
  match String.list_ascii_of_string s with
  | [] => None
  | l => match fold_left parse_step l (Some 0) with
         | Some v => if v <? 2 ^ 64 then Some v else None
         | None => None
         end
  end.

(** ** Facts *)

Lemma digit_val_digit n : 0 <= n < 10 -> digit_val (digit n) = Some n.
Proof.
  intros H. rewrite <- (Z2Nat.id n) by lia. assert (Z.to_nat n < 10)%nat as Hc by lia.
  generalize dependent (Z.to_nat n). intros k Hk. do 10 (destruct k as [|k]; [reflexivity|]). lia.
Qed.

Lemma fold_digits fuel n :
  0 <= n < 10 ^ Z.of_nat fuel -> (0 < fuel)%nat ->
  fold_left parse_step (digits fuel n) (Some 0) = Some n.
Proof.
  revert n. induction fuel as [|f IH]; intros n Hn Hf; [lia|].
  cbn [digits]. rewrite fold_left_app.
  pose proof (Z.mod_pos_bound n 10 ltac:(lia)) as Hm.
  pose proof (Z.div_mod n 10 ltac:(lia)) as Hd.
  destruct (Z.ltb_spec n 10) as [H|H].
  - cbn. rewrite digit_val_digit by lia. rewrite (Z.mod_small n 10) by lia. f_equal; lia.
  - assert (0 < f)%nat as Hf'.
    { destruct f; [|lia]. change (10 ^ Z.of_nat 1) with 10 in Hn. lia. }
    rewrite IH; [|split|exact Hf'].
    + cbn. rewrite digit_val_digit by lia. f_equal; lia.
    + lia.
    + rewrite Nat2Z.inj_succ, Z.pow_succ_r in Hn by lia.
      apply Z.div_lt_upper_bound; lia.
Qed.

Lemma ParseUint_FormatUint n : is_u64 n -> ParseUint (FormatUint n) = Some n.
Proof.
  intros [H0 H1]. unfold ParseUint, FormatUint.
  rewrite String.list_ascii_of_string_of_list_ascii.
  destruct (digits 20 n) as [|c l] eqn:E.
  { cbn [digits] in E. destruct (_ ++ [_]) eqn:E' in E; [|discriminate].
    destruct (if n <? 10 then _ else _); discriminate. }
  rewrite <- E, fold_digits; [|split; [lia|]|lia].
  - destruct (Z.ltb_spec n (2 ^ 64)); [reflexivity|lia].
  - change (Z.of_nat 20) with 20. lia.
Qed.

Lemma FormatUint_inj n m : is_u64 n -> is_u64 m -> FormatUint n = FormatUint m -> n = m.
Proof.
  intros Hn Hm H. apply (f_equal ParseUint) in H.
  rewrite !ParseUint_FormatUint in H by assumption. congruence.
Qed.

(** A write that starts inside the file or at its end and reaches its end or
    goes past it replaces the tail. *)
Lemma splice_tail pre old b :
  (length old <= length b)%nat -> splice (pre ++ old) (zlen pre) b = pre ++ b.
Proof.
  intros H. unfold splice. rewrite take_app_zlen. unfold zlen. rewrite Nat2Z.id.
  replace (length pre - length (pre ++ old))%nat with 0%nat by (rewrite length_app; lia).
  rewrite drop_ge by (rewrite length_app; lia).
  rewrite app_nil_r. reflexivity.
Qed.

Lemma splice_end data b : splice data (zlen data) b = data ++ b.
Proof.
  rewrite <- (app_nil_r data) at 1. apply splice_tail. simpl. lia.
Qed.
