(* ===== verification/HHSegment.v ===== *)
(** * Segments of the hinted-handoff queue

    The type [segment] of [services/hh/queue.go]: one file holding a series of
    length-prefixed blocks and an 8-byte footer with the offset of the head
    block.  The operations are the methods of the Go type, in the order of the
    source; the invariant [seg_rep] says which blocks a segment holds, and the
    lemmas give each operation on it. *)

From S2P Require Import Prelude OSFile.

Definition footerSize : Z := 8.
Definition defaultSegmentSize : Z := 10 * 1024 * 1024.

(** [seg_file] is the [*os.File] of the segment: [None] for nil, otherwise the
    offset of the open handle. *)
Record segment := mkSegment {
  seg_size : Z;
  seg_file : option Z;
  seg_path : string;
  seg_pos : Z;
  seg_currentSize : Z;
  seg_maxSize : Z }.

Definition set_size z (s : segment) := mkSegment z (seg_file s) (seg_path s) (seg_pos s) (seg_currentSize s) (seg_maxSize s).
Definition set_file z (s : segment) := mkSegment (seg_size s) z (seg_path s) (seg_pos s) (seg_currentSize s) (seg_maxSize s).
Definition set_pos z (s : segment) := mkSegment (seg_size s) (seg_file s) (seg_path s) z (seg_currentSize s) (seg_maxSize s).
Definition set_currentSize z (s : segment) := mkSegment (seg_size s) (seg_file s) (seg_path s) (seg_pos s) z (seg_maxSize s).
Definition set_maxSize z (s : segment) := mkSegment (seg_size s) (seg_file s) (seg_path s) (seg_pos s) (seg_currentSize s) z.

(** A method of [*segment] runs on the file system and the segment. *)
Abbreviation SM := (M (fs * segment) error).

Definition on_fs {A} (m : FM A) : SM A :=
  fun st => let '(r, f) := m st.1 in (r, (f, st.2)).
Definition seg_get : SM segment := fun st => (Ok st.2, st).
Definition seg_mod (g : segment -> segment) : SM unit := modify (fun st => (st.1, g st.2)).

(** The offset of the handle; every method of a nil [*os.File] fails. *)
Definition handle : SM Z :=
  let* s := seg_get in
  match seg_file s with Some off => ret off | None => throw os_Error end.

Definition seek (p : Z) : SM unit :=
  do* handle in
  do* on_fs (syscall (ret tt)) in
  if p <? 0 then throw os_Error else seg_mod (set_file (Some p)).

Definition seekEnd (p : Z) : SM unit :=
  do* handle in
  let* s := seg_get in
  let* e := on_fs (os_Stat (seg_path s)) in
  let n := zlen (de_data e) + p in
  if n <? 0 then throw os_Error else seg_mod (set_file (Some n)).

Definition seekToCurrent : SM unit :=
  let* s := seg_get in seek (seg_pos s).

(** The error of the seek is dropped; a nil file has offset 0. *)
Definition filePos : SM Z := let* s := seg_get in ret (default 0 (seg_file s)).

Definition readBytes (n : Z) : SM (list Z) :=
  let* off := handle in
  let* s := seg_get in
  let* b := on_fs (os_Read (seg_path s) off n) in
  do* seg_mod (set_file (Some (off + zlen b))) in
  if zlen b =? n then ret b else throw ErrBadRead.

Definition readUint64 : SM Z :=
  let* b := readBytes 8 in ret (de64 b).

Definition writeBytes (b : list Z) : SM unit :=
  let* off := handle in
  let* s := seg_get in
  let* r := on_fs (os_Write (seg_path s) off b) in
  do* seg_mod (set_file (Some (off + r.1))) in
  if negb r.2 then throw os_Error
  else if r.1 =? zlen b then ret tt else throw ErrShortWrite.

Definition writeUint64 (sz : Z) : SM unit := writeBytes (be64 sz).

Definition file_Sync : SM unit := do* handle in on_fs (syscall (ret tt)).

(** [segment.open]: a fresh file gets its footer, an existing one is read. *)
Definition seg_open : SM unit :=
  let* s := seg_get in
  if seg_size s =? 0 then
    do* seg_mod (set_pos 0) in
    do* seg_mod (set_currentSize 0) in
    do* writeUint64 (u64 0) in
    do* file_Sync in
    seg_mod (set_size footerSize)
  else
    do* seekEnd (- footerSize) in
    let* p := readUint64 in
    do* seg_mod (set_pos (i64 p)) in
    do* seekToCurrent in
    let* s := seg_get in
    if seg_pos s <? i64 (seg_size s - footerSize) then
      let* c := readUint64 in
      seg_mod (set_currentSize (i64 c))
    else ret tt.

Definition newSegment (p : string) (maxSize : Z) : FM segment :=
  do* os_OpenFile p in
  let* e := os_Stat p in
  let s := mkSegment (zlen (de_data e)) (Some 0) p 0 0 maxSize in
  fun f => match seg_open (f, s) with
           | (Ok _, (f', s')) => (Ok s', f')
           | (Err x, (f', _)) => (Err x, f')
           | (Panic, (f', _)) => (Panic, f')
           end.

Definition seg_append (b : list Z) : SM unit :=
  let* s := seg_get in
  match seg_file s with
  | None => throw ErrNotOpen
  | Some _ =>
    if i64 (seg_size s + zlen b) >? seg_maxSize s then throw ErrSegmentFull else
    do* seekEnd (- footerSize) in
    do* writeUint64 (u64 (zlen b)) in
    do* writeBytes b in
    do* writeUint64 (u64 (seg_pos s)) in
    do* file_Sync in
    do* (if seg_currentSize s =? 0 then seg_mod (set_currentSize (zlen b)) else ret tt) in
    seg_mod (fun s => set_size (i64 (seg_size s + (zlen b + 8))) s)
  end.

Definition seg_current : SM (list Z) :=
  let* s := seg_get in
  if seg_pos s =? i64 (seg_size s - 8) then throw io_EOF else
  do* seekToCurrent in
  let* sz := readUint64 in
  do* seg_mod (set_currentSize (i64 sz)) in
  if i64 sz >? seg_maxSize s then throw ErrRecordSize else
  if 2 ^ 63 <=? sz then panic else   (* make([]byte, sz): length out of range *)
  readBytes sz.

Definition seg_advance : SM unit :=
  let* s := seg_get in
  match seg_file s with
  | None => throw ErrNotOpen
  | Some _ =>
    if seg_pos s =? i64 (seg_size s - footerSize) then
      do* seg_mod (set_currentSize 0) in throw io_EOF
    else
    do* seekEnd (- footerSize) in
    let p := i64 (seg_pos s + seg_currentSize s + 8) in
    do* writeUint64 (u64 p) in
    do* file_Sync in
    do* seg_mod (set_pos p) in
    do* seekToCurrent in
    let* sz := readUint64 in
    do* seg_mod (set_currentSize (i64 sz)) in
    let* s := seg_get in
    if seg_pos s =? i64 (seg_size s - footerSize) then
      do* seg_mod (set_currentSize 0) in throw io_EOF
    else ret tt
  end.

Definition seg_close : SM unit :=
  do* handle in
  do* on_fs (syscall (ret tt)) in
  seg_mod (set_file None).

(** [l.file.Name()] panics on a nil file. *)
Definition seg_lastModified : SM Z :=
  let* s := seg_get in
  match seg_file s with
  | None => panic
  | Some _ => let* e := on_fs (os_Stat (seg_path s)) in ret (de_mtime e)
  end.

Definition seg_diskUsage (s : segment) : Z := seg_size s.
Definition seg_SetMaxSegmentSize (sz : Z) (s : segment) : segment := set_maxSize sz s.

(** ** Fault-free execution of the file primitives *)

(** The file [p] rewritten with contents [data]. *)
Definition write_file (p : string) (data : list Z) (f : fs) : fs :=
  set_disk (<[p := mkDirent false data (now f)]> (disk f)) f.

(** [p] is a regular file with contents [data]. *)
Definition file_is (f : fs) (p : string) (data : list Z) : Prop :=
  exists mt, disk f !! p = Some (mkDirent false data mt).

Lemma file_is_write p data f : file_is (write_file p data f) p data.
Proof. eexists. apply lookup_insert_eq. Qed.

Lemma file_is_write_ne p q d data f :
  p <> q -> file_is f q d -> file_is (write_file p data f) q d.
Proof. intros H [mt Hq]. exists mt. cbn. rewrite lookup_insert_ne by exact H. exact Hq. Qed.

Lemma write_write p d1 d2 f : write_file p d2 (write_file p d1 f) = write_file p d2 f.
Proof. unfold write_file, set_disk. cbn. rewrite insert_insert_eq. reflexivity. Qed.

Lemma put_data_file f p data off b :
  file_is f p data -> put_data p off b f = write_file p (splice data off b) f.
Proof. intros [mt H]. unfold put_data. rewrite H. reflexivity. Qed.

Lemma faults_write p d f : faults (write_file p d f) = faults f.
Proof. reflexivity. Qed.

Lemma syscall_good {A} (m : FM A) f : faults f = [] -> syscall m f = m f.
Proof. intros H. unfold syscall, bind, tick. rewrite H. reflexivity. Qed.

Section prims.
Context (f : fs) (s : segment) (off : Z) (data : list Z).
Context (Hf : faults f = []) (Ho : seg_file s = Some off)
        (Hd : file_is f (seg_path s) data).

Lemma run_handle : handle (f, s) = (Ok off, (f, s)).
Proof using Ho. unfold handle, bind, seg_get. cbn. rewrite Ho. reflexivity. Qed.

Lemma run_sync : file_Sync (f, s) = (Ok tt, (f, s)).
Proof using Hf Ho.
  unfold file_Sync. erewrite bind_ok by apply run_handle.
  unfold on_fs. cbn [fst snd]. rewrite syscall_good by exact Hf. reflexivity.
Qed.

Lemma run_seek p : 0 <= p -> seek p (f, s) = (Ok tt, (f, set_file (Some p) s)).
Proof using Hf Ho.
  intros Hp. unfold seek. erewrite bind_ok by apply run_handle.
  unfold on_fs, bind. cbn [fst snd]. rewrite syscall_good by exact Hf. cbn.
  destruct (Z.ltb_spec p 0); [lia|]. reflexivity.
Qed.

Lemma run_seekEnd p :
  0 <= zlen data + p -> seekEnd p (f, s) = (Ok tt, (f, set_file (Some (zlen data + p)) s)).
Proof using Hf Ho Hd.
  intros Hp. unfold seekEnd. erewrite bind_ok by apply run_handle.
  destruct Hd as [mt Hl]. unfold bind, seg_get, on_fs, os_Stat. cbn [fst snd].
  rewrite syscall_good by exact Hf. rewrite Hl. cbn.
  destruct (Z.ltb_spec (zlen data + p) 0); [lia|]. reflexivity.
Qed.

Lemma run_writeBytes b :
  writeBytes b (f, s) =
    (Ok tt, (write_file (seg_path s) (splice data off b) f, set_file (Some (off + zlen b)) s)).
Proof using Hf Ho Hd.
  unfold writeBytes. erewrite bind_ok by apply run_handle.
  unfold bind, seg_get, on_fs, os_Write, bind, tick. cbn [fst snd].
  rewrite Hf. erewrite put_data_file by exact Hd. cbn. rewrite Z.eqb_refl. reflexivity.
Qed.

Lemma run_readBytes n b rest :
  0 <= n -> drop (Z.to_nat off) data = b ++ rest -> zlen b = n ->
  readBytes n (f, s) = (Ok b, (f, set_file (Some (off + n)) s)).
Proof using Hf Ho Hd.
  intros Hn Hr Hb. unfold readBytes. erewrite bind_ok by apply run_handle.
  destruct Hd as [mt Hl]. unfold bind, seg_get, on_fs, os_Read. cbn [fst snd].
  rewrite syscall_good by exact Hf. rewrite Hl. cbn [de_data]. rewrite Hr.
  subst n. rewrite take_app_zlen.
  destruct (Z.ltb_spec 0 (zlen b)), (Z.eqb_spec (zlen b) 0); try lia; cbn;
    rewrite Z.eqb_refl; reflexivity.
Qed.

Lemma run_readUint64 v rest :
  is_u64 v -> drop (Z.to_nat off) data = be64 v ++ rest ->
  readUint64 (f, s) = (Ok v, (f, set_file (Some (off + 8)) s)).
Proof using Hf Ho Hd.
  intros Hv Hr. unfold readUint64.
  erewrite bind_ok by (eapply run_readBytes; [lia|exact Hr|apply zlen_be64]).
  unfold ret. rewrite de64_be64 by exact Hv. reflexivity.
Qed.
End prims.

(** ** What a segment holds *)

Definition enc_rec (r : list Z) : list Z := be64 (zlen r) ++ r.
Definition enc (l : list (list Z)) : list Z := concat (map enc_rec l).
#[global] Arguments enc_rec : simpl never.
#[global] Arguments enc : simpl never.

Lemma enc_nil : enc [] = [].
Proof. reflexivity. Qed.

Lemma enc_app l k : enc (l ++ k) = enc l ++ enc k.
Proof. unfold enc. rewrite map_app, concat_app. reflexivity. Qed.

Lemma enc_cons r l : enc (r :: l) = enc_rec r ++ enc l.
Proof. reflexivity. Qed.

Lemma zlen_enc_rec r : zlen (enc_rec r) = 8 + zlen r.
Proof. unfold enc_rec. zlen_lia. Qed.

Lemma enc_one r : enc [r] = enc_rec r.
Proof. unfold enc. cbn [map concat]. apply app_nil_r. Qed.

Lemma enc_snoc l r : enc (l ++ [r]) = enc l ++ enc_rec r.
Proof. rewrite enc_app, enc_one. reflexivity. Qed.

#[export] Hint Rewrite enc_nil enc_app enc_cons zlen_enc_rec : zlen.

Definition head_len (pend : list (list Z)) : Z :=
  match pend with [] => 0 | r :: _ => zlen r end.

(** The segment's file holds the consumed blocks [cons], the pending blocks
    [pend] and the footer pointing at the first pending block; the in-memory
    fields agree with it. *)
Record seg_rep (f : fs) (s : segment) (cons pend : list (list Z)) : Prop := {
  rep_open : is_Some (seg_file s);
  rep_data : file_is f (seg_path s) (enc cons ++ enc pend ++ be64 (zlen (enc cons)));
  rep_pos : seg_pos s = zlen (enc cons);
  rep_size : seg_size s = zlen (enc cons) + zlen (enc pend) + 8;
  rep_cur : seg_currentSize s = head_len pend;
  rep_ne : Forall (fun r => r <> []) pend;
  rep_bound : seg_size s < 2 ^ 62 }.

(** ** The operations on a represented segment *)

Section ops.
Context (f : fs) (s : segment) (cons pend : list (list Z)).
Context (Hf : faults f = []) (R : seg_rep f s cons pend).

Lemma append_full b :
  seg_maxSize s < seg_size s + zlen b -> zlen b < 2 ^ 62 ->
  seg_append b (f, s) = (Err ErrSegmentFull, (f, s)).
Proof using R.
  intros Hm Hb. destruct R as [[off Ho] _ _ Hs _ _ Hbd].
  unfold seg_append, bind, seg_get. cbn. rewrite Ho.
  rewrite i64_small by zlen_lia.
  rewrite Z.gtb_ltb. destruct (Z.ltb_spec (seg_maxSize s) (seg_size s + zlen b)); [|lia].
  reflexivity.
Qed.

(** The writes of an append, up to the continuation [k]. *)
Lemma run_append_io {A} b p (k : SM A) :
  zlen b < 2 ^ 62 ->
  let data := enc cons ++ enc (pend ++ [b]) ++ be64 p in
  (do* seekEnd (- footerSize) in do* writeUint64 (u64 (zlen b)) in do* writeBytes b in
   do* writeUint64 p in do* file_Sync in k) (f, s)
  = k (write_file (seg_path s) data f, set_file (Some (zlen data)) s).
Proof using Hf R.
  intros Hb data. destruct R as [[off Ho] Hd Hp Hs _ _ _].
  set (D := enc cons ++ enc pend). rewrite app_assoc in Hd. fold D in Hd.
  assert (zlen (D ++ be64 (zlen (enc cons))) + - footerSize = zlen D) as EL
    by (unfold footerSize; zlen_lia).
  erewrite bind_ok.
  2:{ eapply run_seekEnd; [exact Hf|exact Ho|exact Hd|rewrite EL; auto with myts]. }
  rewrite EL, (u64_small (zlen b)) by zlen_lia.
  erewrite bind_ok.
  2:{ eapply run_writeBytes; [exact Hf|reflexivity|exact Hd]. }
  rewrite splice_tail by (unfold be64; rewrite !length_be_enc; lia).
  cbn [seg_path set_file]. erewrite bind_ok.
  2:{ eapply run_writeBytes; [exact Hf|reflexivity|apply file_is_write]. }
  rewrite <- (zlen_app D (be64 _)), splice_end, write_write.
  cbn [seg_path set_file]. erewrite bind_ok.
  2:{ eapply run_writeBytes; [exact Hf|reflexivity|apply file_is_write]. }
  rewrite <- (zlen_app _ b), splice_end, write_write. cbn [seg_path set_file].
  erewrite bind_ok.
  2:{ eapply run_sync; [exact Hf|reflexivity]. }
  assert ((((D ++ be64 (zlen b)) ++ b) ++ be64 p) = data) as ->.
  { unfold D, data. rewrite enc_snoc. unfold enc_rec. rewrite <- !app_assoc. reflexivity. }
  f_equal. f_equal. unfold set_file. cbn. f_equal. f_equal.
  unfold data, D. rewrite enc_snoc. zlen_lia.
Qed.

Lemma append_ok b :
  b <> [] -> seg_size s + zlen b <= seg_maxSize s -> seg_size s + zlen b + 8 < 2 ^ 62 ->
  exists s',
    let f' := write_file (seg_path s)
                (enc cons ++ enc (pend ++ [b]) ++ be64 (zlen (enc cons))) f in
    seg_append b (f, s) = (Ok tt, (f', s'))
    /\ seg_rep f' s' cons (pend ++ [b])
    /\ seg_path s' = seg_path s /\ seg_maxSize s' = seg_maxSize s
    /\ seg_size s' = seg_size s + zlen b + 8.
Proof using Hf R.
  intros Hb Hm Hbd.
  pose proof R as [[off Ho] Hd Hp Hs Hc Hne Hbs].
  set (data := enc cons ++ enc (pend ++ [b]) ++ be64 (zlen (enc cons))).
  exists (mkSegment (seg_size s + zlen b + 8) (Some (zlen data)) (seg_path s) (seg_pos s)
            (head_len (pend ++ [b])) (seg_maxSize s)). cbn zeta. split.
  - unfold seg_append. erewrite bind_ok by reflexivity. cbn [snd]. rewrite Ho.
    rewrite i64_small by zlen_lia.
    rewrite Z.gtb_ltb. destruct (Z.ltb_spec (seg_maxSize s) (seg_size s + zlen b)); [lia|].
    rewrite run_append_io by zlen_lia.
    rewrite Hp, u64_small by zlen_lia. fold data. clearbody data.
    unfold bind, seg_mod, modify, ret. rewrite Hc.
    destruct pend as [|r l]; [|inversion Hne; subst; destruct r; [congruence|]].
    + cbn. rewrite i64_small by zlen_lia. unfold set_size, set_currentSize, set_file. cbn.
      rewrite Z.add_assoc, Hp. reflexivity.
    + cbn [head_len app].
      destruct (Z.eqb_spec (zlen (z :: r)) 0); [zlen_lia|].
      cbn. rewrite i64_small by zlen_lia. unfold set_size, set_currentSize, set_file. cbn.
      rewrite Z.add_assoc, Hp, Hc. reflexivity.
  - split; [|repeat split]. split; cbn; eauto.
    + apply file_is_write.
    + rewrite enc_snoc. zlen_lia.
    + apply Forall_app. split; [exact Hne|]. constructor; [exact Hb|constructor].
Qed.

Lemma current_eof : pend = [] -> seg_current (f, s) = (Err io_EOF, (f, s)).
Proof using R.
  intros ->. destruct R as [_ _ Hp Hs _ _ Hb].
  unfold seg_current, bind, seg_get. cbn. change (enc []) with (@nil Z) in Hs.
  rewrite i64_small by zlen_lia.
  destruct (Z.eqb_spec (seg_pos s) (seg_size s - 8)); [reflexivity|zlen_lia].
Qed.

(** The bytes from the head block on. *)
Lemma drop_head (x : list Z) :
  drop (Z.to_nat (zlen (enc cons))) (enc cons ++ x) = x.
Proof using. apply drop_app_zlen. Qed.

Lemma current_ok r l :
  pend = r :: l -> zlen r <= seg_maxSize s ->
  exists s',
    seg_current (f, s) = (Ok r, (f, s'))
    /\ seg_rep f s' cons pend
    /\ seg_path s' = seg_path s /\ seg_maxSize s' = seg_maxSize s /\ seg_size s' = seg_size s.
Proof using Hf R.
  intros -> Hr. pose proof R as [[off Ho] Hd Hp Hs Hc Hne Hb].
  exists (mkSegment (seg_size s) (Some (zlen (enc cons) + 8 + zlen r)) (seg_path s) (seg_pos s)
            (zlen r) (seg_maxSize s)).
  split; [|split; [split; cbn; eauto|auto]].
  unfold seg_current. erewrite bind_ok by reflexivity. cbn [snd].
  rewrite i64_small by zlen_lia.
  destruct (Z.eqb_spec (seg_pos s) (seg_size s - 8)); [zlen_lia|].
  unfold seekToCurrent. unfold bind at 2. cbn [seg_get snd].
  erewrite bind_ok.
  2:{ unfold seg_get. cbn [snd]. apply (run_seek _ _ _ Hf Ho). rewrite Hp. auto with myts. }
  rewrite Hp.
  erewrite bind_ok.
  2:{ eapply run_readUint64; [exact Hf|reflexivity|exact Hd| |].
      2:{ rewrite drop_head. rewrite enc_cons. unfold enc_rec. rewrite <- !app_assoc. reflexivity. }
      unfold is_u64. zlen_lia. }
  erewrite bind_ok by reflexivity. rewrite i64_small by zlen_lia.
  rewrite Z.gtb_ltb. destruct (Z.ltb_spec (seg_maxSize s) (zlen r)); [lia|].
  destruct (Z.leb_spec (2 ^ 63) (zlen r)); [zlen_lia|].
  erewrite (run_readBytes _ _ (zlen (enc cons) + 8));
    [|exact Hf|reflexivity|exact Hd|auto with myts| |reflexivity].
  { unfold set_file, set_currentSize. cbn. rewrite Hp. reflexivity. }
  rewrite enc_cons. unfold enc_rec. rewrite <- !app_assoc.
  rewrite (app_assoc (enc cons)). rewrite <- (zlen_be64 (zlen r)), <- zlen_app.
  apply drop_app_zlen.
Qed.

Lemma advance_eof :
  pend = [] -> exists s',
    seg_advance (f, s) = (Err io_EOF, (f, s')) /\ seg_rep f s' cons []
    /\ seg_path s' = seg_path s /\ seg_maxSize s' = seg_maxSize s /\ seg_size s' = seg_size s.
Proof using R.
  intros ->. exists (set_currentSize 0 s).
  pose proof R as [[off Ho] Hd Hp Hs _ Hne Hb].
  split; [|split; [split; cbn; eauto|auto]].
  unfold seg_advance, bind, seg_get. cbn. rewrite Ho. change (enc []) with (@nil Z) in Hs.
  unfold footerSize. rewrite i64_small by zlen_lia.
  destruct (Z.eqb_spec (seg_pos s) (seg_size s - 8)); [reflexivity|zlen_lia].
Qed.

(** The footer update of an advance past [r], up to the continuation [k],
    which gets the word at the new position: the length of the next block,
    or the footer itself when there is none. *)
Lemma run_advance_io {A} r l (k : Z -> SM A) :
  pend = r :: l ->
  let P := zlen (enc (cons ++ [r])) in
  let data := enc (cons ++ [r]) ++ enc l ++ be64 P in
  (do* seekEnd (- footerSize) in do* writeUint64 P in do* file_Sync in
   do* seg_mod (set_pos P) in do* seekToCurrent in let* sz := readUint64 in k sz) (f, s)
  = k (match l with [] => P | r' :: _ => zlen r' end)
      (write_file (seg_path s) data f, set_file (Some (P + 8)) (set_pos P s)).
Proof using Hf R.
  intros -> P data. pose proof R as [[off Ho] Hd _ Hs _ _ Hb].
  assert (enc cons ++ enc (r :: l) = enc (cons ++ [r]) ++ enc l) as Eenc
    by (rewrite enc_snoc, enc_cons, app_assoc; reflexivity).
  rewrite app_assoc, Eenc in Hd. unfold footerSize.
  erewrite bind_ok.
  2:{ eapply run_seekEnd; [exact Hf|exact Ho|exact Hd|zlen_lia]. }
  replace (zlen _ + - (8)) with (zlen (enc (cons ++ [r]) ++ enc l)) by zlen_lia.
  erewrite bind_ok.
  2:{ eapply run_writeBytes; [exact Hf|reflexivity|exact Hd]. }
  rewrite splice_tail by (unfold be64; rewrite !length_be_enc; lia).
  rewrite <- app_assoc. fold data. cbn [seg_path set_file].
  erewrite bind_ok by (eapply run_sync; [exact Hf|reflexivity]).
  erewrite bind_ok by reflexivity. cbn [snd fst].
  erewrite bind_ok.
  2:{ unfold seekToCurrent, bind, seg_get. cbn [snd]. eapply run_seek;
      [exact Hf|reflexivity|cbn; unfold P; auto with myts]. }
  set (w := match l with [] => P | r' :: _ => zlen r' end).
  erewrite bind_ok.
  2:{ eapply (run_readUint64 _ _ P data) with (v := w)
        (rest := match l with [] => [] | r' :: l' => r' ++ enc l' ++ be64 P end);
        [exact Hf|reflexivity|apply file_is_write| |].
      - unfold is_u64, w, P. destruct l; [rewrite enc_snoc|]; zlen_lia.
      - unfold data, P at 1, w. rewrite drop_app_zlen. destruct l.
        + rewrite app_nil_r. reflexivity.
        + rewrite enc_cons. unfold enc_rec. rewrite <- !app_assoc. reflexivity. }
  reflexivity.
Qed.

Lemma advance_ok r l :
  pend = r :: l ->
  exists s',
    let f' := write_file (seg_path s)
                (enc (cons ++ [r]) ++ enc l ++ be64 (zlen (enc (cons ++ [r])))) f in
    seg_advance (f, s) = (match l with [] => Err io_EOF | _ :: _ => Ok tt end, (f', s'))
    /\ seg_rep f' s' (cons ++ [r]) l
    /\ seg_path s' = seg_path s /\ seg_maxSize s' = seg_maxSize s /\ seg_size s' = seg_size s.
Proof using Hf R.
  intros E. pose proof R as [[off Ho] Hd Hp Hs Hc Hne Hb]. rewrite E in Hs, Hc, Hne.
  set (P := zlen (enc (cons ++ [r]))).
  assert (P = zlen (enc cons) + 8 + zlen r) as EP
    by (unfold P; rewrite enc_snoc; zlen_lia).
  assert (seg_size s = P + zlen (enc l) + 8) as EZ by zlen_lia.
  exists (mkSegment (seg_size s) (Some (P + 8)) (seg_path s) P (head_len l) (seg_maxSize s)).
  cbn zeta. split.
  2:{ split; [|auto]. inversion Hne; subst. split; cbn; eauto. apply file_is_write. }
  unfold seg_advance. erewrite bind_ok by reflexivity. cbn [snd]. rewrite Ho.
  unfold footerSize at 1. rewrite i64_small by zlen_lia.
  destruct (Z.eqb_spec (seg_pos s) (seg_size s - 8)); [zlen_lia|].
  rewrite Hp, Hc. cbn [head_len]. replace (zlen (enc cons) + zlen r + 8) with P by lia.
  rewrite (i64_small P), (u64_small P) by zlen_lia. unfold P at 1 2.
  rewrite (run_advance_io r l _ E). fold P.
  set (w := match l with [] => P | r' :: _ => zlen r' end).
  rewrite (i64_small w) by (unfold w; destruct l; zlen_lia).
  erewrite bind_ok by reflexivity. erewrite bind_ok by reflexivity. cbn [snd fst].
  cbn [seg_pos seg_size set_pos set_file set_currentSize].
  unfold footerSize. rewrite i64_small by zlen_lia.
  unfold w. destruct l as [|r' l']; destruct (Z.eqb_spec P (seg_size s - 8)); try zlen_lia;
    reflexivity.
Qed.
End ops.

(** ** Opening segment files *)

Lemma newSegment_new f p m :
  faults f = [] -> disk f !! p = None ->
  exists s, newSegment p m f = (Ok s, write_file p (be64 0) f)
    /\ seg_rep (write_file p (be64 0) f) s [] [] /\ seg_path s = p /\ seg_maxSize s = m
    /\ seg_size s = 8.
Proof.
  intros Hf Hn.
  exists (mkSegment 8 (Some 8) p 0 0 m). split.
  - unfold newSegment. erewrite bind_ok.
    2:{ unfold os_OpenFile. rewrite syscall_good by exact Hf. rewrite Hn. reflexivity. }
    fold (write_file p [] f).
    erewrite bind_ok.
    2:{ unfold os_Stat. rewrite syscall_good by exact Hf. cbn. rewrite lookup_insert_eq. reflexivity. }
    cbn [de_data]. unfold seg_open. erewrite bind_ok by reflexivity. cbn [seg_size snd].
    rewrite zlen_nil. cbv match. rewrite Z.eqb_refl.
    do 2 (erewrite bind_ok by reflexivity). cbn [snd fst]. erewrite bind_ok.
    2:{ eapply run_writeBytes; [exact Hf|reflexivity|apply file_is_write]. }
    erewrite bind_ok by (eapply run_sync; [exact Hf|reflexivity]).
    cbn. rewrite write_write. reflexivity.
  - split; [|auto]. split; cbn; eauto using file_is_write; lia.
Qed.

Lemma newSegment_existing f p m cons pend :
  faults f = [] -> file_is f p (enc cons ++ enc pend ++ be64 (zlen (enc cons))) ->
  Forall (fun r => r <> []) pend -> zlen (enc cons) + zlen (enc pend) + 8 < 2 ^ 62 ->
  exists s, newSegment p m f = (Ok s, f)
    /\ seg_rep f s cons pend /\ seg_path s = p /\ seg_maxSize s = m.
Proof.
  intros Hf Hd Hne Hb. set (P := zlen (enc cons)).
  set (n := P + zlen (enc pend) + 8).
  exists (mkSegment n (Some (match pend with [] => P | _ => P + 8 end)) p P (head_len pend) m).
  split.
  2:{ split; [|auto]. split; cbn; eauto. }
  destruct Hd as [mt Hl]. pose proof (ex_intro _ mt Hl : file_is _ _ _) as Hd.
  unfold newSegment. erewrite bind_ok.
  2:{ unfold os_OpenFile. rewrite syscall_good by exact Hf. rewrite Hl. reflexivity. }
  erewrite bind_ok.
  2:{ unfold os_Stat. rewrite syscall_good by exact Hf. rewrite Hl. reflexivity. }
  cbn [de_data]. fold P. replace (zlen _) with n by (unfold n, P; zlen_lia).
  unfold seg_open. erewrite bind_ok by reflexivity. cbn [seg_size snd].
  destruct (Z.eqb_spec n 0); [unfold n, P in *; zlen_lia|].
  rewrite app_assoc in Hd. fold P in Hd. unfold footerSize.
  erewrite bind_ok.
  2:{ eapply run_seekEnd; [exact Hf|reflexivity|exact Hd|zlen_lia]. }
  replace (zlen _ + - (8)) with (zlen (enc cons ++ enc pend)) by zlen_lia.
  erewrite bind_ok.
  2:{ eapply run_readUint64; [exact Hf|reflexivity|exact Hd| |].
      2:{ rewrite drop_app_zlen. symmetry. apply app_nil_r. }
      unfold is_u64, P. zlen_lia. }
  rewrite (i64_small P) by (unfold P; zlen_lia).
  erewrite bind_ok by reflexivity. cbn [snd fst].
  erewrite bind_ok.
  2:{ unfold seekToCurrent, bind, seg_get. cbn [snd]. eapply run_seek;
      [exact Hf|reflexivity|cbn; unfold P; auto with myts]. }
  erewrite bind_ok by reflexivity. cbn [snd seg_pos seg_size set_pos set_file].
  rewrite i64_small by (unfold n, P; zlen_lia).
  destruct pend as [|r l]; destruct (Z.ltb_spec P (n - 8)); unfold n, P in *; try zlen_lia.
  - reflexivity.
  - erewrite bind_ok.
    2:{ eapply run_readUint64; [exact Hf|reflexivity|exact Hd| |].
        2:{ cbn [set_pos set_file seg_pos]. rewrite <- app_assoc, drop_app_zlen, enc_cons.
            unfold enc_rec. rewrite <- !app_assoc. reflexivity. }
        unfold is_u64. zlen_lia. }
    cbn. rewrite i64_small by zlen_lia. reflexivity.
Qed.
