(* ===== verification/HHQueue.v ===== *)
(** * The hinted-handoff queue

    The type [queue] of [services/hh/queue.go]: a bounded, disk-backed FIFO of
    byte slices spread over segment files.  [head], [tail] and [segments] are
    pointers to shared segment objects, so segments live in a heap and the
    queue holds references: the aliasing of head and tail with the list is the
    one of the code.  The mutex serialises the operations, each of which is
    one transition of [qst]. *)

From S2P Require Import Prelude OSFile HHSegment.

Record queue := mkQueue {
  q_head : option nat;
  q_tail : option nat;
  q_maxSegmentSize : Z;
  q_maxSize : Z;
  q_segments : option (list nat) }.

(** The file system, the segment heap and the queue object. *)
Record qst := mkQst {
  st_fs : fs;
  st_heap : gmap nat segment;
  st_next : nat;
  st_q : queue }.

Abbreviation QM := (M qst error).

Definition set_fs x (st : qst) := mkQst x (st_heap st) (st_next st) (st_q st).
Definition set_heap x (st : qst) := mkQst (st_fs st) x (st_next st) (st_q st).
Definition set_q x (st : qst) := mkQst (st_fs st) (st_heap st) (st_next st) x.

Definition set_head h (q : queue) := mkQueue h (q_tail q) (q_maxSegmentSize q) (q_maxSize q) (q_segments q).
Definition set_tail t (q : queue) := mkQueue (q_head q) t (q_maxSegmentSize q) (q_maxSize q) (q_segments q).
Definition set_maxSegmentSize z (q : queue) := mkQueue (q_head q) (q_tail q) z (q_maxSize q) (q_segments q).
Definition set_segments l (q : queue) := mkQueue (q_head q) (q_tail q) (q_maxSegmentSize q) (q_maxSize q) l.

Definition q_get : QM queue := fun st => (Ok (st_q st), st).
Definition q_mod (g : queue -> queue) : QM unit := modify (fun st => set_q (g (st_q st)) st).

Definition lift_fs {A} (m : FM A) : QM A :=
  fun st => let '(r, f) := m (st_fs st) in (r, set_fs f st).

(** A method call on the segment a pointer refers to; a nil pointer panics. *)
Definition on_seg {A} (p : option nat) (m : SM A) : QM A :=
  fun st => match p with
            | None => (Panic, st)
            | Some i =>
              match st_heap st !! i with
              | None => (Panic, st)
              | Some s => let '(r, (f, s')) := m (st_fs st, s) in
                          (r, mkQst f (<[i := s']> (st_heap st)) (st_next st) (st_q st))
              end
            end.

Definition alloc (s : segment) : QM nat :=
  fun st => (Ok (st_next st),
             mkQst (st_fs st) (<[st_next st := s]> (st_heap st)) (S (st_next st)) (st_q st)).

(** The segment list as the code ranges over it: ranging over nil does nothing. *)
Definition segs (q : queue) : list nat := default [] (q_segments q).

Definition newQueue (maxSize : Z) : queue :=
  mkQueue None None defaultSegmentSize maxSize (Some []).

(** The loop of [nextSegmentID] over the directory entries. *)
Fixpoint max_segment_id (es : list (string * dirent)) (maxID : Z) : Z :=
  match es with
  | [] => maxID
  | (n, e) :: es' =>
      if de_dir e then max_segment_id es' maxID
      else match ParseUint n with
           | None => max_segment_id es' maxID
           | Some id => max_segment_id es' (if id >? maxID then id else maxID)
           end
  end.

Definition nextSegmentID : QM Z :=
  let* es := lift_fs os_ReadDir in ret (u64 (max_segment_id es 0 + 1)).

Definition addSegment : QM nat :=
  let* nextID := nextSegmentID in
  let* q := q_get in
  let* s := lift_fs (newSegment (FormatUint nextID) (q_maxSegmentSize q)) in
  let* p := alloc s in
  do* q_mod (fun q => set_segments (Some (segs q ++ [p])) q) in
  ret p.

(** The loop of [loadSegments]: [acc] is the slice built so far. *)
Fixpoint load_loop (es : list (string * dirent)) (acc : list nat) : QM (list nat) :=
  match es with
  | [] => ret acc
  | (n, e) :: es' =>
      if de_dir e then load_loop es' acc
      else match ParseUint n with
           | None => load_loop es' acc
           | Some _ =>
               let* q := q_get in
               let* s := lift_fs (newSegment n (q_maxSegmentSize q)) in
               let* p := alloc s in
               load_loop es' (acc ++ [p])
           end
  end.

Definition loadSegments : QM (list nat) :=
  let* es := lift_fs os_ReadDir in load_loop es [].

Definition trimHead : QM unit :=
  let* q := q_get in
  match segs q with
  | _ :: (h :: _) as rest =>
      do* q_mod (set_segments (Some rest)) in
      do* on_seg (q_head q) seg_close in
      let* p := on_seg (q_head q) (let* s := seg_get in ret (seg_path s)) in
      do* lift_fs (os_Remove p) in
      q_mod (set_head (Some h))
  | _ => ret tt
  end.

Definition Open : QM unit :=
  let* ss := loadSegments in
  do* q_mod (set_segments (Some ss)) in
  do* (match ss with [] => do* addSegment in ret tt | _ => ret tt end) in
  let* q := q_get in
  match head (segs q), last (segs q) with
  | Some h, Some t =>
      do* q_mod (set_head (Some h)) in
      do* q_mod (set_tail (Some t)) in
      catch (on_seg (Some h) seg_current) (fun r =>
        match r with
        | inr io_EOF => trimHead
        | _ => ret tt
        end)
  | _, _ => panic
  end.

Fixpoint close_loop (ps : list nat) : QM unit :=
  match ps with
  | [] => ret tt
  | p :: ps' => do* on_seg (Some p) seg_close in close_loop ps'
  end.

Definition Close : QM unit :=
  let* q := q_get in
  do* close_loop (segs q) in
  q_mod (fun q => set_segments None (set_tail None (set_head None q))).

Definition Remove : QM unit :=
  let* q := q_get in
  match q_head q, q_tail q, q_segments q with
  | None, None, None => lift_fs os_RemoveAll
  | _, _, _ => throw ErrQueueOpen
  end.

Fixpoint setmax_loop (ps : list nat) (sz : Z) : QM unit :=
  match ps with
  | [] => ret tt
  | p :: ps' => do* on_seg (Some p) (seg_mod (seg_SetMaxSegmentSize sz)) in setmax_loop ps' sz
  end.

Definition seg_usage (p : option nat) : QM Z :=
  on_seg p (let* s := seg_get in ret (seg_diskUsage s)).

Definition SetMaxSegmentSize (sz : Z) : QM unit :=
  do* q_mod (set_maxSegmentSize sz) in
  let* q := q_get in
  do* setmax_loop (segs q) sz in
  let* u := seg_usage (q_tail q) in
  if u >=? q_maxSegmentSize q then
    let* p := addSegment in q_mod (set_tail (Some p))
  else ret tt.

(** [when.Truncate(time.Second)] on nanoseconds since the zero time *)
Definition truncate_second (t : Z) : Z := t - t mod 1000000000.

(** The [for] loop of [PurgeOlderThan].  The caller passes one unit of fuel
    per iteration it allows. *)
Fixpoint purge_loop (fuel : nat) (cutoff : Z) : QM unit :=
  match fuel with
  | O => throw OutOfFuel
  | S fuel' =>
      let* q := q_get in
      let* mt := on_seg (q_head q) seg_lastModified in
      if cutoff <=? mt then ret tt else
      do* (match segs q with [_] => do* addSegment in ret tt | _ => ret tt end) in
      do* trimHead in
      purge_loop fuel' cutoff
  end.

Definition PurgeOlderThan (t : Z) : QM unit :=
  let* q := q_get in
  match segs q with
  | [] => ret tt
  | l => purge_loop (S (length l)) (truncate_second t)
  end.

(** [None] is the zero time. *)
Definition LastModified : QM (option Z) :=
  let* q := q_get in
  match q_tail q with
  | Some t => let* mt := on_seg (Some t) seg_lastModified in ret (Some mt)
  | None => ret None
  end.

(** The positions are printed as "path:offset"; the model keeps the pair, the
    empty string being [None]. *)
Record queuePos := mkQueuePos { qp_head : option (string * Z); qp_tail : option (string * Z) }.

Definition Position : QM queuePos :=
  let* q := q_get in
  let* h := match q_head q with
            | Some p => let* s := on_seg (Some p) (let* x := get in ret x.2) in
                        ret (Some (seg_path s, seg_pos s))
            | None => ret None
            end in
  let* t := match q_tail q with
            | Some p => let* s := on_seg (Some p) (let* x := get in ret x.2) in
                        let* o := on_seg (Some p) filePos in ret (Some (seg_path s, o))
            | None => ret None
            end in
  ret (mkQueuePos h t).

Fixpoint usage_loop (ps : list nat) (acc : Z) : QM Z :=
  match ps with
  | [] => ret acc
  | p :: ps' => let* u := seg_usage (Some p) in usage_loop ps' (i64 (acc + u))
  end.

Definition diskUsage : QM Z := let* q := q_get in usage_loop (segs q) 0.

Definition Append (b : list Z) : QM unit :=
  let* q := q_get in
  match q_tail q with
  | None => throw ErrNotOpen
  | Some _ =>
      let* u := diskUsage in
      if i64 (u + zlen b) >? q_maxSize q then throw ErrQueueFull else
      catch (on_seg (q_tail q) (seg_append b)) (fun r =>
        match r with
        | inr ErrSegmentFull =>
            let* p := addSegment in
            do* q_mod (set_tail (Some p)) in
            on_seg (Some p) (seg_append b)
        | _ => ret tt
        end)
  end.

Definition Current : QM (list Z) :=
  let* q := q_get in
  match q_head q with
  | None => throw ErrNotOpen
  | Some _ => on_seg (q_head q) seg_current
  end.

Definition Advance : QM unit :=
  let* q := q_get in
  match q_head q with
  | None => throw ErrNotOpen
  | Some _ =>
      catch (on_seg (q_head q) seg_advance) (fun r =>
        match r with
        | inr io_EOF => trimHead
        | _ => ret tt
        end)
  end.

(** ** What a queue holds *)

(** The view of one segment: its pointer and file name, its consumed and its
    pending blocks. *)
Record sview := mkView {
  v_ptr : nat;
  v_path : string;
  v_cons : list (list Z);
  v_pend : list (list Z) }.

Definition v_size (v : sview) : Z := zlen (enc (v_cons v)) + zlen (enc (v_pend v)) + 8.

Fixpoint usage (vs : list sview) : Z :=
  match vs with [] => 0 | v :: vs' => v_size v + usage vs' end.

Lemma usage_app l k : usage (l ++ k) = usage l + usage k.
Proof. induction l as [|v l IH]; simpl; lia. Qed.

Lemma v_size_pos v : 8 <= v_size v.
Proof. unfold v_size. zlen_lia. Qed.

Lemma usage_nonneg l : 0 <= usage l.
Proof. induction l as [|v l IH]; simpl; [lia|]. pose proof (v_size_pos v). lia. Qed.

(** The pending blocks, oldest first: the contents of the queue. *)
Definition contents (vs : list sview) : list (list Z) := concat (map v_pend vs).
#[global] Arguments contents : simpl never.

Lemma contents_app l k : contents (l ++ k) = contents l ++ contents k.
Proof. unfold contents. rewrite map_app, concat_app. reflexivity. Qed.

Lemma contents_cons v l : contents (v :: l) = v_pend v ++ contents l.
Proof. reflexivity. Qed.

(** The heap and the disk show view [v]. *)
Definition seg_ok (st : qst) (v : sview) : Prop :=
  exists s, st_heap st !! v_ptr v = Some s
    /\ seg_path s = v_path v
    /\ seg_maxSize s = q_maxSegmentSize (st_q st)
    /\ seg_rep (st_fs st) s (v_cons v) (v_pend v).

Definition only_files (f : fs) : Prop :=
  forall n e, disk f !! n = Some e -> de_dir e = false.

Record q_rep (st : qst) (vs : list sview) : Prop := {
  qr_faults : faults (st_fs st) = [];
  qr_segs : q_segments (st_q st) = Some (map v_ptr vs);
  qr_head : q_head (st_q st) = head (map v_ptr vs);
  qr_tail : q_tail (st_q st) = last (map v_ptr vs);
  qr_ne : vs <> [];
  qr_ptrs : NoDup (map v_ptr vs);
  qr_paths : NoDup (map v_path vs);
  qr_num : Forall (fun v => is_Some (ParseUint (v_path v))) vs;
  qr_ok : Forall (seg_ok st) vs;
  qr_rec : Forall (fun v => Forall (fun r => zlen r <= q_maxSegmentSize (st_q st)) (v_pend v)) vs;
  qr_heap : forall p s, st_heap st !! p = Some s -> (p < st_next st)%nat;
  qr_files : only_files (st_fs st);
  qr_usage : usage vs < 2 ^ 62;
  qr_maxseg : q_maxSegmentSize (st_q st) < 2 ^ 61;
  qr_max : q_maxSize (st_q st) < 2 ^ 61 }.

Lemma segs_eq st vs : q_rep st vs -> segs (st_q st) = map v_ptr vs.
Proof. intros Q. unfold segs. rewrite (qr_segs _ _ Q). reflexivity. Qed.

(** The file system changed at most at file [p]. *)
Record fs_touch (p : string) (f f' : fs) : Prop := {
  ft_faults : faults f' = faults f;
  ft_now : now f' = now f;
  ft_other : forall q, q <> p -> disk f' !! q = disk f !! q;
  ft_files : only_files f -> only_files f' }.

Lemma fs_touch_refl p f : fs_touch p f f.
Proof. split; auto. Qed.

Lemma fs_touch_write p d f : fs_touch p f (write_file p d f).
Proof.
  split; auto.
  - intros q H. cbn. apply lookup_insert_ne. congruence.
  - intros Ho n e H. cbn in H. apply lookup_insert_Some in H as [[_ <-]|[_ H]]; [reflexivity|].
    exact (Ho _ _ H).
Qed.

Lemma seg_rep_touch p f f' s c l :
  fs_touch p f f' -> seg_path s <> p -> seg_rep f s c l -> seg_rep f' s c l.
Proof.
  intros T Hp [H1 [mt H2] H3 H4 H5 H6 H7]. split; auto.
  exists mt. rewrite (ft_other _ _ _ T) by exact Hp. exact H2.
Qed.

(** A segment view survives a change at another pointer and another file. *)
Lemma seg_ok_frame st f' h' n' q' v p i :
  seg_ok st v -> fs_touch p (st_fs st) f' -> v_path v <> p -> v_ptr v <> i ->
  (forall j, j <> i -> h' !! j = st_heap st !! j) ->
  q_maxSegmentSize q' = q_maxSegmentSize (st_q st) ->
  seg_ok (mkQst f' h' n' q') v.
Proof.
  intros (s & H1 & H2 & H3 & H4) T Hp Hi Hh Hq. exists s. cbn.
  rewrite Hh by exact Hi. rewrite Hq. do 3 (split; [assumption|]).
  eapply seg_rep_touch; [exact T|congruence|exact H4].
Qed.

Lemma NoDup_map_split {A B} (g : A -> B) l1 v l2 w :
  NoDup (map g (l1 ++ v :: l2)) -> In w (l1 ++ l2) -> g w <> g v.
Proof.
  intros H Hw E. rewrite map_app in H. cbn in H.
  apply NoDup_app in H as (H1 & H2 & H3). apply NoDup_cons in H3 as [H3 H4].
  apply in_app_or in Hw as [Hw|Hw]; apply (in_map g), list_elem_of_In in Hw; rewrite E in Hw.
  - apply (H2 _ Hw). left.
  - apply H3, Hw.
Qed.

(** Replace one view by what an operation made of its segment. *)
Lemma q_rep_update st l1 v l2 v' f' s' :
  q_rep st (l1 ++ v :: l2) ->
  v_ptr v' = v_ptr v -> v_path v' = v_path v ->
  fs_touch (v_path v) (st_fs st) f' ->
  seg_path s' = v_path v -> seg_maxSize s' = q_maxSegmentSize (st_q st) ->
  seg_rep f' s' (v_cons v') (v_pend v') ->
  Forall (fun r => zlen r <= q_maxSegmentSize (st_q st)) (v_pend v') ->
  usage (l1 ++ v' :: l2) < 2 ^ 62 ->
  q_rep (mkQst f' (<[v_ptr v := s']> (st_heap st)) (st_next st) (st_q st)) (l1 ++ v' :: l2).
Proof.
  intros Q Ep Ea T Hs Hm R Hr Hu. destruct Q.
  assert (forall l, map v_ptr (l ++ v' :: l2) = map v_ptr (l ++ v :: l2)) as Emap.
  { intros l. rewrite !map_app. cbn. congruence. }
  assert (map v_path (l1 ++ v' :: l2) = map v_path (l1 ++ v :: l2)) as Emap'.
  { rewrite !map_app. cbn. congruence. }
  split; cbn; rewrite ?Emap, ?Emap'; auto.
  - rewrite (ft_faults _ _ _ T). assumption.
  - destruct l1; discriminate.
  - apply Forall_app in qr_num0 as [A B]. inversion B; subst. apply Forall_app. split; [exact A|].
    constructor; [congruence|assumption].
  - assert (forall w, In w (l1 ++ l2) ->
      seg_ok (mkQst f' (<[v_ptr v:=s']> (st_heap st)) (st_next st) (st_q st)) w) as Hw.
    { intros w Hw. eapply (seg_ok_frame st _ _ _ _ w (v_path v) (v_ptr v)); auto.
      - rewrite Forall_forall in qr_ok0. apply qr_ok0, list_elem_of_In.
        apply in_app_or in Hw. apply in_or_app. simpl. tauto.
      - eapply NoDup_map_split; eassumption.
      - eapply NoDup_map_split; eassumption.
      - intros j Hj. apply lookup_insert_ne. congruence. }
    apply Forall_app. split; [|constructor].
    + apply Forall_forall. intros w H. apply Hw, in_or_app. left. apply list_elem_of_In, H.
    + exists s'. cbn. rewrite Ep, lookup_insert_eq. split; [reflexivity|].
      split; [congruence|]. split; [exact Hm|exact R].
    + apply Forall_forall. intros w H. apply Hw, in_or_app. right. apply list_elem_of_In, H.
  - apply Forall_app in qr_rec0 as [A B]. inversion B; subst. apply Forall_app. auto.
  - intros p s H. apply lookup_insert_Some in H as [[<- _]|[_ H]]; [|eauto].
    apply Forall_app in qr_ok0 as [_ B]. inversion B as [|? ? (s0 & H0 & _) _]; subst. eauto.
  - apply (ft_files _ _ _ T). assumption.
Qed.

(** ** Running the operations on a represented queue *)

Lemma on_seg_run {A} (m : SM A) st i s r f' s' :
  st_heap st !! i = Some s -> m (st_fs st, s) = (r, (f', s')) ->
  on_seg (Some i) m st = (r, mkQst f' (<[i := s']> (st_heap st)) (st_next st) (st_q st)).
Proof. intros H1 H2. unfold on_seg. rewrite H1, H2. reflexivity. Qed.

(** A method that only reads leaves the state alone. *)
Lemma on_seg_read {A} (m : SM A) st i s r :
  st_heap st !! i = Some s -> m (st_fs st, s) = (r, (st_fs st, s)) ->
  on_seg (Some i) m st = (r, st).
Proof.
  intros H1 H2. erewrite on_seg_run by eassumption.
  rewrite insert_id by exact H1. destruct st. reflexivity.
Qed.

Lemma run_seg_usage st v : seg_ok st v -> seg_usage (Some (v_ptr v)) st = (Ok (v_size v), st).
Proof.
  intros (s & H1 & H2 & H3 & H4). unfold v_size. rewrite <- (rep_size _ _ _ _ H4).
  eapply on_seg_read; [exact H1|reflexivity].
Qed.

Lemma run_usage_loop st vs acc :
  Forall (seg_ok st) vs -> 0 <= acc -> acc + usage vs < 2 ^ 63 ->
  usage_loop (map v_ptr vs) acc st = (Ok (acc + usage vs), st).
Proof.
  intros H. revert acc. induction H as [|v vs Hv Hvs IH]; intros acc Ha Hb.
  - cbn. rewrite Z.add_0_r. reflexivity.
  - cbn [map usage_loop usage] in *. pose proof (usage_nonneg vs). pose proof (v_size_pos v).
    erewrite bind_ok by (apply run_seg_usage, Hv).
    rewrite i64_small by lia. rewrite IH by lia. rewrite Z.add_assoc. reflexivity.
Qed.

Lemma run_diskUsage st vs : q_rep st vs -> diskUsage st = (Ok (usage vs), st).
Proof.
  intros Q. destruct Q. unfold diskUsage, segs. erewrite bind_ok by reflexivity.
  rewrite qr_segs0. cbn. rewrite run_usage_loop by (auto; lia). reflexivity.
Qed.

Lemma trimHead_one st v : q_rep st [v] -> trimHead st = (Ok tt, st).
Proof.
  intros Q. unfold trimHead. erewrite bind_ok by reflexivity.
  rewrite (segs_eq _ _ Q). reflexivity.
Qed.

Lemma last_cons_cons {A} (x y : A) l : last (x :: y :: l) = last (y :: l).
Proof. reflexivity. Qed.

Lemma run_close f s off :
  faults f = [] -> seg_file s = Some off -> seg_close (f, s) = (Ok tt, (f, set_file None s)).
Proof.
  intros Hf Ho. unfold seg_close. erewrite bind_ok by (eapply run_handle; exact Ho).
  unfold bind, on_fs. cbn [fst snd]. rewrite syscall_good by exact Hf. reflexivity.
Qed.

Lemma fs_touch_delete p f : fs_touch p f (set_disk (delete p (disk f)) f).
Proof.
  split; auto.
  - intros q H. cbn. apply lookup_delete_ne. congruence.
  - intros Ho n e H. cbn in H. apply lookup_delete_Some in H as [_ H]. exact (Ho _ _ H).
Qed.

(** Dropping the first segment: its pointer and file are gone, the rest is
    untouched. *)
Lemma q_rep_drop st v w vs f' h' :
  q_rep st (v :: w :: vs) -> fs_touch (v_path v) (st_fs st) f' ->
  (forall j, j <> v_ptr v -> h' !! j = st_heap st !! j) ->
  (forall j s, h' !! j = Some s -> (j < st_next st)%nat) ->
  q_rep (mkQst f' h' (st_next st)
           (set_head (Some (v_ptr w)) (set_segments (Some (map v_ptr (w :: vs))) (st_q st))))
        (w :: vs).
Proof.
  intros Q T Hh Hd. destruct Q. cbn [map] in *.
  apply NoDup_cons in qr_ptrs0 as [Hp qr_ptrs0]. apply NoDup_cons in qr_paths0 as [Ha qr_paths0].
  inversion qr_ok0; subst. inversion qr_rec0; subst. apply Forall_inv_tail in qr_num0.
  split; cbn; auto.
  - rewrite (ft_faults _ _ _ T). assumption.
  - apply Forall_forall. intros u Hu. rewrite Forall_forall in H2.
    eapply (seg_ok_frame st _ _ _ _ u (v_path v) (v_ptr v)); auto.
    + intros E. apply Ha. rewrite <- E. apply (elem_of_map v_path u (w :: vs)), Hu.
    + intros E. apply Hp. rewrite <- E. apply (elem_of_map v_ptr u (w :: vs)), Hu.
  - apply (ft_files _ _ _ T). assumption.
  - cbn [usage] in qr_usage0. pose proof (v_size_pos v). lia.
Qed.

(** The steps of [trimHead], whatever the list and the head point at. *)
Lemma run_trimHead st p h rest i s off e :
  faults (st_fs st) = [] -> segs (st_q st) = p :: h :: rest -> q_head (st_q st) = Some i ->
  st_heap st !! i = Some s -> seg_file s = Some off -> disk (st_fs st) !! seg_path s = Some e ->
  trimHead st =
    (Ok tt, mkQst (set_disk (delete (seg_path s) (disk (st_fs st))) (st_fs st))
              (<[i := set_file None s]> (st_heap st)) (st_next st)
              (set_head (Some h) (set_segments (Some (h :: rest)) (st_q st)))).
Proof.
  intros Hf Hs Hh H1 Ho Hd. unfold trimHead. erewrite bind_ok by reflexivity. rewrite Hs, Hh.
  erewrite bind_ok by reflexivity.
  erewrite bind_ok by (eapply on_seg_run; [exact H1|eapply run_close; [exact Hf|exact Ho]]).
  erewrite bind_ok by (eapply on_seg_read; [apply lookup_insert_eq|reflexivity]).
  erewrite bind_ok.
  2:{ unfold lift_fs, os_Remove. rewrite syscall_good by exact Hf. cbn. rewrite Hd. reflexivity. }
  reflexivity.
Qed.

Lemma trimHead_more st v w vs :
  q_rep st (v :: w :: vs) ->
  exists st', trimHead st = (Ok tt, st') /\ q_rep st' (w :: vs)
    /\ disk (st_fs st') = delete (v_path v) (disk (st_fs st))
    /\ now (st_fs st') = now (st_fs st)
    /\ q_maxSegmentSize (st_q st') = q_maxSegmentSize (st_q st)
    /\ q_maxSize (st_q st') = q_maxSize (st_q st).
Proof.
  intros Q. destruct (Forall_inv (qr_ok _ _ Q)) as (s & H1 & H2 & H3 & H4).
  destruct (rep_open _ _ _ _ H4) as [off Ho]. destruct (rep_data _ _ _ _ H4) as [mt Hd].
  eexists. split.
  - eapply run_trimHead; [exact (qr_faults _ _ Q)|apply (segs_eq _ _ Q)|apply (qr_head _ _ Q)|
      exact H1|exact Ho|exact Hd].
  - split; [|repeat split; cbn; congruence].
    rewrite H2. eapply (q_rep_drop st v w vs); [exact Q|apply fs_touch_delete| |].
    + intros j Hj. apply lookup_insert_ne. congruence.
    + intros j s' Hj. apply lookup_insert_Some in Hj as [[<- _]|[_ Hj]]; eauto using qr_heap.
Qed.

(** *** Adding a segment *)

Lemma max_segment_id_ge es m : m <= max_segment_id es m.
Proof.
  revert m. induction es as [|[n e] es IH]; intros m; cbn; [lia|].
  destruct (de_dir e); [apply IH|]. destruct (ParseUint n) as [id|]; [|apply IH].
  rewrite Z.gtb_ltb. destruct (Z.ltb_spec m id); [specialize (IH id)|specialize (IH m)]; lia.
Qed.

Lemma max_segment_id_in es m n e id :
  In (n, e) es -> de_dir e = false -> ParseUint n = Some id -> id <= max_segment_id es m.
Proof.
  intros Hin Hd Hp. revert m. induction es as [|[n' e'] es IH]; intros m; [destruct Hin|].
  destruct Hin as [[= -> ->]|Hin].
  - cbn. rewrite Hd, Hp. rewrite Z.gtb_ltb. destruct (Z.ltb_spec m id).
    + apply max_segment_id_ge.
    + pose proof (max_segment_id_ge es m). lia.
  - cbn. destruct (de_dir e'); [auto|]. destruct (ParseUint n'); auto.
Qed.

(** What [ReadDir] lists, and the largest segment number in it. *)
Definition listing (f : fs) : list (string * dirent) :=
  omap (fun n => match disk f !! n with Some e => Some (n, e) | None => None end)
       (merge_sort String.le (map fst (map_to_list (disk f)))).

Definition max_id (f : fs) : Z := max_segment_id (listing f) 0.

Lemma run_ReadDir f : faults f = [] -> os_ReadDir f = (Ok (listing f), f).
Proof. intros H. unfold os_ReadDir. rewrite syscall_good by exact H. reflexivity. Qed.

Lemma listing_elem f n e : (n, e) ∈ listing f <-> disk f !! n = Some e.
Proof.
  unfold listing. rewrite list_elem_of_omap. split.
  - intros (m & _ & H). destruct (disk f !! m) eqn:E; congruence.
  - intros H. exists n. rewrite H. split; [|reflexivity].
    rewrite (merge_sort_Permutation String.le). apply (elem_of_map fst (n, e)), elem_of_map_to_list, H.
Qed.

(** The next segment number names no file. *)
Lemma next_name_fresh f :
  only_files f -> max_id f + 1 < 2 ^ 64 -> disk f !! FormatUint (max_id f + 1) = None.
Proof.
  intros Ho Hb. destruct (disk f !! FormatUint (max_id f + 1)) as [e|] eqn:E; [|reflexivity].
  exfalso. pose proof (max_segment_id_ge (listing f) 0) as H0. fold (max_id f) in H0.
  assert (max_id f + 1 <= max_id f); [|lia]. apply max_segment_id_in with (n := FormatUint (max_id f + 1)) (e := e).
  - apply list_elem_of_In, listing_elem, E.
  - exact (Ho _ _ E).
  - apply ParseUint_FormatUint. split; lia.
Qed.

Lemma max_segment_id_le es m B :
  m <= B -> (forall n e id, In (n, e) es -> ParseUint n = Some id -> id <= B) ->
  max_segment_id es m <= B.
Proof.
  revert m. induction es as [|[n e] es IH]; intros m Hm H; cbn; [exact Hm|].
  assert (forall m', m' <= B -> max_segment_id es m' <= B) as IH'.
  { intros m' Hm'. apply IH; [exact Hm'|]. intros n' e' id Hin. apply (H n' e' id). right. exact Hin. }
  destruct (de_dir e); [auto|]. destruct (ParseUint n) as [id|] eqn:E; [|auto].
  apply IH'. destruct (id >? m); [|exact Hm]. apply (H n e id); [left; reflexivity|exact E].
Qed.

(** The largest segment number grows at most to that of a file added. *)
Lemma max_id_bound f f' B :
  only_files f -> max_id f <= B -> is_u64 B ->
  dom (disk f') ⊆ {[FormatUint B]} ∪ dom (disk f) -> max_id f' <= B.
Proof.
  intros Ho Hb Hu Hd. apply max_segment_id_le; [apply Hu|].
  intros n e id Hin Hp. apply list_elem_of_In, listing_elem in Hin.
  apply elem_of_dom_2, Hd in Hin. apply elem_of_union in Hin as [Hin|Hin].
  - apply elem_of_singleton in Hin. subst n. rewrite ParseUint_FormatUint in Hp by exact Hu.
    injection Hp as <-. lia.
  - apply elem_of_dom in Hin as [e' He]. etransitivity; [|exact Hb].
    eapply max_segment_id_in; [apply list_elem_of_In, listing_elem, He|exact (Ho _ _ He)|exact Hp].
Qed.

Lemma max_id_nonneg f : 0 <= max_id f.
Proof. apply max_segment_id_ge. Qed.

Lemma max_id_sub f f' :
  only_files f -> max_id f + 1 < 2 ^ 64 -> dom (disk f') ⊆ dom (disk f) -> max_id f' <= max_id f.
Proof.
  intros Ho Hb Hd. pose proof (max_id_nonneg f).
  apply (max_id_bound f f' (max_id f)); [exact Ho|lia|split; lia|].
  etransitivity; [exact Hd|]. apply union_subseteq_r.
Qed.

Lemma dom_write p d f : p ∈ dom (disk f) -> dom (disk (write_file p d f)) = dom (disk f).
Proof.
  intros H. cbn. rewrite dom_insert_L. apply subseteq_union_1_L, singleton_subseteq_l, H.
Qed.

Lemma seg_rep_dom f s c l : seg_rep f s c l -> seg_path s ∈ dom (disk f).
Proof. intros R. destruct (rep_data _ _ _ _ R) as [mt H]. apply (elem_of_dom_2 _ _ _ H). Qed.

(** A fresh empty segment at the end of the list becomes the tail. *)
Lemma q_rep_add st vs p s :
  q_rep st vs -> disk (st_fs st) !! p = None -> is_Some (ParseUint p) -> usage vs + 8 < 2 ^ 62 ->
  let f' := write_file p (be64 0) (st_fs st) in
  seg_rep f' s [] [] -> seg_path s = p -> seg_maxSize s = q_maxSegmentSize (st_q st) ->
  let v := mkView (st_next st) p [] [] in
  q_rep (mkQst f' (<[st_next st := s]> (st_heap st)) (S (st_next st))
           (set_tail (Some (v_ptr v)) (set_segments (Some (map v_ptr (vs ++ [v]))) (st_q st))))
        (vs ++ [v]).
Proof.
  intros Q Hfresh Hnum Hu f' R Hp Hm v. destruct Q.
  assert (forall u, u ∈ vs -> v_ptr u <> st_next st /\ v_path u <> p) as Hne.
  { intros u Hu'. rewrite Forall_forall in qr_ok0.
    destruct (qr_ok0 u Hu') as (s' & A & B & C & D). split; intros E.
    - apply qr_heap0 in A. lia.
    - destruct (rep_data _ _ _ _ D) as [mt Hd]. congruence. }
  assert (forall (B : Type) (g : sview -> B), NoDup (map g vs) ->
    (forall u, u ∈ vs -> g u <> g v) -> NoDup (map g (vs ++ [v]))) as Hnd.
  { intros B g H1 H2. rewrite map_app. apply NoDup_app. split; [exact H1|].
    split; [|apply NoDup_singleton]. intros x Hx H. apply list_elem_of_singleton in H. subst x.
    apply list_elem_of_In, in_map_iff in Hx as (u & E & Hx). apply list_elem_of_In in Hx.
    exact (H2 u Hx E). }
  split; cbn; auto.
  - rewrite map_app. destruct vs; [congruence|exact qr_head0].
  - rewrite map_app. symmetry. apply last_snoc.
  - destruct vs; discriminate.
  - apply Hnd; [exact qr_ptrs0|]. intros u Hu'. apply (Hne u Hu').
  - apply Hnd; [exact qr_paths0|]. intros u Hu'. apply (Hne u Hu').
  - apply Forall_app. split; [exact qr_num0|]. repeat constructor. exact Hnum.
  - apply Forall_app. split.
    + rewrite Forall_forall in qr_ok0 |- *. intros u Hu'. destruct (Hne u Hu') as [H1 H2].
      eapply (seg_ok_frame st _ _ _ _ u p (st_next st)); [auto|apply fs_touch_write|auto|auto| |auto].
      intros j Hj. apply lookup_insert_ne. congruence.
    + repeat constructor. exists s. cbn. rewrite lookup_insert_eq. auto.
  - apply Forall_app. split; [exact qr_rec0|]. repeat constructor.
  - intros i s' H. apply lookup_insert_Some in H as [[<- _]|[_ H]]; [lia|].
    apply qr_heap0 in H. lia.
  - apply (ft_files _ _ _ (fs_touch_write _ _ _) qr_files0).
  - rewrite usage_app. cbn. change (v_size v) with 8. lia.
Qed.

Lemma run_addSegment st vs :
  q_rep st vs -> max_id (st_fs st) + 1 < 2 ^ 64 -> usage vs + 8 < 2 ^ 62 ->
  exists st' v, addSegment st = (Ok (v_ptr v), st')
    /\ v_cons v = [] /\ v_pend v = [] /\ v_path v = FormatUint (max_id (st_fs st) + 1)
    /\ st_fs st' = write_file (v_path v) (be64 0) (st_fs st)
    /\ st_q st' = set_segments (Some (map v_ptr (vs ++ [v]))) (st_q st)
    /\ q_rep (set_q (set_tail (Some (v_ptr v)) (st_q st')) st') (vs ++ [v]).
Proof.
  intros Q Hid Hu. pose proof Q as Q0. destruct Q.
  set (p := FormatUint (max_id (st_fs st) + 1)).
  assert (disk (st_fs st) !! p = None) as Hfresh by (apply next_name_fresh; assumption).
  destruct (newSegment_new (st_fs st) p (q_maxSegmentSize (st_q st)) qr_faults0 Hfresh)
    as (s & Hn & R & Hp & Hm & Hs).
  set (v := mkView (st_next st) p [] []).
  exists (mkQst (write_file p (be64 0) (st_fs st)) (<[st_next st := s]> (st_heap st))
            (S (st_next st)) (set_segments (Some (map v_ptr (vs ++ [v]))) (st_q st))), v.
  split.
  { unfold addSegment. erewrite bind_ok.
    2:{ unfold nextSegmentID. erewrite bind_ok; [reflexivity|].
        unfold lift_fs. rewrite run_ReadDir by exact qr_faults0. reflexivity. }
    erewrite bind_ok by reflexivity.
    pose proof (max_segment_id_ge (listing (st_fs st)) 0) as H0. fold (max_id (st_fs st)) in *.
    rewrite u64_small by lia. fold p.
    erewrite bind_ok.
    2:{ unfold lift_fs. cbn [set_fs st_fs st_q]. rewrite Hn. reflexivity. }
    cbn. unfold segs. cbn. rewrite qr_segs0. cbn. rewrite map_app. reflexivity. }
  do 5 (split; [reflexivity|]).
  cbn. apply (q_rep_add st vs p s); auto.
  pose proof (max_id_nonneg (st_fs st)). unfold p.
  rewrite ParseUint_FormatUint by (split; lia). eauto.
Qed.

(** *** Append, Current, Advance *)

Definition same_cfg (st st' : qst) : Prop :=
  q_maxSegmentSize (st_q st') = q_maxSegmentSize (st_q st)
  /\ q_maxSize (st_q st') = q_maxSize (st_q st).

Definition push (v : sview) (b : list Z) : sview :=
  mkView (v_ptr v) (v_path v) (v_cons v) (v_pend v ++ [b]).

Definition pop (v : sview) : sview :=
  match v_pend v with
  | [] => v
  | r :: l => mkView (v_ptr v) (v_path v) (v_cons v ++ [r]) l
  end.

Lemma v_size_push v b : v_size (push v b) = v_size v + zlen b + 8.
Proof. unfold v_size, push. cbn. rewrite enc_snoc. zlen_lia. Qed.

Lemma v_size_pop v : v_size (pop v) = v_size v.
Proof.
  unfold pop. destruct (v_pend v) eqn:E; [reflexivity|].
  unfold v_size. cbn. rewrite E. zlen_lia.
Qed.

Section append.
Context (st : qst) (l : list sview) (v : sview) (b : list Z).
Context (Q : q_rep st (l ++ [v])).
Context (Hb : zlen b < 2 ^ 62).

Lemma tail_ptr : q_tail (st_q st) = Some (v_ptr v).
Proof using Q. rewrite (qr_tail _ _ Q), map_app. apply last_snoc. Qed.

Lemma tail_ok : seg_ok st v.
Proof using Q.
  pose proof (qr_ok _ _ Q) as H. apply Forall_app in H as [_ H]. inversion H; auto.
Qed.

(** The part of [Append] before the size check on the segment. *)
Lemma run_Append_check :
  usage (l ++ [v]) + zlen b <= q_maxSize (st_q st) ->
  Append b st =
    catch (on_seg (Some (v_ptr v)) (seg_append b)) (fun r =>
      match r with
      | inr ErrSegmentFull =>
          let* p := addSegment in
          do* q_mod (set_tail (Some p)) in
          on_seg (Some p) (seg_append b)
      | _ => ret tt
      end) st.
Proof using Q Hb.
  intros H. unfold Append. erewrite bind_ok by reflexivity. rewrite tail_ptr.
  erewrite bind_ok by (apply run_diskUsage; exact Q).
  pose proof (qr_usage _ _ Q). pose proof (usage_nonneg (l ++ [v])).
  rewrite i64_small by zlen_lia. rewrite Z.gtb_ltb.
  destruct (Z.ltb_spec (q_maxSize (st_q st)) (usage (l ++ [v]) + zlen b)); [lia|reflexivity].
Qed.

Lemma Append_queue_full :
  q_maxSize (st_q st) < usage (l ++ [v]) + zlen b ->
  Append b st = (Err ErrQueueFull, st).
Proof using Q Hb.
  intros H. unfold Append. erewrite bind_ok by reflexivity. rewrite tail_ptr.
  erewrite bind_ok by (apply run_diskUsage; exact Q).
  pose proof (qr_usage _ _ Q). pose proof (usage_nonneg (l ++ [v])).
  rewrite i64_small by zlen_lia. rewrite Z.gtb_ltb.
  destruct (Z.ltb_spec (q_maxSize (st_q st)) (usage (l ++ [v]) + zlen b)); [reflexivity|lia].
Qed.

Lemma Append_tail :
  b <> [] -> usage (l ++ [v]) + zlen b <= q_maxSize (st_q st) ->
  v_size v + zlen b <= q_maxSegmentSize (st_q st) ->
  exists st', Append b st = (Ok tt, st') /\ q_rep st' (l ++ [push v b]) /\ same_cfg st st'
    /\ dom (disk (st_fs st')) = dom (disk (st_fs st)).
Proof using Q Hb.
  intros Hne Hu Hs. rewrite run_Append_check by exact Hu.
  destruct tail_ok as (s & H1 & H2 & H3 & R).
  pose proof (qr_maxseg _ _ Q). pose proof (qr_max _ _ Q).
  destruct (append_ok (st_fs st) s _ _ (qr_faults _ _ Q) R b Hne) as (s' & E & R' & Ep & Em & Es).
  { rewrite (rep_size _ _ _ _ R). fold (v_size v). lia. }
  { rewrite (rep_size _ _ _ _ R). fold (v_size v). lia. }
  eexists. split.
  { unfold catch. erewrite on_seg_run by (exact H1 || exact E). reflexivity. }
  split; [|split; [split; reflexivity|]].
  - apply (q_rep_update st l v [] (push v b)); auto; cbn.
    + rewrite H2. apply fs_touch_write.
    + congruence.
    + congruence.
    + pose proof (qr_rec _ _ Q) as Hr. apply Forall_app in Hr as [_ Hr].
      apply Forall_inv in Hr. apply Forall_app. split; [exact Hr|]. repeat constructor.
      pose proof (v_size_pos v). lia.
    + rewrite usage_app in *. cbn in *. rewrite v_size_push. lia.
  - apply dom_write, (seg_rep_dom _ _ _ _ R).
Qed.

(** The tail is full: what [Append] does after [addSegment]. *)
Lemma run_Append_new :
  usage (l ++ [v]) + zlen b <= q_maxSize (st_q st) ->
  q_maxSegmentSize (st_q st) < v_size v + zlen b ->
  max_id (st_fs st) + 1 < 2 ^ 64 ->
  exists st' w,
    Append b st = on_seg (Some (v_ptr w)) (seg_append b) st'
    /\ v_cons w = [] /\ v_pend w = [] /\ v_path w = FormatUint (max_id (st_fs st) + 1)
    /\ st_fs st' = write_file (v_path w) (be64 0) (st_fs st)
    /\ q_rep st' ((l ++ [v]) ++ [w]) /\ same_cfg st st'.
Proof using Q Hb.
  intros Hu Hs Hid. rewrite run_Append_check by exact Hu.
  destruct tail_ok as (s & H1 & H2 & H3 & R).
  pose proof (qr_max _ _ Q). pose proof (zlen_nonneg b).
  destruct (run_addSegment st (l ++ [v]) Q Hid ltac:(lia))
    as (st1 & w & E & C1 & C2 & C3 & C4 & C5 & Q').
  exists (set_q (set_tail (Some (v_ptr w)) (st_q st1)) st1), w. split.
  { unfold catch. erewrite on_seg_read.
    2: exact H1.
    2:{ eapply append_full; [exact R| |exact Hb]. rewrite (rep_size _ _ _ _ R). fold (v_size v). lia. }
    cbv match. erewrite bind_ok by exact E. erewrite bind_ok by reflexivity. reflexivity. }
  do 4 (split; [assumption|]). split; [exact Q'|]. split; cbn; rewrite C5; reflexivity.
Qed.

Lemma Append_new_segment :
  b <> [] -> usage (l ++ [v]) + zlen b <= q_maxSize (st_q st) ->
  q_maxSegmentSize (st_q st) < v_size v + zlen b ->
  8 + zlen b <= q_maxSegmentSize (st_q st) ->
  max_id (st_fs st) + 1 < 2 ^ 64 ->
  exists st' w, Append b st = (Ok tt, st') /\ v_cons w = [] /\ v_pend w = [b]
    /\ q_rep st' ((l ++ [v]) ++ [w]) /\ same_cfg st st'
    /\ dom (disk (st_fs st')) = {[FormatUint (max_id (st_fs st) + 1)]} ∪ dom (disk (st_fs st)).
Proof using Q Hb.
  intros Hne Hu Hs Hfit Hid.
  destruct (run_Append_new Hu Hs Hid) as (st1 & w & E & C1 & C2 & C3 & C4 & Q' & [M1 M2]).
  pose proof (qr_ok _ _ Q') as H. apply Forall_app in H as [_ H].
  apply Forall_inv in H as (s & H1 & H2 & H3 & R).
  pose proof (qr_maxseg _ _ Q). pose proof (qr_max _ _ Q). pose proof (qr_rec _ _ Q') as Hr.
  assert (seg_size s = 8) as Es.
  { rewrite (rep_size _ _ _ _ R), C1, C2. reflexivity. }
  destruct (append_ok (st_fs st1) s _ _ (qr_faults _ _ Q') R b Hne) as (s' & E' & R' & Ep & Em & _).
  { lia. } { lia. }
  eexists _, (push w b). split.
  { rewrite E. eapply on_seg_run; [exact H1|exact E']. }
  cbn [st_fs st_q v_cons v_pend push]. rewrite C1, C2. do 2 (split; [reflexivity|]).
  split; [|split; [split; cbn; congruence|]].
  2:{ rewrite dom_write by apply (seg_rep_dom _ _ _ _ R). rewrite C4, C3. apply dom_insert_L. }
  replace (mkView _ _ _ _) with (push w b) by (unfold push; rewrite C1, C2; reflexivity).
  apply (q_rep_update st1 (l ++ [v]) w [] (push w b)); auto; cbn.
  - rewrite H2. apply fs_touch_write.
  - congruence.
  - congruence.
  - rewrite C1, C2 in *. exact R'.
  - rewrite C2. repeat constructor. rewrite M1. lia.
  - rewrite usage_app. cbn [usage]. rewrite v_size_push.
    assert (v_size w = 8) as -> by (unfold v_size; rewrite C1, C2; reflexivity). lia.
Qed.

(** A block that fits no segment is refused, but only after an empty segment
    has been added for it. *)
Lemma Append_oversize :
  usage (l ++ [v]) + zlen b <= q_maxSize (st_q st) ->
  q_maxSegmentSize (st_q st) < 8 + zlen b ->
  max_id (st_fs st) + 1 < 2 ^ 64 ->
  exists st' w, Append b st = (Err ErrSegmentFull, st') /\ v_cons w = [] /\ v_pend w = []
    /\ q_rep st' ((l ++ [v]) ++ [w]) /\ same_cfg st st'
    /\ dom (disk (st_fs st')) = {[FormatUint (max_id (st_fs st) + 1)]} ∪ dom (disk (st_fs st)).
Proof using Q Hb.
  intros Hu Hs Hid. pose proof (v_size_pos v).
  destruct (run_Append_new Hu ltac:(lia) Hid) as (st1 & w & E & C1 & C2 & C3 & C4 & Q' & [M1 M2]).
  pose proof (qr_ok _ _ Q') as H0. apply Forall_app in H0 as [_ H0].
  apply Forall_inv in H0 as (s & H1 & H2 & H3 & R).
  exists st1, w. rewrite E.
  split; [|do 3 (split; [assumption|]); split; [split; assumption|]].
  2:{ rewrite C4, C3. apply dom_insert_L. }
  eapply on_seg_read; [exact H1|]. eapply append_full; [exact R| |exact Hb].
  rewrite (rep_size _ _ _ _ R), C1, C2. change (zlen (enc [])) with 0. lia.
Qed.
End append.

Section head.
Context (st : qst) (v : sview) (vs : list sview).
Context (Q : q_rep st (v :: vs)).

Lemma head_ok : seg_ok st v.
Proof using Q. exact (Forall_inv (qr_ok _ _ Q)). Qed.

Lemma Current_empty : v_pend v = [] -> Current st = (Err io_EOF, st).
Proof using Q.
  intros E. destruct head_ok as (s & H1 & H2 & H3 & R).
  unfold Current. erewrite bind_ok by reflexivity. rewrite (qr_head _ _ Q). cbn [map head].
  eapply on_seg_read; [exact H1|]. eapply current_eof; [exact R|exact E].
Qed.

Lemma Current_cons r l :
  v_pend v = r :: l ->
  exists st', Current st = (Ok r, st') /\ q_rep st' (v :: vs) /\ same_cfg st st'
    /\ st_fs st' = st_fs st.
Proof using Q.
  intros E. destruct head_ok as (s & H1 & H2 & H3 & R).
  pose proof (Forall_inv (qr_rec _ _ Q)) as Hr. cbn beta in Hr. rewrite E in Hr. apply Forall_inv in Hr.
  destruct (current_ok (st_fs st) s _ _ (qr_faults _ _ Q) R r l E ltac:(lia))
    as (s' & E' & R' & Ep & Em & Es).
  exists (mkQst (st_fs st) (<[v_ptr v := s']> (st_heap st)) (st_next st) (st_q st)).
  split; [|split; [|split; [split; reflexivity|reflexivity]]].
  - unfold Current. erewrite bind_ok by reflexivity. rewrite (qr_head _ _ Q). cbn [map head].
    eapply on_seg_run; [exact H1|exact E'].
  - apply (q_rep_update st [] v vs v); auto.
    + apply fs_touch_refl.
    + congruence.
    + congruence.
    + exact (Forall_inv (qr_rec _ _ Q)).
    + exact (qr_usage _ _ Q).
Qed.

Lemma run_Advance :
  Advance st = catch (on_seg (Some (v_ptr v)) seg_advance) (fun r =>
      match r with inr io_EOF => trimHead | _ => ret tt end) st.
Proof using Q.
  unfold Advance. erewrite bind_ok by reflexivity. rewrite (qr_head _ _ Q). reflexivity.
Qed.

(** After the head segment's own [advance]. *)
Lemma head_advance :
  exists st', on_seg (Some (v_ptr v)) seg_advance st =
      (match v_pend v with [] | [_] => Err io_EOF | _ => Ok tt end, st')
    /\ q_rep st' (pop v :: vs) /\ same_cfg st st'
    /\ dom (disk (st_fs st')) = dom (disk (st_fs st)).
Proof using Q.
  destruct head_ok as (s & H1 & H2 & H3 & R). unfold pop.
  pose proof (qr_usage _ _ Q) as Hu. pose proof (Forall_inv (qr_rec _ _ Q)) as Hr.
  cbn beta in Hr. destruct (v_pend v) as [|r l] eqn:E.
  - destruct (advance_eof (st_fs st) s _ _ R eq_refl) as (s' & E' & R' & Ep & Em & Es).
    eexists. split; [eapply on_seg_run; [exact H1|exact E']|].
    split; [|split; [split; reflexivity|reflexivity]].
    apply (q_rep_update st [] v vs v); auto using fs_touch_refl; rewrite ?E; auto; congruence.
  - destruct (advance_ok (st_fs st) s _ _ (qr_faults _ _ Q) R r l eq_refl)
      as (s' & E' & R' & Ep & Em & Es).
    eexists. split.
    { erewrite on_seg_run by (exact H1 || exact E'). destruct l; reflexivity. }
    split; [|split; [split; reflexivity|apply dom_write, (seg_rep_dom _ _ _ _ R)]].
    apply (q_rep_update st [] v vs (mkView (v_ptr v) (v_path v) (v_cons v ++ [r]) l));
      auto; try congruence.
    + rewrite H2. apply fs_touch_write.
    + exact (Forall_inv_tail Hr).
    + cbn in *. pose proof (v_size_pop v) as Hp. unfold pop in Hp. rewrite E in Hp. lia.
Qed.

(** [Advance] drops the head block; it leaves the head segment when that
    has no further block and another segment follows. *)
Lemma Advance_spec :
  exists st', Advance st = (Ok tt, st') /\ same_cfg st st'
    /\ dom (disk (st_fs st')) ⊆ dom (disk (st_fs st))
    /\ q_rep st' (match v_pend v, vs with
                  | ([] | [_]), _ :: _ => vs
                  | _, _ => pop v :: vs
                  end).
Proof using Q.
  rewrite run_Advance. destruct head_advance as (st1 & E & Q1 & [C1 C2] & D1).
  unfold catch. rewrite E. unfold ret.
  destruct vs as [|w ws].
  - destruct (v_pend v) as [|r [|r' l]]; rewrite ?(trimHead_one st1 _ Q1);
      (eexists; split; [reflexivity|]; split; [split; assumption|]; rewrite D1;
       split; [reflexivity|assumption]).
  - destruct (trimHead_more st1 _ _ _ Q1) as (st2 & E2 & Q2 & D2 & _ & M1 & M2).
    destruct (v_pend v) as [|r [|r' l]].
    1,2: exists st2; rewrite E2, D2, <- D1; split; [reflexivity|];
      split; [split; congruence|]; split; [apply subseteq_dom, delete_subseteq|assumption].
    exists st1; rewrite D1; split; [reflexivity|]; split; [split; congruence|];
      split; [reflexivity|assumption].
Qed.
End head.
