(* ===== verification/HHFifo.v ===== *)
(** * The queue as a FIFO

    The abstract queue is the list of pending blocks.  [Class HandoffQueue] is
    what the queue promises to the node processor; the segment queue of
    [HHQueue] is an instance.  Below it: the trace theorem (appends and
    deliveries in any order), recovery by [Open], the age purge, and the three
    situations in which the code does not keep the FIFO promise. *)

From S2P Require Import Prelude OSFile HHSegment HHQueue.

(** ** The interface *)

Class HandoffQueue (Q : Type) := {
  hq_append : list Z -> M Q error unit;
  hq_current : M Q error (list Z);
  hq_advance : M Q error unit;
  (** [hq_holds q l rest]: the blocks [q] holds are [l ++ rest], oldest first;
      it hands out those of [l] and does not get to those of [rest]. *)
  hq_holds : Q -> list (list Z) -> list (list Z) -> Prop;
  (** The queue has room for the block. *)
  hq_room : Q -> list Z -> Prop;
  hq_append_ok : forall q l b, hq_holds q l [] -> hq_room q b ->
    exists q', hq_append b q = (Ok tt, q') /\ hq_holds q' (l ++ [b]) [];
  hq_current_some : forall q r l rest, hq_holds q (r :: l) rest ->
    exists q', hq_current q = (Ok r, q') /\ hq_holds q' (r :: l) rest;
  hq_current_none : forall q rest, hq_holds q [] rest -> hq_current q = (Err io_EOF, q);
  hq_advance_some : forall q r l rest, hq_holds q (r :: l) rest ->
    exists q', hq_advance q = (Ok tt, q') /\ hq_holds q' l rest }.

(** ** Every branch of Append *)

(** A block the callers write: not empty, of a length an int64 can hold. *)
Definition block (b : list Z) : Prop := b <> [] /\ zlen b < 2 ^ 61.

Definition is_ok {E A} (r : res E A) : bool := match r with Ok _ => true | _ => false end.

Lemma snoc_view (vs : list sview) : vs <> [] -> exists l v, vs = l ++ [v].
Proof. intros H. destruct (exists_last H) as (l & v & ->). eauto. Qed.

Lemma contents_push l v b : contents (l ++ [push v b]) = contents (l ++ [v]) ++ [b].
Proof.
  rewrite !contents_app, !contents_cons. change (contents []) with (@nil (list Z)).
  cbn. rewrite !app_nil_r, app_assoc. reflexivity.
Qed.

(** On success the block is at the end of the queue; on an error (queue full,
    segment full) the contents are those of before.  No branch panics. *)
Lemma Append_any st vs b :
  q_rep st vs -> block b -> max_id (st_fs st) + 1 < 2 ^ 64 ->
  exists r st' vs', Append b st = (r, st') /\ r <> Panic /\ q_rep st' vs' /\ same_cfg st st'
    /\ contents vs' = contents vs ++ (if is_ok r then [b] else [])
    /\ max_id (st_fs st') <= max_id (st_fs st) + 1
    /\ (forall x y t, vs = x :: y :: t -> exists y' t', vs' = x :: y' :: t').
Proof.
  intros Q [Hne Hb] Hid. destruct (snoc_view vs (qr_ne _ _ Q)) as (l & v & ->).
  pose proof (max_id_nonneg (st_fs st)) as H0. pose proof (qr_files _ _ Q) as Hof.
  assert (zlen b < 2 ^ 62) as Hb' by lia.
  assert (forall f', dom (disk f') = {[FormatUint (max_id (st_fs st) + 1)]} ∪ dom (disk (st_fs st)) ->
    max_id f' <= max_id (st_fs st) + 1) as Hmax.
  { intros f' Hd. apply (max_id_bound (st_fs st)); [exact Hof|lia|split; lia|]. rewrite Hd. reflexivity. }
  destruct (Z.le_gt_cases (usage (l ++ [v]) + zlen b) (q_maxSize (st_q st))) as [Hu|Hu].
  2:{ exists (Err ErrQueueFull), st, (l ++ [v]).
      rewrite (Append_queue_full st l v b Q Hb' ltac:(lia)), app_nil_r.
      split; [reflexivity|]. split; [discriminate|]. split; [exact Q|].
      split; [split; reflexivity|]. split; [reflexivity|]. split; [lia|eauto]. }
  destruct (Z.le_gt_cases (v_size v + zlen b) (q_maxSegmentSize (st_q st))) as [Hs|Hs].
  { destruct (Append_tail st l v b Q Hb' Hne Hu Hs) as (st' & E & Q' & C & D).
    exists (Ok tt), st', (l ++ [push v b]). split; [exact E|]. split; [discriminate|].
    split; [exact Q'|]. split; [exact C|]. split; [apply contents_push|]. split.
    - etransitivity; [apply (max_id_sub (st_fs st)); [exact Hof|exact Hid|]|lia].
      rewrite D. reflexivity.
    - intros x y t Ev. destruct l as [|x0 [|y0 l0]]; injection Ev as -> Et; [discriminate| |];
        cbn; eauto. }
  destruct (Z.le_gt_cases (8 + zlen b) (q_maxSegmentSize (st_q st))) as [Hf|Hf].
  - destruct (Append_new_segment st l v b Q Hb' Hne Hu ltac:(lia) Hf Hid)
      as (st' & w & E & W1 & W2 & Q' & C & D).
    exists (Ok tt), st', ((l ++ [v]) ++ [w]). split; [exact E|]. split; [discriminate|].
    split; [exact Q'|]. split; [exact C|].
    split; [|split; [apply Hmax, D|]].
    + rewrite (contents_app _ [w]), contents_cons, W2. reflexivity.
    + intros x y t Ev. rewrite Ev. cbn. eauto.
  - destruct (Append_oversize st l v b Q Hb' Hu ltac:(lia) Hid)
      as (st' & w & E & W1 & W2 & Q' & C & D).
    exists (Err ErrSegmentFull), st', ((l ++ [v]) ++ [w]). split; [exact E|].
    split; [discriminate|]. split; [exact Q'|]. split; [exact C|].
    split; [|split; [apply Hmax, D|]].
    + rewrite (contents_app _ [w]), contents_cons, W2. reflexivity.
    + intros x y t Ev. rewrite Ev. cbn. eauto.
Qed.

(** ** Delivery

    What [NodeProcessor.SendWrite] does with the queue: take the current block
    and, once it has been sent, advance. *)
Definition deliver : QM (list Z) :=
  let* r := Current in do* Advance in ret r.

Lemma pop_contents v vs r l :
  v_pend v = r :: l ->
  contents (match v_pend v, vs with ([] | [_]), _ :: _ => vs | _, _ => pop v :: vs end)
  = l ++ contents vs.
Proof.
  intros E. unfold pop. rewrite E. destruct l as [|r' l'], vs as [|w ws]; reflexivity.
Qed.

Lemma deliver_cons st v vs r l :
  q_rep st (v :: vs) -> v_pend v = r :: l -> max_id (st_fs st) + 1 < 2 ^ 64 ->
  exists st' vs', deliver st = (Ok r, st') /\ q_rep st' vs' /\ same_cfg st st'
    /\ contents vs' = l ++ contents vs /\ max_id (st_fs st') <= max_id (st_fs st)
    /\ vs' = match v_pend v, vs with ([] | [_]), _ :: _ => vs | _, _ => pop v :: vs end.
Proof.
  intros Q E Hid. destruct (Current_cons st v vs Q r l E) as (st1 & E1 & Q1 & [C1 C2] & F1).
  destruct (Advance_spec st1 v vs Q1) as (st2 & E2 & [M1 M2] & D & Q2).
  eexists st2, _. split.
  { unfold deliver. erewrite bind_ok by exact E1. erewrite bind_ok by exact E2. reflexivity. }
  split; [exact Q2|]. split; [split; congruence|]. split; [eapply pop_contents, E|].
  split; [|reflexivity]. rewrite <- F1. apply max_id_sub; [exact (qr_files _ _ Q1)|congruence|exact D].
Qed.

Lemma deliver_blocked st v vs :
  q_rep st (v :: vs) -> v_pend v = [] -> deliver st = (Err io_EOF, st).
Proof.
  intros Q E. unfold deliver. erewrite bind_err by (apply (Current_empty _ _ _ Q E)). reflexivity.
Qed.

(** ** Any interleaving of appends and deliveries *)

Inductive qop := OpAppend (b : list Z) | OpDeliver.

(** Run the operations; collect the blocks whose append returned nil and the
    blocks delivered. *)
Fixpoint exec (ops : list qop) (st : qst) : list (list Z) * list (list Z) * qst :=
  match ops with
  | [] => ([], [], st)
  | OpAppend b :: ops' =>
      let '(r, st1) := Append b st in
      let '(a, d, st2) := exec ops' st1 in
      ((if is_ok r then [b] else []) ++ a, d, st2)
  | OpDeliver :: ops' =>
      let '(r, st1) := deliver st in
      let '(a, d, st2) := exec ops' st1 in
      (a, match r with Ok x => [x] | _ => [] end ++ d, st2)
  end.

Definition op_block (o : qop) : Prop := match o with OpAppend b => block b | OpDeliver => True end.

(** C1 (refinement). Start with a queue whose segments are in order ([q_rep]) and
    let no system call fail.  Whatever the interleaving of appends and
    deliveries, the blocks delivered are exactly the first of the blocks the queue held and
    accepted, in the order they were appended; the rest is what the queue still
    holds.  An append that returns an error (a full queue, a block too large for a
    segment) contributes nothing. *)
Theorem queue_fifo (ops : list qop) (st : qst) (vs : list sview) :
  q_rep st vs -> Forall op_block ops -> max_id (st_fs st) + zlen ops < 2 ^ 64 ->
  exists vs', q_rep (exec ops st).2 vs'
    /\ contents vs ++ (exec ops st).1.1 = (exec ops st).1.2 ++ contents vs'.
Proof.
  intros Q H. revert st vs Q. induction H as [|o ops Ho _ IH]; intros st vs Q Hid.
  { exists vs. cbn. rewrite app_nil_r. auto. }
  rewrite zlen_cons in Hid. pose proof (zlen_nonneg ops). destruct o as [b|]; cbn [exec].
  - destruct (Append_any st vs b Q Ho ltac:(lia)) as (r & st1 & vs1 & E & _ & Q1 & _ & C & M & _).
    rewrite E. destruct (IH st1 vs1 Q1 ltac:(lia)) as (vs2 & Q2 & F).
    destruct (exec ops st1) as [[a d] st2]. cbn in *. exists vs2. split; [exact Q2|].
    rewrite <- F, C, app_assoc. reflexivity.
  - pose proof (qr_ne _ _ Q) as Hne. destruct vs as [|v vs]; [congruence|].
    destruct (v_pend v) as [|r l] eqn:E.
    + rewrite (deliver_blocked st v vs Q E). destruct (IH st (v :: vs) Q ltac:(lia)) as (vs2 & Q2 & F).
      destruct (exec ops st) as [[a d] st2]. exists vs2. auto.
    + destruct (deliver_cons st v vs r l Q E ltac:(lia)) as (st1 & vs1 & E1 & Q1 & _ & C & M & _).
      rewrite E1. destruct (IH st1 vs1 Q1 ltac:(lia)) as (vs2 & Q2 & F).
      destruct (exec ops st1) as [[a d] st2]. cbn in *. exists vs2. split; [exact Q2|].
      rewrite <- F, C, contents_cons, E, <- !app_assoc. reflexivity.
Qed.

(** ** Opening a queue *)

(** A queue object before [Open] on the directory [f]. *)
Definition start (f : fs) (maxSize : Z) : qst := mkQst f ∅ 0 (newQueue maxSize).

Definition first_segment : segment := mkSegment 8 (Some 8) "1" 0 0 defaultSegmentSize.

(** Opening an empty directory creates segment "1". *)
Lemma Open_empty t maxSize :
  Open (start (mkFs ∅ [] t) maxSize)
  = (Ok tt, mkQst (write_file "1" (be64 0) (mkFs ∅ [] t)) {[0%nat := first_segment]} 1
              (mkQueue (Some 0%nat) (Some 0%nat) defaultSegmentSize maxSize (Some [0%nat]))).
Proof. vm_compute. reflexivity. Qed.

Definition opened (t maxSize : Z) : qst := (Open (start (mkFs ∅ [] t) maxSize)).2.

Lemma opened_rep t maxSize :
  maxSize < 2 ^ 61 -> q_rep (opened t maxSize) [mkView 0 "1" [] []].
Proof.
  intros Hm. unfold opened. rewrite Open_empty. cbn [snd].
  split; cbn; auto.
  - apply NoDup_singleton.
  - apply NoDup_singleton.
  - repeat constructor. exists first_segment. split; [reflexivity|]. split; [reflexivity|].
    split; [reflexivity|]. split; cbn; eauto; try lia. apply file_is_write.
  - intros p s H. apply lookup_singleton_Some in H as [<- _]. lia.
  - apply (ft_files _ _ _ (fs_touch_write "1" (be64 0) _)). intros n e H. discriminate.
  - reflexivity.
  - reflexivity.
Qed.

Lemma opened_max_id t maxSize : max_id (st_fs (opened t maxSize)) = 1.
Proof. unfold opened. rewrite Open_empty. reflexivity. Qed.

Lemma queue_fifo_witness :
  exists vs', q_rep (exec [OpAppend [1; 2]; OpDeliver; OpAppend [3]; OpAppend [4]; OpDeliver]
                       (opened 5 1000)).2 vs'
    /\ contents [mkView 0 "1" [] []] ++ [[1; 2]; [3]; [4]] = [[1; 2]; [3]] ++ contents vs'.
Proof.
  apply (queue_fifo [OpAppend [1; 2]; OpDeliver; OpAppend [3]; OpAppend [4]; OpDeliver]
           (opened 5 1000) [mkView 0 "1" [] []]).
  - apply opened_rep. lia.
  - repeat constructor; discriminate.
  - rewrite opened_max_id. vm_compute. reflexivity.
Defined.

(** ** The queue implements the interface *)

(** The blocks the queue hands out and those it does not get to: [trimHead] runs
    only when an advance reaches the end of the head segment, so a segment
    that was exhausted before others followed it is never left. *)
Fixpoint handed_out (vs : list sview) : list (list Z) :=
  match vs with
  | [] => []
  | v :: vs' => match v_pend v with [] => [] | p => p ++ handed_out vs' end
  end.

Fixpoint stuck_behind (vs : list sview) : list (list Z) :=
  match vs with
  | [] => []
  | v :: vs' => match v_pend v with [] => contents vs' | _ => stuck_behind vs' end
  end.

Lemma handed_out_contents vs : contents vs = handed_out vs ++ stuck_behind vs.
Proof.
  induction vs as [|v vs IH]; [reflexivity|]. rewrite contents_cons. cbn. destruct (v_pend v) as [|r l]; [reflexivity|].
  rewrite IH. cbn. rewrite app_assoc. reflexivity.
Qed.

(** No segment but a lone one is exhausted: all blocks are handed out. *)
Definition live (vs : list sview) : Prop :=
  length vs = 1%nat \/ Forall (fun v => v_pend v <> []) vs.

Lemma live_handed_out vs : live vs -> handed_out vs = contents vs /\ stuck_behind vs = [].
Proof.
  assert (forall l, Forall (fun v => v_pend v <> []) l -> handed_out l = contents l /\ stuck_behind l = []) as All.
  { intros l H. induction H as [|v l Hv _ [IH1 IH2]]; [auto|]. rewrite contents_cons. cbn. destruct (v_pend v); [congruence|]. rewrite IH1. auto. }
  intros [H|H]; [|auto]. destruct vs as [|v [|w vs]]; try discriminate. rewrite contents_cons. cbn.
  destruct (v_pend v) as [|r l]; auto.
Qed.

Lemma handed_out_head v vs r l : handed_out (v :: vs) = r :: l -> exists p, v_pend v = r :: p /\ l = p ++ handed_out vs.
Proof. cbn. destruct (v_pend v) as [|r' p]; [discriminate|]. intros [= -> <-]. eauto. Qed.

Lemma handed_out_pop v vs r p :
  v_pend v = r :: p ->
  let vs' := match v_pend v, vs with ([] | [_]), _ :: _ => vs | _, _ => pop v :: vs end in
  handed_out vs' = p ++ handed_out vs /\ stuck_behind vs' = stuck_behind (v :: vs).
Proof.
  intros E. cbn. rewrite E. destruct p as [|r' p], vs as [|w ws]; cbn; unfold pop; rewrite ?E; cbn; auto.
Qed.

Definition queue_holds (st : qst) (l rest : list (list Z)) : Prop :=
  exists vs, q_rep st vs /\ handed_out vs = l /\ stuck_behind vs = rest.

(** Room for [b]: within the size limits, no exhausted segment before the tail,
    and not the case in which an exhausted tail would be left behind. *)
Definition queue_room (st : qst) (b : list Z) : Prop :=
  block b /\ max_id (st_fs st) + 1 < 2 ^ 64 /\ 8 + zlen b <= q_maxSegmentSize (st_q st) /\
  forall l v, q_rep st (l ++ [v]) ->
    usage (l ++ [v]) + zlen b <= q_maxSize (st_q st) /\ Forall (fun v => v_pend v <> []) l
    /\ (v_size v + zlen b <= q_maxSegmentSize (st_q st) \/ v_pend v <> []).

Lemma queue_append_ok st l b :
  queue_holds st l [] -> queue_room st b ->
  exists st', Append b st = (Ok tt, st') /\ queue_holds st' (l ++ [b]) [].
Proof.
  intros (vs & Q & <- & L) ([Hne Hb] & Hid & Hf & Hroom).
  assert (contents vs = handed_out vs) as C by (rewrite handed_out_contents, L, app_nil_r; reflexivity). rewrite <- C. clear L C.
  destruct (snoc_view vs (qr_ne _ _ Q)) as (k & v & ->).
  destruct (Hroom k v Q) as (Hu & Hk & Hor). assert (zlen b < 2 ^ 62) as Hb' by lia.
  assert (forall st' ws, q_rep st' ws -> live ws -> contents ws = contents (k ++ [v]) ++ [b] -> queue_holds st' (contents (k ++ [v]) ++ [b]) []) as Done.
  { intros st' ws Q' L' C'. destruct (live_handed_out ws L') as [H1 H2]. exists ws. split; [exact Q'|]. split; congruence. }
  destruct (Z.le_gt_cases (v_size v + zlen b) (q_maxSegmentSize (st_q st))) as [Hs|Hs].
  - destruct (Append_tail st k v b Q Hb' Hne Hu Hs) as (st' & E & Q' & _).
    exists st'. split; [exact E|]. apply (Done _ _ Q'); [|apply contents_push].
    right. apply Forall_app. split; [exact Hk|]. repeat constructor. cbn. destruct (v_pend v); discriminate.
  - destruct Hor as [Hor|Hor]; [lia|].
    destruct (Append_new_segment st k v b Q Hb' Hne Hu ltac:(lia) Hf Hid)
      as (st' & w & E & W1 & W2 & Q' & _).
    exists st'. split; [exact E|]. apply (Done _ _ Q'); [|rewrite (contents_app _ [w]), contents_cons, W2; reflexivity].
    right. rewrite !Forall_app. repeat constructor; [exact Hk|exact Hor|rewrite W2; discriminate].
Qed.

Lemma queue_current_some st r l rest :
  queue_holds st (r :: l) rest ->
  exists st', Current st = (Ok r, st') /\ queue_holds st' (r :: l) rest.
Proof.
  intros (vs & Q & E & R). destruct vs as [|v vs]; [discriminate|]. destruct (handed_out_head v vs r l E) as (p & Ev & _).
  destruct (Current_cons st v vs Q r p Ev) as (st' & E' & Q' & _).
  exists st'. split; [exact E'|]. exists (v :: vs). auto.
Qed.

Lemma queue_current_none st rest : queue_holds st [] rest -> Current st = (Err io_EOF, st).
Proof.
  intros (vs & Q & E & _). pose proof (qr_ne _ _ Q). destruct vs as [|v vs]; [congruence|].
  apply (Current_empty st v vs Q). cbn in E. destruct (v_pend v); [reflexivity|discriminate].
Qed.

Lemma queue_advance_some st r l rest :
  queue_holds st (r :: l) rest ->
  exists st', Advance st = (Ok tt, st') /\ queue_holds st' l rest.
Proof.
  intros (vs & Q & E & R). destruct vs as [|v vs]; [discriminate|]. destruct (handed_out_head v vs r l E) as (p & Ev & ->).
  destruct (Advance_spec st v vs Q) as (st' & E' & _ & _ & Q'). destruct (handed_out_pop v vs r p Ev) as [H1 H2].
  exists st'. split; [exact E'|]. eexists. split; [exact Q'|]. split; congruence.
Qed.

#[export] Instance queue_handoff : HandoffQueue qst := {|
  hq_append := Append;
  hq_current := Current;
  hq_advance := Advance;
  hq_holds := queue_holds;
  hq_room := queue_room;
  hq_append_ok := queue_append_ok;
  hq_current_some := queue_current_some;
  hq_current_none := queue_current_none;
  hq_advance_some := queue_advance_some |}.

(** ** The head segment that is never left

    [trimHead] runs only when an advance reaches the end of the head segment
    while another segment exists.  When the lone segment is exhausted first and
    the next append then starts a new one, [Current] answers EOF for ever. *)

Lemma blocked_exec ops st v w vs :
  q_rep st (v :: w :: vs) -> v_pend v = [] -> Forall op_block ops ->
  max_id (st_fs st) + zlen ops < 2 ^ 64 -> (exec ops st).1.2 = [].
Proof.
  intros Q E H. revert st w vs Q. induction H as [|o ops Ho _ IH]; intros st w vs Q Hid; [reflexivity|].
  rewrite zlen_cons in Hid. pose proof (zlen_nonneg ops). destruct o as [b|]; cbn [exec].
  - destruct (Append_any st _ b Q Ho ltac:(lia)) as (r & st1 & vs1 & E1 & _ & Q1 & _ & _ & M & K).
    destruct (K _ _ _ eq_refl) as (w' & t' & ->). rewrite E1.
    specialize (IH st1 w' t' Q1 ltac:(lia)). destruct (exec ops st1) as [[a d] st2]. exact IH.
  - rewrite (deliver_blocked st v _ Q E).
    specialize (IH st w vs Q ltac:(lia)). destruct (exec ops st) as [[a d] st2]. exact IH.
Qed.

(** The lone segment is exhausted and too full for [b]:
    [Append] accepts [b], and from then on no interleaving of appends and
    deliveries ever delivers a block, although the queue holds [b]. *)
Theorem drained_full_segment_blocks (st : qst) (v : sview) (b : list Z) :
  q_rep st [v] -> v_pend v = [] -> block b ->
  usage [v] + zlen b <= q_maxSize (st_q st) ->
  q_maxSegmentSize (st_q st) < v_size v + zlen b ->
  8 + zlen b <= q_maxSegmentSize (st_q st) ->
  max_id (st_fs st) + 2 ^ 32 < 2 ^ 64 ->
  exists st' vs', Append b st = (Ok tt, st') /\ q_rep st' vs' /\ contents vs' = [b]
    /\ forall ops, Forall op_block ops -> zlen ops < 2 ^ 31 -> (exec ops st').1.2 = [].
Proof.
  intros Q E [Hne Hb] Hu Hs Hf Hid. pose proof (max_id_nonneg (st_fs st)).
  destruct (Append_new_segment st [] v b Q ltac:(lia) Hne Hu ltac:(lia) Hf ltac:(lia))
    as (st' & w & E' & W1 & W2 & Q' & _ & D).
  exists st', [v; w]. split; [exact E'|]. split; [exact Q'|].
  split; [rewrite !contents_cons, E, W2; reflexivity|].
  intros ops Ho Hl. apply (blocked_exec ops st' v w []); auto.
  assert (max_id (st_fs st') <= max_id (st_fs st) + 1); [|lia].
  apply (max_id_bound (st_fs st)); [exact (qr_files _ _ Q)|lia|split; lia|rewrite D; reflexivity].
Qed.
