(* ===== verification/HHRecovery.v ===== *)
(** * Reconfiguring, closing, reopening and purging the queue

    [SetMaxSegmentSize], [Close], [Open] on an existing directory and
    [PurgeOlderThan] of [services/hh/queue.go], with what they do to the
    contents of the queue. *)

From S2P Require Import Prelude OSFile HHSegment HHQueue HHFifo.

(** ** SetMaxSegmentSize *)

Lemma run_setmax_loop sz ps st :
  (forall p, p ∈ ps -> is_Some (st_heap st !! p)) ->
  exists st', setmax_loop ps sz st = (Ok tt, st')
    /\ st_fs st' = st_fs st /\ st_q st' = st_q st /\ st_next st' = st_next st
    /\ (forall p, p ∈ ps -> st_heap st' !! p = set_maxSize sz <$> st_heap st !! p)
    /\ (forall p, p ∉ ps -> st_heap st' !! p = st_heap st !! p).
Proof.
  revert st. induction ps as [|p ps IH]; intros st H.
  { exists st. cbn. repeat split; auto. intros p Hp. inversion Hp. }
  destruct (H p ltac:(left)) as [s Hs]. cbn [setmax_loop].
  erewrite bind_ok by (eapply on_seg_run; [exact Hs|reflexivity]). cbn [fst snd].
  set (st1 := mkQst _ _ _ _).
  destruct (IH st1) as (st' & E & F1 & F2 & F3 & F4 & F5).
  { intros q Hq. unfold st1. cbn. destruct (decide (q = p)) as [->|Hne].
    - rewrite lookup_insert_eq. eauto.
    - rewrite lookup_insert_ne by congruence. apply H. right. exact Hq. }
  exists st'. do 4 (split; [assumption|]). split.
  - intros q Hq. destruct (decide (q ∈ ps)) as [Hin|Hout].
    + rewrite F4 by exact Hin. unfold st1. cbn. destruct (decide (q = p)) as [->|Hne].
      * rewrite lookup_insert_eq, Hs. reflexivity.
      * rewrite lookup_insert_ne by congruence. reflexivity.
    + rewrite F5 by exact Hout. apply elem_of_cons in Hq as [->|Hq]; [|contradiction].
      unfold st1. cbn. rewrite lookup_insert_eq, Hs. reflexivity.
  - intros q Hq. apply not_elem_of_cons in Hq as [Hne Hq]. rewrite F5 by exact Hq.
    unfold st1. cbn. apply lookup_insert_ne. congruence.
Qed.

(** The blocks stay; the tail is replaced when it is already too large. *)
Lemma SetMaxSegmentSize_spec st vs sz :
  q_rep st vs -> sz < 2 ^ 61 -> usage vs + 8 < 2 ^ 62 ->
  Forall (fun v => Forall (fun r => zlen r <= sz) (v_pend v)) vs ->
  max_id (st_fs st) + 1 < 2 ^ 64 ->
  exists st' vs', SetMaxSegmentSize sz st = (Ok tt, st') /\ q_rep st' vs'
    /\ q_maxSegmentSize (st_q st') = sz /\ q_maxSize (st_q st') = q_maxSize (st_q st)
    /\ contents vs' = contents vs
    /\ ((exists v, last vs = Some v /\ v_size v < sz) -> vs' = vs).
Proof.
  intros Q Hsz Hu Hr Hid. destruct (snoc_view vs (qr_ne _ _ Q)) as (l & v & ->).
  unfold SetMaxSegmentSize. erewrite bind_ok by reflexivity. erewrite bind_ok by reflexivity.
  set (st1 := set_q (set_maxSegmentSize sz (st_q st)) st).
  change (segs (st_q st1)) with (segs (st_q st)). rewrite (segs_eq _ _ Q).
  destruct (run_setmax_loop sz (map v_ptr (l ++ [v])) st1) as (st2 & E & F1 & F2 & F3 & F4 & F5).
  { intros p Hp. apply list_elem_of_In, in_map_iff in Hp as (u & <- & Hu'). apply list_elem_of_In in Hu'.
    pose proof (qr_ok _ _ Q) as Hok. rewrite Forall_forall in Hok.
    destruct (Hok u Hu') as (s & Hs & _). cbn. eauto. }
  erewrite bind_ok by exact E.
  assert (q_rep st2 (l ++ [v])) as Q2.
  { destruct Q as [q1 q2 q3 q4 q5 q6 q7 q8 q9 q10 q11 q12 q13 q14 q15].
    split; rewrite ?F1, ?F2, ?F3; cbn; auto.
    - rewrite Forall_forall in q9 |- *. intros u Hu'.
      destruct (q9 u Hu') as (s & H1 & H2 & H3 & [R1 R2 R3 R4 R5 R6 R7]).
      exists (set_maxSize sz s). rewrite F4 by (apply elem_of_map, Hu'). cbn. rewrite H1, F1, F2.
      split; [reflexivity|]. split; [exact H2|]. split; [reflexivity|]. split; assumption.
    - intros p s Hp. destruct (decide (p ∈ map v_ptr (l ++ [v]))) as [Hin|Hout].
      + rewrite F4 in Hp by exact Hin. apply fmap_Some in Hp as (s0 & Hp & _). eauto.
      + rewrite F5 in Hp by exact Hout. eauto. }
  assert (q_tail (st_q st1) = Some (v_ptr v)) as -> by (apply (tail_ptr st l v Q)).
  erewrite bind_ok by (apply run_seg_usage, (tail_ok st2 l v Q2)). cbn [st1 set_q st_q q_maxSegmentSize set_maxSegmentSize].
  rewrite Z.geb_leb. destruct (Z.leb_spec sz (v_size v)) as [Hle|Hle].
  - destruct (run_addSegment st2 (l ++ [v]) Q2) as (st3 & w & E3 & C1 & C2 & C3 & C4 & C5 & Q3);
      [rewrite F1; exact Hid|exact Hu|].
    exists (set_q (set_tail (Some (v_ptr w)) (st_q st3)) st3), ((l ++ [v]) ++ [w]). split.
    { erewrite bind_ok by exact E3. reflexivity. }
    split; [exact Q3|]. cbn. rewrite C5, F2. cbn. split; [reflexivity|]. split; [reflexivity|].
    split; [rewrite (contents_app _ [w]), contents_cons, C2, app_nil_r; reflexivity|].
    intros (v' & Hv & Hlt). rewrite last_snoc in Hv. injection Hv as <-. lia.
  - exists st2, (l ++ [v]). split; [reflexivity|]. split; [exact Q2|]. rewrite F2. auto.
Qed.

(** ** Close *)

Lemma seg_ok_heap st i s' v :
  seg_ok st v -> v_ptr v <> i ->
  seg_ok (mkQst (st_fs st) (<[i := s']> (st_heap st)) (st_next st) (st_q st)) v.
Proof.
  intros (s & H1 & H2) Hi. exists s. cbn. rewrite lookup_insert_ne by congruence. auto.
Qed.

Lemma run_close_loop vs st :
  faults (st_fs st) = [] -> NoDup (map v_ptr vs) -> Forall (seg_ok st) vs ->
  exists st', close_loop (map v_ptr vs) st = (Ok tt, st')
    /\ st_fs st' = st_fs st /\ st_q st' = st_q st.
Proof.
  revert st. induction vs as [|v vs IH]; intros st Hf Hn H.
  { exists st. auto. }
  inversion H as [|? ? (s & H1 & H2 & H3 & R) Hvs]; subst. cbn in Hn. apply NoDup_cons in Hn as [Hv Hn].
  destruct (rep_open _ _ _ _ R) as [off Ho]. cbn [map close_loop].
  erewrite bind_ok by (eapply on_seg_run; [exact H1|eapply run_close; [exact Hf|exact Ho]]).
  destruct (IH (mkQst (st_fs st) (<[v_ptr v := set_file None s]> (st_heap st)) (st_next st) (st_q st)))
    as (st' & E & F1 & F2); cbn; auto.
  - rewrite Forall_forall in Hvs |- *. intros u Hu. apply seg_ok_heap; [auto|].
    intros Eq. apply Hv. rewrite <- Eq. apply elem_of_map, Hu.
  - exists st'. auto.
Qed.

Lemma Close_spec st vs :
  q_rep st vs -> exists st', Close st = (Ok tt, st') /\ st_fs st' = st_fs st
    /\ q_head (st_q st') = None /\ q_tail (st_q st') = None /\ q_segments (st_q st') = None.
Proof.
  intros Q. unfold Close. erewrite bind_ok by reflexivity. rewrite (segs_eq _ _ Q).
  destruct (run_close_loop vs st (qr_faults _ _ Q) (qr_ptrs _ _ Q) (qr_ok _ _ Q))
    as (st' & E & F1 & F2).
  erewrite bind_ok by exact E. eexists. split; [reflexivity|]. cbn. auto.
Qed.

(** ** Open on an existing directory *)

(** One segment file of a directory: name, consumed and pending blocks. *)
Record segfile := mkSegfile { sf_name : string; sf_cons : list (list Z); sf_pend : list (list Z) }.

Definition sf_size (d : segfile) : Z := zlen (enc (sf_cons d)) + zlen (enc (sf_pend d)) + 8.

Definition sf_ok (f : fs) (d : segfile) : Prop :=
  is_Some (ParseUint (sf_name d))
  /\ file_is f (sf_name d) (enc (sf_cons d) ++ enc (sf_pend d) ++ be64 (zlen (enc (sf_cons d))))
  /\ Forall (fun r => r <> [] /\ zlen r <= defaultSegmentSize) (sf_pend d)
  /\ sf_size d < 2 ^ 62.

(** The views of the segments loaded from the files, allocated from [k] on. *)
Fixpoint load_views (k : nat) (ds : list segfile) : list sview :=
  match ds with
  | [] => []
  | d :: ds' => mkView k (sf_name d) (sf_cons d) (sf_pend d) :: load_views (S k) ds'
  end.

Lemma load_views_ptr k ds u : u ∈ load_views k ds -> (k <= v_ptr u < k + length ds)%nat.
Proof.
  revert k. induction ds as [|d ds IH]; intros k H; [inversion H|].
  cbn in *. apply elem_of_cons in H as [->|H]; [cbn; lia|]. apply IH in H. lia.
Qed.

Lemma load_views_ptr_nodup k ds : NoDup (map v_ptr (load_views k ds)).
Proof.
  revert k. induction ds as [|d ds IH]; intros k; cbn; constructor; [|apply IH].
  intros H. apply list_elem_of_In, in_map_iff in H as (u & E & H). apply list_elem_of_In, load_views_ptr in H. lia.
Qed.

Lemma load_views_path k ds : map v_path (load_views k ds) = map sf_name ds.
Proof. revert k. induction ds as [|d ds IH]; intros k; cbn; [reflexivity|]. f_equal. apply IH. Qed.

Lemma load_views_pend k ds : map v_pend (load_views k ds) = map sf_pend ds.
Proof. revert k. induction ds as [|d ds IH]; intros k; cbn; [reflexivity|]. f_equal. apply IH. Qed.

Lemma run_load_loop ds es acc st :
  faults (st_fs st) = [] -> map fst es = map sf_name ds -> Forall (sf_ok (st_fs st)) ds ->
  Forall (fun e => de_dir e.2 = false) es ->
  q_maxSegmentSize (st_q st) = defaultSegmentSize ->
  (forall p s, st_heap st !! p = Some s -> (p < st_next st)%nat) ->
  exists st', load_loop es acc st = (Ok (acc ++ map v_ptr (load_views (st_next st) ds)), st')
    /\ st_fs st' = st_fs st /\ st_q st' = st_q st
    /\ (forall p, (p < st_next st)%nat -> st_heap st' !! p = st_heap st !! p)
    /\ (forall p s, st_heap st' !! p = Some s -> (p < st_next st')%nat)
    /\ Forall (seg_ok st') (load_views (st_next st) ds).
Proof.
  intros Hf. revert es acc st Hf. induction ds as [|d ds IH]; intros es acc st Hf En Hds Hes Hm Hh.
  { destruct es; [|discriminate]. exists st. cbn. rewrite app_nil_r. auto 10. }
  destruct es as [|[n e] es]; [discriminate|]. cbn in En. injection En as -> En.
  inversion Hds as [|? ? ([id Hid] & Hd & Hp & Hsz) Hds']; subst. inversion Hes as [|? ? He Hes']; subst.
  cbn [load_loop]. cbn in He. rewrite He, Hid. erewrite bind_ok by reflexivity. rewrite Hm.
  destruct (newSegment_existing (st_fs st) (sf_name d) defaultSegmentSize _ _ Hf Hd)
    as (s & E & R & P1 & P2).
  { eapply Forall_impl; [exact Hp|]. intros r [Hr _]. exact Hr. }
  { exact Hsz. }
  erewrite bind_ok.
  2:{ unfold lift_fs. rewrite E. reflexivity. }
  erewrite bind_ok by reflexivity. cbn [set_fs st_fs st_heap st_next st_q].
  set (st1 := mkQst _ _ _ _).
  destruct (IH es (acc ++ [st_next st]) st1) as (st' & E' & F1 & F2 & F3 & F4 & F5); auto.
  { intros p s' Hs. unfold st1 in *. cbn in *.
    apply lookup_insert_Some in Hs as [[<- _]|[_ Hs]]; [lia|]. apply Hh in Hs. lia. }
  exists st'. split.
  { rewrite E'. unfold st1. cbn. rewrite <- app_assoc. reflexivity. }
  split; [exact F1|]. split; [exact F2|]. unfold st1 in *. cbn in *. split.
  { intros p Hp'. rewrite F3 by lia. apply lookup_insert_ne. lia. }
  split; [exact F4|]. constructor; [|exact F5].
  exists s. cbn. rewrite F3 by lia. rewrite lookup_insert_eq, F1, F2, Hm. auto.
Qed.

Lemma listing_names f :
  map fst (listing f) = merge_sort String.le (map fst (map_to_list (disk f))).
Proof.
  unfold listing.
  assert (forall n, n ∈ merge_sort String.le (map fst (map_to_list (disk f))) -> is_Some (disk f !! n)) as H.
  { intros n Hn. rewrite merge_sort_Permutation in Hn.
    apply list_elem_of_In, in_map_iff in Hn as ([n' e] & <- & Hn). apply list_elem_of_In, elem_of_map_to_list in Hn. eauto. }
  induction (merge_sort _ _) as [|n l IH]; [reflexivity|].
  cbn. destruct (H n ltac:(left)) as [e He]. rewrite He. cbn. f_equal. apply IH.
  intros m Hm. apply H. right. exact Hm.
Qed.

Lemma listing_nodup f : NoDup (map fst (listing f)).
Proof. rewrite listing_names, merge_sort_Permutation. apply NoDup_fst_map_to_list. Qed.

Lemma load_views_usage k ds : usage (load_views k ds) = foldr (fun d a => sf_size d + a) 0 ds.
Proof. revert k. induction ds as [|d ds IH]; intros k; cbn; [reflexivity|]. rewrite IH. reflexivity. Qed.

Definition dir_size (ds : list segfile) : Z := foldr (fun d a => sf_size d + a) 0 ds.

(** A directory whose files, in [ReadDir] order, are the segment files [ds]. *)
Record dir_holds (f : fs) (ds : list segfile) : Prop := {
  dh_faults : faults f = [];
  dh_files : only_files f;
  dh_names : map fst (listing f) = map sf_name ds;
  dh_ok : Forall (sf_ok f) ds;
  dh_size : dir_size ds < 2 ^ 62;
  dh_ne : ds <> [] }.

(** The state [Open] has built when it asks the head for its current block. *)
Lemma run_Open_load f ds maxSize :
  dir_holds f ds -> maxSize < 2 ^ 61 ->
  let vs := load_views 0 ds in
  exists st1, q_rep st1 vs /\ st_fs st1 = f /\
    Open (start f maxSize) =
      catch Current (fun r => match r with inr io_EOF => trimHead | _ => ret tt end) st1.
Proof.
  intros [Hf Ho En Hok Hsz Hne] Hm vs.
  destruct (run_load_loop ds (listing f) [] (start f maxSize)) as (st' & E & F1 & F2 & _ & F4 & F5); auto.
  { apply Forall_forall. intros [n e] H. cbn. apply (Ho n), listing_elem, H. }
  { intros p s H. cbn in H. discriminate. }
  cbn in E, F1, F2, F5. fold vs in E, F5.
  destruct vs as [|v vs'] eqn:Evs; [destruct ds; [congruence|discriminate]|].
  set (q1 := mkQueue (Some (v_ptr v)) (last (map v_ptr (v :: vs'))) defaultSegmentSize maxSize
               (Some (map v_ptr (v :: vs')))).
  exists (set_q q1 st').
  pose proof (load_views_ptr_nodup 0 ds) as N1. pose proof (load_views_path 0 ds) as N2.
  pose proof (load_views_pend 0 ds) as N3. pose proof (load_views_usage 0 ds) as N4.
  unfold vs in Evs. rewrite Evs in N1, N2, N3, N4.
  assert (Forall (fun n => is_Some (ParseUint n)) (map v_path (v :: vs'))) as N5.
  { rewrite N2. apply Forall_map. eapply Forall_impl; [exact Hok|]. intros d [H _]. exact H. }
  assert (Forall (Forall (fun r => zlen r <= defaultSegmentSize)) (map v_pend (v :: vs'))) as N6.
  { rewrite N3. apply Forall_map. eapply Forall_impl; [exact Hok|].
    intros d (_ & _ & H & _). eapply Forall_impl; [exact H|]. intros r [_ Hr]. exact Hr. }
  assert (q_rep (set_q q1 st') (v :: vs')) as Q.
  { split; cbn -[usage map]; rewrite ?F1; auto.
    - rewrite N2, <- En. apply listing_nodup.
    - exact (proj1 (Forall_map v_path (fun n => is_Some (ParseUint n)) (v :: vs')) N5).
    - eapply Forall_impl; [exact F5|]. intros u (s & H1 & H2 & H3 & H4). exists s.
      rewrite F2 in H3. cbn in *. auto.
    - exact (proj1 (Forall_map v_pend _ (v :: vs')) N6).
    - rewrite N4. exact Hsz.
    - unfold defaultSegmentSize. lia. }
  split; [exact Q|]. split; [exact F1|].
  unfold Open, loadSegments. erewrite bind_ok.
  2:{ erewrite bind_ok.
      2:{ unfold lift_fs. rewrite run_ReadDir by exact Hf. reflexivity. }
      cbn [set_fs]. exact E. }
  cbn [app]. erewrite bind_ok by reflexivity. cbn [map]. erewrite bind_ok by reflexivity.
  erewrite bind_ok by reflexivity. cbn [set_q st_q segs q_segments set_segments].
  unfold segs. cbn [set_segments q_segments default from_option id head].
  destruct (last (v_ptr v :: map v_ptr vs')) as [t|] eqn:El.
  2:{ apply last_None in El. discriminate. }
  erewrite bind_ok by reflexivity. erewrite bind_ok by reflexivity.
  unfold catch, Current, bind, q_get. cbn. rewrite F2. unfold q1. cbn in El |- *. rewrite El. reflexivity.
Qed.

Lemma load_views_contents k ds : contents (load_views k ds) = concat (map sf_pend ds).
Proof. unfold contents. rewrite load_views_pend. reflexivity. Qed.

(** [Open] brings back every pending block, in the order [ReadDir] lists the
    segment files; an exhausted first segment is dropped if others follow. *)
Lemma Open_recovers f ds maxSize :
  dir_holds f ds -> maxSize < 2 ^ 61 ->
  exists st' vs', Open (start f maxSize) = (Ok tt, st') /\ q_rep st' vs'
    /\ contents vs' = concat (map sf_pend ds)
    /\ (Forall (fun d => sf_pend d <> []) (tail ds) -> live vs').
Proof.
  intros D Hm. destruct (run_Open_load f ds maxSize D Hm) as (st1 & Q & F & ->).
  rewrite <- (load_views_contents 0 ds). pose proof (dh_ne _ _ D) as Hne.
  assert (Forall (fun d => sf_pend d <> []) (tail ds) ->
          Forall (fun v => v_pend v <> []) (tail (load_views 0 ds))) as Hlive.
  { intros H. destruct ds as [|d ds]; [constructor|]. cbn in *.
    apply (proj1 (Forall_map v_pend (fun p => p <> []) (load_views 1 ds))). rewrite load_views_pend.
    apply (proj2 (Forall_map sf_pend (fun p => p <> []) ds)), H. }
  destruct (load_views 0 ds) as [|v vs] eqn:Ev; [destruct ds; [congruence|discriminate]|].
  unfold catch. destruct (v_pend v) as [|r l] eqn:Ep.
  - rewrite (Current_empty st1 v vs Q Ep). destruct vs as [|w ws].
    + rewrite (trimHead_one st1 v Q). exists st1, [v].
      split; [reflexivity|]. split; [exact Q|]. split; [reflexivity|]. left. reflexivity.
    + destruct (trimHead_more st1 v w ws Q) as (st2 & E & Q2 & _). rewrite E. exists st2, (w :: ws).
      split; [reflexivity|]. split; [exact Q2|].
      split; [rewrite (contents_cons v), Ep; reflexivity|]. intros H. right. apply Hlive, H.
  - destruct (Current_cons st1 v vs Q r l Ep) as (st2 & E & Q2 & _). rewrite E. exists st2, (v :: vs).
    split; [reflexivity|]. split; [exact Q2|]. split; [reflexivity|]. intros H. right.
    constructor; [congruence|apply Hlive, H].
Qed.

Definition file_of (v : sview) : segfile := mkSegfile (v_path v) (v_cons v) (v_pend v).

(** The directory of a queue whose segment names are sorted as strings. *)
Lemma dir_holds_of_queue st vs :
  q_rep st vs -> q_maxSegmentSize (st_q st) <= defaultSegmentSize ->
  dom (disk (st_fs st)) = list_to_set (map v_path vs) ->
  StronglySorted String.le (map v_path vs) ->
  dir_holds (st_fs st) (map file_of vs).
Proof.
  intros Q Hms Hdom Hs. destruct Q as [q1 q2 q3 q4 q5 q6 q7 q8 q9 q10 q11 q12 q13 q14 q15].
  split; auto.
  - rewrite listing_names, map_map. cbn.
    apply (StronglySorted_unique String.le); [|exact Hs|].
    + apply StronglySorted_merge_sort; apply _.
    + rewrite merge_sort_Permutation. apply NoDup_Permutation; [apply NoDup_fst_map_to_list|exact q7|].
      intros n. assert (n ∈ map v_path vs <-> is_Some (disk (st_fs st) !! n)) as ->.
      { rewrite <- elem_of_dom, Hdom, elem_of_list_to_set. reflexivity. }
      split.
      * intros H. apply list_elem_of_In, in_map_iff in H as ([n' e] & <- & H).
        apply list_elem_of_In, elem_of_map_to_list in H. cbn. eauto.
      * intros [e H]. apply (elem_of_map fst (n, e)), elem_of_map_to_list, H.
  - apply Forall_map. rewrite Forall_forall in *. intros v Hv.
    destruct (q9 v Hv) as (s & H1 & H2 & H3 & R). split; [apply (q8 v Hv)|]. cbn. rewrite <- H2.
    split; [apply (rep_data _ _ _ _ R)|]. split.
    + apply Forall_forall. intros r Hr. split.
      * pose proof (rep_ne _ _ _ _ R) as Hn. rewrite Forall_forall in Hn. auto.
      * specialize (q10 v Hv). rewrite Forall_forall in q10. specialize (q10 r Hr). lia.
    + unfold sf_size. cbn. rewrite <- (rep_size _ _ _ _ R). apply (rep_bound _ _ _ _ R).
  - assert (dir_size (map file_of vs) = usage vs) as ->; [|exact q13].
    clear. unfold dir_size. induction vs as [|v vs IH]; cbn; [reflexivity|]. rewrite IH. reflexivity.
  - destruct vs; [congruence|discriminate].
Qed.

(** C18 (recovery). A queue that is closed and opened again from its directory
    holds the same blocks in the same order, provided its segment file names
    are sorted as strings. *)
Theorem reopen_preserves (st : qst) (vs : list sview) (maxSize : Z) :
  q_rep st vs -> q_maxSegmentSize (st_q st) <= defaultSegmentSize ->
  dom (disk (st_fs st)) = list_to_set (map v_path vs) ->
  StronglySorted String.le (map v_path vs) -> maxSize < 2 ^ 61 ->
  exists st1 st2 vs', Close st = (Ok tt, st1) /\ Open (start (st_fs st1) maxSize) = (Ok tt, st2)
    /\ q_rep st2 vs' /\ contents vs' = contents vs.
Proof.
  intros Q Hms Hd Hs Hm. destruct (Close_spec st vs Q) as (st1 & E1 & F & _).
  destruct (Open_recovers (st_fs st) (map file_of vs) maxSize (dir_holds_of_queue st vs Q Hms Hd Hs) Hm)
    as (st2 & vs' & E2 & Q2 & C & _).
  exists st1, st2, vs'. rewrite F. split; [exact E1|]. split; [exact E2|]. split; [exact Q2|].
  rewrite C, map_map. reflexivity.
Qed.

(** ** PurgeOlderThan *)

Definition mtime (f : fs) (v : sview) : Z :=
  match disk f !! v_path v with Some e => de_mtime e | None => 0 end.

(** The segments left after dropping the leading ones last written before
    [cutoff]. *)
Fixpoint drop_old (f : fs) (cutoff : Z) (vs : list sview) : list sview :=
  match vs with
  | [] => []
  | v :: vs' => if cutoff <=? mtime f v then vs else drop_old f cutoff vs'
  end.

Lemma run_lastModified st v :
  faults (st_fs st) = [] -> seg_ok st v ->
  on_seg (Some (v_ptr v)) seg_lastModified st = (Ok (mtime (st_fs st) v), st).
Proof.
  intros Hf (s & H1 & H2 & H3 & R). eapply on_seg_read; [exact H1|].
  destruct (rep_open _ _ _ _ R) as [off Ho]. destruct (rep_data _ _ _ _ R) as [mt Hd].
  unfold seg_lastModified, bind, seg_get, on_fs, os_Stat. cbn [fst snd]. rewrite Ho.
  rewrite syscall_good by exact Hf. cbn [fst snd]. unfold mtime. rewrite <- H2, Hd. reflexivity.
Qed.

(** One round of the loop on a queue. *)
Lemma run_purge_step fuel cutoff st v vs :
  q_rep st (v :: vs) ->
  purge_loop (S fuel) cutoff st =
    (if cutoff <=? mtime (st_fs st) v then ret tt else
     do* (match segs (st_q st) with [_] => do* addSegment in ret tt | _ => ret tt end) in
     do* trimHead in purge_loop fuel cutoff) st.
Proof.
  intros Q. cbn [purge_loop]. erewrite bind_ok by reflexivity. rewrite (qr_head _ _ Q). cbn [map head].
  erewrite bind_ok by (apply run_lastModified; [exact (qr_faults _ _ Q)|exact (head_ok _ _ _ Q)]).
  reflexivity.
Qed.

Lemma drop_old_delete f f' p cutoff vs :
  disk f' = delete p (disk f) -> p ∉ map v_path vs -> drop_old f' cutoff vs = drop_old f cutoff vs.
Proof.
  intros Hd. induction vs as [|v vs IH]; intros Hp; cbn; [reflexivity|].
  cbn in Hp. apply not_elem_of_cons in Hp as [Hne Hp]. rewrite IH by exact Hp.
  unfold mtime. rewrite Hd, lookup_delete_ne by congruence. reflexivity.
Qed.

Lemma purge_loop_young fuel cutoff st vs :
  q_rep st vs -> drop_old (st_fs st) cutoff vs <> [] -> (length vs <= fuel)%nat ->
  exists st', purge_loop fuel cutoff st = (Ok tt, st') /\ q_rep st' (drop_old (st_fs st) cutoff vs).
Proof.
  revert st vs. induction fuel as [|fuel IH]; intros st vs Q Hy Hl.
  { pose proof (qr_ne _ _ Q). destruct vs; [congruence|cbn in Hl; lia]. }
  destruct vs as [|v vs]; [destruct (qr_ne _ _ Q); reflexivity|].
  rewrite (run_purge_step _ _ _ _ _ Q). cbn [drop_old] in *.
  destruct (Z.leb_spec cutoff (mtime (st_fs st) v)) as [Hle|Hgt].
  { exists st. split; [reflexivity|exact Q]. }
  destruct vs as [|w ws]; [cbn in Hy; congruence|].
  rewrite (segs_eq _ _ Q). cbn [map]. erewrite bind_ok by reflexivity.
  destruct (trimHead_more st v w ws Q) as (st1 & E & Q1 & D & _).
  erewrite bind_ok by exact E.
  pose proof (qr_paths _ _ Q) as Hn. cbn [map] in Hn. apply NoDup_cons in Hn as [Hn _].
  rewrite <- (drop_old_delete _ _ _ cutoff (w :: ws) D Hn) in Hy |- *.
  apply IH; [exact Q1|exact Hy|cbn in *; lia].
Qed.

(** While some segment is young enough, purging drops exactly the
    leading segments that were last written before the cutoff and keeps every
    other block, in order. *)
Theorem purge_drops_old_prefix (st : qst) (vs : list sview) (t : Z) :
  q_rep st vs -> drop_old (st_fs st) (truncate_second t) vs <> [] ->
  exists st', PurgeOlderThan t st = (Ok tt, st')
    /\ q_rep st' (drop_old (st_fs st) (truncate_second t) vs).
Proof.
  intros Q Hy. unfold PurgeOlderThan. erewrite bind_ok by reflexivity. rewrite (segs_eq _ _ Q).
  destruct (map v_ptr vs) as [|p ps] eqn:E.
  { destruct vs; [destruct (qr_ne _ _ Q); reflexivity|discriminate]. }
  rewrite <- E. apply purge_loop_young; [exact Q|exact Hy|]. rewrite length_map. lia.
Qed.

(** When every segment is old, the last round adds a segment to have one to go
    on with, but [tail] still points at the segment it then closes and
    removes. *)
Record detached (st : qst) (w : sview) : Prop := {
  dt_faults : faults (st_fs st) = [];
  dt_segs : q_segments (st_q st) = Some [v_ptr w];
  dt_head : q_head (st_q st) = Some (v_ptr w);
  dt_tail : exists p s, q_tail (st_q st) = Some p /\ st_heap st !! p = Some s /\ seg_file s = None;
  dt_ok : seg_ok st w;
  dt_empty : v_cons w = [] /\ v_pend w = [] }.

Lemma purge_last_detaches fuel cutoff st v :
  q_rep st [v] -> mtime (st_fs st) v < cutoff <= now (st_fs st) ->
  max_id (st_fs st) + 1 < 2 ^ 64 -> usage [v] + 8 < 2 ^ 62 ->
  exists st' w, purge_loop (S (S fuel)) cutoff st = (Ok tt, st') /\ detached st' w
    /\ same_cfg st st'.
Proof.
  intros Q [Hold Hnow] Hid Hu. rewrite (run_purge_step _ _ _ _ _ Q).
  destruct (Z.leb_spec cutoff (mtime (st_fs st) v)) as [Hle|_]; [lia|].
  rewrite (segs_eq _ _ Q). cbn [map].
  destruct (run_addSegment st [v] Q Hid Hu) as (st1 & w & E & C1 & C2 & C3 & C4 & C5 & Q1).
  erewrite bind_ok by (erewrite bind_ok by exact E; reflexivity).
  destruct (head_ok _ _ _ Q1) as (s & H1 & H2 & H3 & R). cbn in H1, R.
  destruct (rep_open _ _ _ _ R) as [off Ho]. destruct (rep_data _ _ _ _ R) as [mt Hd].
  pose proof (qr_faults _ _ Q1) as Hf1. cbn in Hf1.
  pose proof (NoDup_map_split v_ptr [] v [w] w (qr_ptrs _ _ Q1) ltac:(left; reflexivity)) as Hp.
  pose proof (NoDup_map_split v_path [] v [w] w (qr_paths _ _ Q1) ltac:(left; reflexivity)) as Hpa.
  erewrite bind_ok.
  2:{ eapply (run_trimHead st1 (v_ptr v) (v_ptr w) []); [exact Hf1| | |exact H1|exact Ho|exact Hd].
      - rewrite C5. reflexivity.
      - rewrite C5. apply (qr_head _ _ Q). }
  rewrite H2. set (st2 := mkQst _ _ _ _).
  assert (seg_ok st2 w) as Hw.
  { eapply (seg_ok_frame _ _ _ _ _ w (v_path v) (v_ptr v));
      [exact (Forall_inv (Forall_inv_tail (qr_ok _ _ Q1)))|apply fs_touch_delete|exact Hpa|exact Hp| |reflexivity].
    intros j Hj. apply lookup_insert_ne. congruence. }
  exists st2, w. split; [|split].
  - cbn [purge_loop]. erewrite bind_ok by reflexivity. cbn [st_q st2 q_head set_head].
    erewrite bind_ok by (apply run_lastModified; [exact Hf1|exact Hw]).
    assert (mtime (st_fs st2) w = now (st_fs st)) as ->.
    { unfold mtime. cbn. rewrite lookup_delete_ne by congruence. rewrite C4. cbn.
      rewrite lookup_insert_eq. reflexivity. }
    destruct (Z.leb_spec cutoff (now (st_fs st))); [reflexivity|lia].
  - split; cbn; auto.
    exists (v_ptr v), (set_file None s). rewrite C5. cbn. rewrite (qr_tail _ _ Q), lookup_insert_eq. auto.
  - split; cbn; rewrite C5; reflexivity.
Qed.

(** On a detached queue [Append] reports success and stores nothing. *)
Lemma detached_Append st w b :
  detached st w -> 8 + zlen b <= q_maxSize (st_q st) -> zlen b < 2 ^ 62 ->
  Append b st = (Ok tt, st).
Proof.
  intros [D1 D2 D3 (p & s & T1 & T2 & T3) D5 [D6 D7]] Hm Hb.
  unfold Append. erewrite bind_ok by reflexivity. rewrite T1.
  erewrite bind_ok.
  2:{ unfold diskUsage. erewrite bind_ok by reflexivity. unfold segs. rewrite D2. cbn.
      apply (run_usage_loop st [w] 0); [repeat constructor; exact D5|lia|].
      cbn. unfold v_size. rewrite D6, D7. reflexivity. }
  cbn [usage]. assert (v_size w = 8) as -> by (unfold v_size; rewrite D6, D7; reflexivity).
  rewrite i64_small by zlen_lia. rewrite Z.gtb_ltb.
  destruct (Z.ltb_spec (q_maxSize (st_q st)) (0 + (8 + 0) + zlen b)); [lia|].
  unfold catch. erewrite on_seg_read; [|exact T2|].
  2:{ unfold seg_append, bind, seg_get. cbn. rewrite T3. reflexivity. }
  reflexivity.
Qed.

(** Purging a queue whose only segment is old leaves it in a
    state in which every later append returns nil while the queue stays as it
    is, empty: the blocks are lost without an error. *)
Theorem purge_then_append_loses (st : qst) (v : sview) (t : Z) :
  q_rep st [v] -> mtime (st_fs st) v < truncate_second t <= now (st_fs st) ->
  max_id (st_fs st) + 1 < 2 ^ 64 -> usage [v] + 8 < 2 ^ 62 ->
  exists st', PurgeOlderThan t st = (Ok tt, st')
    /\ Current st' = (Err io_EOF, st')
    /\ forall b, 8 + zlen b <= q_maxSize (st_q st) -> zlen b < 2 ^ 62 ->
         Append b st' = (Ok tt, st').
Proof.
  intros Q Ht Hid Hu.
  destruct (purge_last_detaches 0 (truncate_second t) st v Q Ht Hid Hu) as (st' & w & E & D & [M1 M2]).
  exists st'. split; [|split].
  - unfold PurgeOlderThan. erewrite bind_ok by reflexivity. rewrite (segs_eq _ _ Q). exact E.
  - destruct D as [D1 D2 D3 _ (s & H1 & H2 & H3 & R) [D6 D7]].
    unfold Current. erewrite bind_ok by reflexivity. rewrite D3.
    eapply on_seg_read; [exact H1|]. eapply current_eof; [exact R|exact D7].
  - intros b Hm Hb. eapply detached_Append; [exact D|congruence|exact Hb].
Qed.

(** ** Witnesses and counterexamples on small queues *)

Definition blk (n : Z) : list Z := replicate 10 n.

(** A queue with a segment limit of 30 bytes, so that every segment takes one
    block of ten bytes. *)
Definition small : QM unit := do* Open in SetMaxSegmentSize 30.
Definition small_start : qst := (small (start (mkFs ∅ [] 5) 1000)).2.

Lemma small_rep : q_rep small_start [mkView 0 "1" [] []].
Proof.
  destruct (SetMaxSegmentSize_spec (opened 5 1000) [mkView 0 "1" [] []] 30)
    as (st' & vs' & E & Q & _ & _ & _ & K).
  - apply opened_rep. lia.
  - lia.
  - vm_compute. reflexivity.
  - repeat constructor.
  - rewrite opened_max_id. lia.
  - rewrite K in Q by (eexists; split; [reflexivity|vm_compute; reflexivity]).
    assert (small_start = st') as ->; [|exact Q].
    unfold small_start, small, bind. unfold opened in E. rewrite Open_empty in *. cbn [snd] in E.
    rewrite E. reflexivity.
Qed.

Lemma small_cfg : q_maxSegmentSize (st_q small_start) = 30 /\ q_maxSize (st_q small_start) = 1000
  /\ max_id (st_fs small_start) = 1.
Proof. vm_compute. auto. Qed.

(** The small queue after one block went in and out. *)
Definition drained : qst := (deliver (Append (blk 1) small_start).2).2.

Lemma drained_rep : q_rep drained [mkView 0 "1" [blk 1] []].
Proof.
  destruct small_cfg as (C1 & C2 & C3).
  destruct (Append_tail small_start [] (mkView 0 "1" [] []) (blk 1) small_rep) as (st1 & E1 & Q1 & [D1 D2] & D).
  { vm_compute. reflexivity. } { discriminate. } { rewrite C2. vm_compute. discriminate. }
  { rewrite C1. vm_compute. discriminate. }
  destruct (deliver_cons st1 _ [] (blk 1) [] Q1 eq_refl) as (st2 & vs2 & E2 & Q2 & _ & _ & _ & ->).
  { assert (st1 = (Append (blk 1) small_start).2) as -> by (rewrite E1; reflexivity).
    vm_compute. reflexivity. }
  unfold drained. rewrite E1. cbn [snd]. rewrite E2. exact Q2.
Qed.

Lemma drained_full_segment_blocks_witness :
  exists st' vs', Append (blk 2) drained = (Ok tt, st') /\ q_rep st' vs' /\ contents vs' = [blk 2]
    /\ forall ops, Forall op_block ops -> zlen ops < 2 ^ 31 -> (exec ops st').1.2 = [].
Proof.
  apply (drained_full_segment_blocks drained (mkView 0 "1" [blk 1] []) (blk 2)).
  - apply drained_rep.
  - reflexivity.
  - split; [discriminate|vm_compute; reflexivity].
  - vm_compute. discriminate.
  - vm_compute. reflexivity.
  - vm_compute. discriminate.
  - vm_compute. reflexivity.
Defined.

Lemma reopen_preserves_witness :
  exists st1 st2 vs', Close drained = (Ok tt, st1) /\ Open (start (st_fs st1) 1000) = (Ok tt, st2)
    /\ q_rep st2 vs' /\ contents vs' = contents [mkView 0 "1" [blk 1] []].
Proof.
  apply (reopen_preserves drained [mkView 0 "1" [blk 1] []] 1000).
  - apply drained_rep.
  - vm_compute. discriminate.
  - vm_compute. reflexivity.
  - repeat constructor.
  - lia.
Defined.

(** Ten blocks appended to the small queue, one per segment. *)
Definition ten : qst := (exec (map (fun n => OpAppend (blk n)) [1; 2; 3; 4; 5; 6; 7; 8; 9; 10]) small_start).2.

(** Order lost on restart. With ten segments the names are no longer sorted
    as strings ("10" precedes "2"), and a queue closed and reopened delivers
    block 10 before block 2, although both appends succeeded in the other
    order. *)
Theorem reopen_can_reorder :
  (exec (map (fun n => OpAppend (blk n)) [1; 2; 3; 4; 5; 6; 7; 8; 9; 10]) small_start).1.1
    = map blk [1; 2; 3; 4; 5; 6; 7; 8; 9; 10]
  /\ (exec [OpDeliver; OpDeliver; OpDeliver] (Open (start (st_fs (Close ten).2) 1000)).2).1.2
    = map blk [1; 10; 2].
Proof. vm_compute. split; reflexivity. Qed.

(** Two segments written at times 5 and 90 s. *)
Definition at_time (t : Z) (st : qst) : qst :=
  set_fs (mkFs (disk (st_fs st)) (faults (st_fs st)) t) st.
Definition two : qst :=
  (Append (blk 2) (at_time 90000000000 (Append (blk 1) small_start).2)).2.

Lemma only_files_dec f : map_Forall (fun _ e => de_dir e = false) (disk f) -> only_files f.
Proof. intros H n e He. exact (H n e He). Qed.

(** Establish [q_rep] of a closed state by evaluation. *)
Ltac eval_seg_ok :=
  eexists; split; [vm_compute; reflexivity|]; split; [reflexivity|]; split; [reflexivity|];
  split; [eexists; reflexivity|eexists; vm_compute; reflexivity|reflexivity|reflexivity|reflexivity|
          repeat constructor; discriminate|vm_compute; reflexivity].
Ltac eval_rep :=
  split;
  [ reflexivity | reflexivity | reflexivity | reflexivity | discriminate
  | apply (bool_decide_eq_true_1 _); vm_compute; reflexivity
  | apply (bool_decide_eq_true_1 _); vm_compute; reflexivity
  | repeat constructor; eexists; vm_compute; reflexivity
  | repeat (constructor; [eval_seg_ok|]); constructor
  | repeat constructor; vm_compute; discriminate
  | match goal with |- forall p s, st_heap ?st !! p = Some s -> _ =>
      change (map_Forall (fun p _ => (p < st_next st)%nat) (st_heap st)) end;
    apply (bool_decide_eq_true_1 _); vm_compute; reflexivity
  | apply only_files_dec, (bool_decide_eq_true_1 _); vm_compute; reflexivity
  | vm_compute; reflexivity | vm_compute; reflexivity | vm_compute; reflexivity ].

Lemma two_rep : q_rep two [mkView 0 "1" [] [blk 1]; mkView 1 "2" [] [blk 2]].
Proof. eval_rep. Qed.

Lemma purge_drops_old_prefix_witness :
  exists st', PurgeOlderThan 60000000000 two = (Ok tt, st')
    /\ q_rep st' [mkView 1 "2" [] [blk 2]].
Proof.
  apply (purge_drops_old_prefix two [mkView 0 "1" [] [blk 1]; mkView 1 "2" [] [blk 2]] 60000000000).
  - exact two_rep.
  - vm_compute. discriminate.
Defined.

Definition old_one : qst := at_time 90000000000 drained.

Lemma old_one_rep : q_rep old_one [mkView 0 "1" [blk 1] []].
Proof. eval_rep. Qed.

Lemma purge_then_append_loses_witness :
  exists st', PurgeOlderThan 60000000000 old_one = (Ok tt, st')
    /\ Current st' = (Err io_EOF, st')
    /\ forall b, 8 + zlen b <= 1000 -> zlen b < 2 ^ 62 -> Append b st' = (Ok tt, st').
Proof.
  apply (purge_then_append_loses old_one (mkView 0 "1" [blk 1] []) 60000000000).
  - exact old_one_rep.
  - vm_compute. split; [reflexivity|discriminate].
  - vm_compute. reflexivity.
  - vm_compute. reflexivity.
Defined.
