(* ===== verification/HHNode.v ===== *)
(** * The node processor of hinted handoff

    [services/hh/node_processor.go]: the wire form of a write, [SendWrite], the
    retry pass and the backoff of [run], and the life cycle of the processor.
    The points ([models.Point]), their parser ([models.ParsePoints]), the meta
    client and the shard writer are other packages: they are parameters, the
    last two acting on a world [W].  Delivery is proved against the interface
    [HandoffQueue]; the life cycle runs on the concrete queue. *)

From S2P Require Import Prelude OSFile HHSegment HHQueue HHFifo.

(** ** Configuration defaults (nanoseconds, bytes) *)

Definition second : Z := 1000000000.
Definition DefaultMaxSize : Z := 1024 * 1024 * 1024.
Definition DefaultMaxAge : Z := 7 * 24 * 3600 * second.
Definition DefaultRetryRateLimit : Z := 0.
Definition DefaultRetryInterval : Z := second.
Definition DefaultRetryMaxInterval : Z := 60 * second.
Definition DefaultPurgeInterval : Z := 3600 * second.

(** ** The wire form of a write *)

Section Wire.
Context {P : Type} (point_String : P -> list Z) (ParsePoints : list Z -> list P * option error).

Definition marshalWrite (shardID : Z) (points : list P) : list Z :=
  fold_left (fun b p => (b ++ point_String p) ++ [10]) points (be64 shardID).

(** The three results of the Go function; the points are meaningful when the
    error is nil. *)
Definition unmarshalWrite (b : list Z) : Z * list P * option error :=
  if zlen b <? 8 then (0, [], Some ErrTooShort) else
  let ownerID := de64 (take 8 b) in
  let '(points, err) := ParsePoints (drop 8 b) in
  (ownerID, points, err).

Lemma marshalWrite_app shardID points :
  marshalWrite shardID points
  = be64 shardID ++ concat (map (fun p => point_String p ++ [10]) points).
Proof.
  unfold marshalWrite. generalize (be64 shardID). induction points as [|p ps IH]; intros b; cbn.
  - rewrite app_nil_r. reflexivity.
  - rewrite IH, <- !app_assoc. reflexivity.
Qed.

Lemma zlen_marshalWrite shardID points : 8 <= zlen (marshalWrite shardID points).
Proof. rewrite marshalWrite_app. zlen_lia. Qed.

(** The documented contract of [models.ParsePoints]: the points of a text are
    separated by newlines, and a printed point parses to itself. *)
Definition parses_lines : Prop :=
  ParsePoints [] = ([], None) /\
  forall p rest, ParsePoints (point_String p ++ 10 :: rest)
    = (p :: (ParsePoints rest).1, (ParsePoints rest).2).

Lemma ParsePoints_lines points :
  parses_lines -> ParsePoints (concat (map (fun p => point_String p ++ [10]) points)) = (points, None).
Proof.
  intros [H0 H1]. induction points as [|p ps IH]; [exact H0|].
  cbn [map concat]. rewrite <- app_assoc. cbn. rewrite H1, IH. reflexivity.
Qed.

Lemma unmarshal_of_marshal shardID points :
  parses_lines -> is_u64 shardID ->
  unmarshalWrite (marshalWrite shardID points) = (shardID, points, None).
Proof.
  intros H Hid. unfold unmarshalWrite. pose proof (zlen_marshalWrite shardID points).
  destruct (Z.ltb_spec (zlen (marshalWrite shardID points)) 8); [lia|].
  rewrite marshalWrite_app.
  change 8%nat with (Z.to_nat 8). rewrite <- (zlen_be64 shardID), take_app_zlen, drop_app_zlen.
  rewrite de64_be64, ParsePoints_lines by assumption. reflexivity.
Qed.

End Wire.

(** ** Sending *)

Section Send.
Context {P W NodeInfo : Type}.
Context (point_String : P -> list Z) (ParsePoints : list Z -> list P * option error).
Context (DataNode : Z -> M W error (option NodeInfo)).
Context (writer_WriteShard : Z -> Z -> list P -> M W error unit).

Definition Active (nodeID : Z) : M W error bool :=
  let* nio := DataNode nodeID in
  ret (match nio with Some _ => true | None => false end).

Section Queue.
Context {Q : Type} {HQ : HandoffQueue Q}.

Definition on_q {A} (m : M Q error A) : M (Q * W) error A :=
  fun s => let '(r, q) := m s.1 in (r, (q, s.2)).
Definition on_w {A} (m : M W error A) : M (Q * W) error A :=
  fun s => let '(r, w) := m s.2 in (r, (s.1, w)).

Definition SendWrite (nodeID : Z) : M (Q * W) error Z :=
  let* active := on_w (Active nodeID) in
  if negb active then throw io_EOF else
  let* buf := on_q hq_current in
  match unmarshalWrite ParsePoints buf with
  | (_, _, Some err) => catch (on_q hq_advance) (fun _ => throw err)
  | (shardID, points, None) =>
      do* on_w (writer_WriteShard shardID nodeID points) in
      catch (on_q hq_advance) (fun _ => ret (zlen buf))
  end.

(** The interval after a [SendWrite] that failed with [err]. *)
Definition next_interval (retry retryMax curr : Z) (err : error) : Z :=
  match err with
  | io_EOF => retry
  | _ => let c := i64 (curr * 2) in if c >? retryMax then retryMax else c
  end.

(** The inner loop of [run]: send until an error; the result is the next
    interval. *)
Fixpoint send_loop (fuel : nat) (nodeID retry retryMax curr : Z) : M (Q * W) error Z :=
  match fuel with
  | O => throw OutOfFuel
  | S f => catch (SendWrite nodeID) (fun r =>
             match r with
             | inr err => ret (next_interval retry retryMax curr err)
             | inl _ => send_loop f nodeID retry retryMax retry
             end)
  end.

(** *** The specification of a retry pass

    The same pass on the plain list of pending blocks: the result is the next
    interval and the blocks left. *)
Fixpoint drain (bs : list (list Z)) (nodeID retry retryMax curr : Z) : M W error (Z * list (list Z)) :=
  catch (Active nodeID) (fun a =>
    match a with
    | inr err => ret (next_interval retry retryMax curr err, bs)
    | inl false => ret (retry, bs)
    | inl true =>
        match bs with
        | [] => ret (retry, [])
        | b :: bs' =>
            match unmarshalWrite ParsePoints b with
            | (_, _, Some err) => ret (next_interval retry retryMax curr err, bs')
            | (shardID, points, None) =>
                catch (writer_WriteShard shardID nodeID points) (fun r =>
                  match r with
                  | inr err => ret (next_interval retry retryMax curr err, b :: bs')
                  | inl _ => drain bs' nodeID retry retryMax retry
                  end)
            end
        end
    end).

Lemma on_q_run {A} (m : M Q error A) q w r q' :
  m q = (r, q') -> on_q m (q, w) = (r, (q', w)).
Proof. intros E. unfold on_q. cbn. rewrite E. reflexivity. Qed.

Lemma send_loop_drain (bs behind : list (list Z)) (nodeID retry retryMax curr : Z) (q : Q) (w : W) (fuel : nat) :
  hq_holds q bs behind -> (length bs < fuel)%nat ->
  match drain bs nodeID retry retryMax curr w with
  | (Ok (next, rest), w') => exists q',
      send_loop fuel nodeID retry retryMax curr (q, w) = (Ok next, (q', w')) /\ hq_holds q' rest behind
  | (Err _, _) => False
  | (Panic, w') => exists q', send_loop fuel nodeID retry retryMax curr (q, w) = (Panic, (q', w'))
  end.
Proof.
  revert q w curr fuel. induction bs as [|b bs IH]; intros q w curr fuel Hq Hf;
    (destruct fuel as [|fuel]; [cbn in Hf; lia|]); cbn [send_loop drain];
    unfold SendWrite, catch, on_w, bind; cbn [fst snd];
    (destruct (Active nodeID w) as [[[]|err|] w1]; cbn [fst snd negb]; try (cbn; eauto; fail)).
  - erewrite on_q_run by (eapply hq_current_none, Hq). cbn. eauto.
  - destruct (hq_current_some q b bs behind Hq) as (q1 & E1 & Hq1).
    erewrite on_q_run by exact E1. cbv beta iota.
    destruct (hq_advance_some q1 b bs behind Hq1) as (q2 & E2 & Hq2).
    destruct (unmarshalWrite ParsePoints b) as [[sid pts] [err|]].
    { erewrite on_q_run by exact E2. cbn. eauto. }
    cbn [fst snd]. destruct (writer_WriteShard sid nodeID pts w1) as [[[]|err|] w2]; [|cbn; eauto..].
    cbn [fst snd]. erewrite on_q_run by exact E2. cbv beta iota. apply IH; [exact Hq2|cbn in Hf; lia].
Qed.

Lemma drain_suffix bs nodeID retry retryMax curr w next rest w' :
  drain bs nodeID retry retryMax curr w = (Ok (next, rest), w') -> exists pre, bs = pre ++ rest.
Proof.
  revert curr w. induction bs as [|b bs IH]; intros curr w; cbn [drain]; unfold catch;
    destruct (Active nodeID w) as [[[]|err|] w1];
    try (intros E; injection E as <- <- <-; exists []; reflexivity); try discriminate.
  destruct (unmarshalWrite ParsePoints b) as [[sid pts] [err|]].
  { intros E. injection E as <- <- <-. exists [b]. reflexivity. }
  destruct (writer_WriteShard sid nodeID pts w1) as [[[]|err|] w2]; try discriminate.
  - intros E. destruct (IH _ _ E) as [pre ->]. exists (b :: pre). reflexivity.
  - intros E. injection E as <- <- <-. exists []. reflexivity.
Qed.

(** C30 (refinement). Let the queue hand out the blocks [bs] and not get to the blocks
    [behind] (none, unless a segment was exhausted before another
    was started after it), and let its system calls work.  A retry pass then
    does to the queue and to the remote node what
    [drain] says of [bs]: blocks are written in queue order, one at a time; a block
    leaves the queue only when its write succeeded or it cannot be decoded; the
    first error, an inactive node or the end of [bs] ends the pass and
    sets the next interval.  The pass ends after at most one attempt per block
    plus one, what it leaves of [bs] is a final part, and the blocks [behind] stay. *)
Theorem retry_pass_refines (bs behind : list (list Z)) (nodeID retry retryMax curr : Z) (q : Q) (w : W) :
  hq_holds q bs behind ->
  match drain bs nodeID retry retryMax curr w with
  | (Ok (next, rest), w') => exists q' pre,
      send_loop (S (length bs)) nodeID retry retryMax curr (q, w) = (Ok next, (q', w'))
      /\ hq_holds q' rest behind /\ bs = pre ++ rest
  | (Err _, _) => False
  | (Panic, w') => exists q',
      send_loop (S (length bs)) nodeID retry retryMax curr (q, w) = (Panic, (q', w'))
  end.
Proof.
  intros Hq. pose proof (send_loop_drain bs behind nodeID retry retryMax curr q w (S (length bs)) Hq ltac:(lia)) as HD.
  pose proof (drain_suffix bs nodeID retry retryMax curr w) as HS.
  destruct (drain bs nodeID retry retryMax curr w) as [[[next rest]|err|] w']; [|exact HD..].
  destruct HD as (q' & E & Hq'). destruct (HS _ _ _ eq_refl) as [pre Hpre]. eauto.
Qed.

(** *** A node that accepts everything *)

Section Accepting.
Context (nodeID : Z) (sent : W -> list (Z * list P)).
Hypothesis node_active : forall w, exists w', Active nodeID w = (Ok true, w') /\ sent w' = sent w.
Hypothesis node_accepts : forall shardID points w, exists w',
  writer_WriteShard shardID nodeID points w = (Ok tt, w') /\ sent w' = sent w ++ [(shardID, points)].

Lemma drain_accepting ws retry retryMax curr w :
  parses_lines point_String ParsePoints -> Forall (fun x => is_u64 x.1) ws ->
  exists w', drain (map (fun x => marshalWrite point_String x.1 x.2) ws) nodeID retry retryMax curr w
             = (Ok (retry, []), w') /\ sent w' = sent w ++ ws.
Proof.
  intros HP HF. revert curr w. induction HF as [|[sid pts] ws Hs _ IH]; intros curr w;
    cbn [map drain fst snd]; unfold catch; destruct (node_active w) as (w1 & -> & S1).
  - exists w1. rewrite app_nil_r. auto.
  - rewrite unmarshal_of_marshal by assumption.
    destruct (node_accepts sid pts w1) as (w2 & -> & S2).
    destruct (IH retry w2) as (w3 & E & S3). exists w3. split; [exact E|].
    rewrite S3, S2, S1, <- app_assoc. reflexivity.
Qed.

(** C31 (liveness). Let the system calls of the queue work.  Once the node is
    active again and accepts writes, one retry pass hands it every queued write
    that the queue hands out, in the order they were
    queued, with the shard and the points that were queued; these are gone
    from the queue afterwards and the retry interval is the configured one.  The queue hands
    out all it holds, unless a segment was exhausted before another was started
    after it: the writes [behind] such a segment stay in the queue. *)
Theorem handoff_delivers (ws : list (Z * list P)) (behind : list (list Z)) (retry retryMax curr : Z) (q : Q) (w : W) :
  parses_lines point_String ParsePoints -> Forall (fun x => is_u64 x.1) ws ->
  hq_holds q (map (fun x => marshalWrite point_String x.1 x.2) ws) behind ->
  exists q' w', send_loop (S (length ws)) nodeID retry retryMax curr (q, w) = (Ok retry, (q', w'))
    /\ hq_holds q' [] behind /\ sent w' = sent w ++ ws.
Proof.
  intros HP HF Hq. destruct (drain_accepting ws retry retryMax curr w HP HF) as (w' & E & Hs).
  pose proof (send_loop_drain _ behind nodeID retry retryMax curr q w (S (length ws)) Hq) as HD.
  rewrite E in HD. destruct HD as (q' & E' & Hq'); [rewrite length_map; lia|]. eauto.
Qed.

End Accepting.

(** *** The outer loop of run

    The events the [select] waits for, in the order they fire; [n.done] ends the
    list.  [purge] is the queue's [PurgeOlderThan(now - MaxAge)]. *)
Inductive run_event := EvPurge | EvRetry.

Definition initial_interval (retry retryMax : Z) : Z :=
  if retry >? retryMax then retryMax else retry.

Context (purge : M Q error unit).

Fixpoint run_loop (fuel : nat) (evs : list run_event) (nodeID retry retryMax curr : Z) : M (Q * W) error Z :=
  match evs with
  | [] => ret curr
  | EvPurge :: evs' =>
      catch (on_q purge) (fun _ => run_loop fuel evs' nodeID retry retryMax curr)
  | EvRetry :: evs' =>
      let* c := send_loop fuel nodeID retry retryMax curr in
      run_loop fuel evs' nodeID retry retryMax c
  end.

Definition run (fuel : nat) (evs : list run_event) (nodeID retry retryMax : Z) : M (Q * W) error Z :=
  run_loop fuel evs nodeID retry retryMax (initial_interval retry retryMax).

Section Outage.
Context (nodeID : Z) (b : list Z) (shardID : Z) (points : list P) (err : error).
Hypothesis decodes : unmarshalWrite ParsePoints b = (shardID, points, None).
Hypothesis node_active : forall w, exists w', Active nodeID w = (Ok true, w').
Hypothesis node_refuses : forall w, exists w', writer_WriteShard shardID nodeID points w = (Err err, w').
Hypothesis not_eof : err <> io_EOF.

Lemma next_interval_double retry retryMax c :
  0 <= c < 2 ^ 62 -> next_interval retry retryMax c err = Z.min (c * 2) retryMax.
Proof.
  intros H. unfold next_interval. rewrite i64_small by lia.
  destruct err; try congruence; destruct (Z.gtb_spec (c * 2) retryMax); lia.
Qed.

Lemma outage_loop bs behind retry retryMax fuel k c q w :
  0 < c <= retryMax -> retryMax < 2 ^ 62 -> hq_holds q (b :: bs) behind -> (S (length bs) < fuel)%nat ->
  exists q' w', run_loop fuel (replicate k EvRetry) nodeID retry retryMax c (q, w)
    = (Ok (Z.min (c * 2 ^ Z.of_nat k) retryMax), (q', w')) /\ hq_holds q' (b :: bs) behind.
Proof.
  intros Hc Hm Hq Hf. revert c q w Hc Hq. induction k as [|k IH]; intros c q w Hc Hq.
  { exists q, w. split; [|exact Hq]. cbn. unfold ret. do 2 f_equal. lia. }
  cbn [replicate run_loop]. pose proof (send_loop_drain _ behind nodeID retry retryMax c q w fuel Hq Hf) as HD.
  cbn [drain] in HD. unfold catch at 1 in HD. destruct (node_active w) as [w1 E1]. rewrite E1, decodes in HD.
  unfold catch in HD. destruct (node_refuses w1) as [w2 E2]. rewrite E2 in HD. cbn in HD.
  destruct HD as (q1 & E3 & Hq1). erewrite bind_ok by exact E3.
  fold (next_interval retry retryMax c err). rewrite next_interval_double by lia.
  destruct (IH (Z.min (c * 2) retryMax) q1 w2 ltac:(lia) Hq1) as (q2 & w3 & -> & Hq2).
  exists q2, w3. split; [|exact Hq2]. do 2 f_equal.
  rewrite Nat2Z.inj_succ, Z.pow_succ_r by lia.
  assert (1 <= 2 ^ Z.of_nat k) by (apply (Z.pow_le_mono_r 2 0); lia). nia.
Qed.

(** C39 (bounds). While the node refuses the block at the head of the queue, the
    interval between attempts doubles from the configured one and stops at the
    maximum, without ever overflowing the 64-bit duration, and no block is
    lost, as long as the system calls of the queue work. *)
Theorem outage_backoff (bs behind : list (list Z)) (retry retryMax : Z) (k : nat) (q : Q) (w : W) :
  0 < retry <= retryMax -> retryMax < 2 ^ 62 -> hq_holds q (b :: bs) behind ->
  exists q' w',
    run (S (S (length bs))) (replicate k EvRetry) nodeID retry retryMax (q, w)
    = (Ok (Z.min (retry * 2 ^ Z.of_nat k) retryMax), (q', w')) /\ hq_holds q' (b :: bs) behind.
Proof.
  intros Hr Hm Hq. unfold run, initial_interval.
  destruct (Z.gtb_spec retry retryMax); [lia|]. apply outage_loop; auto; lia.
Qed.

End Outage.
End Queue.
End Send.
