(* ===== verification/HHService.v ===== *)
(** * The hinted-handoff service

    The life cycle of a [NodeProcessor] ([services/hh/node_processor.go]) and
    the [Service] that owns one processor per node ([services/hh/service.go]).
    Each node has its own directory below [cfg.Dir]; a directory is an [fs].
    The goroutines a processor or the service starts are the events [run] of
    [HHNode] and [purge_pass] below.  Go ranges over a map in an unspecified
    order: the loops over the processors take the order as an argument. *)

From S2P Require Import Prelude OSFile HHSegment HHQueue HHFifo HHRecovery HHNode.

(** ** NodeProcessor *)

(** A queue object and the segments it refers to. *)
Record qobj := mkQobj { qo_heap : gmap nat segment; qo_next : nat; qo_q : queue }.

Definition join (f : fs) (o : qobj) : qst := mkQst f (qo_heap o) (qo_next o) (qo_q o).
Definition split_q (st : qst) : qobj := mkQobj (st_heap st) (st_next st) (st_q st).

(** [np_done] is [n.done != nil]; [np_queue] is [None] for a nil queue. *)
Record NodeProcessor := mkNP {
  np_PurgeInterval : Z;
  np_RetryInterval : Z;
  np_RetryMaxInterval : Z;
  np_MaxSize : Z;
  np_MaxAge : Z;
  np_RetryRateLimit : Z;
  np_nodeID : Z;
  np_dir : string;
  np_done : bool;
  np_queue : option qobj }.

Definition set_done d (n : NodeProcessor) :=
  mkNP (np_PurgeInterval n) (np_RetryInterval n) (np_RetryMaxInterval n) (np_MaxSize n) (np_MaxAge n)
    (np_RetryRateLimit n) (np_nodeID n) (np_dir n) d (np_queue n).
Definition set_queue o (n : NodeProcessor) :=
  mkNP (np_PurgeInterval n) (np_RetryInterval n) (np_RetryMaxInterval n) (np_MaxSize n) (np_MaxAge n)
    (np_RetryRateLimit n) (np_nodeID n) (np_dir n) (np_done n) o.

Definition NewNodeProcessor (nodeID : Z) (dir : string) : NodeProcessor :=
  mkNP DefaultPurgeInterval DefaultRetryInterval DefaultRetryMaxInterval DefaultMaxSize DefaultMaxAge
    0 nodeID dir false None.

(** A method of [*NodeProcessor] runs on its directory and the object. *)
Abbreviation NM := (M (fs * NodeProcessor) error).

(** A method call on [n.queue]; a nil queue panics when it takes its lock. *)
Definition on_queue {A} (m : QM A) : NM A :=
  fun s => match np_queue s.2 with
           | None => (Panic, s)
           | Some o => let '(r, st) := m (join s.1 o) in
                       (r, (st_fs st, set_queue (Some (split_q st)) s.2))
           end.

Definition os_MkdirAll : FM unit := syscall (ret tt).

Module NP.

Definition Open : NM unit :=
  fun s =>
    if np_done s.2 then (Ok tt, s) else
    match os_MkdirAll s.1 with
    | (Ok _, f) =>
        match HHQueue.Open (start f (np_MaxSize s.2)) with
        | (Ok _, st) => (Ok tt, (st_fs st, set_queue (Some (split_q st)) (set_done true s.2)))
        | (Err e, st) => (Err e, (st_fs st, set_done true s.2))
        | (Panic, st) => (Panic, (st_fs st, set_done true s.2))
        end
    | (Err e, f) => (Err e, (f, set_done true s.2))
    | (Panic, f) => (Panic, (f, set_done true s.2))
    end.

Definition Close : NM unit :=
  let* s := get in
  if negb (np_done s.2) then ret tt else
  do* modify (fun s => (s.1, set_done false s.2)) in
  on_queue HHQueue.Close.

Definition Purge : NM unit :=
  let* s := get in
  if np_done s.2 then throw ErrProcessorOpen else
  fun s => let '(r, f) := os_RemoveAll s.1 in (r, (f, s.2)).

Definition WriteShard {P} (point_String : P -> list Z) (shardID : Z) (points : list P) : NM unit :=
  let* s := get in
  if negb (np_done s.2) then throw ErrProcessorClosed else
  on_queue (Append (marshalWrite point_String shardID points)).

Definition LastModified : NM (option Z) := on_queue HHQueue.LastModified.

(** An error gives the empty string. *)
Definition Head : NM (option (string * Z)) :=
  catch (on_queue Position) (fun r => ret (match r with inl qp => qp_head qp | inr _ => None end)).
Definition Tail : NM (option (string * Z)) :=
  catch (on_queue Position) (fun r => ret (match r with inl qp => qp_tail qp | inr _ => None end)).

End NP.

(** The open queue of a processor holds the blocks [l]. *)
Definition np_holds (s : fs * NodeProcessor) (l : list (list Z)) : Prop :=
  np_done s.2 = true /\ exists o vs, np_queue s.2 = Some o /\ q_rep (join s.1 o) vs /\ contents vs = l.

Lemma join_split st : join (st_fs st) (split_q st) = st.
Proof. destruct st. reflexivity. Qed.

(** When the first [Open] of a processor fails, the processor
    still counts as open: a second [Open] reports success without doing
    anything, and a write then dereferences the nil queue. *)
Theorem failed_open_wedges (f : fs) (n : NodeProcessor) (e : error) (s : fs * NodeProcessor) :
  np_done n = false -> np_queue n = None -> NP.Open (f, n) = (Err e, s) ->
  NP.Open s = (Ok tt, s) /\
  forall P (point_String : P -> list Z) shardID points,
    NP.WriteShard point_String shardID points s = (Panic, s).
Proof.
  intros Hd Hq E. unfold NP.Open in E. cbn in E. rewrite Hd in E.
  assert (exists f', s = (f', set_done true n)) as [f' ->].
  { destruct (os_MkdirAll f) as [[[]|e'|] f'].
    - destruct (HHQueue.Open _) as [[[]|e'|] st]; try discriminate. injection E as <- <-. eauto.
    - injection E as <- <-. eauto.
    - discriminate. }
  split; [reflexivity|]. intros P ps sid pts. unfold NP.WriteShard, bind, get. cbn.
  unfold on_queue. cbn. rewrite Hq. reflexivity.
Qed.

Lemma failed_open_wedges_witness :
  let s := (mkFs ∅ [] 5, set_done true (NewNodeProcessor 3 "3")) in
  NP.Open (mkFs ∅ [Bad 0] 5, NewNodeProcessor 3 "3") = (Err os_Error, s) /\
  NP.Open s = (Ok tt, s) /\
  forall P (point_String : P -> list Z) shardID points,
    NP.WriteShard point_String shardID points s = (Panic, s).
Proof.
  intros s. split; [reflexivity|].
  apply (failed_open_wedges (mkFs ∅ [Bad 0] 5) (NewNodeProcessor 3 "3") os_Error s); reflexivity.
Defined.

(** Closing a processor and opening it again, the crash-free
    restart, loses no queued write: the queue holds the same blocks in the same
    order, provided its segment file names are sorted as strings. *)
Theorem processor_restart (f : fs) (n : NodeProcessor) (o : qobj) (vs : list sview) :
  np_done n = true -> np_queue n = Some o -> q_rep (join f o) vs ->
  q_maxSegmentSize (qo_q o) <= defaultSegmentSize -> np_MaxSize n < 2 ^ 61 ->
  dom (disk f) = list_to_set (map v_path vs) -> StronglySorted String.le (map v_path vs) ->
  exists s1 s2, NP.Close (f, n) = (Ok tt, s1) /\ np_done s1.2 = false
    /\ NP.Open s1 = (Ok tt, s2) /\ np_holds s2 (contents vs).
Proof.
  intros Hd Hq Q Hms Hm Hdom Hs. destruct (Close_spec _ vs Q) as (st1 & E1 & F & _).
  pose proof (qr_faults _ _ Q) as Hfl. cbn in Hfl.
  destruct (Open_recovers f (map file_of vs) (np_MaxSize n) (dir_holds_of_queue _ vs Q Hms Hdom Hs) Hm)
    as (st2 & vs' & E2 & Q2 & C & _).
  unfold NP.Close, bind, get, modify. cbn [fst snd]. rewrite Hd. unfold on_queue.
  cbn [negb fst snd np_queue set_done]. rewrite Hq, E1.
  do 2 eexists. split; [reflexivity|]. split; [reflexivity|].
  unfold NP.Open. cbn [fst snd np_done set_done set_queue np_MaxSize]. rewrite F. cbn [join st_fs].
  assert (os_MkdirAll f = (Ok tt, f)) as ->.
  { unfold os_MkdirAll, syscall, bind, tick. rewrite Hfl. reflexivity. }
  rewrite E2. split; [reflexivity|]. split; [reflexivity|]. eexists _, vs'. cbn [fst snd np_queue set_queue].
  split; [reflexivity|]. rewrite join_split. split; [exact Q2|]. rewrite C, map_map. reflexivity.
Qed.

Lemma processor_restart_witness :
  exists s1 s2, NP.Close (st_fs two, set_queue (Some (split_q two)) (set_done true (NewNodeProcessor 3 "3")))
      = (Ok tt, s1) /\ np_done s1.2 = false
    /\ NP.Open s1 = (Ok tt, s2) /\ np_holds s2 [blk 1; blk 2].
Proof.
  apply (processor_restart (st_fs two) (set_queue (Some (split_q two)) (set_done true (NewNodeProcessor 3 "3")))
           (split_q two) [mkView 0 "1" [] [blk 1]; mkView 1 "2" [] [blk 2]]).
  - reflexivity.
  - reflexivity.
  - rewrite join_split. exact two_rep.
  - vm_compute. discriminate.
  - vm_compute. reflexivity.
  - apply (bool_decide_eq_true_1 _). vm_compute. reflexivity.
  - repeat constructor.
Defined.

(** ** Service *)

Record Config := mkConfig {
  cfg_Enabled : bool;
  cfg_Dir : string;
  cfg_MaxSize : Z;
  cfg_MaxAge : Z;
  cfg_RetryRateLimit : Z;
  cfg_RetryInterval : Z;
  cfg_RetryMaxInterval : Z;
  cfg_PurgeInterval : Z }.

Definition NewConfig : Config :=
  mkConfig false "" DefaultMaxSize DefaultMaxAge DefaultRetryRateLimit DefaultRetryInterval
    DefaultRetryMaxInterval DefaultPurgeInterval.

Definition Validate (c : Config) : bool :=
  negb (cfg_Enabled c && bool_decide (cfg_Dir c = "")).

(** The service object, the directories below [cfg.Dir], the clock, the faults
    of the root directory, and the world of the meta client. *)
Record service (W : Type) := mkService {
  sv_cfg : Config;
  sv_processors : gmap Z NodeProcessor;
  sv_closing : bool;
  sv_dirs : gmap string fs;
  sv_root : fs;
  sv_world : W }.
Arguments mkService {W}.
Arguments sv_cfg {W}.
Arguments sv_processors {W}.
Arguments sv_closing {W}.
Arguments sv_dirs {W}.
Arguments sv_root {W}.
Arguments sv_world {W}.

Module SV.
Section Service.
Context {P W NodeInfo : Type}.
Context (point_String : P -> list Z).
Context (DataNode : Z -> M W error (option NodeInfo)).

Abbreviation VM := (M (service W) error).

Definition set_processors m (s : service W) :=
  mkService (sv_cfg s) m (sv_closing s) (sv_dirs s) (sv_root s) (sv_world s).
Definition set_closing c (s : service W) :=
  mkService (sv_cfg s) (sv_processors s) c (sv_dirs s) (sv_root s) (sv_world s).
Definition set_dirs d (s : service W) :=
  mkService (sv_cfg s) (sv_processors s) (sv_closing s) d (sv_root s) (sv_world s).
Definition set_root f (s : service W) :=
  mkService (sv_cfg s) (sv_processors s) (sv_closing s) (sv_dirs s) f (sv_world s).
Definition set_world (w : W) (s : service W) :=
  mkService (sv_cfg s) (sv_processors s) (sv_closing s) (sv_dirs s) (sv_root s) w.

Definition NewService (c : Config) (dirs : gmap string fs) (root : fs) (w : W) : service W :=
  mkService c ∅ true dirs root w.

(** The name below [cfg.Dir]. *)
Definition pathforNode (nodeID : Z) : string := FormatUint nodeID.

(** The directory of a processor, empty while it does not exist. *)
Definition dir_of (s : service W) (p : string) : fs :=
  default (mkFs ∅ [] (now (sv_root s))) (sv_dirs s !! p).

(** A method call on a processor object: its directory is the one on disk. *)
Definition on_proc {A} (n : NodeProcessor) (m : NM A) : VM (A * NodeProcessor) :=
  fun s => let '(r, (f, n')) := m (dir_of s (np_dir n), n) in
           let s' := set_dirs (<[np_dir n := f]> (sv_dirs s)) s in
           match r with
           | Ok a => (Ok (a, n'), s')
           | Err e => (Err e, s')
           | Panic => (Panic, s')
           end.

(** The same on the processor the map holds under [k]; the object is shared,
    so its new state is kept whatever the result. *)
Definition on_key {A} (k : Z) (m : NM A) : VM A :=
  fun s => match sv_processors s !! k with
           | None => (Panic, s)
           | Some n =>
               let '(r, (f, n')) := m (dir_of s (np_dir n), n) in
               (r, set_processors (<[k := n']> (sv_processors s))
                     (set_dirs (<[np_dir n := f]> (sv_dirs s)) s))
           end.

Definition on_root {A} (m : FM A) : VM A :=
  fun s => let '(r, f) := m (sv_root s) in (r, set_root f s).

Definition on_world {A} (m : M W error A) : VM A :=
  fun s => let '(r, w) := m (sv_world s) in (r, set_world w s).

(** [ioutil.ReadDir(cfg.Dir)]: the names in order. *)
Definition ReadDir : VM (list string) :=
  do* on_root (syscall (ret tt)) in
  let* s := get in
  ret (merge_sort String.le (map fst (map_to_list (sv_dirs s)))).

Fixpoint open_loop (names : list string) : VM unit :=
  match names with
  | [] => ret tt
  | name :: names' =>
      match ParseUint name with
      | None => open_loop names'
      | Some nodeID =>
          let* r := on_proc (NewNodeProcessor nodeID (pathforNode nodeID)) NP.Open in
          do* modify (fun s => set_processors (<[nodeID := r.2]> (sv_processors s)) s) in
          open_loop names'
      end
  end.

Definition Open : VM unit :=
  let* s := get in
  if negb (cfg_Enabled (sv_cfg s)) then ret tt else
  do* modify (set_closing true) in
  do* on_root os_MkdirAll in
  let* names := ReadDir in
  open_loop names.

Fixpoint close_loop (ks : list Z) : VM unit :=
  match ks with
  | [] => ret tt
  | k :: ks' => do* on_key k NP.Close in close_loop ks'
  end.

Definition Close (order : list Z) : VM unit :=
  do* close_loop order in
  modify (set_closing false).

Definition WriteShard (shardID ownerID : Z) (points : list P) : VM unit :=
  let* s := get in
  if negb (cfg_Enabled (sv_cfg s)) then throw ErrHintedHandoffDisabled else
  do* match sv_processors s !! ownerID with
      | Some _ => ret tt
      | None =>
          let* r := on_proc (NewNodeProcessor ownerID (pathforNode ownerID)) NP.Open in
          modify (fun s => set_processors (<[ownerID := r.2]> (sv_processors s)) s)
      end in
  on_key ownerID (NP.WriteShard point_String shardID points).

(** One row per processor: node, active, last modified, head, tail. *)
Fixpoint Diagnostics (order : list Z) : VM (list (Z * bool * option Z * option (string * Z) * option (string * Z))) :=
  match order with
  | [] => ret []
  | k :: ks =>
      let* lm := on_key k NP.LastModified in
      let* active := on_world (Active DataNode k) in
      let* h := on_key k NP.Head in
      let* t := on_key k NP.Tail in
      let* rows := Diagnostics ks in
      ret ((k, active, lm, h, t) :: rows)
  end.

(** [lm.Before(cutoff)]; the zero time is before any other. *)
Definition before (lm : option Z) (cutoff : Z) : bool :=
  match lm with Some t => t <? cutoff | None => true end.

(** One iteration of the loop over the processors; an error is logged and ends
    the iteration. *)
Definition purge_one (k : Z) : VM unit :=
  catch (on_key k NP.LastModified) (fun r => match r with inr _ => ret tt | inl lm =>
  catch (on_world (Active DataNode k)) (fun r => match r with inr _ => ret tt | inl active =>
  if active then ret tt else
  let* s := get in
  if negb (before lm (now (sv_root s) - cfg_MaxAge (sv_cfg s))) then ret tt else
  catch (on_key k NP.Close) (fun r => match r with inr _ => ret tt | inl _ =>
  catch (on_key k NP.Purge) (fun r => match r with inr _ => ret tt | inl _ =>
  modify (fun s => set_processors (delete k (sv_processors s)) s)
  end) end) end) end).

(** What a tick of the purge timer does: [order] is a permutation of the keys. *)
Fixpoint purge_pass (order : list Z) : VM unit :=
  match order with
  | [] => ret tt
  | k :: ks => do* purge_one k in purge_pass ks
  end.

End Service.
End SV.

(** ** What the service guarantees *)

(** Looking at the modification time changes no data. *)
Lemma LastModified_frame st r st' :
  LastModified st = (r, st') -> split_q st' = split_q st /\ disk (st_fs st') = disk (st_fs st).
Proof.
  unfold LastModified, bind, q_get. destruct (q_tail (st_q st)) as [p|]; cbn.
  2:{ intros E. injection E as <- <-. auto. }
  unfold on_seg. destruct (st_heap st !! p) as [s|] eqn:Hp; cbn.
  2:{ intros E. injection E as <- <-. auto. }
  unfold seg_lastModified, bind, seg_get, on_fs, os_Stat, syscall, bind, tick. cbn.
  destruct (seg_file s); cbn.
  2:{ intros E. injection E as <- <-. unfold split_q. cbn. rewrite insert_id by exact Hp. auto. }
  destruct (faults (st_fs st)) as [|[|k] l]; cbn; try destruct (disk (st_fs st) !! seg_path s); cbn;
    intros E; injection E as <- <-; unfold split_q; cbn; rewrite insert_id by exact Hp; auto.
Qed.

Lemma NP_LastModified_frame f n r f' n' :
  NP.LastModified (f, n) = (r, (f', n')) -> n' = n /\ disk f' = disk f.
Proof.
  unfold NP.LastModified, on_queue. cbn [fst snd]. destruct (np_queue n) as [o|] eqn:Hq.
  2:{ intros E. injection E as <- <- <-. auto. }
  destruct (LastModified (join f o)) as [r' st'] eqn:E'. apply LastModified_frame in E' as [E1 E2].
  intros E. injection E as <- <- <-. rewrite E1. split; [|exact E2].
  destruct n, o. cbn in *. rewrite Hq. reflexivity.
Qed.

Module SVFacts.
Section Facts.
Context {P W NodeInfo : Type}.
Context (point_String : P -> list Z).
Context (DataNode : Z -> M W error (option NodeInfo)).
Implicit Types (s : service W).

(** The files in the directory of node [k]. *)
Definition files s (k : Z) : gmap string dirent := disk (SV.dir_of s (SV.pathforNode k)).

(** Each processor is stored under its node and uses that node's directory. *)
Definition sv_ok s : Prop :=
  forall k n, sv_processors s !! k = Some n -> is_u64 k /\ np_dir n = SV.pathforNode k.

(** [s'] agrees with [s] on the processor and the files of node [k]. *)
Definition same_node (k : Z) s s' : Prop :=
  sv_processors s' !! k = sv_processors s !! k /\ files s' k = files s k.

(** [s'] agrees with [s] on everything the service does for node [k]. *)
Definition untouched (k : Z) s s' : Prop :=
  sv_processors s' !! k = sv_processors s !! k
  /\ SV.dir_of s' (SV.pathforNode k) = SV.dir_of s (SV.pathforNode k)
  /\ sv_cfg s' = sv_cfg s /\ sv_root s' = sv_root s.

Lemma untouched_refl k s : untouched k s s.
Proof. repeat split. Qed.

Lemma untouched_trans k s1 s2 s3 : untouched k s1 s2 -> untouched k s2 s3 -> untouched k s1 s3.
Proof. intros (A1 & A2 & A3 & A4) (B1 & B2 & B3 & B4). repeat split; congruence. Qed.

Lemma same_node_untouched_l k s1 s2 s3 : untouched k s1 s2 -> same_node k s2 s3 -> same_node k s1 s3.
Proof.
  intros (A1 & A2 & _) [B1 B2]. split; [congruence|]. rewrite B2. unfold files. rewrite A2. reflexivity.
Qed.

Lemma same_node_untouched_r k s1 s2 s3 : same_node k s1 s2 -> untouched k s2 s3 -> same_node k s1 s3.
Proof.
  intros [B1 B2] (A1 & A2 & _). split; [congruence|]. rewrite <- B2. unfold files. rewrite A2. reflexivity.
Qed.

Lemma dir_of_insert s p q f :
  SV.dir_of (SV.set_dirs (<[p := f]> (sv_dirs s)) s) q = if decide (q = p) then f else SV.dir_of s q.
Proof.
  unfold SV.dir_of, SV.set_dirs. cbn. destruct (decide (q = p)) as [->|H].
  - rewrite lookup_insert_eq. reflexivity.
  - rewrite lookup_insert_ne by congruence. reflexivity.
Qed.

(** A call on processor [j] leaves the other nodes alone. *)
Lemma on_key_other {A} j k (m : NM A) s r s' :
  sv_ok s -> is_u64 k -> j <> k -> SV.on_key j m s = (r, s') ->
  (forall x, np_dir (m x).2.2 = np_dir x.2) ->
  untouched k s s' /\ sv_ok s'.
Proof.
  intros Hok Hk Hne E Hdir. unfold SV.on_key in E. destruct (sv_processors s !! j) as [n|] eqn:Hj.
  2:{ injection E as <- <-. repeat split; apply (Hok _ _ H). }
  destruct (Hok j n Hj) as [Hj' Hp]. specialize (Hdir (SV.dir_of s (np_dir n), n)).
  destruct (m _) as [r' [f n']] eqn:Em in E. rewrite Em in Hdir. injection E as <- <-. cbn in Hdir.
  split; [split; [|split; [|split; reflexivity]]|].
  - cbn. apply lookup_insert_ne. congruence.
  - change (SV.dir_of (SV.set_processors ?a ?b) ?c) with (SV.dir_of b c).
    rewrite dir_of_insert. destruct (decide _) as [Eq|]; [|reflexivity].
    exfalso. apply Hne. symmetry. unfold SV.pathforNode in *. apply FormatUint_inj; [exact Hk|exact Hj'|congruence].
  - intros i x Hi. cbn in Hi. destruct (decide (i = j)) as [->|Hij].
    + rewrite lookup_insert_eq in Hi. injection Hi as <-. split; [exact Hj'|congruence].
    + rewrite lookup_insert_ne in Hi by congruence. exact (Hok i x Hi).
Qed.

Lemma LastModified_key k s r s' :
  SV.on_key k NP.LastModified s = (r, s') -> sv_ok s -> same_node k s s' /\ sv_ok s'.
Proof.
  intros E Hok. unfold SV.on_key in E. destruct (sv_processors s !! k) as [n|] eqn:Hk.
  2:{ injection E as <- <-. repeat split; apply (Hok _ _ H). }
  destruct (Hok k n Hk) as [_ Hd].
  destruct (NP.LastModified _) as [r' [f n']] eqn:E'. apply NP_LastModified_frame in E' as [-> Hf].
  injection E as <- <-. split; [split|].
  - cbn. rewrite lookup_insert_eq, Hk. reflexivity.
  - unfold files. change (SV.dir_of (SV.set_processors ?a ?b) ?c) with (SV.dir_of b c).
    rewrite dir_of_insert, Hd, decide_True, Hf, Hd by reflexivity. reflexivity.
  - intros i x Hi. cbn in Hi. destruct (decide (i = k)) as [->|Hij].
    + rewrite lookup_insert_eq in Hi. injection Hi as <-. exact (Hok k n Hk).
    + rewrite lookup_insert_ne in Hi by congruence. exact (Hok i x Hi).
Qed.

Lemma LastModified_root k s r s' :
  SV.on_key k NP.LastModified s = (r, s') -> sv_cfg s' = sv_cfg s /\ sv_root s' = sv_root s.
Proof.
  unfold SV.on_key. destruct (sv_processors s !! k); [destruct (NP.LastModified _) as [? [? ?]]|];
    intros E; injection E as <- <-; auto.
Qed.

Lemma on_queue_dir {A} (m : QM A) x : np_dir (on_queue m x).2.2 = np_dir x.2.
Proof. unfold on_queue. destruct (np_queue x.2); [destruct (m _)|]; reflexivity. Qed.

Lemma Close_dir x : np_dir (NP.Close x).2.2 = np_dir x.2.
Proof.
  unfold NP.Close, bind, get, modify. destruct (negb _); [reflexivity|]. rewrite on_queue_dir. reflexivity.
Qed.

Lemma Purge_dir x : np_dir (NP.Purge x).2.2 = np_dir x.2.
Proof.
  unfold NP.Purge, bind, get. destruct (np_done x.2); [reflexivity|]. destruct (os_RemoveAll _). reflexivity.
Qed.

Lemma on_world_other {A} k (m : M W error A) s r s' :
  SV.on_world m s = (r, s') -> sv_ok s -> untouched k s s' /\ sv_ok s'.
Proof.
  unfold SV.on_world. destruct (m _) as [r' w]. intros E Hok. injection E as <- <-.
  split; [repeat split|exact Hok].
Qed.

Lemma purge_one_other j k s r s' :
  sv_ok s -> is_u64 k -> j <> k -> SV.purge_one DataNode j s = (r, s') -> untouched k s s' /\ sv_ok s'.
Proof.
  intros Hok Hk Hne. unfold SV.purge_one, catch at 1.
  destruct (SV.on_key j NP.LastModified s) as [r1 s1] eqn:E1.
  destruct (on_key_other j k _ s r1 s1 Hok Hk Hne E1 (on_queue_dir _)) as [U1 K1].
  destruct r1 as [lm|e|]; try (intros E; injection E as <- <-; auto; fail).
  unfold catch at 1. destruct (SV.on_world (Active DataNode j) s1) as [r2 s2] eqn:E2.
  destruct (on_world_other k _ s1 r2 s2 E2 K1) as [U2 K2].
  pose proof (untouched_trans _ _ _ _ U1 U2) as V2.
  destruct r2 as [[]|e|]; try (intros E; injection E as <- <-; auto; fail).
  unfold bind, get. destruct (negb _); [intros E; injection E as <- <-; auto|].
  unfold catch at 1. destruct (SV.on_key j NP.Close s2) as [r3 s3] eqn:E3.
  destruct (on_key_other j k _ s2 r3 s3 K2 Hk Hne E3 Close_dir) as [U3 K3].
  pose proof (untouched_trans _ _ _ _ V2 U3) as V3.
  destruct r3 as [x|e|]; try (intros E; injection E as <- <-; auto; fail).
  unfold catch. destruct (SV.on_key j NP.Purge s3) as [r4 s4] eqn:E4.
  destruct (on_key_other j k _ s3 r4 s4 K3 Hk Hne E4 Purge_dir) as [U4 K4].
  pose proof (untouched_trans _ _ _ _ V3 U4) as V4.
  destruct r4 as [y|e|]; try (intros E; injection E as <- <-; auto; fail).
  intros E. injection E as <- <-. split.
  - eapply untouched_trans; [exact V4|]. split; [|repeat split]. cbn. apply lookup_delete_ne. congruence.
  - intros i n Hi. cbn in Hi. apply lookup_delete_Some in Hi as [_ Hi]. exact (K4 i n Hi).
Qed.

(** Node [k] must be kept: the meta store knows it, or its data is young. *)
Definition known (k : Z) : Prop := forall w, exists ni w', DataNode k w = (Ok (Some ni), w').
Definition young s (k : Z) : Prop :=
  exists n t, sv_processors s !! k = Some n
    /\ (NP.LastModified (SV.dir_of s (SV.pathforNode k), n)).1 = Ok (Some t)
    /\ now (sv_root s) - cfg_MaxAge (sv_cfg s) <= t.

Lemma purge_one_keeps k s r s' :
  sv_ok s -> known k \/ young s k -> SV.purge_one DataNode k s = (r, s') -> same_node k s s' /\ sv_ok s'.
Proof.
  intros Hok Hkeep. unfold SV.purge_one, catch at 1.
  destruct (SV.on_key k NP.LastModified s) as [r1 s1] eqn:E1.
  destruct (LastModified_key k s r1 s1 E1 Hok) as [U1 K1].
  destruct (LastModified_root k s r1 s1 E1) as [C1 C2].
  destruct r1 as [lm|e|]; try (intros E; injection E as <- <-; auto; fail).
  unfold catch at 1. destruct (SV.on_world (Active DataNode k) s1) as [r2 s2] eqn:E2.
  destruct (on_world_other k _ s1 r2 s2 E2 K1) as [U2 K2].
  pose proof (same_node_untouched_r _ _ _ _ U1 U2) as V2. destruct U2 as (_ & _ & C3 & C4).
  destruct r2 as [[]|e|]; try (intros E; injection E as <- <-; auto; fail).
  destruct Hkeep as [Hact|(n & t & Hn & Hlm & Ht)].
  - exfalso. unfold SV.on_world, Active, bind in E2. destruct (Hact (sv_world s1)) as (ni & w' & Hw).
    rewrite Hw in E2. discriminate.
  - assert (lm = Some t) as ->.
    { destruct (Hok k n Hn) as [_ Hd]. unfold SV.on_key in E1. rewrite Hn, Hd in E1.
      destruct (NP.LastModified _) as [r' [f' n']]. cbn in Hlm. injection E1 as -> _. congruence. }
    unfold bind, get. rewrite C3, C4, C1, C2. cbn [SV.before].
    destruct (Z.ltb_spec t (now (sv_root s) - cfg_MaxAge (sv_cfg s))); [lia|].
    intros E. injection E as <- <-. auto.
Qed.

Lemma purge_pass_other order k s :
  sv_ok s -> is_u64 k -> k ∉ order -> untouched k s (SV.purge_pass DataNode order s).2.
Proof.
  intros Hok Hk. revert s Hok. induction order as [|j order IH]; intros s Hok Hn; [apply untouched_refl|].
  apply not_elem_of_cons in Hn as [Hj Hn]. cbn [SV.purge_pass]. unfold bind.
  destruct (SV.purge_one DataNode j s) as [r s1] eqn:E.
  destruct (purge_one_other j k s r s1 Hok Hk ltac:(congruence) E) as [U K].
  destruct r; [|exact U..]. eapply untouched_trans; [exact U|]. apply IH; assumption.
Qed.

Lemma young_untouched k s s' : untouched k s s' -> young s k -> young s' k.
Proof.
  intros (U1 & U2 & U3 & U4) (n & t & H1 & H2 & H3). exists n, t. rewrite U1, U2, U3, U4. auto.
Qed.

(** C38 (safety). Whatever the order in which the purge visits the processors,
    the processor and the queued files of a node survive it when the meta store
    knows the node or when the queue was written less than [MaxAge] ago. *)
Theorem purge_keeps_needed (order : list Z) (k : Z) s :
  sv_ok s -> is_u64 k -> NoDup order -> known k \/ young s k ->
  same_node k s (SV.purge_pass DataNode order s).2.
Proof.
  intros Hok Hk Hnd. revert s Hok. induction Hnd as [|j order Hj _ IH]; intros s Hok Hkeep.
  { split; reflexivity. }
  cbn [SV.purge_pass]. unfold bind. destruct (SV.purge_one DataNode j s) as [r s1] eqn:E.
  destruct (decide (j = k)) as [->|Hne].
  - destruct (purge_one_keeps k s r s1 Hok Hkeep E) as [U K]. destruct r; [|exact U..].
    eapply same_node_untouched_r; [exact U|]. apply purge_pass_other; assumption.
  - destruct (purge_one_other j k s r s1 Hok Hk Hne E) as [U K].
    destruct r; [|destruct U as (U1 & U2 & _); split; [exact U1|unfold files; cbn [snd]; rewrite U2; reflexivity]..].
    eapply same_node_untouched_l; [exact U|]. apply IH; [exact K|].
    destruct Hkeep as [H|H]; [left; exact H|right; eapply young_untouched; eassumption].
Qed.

(** *** A dead node's processor goes *)

Lemma run_LastModified st vs v :
  q_rep st (vs ++ [v]) -> LastModified st = (Ok (Some (mtime (st_fs st) v)), st).
Proof.
  intros Q. unfold LastModified. erewrite bind_ok by reflexivity.
  rewrite (qr_tail _ _ Q), map_app. cbn [map]. rewrite last_snoc.
  erewrite bind_ok; [reflexivity|]. apply run_lastModified; [exact (qr_faults _ _ Q)|].
  pose proof (qr_ok _ _ Q) as Hok. rewrite Forall_app in Hok. apply (Forall_inv (proj2 Hok)).
Qed.

Lemma run_NP_LastModified f n o vs v :
  np_queue n = Some o -> q_rep (join f o) (vs ++ [v]) ->
  NP.LastModified (f, n) = (Ok (Some (mtime f v)), (f, n)).
Proof.
  intros Hq Q. unfold NP.LastModified, on_queue. cbn [fst snd]. rewrite Hq, (run_LastModified _ _ _ Q).
  destruct n, o. cbn in Hq |- *. rewrite Hq. reflexivity.
Qed.

Lemma run_NP_Close f n o vs :
  np_done n = true -> np_queue n = Some o -> q_rep (join f o) vs ->
  exists n', NP.Close (f, n) = (Ok tt, (f, n')) /\ np_done n' = false /\ np_dir n' = np_dir n
    /\ faults f = [].
Proof.
  intros Hd Hq Q. destruct (Close_spec _ _ Q) as (st & E & F & _).
  unfold NP.Close, bind, get, modify. cbn [fst snd]. rewrite Hd. cbn [negb fst snd].
  unfold on_queue. cbn [fst snd set_done np_queue]. rewrite Hq, E, F. cbn [join st_fs].
  eexists. split; [reflexivity|]. split; [reflexivity|]. split; [reflexivity|]. exact (qr_faults _ _ Q).
Qed.

Lemma run_NP_Purge f n :
  faults f = [] -> np_done n = false -> NP.Purge (f, n) = (Ok tt, (set_disk ∅ f, n)).
Proof.
  intros Hf Hd. unfold NP.Purge, bind, get. cbn [fst snd]. rewrite Hd.
  unfold os_RemoveAll, syscall, bind, tick. cbn [fst snd]. rewrite Hf. reflexivity.
Qed.

Lemma on_key_run {A} k (m : NM A) s n r f n' :
  sv_processors s !! k = Some n -> m (SV.dir_of s (np_dir n), n) = (r, (f, n')) ->
  SV.on_key k m s = (r, SV.set_processors (<[k := n']> (sv_processors s))
                          (SV.set_dirs (<[np_dir n := f]> (sv_dirs s)) s)).
Proof. intros H E. unfold SV.on_key. rewrite H, E. reflexivity. Qed.

Lemma dir_of_mk c m b d p f r (w : W) : SV.dir_of (mkService c m b (<[p := f]> d) r w) p = f.
Proof. unfold SV.dir_of. cbn [sv_dirs]. rewrite lookup_insert_eq. reflexivity. Qed.

(** A processor whose node the meta store no longer knows and
    whose queue was last written before the age limit is closed, its files are
    deleted and it leaves the map. *)
Theorem purge_drops_dead (k : Z) s (n : NodeProcessor) (o : qobj) (vs : list sview) (v : sview) :
  sv_processors s !! k = Some n -> np_dir n = SV.pathforNode k ->
  np_done n = true -> np_queue n = Some o ->
  q_rep (join (SV.dir_of s (SV.pathforNode k)) o) (vs ++ [v]) ->
  mtime (SV.dir_of s (SV.pathforNode k)) v < now (sv_root s) - cfg_MaxAge (sv_cfg s) ->
  (exists w', DataNode k (sv_world s) = (Ok None, w')) ->
  exists s', SV.purge_one DataNode k s = (Ok tt, s')
    /\ sv_processors s' !! k = None /\ files s' k = ∅.
Proof.
  intros Hn Hdir Hdone Hq Q Hold [w' Hw]. rewrite <- Hdir in Q, Hold.
  destruct (run_NP_Close _ n o _ Hdone Hq Q) as (n1 & E1 & D1 & D2 & Hf).
  pose proof (run_NP_Purge _ n1 Hf D1) as E2.
  unfold SV.purge_one, catch at 1.
  rewrite (on_key_run _ _ _ _ _ _ _ Hn (run_NP_LastModified _ n o _ _ Hq Q)).
  unfold catch at 1, SV.on_world at 1, Active, bind at 1. cbn [SV.set_processors SV.set_dirs sv_world].
  rewrite Hw. unfold bind, get. 
  unfold SV.set_processors, SV.set_dirs, SV.set_world.
  cbn [ret SV.before sv_processors sv_dirs sv_world sv_closing sv_root sv_cfg].
  destruct (Z.ltb_spec (mtime (SV.dir_of s (np_dir n)) v)
              (now (sv_root s) - cfg_MaxAge (sv_cfg s))); [|lia]. cbn [negb].
  unfold catch at 1. erewrite on_key_run;
    [|apply lookup_insert_eq|rewrite dir_of_mk; exact E1].
  unfold catch at 1. erewrite on_key_run;
    [|apply lookup_insert_eq|].
  2:{ unfold SV.set_processors, SV.set_dirs. cbn [sv_dirs]. rewrite D2, dir_of_mk. exact E2. }
  eexists. split; [reflexivity|]. split; [apply lookup_delete_eq|].
  unfold files. rewrite <- Hdir. unfold SV.set_processors, SV.set_dirs. cbn [sv_dirs snd].
  rewrite D2, dir_of_mk. reflexivity.
Qed.

(** *** The first write for a node *)

Lemma run_NP_Open_new t n :
  np_done n = false ->
  NP.Open (mkFs ∅ [] t, n)
  = (Ok tt, (st_fs (opened t (np_MaxSize n)),
             set_queue (Some (split_q (opened t (np_MaxSize n)))) (set_done true n))).
Proof.
  intros Hd. unfold NP.Open. cbn [fst snd]. rewrite Hd.
  change (os_MkdirAll (mkFs ∅ [] t)) with (@Ok error unit tt, mkFs ∅ [] t). cbv beta iota.
  unfold opened. rewrite Open_empty. reflexivity.
Qed.

Lemma opened_append t maxSize b :
  b <> [] -> 16 + zlen b <= defaultSegmentSize -> defaultSegmentSize <= maxSize < 2 ^ 61 ->
  exists st vs, Append b (opened t maxSize) = (Ok tt, st) /\ q_rep st vs /\ contents vs = [b].
Proof.
  intros Hne Hb Hm. pose proof (opened_rep t maxSize ltac:(lia)) as Q.
  unfold defaultSegmentSize in Hb, Hm.
  assert (q_maxSegmentSize (st_q (opened t maxSize)) = defaultSegmentSize
          /\ q_maxSize (st_q (opened t maxSize)) = maxSize) as [Hs Hx].
  { unfold opened. rewrite Open_empty. split; reflexivity. }
  assert (v_size (mkView 0 "1" [] []) = 8 /\ usage ([] ++ [mkView 0 "1" [] []]) = 8) as [Hv Hu]
    by (split; reflexivity).
  destruct (Append_tail (opened t maxSize) [] (mkView 0 "1" [] []) b Q) as (st & E & Q' & _).
  - lia.
  - exact Hne.
  - rewrite Hu, Hx. lia.
  - rewrite Hv, Hs. unfold defaultSegmentSize. lia.
  - exists st, ([] ++ [push (mkView 0 "1" [] []) b]). split; [exact E|]. split; [exact Q'|].
    apply contents_push.
Qed.

(** The first write for a node the service has no processor
    and no directory for creates the processor, opens it and queues the write:
    afterwards its queue holds exactly that write. *)
Theorem first_write_queued s (shardID ownerID : Z) (points : list P) :
  cfg_Enabled (sv_cfg s) = true -> sv_processors s !! ownerID = None ->
  sv_dirs s !! SV.pathforNode ownerID = None ->
  16 + zlen (marshalWrite point_String shardID points) <= defaultSegmentSize ->
  exists s' n, SV.WriteShard point_String shardID ownerID points s = (Ok tt, s')
    /\ sv_processors s' = <[ownerID := n]> (sv_processors s)
    /\ np_holds (SV.dir_of s' (SV.pathforNode ownerID), n) [marshalWrite point_String shardID points].
Proof.
  intros He Hp Hd Hb. pose proof (zlen_marshalWrite point_String shardID points) as Hl.
  set (b := marshalWrite point_String shardID points) in *.
  set (t := now (sv_root s)). set (n0 := NewNodeProcessor ownerID (SV.pathforNode ownerID)).
  destruct (opened_append t (np_MaxSize n0) b) as (st & vs & E & Q & C).
  { intros ->. change (zlen (@nil Z)) with 0 in Hl. lia. } { exact Hb. } { split; vm_compute; auto; discriminate. }
  unfold SV.WriteShard, bind at 1, get. rewrite He, Hp. cbn [negb]. unfold bind, SV.on_proc.
  fold n0. change (np_dir n0) with (SV.pathforNode ownerID).
  unfold SV.dir_of at 1. rewrite Hd. cbn [default from_option]. fold t. rewrite run_NP_Open_new by reflexivity.
  unfold modify. cbn [snd]. unfold SV.set_dirs, SV.set_processors. cbn [sv_processors sv_cfg sv_closing sv_dirs sv_root sv_world].
  set (n1 := set_queue _ _).
  assert (NP.WriteShard point_String shardID points (st_fs (opened t (np_MaxSize n0)), n1)
          = (Ok tt, (st_fs st, set_queue (Some (split_q st)) n1))) as EW.
  { unfold NP.WriteShard, bind, get. change (np_done _) with true. cbn [negb]. unfold on_queue.
    change (np_queue _) with (Some (split_q (opened t (np_MaxSize n0)))). cbv beta iota. cbn [fst snd].
    rewrite join_split. fold b. rewrite E. reflexivity. }
  erewrite on_key_run; cbn [sv_processors]; [|apply lookup_insert_eq|].
  2:{ change (np_dir n1) with (SV.pathforNode ownerID). rewrite dir_of_mk. exact EW. }
  do 2 eexists. split; [reflexivity|]. unfold SV.set_processors, SV.set_dirs. cbn [sv_processors].
  split; [rewrite insert_insert_eq; reflexivity|].
  change (np_dir n1) with (SV.pathforNode ownerID). cbn [sv_dirs]. rewrite dir_of_mk.
  split; [reflexivity|]. exists (split_q st), vs. cbn [fst snd]. rewrite join_split. auto.
Qed.

End Facts.
End SVFacts.

(** ** Witnesses *)

(** A node that is known, an unknown one, and a writer that keeps a log. *)
Definition log : Type := list (Z * list (list Z)).
Definition DataNode_ex (k : Z) : M log error (option unit) := ret (if k =? 7 then Some tt else None).
Definition writer_ok (shardID nodeID : Z) (points : list (list Z)) : M log error unit :=
  modify (fun l => l ++ [(shardID, points)]).
Definition writer_bad (shardID nodeID : Z) (points : list (list Z)) : M log error unit := throw ErrWriter.

(** Lines of bytes other than newline, as points. *)
Fixpoint lines (cur : list Z) (b : list Z) : list (list Z) :=
  match b with
  | [] => match cur with [] => [] | _ => [cur] end
  | 10 :: b' => cur :: lines [] b'
  | c :: b' => lines (cur ++ [c]) b'
  end.
Definition Parse_ex (b : list Z) : list (list Z) * option error := (lines [] b, None).

Lemma two_holds : hq_holds two [blk 1; blk 2] [].
Proof.
  exists [mkView 0 "1" [] [blk 1]; mkView 1 "2" [] [blk 2]].
  split; [exact two_rep|]. split; reflexivity.
Qed.

Lemma retry_pass_refines_witness :
  exists q' pre,
    send_loop Parse_ex DataNode_ex writer_ok 3 7 second (60 * second) second (two, [])
    = (Ok second, (q', [(72340172838076673, [[1; 1]]); (144680345676153346, [[2; 2]])]))
    /\ hq_holds q' [] [] /\ [blk 1; blk 2] = pre ++ [].
Proof.
  exact (retry_pass_refines Parse_ex DataNode_ex writer_ok [blk 1; blk 2] [] 7 second (60 * second) second
           two [] two_holds).
Defined.

Lemma outage_backoff_witness :
  exists q' w',
    run Parse_ex DataNode_ex writer_bad (ret tt) 3 (replicate 4 EvRetry) 7 second (60 * second) (two, [])
    = (Ok (16 * second), (q', w')) /\ hq_holds q' [blk 1; blk 2] [].
Proof.
  apply (outage_backoff Parse_ex DataNode_ex writer_bad (ret tt) 7 (blk 1) 72340172838076673 [[1; 1]] ErrWriter)
    with (bs := [blk 2]) (behind := []) (k := 4%nat).
  - reflexivity.
  - intros w. exists w. reflexivity.
  - intros w. exists w. reflexivity.
  - discriminate.
  - vm_compute. split; [reflexivity|discriminate].
  - reflexivity.
  - exact two_holds.
Defined.

(** Points that are single bits, printed "0" and "1". *)
Definition bit_String (p : bool) : list Z := if p then [49] else [48].
Fixpoint Parse_bits (b : list Z) : list bool * option error :=
  match b with
  | [] => ([], None)
  | c :: 10 :: b' => let r := Parse_bits b' in ((c =? 49) :: r.1, r.2)
  | _ => ([], Some ErrParse)
  end.

Definition write_ex : Z * list bool := (9, [true; false]).
Definition one : qst := (Append (marshalWrite bit_String 9 [true; false]) small_start).2.

Lemma one_rep : q_rep one [mkView 0 "1" [] [marshalWrite bit_String 9 [true; false]]].
Proof. eval_rep. Qed.

Lemma Parse_bits_lines : parses_lines bit_String Parse_bits.
Proof. split; [reflexivity|]. intros [] rest; reflexivity. Qed.

Lemma handoff_delivers_witness :
  exists (q' : qst) w',
    send_loop Parse_bits (fun _ => ret (Some tt)) (fun sid _ pts => modify (fun l => l ++ [(sid, pts)]))
      2 7 second (60 * second) (4 * second) (one, [])
    = (Ok second, (q', w')) /\ hq_holds q' [] [] /\ w' = [] ++ [(9, [true; false])].
Proof.
  apply (handoff_delivers (NodeInfo := unit) bit_String Parse_bits (fun _ => ret (Some tt))
           (fun sid _ pts => modify (fun l => l ++ [(sid, pts)])) 7 (fun w => w)) with (ws := [write_ex]) (behind := []).
  - intros w. exists w. split; reflexivity.
  - intros sid pts w. eexists. split; reflexivity.
  - exact Parse_bits_lines.
  - repeat constructor; vm_compute; discriminate.
  - eexists. split; [exact one_rep|]. split; reflexivity.
Defined.

Definition proc_ex (k : Z) : NodeProcessor :=
  set_queue (Some (split_q old_one)) (set_done true (NewNodeProcessor k (FormatUint k))).

(** Node 7 is known, node 3 is not; both queues were last written 90 seconds
    ago, the limit being 60. *)
Definition service_ex : service log :=
  mkService (mkConfig true "hh" DefaultMaxSize (60 * second) 0 second (60 * second) (3600 * second))
    {[3 := proc_ex 3; 7 := proc_ex 7]} true {["3" := st_fs old_one; "7" := st_fs old_one]}
    (mkFs ∅ [] (90 * second + 5)) [].

Lemma purge_keeps_needed_witness :
  SVFacts.same_node 7 service_ex (SV.purge_pass DataNode_ex [3; 7] service_ex).2.
Proof.
  apply (SVFacts.purge_keeps_needed DataNode_ex [3; 7] 7 service_ex).
  - intros k n. cbn [sv_processors service_ex]. intros Hk.
    apply lookup_insert_Some in Hk as [[<- <-]|[_ Hk]].
    + split; [vm_compute; split; [discriminate|reflexivity]|reflexivity].
    + apply lookup_singleton_Some in Hk as [<- <-].
      split; [vm_compute; split; [discriminate|reflexivity]|reflexivity].
  - vm_compute. split; [discriminate|reflexivity].
  - apply (bool_decide_eq_true_1 _). vm_compute. reflexivity.
  - left. intros w. exists tt, w. reflexivity.
Defined.

Lemma purge_drops_dead_witness :
  exists s', SV.purge_one DataNode_ex 3 service_ex = (Ok tt, s')
    /\ sv_processors s' !! 3 = None /\ SVFacts.files s' 3 = ∅.
Proof.
  apply (SVFacts.purge_drops_dead DataNode_ex 3 service_ex (proc_ex 3) (split_q old_one) []
           (mkView 0 "1" [blk 1] [])).
  - reflexivity.
  - reflexivity.
  - reflexivity.
  - reflexivity.
  - exact old_one_rep.
  - vm_compute. reflexivity.
  - exists []. reflexivity.
Defined.

Lemma first_write_queued_witness :
  exists s' n, SV.WriteShard bit_String 9 4 [true; false] service_ex = (Ok tt, s')
    /\ sv_processors s' = <[4 := n]> (sv_processors service_ex)
    /\ np_holds (SV.dir_of s' (SV.pathforNode 4), n) [marshalWrite bit_String 9 [true; false]].
Proof.
  apply (SVFacts.first_write_queued bit_String service_ex 9 4 [true; false]).
  - reflexivity.
  - reflexivity.
  - reflexivity.
  - vm_compute. discriminate.
Defined.
