(* ===== verification/MetaData.v ===== *)
(** * The cluster metadata

    [services/meta/data.go]: the value the Raft state machine replicates.  The
    database part is the type [meta.Data] of influxdb, another repository: its
    records appear here with the fields this code reads or writes, and its
    operations are parameters.  [ShardStatus] is a Go map held by reference, and
    [Clone] copies the reference: the maps live in a store, and a [Data] value
    holds an address. *)

From S2P Require Import Prelude.

(** Errors of the package; an error value of the influxdb packages is
    [ErrInflux]: it is never equal to one of the package's own. *)
Inductive merror :=
| ErrNodeExists
| ErrNodeNotFound
| ErrNodeIDRequired
| ErrManyMetaNodes        (* "can't set meta node when there are more than 1 in the metastore" *)
| ErrCannotReassign       (* "cannot reassign shard %d due to lack of data nodes" *)
| ErrRetentionPolicyExists
| ErrRetentionPolicyConflict
| ErrInflux (what : string)
| ErrRaftNotLeader
| ErrRaft (what : string).

#[export] Instance merror_eq_dec : EqDecision merror.
Proof. solve_decision. Defined.

(** ** Data *)

(** Times are nanoseconds since the Unix epoch; Go's zero time is year 1. *)
Definition zero_time : Z := - 62135596800 * 1000000000.

Record NodeInfo := mkNode { ni_ID : Z; ni_Host : string; ni_TCPHost : string }.

(** [meta.ShardOwner] has the single field [NodeID]. *)
Record ShardInfo := mkShard { si_ID : Z; si_Owners : list Z }.

Record ShardGroupInfo := mkGroup {
  sgi_ID : Z;
  sgi_StartTime : Z;
  sgi_EndTime : Z;
  sgi_DeletedAt : Z;
  sgi_Shards : list ShardInfo;
  sgi_TruncatedAt : Z }.

Record SubscriptionInfo := mkSub { sub_Name : string; sub_Mode : string; sub_Destinations : list string }.

Record RetentionPolicyInfo := mkRP {
  rp_Name : string;
  rp_ReplicaN : Z;
  rp_Duration : Z;
  rp_ShardGroupDuration : Z;
  rp_ShardGroups : list ShardGroupInfo;
  rp_Subscriptions : list SubscriptionInfo }.

Record ContinuousQueryInfo := mkCQ { cq_Name : string; cq_Query : string }.

Record DatabaseInfo := mkDB {
  db_Name : string;
  db_DefaultRetentionPolicy : string;
  db_RetentionPolicies : list RetentionPolicyInfo;
  db_ContinuousQueries : list ContinuousQueryInfo }.

Record UserInfo := mkUser { u_Name : string; u_Hash : string; u_Admin : bool; u_Privileges : gmap string Z }.

(** [meta.Data] of influxdb. *)
Record mdata := mkMData {
  md_Term : Z;
  md_Index : Z;
  md_ClusterID : Z;
  md_Databases : list DatabaseInfo;
  md_Users : list UserInfo;
  md_MaxShardGroupID : Z;
  md_MaxShardID : Z }.

(** [meta.Data] of this package. *)
Record Data := mkData {
  d_Data : mdata;
  d_MetaNodes : list NodeInfo;
  d_DataNodes : list NodeInfo;
  d_ShardStatus : option nat;
  d_MaxNodeID : Z }.

Definition ShardWrite : Z := 1.
Definition ShardRead : Z := 2.
Definition ShardWriteRead : Z := 3.

#[export] Instance NodeInfo_eq_dec : EqDecision NodeInfo.
Proof. solve_decision. Defined.
#[export] Instance ShardInfo_eq_dec : EqDecision ShardInfo.
Proof. solve_decision. Defined.

(** *** Updates *)

Definition set_Owners o (s : ShardInfo) := mkShard (si_ID s) o.
Definition set_Shards l (g : ShardGroupInfo) :=
  mkGroup (sgi_ID g) (sgi_StartTime g) (sgi_EndTime g) (sgi_DeletedAt g) l (sgi_TruncatedAt g).
Definition set_DeletedAt t (g : ShardGroupInfo) :=
  mkGroup (sgi_ID g) (sgi_StartTime g) (sgi_EndTime g) t (sgi_Shards g) (sgi_TruncatedAt g).
Definition set_ShardGroups l (r : RetentionPolicyInfo) :=
  mkRP (rp_Name r) (rp_ReplicaN r) (rp_Duration r) (rp_ShardGroupDuration r) l (rp_Subscriptions r).
Definition set_RetentionPolicies l (d : DatabaseInfo) :=
  mkDB (db_Name d) (db_DefaultRetentionPolicy d) l (db_ContinuousQueries d).
Definition set_Databases l (m : mdata) :=
  mkMData (md_Term m) (md_Index m) (md_ClusterID m) l (md_Users m) (md_MaxShardGroupID m) (md_MaxShardID m).
Definition set_MaxIDs g s (m : mdata) :=
  mkMData (md_Term m) (md_Index m) (md_ClusterID m) (md_Databases m) (md_Users m) g s.
Definition set_ClusterID c (m : mdata) :=
  mkMData (md_Term m) (md_Index m) c (md_Databases m) (md_Users m) (md_MaxShardGroupID m) (md_MaxShardID m).
Definition set_TermIndex t i (m : mdata) :=
  mkMData t i (md_ClusterID m) (md_Databases m) (md_Users m) (md_MaxShardGroupID m) (md_MaxShardID m).

Definition set_Data m (d : Data) := mkData m (d_MetaNodes d) (d_DataNodes d) (d_ShardStatus d) (d_MaxNodeID d).
Definition set_MetaNodes l (d : Data) := mkData (d_Data d) l (d_DataNodes d) (d_ShardStatus d) (d_MaxNodeID d).
Definition set_DataNodes l (d : Data) := mkData (d_Data d) (d_MetaNodes d) l (d_ShardStatus d) (d_MaxNodeID d).
Definition set_ShardStatus r (d : Data) := mkData (d_Data d) (d_MetaNodes d) (d_DataNodes d) r (d_MaxNodeID d).
Definition set_MaxNodeID n (d : Data) := mkData (d_Data d) (d_MetaNodes d) (d_DataNodes d) (d_ShardStatus d) n.

(** ** State: the store of maps and the receiver *)

Abbreviation status_map := (gmap Z (gmap Z Z)).

Record mstate := mkMS { ms_maps : gmap nat status_map; ms_next : nat; ms_data : Data }.

Abbreviation MM := (M mstate merror).

Definition d_get : MM Data := fun s => (Ok (ms_data s), s).
Definition d_mod (f : Data -> Data) : MM unit :=
  modify (fun s => mkMS (ms_maps s) (ms_next s) (f (ms_data s))).
Definition lift_md (m : mdata -> res merror mdata) : MM unit :=
  fun s => match m (d_Data (ms_data s)) with
           | Ok md => (Ok tt, mkMS (ms_maps s) (ms_next s) (set_Data md (ms_data s)))
           | Err e => (Err e, s)
           | Panic => (Panic, s)
           end.

(** Reading a nil map gives no entry. *)
Definition ss_of (s : mstate) : status_map :=
  match d_ShardStatus (ms_data s) with
  | Some r => default ∅ (ms_maps s !! r)
  | None => ∅
  end.
(** [delete] on the map, a no-op on nil. *)
Definition ss_update (f : status_map -> status_map) : MM unit :=
  modify (fun s => match d_ShardStatus (ms_data s) with
                   | Some r => mkMS (<[r := f (default ∅ (ms_maps s !! r))]> (ms_maps s)) (ms_next s) (ms_data s)
                   | None => s
                   end).
(** An assignment into the map panics on nil. *)
Definition ss_write (f : status_map -> status_map) : MM unit :=
  let* d := d_get in
  match d_ShardStatus d with Some _ => ss_update f | None => panic end.
(** [m[id][node] = st]: the inner map must exist. *)
Definition ss_assign (id node st : Z) : MM unit :=
  let* s := get in
  match ss_of s !! id with
  | Some _ => ss_write (alter (fun inner : gmap Z Z => <[node := st]> inner) id)
  | None => panic
  end.
(** [make(map[uint64]map[uint64]ShardStatus)] *)
Definition ss_make : MM unit :=
  modify (fun s => mkMS (<[ms_next s := ∅]> (ms_maps s)) (S (ms_next s))
                     (set_ShardStatus (Some (ms_next s)) (ms_data s))).

(** ** Nodes *)

Definition find_node (l : list NodeInfo) (p : NodeInfo -> bool) : option NodeInfo := List.find p l.

Definition DataNode (d : Data) (id : Z) : option NodeInfo := find_node (d_DataNodes d) (fun n => ni_ID n =? id).
Definition MetaNode (d : Data) (id : Z) : option NodeInfo := find_node (d_MetaNodes d) (fun n => ni_ID n =? id).

Definition has_node (l : list NodeInfo) (p : NodeInfo -> bool) : bool :=
  match find_node l p with Some _ => true | None => false end.

(** [CloneMetaNodes] and [CloneDataNodes] copy the slices. *)
Definition CloneMetaNodes (d : Data) : list NodeInfo := map (fun n => n) (d_MetaNodes d).
Definition CloneDataNodes (d : Data) : list NodeInfo := map (fun n => n) (d_DataNodes d).

(** The databases are copied in depth by influxdb's [Clone]; the status map is
    not copied: both values refer to the same one. *)
Definition Clone (d : Data) : Data :=
  set_MetaNodes (CloneMetaNodes d) (set_DataNodes (CloneDataNodes d) d).

(** The first node with that TCP address; 0 when there is none. *)
Definition existing_ID (l : list NodeInfo) (tcpHost : string) : Z :=
  match find_node l (fun n => bool_decide (ni_TCPHost n = tcpHost)) with Some n => ni_ID n | None => 0 end.

(** The node id to use: an existing one or the next. *)
Definition assign_ID (existing : Z) : MM Z :=
  if existing =? 0 then
    let* d := d_get in
    let m := u64 (d_MaxNodeID d + 1) in
    do* d_mod (set_MaxNodeID m) in ret m
  else ret existing.

Section Nodes.
(** [sort.Sort(meta.NodeInfos(l))] *)
Context (sort_nodes : list NodeInfo -> list NodeInfo).

Definition CreateDataNode (host tcpHost : string) : MM unit :=
  let* d := d_get in
  if has_node (d_DataNodes d) (fun n => bool_decide (ni_TCPHost n = tcpHost)) then throw ErrNodeExists else
  let* id := assign_ID (existing_ID (d_MetaNodes d) tcpHost) in
  d_mod (fun d => set_DataNodes (sort_nodes (d_DataNodes d ++ [mkNode id host tcpHost])) d).

Definition setDataNode (nodeID : Z) (host tcpHost : string) : MM unit :=
  let* d := d_get in
  if has_node (d_DataNodes d) (fun n => bool_decide (ni_Host n = host)) then throw ErrNodeExists else
  d_mod (fun d => set_DataNodes (d_DataNodes d ++ [mkNode nodeID host tcpHost]) d).

Definition CreateMetaNode (httpAddr tcpAddr : string) : MM unit :=
  let* d := d_get in
  if has_node (d_MetaNodes d) (fun n => bool_decide (ni_Host n = httpAddr)) then throw ErrNodeExists else
  let* id := assign_ID (existing_ID (d_DataNodes d) tcpAddr) in
  d_mod (fun d => set_MetaNodes (sort_nodes (d_MetaNodes d ++ [mkNode id httpAddr tcpAddr])) d).

Definition SetMetaNode (httpAddr tcpAddr : string) : MM unit :=
  let* d := d_get in
  match d_MetaNodes d with
  | _ :: _ :: _ => throw ErrManyMetaNodes
  | [] => CreateMetaNode httpAddr tcpAddr
  | [n] => d_mod (set_MetaNodes [mkNode (ni_ID n) httpAddr tcpAddr])
  end.
End Nodes.

Definition DeleteMetaNode (id : Z) : MM unit :=
  if id =? 0 then throw ErrNodeIDRequired else
  let* d := d_get in
  let nodes := List.filter (fun n => negb (ni_ID n =? id)) (d_MetaNodes d) in
  if zlen nodes =? zlen (d_MetaNodes d) then throw ErrNodeNotFound else
  d_mod (set_MetaNodes nodes).

(** ** Loops over the databases *)

Fixpoint traverse {A} (f : A -> MM A) (xs : list A) : MM (list A) :=
  match xs with
  | x :: xs' => let* y := f x in let* ys := traverse f xs' in ret (y :: ys)
  | [] => ret []
  end.

(** The loops over databases, retention policies and shard groups, with the
    body [f] on each group; the groups are updated in place. *)
Definition each_group (f : ShardGroupInfo -> MM ShardGroupInfo) : MM unit :=
  let* d := d_get in
  let* dbs := traverse (fun db =>
    let* rps := traverse (fun rp =>
      let* gs := traverse f (rp_ShardGroups rp) in ret (set_ShardGroups gs rp)) (db_RetentionPolicies db) in
    ret (set_RetentionPolicies rps db)) (md_Databases (d_Data d)) in
  d_mod (fun d => set_Data (set_Databases dbs (d_Data d)) d).

Fixpoint add_owners (id : Z) (newOwners : list Z) (s : ShardInfo) : MM ShardInfo :=
  match newOwners with
  | [] => ret s
  | o :: os =>
      let s' := set_Owners (si_Owners s ++ [o]) s in
      let* st := get in
      do* match ss_of st !! id with Some _ => ss_assign id o ShardWrite | None => ret tt end in
      add_owners id os s'
  end.

Definition UpdateShard (id : Z) (newOwners : list Z) : MM unit :=
  each_group (fun g =>
    let* shards := traverse (fun s => if si_ID s =? id then add_owners id newOwners s else ret s) (sgi_Shards g) in
    ret (set_Shards shards g)).

(** ** DeleteDataNode *)

Section Delete.
(** The order in which Go ranges over a map, and the clock. *)
Context (range : gmap Z Z -> list (Z * Z)) (now : Z).

Definition incr (k : Z) (m : gmap Z Z) : gmap Z Z := <[k := default 0 (m !! k) + 1]> m.

Definition newShardOwner (ownerFreqs : gmap Z Z) : res merror (Z * gmap Z Z) :=
  let '(minId, _) := fold_left (fun acc e =>
      let '(minId, minFreq) := acc in
      let '(id, freq) := e in
      if (minId =? -1) || (freq <? minFreq) then (id, freq) else (minId, minFreq))
    (range ownerFreqs) (-1, 0) in
  if minId <? 0 then Err ErrCannotReassign
  else Ok (u64 minId, incr minId ownerFreqs).

(** The loop over the owners of one shard: the last index of [id] and the
    frequencies. *)
Fixpoint scan_owners (id : Z) (owners : list Z) (i : nat) (nodeIdx : option nat) (freqs : gmap Z Z)
  : option nat * gmap Z Z :=
  match owners with
  | [] => (nodeIdx, freqs)
  | o :: os => scan_owners id os (S i) (if o =? id then Some i else nodeIdx) (incr (i64 o) freqs)
  end.

Definition remove_at {A} (i : nat) (l : list A) : list A := take i l ++ drop (S i) l.

(** The loop over the shards of a group: the shards, the frequencies and the
    shards without an owner. *)
Fixpoint relinquish (id : Z) (shards : list ShardInfo) (freqs : gmap Z Z)
  : MM (list ShardInfo * gmap Z Z * list ShardInfo) :=
  match shards with
  | [] => ret ([], freqs, [])
  | s :: ss =>
      let '(nodeIdx, freqs') := scan_owners id (si_Owners s) 0 None freqs in
      do* match nodeIdx with
          | Some _ => ss_update (alter (fun inner : gmap Z Z => delete id inner) (si_ID s))
          | None => ret tt
          end in
      let s' := match nodeIdx with
                | Some i => set_Owners (remove_at i (si_Owners s)) s
                | None => s
                end in
      let* r := relinquish id ss freqs' in
      let '(ss', freqs'', orphans) := r in
      ret (s' :: ss', freqs'', match si_Owners s' with [] => s' :: orphans | _ => orphans end)
  end.

(** Append an owner to the first shard with that id. *)
Fixpoint give_owner (shardID owner : Z) (shards : list ShardInfo) : list ShardInfo :=
  match shards with
  | [] => []
  | s :: ss => if si_ID s =? shardID then set_Owners (si_Owners s ++ [owner]) s :: ss
               else s :: give_owner shardID owner ss
  end.

Fixpoint reassign (orphans : list ShardInfo) (freqs : gmap Z Z) (shards : list ShardInfo)
  : res merror (list ShardInfo) :=
  match orphans with
  | [] => Ok shards
  | o :: os =>
      match newShardOwner freqs with
      | Ok (owner, freqs') => reassign os freqs' (give_owner (si_ID o) owner shards)
      | Err e => Err e
      | Panic => Panic
      end
  end.

Definition delete_from_group (id : Z) (g : ShardGroupInfo) : MM ShardGroupInfo :=
  let* r := relinquish id (sgi_Shards g) ∅ in
  let '(shards, freqs, orphans) := r in
  if (zlen (sgi_Shards g) =? 0) || (zlen orphans =? zlen (sgi_Shards g)) then
    ret (set_DeletedAt now (set_Shards shards g))
  else
    match reassign orphans (delete (i64 id) freqs) shards with
    | Ok shards' => ret (set_Shards shards' g)
    | Err e => throw e
    | Panic => panic
    end.

(** On an error the callers drop the receiver. *)
Definition DeleteDataNode (id : Z) : MM unit :=
  let* d := d_get in
  let nodes := List.filter (fun n => negb (ni_ID n =? id)) (d_DataNodes d) in
  if zlen nodes =? zlen (d_DataNodes d) then throw ErrNodeNotFound else
  do* d_mod (set_DataNodes nodes) in
  each_group (delete_from_group id).
End Delete.

(** ** CreateShardGroup *)

(** [t.Truncate(d)]: down to a multiple of [d] since the zero time. *)
Definition Truncate (t d : Z) : Z := if d <=? 0 then t else t - (t - zero_time) mod d.

Fixpoint create_shards (n : nat) : MM (list ShardInfo) :=
  match n with
  | O => ret []
  | S n' =>
      let* d := d_get in
      let id := u64 (md_MaxShardID (d_Data d) + 1) in
      do* d_mod (fun d => set_Data (set_MaxIDs (md_MaxShardGroupID (d_Data d)) id (d_Data d)) d) in
      do* match d_ShardStatus d with None => ss_make | Some _ => ret tt end in
      do* ss_write (<[id := ∅]>) in
      let* l := create_shards n' in
      ret (mkShard id [] :: l)
  end.

(** The owners of one shard: [replicaN] nodes from [nodeIndex] on. *)
Fixpoint assign_owners (replicaN : nat) (nodes : list NodeInfo) (nodeIndex : Z) (s : ShardInfo) : MM (ShardInfo) :=
  match replicaN with
  | O => ret s
  | S r =>
      match nodes !! Z.to_nat (nodeIndex mod zlen nodes) with
      | None => panic
      | Some n =>
          do* ss_assign (si_ID s) (ni_ID n) ShardWriteRead in
          assign_owners r nodes (nodeIndex + 1) (set_Owners (si_Owners s ++ [ni_ID n]) s)
      end
  end.

Fixpoint assign_all (replicaN : nat) (nodes : list NodeInfo) (nodeIndex : Z) (l : list ShardInfo) : MM (list ShardInfo) :=
  match l with
  | [] => ret []
  | s :: l' =>
      let* s' := assign_owners replicaN nodes nodeIndex s in
      let* k := assign_all replicaN nodes (nodeIndex + Z.of_nat replicaN) l' in
      ret (s' :: k)
  end.

(** Require at least one replica but no more replicas than nodes. *)
Definition replicas (want nodes : Z) : Z :=
  if want =? 0 then 1 else if want >? nodes then nodes else want.

Section CreateGroup.
(** [meta.Data.RetentionPolicy]: the place of the policy, as the indices of its
    database and of the policy in it; [rpi.ShardGroupByTimestamp];
    [sort.Sort(meta.ShardGroupInfos(l))]. *)
Context (RetentionPolicy : mdata -> string -> string -> res merror (option (nat * nat))).
Context (ShardGroupByTimestamp : RetentionPolicyInfo -> Z -> option ShardGroupInfo).
Context (sort_groups : list ShardGroupInfo -> list ShardGroupInfo).

Definition policy_at (m : mdata) (p : nat * nat) : option RetentionPolicyInfo :=
  db ← md_Databases m !! p.1; db_RetentionPolicies db !! p.2.

Definition alter_policy (f : RetentionPolicyInfo -> RetentionPolicyInfo) (p : nat * nat) (m : mdata) : mdata :=
  set_Databases (alter (fun db => set_RetentionPolicies (alter f p.2 (db_RetentionPolicies db)) db) p.1
                   (md_Databases m)) m.

Definition CreateShardGroup (database policy : string) (timestamp : Z) : MM unit :=
  let* d := d_get in
  let nodes := d_DataNodes d in
  if zlen nodes =? 0 then ret tt else
  match RetentionPolicy (d_Data d) database policy with
  | Err e => throw e
  | Panic => panic
  | Ok None => throw (ErrInflux "retention policy not found")
  | Ok (Some p) =>
    match policy_at (d_Data d) p with
    | None => panic
    | Some rpi =>
      match ShardGroupByTimestamp rpi timestamp with
      | Some _ => ret tt
      | None =>
          let replicaN := replicas (rp_ReplicaN rpi) (zlen nodes) in
          let shardN := Z.quot (zlen nodes) replicaN in
          let gid := u64 (md_MaxShardGroupID (d_Data d) + 1) in
          do* d_mod (fun d => set_Data (set_MaxIDs gid (md_MaxShardID (d_Data d)) (d_Data d)) d) in
          let start := Truncate timestamp (rp_ShardGroupDuration rpi) in
          if shardN <? 0 then panic else
          let* shards := create_shards (Z.to_nat shardN) in
          let nodeIndex := md_Index (d_Data d) mod zlen nodes in
          let* shards' := assign_all (Z.to_nat replicaN) nodes nodeIndex shards in
          let sgi := mkGroup gid start (start + rp_ShardGroupDuration rpi) zero_time shards' zero_time in
          d_mod (fun d => set_Data (alter_policy (fun r =>
                   set_ShardGroups (sort_groups (rp_ShardGroups r ++ [sgi])) r) p (d_Data d)) d)
      end
    end
  end.
End CreateGroup.

(** [DropShard]: influxdb's [DropShard] on the databases, then the status. *)
Definition DropShard (influx_DropShard : Z -> mdata -> mdata) (id : Z) : MM unit :=
  do* d_mod (fun d => set_Data (influx_DropShard id (d_Data d)) d) in
  ss_update (delete id).
