(* ===== verification/MetaPlacement.v ===== *)
(** * Where shards live

    What [CreateShardGroup] and [DeleteDataNode] of [services/meta/data.go] do
    to the ownership of shards, and the node ids [CreateDataNode] and
    [CreateMetaNode] hand out. *)

From S2P Require Import Prelude MetaData.

Implicit Types nodes : list NodeInfo.

(** ** Round robin *)

Definition id_at (nodes : list NodeInfo) (i : Z) : Z :=
  default 0 (ni_ID <$> nodes !! Z.to_nat (i mod zlen nodes)).

(** [k] consecutive node ids of the ring, from position [i] on. *)
Fixpoint ring (nodes : list NodeInfo) (i : Z) (k : nat) : list Z :=
  match k with
  | O => []
  | S k' => id_at nodes i :: ring nodes (i + 1) k'
  end.

Lemma ring_length nodes i k : length (ring nodes i k) = k.
Proof. revert i. induction k as [|k IH]; intros i; cbn; [|rewrite IH]; reflexivity. Qed.

Lemma ring_app nodes i a b : ring nodes i (a + b) = ring nodes i a ++ ring nodes (i + Z.of_nat a) b.
Proof.
  revert i. induction a as [|a IH]; intros i; cbn [ring Nat.add app].
  - f_equal. lia.
  - rewrite IH. do 3 f_equal. lia.
Qed.

Lemma ring_lookup nodes i k j : (j < k)%nat -> ring nodes i k !! j = Some (id_at nodes (i + Z.of_nat j)).
Proof.
  revert i j. induction k as [|k IH]; intros i j H; [lia|]. destruct j as [|j]; cbn.
  - do 2 f_equal. lia.
  - rewrite IH by lia. do 2 f_equal. lia.
Qed.

Lemma mod_index (n : Z) (i : Z) : 0 < n -> (Z.to_nat (i mod n) < Z.to_nat n)%nat.
Proof. intros H. pose proof (Z.mod_pos_bound i n H). lia. Qed.

Lemma node_at nodes i : nodes <> [] -> exists n, nodes !! Z.to_nat (i mod zlen nodes) = Some n.
Proof.
  intros H. apply lookup_lt_is_Some. assert (0 < zlen nodes).
  { destruct nodes; [congruence|]. rewrite zlen_cons. pose proof (zlen_nonneg nodes). lia. }
  pose proof (mod_index (zlen nodes) i ltac:(lia)). unfold zlen in *. rewrite Nat2Z.id in *. lia.
Qed.

Lemma id_at_elem nodes i : nodes <> [] -> id_at nodes i ∈ map ni_ID nodes.
Proof.
  intros H. unfold id_at. destruct (node_at nodes i H) as [n Hn]. rewrite Hn. cbn.
  apply elem_of_map, (list_elem_of_lookup_2 _ _ _ Hn).
Qed.

Lemma ring_elem nodes i k o : nodes <> [] -> o ∈ ring nodes i k -> o ∈ map ni_ID nodes.
Proof.
  intros H. revert i. induction k as [|k IH]; intros i Ho; cbn in Ho; [inversion Ho|].
  apply elem_of_cons in Ho as [->|Ho]; [apply id_at_elem, H|eauto].
Qed.

(** Fewer steps than nodes visit no node twice. *)
Lemma ring_NoDup nodes i k :
  NoDup (map ni_ID nodes) -> Z.of_nat k <= zlen nodes -> NoDup (ring nodes i k).
Proof.
  intros Hd Hk. destruct k as [|k']; [constructor|]. set (k := S k') in *.
  assert (0 < zlen nodes) as Hn by lia.
  assert (nodes <> []) as Hne by (intros ->; change (zlen []) with 0 in Hn; lia).
  apply NoDup_alt. intros a b x Ha Hb.
  assert (a < k)%nat as La by (apply lookup_lt_Some in Ha; rewrite ring_length in Ha; exact Ha).
  assert (b < k)%nat as Lb by (apply lookup_lt_Some in Hb; rewrite ring_length in Hb; exact Hb).
  rewrite ring_lookup in Ha, Hb by assumption.
  assert (id_at nodes (i + Z.of_nat a) = id_at nodes (i + Z.of_nat b)) as E by congruence.
  unfold id_at in E. destruct (node_at nodes (i + Z.of_nat a) Hne) as [m Hm].
  destruct (node_at nodes (i + Z.of_nat b) Hne) as [m' Hm']. rewrite Hm, Hm' in E. cbn in E.
  assert (Z.to_nat ((i + Z.of_nat a) mod zlen nodes) = Z.to_nat ((i + Z.of_nat b) mod zlen nodes)) as Ei.
  { eapply (NoDup_lookup (map ni_ID nodes)); [exact Hd| |].
    - rewrite list_lookup_fmap, Hm. reflexivity.
    - rewrite list_lookup_fmap, Hm'. cbn. rewrite E. reflexivity. }
  pose proof (Z.mod_pos_bound (i + Z.of_nat a) (zlen nodes) Hn).
  pose proof (Z.mod_pos_bound (i + Z.of_nat b) (zlen nodes) Hn).
  assert ((i + Z.of_nat a) mod zlen nodes = (i + Z.of_nat b) mod zlen nodes) as Em by lia.
  pose proof (Z.div_mod (i + Z.of_nat a) (zlen nodes) ltac:(lia)).
  pose proof (Z.div_mod (i + Z.of_nat b) (zlen nodes) ltac:(lia)).
  assert ((i + Z.of_nat a) / zlen nodes = (i + Z.of_nat b) / zlen nodes) by nia. nia.
Qed.

(** ** The status map *)

(** The status entries after all of [owners] were marked. *)
Definition mark (owners : list Z) (inner : gmap Z Z) : gmap Z Z :=
  fold_left (fun m o => <[o := ShardWriteRead]> m) owners inner.

Lemma mark_lookup owners inner o :
  mark owners inner !! o = if decide (o ∈ owners) then Some ShardWriteRead else inner !! o.
Proof.
  revert inner. induction owners as [|x owners IH]; intros inner; cbn; [reflexivity|].
  unfold mark in *. rewrite IH. destruct (decide (o ∈ owners)) as [H|H].
  - rewrite decide_True; [reflexivity|]. right. exact H.
  - destruct (decide (o = x)) as [->|Hx].
    + rewrite lookup_insert_eq, decide_True; [reflexivity|left].
    + rewrite lookup_insert_ne by congruence. rewrite decide_False; [reflexivity|].
      rewrite elem_of_cons. tauto.
Qed.

Lemma mark_app a b inner : mark (a ++ b) inner = mark b (mark a inner).
Proof. apply fold_left_app. Qed.

(** [s'] differs from [s] in the status map only. *)
Definition same_data (s s' : mstate) : Prop := ms_data s' = ms_data s.

Lemma run_ss_assign s r id node st inner :
  d_ShardStatus (ms_data s) = Some r -> ss_of s !! id = Some inner ->
  exists s', ss_assign id node st s = (Ok tt, s') /\ same_data s s'
    /\ ss_of s' = <[id := <[node := st]> inner]> (ss_of s).
Proof.
  intros Hr Hi. unfold ss_assign, bind, get. rewrite Hi. unfold ss_write, bind, d_get. rewrite Hr.
  unfold ss_update, modify. rewrite Hr. eexists. split; [reflexivity|]. split; [reflexivity|].
  unfold ss_of in *. cbn [ms_data ms_maps]. rewrite Hr in *. rewrite lookup_insert_eq.
  cbn [default from_option]. change (Datatypes.id ?x) with x.
  apply map_eq. intros k. destruct (decide (k = id)) as [->|Hk].
  - rewrite lookup_alter_eq, Hi, lookup_insert_eq. reflexivity.
  - rewrite lookup_alter_ne, lookup_insert_ne by congruence. reflexivity.
Qed.

Lemma run_assign_owners k nodes i sh s r inner :
  nodes <> [] -> d_ShardStatus (ms_data s) = Some r -> ss_of s !! si_ID sh = Some inner ->
  exists s', assign_owners k nodes i sh s = (Ok (mkShard (si_ID sh) (si_Owners sh ++ ring nodes i k)), s')
    /\ same_data s s' /\ ss_of s' = <[si_ID sh := mark (ring nodes i k) inner]> (ss_of s).
Proof.
  intros Hne. revert i sh s inner. induction k as [|k IH]; intros i sh s inner Hr Hi; cbn [assign_owners ring].
  { exists s. rewrite app_nil_r. destruct sh. split; [reflexivity|]. split; [reflexivity|].
    cbn. rewrite insert_id; [reflexivity|exact Hi]. }
  destruct (node_at nodes i Hne) as [n Hn]. rewrite Hn.
  assert (id_at nodes i = ni_ID n) as -> by (unfold id_at; rewrite Hn; reflexivity).
  destruct (run_ss_assign s r (si_ID sh) (ni_ID n) ShardWriteRead inner Hr Hi) as (s1 & E1 & D1 & S1).
  erewrite bind_ok by exact E1.
  destruct (IH (i + 1) (set_Owners (si_Owners sh ++ [ni_ID n]) sh) s1 (<[ni_ID n := ShardWriteRead]> inner))
    as (s2 & E2 & D2 & S2).
  { unfold same_data in D1. rewrite D1. exact Hr. }
  { cbn. rewrite S1. apply lookup_insert_eq. }
  exists s2. rewrite E2. cbn. rewrite <- app_assoc. split; [reflexivity|].
  split; [unfold same_data in *; congruence|]. rewrite S2, S1. cbn. apply insert_insert_eq.
Qed.

(** The shards [create_shards] makes. *)
Fixpoint fresh_shards (max : Z) (n : nat) : list ShardInfo :=
  match n with
  | O => []
  | S n' => mkShard (max + 1) [] :: fresh_shards (max + 1) n'
  end.

(** The shards with consecutive parts of the ring as owners. *)
Fixpoint ring_shards (nodes : list NodeInfo) (k : nat) (max i : Z) (n : nat) : list ShardInfo :=
  match n with
  | O => []
  | S n' => mkShard (max + 1) (ring nodes i k) :: ring_shards nodes k (max + 1) (i + Z.of_nat k) n'
  end.

Lemma ring_shards_owners nodes k max i n :
  concat (map si_Owners (ring_shards nodes k max i n)) = ring nodes i (n * k).
Proof.
  revert max i. induction n as [|n IH]; intros max i; cbn; [reflexivity|].
  rewrite IH, ring_app. reflexivity.
Qed.

Lemma ring_shards_elem nodes k max i n sh :
  sh ∈ ring_shards nodes k max i n -> max < si_ID sh <= max + Z.of_nat n /\ length (si_Owners sh) = k.
Proof.
  revert max i. induction n as [|n IH]; intros max i H; cbn in H; [inversion H|].
  apply elem_of_cons in H as [->|H]; [cbn; rewrite ring_length; lia|].
  destruct (IH _ _ H). lia.
Qed.

Lemma run_assign_all k nodes max i n s r :
  nodes <> [] -> d_ShardStatus (ms_data s) = Some r ->
  (forall id, max < id <= max + Z.of_nat n -> ss_of s !! id = Some ∅) ->
  exists s', assign_all k nodes i (fresh_shards max n) s = (Ok (ring_shards nodes k max i n), s')
    /\ same_data s s'
    /\ (forall sh, sh ∈ ring_shards nodes k max i n -> ss_of s' !! si_ID sh = Some (mark (si_Owners sh) ∅))
    /\ (forall id, id <= max \/ max + Z.of_nat n < id -> ss_of s' !! id = ss_of s !! id).
Proof.
  intros Hne. revert max i s. induction n as [|n IH]; intros max i s Hr Hs; cbn [fresh_shards ring_shards assign_all].
  { exists s. repeat split. intros sh H. inversion H. }
  destruct (run_assign_owners k nodes i (mkShard (max + 1) []) s r ∅ Hne Hr) as (s1 & E1 & D1 & S1).
  { apply Hs. cbn. lia. }
  erewrite bind_ok by exact E1. cbn [si_ID si_Owners app] in *.
  destruct (IH (max + 1) (i + Z.of_nat k) s1) as (s2 & E2 & D2 & S2 & F2).
  { unfold same_data in D1. rewrite D1. exact Hr. }
  { intros id Hid. rewrite S1, lookup_insert_ne by lia. apply Hs. lia. }
  erewrite bind_ok by exact E2. exists s2. split; [reflexivity|].
  split; [unfold same_data in *; congruence|]. split.
  - intros sh H. apply elem_of_cons in H as [->|H]; [|apply S2, H].
    cbn. rewrite F2 by lia. rewrite S1. apply lookup_insert_eq.
  - intros id Hid. rewrite F2, S1, lookup_insert_ne by lia. reflexivity.
Qed.

Lemma run_ss_write f s r :
  d_ShardStatus (ms_data s) = Some r ->
  exists s', ss_write f s = (Ok tt, s') /\ same_data s s' /\ ss_of s' = f (ss_of s).
Proof.
  intros Hr. unfold ss_write, bind, d_get. rewrite Hr. unfold ss_update, modify. rewrite Hr.
  eexists. split; [reflexivity|]. split; [reflexivity|]. unfold ss_of. cbn [ms_data ms_maps].
  rewrite Hr, lookup_insert_eq. reflexivity.
Qed.

(** The status map exists after this line of the code. *)
Lemma run_ensure_map s :
  exists s' r, (match d_ShardStatus (ms_data s) with None => ss_make | Some _ => ret tt end) s = (Ok tt, s')
    /\ d_ShardStatus (ms_data s') = Some r /\ ms_data s' = set_ShardStatus (Some r) (ms_data s)
    /\ ss_of s' = ss_of s.
Proof.
  destruct (d_ShardStatus (ms_data s)) as [r|] eqn:E.
  - exists s, r. split; [reflexivity|]. split; [exact E|]. split; [|reflexivity].
    destruct s as [m k d], d. cbn in *. rewrite E. reflexivity.
  - eexists _, _. split; [reflexivity|]. split; [reflexivity|]. split; [reflexivity|].
    unfold ss_of. cbn. rewrite lookup_insert_eq, E. reflexivity.
Qed.

Lemma run_create_shards n s max :
  md_MaxShardID (d_Data (ms_data s)) = max -> 0 <= max -> max + Z.of_nat n < 2 ^ 64 ->
  exists s', create_shards n s = (Ok (fresh_shards max n), s')
    /\ ms_data s' = set_ShardStatus (d_ShardStatus (ms_data s'))
         (set_Data (set_MaxIDs (md_MaxShardGroupID (d_Data (ms_data s))) (max + Z.of_nat n) (d_Data (ms_data s)))
            (ms_data s))
    /\ (is_Some (d_ShardStatus (ms_data s)) \/ (0 < n)%nat -> is_Some (d_ShardStatus (ms_data s')))
    /\ (forall id, max < id <= max + Z.of_nat n -> ss_of s' !! id = Some ∅)
    /\ (forall id, id <= max \/ max + Z.of_nat n < id -> ss_of s' !! id = ss_of s !! id).
Proof.
  revert s max. induction n as [|n IH]; intros s max Hm H0 Hlt; cbn [create_shards fresh_shards].
  { exists s. split; [reflexivity|]. split; [|split; [intros [H|H]; [exact H|lia]|]].
    - replace (max + Z.of_nat 0) with max by lia. subst max. destruct s as [m k [[]]]. reflexivity.
    - split; [lia|reflexivity]. }
  erewrite bind_ok by reflexivity. rewrite Hm, u64_small by lia. erewrite bind_ok by reflexivity.
  set (s1 := mkMS _ _ _).
  change (d_ShardStatus (ms_data s)) with (d_ShardStatus (ms_data s1)).
  destruct (run_ensure_map s1) as (s2 & r & E2 & R2 & D2 & S2). erewrite bind_ok by exact E2.
  destruct (run_ss_write (<[max + 1 := ∅]>) s2 r R2) as (s3 & E3 & D3 & S3). erewrite bind_ok by exact E3.
  unfold same_data in D3.
  destruct (IH s3 (max + 1)) as (s4 & E4 & D4 & I4 & N4 & O4).
  { rewrite D3, D2. reflexivity. } { lia. } { lia. }
  erewrite bind_ok by exact E4. exists s4. split; [reflexivity|]. split; [|split; [|split]].
  - rewrite D4, D3, D2. replace (max + Z.of_nat (S n)) with (max + 1 + Z.of_nat n) by lia. reflexivity.
  - intros _. apply I4. left. rewrite D3. eauto.
  - intros id Hid. destruct (decide (id = max + 1)) as [->|Hne].
    + rewrite O4, S3 by lia. apply lookup_insert_eq.
    + apply N4. lia.
  - intros id Hid. rewrite O4, S3, lookup_insert_ne, S2 by lia. reflexivity.
Qed.

(** ** The theorem *)

Lemma fresh_shards_0 max : fresh_shards max 0 = [].
Proof. reflexivity. Qed.

Lemma Truncate_covers t d : 0 < d -> Truncate t d <= t < Truncate t d + d.
Proof.
  intros H. unfold Truncate. destruct (Z.leb_spec d 0); [lia|].
  pose proof (Z.mod_pos_bound (t - zero_time) d H). lia.
Qed.

Lemma replicas_bound want n : 0 <= want -> 0 < n -> 1 <= replicas want n <= n.
Proof. intros H H0. unfold replicas. zcases; lia. Qed.

Section Placement.
Context (RetentionPolicy : mdata -> string -> string -> res merror (option (nat * nat))).
Context (ShardGroupByTimestamp : RetentionPolicyInfo -> Z -> option ShardGroupInfo).
Context (sort_groups : list ShardGroupInfo -> list ShardGroupInfo).
(** [sort.Sort] permutes. *)
Hypothesis sort_groups_perm : forall l, sort_groups l ≡ₚ l.

(** What a new shard group must look like on [nodes] with [replicaN] replicas,
    for a policy whose groups last [dur]. *)
Record placed (nodes : list NodeInfo) (replicaN maxShard timestamp dur : Z) (status : status_map)
    (g : ShardGroupInfo) : Prop := {
  (** as many shards as the nodes allow *)
  pl_count : zlen (sgi_Shards g) = zlen nodes / replicaN;
  (** new ids *)
  pl_fresh : Forall (fun sh => maxShard < si_ID sh) (sgi_Shards g);
  (** each shard has [replicaN] owners *)
  pl_replicas : Forall (fun sh => zlen (si_Owners sh) = replicaN) (sgi_Shards g);
  (** no node is used twice in the group *)
  pl_distinct : NoDup (concat (map si_Owners (sgi_Shards g)));
  (** the owners are data nodes *)
  pl_nodes : Forall (fun o => o ∈ map ni_ID nodes) (concat (map si_Owners (sgi_Shards g)));
  (** exactly the owners can read and write *)
  pl_status : Forall (fun sh => exists inner, status !! si_ID sh = Some inner /\
                forall o, inner !! o = if decide (o ∈ si_Owners sh) then Some ShardWriteRead else None)
              (sgi_Shards g);
  (** the group covers the timestamp *)
  pl_time : sgi_StartTime g <= timestamp < sgi_EndTime g /\ sgi_EndTime g = sgi_StartTime g + dur }.

Lemma ring_placed nodes replicaN max gid start dur i ts status :
  nodes <> [] -> NoDup (map ni_ID nodes) -> 1 <= replicaN <= zlen nodes ->
  start <= ts < start + dur ->
  let shards := ring_shards nodes (Z.to_nat replicaN) max i (Z.to_nat (zlen nodes / replicaN)) in
  (forall sh, sh ∈ shards -> status !! si_ID sh = Some (mark (si_Owners sh) ∅)) ->
  placed nodes replicaN max ts dur status (mkGroup gid start (start + dur) zero_time shards zero_time).
Proof.
  intros Hne Hd Hr Ht shards Hs.
  assert (forall sh, sh ∈ shards -> max < si_ID sh /\ zlen (si_Owners sh) = replicaN) as He.
  { intros sh H. apply ring_shards_elem in H as [H1 H2]. unfold zlen. rewrite H2. lia. }
  assert (0 <= zlen nodes / replicaN) as Hq by (apply Z.div_pos; [apply zlen_nonneg|lia]).
  split; cbn [sgi_Shards sgi_StartTime sgi_EndTime].
  - assert (forall m j k n, length (ring_shards nodes k m j n) = n) as Hl.
    { intros m j k n. revert m j. induction n as [|n IH]; intros m j; cbn; [|rewrite IH]; reflexivity. }
    unfold zlen at 1, shards. rewrite Hl. lia.
  - apply Forall_forall. intros sh H. apply He, H.
  - apply Forall_forall. intros sh H. apply He, H.
  - unfold shards. rewrite ring_shards_owners. apply ring_NoDup; [exact Hd|].
    rewrite Nat2Z.inj_mul, !Z2Nat.id by lia. rewrite Z.mul_comm. apply Z.mul_div_le. lia.
  - unfold shards. rewrite ring_shards_owners. apply Forall_forall. intros o. apply ring_elem, Hne.
  - apply Forall_forall. intros sh H. eexists. split; [apply Hs, H|].
    intros o. rewrite mark_lookup, lookup_empty. reflexivity.
  - split; [exact Ht|reflexivity].
Qed.

Lemma policy_at_other f (p q : nat * nat) (m m' : mdata) :
  md_Databases m = md_Databases m' -> q <> p -> policy_at (alter_policy f p m) q = policy_at m' q.
Proof.
  intros E Hq. unfold policy_at, alter_policy. cbn. rewrite <- E. destruct p as [i j], q as [i' j']. cbn. destruct (decide (i' = i)) as [->|Hi].
  - rewrite list_lookup_alter_eq. destruct (md_Databases m !! i); [|reflexivity]. cbn. apply list_lookup_alter_ne. congruence.
  - rewrite list_lookup_alter_ne by congruence. reflexivity.
Qed.

(** C19 (functional). Creating a shard group for a timestamp no group covers
    places it: as many shards as there are nodes per replica, each with the
    wanted number of replicas, no node used twice in the group, every owner a
    data node that can read and write the shard; the group covers the
    timestamp and its shard ids are new.  Of the policy only the list of groups
    changes, by this group: its name, duration, replication and subscriptions
    are as before, and so are the other policies and databases and the statuses
    of older shards. *)
Theorem shard_group_placement (s : mstate) (database policy : string) (timestamp : Z)
    (p : nat * nat) (rpi : RetentionPolicyInfo) :
  let d := ms_data s in
  let nodes := d_DataNodes d in
  let replicaN := replicas (rp_ReplicaN rpi) (zlen nodes) in
  let max := md_MaxShardID (d_Data d) in
  nodes <> [] -> NoDup (map ni_ID nodes) ->
  RetentionPolicy (d_Data d) database policy = Ok (Some p) -> policy_at (d_Data d) p = Some rpi ->
  ShardGroupByTimestamp rpi timestamp = None -> 0 <= rp_ReplicaN rpi -> 0 < rp_ShardGroupDuration rpi ->
  0 <= max -> max + zlen nodes < 2 ^ 64 ->
  exists s' rpi' g,
    CreateShardGroup RetentionPolicy ShardGroupByTimestamp sort_groups database policy timestamp s = (Ok tt, s')
    /\ policy_at (d_Data (ms_data s')) p = Some rpi'
    /\ rp_ShardGroups rpi' ≡ₚ g :: rp_ShardGroups rpi
    /\ rpi' = set_ShardGroups (rp_ShardGroups rpi') rpi
    /\ (forall q, q <> p -> policy_at (d_Data (ms_data s')) q = policy_at (d_Data d) q)
    /\ placed nodes replicaN max timestamp (rp_ShardGroupDuration rpi) (ss_of s') g
    /\ forall id, id <= max -> ss_of s' !! id = ss_of s !! id.
Proof.
  intros d nodes replicaN max Hne Hd Hrp Hat Hts Hr Hdur Hmax Hlt.
  assert (0 < zlen nodes) as Hn.
  { unfold nodes in *. destruct (d_DataNodes d); [congruence|]. rewrite zlen_cons.
    pose proof (zlen_nonneg l). lia. }
  pose proof (replicas_bound (rp_ReplicaN rpi) (zlen nodes) Hr Hn) as HrN. fold replicaN in HrN.
  pose proof (Z.div_le_upper_bound (zlen nodes) replicaN (zlen nodes) ltac:(lia) ltac:(nia)) as Hle.
  assert (1 <= zlen nodes / replicaN) as Hge by (apply Z.div_le_lower_bound; lia).
  unfold CreateShardGroup. erewrite bind_ok by reflexivity. fold d nodes.
  destruct (Z.eqb_spec (zlen nodes) 0) as [H|_]; [lia|]. rewrite Hrp, Hat, Hts.
  fold replicaN. rewrite Z.quot_div_nonneg by lia. erewrite bind_ok by reflexivity.
  set (s1 := mkMS _ _ _). destruct (Z.ltb_spec (zlen nodes / replicaN) 0) as [H|_]; [lia|].
  destruct (run_create_shards (Z.to_nat (zlen nodes / replicaN)) s1 max) as (s2 & E2 & D2 & I2 & N2 & O2).
  { reflexivity. } { exact Hmax. } { rewrite Z2Nat.id by lia. lia. }
  erewrite bind_ok by exact E2.
  destruct I2 as [r Hr2]; [right; lia|].
  destruct (run_assign_all (Z.to_nat replicaN) nodes max (md_Index (d_Data d) mod zlen nodes)
              (Z.to_nat (zlen nodes / replicaN)) s2 r Hne Hr2 N2) as (s3 & E3 & D3 & S3 & F3).
  erewrite bind_ok by exact E3. set (g := mkGroup _ _ _ _ _ _).
  eexists _, (set_ShardGroups (sort_groups (rp_ShardGroups rpi ++ [g])) rpi), g.
  split; [reflexivity|]. split; [|split; [|split; [reflexivity|split; [|split]]]].
  - unfold same_data in D3. cbn [ms_data d_Data]. rewrite D3, D2. unfold policy_at, alter_policy. cbn.
    unfold policy_at in Hat. apply bind_Some in Hat as (db & Hdb & Hp).
    change (md_Databases (d_Data d)) with (md_Databases (d_Data (ms_data s))) in Hdb.
    erewrite list_lookup_alter_eq, Hdb. cbn. erewrite list_lookup_alter_eq, Hp. reflexivity.
  - cbn [rp_ShardGroups set_ShardGroups]. rewrite sort_groups_perm. rewrite Permutation_app_comm. reflexivity.
  - intros q Hq. unfold same_data in D3. cbn [ms_data d_Data]. rewrite D3, D2. apply policy_at_other; [reflexivity|exact Hq].
  - apply (ring_placed nodes replicaN max _ _ (rp_ShardGroupDuration rpi) (md_Index (d_Data d) mod zlen nodes)).
    + exact Hne.
    + exact Hd.
    + exact HrN.
    + apply Truncate_covers, Hdur.
    + exact S3.
  - intros id Hid. change (ss_of s1) with (ss_of s) in O2.
    transitivity (ss_of s3 !! id); [reflexivity|]. rewrite F3, O2 by lia. reflexivity.
Qed.
End Placement.

(** ** Witness: four nodes, two replicas *)

Definition ex_nodes : list NodeInfo :=
  [mkNode 1 "h1" "t1"; mkNode 2 "h2" "t2"; mkNode 3 "h3" "t3"; mkNode 4 "h4" "t4"].
Definition ex_policy : RetentionPolicyInfo := mkRP "rp" 2 0 3600 [] [].
Definition ex_data : Data :=
  mkData (mkMData 1 7 9 [mkDB "db" "rp" [ex_policy] []] [] 0 10) [] ex_nodes None 4.
Definition ex_find (_ : mdata) (_ _ : string) : res merror (option (nat * nat)) := Ok (Some (0%nat, 0%nat)).
Definition ex_state : mstate := mkMS ∅ 0 ex_data.

Lemma shard_group_placement_witness :
  exists s' rpi' g,
    CreateShardGroup ex_find (fun _ _ => None) (fun l => l) "db" "rp" 5000 ex_state = (Ok tt, s')
    /\ policy_at (d_Data (ms_data s')) (0%nat, 0%nat) = Some rpi'
    /\ rp_ShardGroups rpi' ≡ₚ g :: []
    /\ rpi' = set_ShardGroups (rp_ShardGroups rpi') ex_policy
    /\ (forall q, q <> (0%nat, 0%nat) -> policy_at (d_Data (ms_data s')) q = policy_at (d_Data ex_data) q)
    /\ placed ex_nodes 2 10 5000 3600 (ss_of s') g
    /\ forall id, id <= 10 -> ss_of s' !! id = ss_of ex_state !! id.
Proof.
  apply (shard_group_placement ex_find (fun _ _ => None) (fun l => l) (fun l => reflexivity l)
           ex_state "db" "rp" 5000 (0%nat, 0%nat) ex_policy).
  - discriminate.
  - apply (bool_decide_eq_true_1 _). vm_compute. reflexivity.
  - reflexivity.
  - reflexivity.
  - reflexivity.
  - vm_compute. discriminate.
  - vm_compute. reflexivity.
  - vm_compute. discriminate.
  - vm_compute. reflexivity.
Defined.
