(* ===== verification/MetaDelete.v ===== *)
(** * Removing a data node

    [DeleteDataNode] and [newShardOwner] of [services/meta/data.go]: what
    happens to the shards the node owned. *)

From S2P Require Import Prelude MetaData MetaPlacement.

(** ** Owners *)

Definition keep (id : Z) (owners : list Z) : list Z := List.filter (fun o => negb (o =? id)) owners.
Definition strip (id : Z) (sh : ShardInfo) : ShardInfo := set_Owners (keep id (si_Owners sh)) sh.

Lemma keep_elem id owners o : o ∈ keep id owners <-> o ∈ owners /\ o <> id.
Proof.
  unfold keep. rewrite !list_elem_of_In, filter_In.
  destruct (Z.eqb_spec o id); cbn; intuition (try congruence).
Qed.

Lemma keep_id id owners : id ∉ owners -> keep id owners = owners.
Proof.
  induction owners as [|o os IH]; intros H; [reflexivity|].
  apply not_elem_of_cons in H as [H1 H2]. cbn. destruct (Z.eqb_spec o id); [congruence|].
  cbn. f_equal. apply IH, H2.
Qed.

Lemma scan_idx_none id owners i acc freqs :
  id ∉ owners -> (scan_owners id owners i acc freqs).1 = acc.
Proof.
  revert i acc freqs. induction owners as [|o os IH]; intros i acc freqs H; [reflexivity|].
  apply not_elem_of_cons in H as [H1 H2]. cbn. destruct (Z.eqb_spec o id); [congruence|]. apply IH, H2.
Qed.

(** Without duplicates the last occurrence is the only one, and removing it
    removes the node. *)
Lemma scan_idx_some id owners i acc freqs :
  NoDup owners -> id ∈ owners ->
  exists j, (scan_owners id owners i acc freqs).1 = Some (i + j)%nat /\ remove_at j owners = keep id owners.
Proof.
  intros Hd. revert i acc freqs. induction Hd as [|o os Ho _ IH]; intros i acc freqs H; [inversion H|].
  cbn. destruct (Z.eqb_spec o id) as [->|Hne]; cbn.
  - exists 0%nat. rewrite scan_idx_none by exact Ho. split; [f_equal; lia|].
    unfold remove_at. cbn. fold (keep id os). rewrite keep_id by exact Ho. reflexivity.
  - apply elem_of_cons in H as [H|H]; [congruence|].
    destruct (IH (S i) acc (incr (i64 o) freqs) H) as (j & E & R). exists (S j). rewrite E.
    split; [f_equal; lia|]. unfold remove_at in *. cbn in *. rewrite R. reflexivity.
Qed.

Lemma dom_incr k m : dom (incr k m) = {[k]} ∪ dom m.
Proof. unfold incr. apply dom_insert_L. Qed.

Lemma scan_freqs id owners i acc freqs :
  dom (scan_owners id owners i acc freqs).2 = dom freqs ∪ list_to_set (map i64 owners).
Proof.
  revert i acc freqs. induction owners as [|o os IH]; intros i acc freqs; cbn; [set_solver|].
  rewrite IH, dom_incr. set_solver.
Qed.

(** ** The status entries of the node *)

Definition cleared (id : Z) (s : mstate) (sid : Z) : Prop :=
  forall inner, ss_of s !! sid = Some inner -> inner !! id = None.

(** [s'] has the data of [s], and no status entry of node [id] came back. *)
Definition only_clears (id : Z) (s s' : mstate) : Prop :=
  same_data s s' /\ forall sid, cleared id s sid -> cleared id s' sid.

#[export] Instance only_clears_pre id : PreOrder (only_clears id).
Proof.
  split.
  - intros s. split; [reflexivity|auto].
  - intros s1 s2 s3 [A1 A2] [B1 B2]. split; [unfold same_data in *; congruence|auto].
Qed.

Lemma run_clear id sid s :
  exists s', ss_update (alter (fun inner : gmap Z Z => delete id inner) sid) s = (Ok tt, s')
    /\ only_clears id s s' /\ cleared id s' sid.
Proof.
  unfold ss_update, modify. destruct (d_ShardStatus (ms_data s)) as [r|] eqn:Hr.
  2:{ exists s. split; [reflexivity|]. split; [reflexivity|]. intros inner H.
      unfold ss_of in H. rewrite Hr in H. discriminate. }
  eexists. split; [reflexivity|].
  assert (forall k, ss_of (mkMS (<[r := alter (fun inner : gmap Z Z => delete id inner) sid (default ∅ (ms_maps s !! r))]>
                      (ms_maps s)) (ms_next s) (ms_data s)) !! k
          = if decide (k = sid) then (fun inner : gmap Z Z => delete id inner) <$> ss_of s !! k else ss_of s !! k) as Hl.
  { intros k. unfold ss_of. cbn [ms_data ms_maps]. rewrite Hr, lookup_insert_eq.
    cbn [default from_option]. change (Datatypes.id ?x) with x. destruct (decide (k = sid)) as [->|Hk].
    - rewrite lookup_alter_eq. reflexivity.
    - rewrite lookup_alter_ne by congruence. reflexivity. }
  split; [split; [reflexivity|]|].
  - intros k Hc inner. rewrite Hl. destruct (decide (k = sid)); [|apply Hc].
    intros H. apply fmap_Some in H as (x & Hx & ->). apply lookup_delete_eq.
  - intros inner. rewrite Hl, decide_True by reflexivity.
    intros H. apply fmap_Some in H as (x & Hx & ->). apply lookup_delete_eq.
Qed.

(** ** One group *)

Definition orphan (sh : ShardInfo) : bool := match si_Owners sh with [] => true | _ => false end.

Lemma run_relinquish id shards freqs s :
  Forall (fun sh => NoDup (si_Owners sh)) shards ->
  exists freqs' s', relinquish id shards freqs s
      = (Ok (map (strip id) shards, freqs', List.filter orphan (map (strip id) shards)), s')
    /\ only_clears id s s'
    /\ dom freqs' = dom freqs ∪ list_to_set (map i64 (concat (map si_Owners shards)))
    /\ Forall (fun sh => id ∈ si_Owners sh -> cleared id s' (si_ID sh)) shards.
Proof.
  intros H. revert freqs s. induction H as [|sh shards Hd _ IH]; intros freqs s; cbn [relinquish].
  { exists freqs, s. split; [reflexivity|]. split; [reflexivity|]. split; [set_solver|constructor]. }
  pose proof (scan_freqs id (si_Owners sh) 0 None freqs) as Hf.
  destruct (scan_owners id (si_Owners sh) 0 None freqs) as [idx f1] eqn:Es. cbn [snd] in Hf.
  assert (exists s1, (match idx with Some _ => ss_update (alter (fun inner : gmap Z Z => delete id inner) (si_ID sh))
                      | None => ret tt end) s = (Ok tt, s1) /\ only_clears id s s1
          /\ (id ∈ si_Owners sh -> cleared id s1 (si_ID sh))
          /\ match idx with Some i => set_Owners (remove_at i (si_Owners sh)) sh | None => sh end = strip id sh)
    as (s1 & E1 & C1 & K1 & S1).
  { destruct (decide (id ∈ si_Owners sh)) as [Hin|Hout].
    - destruct (scan_idx_some id (si_Owners sh) 0 None freqs Hd Hin) as (j & Ej & Rj).
      rewrite Es in Ej. cbn in Ej. subst idx. destruct (run_clear id (si_ID sh) s) as (s1 & E & C & K).
      exists s1. unfold strip. rewrite Rj. auto.
    - pose proof (scan_idx_none id (si_Owners sh) 0 None freqs Hout) as En. rewrite Es in En. cbn in En. subst idx.
      exists s. split; [reflexivity|]. split; [reflexivity|]. split; [contradiction|].
      unfold strip. rewrite keep_id by exact Hout. destruct sh. reflexivity. }
  erewrite bind_ok by exact E1. rewrite S1.
  destruct (IH f1 s1) as (f2 & s2 & E2 & C2 & F2 & K2). erewrite bind_ok by exact E2.
  exists f2, s2. split.
  { cbn [map List.filter]. change (orphan (strip id sh)) with (match si_Owners (strip id sh) with [] => true | _ => false end).
    destruct (si_Owners (strip id sh)); reflexivity. }
  split; [etransitivity; eassumption|]. split.
  - rewrite F2, Hf. cbn. rewrite map_app, list_to_set_app_L. set_solver.
  - constructor; [|exact K2]. intros Hin. apply (proj2 C2), K1, Hin.
Qed.

(** *** The new owner *)

Section Range.
Context (range : gmap Z Z -> list (Z * Z)) (now : Z).
(** Ranging over a map visits each entry once, in some order. *)
Hypothesis range_perm : forall m, range m ≡ₚ map_to_list m.

Definition pick (acc e : Z * Z) : Z * Z :=
  let '(minId, minFreq) := acc in
  let '(id, freq) := e in
  if (minId =? -1) || (freq <? minFreq) then (id, freq) else (minId, minFreq).

Lemma pick_in l acc :
  Forall (fun e => 0 <= e.1) l -> 0 <= acc.1 -> fold_left pick l acc ∈ acc :: l.
Proof.
  revert acc. induction l as [|e l IH]; intros acc Hl Ha; [left|].
  apply Forall_cons in Hl as [He Hl]. cbn [fold_left].
  assert (pick acc e = e \/ pick acc e = acc) as Hp.
  { destruct acc as [a f], e as [b h]. cbn. destruct (_ || _); auto. }
  assert (0 <= (pick acc e).1) as H0 by (destruct Hp as [-> | ->]; assumption).
  specialize (IH (pick acc e) Hl H0). destruct Hp as [E|E]; rewrite E in IH |- *; set_solver.
Qed.

(** A node is found whenever one is left, and it is one of those counted. *)
Lemma newShardOwner_ok freqs :
  dom freqs <> ∅ -> (forall k, k ∈ dom freqs -> 0 <= k) ->
  exists k, k ∈ dom freqs /\ newShardOwner range freqs = Ok (u64 k, incr k freqs).
Proof.
  intros Hne Hpos. unfold newShardOwner. fold pick.
  assert (forall e, e ∈ range freqs -> e.1 ∈ dom freqs) as Hin.
  { intros [k f] H. rewrite range_perm in H. apply elem_of_map_to_list in H. apply elem_of_dom. eauto. }
  assert (range freqs <> []) as Hl.
  { intros E. apply Hne. apply (dom_empty_iff_L freqs). apply map_to_list_empty_iff.
    apply Permutation_nil. rewrite <- range_perm, E. reflexivity. }
  destruct (range freqs) as [|e l] eqn:El; [congruence|]. cbn [fold_left].
  assert (pick (-1, 0) e = e) as -> by (destruct e; reflexivity).
  assert (fold_left pick l e ∈ e :: l) as Hf.
  { apply pick_in.
    - apply Forall_forall. intros x Hx. apply Hpos, Hin. right. exact Hx.
    - apply Hpos, Hin. left. }
  destruct (fold_left pick l e) as [k f] eqn:Ef. exists k.
  assert (k ∈ dom freqs) as Hk by (apply (Hin (k, f)), Hf). split; [exact Hk|].
  pose proof (Hpos k Hk). destruct (Z.ltb_spec k 0); [lia|reflexivity].
Qed.

(** *** The orphans *)

Lemma give_owner_map shardID owner shards :
  NoDup (map si_ID shards) ->
  give_owner shardID owner shards
  = map (fun sh => if si_ID sh =? shardID then set_Owners (si_Owners sh ++ [owner]) sh else sh) shards.
Proof.
  induction shards as [|sh shards IH]; intros Hd; [reflexivity|]. cbn in *.
  apply NoDup_cons in Hd as [Hn Hd]. destruct (Z.eqb_spec (si_ID sh) shardID) as [E|E].
  - f_equal. rewrite <- (map_id shards) at 1. apply map_ext_in. intros x Hx.
    destruct (Z.eqb_spec (si_ID x) shardID) as [E'|]; [|reflexivity].
    exfalso. apply Hn. rewrite E, <- E'. apply elem_of_map, list_elem_of_In, Hx.
  - f_equal. apply IH, Hd.
Qed.

(** Every shard whose id is among the orphans gets one owner, chosen among the
    nodes counted. *)
Lemma reassign_ok os freqs shards :
  dom freqs <> ∅ -> (forall k, k ∈ dom freqs -> 0 <= k) ->
  NoDup (map si_ID shards) -> NoDup (map si_ID os) ->
  exists h, (forall i, h i ∈ dom freqs)
    /\ reassign range os freqs shards
       = Ok (map (fun sh => if decide (si_ID sh ∈ map si_ID os)
                            then set_Owners (si_Owners sh ++ [u64 (h (si_ID sh))]) sh else sh) shards).
Proof.
  intros Hne Hpos. revert freqs shards Hne Hpos. induction os as [|o os IH]; intros freqs shards Hne Hpos Hd Ho.
  { destruct (set_choose_L (dom freqs) Hne) as [k Hk]. exists (fun _ => k). split; [auto|].
    cbn [reassign map]. f_equal. rewrite <- (map_id shards) at 1. apply map_ext. intros sh.
    rewrite decide_False by set_solver. reflexivity. }
  cbn [map] in Ho. apply NoDup_cons in Ho as [Hno Ho]. cbn [reassign].
  destruct (newShardOwner_ok freqs Hne Hpos) as (k & Hk & ->).
  assert (dom (incr k freqs) = dom freqs) as Hdom by (rewrite dom_incr; set_solver).
  rewrite give_owner_map by exact Hd.
  set (shards1 := map _ shards).
  assert (map si_ID shards1 = map si_ID shards) as Hids.
  { unfold shards1. rewrite map_map. apply map_ext. intros sh. destruct (_ =? _); reflexivity. }
  destruct (IH (incr k freqs) shards1) as (h & Hh & E).
  { rewrite Hdom. exact Hne. } { rewrite Hdom. exact Hpos. } { rewrite Hids. exact Hd. } { exact Ho. }
  exists (fun i => if i =? si_ID o then k else h i). split.
  { intros i. destruct (i =? si_ID o); [exact Hk|rewrite <- Hdom; apply Hh]. }
  rewrite E. f_equal. unfold shards1. rewrite map_map. apply map_ext. intros sh.
  destruct (Z.eqb_spec (si_ID sh) (si_ID o)) as [Eo|Eo]; cbn [si_ID set_Owners].
  - rewrite decide_False by (rewrite Eo; exact Hno). rewrite decide_True by (rewrite Eo; left). reflexivity.
  - destruct (decide (si_ID sh ∈ map si_ID os)) as [H|H].
    + rewrite decide_True by (right; exact H). reflexivity.
    + rewrite decide_False by (cbn [map]; rewrite elem_of_cons; tauto). reflexivity.
Qed.
(** ** The whole operation *)

(** What the removal of node [id] makes of a shard group. *)
Record group_after (id : Z) (g g' : ShardGroupInfo) : Prop := {
  ga_ids : map si_ID (sgi_Shards g') = map si_ID (sgi_Shards g);
  (** the node owns nothing any more *)
  ga_gone : Forall (fun sh => id ∉ si_Owners sh) (sgi_Shards g');
  (** a shard with another owner keeps its other owners *)
  ga_kept : forall j sh, sgi_Shards g !! j = Some sh -> keep id (si_Owners sh) <> [] ->
    sgi_Shards g' !! j = Some (strip id sh);
  (** unless nobody is left in the group, every shard has an owner, and one of
      the owners the group had *)
  ga_owned : (exists sh, sh ∈ sgi_Shards g /\ keep id (si_Owners sh) <> []) ->
    sgi_DeletedAt g' = sgi_DeletedAt g
    /\ Forall (fun sh => si_Owners sh <> []) (sgi_Shards g')
    /\ (forall sh o, sh ∈ sgi_Shards g' -> o ∈ si_Owners sh -> exists x, x ∈ sgi_Shards g /\ o ∈ si_Owners x);
  (** otherwise the group is marked deleted *)
  ga_dead : (forall sh, sh ∈ sgi_Shards g -> keep id (si_Owners sh) = []) -> sgi_DeletedAt g' = now }.

(** Owners without duplicates, shard ids without duplicates, node ids that an
    int can hold. *)
Definition group_ok (g : ShardGroupInfo) : Prop :=
  Forall (fun sh => NoDup (si_Owners sh) /\ Forall (fun o => 0 <= o < 2 ^ 63) (si_Owners sh)) (sgi_Shards g)
  /\ NoDup (map si_ID (sgi_Shards g)).

Lemma filter_orphan_all (l : list ShardInfo) :
  zlen (List.filter orphan l) = zlen l -> Forall (fun sh => si_Owners sh = []) l.
Proof.
  induction l as [|sh l IH]; intros H; [constructor|]. cbn in H. unfold orphan at 1 in H.
  pose proof (filter_length_le orphan l) as Hle.
  destruct (si_Owners sh) eqn:E; rewrite ?zlen_cons in H.
  - constructor; [exact E|apply IH; lia].
  - exfalso. unfold zlen in H. lia.
Qed.

Lemma filter_orphan_ids (l : list ShardInfo) sh :
  NoDup (map si_ID l) -> sh ∈ l -> (si_ID sh ∈ map si_ID (List.filter orphan l) <-> si_Owners sh = []).
Proof.
  intros Hd Hin. split.
  - intros H. apply list_elem_of_In, in_map_iff in H as (x & Ex & Hx). apply filter_In in Hx as [Hx Ho].
    apply list_elem_of_In in Hx.
    assert (x = sh) as ->.
    { apply list_elem_of_lookup in Hx as [i Hi], Hin as [j Hj].
      assert (i = j) as ->; [|congruence].
      eapply (NoDup_lookup (map si_ID l)); [exact Hd|rewrite list_lookup_fmap, Hi; reflexivity|].
      rewrite list_lookup_fmap, Hj, Ex. reflexivity. }
    unfold orphan in Ho. destruct (si_Owners sh); [reflexivity|discriminate].
  - intros H. apply (elem_of_map si_ID), list_elem_of_In, filter_In. split; [apply list_elem_of_In, Hin|].
    unfold orphan. rewrite H. reflexivity.
Qed.

Lemma NoDup_filter_ids (l : list ShardInfo) : NoDup (map si_ID l) -> NoDup (map si_ID (List.filter orphan l)).
Proof.
  induction l as [|sh l IH]; intros H; [constructor|]. cbn in H. apply NoDup_cons in H as [Hn Hd]. cbn.
  destruct (orphan sh); [|apply IH, Hd]. cbn. constructor; [|apply IH, Hd].
  intros Hin. apply Hn. apply list_elem_of_In, in_map_iff in Hin as (x & <- & Hx). apply filter_In in Hx as [Hx _].
  apply elem_of_map, list_elem_of_In, Hx.
Qed.

Lemma strip_ids id l : map si_ID (map (strip id) l) = map si_ID l.
Proof. rewrite map_map. reflexivity. Qed.

Lemma strip_gone id sh : id ∉ si_Owners (strip id sh).
Proof. cbn. rewrite keep_elem. tauto. Qed.
(** The nodes counted once the removed one is dropped. *)
Lemma counted id g (freqs : gmap Z Z) k :
  group_ok g -> 0 <= id < 2 ^ 63 ->
  dom freqs = list_to_set (map i64 (concat (map si_Owners (sgi_Shards g)))) ->
  (k ∈ dom (delete (i64 id) freqs)
   <-> 0 <= k < 2 ^ 63 /\ k <> id /\ exists sh, sh ∈ sgi_Shards g /\ k ∈ si_Owners sh).
Proof.
  intros [Hok _] Hid Hdom. rewrite dom_delete_L, Hdom, (i64_small id) by lia.
  rewrite elem_of_difference, elem_of_singleton, elem_of_list_to_set.
  rewrite Forall_forall in Hok.
  assert (forall sh o, sh ∈ sgi_Shards g -> o ∈ si_Owners sh -> 0 <= o < 2 ^ 63) as Hb.
  { intros sh o Hs Ho. destruct (Hok sh Hs) as [_ H]. rewrite Forall_forall in H. auto. }
  split.
  - intros [H Hne]. apply list_elem_of_In, in_map_iff in H as (o & Eo & H).
    apply in_concat in H as (os & Hos & Ho). apply in_map_iff in Hos as (sh & <- & Hs).
    apply list_elem_of_In in Hs, Ho. pose proof (Hb sh o Hs Ho) as Hr.
    rewrite i64_small in Eo by lia. subst o. eauto 10.
  - intros (Hr & Hne & sh & Hs & Ho). split; [|exact Hne]. rewrite <- (i64_small k) by lia.
    apply elem_of_map, list_elem_of_In, in_concat. exists (si_Owners sh).
    split; [apply in_map, list_elem_of_In, Hs|apply list_elem_of_In, Ho].
Qed.

Lemma after_dead id g :
  Forall (fun sh => keep id (si_Owners sh) = []) (sgi_Shards g) ->
  group_after id g (set_DeletedAt now (set_Shards (map (strip id) (sgi_Shards g)) g)).
Proof.
  rewrite Forall_forall. intros H. split; cbn.
  - apply strip_ids.
  - apply Forall_map, Forall_forall. intros sh _. apply strip_gone.
  - intros j sh Hj Hk. exfalso. apply Hk, H. eapply list_elem_of_lookup_2, Hj.
  - intros (sh & Hs & Hk). exfalso. apply Hk, H, Hs.
  - reflexivity.
Qed.

Lemma after_reassigned id g h :
  group_ok g -> (exists sh, sh ∈ sgi_Shards g /\ keep id (si_Owners sh) <> []) ->
  (forall i, 0 <= h i < 2 ^ 63 /\ h i <> id /\ exists sh, sh ∈ sgi_Shards g /\ h i ∈ si_Owners sh) ->
  group_after id g (set_Shards
    (map (fun sh => if decide (si_ID sh ∈ map si_ID (List.filter orphan (map (strip id) (sgi_Shards g))))
                    then set_Owners (si_Owners sh ++ [u64 (h (si_ID sh))]) sh else sh)
       (map (strip id) (sgi_Shards g))) g).
Proof.
  intros [_ Hd] Hlive Hh. set (l := map (strip id) (sgi_Shards g)).
  set (F := fun sh => if decide _ then _ else sh).
  assert (NoDup (map si_ID l)) as Hdl by (unfold l; rewrite strip_ids; exact Hd).
  assert (forall sh, sh ∈ l -> F sh = if decide (si_Owners sh = []) then set_Owners [h (si_ID sh)] sh else sh) as HF.
  { intros sh Hs. unfold F. pose proof (filter_orphan_ids l sh Hdl Hs) as Hi.
    destruct (decide (si_Owners sh = [])) as [E|E].
    - rewrite decide_True by (apply Hi, E). rewrite E, u64_small; [reflexivity|]. destruct (Hh (si_ID sh)). lia.
    - rewrite decide_False by (intros H; apply E, Hi, H). reflexivity. }
  assert (forall sh', sh' ∈ map F l -> exists sh, sh ∈ sgi_Shards g
            /\ sh' = if decide (keep id (si_Owners sh) = []) then set_Owners [h (si_ID sh)] sh else strip id sh) as Hinv.
  { intros sh' H. apply list_elem_of_In, in_map_iff in H as (x & <- & Hx). apply list_elem_of_In in Hx.
    rewrite (HF x Hx). unfold l in Hx. apply list_elem_of_In, in_map_iff in Hx as (sh & <- & Hs).
    exists sh. split; [apply list_elem_of_In, Hs|]. destruct sh. reflexivity. }
  split; cbn [sgi_Shards set_Shards sgi_DeletedAt].
  - rewrite map_map. unfold l. rewrite map_map. apply map_ext. intros sh. unfold F. destruct (decide _); reflexivity.
  - apply Forall_forall. intros sh' Hs'. destruct (Hinv sh' Hs') as (sh & Hs & ->).
    destruct (decide _); [|apply strip_gone]. cbn. rewrite list_elem_of_singleton.
    destruct (Hh (si_ID sh)) as (_ & Hne & _). congruence.
  - intros j sh Hj Hk. rewrite list_lookup_fmap. unfold l at 1. rewrite list_lookup_fmap, Hj. cbn [fmap option_fmap option_map].
    f_equal. rewrite HF.
    + rewrite decide_False by exact Hk. reflexivity.
    + unfold l. apply elem_of_map. eapply list_elem_of_lookup_2, Hj.
  - intros _. split; [reflexivity|]. split.
    + apply Forall_forall. intros sh' Hs'. destruct (Hinv sh' Hs') as (sh & Hs & ->).
      destruct (decide _); [discriminate|assumption].
    + intros sh' o Hs' Ho. destruct (Hinv sh' Hs') as (sh & Hs & ->). destruct (decide _) in Ho.
      * cbn in Ho. apply list_elem_of_singleton in Ho as ->. apply Hh.
      * exists sh. split; [exact Hs|]. cbn in Ho. apply keep_elem in Ho. tauto.
  - intros Hall. exfalso. destruct Hlive as (sh & Hs & Hk). apply Hk, Hall, Hs.
Qed.

Lemma run_delete_from_group id g s :
  group_ok g -> 0 <= id < 2 ^ 63 ->
  exists g' s', delete_from_group range now id g s = (Ok g', s') /\ only_clears id s s'
    /\ group_after id g g' /\ Forall (fun sh => id ∈ si_Owners sh -> cleared id s' (si_ID sh)) (sgi_Shards g).
Proof.
  intros Hok Hid. pose proof Hok as [Hsh Hd]. unfold delete_from_group.
  destruct (run_relinquish id (sgi_Shards g) ∅ s) as (freqs & s1 & E1 & C1 & F1 & K1).
  { eapply Forall_impl; [exact Hsh|]. intros sh H. apply H. }
  erewrite bind_ok by exact E1. set (l := map (strip id) (sgi_Shards g)).
  rewrite dom_empty_L, union_empty_l_L in F1.
  destruct (Forall_Exists_dec (fun sh => keep id (si_Owners sh) = []) (fun sh => keep id (si_Owners sh) <> [])
              (fun sh => decide (keep id (si_Owners sh) = [])) (sgi_Shards g)) as [Hall|Hlive].
  2:{ apply list.Exists_exists in Hlive. destruct (Z.eqb_spec (zlen (sgi_Shards g)) 0) as [E|_].
    { exfalso. destruct Hlive as (sh & Hs & _). destruct (sgi_Shards g); [inversion Hs|].
      rewrite zlen_cons in E. pose proof (zlen_nonneg l0). lia. }
    destruct (Z.eqb_spec (zlen (List.filter orphan l)) (zlen (sgi_Shards g))) as [E|_]; cbn [orb].
    { exfalso. destruct Hlive as (sh & Hs & Hk). apply Hk.
      assert (zlen (List.filter orphan l) = zlen l) as El by (rewrite E; unfold l, zlen; rewrite length_map; reflexivity).
      apply filter_orphan_all in El. rewrite Forall_forall in El.
      apply (El (strip id sh)). unfold l. apply elem_of_map, Hs. }
    pose proof (counted id g freqs) as Hc.
    destruct (reassign_ok (List.filter orphan l) (delete (i64 id) freqs) l) as (h & Hh & E).
    { destruct Hlive as (sh & Hs & Hk). destruct (keep id (si_Owners sh)) as [|o os] eqn:Ek; [congruence|].
      assert (o ∈ keep id (si_Owners sh)) as Ho by (rewrite Ek; left). apply keep_elem in Ho as [Ho Hne].
      assert (o ∈ dom (delete (i64 id) freqs)) as Hin; [|set_solver].
      apply Hc; auto. rewrite Forall_forall in Hsh. destruct (Hsh sh Hs) as [_ Hb]. rewrite Forall_forall in Hb.
      split; [apply Hb, Ho|eauto]. }
    { intros k Hk. apply Hc in Hk; auto. lia. }
    { unfold l. rewrite strip_ids. exact Hd. }
    { apply NoDup_filter_ids. unfold l. rewrite strip_ids. exact Hd. }
    rewrite E. eexists _, s1. split; [reflexivity|]. split; [exact C1|]. split; [|exact K1].
    apply after_reassigned; auto. intros i. apply Hc; [exact Hok|exact Hid|exact F1|apply Hh]. }
  - assert (List.filter orphan l = l) as Hfl.
    { unfold l. clear -Hall. induction Hall as [|sh k Hk _ IH]; [reflexivity|]. cbn. unfold orphan at 1. cbn.
      rewrite Hk, IH. reflexivity. }
    rewrite Hfl. unfold l. assert (zlen (map (strip id) (sgi_Shards g)) = zlen (sgi_Shards g)) as ->
      by (unfold zlen; rewrite length_map; reflexivity).
    rewrite Z.eqb_refl, orb_true_r. eexists _, s1. split; [reflexivity|]. split; [exact C1|].
    split; [apply after_dead, Hall|exact K1].
Qed.
Lemma run_traverse {A} id (f : A -> MM A) (P : A -> Prop) (R : mstate -> A -> A -> Prop) l s :
  (forall x s, P x -> exists y s', f x s = (Ok y, s') /\ only_clears id s s' /\ R s' x y) ->
  (forall x y s s', R s x y -> only_clears id s s' -> R s' x y) ->
  Forall P l ->
  exists k s', traverse f l s = (Ok k, s') /\ only_clears id s s' /\ Forall2 (R s') l k.
Proof.
  intros Hf Hmono HP. revert s. induction HP as [|x l Hx _ IH]; intros s; cbn [traverse].
  { exists [], s. split; [reflexivity|]. split; [reflexivity|constructor]. }
  destruct (Hf x s Hx) as (y & s1 & E1 & C1 & R1). erewrite bind_ok by exact E1.
  destruct (IH s1) as (k & s2 & E2 & C2 & R2). erewrite bind_ok by exact E2.
  exists (y :: k), s2. split; [reflexivity|]. split; [etransitivity; eassumption|].
  constructor; [eapply Hmono; eassumption|exact R2].
Qed.

(** The removal of [id], group by group: only the shards, their owners and the
    deletion mark change, and the node has no status entry left for the shards
    it owned. *)
Definition group_removed (id : Z) (s' : mstate) (g g' : ShardGroupInfo) : Prop :=
  group_after id g g' /\ Forall (fun sh => id ∈ si_Owners sh -> cleared id s' (si_ID sh)) (sgi_Shards g).
Definition policy_removed (id : Z) (s' : mstate) (rp rp' : RetentionPolicyInfo) : Prop :=
  exists gs, rp' = set_ShardGroups gs rp /\ Forall2 (group_removed id s') (rp_ShardGroups rp) gs.
Definition database_removed (id : Z) (s' : mstate) (db db' : DatabaseInfo) : Prop :=
  exists rps, db' = set_RetentionPolicies rps db /\ Forall2 (policy_removed id s') (db_RetentionPolicies db) rps.

Lemma group_removed_mono id g g' s s' :
  group_removed id s g g' -> (forall sid, cleared id s sid -> cleared id s' sid) -> group_removed id s' g g'.
Proof.
  intros [H1 H2] C. split; [exact H1|]. eapply Forall_impl; [exact H2|]. intros sh H Hin. auto.
Qed.

Lemma policy_removed_mono id rp rp' s s' :
  policy_removed id s rp rp' -> (forall sid, cleared id s sid -> cleared id s' sid) -> policy_removed id s' rp rp'.
Proof.
  intros (gs & -> & H) C. exists gs. split; [reflexivity|]. eapply Forall2_impl; [exact H|].
  intros g g' Hg. eapply group_removed_mono; eassumption.
Qed.

Lemma database_removed_mono id db db' s s' :
  database_removed id s db db' -> (forall sid, cleared id s sid -> cleared id s' sid) -> database_removed id s' db db'.
Proof.
  intros (rps & -> & H) C. exists rps. split; [reflexivity|]. eapply Forall2_impl; [exact H|].
  intros rp rp' Hg. eapply policy_removed_mono; eassumption.
Qed.

Definition databases_ok (m : mdata) : Prop :=
  Forall (fun db => Forall (fun rp => Forall group_ok (rp_ShardGroups rp)) (db_RetentionPolicies db)) (md_Databases m).

Lemma filter_shorter {A} (f : A -> bool) l x : x ∈ l -> f x = false -> zlen (List.filter f l) < zlen l.
Proof.
  intros Hx Hf. pose proof (filter_length_le f) as Hle. induction l as [|y l IH]; [inversion Hx|].
  cbn. apply elem_of_cons in Hx as [->|Hx].
  - rewrite Hf, zlen_cons. specialize (Hle l). unfold zlen. lia.
  - specialize (IH Hx). destruct (f y); rewrite ?zlen_cons in *; lia.
Qed.

(** The loop over the groups always runs to its end. *)
Lemma run_remove_everywhere id s :
  0 <= id < 2 ^ 63 -> databases_ok (d_Data (ms_data s)) ->
  exists s' dbs, each_group (delete_from_group range now id) s = (Ok tt, s')
    /\ ms_data s' = set_Data (set_Databases dbs (d_Data (ms_data s))) (ms_data s)
    /\ Forall2 (database_removed id s') (md_Databases (d_Data (ms_data s))) dbs.
Proof.
  intros Hid Hok. unfold each_group. erewrite bind_ok by reflexivity.
  set (f := fun db : DatabaseInfo => _).
  destruct (run_traverse id f
    (fun db => Forall (fun rp => Forall group_ok (rp_ShardGroups rp)) (db_RetentionPolicies db))
    (database_removed id) (md_Databases (d_Data (ms_data s))) s) as (dbs & s2 & E2 & [D2 C2] & R2).
  - intros db t Hdb. unfold f.
    destruct (run_traverse id (fun rp => let* gs := traverse (delete_from_group range now id) (rp_ShardGroups rp) in
                                ret (set_ShardGroups gs rp))
      (fun rp => Forall group_ok (rp_ShardGroups rp)) (policy_removed id) (db_RetentionPolicies db) t)
      as (rps & t2 & E & C & R);
      [|intros x y v v' Hx [_ Hc]; eapply policy_removed_mono; eassumption|exact Hdb|].
    + intros rp u Hrp. destruct (run_traverse id (delete_from_group range now id) group_ok (group_removed id)
        (rp_ShardGroups rp) u) as (gs & u2 & E & C & R);
        [|intros x y v v' Hx [_ Hc]; eapply group_removed_mono; eassumption|exact Hrp|].
      * intros g w Hg. destruct (run_delete_from_group id g w Hg Hid) as (g' & w' & E & C & A & K).
        exists g', w'. split; [exact E|]. split; [exact C|]. split; assumption.
      * exists (set_ShardGroups gs rp), u2. erewrite bind_ok by exact E.
        split; [reflexivity|]. split; [exact C|]. exists gs. auto.
    + exists (set_RetentionPolicies rps db), t2. erewrite bind_ok by exact E.
      split; [reflexivity|]. split; [exact C|]. exists rps. auto.
  - intros x y v v' Hx [_ Hc]; eapply database_removed_mono; eassumption.
  - exact Hok.
  - erewrite bind_ok by exact E2. eexists _, dbs. split; [reflexivity|]. unfold same_data in D2. cbn [ms_data].
    rewrite D2. split; [reflexivity|]. eapply Forall2_impl; [exact R2|]. intros db db' H.
    eapply database_removed_mono; [exact H|]. intros sid Hc. unfold cleared, ss_of in *. cbn. rewrite D2 in *. exact Hc.
Qed.

(** C20 (functional). While no shard lists an owner twice, no group a shard id
    twice, and ids are below 2^63, removing a known data node succeeds: the node
    leaves the list and the other nodes stay; no shard is owned by it and it
    has no status entry left for the shards it owned; a shard with another
    owner keeps its other owners; an orphaned shard gets an owner that already
    owns a shard of the group; a group none of whose shards has another owner
    is marked deleted.  In particular the error "cannot reassign shard" is then
    unreachable; [UpdateShard] can add an owner twice, and then it is not
    ([cannot_reassign]). *)
Theorem delete_data_node (id : Z) (s : mstate) :
  0 <= id < 2 ^ 63 -> id ∈ map ni_ID (d_DataNodes (ms_data s)) -> databases_ok (d_Data (ms_data s)) ->
  exists s', DeleteDataNode range now id s = (Ok tt, s')
    /\ (forall n, n ∈ d_DataNodes (ms_data s') <-> n ∈ d_DataNodes (ms_data s) /\ ni_ID n <> id)
    /\ Forall2 (database_removed id s') (md_Databases (d_Data (ms_data s))) (md_Databases (d_Data (ms_data s'))).
Proof.
  intros Hid Hin Hok. unfold DeleteDataNode. erewrite bind_ok by reflexivity.
  apply list_elem_of_In, in_map_iff in Hin as (n & Hn & Hin). apply list_elem_of_In in Hin.
  pose proof (filter_shorter (fun n => negb (ni_ID n =? id)) (d_DataNodes (ms_data s)) n Hin) as Hlt.
  cbv beta in Hlt. rewrite Hn, Z.eqb_refl in Hlt. specialize (Hlt eq_refl).
  destruct (Z.eqb_spec (zlen (List.filter (fun n => negb (ni_ID n =? id)) (d_DataNodes (ms_data s))))
              (zlen (d_DataNodes (ms_data s)))) as [E|_]; [lia|].
  erewrite bind_ok by reflexivity. set (s1 := mkMS _ _ _).
  destruct (run_remove_everywhere id s1 Hid Hok) as (s' & dbs & E & D & R).
  exists s'. split; [exact E|]. rewrite D. split; [|exact R].
  intros m. cbn. rewrite !list_elem_of_In, filter_In.
  destruct (Z.eqb_spec (ni_ID m) id); cbn; intuition congruence.
Qed.
End Range.

(** With an owner listed twice a shard keeps the removed node as its owner, and an
    orphaned shard beside it finds none. *)
Example cannot_reassign :
  let g := mkGroup 1 0 3600 zero_time [mkShard 11 [1; 1]; mkShard 12 [1]] zero_time in
  (delete_from_group map_to_list 99 1 g (mkMS ∅ 0 (mkData (mkMData 1 7 9 [] [] 1 12) [] [] None 2))).1 = Err ErrCannotReassign.
Proof. vm_compute. reflexivity. Qed.

(** ** Witness: two shards, node 1 owns one of them alone *)

Definition ex_group : ShardGroupInfo := mkGroup 1 0 3600 zero_time [mkShard 11 [1]; mkShard 12 [2; 1]] zero_time.
Definition ex_two_nodes : mstate :=
  mkMS {[0%nat := {[11 := {[1 := 3]}; 12 := {[2 := 3; 1 := 3]}]}]} 1
    (mkData (mkMData 1 7 9 [mkDB "db" "rp" [mkRP "rp" 1 0 3600 [ex_group] []] []] [] 1 12)
       [] [mkNode 1 "h1" "t1"; mkNode 2 "h2" "t2"] (Some 0%nat) 2).

Lemma delete_data_node_witness :
  exists s', DeleteDataNode map_to_list 99 1 ex_two_nodes = (Ok tt, s')
    /\ (forall n, n ∈ d_DataNodes (ms_data s') <-> n ∈ d_DataNodes (ms_data ex_two_nodes) /\ ni_ID n <> 1)
    /\ Forall2 (database_removed 99 1 s') (md_Databases (d_Data (ms_data ex_two_nodes)))
         (md_Databases (d_Data (ms_data s'))).
Proof.
  apply (delete_data_node map_to_list 99 (fun m => reflexivity _) 1 ex_two_nodes).
  - lia.
  - left.
  - repeat constructor; cbn; try lia; apply (bool_decide_eq_true_1 _); vm_compute; reflexivity.
Defined.
