(* ===== verification/MetaMarshal.v ===== *)
(** * The serialised form of the metadata

    [marshal] and [unmarshal] of [services/meta/data.go] and the conversions
    below them.  The protobuf messages of [services/meta/internal] are generated
    types: they appear as records with the fields these functions set or read;
    a getter returns the field, and only optional fields whose absence matters
    are options.  [proto.Marshal] and [proto.Unmarshal], and the time
    conversions of influxdb's meta package, are parameters. *)

From S2P Require Import Prelude MetaData MetaPlacement.

Record pbShardInfo := mkPbShard { pb_sID : Z; pb_OwnerIDs : list Z; pb_Owners : list Z }.
Record pbShardGroupInfo := mkPbGroup {
  pb_gID : Z; pb_StartTime : Z; pb_EndTime : Z; pb_DeletedAt : Z;
  pb_Shards : list pbShardInfo; pb_TruncatedAt : option Z }.
Record pbRetentionPolicyInfo := mkPbRP {
  pb_rName : string; pb_ReplicaN : Z; pb_Duration : Z; pb_ShardGroupDuration : Z;
  pb_ShardGroups : list pbShardGroupInfo }.
Record pbDatabaseInfo := mkPbDB {
  pb_dName : string; pb_DefaultRetentionPolicy : string; pb_RetentionPolicies : list pbRetentionPolicyInfo }.
Record pbNodeInfo := mkPbNode { pb_nID : Z; pb_Host : string; pb_TCPHost : string }.
Record pbData := mkPbData {
  pb_Term : Z; pb_Index : Z; pb_ClusterID : Z; pb_MaxShardGroupID : Z; pb_MaxShardID : Z; pb_MaxNodeID : Z;
  pb_Databases : list pbDatabaseInfo; pb_MetaNodes : list pbNodeInfo; pb_DataNodes : list pbNodeInfo;
  pb_ShardRWStatus : list (Z * list (Z * Z)) }.

Section Marshal.
Context (MarshalTime UnmarshalTime : Z -> Z).
(** The order in which Go ranges over the two levels of the status map. *)
Context (range_shards : gmap Z (gmap Z Z) -> list (Z * gmap Z Z)) (range_owners : gmap Z Z -> list (Z * Z)).

Definition marshalShardOwner (so : Z) : Z := so.
Definition unmarshalShardOwner (pb : Z) : Z := pb.

Definition marshalShardInfo (si : ShardInfo) : pbShardInfo :=
  mkPbShard (si_ID si) [] (map marshalShardOwner (si_Owners si)).
Definition unmarshalShardInfo (pb : pbShardInfo) : ShardInfo :=
  match pb_OwnerIDs pb with
  | _ :: _ => mkShard (pb_sID pb) (map unmarshalShardOwner (pb_OwnerIDs pb))
  | [] => mkShard (pb_sID pb) (map unmarshalShardOwner (pb_Owners pb))
  end.

Definition marshalShardGroupInfo (g : ShardGroupInfo) : pbShardGroupInfo :=
  mkPbGroup (sgi_ID g) (MarshalTime (sgi_StartTime g)) (MarshalTime (sgi_EndTime g)) (MarshalTime (sgi_DeletedAt g))
    (map marshalShardInfo (sgi_Shards g))
    (if sgi_TruncatedAt g =? zero_time then None else Some (MarshalTime (sgi_TruncatedAt g))).

(** [time.Unix(0, 0)] is 0. *)
Definition unmarshalShardGroupInfo (pb : pbShardGroupInfo) : ShardGroupInfo :=
  mkGroup (pb_gID pb)
    (if pb_StartTime pb =? 0 then 0 else UnmarshalTime (pb_StartTime pb))
    (if pb_EndTime pb =? 0 then 0 else UnmarshalTime (pb_EndTime pb))
    (UnmarshalTime (pb_DeletedAt pb))
    (map unmarshalShardInfo (pb_Shards pb))
    (match pb_TruncatedAt pb with Some t => UnmarshalTime t | None => zero_time end).

Definition marshalRetentionPolicyInfo (rp : RetentionPolicyInfo) : pbRetentionPolicyInfo :=
  mkPbRP (rp_Name rp) (u32 (rp_ReplicaN rp)) (rp_Duration rp) (rp_ShardGroupDuration rp)
    (map marshalShardGroupInfo (rp_ShardGroups rp)).
Definition unmarshalRetentionPolicyInfo (pb : pbRetentionPolicyInfo) : RetentionPolicyInfo :=
  mkRP (pb_rName pb) (pb_ReplicaN pb) (pb_Duration pb) (pb_ShardGroupDuration pb)
    (map unmarshalShardGroupInfo (pb_ShardGroups pb)) [].

Definition marshalDatabaseInfo (di : DatabaseInfo) : pbDatabaseInfo :=
  mkPbDB (db_Name di) (db_DefaultRetentionPolicy di) (map marshalRetentionPolicyInfo (db_RetentionPolicies di)).
Definition unmarshalDatabaseInfo (pb : pbDatabaseInfo) : DatabaseInfo :=
  mkDB (pb_dName pb) (pb_DefaultRetentionPolicy pb) (map unmarshalRetentionPolicyInfo (pb_RetentionPolicies pb)) [].

Definition marshalNodeInfo (n : NodeInfo) : pbNodeInfo := mkPbNode (ni_ID n) (ni_Host n) (ni_TCPHost n).
Definition unmarshalNodeInfo (pb : pbNodeInfo) : NodeInfo := mkNode (pb_nID pb) (pb_Host pb) (pb_TCPHost pb).

Definition marshal_status (m : status_map) : list (Z * list (Z * Z)) :=
  map (fun e => (e.1, map (fun o => (o.1, i32 o.2)) (range_owners e.2))) (range_shards m).

Definition marshal (d : Data) (status : status_map) : pbData :=
  let m := d_Data d in
  mkPbData (md_Term m) (md_Index m) (md_ClusterID m) (md_MaxShardGroupID m) (md_MaxShardID m) (d_MaxNodeID d)
    (map marshalDatabaseInfo (md_Databases m))
    (map marshalNodeInfo (d_MetaNodes d)) (map marshalNodeInfo (d_DataNodes d))
    (marshal_status status).

Fixpoint add_statuses (sid : Z) (l : list (Z * Z)) (m : status_map) : status_map :=
  match l with
  | [] => m
  | (node, st) :: l' => add_statuses sid l' (<[sid := <[node := st]> (default ∅ (m !! sid))]> m)
  end.

Definition unmarshal_status (l : list (Z * list (Z * Z))) : status_map :=
  fold_left (fun m e => add_statuses e.1 e.2 m) l ∅.

(** The receiver is a new [Data]: no users, and a new status map, which is the
    second result. *)
Definition unmarshal (pb : pbData) (ref : nat) : Data * status_map :=
  (mkData (mkMData (pb_Term pb) (pb_Index pb) (pb_ClusterID pb) (map unmarshalDatabaseInfo (pb_Databases pb)) []
             (pb_MaxShardGroupID pb) (pb_MaxShardID pb))
     (map unmarshalNodeInfo (pb_MetaNodes pb)) (map unmarshalNodeInfo (pb_DataNodes pb)) (Some ref) (pb_MaxNodeID pb),
   unmarshal_status (pb_ShardRWStatus pb)).

(** ** What survives *)

(** The documented contract of the time conversions: nanoseconds since the
    epoch, the zero time being 0. *)
Hypothesis MarshalTime_zero : MarshalTime zero_time = 0.
Hypothesis UnmarshalTime_zero : UnmarshalTime 0 = zero_time.
Hypothesis MarshalTime_id : forall t, is_i64 t -> MarshalTime t = t.
Hypothesis UnmarshalTime_id : forall t, t <> 0 -> UnmarshalTime t = t.
Hypothesis range_shards_perm : forall m, range_shards m ≡ₚ map_to_list m.
Hypothesis range_owners_perm : forall m, range_owners m ≡ₚ map_to_list m.

(** Times an int64 of nanoseconds can hold; a deletion or truncation time may be
    unset but is not the Unix epoch itself. *)
Definition optional_time (t : Z) : Prop := t = zero_time \/ is_i64 t /\ t <> 0.
Definition group_storable (g : ShardGroupInfo) : Prop :=
  is_i64 (sgi_StartTime g) /\ is_i64 (sgi_EndTime g)
  /\ optional_time (sgi_DeletedAt g) /\ optional_time (sgi_TruncatedAt g).
Definition policy_storable (rp : RetentionPolicyInfo) : Prop :=
  0 <= rp_ReplicaN rp < 2 ^ 32 /\ Forall group_storable (rp_ShardGroups rp).
Definition database_storable (db : DatabaseInfo) : Prop := Forall policy_storable (db_RetentionPolicies db).

(** What the serialised form leaves out. *)
Definition forget_policy (rp : RetentionPolicyInfo) : RetentionPolicyInfo :=
  mkRP (rp_Name rp) (rp_ReplicaN rp) (rp_Duration rp) (rp_ShardGroupDuration rp) (rp_ShardGroups rp) [].
Definition forget_database (db : DatabaseInfo) : DatabaseInfo :=
  mkDB (db_Name db) (db_DefaultRetentionPolicy db) (map forget_policy (db_RetentionPolicies db)) [].
Definition forget (m : mdata) : mdata :=
  mkMData (md_Term m) (md_Index m) (md_ClusterID m) (map forget_database (md_Databases m)) []
    (md_MaxShardGroupID m) (md_MaxShardID m).

Lemma map_id_ext {A} (f : A -> A) l : (forall x, f x = x) -> map f l = l.
Proof. intros H. induction l as [|x l IH]; [reflexivity|]. cbn. rewrite H, IH. reflexivity. Qed.

Lemma map_roundtrip {A B C} (f : A -> B) (g : B -> C) (h : A -> C) l :
  Forall (fun x => g (f x) = h x) l -> map g (map f l) = map h l.
Proof. intros H. rewrite map_map. induction H as [|x l Hx _ IH]; [reflexivity|]. cbn. rewrite Hx, IH. reflexivity. Qed.

Lemma shard_roundtrip si : unmarshalShardInfo (marshalShardInfo si) = si.
Proof.
  destruct si as [i os]. unfold unmarshalShardInfo, marshalShardInfo. cbn. f_equal.
  induction os as [|o os IH]; [reflexivity|]. cbn. rewrite IH. reflexivity.
Qed.

Lemma group_roundtrip g : group_storable g -> unmarshalShardGroupInfo (marshalShardGroupInfo g) = g.
Proof.
  intros (Hs & He & Hd & Ht). destruct g as [i st en del shs tr]. cbn in *.
  unfold unmarshalShardGroupInfo, marshalShardGroupInfo. cbn.
  rewrite (MarshalTime_id st), (MarshalTime_id en) by assumption.
  f_equal.
  - destruct (Z.eqb_spec st 0) as [->|H]; [reflexivity|apply UnmarshalTime_id, H].
  - destruct (Z.eqb_spec en 0) as [->|H]; [reflexivity|apply UnmarshalTime_id, H].
  - destruct Hd as [->|[Hd H0]].
    + rewrite MarshalTime_zero. exact UnmarshalTime_zero.
    + rewrite MarshalTime_id by exact Hd. apply UnmarshalTime_id, H0.
  - rewrite map_map. apply map_id_ext. intros sh. apply shard_roundtrip.
  - destruct (Z.eqb_spec tr zero_time) as [->|H]; [reflexivity|].
    destruct Ht as [Ht|[Ht H0]]; [contradiction|].
    rewrite MarshalTime_id by exact Ht. apply UnmarshalTime_id, H0.
Qed.

Lemma policy_roundtrip rp : policy_storable rp ->
  unmarshalRetentionPolicyInfo (marshalRetentionPolicyInfo rp) = forget_policy rp.
Proof.
  intros [Hr Hg]. unfold unmarshalRetentionPolicyInfo, marshalRetentionPolicyInfo, forget_policy. cbn.
  unfold u32. rewrite Z.mod_small by lia. f_equal.
  rewrite (map_roundtrip _ _ (fun g => g)); [apply map_id|].
  eapply Forall_impl; [exact Hg|]. intros g. apply group_roundtrip.
Qed.

Lemma database_roundtrip db : database_storable db ->
  unmarshalDatabaseInfo (marshalDatabaseInfo db) = forget_database db.
Proof.
  intros H. unfold unmarshalDatabaseInfo, marshalDatabaseInfo, forget_database. cbn. f_equal.
  apply map_roundtrip. eapply Forall_impl; [exact H|]. intros rp. apply policy_roundtrip.
Qed.

Lemma nodes_roundtrip l : map unmarshalNodeInfo (map marshalNodeInfo l) = l.
Proof. rewrite map_map. apply map_id_ext. intros []. reflexivity. Qed.

(** *** The status map *)

Lemma add_statuses_lookup sid l m k :
  add_statuses sid l m !! k
  = if decide (k = sid /\ l <> [])
    then Some (fold_left (fun (i : gmap Z Z) e => <[e.1 := e.2]> i) l (default ∅ (m !! sid))) else m !! k.
Proof.
  revert m. induction l as [|[node st] l IH]; intros m; cbn [add_statuses].
  { rewrite decide_False by tauto. reflexivity. }
  rewrite IH. destruct (decide (k = sid)) as [->|Hk].
  - rewrite (decide_True (P := sid = sid /\ (node, st) :: l <> [])) by (split; [reflexivity|discriminate]).
    rewrite lookup_insert_eq. destruct (decide _) as [[_ Hl]|Hl]; [reflexivity|].
    destruct l as [|x l]; [reflexivity|]. exfalso. apply Hl. split; [reflexivity|discriminate].
  - rewrite !decide_False by tauto. apply lookup_insert_ne. congruence.
Qed.

Lemma insert_all_perm l (m : gmap Z Z) :
  l ≡ₚ map_to_list m -> fold_left (fun (i : gmap Z Z) e => <[e.1 := e.2]> i) l ∅ = m.
Proof.
  intros Hp. assert (NoDup (map fst l)) as Hd.
  { change (NoDup (l.*1)). rewrite Hp. apply NoDup_fst_map_to_list. }
  assert (forall l (i : gmap Z Z), NoDup (map fst l) -> forall k,
    fold_left (fun (i : gmap Z Z) e => <[e.1 := e.2]> i) l i !! k
    = match (list_to_map l : gmap Z Z) !! k with Some v => Some v | None => i !! k end) as HF.
  { clear. intros l. induction l as [|[a b] l IH]; intros i Hd k; [reflexivity|]. cbn in Hd |- *.
    apply NoDup_cons in Hd as [Hn Hd]. rewrite IH by exact Hd.
    destruct (decide (k = a)) as [->|Hk].
    - rewrite lookup_insert_eq. rewrite (not_elem_of_list_to_map_1 l a) by exact Hn.
      rewrite lookup_insert_eq. reflexivity.
    - rewrite (lookup_insert_ne (list_to_map l)) by congruence.
      destruct (_ !! k); [reflexivity|]. apply lookup_insert_ne. congruence. }
  apply map_eq. intros k. rewrite HF by exact Hd.
  rewrite (list_to_map_proper l (map_to_list m) Hd Hp), list_to_map_to_list, lookup_empty.
  destruct (m !! k); reflexivity.
Qed.

Lemma unmarshal_status_lookup (l : list (Z * list (Z * Z))) (m : status_map) k :
  NoDup (map fst l) -> m !! k = None \/ k ∉ map fst l ->
  fold_left (fun m e => add_statuses e.1 e.2 m) l m !! k
  = match (list_to_map l : gmap Z (list (Z * Z))) !! k with
    | Some [] | None => m !! k
    | Some os => Some (fold_left (fun (i : gmap Z Z) e => <[e.1 := e.2]> i) os ∅)
    end.
Proof.
  revert m. induction l as [|[a os] l IH]; intros m Hd Hk; [reflexivity|]. cbn in Hd, Hk |- *.
  apply NoDup_cons in Hd as [Hn Hd]. destruct (decide (k = a)) as [->|Hne].
  - rewrite lookup_insert_eq. rewrite IH; [|exact Hd|right; exact Hn].
    rewrite (not_elem_of_list_to_map_1 l a) by exact Hn. rewrite add_statuses_lookup.
    destruct Hk as [Hk|Hk]; [|exfalso; apply Hk; left]. rewrite Hk.
    destruct os; [rewrite decide_False by tauto; reflexivity|].
    rewrite decide_True by (split; [reflexivity|discriminate]). reflexivity.
  - rewrite lookup_insert_ne by congruence. rewrite IH; [| exact Hd|].
    + rewrite add_statuses_lookup, decide_False by tauto. reflexivity.
    + rewrite add_statuses_lookup, decide_False by tauto.
      destruct Hk as [Hk|Hk]; [left; exact Hk|right; set_solver].
Qed.

(** C35 (round trip). A snapshot restored is the metadata it was taken of,
    except for what the serialised form leaves out: users, continuous queries
    and subscriptions are gone, and so are the status entries of a shard whose
    status map is empty. *)
Theorem snapshot_roundtrip (d : Data) (status : status_map) (ref : nat) :
  Forall database_storable (md_Databases (d_Data d)) ->
  (forall sid inner node st, status !! sid = Some inner -> inner !! node = Some st -> - 2 ^ 31 <= st < 2 ^ 31) ->
  let r := unmarshal (marshal d status) ref in
  r.1 = mkData (forget (d_Data d)) (d_MetaNodes d) (d_DataNodes d) (Some ref) (d_MaxNodeID d)
  /\ forall sid, r.2 !! sid = match status !! sid with
                             | Some inner => if decide (inner = ∅) then None else Some inner
                             | None => None
                             end.
Proof.
  intros Hdb Hst r. split.
  { unfold r, unmarshal, marshal, forget. cbn. rewrite !nodes_roundtrip.
    rewrite (map_roundtrip _ _ forget_database); [reflexivity|].
    eapply Forall_impl; [exact Hdb|]. intros db. apply database_roundtrip. }
  intros sid. unfold r, unmarshal, marshal, unmarshal_status. cbn [fst snd pb_ShardRWStatus].
  set (l := marshal_status status).
  assert (map fst l = (range_shards status).*1) as Hkeys.
  { unfold l, marshal_status. rewrite map_map. reflexivity. }
  assert (NoDup (map fst l)) as Hd.
  { rewrite Hkeys, range_shards_perm. apply NoDup_fst_map_to_list. }
  rewrite unmarshal_status_lookup by (first [exact Hd|left; apply lookup_empty]).
  assert ((list_to_map l : gmap Z (list (Z * Z))) !! sid
          = (fun inner => map (fun o => (o.1, i32 o.2)) (range_owners inner)) <$> status !! sid) as ->.
  { destruct (status !! sid) as [inner|] eqn:E; cbn.
    - apply elem_of_list_to_map_1; [exact Hd|]. unfold l, marshal_status.
      change (sid, map (fun o => (o.1, i32 o.2)) (range_owners inner))
        with ((fun e : Z * gmap Z Z => (e.1, map (fun o => (o.1, i32 o.2)) (range_owners e.2))) (sid, inner)).
      apply elem_of_map. rewrite range_shards_perm. apply elem_of_map_to_list, E.
    - apply not_elem_of_list_to_map_1. change (l.*1) with (map fst l). rewrite Hkeys, range_shards_perm.
      intros H. apply list_elem_of_fmap in H as ([a b] & -> & H). apply elem_of_map_to_list in H. cbn in E. congruence. }
  destruct (status !! sid) as [inner|] eqn:E; cbn [fmap option_fmap option_map]; [|apply lookup_empty].
  assert (map (fun o => (o.1, i32 o.2)) (range_owners inner) = range_owners inner) as ->.
  { assert (forall o, o ∈ range_owners inner -> i32 o.2 = o.2) as Hi.
    { intros [a b] H. rewrite range_owners_perm in H. apply elem_of_map_to_list in H.
      specialize (Hst sid inner a b E H). unfold i32. cbn. rewrite Z.mod_small; lia. }
    revert Hi. generalize (range_owners inner). intros k Hi. induction k as [|[a b] k IH]; [reflexivity|].
    cbn. rewrite IH by (intros o Ho; apply Hi; right; exact Ho).
    specialize (Hi (a, b) ltac:(left)). cbn in Hi. rewrite Hi. reflexivity. }
  destruct (range_owners inner) as [|o os] eqn:Er.
  - rewrite lookup_empty. rewrite decide_True; [reflexivity|]. apply map_to_list_empty_iff, Permutation_nil.
    rewrite <- range_owners_perm, Er. reflexivity.
  - rewrite decide_False.
    + f_equal. apply insert_all_perm. rewrite <- Er. apply range_owners_perm.
    + intros ->. specialize (range_owners_perm ∅). rewrite Er, map_to_list_empty in range_owners_perm.
      apply Permutation_sym, Permutation_nil in range_owners_perm. discriminate.
Qed.
End Marshal.

(** ** Witness *)

Definition ex_MarshalTime (t : Z) : Z := if t =? zero_time then 0 else t.
Definition ex_UnmarshalTime (t : Z) : Z := if t =? 0 then zero_time else t.

Lemma snapshot_roundtrip_witness :
  let d := mkData (mkMData 3 7 9 [mkDB "db" "rp" [mkRP "rp" 2 0 3600
             [mkGroup 1 0 3600 zero_time [mkShard 11 [1; 2]] zero_time] [mkSub "s" "ALL" []]] []] [] 1 11)
             [] ex_nodes (Some 0%nat) 4 in
  let status : status_map := {[11 := {[1 := 3; 2 := 1]}; 12 := ∅]} in
  let r := unmarshal ex_UnmarshalTime (marshal ex_MarshalTime map_to_list map_to_list d status) 5 in
  r.1 = mkData (forget (d_Data d)) [] ex_nodes (Some 5%nat) 4
  /\ forall sid, r.2 !! sid = match status !! sid with
                             | Some inner => if decide (inner = ∅) then None else Some inner
                             | None => None
                             end.
Proof.
  intros d status.
  apply (snapshot_roundtrip ex_MarshalTime ex_UnmarshalTime map_to_list map_to_list).
  - reflexivity.
  - reflexivity.
  - intros t [H1 H2]. unfold ex_MarshalTime. destruct (Z.eqb_spec t zero_time) as [->|]; [|reflexivity].
    unfold zero_time in H1. lia.
  - intros t H. unfold ex_UnmarshalTime. destruct (Z.eqb_spec t 0); [contradiction|reflexivity].
  - reflexivity.
  - reflexivity.
  - repeat constructor; vm_compute; try discriminate; try reflexivity; left; reflexivity.
  - intros sid inner node st H1 H2. unfold status in H1.
    apply lookup_insert_Some in H1 as [[<- <-]|[_ H1]].
    + apply lookup_insert_Some in H2 as [[<- <-]|[_ H2]]; [lia|].
      apply lookup_singleton_Some in H2 as [<- <-]. lia.
    + apply lookup_singleton_Some in H1 as [<- <-]. rewrite lookup_empty in H2. discriminate.
Defined.
