(* ===== verification/MetaNodes.v ===== *)
(** * Node ids

    The ids [CreateDataNode] and [CreateMetaNode] of [services/meta/data.go]
    hand out: a data node and a meta node that share a TCP address are the same
    machine and share an id, everything else has ids of its own. *)

From S2P Require Import Prelude MetaData MetaPlacement MetaDelete.

Definition all_nodes (d : Data) : list NodeInfo := d_MetaNodes d ++ d_DataNodes d.

Record ids_ok (d : Data) : Prop := {
  io_same : forall n m, n ∈ all_nodes d -> m ∈ all_nodes d -> (ni_ID n = ni_ID m <-> ni_TCPHost n = ni_TCPHost m);
  io_data : NoDup (map ni_ID (d_DataNodes d));
  io_meta : NoDup (map ni_ID (d_MetaNodes d));
  io_range : forall n, n ∈ all_nodes d -> 1 <= ni_ID n <= d_MaxNodeID d;
  io_max : 0 <= d_MaxNodeID d < 2 ^ 64 }.

Lemma find_node_Some l p n : find_node l p = Some n -> n ∈ l /\ p n = true.
Proof. intros H. apply List.find_some in H as [H1 H2]. split; [apply list_elem_of_In, H1|exact H2]. Qed.

Lemma find_node_None l p n : find_node l p = None -> n ∈ l -> p n = false.
Proof. intros H Hn. apply (List.find_none _ _ H). apply list_elem_of_In, Hn. Qed.

Lemma has_node_false l p n : has_node l p = false -> n ∈ l -> p n = false.
Proof. unfold has_node. destruct (find_node l p) eqn:E; [discriminate|]. intros _. apply find_node_None, E. Qed.

(** The id that is assigned: that of the node with the same address in the
    other list, or a new one. *)
Lemma run_assign_ID l t s :
  ids_ok (ms_data s) -> (forall n, n ∈ l -> n ∈ all_nodes (ms_data s)) -> d_MaxNodeID (ms_data s) + 1 < 2 ^ 64 ->
  exists i s', assign_ID (existing_ID l t) s = (Ok i, s')
    /\ ((exists n, n ∈ l /\ ni_TCPHost n = t /\ i = ni_ID n /\ s' = s)
        \/ (forall n, n ∈ l -> ni_TCPHost n <> t) /\ i = d_MaxNodeID (ms_data s) + 1
           /\ s' = mkMS (ms_maps s) (ms_next s) (set_MaxNodeID i (ms_data s))).
Proof.
  intros Hok Hl Hm. unfold assign_ID, existing_ID.
  destruct (find_node l _) as [n|] eqn:E.
  - apply find_node_Some in E as [Hn Ht]. apply bool_decide_eq_true in Ht.
    pose proof (io_range _ Hok n (Hl n Hn)). destruct (Z.eqb_spec (ni_ID n) 0); [lia|].
    exists (ni_ID n), s. split; [reflexivity|]. left. exists n. auto.
  - cbn [Z.eqb]. unfold bind, d_get, d_mod, modify. pose proof (io_max _ Hok). rewrite u64_small by lia.
    eexists _, _. split; [reflexivity|]. right. split; [|split; reflexivity].
    intros n Hn Ht. pose proof (find_node_None _ _ n E Hn) as Hf. cbn in Hf. apply bool_decide_eq_false in Hf. auto.
Qed.

(** That id agrees with the addresses of all nodes, when only nodes of [l] can
    have the address. *)
Lemma assigned_agrees (l : list NodeInfo) t s i s' :
  ids_ok (ms_data s) -> d_MaxNodeID (ms_data s) + 1 < 2 ^ 64 ->
  (forall n, n ∈ l -> n ∈ all_nodes (ms_data s)) ->
  (forall n, n ∈ all_nodes (ms_data s) -> ni_TCPHost n = t -> n ∈ l) ->
  (exists n, n ∈ l /\ ni_TCPHost n = t /\ i = ni_ID n /\ s' = s)
    \/ (forall n, n ∈ l -> ni_TCPHost n <> t) /\ i = d_MaxNodeID (ms_data s) + 1
       /\ s' = mkMS (ms_maps s) (ms_next s) (set_MaxNodeID i (ms_data s)) ->
  d_MetaNodes (ms_data s') = d_MetaNodes (ms_data s) /\ d_DataNodes (ms_data s') = d_DataNodes (ms_data s)
  /\ d_MaxNodeID (ms_data s) <= d_MaxNodeID (ms_data s') < 2 ^ 64 /\ 1 <= i <= d_MaxNodeID (ms_data s')
  /\ (forall n, n ∈ all_nodes (ms_data s) -> (ni_ID n = i <-> ni_TCPHost n = t)).
Proof.
  intros Hok Hm Hl Honly C. pose proof (io_max _ Hok). destruct C as [(n & Hn & <- & -> & ->)|(Hno & -> & ->)].
  - split; [reflexivity|]. split; [reflexivity|]. split; [lia|]. split; [apply (io_range _ Hok n (Hl n Hn))|].
    intros m Hm'. apply (io_same _ Hok); auto.
  - cbn. split; [reflexivity|]. split; [reflexivity|]. split; [lia|]. split; [lia|].
    intros m Hm'. pose proof (io_range _ Hok m Hm'). split; [lia|]. intros Ht. exfalso.
    exact (Hno m (Honly m Hm' Ht) Ht).
Qed.

(** Adding a node whose address is new in its list, with an id that agrees with
    the other nodes. *)
Lemma NoDup_snoc_ids (l : list NodeInfo) (x : NodeInfo) :
  NoDup (map ni_ID l) -> (forall n, n ∈ l -> ni_ID n <> ni_ID x) -> NoDup (map ni_ID (l ++ [x])).
Proof.
  intros Hd Hx. rewrite map_app. cbn. apply NoDup_app. split; [exact Hd|]. split; [|apply NoDup_singleton].
  intros i Hi H. apply list_elem_of_singleton in H as ->.
  apply list_elem_of_In, in_map_iff in Hi as (n & E & Hn). apply list_elem_of_In in Hn. exact (Hx n Hn E).
Qed.

Section Sorting.
Context (sort_nodes : list NodeInfo -> list NodeInfo).
Hypothesis sort_nodes_perm : forall l, sort_nodes l ≡ₚ l.

Lemma sorted_ids l : NoDup (map ni_ID l) -> NoDup (map ni_ID (sort_nodes l)).
Proof. intros H. change (NoDup (ni_ID <$> sort_nodes l)). rewrite sort_nodes_perm. exact H. Qed.

(** [d'] is [d] with the node [x] added to one of the lists. *)
Lemma ids_ok_add d d' x :
  ids_ok d ->
  (forall n, n ∈ all_nodes d' <-> n = x \/ n ∈ all_nodes d) ->
  NoDup (map ni_ID (d_DataNodes d')) -> NoDup (map ni_ID (d_MetaNodes d')) ->
  d_MaxNodeID d <= d_MaxNodeID d' < 2 ^ 64 -> 1 <= ni_ID x <= d_MaxNodeID d' ->
  (forall n, n ∈ all_nodes d -> (ni_ID n = ni_ID x <-> ni_TCPHost n = ni_TCPHost x)) ->
  ids_ok d'.
Proof.
  intros [S D M R B] Hall HD HM Hmax Hx Hagree. split; auto.
  - intros n m Hn Hm. apply Hall in Hn as [->|Hn], Hm as [->|Hm].
    + tauto.
    + specialize (Hagree m Hm). split; intros E; symmetry; apply Hagree; auto.
    + apply Hagree, Hn.
    + apply S; assumption.
  - intros n Hn. apply Hall in Hn as [->|Hn]; [exact Hx|]. specialize (R n Hn). lia.
  - lia.
Qed.

Lemma CreateDataNode_ids host t s :
  ids_ok (ms_data s) -> d_MaxNodeID (ms_data s) + 1 < 2 ^ 64 -> ids_ok (ms_data (CreateDataNode sort_nodes host t s).2).
Proof.
  intros Hok Hm. unfold CreateDataNode, bind at 1, d_get. destruct (has_node _ _) eqn:Hh; [exact Hok|].
  assert (forall n, n ∈ d_DataNodes (ms_data s) -> ni_TCPHost n <> t) as Hnew.
  { intros n Hn Ht. pose proof (has_node_false _ _ n Hh Hn) as Hf. cbn in Hf.
    apply bool_decide_eq_false in Hf. auto. }
  destruct (run_assign_ID (d_MetaNodes (ms_data s)) t s Hok) as (i & s1 & E & C).
  { intros n Hn. apply elem_of_app. left. exact Hn. } { exact Hm. }
  erewrite bind_ok by exact E. cbn [d_mod modify snd ms_data].
  destruct (assigned_agrees (d_MetaNodes (ms_data s)) t s i s1 Hok Hm) as (M1 & D1 & B1 & R1 & A1); [| |exact C|].
  { intros n Hn. apply elem_of_app. left. exact Hn. }
  { intros n Hn Ht. apply elem_of_app in Hn as [Hn|Hn]; [exact Hn|exfalso; exact (Hnew n Hn Ht)]. }
  apply (ids_ok_add (ms_data s) _ (mkNode i host t)); cbn; rewrite ?M1, ?D1; auto.
  - intros n. unfold all_nodes. cbn. rewrite ?M1, ?D1, sort_nodes_perm, !elem_of_app, list_elem_of_singleton. tauto.
  - apply sorted_ids, NoDup_snoc_ids; [apply (io_data _ Hok)|]. intros n Hn. cbn. intros E'.
    apply (Hnew n Hn). apply A1; [apply elem_of_app; right; exact Hn|exact E'].
  - apply (io_meta _ Hok).
Qed.

Lemma CreateMetaNode_ids host t s :
  ids_ok (ms_data s) -> d_MaxNodeID (ms_data s) + 1 < 2 ^ 64 ->
  (forall n, n ∈ d_MetaNodes (ms_data s) -> ni_TCPHost n <> t) ->
  ids_ok (ms_data (CreateMetaNode sort_nodes host t s).2).
Proof.
  intros Hok Hm Hnew. unfold CreateMetaNode, bind at 1, d_get. destruct (has_node _ _) eqn:Hh; [exact Hok|].
  destruct (run_assign_ID (d_DataNodes (ms_data s)) t s Hok) as (i & s1 & E & C).
  { intros n Hn. apply elem_of_app. right. exact Hn. } { exact Hm. }
  erewrite bind_ok by exact E. cbn [d_mod modify snd ms_data].
  destruct (assigned_agrees (d_DataNodes (ms_data s)) t s i s1 Hok Hm) as (M1 & D1 & B1 & R1 & A1); [| |exact C|].
  { intros n Hn. apply elem_of_app. right. exact Hn. }
  { intros n Hn Ht. apply elem_of_app in Hn as [Hn|Hn]; [exfalso; exact (Hnew n Hn Ht)|exact Hn]. }
  apply (ids_ok_add (ms_data s) _ (mkNode i host t)); cbn; rewrite ?M1, ?D1; auto.
  - intros n. unfold all_nodes. cbn. rewrite ?M1, ?D1, sort_nodes_perm, !elem_of_app, list_elem_of_singleton. tauto.
  - apply (io_data _ Hok).
  - apply sorted_ids, NoDup_snoc_ids; [apply (io_meta _ Hok)|]. intros n Hn. cbn. intros E'.
    apply (Hnew n Hn). apply A1; [apply elem_of_app; left; exact Hn|exact E'].
Qed.

(** *** Operations that leave the node lists alone *)

Definition nodes_of (s : mstate) : list NodeInfo * list NodeInfo * Z :=
  (d_MetaNodes (ms_data s), d_DataNodes (ms_data s), d_MaxNodeID (ms_data s)).
Definition keeps {A} (m : MM A) : Prop := forall s, nodes_of (m s).2 = nodes_of s.

Lemma keeps_ret {A} (a : A) : keeps (ret a).
Proof. intros s. reflexivity. Qed.
Lemma keeps_throw {A} e : keeps (@throw mstate merror A e).
Proof. intros s. reflexivity. Qed.
Lemma keeps_panic {A} : keeps (@panic mstate merror A).
Proof. intros s. reflexivity. Qed.
Lemma keeps_bind {A B} (m : MM A) (k : A -> MM B) : keeps m -> (forall a, keeps (k a)) -> keeps (bind m k).
Proof.
  intros Hm Hk s. unfold bind. specialize (Hm s). destruct (m s) as [[a|e|] s1]; cbn in *; [|exact Hm..].
  rewrite Hk. exact Hm.
Qed.
Lemma keeps_ss_update f : keeps (ss_update f).
Proof. intros s. unfold ss_update, modify. destruct (d_ShardStatus _); reflexivity. Qed.
Lemma keeps_traverse {A} (f : A -> MM A) l : (forall x, keeps (f x)) -> keeps (traverse f l).
Proof.
  intros H. induction l as [|x l IH]; cbn; [apply keeps_ret|].
  apply keeps_bind; [apply H|]. intros y. apply keeps_bind; [exact IH|]. intros k. apply keeps_ret.
Qed.
#[local] Hint Resolve keeps_ret keeps_throw keeps_panic keeps_bind keeps_ss_update keeps_traverse : myts.

Lemma keeps_relinquish id shards freqs : keeps (relinquish id shards freqs).
Proof.
  revert freqs. induction shards as [|sh shards IH]; intros freqs; cbn [relinquish]; [auto with myts|].
  destruct (scan_owners _ _ _ _ _) as [idx f]. apply keeps_bind; [destruct idx; auto with myts|].
  intros _. apply keeps_bind; [auto|]. intros [[a b] c]. auto with myts.
Qed.

Lemma keeps_delete_from_group range now id g : keeps (delete_from_group range now id g).
Proof.
  unfold delete_from_group. apply keeps_bind; [apply keeps_relinquish|]. intros [[a b] c].
  destruct (_ || _); [auto with myts|]. destruct (reassign _ _ _ _); auto with myts.
Qed.

Lemma keeps_each_group f : (forall g, keeps (f g)) -> keeps (each_group f).
Proof.
  intros H. unfold each_group. apply keeps_bind; [intros s; reflexivity|]. intros d.
  apply keeps_bind; [|intros dbs s; reflexivity]. apply keeps_traverse. intros db.
  apply keeps_bind; [|auto with myts]. apply keeps_traverse. intros rp.
  apply keeps_bind; auto with myts.
Qed.

(** Removing nodes keeps the invariant. *)
Lemma ids_ok_sub d d' (p q : NodeInfo -> bool) :
  ids_ok d -> d_MetaNodes d' = List.filter p (d_MetaNodes d) -> d_DataNodes d' = List.filter q (d_DataNodes d) ->
  d_MaxNodeID d' = d_MaxNodeID d -> ids_ok d'.
Proof.
  intros [S D M R B] E1 E2 E3.
  assert (forall n, n ∈ all_nodes d' -> n ∈ all_nodes d) as Hsub.
  { intros n. unfold all_nodes. rewrite E1, E2, !elem_of_app, !list_elem_of_In, !filter_In. tauto. }
  assert (forall (f : NodeInfo -> bool) l, NoDup (map ni_ID l) -> NoDup (map ni_ID (List.filter f l))) as Hf.
  { intros f l. induction l as [|n l IH]; intros H; [constructor|]. cbn in H. apply NoDup_cons in H as [Hn H]. cbn.
    destruct (f n); [|apply IH, H]. cbn. constructor; [|apply IH, H]. intros Hin. apply Hn.
    apply list_elem_of_In, in_map_iff in Hin as (m & <- & Hm). apply filter_In in Hm as [Hm _].
    apply elem_of_map, list_elem_of_In, Hm. }
  split; rewrite ?E1, ?E2, ?E3; auto.
Qed.

Lemma filter_true {A} (l : list A) : List.filter (fun _ => true) l = l.
Proof. induction l as [|x l IH]; [reflexivity|]. cbn. rewrite IH. reflexivity. Qed.

Lemma DeleteMetaNode_ids id s : ids_ok (ms_data s) -> ids_ok (ms_data (DeleteMetaNode id s).2).
Proof.
  intros Hok. unfold DeleteMetaNode. destruct (id =? 0); [exact Hok|]. unfold bind, d_get.
  destruct (_ =? _); [exact Hok|]. cbn.
  eapply (ids_ok_sub _ _ _ (fun _ => true) Hok); cbn; [reflexivity|rewrite filter_true; reflexivity|reflexivity].
Qed.

Lemma DeleteDataNode_ids range now id s : ids_ok (ms_data s) -> ids_ok (ms_data (DeleteDataNode range now id s).2).
Proof.
  intros Hok. unfold DeleteDataNode, bind at 1, d_get. destruct (_ =? _); [exact Hok|].
  unfold bind, d_mod, modify. set (s1 := mkMS _ _ _).
  pose proof (keeps_each_group _ (keeps_delete_from_group range now id) s1) as Hk.
  unfold nodes_of in Hk. injection Hk as K1 K2 K3.
  eapply (ids_ok_sub _ _ (fun _ => true) (fun n => negb (ni_ID n =? id)) Hok); rewrite ?filter_true; assumption.
Qed.

Lemma SetMetaNode_ids host t s :
  ids_ok (ms_data s) -> d_MaxNodeID (ms_data s) + 1 < 2 ^ 64 ->
  (forall n, d_MetaNodes (ms_data s) = [n] -> ni_TCPHost n = t) -> ids_ok (ms_data (SetMetaNode sort_nodes host t s).2).
Proof.
  intros Hok Hm Ht. unfold SetMetaNode, bind at 1, d_get. destruct (d_MetaNodes (ms_data s)) as [|n [|n' l]] eqn:El; [|cbn|exact Hok].
  - apply CreateMetaNode_ids; [exact Hok|exact Hm|]. rewrite El. intros n Hn. inversion Hn.
  - specialize (Ht n eq_refl). destruct Hok as [S D M R B]. unfold all_nodes in *. rewrite El in *.
    assert (forall x, x ∈ [mkNode (ni_ID n) host t] ++ d_DataNodes (ms_data s) ->
              exists y, y ∈ [n] ++ d_DataNodes (ms_data s) /\ ni_ID x = ni_ID y /\ ni_TCPHost x = ni_TCPHost y) as Hsub.
    { intros x Hx. apply elem_of_app in Hx as [Hx|Hx]; [|exists x; split; [apply elem_of_app; right; exact Hx|auto]].
      apply list_elem_of_singleton in Hx as ->. exists n. split; [left|]. cbn. auto. }
    split; cbn; unfold all_nodes; cbn [d_MetaNodes d_DataNodes set_MetaNodes]; auto.
    + intros x y Hx Hy. apply Hsub in Hx as (x' & Hx & -> & ->), Hy as (y' & Hy & -> & ->). auto.
    + intros x Hx. apply Hsub in Hx as (x' & Hx & -> & _). auto.
Qed.

(** The first data node under the id of the only meta node, at its address. *)
Lemma setDataNode_ids n host s :
  ids_ok (ms_data s) -> d_MetaNodes (ms_data s) = [n] -> d_DataNodes (ms_data s) = [] ->
  ids_ok (ms_data (setDataNode (ni_ID n) host (ni_TCPHost n) s).2).
Proof.
  intros Hok El Ed. unfold setDataNode, bind at 1, d_get. rewrite Ed. cbn. pose proof (io_max _ Hok).
  pose proof (io_range _ Hok n) as Hr. unfold all_nodes in Hr. rewrite El in Hr. specialize (Hr ltac:(left)).
  apply (ids_ok_add (ms_data s) _ (mkNode (ni_ID n) host (ni_TCPHost n))); cbn; rewrite ?El, ?Ed; auto; try lia.
  - intros x. unfold all_nodes. cbn. rewrite El, Ed. cbn. rewrite !elem_of_cons, elem_of_nil. tauto.
  - apply NoDup_singleton.
  - apply NoDup_singleton.
  - intros x. unfold all_nodes. rewrite El, Ed. cbn. rewrite list_elem_of_singleton. intros ->. tauto.
Qed.

(** A history of the methods that add, rename and remove nodes, while ids are not
    used up, with three conditions that the methods themselves do not check: a
    meta node is added under a TCP address no meta node has ([CreateMetaNode]
    compares HTTP addresses only), the only meta node is renamed without a change
    of its TCP address, and the first data node, which takes over the id of the
    only meta node, has its TCP address.  Without the last the ids collide:
    [data_node_ids_collide] of StoreFSMFacts. *)
Inductive node_step (range : gmap Z Z -> list (Z * Z)) (now : Z) : mstate -> mstate -> Prop :=
| step_create_data host t s : d_MaxNodeID (ms_data s) + 1 < 2 ^ 64 ->
    node_step range now s (CreateDataNode sort_nodes host t s).2
| step_create_meta host t s : d_MaxNodeID (ms_data s) + 1 < 2 ^ 64 ->
    (forall n, n ∈ d_MetaNodes (ms_data s) -> ni_TCPHost n <> t) ->
    node_step range now s (CreateMetaNode sort_nodes host t s).2
| step_set_meta host t s : d_MaxNodeID (ms_data s) + 1 < 2 ^ 64 ->
    (forall n, d_MetaNodes (ms_data s) = [n] -> ni_TCPHost n = t) ->
    node_step range now s (SetMetaNode sort_nodes host t s).2
| step_set_data n host s : d_MetaNodes (ms_data s) = [n] -> d_DataNodes (ms_data s) = [] ->
    node_step range now s (setDataNode (ni_ID n) host (ni_TCPHost n) s).2
| step_delete_data id s : node_step range now s (DeleteDataNode range now id s).2
| step_delete_meta id s : node_step range now s (DeleteMetaNode id s).2.

(** C36 (invariant). Through every history of [CreateDataNode], [CreateMetaNode],
    [SetMetaNode], [setDataNode], [DeleteDataNode] and [DeleteMetaNode], failed
    calls included, two nodes have the same id exactly when they have the same TCP
    address, data nodes have distinct ids and so have meta nodes, provided that a
    meta node is added under a TCP address no meta node has, that renaming the
    only meta node keeps its TCP address, that the first data node given the id of
    the only meta node has its TCP address, and that ids do not reach 2^64. *)
Theorem node_ids_unique (range : gmap Z Z -> list (Z * Z)) (now : Z) (s s' : mstate) :
  ids_ok (ms_data s) -> rtc (node_step range now) s s' -> ids_ok (ms_data s').
Proof.
  intros Hok H. induction H as [s|s1 s2 s3 H _ IH]; [exact Hok|]. apply IH. destruct H.
  - apply CreateDataNode_ids; assumption.
  - apply CreateMetaNode_ids; assumption.
  - apply SetMetaNode_ids; assumption.
  - apply setDataNode_ids; assumption.
  - apply DeleteDataNode_ids, Hok.
  - apply DeleteMetaNode_ids, Hok.
Qed.
End Sorting.

Definition empty_data : Data := mkData (mkMData 0 0 0 [] [] 0 0) [] [] None 0.

Lemma node_ids_unique_witness :
  let s := mkMS ∅ 0 empty_data in
  let s1 := (CreateMetaNode (fun l => l) "h1" "m1" s).2 in
  let s2 := (SetMetaNode (fun l => l) "h0" "m1" s1).2 in
  let s3 := (setDataNode 1 "h1" "m1" s2).2 in
  let s4 := (CreateDataNode (fun l => l) "h2" "d2" s3).2 in
  ids_ok (ms_data s4) /\ map ni_ID (d_MetaNodes (ms_data s4)) = [1] /\ map ni_ID (d_DataNodes (ms_data s4)) = [1; 2].
Proof.
  intros s s1 s2 s3 s4. split; [|split; reflexivity].
  apply (node_ids_unique (fun l => l) (fun _ => reflexivity _) map_to_list 0 s s4).
  - split; cbn; [intros n m H; inversion H|apply NoDup_nil_2|apply NoDup_nil_2|intros n H; inversion H|lia].
  - apply (rtc_l _ _ s1); [apply step_create_meta; [reflexivity|intros n H; inversion H]|].
    apply (rtc_l _ _ s2); [apply step_set_meta; [reflexivity|intros n [= <-]; reflexivity]|].
    apply (rtc_l _ _ s3); [exact (step_set_data (fun l => l) map_to_list 0 (mkNode 1 "h0" "m1") "h1" s2 eq_refl eq_refl)|].
    apply (rtc_l _ _ s4); [apply step_create_data; reflexivity|]. apply rtc_refl.
Defined.
