(* ===== verification/StoreFSM.v ===== *)
(** * The replicated state machine of the meta store

    [services/meta/store_fsm.go]: [Apply] and the command handlers, [Snapshot],
    [Persist] and [Restore].  The current metadata is an object the machine
    points to; a handler clones it, changes the clone and installs the clone
    when nothing failed.  The clones share the status map, so the objects and
    the maps live in a heap.  Raft, protobuf and influxdb's meta package are
    parameters. *)

From S2P Require Import Prelude MetaData MetaPlacement MetaDelete MetaMarshal MetaNodes.

Record RetentionPolicyUpdate := mkRPU {
  rpu_Name : option string; rpu_Duration : option Z; rpu_ShardGroupDuration : option Z; rpu_ReplicaN : option Z }.

(** A retention policy as a command carries it. *)
Record pbPolicy := mkPbPolicy { pp_Name : string; pp_ReplicaN : Z; pp_Duration : Z; pp_ShardGroupDuration : Z }.

(** [internal.Command] with its extension decoded. *)
Inductive command :=
| RemovePeerCommand (addr : string)
| CreateNodeCommand (host : string) (rand : Z)
| DeleteNodeCommand (id : Z)
| CreateDatabaseCommand (name : string) (rp : option pbPolicy)
| DropDatabaseCommand (name : string)
| CreateRetentionPolicyCommand (database : string) (rp : pbPolicy) (makeDefault : bool)
| DropRetentionPolicyCommand (database name : string)
| SetDefaultRetentionPolicyCommand (database name : string)
| UpdateRetentionPolicyCommand (database name : string) (newName : option string)
    (duration shardDuration replicaN : option Z) (makeDefault : bool)
| CreateShardGroupCommand (database policy : string) (timestamp : Z)
| DeleteShardGroupCommand (database policy : string) (id : Z)
| CreateContinuousQueryCommand (database name query : string)
| DropContinuousQueryCommand (database name : string)
| CreateSubscriptionCommand (database rp name mode : string) (destinations : list string)
| DropSubscriptionCommand (database rp name : string)
| CreateUserCommand (name hash : string) (admin : bool)
| DropUserCommand (name : string)
| UpdateUserCommand (name hash : string)
| SetPrivilegeCommand (username database : string) (privilege : Z)
| SetAdminPrivilegeCommand (username : string) (admin : bool)
| SetDataCommand (pb : pbData)
| UpdateNodeCommand (id : Z) (host : string)
| CreateMetaNodeCommand (httpAddr tcpAddr : string) (rand : Z)
| DeleteMetaNodeCommand (id : Z)
| SetMetaNodeCommand (httpAddr tcpAddr : string) (rand : Z)
| CreateDataNodeCommand (httpAddr tcpAddr : string)
| DeleteDataNodeCommand (id : Z)
| UpdateShardCommand (id : Z) (newOwners : list Z) (newStatus : option (Z * Z))
| DropShardCommand (id : Z).

(** Operations of influxdb's [meta.Data] and what it provides around it. *)
Record influx := mkInflux {
  ix_CreateDatabase : string -> mdata -> res merror mdata;
  ix_DropDatabase : string -> mdata -> res merror mdata;
  ix_CreateRetentionPolicy : string -> RetentionPolicyInfo -> bool -> mdata -> res merror mdata;
  ix_DropRetentionPolicy : string -> string -> mdata -> res merror mdata;
  ix_UpdateRetentionPolicy : string -> string -> RetentionPolicyUpdate -> bool -> mdata -> res merror mdata;
  ix_DeleteShardGroup : string -> string -> Z -> mdata -> res merror mdata;
  ix_CreateContinuousQuery : string -> string -> string -> mdata -> res merror mdata;
  ix_DropContinuousQuery : string -> string -> mdata -> res merror mdata;
  ix_CreateSubscription : string -> string -> string -> string -> list string -> mdata -> res merror mdata;
  ix_DropSubscription : string -> string -> string -> mdata -> res merror mdata;
  ix_CreateUser : string -> string -> bool -> mdata -> res merror mdata;
  ix_DropUser : string -> mdata -> res merror mdata;
  ix_UpdateUser : string -> string -> mdata -> res merror mdata;
  ix_SetPrivilege : string -> string -> Z -> mdata -> res merror mdata;
  ix_SetAdminPrivilege : string -> bool -> mdata -> res merror mdata;
  ix_RetentionPolicy : mdata -> string -> string -> res merror (option (nat * nat));
  ix_ShardGroupByTimestamp : RetentionPolicyInfo -> Z -> option ShardGroupInfo;
  ix_NewRetentionPolicyInfo : string -> RetentionPolicyInfo;
  ix_sort_groups : list ShardGroupInfo -> list ShardGroupInfo;
  ix_sort_nodes : list NodeInfo -> list NodeInfo;
  ix_UnmarshalTime : Z -> Z }.

(** What the machine asks of Raft: the peers, and the result of leaving; the
    clock and the order in which a map is ranged over. *)
Record env := mkEnv {
  e_peers : res merror (list string);
  e_leave : NodeInfo -> option merror;
  e_now : Z;
  e_range : gmap Z Z -> list (Z * Z) }.

Definition autoCreateRetentionPolicyName : string := "default".
Definition autoCreateRetentionPolicyPeriod : Z := 0.
Definition maxAutoCreatedRetentionPolicyReplicaN : Z := 2.

(** The heap, the object [fsm.data] points to, the configuration flag and the
    number of times [dataChanged] was closed. *)
Record fsm := mkFsm {
  f_maps : gmap nat status_map;
  f_next : nat;
  f_objs : gmap nat Data;
  f_nobj : nat;
  f_data : nat;
  f_autoCreate : bool;
  f_changed : nat }.

Abbreviation FSM := (M fsm merror).

(** The object the machine points to. *)
Definition cur (f : fsm) : Data := default empty_data (f_objs f !! f_data f).

(** The state a method of [data] runs on. *)
Definition ms_at (f : fsm) (d : Data) : mstate := mkMS (f_maps f) (f_next f) d.

(** [other := fsm.data.Clone(); m(other); fsm.data = other], leaving early on an
    error of [m]: the clone is then garbage, but not what [m] did to the maps. *)
Definition on_clone (m : MM unit) : FSM unit :=
  fun f =>
    let '(r, s) := m (ms_at f (Clone (cur f))) in
    match r with
    | Ok _ => (Ok tt, mkFsm (ms_maps s) (ms_next s) (<[f_nobj f := ms_data s]> (f_objs f)) (S (f_nobj f)) (f_nobj f)
                        (f_autoCreate f) (f_changed f))
    | Err e => (Err e, mkFsm (ms_maps s) (ms_next s) (f_objs f) (f_nobj f) (f_data f) (f_autoCreate f) (f_changed f))
    | Panic => (Panic, mkFsm (ms_maps s) (ms_next s) (f_objs f) (f_nobj f) (f_data f) (f_autoCreate f) (f_changed f))
    end.

(** [x.M()] with its error dropped. *)
Definition ignore (m : MM unit) : MM unit := catch m (fun _ => ret tt).

Section FSM.
Context (ix : influx) (en : env).

Definition set_cluster (rand : Z) : MM unit :=
  d_mod (fun d => if md_ClusterID (d_Data d) =? 0 then set_Data (set_ClusterID (u64 rand) (d_Data d)) d else d).

Definition policy_of (p : pbPolicy) : RetentionPolicyInfo :=
  mkRP (pp_Name p) (pp_ReplicaN p) (pp_Duration p) (pp_ShardGroupDuration p) [] [].

Definition applyUpdateShardCommand (id : Z) (newOwners : list Z) (newStatus : option (Z * Z)) : FSM unit :=
  on_clone (
    do* match newOwners with [] => ret tt | _ => UpdateShard id newOwners end in
    match newStatus with
    | Some (owner, st) => ss_assign id owner st
    | None => ret tt
    end).

Definition applyCreateNodeCommand (host : string) (rand : Z) (peers : list string) : FSM unit :=
  on_clone (
    do* (if bool_decide (host ∈ peers) then CreateMetaNode (ix_sort_nodes ix) host host else ret tt) in
    let* d := d_get in
    do* match d_MetaNodes d with
        | [n] => setDataNode (ni_ID n) host host
        | _ => CreateDataNode (ix_sort_nodes ix) host host
        end in
    set_cluster rand).

Definition applyUpdateNodeCommand : FSM unit := ret tt.
Definition applyDeleteNodeCommand : FSM unit := ret tt.

Definition applyRemovePeerCommand : FSM unit := ret tt.

Definition autoReplicaN (n : Z) : Z :=
  if n >? maxAutoCreatedRetentionPolicyReplicaN then maxAutoCreatedRetentionPolicyReplicaN
  else if n <? 1 then 1 else n.

Definition applyCreateDatabaseCommand (name : string) (rp : option pbPolicy) : FSM unit :=
  fun f => on_clone (
    do* lift_md (ix_CreateDatabase ix name) in
    match rp with
    | Some p =>
        catch (lift_md (ix_CreateRetentionPolicy ix name (policy_of p) true)) (fun r =>
          match r with
          | inl _ => ret tt
          | inr e => if bool_decide (e = ErrRetentionPolicyExists) then throw ErrRetentionPolicyConflict else throw e
          end)
    | None =>
        if f_autoCreate f then
          let* d := d_get in
          let base := ix_NewRetentionPolicyInfo ix autoCreateRetentionPolicyName in
          let rpi := mkRP (rp_Name base) (autoReplicaN (zlen (d_DataNodes d))) autoCreateRetentionPolicyPeriod
                       (rp_ShardGroupDuration base) (rp_ShardGroups base) (rp_Subscriptions base) in
          lift_md (ix_CreateRetentionPolicy ix name rpi true)
        else ret tt
    end) f.

Definition applyDropDatabaseCommand (name : string) : FSM unit := on_clone (lift_md (ix_DropDatabase ix name)).
Definition applyCreateRetentionPolicyCommand (database : string) (rp : pbPolicy) (makeDefault : bool) : FSM unit :=
  on_clone (lift_md (ix_CreateRetentionPolicy ix database (policy_of rp) makeDefault)).
Definition applyDropRetentionPolicyCommand (database name : string) : FSM unit :=
  on_clone (lift_md (ix_DropRetentionPolicy ix database name)).
Definition applyUpdateRetentionPolicyCommand (database name : string) (newName : option string)
    (duration shardDuration replicaN : option Z) (makeDefault : bool) : FSM unit :=
  let rpu := mkRPU newName duration shardDuration replicaN in
  on_clone (lift_md (ix_UpdateRetentionPolicy ix database name rpu makeDefault)).
Definition applyCreateShardGroupCommand (database policy : string) (timestamp : Z) : FSM unit :=
  on_clone (CreateShardGroup (ix_RetentionPolicy ix) (ix_ShardGroupByTimestamp ix) (ix_sort_groups ix)
              database policy timestamp).
Definition applyDeleteShardGroupCommand (database policy : string) (id : Z) : FSM unit :=
  on_clone (lift_md (ix_DeleteShardGroup ix database policy id)).
Definition applyCreateContinuousQueryCommand (database name query : string) : FSM unit :=
  on_clone (lift_md (ix_CreateContinuousQuery ix database name query)).
Definition applyDropContinuousQueryCommand (database name : string) : FSM unit :=
  on_clone (lift_md (ix_DropContinuousQuery ix database name)).
Definition applyCreateSubscriptionCommand (database rp name mode : string) (destinations : list string) : FSM unit :=
  on_clone (lift_md (ix_CreateSubscription ix database rp name mode destinations)).
Definition applyDropSubscriptionCommand (database rp name : string) : FSM unit :=
  on_clone (lift_md (ix_DropSubscription ix database rp name)).
Definition applyCreateUserCommand (name hash : string) (admin : bool) : FSM unit :=
  on_clone (lift_md (ix_CreateUser ix name hash admin)).
Definition applyDropUserCommand (name : string) : FSM unit := on_clone (lift_md (ix_DropUser ix name)).
Definition applyUpdateUserCommand (name hash : string) : FSM unit := on_clone (lift_md (ix_UpdateUser ix name hash)).
Definition applySetPrivilegeCommand (username database : string) (privilege : Z) : FSM unit :=
  on_clone (lift_md (ix_SetPrivilege ix username database privilege)).
Definition applySetAdminPrivilegeCommand (username : string) (admin : bool) : FSM unit :=
  on_clone (lift_md (ix_SetAdminPrivilege ix username admin)).

(** [fsm.data = &Data{}; fsm.data.unmarshal(pb)] *)
Definition install (pb : pbData) : FSM unit :=
  modify (fun f =>
    let '(d, status) := unmarshal (ix_UnmarshalTime ix) pb (f_next f) in
    mkFsm (<[f_next f := status]> (f_maps f)) (S (f_next f)) (<[f_nobj f := d]> (f_objs f)) (S (f_nobj f)) (f_nobj f)
      (f_autoCreate f) (f_changed f)).

Definition applySetDataCommand (pb : pbData) : FSM unit := install pb.

Definition applyCreateMetaNodeCommand (httpAddr tcpAddr : string) (rand : Z) : FSM unit :=
  on_clone (do* ignore (CreateMetaNode (ix_sort_nodes ix) httpAddr tcpAddr) in set_cluster rand).
Definition applySetMetaNodeCommand (httpAddr tcpAddr : string) (rand : Z) : FSM unit :=
  on_clone (do* ignore (SetMetaNode (ix_sort_nodes ix) httpAddr tcpAddr) in set_cluster rand).

Definition applyDeleteMetaNodeCommand (id : Z) : FSM unit :=
  on_clone (
    let* d := d_get in
    match MetaNode d id with
    | None => throw ErrNodeNotFound
    | Some node =>
        do* match e_leave en node with
            | Some e => if bool_decide (e = ErrRaftNotLeader) then ret tt else throw e
            | None => ret tt
            end in
        DeleteMetaNode id
    end).

Definition applyCreateDataNodeCommand (httpAddr tcpAddr : string) : FSM unit :=
  on_clone (
    let* d := d_get in
    match d_MetaNodes d, d_DataNodes d with
    | [n], [] => setDataNode (ni_ID n) httpAddr tcpAddr
    | _, _ => ignore (CreateDataNode (ix_sort_nodes ix) httpAddr tcpAddr)
    end).

Definition applyDeleteDataNodeCommand (id : Z) : FSM unit :=
  on_clone (DeleteDataNode (e_range en) (e_now en) id).

(** The switch of [Apply]: a command without a case panics. *)
Definition apply_command (c : command) : FSM unit :=
  match c with
  | RemovePeerCommand _ => applyRemovePeerCommand
  | CreateNodeCommand host rand =>
      match e_peers en with
      | Ok peers => applyCreateNodeCommand host rand peers
      | Err e => throw e
      | Panic => panic
      end
  | DeleteNodeCommand _ => applyDeleteNodeCommand
  | CreateDatabaseCommand name rp => applyCreateDatabaseCommand name rp
  | DropDatabaseCommand name => applyDropDatabaseCommand name
  | CreateRetentionPolicyCommand db rp mk => applyCreateRetentionPolicyCommand db rp mk
  | DropRetentionPolicyCommand db name => applyDropRetentionPolicyCommand db name
  | UpdateRetentionPolicyCommand db name nn du sd rn mk => applyUpdateRetentionPolicyCommand db name nn du sd rn mk
  | CreateShardGroupCommand db rp ts => applyCreateShardGroupCommand db rp ts
  | DeleteShardGroupCommand db rp id => applyDeleteShardGroupCommand db rp id
  | CreateContinuousQueryCommand db name q => applyCreateContinuousQueryCommand db name q
  | DropContinuousQueryCommand db name => applyDropContinuousQueryCommand db name
  | CreateSubscriptionCommand db rp name mode dst => applyCreateSubscriptionCommand db rp name mode dst
  | DropSubscriptionCommand db rp name => applyDropSubscriptionCommand db rp name
  | CreateUserCommand name hash admin => applyCreateUserCommand name hash admin
  | DropUserCommand name => applyDropUserCommand name
  | UpdateUserCommand name hash => applyUpdateUserCommand name hash
  | SetPrivilegeCommand u db p => applySetPrivilegeCommand u db p
  | SetAdminPrivilegeCommand u a => applySetAdminPrivilegeCommand u a
  | SetDataCommand pb => applySetDataCommand pb
  | UpdateNodeCommand _ _ => applyUpdateNodeCommand
  | CreateMetaNodeCommand h t r => applyCreateMetaNodeCommand h t r
  | DeleteMetaNodeCommand id => applyDeleteMetaNodeCommand id
  | SetMetaNodeCommand h t r => applySetMetaNodeCommand h t r
  | CreateDataNodeCommand h t => applyCreateDataNodeCommand h t
  | DeleteDataNodeCommand id => applyDeleteDataNodeCommand id
  | UpdateShardCommand id os st => applyUpdateShardCommand id os st
  | SetDefaultRetentionPolicyCommand _ _ | DropShardCommand _ => panic
  end.

(** Term and index go into the object the machine points to, whatever the
    result of the command; then the data-changed channel is closed. *)
Definition stamp (term index : Z) : FSM unit :=
  modify (fun f => mkFsm (f_maps f) (f_next f)
    (alter (fun d => set_Data (set_TermIndex term index (d_Data d)) d) (f_data f) (f_objs f))
    (f_nobj f) (f_data f) (f_autoCreate f) (S (f_changed f))).

Definition Apply (term index : Z) (c : command) : FSM unit :=
  catch (apply_command c) (fun r =>
    do* stamp term index in
    match r with inl _ => ret tt | inr e => throw e end).

(** ** Snapshots *)

(** The snapshot is the pointer to the current object. *)
Definition Snapshot (f : fsm) : nat := f_data f.

(** What [Persist] encodes when it runs: the object and the maps of then. *)
Definition persisted (MarshalTime : Z -> Z) (range_shards : status_map -> list (Z * gmap Z Z)) (f : fsm) (snap : nat)
  : pbData :=
  let d := default empty_data (f_objs f !! snap) in
  marshal MarshalTime range_shards (e_range en) d (ss_of (ms_at f d)).

(** [Persist]: encode, write, close; any failure cancels the sink.  [sink_Write]
    and [sink_Close] are the sink's results. *)
Definition Persist {B} (proto_Marshal : pbData -> res merror B) (sink_Write : B -> option merror) (sink_Close : option merror)
    (MarshalTime : Z -> Z) (range_shards : status_map -> list (Z * gmap Z Z)) (f : fsm) (snap : nat)
  : res merror (B * bool) :=
  match proto_Marshal (persisted MarshalTime range_shards f snap) with
  | Ok p => match sink_Write p with
            | Some e => Err e
            | None => match sink_Close with Some e => Err e | None => Ok (p, true) end
            end
  | Err e => Err e
  | Panic => Panic
  end.

Definition Restore {B} (proto_Unmarshal : B -> res merror pbData) (b : B) : FSM unit :=
  match proto_Unmarshal b with
  | Ok pb => install pb
  | Err e => throw e
  | Panic => panic
  end.
End FSM.
