(* ===== verification/StoreFSMFacts.v ===== *)
(** * What the replicated state machine guarantees, and what it does not

    Failed commands leave the metadata alone; and four situations in which
    [services/meta/store_fsm.go] does not do what a replicated state machine
    must: a command without a handler, a choice that depends on the order of a
    map, node ids handed out twice, and snapshots that share a map with the
    live metadata. *)

From S2P Require Import Prelude MetaData MetaPlacement MetaDelete MetaMarshal MetaNodes StoreFSM.

(** ** Effects of the methods on the maps *)

Definition maps_of (s : mstate) : gmap nat status_map * nat := (ms_maps s, ms_next s).

(** [m] never touches the maps. *)
Definition no_maps {A} (m : MM A) : Prop := forall s, maps_of (m s).2 = maps_of s.
(** [m] never returns an error. *)
Definition no_err {A} (m : MM A) : Prop := forall s e, (m s).1 <> Err e.
(** When [m] returns an error it has not touched the maps. *)
Definition clean {A} (m : MM A) : Prop := forall s e, (m s).1 = Err e -> maps_of (m s).2 = maps_of s.

Lemma clean_no_maps {A} (m : MM A) : no_maps m -> clean m.
Proof. intros H s e _. apply H. Qed.
Lemma clean_no_err {A} (m : MM A) : no_err m -> clean m.
Proof. intros H s e E. destruct (H s e E). Qed.

Lemma no_maps_bind {A B} (m : MM A) (k : A -> MM B) : no_maps m -> (forall a, no_maps (k a)) -> no_maps (bind m k).
Proof.
  intros Hm Hk s. unfold bind. specialize (Hm s). destruct (m s) as [[a|e|] s1]; cbn in *; [|exact Hm..].
  rewrite Hk. exact Hm.
Qed.
Lemma no_maps_catch {A B} (m : MM A) (k : A + merror -> MM B) :
  no_maps m -> (forall a, no_maps (k a)) -> no_maps (catch m k).
Proof.
  intros Hm Hk s. unfold catch. specialize (Hm s). destruct (m s) as [[a|e|] s1]; cbn in *; [| |exact Hm];
    rewrite Hk; exact Hm.
Qed.
Lemma no_maps_ret {A} (a : A) : no_maps (ret a).
Proof. intros s. reflexivity. Qed.
Lemma no_maps_throw {A} e : no_maps (@throw mstate merror A e).
Proof. intros s. reflexivity. Qed.
Lemma no_maps_get : no_maps d_get.
Proof. intros s. reflexivity. Qed.
Lemma no_maps_mod f : no_maps (d_mod f).
Proof. intros s. reflexivity. Qed.
Lemma no_maps_lift f : no_maps (lift_md f).
Proof. intros s. unfold lift_md. destruct (f _); reflexivity. Qed.
#[local] Hint Resolve no_maps_bind no_maps_catch no_maps_ret no_maps_throw no_maps_get no_maps_mod no_maps_lift : myts.

Lemma no_err_bind {A B} (m : MM A) (k : A -> MM B) : no_err m -> (forall a, no_err (k a)) -> no_err (bind m k).
Proof.
  intros Hm Hk s e. unfold bind. specialize (Hm s). destruct (m s) as [[a|x|] s1]; cbn in *;
    [apply Hk|destruct (Hm x eq_refl)|discriminate].
Qed.
Lemma no_err_ret {A} (a : A) : no_err (ret a).
Proof. intros s e. discriminate. Qed.
Lemma no_err_panic {A} : no_err (@panic mstate merror A).
Proof. intros s e. discriminate. Qed.
Lemma no_err_mod f : no_err (d_mod f).
Proof. intros s e. discriminate. Qed.
Lemma no_err_d_get : no_err d_get.
Proof. intros s e. discriminate. Qed.
Lemma no_err_get : no_err (@get mstate merror).
Proof. intros s e. discriminate. Qed.
Lemma no_err_ss_update f : no_err (ss_update f).
Proof. intros s e. discriminate. Qed.
#[local] Hint Resolve no_err_bind no_err_ret no_err_panic no_err_mod no_err_d_get no_err_get no_err_ss_update : myts.

Lemma no_err_ss_write f : no_err (ss_write f).
Proof. unfold ss_write. apply no_err_bind; auto with myts. intros d. destruct (d_ShardStatus d); auto with myts. Qed.
Lemma no_err_ss_assign id node st : no_err (ss_assign id node st).
Proof.
  unfold ss_assign. apply no_err_bind; auto with myts. intros s. destruct (ss_of s !! id); auto with myts.
  apply no_err_ss_write.
Qed.
#[local] Hint Resolve no_err_ss_write no_err_ss_assign : myts.

Lemma no_err_traverse {A} (f : A -> MM A) l : (forall x, no_err (f x)) -> no_err (traverse f l).
Proof. intros H. induction l as [|x l IH]; cbn; auto 6 with myts. Qed.

Lemma no_err_each_group f : (forall g, no_err (f g)) -> no_err (each_group f).
Proof.
  intros H. unfold each_group. apply no_err_bind; [auto with myts|]. intros d.
  apply no_err_bind; [|auto with myts]. apply no_err_traverse. intros db.
  apply no_err_bind; [|auto with myts]. apply no_err_traverse. intros rp.
  apply no_err_bind; [apply no_err_traverse, H|auto with myts].
Qed.

Lemma no_err_UpdateShard id os : no_err (UpdateShard id os).
Proof.
  apply no_err_each_group. intros g. apply no_err_bind; [|auto with myts]. apply no_err_traverse. intros sh.
  destruct (_ =? _); [|auto with myts]. revert sh. induction os as [|o os IH]; intros sh; cbn; [auto with myts|].
  apply no_err_bind; [auto with myts|]. intros s. apply no_err_bind; [destruct (_ !! _); auto with myts|auto].
Qed.

Lemma no_err_create_shards n : no_err (create_shards n).
Proof.
  induction n as [|n IH]; cbn; [auto with myts|]. apply no_err_bind; [auto with myts|]. intros d.
  apply no_err_bind; [auto with myts|]. intros _. apply no_err_bind.
  { destruct (d_ShardStatus d); [auto with myts|]. intros s e. discriminate. }
  intros _. auto 6 with myts.
Qed.

Lemma no_err_assign_owners k nodes i sh : no_err (assign_owners k nodes i sh).
Proof.
  revert i sh. induction k as [|k IH]; intros i sh; cbn; [auto with myts|].
  destruct (_ !! _); [|auto with myts]. apply no_err_bind; auto with myts.
Qed.

Lemma no_err_assign_all k nodes i l : no_err (assign_all k nodes i l).
Proof.
  revert i. induction l as [|sh l IH]; intros i; cbn; [auto with myts|].
  apply no_err_bind; [apply no_err_assign_owners|]. intros x. apply no_err_bind; [apply IH|auto with myts].
Qed.

Lemma clean_bind {A B} (m : MM A) (k : A -> MM B) : no_maps m -> (forall a, clean (k a)) -> clean (bind m k).
Proof.
  intros Hm Hk s e. unfold bind. specialize (Hm s). destruct (m s) as [[a|x|] s1]; cbn in *; [|auto|discriminate].
  intros E. rewrite (Hk a s1 e E). exact Hm.
Qed.

Lemma clean_CreateShardGroup RP SG so db rp ts : clean (CreateShardGroup RP SG so db rp ts).
Proof.
  unfold CreateShardGroup. apply clean_bind; [auto with myts|]. intros d. cbv zeta.
  destruct (_ =? _); [apply clean_no_err; auto with myts|].
  destruct (RP _ _ _) as [[p|]|x|];
    [|apply clean_no_maps; auto with myts|apply clean_no_maps; auto with myts|apply clean_no_err; auto with myts].
  destruct (policy_at _ _) as [rpi|]; [|apply clean_no_err; auto with myts].
  destruct (SG _ _); apply clean_no_err; [auto with myts|].
  apply no_err_bind; [auto with myts|]. intros _. destruct (_ <? 0); [auto with myts|].
  apply no_err_bind; [apply no_err_create_shards|]. intros l.
  apply no_err_bind; [apply no_err_assign_all|auto with myts].
Qed.

(** ** What removing a node does to the statuses *)

(** The status of a shard on a node in the status map at a reference. *)
Definition status_at (maps : gmap nat status_map) (p : nat) (shard node : Z) : option Z :=
  m ← maps !! p; inner ← m !! shard; inner !! node.

(** At most the statuses of the node [id] in the map at [r] are gone. *)
Definition forgets (id : Z) (r : option nat) (maps maps' : gmap nat status_map) : Prop :=
  forall p shard node, status_at maps' p shard node = status_at maps p shard node
    \/ r = Some p /\ node = id /\ status_at maps' p shard node = None.

Lemma forgets_refl id r maps : forgets id r maps maps.
Proof. intros p shard node. left. reflexivity. Qed.

Lemma forgets_trans id r m1 m2 m3 : forgets id r m1 m2 -> forgets id r m2 m3 -> forgets id r m1 m3.
Proof.
  intros H1 H2 p shard node. destruct (H2 p shard node) as [E2|E2]; [|right; exact E2]. rewrite E2.
  destruct (H1 p shard node) as [E1|(E & -> & E1)]; [left; exact E1|right; auto].
Qed.

(** [m] forgets at most the statuses of [id], and keeps to the same status map. *)
Definition forgetful {A} (id : Z) (m : MM A) : Prop :=
  forall s, d_ShardStatus (ms_data (m s).2) = d_ShardStatus (ms_data s) /\ forgets id (d_ShardStatus (ms_data s)) (ms_maps s) (ms_maps (m s).2).

Lemma forgetful_bind {A B} id (m : MM A) (k : A -> MM B) : forgetful id m -> (forall a, forgetful id (k a)) -> forgetful id (bind m k).
Proof.
  intros Hm Hk s. unfold bind. specialize (Hm s). destruct (m s) as [[a|e|] s1]; cbn in *; [|exact Hm..].
  destruct Hm as [E1 F1], (Hk a s1) as [E2 F2]. rewrite E1 in E2, F2. split; [exact E2|exact (forgets_trans _ _ _ _ _ F1 F2)].
Qed.

Lemma forgetful_same {A} id (m : MM A) :
  (forall s, d_ShardStatus (ms_data (m s).2) = d_ShardStatus (ms_data s) /\ ms_maps (m s).2 = ms_maps s) -> forgetful id m.
Proof. intros H s. destruct (H s) as [E ->]. split; [exact E|apply forgets_refl]. Qed.

Lemma forgetful_ret {A} id (a : A) : forgetful id (ret a).
Proof. apply forgetful_same. intros s. split; reflexivity. Qed.
Lemma forgetful_throw {A} id e : forgetful id (@throw mstate merror A e).
Proof. apply forgetful_same. intros s. split; reflexivity. Qed.
Lemma forgetful_panic {A} id : forgetful id (@panic mstate merror A).
Proof. apply forgetful_same. intros s. split; reflexivity. Qed.

Lemma forgetful_delete id shard : forgetful id (ss_update (alter (fun inner : gmap Z Z => delete id inner) shard)).
Proof.
  intros s. unfold ss_update, modify. destruct (d_ShardStatus (ms_data s)) as [r|] eqn:Er; cbn; (split; [exact Er|]); [|apply forgets_refl].
  intros p sh node. unfold status_at. destruct (decide (p = r)) as [->|Hp]; [|left; rewrite lookup_insert_ne by congruence; reflexivity].
  rewrite lookup_insert_eq. cbn. destruct (ms_maps s !! r) as [m|]; cbn.
  - destruct (decide (sh = shard)) as [->|Hs]; [|left; rewrite lookup_alter_ne by congruence; reflexivity].
    rewrite lookup_alter_eq. destruct (m !! shard) as [inner|]; cbn; [|left; reflexivity].
    destruct (decide (node = id)) as [->|Hn]; [right; rewrite lookup_delete_eq; auto|left; apply lookup_delete_ne; congruence].
  - left. destruct (decide (sh = shard)) as [->|Hs]; [rewrite lookup_alter_eq|rewrite lookup_alter_ne by congruence]; rewrite lookup_empty; reflexivity.
Qed.
#[local] Hint Resolve forgetful_bind forgetful_ret forgetful_throw forgetful_panic forgetful_delete : myts.

Lemma forgetful_traverse {A} id (f : A -> MM A) l : (forall x, forgetful id (f x)) -> forgetful id (traverse f l).
Proof.
  intros H. induction l as [|x l IH]; cbn; [auto with myts|]. apply forgetful_bind; [apply H|]. intros y. apply forgetful_bind; auto with myts.
Qed.

Lemma forgetful_relinquish id shards freqs : forgetful id (relinquish id shards freqs).
Proof.
  revert freqs. induction shards as [|sh shards IH]; intros freqs; cbn [relinquish]; [auto with myts|].
  destruct (scan_owners _ _ _ _ _) as [idx f]. apply forgetful_bind; [destruct idx; auto with myts|].
  intros _. apply forgetful_bind; [auto|]. intros [[a b] c]. auto with myts.
Qed.

Lemma forgetful_DeleteDataNode range now id : forgetful id (DeleteDataNode range now id).
Proof.
  unfold DeleteDataNode, each_group. apply forgetful_bind; [apply forgetful_same; intros s; split; reflexivity|]. intros d.
  destruct (_ =? _); [auto with myts|]. apply forgetful_bind; [apply forgetful_same; intros s; split; reflexivity|]. intros _.
  apply forgetful_bind; [apply forgetful_same; intros s; split; reflexivity|]. intros d'.
  apply forgetful_bind; [|intros dbs; apply forgetful_same; intros s; split; reflexivity]. apply forgetful_traverse. intros db.
  apply forgetful_bind; [|auto with myts]. apply forgetful_traverse. intros rp. apply forgetful_bind; [|auto with myts]. apply forgetful_traverse. intros g.
  unfold delete_from_group. apply forgetful_bind; [apply forgetful_relinquish|]. intros [[a b] c].
  destruct (_ || _); [auto with myts|]. destruct (reassign _ _ _ _); auto with myts.
Qed.

(** ** Failed commands *)

Lemma on_clone_err m f e f' :
  on_clone m f = (Err e, f') ->
  exists s, m (ms_at f (Clone (cur f))) = (Err e, s)
    /\ f' = mkFsm (ms_maps s) (ms_next s) (f_objs f) (f_nobj f) (f_data f) (f_autoCreate f) (f_changed f).
Proof.
  unfold on_clone. destruct (m _) as [[[]|x|] s]; intros E; try discriminate. injection E as <- <-. eauto.
Qed.

(** The handler [h] leaves the machine as it is when it fails. *)
Definition atomic_at (h : FSM unit) (f : fsm) : Prop := forall e f', h f = (Err e, f') -> f' = f.

Lemma atomic_on_clone m f : clean m -> atomic_at (on_clone m) f.
Proof.
  intros H e f' E. apply on_clone_err in E as (s & E & ->).
  specialize (H (ms_at f (Clone (cur f))) e). rewrite E in H. specialize (H eq_refl).
  injection H as H1 H2. cbn in H1, H2. rewrite H1, H2. destruct f. reflexivity.
Qed.

Lemma atomic_ret f : atomic_at (ret tt) f.
Proof. intros e f' E. discriminate. Qed.

Section Atomic.
Context (ix : influx) (en : env).
Hypothesis range_perm : forall m, e_range en m ≡ₚ map_to_list m.

Lemma no_maps_assign_ID i : no_maps (assign_ID i).
Proof. unfold assign_ID. destruct (_ =? _); auto 6 with myts. Qed.
Lemma no_maps_CreateDataNode so h t : no_maps (CreateDataNode so h t).
Proof.
  unfold CreateDataNode. apply no_maps_bind; [auto with myts|]. intros d. destruct (has_node _ _); [auto with myts|].
  apply no_maps_bind; [apply no_maps_assign_ID|auto with myts].
Qed.
Lemma no_maps_CreateMetaNode so h t : no_maps (CreateMetaNode so h t).
Proof.
  unfold CreateMetaNode. apply no_maps_bind; [auto with myts|]. intros d. destruct (has_node _ _); [auto with myts|].
  apply no_maps_bind; [apply no_maps_assign_ID|auto with myts].
Qed.
Lemma no_maps_setDataNode i h t : no_maps (setDataNode i h t).
Proof.
  unfold setDataNode. apply no_maps_bind; [auto with myts|]. intros d. destruct (has_node _ _); auto with myts.
Qed.
Lemma no_maps_SetMetaNode so h t : no_maps (SetMetaNode so h t).
Proof.
  unfold SetMetaNode. apply no_maps_bind; [auto with myts|]. intros d.
  destruct (d_MetaNodes d) as [|n [|n' l]]; auto using no_maps_CreateMetaNode with myts.
Qed.
Lemma no_maps_DeleteMetaNode i : no_maps (DeleteMetaNode i).
Proof.
  unfold DeleteMetaNode. destruct (_ =? _); [auto with myts|]. apply no_maps_bind; [auto with myts|]. intros d.
  destruct (_ =? _); auto with myts.
Qed.
Hint Resolve no_maps_CreateDataNode no_maps_CreateMetaNode no_maps_setDataNode no_maps_SetMetaNode
  no_maps_DeleteMetaNode clean_no_maps atomic_on_clone atomic_ret : myts.

Lemma clean_DeleteDataNode_at id f :
  0 <= id < 2 ^ 63 -> databases_ok (d_Data (cur f)) -> atomic_at (applyDeleteDataNodeCommand en id) f.
Proof.
  intros Hid Hok e f' E. apply on_clone_err in E as (s & E & ->). unfold DeleteDataNode, bind at 1, d_get in E.
  destruct (_ =? _).
  - injection E as <- <-. destruct f. reflexivity.
  - exfalso. unfold bind, d_mod, modify in E.
    match type of E with each_group _ ?s1 = _ =>
      destruct (run_remove_everywhere (e_range en) (e_now en) range_perm id s1 Hid Hok) as (s' & dbs & E' & _) end.
    rewrite E' in E. discriminate.
Qed.

Lemma atomic_command c f :
  (forall id, c = DeleteDataNodeCommand id -> 0 <= id < 2 ^ 63 /\ databases_ok (d_Data (cur f))) ->
  atomic_at (apply_command ix en c) f.
Proof.
  intros Hdel. destruct c; cbn [apply_command];
    try (apply atomic_on_clone; auto using clean_CreateShardGroup with myts; fail);
    try (apply atomic_ret); try (intros e f' E; discriminate).
  - destruct (e_peers en) as [peers|x|]; [|intros e f' E; injection E as <- <-; reflexivity|intros e f' E; discriminate].
    apply atomic_on_clone, clean_no_maps. apply no_maps_bind; [destruct (bool_decide _); auto with myts|].
    intros _. apply no_maps_bind; [auto with myts|]. intros d. apply no_maps_bind; [|intros _; apply no_maps_mod].
    destruct (d_MetaNodes d) as [|n [|n' l]]; auto with myts.
  - intros e f' E. unfold applyCreateDatabaseCommand in E. revert E. apply atomic_on_clone, clean_no_maps.
    apply no_maps_bind; [auto with myts|]. intros _. destruct rp as [p|].
    + apply no_maps_catch; [auto with myts|]. intros [u|x]; [auto with myts|destruct (bool_decide _); auto with myts].
    + destruct (f_autoCreate f); auto with myts.
  - apply atomic_on_clone, clean_no_maps. apply no_maps_bind; [apply no_maps_catch; auto with myts|intros _; apply no_maps_mod].
  - apply atomic_on_clone, clean_no_maps. apply no_maps_bind; [auto with myts|]. intros d.
    destruct (MetaNode d id); [|auto with myts]. apply no_maps_bind; [|auto with myts].
    destruct (e_leave en n) as [x|]; [destruct (bool_decide _)|]; auto with myts.
  - apply atomic_on_clone, clean_no_maps. apply no_maps_bind; [apply no_maps_catch; auto with myts|intros _; apply no_maps_mod].
  - apply atomic_on_clone, clean_no_maps. apply no_maps_bind; [auto with myts|]. intros d.
    destruct (d_MetaNodes d) as [|n [|n' l]], (d_DataNodes d); auto with myts; apply no_maps_catch; auto with myts.
  - destruct (Hdel id eq_refl). apply clean_DeleteDataNode_at; assumption.
  - apply atomic_on_clone, clean_no_err. apply no_err_bind; [destruct newOwners; auto using no_err_UpdateShard with myts|].
    intros _. destruct newStatus as [[o st]|]; auto with myts.
Qed.
End Atomic.

(** What a failed command leaves of the machine before the stamp. *)
Lemma failed_command ix en c f e f' :
  (forall m, e_range en m ≡ₚ map_to_list m) -> apply_command ix en c f = (Err e, f') ->
  f_objs f' = f_objs f /\ f_data f' = f_data f
  /\ match c with
     | DeleteDataNodeCommand id => forgets id (d_ShardStatus (cur f)) (f_maps f) (f_maps f')
                                   /\ (0 <= id < 2 ^ 63 -> databases_ok (d_Data (cur f)) -> f_maps f' = f_maps f)
     | _ => f_maps f' = f_maps f
     end.
Proof.
  intros Hr E. assert ((forall id, c <> DeleteDataNodeCommand id) \/ exists id, c = DeleteDataNodeCommand id) as [Hc|[id ->]].
  { destruct c; try (left; intros ? ?; discriminate). right. eauto. }
  - pose proof (atomic_command ix en Hr c f (fun id H => False_ind _ (Hc id H)) e f' E) as ->. split; [reflexivity|]. split; [reflexivity|].
    destruct c; try reflexivity. destruct (Hc id eq_refl).
  - cbn in E. pose proof (fun H1 H2 => clean_DeleteDataNode_at en Hr id f H1 H2 e f' E) as Hat. apply on_clone_err in E as (s & E & ->).
    pose proof (forgetful_DeleteDataNode (e_range en) (e_now en) id (ms_at f (Clone (cur f)))) as [_ F]. rewrite E in F.
    split; [reflexivity|]. split; [reflexivity|]. split; [exact F|]. intros H1 H2. rewrite (Hat H1 H2). reflexivity.
Qed.

(** C37 (error). A command that fails, whichever step of its handler failed, leaves
    the metadata as it was but for the term and the index, and every other object
    the machine ever pointed to; it leaves all status maps alone too, unless it is
    the removal of a data node.  That one works on a clone that shares the status
    map: it takes at most the statuses of the node to be removed out of the map of
    the metadata, and nothing when no shard lists an owner twice, no group a shard
    id twice and ids are below 2^63. *)
Theorem failed_command_frame (ix : influx) (en : env) (term index : Z) (c : command) (f : fsm) (e : merror) (f' : fsm) :
  (forall m, e_range en m ≡ₚ map_to_list m) -> is_Some (f_objs f !! f_data f) ->
  Apply ix en term index c f = (Err e, f') ->
  cur f' = set_Data (set_TermIndex term index (d_Data (cur f))) (cur f)
  /\ f_data f' = f_data f /\ (forall p, p <> f_data f -> f_objs f' !! p = f_objs f !! p)
  /\ match c with
     | DeleteDataNodeCommand id => forgets id (d_ShardStatus (cur f)) (f_maps f) (f_maps f')
                                   /\ (0 <= id < 2 ^ 63 -> databases_ok (d_Data (cur f)) -> f_maps f' = f_maps f)
     | _ => f_maps f' = f_maps f
     end.
Proof.
  intros Hr [d Hd] E. unfold Apply, catch in E.
  destruct (apply_command ix en c f) as [[[]|x|] f1] eqn:Ec; [discriminate| |discriminate].
  destruct (failed_command ix en c f x f1 Hr Ec) as (Eo & Ed & Hm). unfold bind, stamp, modify in E.
  injection E as _ <-. unfold cur at 1. cbn [f_objs f_data f_maps]. rewrite Eo, Ed, lookup_alter_eq, Hd.
  split; [unfold cur; rewrite Hd; reflexivity|]. split; [reflexivity|]. split; [|exact Hm].
  intros p Hp. apply lookup_alter_ne. congruence.
Qed.

(** ** Concrete machines *)

(** A small stand-in for influxdb's operations: databases are listed by name,
    the other operations accept and change nothing. *)
Definition ix0 : influx :=
  mkInflux
    (fun name m => if existsb (fun db => bool_decide (db_Name db = name)) (md_Databases m)
                   then Err (ErrInflux "database already exists")
                   else Ok (set_Databases (md_Databases m ++ [mkDB name "" [] []]) m))
    (fun _ m => Ok m) (fun _ _ _ m => Ok m) (fun _ _ m => Ok m) (fun _ _ _ _ m => Ok m) (fun _ _ _ m => Ok m)
    (fun _ _ _ m => Ok m) (fun _ _ m => Ok m) (fun _ _ _ _ _ m => Ok m) (fun _ _ _ m => Ok m) (fun _ _ _ m => Ok m)
    (fun _ m => Ok m) (fun _ _ m => Ok m) (fun _ _ _ m => Ok m) (fun _ _ m => Ok m)
    ex_find (fun _ _ => None) (fun n => mkRP n 1 0 3600 [] []) (fun l => l) (fun l => l) ex_UnmarshalTime.

Definition env0 (range : gmap Z Z -> list (Z * Z)) : env := mkEnv (Ok []) (fun _ => None) 99 range.

Definition machine (maps : gmap nat status_map) (d : Data) : fsm := mkFsm maps 1 {[0%nat := d]} 1 0 true 0.

(** Metadata in which a shard lists node 1 twice, as a repeated [UpdateShard]
    leaves it; removing the node fails. *)
Definition ex_twice : Data :=
  mkData (mkMData 1 7 9 [mkDB "db" "rp" [mkRP "rp" 1 0 3600
    [mkGroup 1 0 3600 zero_time [mkShard 11 [1; 1]; mkShard 12 [1]] zero_time] []] []] [] 1 12)
    [] [mkNode 1 "h1" "t1"; mkNode 2 "h2" "t2"] (Some 0%nat) 2.

Lemma failed_command_frame_witness :
  let f := machine {[0%nat := {[11 := {[1 := 3]}; 12 := {[1 := 3]}]}]} ex_twice in
  exists f', Apply ix0 (env0 map_to_list) 2 8 (DeleteDataNodeCommand 1) f = (Err ErrCannotReassign, f')
  /\ cur f' = set_Data (set_TermIndex 2 8 (d_Data ex_twice)) ex_twice
  /\ f_data f' = 0%nat /\ (forall p, p <> 0%nat -> f_objs f' !! p = f_objs f !! p)
  /\ forgets 1 (Some 0%nat) (f_maps f) (f_maps f')
  /\ (0 <= 1 < 2 ^ 63 -> databases_ok (d_Data ex_twice) -> f_maps f' = f_maps f).
Proof.
  intros f. eexists. split; [vm_compute; reflexivity|].
  apply (failed_command_frame ix0 (env0 map_to_list) 2 8 (DeleteDataNodeCommand 1) f ErrCannotReassign).
  - intros m. reflexivity.
  - eexists. reflexivity.
  - vm_compute. reflexivity.
Defined.

(** The failed removal has forgotten the statuses of the node, which stays. *)
Example failed_removal_forgets :
  let f := machine {[0%nat := {[11 := {[1 := 3]}; 12 := {[1 := 3]}]}]} ex_twice in
  let f' := (Apply ix0 (env0 map_to_list) 2 8 (DeleteDataNodeCommand 1) f).2 in
  status_at (f_maps f) 0 11 1 = Some 3 /\ status_at (f_maps f') 0 11 1 = None /\ map ni_ID (d_DataNodes (cur f')) = [1; 2].
Proof. vm_compute. auto. Qed.

(** The command the client sends to drop a shard has no case in [Apply]. *)
Theorem drop_shard_panics (ix : influx) (en : env) (term index id : Z) (f : fsm) :
  Apply ix en term index (DropShardCommand id) f = (Panic, f).
Proof. reflexivity. Qed.

(** Three shards, one node each. *)
Definition three_shards : fsm :=
  machine {[0%nat := {[11 := {[1 := 3]}; 12 := {[2 := 3]}; 13 := {[3 := 3]}]}]}
    (mkData (mkMData 1 7 9 [mkDB "db" "rp" [mkRP "rp" 1 0 3600
       [mkGroup 1 0 3600 zero_time [mkShard 11 [1]; mkShard 12 [2]; mkShard 13 [3]] zero_time] []] []] [] 1 13)
       [] [mkNode 1 "h1" "t1"; mkNode 2 "h2" "t2"; mkNode 3 "h3" "t3"] (Some 0%nat) 3).

(** The owners of the shards of a machine. *)
Definition owners (f : fsm) : list (Z * list Z) :=
  concat (map (fun db => concat (map (fun rp => concat (map (fun g =>
    map (fun sh => (si_ID sh, si_Owners sh)) (sgi_Shards g)) (rp_ShardGroups rp))) (db_RetentionPolicies db)))
    (md_Databases (d_Data (cur f)))).

(** The state machine is not deterministic: two
    replicas in the same state that apply the same command, and differ only in
    the order in which Go ranges over a map, end up with different owners for
    the same shard. *)
Theorem replicas_can_diverge :
  exists (range1 range2 : gmap Z Z -> list (Z * Z)) (f : fsm) (c : command),
    (forall m, range1 m ≡ₚ map_to_list m) /\ (forall m, range2 m ≡ₚ map_to_list m)
    /\ (Apply ix0 (env0 range1) 2 8 c f).1 = Ok tt /\ (Apply ix0 (env0 range2) 2 8 c f).1 = Ok tt
    /\ owners (Apply ix0 (env0 range1) 2 8 c f).2 <> owners (Apply ix0 (env0 range2) 2 8 c f).2.
Proof.
  exists map_to_list, (fun m => reverse (map_to_list m)), three_shards, (DeleteDataNodeCommand 1).
  split; [intros m; reflexivity|]. split; [intros m; apply reverse_Permutation|].
  split; [vm_compute; reflexivity|]. split; [vm_compute; reflexivity|]. vm_compute. discriminate.
Qed.

(** Several commands. *)
Fixpoint apply_all (ix : influx) (en : env) (index : Z) (cs : list command) (f : fsm) : fsm :=
  match cs with
  | [] => f
  | c :: cs' => apply_all ix en (index + 1) cs' (Apply ix en 1 index c f).2
  end.

(** Invariant failure. Two data nodes can get the same id: the first data
    node takes over the id of the only meta node whatever its address is, and
    the machine that runs the meta node gets that id again when it joins as a
    data node. *)
Theorem data_node_ids_collide :
  exists cs, map ni_ID (d_DataNodes (cur (apply_all ix0 (env0 map_to_list) 1 cs (machine ∅ empty_data)))) = [1; 1].
Proof.
  exists [CreateMetaNodeCommand "a:8091" "a:8088" 5; CreateDataNodeCommand "b:8086" "b:8088";
          CreateDataNodeCommand "a:8086" "a:8088"].
  vm_compute. reflexivity.
Qed.

(** [ShardIsReadable] of the client ([services/meta/client.go]). *)
Definition ShardIsReadable (f : fsm) (shardID nodeID : Z) : bool :=
  let st := default 0 (ss_of (ms_at f (cur f)) !! shardID ≫= (fun inner => inner !! nodeID)) in
  (st =? ShardRead) || (st =? ShardWriteRead).

(** Liveness failure. After the only owner of a shard is removed, the
    shard has a new owner, but the status map does not say so: no node can read
    the shard. *)
Theorem reassigned_shard_unreadable :
  exists f c, let f' := (Apply ix0 (env0 map_to_list) 2 8 c f).2 in
    (Apply ix0 (env0 map_to_list) 2 8 c f).1 = Ok tt
    /\ ShardIsReadable f 11 1 = true
    /\ exists o, (11, [o]) ∈ owners f' /\ o ∈ map ni_ID (d_DataNodes (cur f'))
    /\ forall n, n ∈ map ni_ID (d_DataNodes (cur f')) -> ShardIsReadable f' 11 n = false.
Proof.
  exists three_shards, (DeleteDataNodeCommand 1). cbv zeta.
  assert (map ni_ID (d_DataNodes (cur (Apply ix0 (env0 map_to_list) 2 8 (DeleteDataNodeCommand 1) three_shards).2))
          = [2; 3]) as -> by (vm_compute; reflexivity).
  split; [vm_compute; reflexivity|]. split; [vm_compute; reflexivity|]. exists 3.
  split; [apply (bool_decide_eq_true_1 _); vm_compute; reflexivity|]. split; [right; left|].
  intros n Hn. apply elem_of_cons in Hn as [->|Hn]; [vm_compute; reflexivity|].
  apply list_elem_of_singleton in Hn as ->. vm_compute. reflexivity.
Qed.

(** A snapshot is not isolated: the status map it encodes
    is the live one, so a command applied between [Snapshot] and [Persist]
    shows up in it, here with the status of a shard the snapshot does not
    have. *)
Theorem snapshot_shares_status :
  exists f c, let f' := (Apply ix0 (env0 map_to_list) 2 8 c f).2 in
    let before := persisted (env0 map_to_list) ex_MarshalTime map_to_list f (Snapshot f) in
    let after := persisted (env0 map_to_list) ex_MarshalTime map_to_list f' (Snapshot f) in
    pb_Databases after = pb_Databases before /\ map fst (pb_ShardRWStatus before) = []
    /\ map fst (pb_ShardRWStatus after) = [11; 12].
Proof.
  exists (machine {[0%nat := ∅]} (set_ShardStatus (Some 0%nat) ex_data)), (CreateShardGroupCommand "db" "rp" 5000).
  vm_compute. auto.
Qed.
