(* ===== verification/ShardWrite.v ===== *)
(** * Writing one shard at a consistency level

    [writeToShard] of [services/data/point_writer.go].  One goroutine per owner
    of the shard makes the calls for that owner and sends the outcome to a
    buffered channel; the caller receives from the channel until enough owners
    have succeeded, all have answered, the writer is closed or the time is up.
    The goroutines and the caller are interleaved: the state holds how far each
    goroutine is, an event is one of them taking one step, and the outcome of a
    call to the store, to a remote node or to the hinted-handoff service is
    whatever the event says.  The calls made are recorded with their arguments
    and outcomes. *)

From S2P Require Import Prelude MetaData.

(** [models.ConsistencyLevel]. *)
Inductive ConsistencyLevel :=
| ConsistencyLevelAny
| ConsistencyLevelOne
| ConsistencyLevelQuorum
| ConsistencyLevelAll.

(** Errors of the write path; [CallErr] is an error of another package other
    than [tsdb.ErrShardNotFound], which the code tells apart. *)
Inductive werror :=
| ErrTimeout
| ErrPartialWrite
| ErrWriteFailed
| ErrShardNotFound
| WriteFailedWith (e : werror)          (* "write failed: %v" *)
| PartialWriteError (dropped : Z)       (* "points beyond retention policy" *)
| ErrDatabaseNotFound (name : string)
| ErrRetentionPolicyNotFound (name : string)
| ErrNilShardGroup
| CallErr (what : string).

#[export] Instance ConsistencyLevel_eq_dec : EqDecision ConsistencyLevel.
Proof. solve_decision. Defined.
#[export] Instance werror_eq_dec : EqDecision werror.
Proof. solve_decision. Defined.

(** The counters of [WriteStatistics]: 64-bit integers added to atomically. *)
Inductive counter :=
| WriteReq | PointWriteReq | PointWriteReqLocal | PointWriteReqRemote | WriteOK | WriteDropped
| WriteTimeout | WriteErr | SubWriteOK | SubWriteDrop | WritePointReqHH | WritePartial.

#[export] Instance counter_eq_dec : EqDecision counter.
Proof. solve_decision. Defined.

Definition WriteStatistics : Type := counter -> Z.

Definition AddInt64 (st : WriteStatistics) (a : counter * Z) : WriteStatistics :=
  fun c => if decide (c = a.1) then i64 (st c + a.2) else st c.

(** What a client of the model needs of the writer's configuration: the id of
    this node and whether a hinted-handoff service is set. *)
Record writer := mkWriter { w_Node_ID : Z; w_HintedHandoff : bool }.

Section ShardWrite.
Context {Point : Type}.

(** The calls to other components. *)
Inductive call :=
| StoreWrite (shardID : Z) (points : list Point)
| StoreCreate (database retentionPolicy : string) (shardID : Z)
| RemoteWrite (shardID ownerID : Z) (points : list Point)
| HandoffWrite (shardID ownerID : Z) (points : list Point).

(** The arguments of one call of [writeToShard]. *)
Record job := mkJob {
  j_shard : ShardInfo;
  j_database : string;
  j_retentionPolicy : string;
  j_consistency : ConsistencyLevel;
  j_points : list Point }.

Definition owners (j : job) : list Z := si_Owners (j_shard j).

Definition required (j : job) : Z :=
  let n := zlen (owners j) in
  match j_consistency j with
  | ConsistencyLevelAny | ConsistencyLevelOne => 1
  | ConsistencyLevelQuorum => n / 2 + 1
  | ConsistencyLevelAll => n
  end.

(** How far a goroutine is: about to make a call, about to send its outcome, or
    finished after sending it. *)
Inductive phase :=
| AtWrite
| AtCreate
| AtRewrite
| AtRemote
| AtHandoff (err : werror)
| AtSend (r : option werror)
| Finished (r : option werror).

Variable w : writer.

#[local] Instance phase_eq_dec : EqDecision phase.
Proof. solve_decision. Defined.

Definition go_start (o : Z) : phase := if w_Node_ID w =? o then AtWrite else AtRemote.

Definition pending_call (j : job) (o : Z) (p : phase) : option call :=
  let id := si_ID (j_shard j) in
  match p with
  | AtWrite | AtRewrite => Some (StoreWrite id (j_points j))
  | AtCreate => Some (StoreCreate (j_database j) (j_retentionPolicy j) id)
  | AtRemote => Some (RemoteWrite id o (j_points j))
  | AtHandoff _ => Some (HandoffWrite id o (j_points j))
  | AtSend _ | Finished _ => None
  end.

(** The goroutine goes on with outcome [r] of the call it was at. *)
Definition go_on (j : job) (p : phase) (r : option werror) : phase :=
  match p with
  | AtWrite => if decide (r = Some ErrShardNotFound) then AtCreate else AtSend r
  | AtCreate => match r with Some e => AtSend (Some e) | None => AtRewrite end
  | AtRewrite => AtSend r
  | AtRemote =>
      match r with
      | Some e => if w_HintedHandoff w then AtHandoff e else AtSend (Some e)
      | None => AtSend None
      end
  | AtHandoff err =>
      match r with
      | Some hherr => AtSend (Some hherr)
      | None => if decide (j_consistency j = ConsistencyLevelAny) then AtSend None else AtSend (Some err)
      end
  | AtSend _ | Finished _ => p
  end.

(** The counters a goroutine adds to around a call. *)
Definition go_stats (j : job) (p : phase) (r : option werror) : list (counter * Z) :=
  match p with
  | AtWrite => [(PointWriteReqLocal, zlen (j_points j))]
  | AtRemote => (PointWriteReqRemote, zlen (j_points j)) ::
                match r with Some _ => [(WritePointReqHH, 1)] | None => [] end
  | _ => []
  end.

(** [ws_left] is the number of iterations the receiving loop has left, [ws_ret]
    the result once [writeToShard] has returned. *)
Record wstate := mkWS {
  ws_go : list phase;
  ws_ch : list (Z * option werror);
  ws_left : nat;
  ws_wrote : Z;
  ws_writeError : option werror;
  ws_ret : option (option werror);
  ws_log : list (nat * call * option werror) }.

Definition wstart (j : job) : wstate :=
  mkWS (map go_start (owners j)) [] (length (owners j)) 0 None None [].

Definition set_ret (r : option werror) (s : wstate) : wstate :=
  mkWS (ws_go s) (ws_ch s) (ws_left s) (ws_wrote s) (ws_writeError s) (Some r) (ws_log s).

Inductive wevent :=
| GoCall (i : nat) (r : option werror)
| GoSend (i : nat)
| Recv
| Closing
| Timeout
| LoopEnd.

(** One iteration of the loop that received [r]. *)
Definition on_result (j : job) (r : option werror) (s : wstate) : wstate * list (counter * Z) :=
  match r with
  | Some e =>
      (mkWS (ws_go s) (ws_ch s) (ws_left s) (ws_wrote s)
         (match ws_writeError s with None => Some e | Some e0 => Some e0 end) (ws_ret s) (ws_log s),
       [(WriteErr, 1)])
  | None =>
      let wrote := ws_wrote s + 1 in
      let s' := mkWS (ws_go s) (ws_ch s) (ws_left s) wrote (ws_writeError s) (ws_ret s) (ws_log s) in
      if required j <=? wrote then (set_ret None s', [(WriteOK, 1)]) else (s', [])
  end.

(** What follows the loop. *)
Definition after_loop (s : wstate) : option werror * list (counter * Z) :=
  if 0 <? ws_wrote s then (Some ErrPartialWrite, [(WritePartial, 1)])
  else match ws_writeError s with
       | Some e => (Some (WriteFailedWith e), [])
       | None => (Some ErrWriteFailed, [])
       end.

(** One step of a goroutine or of the caller, with the counters it adds to;
    [None] when the event cannot happen in the state. *)
Definition wstep (j : job) (s : wstate) (e : wevent) : option (wstate * list (counter * Z)) :=
  match e with
  | GoCall i r =>
      match owners j !! i, ws_go s !! i with
      | Some o, Some p =>
          match pending_call j o p with
          | Some k =>
              Some (mkWS (<[i := go_on j p r]> (ws_go s)) (ws_ch s) (ws_left s) (ws_wrote s)
                      (ws_writeError s) (ws_ret s) (ws_log s ++ [(i, k, r)]), go_stats j p r)
          | None => None
          end
      | _, _ => None
      end
  | GoSend i =>
      match owners j !! i, ws_go s !! i with
      | Some o, Some (AtSend r) =>
          if (length (ws_ch s) <? length (owners j))%nat then
            Some (mkWS (<[i := Finished r]> (ws_go s)) (ws_ch s ++ [(o, r)]) (ws_left s) (ws_wrote s)
                    (ws_writeError s) (ws_ret s) (ws_log s), [])
          else None
      | _, _ => None
      end
  | Recv =>
      match ws_ret s, ws_left s, ws_ch s with
      | None, S n, (_, r) :: ch' =>
          Some (on_result j r (mkWS (ws_go s) ch' n (ws_wrote s) (ws_writeError s) None (ws_log s)))
      | _, _, _ => None
      end
  | Closing =>
      match ws_ret s, ws_left s with
      | None, S _ => Some (set_ret (Some ErrWriteFailed) s, [])
      | _, _ => None
      end
  | Timeout =>
      match ws_ret s, ws_left s with
      | None, S _ => Some (set_ret (Some ErrTimeout) s, [(WriteTimeout, 1)])
      | _, _ => None
      end
  | LoopEnd =>
      match ws_ret s, ws_left s with
      | None, O => let '(r, cs) := after_loop s in Some (set_ret r s, cs)
      | _, _ => None
      end
  end.

(** The states some interleaving leads to. *)
Inductive wreach (j : job) : wstate -> Prop :=
| wreach_start : wreach j (wstart j)
| wreach_step s e s' cs : wreach j s -> wstep j s e = Some (s', cs) -> wreach j s'.

Fixpoint wrun (j : job) (s : wstate) (evs : list wevent) : option wstate :=
  match evs with
  | [] => Some s
  | e :: evs' => match wstep j s e with Some (s', _) => wrun j s' evs' | None => None end
  end.

(** ** Invariant *)

Definition ok_count (l : list (Z * option werror)) : Z :=
  zlen (filter (fun x => x.2 = None) l).

Definition first_error (l : list (Z * option werror)) : option werror :=
  head (omap snd l).

(** Owner number [i] has the points: its store or node took them or, at level
    ANY, hinted handoff did. *)
Definition accepted (j : job) (log : list (nat * call * option werror)) (i : nat) : Prop :=
  exists o, owners j !! i = Some o
    /\ (if w_Node_ID w =? o then (i, StoreWrite (si_ID (j_shard j)) (j_points j), None) ∈ log
        else (i, RemoteWrite (si_ID (j_shard j)) o (j_points j), None) ∈ log
             \/ (j_consistency j = ConsistencyLevelAny
                 /\ (i, HandoffWrite (si_ID (j_shard j)) o (j_points j), None) ∈ log)).

(** A failed write to a remote owner was offered to hinted handoff. *)
Definition offered (j : job) (log : list (nat * call * option werror)) (i : nat) : Prop :=
  exists o r, owners j !! i = Some o /\ (i, HandoffWrite (si_ID (j_shard j)) o (j_points j), r) ∈ log.

Definition succeeded (p : phase) : bool := match p with AtSend None | Finished None => true | _ => false end.

(** What the calls recorded say about a goroutine at phase [p]; its owner has
    accepted the points exactly if it is about to say so or has. *)
Definition phase_ok (j : job) (log : list (nat * call * option werror)) (i : nat) (p : phase) : Prop :=
  exists o, owners j !! i = Some o /\
  match p with
  | AtWrite | AtCreate | AtRewrite => w_Node_ID w = o
  | AtRemote => w_Node_ID w <> o
  | AtHandoff _ => w_Node_ID w <> o /\ w_HintedHandoff w = true
  | AtSend None | Finished None => True
  | AtSend (Some _) | Finished (Some _) =>
      w_Node_ID w <> o -> w_HintedHandoff w = true -> offered j log i
  end /\ (accepted j log i <-> succeeded p = true).

Definition is_finished (p : phase) : bool := match p with Finished _ => true | _ => false end.

(** [order] lists the goroutines that have sent, in the order of the channel;
    [rcv] is what the caller has received. *)
Definition sent_by (j : job) (go : list phase) (i : nat) (x : Z * option werror) : Prop :=
  owners j !! i = Some x.1 /\ go !! i = Some (Finished x.2).

Definition ret_ok (j : job) (rcv : list (Z * option werror)) (r : option werror) : Prop :=
  match r with
  | None => required j <= ok_count rcv
  | Some ErrPartialWrite => length rcv = length (owners j) /\ 0 < ok_count rcv < required j
  | Some (WriteFailedWith e) =>
      length rcv = length (owners j) /\ ok_count rcv = 0 /\ first_error rcv = Some e
  | Some ErrTimeout => (length rcv < length (owners j))%nat
  | Some ErrWriteFailed => (length rcv < length (owners j))%nat \/ owners j = []
  | Some _ => False
  end.

Record winv (j : job) (s : wstate) (order : list nat) (rcv : list (Z * option werror)) : Prop := {
  wi_len : length (ws_go s) = length (owners j);
  wi_nodup : NoDup order;
  wi_sent : Forall2 (sent_by j (ws_go s)) order (rcv ++ ws_ch s);
  wi_all : forall i r, ws_go s !! i = Some (Finished r) -> i ∈ order;
  wi_left : (ws_left s + length rcv = length (owners j))%nat;
  wi_wrote : ws_wrote s = ok_count rcv;
  wi_err : ws_writeError s = first_error rcv;
  wi_low : ws_ret s = None -> ok_count rcv < Z.max 1 (required j);
  wi_ret : forall r, ws_ret s = Some r -> ret_ok j rcv r;
  wi_phase : forall i p, ws_go s !! i = Some p -> phase_ok j (ws_log s) i p }.

(** ** Every step keeps the invariant *)

Lemma ok_count_snoc l o r : ok_count (l ++ [(o, r)]) = ok_count l + match r with None => 1 | Some _ => 0 end.
Proof.
  unfold ok_count. rewrite filter_app, zlen_app. f_equal. destruct r; reflexivity.
Qed.

Lemma ok_count_nonneg l : 0 <= ok_count l.
Proof. apply zlen_nonneg. Qed.

Lemma first_error_snoc l o r :
  first_error (l ++ [(o, r)]) = match first_error l with Some e => Some e | None => r end.
Proof.
  unfold first_error. rewrite omap_app. destruct (omap snd l) as [|e k]; [|reflexivity].
  cbn. destruct r; reflexivity.
Qed.

(** A call by another goroutine tells nothing about owner [i]. *)
Lemma accepted_other j log n k r i : n <> i -> accepted j (log ++ [(n, k, r)]) i <-> accepted j log i.
Proof.
  intros Hn. assert (forall k', (i, k', None) ∈ log ++ [(n, k, r)] <-> (i, k', None) ∈ log) as E.
  { intros k'. rewrite elem_of_app, list_elem_of_singleton. split; [intros [H|[=]]; [exact H|congruence]|auto]. }
  split; intros (o & Ho & H); exists o; (split; [exact Ho|]);
    (destruct (w_Node_ID w =? o); [apply E, H|destruct H as [H|[L H]]; [left|right; split; [exact L|]]; apply E, H]).
Qed.

Lemma offered_mono j log x i : offered j log i -> offered j (log ++ [x]) i.
Proof. intros (o & r & Ho & H). exists o, r. rewrite elem_of_app. tauto. Qed.

Lemma phase_ok_other j log n k r i p : n <> i -> phase_ok j log i p -> phase_ok j (log ++ [(n, k, r)]) i p.
Proof.
  intros Hn (o & Ho & H & A). exists o. split; [exact Ho|]. rewrite (accepted_other _ _ _ _ _ _ Hn). split; [|exact A].
  destruct p as [| | | |e|[e|]|[e|]]; auto using offered_mono.
Qed.

(** The calls whose success is an acceptance. *)
Definition accepting (j : job) (o : Z) (k : call) : Prop :=
  if w_Node_ID w =? o then k = StoreWrite (si_ID (j_shard j)) (j_points j)
  else k = RemoteWrite (si_ID (j_shard j)) o (j_points j)
       \/ (j_consistency j = ConsistencyLevelAny /\ k = HandoffWrite (si_ID (j_shard j)) o (j_points j)).

Lemma accepted_snoc j log i o k r :
  owners j !! i = Some o -> accepted j (log ++ [(i, k, r)]) i <-> accepted j log i \/ (r = None /\ accepting j o k).
Proof.
  intros Ho. assert (forall k', (i, k', None) ∈ log ++ [(i, k, r)] <-> (i, k', None) ∈ log \/ (r = None /\ k = k')) as E.
  { intros k'. rewrite elem_of_app, list_elem_of_singleton. split; (intros [H|H]; [auto|]); [injection H as <- <-; auto|destruct H as [-> ->]; auto]. }
  unfold accepted, accepting. split.
  - intros (o' & Ho' & H). rewrite Ho in Ho'. injection Ho' as <-. destruct (w_Node_ID w =? o) eqn:En.
    + apply E in H as [H|H]; [left; exists o; rewrite En; auto|auto].
    + destruct H as [H|[L H]]; apply E in H as [H|[-> ->]]; auto; left; exists o; rewrite En; auto.
  - intros [(o' & Ho' & H)|[-> H]]; [exists o'|exists o]; (split; [assumption|]).
    + destruct (w_Node_ID w =? o'); [apply E; auto|destruct H as [H|[L H]]; [left|right; split; [exact L|]]; apply E; auto].
    + destruct (w_Node_ID w =? o); [apply E; auto|destruct H as [H|[L H]]; [left|right; split; [exact L|]]; apply E; auto].
Qed.

Lemma phase_ok_go_on j log i o p k r :
  owners j !! i = Some o -> phase_ok j log i p -> pending_call j o p = Some k ->
  phase_ok j (log ++ [(i, k, r)]) i (go_on j p r).
Proof.
  intros Ho (o' & Ho' & H & A) Hk. rewrite Ho in Ho'. injection Ho' as <-.
  assert (forall r, (i, k, r) ∈ log ++ [(i, k, r)]) as Hin by (intros r'; rewrite elem_of_app, list_elem_of_singleton; tauto).
  assert (~ accepted j log i) as NA by (intros X; apply A in X; destruct p as [| | | |e|[e|]|[e|]]; cbn in *; discriminate).
  exists o. split; [exact Ho|]. rewrite (accepted_snoc _ _ _ _ _ _ Ho). unfold accepting.
  destruct p as [| | | |e|[e|]|[e|]]; cbn in Hk; try discriminate Hk; injection Hk as <-; cbn [go_on] in *.
  - rewrite H, Z.eqb_refl. destruct (decide (r = Some ErrShardNotFound)) as [->|Hr]; [split; [reflexivity|cbn; intuition congruence]|].
    destruct r as [e|]; cbn; (split; [congruence || exact I|intuition congruence]).
  - rewrite H, Z.eqb_refl. destruct r; cbn; (split; [congruence|intuition congruence]).
  - rewrite H, Z.eqb_refl. destruct r; cbn; (split; [congruence || exact I|intuition congruence]).
  - pose proof H as Hne. apply Z.eqb_neq in H as ->. destruct r as [e|]; [|cbn; split; [exact I|intuition congruence]].
    destruct (w_HintedHandoff w) eqn:E; cbn; (split; [auto; congruence|intuition congruence]).
  - destruct H as [Hn Hh]. pose proof Hn as Hne. apply Z.eqb_neq in Hn as ->.
    destruct r as [e'|]; [|destruct (decide (j_consistency j = ConsistencyLevelAny)) as [Hl|Hl]]; cbn.
    + split; [intros _ _; exists o, (Some e'); auto|intuition congruence].
    + split; [exact I|intuition congruence].
    + split; [intros _ _; exists o, None; auto|intuition congruence].
Qed.

Lemma sent_by_insert j go i p l k :
  (forall r, go !! i <> Some (Finished r)) ->
  Forall2 (sent_by j go) l k -> Forall2 (sent_by j (<[i := p]> go)) l k.
Proof.
  intros Hi H. eapply Forall2_impl; [exact H|]. intros n x [Ho Hf]. split; [exact Ho|].
  rewrite list_lookup_insert_ne; [exact Hf|]. intros ->. exact (Hi _ Hf).
Qed.

Lemma Forall2_elem_l {A B} (P : A -> B -> Prop) l k x :
  Forall2 P l k -> x ∈ l -> exists y, y ∈ k /\ P x y.
Proof.
  intros H Hx. apply list_elem_of_lookup in Hx as [i Hi].
  destruct (Forall2_lookup_l _ _ _ _ _ H Hi) as (y & Hy & HP). exists y. split; [|exact HP].
  eapply list_elem_of_lookup_2; eassumption.
Qed.

Lemma pending_not_finished j o p k r : pending_call j o p = Some k -> p <> Finished r.
Proof. destruct p; cbn; congruence. Qed.

Lemma go_on_not_finished j o p k r r' : pending_call j o p = Some k -> go_on j p r <> Finished r'.
Proof.
  destruct p; cbn; intros H; try discriminate H; repeat case_decide; try destruct r; try destruct (w_HintedHandoff w);
    repeat case_decide; congruence.
Qed.

Lemma winv_start j : winv j (wstart j) [] [].
Proof.
  split; cbn; try done; try lia.
  - apply length_map.
  - constructor.
  - intros i r Hi. rewrite list_lookup_fmap in Hi. destruct (owners j !! i); [|discriminate].
    cbn in Hi. unfold go_start in Hi. destruct (w_Node_ID w =? z); discriminate.
  - intros _. change (ok_count []) with 0. lia.
  - intros i p Hi. rewrite list_lookup_fmap in Hi. destruct (owners j !! i) as [o|] eqn:Ho; [|discriminate].
    exists o. split; [exact Ho|]. cbn in Hi. injection Hi as <-.
    assert (~ accepted j [] i) as NA.
    { intros (o' & _ & A). destruct (_ =? o'); [|destruct A as [A|[_ A]]]; exact (not_elem_of_nil _ A). }
    unfold go_start. destruct (Z.eqb_spec (w_Node_ID w) o); (split; [assumption|]); (split; [tauto|discriminate]).
Qed.

Lemma winv_call j s i r s' cs order rcv :
  winv j s order rcv -> wstep j s (GoCall i r) = Some (s', cs) -> winv j s' order rcv.
Proof.
  intros [] H. cbn [wstep] in H. destruct (owners j !! i) as [o|] eqn:Ho; [|discriminate].
  destruct (ws_go s !! i) as [p|] eqn:Hp; [|discriminate].
  destruct (pending_call j o p) as [k|] eqn:Hk; [|discriminate]. injection H as <- _. split; cbn; try done.
  - rewrite length_insert. assumption.
  - apply sent_by_insert; [|assumption]. intros r' E. rewrite Hp in E. injection E as ->. discriminate Hk.
  - intros n r' Hn. destruct (decide (n = i)) as [->|Hne].
    + rewrite list_lookup_insert_eq in Hn by (eapply lookup_lt_Some; eassumption). injection Hn as Hn.
      exfalso. eapply go_on_not_finished; eassumption.
    + rewrite list_lookup_insert_ne in Hn by congruence. eauto.
  - intros n q Hn. destruct (decide (n = i)) as [->|Hne].
    + rewrite list_lookup_insert_eq in Hn by (eapply lookup_lt_Some; eassumption). injection Hn as <-.
      eapply phase_ok_go_on; eauto.
    + rewrite list_lookup_insert_ne in Hn by congruence. apply phase_ok_other; [congruence|auto].
Qed.

Lemma winv_send j s i s' cs order rcv :
  winv j s order rcv -> wstep j s (GoSend i) = Some (s', cs) -> winv j s' (order ++ [i]) rcv.
Proof.
  intros [] H. cbn [wstep] in H. destruct (owners j !! i) as [o|] eqn:Ho; [|discriminate].
  destruct (ws_go s !! i) as [[| | | | |r|]|] eqn:Hp; try discriminate.
  destruct (Nat.ltb_spec (length (ws_ch s)) (length (owners j))); [|discriminate]. injection H as <- _.
  assert (i < length (ws_go s))%nat as Hi by (eapply lookup_lt_Some; eassumption).
  split; cbn; try done.
  - rewrite length_insert. assumption.
  - apply NoDup_app. split; [assumption|]. split; [|apply NoDup_singleton].
    intros n Hn Hn'. apply list_elem_of_singleton in Hn' as ->.
    destruct (Forall2_elem_l _ _ _ _ wi_sent0 Hn) as (x & _ & _ & Hx). congruence.
  - rewrite app_assoc. apply Forall2_app; [apply sent_by_insert; [congruence|assumption]|].
    constructor; [|constructor]. split; cbn; [exact Ho|]. apply list_lookup_insert_eq. exact Hi.
  - intros n r' Hn. rewrite elem_of_app, list_elem_of_singleton. destruct (decide (n = i)) as [->|Hne]; [tauto|].
    rewrite list_lookup_insert_ne in Hn by congruence. left. eauto.
  - intros n q Hn. destruct (decide (n = i)) as [->|Hne].
    + rewrite list_lookup_insert_eq in Hn by exact Hi. injection Hn as <-. exact (wi_phase0 _ _ Hp).
    + rewrite list_lookup_insert_ne in Hn by congruence. auto.
Qed.

Lemma winv_recv j s s' cs order rcv :
  winv j s order rcv -> wstep j s Recv = Some (s', cs) -> exists x, winv j s' order (rcv ++ [x]).
Proof.
  intros [] H. cbn [wstep] in H. destruct (ws_ret s) eqn:Hret; [discriminate|].
  destruct (ws_left s) as [|n] eqn:Hl; [discriminate|]. destruct (ws_ch s) as [|[o r] ch] eqn:Hch; [discriminate|].
  assert (rcv ++ (o, r) :: ch = (rcv ++ [(o, r)]) ++ ch) as E by (rewrite <- app_assoc; reflexivity).
  rewrite E in wi_sent0. specialize (wi_low0 eq_refl).
  exists (o, r). unfold on_result in H. destruct r as [e|]; cbn [ws_wrote] in H.
  - injection H as <- _. split; cbn; try done.
    + rewrite length_app. cbn. lia.
    + rewrite ok_count_snoc. cbn. lia.
    + rewrite wi_err0, first_error_snoc. destruct (first_error rcv); reflexivity.
    + intros _. rewrite ok_count_snoc. cbn. lia.
  - destruct (Z.leb_spec (required j) (ws_wrote s + 1)); injection H as <- _; split; cbn;
      rewrite ?ok_count_snoc, ?first_error_snoc, ?length_app; cbn; try done; try lia.
    + destruct (first_error rcv); congruence.
    + intros r [= <-]. cbn. rewrite ok_count_snoc. cbn. lia.
    + destruct (first_error rcv); congruence.
Qed.

Lemma winv_set_ret j s r order rcv :
  winv j s order rcv -> ret_ok j rcv r -> winv j (set_ret r s) order rcv.
Proof. intros [] H. split; cbn; try done. intros r' [= <-]. exact H. Qed.

Lemma ret_ok_after_loop j s order rcv :
  winv j s order rcv -> ws_ret s = None -> ws_left s = O -> ret_ok j rcv (after_loop s).1.
Proof.
  intros [] Hret Hl. specialize (wi_low0 Hret). rewrite Hl in wi_left0. cbn [Nat.add] in wi_left0. unfold after_loop. rewrite wi_wrote0, wi_err0.
  pose proof (ok_count_nonneg rcv). destruct (Z.ltb_spec 0 (ok_count rcv)); cbn [fst ret_ok]; [lia|].
  destruct (first_error rcv) as [e|] eqn:He; cbn [fst ret_ok]; [split; [exact wi_left0|split; [lia|exact He]]|]. right.
  destruct rcv as [|[o [e|]] k]; [|discriminate He|].
  - cbn in wi_left0. apply length_zero_iff_nil. lia.
  - exfalso. unfold ok_count in *. rewrite filter_cons_True in * by reflexivity. zlen_lia.
Qed.

Lemma winv_step j s e s' cs order rcv :
  winv j s order rcv -> wstep j s e = Some (s', cs) ->
  exists order' rcv', winv j s' order' rcv' /\ (length rcv <= length rcv')%nat.
Proof.
  intros I H. destruct e as [i r|i| | | |].
  - exists order, rcv. split; [eapply winv_call; eassumption|lia].
  - exists (order ++ [i]), rcv. split; [eapply winv_send; eassumption|lia].
  - destruct (winv_recv _ _ _ _ _ _ I H) as [x Hx]. exists order, (rcv ++ [x]). split; [exact Hx|].
    rewrite length_app. lia.
  - pose proof (wi_left _ _ _ _ I). cbn [wstep] in H. destruct (ws_ret s), (ws_left s) eqn:Hl; try discriminate.
    injection H as <- _. exists order, rcv. split; [|lia]. apply winv_set_ret; [exact I|]. cbn. lia.
  - pose proof (wi_left _ _ _ _ I). cbn [wstep] in H. destruct (ws_ret s), (ws_left s) eqn:Hl; try discriminate.
    injection H as <- _. exists order, rcv. split; [|lia]. apply winv_set_ret; [exact I|]. cbn. lia.
  - cbn [wstep] in H. destruct (ws_ret s) eqn:Hr, (ws_left s) eqn:Hl; try discriminate.
    pose proof (ret_ok_after_loop _ _ _ _ I Hr Hl) as R. destruct (after_loop s) as [r c]. injection H as <- _.
    exists order, rcv. split; [|lia]. apply winv_set_ret; assumption.
Qed.

Lemma winv_reach j s : wreach j s -> exists order rcv, winv j s order rcv.
Proof.
  induction 1 as [|s e s' cs _ (order & rcv & I) H].
  - exists [], []. apply winv_start.
  - destruct (winv_step _ _ _ _ _ _ _ I H) as (order' & rcv' & I' & _). eauto.
Qed.

(** ** What a result of the write means *)

Lemma successes (P : nat -> Z * option werror -> Prop) order l :
  NoDup order -> Forall2 P order l ->
  exists got, NoDup got /\ zlen got = ok_count l /\ Forall (fun i => i ∈ order /\ exists o, P i (o, None)) got.
Proof.
  intros Hn H. induction H as [|i [o r] order l Hx H IH]; [exists []; repeat constructor|].
  apply NoDup_cons in Hn as [Hi Hn]. destruct (IH Hn) as (got & N & L & F).
  assert (Forall (fun n => n ∈ i :: order /\ exists o, P n (o, None)) got) as F'.
  { eapply Forall_impl; [exact F|]. intros n [Hm HP]. split; [right; exact Hm|exact HP]. }
  unfold ok_count in *. destruct r as [e|].
  - exists got. rewrite filter_cons_False by (cbn; discriminate). auto.
  - exists (i :: got). rewrite filter_cons_True by reflexivity. rewrite !zlen_cons, L. split; [|split; [lia|]].
    + constructor; [|exact N]. intros Hin. rewrite Forall_forall in F. destruct (F i Hin). contradiction.
    + constructor; [|exact F']. split; [left|eauto].
Qed.

Lemma winv_accepted j s order rcv :
  winv j s order rcv ->
  exists got, NoDup got /\ zlen got = ok_count rcv /\ Forall (accepted j (ws_log s)) got
    /\ Forall (fun i => ws_go s !! i = Some (Finished None)) got.
Proof.
  intros []. pose proof wi_sent0 as H. apply Forall2_app_inv_r in H as (l1 & l2 & H1 & H2 & ->).
  apply NoDup_app in wi_nodup0 as (N1 & _ & _). destruct (successes _ _ _ N1 H1) as (got & N & L & F).
  exists got. split; [exact N|]. split; [exact L|]. split; eapply Forall_impl; try exact F; intros i (_ & o & Ho & Hf); [|exact Hf].
  destruct (wi_phase0 _ _ Hf) as (o' & _ & _ & A). apply A. reflexivity.
Qed.

Lemma order_lt j s order rcv i : winv j s order rcv -> i ∈ order -> (i < length (owners j))%nat.
Proof.
  intros [] Hi. destruct (Forall2_elem_l _ _ _ _ wi_sent0 Hi) as (x & _ & Ho & _). eapply lookup_lt_Some; eassumption.
Qed.

Lemma order_length j s order rcv : winv j s order rcv -> length order = (length rcv + length (ws_ch s))%nat.
Proof. intros []. apply Forall2_length in wi_sent0. rewrite wi_sent0, length_app. reflexivity. Qed.

Lemma order_room j s order rcv i p :
  winv j s order rcv -> ws_go s !! i = Some p -> is_finished p = false -> (length order < length (owners j))%nat.
Proof.
  intros I Hp Hf. assert (i ∉ order) as Hi.
  { intros Hi. destruct (Forall2_elem_l _ _ _ _ (wi_sent _ _ _ _ I) Hi) as (x & _ & _ & Hx).
    rewrite Hp in Hx. injection Hx as ->. discriminate Hf. }
  assert (i < length (owners j))%nat as Hlt.
  { rewrite <- (wi_len _ _ _ _ I). eapply lookup_lt_Some. exact Hp. }
  assert (i :: order ⊆+ seq 0 (length (owners j))) as Hs.
  { apply NoDup_submseteq.
    - constructor; [exact Hi|exact (wi_nodup _ _ _ _ I)].
    - intros n Hn. apply elem_of_seq. apply elem_of_cons in Hn as [->|Hn]; [lia|].
      pose proof (order_lt _ _ _ _ _ I Hn). lia. }
  apply submseteq_length in Hs. rewrite length_seq in Hs. cbn in Hs. lia.
Qed.

Lemma order_full j s order rcv :
  winv j s order rcv -> Forall (fun p => is_finished p = true) (ws_go s) -> length order = length (owners j).
Proof.
  intros I Hall. apply Nat.le_antisymm.
  - assert (order ⊆+ seq 0 (length (owners j))) as Hs.
    { apply NoDup_submseteq; [exact (wi_nodup _ _ _ _ I)|]. intros n Hn. apply elem_of_seq.
      pose proof (order_lt _ _ _ _ _ I Hn). lia. }
    apply submseteq_length in Hs. rewrite length_seq in Hs. exact Hs.
  - assert (seq 0 (length (owners j)) ⊆+ order) as Hs.
    { apply NoDup_submseteq; [apply NoDup_seq|]. intros n Hn. apply elem_of_seq in Hn.
      destruct (lookup_lt_is_Some_2 (ws_go s) n) as [p Hp]; [rewrite (wi_len _ _ _ _ I); lia|].
      rewrite Forall_forall in Hall. specialize (Hall p (list_elem_of_lookup_2 _ _ _ Hp)).
      destruct p; try discriminate Hall. exact (wi_all _ _ _ _ I _ _ Hp). }
    apply submseteq_length in Hs. rewrite length_seq in Hs. exact Hs.
Qed.

Lemma all_received j s order rcv :
  winv j s order rcv -> length rcv = length (owners j) -> Forall (fun p => is_finished p = true) (ws_go s).
Proof.
  intros I Hr. apply Forall_forall. intros p Hp. apply list_elem_of_lookup in Hp as [i Hp].
  destruct (is_finished p) eqn:E; [reflexivity|]. exfalso.
  pose proof (order_room _ _ _ _ _ _ I Hp E). rewrite (order_length _ _ _ _ I) in H. lia.
Qed.

Lemma all_failed j s order rcv :
  winv j s order rcv -> length rcv = length (owners j) -> ok_count rcv = 0 ->
  Forall (fun p => exists e, p = Finished (Some e)) (ws_go s).
Proof.
  intros I Hr Hz. pose proof (all_received _ _ _ _ I Hr) as A. pose proof (order_full _ _ _ _ I A) as L.
  rewrite (order_length _ _ _ _ I) in L. assert (ws_ch s = []) as Hch by (apply length_zero_iff_nil; lia).
  rewrite Forall_forall in *. intros p Hp. specialize (A p Hp). destruct p as [| | | | | |[e|]]; try discriminate A; [eauto|].
  exfalso. apply list_elem_of_lookup in Hp as [i Hp].
  destruct (Forall2_elem_l _ _ _ _ (wi_sent _ _ _ _ I) (wi_all _ _ _ _ I _ _ Hp)) as ([o r] & Hx & _ & Hf).
  rewrite Hch, app_nil_r in Hx. rewrite Hp in Hf. injection Hf as <-. unfold ok_count in Hz.
  assert ((o, @None werror) ∈ filter (fun x => x.2 = None) rcv) as Hin by (apply list_elem_of_filter; auto).
  destruct (filter _ rcv); [apply elem_of_nil in Hin; exact Hin|]. zlen_lia.
Qed.

(** What [writeToShard] promises when the step [e] of the caller from [s] to
    [s'] returns [r]. *)
Definition outcome_ok (j : job) (e : wevent) (s s' : wstate) (r : option werror) : Prop :=
  match r with
  | None =>
      e = Recv /\ exists got, NoDup got /\ required j <= zlen got /\ Forall (accepted j (ws_log s')) got
  | Some ErrPartialWrite =>
      e = LoopEnd /\ Forall (fun p => is_finished p = true) (ws_go s')
      /\ exists got, NoDup got /\ 0 < zlen got < required j /\ forall i, accepted j (ws_log s') i <-> i ∈ got
  | Some (WriteFailedWith err) =>
      e = LoopEnd /\ Forall (fun p => exists e', p = Finished (Some e')) (ws_go s') /\ Finished (Some err) ∈ ws_go s'
      /\ forall i, ~ accepted j (ws_log s') i
  | Some ErrTimeout => e = Timeout /\ ws_wrote s < required j
  | Some ErrWriteFailed => (e = Closing /\ ws_wrote s < required j) \/ (e = LoopEnd /\ owners j = [])
  | Some _ => False
  end.

Lemma first_error_in l e : first_error l = Some e -> exists o, (o, Some e) ∈ l.
Proof.
  intros H. unfold first_error in H. destruct (omap snd l) as [|e' k] eqn:E; [discriminate|]. injection H as ->.
  assert (e ∈ omap snd l) as Hin by (rewrite E; left). apply list_elem_of_omap in Hin as ([o r] & Hin & Hr).
  cbn in Hr. subst r. eauto.
Qed.

Lemma ret_reach j s r : wreach j s -> ws_ret s = Some r -> exists order rcv, winv j s order rcv /\ ret_ok j rcv r.
Proof. intros H Hr. destruct (winv_reach _ _ H) as (order & rcv & I). exists order, rcv. split; [exact I|exact (wi_ret _ _ _ _ I _ Hr)]. Qed.

Lemma nil_accepted j s :
  wreach j s -> ws_ret s = Some None ->
  exists got, NoDup got /\ required j <= zlen got /\ Forall (accepted j (ws_log s)) got.
Proof.
  intros H Hr. destruct (ret_reach _ _ _ H Hr) as (order & rcv & I & R). destruct (winv_accepted _ _ _ _ I) as (got & N & L & A & _).
  exists got. cbn in R. rewrite L. auto.
Qed.

(** Once all have answered, the owners that accepted are those that said so. *)
Lemma accepted_finished j s order rcv i :
  winv j s order rcv -> Forall (fun p => is_finished p = true) (ws_go s) ->
  accepted j (ws_log s) i <-> ws_go s !! i = Some (Finished None).
Proof.
  intros I All. split.
  - intros A. pose proof A as (o & Ho & _). destruct (lookup_lt_is_Some_2 (ws_go s) i) as [p Hp]; [rewrite (wi_len _ _ _ _ I); eapply lookup_lt_Some; exact Ho|].
    destruct (wi_phase _ _ _ _ I _ _ Hp) as (o' & _ & _ & S). apply S in A. rewrite Forall_forall in All.
    specialize (All p (list_elem_of_lookup_2 _ _ _ Hp)). destruct p as [| | | | |[]|[]]; cbn in *; congruence.
  - intros Hp. destruct (wi_phase _ _ _ _ I _ _ Hp) as (o' & _ & _ & S). apply S. reflexivity.
Qed.

(** What was received are all the answers there are. *)
Lemma received_accepted j s order rcv :
  winv j s order rcv -> length rcv = length (owners j) ->
  exists got, NoDup got /\ zlen got = ok_count rcv /\ forall i, accepted j (ws_log s) i <-> i ∈ got.
Proof.
  intros I Hr. pose proof (all_received _ _ _ _ I Hr) as All. pose proof (order_full _ _ _ _ I All) as L.
  rewrite (order_length _ _ _ _ I) in L. assert (ws_ch s = []) as Hch by (apply length_zero_iff_nil; lia).
  pose proof (wi_sent _ _ _ _ I) as S. rewrite Hch, app_nil_r in S. pose proof (wi_nodup _ _ _ _ I) as N.
  exists (List.filter (fun i => bool_decide (ws_go s !! i = Some (Finished None))) order). split; [|split].
  - apply NoDup_ListNoDup, List.NoDup_filter, NoDup_ListNoDup, N.
  - unfold ok_count. clear - S. induction S as [|i [o r] order rcv [_ Hf] S IH]; [reflexivity|]. cbn [List.filter] in *. cbn in Hf. rewrite Hf.
    destruct r as [e|]; [rewrite bool_decide_eq_false_2 by discriminate; rewrite filter_cons_False by (cbn; discriminate); exact IH|].
    rewrite bool_decide_eq_true_2 by reflexivity. rewrite filter_cons_True by reflexivity. rewrite !zlen_cons, IH. reflexivity.
  - intros i. rewrite (accepted_finished _ _ _ _ _ I All), list_elem_of_In, filter_In, bool_decide_eq_true, <- list_elem_of_In. split; [|tauto].
    intros Hp. split; [exact (wi_all _ _ _ _ I _ _ Hp)|exact Hp].
Qed.

Lemma required_pos j : owners j <> [] -> 1 <= required j.
Proof.
  intros H. assert (1 <= zlen (owners j)) by (destruct (owners j); [congruence|rewrite zlen_cons; pose proof (zlen_nonneg l); lia]).
  unfold required. destruct (j_consistency j); try lia. pose proof (Z.div_pos (zlen (owners j)) 2). lia.
Qed.

(** While the caller waits, fewer than required have said that they accepted. *)
Lemma wrote_low j s n : wreach j s -> ws_ret s = None -> ws_left s = S n -> ws_wrote s < required j.
Proof.
  intros H Hr Hl. destruct (winv_reach _ _ H) as (order & rcv & I). pose proof (wi_low _ _ _ _ I Hr). pose proof (wi_left _ _ _ _ I).
  rewrite (wi_wrote _ _ _ _ I). assert (1 <= required j); [|lia]. apply required_pos. intros E. rewrite E in *. cbn in *. lia.
Qed.

Lemma loop_end_outcome j s :
  wreach j s -> ws_ret s = None -> ws_left s = O -> outcome_ok j LoopEnd s (set_ret (after_loop s).1 s) (after_loop s).1.
Proof.
  intros H Hr Hl. destruct (winv_reach _ _ H) as (order & rcv & I). pose proof (ret_ok_after_loop _ _ _ _ I Hr Hl) as R.
  destruct (after_loop s).1 as [[| | | |e| | | | |]|] eqn:E; cbn in R |- *; try contradiction.
  - exfalso. unfold after_loop in E. destruct (0 <? _); [discriminate|]. destruct (ws_writeError s); discriminate.
  - destruct R as [R1 R2]. destruct (received_accepted _ _ _ _ I R1) as (got & N & L & A). split; [reflexivity|].
    split; [eapply all_received; eassumption|]. exists got. rewrite L. auto.
  - right. split; [reflexivity|]. destruct R as [R|R]; [|exact R]. pose proof (wi_left _ _ _ _ I). lia.
  - destruct R as (R1 & R2 & R3). destruct (received_accepted _ _ _ _ I R1) as (got & _ & L & A). split; [reflexivity|].
    split; [eapply all_failed; eassumption|]. split.
    + destruct (first_error_in _ _ R3) as [o Ho]. pose proof (wi_sent _ _ _ _ I) as S. apply Forall2_flip in S.
      destruct (Forall2_elem_l _ _ _ (o, Some e) S) as (i & _ & _ & Hi); [rewrite elem_of_app; auto|].
      eapply list_elem_of_lookup_2. exact Hi.
    + intros i Hi. apply A in Hi. rewrite R2 in L. destruct got; [apply elem_of_nil in Hi as []|]. zlen_lia.
  - exfalso. unfold after_loop in E. destruct (0 <? _); [discriminate|]. destruct (ws_writeError s); discriminate.
Qed.

Lemma step_outcome j s e s' cs r :
  wreach j s -> wstep j s e = Some (s', cs) -> ws_ret s = None -> ws_ret s' = Some r -> outcome_ok j e s s' r.
Proof.
  intros H E Hr Hr'. pose proof (wreach_step _ _ _ _ _ H E) as H'. destruct e as [i x|i| | | |]; cbn [wstep] in E.
  - destruct (owners j !! i); [|discriminate]. destruct (ws_go s !! i); [|discriminate]. destruct (pending_call _ _ _); [|discriminate].
    injection E as <- _. cbn in Hr'. congruence.
  - destruct (owners j !! i); [|discriminate]. destruct (ws_go s !! i) as [[| | | | |x|]|]; try discriminate. destruct (_ <? _)%nat; [|discriminate].
    injection E as <- _. cbn in Hr'. congruence.
  - assert (r = None) as ->.
    { rewrite Hr in E. destruct (ws_left s); [discriminate|]. destruct (ws_ch s) as [|[o [x|]] ch]; try discriminate; cbn [on_result ws_wrote] in E.
      - injection E as <- _. discriminate Hr'.
      - destruct (_ <=? _); injection E as <- _; cbn in Hr'; congruence. }
    split; [reflexivity|]. exact (nil_accepted _ _ H' Hr').
  - rewrite Hr in E. destruct (ws_left s) eqn:Hl; [discriminate|]. injection E as <- _. injection Hr' as <-. left. split; [reflexivity|]. eapply wrote_low; eassumption.
  - rewrite Hr in E. destruct (ws_left s) eqn:Hl; [discriminate|]. injection E as <- _. injection Hr' as <-. split; [reflexivity|]. eapply wrote_low; eassumption.
  - rewrite Hr in E. destruct (ws_left s) eqn:Hl; [|discriminate]. pose proof (loop_end_outcome _ _ H Hr Hl) as O. destruct (after_loop s) as [x c]. injection E as <- _.
    injection Hr' as <-. exact O.
Qed.

(** A result stands. *)
Lemma step_returned j s e s' cs r : wstep j s e = Some (s', cs) -> ws_ret s = Some r -> ws_ret s' = Some r.
Proof.
  intros E Hr. destruct e as [i x|i| | | |]; cbn [wstep] in E; try (rewrite Hr in E; discriminate).
  - destruct (owners j !! i); [|discriminate]. destruct (ws_go s !! i); [|discriminate]. destruct (pending_call _ _ _); [|discriminate]. injection E as <- _. exact Hr.
  - destruct (owners j !! i); [|discriminate]. destruct (ws_go s !! i) as [[| | | | |x|]|]; try discriminate. destruct (_ <? _)%nat; [|discriminate]. injection E as <- _. exact Hr.
Qed.

(** ** Termination *)

(** Calls and sends a goroutine still has to make, at most. *)
Definition weight (p : phase) : nat :=
  match p with
  | AtWrite => 4
  | AtCreate | AtRemote => 3
  | AtRewrite | AtHandoff _ => 2
  | AtSend _ => 1
  | Finished _ => 0
  end.

Definition work (s : wstate) : nat :=
  sum_list_with weight (ws_go s) + ws_left s + match ws_ret s with None => 1 | Some _ => 0 end.

Lemma weight_go_on j o p k r : pending_call j o p = Some k -> (weight (go_on j p r) < weight p)%nat.
Proof.
  destruct p; cbn; intros H; try discriminate H; repeat case_decide; try destruct r; try destruct (w_HintedHandoff w);
    repeat case_decide; cbn; lia.
Qed.

Lemma sum_insert (l : list phase) i p q :
  l !! i = Some p -> (sum_list_with weight (<[i := q]> l) + weight p = sum_list_with weight l + weight q)%nat.
Proof.
  revert i. induction l as [|x l IH]; intros [|i] H; try discriminate H.
  - injection H as ->. cbn. lia.
  - specialize (IH i H). change (<[S i := q]> (x :: l)) with (x :: <[i := q]> l). cbn [sum_list_with]. lia.
Qed.

Lemma work_step j s e s' cs : wstep j s e = Some (s', cs) -> (work s' < work s)%nat.
Proof.
  unfold work. destruct e as [i r|i| | | |]; cbn [wstep]; intros H.
  - destruct (owners j !! i) as [o|]; [|discriminate]. destruct (ws_go s !! i) as [p|] eqn:Hp; [|discriminate].
    destruct (pending_call j o p) as [k|] eqn:Hk; [|discriminate]. injection H as <- _. cbn [ws_go ws_left ws_ret].
    pose proof (sum_insert _ _ _ (go_on j p r) Hp). pose proof (weight_go_on _ _ _ _ r Hk). lia.
  - destruct (owners j !! i) as [o|]; [|discriminate].
    destruct (ws_go s !! i) as [[| | | | |r|]|] eqn:Hp; try discriminate.
    destruct (Nat.ltb_spec (length (ws_ch s)) (length (owners j))); [|discriminate]. injection H as <- _.
    cbn [ws_go ws_left ws_ret]. pose proof (sum_insert _ _ _ (Finished r) Hp) as E. cbn [weight] in E. lia.
  - destruct (ws_ret s) eqn:Hr; [discriminate|]. destruct (ws_left s) as [|n]; [discriminate|].
    destruct (ws_ch s) as [|[o [e|]] ch]; [discriminate| |]; cbn [on_result ws_wrote] in H.
    + injection H as <- _. cbn. lia.
    + destruct (_ <=? _); injection H as <- _; cbn; lia.
  - destruct (ws_ret s), (ws_left s) eqn:Hl; try discriminate. injection H as <- _. cbn. lia.
  - destruct (ws_ret s), (ws_left s) eqn:Hl; try discriminate. injection H as <- _. cbn. lia.
  - destruct (ws_ret s), (ws_left s) eqn:Hl; try discriminate. destruct (after_loop s). injection H as <- _. cbn. lia.
Qed.

Lemma work_run j evs s s' : wrun j s evs = Some s' -> (length evs + work s' <= work s)%nat.
Proof.
  revert s. induction evs as [|e evs IH]; intros s H; cbn in H |- *.
  - injection H as ->. lia.
  - destruct (wstep j s e) as [[s1 cs]|] eqn:E; [|discriminate]. pose proof (work_step _ _ _ _ _ E). specialize (IH _ H). lia.
Qed.

Lemma work_start j : (work (wstart j) <= 5 * length (owners j) + 1)%nat.
Proof.
  unfold work, wstart. cbn [ws_go ws_left ws_ret]. cut (sum_list_with weight (map go_start (owners j)) <= 4 * length (owners j))%nat; [lia|].
  induction (owners j) as [|o l IH]; cbn; [lia|]. unfold go_start at 1. destruct (w_Node_ID w =? o); cbn; lia.
Qed.

(** A goroutine that has not finished can always go on: whatever its call
    returns, and the channel has room for its outcome. *)
Lemma go_progress j s i p :
  wreach j s -> ws_go s !! i = Some p -> is_finished p = false ->
  (forall r, exists x, wstep j s (GoCall i r) = Some x) \/ (exists x, wstep j s (GoSend i) = Some x).
Proof.
  intros H Hp Hf. destruct (winv_reach _ _ H) as (order & rcv & I).
  pose proof (order_room _ _ _ _ _ _ I Hp Hf) as R. rewrite (order_length _ _ _ _ I) in R.
  assert (exists o, owners j !! i = Some o) as [o Ho].
  { apply lookup_lt_is_Some. rewrite <- (wi_len _ _ _ _ I). eapply lookup_lt_Some. exact Hp. }
  cbn [wstep]. rewrite Ho, Hp. destruct p as [| | | |e|r|r]; try discriminate Hf; try (left; intros r'; eexists; reflexivity).
  right. destruct (Nat.ltb_spec (length (ws_ch s)) (length (owners j))); [eexists; reflexivity|lia].
Qed.

Lemma caller_progress j s :
  wreach j s -> Forall (fun p => is_finished p = true) (ws_go s) -> ws_ret s = None ->
  exists e x, e <> Closing /\ e <> Timeout /\ wstep j s e = Some x.
Proof.
  intros H Ha Hr. destruct (winv_reach _ _ H) as (order & rcv & I).
  pose proof (order_full _ _ _ _ I Ha) as L. rewrite (order_length _ _ _ _ I) in L. pose proof (wi_left _ _ _ _ I).
  destruct (ws_left s) as [|n] eqn:Hl.
  - exists LoopEnd. cbn [wstep]. rewrite Hr, Hl. destruct (after_loop s). eexists. split; [done|]. split; done.
  - exists Recv. cbn [wstep]. rewrite Hr, Hl. destruct (ws_ch s) as [|[o r] ch]; [cbn in L; lia|].
    eexists. split; [done|]. split; [done|reflexivity].
Qed.

(** C26 (functional). Whatever the interleaving of the owners' goroutines with
    the caller and whatever their calls return, the result of [writeToShard] is
    truthful.  It returns nil only on receiving an answer, and then at least as many entries
    of the owner list as the consistency level asks for have accepted exactly these points for
    this shard; a partial write only when all owners have answered, and then those that
    accepted are some but fewer than required; "write failed" with an error only when all
    have answered and none accepted, with the error of one of them; a timeout
    only when the time is up, and [ErrWriteFailed] only when the writer is closed or the
    shard has no owner, in either case with fewer than required acceptances received.  No other
    result is possible, and a result stands.  Every failed write to a remote
    owner was offered to hinted handoff. *)
Theorem shard_write_outcome j s :
  wreach j s ->
  (forall e s' cs r, wstep j s e = Some (s', cs) ->
     (ws_ret s = None -> ws_ret s' = Some r -> outcome_ok j e s s' r) /\ (ws_ret s = Some r -> ws_ret s' = Some r))
  /\ (w_HintedHandoff w = true ->
      forall i o e, owners j !! i = Some o -> w_Node_ID w <> o -> ws_go s !! i = Some (Finished (Some e)) ->
      offered j (ws_log s) i).
Proof.
  intros H. split; [intros e s' cs r E; split; [intros H1 H2; exact (step_outcome _ _ _ _ _ _ H E H1 H2)|apply (step_returned _ _ _ _ _ _ E)]|].
  intros Hh i o e Ho Hn Hf. destruct (winv_reach _ _ H) as (order & rcv & I).
  destruct (wi_phase _ _ _ _ I _ _ Hf) as (o' & Ho' & O & _). rewrite Ho in Ho'. injection Ho' as <-. auto.
Qed.

End ShardWrite.

(** Three owners, the first of them this node: the local shard does not exist
    yet and is created, one remote owner accepts, the other refuses and the
    write is queued for it; at level QUORUM the caller returns nil. *)
Definition writer_ex : writer := mkWriter 1 true.
Definition job_ex : @job Z := mkJob (mkShard 7 [1; 2; 3]) "db" "rp" ConsistencyLevelQuorum [40; 41].
Definition events_ex : list wevent :=
  [GoCall 0 (Some ErrShardNotFound); GoCall 2 (Some (CallErr "refused")); GoCall 0 None; GoCall 1 None; GoSend 1;
   GoCall 0 None; Recv; GoSend 0; GoCall 2 None; GoSend 2; Recv].

Lemma wrun_reach {Point} w (j : @job Point) evs s s' : wreach w j s -> wrun w j s evs = Some s' -> wreach w j s'.
Proof.
  revert s. induction evs as [|e evs IH]; intros s H E; cbn in E; [injection E as <-; exact H|].
  destruct (wstep w j s e) as [[s1 cs]|] eqn:Es; [|discriminate]. apply (IH s1); [|exact E]. eapply wreach_step; eassumption.
Qed.

Lemma shard_write_outcome_witness :
  exists s s' cs, wrun writer_ex job_ex (wstart writer_ex job_ex) (take 10 events_ex) = Some s
    /\ wstep writer_ex job_ex s Recv = Some (s', cs) /\ ws_ret s = None /\ ws_ret s' = Some None
    /\ outcome_ok writer_ex job_ex Recv s s' None /\ offered job_ex (ws_log s) 2.
Proof.
  destruct (wrun writer_ex job_ex (wstart writer_ex job_ex) (take 10 events_ex)) as [s|] eqn:E; [|vm_compute in E; discriminate].
  destruct (shard_write_outcome writer_ex job_ex s (wrun_reach _ _ _ _ _ (wreach_start _ _) E)) as [A B].
  vm_compute in E. injection E as E. destruct (wstep writer_ex job_ex s Recv) as [[s' cs]|] eqn:Es; [|subst s; vm_compute in Es; discriminate].
  pose proof (A Recv s' cs None Es) as [A1 _]. exists s, s', cs. split; [subst s; reflexivity|]. split; [exact Es|].
  assert (ws_ret s = None /\ ws_ret s' = Some None) as [R R'] by (subst s; vm_compute in Es; injection Es as <- _; split; reflexivity).
  split; [exact R|]. split; [exact R'|]. split; [exact (A1 R R')|]. clear A A1.
  subst s. apply (B eq_refl 2%nat 3 (CallErr "refused")); [reflexivity|discriminate|reflexivity].
Defined.

(** All three answer, one of them with the points: a partial write at level QUORUM. *)
Example partial_write_ex :
  exists s, wrun writer_ex job_ex (wstart writer_ex job_ex)
    [GoCall 1 (Some (CallErr "refused")); GoCall 2 (Some (CallErr "refused")); GoCall 0 None; GoSend 0; GoCall 1 None; GoCall 2 None;
     GoSend 1; GoSend 2; Recv; Recv; Recv; LoopEnd] = Some s /\ ws_ret s = Some (Some ErrPartialWrite).
Proof. eexists. split; [vm_compute; reflexivity|reflexivity]. Qed.
