(* ===== verification/Values.v ===== *)
(** * Slices of timestamped values

    [tsdb/engine/tsm1/encoding.gen.go]: the same slice operations are generated
    for six value types.  They are modelled once, for a type with a timestamp,
    and instantiated below.  Sorting and copying are done in place in the code;
    the model gives the slice each operation returns, and writes out the index
    arithmetic and the element assignments.  Lengths are below 2^63, so that
    [uint(lo+hi)>>1] is the mean. *)

From S2P Require Import Prelude.

Section Values.
Context {V : Type} (UnixNano : V -> Z).

(** An index out of range panics. *)
Definition MinTime (a : list V) : option Z := UnixNano <$> a !! 0%nat.
Definition MaxTime (a : list V) : option Z := UnixNano <$> last a.

Definition Size (value_Size : V -> Z) (a : list V) : Z := fold_left (fun sz v => sz + value_Size v) a 0.

(** [for i := 1; i < len(a); i++] comparing each element with the one before. *)
Fixpoint ordered_from (prev : V) (a : list V) : bool :=
  match a with
  | [] => true
  | v :: a' => if UnixNano prev >=? UnixNano v then false else ordered_from v a'
  end.

Definition ordered (a : list V) : bool :=
  match a with [] => true | v :: a' => ordered_from v a' end.

(** [None] is the panic. *)
Definition assertOrdered (a : list V) : option unit := if ordered a then Some tt else None.

(** [sort.Stable] with the type's [Less]: equal timestamps keep their order. *)
Fixpoint insert_stable (v : V) (a : list V) : list V :=
  match a with
  | [] => [v]
  | w :: a' => if UnixNano v <=? UnixNano w then v :: a else w :: insert_stable v a'
  end.
Fixpoint stable_sort (a : list V) : list V :=
  match a with [] => [] | v :: a' => insert_stable v (stable_sort a') end.

(** The loop of [Deduplicate] over the sorted slice, [i] and [j] as in the
    code; [n] bounds the iterations. *)
Fixpoint dedup_loop (n : nat) (i j : nat) (a : list V) : list V :=
  match n with
  | O => take (S i) a
  | S n' =>
      match a !! j, a !! i with
      | Some v, Some w =>
          let i' := if UnixNano v =? UnixNano w then i else S i in
          dedup_loop n' i' (S j) (<[i' := v]> a)
      | _, _ => take (S i) a
      end
  end.

Definition Deduplicate (a : list V) : list V :=
  match a with
  | [] | [_] => a
  | _ =>
      let needSort := negb (ordered a) in
      if negb needSort then a else
      let s := stable_sort a in
      dedup_loop (length s - 1) 0 1 s
  end.

(** The binary search; [fuel] bounds the iterations. *)
Fixpoint search_loop (fuel : nat) (a : list V) (v lo hi : Z) : Z :=
  match fuel with
  | O => lo
  | S f =>
      if lo <? hi then
        let mid := (lo + hi) / 2 in
        match a !! Z.to_nat mid with
        | Some x => if UnixNano x <? v then search_loop f a v (mid + 1) hi else search_loop f a v lo mid
        | None => lo
        end
      else lo
  end.

Definition search (a : list V) (v : Z) : Z := search_loop (S (length a)) a v 0 (zlen a).

Definition FindRange (a : list V) (min max : Z) : Z * Z :=
  match a !! 0%nat, last a with
  | Some first, Some lst =>
      if min >? max then (-1, -1) else
      let minVal := UnixNano first in
      let maxVal := UnixNano lst in
      if (maxVal <? min) || (minVal >? max) then (-1, -1) else (search a min, search a max)
  | _, _ => (-1, -1)
  end.

Definition time_is (a : list V) (i t : Z) : bool :=
  match a !! Z.to_nat i with Some v => UnixNano v =? t | None => false end.

Definition Exclude (a : list V) (min max : Z) : list V :=
  let '(rmin, rmax) := FindRange a min max in
  if (rmin =? -1) && (rmax =? -1) then a else
  if rmax <? zlen a then
    let rmax' := if time_is a rmax max then rmax + 1 else rmax in
    let rest := zlen a - rmax' in
    if rest >? 0 then take (Z.to_nat rmin) a ++ drop (Z.to_nat rmax') a
    else take (Z.to_nat rmin) a
  else take (Z.to_nat rmin) a.

Definition Include (a : list V) (min max : Z) : list V :=
  let '(rmin, rmax) := FindRange a min max in
  if (rmin =? -1) && (rmax =? -1) then [] else
  let rmax' := if (rmax <? zlen a) && time_is a rmax max then rmax + 1 else rmax in
  if rmin >? -1 then take (Z.to_nat (rmax' - rmin)) (drop (Z.to_nat rmin) a)
  else take (Z.to_nat rmax') a.

(** The merge loop: one element leaves [a] or [b] per iteration. *)
Fixpoint merge_loop (fuel : nat) (a b out : list V) : list V :=
  match fuel with
  | O => out
  | S f =>
      match a, b with
      | x :: a', y :: b' =>
          if UnixNano x <? UnixNano y then merge_loop f a' b (out ++ [x])
          else if UnixNano x =? UnixNano y then merge_loop f a' b out
          else merge_loop f a b' (out ++ [y])
      | _ :: _, [] => out ++ a
      | [], _ => out ++ b
      end
  end.

Definition Merge (a b : list V) : list V :=
  match a, b with
  | [], _ => b
  | _, [] => a
  | _, _ =>
      let a := Deduplicate a in
      let b := Deduplicate b in
      match last a, b !! 0%nat, last b, a !! 0%nat with
      | Some la, Some fb, Some lb, Some fa =>
          if UnixNano la <? UnixNano fb then a ++ b
          else if UnixNano lb <? UnixNano fa then b ++ a
          else merge_loop (S (length a + length b)) a b []
      | _, _, _, _ => []
      end
  end.

Definition Less (a : list V) (i j : nat) : option bool :=
  x ← a !! i; y ← a !! j; Some (UnixNano x <? UnixNano y).
Definition Swap (a : list V) (i j : nat) : list V :=
  match a !! i, a !! j with Some x, Some y => <[j := x]> (<[i := y]> a) | _, _ => a end.

(** ** Meaning

    A slice stands for a map from timestamps to values, later elements
    overriding earlier ones. *)

Definition to_map (a : list V) : gmap Z V := fold_left (fun m v => <[UnixNano v := v]> m) a ∅.

(** Strictly increasing timestamps. *)
Definition increasing (a : list V) : Prop := StronglySorted (fun x y => UnixNano x < UnixNano y) a.

Lemma to_map_from m a : fold_left (fun m v => <[UnixNano v := v]> m) a m = to_map a ∪ m.
Proof.
  unfold to_map. revert m. induction a as [|v a IH]; intros m; cbn; [rewrite map_empty_union; reflexivity|].
  rewrite IH, (IH (<[UnixNano v := v]> ∅)), <- map_union_assoc. f_equal.
  rewrite insert_empty. apply insert_union_singleton_l.
Qed.

Lemma to_map_cons v a : to_map (v :: a) = to_map a ∪ {[UnixNano v := v]}.
Proof. unfold to_map at 1. cbn. rewrite to_map_from, insert_empty. reflexivity. Qed.

Lemma to_map_app a b : to_map (a ++ b) = to_map b ∪ to_map a.
Proof. unfold to_map at 1. rewrite fold_left_app. apply to_map_from. Qed.

Lemma to_map_None a t : Forall (fun v => UnixNano v <> t) a -> to_map a !! t = None.
Proof.
  induction 1 as [|v a Hv _ IH]; [apply lookup_empty|]. rewrite to_map_cons.
  apply lookup_union_None. split; [exact IH|]. apply lookup_singleton_ne. exact Hv.
Qed.

Lemma to_map_dom a t : is_Some (to_map a !! t) <-> exists v, v ∈ a /\ UnixNano v = t.
Proof.
  split.
  - induction a as [|v a IH]; [change (to_map []) with (∅ : gmap Z V); rewrite lookup_empty; intros [? [=]]|].
    rewrite to_map_cons. intros [x Hx]. apply lookup_union_Some_raw in Hx as [Hx|[_ Hx]].
    + destruct IH as (w & Hw & Ht); [eauto|]. exists w. split; [right; exact Hw|exact Ht].
    + apply lookup_singleton_Some in Hx as [<- _]. exists v. split; [left|reflexivity].
  - intros (v & Hv & <-). apply list_elem_of_split in Hv as (l & r & ->).
    rewrite to_map_app, to_map_cons. apply lookup_union_is_Some. left.
    apply lookup_union_is_Some. right. rewrite lookup_singleton_eq. eauto.
Qed.

(** *** ordered *)

Lemma ordered_from_increasing v a : ordered_from v a = true <-> increasing (v :: a).
Proof.
  revert v. induction a as [|w a IH]; intros v; cbn.
  - split; [intros _; repeat constructor|reflexivity].
  - destruct (Z.geb_spec (UnixNano v) (UnixNano w)) as [H|H].
    + split; [discriminate|]. intros Hs. apply StronglySorted_inv in Hs as [_ Hs]. apply Forall_inv in Hs. lia.
    + rewrite IH. split.
      * intros Hs. constructor; [exact Hs|]. apply StronglySorted_inv in Hs as [_ Hs]. constructor; [exact H|].
        eapply Forall_impl; [exact Hs|]. intros x Hx. cbn in *. lia.
      * intros Hs. apply StronglySorted_inv in Hs as [Hs _]. exact Hs.
Qed.

Lemma ordered_increasing a : ordered a = true <-> increasing a.
Proof. destruct a as [|v a]; [split; [constructor|reflexivity]|apply ordered_from_increasing]. Qed.

(** *** Sorting *)

Definition sorted_by_time (a : list V) : Prop := StronglySorted (fun x y => UnixNano x <= UnixNano y) a.

Lemma insert_stable_elem v a x : x ∈ insert_stable v a <-> x = v \/ x ∈ a.
Proof.
  induction a as [|w a IH]; cbn; [rewrite list_elem_of_singleton; set_solver|].
  destruct (_ <=? _); [set_solver|]. rewrite !elem_of_cons, IH. tauto.
Qed.

Lemma insert_stable_sorted v a : sorted_by_time a -> sorted_by_time (insert_stable v a).
Proof.
  induction 1 as [|w a Hs IH Hw]; cbn; [repeat constructor|].
  destruct (Z.leb_spec (UnixNano v) (UnixNano w)) as [H|H].
  - constructor; [constructor; assumption|]. constructor; [exact H|].
    eapply Forall_impl; [exact Hw|]. intros x Hx. cbn in *. lia.
  - constructor; [exact IH|]. rewrite Forall_forall in Hw |- *. intros x Hx.
    apply insert_stable_elem in Hx as [->|Hx]; [lia|auto].
Qed.

Lemma stable_sort_sorted a : sorted_by_time (stable_sort a).
Proof. induction a as [|v a IH]; cbn; [constructor|apply insert_stable_sorted, IH]. Qed.

(** Equal timestamps keep their order, so the later value still wins. *)
Lemma insert_stable_map v a : to_map (insert_stable v a) = to_map (v :: a).
Proof.
  induction a as [|w a IH]; cbn [insert_stable]; [reflexivity|].
  destruct (Z.leb_spec (UnixNano v) (UnixNano w)) as [H|H]; [reflexivity|].
  rewrite (to_map_cons w), IH, !to_map_cons, <- !map_union_assoc. f_equal.
  apply map_union_comm. apply map_disjoint_singleton_l. apply lookup_singleton_ne. lia.
Qed.

Lemma stable_sort_map a : to_map (stable_sort a) = to_map a.
Proof. induction a as [|v a IH]; [reflexivity|]. cbn [stable_sort]. rewrite insert_stable_map, !to_map_cons, IH. reflexivity. Qed.

(** *** Deduplication *)

(** Keep the last of each run of equal timestamps. *)
Fixpoint last_of_runs (v : V) (a : list V) : list V :=
  match a with
  | [] => [v]
  | w :: a' => if UnixNano w =? UnixNano v then last_of_runs w a' else v :: last_of_runs w a'
  end.

(** The in-place loop computes it: [P ++ [w]] is what is kept so far, [junk]
    what lies between [i] and [j], [R] what is still to be read. *)
Lemma dedup_loop_runs R P w junk :
  dedup_loop (length R) (length P) (length P + 1 + length junk) ((P ++ [w]) ++ junk ++ R) = P ++ last_of_runs w R.
Proof.
  revert P w junk. induction R as [|v R IH]; intros P w junk; cbn [length dedup_loop last_of_runs].
  { rewrite app_nil_r. rewrite take_app_le by (rewrite length_app; cbn; lia).
    apply take_ge. rewrite length_app. cbn. lia. }
  assert (((P ++ [w]) ++ junk ++ v :: R) !! (length P + 1 + length junk)%nat = Some v) as ->.
  { rewrite lookup_app_r by (rewrite length_app; cbn; lia). rewrite length_app. cbn.
    rewrite lookup_app_r by lia. replace (_ - _)%nat with 0%nat by lia. reflexivity. }
  assert (((P ++ [w]) ++ junk ++ v :: R) !! length P = Some w) as ->.
  { rewrite lookup_app_l by (rewrite length_app; cbn; lia). apply list_lookup_middle. reflexivity. }
  destruct (UnixNano v =? UnixNano w).
  - assert (<[length P := v]> ((P ++ [w]) ++ junk ++ v :: R) = (P ++ [v]) ++ (junk ++ [v]) ++ R) as ->.
    { rewrite <- !app_assoc. rewrite insert_app_r_alt by lia. rewrite Nat.sub_diag. reflexivity. }
    specialize (IH P v (junk ++ [v])). rewrite length_app in IH. cbn in IH.
    replace (S (length P + 1 + length junk)) with (length P + 1 + (length junk + 1))%nat by lia. exact IH.
  - destruct junk as [|x junk].
    + assert (<[S (length P) := v]> ((P ++ [w]) ++ [] ++ v :: R) = ((P ++ [w]) ++ [v]) ++ [] ++ R) as ->.
      { cbn. rewrite insert_app_r_alt by (rewrite length_app; cbn; lia). rewrite length_app. cbn.
        replace (S (length P) - (length P + 1))%nat with 0%nat by lia. cbn. rewrite <- !app_assoc. reflexivity. }
      specialize (IH (P ++ [w]) v []). rewrite length_app in IH. cbn in IH |- *.
      replace (S (length P)) with (length P + 1)%nat by lia.
      replace (S (length P + 1 + 0)) with (length P + 1 + 1 + 0)%nat by lia. rewrite IH, <- app_assoc. reflexivity.
    + assert (<[S (length P) := v]> ((P ++ [w]) ++ (x :: junk) ++ v :: R) = ((P ++ [w]) ++ [v]) ++ (junk ++ [v]) ++ R) as ->.
      { rewrite insert_app_r_alt by (rewrite length_app; cbn; lia). rewrite length_app. cbn.
        replace (S (length P) - (length P + 1))%nat with 0%nat by lia. cbn. rewrite <- !app_assoc. reflexivity. }
      specialize (IH (P ++ [w]) v (junk ++ [v])). rewrite !length_app in IH. cbn in IH |- *.
      replace (S (length P)) with (length P + 1)%nat by lia.
      replace (S (length P + 1 + S (length junk))) with (length P + 1 + 1 + (length junk + 1))%nat by lia.
      rewrite IH, <- app_assoc. reflexivity.
Qed.

Lemma runs_elem v a x : x ∈ last_of_runs v a -> x = v \/ x ∈ a.
Proof.
  revert v. induction a as [|w a IH]; intros v; cbn; [set_solver|].
  destruct (_ =? _); [intros H; apply IH in H as [->|H]; set_solver|].
  intros H. apply elem_of_cons in H as [->|H]; [auto|]. apply IH in H as [->|H]; set_solver.
Qed.

Lemma runs_increasing v a : sorted_by_time (v :: a) -> increasing (last_of_runs v a).
Proof.
  revert v. induction a as [|w a IH]; intros v Hs; cbn; [repeat constructor|].
  apply StronglySorted_inv in Hs as [Hs Hv]. destruct (Z.eqb_spec (UnixNano w) (UnixNano v)) as [E|E]; [apply IH, Hs|].
  constructor; [apply IH, Hs|]. apply Forall_forall. intros x Hx.
  apply StronglySorted_inv in Hs as [_ Hw]. rewrite Forall_forall in Hv, Hw.
  pose proof (Hv w ltac:(left)) as H1. apply runs_elem in Hx as [->|Hx]; [cbn in *; lia|].
  specialize (Hw x Hx). cbn in *. lia.
Qed.

Lemma runs_map v a : to_map (last_of_runs v a) = to_map (v :: a).
Proof.
  revert v. induction a as [|w a IH]; intros v; cbn [last_of_runs]; [reflexivity|].
  destruct (Z.eqb_spec (UnixNano w) (UnixNano v)) as [E|E]; rewrite ?IH, ?(to_map_cons v), ?IH, ?to_map_cons; [|reflexivity].
  rewrite <- map_union_assoc, E. f_equal. apply map_eq. intros k. rewrite lookup_union.
  destruct (decide (k = UnixNano v)) as [->|Hk].
  - rewrite !lookup_singleton_eq. reflexivity.
  - rewrite !lookup_singleton_ne by congruence. reflexivity.
Qed.

Lemma length_insert_stable v a : length (insert_stable v a) = S (length a).
Proof. induction a as [|w a IH]; cbn; [reflexivity|]. destruct (_ <=? _); cbn; [|rewrite IH]; reflexivity. Qed.

Lemma Deduplicate_spec a : increasing (Deduplicate a) /\ to_map (Deduplicate a) = to_map a.
Proof.
  destruct a as [|v [|w a]]; [split; [constructor|reflexivity]|split; [repeat constructor|reflexivity]|].
  unfold Deduplicate. destruct (ordered (v :: w :: a)) eqn:Eo; cbn [negb].
  { split; [apply ordered_increasing, Eo|reflexivity]. }
  set (l := v :: w :: a). pose proof (stable_sort_sorted l) as Hs. pose proof (stable_sort_map l) as Hm.
  destruct (stable_sort l) as [|x R] eqn:El.
  { exfalso. cbn in El. apply (f_equal length) in El. rewrite length_insert_stable in El. discriminate. }
  pose proof (dedup_loop_runs R [] x []) as Hd. cbn in Hd.
  replace (length (x :: R) - 1)%nat with (length R) by (cbn; lia). rewrite Hd.
  split; [apply runs_increasing, Hs|rewrite runs_map; exact Hm].
Qed.

(** *** Merging *)

Lemma increasing_app a b :
  increasing a -> increasing b -> (forall x y, x ∈ a -> y ∈ b -> UnixNano x < UnixNano y) -> increasing (a ++ b).
Proof.
  intros Ha Hb Hab. induction Ha as [|x a Ha IH Hx]; [exact Hb|]. cbn. constructor.
  - apply IH. intros y z Hy Hz. apply Hab; [right; exact Hy|exact Hz].
  - apply Forall_app. split; [exact Hx|]. apply Forall_forall. intros y Hy. apply Hab; [left|exact Hy].
Qed.

Lemma increasing_head x a y : increasing (x :: a) -> y ∈ x :: a -> UnixNano x <= UnixNano y.
Proof.
  intros H Hy. apply StronglySorted_inv in H as [_ H]. rewrite Forall_forall in H.
  apply elem_of_cons in Hy as [->|Hy]; [lia|]. specialize (H y Hy). cbn in H. lia.
Qed.

Lemma increasing_last a l y : increasing a -> last a = Some l -> y ∈ a -> UnixNano y <= UnixNano l.
Proof.
  intros H. revert l y. induction H as [|x a Hs IH Hx]; intros l y Hl Hy; [discriminate|].
  destruct a as [|z a]; [injection Hl as ->; apply list_elem_of_singleton in Hy as ->; lia|].
  change (last (x :: z :: a)) with (last (z :: a)) in Hl.
  apply elem_of_cons in Hy as [->|Hy]; [|apply IH; assumption].
  rewrite Forall_forall in Hx. pose proof (Hx z ltac:(left)). pose proof (IH l z Hl ltac:(left)). cbn in *. lia.
Qed.

Lemma merge_loop_spec fuel a b out :
  increasing a -> increasing b -> (length a + length b < fuel)%nat ->
  exists k, merge_loop fuel a b out = out ++ k /\ increasing k /\ to_map k = to_map b ∪ to_map a
    /\ forall x, x ∈ k -> x ∈ a \/ x ∈ b.
Proof.
  revert a b out. induction fuel as [|fuel IH]; intros a b out Ha Hb Hf; [lia|]. cbn [merge_loop].
  destruct a as [|x a].
  { exists b. split; [reflexivity|]. split; [exact Hb|]. split; [|auto].
    change (to_map []) with (∅ : gmap Z V). rewrite map_union_empty. reflexivity. }
  destruct b as [|y b].
  { exists (x :: a). split; [reflexivity|]. split; [exact Ha|]. split; [|auto].
    change (to_map []) with (∅ : gmap Z V). rewrite map_empty_union. reflexivity. }
  pose proof Ha as Ha'. apply StronglySorted_inv in Ha' as [Ha' Hxa]. rewrite Forall_forall in Hxa.
  pose proof Hb as Hb'. apply StronglySorted_inv in Hb' as [Hb' Hyb]. rewrite Forall_forall in Hyb.
  cbn in Hf. destruct (Z.ltb_spec (UnixNano x) (UnixNano y)) as [Hlt|Hge].
  - destruct (IH a (y :: b) (out ++ [x]) Ha' Hb ltac:(cbn; lia)) as (k & E & Hk & Hm & Hin).
    exists (x :: k). rewrite E, <- app_assoc. split; [reflexivity|]. split.
    { constructor; [exact Hk|]. apply Forall_forall. intros z Hz. apply Hin in Hz as [Hz|Hz]; [apply Hxa, Hz|].
      pose proof (increasing_head y b z Hb Hz). lia. }
    split; [rewrite !(to_map_cons x), Hm, map_union_assoc; reflexivity|].
    intros z Hz. apply elem_of_cons in Hz as [->|Hz]; [left; left|]. apply Hin in Hz as [Hz|Hz]; [left; right|right]; exact Hz.
  - destruct (Z.eqb_spec (UnixNano x) (UnixNano y)) as [Heq|Hne].
    + destruct (IH a (y :: b) out Ha' Hb ltac:(cbn; lia)) as (k & E & Hk & Hm & Hin).
      exists k. split; [exact E|]. split; [exact Hk|]. split.
      * rewrite Hm, (to_map_cons x). apply map_eq. intros t. rewrite !lookup_union.
        destruct (decide (t = UnixNano x)) as [->|Ht].
        -- destruct (proj2 (to_map_dom (y :: b) (UnixNano x))) as [v Hv]; [exists y; split; [left|congruence]|].
           rewrite Hv. destruct (to_map a !! UnixNano x), ({[UnixNano x := x]} !! UnixNano x); reflexivity.
        -- rewrite lookup_singleton_ne by congruence. destruct (to_map a !! t); reflexivity.
      * intros z Hz. apply Hin in Hz as [Hz|Hz]; [left; right; exact Hz|right; exact Hz].
    + destruct (IH (x :: a) b (out ++ [y]) Ha Hb' ltac:(cbn; lia)) as (k & E & Hk & Hm & Hin).
      exists (y :: k). rewrite E, <- app_assoc. split; [reflexivity|]. split.
      { constructor; [exact Hk|]. apply Forall_forall. intros z Hz. apply Hin in Hz as [Hz|Hz]; [|apply Hyb, Hz].
        pose proof (increasing_head x a z Ha Hz). lia. }
      split.
      * rewrite !(to_map_cons y), Hm, <- !map_union_assoc. f_equal. apply map_union_comm.
        apply map_disjoint_singleton_r, to_map_None, Forall_forall. intros z Hz.
        pose proof (increasing_head x a z Ha Hz). lia.
      * intros z Hz. apply elem_of_cons in Hz as [->|Hz]; [right; left|].
        apply Hin in Hz as [Hz|Hz]; [left|right; right]; exact Hz.
Qed.

Lemma Merge_both a b :
  a <> [] -> b <> [] -> increasing (Merge a b) /\ to_map (Merge a b) = to_map b ∪ to_map a.
Proof.
  intros Hna Hnb. destruct (Deduplicate_spec a) as [Ia Ma], (Deduplicate_spec b) as [Ib Mb].
  assert (Deduplicate a <> [] /\ Deduplicate b <> []) as [Ha Hb].
  { assert (forall c, c <> [] -> Deduplicate c <> []) as Hd; [|auto].
    intros c Hc E. destruct (Deduplicate_spec c) as [_ Mc]. rewrite E in Mc. change (to_map []) with (∅ : gmap Z V) in Mc.
    destruct c as [|v c]; [congruence|]. destruct (proj2 (to_map_dom (v :: c) (UnixNano v))) as [x Hx].
    - exists v. split; [left|reflexivity].
    - rewrite <- Mc, lookup_empty in Hx. discriminate. }
  assert (Merge a b = match last (Deduplicate a), Deduplicate b !! 0%nat, last (Deduplicate b), Deduplicate a !! 0%nat with
      | Some la, Some fb, Some lb, Some fa =>
          if UnixNano la <? UnixNano fb then Deduplicate a ++ Deduplicate b
          else if UnixNano lb <? UnixNano fa then Deduplicate b ++ Deduplicate a
          else merge_loop (S (length (Deduplicate a) + length (Deduplicate b))) (Deduplicate a) (Deduplicate b) []
      | _, _, _, _ => [] end) as ->.
  { destruct a; [congruence|]. destruct b; [congruence|]. reflexivity. }
  rewrite <- Ma, <- Mb. clear Ma Mb Hna Hnb. revert Ia Ib Ha Hb.
  generalize (Deduplicate a) (Deduplicate b). clear a b. intros a b Ia Ib Ha Hb.
  destruct a as [|x a]; [congruence|]. destruct b as [|y b]; [congruence|].
  destruct (last (x :: a)) as [la|] eqn:La; [|apply last_None in La; discriminate].
  destruct (last (y :: b)) as [lb|] eqn:Lb; [|apply last_None in Lb; discriminate].
  cbn [lookup list_lookup].
  destruct (Z.ltb_spec (UnixNano la) (UnixNano y)) as [H1|H1].
  { split; [|apply to_map_app]. apply increasing_app; [exact Ia|exact Ib|]. intros u w Hu Hw.
    pose proof (increasing_last _ _ u Ia La Hu). pose proof (increasing_head y b w Ib Hw). lia. }
  destruct (Z.ltb_spec (UnixNano lb) (UnixNano x)) as [H2|H2].
  { assert (forall u w, u ∈ y :: b -> w ∈ x :: a -> UnixNano u < UnixNano w) as Hlt.
    { intros u w Hu Hw. pose proof (increasing_last _ _ u Ib Lb Hu). pose proof (increasing_head x a w Ia Hw). lia. }
    split; [apply increasing_app; assumption|]. rewrite to_map_app. apply map_union_comm.
    apply map_disjoint_spec. intros t u w Hu Hw.
    destruct (proj1 (to_map_dom (x :: a) t)) as (p & Hp & Ep); [eauto|].
    destruct (proj1 (to_map_dom (y :: b) t)) as (q & Hq & Eq); [eauto|].
    specialize (Hlt q p Hq Hp). lia. }
  destruct (merge_loop_spec (S (length (x :: a) + length (y :: b))) (x :: a) (y :: b) [] Ia Ib ltac:(lia))
    as (k & E & Hk & Hm & _).
  rewrite E. cbn [app]. auto.
Qed.

(** Whatever the slices, and sorted ones stay sorted. *)
Lemma Merge_map a b : to_map (Merge a b) = to_map b ∪ to_map a.
Proof.
  destruct a as [|x a]; [cbn [Merge]; change (to_map []) with (∅ : gmap Z V); rewrite map_union_empty; reflexivity|].
  destruct b as [|y b]; [cbn [Merge]; change (to_map []) with (∅ : gmap Z V); rewrite map_empty_union; reflexivity|].
  apply Merge_both; discriminate.
Qed.

Lemma Merge_increasing a b : increasing a -> increasing b -> increasing (Merge a b).
Proof.
  intros Ha Hb. destruct a as [|x a]; [exact Hb|]. destruct b as [|y b]; [exact Ha|]. apply Merge_both; discriminate.
Qed.

(** *** Searching *)

Lemma increasing_lookup a i j x y :
  increasing a -> a !! i = Some x -> a !! j = Some y -> (i < j)%nat -> UnixNano x < UnixNano y.
Proof.
  intros Ha. revert i j. induction Ha as [|z a Ha IH Hz]; intros i j Hi Hj Hij; [discriminate|].
  destruct j as [|j]; [lia|]. cbn in Hj. destruct i as [|i]; cbn in Hi.
  - injection Hi as ->. rewrite Forall_forall in Hz. apply Hz. eapply list_elem_of_lookup_2, Hj.
  - apply (IH i j); [exact Hi|exact Hj|lia].
Qed.

Lemma search_loop_spec fuel a v lo hi :
  increasing a -> 0 <= lo <= hi -> hi <= zlen a -> (Z.to_nat (hi - lo) < fuel)%nat ->
  (forall i x, a !! i = Some x -> Z.of_nat i < lo -> UnixNano x < v) ->
  (forall i x, a !! i = Some x -> hi <= Z.of_nat i -> v <= UnixNano x) ->
  let r := search_loop fuel a v lo hi in
  0 <= r <= zlen a
  /\ (forall i x, a !! i = Some x -> Z.of_nat i < r -> UnixNano x < v)
  /\ (forall i x, a !! i = Some x -> r <= Z.of_nat i -> v <= UnixNano x).
Proof.
  intros Ha. revert lo hi. induction fuel as [|fuel IH]; intros lo hi Hlo Hhi Hf Hl Hr; [lia|]. cbn [search_loop].
  destruct (Z.ltb_spec lo hi) as [H|H].
  2:{ cbn. assert (hi = lo) as -> by lia. split; [lia|]. split; assumption. }
  set (mid := (lo + hi) / 2). assert (lo <= mid < hi) as Hm.
  { unfold mid. pose proof (Z.div_mod (lo + hi) 2 ltac:(lia)). pose proof (Z.mod_pos_bound (lo + hi) 2 ltac:(lia)). lia. }
  assert (exists x, a !! Z.to_nat mid = Some x) as [x Hx].
  { apply lookup_lt_is_Some. unfold zlen in Hhi. lia. }
  rewrite Hx.
  assert (forall i y, a !! i = Some y -> (i < Z.to_nat mid)%nat -> UnixNano y < UnixNano x) as Hbefore.
  { intros i y Hy Hi. eapply (increasing_lookup a i (Z.to_nat mid)); eassumption. }
  assert (forall i y, a !! i = Some y -> (Z.to_nat mid < i)%nat -> UnixNano x < UnixNano y) as Hafter.
  { intros i y Hy Hi. eapply (increasing_lookup a (Z.to_nat mid) i); eassumption. }
  destruct (Z.ltb_spec (UnixNano x) v) as [Hv|Hv]; apply IH; try lia; auto.
  - intros i y Hy Hi. destruct (decide (i = Z.to_nat mid)) as [->|Hne]; [congruence|].
    specialize (Hbefore i y Hy ltac:(lia)). lia.
  - intros i y Hy Hi. destruct (decide (i = Z.to_nat mid)) as [->|Hne]; [congruence|].
    specialize (Hafter i y Hy ltac:(lia)). lia.
Qed.

(** The position splits the slice at [v]. *)
Lemma search_split a v :
  increasing a -> exists l r, a = l ++ r /\ search a v = zlen l
    /\ Forall (fun x => UnixNano x < v) l /\ Forall (fun x => v <= UnixNano x) r.
Proof.
  intros Ha. pose proof (zlen_nonneg a). destruct (search_loop_spec (S (length a)) a v 0 (zlen a) Ha) as (Hr & Hl & Hg).
  { lia. } { lia. } { unfold zlen. lia. } { lia. }
  { intros i x Hx Hi. apply lookup_lt_Some in Hx. unfold zlen in Hi. lia. }
  fold (search a v) in Hr, Hl, Hg. set (r := search a v) in *.
  exists (take (Z.to_nat r) a), (drop (Z.to_nat r) a). split; [symmetry; apply take_drop|].
  split; [unfold zlen in *; rewrite length_take; lia|]. split; apply Forall_forall; intros x Hx.
  - apply list_elem_of_lookup in Hx as [i Hi]. apply lookup_take_Some in Hi as [Hi Hlt]. apply (Hl i); [exact Hi|lia].
  - apply list_elem_of_lookup in Hx as [i Hi]. rewrite lookup_drop in Hi. apply (Hg _ _ Hi). lia.
Qed.

Definition in_range (min max : Z) (v : V) : bool := (min <=? UnixNano v) && (UnixNano v <=? max).

Lemma filter_all (f : V -> bool) l : Forall (fun x => f x = true) l -> List.filter f l = l.
Proof. induction 1 as [|x l Hx _ IH]; cbn; [reflexivity|]. rewrite Hx, IH. reflexivity. Qed.
Lemma filter_none (f : V -> bool) l : Forall (fun x => f x = false) l -> List.filter f l = [].
Proof. induction 1 as [|x l Hx _ IH]; cbn; [reflexivity|]. rewrite Hx. exact IH. Qed.

Lemma filter_filter (f g : V -> bool) l : List.filter f (List.filter g l) = List.filter (fun x => g x && f x) l.
Proof. induction l as [|x l IH]; [reflexivity|]. cbn. destruct (g x); cbn; [destruct (f x)|]; rewrite IH; reflexivity. Qed.

Lemma increasing_filter (f : V -> bool) l : increasing l -> increasing (List.filter f l).
Proof.
  intros H. induction H as [|x l H IH F]; cbn; [constructor|]. destruct (f x); [|exact IH]. constructor; [exact IH|].
  rewrite Forall_forall in *. intros y Hy. apply F. apply list_elem_of_In, filter_In in Hy as [Hy _]. apply list_elem_of_In. exact Hy.
Qed.

(** The end of the range: one more when the value at [rmax] is at [max]. *)
Definition range_end (a : list V) (max : Z) : Z :=
  let rmax := search a max in
  if (rmax <? zlen a) && time_is a rmax max then rmax + 1 else rmax.

(** Before, inside and after the range. *)
Lemma range_split a min max :
  increasing a -> min <= max ->
  exists l m r, a = l ++ m ++ r /\ search a min = zlen l /\ range_end a max = zlen l + zlen m
    /\ Forall (fun x => UnixNano x < min) l /\ Forall (fun x => min <= UnixNano x <= max) m
    /\ Forall (fun x => max < UnixNano x) r.
Proof.
  intros Ha Hle. destruct (search_split a min Ha) as (l & r1 & E1 & S1 & L1 & R1).
  destruct (search_split a max Ha) as (l2 & r2 & E2 & S2 & L2 & R2).
  assert (exists m, l2 = l ++ m /\ r1 = m ++ r2) as (m & -> & ->).
  { rewrite E1 in E2. apply app_eq_app in E2 as (k & [[H1 H2]|[H1 H2]]); [|eauto].
    destruct k as [|x k]; [exists []; rewrite app_nil_r in *; cbn in *; subst; split; reflexivity|].
    exfalso. rewrite H1, Forall_app in L1. destruct L1 as [_ L1]. apply Forall_inv in L1.
    rewrite H2 in R2. apply Forall_inv in R2. cbn in *. lia. }
  assert (Forall (fun x => min <= UnixNano x <= max) m) as Hm.
  { apply Forall_app in R1 as [R1 _], L2 as [_ L2]. rewrite Forall_forall in *. intros x Hx.
    specialize (R1 x Hx). specialize (L2 x Hx). cbn in *. lia. }
  assert (increasing r2) as Hr2.
  { rewrite E1 in Ha. unfold increasing in Ha. rewrite app_assoc in Ha. apply StronglySorted_app_1_r in Ha. exact Ha. }
  unfold range_end, time_is. rewrite S2, E1, !zlen_app. rewrite E1 in S1. pose proof (zlen_nonneg r2).
  assert ((l ++ m ++ r2) !! Z.to_nat (zlen (l ++ m)) = head r2) as Hl.
  { rewrite app_assoc, lookup_app_r by (unfold zlen; lia). unfold zlen. rewrite Nat2Z.id, Nat.sub_diag. destruct r2; reflexivity. }
  rewrite zlen_app in Hl. rewrite Hl. destruct r2 as [|z r2].
  { exists l, m, []. rewrite zlen_nil. destruct (Z.ltb_spec (zlen l + zlen m) (zlen l + (zlen m + 0))); [lia|]. cbn [andb].
    split; [reflexivity|]. split; [exact S1|]. split; [reflexivity|]. auto. }
  apply Forall_cons in R2 as [Hz R2]. rewrite zlen_cons. pose proof (zlen_nonneg r2).
  destruct (Z.ltb_spec (zlen l + zlen m) (zlen l + (zlen m + (1 + zlen r2)))); [|lia]. cbn [andb head].
  apply StronglySorted_inv in Hr2 as [_ Hr2].
  destruct (Z.eqb_spec (UnixNano z) max) as [Ez|Ez].
  - exists l, (m ++ [z]), r2. rewrite <- app_assoc. split; [reflexivity|]. split; [exact S1|].
    split; [rewrite zlen_app, zlen_cons, zlen_nil; lia|]. split; [exact L1|].
    split; [apply Forall_app; split; [exact Hm|repeat constructor; lia]|].
    eapply Forall_impl; [exact Hr2|]. intros x Hx. cbn in *. lia.
  - exists l, m, (z :: r2). split; [reflexivity|]. split; [exact S1|]. split; [reflexivity|]. split; [exact L1|].
    split; [exact Hm|]. constructor; [cbn in Hz; lia|]. eapply Forall_impl; [exact Hr2|]. intros x Hx. cbn in *. lia.
Qed.

(** Outside the range on one side: nothing of the slice is in it. *)
Lemma FindRange_spec a min max :
  increasing a ->
  (FindRange a min max = (-1, -1) /\ Forall (fun v => in_range min max v = false) a)
  \/ (min <= max /\ FindRange a min max = (search a min, search a max)).
Proof.
  intros Ha. unfold FindRange. destruct a as [|x a]; [left; split; [reflexivity|constructor]|].
  cbn [lookup list_lookup]. destruct (last (x :: a)) as [y|] eqn:El; [|apply last_None in El; discriminate].
  destruct (Z.gtb_spec min max) as [H|H].
  { left. split; [reflexivity|]. apply Forall_forall. intros v _. unfold in_range. zcases; cbn; lia || reflexivity. }
  destruct (Z.ltb_spec (UnixNano y) min) as [H1|H1]; cbn [orb].
  { left. split; [reflexivity|]. apply Forall_forall. intros v Hv. pose proof (increasing_last _ _ v Ha El Hv).
    unfold in_range. zcases; cbn; lia || reflexivity. }
  destruct (Z.gtb_spec (UnixNano x) max) as [H2|H2].
  { left. split; [reflexivity|]. apply Forall_forall. intros v Hv. pose proof (increasing_head _ _ v Ha Hv).
    unfold in_range. zcases; cbn; lia || reflexivity. }
  right. split; [exact H|reflexivity].
Qed.

Lemma search_nonneg a v : increasing a -> 0 <= search a v <= zlen a.
Proof.
  intros Ha. destruct (search_split a v Ha) as (l & r & E & S & _). rewrite S, E, zlen_app.
  pose proof (zlen_nonneg l). pose proof (zlen_nonneg r). lia.
Qed.

(** [Deduplicate] returns a strictly increasing slice that
    holds, for every timestamp of the input, the value that appears last;
    whether or not the input was sorted. *)
Theorem deduplicate_correct (a : list V) :
  increasing (Deduplicate a) /\ to_map (Deduplicate a) = to_map a.
Proof. apply Deduplicate_spec. Qed.

(** [Merge] overlays [b] on [a]: the result holds exactly the
    timestamps of both, with the value of [b] where both have one; it is
    strictly increasing whenever the inputs are, and also when they are not
    sorted but neither is empty. *)
Theorem merge_correct (a b : list V) :
  to_map (Merge a b) = to_map b ∪ to_map a
  /\ (increasing a /\ increasing b \/ a <> [] /\ b <> [] -> increasing (Merge a b)).
Proof.
  split; [apply Merge_map|]. intros [[Ha Hb]|[Ha Hb]]; [apply Merge_increasing|apply Merge_both]; assumption.
Qed.

Lemma include_exclude_filter (a : list V) (min max : Z) :
  increasing a ->
  Include a min max = List.filter (in_range min max) a
  /\ Exclude a min max = List.filter (fun v => negb (in_range min max v)) a.
Proof.
  intros Ha. unfold Include, Exclude. destruct (FindRange_spec a min max Ha) as [[-> Hout]|[Hle ->]].
  { cbn [Z.eqb andb]. split; [symmetry; apply filter_none, Hout|]. symmetry. apply filter_all.
    eapply Forall_impl; [exact Hout|]. intros v H. rewrite H. reflexivity. }
  pose proof (search_nonneg a min Ha) as N1. pose proof (search_nonneg a max Ha) as N2.
  destruct (Z.eqb_spec (search a min) (-1)); [lia|]. cbn [andb].
  destruct (range_split a min max Ha Hle) as (l & m & r & E & S & R & L & M & G).
  assert (List.filter (in_range min max) a = m) as ->.
  { rewrite E, !List.filter_app, (filter_none _ l), (filter_all _ m), (filter_none _ r), app_nil_r; [reflexivity|..];
      (eapply Forall_impl; [eassumption|]); intros v Hv; unfold in_range; cbn in *; zcases; cbn; lia || reflexivity. }
  assert (List.filter (fun v => negb (in_range min max v)) a = l ++ r) as ->.
  { rewrite E, !List.filter_app, (filter_all _ l), (filter_none _ m), (filter_all _ r); [reflexivity|..];
      (eapply Forall_impl; [eassumption|]); intros v Hv; unfold in_range; cbn in *; zcases; cbn; lia || reflexivity. }
  pose proof (zlen_nonneg l). pose proof (zlen_nonneg m). pose proof (zlen_nonneg r).
  assert (take (Z.to_nat (zlen l)) a = l) as Htake by (rewrite E; apply take_app_zlen).
  assert (zlen a = zlen l + (zlen m + zlen r)) as Hlen by (rewrite E, !zlen_app; reflexivity).
  split.
  - fold (range_end a max). rewrite R, S. destruct (Z.gtb_spec (zlen l) (-1)); [|lia].
    replace (zlen l + zlen m - zlen l) with (zlen m) by lia. rewrite E, drop_app_zlen, take_app_zlen. reflexivity.
  - unfold range_end in R. rewrite S. destruct (Z.ltb_spec (search a max) (zlen a)) as [Hlt|Hge]; cbn [andb] in R.
    + rewrite R. destruct (Z.gtb_spec (zlen a - (zlen l + zlen m)) 0).
      * rewrite Htake. f_equal. rewrite E, app_assoc, <- zlen_app. apply drop_app_zlen.
      * rewrite Htake. destruct r; [rewrite app_nil_r; reflexivity|]. rewrite zlen_cons in *. pose proof (zlen_nonneg r). lia.
    + rewrite Htake. destruct r; [rewrite app_nil_r; reflexivity|]. rewrite zlen_cons in *. pose proof (zlen_nonneg r). lia.
Qed.

(** On a strictly increasing slice [Include] and [Exclude]
    are the filters they stand for: the values inside the closed interval, and
    the values outside it. *)
Theorem include_exclude_correct (a : list V) (min max : Z) :
  increasing a ->
  Include a min max = List.filter (in_range min max) a
  /\ Exclude a min max = List.filter (fun v => negb (in_range min max v)) a.
Proof. apply include_exclude_filter. Qed.
End Values.

Lemma include_exclude_correct_witness :
  Include (fun v : Z * Z => v.1) [(1, 10); (3, 30); (5, 50)] 2 5 = [(3, 30); (5, 50)]
  /\ Exclude (fun v : Z * Z => v.1) [(1, 10); (3, 30); (5, 50)] 2 5 = [(1, 10)].
Proof.
  apply (include_exclude_correct (fun v : Z * Z => v.1) [(1, 10); (3, 30); (5, 50)] 2 5).
  repeat constructor.
Defined.
