(* ===== verification/Varint.v ===== *)
(** * Byte-level encodings shared by the TSM block codecs

    Variable-length integers of package [encoding/binary], and from
    [tsdb/engine/tsm1/encoding.go] the zig-zag mapping and the frame of a block
    ([packBlock], [unpackBlock]).  Bytes are integers below 256. *)

From S2P Require Import Prelude.

(** ** Unsigned varints ([binary.PutUvarint], [binary.Uvarint]) *)

(** The bytes written; a uint64 takes at most ten. *)
Fixpoint put_uvarint (fuel : nat) (x : Z) : list Z :=
  match fuel with
  | O => []
  | S f => if x <? 128 then [x] else Z.lor (x mod 128) 128 :: put_uvarint f (x / 128)
  end.
Definition PutUvarint (x : Z) : list Z := put_uvarint 10 x.

(** The value and the number of bytes read: 0 when the buffer is too short,
    negative on overflow. *)
Fixpoint uvarint (buf : list Z) (i s x : Z) : Z * Z :=
  match buf with
  | [] => (0, 0)
  | b :: buf' =>
      if b <? 128 then
        if (i >? 9) || ((i =? 9) && (b >? 1)) then (0, - (i + 1))
        else (Z.lor x (u64 (Z.shiftl b s)), i + 1)
      else uvarint buf' (i + 1) (s + 7) (Z.lor x (u64 (Z.shiftl (Z.land b 127) s)))
  end.
Definition Uvarint (buf : list Z) : Z * Z := uvarint buf 0 0 0.
#[global] Arguments PutUvarint : simpl never.
#[global] Arguments Uvarint : simpl never.

Lemma land_small_shift x y s : 0 <= s -> 0 <= x < 2 ^ s -> Z.land x (y * 2 ^ s) = 0.
Proof.
  intros Hs Hx. apply Z.bits_inj'. intros k Hk. rewrite Z.land_spec, Z.bits_0.
  destruct (Z.lt_ge_cases k s) as [H|H].
  - rewrite (Z.mul_pow2_bits_low _ _ _ H). apply andb_false_r.
  - rewrite <- (Z.mod_small x (2 ^ s)) by lia. rewrite Z.mod_pow2_bits_high by lia. reflexivity.
Qed.

(** Or-ing in higher bits is adding them. *)
Lemma lor_shift_add x y s : 0 <= s -> 0 <= x < 2 ^ s -> Z.lor x (Z.shiftl y s) = x + y * 2 ^ s.
Proof.
  intros Hs Hx. rewrite Z.shiftl_mul_pow2 by lia.
  pose proof (land_small_shift x y s Hs Hx) as Hl.
  rewrite <- Z.lxor_lor by exact Hl. symmetry. apply Z.add_nocarry_lxor, Hl.
Qed.

Lemma put_byte x : 0 <= x -> Z.lor (x mod 128) 128 = x mod 128 + 128.
Proof.
  intros H. pose proof (lor_shift_add (x mod 128) 1 7 ltac:(lia)) as E. change (Z.shiftl 1 7) with 128 in E.
  change (2 ^ 7) with 128 in E. pose proof (Z.mod_pos_bound x 128 ltac:(lia)). rewrite E; lia.
Qed.

Lemma uvarint_put fuel x rest i s acc :
  (0 < fuel)%nat -> 0 <= x < 128 ^ Z.of_nat fuel -> s = 7 * i -> 0 <= i -> i + Z.of_nat fuel = 10 ->
  0 <= acc < 2 ^ s -> acc + x * 2 ^ s < 2 ^ 64 ->
  uvarint (put_uvarint fuel x ++ rest) i s acc = (acc + x * 2 ^ s, i + zlen (put_uvarint fuel x)).
Proof.
  revert x i s acc. induction fuel as [|f IH]; intros x i s acc H0 Hx Hs Hi Hf Ha Hlt; [lia|].
  assert (0 < 2 ^ s) as Hp by (apply Z.pow_pos_nonneg; lia).
  cbn [put_uvarint]. destruct (Z.ltb_spec x 128) as [Hlow|Hhigh]; cbn [app uvarint].
  - destruct (Z.ltb_spec x 128); [|lia].
    destruct ((i >? 9) || ((i =? 9) && (x >? 1))) eqn:Eov.
    { exfalso. destruct (Z.gtb_spec i 9); [lia|]. destruct (Z.eqb_spec i 9) as [->|]; [|discriminate].
      destruct (Z.gtb_spec x 1); [|discriminate]. rewrite Hs in Hlt.
      change (2 ^ (7 * 9)) with 9223372036854775808 in Hlt. lia. }
    rewrite u64_small by (rewrite Z.shiftl_mul_pow2 by lia; nia).
    rewrite lor_shift_add by lia. reflexivity.
  - pose proof (Z.mod_pos_bound x 128 ltac:(lia)) as Hm. rewrite put_byte by lia.
    destruct (Z.ltb_spec (x mod 128 + 128) 128); [lia|].
    assert (Z.land (x mod 128 + 128) 127 = x mod 128) as ->.
    { change 127 with (Z.ones 7). rewrite Z.land_ones by lia. change (2 ^ 7) with 128.
      rewrite <- (Z.mul_1_l 128) at 2. rewrite Z.mod_add by lia. apply Z.mod_mod. lia. }
    pose proof (Z.div_mod x 128 ltac:(lia)) as Hd.
    assert (0 <= x / 128) as Hq by (apply Z.div_pos; lia).
    rewrite u64_small by (rewrite Z.shiftl_mul_pow2 by lia; nia).
    rewrite lor_shift_add by lia. rewrite Nat2Z.inj_succ, Z.pow_succ_r in Hx by lia.
    assert (2 ^ (s + 7) = 2 ^ s * 128) as E7 by (rewrite Z.pow_add_r by lia; reflexivity).
    rewrite IH.
    2:{ destruct f; [|lia]. change (128 ^ Z.of_nat 0) with 1 in Hx. lia. }
    + rewrite zlen_cons, E7. f_equal; [|lia]. rewrite Hd at 3. ring.
    + split; [exact Hq|apply Z.div_lt_upper_bound; lia].
    + lia.
    + lia.
    + lia.
    + rewrite E7. split; [|nia]. nia.
    + rewrite E7. nia.
Qed.

(** A varint reads back, whatever follows it. *)
Lemma Uvarint_PutUvarint x rest :
  is_u64 x -> Uvarint (PutUvarint x ++ rest) = (x, zlen (PutUvarint x)).
Proof.
  intros [H0 H1]. unfold Uvarint, PutUvarint.
  rewrite (uvarint_put 10 x rest 0 0 0); [f_equal; lia|lia|split; [lia|]|lia..].
  change (128 ^ Z.of_nat 10) with (2 ^ 70). lia.
Qed.

Lemma zlen_PutUvarint x : 0 < zlen (PutUvarint x).
Proof.
  change (PutUvarint x) with (if x <? 128 then [x] else Z.lor (x mod 128) 128 :: put_uvarint 9 (x / 128)).
  unfold zlen. destruct (x <? 128); cbn [length]; lia.
Qed.

Lemma zlen_PutUvarint_le x : zlen (PutUvarint x) <= 10.
Proof.
  unfold PutUvarint. assert (forall n y, zlen (put_uvarint n y) <= Z.of_nat n) as Hg; [|apply (Hg 10%nat)].
  induction n as [|n IH]; intros y; cbn [put_uvarint]; [unfold zlen; cbn; lia|].
  specialize (IH (y / 128)). destruct (_ <? _); rewrite zlen_cons, ?zlen_nil; lia.
Qed.

Lemma PutUvarint_bytes x : 0 <= x -> Forall (fun b => 0 <= b < 256) (PutUvarint x).
Proof.
  unfold PutUvarint. generalize 10%nat. intros n. revert x. induction n as [|n IH]; intros x Hx; cbn [put_uvarint]; [constructor|].
  destruct (Z.ltb_spec x 128); [repeat constructor; lia|]. constructor; [|apply IH, Z.div_pos; lia].
  rewrite put_byte by lia. pose proof (Z.mod_pos_bound x 128). lia.
Qed.

(** ** Zig-zag *)

(** Go's [x<<1], [x>>63] and [^] on 64-bit words. *)
Definition ZigZagEncode (x : Z) : Z := Z.lxor (u64 (Z.shiftl x 1)) (u64 (Z.shiftr x 63)).
Definition ZigZagDecode (v : Z) : Z :=
  i64 (Z.lxor (Z.shiftr v 1) (u64 (Z.shiftr (i64 (Z.shiftl (i64 (Z.land v 1)) 63)) 63))).

Lemma lxor_ones_64 x : is_u64 x -> Z.lxor x (2 ^ 64 - 1) = 2 ^ 64 - 1 - x.
Proof.
  intros [H0 H1]. change (2 ^ 64 - 1) with (Z.ones 64).
  assert (Z.land (Z.ones 64 - x) x = 0) as Hl.
  { pose proof (Z.sub_nocarry_ldiff (Z.ones 64) x) as E.
    assert (Z.ldiff x (Z.ones 64) = 0) as Hd.
    { rewrite Z.ldiff_ones_r by lia. rewrite Z.shiftr_div_pow2, Z.div_small, Z.shiftl_0_l by lia. reflexivity. }
    rewrite (E Hd). apply Z.bits_inj'. intros k Hk. rewrite Z.land_spec, Z.ldiff_spec, Z.bits_0.
    destruct (Z.testbit x k); rewrite ?andb_false_r; reflexivity. }
  pose proof (Z.add_nocarry_lxor (Z.ones 64 - x) x Hl) as Ha.
  replace (Z.ones 64 - x + x) with (Z.ones 64) in Ha by lia.
  rewrite Ha at 1. rewrite Z.lxor_comm, Z.lxor_assoc, Z.lxor_nilpotent, Z.lxor_0_r. reflexivity.
Qed.

(** Non-negative numbers go to the even words, negative ones to the odd. *)
Lemma ZigZagEncode_spec x : is_i64 x -> ZigZagEncode x = if x <? 0 then - 2 * x - 1 else 2 * x.
Proof.
  intros [H0 H1]. unfold ZigZagEncode. rewrite Z.shiftl_mul_pow2, Z.shiftr_div_pow2 by lia.
  change (2 ^ 1) with 2. destruct (Z.ltb_spec x 0) as [H|H].
  - assert (x / 2 ^ 63 = -1) as -> by (symmetry; apply (Z.div_unique _ _ _ (x + 2 ^ 63)); lia).
    change (u64 (-1)) with (2 ^ 64 - 1). rewrite lxor_ones_64 by apply u64_range.
    unfold u64. rewrite <- (Z.mod_unique (x * 2) (2 ^ 64) (-1) (x * 2 + 2 ^ 64)) by lia. lia.
  - rewrite Z.div_small by lia. change (u64 0) with 0. rewrite Z.lxor_0_r, u64_small by lia. lia.
Qed.

Lemma ZigZagEncode_range x : is_i64 x -> is_u64 (ZigZagEncode x).
Proof. intros H. rewrite ZigZagEncode_spec by exact H. destruct H. unfold is_u64. destruct (Z.ltb_spec x 0); lia. Qed.

Lemma ZigZagDecode_spec v : is_u64 v -> ZigZagDecode v = if Z.odd v then - (v + 1) / 2 else v / 2.
Proof.
  intros [H0 H1]. unfold ZigZagDecode. rewrite Z.shiftr_div_pow2 by lia. change (2 ^ 1) with 2.
  change 1 with (Z.ones 1) at 1. rewrite Z.land_ones by lia. change (2 ^ 1) with 2. rewrite Zmod_odd.
  assert (0 <= v / 2 < 2 ^ 63) as Hq by (split; [apply Z.div_pos; lia|apply Z.div_lt_upper_bound; lia]).
  pose proof (Z.div_mod v 2 ltac:(lia)) as Hd. rewrite Zmod_odd in Hd. destruct (Z.odd v).
  - change (u64 (Z.shiftr (i64 (Z.shiftl (i64 1) 63)) 63)) with (2 ^ 64 - 1).
    rewrite lxor_ones_64 by (split; lia). rewrite <- (i64_i64). unfold i64 at 2.
    replace (2 ^ 64 - 1 - v / 2 + 2 ^ 63) with (2 ^ 63 - 1 - v / 2 + 1 * 2 ^ 64) by lia.
    rewrite Z.mod_add, Z.mod_small by lia. rewrite i64_small by lia.
    apply (Z.div_unique _ _ _ 0); lia.
  - change (u64 (Z.shiftr (i64 (Z.shiftl (i64 0) 63)) 63)) with 0. rewrite Z.lxor_0_r. apply i64_small. lia.
Qed.

(** Decoding inverts encoding on every int64. *)
Lemma ZigZag_roundtrip x : is_i64 x -> ZigZagDecode (ZigZagEncode x) = x.
Proof.
  intros H. rewrite ZigZagDecode_spec by (apply ZigZagEncode_range, H). rewrite ZigZagEncode_spec by exact H.
  destruct H. destruct (Z.ltb_spec x 0).
  - replace (-2 * x - 1) with (1 + 2 * (- x - 1)) by lia. rewrite Z.odd_add_mul_2. cbn [Z.odd].
    symmetry. apply (Z.div_unique _ _ _ 0); lia.
  - replace (2 * x) with (0 + 2 * x) by lia. rewrite Z.odd_add_mul_2. cbn [Z.odd].
    symmetry. apply (Z.div_unique _ _ _ 0); lia.
Qed.

(** ** The frame of a block *)

Inductive tsm_error :=
| ErrBlockLength     (* "unpackBlock: unable to read timestamp block length" *)
| ErrBlockData       (* "unpackBlock: not enough data for timestamp" *)
| ErrBlockType       (* "invalid block type: exp %d, got %d" *)
| ErrDecode (what : string)
| ErrSimple8b.

Definition packBlock (typ : Z) (ts values : list Z) : list Z :=
  typ :: PutUvarint (u64 (zlen ts)) ++ ts ++ values.

Definition unpackBlock (buf : list Z) : res tsm_error (list Z * list Z) :=
  let '(tsLen, i) := Uvarint buf in
  if i <=? 0 then Err ErrBlockLength else
  let tsIdx := i64 (i + i64 tsLen) in
  if tsIdx >? zlen buf then Err ErrBlockData else
  if tsIdx <? i then Panic else
  Ok (take (Z.to_nat (tsIdx - i)) (drop (Z.to_nat i) buf), drop (Z.to_nat tsIdx) buf).

(** The payload of a packed block unpacks. *)
Lemma unpack_pack typ ts values :
  zlen ts < 2 ^ 62 -> unpackBlock (tail (packBlock typ ts values)) = Ok (ts, values).
Proof.
  intros H. pose proof (zlen_nonneg ts) as H0. unfold packBlock. cbn [tail]. rewrite u64_small by lia.
  set (p := PutUvarint (zlen ts)). unfold unpackBlock.
  assert (Uvarint (p ++ ts ++ values) = (zlen ts, zlen p)) as -> by (apply Uvarint_PutUvarint; split; lia).
  pose proof (zlen_PutUvarint (zlen ts)) as Hp. fold p in Hp.
  pose proof (zlen_PutUvarint_le (zlen ts)) as Hp10. fold p in Hp10.
  destruct (Z.leb_spec (zlen p) 0); [lia|]. rewrite (i64_small (zlen ts)), i64_small by lia.
  destruct (Z.gtb_spec (zlen p + zlen ts) (zlen (p ++ ts ++ values))) as [Hc|_].
  { rewrite !zlen_app in Hc. pose proof (zlen_nonneg values). lia. }
  destruct (Z.ltb_spec (zlen p + zlen ts) (zlen p)); [lia|].
  replace (zlen p + zlen ts - zlen p) with (zlen ts) by lia. rewrite drop_app_zlen, take_app_zlen.
  do 2 f_equal. rewrite app_assoc, <- zlen_app. apply drop_app_zlen.
Qed.

(** * Numbers as lists of bits

    The most significant bit first, as the bit-packed formats of the TSM
    blocks write them. *)

Definition num_of (bits : list bool) : Z := fold_left (fun acc b => 2 * acc + Z.b2z b) bits 0.

Lemma num_of_snoc bits b : num_of (bits ++ [b]) = 2 * num_of bits + Z.b2z b.
Proof. unfold num_of. rewrite fold_left_app. reflexivity. Qed.

Lemma num_of_range bits : 0 <= num_of bits < 2 ^ zlen bits.
Proof.
  induction bits as [|b bits IH] using rev_ind; [unfold zlen; cbn; lia|].
  rewrite num_of_snoc, zlen_app. change (zlen [b]) with 1. pose proof (zlen_nonneg bits).
  rewrite Z.pow_add_r by lia. destruct b; cbn [Z.b2z]; lia.
Qed.

Lemma num_of_bit bits j : (j < length bits)%nat ->
  Z.testbit (num_of bits) (zlen bits - 1 - Z.of_nat j) = default false (bits !! j).
Proof.
  revert j. induction bits as [|b bits IH] using rev_ind; intros j Hj; [cbn in Hj; lia|].
  rewrite length_app in Hj. cbn in Hj. rewrite num_of_snoc, zlen_app. change (zlen [b]) with 1.
  destruct (decide (j = length bits)) as [->|Hne].
  - replace (zlen bits + 1 - 1 - Z.of_nat (length bits)) with 0 by (unfold zlen; lia).
    rewrite list_lookup_middle by reflexivity. rewrite Z.testbit_0_r. reflexivity.
  - rewrite lookup_app_l by lia.
    replace (zlen bits + 1 - 1 - Z.of_nat j) with (Z.succ (zlen bits - 1 - Z.of_nat j)) by lia.
    rewrite Z.testbit_succ_r by (unfold zlen; lia). apply IH. lia.
Qed.

Lemma num_of_app l k : num_of (l ++ k) = num_of l * 2 ^ zlen k + num_of k.
Proof.
  induction k as [|b k IH] using rev_ind; [rewrite app_nil_r, zlen_nil; cbn; lia|].
  rewrite app_assoc, !num_of_snoc, IH, zlen_app. change (zlen [b]) with 1. pose proof (zlen_nonneg k).
  rewrite Z.pow_add_r by lia. lia.
Qed.

Lemma num_of_zeros n : num_of (replicate n false) = 0.
Proof.
  induction n as [|n IH]; [reflexivity|]. rewrite replicate_S_end, num_of_snoc, IH. reflexivity.
Qed.

(** The [n] low bits of a number. *)
Fixpoint bits_of (n : nat) (x : Z) : list bool :=
  match n with O => [] | S n => bits_of n (x / 2) ++ [Z.odd x] end.

Lemma length_bits_of n x : length (bits_of n x) = n.
Proof. revert x. induction n as [|n IH]; intros x; cbn; [reflexivity|]. rewrite length_app, IH. cbn. lia. Qed.

Lemma zlen_bits_of n x : zlen (bits_of n x) = Z.of_nat n.
Proof. unfold zlen. rewrite length_bits_of. reflexivity. Qed.

Lemma num_of_bits_of n x : num_of (bits_of n x) = x mod 2 ^ Z.of_nat n.
Proof.
  revert x. induction n as [|n IH]; intros x; [cbn; rewrite Z.mod_1_r; reflexivity|].
  cbn [bits_of]. rewrite num_of_snoc, IH, Nat2Z.inj_succ, Z.pow_succ_r by lia.
  rewrite (Z.rem_mul_r x 2 (2 ^ Z.of_nat n)) by lia. rewrite Zmod_odd. destruct (Z.odd x); cbn [Z.b2z]; lia.
Qed.

Lemma bits_of_num_of l : bits_of (length l) (num_of l) = l.
Proof.
  induction l as [|b l IH] using rev_ind; [reflexivity|]. rewrite length_app, num_of_snoc, Nat.add_1_r. cbn [bits_of].
  assert ((2 * num_of l + Z.b2z b) / 2 = num_of l) as ->
    by (rewrite Z.mul_comm, Z.div_add_l by lia; replace (Z.b2z b / 2) with 0 by (destruct b; reflexivity); lia).
  rewrite IH. do 2 f_equal. rewrite Z.add_comm, Z.odd_add_mul_2. destruct b; reflexivity.
Qed.

Lemma num_of_inj l k : length l = length k -> num_of l = num_of k -> l = k.
Proof. intros Hl Hn. rewrite <- (bits_of_num_of l), <- (bits_of_num_of k), Hl, Hn. reflexivity. Qed.

(** Shifts of a word: to the right they keep its first bits, to the left they
    drop them. *)
Lemma num_shiftr w k : 0 <= k <= zlen w -> Z.shiftr (num_of w) (zlen w - k) = num_of (take (Z.to_nat k) w).
Proof.
  intros Hk. rewrite Z.shiftr_div_pow2 by lia. rewrite <- (take_drop (Z.to_nat k) w) at 1. rewrite num_of_app.
  assert (zlen (drop (Z.to_nat k) w) = zlen w - k) as Hd by (unfold zlen in *; rewrite length_drop; lia).
  rewrite Hd. pose proof (num_of_range (drop (Z.to_nat k) w)) as Hr. rewrite Hd in Hr.
  rewrite Z.div_add_l by lia. rewrite (Z.div_small (num_of (drop _ _))) by exact Hr. lia.
Qed.

Lemma num_shiftl w k : 0 <= k <= zlen w ->
  Z.shiftl (num_of w) k mod 2 ^ zlen w = num_of (drop (Z.to_nat k) w ++ replicate (Z.to_nat k) false).
Proof.
  intros Hk. rewrite Z.shiftl_mul_pow2 by lia. rewrite <- (take_drop (Z.to_nat k) w) at 1.
  rewrite !num_of_app, num_of_zeros.
  assert (zlen (drop (Z.to_nat k) w) = zlen w - k) as Hd by (unfold zlen in *; rewrite length_drop; lia).
  assert (zlen (replicate (Z.to_nat k) false) = k) as -> by (unfold zlen; rewrite length_replicate; lia).
  rewrite Hd. pose proof (num_of_range (drop (Z.to_nat k) w)) as Hr. rewrite Hd in Hr.
  rewrite Z.mul_add_distr_r, <- Z.mul_assoc, <- Z.pow_add_r by lia. replace (zlen w - k + k) with (zlen w) by lia.
  rewrite Z.add_comm, Z_mod_plus_full, Z.mod_small; [lia|]. pose proof (zlen_nonneg w).
  replace (2 ^ zlen w) with (2 ^ (zlen w - k) * 2 ^ k) by (rewrite <- Z.pow_add_r by lia; f_equal; lia). nia.
Qed.

(** Testing one bit with a mask. *)
Lemma land_pow2 v p : 0 <= p -> (Z.land v (2 ^ p) =? 2 ^ p) = Z.testbit v p.
Proof.
  intros Hp. destruct (Z.testbit v p) eqn:E.
  - apply Z.eqb_eq. apply Z.bits_inj'. intros k Hk. rewrite Z.land_spec, Z.pow2_bits_eqb by lia.
    destruct (Z.eqb_spec p k) as [->|]; [rewrite E; reflexivity|apply andb_false_r].
  - apply Z.eqb_neq. intros H. apply (f_equal (fun z => Z.testbit z p)) in H.
    rewrite Z.land_spec, E, Z.pow2_bits_true in H by lia. discriminate.
Qed.

Lemma lxor_u64 v p : is_u64 v -> is_u64 p -> is_u64 (Z.lxor v p).
Proof.
  intros [Hv0 Hv1] [Hp0 Hp1]. assert (0 <= Z.lxor v p) as H0 by (apply Z.lxor_nonneg; lia). split; [exact H0|].
  destruct (Z.eq_dec (Z.lxor v p) 0) as [->|Hn]; [lia|]. apply Z.log2_lt_pow2; [lia|].
  eapply Z.le_lt_trans; [apply Z.log2_lxor; lia|]. apply Z.max_lub_lt.
  - destruct (Z.eq_dec v 0) as [->|]; [reflexivity|]. apply Z.log2_lt_pow2; lia.
  - destruct (Z.eq_dec p 0) as [->|]; [reflexivity|]. apply Z.log2_lt_pow2; lia.
Qed.
