(* ===== verification/BoolCodec.v ===== *)
(** * Boolean blocks

    [tsdb/engine/tsm1/bool.go]: one bit per value, most significant bit first,
    after a type byte and a varint count. *)

From S2P Require Import Prelude Varint.

Definition booleanCompressedBitPacked : Z := 1.

(** ** Encoder *)

Record BooleanEncoder := mkBE { be_bytes : list Z; be_b : Z; be_i : Z; be_n : Z }.

Definition NewBooleanEncoder : BooleanEncoder := mkBE [] 0 0 0.
Definition be_Reset (_ : BooleanEncoder) : BooleanEncoder := mkBE [] 0 0 0.

(** [for e.i < 8 { e.b = e.b << 1; e.i++ }]: at most eight turns. *)
Fixpoint pad (fuel : nat) (e : BooleanEncoder) : BooleanEncoder :=
  match fuel with
  | O => e
  | S f => if be_i e <? 8 then pad f (mkBE (be_bytes e) (u8 (Z.shiftl (be_b e) 1)) (be_i e + 1) (be_n e)) else e
  end.

Definition flush (e : BooleanEncoder) : BooleanEncoder :=
  let e := pad 8 e in
  if be_i e >? 0 then mkBE (be_bytes e ++ [be_b e]) 0 0 (be_n e) else e.

Definition be_Write (b : bool) (e : BooleanEncoder) : BooleanEncoder :=
  let e := if be_i e >=? 8 then flush e else e in
  let x := u8 (Z.shiftl (be_b e) 1) in
  mkBE (be_bytes e) (if b then Z.lor x 1 else x) (be_i e + 1) (be_n e + 1).

Definition be_Bytes (e : BooleanEncoder) : list Z :=
  let e := flush e in
  u8 (Z.shiftl booleanCompressedBitPacked 4) :: PutUvarint (u64 (be_n e)) ++ be_bytes e.

(** ** Decoder *)

Record BooleanDecoder := mkBD { bd_b : list Z; bd_i : Z; bd_n : Z; bd_err : bool }.

Definition bd_SetBytes (b : list Z) (e : BooleanDecoder) : BooleanDecoder :=
  match b with
  | [] => e
  | _ :: b =>
      let '(count, n) := Uvarint b in
      if n <=? 0 then mkBD (bd_b e) (bd_i e) (bd_n e) true else
      let rest := drop (Z.to_nat n) b in
      let min := zlen rest * 8 in
      let n' := i64 count in
      mkBD rest (-1) (if min <? n' then min else n') (bd_err e)
  end.

Definition bd_Next (e : BooleanDecoder) : bool * BooleanDecoder :=
  if bd_err e then (false, e) else
  let e := mkBD (bd_b e) (bd_i e + 1) (bd_n e) (bd_err e) in
  (bd_i e <? bd_n e, e).

(** [None] is the index out of range. *)
Definition bd_Read (e : BooleanDecoder) : option bool :=
  let idx := Z.shiftr (bd_i e) 3 in
  let pos := 7 - Z.land (bd_i e) 7 in
  let mask := u8 (Z.shiftl 1 pos) in
  if idx <? 0 then None else
  v ← bd_b e !! Z.to_nat idx; Some (Z.land v mask =? mask).

(** The loop of the callers: [for dec.Next() { ... dec.Read() ... }]. *)
Fixpoint bd_read_all (fuel : nat) (e : BooleanDecoder) : list bool :=
  match fuel with
  | O => []
  | S f => let '(ok, e) := bd_Next e in
           if ok then match bd_Read e with Some b => b :: bd_read_all f e | None => [] end else []
  end.

Definition encode_bools (l : list bool) : list Z :=
  be_Bytes (fold_left (fun e b => be_Write b e) l NewBooleanEncoder).

Definition decode_bools (b : list Z) : list bool :=
  let d := bd_SetBytes b (mkBD [] 0 0 false) in
  bd_read_all (S (Z.to_nat (bd_n d))) d.

(** ** Bits shifted into a byte *)

Lemma shift_in bits b :
  zlen bits < 8 ->
  (let x := u8 (Z.shiftl (num_of bits) 1) in if b : bool then Z.lor x 1 else x) = num_of (bits ++ [b]).
Proof.
  intros H. pose proof (num_of_range bits) as Hr. pose proof (zlen_nonneg bits).
  assert (num_of bits < 128) as H7.
  { pose proof (Z.pow_le_mono_r 2 (zlen bits) 7 ltac:(lia) ltac:(lia)). lia. }
  rewrite Z.shiftl_mul_pow2 by lia. change (2 ^ 1) with 2. unfold u8. rewrite Z.mod_small by lia.
  cbv zeta. rewrite num_of_snoc. destruct b; cbn [Z.b2z]; [|lia].
  rewrite Z.lor_comm. pose proof (lor_shift_add 1 (num_of bits) 1 ltac:(lia) ltac:(lia)) as E.
  rewrite Z.shiftl_mul_pow2 in E by lia. change (2 ^ 1) with 2 in E. rewrite E. lia.
Qed.

(** ** The encoder *)

(** The encoder has written [l]: full bytes, then up to eight pending bits. *)
Record written (l : list bool) (e : BooleanEncoder) (full : list (list bool)) (cur : list bool) : Prop := {
  wr_split : l = concat full ++ cur;
  wr_full : Forall (fun c => length c = 8%nat) full;
  wr_bytes : be_bytes e = map num_of full;
  wr_b : be_b e = num_of cur;
  wr_i : be_i e = zlen cur;
  wr_le : zlen cur <= 8;
  wr_n : be_n e = zlen l }.

Lemma pad_spec fuel e cur :
  be_b e = num_of cur -> be_i e = zlen cur -> zlen cur <= 8 -> 8 - zlen cur <= Z.of_nat fuel ->
  pad fuel e = mkBE (be_bytes e) (num_of (cur ++ replicate (8 - length cur) false)) 8 (be_n e).
Proof.
  revert e cur. induction fuel as [|f IH]; intros e cur Hb Hi Hle Hf.
  - cbn [pad]. replace (8 - length cur)%nat with 0%nat by (unfold zlen in *; lia). cbn. rewrite app_nil_r, <- Hb.
    assert (be_i e = 8) as Hi8 by lia. destruct e. cbn in *. rewrite Hi8. reflexivity.
  - cbn [pad]. destruct (Z.ltb_spec (be_i e) 8) as [H|H].
    + assert (8 - length cur = S (7 - length cur))%nat as -> by (unfold zlen in *; lia).
      rewrite (IH _ (cur ++ [false])); cbn [be_b be_i be_bytes be_n].
      * rewrite length_app. cbn [length replicate]. rewrite <- app_assoc.
        replace (8 - (length cur + 1))%nat with (7 - length cur)%nat by lia. reflexivity.
      * rewrite Hb. apply (shift_in cur false). lia.
      * rewrite zlen_app. change (zlen [false]) with 1. lia.
      * rewrite zlen_app. change (zlen [false]) with 1. lia.
      * rewrite zlen_app. change (zlen [false]) with 1. lia.
    + replace (8 - length cur)%nat with 0%nat by (unfold zlen in *; lia). cbn. rewrite app_nil_r, <- Hb.
      assert (be_i e = 8) as Hi8 by lia. destruct e. cbn in *. rewrite Hi8. reflexivity.
Qed.

Lemma flush_spec l e full cur :
  written l e full cur ->
  flush e = mkBE (map num_of (full ++ [cur ++ replicate (8 - length cur) false])) 0 0 (zlen l).
Proof.
  intros [Hs Hf Hby Hb Hi Hle Hn]. unfold flush.
  rewrite (pad_spec 8 e cur) by (auto; pose proof (zlen_nonneg cur); lia). cbn [be_i be_bytes be_b be_n].
  cbn [Z.gtb Z.compare Pos.compare]. rewrite Hby, Hn, map_app. reflexivity.
Qed.

Lemma Write_spec l e full cur b :
  written l e full cur -> exists full' cur', written (l ++ [b]) (be_Write b e) full' cur'.
Proof.
  intros H. pose proof H as [Hs Hf Hby Hb Hi Hle Hn]. unfold be_Write.
  destruct (Z.geb_spec (be_i e) 8) as [H8|H8].
  - rewrite (flush_spec l e full cur H). cbn [be_b be_i be_bytes be_n].
    replace (8 - length cur)%nat with 0%nat by (unfold zlen in *; lia). cbn [replicate]. rewrite app_nil_r.
    exists (full ++ [cur]), [b]. split; cbn [be_bytes be_b be_i be_n].
    + rewrite concat_app. cbn. rewrite app_nil_r, Hs. reflexivity.
    + apply Forall_app. split; [exact Hf|]. repeat constructor. unfold zlen in *. lia.
    + reflexivity.
    + apply (shift_in [] b). reflexivity.
    + reflexivity.
    + unfold zlen. cbn. lia.
    + rewrite zlen_app. change (zlen [b]) with 1. lia.
  - exists full, (cur ++ [b]). split; cbn [be_bytes be_b be_i be_n].
    + rewrite Hs, app_assoc. reflexivity.
    + exact Hf.
    + exact Hby.
    + rewrite Hb. apply shift_in. lia.
    + rewrite zlen_app. change (zlen [b]) with 1. lia.
    + rewrite zlen_app. change (zlen [b]) with 1. lia.
    + rewrite zlen_app. change (zlen [b]) with 1. lia.
Qed.

(** The packed bits are those of the values, padded to whole bytes. *)
Lemma encode_spec l :
  exists chunks k, Forall (fun c => length c = 8%nat) chunks /\ concat chunks = l ++ replicate k false
    /\ encode_bools l = 16 :: PutUvarint (u64 (zlen l)) ++ map num_of chunks.
Proof.
  assert (exists full cur, written l (fold_left (fun e b => be_Write b e) l NewBooleanEncoder) full cur) as (full & cur & W).
  { induction l as [|b l IH] using rev_ind.
    - exists [], []. split; try reflexivity; try constructor. unfold zlen. cbn. lia.
    - destruct IH as (full & cur & W). rewrite fold_left_app. cbn [fold_left]. eapply Write_spec, W. }
  unfold encode_bools, be_Bytes. rewrite (flush_spec l _ full cur W). cbn [be_n be_bytes].
  exists (full ++ [cur ++ replicate (8 - length cur) false]), (8 - length cur)%nat.
  destruct W as [Hs Hf _ _ _ Hle _]. split; [|split; [|reflexivity]].
  - apply Forall_app. split; [exact Hf|]. repeat constructor. rewrite length_app, length_replicate.
    unfold zlen in Hle. lia.
  - rewrite concat_app, Hs. cbn. rewrite app_nil_r, app_assoc. reflexivity.
Qed.

(** ** The decoder *)

Lemma concat_chunks_lookup (chunks : list (list bool)) i :
  Forall (fun c => length c = 8%nat) chunks ->
  concat chunks !! i = (chunks !! (i / 8)%nat ≫= fun c => c !! (i mod 8)%nat).
Proof.
  intros H. revert i. induction H as [|c chunks Hc _ IH]; intros i; [reflexivity|]. cbn [concat].
  destruct (decide (i < 8)%nat) as [Hlt|Hge].
  - rewrite lookup_app_l by lia. rewrite Nat.div_small, Nat.mod_small by lia. reflexivity.
  - rewrite lookup_app_r by lia. rewrite Hc, IH.
    assert (i / 8 = S ((i - 8) / 8) /\ i mod 8 = (i - 8) mod 8)%nat as [-> ->]; [|reflexivity].
    pose proof (Nat.div_add (i - 8) 1 8 ltac:(lia)) as Hd. pose proof (Nat.Div0.mod_add (i - 8) 1 8) as Hm.
    replace (i - 8 + 1 * 8)%nat with i in Hd, Hm by lia. lia.
Qed.

Lemma Read_bit chunks i n :
  Forall (fun c => length c = 8%nat) chunks -> (i < length (concat chunks))%nat ->
  bd_Read (mkBD (map num_of chunks) (Z.of_nat i) n false) = concat chunks !! i.
Proof.
  intros Hc Hi. unfold bd_Read. cbn [bd_i bd_b]. rewrite Z.shiftr_div_pow2 by lia. change (2 ^ 3) with (Z.of_nat 8).
  assert (Z.land (Z.of_nat i) 7 = Z.of_nat (i mod 8)) as ->.
  { change 7 with (Z.ones 3). rewrite Z.land_ones by lia. rewrite Nat2Z.inj_mod. reflexivity. }
  rewrite <- Nat2Z.inj_div, Nat2Z.id. destruct (Z.ltb_spec (Z.of_nat (i / 8)) 0); [lia|]. rewrite concat_chunks_lookup by exact Hc.
  pose proof (Nat.mod_upper_bound i 8 ltac:(lia)) as Hm.
  rewrite list_lookup_fmap. destruct (chunks !! (i / 8)%nat) as [c|] eqn:Ec;
    cbn [fmap option_fmap option_map mbind option_bind]; [|reflexivity].
  assert (length c = 8%nat) as Hl.
  { rewrite Forall_forall in Hc. apply Hc. eapply list_elem_of_lookup_2, Ec. }
  set (m := (i mod 8)%nat) in *.
  assert (u8 (Z.shiftl 1 (7 - Z.of_nat m)) = 2 ^ (7 - Z.of_nat m)) as ->.
  { rewrite Z.shiftl_mul_pow2, Z.mul_1_l by lia. unfold u8. apply Z.mod_small. split; [lia|].
    apply Z.pow_lt_mono_r; lia. }
  rewrite land_pow2 by lia.
  pose proof (num_of_bit c m ltac:(lia)) as Hb. unfold zlen in Hb. rewrite Hl in Hb.
  replace (Z.of_nat 8 - 1 - Z.of_nat m) with (7 - Z.of_nat m) in Hb by lia. rewrite Hb.
  destruct (c !! m) eqn:Em; [reflexivity|]. apply lookup_ge_None in Em. lia.
Qed.

Lemma read_all_spec fuel chunks l pad k :
  Forall (fun c => length c = 8%nat) chunks -> concat chunks = l ++ pad -> (k <= length l)%nat ->
  (length l - k < fuel)%nat ->
  bd_read_all fuel (mkBD (map num_of chunks) (Z.of_nat k - 1) (zlen l) false) = drop k l.
Proof.
  intros Hc Hl. revert k. induction fuel as [|f IH]; intros k Hk Hf; [lia|].
  cbn [bd_read_all]. unfold bd_Next. cbn [bd_err bd_i bd_n bd_b].
  replace (Z.of_nat k - 1 + 1) with (Z.of_nat k) by lia.
  destruct (Z.ltb_spec (Z.of_nat k) (zlen l)) as [H|H]; unfold zlen in H.
  - rewrite (Read_bit chunks k) by (auto; rewrite Hl, length_app; lia). rewrite Hl, lookup_app_l by lia.
    destruct (l !! k) as [b|] eqn:Eb; [|apply lookup_ge_None in Eb; lia].
    rewrite (drop_S l b k Eb). f_equal. specialize (IH (S k) ltac:(lia) ltac:(lia)).
    replace (Z.of_nat (S k) - 1) with (Z.of_nat k) in IH by lia. exact IH.
  - rewrite drop_ge by lia. reflexivity.
Qed.

(** The decoder after [SetBytes], when no earlier error sticks to it. *)
Lemma SetBytes_encoded l d : zlen l < 2 ^ 62 -> bd_err d = false ->
  exists chunks pad, bd_SetBytes (encode_bools l) d = mkBD (map num_of chunks) (-1) (zlen l) false
    /\ Forall (fun c => length c = 8%nat) chunks /\ concat chunks = l ++ pad.
Proof.
  intros Hl He. pose proof (zlen_nonneg l). destruct (encode_spec l) as (chunks & k & Hc & Hcat & ->).
  exists chunks, (replicate k false). split; [|auto].
  unfold bd_SetBytes. rewrite Uvarint_PutUvarint by apply u64_range. rewrite u64_small by lia. pose proof (zlen_PutUvarint (zlen l)).
  destruct (Z.leb_spec (zlen (PutUvarint (zlen l))) 0); [lia|]. rewrite drop_app_zlen.
  rewrite He, (i64_small (zlen l)) by lia.
  assert (zlen l <= zlen (map num_of chunks) * 8) as Hmin.
  { assert (zlen (concat chunks) = zlen chunks * 8) as Hz.
    { clear -Hc. induction Hc as [|c cs Hc _ IH]; [reflexivity|]. cbn [concat]. rewrite zlen_app, zlen_cons, IH.
      unfold zlen at 1. rewrite Hc. lia. }
    unfold zlen at 2. rewrite length_map. fold (zlen chunks). rewrite <- Hz, Hcat, zlen_app.
    pose proof (zlen_nonneg (replicate k false)). lia. }
  destruct (Z.ltb_spec (zlen (map num_of chunks) * 8) (zlen l)); [lia|]. reflexivity.
Qed.

(** (Round trip.) A boolean block decodes to the booleans it was built
    from, whatever their number: the padding of the last byte is not read. *)
Theorem bool_roundtrip (l : list bool) : zlen l < 2 ^ 62 -> decode_bools (encode_bools l) = l.
Proof.
  intros Hl. destruct (SetBytes_encoded l (mkBD [] 0 0 false) Hl eq_refl) as (chunks & pad & E & Hc & Hcat).
  unfold decode_bools. rewrite E. cbn [bd_n]. apply (read_all_spec _ chunks l pad 0 Hc Hcat); unfold zlen; lia.
Qed.

Lemma bool_roundtrip_witness :
  decode_bools (encode_bools [true; false; true; true; false; false; false; true; true])
  = [true; false; true; true; false; false; false; true; true].
Proof.
  apply (bool_roundtrip [true; false; true; true; false; false; false; true; true]). vm_compute. reflexivity.
Defined.
