(* ===== verification/Simple8b.v ===== *)
(** * The interface of package [simple8b]

    [github.com/jwilder/encoding/simple8b] packs small unsigned integers into
    64-bit words.  Its code is not part of this repository, so the codecs of
    [timestamp.go] and [int.go] are written against the class [Simple8b] of the
    operations they call, and their round trips use only the class
    [Simple8bLaws] of its documented behaviour: values up to [MaxValue] are
    accepted, and what was packed is unpacked.  [plain_words] is a codec that
    satisfies the laws (one value per word); it instantiates them in
    the witnesses. *)

From S2P Require Import Prelude Varint.

Class Simple8b := {
  s8_MaxValue : Z;
  (** the block functions: a slice of words, and the values of one word *)
  s8_EncodeAll : list Z -> res tsm_error (list Z);
  s8_Decode : Z -> res tsm_error (list Z);
  (** the streaming encoder *)
  s8_Encoder : Type;
  s8_NewEncoder : s8_Encoder;
  s8_Reset : s8_Encoder -> s8_Encoder;
  s8_Write : Z -> M s8_Encoder tsm_error unit;
  s8_Bytes : M s8_Encoder tsm_error (list Z);
  (** the values [Next] and [Read] deliver after [SetBytes] *)
  s8_dec_values : list Z -> list Z;
  s8_CountBytes : list Z -> Z;
}.

(** A loop of [Write]s that stops at the first error. *)
Fixpoint s8_write_all `{Simple8b} (vs : list Z) : M s8_Encoder tsm_error unit :=
  match vs with
  | [] => ret tt
  | v :: vs => do* s8_Write v in s8_write_all vs
  end.

Definition s8_ok `{Simple8b} (v : Z) : Prop := 0 <= v <= s8_MaxValue.

Class Simple8bLaws `{Simple8b} : Prop := {
  s8_max : 0 <= s8_MaxValue < 2 ^ 64;
  (** the destination of a word is an array of 240 values *)
  s8_Decode_len : forall w l, s8_Decode w = Ok l -> zlen l <= 240;
  (** a sequence of packable values is packed, and every word unpacks *)
  s8_block : forall vs, Forall s8_ok vs ->
    exists ws vss, s8_EncodeAll vs = Ok ws /\ Forall is_u64 ws /\ concat vss = vs
      /\ Forall2 (fun w l => s8_Decode w = Ok l /\ 1 <= zlen l <= 240) ws vss;
  (** the same for the stream, from a new or reset encoder; a word holds at
      least one value *)
  s8_stream : forall vs e, e = s8_NewEncoder \/ (exists e', e = s8_Reset e') -> Forall s8_ok vs ->
    exists e1 e2 bs, s8_write_all vs e = (Ok tt, e1) /\ s8_Bytes e1 = (Ok bs, e2)
      /\ s8_dec_values bs = vs /\ s8_CountBytes bs = zlen vs /\ zlen bs <= 8 * zlen vs;
}.

(** ** Words of eight bytes *)

Fixpoint words (n : nat) (b : list Z) : list Z :=
  match n with O => [] | S n => de64 (take 8 b) :: words n (drop 8 b) end.

Definition put_words (l : list Z) : list Z := concat (map be64 l).

Lemma zlen_put_words l : zlen (put_words l) = 8 * zlen l.
Proof.
  unfold put_words. induction l as [|v l IH]; [reflexivity|]. cbn [map concat].
  rewrite zlen_app, IH, zlen_be64, zlen_cons. lia.
Qed.

Lemma take_be64 v b : take 8 (be64 v ++ b) = be64 v.
Proof. apply (take_app_zlen (be64 v) b). Qed.

Lemma drop_be64 v b : drop 8 (be64 v ++ b) = b.
Proof. apply (drop_app_zlen (be64 v) b). Qed.

Lemma words_put l : Forall is_u64 l -> words (length l) (put_words l) = l.
Proof.
  intros H. unfold put_words. induction H as [|v l Hv _ IH]; [reflexivity|]. cbn [length words map concat].
  rewrite take_be64, drop_be64, de64_be64 by exact Hv. rewrite IH. reflexivity.
Qed.

Lemma words_put_len l : Forall is_u64 l -> words (length (put_words l) / 8) (put_words l) = l.
Proof.
  intros H. pose proof (zlen_put_words l) as Hz. unfold zlen in Hz.
  replace (length (put_words l)) with (length l * 8)%nat by lia. rewrite Nat.div_mul by lia. apply words_put, H.
Qed.

#[export] Hint Rewrite zlen_put_words : zlen.

(** ** A codec that satisfies the laws *)

Definition plain_max : Z := 2 ^ 60 - 1.

Definition plain_words : Simple8b := {|
  s8_MaxValue := plain_max;
  s8_EncodeAll vs := if forallb (fun v => v <=? plain_max) vs then Ok vs else Err ErrSimple8b;
  s8_Decode w := Ok [w];
  s8_Encoder := list Z;
  s8_NewEncoder := [];
  s8_Reset _ := [];
  s8_Write v l := if v <=? plain_max then (Ok tt, l ++ [v]) else (Err ErrSimple8b, l);
  s8_Bytes l := (Ok (put_words l), l);
  s8_dec_values b := words (length b / 8) b;
  s8_CountBytes b := zlen b / 8;
|}.

Lemma plain_u64 l : Forall (@s8_ok plain_words) l -> Forall is_u64 l.
Proof. intros H. eapply Forall_impl; [exact H|]. intros v [H0 H1]. change (v <= plain_max) in H1. unfold plain_max in H1. split; lia. Qed.

Lemma plain_write_all vs e : Forall (@s8_ok plain_words) vs -> @s8_write_all plain_words vs e = (Ok tt, e ++ vs).
Proof.
  intros H. revert e. induction H as [|v vs [_ Hv] _ IH]; intros e; [rewrite app_nil_r; reflexivity|].
  cbn [s8_write_all]. change (v <= plain_max) in Hv. unfold bind at 1. cbn [s8_Write plain_words].
  destruct (Z.leb_spec v plain_max); [|lia]. rewrite IH, <- app_assoc. reflexivity.
Qed.

Lemma plain_laws : @Simple8bLaws plain_words.
Proof.
  split.
  - vm_compute. split; [intros H; discriminate H|reflexivity].
  - intros w l H. injection H as <-. vm_compute. intros H. discriminate H.
  - intros vs H. exists vs, (map (fun v => [v]) vs). repeat split.
    + cbn [s8_EncodeAll plain_words].
      assert (forallb (fun v => v <=? plain_max) vs = true) as ->; [|reflexivity].
      apply forallb_forall. intros v Hv. rewrite Forall_forall in H. apply Z.leb_le, H, list_elem_of_In, Hv.
    + apply plain_u64, H.
    + clear H. induction vs as [|v vs IH]; cbn; [|rewrite IH]; reflexivity.
    + clear H. induction vs as [|v vs IH]; cbn; constructor; [|exact IH]. split; [reflexivity|vm_compute].
      split; intros H; discriminate H.
  - intros vs e He H. exists vs, vs, (put_words vs).
    assert (e = []) as -> by (destruct He as [->|[e' ->]]; reflexivity).
    split; [apply plain_write_all, H|]. split; [reflexivity|]. cbn [s8_dec_values s8_CountBytes plain_words].
    split; [apply words_put_len, plain_u64, H|]. rewrite zlen_put_words. split; [|lia].
    rewrite Z.mul_comm, Z.div_mul by lia. reflexivity.
Qed.
