(* ===== verification/TimeCodec.v ===== *)
(** * Timestamp blocks

    [tsdb/engine/tsm1/timestamp.go]: timestamps are delta-encoded, scaled by
    the largest common power of ten, and stored run-length encoded, packed with
    simple8b or raw.  The output buffer the encoder keeps between calls only
    saves an allocation and is not part of the model. *)

From S2P Require Import Prelude Varint Simple8b.

Definition timeUncompressed : Z := 0.
Definition timeCompressedPackedSimple : Z := 1.
Definition timeCompressedRLE : Z := 2.

(** [math.Log10] of a power of ten, truncated to an integer, and [math.Pow10]. *)
Fixpoint log10 (fuel : nat) (d : Z) : Z :=
  match fuel with O => 0 | S f => if d <? 10 then 0 else 1 + log10 f (d / 10) end.
Definition Log10 (d : Z) : Z := log10 20 d.
Definition Pow10 (n : Z) : Z := 10 ^ n.

Section Time.
Context `{S8 : Simple8b}.

(** ** Encoder *)

Record encoder := mkEncoder { en_ts : list Z; en_enc : s8_Encoder }.

Definition NewTimeEncoder : encoder := mkEncoder [] s8_NewEncoder.
Definition te_Reset (e : encoder) : encoder := mkEncoder [] (s8_Reset (en_enc e)).
Definition te_Write (t : Z) (e : encoder) : encoder := mkEncoder (en_ts e ++ [u64 t]) (en_enc e).

(** [for divisor > 1 && v%divisor != 0 { divisor /= 10 }]: from [1e12] at most
    twelve turns. *)
Fixpoint shrink (fuel : nat) (divisor v : Z) : Z :=
  match fuel with
  | O => divisor
  | S f => if (divisor >? 1) && negb (v mod divisor =? 0) then shrink f (divisor / 10) v else divisor
  end.

(** The body of the loop of [reduce], for [i] down to 1, on the slice itself. *)
Fixpoint reduce_loop (n i : nat) (max divisor : Z) (rle : bool) (deltas : list Z) : Z * Z * bool * list Z :=
  match i with
  | O => (max, divisor, rle, deltas)
  | S j =>
      let v := u64 (deltas !!! i - deltas !!! j) in
      let deltas := <[i := v]> deltas in
      let max := if v >? max then v else max in
      let divisor := shrink 12 divisor v in
      let rle := Nat.eqb i (n - 1) || rle && (deltas !!! S i =? deltas !!! i) in
      reduce_loop n j max divisor rle deltas
  end.

Definition reduce (ts : list Z) : Z * Z * bool * list Z :=
  reduce_loop (length ts) (length ts - 1) 0 (10 ^ 12) true ts.

Definition te_encodeRLE (first delta div n : Z) : list Z :=
  Z.lor (u8 (Z.shiftl timeCompressedRLE 4)) (Log10 div) :: be64 first ++ PutUvarint (delta / div) ++ PutUvarint (u64 n).

Definition te_encodeRaw (ts : list Z) : list Z := u8 (Z.shiftl timeUncompressed 4) :: put_words ts.

Definition on_enc {A} (m : M s8_Encoder tsm_error A) : M encoder tsm_error A :=
  fun e => let '(r, s) := m (en_enc e) in (r, mkEncoder (en_ts e) s).

Definition te_encodePacked (div : Z) (dts : list Z) : M encoder tsm_error (list Z) :=
  do* on_enc (s8_write_all (if div >? 1 then map (fun v => v / div) (tail dts) else tail dts)) in
  let* deltas := on_enc s8_Bytes in
  ret (Z.lor (u8 (Z.shiftl timeCompressedPackedSimple 4)) (Log10 div) :: be64 (dts !!! 0%nat) ++ deltas).

(** [reduce] works in place: the deltas replace the timestamps of the encoder. *)
Definition te_Bytes : M encoder tsm_error (list Z) := fun e =>
  if zlen (en_ts e) =? 0 then (Ok [], e) else
  let '(max, div, rle, dts) := reduce (en_ts e) in
  let e := mkEncoder dts (en_enc e) in
  if rle && (zlen (en_ts e) >? 1) then (Ok (te_encodeRLE (en_ts e !!! 0%nat) (en_ts e !!! 1%nat) div (zlen (en_ts e))), e) else
  if max >? s8_MaxValue then (Ok (te_encodeRaw (en_ts e)), e) else
  te_encodePacked div dts e.

(** ** Decoder *)

Record TimeDecoder := mkTD {
  td_v : Z; td_i : Z; td_n : Z; td_ts : list Z; td_err : option tsm_error; td_rleDelta : Z; td_encoding : Z;
}.

Definition td_fail (w : string) (d : TimeDecoder) : TimeDecoder :=
  mkTD (td_v d) (td_i d) (td_n d) (td_ts d) (Some (ErrDecode w)) (td_rleDelta d) (td_encoding d).
Definition td_set_ts (ts : list Z) (d : TimeDecoder) : TimeDecoder :=
  mkTD (td_v d) 0 (td_n d) ts (td_err d) (td_rleDelta d) (td_encoding d).

(** [dgap := deltas[i] * div; deltas[i] = last + dgap; last = deltas[i]] *)
Fixpoint prefix_scaled (div last : Z) (deltas : list Z) : list Z :=
  match deltas with
  | [] => []
  | x :: r => let y := u64 (last + u64 (x * div)) in y :: prefix_scaled div y r
  end.

(** [deltas[i] += last; last = deltas[i]] *)
Fixpoint prefix_sum (last : Z) (deltas : list Z) : list Z :=
  match deltas with
  | [] => []
  | x :: r => let y := u64 (x + last) in y :: prefix_sum y r
  end.

Definition td_decodePacked (b : list Z) (d : TimeDecoder) : TimeDecoder :=
  if zlen b <? 9 then td_fail "TimeDecoder: not enough data to decode packed timestamps" d else
  let div := u64 (Pow10 (Z.land (b !!! 0%nat) 15)) in
  let first := de64 (take 8 (drop 1 b)) in
  let deltas := s8_dec_values (drop 9 b) in
  td_set_ts (first :: (if div >? 1 then prefix_scaled div first deltas else prefix_sum first deltas)) d.

Definition td_decodeRLE (b : list Z) (d : TimeDecoder) : TimeDecoder :=
  if zlen b <? 9 then td_fail "TimeDecoder: not enough data for initial RLE timestamp" d else
  let mod_ := Pow10 (Z.land (b !!! 0%nat) 15) in
  let first := de64 (take 8 (drop 1 b)) in
  let b := drop 9 b in
  let '(value, n) := Uvarint b in
  if n <=? 0 then td_fail "TimeDecoder: invalid run length in decodeRLE" d else
  let value := u64 (value * u64 mod_) in
  let b := drop (Z.to_nat n) b in
  let '(count, n) := Uvarint b in
  if n <=? 0 then td_fail "TimeDecoder: invalid repeat value in decodeRLE" d else
  mkTD (i64 (u64 (first - value))) (-1) (i64 count) (td_ts d) (td_err d) (i64 value) (td_encoding d).

Definition td_decodeRaw (b : list Z) (d : TimeDecoder) : TimeDecoder :=
  td_set_ts (match words (length b / 8) b with
             | [] => []
             | first :: deltas => first :: prefix_sum first deltas
             end) d.

Definition td_decode (b : list Z) (d : TimeDecoder) : TimeDecoder :=
  if zlen b =? 0 then d else
  if td_encoding d =? timeUncompressed then td_decodeRaw (drop 1 b) d else
  if td_encoding d =? timeCompressedRLE then td_decodeRLE b d else
  if td_encoding d =? timeCompressedPackedSimple then td_decodePacked b d else
  td_fail "unknown encoding" d.

Definition td_Init (b : list Z) (d : TimeDecoder) : TimeDecoder :=
  let enc := match b with [] => td_encoding d | b0 :: _ => Z.shiftr b0 4 end in
  td_decode b (mkTD 0 0 (td_n d) [] None (td_rleDelta d) enc).

Definition td_Next (d : TimeDecoder) : bool * TimeDecoder :=
  match td_err d with
  | Some _ => (false, d)
  | None =>
      if td_encoding d =? timeCompressedRLE then
        if td_i d >=? td_n d then (false, d) else
        let d := mkTD (i64 (td_v d + td_rleDelta d)) (td_i d + 1) (td_n d) (td_ts d) None (td_rleDelta d) (td_encoding d) in
        (td_i d <? td_n d, d)
      else
        if td_i d >=? zlen (td_ts d) then (false, d) else
        (true, mkTD (i64 (td_ts d !!! Z.to_nat (td_i d))) (td_i d + 1) (td_n d) (td_ts d) None (td_rleDelta d) (td_encoding d))
  end.

Definition td_Read (d : TimeDecoder) : Z := td_v d.
Definition td_Error (d : TimeDecoder) : option tsm_error := td_err d.

Definition CountTimestamps (b : list Z) : option Z :=
  match b with
  | [] => Some 0
  | b0 :: _ =>
      let enc := Z.shiftr b0 4 in
      if enc =? timeUncompressed then Some (zlen (drop 1 b) / 8) else
      if enc =? timeCompressedRLE then
        if zlen b <? 9 then None else
        let '(_, n) := Uvarint (drop 9 b) in
        if 9 + n <? 0 then None else
        Some (i64 (Uvarint (drop (Z.to_nat (9 + n)) b)).1) else
      if enc =? timeCompressedPackedSimple then
        if zlen b <? 9 then None else Some (s8_CountBytes (drop 9 b) + 1)
      else Some 0
  end.

(** [for d.Next() { ... d.Read() ... }], and the encoder after its writes. *)
Fixpoint td_read_all (fuel : nat) (d : TimeDecoder) : list Z :=
  match fuel with
  | O => []
  | S f => let '(ok, d) := td_Next d in if ok then td_Read d :: td_read_all f d else []
  end.

Definition te_write_all (ts : list Z) (e : encoder) : encoder := fold_left (fun e t => te_Write t e) ts e.

(** The zero [TimeDecoder]. *)
Definition td_zero : TimeDecoder := mkTD 0 0 0 [] None 0 0.

(** ** Deltas *)

Fixpoint diffs (prev : Z) (ts : list Z) : list Z :=
  match ts with [] => [] | t :: r => u64 (t - prev) :: diffs t r end.
Definition deltas (ts : list Z) : list Z := match ts with [] => [] | t :: r => t :: diffs t r end.

Lemma length_diffs p ts : length (diffs p ts) = length ts.
Proof. revert p. induction ts as [|t ts IH]; intros p; cbn; [|rewrite IH]; reflexivity. Qed.

Lemma length_deltas ts : length (deltas ts) = length ts.
Proof. destruct ts; cbn; [reflexivity|]. rewrite length_diffs. reflexivity. Qed.

Lemma diffs_u64 p ts : Forall is_u64 (diffs p ts).
Proof. revert p. induction ts as [|t ts IH]; intros p; cbn; constructor; [apply u64_range|apply IH]. Qed.

Lemma diffs_lookup p ts j : (j < length ts)%nat ->
  diffs p ts !!! j = u64 ((p :: ts) !!! S j - (p :: ts) !!! j).
Proof.
  revert p j. induction ts as [|t ts IH]; intros p j Hj; [cbn in Hj; lia|].
  destruct j as [|j]; [reflexivity|]. cbn in Hj. cbn [diffs]. change ((u64 (t - p) :: diffs t ts) !!! S j) with (diffs t ts !!! j).
  rewrite IH by lia. reflexivity.
Qed.

Lemma deltas_lookup ts j : (S j < length ts)%nat -> deltas ts !!! S j = u64 (ts !!! S j - ts !!! j).
Proof. destruct ts as [|t ts]; cbn [length]; intros Hj; [lia|]. apply (diffs_lookup t ts j). lia. Qed.

(** The prefix sums of the deltas are the timestamps. *)
Lemma prefix_sum_diffs p ts : Forall is_u64 ts -> prefix_sum p (diffs p ts) = ts.
Proof.
  intros Hts. revert p. induction Hts as [|t ts Ht _ IH]; intros p; [reflexivity|]. cbn [diffs prefix_sum].
  assert (u64 (u64 (t - p) + p) = t) as ->; [|rewrite IH; reflexivity].
  rewrite u64_add_l. replace (t - p + p) with t by lia. apply u64_small, Ht.
Qed.

Lemma prefix_scaled_sum div p l : 0 < div -> Forall (fun x => is_u64 x /\ (div | x)) l ->
  prefix_scaled div p (map (fun v => v / div) l) = prefix_sum p l.
Proof.
  intros Hd Hl. revert p. induction Hl as [|x l [Hx Hdiv] _ IH]; intros p; [reflexivity|].
  cbn [map prefix_scaled prefix_sum]. rewrite Z.mul_comm, <- Z_div_exact_full_2; [|lia|apply Z.mod_divide; [lia|exact Hdiv]].
  rewrite (u64_small x Hx), (Z.add_comm p x), IH. reflexivity.
Qed.

(** ** The common divisor *)

Definition pow10 (d : Z) : Prop := exists k, (k <= 12)%nat /\ d = 10 ^ Z.of_nat k.

Lemma pow10_pos d : pow10 d -> 1 <= d <= 10 ^ 12.
Proof.
  intros (k & Hk & ->). split; [apply (Z.pow_le_mono_r 10 0); lia|apply Z.pow_le_mono_r; lia].
Qed.

Lemma shrink_spec fuel k v : (k <= fuel)%nat ->
  exists j, (j <= k)%nat /\ shrink fuel (10 ^ Z.of_nat k) v = 10 ^ Z.of_nat j /\ (10 ^ Z.of_nat j | v).
Proof.
  revert k. induction fuel as [|f IH]; intros k Hk.
  { exists 0%nat. replace k with 0%nat by lia. split; [lia|]. split; [reflexivity|]. apply Z.divide_1_l. }
  cbn [shrink]. rewrite Z.gtb_ltb. destruct (Z.ltb_spec 1 (10 ^ Z.of_nat k)) as [Hgt|Hle]; cbn [andb].
  2:{ exists k. split; [lia|]. split; [reflexivity|]. assert (0 < 10 ^ Z.of_nat k) by lia.
      replace (10 ^ Z.of_nat k) with 1 by lia. apply Z.divide_1_l. }
  destruct (Z.eqb_spec (v mod 10 ^ Z.of_nat k) 0) as [E|E]; cbn [negb].
  - exists k. split; [lia|]. split; [reflexivity|]. apply Z.mod_divide; [lia|exact E].
  - destruct k as [|k]; [cbn in Hgt; lia|]. rewrite Nat2Z.inj_succ, Z.pow_succ_r, (Z.mul_comm 10), Z.div_mul by lia.
    destruct (IH k ltac:(lia)) as (j & Hj & Hs & Hd). exists j. split; [lia|auto].
Qed.

Lemma shrink_pow10 d v : pow10 d -> pow10 (shrink 12 d v) /\ (shrink 12 d v | v) /\ (shrink 12 d v | d).
Proof.
  intros (k & Hk & ->). destruct (shrink_spec 12 k v Hk) as (j & Hj & -> & Hd). split; [exists j; split; [lia|reflexivity]|].
  split; [exact Hd|]. exists (10 ^ Z.of_nat (k - j)). rewrite <- Z.pow_add_r by lia. f_equal. lia.
Qed.

(** ** The in-place reduction *)

(** After the loop has gone down to [i], the slice holds the timestamps up to
    [i] and the deltas above it, and the three results speak of those deltas. *)
Record reduced (ts : list Z) (i : nat) (max div : Z) (rle : bool) (d : list Z) : Prop := {
  rd_d : d = take (S i) ts ++ drop (S i) (deltas ts);
  rd_max : Forall (fun v => v <= max) (drop (S i) (deltas ts));
  rd_div : pow10 div /\ Forall (fun v => (div | v)) (drop (S i) (deltas ts));
  rd_rle : rle = true -> forall v w, v ∈ drop (S i) (deltas ts) -> w ∈ drop (S i) (deltas ts) -> v = w;
}.

Lemma drop_deltas ts j : (S j < length ts)%nat ->
  drop (S j) (deltas ts) = u64 (ts !!! S j - ts !!! j) :: drop (S (S j)) (deltas ts).
Proof.
  intros Hj. rewrite <- deltas_lookup by exact Hj. apply drop_S, list_lookup_lookup_total_lt.
  rewrite length_deltas. exact Hj.
Qed.

Lemma reduced_step ts i max div rle d :
  (S i < length ts)%nat -> reduced ts (S i) max div rle d ->
  let v := u64 (d !!! S i - d !!! i) in
  let d' := <[S i := v]> d in
  reduced ts i (if v >? max then v else max) (shrink 12 div v)
    (Nat.eqb (S i) (length ts - 1) || rle && (d' !!! S (S i) =? d' !!! S i)) d'.
Proof.
  intros Hi [Hd Hmax [Hp Hdiv] Hrle] v d'. pose proof (length_deltas ts) as Hlen.
  assert (d !!! S i = ts !!! S i /\ d !!! i = ts !!! i) as [E1 E2].
  { subst d. rewrite !lookup_total_app_l by (rewrite length_take; lia).
    rewrite !lookup_total_take_lt by lia. auto. }
  assert (v = u64 (ts !!! S i - ts !!! i)) as Ev by (unfold v; rewrite E1, E2; reflexivity).
  assert (d' = take (S i) ts ++ v :: drop (S (S i)) (deltas ts)) as Ed'.
  { unfold d'. subst d. rewrite (take_S_r ts (S i) (ts !!! S i)) by (apply list_lookup_lookup_total_lt; lia).
    rewrite <- app_assoc. cbn [app]. rewrite insert_app_r_alt by (rewrite length_take; lia).
    rewrite length_take, Nat.min_l, Nat.sub_diag by lia. reflexivity. }
  destruct (shrink_pow10 div v Hp) as (Hp' & Hv & Hdd).
  split; rewrite ?drop_deltas, <- ?Ev by exact Hi.
  - exact Ed'.
  - rewrite Z.gtb_ltb. constructor; [destruct (Z.ltb_spec max v); lia|].
    eapply Forall_impl; [exact Hmax|]. intros x Hx. cbn in Hx. destruct (Z.ltb_spec max v); lia.
  - split; [exact Hp'|]. constructor; [exact Hv|]. eapply Forall_impl; [exact Hdiv|].
    intros x Hx. eapply Z.divide_trans; [exact Hdd|exact Hx].
  - intros Hr. assert (forall w, w ∈ drop (S (S i)) (deltas ts) -> w = v) as Hall.
    { apply orb_prop in Hr as [Hr|Hr].
      - apply Nat.eqb_eq in Hr. rewrite drop_ge by lia. intros w Hw. inversion Hw.
      - apply andb_prop in Hr as [-> Hr]. apply Z.eqb_eq in Hr. rewrite Ed' in Hr.
        rewrite !lookup_total_app_r in Hr by (rewrite length_take; lia).
        rewrite length_take, Nat.min_l, Nat.sub_diag in Hr by lia. replace (S (S i) - S i)%nat with 1%nat in Hr by lia.
        cbn [lookup_total list_lookup_total] in Hr. destruct (drop (S (S i)) (deltas ts)) as [|w0 l] eqn:El.
        + intros w Hw. inversion Hw.
        + cbn in Hr. subst w0. intros w Hw. apply (Hrle eq_refl); [exact Hw|left]. }
    intros x y Hx Hy. apply elem_of_cons in Hx as [->|Hx], Hy as [->|Hy]; rewrite ?(Hall x), ?(Hall y); auto.
Qed.

Lemma reduce_loop_spec ts i max div rle d :
  (i < length ts)%nat -> reduced ts i max div rle d ->
  exists max' div' rle' d', reduce_loop (length ts) i max div rle d = (max', div', rle', d')
    /\ reduced ts 0 max' div' rle' d'.
Proof.
  revert max div rle d. induction i as [|i IH]; intros max div rle d Hi Hr.
  { exists max, div, rle, d. split; [reflexivity|exact Hr]. }
  cbn [reduce_loop]. apply IH; [lia|]. apply reduced_step; [lia|exact Hr].
Qed.

Lemma reduce_spec ts : ts <> [] ->
  exists max div rle, reduce ts = (max, div, rle, deltas ts)
    /\ Forall (fun v => v <= max) (tail (deltas ts))
    /\ pow10 div /\ Forall (fun v => (div | v)) (tail (deltas ts))
    /\ (rle = true -> forall v w, v ∈ tail (deltas ts) -> w ∈ tail (deltas ts) -> v = w).
Proof.
  intros Hne. destruct ts as [|t ts]; [congruence|]. set (l := t :: ts) in *.
  assert (drop (S (length l - 1)) (deltas l) = []) as Hnil by (apply drop_ge; rewrite length_deltas; unfold l; cbn; lia).
  destruct (reduce_loop_spec l (length l - 1) 0 (10 ^ 12) true l) as (max & div & rle & d & E & [Hd Hmax [Hp Hdiv] Hrle]).
  - unfold l. cbn. lia.
  - split; rewrite ?Hnil.
    + rewrite take_ge by (unfold l; cbn; lia). rewrite app_nil_r. reflexivity.
    + constructor.
    + split; [exists 12%nat; split; [lia|reflexivity]|constructor].
    + intros _ v w Hv. inversion Hv.
  - exists max, div, rle. unfold reduce. rewrite E. split; [|auto]. f_equal. rewrite Hd. reflexivity.
Qed.

(** ** The decoder *)

Lemma read_all_stored fuel ts d k :
  td_err d = None -> td_encoding d <> timeCompressedRLE -> td_ts d = ts -> td_i d = Z.of_nat k ->
  (length ts - k < fuel)%nat -> td_read_all fuel d = map i64 (drop k ts).
Proof.
  revert d k. induction fuel as [|f IH]; intros d k He Hx Hts Hi Hf; [lia|].
  cbn [td_read_all]. unfold td_Next. rewrite He. destruct (Z.eqb_spec (td_encoding d) timeCompressedRLE); [congruence|].
  rewrite Hts, Hi, Z.geb_leb. destruct (Z.leb_spec (zlen ts) (Z.of_nat k)) as [Hk|Hk]; unfold zlen in Hk.
  { rewrite drop_ge by lia. reflexivity. }
  rewrite (drop_S ts (ts !!! k) k) by (apply list_lookup_lookup_total_lt; lia). rewrite Nat2Z.id. cbn [map].
  f_equal. apply (IH _ (S k)); cbn [td_err td_encoding td_ts td_i]; auto; lia.
Qed.

Lemma i64_step p t : i64 (i64 p + i64 (u64 (t - p))) = i64 t.
Proof.
  rewrite <- (i64_u64 (i64 p + i64 _)), <- u64_add_l, u64_i64, u64_add_l, Z.add_comm, <- u64_add_l, u64_i64, !u64_add_l.
  rewrite i64_u64. f_equal. lia.
Qed.

(** A run: every [Next] adds the delta, and the count ends it. *)
Lemma read_all_run fuel p ts delta n dts :
  Forall is_u64 ts -> Forall (fun v => v = delta) (diffs p ts) -> zlen ts <= n -> (length ts < fuel)%nat ->
  td_read_all fuel (mkTD (i64 p) (n - zlen ts - 1) n dts None (i64 delta) timeCompressedRLE) = map i64 ts.
Proof.
  revert fuel p. induction ts as [|t ts IH]; intros fuel p Hts Hd Hn Hf; (destruct fuel as [|f]; [cbn in Hf; lia|]);
    cbn [td_read_all]; unfold td_Next; cbn [td_err td_encoding td_i td_n td_v td_rleDelta td_ts]; rewrite Z.eqb_refl, Z.geb_leb.
  - rewrite zlen_nil. destruct (Z.leb_spec n (n - 0 - 1)); [lia|].
    destruct (Z.ltb_spec (n - 0 - 1 + 1) n); [lia|]. reflexivity.
  - pose proof (zlen_nonneg ts). rewrite zlen_cons in Hn |- *. destruct (Z.leb_spec n (n - (1 + zlen ts) - 1)); [lia|].
    destruct (Z.ltb_spec (n - (1 + zlen ts) - 1 + 1) n); [|lia].
    apply Forall_cons_1 in Hts as [Ht Hts]. cbn [diffs] in Hd. apply Forall_cons_1 in Hd as [Hdt Hd]. cbn [td_Read td_v map].
    subst delta. rewrite (i64_step p t). f_equal.
    specialize (IH f t Hts Hd ltac:(lia) ltac:(cbn in Hf; lia)).
    replace (n - (1 + zlen ts) - 1 + 1) with (n - zlen ts - 1) by lia. exact IH.
Qed.

(** The type byte holds the encoding in its high half and the exponent in its
    low half. *)
Lemma header t k : 0 <= t <= 2 -> (k <= 12)%nat ->
  let b := Z.lor (u8 (Z.shiftl t 4)) (Log10 (10 ^ Z.of_nat k)) in
  Z.shiftr b 4 = t /\ Pow10 (Z.land b 15) = 10 ^ Z.of_nat k.
Proof.
  intros Ht Hk. assert (t = 0 \/ t = 1 \/ t = 2) as [->|[->| ->]] by lia;
    do 13 (destruct k as [|k]; [vm_compute; split; reflexivity|]); lia.
Qed.

Lemma te_write_all_ts ts e : te_write_all ts e = mkEncoder (en_ts e ++ map u64 ts) (en_enc e).
Proof.
  revert e. unfold te_write_all. induction ts as [|t ts IH]; intros e; cbn [fold_left map].
  - rewrite app_nil_r. destruct e. reflexivity.
  - rewrite IH. unfold te_Write. cbn [en_ts en_enc]. rewrite <- app_assoc. reflexivity.
Qed.

(** What a decoder must deliver of a block [b] of the timestamps [ts]. *)
Definition decodes (b ts : list Z) : Prop :=
  forall d, td_Error (td_Init b d) = None
    /\ (forall fuel, (length ts < fuel)%nat -> td_read_all fuel (td_Init b d) = map i64 ts)
    /\ CountTimestamps b = Some (zlen ts).

Lemma drop_hdr {A} (x : A) (l r : list A) : length l = 8%nat -> drop 9 (x :: l ++ r) = r /\ take 8 (drop 1 (x :: l ++ r)) = l.
Proof.
  intros Hl. change (drop 9 (x :: l ++ r)) with (drop 8 (l ++ r)). change (drop 1 (x :: l ++ r)) with (l ++ r).
  rewrite <- Hl. rewrite drop_app_length, take_app_length. auto.
Qed.

Lemma decodes_raw ts : ts <> [] -> Forall is_u64 ts -> decodes (te_encodeRaw (deltas ts)) ts.
Proof.
  intros Hne Hts d. destruct ts as [|t ts]; [congruence|]. pose proof (Forall_inv Hts) as Ht.
  pose proof (Forall_inv_tail Hts) as Hts'.
  assert (Forall is_u64 (deltas (t :: ts))) as Hd by (constructor; [exact Ht|apply diffs_u64]).
  assert (td_Init (te_encodeRaw (deltas (t :: ts))) d
          = mkTD 0 0 (td_n d) (t :: ts) None (td_rleDelta d) timeUncompressed) as E.
  { unfold td_Init, te_encodeRaw. cbn [td_encoding]. unfold td_decode. rewrite zlen_cons.
    pose proof (zlen_nonneg (put_words (deltas (t :: ts)))). destruct (Z.eqb_spec (1 + zlen (put_words (deltas (t :: ts)))) 0); [lia|].
    cbn [td_encoding]. rewrite (eq_refl : (Z.shiftr (u8 (Z.shiftl timeUncompressed 4)) 4 =? timeUncompressed) = true).
    unfold td_decodeRaw. cbn [skipn]; rewrite ?drop_0. rewrite words_put_len by exact Hd. cbn [deltas]. rewrite prefix_sum_diffs by exact Hts'.
    reflexivity. }
  rewrite E. split; [reflexivity|]. split.
  - intros fuel Hf. rewrite (read_all_stored fuel (t :: ts) _ 0); cbn [td_err td_encoding td_ts td_i]; auto; try lia.
  - unfold CountTimestamps, te_encodeRaw. rewrite (eq_refl : (Z.shiftr (u8 (Z.shiftl timeUncompressed 4)) 4 =? timeUncompressed) = true).
    cbn [skipn]; rewrite ?drop_0. rewrite zlen_put_words, Z.mul_comm, Z.div_mul by lia. unfold zlen. rewrite length_deltas. reflexivity.
Qed.

Lemma decodes_packed ts k bs :
  ts <> [] -> Forall is_u64 ts -> (k <= 12)%nat -> let div := 10 ^ Z.of_nat k in
  Forall (fun v => (div | v)) (tail (deltas ts)) ->
  s8_dec_values bs = (if div >? 1 then map (fun v => v / div) (tail (deltas ts)) else tail (deltas ts)) ->
  s8_CountBytes bs = zlen (tail (deltas ts)) ->
  decodes (Z.lor (u8 (Z.shiftl timeCompressedPackedSimple 4)) (Log10 div) :: be64 (deltas ts !!! 0%nat) ++ bs) ts.
Proof.
  intros Hne Hts Hk div Hdiv Hbs Hc d. destruct ts as [|t ts]; [congruence|]. cbn [deltas tail] in *.
  pose proof (Forall_inv Hts) as Ht. pose proof (Forall_inv_tail Hts) as Hts'.
  change ((t :: diffs t ts) !!! 0%nat) with t.
  destruct (header timeCompressedPackedSimple k ltac:(unfold timeCompressedPackedSimple; lia) Hk) as [Hs Hp]. fold div in Hs, Hp.
  set (b0 := Z.lor _ _) in *. pose proof (pow10_pos div ltac:(exists k; auto)) as Hpos.
  destruct (drop_hdr b0 (be64 t) bs (length_be64 t)) as [E9 E8].
  assert (zlen (b0 :: be64 t ++ bs) = 9 + zlen bs) as Hz by (rewrite zlen_cons, zlen_app, zlen_be64; lia).
  pose proof (zlen_nonneg bs).
  assert (td_Init (b0 :: be64 t ++ bs) d
          = mkTD 0 0 (td_n d) (t :: ts) None (td_rleDelta d) timeCompressedPackedSimple) as E.
  { unfold td_Init, td_decode. cbn [td_encoding]. rewrite Hs, Hz. destruct (Z.eqb_spec (9 + zlen bs) 0); [lia|].
    change (timeCompressedPackedSimple =? timeUncompressed) with false. change (timeCompressedPackedSimple =? timeCompressedRLE) with false.
    change (timeCompressedPackedSimple =? timeCompressedPackedSimple) with true. cbv iota. unfold td_decodePacked.
    rewrite Hz. destruct (Z.ltb_spec (9 + zlen bs) 9); [lia|]. rewrite E9, E8, de64_be64, Hbs by exact Ht.
    change ((b0 :: be64 t ++ bs) !!! 0%nat) with b0. rewrite Hp, u64_small by lia. fold div.
    assert ((if div >? 1 then prefix_scaled div t (if div >? 1 then map (fun v => v / div) (diffs t ts) else diffs t ts)
             else prefix_sum t (if div >? 1 then map (fun v => v / div) (diffs t ts) else diffs t ts)) = ts) as ->; [|reflexivity].
    destruct (div >? 1); [rewrite prefix_scaled_sum|]; [apply prefix_sum_diffs, Hts'|lia| |apply prefix_sum_diffs, Hts'].
    apply Forall_and. split; [apply diffs_u64|exact Hdiv]. }
  rewrite E. split; [reflexivity|]. split.
  - intros fuel Hf. rewrite (read_all_stored fuel (t :: ts) _ 0); cbn [td_err td_encoding td_ts td_i]; auto; try lia.
  - unfold CountTimestamps. rewrite Hs, Hz, E9, Hc.
    change (timeCompressedPackedSimple =? timeUncompressed) with false. change (timeCompressedPackedSimple =? timeCompressedRLE) with false.
    change (timeCompressedPackedSimple =? timeCompressedPackedSimple) with true. cbv iota. destruct (Z.ltb_spec (9 + zlen bs) 9); [lia|].
    f_equal. rewrite zlen_cons. unfold zlen. rewrite length_diffs. lia.
Qed.

Lemma decodes_run ts k :
  (1 < length ts)%nat -> zlen ts < 2 ^ 62 -> Forall is_u64 ts -> (k <= 12)%nat -> let div := 10 ^ Z.of_nat k in
  Forall (fun v => (div | v)) (tail (deltas ts)) ->
  (forall v w, v ∈ tail (deltas ts) -> w ∈ tail (deltas ts) -> v = w) ->
  decodes (te_encodeRLE (deltas ts !!! 0%nat) (deltas ts !!! 1%nat) div (zlen (deltas ts))) ts.
Proof.
  intros Hlen Hz Hts Hk div Hdiv Heq d. destruct ts as [|t [|t1 ts]]; cbn [length] in Hlen; [lia|lia|].
  cbn [deltas diffs tail] in Hdiv, Heq. pose proof (zlen_nonneg (t :: t1 :: ts)) as Hz0.
  assert (zlen (deltas (t :: t1 :: ts)) = zlen (t :: t1 :: ts)) as -> by (unfold zlen; rewrite length_deltas; reflexivity).
  change (deltas (t :: t1 :: ts) !!! 0%nat) with t. change (deltas (t :: t1 :: ts) !!! 1%nat) with (u64 (t1 - t)).
  set (delta := u64 (t1 - t)) in *. pose proof (Forall_inv Hts) as Ht.
  assert (Forall (fun v => v = delta) (diffs t (t1 :: ts))) as Hall.
  { apply Forall_forall. intros v Hv. apply Heq; [exact Hv|left]. }
  pose proof (pow10_pos div ltac:(exists k; auto)) as Hpos. pose proof (u64_range (t1 - t)) as Hdr. fold delta in Hdr.
  assert (u64 (delta / div * u64 div) = delta) as Hscale.
  { rewrite (u64_small div), Z.mul_comm, <- Z_div_exact_full_2;
      [apply u64_small, Hdr|lia|apply Z.mod_divide; [lia|apply (Forall_inv Hdiv)]|lia]. }
  assert (is_u64 (delta / div)) as Hq.
  { destruct Hdr. split; [apply Z.div_pos; lia|]. apply Z.div_lt_upper_bound; nia. }
  unfold te_encodeRLE. rewrite (u64_small (zlen _)) by lia.
  destruct (header timeCompressedRLE k ltac:(unfold timeCompressedRLE; lia) Hk) as [Hs Hp]. fold div in Hs, Hp.
  set (b0 := Z.lor _ _) in *. set (p1 := PutUvarint (delta / div)). set (p2 := PutUvarint (zlen (t :: t1 :: ts))).
  destruct (drop_hdr b0 (be64 t) (p1 ++ p2) (length_be64 t)) as [E9 E8].
  assert (zlen (b0 :: be64 t ++ p1 ++ p2) = 9 + zlen p1 + zlen p2) as Hzb
    by (rewrite zlen_cons, !zlen_app, zlen_be64; lia).
  pose proof (zlen_PutUvarint (delta / div)) as Hp1. pose proof (zlen_PutUvarint (zlen (t :: t1 :: ts))) as Hp2. fold p1 in Hp1. fold p2 in Hp2.
  assert (Uvarint (p1 ++ p2) = (delta / div, zlen p1)) as U1 by (apply Uvarint_PutUvarint, Hq).
  assert (Uvarint p2 = (zlen (t :: t1 :: ts), zlen p2)) as U2.
  { rewrite <- (app_nil_r p2) at 1. apply Uvarint_PutUvarint. split; lia. }
  assert (td_Init (b0 :: be64 t ++ p1 ++ p2) d
          = mkTD (i64 (u64 (t - delta))) (-1) (zlen (t :: t1 :: ts)) [] None (i64 delta) timeCompressedRLE) as E.
  { unfold td_Init, td_decode. cbn [td_encoding]. rewrite Hs, Hzb. destruct (Z.eqb_spec (9 + zlen p1 + zlen p2) 0); [lia|].
    change (timeCompressedRLE =? timeUncompressed) with false. change (timeCompressedRLE =? timeCompressedRLE) with true.
    cbv iota. unfold td_decodeRLE. rewrite Hzb. destruct (Z.ltb_spec (9 + zlen p1 + zlen p2) 9); [lia|].
    rewrite E9, E8, U1. destruct (Z.leb_spec (zlen p1) 0); [lia|]. rewrite drop_app_zlen, U2.
    destruct (Z.leb_spec (zlen p2) 0); [lia|]. change ((b0 :: be64 t ++ p1 ++ p2) !!! 0%nat) with b0.
    rewrite Hp, Hscale, de64_be64, (i64_small (zlen _)) by (exact Ht || lia). reflexivity. }
  rewrite E. split; [reflexivity|]. split.
  - intros fuel Hf. rewrite i64_u64.
    pose proof (read_all_run fuel (t - delta) (t :: t1 :: ts) delta (zlen (t :: t1 :: ts)) [] Hts) as R.
    replace (zlen (t :: t1 :: ts) - zlen (t :: t1 :: ts) - 1) with (-1) in R by lia. apply R; [|lia|exact Hf].
    change (diffs (t - delta) (t :: t1 :: ts)) with (u64 (t - (t - delta)) :: diffs t (t1 :: ts)).
    constructor; [|exact Hall]. replace (t - (t - delta)) with delta by lia. apply u64_small, Hdr.
  - unfold CountTimestamps. rewrite Hs, Hzb, E9, U1. change (timeCompressedRLE =? timeUncompressed) with false.
    change (timeCompressedRLE =? timeCompressedRLE) with true. cbv iota.
    destruct (Z.ltb_spec (9 + zlen p1 + zlen p2) 9); [lia|]. destruct (Z.ltb_spec (9 + zlen p1) 0); [lia|].
    replace (drop (Z.to_nat (9 + zlen p1)) (b0 :: be64 t ++ p1 ++ p2))
      with (drop (Z.to_nat (zlen p1)) (drop 9 (b0 :: be64 t ++ p1 ++ p2))) by (rewrite drop_drop; f_equal; lia).
    rewrite E9, drop_app_zlen, U2. cbn [fst]. rewrite i64_small by lia. reflexivity.
Qed.

(** The values handed to simple8b. *)
Definition scaled (div : Z) (l : list Z) : list Z := if div >? 1 then map (fun v => v / div) l else l.

Lemma zlen_scaled div l : zlen (scaled div l) = zlen l.
Proof. unfold scaled, zlen. destruct (div >? 1); [rewrite length_map|]; reflexivity. Qed.

Lemma tail_deltas_u64 ts : Forall is_u64 (tail (deltas ts)).
Proof. destruct ts; [constructor|apply diffs_u64]. Qed.

Lemma scaled_ok ts div max :
  pow10 div -> Forall (fun v => v <= max) (tail (deltas ts)) -> max <= s8_MaxValue ->
  Forall s8_ok (scaled div (tail (deltas ts))).
Proof.
  intros Hp Hmax Hm. assert (Forall (fun v => 0 <= v <= s8_MaxValue) (tail (deltas ts))) as Ht.
  { apply Forall_forall. intros v Hv. pose proof (tail_deltas_u64 ts) as Hu. rewrite Forall_forall in Hu, Hmax.
    destruct (Hu v Hv). specialize (Hmax v Hv). cbn in Hmax. lia. }
  unfold scaled, s8_ok. destruct (_ >? 1); [|exact Ht]. apply Forall_map. eapply Forall_impl; [exact Ht|].
  intros v [Hv0 Hv1]. cbn. pose proof (pow10_pos div Hp).
  split; [apply Z.div_pos; lia|]. transitivity v; [apply Z.div_le_upper_bound; nia|exact Hv1].
Qed.

Lemma map_i64_u64 ts : Forall is_i64 ts -> map i64 (map u64 ts) = ts.
Proof.
  intros Hts. induction Hts as [|t ts Ht _ IH]; [reflexivity|]. cbn [map]. rewrite IH, i64_u64, i64_small by exact Ht.
  reflexivity.
Qed.

Lemma decodes_i64 ts b : Forall is_i64 ts -> decodes b (map u64 ts) -> forall d, td_Error (td_Init b d) = None
  /\ (forall fuel, (length ts < fuel)%nat -> td_read_all fuel (td_Init b d) = ts)
  /\ CountTimestamps b = Some (zlen ts).
Proof.
  intros Hts Hb d. destruct (Hb d) as (H1 & H2 & H3). rewrite map_i64_u64 in H2 by exact Hts.
  unfold zlen in *. rewrite length_map in H2, H3. auto.
Qed.

Context `{L8 : !Simple8bLaws}.

Definition te_ready (e : encoder) : Prop := e = NewTimeEncoder \/ (exists e', e = te_Reset e').

Lemma te_ready_inv e : te_ready e -> en_ts e = [] /\ (en_enc e = s8_NewEncoder \/ exists s, en_enc e = s8_Reset s).
Proof. intros [->|[e' ->]]; [auto|]. split; [reflexivity|]. right. eexists. reflexivity. Qed.

Lemma zlen_encodeRLE first delta div n : zlen (te_encodeRLE first delta div n) <= 29.
Proof.
  unfold te_encodeRLE. rewrite zlen_cons, !zlen_app, zlen_be64.
  pose proof (zlen_PutUvarint_le (delta / div)). pose proof (zlen_PutUvarint_le (u64 n)). lia.
Qed.

(** Whatever the format, the bytes decode to the timestamps, and there are at
    most eight bytes per timestamp beside the header. *)
Lemma te_Bytes_decodes ts e :
  ts <> [] -> zlen ts < 2 ^ 62 -> te_ready e ->
  exists b e', te_Bytes (te_write_all ts e) = (Ok b, e') /\ decodes b (map u64 ts) /\ zlen b <= 8 * zlen ts + 29.
Proof.
  intros Hne Hz He. destruct (te_ready_inv e He) as [Hnil Henc]. set (us := map u64 ts).
  assert (us <> []) as Hune by (unfold us; destruct ts; [congruence|discriminate]).
  assert (Forall is_u64 us) as Hus by (apply Forall_map, Forall_true; intros; apply u64_range).
  assert (zlen us = zlen ts) as Hzu by (unfold us, zlen; rewrite length_map; reflexivity).
  rewrite te_write_all_ts, Hnil. cbn [app]. fold us. unfold te_Bytes. cbn [en_ts en_enc].
  destruct (Z.eqb_spec (zlen us) 0) as [E0|_]; [destruct us; [congruence|rewrite zlen_cons in E0; pose proof (zlen_nonneg us); lia]|].
  destruct (reduce_spec us Hune) as (max & div & rle & -> & Hmax & (k & Hk & ->) & Hdiv & Hrle).
  pose proof (length_deltas us) as Hld. pose proof (zlen_nonneg us). assert (zlen (deltas us) = zlen us) as Hzd by (unfold zlen; lia).
  destruct (rle && (zlen (deltas us) >? 1)) eqn:Er.
  { apply andb_prop in Er as [-> Er]. apply Z.gtb_lt in Er. do 2 eexists. split; [reflexivity|].
    split; [apply decodes_run; auto; unfold zlen in *; lia|]. etransitivity; [apply zlen_encodeRLE|lia]. }
  rewrite Z.gtb_ltb. destruct (Z.ltb_spec s8_MaxValue max) as [Hm|Hm].
  { do 2 eexists. split; [reflexivity|]. split; [apply decodes_raw; assumption|].
    unfold te_encodeRaw. rewrite zlen_cons, zlen_put_words. cbn [en_ts]. lia. }
  set (vs := scaled (10 ^ Z.of_nat k) (tail (deltas us))).
  assert (Forall s8_ok vs) as Hok by (apply scaled_ok with max; auto; exists k; auto).
  destruct (s8_stream vs (en_enc e) Henc Hok) as (e1 & e2 & bs & Hw & Hb & Hd & Hc & Hsz).
  unfold te_encodePacked. fold (scaled (10 ^ Z.of_nat k) (tail (deltas us))). fold vs.
  unfold bind, on_enc at 1. cbn [en_enc en_ts]. rewrite Hw. unfold on_enc. cbn [en_enc en_ts].
  rewrite Hb. do 2 eexists. split; [reflexivity|]. split.
  - apply decodes_packed; auto. rewrite Hc. apply zlen_scaled.
  - rewrite zlen_cons, zlen_app, zlen_be64. unfold vs in Hsz. rewrite zlen_scaled in Hsz.
    assert (zlen (tail (deltas us)) <= zlen us); [|lia]. unfold zlen. rewrite <- Hld. destruct (deltas us); cbn [tail length]; lia.
Qed.

(** C32 (round trip). The timestamps written to a new or reset encoder are
    encoded without error, whichever of the three formats is chosen and in
    whatever order they come, and every decoder, also a reused one, that is
    initialised with the bytes reads them back without error; the count taken
    from the block without decoding it is their number. *)
Theorem time_roundtrip (ts : list Z) (e : encoder) :
  ts <> [] -> Forall is_i64 ts -> zlen ts < 2 ^ 62 -> e = NewTimeEncoder \/ (exists e', e = te_Reset e') ->
  exists b e', te_Bytes (te_write_all ts e) = (Ok b, e')
    /\ forall d, td_Error (td_Init b d) = None
         /\ (forall fuel, (length ts < fuel)%nat -> td_read_all fuel (td_Init b d) = ts)
         /\ CountTimestamps b = Some (zlen ts).
Proof.
  intros Hne Hts Hz He. destruct (te_Bytes_decodes ts e Hne Hz He) as (b & e' & E & Hd & _).
  exists b, e'. split; [exact E|]. apply decodes_i64; assumption.
Qed.

End Time.

(** A decoder that last read a run keeps the length and the delta of the
    run when it is initialised with no bytes: it then delivers timestamps that
    no block holds, where a new decoder delivers none. *)
Theorem stale_run_after_empty `{Simple8b} :
  let run := te_encodeRLE 100 10 1 4 in
  td_read_all 9 (td_Init run td_zero) = [100; 110; 120; 130]
  /\ td_read_all 9 (td_Init [] td_zero) = []
  /\ td_read_all 9 (td_Init [] (td_Init run td_zero)) = [10; 20; 30].
Proof. vm_compute. auto. Qed.

(** The laws instantiated by [plain_words]. *)
#[local] Existing Instance plain_words.

Lemma time_roundtrip_witness :
  exists b e', te_Bytes (te_write_all [5000; 6000; 9000; 1000] NewTimeEncoder) = (Ok b, e')
    /\ forall d, td_Error (td_Init b d) = None
         /\ (forall fuel, (4 < fuel)%nat -> td_read_all fuel (td_Init b d) = [5000; 6000; 9000; 1000])
         /\ CountTimestamps b = Some 4.
Proof.
  apply (time_roundtrip (L8 := plain_laws) [5000; 6000; 9000; 1000] NewTimeEncoder).
  - discriminate.
  - repeat constructor; vm_compute; discriminate.
  - vm_compute. reflexivity.
  - left. reflexivity.
Defined.
