(* ===== verification/IntCodec.v ===== *)
(** * Integer blocks

    [tsdb/engine/tsm1/int.go]: every value is stored as the zig-zag encoding of
    its difference from the value before it, run-length encoded, packed with
    simple8b, or as eight bytes each when a difference does not fit. *)

From S2P Require Import Prelude Varint Simple8b.

Definition intUncompressed : Z := 0.
Definition intCompressedSimple : Z := 1.
Definition intCompressedRLE : Z := 2.

Section Int.
Context `{S8 : Simple8b}.

(** ** Encoder *)

Record IntegerEncoder := mkIE { ie_prev : Z; ie_rle : bool; ie_values : list Z }.

Definition NewIntegerEncoder : IntegerEncoder := mkIE 0 true [].
Definition ie_Flush (e : IntegerEncoder) : IntegerEncoder := e.
Definition ie_Reset (_ : IntegerEncoder) : IntegerEncoder := mkIE 0 true [].

Definition ie_Write (v : Z) (e : IntegerEncoder) : IntegerEncoder :=
  let delta := i64 (v - ie_prev e) in
  let enc := ZigZagEncode delta in
  let rle := if zlen (ie_values e) >? 1
             then ie_rle e && (ie_values e !!! (length (ie_values e) - 1)%nat =? enc) else ie_rle e in
  mkIE v rle (ie_values e ++ [enc]).

Definition ie_encodeRLE (e : IntegerEncoder) : list Z :=
  u8 (Z.shiftl intCompressedRLE 4) :: be64 (ie_values e !!! 0%nat) ++ PutUvarint (ie_values e !!! 1%nat)
    ++ PutUvarint (u64 (zlen (ie_values e) - 1)).

Definition ie_encodePacked (e : IntegerEncoder) : res tsm_error (list Z) :=
  if zlen (ie_values e) =? 0 then Ok [] else
  match s8_EncodeAll (tail (ie_values e)) with
  | Ok encoded => Ok (u8 (Z.shiftl intCompressedSimple 4) :: be64 (ie_values e !!! 0%nat) ++ put_words encoded)
  | Err err => Err err
  | Panic => Panic
  end.

Definition ie_encodeUncompressed (e : IntegerEncoder) : list Z :=
  if zlen (ie_values e) =? 0 then [] else u8 (Z.shiftl intUncompressed 4) :: put_words (ie_values e).

Definition ie_Bytes (e : IntegerEncoder) : res tsm_error (list Z) :=
  if ie_rle e && (zlen (ie_values e) >? 2) then Ok (ie_encodeRLE e) else
  if existsb (fun v => v >? s8_MaxValue) (ie_values e) then Ok (ie_encodeUncompressed e) else
  ie_encodePacked e.

(** ** Decoder *)

Record IntegerDecoder := mkID {
  id_values : list Z;   (** an array of 240 words *)
  id_bytes : list Z; id_i : Z; id_n : Z; id_prev : Z; id_first : bool;
  id_rleFirst : Z; id_rleDelta : Z; id_encoding : Z; id_err : option tsm_error;
}.

Definition id_SetBytes (b : list Z) (d : IntegerDecoder) : IntegerDecoder :=
  let '(enc, bytes) := match b with b0 :: r => (Z.shiftr b0 4, r) | [] => (0, []) end in
  mkID (id_values d) bytes 0 0 0 true 0 0 enc None.

Definition id_fail (w : string) (d : IntegerDecoder) : IntegerDecoder :=
  mkID (id_values d) (id_bytes d) (id_i d) (id_n d) (id_prev d) (id_first d) (id_rleFirst d) (id_rleDelta d)
    (id_encoding d) (Some (ErrDecode w)).

Definition id_decodeRLE (d : IntegerDecoder) : IntegerDecoder :=
  if zlen (id_bytes d) =? 0 then d else
  if zlen (id_bytes d) <? 8 then id_fail "IntegerDecoder: not enough data to decode RLE starting value" d else
  let first := de64 (take 8 (id_bytes d)) in
  let b := drop 8 (id_bytes d) in
  let '(value, n) := Uvarint b in
  if n <=? 0 then id_fail "IntegerDecoder: invalid RLE delta value" d else
  let b := drop (Z.to_nat n) b in
  let '(count, n) := Uvarint b in
  if n <=? 0 then id_fail "IntegerDecoder: invalid RLE repeat value" d else
  mkID (id_values d) [] 0 (i64 (i64 count + 1)) (id_prev d) (id_first d) first value (id_encoding d) (id_err d).

(** Values written at the start of the array. *)
Definition fill (l values : list Z) : list Z := l ++ drop (length l) values.

(** [simple8b.Decode] leaves the array alone and reports no values with an error. *)
Definition id_decodePacked (d : IntegerDecoder) : IntegerDecoder :=
  if zlen (id_bytes d) =? 0 then d else
  if zlen (id_bytes d) <? 8 then id_fail "IntegerDecoder: not enough data to decode packed value" d else
  let v := de64 (take 8 (id_bytes d)) in
  let bytes := drop 8 (id_bytes d) in
  if id_first d then
    mkID (fill [v] (id_values d)) bytes 0 1 (id_prev d) false (id_rleFirst d) (id_rleDelta d) (id_encoding d) (id_err d)
  else
    match s8_Decode v with
    | Ok l => mkID (fill l (id_values d)) bytes 0 (zlen l) (id_prev d) false (id_rleFirst d) (id_rleDelta d) (id_encoding d) (id_err d)
    | _ => mkID (id_values d) bytes 0 0 (id_prev d) false (id_rleFirst d) (id_rleDelta d) (id_encoding d)
             (Some (ErrDecode "failed to decode value"))
    end.

Definition id_decodeUncompressed (d : IntegerDecoder) : IntegerDecoder :=
  if zlen (id_bytes d) =? 0 then d else
  if zlen (id_bytes d) <? 8 then id_fail "IntegerDecoder: not enough data to decode uncompressed value" d else
  mkID (fill [de64 (take 8 (id_bytes d))] (id_values d)) (drop 8 (id_bytes d)) 0 1 (id_prev d) (id_first d)
    (id_rleFirst d) (id_rleDelta d) (id_encoding d) (id_err d).

Definition id_set_i (i : Z) (d : IntegerDecoder) : IntegerDecoder :=
  mkID (id_values d) (id_bytes d) i (id_n d) (id_prev d) (id_first d) (id_rleFirst d) (id_rleDelta d) (id_encoding d) (id_err d).
Definition id_set_prev (p : Z) (d : IntegerDecoder) : IntegerDecoder :=
  mkID (id_values d) (id_bytes d) (id_i d) (id_n d) p (id_first d) (id_rleFirst d) (id_rleDelta d) (id_encoding d) (id_err d).

Definition id_Next (d : IntegerDecoder) : bool * IntegerDecoder :=
  if (id_i d >=? id_n d) && (zlen (id_bytes d) =? 0) then (false, d) else
  let d := id_set_i (id_i d + 1) d in
  let d := if id_i d >=? id_n d then
             if id_encoding d =? intUncompressed then id_decodeUncompressed d else
             if id_encoding d =? intCompressedSimple then id_decodePacked d else
             if id_encoding d =? intCompressedRLE then id_decodeRLE d else
             id_fail "unknown encoding" d
           else d in
  (match id_err d with None => id_i d <? id_n d | Some _ => false end, d).

(** [None] is the index out of range. *)
Definition id_Read (d : IntegerDecoder) : option (Z * IntegerDecoder) :=
  if id_encoding d =? intCompressedRLE then
    Some (i64 (ZigZagDecode (id_rleFirst d) + i64 (id_i d * ZigZagDecode (id_rleDelta d))), d)
  else
    z ← id_values d !! Z.to_nat (id_i d);
    let v := i64 (ZigZagDecode z + id_prev d) in
    Some (v, id_set_prev v d).

Definition id_Error (d : IntegerDecoder) : option tsm_error := id_err d.

(** [for d.Next() { ... d.Read() ... }], with the decoder it ends in. *)
Fixpoint id_read_all (fuel : nat) (d : IntegerDecoder) : list Z * IntegerDecoder :=
  match fuel with
  | O => ([], d)
  | S f =>
      let '(ok, d) := id_Next d in
      if ok then
        match id_Read d with
        | Some (v, d) => let '(l, d) := id_read_all f d in (v :: l, d)
        | None => ([], d)
        end
      else ([], d)
  end.

Definition ie_write_all (vs : list Z) (e : IntegerEncoder) : IntegerEncoder := fold_left (fun e v => ie_Write v e) vs e.

(** ** Differences *)

Fixpoint zz_diffs (prev : Z) (vs : list Z) : list Z :=
  match vs with [] => [] | v :: r => ZigZagEncode (i64 (v - prev)) :: zz_diffs v r end.

Fixpoint zz_sums (prev : Z) (zs : list Z) : list Z :=
  match zs with [] => [] | z :: r => let v := i64 (ZigZagDecode z + prev) in v :: zz_sums v r end.

Lemma i64_add_l a b : i64 (i64 a + b) = i64 (a + b).
Proof. rewrite <- (i64_u64 (i64 a + b)), <- u64_add_l, u64_i64, u64_add_l, i64_u64. reflexivity. Qed.

Lemma i64_add_r a b : i64 (a + i64 b) = i64 (a + b).
Proof. rewrite Z.add_comm, i64_add_l, Z.add_comm. reflexivity. Qed.

Lemma zz_step v p : is_i64 v -> i64 (ZigZagDecode (ZigZagEncode (i64 (v - p))) + p) = v.
Proof.
  intros Hv. rewrite ZigZag_roundtrip by apply i64_range. rewrite i64_add_l. replace (v - p + p) with v by lia.
  apply i64_small, Hv.
Qed.

Lemma zz_sums_diffs p vs : Forall is_i64 vs -> zz_sums p (zz_diffs p vs) = vs.
Proof.
  intros H. revert p. induction H as [|v vs Hv _ IH]; intros p; [reflexivity|]. cbn [zz_diffs zz_sums].
  rewrite zz_step by exact Hv. rewrite IH. reflexivity.
Qed.

Lemma zz_diffs_u64 p vs : Forall is_u64 (zz_diffs p vs).
Proof.
  revert p. induction vs as [|v vs IH]; intros p; cbn [zz_diffs]; constructor; [|apply IH].
  apply ZigZagEncode_range, i64_range.
Qed.

Lemma length_zz_diffs p vs : length (zz_diffs p vs) = length vs.
Proof. revert p. induction vs as [|v vs IH]; intros p; cbn; [|rewrite IH]; reflexivity. Qed.

Lemma zz_diffs_snoc p vs v : zz_diffs p (vs ++ [v]) = zz_diffs p vs ++ [ZigZagEncode (i64 (v - default p (last vs)))].
Proof.
  revert p. induction vs as [|w vs IH]; intros p; [reflexivity|]. cbn [app zz_diffs]. rewrite IH.
  destruct vs as [|w' vs]; [reflexivity|]. rewrite (last_cons_cons w w' vs).
  destruct (last (w' :: vs)) eqn:E; [reflexivity|]. apply last_None in E. discriminate.
Qed.

(** ** The encoder's state *)

Definition one_run (zs : list Z) : Prop := forall x y, x ∈ tail zs -> y ∈ tail zs -> x = y.

Lemma one_run_snoc zs z : one_run zs -> (1 < length zs)%nat -> zs !!! (length zs - 1)%nat = z -> one_run (zs ++ [z]).
Proof.
  intros H Hl Hz. destruct zs as [|a zs]; [cbn in Hl; lia|]. unfold one_run in *. cbn [app tail] in *.
  assert (z ∈ zs) as Hin.
  { subst z. cbn [length] in Hl |- *. replace (S (length zs) - 1)%nat with (S (length zs - 1)) by lia.
    change ((a :: zs) !!! S (length zs - 1)) with (zs !!! (length zs - 1)%nat).
    apply list_elem_of_lookup_total_2. lia. }
  intros x y Hx Hy. apply elem_of_app in Hx as [Hx|Hx], Hy as [Hy|Hy];
    rewrite ?list_elem_of_singleton in Hx; rewrite ?list_elem_of_singleton in Hy; subst; auto.
Qed.

Record ie_written (vs : list Z) (e : IntegerEncoder) : Prop := {
  iw_prev : ie_prev e = default 0 (last vs);
  iw_values : ie_values e = zz_diffs 0 vs;
  iw_rle : ie_rle e = true -> one_run (ie_values e);
}.

Lemma write_written vs v e : ie_written vs e -> ie_written (vs ++ [v]) (ie_Write v e).
Proof.
  intros [Hp Hv Hr]. split; unfold ie_Write; cbn [ie_prev ie_values ie_rle].
  - rewrite last_snoc. reflexivity.
  - rewrite zz_diffs_snoc, Hv, Hp. reflexivity.
  - rewrite Z.gtb_ltb. destruct (Z.ltb_spec 1 (zlen (ie_values e))) as [Hl|Hl]; unfold zlen in Hl.
    + intros H. apply andb_prop in H as [H1 H2]. apply Z.eqb_eq in H2. apply one_run_snoc; [auto|lia|exact H2].
    + intros _. destruct (ie_values e) as [|a [|b l]]; cbn [length] in Hl; [| |lia]; unfold one_run; cbn [app tail].
      * intros x y Hx. inversion Hx.
      * intros x y Hx Hy. rewrite list_elem_of_singleton in Hx, Hy. congruence.
Qed.

Lemma write_all_written vs e : e = NewIntegerEncoder \/ (exists e', e = ie_Reset e') -> ie_written vs (ie_write_all vs e).
Proof.
  intros He. assert (ie_written [] e) as H0.
  { assert (e = mkIE 0 true []) as -> by (destruct He as [->|[e' ->]]; reflexivity).
    split; [reflexivity|reflexivity|]. intros _ x y Hx. inversion Hx. }
  unfold ie_write_all. induction vs as [|v vs IH] using rev_ind; [exact H0|].
  rewrite fold_left_app. apply write_written, IH.
Qed.

(** ** Words and chunks of values *)

(** The values that the word [w] stands for, by encoding and position. *)
Definition chunk_of (enc : Z) (first : bool) (w : Z) (l : list Z) : Prop :=
  enc = intUncompressed /\ l = [w]
  \/ enc = intCompressedSimple /\ (if first then l = [w] else s8_Decode w = Ok l) /\ 1 <= zlen l <= 240.

Fixpoint chunks (enc : Z) (first : bool) (ws : list Z) (vss : list (list Z)) : Prop :=
  match ws, vss with
  | [], [] => True
  | w :: ws, l :: vss => is_u64 w /\ chunk_of enc first w l
                         /\ chunks enc (if enc =? intCompressedSimple then false else first) ws vss
  | _, _ => False
  end.

(** The values of the array not read yet. *)
Definition unread (d : IntegerDecoder) : list Z :=
  take (Z.to_nat (id_n d - (id_i d + 1))) (drop (Z.to_nat (id_i d + 1)) (id_values d)).

Record at_words (d : IntegerDecoder) (ws : list Z) (vss : list (list Z)) : Prop := {
  aw_enc : id_encoding d = intUncompressed \/ id_encoding d = intCompressedSimple;
  aw_err : id_err d = None;
  aw_bytes : id_bytes d = put_words ws;
  aw_chunks : chunks (id_encoding d) (id_first d) ws vss;
  aw_i : 0 <= id_i d;
  aw_len : length (id_values d) = 240%nat;
  aw_n : id_n d <= 240;
}.

Lemma length_fill l values : (length l <= length values)%nat -> length (fill l values) = length values.
Proof. intros H. unfold fill. rewrite length_app, length_drop. lia. Qed.

Lemma take8_words w ws : take 8 (put_words (w :: ws)) = be64 w /\ drop 8 (put_words (w :: ws)) = put_words ws.
Proof. unfold put_words. cbn [map concat]. rewrite take_be64, drop_be64. auto. Qed.

(** Decoding the next word brings its values in. *)
Definition refill (d : IntegerDecoder) : IntegerDecoder :=
  if id_encoding d =? intUncompressed then id_decodeUncompressed d else
  if id_encoding d =? intCompressedSimple then id_decodePacked d else
  if id_encoding d =? intCompressedRLE then id_decodeRLE d else id_fail "unknown encoding" d.

Lemma refill_word d w l ws vss :
  at_words d (w :: ws) (l :: vss) ->
  exists d', refill d = d' /\ at_words d' ws vss /\ id_i d' = 0 /\ id_n d' = zlen l
    /\ 1 <= zlen l /\ id_values d' = fill l (id_values d) /\ id_prev d' = id_prev d.
Proof.
  intros [Henc Herr Hb (Hw & Hc & Hcs) Hi Hlen Hn]. eexists. split; [reflexivity|]. unfold refill.
  destruct (take8_words w ws) as [E8 D8]. pose proof (zlen_nonneg ws).
  assert (zlen (id_bytes d) = 8 * (1 + zlen ws)) as Hz by (rewrite Hb, zlen_put_words, zlen_cons; lia).
  destruct Hc as [(He & ->)|(He & Hl & Hl1)]; rewrite He in *.
  - change (intUncompressed =? intUncompressed) with true. cbv iota. unfold id_decodeUncompressed.
    rewrite Hz. destruct (Z.eqb_spec (8 * (1 + zlen ws)) 0); [lia|]. destruct (Z.ltb_spec (8 * (1 + zlen ws)) 8); [lia|].
    rewrite Hb, E8, D8, de64_be64 by exact Hw. cbn [id_i id_n id_values id_prev]. change (zlen [w]) with 1.
    split; [constructor; cbn [id_encoding id_err id_bytes id_first id_i id_values id_n]; auto; try lia; [rewrite He; exact Hcs|]|repeat split; lia].
    rewrite length_fill; cbn [length]; lia.
  - change (intCompressedSimple =? intUncompressed) with false. change (intCompressedSimple =? intCompressedSimple) with true in *.
    cbv iota in *. unfold id_decodePacked.
    rewrite Hz. destruct (Z.eqb_spec (8 * (1 + zlen ws)) 0); [lia|]. destruct (Z.ltb_spec (8 * (1 + zlen ws)) 8); [lia|].
    rewrite Hb, E8, D8, de64_be64 by exact Hw.
    destruct (id_first d); [subst l|rewrite Hl]; cbn [id_i id_n id_values id_prev]; try change (zlen [w]) with 1;
      (split; [constructor; cbn [id_encoding id_err id_bytes id_first id_i id_values id_n]; rewrite ?He; auto; try lia|
               repeat split; lia]);
      (rewrite length_fill; cbn [length]; unfold zlen in *; lia).
Qed.

Lemma refill_empty d : id_encoding d = intUncompressed \/ id_encoding d = intCompressedSimple ->
  id_bytes d = [] -> refill d = d.
Proof.
  intros [E|E] Hb; unfold refill; rewrite E; cbn; unfold id_decodeUncompressed, id_decodePacked; rewrite Hb; reflexivity.
Qed.

Lemma at_words_set_i i d ws vss : 0 <= i -> at_words d ws vss -> at_words (id_set_i i d) ws vss.
Proof. intros Hi []. split; auto. Qed.

Lemma at_words_set_prev p d ws vss : at_words d ws vss -> at_words (id_set_prev p d) ws vss.
Proof. intros []. split; auto. Qed.

Lemma id_Next_refill d :
  id_Next d = if (id_i d >=? id_n d) && (zlen (id_bytes d) =? 0) then (false, d) else
              let d' := if id_i d + 1 >=? id_n d then refill (id_set_i (id_i d + 1) d) else id_set_i (id_i d + 1) d in
              (match id_err d' with None => id_i d' <? id_n d' | Some _ => false end, d').
Proof. reflexivity. Qed.

(** [Next] moves to the next value, if there is one. *)
Lemma Next_word d ws vss :
  at_words d ws vss ->
  match unread d ++ concat vss with
  | [] => exists d', id_Next d = (false, d') /\ id_err d' = None
  | z :: rest => exists d' ws' vss', id_Next d = (true, d') /\ at_words d' ws' vss' /\ id_prev d' = id_prev d
                   /\ id_values d' !! Z.to_nat (id_i d') = Some z /\ unread d' ++ concat vss' = rest
  end.
Proof.
  intros Haw. pose proof Haw as [Henc Herr Hb Hcs Hi Hlen Hn].
  rewrite id_Next_refill, !Z.geb_leb.
  pose proof (at_words_set_i (id_i d + 1) d ws vss ltac:(lia) Haw) as Haw'.
  destruct (Z.leb_spec (id_n d) (id_i d + 1)) as [Hge|Hlt].
  - assert (unread d = []) as -> by (unfold unread; rewrite Z2Nat.nonpos by lia; reflexivity). cbn [app].
    destruct ws as [|w ws], vss as [|l vss]; cbn [chunks] in Hcs; try contradiction.
    + cbn [concat]. change (put_words []) with (@nil Z) in Hb. rewrite Hb. change (zlen [] =? 0) with true. rewrite andb_true_r.
      destruct (Z.leb_spec (id_n d) (id_i d)); [eexists; split; [reflexivity|exact Herr]|].
      rewrite refill_empty by auto. exists (id_set_i (id_i d + 1) d). split; [|exact Herr]. change (id_err (id_set_i (id_i d + 1) d)) with (id_err d).
      rewrite Herr. destruct (Z.ltb_spec (id_i (id_set_i (id_i d + 1) d)) (id_n (id_set_i (id_i d + 1) d))) as [Hc|]; [|reflexivity].
      cbn in Hc. lia.
    + rewrite Hb, zlen_put_words, zlen_cons. pose proof (zlen_nonneg ws). destruct (Z.eqb_spec (8 * (1 + zlen ws)) 0); [lia|].
      rewrite andb_false_r. destruct (refill_word _ _ _ _ _ Haw') as (d' & -> & Hd' & Ei & En & Hl & Ev & Ep).
      destruct l as [|z l]; [rewrite zlen_nil in Hl; lia|]. cbn [concat app].
      rewrite (aw_err _ _ _ Hd'). rewrite Ei, En. destruct (Z.ltb_spec 0 (zlen (z :: l))); [|lia].
      exists d', ws, vss. split; [reflexivity|]. split; [exact Hd'|]. split; [exact Ep|]. rewrite Ei, Ev. split; [reflexivity|].
      f_equal. unfold unread. rewrite Ei, En, Ev, zlen_cons. unfold fill. cbn [app].
      replace (Z.to_nat (1 + zlen l - (0 + 1))) with (length l) by (unfold zlen; lia).
      change (Z.to_nat (0 + 1)) with 1%nat. cbn [skipn]. rewrite drop_0. apply take_app_length.
  - destruct (Z.leb_spec (id_n d) (id_i d)); [lia|]. cbn [andb].
    assert (id_values d !! Z.to_nat (id_i d + 1) = Some (id_values d !!! Z.to_nat (id_i d + 1))) as Ez
      by (apply list_lookup_lookup_total_lt; lia).
    assert (unread d = id_values d !!! Z.to_nat (id_i d + 1) :: unread (id_set_i (id_i d + 1) d)) as Eu.
    { unfold unread. cbn [id_set_i id_n id_i id_values]. rewrite (drop_S _ _ _ Ez).
      replace (Z.to_nat (id_n d - (id_i d + 1))) with (S (Z.to_nat (id_n d - (id_i d + 1 + 1)))) by lia.
      cbn [firstn]. do 2 f_equal. f_equal. lia. }
    rewrite Eu. cbn [app]. exists (id_set_i (id_i d + 1) d), ws, vss.
    change (id_err (id_set_i (id_i d + 1) d)) with (id_err d). rewrite Herr.
    change (id_i (id_set_i (id_i d + 1) d)) with (id_i d + 1).
    split; [|split; [exact Haw'|split; [reflexivity|split; [exact Ez|reflexivity]]]].
    change (id_n (id_set_i (id_i d + 1) d)) with (id_n d). destruct (Z.ltb_spec (id_i d + 1) (id_n d)); [reflexivity|lia].
Qed.

Lemma read_all_words fuel d ws vss :
  at_words d ws vss -> (length (unread d ++ concat vss) < fuel)%nat ->
  exists d', id_read_all fuel d = (zz_sums (id_prev d) (unread d ++ concat vss), d') /\ id_err d' = None.
Proof.
  revert d ws vss. induction fuel as [|f IH]; intros d ws vss Haw Hf; [lia|]. cbn [id_read_all].
  pose proof (Next_word d ws vss Haw) as HN. destruct (unread d ++ concat vss) as [|z rest].
  { destruct HN as (d' & -> & He). exists d'. auto. }
  destruct HN as (d' & ws' & vss' & -> & Haw' & Ep & Ez & Er). unfold id_Read.
  destruct (Z.eqb_spec (id_encoding d') intCompressedRLE) as [Ec|_].
  { destruct (aw_enc _ _ _ Haw') as [E|E]; rewrite E in Ec; discriminate. }
  rewrite Ez. cbn [mbind option_bind]. set (v := i64 (ZigZagDecode z + id_prev d')).
  destruct (IH (id_set_prev v d') ws' vss') as (d'' & E & He).
  - apply at_words_set_prev, Haw'.
  - change (unread (id_set_prev v d')) with (unread d'). rewrite Er. cbn [length] in Hf. lia.
  - rewrite E. exists d''. split; [|exact He]. change (unread (id_set_prev v d')) with (unread d'). rewrite Er.
    cbn [zz_sums id_prev id_set_prev]. rewrite <- Ep. reflexivity.
Qed.

(** ** Runs *)

(** The value at position [j] of a run. *)
Definition run_value (first delta j : Z) : Z := i64 (ZigZagDecode first + j * ZigZagDecode delta).

Lemma id_read_all_run fuel d vs k :
  id_encoding d = intCompressedRLE -> id_bytes d = [] -> id_err d = None ->
  id_i d = k -> id_n d = k + 1 + zlen vs -> (length vs < fuel)%nat ->
  (forall j v, vs !! j = Some v -> v = run_value (id_rleFirst d) (id_rleDelta d) (k + 1 + Z.of_nat j)) ->
  exists d', id_read_all fuel d = (vs, d') /\ id_err d' = None.
Proof.
  revert d vs k. induction fuel as [|f IH]; intros d vs k Henc Hb Herr Hi Hn Hf Hv; [lia|]. cbn [id_read_all].
  rewrite id_Next_refill, !Z.geb_leb, Hi, Hn, Hb. pose proof (zlen_nonneg vs). destruct (Z.leb_spec (k + 1 + zlen vs) k); [lia|].
  cbn [andb]. set (d1 := id_set_i (k + 1) d).
  assert (refill d1 = d1) as -> by (unfold refill, id_decodeRLE; change (id_encoding d1) with (id_encoding d);
    change (id_bytes d1) with (id_bytes d); rewrite Henc, Hb; reflexivity).
  assert ((if k + 1 + zlen vs <=? k + 1 then d1 else d1) = d1) as -> by (destruct (_ <=? _); reflexivity).
  cbv zeta. change (id_err d1) with (id_err d). rewrite Herr. change (id_i d1) with (k + 1). change (id_n d1) with (id_n d). rewrite Hn.
  destruct vs as [|v vs].
  { rewrite zlen_nil. destruct (Z.ltb_spec (k + 1) (k + 1 + 0)); [lia|]. exists d1. auto. }
  rewrite zlen_cons in Hn |- *. pose proof (zlen_nonneg vs). destruct (Z.ltb_spec (k + 1) (k + 1 + (1 + zlen vs))); [|lia].
  unfold id_Read. change (id_encoding d1) with (id_encoding d). rewrite Henc, Z.eqb_refl.
  destruct (IH d1 vs (k + 1)) as (d' & -> & He); auto.
  - change (id_n d1) with (id_n d). rewrite Hn. lia.
  - cbn in Hf. lia.
  - intros j w Hj. specialize (Hv (S j) w Hj). rewrite Hv. change (id_rleFirst d1) with (id_rleFirst d).
    change (id_rleDelta d1) with (id_rleDelta d). f_equal. lia.
  - exists d'. split; [|exact He]. do 2 f_equal. rewrite (Hv 0%nat v eq_refl). unfold run_value.
    rewrite i64_add_r. change (id_i d1) with (k + 1). change (id_rleFirst d1) with (id_rleFirst d).
    change (id_rleDelta d1) with (id_rleDelta d). do 2 f_equal. f_equal. lia.
Qed.

(** The values of a run lie on a line. *)
Lemma zz_run p vs delta :
  Forall is_i64 vs -> is_i64 p -> Forall (fun z => z = delta) (zz_diffs p vs) ->
  forall j v, vs !! j = Some v -> v = i64 (p + (1 + Z.of_nat j) * ZigZagDecode delta).
Proof.
  intros Hvs. revert p. induction Hvs as [|w vs Hw _ IH]; intros p Hp Hd j v Hj; [discriminate|].
  cbn [zz_diffs] in Hd. apply Forall_cons_1 in Hd as [Hd0 Hd].
  assert (w = i64 (p + ZigZagDecode delta)) as Ew by (rewrite <- Hd0, Z.add_comm; symmetry; apply zz_step, Hw).
  destruct j as [|j]; cbn in Hj.
  - injection Hj as <-. rewrite Ew. f_equal. lia.
  - rewrite (IH w Hw Hd j v Hj), Ew, i64_add_l. f_equal. lia.
Qed.

Lemma take8_app {A} (l r : list A) : length l = 8%nat -> take 8 (l ++ r) = l /\ drop 8 (l ++ r) = r.
Proof. intros <-. rewrite take_app_length, drop_app_length. auto. Qed.

(** What a decoder must deliver of a block [b] of the integers [vs]. *)
Definition id_decodes (b vs : list Z) : Prop :=
  forall d fuel, length (id_values d) = 240%nat -> (length vs < fuel)%nat ->
    exists d', id_read_all fuel (id_SetBytes b d) = (vs, d') /\ id_Error d' = None.

Lemma id_decodes_run vs e :
  Forall is_i64 vs -> zlen vs < 2 ^ 62 -> ie_values e = zz_diffs 0 vs -> one_run (ie_values e) -> (2 < length vs)%nat ->
  id_decodes (ie_encodeRLE e) vs.
Proof.
  intros Hvs Hz Hv Hrun Hl d fuel Hd Hf. unfold ie_encodeRLE. rewrite Hv in *. destruct vs as [|v0 [|v1 vs]]; cbn [length] in Hl; [lia|lia|].
  pose proof (zz_diffs_u64 0 (v0 :: v1 :: vs)) as Hu. cbn [zz_diffs] in *.
  set (z0 := ZigZagEncode (i64 (v0 - 0))) in *. set (z1 := ZigZagEncode (i64 (v1 - v0))) in *.
  change ((z0 :: z1 :: zz_diffs v1 vs) !!! 0%nat) with z0. change ((z0 :: z1 :: zz_diffs v1 vs) !!! 1%nat) with z1.
  pose proof (Forall_inv Hu) as Hu0. pose proof (Forall_inv (Forall_inv_tail Hu)) as Hu1.
  assert (zlen (z0 :: z1 :: zz_diffs v1 vs) - 1 = zlen (v1 :: vs)) as ->
    by (rewrite !zlen_cons; unfold zlen; rewrite length_zz_diffs; lia).
  rewrite zlen_cons in Hz. pose proof (zlen_nonneg (v1 :: vs)) as Hn0. rewrite u64_small by lia.
  set (p1 := PutUvarint z1). set (p2 := PutUvarint (zlen (v1 :: vs))).
  assert (length (be64 z0) = 8%nat) as H8 by (pose proof (zlen_be64 z0) as E; unfold zlen in E; lia).
  destruct (take8_app (be64 z0) (p1 ++ p2) H8) as [E8 D8].
  assert (Uvarint (p1 ++ p2) = (z1, zlen p1)) as U1 by (apply Uvarint_PutUvarint, Hu1).
  assert (Uvarint p2 = (zlen (v1 :: vs), zlen p2)) as U2 by (rewrite <- (app_nil_r p2) at 1; apply Uvarint_PutUvarint; split; lia).
  pose proof (zlen_PutUvarint z1) as Hp1. pose proof (zlen_PutUvarint (zlen (v1 :: vs))) as Hp2. fold p1 in Hp1. fold p2 in Hp2.
  destruct fuel as [|f]; [lia|]. cbn [id_read_all]. rewrite id_Next_refill. unfold id_SetBytes.
  change (Z.shiftr (u8 (Z.shiftl intCompressedRLE 4)) 4) with intCompressedRLE.
  set (bs := be64 z0 ++ p1 ++ p2) in *. assert (zlen bs = 8 + zlen p1 + zlen p2) as Hbs by (unfold bs; rewrite !zlen_app, zlen_be64; lia).
  cbn [id_i id_n id_bytes]. rewrite Hbs. destruct (Z.eqb_spec (8 + zlen p1 + zlen p2) 0); [lia|]. rewrite andb_false_r.
  change (0 + 1 >=? 0) with true. cbv iota. unfold refill, id_set_i. cbn [id_encoding]. change (intCompressedRLE =? intUncompressed) with false.
  change (intCompressedRLE =? intCompressedSimple) with false. change (intCompressedRLE =? intCompressedRLE) with true. cbv iota.
  unfold id_decodeRLE. cbn [id_bytes id_values id_i id_n id_prev id_first id_rleFirst id_rleDelta id_encoding id_err]. rewrite Hbs.
  destruct (Z.eqb_spec (8 + zlen p1 + zlen p2) 0); [lia|]. destruct (Z.ltb_spec (8 + zlen p1 + zlen p2) 8); [lia|].
  rewrite E8, D8, U1. destruct (Z.leb_spec (zlen p1) 0); [lia|]. rewrite drop_app_zlen, U2. destruct (Z.leb_spec (zlen p2) 0); [lia|].
  rewrite de64_be64 by exact Hu0. rewrite (i64_small (zlen _)) by lia. rewrite (i64_small (zlen _ + 1)) by lia.
  cbv zeta. cbn [id_err id_i id_n]. destruct (Z.ltb_spec 0 (zlen (v1 :: vs) + 1)); [|lia].
  unfold id_Read. cbn [id_encoding id_rleFirst id_rleDelta id_i]. change (intCompressedRLE =? intCompressedRLE) with true. cbv iota.
  apply Forall_cons_1 in Hvs as [Hv0 Hvs].
  assert (ZigZagDecode z0 = v0) as Ez0.
  { unfold z0. rewrite ZigZag_roundtrip by apply i64_range. rewrite Z.sub_0_r. apply i64_small, Hv0. }
  match goal with |- context [id_read_all f ?d0] => destruct (id_read_all_run f d0 (v1 :: vs) 0) as (d' & -> & He) end.
  - reflexivity.
  - reflexivity.
  - reflexivity.
  - reflexivity.
  - cbn [id_n]. lia.
  - cbn [length] in Hf |- *. lia.
  - cbn [id_rleFirst id_rleDelta]. intros j v Hj. unfold run_value. rewrite Ez0.
    rewrite (zz_run v0 (v1 :: vs) z1 Hvs Hv0) with (j := j) (v := v); [f_equal; lia| |exact Hj].
    cbn [zz_diffs]. apply Forall_forall. intros z Hin. apply Hrun; [exact Hin|left].
  - exists d'. split; [|exact He]. do 2 f_equal. rewrite Ez0, i64_add_r. replace (v0 + 0 * ZigZagDecode z1) with v0 by lia.
    apply i64_small, Hv0.
Qed.

(** Blocks of words. *)
Lemma id_decodes_words vs enc b0 ws vss :
  Forall is_i64 vs -> Z.shiftr b0 4 = enc -> enc = intUncompressed \/ enc = intCompressedSimple ->
  chunks enc true ws vss -> concat vss = zz_diffs 0 vs -> id_decodes (b0 :: put_words ws) vs.
Proof.
  intros Hvs Hb Henc Hc Hcat d fuel Hd Hf. unfold id_SetBytes. rewrite Hb.
  set (d1 := mkID _ _ _ _ _ _ _ _ _ _).
  destruct (read_all_words fuel d1 ws vss) as (d' & E & He).
  - split; cbn; auto; lia.
  - change (unread d1) with (@nil Z). cbn [app]. rewrite Hcat, length_zz_diffs. exact Hf.
  - change (unread d1) with (@nil Z) in E. cbn [app] in E. change (id_prev d1) with 0 in E.
    rewrite Hcat, zz_sums_diffs in E by exact Hvs. exists d'. auto.
Qed.

Lemma chunks_raw first zs : Forall is_u64 zs -> chunks intUncompressed first zs (map (fun z => [z]) zs).
Proof.
  intros H. induction H as [|z zs Hz _ IH]; [exact I|]. cbn [map chunks]. split; [exact Hz|]. split; [left; auto|exact IH].
Qed.

Lemma chunks_packed ws vss :
  Forall is_u64 ws -> Forall2 (fun w l => s8_Decode w = Ok l /\ 1 <= zlen l <= 240) ws vss ->
  chunks intCompressedSimple false ws vss.
Proof.
  intros Hw H. induction H as [|w l ws vss [Hd Hl] _ IH]; [exact I|]. apply Forall_cons_1 in Hw as [Hw Hws].
  cbn [chunks]. split; [exact Hw|]. split; [right; auto|apply IH, Hws].
Qed.

Context `{L8 : !Simple8bLaws}.

(** The three formats decode. *)
Lemma ie_Bytes_decodes (vs : list Z) (e : IntegerEncoder) :
  Forall is_i64 vs -> zlen vs < 2 ^ 62 -> e = NewIntegerEncoder \/ (exists e', e = ie_Reset e') ->
  exists b, ie_Bytes (ie_write_all vs e) = Ok b /\ id_decodes b vs.
Proof.
  intros Hvs Hz He. destruct (write_all_written vs e He) as [_ Hv Hr]. set (e1 := ie_write_all vs e) in *.
  pose proof (zz_diffs_u64 0 vs) as Hu. pose proof (length_zz_diffs 0 vs) as Hlz.
  unfold ie_Bytes. destruct (ie_rle e1 && (zlen (ie_values e1) >? 2)) eqn:Er.
  { apply andb_prop in Er as [E1 E2]. apply Z.gtb_lt in E2. rewrite Hv in E2. unfold zlen in E2. eexists. split; [reflexivity|].
    apply id_decodes_run; auto; lia. }
  destruct vs as [|v vs].
  { change (zz_diffs 0 []) with (@nil Z) in Hv. rewrite Hv. unfold ie_encodePacked. rewrite Hv. eexists. split; [reflexivity|]. intros d [|f] _ Hf; [cbn in Hf; lia|].
    eexists. split; reflexivity. }
  assert ((zlen (ie_values e1) =? 0) = false) as Hne.
  { rewrite Hv. cbn [zz_diffs]. rewrite zlen_cons. pose proof (zlen_nonneg (zz_diffs v vs)). apply Z.eqb_neq. lia. }
  destruct (existsb _ (ie_values e1)) eqn:Ex.
  { unfold ie_encodeUncompressed. rewrite Hne, Hv. eexists. split; [reflexivity|].
    apply (id_decodes_words (v :: vs) intUncompressed _ (zz_diffs 0 (v :: vs)) (map (fun z => [z]) (zz_diffs 0 (v :: vs)))); auto.
    - apply chunks_raw, Hu.
    - clear. induction (zz_diffs 0 (v :: vs)) as [|z l IH]; [reflexivity|]. cbn. rewrite IH. reflexivity. }
  assert (Forall s8_ok (tail (ie_values e1))) as Hok.
  { apply Forall_forall. intros z Hin. rewrite Hv in *. cbn [zz_diffs tail] in Hin.
    assert (z ∈ zz_diffs 0 (v :: vs)) as Hin' by (right; exact Hin).
    rewrite Forall_forall in Hu. destruct (Hu z Hin'). split; [lia|].
    destruct (Z.le_gt_cases z s8_MaxValue) as [|Hgt]; [assumption|]. exfalso.
    rewrite <- not_true_iff_false in Ex. apply Ex, existsb_exists. exists z. split; [apply list_elem_of_In, Hin'|apply Z.gtb_lt, Hgt]. }
  destruct (s8_block _ Hok) as (ws & vss & Henc & Hws & Hcat & Hdec).
  unfold ie_encodePacked. rewrite Hne, Henc. eexists. split; [reflexivity|]. rewrite Hv in *. cbn [zz_diffs tail] in *.
  set (z0 := ZigZagEncode (i64 (v - 0))) in *. change ((z0 :: zz_diffs v vs) !!! 0%nat) with z0.
  apply (id_decodes_words (v :: vs) intCompressedSimple _ (z0 :: ws) ([z0] :: vss)); auto.
  - cbn [chunks]. split; [exact (Forall_inv Hu)|]. split; [right; split; [reflexivity|split; [reflexivity|vm_compute; split; discriminate]]|].
    apply chunks_packed; assumption.
  - cbn [concat app zz_diffs]. rewrite Hcat. reflexivity.
Qed.

(** The integers written to a new or reset encoder are
    encoded without error, and a decoder set to the bytes, whatever it read
    before, delivers them and ends without error: through the run, the packed
    and the uncompressed format, for differences that wrap around included. *)
Theorem int_roundtrip (vs : list Z) (e : IntegerEncoder) :
  Forall is_i64 vs -> zlen vs < 2 ^ 62 -> e = NewIntegerEncoder \/ (exists e', e = ie_Reset e') ->
  exists b, ie_Bytes (ie_write_all vs e) = Ok b
    /\ forall d fuel, length (id_values d) = 240%nat -> (length vs < fuel)%nat ->
         exists d', id_read_all fuel (id_SetBytes b d) = (vs, d') /\ id_Error d' = None.
Proof. apply ie_Bytes_decodes. Qed.

End Int.

(** The laws instantiated by [plain_words]. *)
#[local] Existing Instance plain_words.

Lemma int_roundtrip_witness :
  exists b, ie_Bytes (ie_write_all [7; -3; 9223372036854775807; 0] NewIntegerEncoder) = Ok b
    /\ forall d fuel, length (id_values d) = 240%nat -> (4 < fuel)%nat ->
         exists d', id_read_all fuel (id_SetBytes b d) = ([7; -3; 9223372036854775807; 0], d') /\ id_Error d' = None.
Proof.
  apply (int_roundtrip (L8 := plain_laws) [7; -3; 9223372036854775807; 0] NewIntegerEncoder).
  - repeat constructor; vm_compute; discriminate.
  - vm_compute. reflexivity.
  - left. reflexivity.
Defined.
