(* ===== verification/StringCodec.v ===== *)
(** * String blocks

    [tsdb/engine/tsm1/string.go]: every string is appended after its length as
    a varint, and the whole is compressed by package [snappy], which is not part
    of this repository: its two functions are parameters, and the round trip
    uses that decoding inverts encoding.  Strings are lists of bytes. *)

From S2P Require Import Prelude Varint.

Definition stringCompressedSnappy : Z := 1.

Class Snappy := {
  snappy_Encode : list Z -> list Z;
  snappy_Decode : list Z -> option (list Z);
}.

Class SnappyLaws `{Snappy} : Prop := { snappy_inverse : forall b, snappy_Decode (snappy_Encode b) = Some b }.

Section Strings.
Context `{SN : Snappy}.

(** ** Encoder *)

Record StringEncoder := mkSE { se_bytes : list Z }.

Definition NewStringEncoder : StringEncoder := mkSE [].
Definition se_Flush (e : StringEncoder) : StringEncoder := e.
Definition se_Reset (_ : StringEncoder) : StringEncoder := mkSE [].

Definition se_Write (s : list Z) (e : StringEncoder) : StringEncoder :=
  mkSE (se_bytes e ++ PutUvarint (u64 (zlen s)) ++ s).

Definition se_Bytes (e : StringEncoder) : list Z :=
  u8 (Z.shiftl stringCompressedSnappy 4) :: snappy_Encode (se_bytes e).

(** ** Decoder *)

Record StringDecoder := mkSD { sd_b : list Z; sd_l : Z; sd_i : Z; sd_err : option tsm_error }.

Definition sd_SetBytes (b : list Z) (d : StringDecoder) : option tsm_error * StringDecoder :=
  match b with
  | [] => (None, mkSD [] 0 0 None)
  | _ :: r => match snappy_Decode r with
              | None => (Some (ErrDecode "failed to decode string block"), d)
              | Some data => (None, mkSD data 0 0 None)
              end
  end.

Definition sd_Next (d : StringDecoder) : bool * StringDecoder :=
  match sd_err d with
  | Some _ => (false, d)
  | None => let d := mkSD (sd_b d) (sd_l d) (sd_i d + sd_l d) None in (sd_i d <? zlen (sd_b d), d)
  end.

Definition sd_fail (w : string) (d : StringDecoder) : StringDecoder := mkSD (sd_b d) (sd_l d) (sd_i d) (Some (ErrDecode w)).

(** [None] is the slice out of range. *)
Definition sd_Read (d : StringDecoder) : option (list Z * StringDecoder) :=
  if (sd_i d <? 0) || (zlen (sd_b d) <? sd_i d) then None else
  let '(len, n) := Uvarint (drop (Z.to_nat (sd_i d)) (sd_b d)) in
  if n <=? 0 then Some ([], sd_fail "StringDecoder: invalid encoded string length" d) else
  let d := mkSD (sd_b d) (i64 (i64 len + n)) (sd_i d) (sd_err d) in
  let lower := sd_i d + n in
  let upper := i64 (lower + i64 len) in
  if upper <? lower then Some ([], sd_fail "StringDecoder: length overflow" d) else
  if upper >? zlen (sd_b d) then Some ([], sd_fail "StringDecoder: not enough data to represent encoded string" d) else
  Some (take (Z.to_nat (upper - lower)) (drop (Z.to_nat lower) (sd_b d)), d).

Definition sd_Error (d : StringDecoder) : option tsm_error := sd_err d.

Definition se_write_all (l : list (list Z)) (e : StringEncoder) : StringEncoder := fold_left (fun e s => se_Write s e) l e.

(** ** One string after the other *)

Definition enc_string (s : list Z) : list Z := PutUvarint (zlen s) ++ s.
Definition enc_strings (l : list (list Z)) : list Z := concat (map enc_string l).

Lemma zlen_enc_strings_in s l : s ∈ l -> zlen s <= zlen (enc_strings l).
Proof.
  intros Hs. induction l as [|t l IH]; [inversion Hs|]. unfold enc_strings, enc_string in *. cbn [map concat].
  rewrite !zlen_app. pose proof (zlen_nonneg (PutUvarint (zlen t))). pose proof (zlen_nonneg t).
  pose proof (zlen_nonneg (concat (map enc_string l))). fold enc_string in *.
  apply elem_of_cons in Hs as [->|Hs]; [|specialize (IH Hs)]; unfold enc_string in *; lia.
Qed.

Lemma se_write_all_bytes l e : Forall (fun s => zlen s < 2 ^ 62) l ->
  se_bytes (se_write_all l e) = se_bytes e ++ enc_strings l.
Proof.
  intros H. revert e. unfold se_write_all. induction H as [|s l Hs _ IH]; intros e; cbn [fold_left].
  - unfold enc_strings. cbn. rewrite app_nil_r. reflexivity.
  - rewrite IH. unfold se_Write, enc_strings, enc_string. cbn [se_bytes map concat].
    pose proof (zlen_nonneg s). rewrite u64_small by lia. rewrite <- !app_assoc. reflexivity.
Qed.

(** The decoder stands between two strings: what lies before [i + l] has been
    read. *)
Definition sd_at (d : StringDecoder) (pre rest : list Z) : Prop :=
  sd_err d = None /\ sd_b d = pre ++ rest /\ sd_i d + sd_l d = zlen pre.

Lemma sd_step d pre s rest :
  sd_at d pre (enc_string s ++ rest) -> zlen (sd_b d) < 2 ^ 62 ->
  exists d1 d2, sd_Next d = (true, d1) /\ sd_Read d1 = Some (s, d2)
    /\ sd_at d2 (pre ++ enc_string s) rest /\ sd_b d2 = sd_b d.
Proof.
  intros (He & Hb & Hi) Hlen. set (p := PutUvarint (zlen s)).
  assert (enc_string s = p ++ s) as Ep by reflexivity. rewrite Ep in *.
  pose proof (zlen_PutUvarint (zlen s)) as Hp. fold p in Hp. pose proof (zlen_nonneg s) as Hs. pose proof (zlen_nonneg rest) as Hr.
  pose proof (zlen_nonneg pre) as Hpre.
  assert (zlen (sd_b d) = zlen pre + zlen p + zlen s + zlen rest) as Hz by (rewrite Hb, !zlen_app; lia).
  assert (Uvarint (p ++ s ++ rest) = (zlen s, zlen p)) as U by (apply Uvarint_PutUvarint; split; lia).
  unfold sd_Next. rewrite He, Hi. cbn [sd_i sd_b]. destruct (Z.ltb_spec (zlen pre) (zlen (sd_b d))); [|lia].
  eexists. eexists. split; [reflexivity|]. unfold sd_Read. cbn [sd_i sd_b sd_l sd_err].
  destruct (Z.ltb_spec (zlen pre) 0); [lia|]. destruct (Z.ltb_spec (zlen (sd_b d)) (zlen pre)); [lia|]. cbn [orb].
  rewrite Hb at 1. rewrite drop_app_zlen, <- app_assoc, U. destruct (Z.leb_spec (zlen p) 0); [lia|].
  rewrite !(i64_small (zlen s)), !i64_small by lia.
  destruct (Z.ltb_spec (zlen pre + zlen p + zlen s) (zlen pre + zlen p)); [lia|]. rewrite Z.gtb_ltb.
  destruct (Z.ltb_spec (zlen (sd_b d)) (zlen pre + zlen p + zlen s)); [lia|]. split.
  - do 2 f_equal. replace (sd_b d) with ((pre ++ p) ++ s ++ rest) by (rewrite Hb, <- !app_assoc; reflexivity).
    rewrite <- zlen_app, drop_app_zlen. replace (zlen (pre ++ p) + zlen s - zlen (pre ++ p)) with (zlen s) by lia.
    apply take_app_zlen.
  - split; [|reflexivity]. split; [reflexivity|]. cbn [sd_b sd_i sd_l]. split; [rewrite Hb, <- !app_assoc; reflexivity|].
    rewrite !zlen_app. lia.
Qed.

End Strings.
