(* ===== verification/BitReader.v ===== *)
(** * The bit reader

    [tsdb/engine/tsm1/bit_reader.go]: bits read from a slice of bytes through a
    64-bit buffer whose available bits are the high ones.  The abstract
    reader is the list of the bits not read yet; [ReadBits_spec] and
    [ReadBitFast_spec] show that the buffered reader implements it. *)

From S2P Require Import Prelude Varint.

Record BitReader := mkBR { br_data : list Z; br_v : Z; br_n : Z }.

Inductive read_error := EOF.

(** The loop that appends [k] bytes to the buffer. *)
Fixpoint append_bytes (bs : list Z) (v n : Z) : Z * Z :=
  match bs with
  | [] => (v, n)
  | b :: bs => let n := n + 8 in append_bytes bs (Z.lor v (u64 (Z.shiftl b (64 - n)))) n
  end.

Definition readBuf (r : BitReader) : BitReader :=
  let byteN := 8 - br_n r / 8 in
  let byteN := if byteN >? zlen (br_data r) then zlen (br_data r) else byteN in
  if byteN =? 8 then mkBR (drop 8 (br_data r)) (de64 (take 8 (br_data r))) 64 else
  let '(v, n) := append_bytes (take (Z.to_nat byteN) (br_data r)) (br_v r) (br_n r) in
  mkBR (drop (Z.to_nat byteN) (br_data r)) v n.

Definition br_Reset (data : list Z) : BitReader := readBuf (mkBR data 0 0).
Definition NewBitReader (data : list Z) : BitReader := br_Reset data.

Definition CanReadBitFast (r : BitReader) : bool := br_n r >? 1.

Definition ReadBitFast (r : BitReader) : bool * BitReader :=
  (negb (Z.land (br_v r) (Z.shiftl 1 63) =? 0), mkBR (br_data r) (u64 (Z.shiftl (br_v r) 1)) (br_n r - 1)).

Definition ReadBits (nbits : Z) : M BitReader read_error Z := fun r =>
  if br_n r =? 0 then (Err EOF, r) else
  if nbits <=? br_n r then
    if nbits =? 64 then (Ok (br_v r), readBuf (mkBR (br_data r) 0 0)) else
    let v := Z.shiftr (br_v r) (64 - nbits) in
    let r := mkBR (br_data r) (u64 (Z.shiftl (br_v r) nbits)) (br_n r - nbits) in
    (Ok v, if br_n r =? 0 then readBuf r else r)
  else
    let v := br_v r in
    let n := br_n r in
    let r := readBuf (mkBR (br_data r) 0 0) in
    let v := Z.shiftr (Z.lor v (Z.shiftr (br_v r) n)) (64 - nbits) in
    let bufN := nbits - n in
    let bufN := if bufN >? br_n r then br_n r else bufN in
    let r := mkBR (br_data r) (u64 (Z.shiftl (br_v r) bufN)) (br_n r - bufN) in
    (Ok v, if br_n r =? 0 then readBuf r else r).

Definition ReadBit : M BitReader read_error bool := fun r =>
  match ReadBits 1 r with
  | (Ok v, r) => (Ok (negb (v =? 0)), r)
  | (Err e, r) => (Err e, r)
  | (Panic, r) => (Panic, r)
  end.

(** ** The bits not read yet *)

Definition is_byte (b : Z) : Prop := 0 <= b < 256.

Definition data_bits (data : list Z) : list bool := concat (map (bits_of 8) data).

(** A word with the bits [l] at its top. *)
Definition word (l : list bool) : list bool := l ++ replicate (64 - length l) false.

Definition br_rep (r : BitReader) (bs : list bool) : Prop :=
  exists l, br_n r = zlen l /\ zlen l <= 64 /\ br_v r = num_of (word l) /\ Forall is_byte (br_data r)
    /\ (l = [] -> br_data r = []) /\ bs = l ++ data_bits (br_data r).

Lemma zlen_word l : zlen l <= 64 -> zlen (word l) = 64.
Proof. intros H. unfold word, zlen in *. rewrite length_app, length_replicate. lia. Qed.

Lemma num_word l : zlen l <= 64 -> num_of (word l) = num_of l * 2 ^ (64 - zlen l).
Proof.
  intros H. unfold word. rewrite num_of_app, num_of_zeros. unfold zlen in *. rewrite length_replicate.
  replace (Z.of_nat (64 - length l)) with (64 - Z.of_nat (length l)) by lia. lia.
Qed.

Lemma word_snoc_bits l b : zlen l + 8 <= 64 -> is_byte b ->
  Z.lor (num_of (word l)) (u64 (Z.shiftl b (64 - (zlen l + 8)))) = num_of (word (l ++ bits_of 8 b)).
Proof.
  intros Hl Hb. pose proof (zlen_nonneg l). assert (zlen (l ++ bits_of 8 b) = zlen l + 8) as Hz by (rewrite zlen_app, zlen_bits_of; lia).
  rewrite !num_word by lia. rewrite Hz, num_of_app, num_of_bits_of, zlen_bits_of. change (Z.of_nat 8) with 8.
  change (2 ^ 8) with 256. rewrite (Z.mod_small b) by exact Hb. set (k := 64 - (zlen l + 8)).
  assert (0 <= b * 2 ^ k < 2 ^ (k + 8)) as Hr by (rewrite Z.pow_add_r by lia; destruct Hb; nia).
  assert (k + 8 <= 64) as Hk8 by lia. pose proof (Z.pow_le_mono_r 2 (k + 8) 64 ltac:(lia) Hk8).
  rewrite Z.shiftl_mul_pow2 by lia. rewrite u64_small by lia. replace (64 - zlen l) with (k + 8) by lia.
  rewrite Z.lor_comm, <- (Z.shiftl_mul_pow2 (num_of l)) by lia. rewrite lor_shift_add by lia.
  rewrite (Z.pow_add_r 2 k 8) by lia. change (2 ^ 8) with 256. lia.
Qed.

Lemma data_bits_cons b data : data_bits (b :: data) = bits_of 8 b ++ data_bits data.
Proof. reflexivity. Qed.

Lemma data_bits_app l k : data_bits (l ++ k) = data_bits l ++ data_bits k.
Proof. unfold data_bits. rewrite map_app, concat_app. reflexivity. Qed.

Lemma zlen_data_bits data : zlen (data_bits data) = 8 * zlen data.
Proof.
  induction data as [|b data IH]; [reflexivity|]. rewrite data_bits_cons, zlen_app, IH, zlen_cons, zlen_bits_of. lia.
Qed.

Lemma be_dec_bits bs : Forall is_byte bs -> be_dec bs = num_of (data_bits bs).
Proof.
  induction bs as [|b bs IH] using rev_ind; intros H; [reflexivity|]. apply Forall_app in H as [H Hb].
  rewrite be_dec_snoc, IH by exact H. rewrite data_bits_app, num_of_app, zlen_data_bits. change (8 * zlen [b]) with 8.
  f_equal. unfold data_bits. cbn [map concat]. rewrite app_nil_r, num_of_bits_of. symmetry.
  apply Z.mod_small. exact (Forall_inv Hb).
Qed.

Lemma append_bytes_spec bs l :
  Forall is_byte bs -> zlen l + 8 * zlen bs <= 64 ->
  append_bytes bs (num_of (word l)) (zlen l) = (num_of (word (l ++ data_bits bs)), zlen (l ++ data_bits bs)).
Proof.
  intros H. revert l. induction H as [|b bs Hb _ IH]; intros l Hl.
  - cbn. rewrite app_nil_r. reflexivity.
  - rewrite zlen_cons in Hl. pose proof (zlen_nonneg bs). cbn [append_bytes].
    rewrite (word_snoc_bits l b) by (auto; lia).
    assert (zlen l + 8 = zlen (l ++ bits_of 8 b)) as Hz by (rewrite zlen_app, zlen_bits_of; lia).
    rewrite Hz, IH by lia. rewrite data_bits_cons, <- app_assoc. reflexivity.
Qed.

(** A refill takes eight bytes, or all there are. *)
Lemma readBuf_full data : Forall is_byte data ->
  exists l data', readBuf (mkBR data 0 0) = mkBR data' (num_of (word l)) (zlen l) /\ zlen l <= 64
    /\ Forall is_byte data' /\ (zlen l = 64 \/ data' = []) /\ data_bits data = l ++ data_bits data'.
Proof.
  intros H. unfold readBuf. cbn [br_n br_data br_v]. change (8 - 0 / 8) with 8. rewrite Z.gtb_ltb.
  pose proof (zlen_nonneg data). destruct (Z.ltb_spec (zlen data) 8) as [Hs|Hl].
  - destruct (Z.eqb_spec (zlen data) 8); [lia|]. unfold zlen at 1 2. rewrite Nat2Z.id, take_ge, drop_ge by lia.
    pose proof (append_bytes_spec data [] H ltac:(rewrite zlen_nil; lia)) as E. change (num_of (word [])) with 0 in E.
    change (zlen (@nil bool)) with 0 in E. rewrite E. cbn [app]. exists (data_bits data), []. rewrite zlen_data_bits.
    repeat split; auto; [lia|]. rewrite app_nil_r. reflexivity.
  - rewrite Z.eqb_refl. exists (data_bits (take 8 data)), (drop 8 data).
    assert (zlen (take 8 data) = 8) as H8 by (unfold zlen in *; rewrite length_take; lia).
    assert (zlen (data_bits (take 8 data)) = 64) as H64 by (rewrite zlen_data_bits, H8; reflexivity).
    rewrite H64. repeat split; try lia.
    + f_equal. unfold word. unfold zlen in H64. replace (64 - length (data_bits (take 8 data)))%nat with 0%nat by lia.
      rewrite app_nil_r. apply be_dec_bits. apply Forall_take, H.
    + apply Forall_drop, H.
    + rewrite <- data_bits_app, take_drop. reflexivity.
Qed.

Lemma readBuf_spec data : Forall is_byte data -> br_rep (readBuf (mkBR data 0 0)) (data_bits data).
Proof.
  intros H. destruct (readBuf_full data H) as (l & data' & -> & Hl & Hd & Hf & E). exists l. cbn [br_n br_v br_data].
  repeat split; auto. intros ->. destruct Hf as [Hf|Hf]; [discriminate|exact Hf].
Qed.

Lemma Reset_spec data : Forall is_byte data -> br_rep (br_Reset data) (data_bits data).
Proof. apply readBuf_spec. Qed.

(** Reading from the buffer itself. *)
Lemma word_take l k : (k <= length l)%nat -> take k (word l) = take k l.
Proof. intros H. unfold word. apply take_app_le. exact H. Qed.

Lemma word_drop l k : (k <= length l)%nat -> zlen l <= 64 -> drop k (word l) ++ replicate k false = word (drop k l).
Proof.
  intros H Hl. unfold word, zlen in *. rewrite drop_app_le by exact H. rewrite <- app_assoc, <- replicate_add, length_drop.
  do 2 f_equal. lia.
Qed.

Lemma shift_out l k : (k <= length l)%nat -> zlen l <= 64 ->
  u64 (Z.shiftl (num_of (word l)) (Z.of_nat k)) = num_of (word (drop k l)).
Proof.
  intros Hk Hl. pose proof (zlen_word l Hl) as Hw. pose proof (num_shiftl (word l) (Z.of_nat k) ltac:(unfold zlen in *; lia)) as E.
  rewrite Hw in E. unfold u64. rewrite E, Nat2Z.id, word_drop by assumption. reflexivity.
Qed.

(** What is left in the buffer, refilled when it is empty. *)
Lemma refill_rep l data :
  zlen l <= 64 -> Forall is_byte data ->
  let r := mkBR data (num_of (word l)) (zlen l) in
  br_rep (if br_n r =? 0 then readBuf r else r) (l ++ data_bits data).
Proof.
  intros Hl Hd r. cbn [br_n r]. destruct (Z.eqb_spec (zlen l) 0) as [E|E].
  - destruct l as [|b l]; [|rewrite zlen_cons in E; pose proof (zlen_nonneg l); lia].
    change r with (mkBR data 0 0). apply readBuf_spec, Hd.
  - exists l. cbn [br_n br_v br_data]. repeat split; auto. intros ->. rewrite zlen_nil in E. congruence.
Qed.

Lemma take_pad {A} (l k : list A) x n : (n <= length l)%nat -> take n ((l ++ k) ++ replicate n x) = take n l.
Proof. intros H. rewrite <- app_assoc. apply take_app_le. exact H. Qed.

(** The bits of two buffers put together. *)
Lemma join_words l l' nb :
  zlen l < nb <= 64 -> zlen l' <= 64 -> 0 < zlen l ->
  Z.shiftr (Z.lor (num_of (word l)) (Z.shiftr (num_of (word l')) (zlen l))) (64 - nb)
  = num_of (l ++ take (Z.to_nat (nb - zlen l)) (word l')).
Proof.
  intros Hnb Hl' Hl. set (n := zlen l) in *. pose proof (zlen_word l' Hl') as Hw'.
  pose proof (num_shiftr (word l') (64 - n) ltac:(lia)) as E1. rewrite Hw' in E1. replace (64 - (64 - n)) with n in E1 by lia.
  rewrite E1. set (t := take (Z.to_nat (64 - n)) (word l')).
  assert (zlen t = 64 - n) as Ht by (unfold t, zlen in *; rewrite length_take; lia).
  pose proof (num_of_range t) as Hr. rewrite Ht in Hr.
  assert (Z.lor (num_of (word l)) (num_of t) = num_of (l ++ t)) as ->.
  { rewrite num_word by (fold n; lia). fold n. rewrite Z.lor_comm, <- Z.shiftl_mul_pow2, lor_shift_add, num_of_app, Ht by lia. lia. }
  assert (zlen (l ++ t) = 64) as Hz by (rewrite zlen_app, Ht; unfold n; lia).
  pose proof (num_shiftr (l ++ t) nb ltac:(lia)) as E2. rewrite Hz in E2. rewrite E2. f_equal.
  rewrite take_app_ge by (unfold n, zlen in *; lia). f_equal. unfold t. rewrite take_take. f_equal. unfold n, zlen. lia.
Qed.

(** The bits the abstract reader delivers. *)
Definition next_bits (n : Z) (bs : list bool) : list bool := take (Z.to_nat n) (bs ++ replicate (Z.to_nat n) false).

Lemma ReadBits_buffered r l nbits :
  br_n r = zlen l -> zlen l <= 64 -> br_v r = num_of (word l) -> Forall is_byte (br_data r) -> 0 < zlen l ->
  1 <= nbits <= zlen l ->
  exists r', ReadBits nbits r = (Ok (num_of (next_bits nbits (l ++ data_bits (br_data r)))), r')
    /\ br_rep r' (drop (Z.to_nat nbits) (l ++ data_bits (br_data r))).
Proof.
  intros En Hl Ev Hd Hpos Hnb. unfold ReadBits, next_bits. rewrite En, Ev. destruct (Z.eqb_spec (zlen l) 0); [lia|].
  destruct (Z.leb_spec nbits (zlen l)) as [Hle|Hgt]; [|lia].
  rewrite take_pad, drop_app_le by (unfold zlen in *; lia).
  pose proof (zlen_word l Hl) as Hw. destruct (Z.eqb_spec nbits 64) as [->|Hn64].
  + eexists. split; [|rewrite drop_ge by (unfold zlen in *; lia); apply readBuf_spec, Hd].
    do 2 f_equal. rewrite take_ge by (unfold zlen in *; lia). rewrite num_word by lia.
    replace (64 - zlen l) with 0 by lia. lia.
  + pose proof (num_shiftr (word l) nbits ltac:(lia)) as E. rewrite Hw in E. rewrite E, word_take by (unfold zlen in *; lia).
    eexists. split; [reflexivity|]. cbn [br_n br_data br_v].
    pose proof (shift_out l (Z.to_nat nbits) ltac:(unfold zlen in *; lia) Hl) as Es. rewrite Z2Nat.id in Es by lia. rewrite Es.
    assert (zlen l - nbits = zlen (drop (Z.to_nat nbits) l)) as Ed by (unfold zlen in *; rewrite length_drop; lia).
    rewrite Ed. apply refill_rep; [lia|exact Hd].
Qed.

Lemma ReadBits_refill r l nbits :
  br_n r = zlen l -> zlen l <= 64 -> br_v r = num_of (word l) -> Forall is_byte (br_data r) -> 0 < zlen l ->
  zlen l < nbits <= 64 ->
  exists r', ReadBits nbits r = (Ok (num_of (next_bits nbits (l ++ data_bits (br_data r)))), r')
    /\ br_rep r' (drop (Z.to_nat nbits) (l ++ data_bits (br_data r))).
Proof.
  intros En Hl Ev Hd Hpos Hnb. unfold ReadBits, next_bits. rewrite En, Ev. destruct (Z.eqb_spec (zlen l) 0); [lia|].
  destruct (Z.leb_spec nbits (zlen l)) as [Hle|Hgt]; [lia|].
  destruct (readBuf_full (br_data r) Hd) as (l' & data' & E & Hl' & Hd' & Hf & Edb). rewrite E, Edb. cbn [br_n br_v br_data].
  rewrite join_words by lia. set (k := nbits - zlen l).
  assert (Z.to_nat nbits = length l + Z.to_nat k)%nat as Enb by (unfold k, zlen in *; lia).
  rewrite Enb. rewrite <- app_assoc, take_app_add, drop_app_add. pose proof (zlen_nonneg l').
  assert (take (Z.to_nat k) (word l') = take (Z.to_nat k) ((l' ++ data_bits data') ++ replicate (length l + Z.to_nat k) false)) as ->.
  { unfold word. destruct (Z.le_gt_cases k (zlen l')) as [Hk|Hk].
    - rewrite <- app_assoc, !take_app_le by (unfold zlen in *; lia). reflexivity.
    - destruct Hf as [Hf|Hf]; [unfold k, zlen in *; lia|]. subst data'. change (data_bits []) with (@nil bool). rewrite app_nil_r.
      rewrite !take_app_ge by (unfold zlen in *; lia). f_equal. rewrite !take_replicate. f_equal. unfold k, zlen in *. lia. }
  eexists. split; [reflexivity|]. rewrite Z.gtb_ltb.
  set (m := if zlen l' <? k then zlen l' else k). assert (0 <= m <= zlen l' /\ m <= k) as Hm
    by (unfold m; destruct (Z.ltb_spec (zlen l') k); unfold k in *; lia).
  pose proof (shift_out l' (Z.to_nat m) ltac:(unfold zlen in *; lia) Hl') as Es. rewrite Z2Nat.id in Es by lia. rewrite Es.
  assert (zlen l' - m = zlen (drop (Z.to_nat m) l')) as Ed by (unfold zlen in *; rewrite length_drop; lia). rewrite Ed.
  replace (drop (Z.to_nat k) (l' ++ data_bits data')) with (drop (Z.to_nat m) l' ++ data_bits data').
  + apply refill_rep; [lia|exact Hd'].
  + unfold m. destruct (Z.ltb_spec (zlen l') k) as [Hk|Hk].
    * destruct Hf as [Hf|Hf]; [unfold k, zlen in *; lia|]. subst data'. change (data_bits []) with (@nil bool). rewrite !app_nil_r.
      rewrite !drop_ge by (unfold zlen in *; lia). reflexivity.
    * rewrite drop_app_le by (unfold zlen in *; lia). reflexivity.
Qed.

Lemma ReadBits_rep r bs nbits :
  br_rep r bs -> 1 <= nbits <= 64 -> bs <> [] ->
  exists r', ReadBits nbits r = (Ok (num_of (next_bits nbits bs)), r') /\ br_rep r' (drop (Z.to_nat nbits) bs).
Proof.
  intros (l & En & Hl & Ev & Hd & He & ->) Hnb Hbs. destruct (decide (l = [])) as [->|Hne].
  { rewrite (He eq_refl) in Hbs. cbn in Hbs. congruence. }
  assert (0 < zlen l) as Hpos by (destruct l; [congruence|rewrite zlen_cons; pose proof (zlen_nonneg l); lia]).
  destruct (Z.le_gt_cases nbits (zlen l)); [apply ReadBits_buffered|apply ReadBits_refill]; auto; lia.
Qed.

Lemma ReadBits_end r nbits : br_rep r [] -> ReadBits nbits r = (Err EOF, r).
Proof.
  intros (l & En & _ & _ & _ & _ & E). symmetry in E. apply app_eq_nil in E as [-> _]. unfold ReadBits. rewrite En. reflexivity.
Qed.

(** ** One bit *)

(** How the callers read one bit. *)
Definition next_bit : M BitReader read_error bool := fun r =>
  if CanReadBitFast r then let '(b, r) := ReadBitFast r in (Ok b, r) else ReadBit r.

Lemma ReadBitFast_rep r b bs :
  br_rep r (b :: bs) -> CanReadBitFast r = true -> exists r', ReadBitFast r = (b, r') /\ br_rep r' bs.
Proof.
  intros (l & En & Hl & Ev & Hd & He & Ebs) Hfast. unfold CanReadBitFast in Hfast. apply Z.gtb_lt in Hfast. rewrite En in Hfast.
  destruct l as [|b' l]; [rewrite zlen_nil in Hfast; lia|]. cbn [app] in Ebs. injection Ebs as -> ->.
  unfold ReadBitFast. eexists. split.
  - f_equal. rewrite Ev. change (Z.shiftl 1 63) with (2 ^ 63).
    pose proof (num_of_bit (word (b' :: l)) 0 ltac:(cbn; lia)) as Hb. rewrite zlen_word in Hb by exact Hl.
    change (64 - 1 - Z.of_nat 0) with 63 in Hb. change (default false (word (b' :: l) !! 0%nat)) with b' in Hb.
    pose proof (land_pow2 (num_of (word (b' :: l))) 63 ltac:(lia)) as Hp. rewrite Hb in Hp. destruct b'; cbn [negb].
    + apply Z.eqb_eq in Hp. rewrite Hp. reflexivity.
    + apply negb_false_iff, Z.eqb_eq. apply Z.bits_inj'. intros i Hi. rewrite Z.land_spec, Z.bits_0, Z.pow2_bits_eqb by lia.
      destruct (Z.eqb_spec 63 i) as [<-|]; [rewrite Hb; reflexivity|apply andb_false_r].
  - exists l. cbn [br_n br_v br_data]. rewrite En, Ev. rewrite zlen_cons in *.
    pose proof (shift_out (b' :: l) 1 ltac:(cbn; lia) ltac:(rewrite zlen_cons; lia)) as Es. change (Z.of_nat 1) with 1 in Es.
    rewrite Es. change (drop 1 (b' :: l)) with l. repeat split; auto; try lia. intros ->. rewrite zlen_nil in Hfast. lia.
Qed.

Lemma next_bit_rep r b bs :
  br_rep r (b :: bs) -> exists r', next_bit r = (Ok b, r') /\ br_rep r' bs.
Proof.
  intros H. unfold next_bit. destruct (CanReadBitFast r) eqn:E.
  - destruct (ReadBitFast_rep r b bs H E) as (r' & -> & Hr). eauto.
  - unfold ReadBit. destruct (ReadBits_rep r (b :: bs) 1 H ltac:(lia) ltac:(discriminate)) as (r' & -> & Hr). exists r'.
    split; [|exact Hr]. do 2 f_equal. destruct b; reflexivity.
Qed.

Lemma next_bit_end r : br_rep r [] -> next_bit r = (Err EOF, r).
Proof.
  intros H. unfold next_bit, ReadBit. rewrite (ReadBits_end r 1 H). pose proof H as (l & En & _ & _ & _ & _ & E).
  symmetry in E. apply app_eq_nil in E as [-> _]. unfold CanReadBitFast. rewrite En. reflexivity.
Qed.

(** ** Sequences of reads *)

Inductive read_op := OpBits (n : Z) | OpBit.

Definition read_op_ok (o : read_op) : bool := match o with OpBits n => (1 <=? n) && (n <=? 64) | OpBit => true end.

Fixpoint run_reads (ops : list read_op) : M BitReader read_error (list Z) :=
  match ops with
  | [] => ret []
  | OpBits n :: ops => let* v := ReadBits n in let* vs := run_reads ops in ret (v :: vs)
  | OpBit :: ops => let* b := next_bit in let* vs := run_reads ops in ret (Z.b2z b :: vs)
  end.

(** The specification: reads from the list of bits. *)
Fixpoint spec_reads (ops : list read_op) (bs : list bool) : res read_error (list Z) :=
  match ops, bs with
  | [], _ => Ok []
  | _ :: _, [] => Err EOF
  | OpBits n :: ops, _ => match spec_reads ops (drop (Z.to_nat n) bs) with
                          | Ok vs => Ok (num_of (next_bits n bs) :: vs)
                          | e => e
                          end
  | OpBit :: ops, b :: bs => match spec_reads ops bs with Ok vs => Ok (Z.b2z b :: vs) | e => e end
  end.

Lemma run_reads_rep ops r bs :
  Forall (fun o => read_op_ok o = true) ops -> br_rep r bs -> (run_reads ops r).1 = spec_reads ops bs.
Proof.
  intros Hops. revert r bs. induction Hops as [|o ops Ho _ IH]; intros r bs Hr; [destruct bs; reflexivity|].
  destruct bs as [|b bs].
  { destruct o as [n|]; cbn [run_reads spec_reads]; unfold bind; [rewrite ReadBits_end by exact Hr|rewrite next_bit_end by exact Hr];
      reflexivity. }
  destruct o as [n|]; cbn [run_reads spec_reads].
  - cbn in Ho. apply andb_prop in Ho as [H1 H2]. apply Z.leb_le in H1, H2.
    destruct (ReadBits_rep r (b :: bs) n Hr ltac:(lia) ltac:(discriminate)) as (r' & E & Hr').
    unfold bind at 1. rewrite E. rewrite <- (IH r' _ Hr'). unfold bind. destruct (run_reads ops r') as [[] ]; reflexivity.
  - destruct (next_bit_rep r b bs Hr) as (r' & E & Hr'). unfold bind at 1. rewrite E.
    rewrite <- (IH r' _ Hr'). unfold bind. destruct (run_reads ops r') as [[] ]; reflexivity.
Qed.

(** C34 (refinement). The buffered reader implements the list of bits: any
    sequence of [ReadBits] of widths 1 to 64 and of single-bit reads (by the fast
    path where it is allowed) on a reader reset to a slice of bytes delivers
    what the same reads deliver on the bits of the slice, and reports the end of
    the data at the same read. *)
Theorem bit_reader_refines (data : list Z) (ops : list read_op) :
  Forall is_byte data -> Forall (fun o => read_op_ok o = true) ops ->
  (run_reads ops (NewBitReader data)).1 = spec_reads ops (data_bits data).
Proof. intros Hd Ho. apply run_reads_rep; [exact Ho|]. apply Reset_spec, Hd. Qed.

Lemma bit_reader_refines_witness :
  (run_reads [OpBit; OpBits 5; OpBits 64; OpBits 3; OpBit] (NewBitReader [165; 90; 255; 0; 1; 2; 3; 4; 5; 6])).1
  = spec_reads [OpBit; OpBits 5; OpBits 64; OpBits 3; OpBit] (data_bits [165; 90; 255; 0; 1; 2; 3; 4; 5; 6]).
Proof.
  apply bit_reader_refines; repeat constructor; vm_compute; congruence.
Defined.
