(* ===== verification/FloatCodec.v ===== *)
(** * Float blocks

    [tsdb/engine/tsm1/float.go]: the Gorilla encoding.  A value is written as
    the exclusive or with the value before it; the significant bits of the
    result are written in the window of the last explicit window, or with a new
    one.  A float64 is its 64-bit pattern.

    The bit writer ([github.com/dgryski/go-bitstream]) and the counts of zero
    bits ([github.com/influxdata/influxdb/pkg/bits]) are not part of this
    repository: they are the class [BitStream], and the round trip
    uses their documented behaviour, [BitStreamLaws]. *)

From S2P Require Import Prelude Varint BitReader.

Class BitStream := {
  bw : Type;
  bw_New : bw;
  bw_Resume : Z -> Z -> bw -> bw;
  (** every operation returns the bytes it hands to the underlying writer *)
  bw_WriteBit : bool -> bw -> bw * list Z;
  bw_WriteBits : Z -> Z -> bw -> bw * list Z;
  bw_Flush : bool -> bw -> bw * list Z;
  LeadingZeros64 : Z -> Z;
  TrailingZeros64 : Z -> Z;
}.

Class BitStreamLaws `{BitStream} := {
  (** the bits accepted and not handed on yet *)
  bw_pend : bw -> list bool;
  bw_pend_New : bw_pend bw_New = [];
  bw_pend_Resume : forall w, bw_pend (bw_Resume 0 8 w) = [];
  bw_WriteBit_bits : forall b w, let '(w', out) := bw_WriteBit b w in
    Forall is_byte out /\ data_bits out ++ bw_pend w' = bw_pend w ++ [b];
  bw_WriteBits_bits : forall v (n : nat) w, (n <= 64)%nat -> let '(w', out) := bw_WriteBits v (Z.of_nat n) w in
    Forall is_byte out /\ data_bits out ++ bw_pend w' = bw_pend w ++ bits_of n v;
  bw_Flush_bits : forall b w, let '(w', out) := bw_Flush b w in
    Forall is_byte out /\ exists k, data_bits out = bw_pend w ++ replicate k b;
  zeros_bounds : forall x, is_u64 x -> x <> 0 ->
    0 <= LeadingZeros64 x /\ 0 <= TrailingZeros64 x /\ LeadingZeros64 x + TrailingZeros64 x <= 63;
  leading_bound : forall x, is_u64 x -> x <> 0 -> x < 2 ^ (64 - LeadingZeros64 x);
  trailing_divides : forall x, is_u64 x -> x <> 0 -> (2 ^ TrailingZeros64 x | x);
}.

Definition floatCompressedGorilla : Z := 1.
Definition uvnan : Z := 9221120237041090561. (* 0x7FF8000000000001 *)

Definition IsNaN (v : Z) : bool :=
  (Z.land (Z.shiftr v 52) 2047 =? 2047) && negb (Z.land v (Z.ones 52) =? 0).

Section Float.
Context `{BS : BitStream}.

(** ** Encoder *)

Record FloatEncoder := mkFE {
  fe_val : Z; fe_err : option tsm_error; fe_leading : Z; fe_trailing : Z;
  fe_buf : list Z; fe_bw : bw; fe_first : bool; fe_finished : bool;
}.

Definition no_window : Z := 2 ^ 64 - 1. (* ^uint64(0) *)

Definition NewFloatEncoder : FloatEncoder :=
  mkFE 0 None no_window 0 [u8 (Z.shiftl floatCompressedGorilla 4)] bw_New true false.

Definition fe_Reset (s : FloatEncoder) : FloatEncoder :=
  mkFE 0 None no_window 0 [u8 (Z.shiftl floatCompressedGorilla 4)] (bw_Resume 0 8 (fe_bw s)) true false.

Definition fe_Bytes (s : FloatEncoder) : list Z * option tsm_error := (fe_buf s, fe_err s).

(** An operation of the writer appends to the buffer. *)
Definition emit (m : bw -> bw * list Z) (s : FloatEncoder) : FloatEncoder :=
  let '(w, out) := m (fe_bw s) in
  mkFE (fe_val s) (fe_err s) (fe_leading s) (fe_trailing s) (fe_buf s ++ out) w (fe_first s) (fe_finished s).
Definition set_window (l t : Z) (s : FloatEncoder) : FloatEncoder :=
  mkFE (fe_val s) (fe_err s) l t (fe_buf s) (fe_bw s) (fe_first s) (fe_finished s).
Definition set_val (v : Z) (s : FloatEncoder) : FloatEncoder :=
  mkFE v (fe_err s) (fe_leading s) (fe_trailing s) (fe_buf s) (fe_bw s) (fe_first s) (fe_finished s).
Definition clear_first (s : FloatEncoder) : FloatEncoder :=
  mkFE (fe_val s) (fe_err s) (fe_leading s) (fe_trailing s) (fe_buf s) (fe_bw s) false (fe_finished s).

Definition fe_Write (v : Z) (s : FloatEncoder) : FloatEncoder :=
  if IsNaN v && negb (fe_finished s) then
    mkFE (fe_val s) (Some (ErrDecode "unsupported value: NaN")) (fe_leading s) (fe_trailing s) (fe_buf s) (fe_bw s)
      (fe_first s) (fe_finished s)
  else if fe_first s then emit (bw_WriteBits v 64) (clear_first (set_val v s))
  else
    let vDelta := Z.lxor v (fe_val s) in
    let s :=
      if vDelta =? 0 then emit (bw_WriteBit false) s
      else
        let s := emit (bw_WriteBit true) s in
        let leading := LeadingZeros64 vDelta in
        let trailing := TrailingZeros64 vDelta in
        let leading := Z.land leading 31 in
        let leading := if leading >=? 32 then 31 else leading in
        if negb (fe_leading s =? no_window) && (leading >=? fe_leading s) && (trailing >=? fe_trailing s) then
          let s := emit (bw_WriteBit false) s in
          emit (bw_WriteBits (Z.shiftr vDelta (fe_trailing s)) (64 - fe_leading s - fe_trailing s)) s
        else
          let s := set_window leading trailing s in
          let s := emit (bw_WriteBit true) s in
          let s := emit (bw_WriteBits leading 5) s in
          let sigbits := 64 - leading - trailing in
          let s := emit (bw_WriteBits sigbits 6) s in
          emit (bw_WriteBits (Z.shiftr vDelta trailing) sigbits) s
    in set_val v s.

Definition fe_Flush (s : FloatEncoder) : FloatEncoder :=
  if fe_finished s then s else
  let s := mkFE (fe_val s) (fe_err s) (fe_leading s) (fe_trailing s) (fe_buf s) (fe_bw s) (fe_first s) true in
  emit (bw_Flush false) (fe_Write uvnan s).

(** ** Decoder *)

Record FloatDecoder := mkFD {
  fd_val : Z; fd_leading : Z; fd_trailing : Z; fd_br : BitReader; fd_first : bool; fd_finished : bool; fd_err : option read_error;
}.

Definition fd_SetBytes (b : list Z) (it : FloatDecoder) : option read_error * FloatDecoder :=
  match b with
  | [] => (None, mkFD uvnan 0 0 (fd_br it) true false None)
  | _ :: r =>
      match ReadBits 64 (br_Reset r) with
      | (Ok v, br) => (None, mkFD v 0 0 br true false None)
      | (_, br) => (Some EOF, mkFD (fd_val it) (fd_leading it) (fd_trailing it) br (fd_first it) (fd_finished it) (fd_err it))
      end
  end.

Definition fd_with (br : BitReader) (it : FloatDecoder) : FloatDecoder :=
  mkFD (fd_val it) (fd_leading it) (fd_trailing it) br (fd_first it) (fd_finished it) (fd_err it).
Definition fd_fail (br : BitReader) (it : FloatDecoder) : FloatDecoder :=
  mkFD (fd_val it) (fd_leading it) (fd_trailing it) br (fd_first it) (fd_finished it) (Some EOF).
Definition fd_window (l t : Z) (it : FloatDecoder) : FloatDecoder :=
  mkFD (fd_val it) l t (fd_br it) (fd_first it) (fd_finished it) (fd_err it).
Definition fd_finish (it : FloatDecoder) : FloatDecoder :=
  mkFD (fd_val it) (fd_leading it) (fd_trailing it) (fd_br it) (fd_first it) true (fd_err it).

(** Go shifts a uint64 by 64 or more to zero. *)
Definition shl64 (x s : Z) : Z := if s >=? 64 then 0 else u64 (Z.shiftl x s).

(** The end of [Next]: the significant bits in the current window. *)
Definition fd_significant (it : FloatDecoder) : bool * FloatDecoder :=
  let mbits := u64 (64 - fd_leading it - fd_trailing it) in
  match ReadBits mbits (fd_br it) with
  | (Ok bits, br) =>
      let it := fd_with br it in
      let vbits := Z.lxor (fd_val it) (shl64 bits (fd_trailing it)) in
      if vbits =? uvnan then (false, fd_finish it)
      else (true, mkFD vbits (fd_leading it) (fd_trailing it) (fd_br it) (fd_first it) (fd_finished it) (fd_err it))
  | (_, br) => (false, fd_fail br it)
  end.

(** A new window: five bits of leading zeros, six of significant bits. *)
Definition fd_new_window (it : FloatDecoder) : bool * FloatDecoder :=
  match ReadBits 5 (fd_br it) with
  | (Ok leading, br) =>
      let it := fd_window leading (fd_trailing it) (fd_with br it) in
      match ReadBits 6 (fd_br it) with
      | (Ok bits, br) =>
          let it := fd_with br it in
          let mbits := if bits =? 0 then 64 else bits in
          fd_significant (fd_window (fd_leading it) (u64 (64 - fd_leading it - mbits)) it)
      | (_, br) => (false, fd_fail br it)
      end
  | (_, br) => (false, fd_fail br it)
  end.

Definition fd_Next (it : FloatDecoder) : bool * FloatDecoder :=
  if (match fd_err it with Some _ => true | None => false end) || fd_finished it then (false, it) else
  if fd_first it then
    let it := mkFD (fd_val it) (fd_leading it) (fd_trailing it) (fd_br it) false (fd_finished it) (fd_err it) in
    if fd_val it =? uvnan then (false, fd_finish it) else (true, it)
  else
    match next_bit (fd_br it) with
    | (Ok false, br) => (true, fd_with br it)
    | (Ok true, br) =>
        let it := fd_with br it in
        match next_bit (fd_br it) with
        | (Ok false, br) => fd_significant (fd_with br it)
        | (Ok true, br) => fd_new_window (fd_with br it)
        | (_, br) => (false, fd_fail br it)
        end
    | (_, br) => (false, fd_fail br it)
    end.

Definition fd_Values (it : FloatDecoder) : Z := fd_val it.
Definition fd_Error (it : FloatDecoder) : option read_error := fd_err it.

(** ** The bits of a value *)

Definition window : Type := option (Z * Z).

Definition clamp (lz : Z) : Z := Z.land lz 31.

(** The bits for a difference, given the window in force, and the new window. *)
Definition gorilla (w : window) (delta : Z) : list bool * window :=
  if delta =? 0 then ([false], w) else
  let l := clamp (LeadingZeros64 delta) in
  let t := TrailingZeros64 delta in
  let fresh := (true :: true :: bits_of 5 l ++ bits_of 6 (64 - l - t) ++ bits_of (Z.to_nat (64 - l - t)) (Z.shiftr delta t), Some (l, t)) in
  match w with
  | Some (L, T) => if (l >=? L) && (t >=? T)
                   then (true :: false :: bits_of (Z.to_nat (64 - L - T)) (Z.shiftr delta T), w) else fresh
  | None => fresh
  end.

Fixpoint gorilla_all (w : window) (prev : Z) (vs : list Z) : list bool :=
  match vs with
  | [] => []
  | v :: vs => let '(bs, w) := gorilla w (Z.lxor v prev) in bs ++ gorilla_all w v vs
  end.

Context `{BL : !BitStreamLaws}.

(** A window is sensible: it is what [clamp] and the counts can give. *)
Definition window_ok (w : window) : Prop :=
  match w with Some (L, T) => 0 <= L < 32 /\ 0 <= T /\ L + T <= 63 | None => True end.

Lemma clamp_bounds x : 0 <= x -> 0 <= clamp x < 32 /\ clamp x <= x.
Proof.
  intros H. unfold clamp. change 31 with (Z.ones 5). rewrite Z.land_ones by lia. change (2 ^ 5) with 32.
  pose proof (Z.mod_pos_bound x 32 ltac:(lia)). pose proof (Z.mod_le x 32 H ltac:(lia)). lia.
Qed.

Lemma gorilla_window w delta : is_u64 delta -> window_ok w -> window_ok (gorilla w delta).2.
Proof.
  intros Hd Hw. unfold gorilla. destruct (Z.eqb_spec delta 0) as [|Hne]; [exact Hw|].
  destruct (zeros_bounds delta Hd Hne) as (H1 & H2 & H3). pose proof (clamp_bounds _ H1).
  assert (window_ok (Some (clamp (LeadingZeros64 delta), TrailingZeros64 delta))) by (cbn; lia).
  destruct w as [[L T]|]; [|assumption]. destruct (_ && _); assumption.
Qed.

(** ** The encoder writes these bits *)

(** The window the encoder holds. *)
Definition enc_window (s : FloatEncoder) (w : window) : Prop :=
  match w with Some (L, T) => fe_leading s = L /\ fe_trailing s = T | None => fe_leading s = no_window end.

(** After its header the encoder has written [bs]. *)
Definition has_written (s : FloatEncoder) (bs : list bool) : Prop :=
  exists out, fe_buf s = u8 (Z.shiftl floatCompressedGorilla 4) :: out /\ Forall is_byte out
    /\ data_bits out ++ bw_pend (fe_bw s) = bs.

Lemma emit_bits m s bs more :
  has_written s bs ->
  (forall w, let '(w', out) := m w in Forall is_byte out /\ data_bits out ++ bw_pend w' = bw_pend w ++ more) ->
  has_written (emit m s) (bs ++ more).
Proof.
  intros (out & Hb & Hby & Hbits) Hm. specialize (Hm (fe_bw s)). unfold emit.
  destruct (m (fe_bw s)) as [w' out'] eqn:E. destruct Hm as [Hby' Hm].
  exists (out ++ out'). cbn [fe_buf fe_bw]. rewrite Hb. split; [reflexivity|]. split; [apply Forall_app; auto|].
  rewrite data_bits_app, <- app_assoc, Hm, app_assoc, Hbits. reflexivity.
Qed.

Lemma emit_bit b s bs : has_written s bs -> has_written (emit (bw_WriteBit b) s) (bs ++ [b]).
Proof. intros H. apply emit_bits; [exact H|]. intros w. apply bw_WriteBit_bits. Qed.

Lemma emit_word v n s bs : has_written s bs -> 0 <= n <= 64 -> has_written (emit (bw_WriteBits v n) s) (bs ++ bits_of (Z.to_nat n) v).
Proof.
  intros H Hn. apply emit_bits; [exact H|]. intros w. pose proof (bw_WriteBits_bits v (Z.to_nat n) w ltac:(lia)) as E.
  rewrite Z2Nat.id in E by lia. exact E.
Qed.

(** Everything but the buffer and the writer. *)
Definition same_fields (s s' : FloatEncoder) : Prop :=
  fe_val s' = fe_val s /\ fe_err s' = fe_err s /\ fe_leading s' = fe_leading s /\ fe_trailing s' = fe_trailing s
  /\ fe_first s' = fe_first s /\ fe_finished s' = fe_finished s.

Lemma emit_fields m s : same_fields s (emit m s).
Proof. unfold emit. destruct (m (fe_bw s)). repeat split. Qed.

Record enc_state (s : FloatEncoder) (prev : Z) (w : window) (bs : list bool) : Prop := {
  es_val : fe_val s = prev;
  es_err : fe_err s = None;
  es_first : fe_first s = false;
  es_window : enc_window s w;
  es_bits : has_written s bs;
}.

Lemma no_window_big w s : window_ok w -> enc_window s w ->
  (fe_leading s =? no_window) = match w with Some _ => false | None => true end.
Proof.
  intros Hw He. destruct w as [[L T]|]; cbn in *; [|rewrite He; reflexivity]. destruct He as [-> _].
  apply Z.eqb_neq. unfold no_window. lia.
Qed.

Lemma fresh_window s1 v l t delta bs :
  0 <= l /\ 0 <= t /\ l + t <= 63 -> fe_err s1 = None -> fe_first s1 = false -> has_written s1 (bs ++ [true]) ->
  let s2 := emit (bw_WriteBit true) (set_window l t s1) in
  let s3 := emit (bw_WriteBits (64 - l - t) 6) (emit (bw_WriteBits l 5) s2) in
  let s4 := set_val v (emit (bw_WriteBits (Z.shiftr delta t) (64 - l - t)) s3) in
  enc_state s4 v (Some (l, t)) (bs ++ true :: true :: bits_of 5 l ++ bits_of 6 (64 - l - t)
    ++ bits_of (Z.to_nat (64 - l - t)) (Z.shiftr delta t)) /\ fe_finished s4 = fe_finished s1.
Proof.
  intros Hlt Herr Hfirst Hb1 s2 s3 s4.
  destruct (emit_fields (bw_WriteBit true) (set_window l t s1)) as (G1 & G2 & G3 & G4 & G5 & G6). fold s2 in G1, G2, G3, G4, G5, G6.
  destruct (emit_fields (bw_WriteBits l 5) s2) as (I1 & I2 & I3 & I4 & I5 & I6).
  destruct (emit_fields (bw_WriteBits (64 - l - t) 6) (emit (bw_WriteBits l 5) s2)) as (J1 & J2 & J3 & J4 & J5 & J6).
  fold s3 in J1, J2, J3, J4, J5, J6.
  destruct (emit_fields (bw_WriteBits (Z.shiftr delta t) (64 - l - t)) s3) as (K1 & K2 & K3 & K4 & K5 & K6).
  cbn [set_window fe_val fe_err fe_leading fe_trailing fe_first fe_finished] in G1, G2, G3, G4, G5, G6.
  split; [|cbn; congruence]. split; cbn [s4 set_val fe_val fe_err fe_first]; try congruence.
  - cbn. split; congruence.
  - assert (has_written (set_window l t s1) (bs ++ [true])) as Hb2 by exact Hb1.
    apply (emit_bit true) in Hb2. fold s2 in Hb2. apply (emit_word l 5) in Hb2; [|lia].
    apply (emit_word (64 - l - t) 6) in Hb2; [|lia]. fold s3 in Hb2. apply (emit_word (Z.shiftr delta t) (64 - l - t)) in Hb2; [|lia].
    rewrite <- !app_assoc in Hb2. exact Hb2.
Qed.

Lemma Write_bits v s prev w bs :
  enc_state s prev w bs -> window_ok w -> is_u64 prev -> is_u64 v -> IsNaN v = false \/ fe_finished s = true ->
  enc_state (fe_Write v s) v (gorilla w (Z.lxor v prev)).2 (bs ++ (gorilla w (Z.lxor v prev)).1)
  /\ fe_finished (fe_Write v s) = fe_finished s.
Proof.
  intros [Hv He Hf Hw Hb] Hok Hp Hvr Hnan. unfold fe_Write.
  assert (IsNaN v && negb (fe_finished s) = false) as -> by (destruct Hnan as [-> | ->]; [reflexivity|apply andb_false_r]).
  rewrite Hf, Hv. unfold gorilla. set (delta := Z.lxor v prev).
  assert (is_u64 delta) as Hd by (apply lxor_u64; assumption).
  destruct (Z.eqb_spec delta 0) as [E0|Hne]; cbn [fst snd].
  { destruct (emit_fields (bw_WriteBit false) s) as (F1 & F2 & F3 & F4 & F5 & F6).
    split; [|cbn; exact F6]. split; cbn [set_val fe_val fe_err fe_first]; [reflexivity|congruence|congruence| |].
    - destruct w as [[L T]|]; cbn in *; [|congruence]. destruct Hw. split; congruence.
    - apply (emit_bit false s bs Hb). }
  destruct (zeros_bounds delta Hd Hne) as (Hz1 & Hz2 & Hz3). pose proof (clamp_bounds _ Hz1) as Hc.
  set (lz := LeadingZeros64 delta) in *. set (t := TrailingZeros64 delta) in *. fold (clamp lz). set (l := clamp lz) in *.
  assert ((l >=? 32) = false) as -> by (rewrite Z.geb_leb; apply Z.leb_gt; lia).
  destruct (emit_fields (bw_WriteBit true) s) as (F1 & F2 & F3 & F4 & F5 & F6).
  pose proof (emit_bit true s bs Hb) as Hb1. set (s1 := emit (bw_WriteBit true) s) in *.
  assert (enc_window s1 w) as Hw1 by (destruct w as [[L T]|]; cbn in *; [destruct Hw; split|]; congruence).
  rewrite (no_window_big w s1 Hok Hw1).
  pose proof (fresh_window s1 v l t delta bs ltac:(lia) ltac:(congruence) ltac:(congruence) Hb1) as Hfresh.
  rewrite F6 in Hfresh.
  destruct w as [[L T]|]; cbn [negb andb]; [|exact Hfresh].
  destruct Hw1 as [HL HT]. rewrite HL, HT. destruct ((l >=? L) && (t >=? T)); [|exact Hfresh]. clear Hfresh. cbn [fst snd].
  cbn in Hok. destruct (emit_fields (bw_WriteBit false) s1) as (G1 & G2 & G3 & G4 & G5 & G6).
  pose proof (emit_bit false s1 _ Hb1) as Hb2. set (s2 := emit (bw_WriteBit false) s1) in *. rewrite G3, G4, HL, HT.
  destruct (emit_fields (bw_WriteBits (Z.shiftr delta T) (64 - L - T)) s2) as (I1 & I2 & I3 & I4 & I5 & I6).
  apply (emit_word (Z.shiftr delta T) (64 - L - T)) in Hb2; [|lia]. rewrite <- !app_assoc in Hb2.
  split; [|cbn; congruence]. split; cbn [set_val fe_val fe_err fe_first]; try congruence; [cbn; split; congruence|exact Hb2].
Qed.

(** ** The decoder reads these bits *)

Lemma read_word br n x rest :
  br_rep br (bits_of n x ++ rest) -> (1 <= n <= 64)%nat -> 0 <= x < 2 ^ Z.of_nat n ->
  exists br', ReadBits (Z.of_nat n) br = (Ok x, br') /\ br_rep br' rest.
Proof.
  intros Hr Hn Hx. destruct (ReadBits_rep br _ (Z.of_nat n) Hr ltac:(lia)) as (br' & E & Hr').
  { intros H0. apply (f_equal (@length bool)) in H0. rewrite length_app, length_bits_of in H0. cbn in H0. lia. }
  exists br'. unfold next_bits in E. rewrite Nat2Z.id in E, Hr'.
  rewrite <- app_assoc in E. rewrite take_app_length' in E by (symmetry; apply length_bits_of). rewrite drop_app_length' in Hr' by (symmetry; apply length_bits_of).
  rewrite num_of_bits_of, Z.mod_small in E by exact Hx. auto.
Qed.

(** The window the decoder holds. *)
Definition dec_window (it : FloatDecoder) (w : window) : Prop :=
  match w with Some (L, T) => fd_leading it = L /\ fd_trailing it = T | None => True end.

Record dec_state (it : FloatDecoder) (prev : Z) (w : window) (bs : list bool) : Prop := {
  ds_val : fd_val it = prev;
  ds_err : fd_err it = None;
  ds_finished : fd_finished it = false;
  ds_first : fd_first it = false;
  ds_window : dec_window it w;
  ds_bits : br_rep (fd_br it) bs;
}.

(** What [Next] does when the value [v] follows. *)
Definition arrives (it : FloatDecoder) (v : Z) (w : window) (rest : list bool) : Prop :=
  if v =? uvnan then exists it', fd_Next it = (false, it') /\ fd_err it' = None
  else exists it', fd_Next it = (true, it') /\ dec_state it' v w rest.

Lemma shl_shr delta t : is_u64 delta -> 0 <= t < 64 -> (2 ^ t | delta) -> shl64 (Z.shiftr delta t) t = delta.
Proof.
  intros Hd Ht [q Hq]. unfold shl64. rewrite Z.geb_leb. destruct (Z.leb_spec 64 t); [lia|].
  rewrite Z.shiftr_div_pow2, Z.shiftl_mul_pow2 by lia. rewrite Hq at 1. rewrite Z.div_mul by lia. rewrite <- Hq. apply u64_small, Hd.
Qed.

Lemma shr_bound delta L T : 0 <= delta < 2 ^ (64 - L) -> 0 <= L -> 0 <= T -> L + T <= 63 -> 0 <= Z.shiftr delta T < 2 ^ (64 - L - T).
Proof.
  intros Hd HL HT Hs. rewrite Z.shiftr_div_pow2 by lia. split; [apply Z.div_pos; lia|]. apply Z.div_lt_upper_bound; [lia|].
  rewrite <- Z.pow_add_r by lia. replace (T + (64 - L - T)) with (64 - L) by lia. lia.
Qed.

(** The significant bits, once the window is known. *)
Lemma significant_reads it v prev L T rest :
  fd_val it = prev -> fd_err it = None -> fd_finished it = false -> fd_first it = false ->
  fd_leading it = L -> fd_trailing it = T -> 0 <= L < 32 -> 0 <= T -> L + T <= 63 ->
  let delta := Z.lxor v prev in
  is_u64 delta -> delta < 2 ^ (64 - L) -> (2 ^ T | delta) ->
  br_rep (fd_br it) (bits_of (Z.to_nat (64 - L - T)) (Z.shiftr delta T) ++ rest) ->
  if v =? uvnan then exists it', fd_significant it = (false, it') /\ fd_err it' = None
  else exists it', fd_significant it = (true, it') /\ dec_state it' v (Some (L, T)) rest.
Proof.
  intros Hv He Hf Hfi HL HT Hb1 Hb2 Hb3 delta Hd Hlt Hdiv Hr. unfold fd_significant. rewrite HL, HT.
  rewrite u64_small by lia.
  destruct (read_word (fd_br it) (Z.to_nat (64 - L - T)) (Z.shiftr delta T) rest Hr ltac:(lia)) as (br' & E & Hr').
  { rewrite Z2Nat.id by lia. apply shr_bound; destruct Hd; lia. }
  rewrite Z2Nat.id in E by lia. rewrite E. cbn [fd_with fd_val fd_trailing]. rewrite HT, shl_shr by (auto; lia).
  assert (Z.lxor (fd_val it) delta = v) as ->.
  { rewrite Hv. unfold delta. rewrite (Z.lxor_comm v prev), <- Z.lxor_assoc, Z.lxor_nilpotent. apply Z.lxor_0_l. }
  destruct (v =? uvnan); (eexists; split; [reflexivity|]); [exact He|]. split; cbn; auto.
Qed.

Lemma Next_bits it v prev w rest :
  is_u64 v -> is_u64 prev -> prev <> uvnan -> window_ok w ->
  dec_state it prev w ((gorilla w (Z.lxor v prev)).1 ++ rest) -> arrives it v (gorilla w (Z.lxor v prev)).2 rest.
Proof.
  intros Hvr Hpr Hpn Hok [Hv He Hfin Hfi Hw Hr]. unfold arrives, fd_Next. rewrite He, Hfin, Hfi. cbn [orb].
  unfold gorilla in *. set (delta := Z.lxor v prev) in *.
  assert (is_u64 delta) as Hd by (apply lxor_u64; assumption).
  destruct (Z.eqb_spec delta 0) as [E0|Hne]; cbn [fst snd app] in *.
  { apply Z.lxor_eq in E0. subst v. destruct (next_bit_rep _ _ _ Hr) as (br' & -> & Hr'). rewrite (proj2 (Z.eqb_neq prev uvnan) Hpn).
    eexists. split; [reflexivity|]. split; cbn; auto. }
  destruct (zeros_bounds delta Hd Hne) as (Hz1 & Hz2 & Hz3). pose proof (clamp_bounds _ Hz1) as Hc.
  pose proof (leading_bound delta Hd Hne) as Hlead. pose proof (trailing_divides delta Hd Hne) as Htrail.
  set (lz := LeadingZeros64 delta) in *. set (t := TrailingZeros64 delta) in *. set (l := clamp lz) in *.
  set (fresh := true :: true :: bits_of 5 l ++ bits_of 6 (64 - l - t) ++ bits_of (Z.to_nat (64 - l - t)) (Z.shiftr delta t)) in *.
  assert (forall L, 0 <= L <= lz -> delta < 2 ^ (64 - L)) as Hlt.
  { intros L HL. pose proof (Z.pow_le_mono_r 2 (64 - lz) (64 - L) ltac:(lia) ltac:(lia)). lia. }
  destruct (match w with Some (L, T) => (l >=? L) && (t >=? T) | None => false end) eqn:Ereuse.
  - destruct w as [[L T]|]; [|discriminate]. rewrite Ereuse in *. apply andb_prop in Ereuse as [H1 H2].
    rewrite Z.geb_leb in H1, H2. apply Z.leb_le in H1, H2. cbn [fst snd app] in *. cbn in Hok. destruct Hw as [HL HT].
    destruct (next_bit_rep _ _ _ Hr) as (br1 & -> & Hr1). cbn [fd_with fd_br].
    destruct (next_bit_rep _ _ _ Hr1) as (br2 & -> & Hr2).
    apply (significant_reads _ v prev L T rest); cbn [fd_with fd_val fd_err fd_finished fd_first fd_leading fd_trailing fd_br];
      auto; try lia; [apply Hlt; lia|]. etransitivity; [|exact Htrail]. exists (2 ^ (t - T)). rewrite <- Z.pow_add_r by lia. f_equal. lia.
  - assert (br_rep (fd_br it) (fresh ++ rest)) as Hr0.
    { destruct w as [[L T]|]; [rewrite Ereuse in Hr|]; exact Hr. }
    assert ((match w with Some (L, T) => if (l >=? L) && (t >=? T)
               then (true :: false :: bits_of (Z.to_nat (64 - L - T)) (Z.shiftr delta T), w) else (fresh, Some (l, t))
             | None => (fresh, Some (l, t)) end).2 = Some (l, t)) as ->.
    { destruct w as [[L T]|]; [rewrite Ereuse|]; reflexivity. }
    unfold fresh in Hr0. cbn [app] in Hr0. destruct (next_bit_rep _ _ _ Hr0) as (br1 & -> & Hr1). cbn [fd_with fd_br].
    destruct (next_bit_rep _ _ _ Hr1) as (br2 & -> & Hr2). unfold fd_new_window. cbn [fd_with fd_br].
    rewrite <- app_assoc in Hr2. destruct (read_word br2 5 l _ Hr2 ltac:(lia) ltac:(cbn; lia)) as (br3 & E3 & Hr3).
    change (Z.of_nat 5) with 5 in E3. rewrite E3. cbn [fd_window fd_with fd_br fd_leading fd_trailing].
    assert (bits_of 6 (64 - l - t) = bits_of 6 ((64 - l - t) mod 64)) as E6.
    { apply num_of_inj; [rewrite !length_bits_of; reflexivity|]. rewrite !num_of_bits_of. change (2 ^ Z.of_nat 6) with 64.
      rewrite Z.mod_mod by lia. reflexivity. }
    rewrite <- app_assoc, E6 in Hr3. pose proof (Z.mod_pos_bound (64 - l - t) 64 ltac:(lia)) as H6.
    destruct (read_word br3 6 ((64 - l - t) mod 64) _ Hr3 ltac:(lia) H6) as (br4 & E4 & Hr4).
    change (Z.of_nat 6) with 6 in E4. rewrite E4.
    assert ((if (64 - l - t) mod 64 =? 0 then 64 else (64 - l - t) mod 64) = 64 - l - t) as ->.
    { destruct (Z.eq_dec (64 - l - t) 64) as [->|]; [reflexivity|]. rewrite Z.mod_small by lia.
      destruct (Z.eqb_spec (64 - l - t) 0); lia. }
    apply (significant_reads _ v prev l t rest);
      cbn [fd_with fd_window fd_val fd_err fd_finished fd_first fd_leading fd_trailing fd_br]; auto; try lia.
    + rewrite u64_small by lia. lia.
    + apply Hlt. lia.
Qed.

(** ** Whole blocks *)

Definition fe_write_all (vs : list Z) (s : FloatEncoder) : FloatEncoder := fold_left (fun s v => fe_Write v s) vs s.

(** [for d.Next() { ... d.Values() ... }], with the decoder it ends in. *)
Fixpoint fd_read_all (fuel : nat) (it : FloatDecoder) : list Z * FloatDecoder :=
  match fuel with
  | O => ([], it)
  | S f => let '(ok, it) := fd_Next it in
           if ok then let '(l, it') := fd_read_all f it in (fd_Values it :: l, it') else ([], it)
  end.

(** The values the encoder accepts. *)
Definition float_ok (v : Z) : Prop := is_u64 v /\ IsNaN v = false.

Lemma float_ok_nan v : float_ok v -> v <> uvnan.
Proof. intros [_ H] ->. discriminate. Qed.

Lemma is_u64_nan : is_u64 uvnan.
Proof. split; vm_compute; congruence. Qed.

Lemma write_all_bits vs s prev w bs :
  enc_state s prev w bs -> window_ok w -> float_ok prev -> Forall float_ok vs -> fe_finished s = false ->
  exists last w', enc_state (fe_write_all vs s) last w' (bs ++ gorilla_all w prev vs) /\ window_ok w' /\ float_ok last
    /\ fe_finished (fe_write_all vs s) = false
    /\ gorilla_all w prev (vs ++ [uvnan]) = gorilla_all w prev vs ++ (gorilla w' (Z.lxor uvnan last)).1.
Proof.
  intros Hs Hw Hp Hvs. revert s prev w bs Hs Hw Hp. induction Hvs as [|v vs Hv _ IH]; intros s prev w bs Hs Hw Hp Hfin.
  { exists prev, w. cbn [fe_write_all fold_left gorilla_all app]. rewrite app_nil_r. repeat split; auto.
    all: try apply Hs; try apply Hp. destruct (gorilla w (Z.lxor uvnan prev)) as [b w']. cbn. apply app_nil_r. }
  destruct Hv as [Hv Hn]. destruct (Write_bits v s prev w bs Hs Hw (proj1 Hp) Hv (or_introl Hn)) as [Hs' Hfin'].
  pose proof (gorilla_window w (Z.lxor v prev) ltac:(apply lxor_u64; [exact Hv|apply Hp]) Hw) as Hw'.
  cbn [gorilla_all app]. change (fe_write_all (v :: vs) s) with (fe_write_all vs (fe_Write v s)).
  destruct (gorilla w (Z.lxor v prev)) as [b w1] eqn:Eg. cbn [fst snd] in *.
  destruct (IH _ _ _ _ Hs' Hw' (conj Hv Hn) ltac:(congruence)) as (last & w2 & H1 & H2 & H3 & H4 & H5).
  exists last, w2. rewrite <- app_assoc in H1. repeat split; auto; try apply H1; try apply H3.
  rewrite H5, app_assoc. reflexivity.
Qed.

Lemma read_all_bits vs fuel it prev w pad :
  float_ok prev -> Forall float_ok vs -> window_ok w -> (length vs < fuel)%nat ->
  dec_state it prev w (gorilla_all w prev (vs ++ [uvnan]) ++ pad) ->
  exists it', fd_read_all fuel it = (vs, it') /\ fd_err it' = None.
Proof.
  intros Hp Hvs. revert fuel it prev w Hp. induction Hvs as [|v vs Hv _ IH]; intros fuel it prev w Hp Hw Hf Hit;
    (destruct fuel as [|f]; [cbn in Hf; lia|]); cbn [gorilla_all app] in Hit; cbn [fd_read_all].
  - pose proof (Next_bits it uvnan prev w) as HN. destruct (gorilla w (Z.lxor uvnan prev)) as [b w1]. cbn [fst snd] in HN.
    cbn [gorilla_all] in Hit. rewrite <- app_assoc in Hit.
    destruct (HN _ is_u64_nan (proj1 Hp) (float_ok_nan _ Hp) Hw Hit) as (it' & -> & He). eauto.
  - pose proof (Next_bits it v prev w) as HN.
    pose proof (gorilla_window w (Z.lxor v prev) ltac:(apply lxor_u64; [apply Hv|apply Hp]) Hw) as Hw'.
    destruct (gorilla w (Z.lxor v prev)) as [b w1]. cbn [fst snd] in HN, Hw'. rewrite <- app_assoc in Hit.
    specialize (HN _ (proj1 Hv) (proj1 Hp) (float_ok_nan _ Hp) Hw Hit). unfold arrives in HN.
    rewrite (proj2 (Z.eqb_neq v uvnan) (float_ok_nan _ Hv)) in HN. destruct HN as (it' & -> & Hit').
    destruct (IH f it' v w1 Hv Hw' ltac:(cbn in Hf; lia) Hit') as (it'' & -> & He). exists it''. split; [|exact He].
    unfold fd_Values. rewrite (ds_val _ _ _ _ Hit'). reflexivity.
Qed.

Definition fe_ready (s : FloatEncoder) : Prop := s = NewFloatEncoder \/ (exists s', s = fe_Reset s').

Lemma ready_bits s : fe_ready s ->
  has_written s [] /\ fe_first s = true /\ fe_finished s = false /\ fe_err s = None /\ fe_leading s = no_window.
Proof.
  intros [->|[s' ->]]; repeat split; exists []; cbn; repeat split; auto; [apply bw_pend_New|apply bw_pend_Resume].
Qed.

(** The first value, whole. *)
Lemma Write_first v s bs :
  has_written s bs -> fe_first s = true -> fe_err s = None -> fe_leading s = no_window -> IsNaN v = false \/ fe_finished s = true ->
  enc_state (fe_Write v s) v None (bs ++ bits_of 64 v) /\ fe_finished (fe_Write v s) = fe_finished s.
Proof.
  intros Hb Hfi He Hl Hn. unfold fe_Write.
  assert (IsNaN v && negb (fe_finished s) = false) as -> by (destruct Hn as [-> | ->]; [reflexivity|apply andb_false_r]).
  rewrite Hfi. destruct (emit_fields (bw_WriteBits v 64) (clear_first (set_val v s))) as (F1 & F2 & F3 & F4 & F5 & F6).
  split; [|exact F6]. split; auto; [rewrite F2; exact He|cbn; rewrite F3; exact Hl|].
  apply (emit_word v 64); [exact Hb|lia].
Qed.

(** The bytes of a flushed encoder hold the bits of the values, the end mark
    and padding. *)
Lemma flushed s bs last w :
  enc_state s last w bs -> window_ok w -> float_ok last -> fe_finished s = false ->
  exists out pad, fe_Bytes (fe_Flush s) = (u8 (Z.shiftl floatCompressedGorilla 4) :: out, None) /\ Forall is_byte out
    /\ data_bits out = bs ++ (gorilla w (Z.lxor uvnan last)).1 ++ pad.
Proof.
  intros [Hv He Hf Hw Hb] Hok Hl Hfin. unfold fe_Flush. rewrite Hfin. set (s0 := mkFE _ _ _ _ _ _ _ _).
  assert (enc_state s0 last w bs) as Hs0 by (split; auto; destruct w as [[]|]; exact Hw).
  destruct (Write_bits uvnan s0 last w bs Hs0 Hok (proj1 Hl) is_u64_nan (or_intror eq_refl)) as [[_ He' _ _ (out & Eb & Hby & Hbits)] _].
  unfold emit. pose proof (bw_Flush_bits false (fe_bw (fe_Write uvnan s0))) as HF.
  destruct (bw_Flush false (fe_bw (fe_Write uvnan s0))) as [w' out']. destruct HF as [Hby' [k Hk]].
  exists (out ++ out'), (replicate k false). unfold fe_Bytes. cbn [fe_buf fe_err]. rewrite Eb, He'. split; [reflexivity|].
  split; [apply Forall_app; auto|]. rewrite data_bits_app, Hk, app_assoc, Hbits, <- app_assoc. reflexivity.
Qed.

(** What a decoder must deliver of a block [b] of the floats [vs]. *)
Definition fd_decodes (b vs : list Z) : Prop :=
  forall d, exists d0, fd_SetBytes b d = (None, d0)
    /\ forall fuel, (length vs < fuel)%nat -> exists d1, fd_read_all fuel d0 = (vs, d1) /\ fd_Error d1 = None.

Lemma SetBytes_first hdr out v rest d :
  Forall is_byte out -> is_u64 v -> data_bits out = bits_of 64 v ++ rest ->
  exists br, fd_SetBytes (hdr :: out) d = (None, mkFD v 0 0 br true false None) /\ br_rep br rest.
Proof.
  intros Hby Hv Hbits. pose proof (Reset_spec out Hby) as Hr. rewrite Hbits in Hr.
  destruct (read_word (br_Reset out) 64 v rest Hr ltac:(lia) Hv) as (br & E & Hr'). exists br. unfold fd_SetBytes.
  change (Z.of_nat 64) with 64 in E. rewrite E. auto.
Qed.

Lemma empty_decodes s : fe_ready s -> exists b, fe_Bytes (fe_Flush s) = (b, None) /\ fd_decodes b [].
Proof.
  intros Hs. destruct (ready_bits s Hs) as (Hb & Hfi & Hfin & He & Hl). unfold fe_Flush. rewrite Hfin.
  set (s0 := mkFE _ _ _ _ _ _ _ _).
  destruct (Write_first uvnan s0 [] Hb Hfi He Hl (or_intror eq_refl)) as [[_ He' _ _ (out & Eb & Hby & Hbits)] _].
  unfold emit. pose proof (bw_Flush_bits false (fe_bw (fe_Write uvnan s0))) as HF.
  destruct (bw_Flush false (fe_bw (fe_Write uvnan s0))) as [w' out']. destruct HF as [Hby' [k Hk]].
  eexists. split; [unfold fe_Bytes; cbn [fe_buf fe_err]; rewrite Eb, He'; reflexivity|]. intros d.
  destruct (SetBytes_first (u8 (Z.shiftl floatCompressedGorilla 4)) (out ++ out') uvnan (replicate k false) d) as (br & E & _).
  - apply Forall_app; auto.
  - apply is_u64_nan.
  - rewrite data_bits_app, Hk, app_assoc, Hbits. reflexivity.
  - cbn [app]. rewrite E. eexists. split; [reflexivity|]. intros [|f] Hf; [cbn in Hf; lia|]. eexists. split; reflexivity.
Qed.

Lemma write_all_decodes vs s :
  Forall float_ok vs -> fe_ready s -> exists b, fe_Bytes (fe_Flush (fe_write_all vs s)) = (b, None) /\ fd_decodes b vs.
Proof.
  intros Hvs Hs. destruct Hvs as [|v vs Hv Hvs]; [apply empty_decodes, Hs|].
  destruct (ready_bits s Hs) as (Hb & Hfi & Hfin & He & Hl). change (fe_write_all (v :: vs) s) with (fe_write_all vs (fe_Write v s)).
  destruct (Write_first v s [] Hb Hfi He Hl (or_introl (proj2 Hv))) as [Hs1 Hfin1].
  destruct (write_all_bits vs _ _ _ _ Hs1 I Hv Hvs ltac:(congruence)) as (last & w & Hs2 & Hw & Hlast & Hfin2 & Eg).
  destruct (flushed _ _ _ _ Hs2 Hw Hlast Hfin2) as (out & pad & Eb & Hby & Hbits).
  eexists. split; [exact Eb|]. intros d. cbn [app] in Hbits.
  destruct (SetBytes_first (u8 (Z.shiftl floatCompressedGorilla 4)) out v (gorilla_all None v (vs ++ [uvnan]) ++ pad) d) as (br & E & Hr).
  - exact Hby.
  - apply Hv.
  - rewrite Hbits, Eg, <- !app_assoc. reflexivity.
  - eexists. split; [exact E|]. intros [|f] Hf; [cbn in Hf; lia|]. cbn [fd_read_all]. unfold fd_Next at 1.
    cbn [fd_err fd_finished fd_first fd_val orb]. rewrite (proj2 (Z.eqb_neq v uvnan) (float_ok_nan _ Hv)).
    match goal with |- context [fd_read_all f ?it] =>
      destruct (read_all_bits vs f it v None pad Hv Hvs I ltac:(cbn in Hf; lia)) as (it' & E' & He') end.
    + split; cbn; auto.
    + rewrite E'. exists it'. auto.
Qed.

(** C33 (round trip). The floats written to a new or reset encoder, NaN
    excepted, are encoded without error, and every decoder set to the flushed
    bytes delivers the same bit patterns and stops at the end mark without
    error. *)
Theorem float_roundtrip (vs : list Z) (s : FloatEncoder) :
  Forall (fun v => is_u64 v /\ IsNaN v = false) vs -> s = NewFloatEncoder \/ (exists s', s = fe_Reset s') ->
  exists b, fe_Bytes (fe_Flush (fe_write_all vs s)) = (b, None)
    /\ forall d, exists d0, fd_SetBytes b d = (None, d0)
         /\ forall fuel, (length vs < fuel)%nat -> exists d1, fd_read_all fuel d0 = (vs, d1) /\ fd_Error d1 = None.
Proof. apply write_all_decodes. Qed.

End Float.

(** ** A bit stream that satisfies the laws

    It keeps the bits of the last byte, and counts zeros one by one. *)

(** Whole bytes out of the front of a list of bits. *)
Fixpoint pack (fuel : nat) (l : list bool) : list bool * list Z :=
  match fuel with
  | O => (l, [])
  | S f => if (length l <? 8)%nat then (l, []) else let '(r, out) := pack f (drop 8 l) in (r, num_of (take 8 l) :: out)
  end.

Fixpoint trailing (fuel : nat) (x : Z) : Z :=
  match fuel with O => 0 | S f => if Z.odd x then 0 else 1 + trailing f (x / 2) end.

Definition list_stream : BitStream := {|
  bw := list bool;
  bw_New := [];
  bw_Resume _ _ _ := [];
  bw_WriteBit b w := pack (length (w ++ [b])) (w ++ [b]);
  bw_WriteBits v n w := let l := w ++ bits_of (Z.to_nat n) v in pack (length l) l;
  bw_Flush b w := let l := w ++ replicate ((8 - length w mod 8) mod 8) b in ([], (pack (length l) l).2);
  LeadingZeros64 x := 63 - Z.log2 x;
  TrailingZeros64 x := trailing 64 x;
|}.

Lemma pack_bits fuel l : let '(r, out) := pack fuel l in Forall is_byte out /\ data_bits out ++ r = l.
Proof.
  revert l. induction fuel as [|f IH]; intros l; cbn [pack]; [split; [constructor|reflexivity]|].
  destruct (Nat.ltb_spec (length l) 8); [split; [constructor|reflexivity]|].
  specialize (IH (drop 8 l)). destruct (pack f (drop 8 l)) as [r out]. destruct IH as [H1 H2].
  assert (length (take 8 l) = 8%nat) as H8 by (rewrite length_take; lia). split.
  - constructor; [|exact H1]. pose proof (num_of_range (take 8 l)) as Hr. unfold zlen in Hr. rewrite H8 in Hr. exact Hr.
  - rewrite data_bits_cons, <- app_assoc, H2. pose proof (bits_of_num_of (take 8 l)) as E. rewrite H8 in E. rewrite E.
    apply take_drop.
Qed.

Lemma pack_all fuel l : (length l mod 8 = 0)%nat -> (length l <= fuel)%nat -> data_bits (pack fuel l).2 = l.
Proof.
  revert l. induction fuel as [|f IH]; intros l Hm Hl; cbn [pack].
  { destruct l; [reflexivity|cbn in Hl; lia]. }
  destruct (Nat.ltb_spec (length l) 8) as [Hlt|Hge].
  - rewrite Nat.mod_small in Hm by lia. destruct l; [reflexivity|discriminate].
  - assert (length (drop 8 l) mod 8 = 0)%nat as Hm'.
    { rewrite length_drop. pose proof (Nat.Div0.mod_add (length l - 8) 1 8) as E. replace (length l - 8 + 1 * 8)%nat with (length l) in E by lia. lia. }
    pose proof (IH (drop 8 l) Hm' ltac:(rewrite length_drop; lia)) as E. destruct (pack f (drop 8 l)) as [r out]. cbn [snd] in *.
    rewrite data_bits_cons, E. pose proof (bits_of_num_of (take 8 l)) as E8. rewrite length_take, Nat.min_l in E8 by lia. rewrite E8.
    apply take_drop.
Qed.

Lemma trailing_spec fuel x : 0 < x < 2 ^ Z.of_nat fuel ->
  0 <= trailing fuel x < Z.of_nat fuel /\ (2 ^ trailing fuel x | x) /\ 2 ^ trailing fuel x <= x.
Proof.
  revert x. induction fuel as [|f IH]; intros x Hx; [cbn in Hx; lia|]. cbn [trailing]. destruct (Z.odd x) eqn:Eo.
  - split; [lia|]. split; [apply Z.divide_1_l|cbn; lia].
  - rewrite Nat2Z.inj_succ, Z.pow_succ_r in Hx by lia.
    assert (x = 2 * (x / 2)) as E2.
    { apply Z_div_exact_full_2; [lia|]. rewrite Zmod_odd, Eo. reflexivity. }
    destruct (IH (x / 2) ltac:(lia)) as (H1 & H2 & H3).
    rewrite Z.pow_add_r by lia. change (2 ^ 1) with 2. split; [lia|]. split; [|lia]. rewrite E2 at 2. apply Z.mul_divide_mono_l, H2.
Qed.

Definition list_stream_laws : @BitStreamLaws list_stream.
Proof.
  refine {| bw_pend := fun w : @bw list_stream => w |}.
  - reflexivity.
  - reflexivity.
  - intros b w. apply pack_bits.
  - intros v n w Hn. cbn. rewrite Nat2Z.id. apply pack_bits.
  - intros b w. cbn. pose proof (pack_bits (length (w ++ replicate ((8 - length w mod 8) mod 8) b)) (w ++ replicate ((8 - length w mod 8) mod 8) b)) as H.
    destruct (pack _ _) as [r out] eqn:E. split; [apply H|]. exists ((8 - length w mod 8) mod 8)%nat.
    change out with (r, out).2. rewrite <- E. apply pack_all; [|lia]. rewrite length_app, length_replicate.
    pose proof (Nat.mod_upper_bound (length w) 8 ltac:(lia)). rewrite Nat.Div0.add_mod, Nat.Div0.mod_mod.
    destruct (decide (length w mod 8 = 0)%nat) as [->|]; [reflexivity|]. rewrite (Nat.mod_small (8 - _)) by lia.
    replace (length w mod 8 + (8 - length w mod 8))%nat with 8%nat by lia. reflexivity.
  - intros x [H0 H1] Hne. cbn [LeadingZeros64 TrailingZeros64 list_stream].
    destruct (trailing_spec 64 x ltac:(cbn; lia)) as (Ht & _ & Hle). pose proof (Z.log2_lt_pow2 x 64 ltac:(lia)).
    pose proof (Z.log2_le_mono _ _ Hle) as Hlog. rewrite Z.log2_pow2 in Hlog by lia. change (Z.of_nat 64) with 64 in Ht. lia.
  - intros x [H0 H1] Hne. cbn [LeadingZeros64 list_stream]. replace (64 - (63 - Z.log2 x)) with (Z.succ (Z.log2 x)) by lia.
    apply Z.log2_spec. lia.
  - intros x [H0 H1] Hne. cbn [TrailingZeros64 list_stream]. apply (trailing_spec 64 x). cbn. lia.
Defined.

#[local] Existing Instance list_stream.

(** 1.5, 1.5, -2.0 and 1e308. *)
Definition floats_ex : list Z := [4609434218613702656; 4609434218613702656; 13835058055282163712; 9214871658872686752].

Lemma float_roundtrip_witness :
  exists b, fe_Bytes (fe_Flush (fe_write_all floats_ex NewFloatEncoder)) = (b, None)
    /\ forall d, exists d0, fd_SetBytes b d = (None, d0)
         /\ forall fuel, (4 < fuel)%nat -> exists d1, fd_read_all fuel d0 = (floats_ex, d1) /\ fd_Error d1 = None.
Proof.
  apply (float_roundtrip (BL := list_stream_laws) floats_ex NewFloatEncoder).
  - repeat constructor; vm_compute; congruence.
  - left. reflexivity.
Defined.
