(* ===== verification/ValueCodec.v ===== *)
(** * Blocks of one type

    The five pairs [encodeXBlockUsing] and [DecodeXBlock] of
    [tsdb/engine/tsm1/encoding.go] differ only in the value encoder and decoder
    they use.  The class [ValueCodec] is the operations they call,
    [ValueCodecLaws] what a codec promises to them, and the block functions are
    written and proved once, against the class. *)

From S2P Require Import Prelude Varint Simple8b TimeCodec.

(** A timestamped value: the structs [FloatValue], [IntegerValue], ... *)
Record tv (V : Type) := mkTV { unixnano : Z; value : V }.
Arguments mkTV {V} unixnano value.
Arguments unixnano {V} t.
Arguments value {V} t.

Class ValueCodec (V : Type) := {
  vc_type : Z;
  vc_enc : Type;
  vc_Reset : vc_enc -> vc_enc;
  vc_Write : V -> vc_enc -> vc_enc;
  vc_Flush : vc_enc -> vc_enc;
  vc_Bytes : vc_enc -> res tsm_error (list Z);
  vc_dec : Type;
  vc_SetBytes : list Z -> vc_dec -> option tsm_error * vc_dec;
  vc_Next : vc_dec -> bool * vc_dec;
  vc_Read : vc_dec -> option (V * vc_dec);
  vc_Error : vc_dec -> option tsm_error;
}.

Section Block.
Context `{S8 : Simple8b} {V : Type} `{VC : !ValueCodec V}.

(** One turn of [for _, v := range values]. *)
Definition write_both (s : encoder * vc_enc) (x : tv V) : encoder * vc_enc :=
  (te_Write (unixnano x) s.1, vc_Write (value x) s.2).

Definition encodeBlockUsing (values : list (tv V)) (tsenc : encoder) (venc : vc_enc) : res tsm_error (list Z) :=
  let s := fold_left write_both values (te_Reset tsenc, vc_Reset venc) in
  match (te_Bytes s.1).1 with
  | Ok tb =>
      match vc_Bytes (vc_Flush s.2) with
      | Ok vb => Ok (packBlock vc_type tb vb)
      | Err e => Err e
      | Panic => Panic
      end
  | Err e => Err e
  | Panic => Panic
  end.

(** [for j < len(a) && tdec.Next() && vdec.Next()]: [n] places are left.  [None]
    is a panic of [Read]. *)
Fixpoint decode_loop (n : nat) (tdec : TimeDecoder) (vdec : vc_dec) : option (list (tv V) * TimeDecoder * vc_dec) :=
  match n with
  | O => Some ([], tdec, vdec)
  | S n =>
      let '(ok, tdec) := td_Next tdec in
      if negb ok then Some ([], tdec, vdec) else
      let '(ok, vdec) := vc_Next vdec in
      if negb ok then Some ([], tdec, vdec) else
      match vc_Read vdec with
      | None => None
      | Some (v, vdec) =>
          match decode_loop n tdec vdec with
          | None => None
          | Some (l, t, d) => Some (mkTV (td_Read tdec) v :: l, t, d)
          end
      end
  end.

(** The result and error of [DecodeXBlock], with the decoders that go back to
    the pools; [None] is a panic. *)
Definition DecodeBlockOf (block : list Z) (tdec : TimeDecoder) (vdec : vc_dec)
    : option (list (tv V) * option tsm_error) * TimeDecoder * vc_dec :=
  match block with
  | [] => (None, tdec, vdec)
  | blockType :: block =>
      if negb (blockType =? vc_type) then (Some ([], Some ErrBlockType), tdec, vdec) else
      match unpackBlock block with
      | Err e => (Some ([], Some e), tdec, vdec)
      | Panic => (None, tdec, vdec)
      | Ok (tb, vb) =>
          match CountTimestamps tb with
          | None => (None, tdec, vdec)
          | Some sz =>
              if sz <? 0 then (None, tdec, vdec) else
              let tdec := td_Init tb tdec in
              let '(err, vdec) := vc_SetBytes vb vdec in
              match err with
              | Some e => (Some ([], Some e), tdec, vdec)
              | None =>
                  match decode_loop (Z.to_nat sz) tdec vdec with
                  | None => (None, tdec, vdec)
                  | Some (l, tdec, vdec) =>
                      (Some (l, match td_Error tdec with Some e => Some e | None => vc_Error vdec end), tdec, vdec)
                  end
              end
          end
      end
  end.

(** ** What a value codec promises *)

Inductive reads : vc_dec -> list V -> vc_dec -> Prop :=
| reads_nil d : reads d [] d
| reads_cons d d1 d2 d3 v vs : vc_Next d = (true, d1) -> vc_Read d1 = Some (v, d2) -> reads d2 vs d3 -> reads d (v :: vs) d3.

Definition vc_write_all (vs : list V) (e : vc_enc) : vc_enc := fold_left (fun e v => vc_Write v e) vs e.

Class ValueCodecLaws := {
  (** the values that can be stored, and the decoders a pool may hand out *)
  vc_fits : list V -> Prop;
  vc_usable : vc_dec -> Prop;
  vc_roundtrip : forall vs e, vc_fits vs ->
    exists b, vc_Bytes (vc_Flush (vc_write_all vs (vc_Reset e))) = Ok b
      /\ forall d, vc_usable d -> exists d0 d1, vc_SetBytes b d = (None, d0) /\ reads d0 vs d1
           /\ vc_Error d1 = None /\ vc_usable d1;
}.

(** ** The block of a codec that keeps its promise *)

Lemma write_both_all (values : list (tv V)) s :
  fold_left write_both values s = (te_write_all (map unixnano values) s.1, vc_write_all (map value values) s.2).
Proof.
  revert s. induction values as [|x values IH]; intros s; [destruct s; reflexivity|]. cbn [fold_left map]. rewrite IH. reflexivity.
Qed.

Lemma td_Next_err d : td_err (td_Next d).2 = td_err d.
Proof.
  unfold td_Next. destruct (td_err d) eqn:E; [exact E|]. destruct (_ =? _).
  - destruct (_ >=? _); [exact E|reflexivity].
  - destruct (_ >=? _); [exact E|reflexivity].
Qed.

Lemma decode_loop_reads (values : list (tv V)) fuel tdec vdec vdec' :
  td_err tdec = None -> (length values < fuel)%nat -> td_read_all fuel tdec = map unixnano values ->
  reads vdec (map value values) vdec' ->
  exists tdec', decode_loop (length values) tdec vdec = Some (values, tdec', vdec') /\ td_err tdec' = None.
Proof.
  revert fuel tdec vdec. induction values as [|[t v] values IH]; intros fuel tdec vdec He Hf Ht Hr; cbn [map] in *.
  - inversion Hr; subst. cbn. eauto.
  - inversion Hr as [|? d1 d2 ? ? ? HN HR Hrest]; subst. destruct fuel as [|f]; [cbn in Hf; lia|].
    cbn [td_read_all] in Ht. cbn [length decode_loop]. pose proof (td_Next_err tdec) as HE. rewrite He in HE.
    destruct (td_Next tdec) as [ok tdec1]. destruct ok; [|discriminate]. cbn [snd] in HE. injection Ht as Ht1 Ht2.
    cbn [value] in HR, Hrest. rewrite HN, HR. cbn [negb].
    destruct (IH f tdec1 d2 HE ltac:(cbn in Hf; lia) Ht2 Hrest) as (tdec' & -> & He'). exists tdec'. rewrite Ht1. auto.
Qed.

Lemma block_decodes (values : list (tv V)) tsenc venc `{L8 : !Simple8bLaws} `{VL : !ValueCodecLaws} :
  values <> [] -> Forall (fun x => is_i64 (unixnano x)) values -> zlen values < 2 ^ 58 -> vc_fits (map value values) ->
  exists block, encodeBlockUsing values tsenc venc = Ok (vc_type :: block)
    /\ (forall tdec vdec, vc_usable vdec ->
         exists tdec' vdec', DecodeBlockOf (vc_type :: block) tdec vdec = (Some (values, None), tdec', vdec') /\ vc_usable vdec')
    /\ exists tb vb, unpackBlock block = Ok (tb, vb) /\ CountTimestamps tb = Some (zlen values)
         /\ forall tdec, td_err (td_Init tb tdec) = None.
Proof.
  intros Hne Hts Hz Hfit. set (ts := map unixnano values).
  assert (zlen ts = zlen values) as Hzt by (unfold ts, zlen; rewrite length_map; reflexivity).
  assert (Forall is_i64 ts) as Hts' by (apply Forall_map; exact Hts).
  destruct (te_Bytes_decodes ts (te_Reset tsenc)) as (tb & e' & Etb & Hdec & Hsz).
  { unfold ts. destruct values; [congruence|discriminate]. }
  { lia. }
  { right. eauto. }
  pose proof (decodes_i64 ts tb Hts' Hdec) as Htd.
  destruct (vc_roundtrip (map value values) venc Hfit) as (vb & Evb & Hvd).
  exists (tail (packBlock vc_type tb vb)). pose proof (unpack_pack vc_type tb vb ltac:(lia)) as Hup.
  destruct (Htd td_zero) as (_ & _ & Hcount). rewrite Hzt in Hcount. split; [|split].
  - unfold encodeBlockUsing. rewrite write_both_all. cbn [fst snd]. fold ts. rewrite Etb. cbn [fst]. rewrite Evb. reflexivity.
  - intros tdec vdec Hu. destruct (Htd tdec) as (Herr & Hread & _). destruct (Hvd vdec Hu) as (d0 & d1 & Es & Hr & He & Hu').
    unfold DecodeBlockOf. rewrite Z.eqb_refl. cbn [negb]. rewrite Hup, Hcount. pose proof (zlen_nonneg values).
    destruct (Z.ltb_spec (zlen values) 0); [lia|]. rewrite Es.
    destruct (decode_loop_reads values (S (length values)) (td_Init tb tdec) d0 d1) as (tdec' & El & He'); auto.
    { unfold zlen in Hzt. apply Hread. lia. }
    unfold zlen. rewrite Nat2Z.id, El. change (td_Error tdec') with (td_err tdec'). rewrite He', He. eauto.
  - exists tb, vb. split; [exact Hup|]. split; [exact Hcount|]. intros tdec. apply (Htd tdec).
Qed.

End Block.
