(* ===== verification/Blocks.v ===== *)
(** * Encoding and decoding blocks

    [tsdb/engine/tsm1/encoding.go]: the tagged values, the five block types with
    their codecs, and the dispatch of [Values.Encode] and [DecodeBlock].  A
    decoder comes from a pool in whatever state it was put back, so the decoders
    are threaded through explicitly. *)

From S2P Require Import Prelude Varint Simple8b TimeCodec IntCodec BoolCodec StringCodec BitReader FloatCodec ValueCodec.

Definition BlockFloat64 : Z := 0.
Definition BlockInteger : Z := 1.
Definition BlockBoolean : Z := 2.
Definition BlockString : Z := 3.
Definition BlockUnsigned : Z := 4.

Section Blocks.
Context `{S8 : Simple8b} `{SN : Snappy} `{BS : BitStream}.

(** ** The codecs of the five types *)

Definition integer_codec : ValueCodec Z := {|
  vc_type := BlockInteger;
  vc_enc := IntegerEncoder; vc_Reset := ie_Reset; vc_Write := ie_Write; vc_Flush e := e; vc_Bytes := ie_Bytes;
  vc_dec := IntegerDecoder; vc_SetBytes b d := (None, id_SetBytes b d); vc_Next := id_Next; vc_Read := id_Read; vc_Error := id_Error;
|}.

(** [int64(v)] when writing and [uint64(v)] when reading. *)
Definition unsigned_codec : ValueCodec Z := {|
  vc_type := BlockUnsigned;
  vc_enc := IntegerEncoder; vc_Reset := ie_Reset; vc_Write v := ie_Write (i64 v); vc_Flush e := e; vc_Bytes := ie_Bytes;
  vc_dec := IntegerDecoder; vc_SetBytes b d := (None, id_SetBytes b d); vc_Next := id_Next;
  vc_Read d := match id_Read d with Some (v, d) => Some (u64 v, d) | None => None end; vc_Error := id_Error;
|}.

Definition boolean_codec : ValueCodec bool := {|
  vc_type := BlockBoolean;
  vc_enc := BooleanEncoder; vc_Reset := be_Reset; vc_Write := be_Write; vc_Flush e := e; vc_Bytes e := Ok (be_Bytes e);
  vc_dec := BooleanDecoder; vc_SetBytes b d := (None, bd_SetBytes b d); vc_Next := bd_Next;
  vc_Read d := match bd_Read d with Some b => Some (b, d) | None => None end;
  vc_Error d := if bd_err d then Some (ErrDecode "BooleanDecoder: invalid count") else None;
|}.

Definition string_codec : ValueCodec (list Z) := {|
  vc_type := BlockString;
  vc_enc := StringEncoder; vc_Reset := se_Reset; vc_Write := se_Write; vc_Flush e := e; vc_Bytes e := Ok (se_Bytes e);
  vc_dec := StringDecoder; vc_SetBytes := sd_SetBytes; vc_Next := sd_Next; vc_Read := sd_Read; vc_Error := sd_Error;
|}.

Definition float_error (e : option read_error) : option tsm_error :=
  match e with Some EOF => Some (ErrDecode "EOF") | None => None end.

Definition float_codec : ValueCodec Z := {|
  vc_type := BlockFloat64;
  vc_enc := FloatEncoder; vc_Reset := fe_Reset; vc_Write := fe_Write; vc_Flush := fe_Flush;
  vc_Bytes e := match fe_Bytes e with (b, None) => Ok b | (_, Some err) => Err err end;
  vc_dec := FloatDecoder;
  vc_SetBytes b d := let '(err, d) := fd_SetBytes b d in (float_error err, d);
  vc_Next := fd_Next; vc_Read d := Some (fd_Values d, d); vc_Error d := float_error (fd_Error d);
|}.

(** ** Tagged values *)

Inductive Value :=
| VFloat (v : tv Z)
| VInteger (v : tv Z)
| VUnsigned (v : tv Z)
| VBoolean (v : tv bool)
| VString (v : tv (list Z))
| VEmpty.

(** The type assertions [v.(FloatValue)], ...; [None] panics. *)
Definition as_float (v : Value) : option (tv Z) := match v with VFloat x => Some x | _ => None end.
Definition as_integer (v : Value) : option (tv Z) := match v with VInteger x => Some x | _ => None end.
Definition as_unsigned (v : Value) : option (tv Z) := match v with VUnsigned x => Some x | _ => None end.
Definition as_boolean (v : Value) : option (tv bool) := match v with VBoolean x => Some x | _ => None end.
Definition as_string (v : Value) : option (tv (list Z)) := match v with VString x => Some x | _ => None end.

(** The encoders of the pools. *)
Record encoders := mkEncoders {
  p_tenc : encoder; p_fenc : FloatEncoder; p_ienc : IntegerEncoder; p_benc : BooleanEncoder; p_senc : StringEncoder;
}.
Record decoders := mkDecoders {
  p_tdec : TimeDecoder; p_fdec : FloatDecoder; p_idec : IntegerDecoder; p_bdec : BooleanDecoder; p_sdec : StringDecoder;
}.

Definition encodeFloatBlock (values : list Value) (p : encoders) : res tsm_error (list Z) :=
  if zlen values =? 0 then Ok [] else
  match mapM as_float values with
  | Some l => encodeBlockUsing (VC := float_codec) l (p_tenc p) (p_fenc p)
  | None => Panic
  end.
Definition encodeIntegerBlock (values : list Value) (p : encoders) : res tsm_error (list Z) :=
  match mapM as_integer values with
  | Some l => encodeBlockUsing (VC := integer_codec) l (p_tenc p) (p_ienc p)
  | None => Panic
  end.
Definition encodeUnsignedBlock (values : list Value) (p : encoders) : res tsm_error (list Z) :=
  match mapM as_unsigned values with
  | Some l => encodeBlockUsing (VC := unsigned_codec) l (p_tenc p) (p_ienc p)
  | None => Panic
  end.
Definition encodeBooleanBlock (values : list Value) (p : encoders) : res tsm_error (list Z) :=
  if zlen values =? 0 then Ok [] else
  match mapM as_boolean values with
  | Some l => encodeBlockUsing (VC := boolean_codec) l (p_tenc p) (p_benc p)
  | None => Panic
  end.
Definition encodeStringBlock (values : list Value) (p : encoders) : res tsm_error (list Z) :=
  match mapM as_string values with
  | Some ((_ :: _) as l) => encodeBlockUsing (VC := string_codec) l (p_tenc p) (p_senc p)
  | _ => Panic
  end.

Definition DecodeFloatBlock := DecodeBlockOf (VC := float_codec).
Definition DecodeIntegerBlock := DecodeBlockOf (VC := integer_codec).
Definition DecodeUnsignedBlock := DecodeBlockOf (VC := unsigned_codec).
Definition DecodeBooleanBlock := DecodeBlockOf (VC := boolean_codec).
Definition DecodeStringBlock := DecodeBlockOf (VC := string_codec).

Definition Encode (a : list Value) (p : encoders) : res tsm_error (list Z) :=
  match a with
  | [] => Panic
  | VFloat _ :: _ => encodeFloatBlock a p
  | VInteger _ :: _ => encodeIntegerBlock a p
  | VUnsigned _ :: _ => encodeUnsignedBlock a p
  | VBoolean _ :: _ => encodeBooleanBlock a p
  | VString _ :: _ => encodeStringBlock a p
  | VEmpty :: _ => Err (ErrDecode "unsupported value type")
  end.

(** The byte, an error, or a panic. *)
Definition BlockType (block : list Z) : res tsm_error Z :=
  match block with
  | [] => Panic
  | t :: _ => if (t =? BlockFloat64) || (t =? BlockInteger) || (t =? BlockUnsigned) || (t =? BlockBoolean) || (t =? BlockString)
              then Ok t else Err (ErrDecode "unknown block type")
  end.

Definition BlockCount (block : list Z) : option Z :=
  match block with
  | [] | [_] => None
  | _ :: b => match unpackBlock b with Ok (tb, _) => CountTimestamps tb | _ => None end
  end.

(** Wrap the values of one type. *)
Definition wrap {V} (f : tv V -> Value) (r : option (list (tv V) * option tsm_error)) : option (list Value * option tsm_error) :=
  match r with Some (l, e) => Some (map f l, e) | None => None end.

Definition DecodeBlock (block : list Z) (p : decoders) : option (list Value * option tsm_error) * decoders :=
  if zlen block <=? 1 then (None, p) else
  match BlockType block with
  | Panic => (None, p)
  | Err e => (Some ([], Some e), p)
  | Ok t =>
      if t =? BlockFloat64 then
        let '(r, td, d) := DecodeFloatBlock block (p_tdec p) (p_fdec p) in
        (wrap VFloat r, mkDecoders td d (p_idec p) (p_bdec p) (p_sdec p))
      else if t =? BlockInteger then
        let '(r, td, d) := DecodeIntegerBlock block (p_tdec p) (p_idec p) in
        (wrap VInteger r, mkDecoders td (p_fdec p) d (p_bdec p) (p_sdec p))
      else if t =? BlockUnsigned then
        let '(r, td, d) := DecodeUnsignedBlock block (p_tdec p) (p_idec p) in
        (wrap VUnsigned r, mkDecoders td (p_fdec p) d (p_bdec p) (p_sdec p))
      else if t =? BlockBoolean then
        let '(r, td, d) := DecodeBooleanBlock block (p_tdec p) (p_bdec p) in
        (wrap VBoolean r, mkDecoders td (p_fdec p) (p_idec p) d (p_sdec p))
      else
        let '(r, td, d) := DecodeStringBlock block (p_tdec p) (p_sdec p) in
        (wrap VString r, mkDecoders td (p_fdec p) (p_idec p) (p_bdec p) d)
  end.

End Blocks.
