(* ===== verification/BlockFacts.v ===== *)
(** * Blocks: the codecs keep their promises, and blocks round-trip *)

From S2P Require Import Prelude Varint Simple8b TimeCodec IntCodec BoolCodec StringCodec BitReader FloatCodec ValueCodec Blocks.

Section Laws.
Context `{S8 : Simple8b} `{SN : Snappy} `{BS : BitStream}.
Context `{L8 : !Simple8bLaws} `{LS : !SnappyLaws} `{LB : !BitStreamLaws}.

(** ** Integers *)

Lemma refill_len d : length (id_values d) = 240%nat -> length (id_values (refill d)) = 240%nat.
Proof.
  intros H. unfold refill. destruct (_ =? _); [|destruct (_ =? _); [|destruct (_ =? _)]].
  - unfold id_decodeUncompressed. destruct (_ =? _); [exact H|]. destruct (_ <? _); [exact H|]. cbn [id_values].
    rewrite length_fill; cbn; lia.
  - unfold id_decodePacked. destruct (_ =? _); [exact H|]. destruct (_ <? _); [exact H|].
    destruct (id_first d); [cbn [id_values]; rewrite length_fill; cbn; lia|].
    destruct (s8_Decode _) as [l| |] eqn:E; cbn [id_values]; [|exact H|exact H].
    pose proof (s8_Decode_len _ _ E). rewrite length_fill; unfold zlen in *; lia.
  - unfold id_decodeRLE. destruct (_ =? _); [exact H|]. destruct (_ <? _); [exact H|].
    destruct (Uvarint _) as [v n]. destruct (_ <=? _); [exact H|]. destruct (Uvarint _) as [c n']. destruct (_ <=? _); exact H.
  - exact H.
Qed.

Lemma id_Next_len d : length (id_values d) = 240%nat -> length (id_values (id_Next d).2) = 240%nat.
Proof.
  intros H. rewrite id_Next_refill. destruct (_ && _); [exact H|]. cbn [snd]. destruct (_ >=? _); [apply refill_len|]; exact H.
Qed.

Lemma id_Next_true d d' : id_Next d = (true, d') -> id_err d' = None.
Proof.
  rewrite id_Next_refill. destruct (_ && _); [discriminate|]. intros H. injection H as H1 H2. rewrite H2 in H1.
  destruct (id_err d'); [discriminate|reflexivity].
Qed.

Lemma id_Read_fields d v d' : id_Read d = Some (v, d') -> id_err d' = id_err d /\ id_values d' = id_values d.
Proof.
  unfold id_Read. destruct (_ =? _); [intros H; injection H as <- <-; auto|].
  destruct (id_values d !! _); cbn; [|discriminate]. intros H. injection H as <- <-. auto.
Qed.

Lemma int_reads fuel d vs d' :
  id_read_all fuel d = (vs, d') -> (length vs < fuel)%nat -> id_err d = None -> length (id_values d) = 240%nat ->
  exists d1, reads (VC := integer_codec) d vs d1 /\ id_err d1 = None /\ length (id_values d1) = 240%nat.
Proof.
  revert d vs. induction fuel as [|f IH]; intros d vs H Hf He Hl; [lia|]. cbn [id_read_all] in H.
  destruct (id_Next d) as [ok d1] eqn:EN. destruct ok; [|injection H as <- <-; exists d; split; [constructor|auto]].
  pose proof (id_Next_true _ _ EN) as He1. pose proof (id_Next_len d Hl) as Hl1. rewrite EN in Hl1. cbn [snd] in Hl1.
  destruct (id_Read d1) as [[v d2]|] eqn:ER; [|injection H as <- <-; exists d; split; [constructor|auto]].
  destruct (id_Read_fields _ _ _ ER) as [E1 E2]. destruct (id_read_all f d2) as [l d3] eqn:ED. injection H as <- <-. cbn [length] in Hf.
  destruct (IH d2 l ED ltac:(lia) ltac:(congruence) ltac:(congruence)) as (d4 & Hr & He4 & Hl4).
  exists d4. split; [|auto]. eapply reads_cons; [exact EN|exact ER|exact Hr].
Qed.

Definition integer_laws : ValueCodecLaws (VC := integer_codec).
Proof.
  refine {| vc_fits := fun vs => Forall is_i64 vs /\ zlen vs < 2 ^ 62;
            vc_usable := fun d : @vc_dec _ integer_codec => length (id_values d) = 240%nat |}.
  intros vs e [Hvs Hz]. destruct (ie_Bytes_decodes vs (ie_Reset e) Hvs Hz (or_intror (ex_intro _ e eq_refl))) as (b & Eb & Hd).
  exists b. split; [exact Eb|]. intros d Hu. destruct (Hd d (S (length vs)) Hu ltac:(lia)) as (d' & E & _).
  destruct (int_reads (S (length vs)) (id_SetBytes b d) vs d') as (d1 & Hr & He & Hl); [exact E|lia| | |].
  - unfold id_SetBytes. destruct b; reflexivity.
  - unfold id_SetBytes. destruct b; exact Hu.
  - exists (id_SetBytes b d), d1. auto.
Defined.

(** ** Unsigned integers: the same bits *)

Lemma unsigned_reads d vs d' :
  reads (VC := integer_codec) d vs d' -> reads (VC := unsigned_codec) d (map u64 vs) d'.
Proof.
  intros H. induction H as [|d d1 d2 d3 v vs HN HR _ IH]; [constructor|]. cbn [map].
  eapply reads_cons; [exact HN| |exact IH]. cbn in *. rewrite HR. reflexivity.
Qed.

Lemma unsigned_writes vs e : vc_write_all (VC := unsigned_codec) vs e = vc_write_all (VC := integer_codec) (map i64 vs) e.
Proof. revert e. induction vs as [|v vs IH]; intros e; [reflexivity|]. apply IH. Qed.

Definition unsigned_laws : ValueCodecLaws (VC := unsigned_codec).
Proof.
  refine {| vc_fits := fun vs => Forall is_u64 vs /\ zlen vs < 2 ^ 62;
            vc_usable := fun d : @vc_dec _ unsigned_codec => length (id_values d) = 240%nat |}.
  intros vs e [Hvs Hz]. destruct (@vc_roundtrip _ _ integer_laws (map i64 vs) e) as (b & Eb & Hd).
  { split; [|unfold zlen; rewrite length_map; exact Hz]. apply Forall_map, Forall_true. intros. apply i64_range. }
  exists b. rewrite unsigned_writes. split; [exact Eb|]. intros d Hu. destruct (Hd d Hu) as (d0 & d1 & Es & Hr & He & Hu').
  exists d0, d1. split; [exact Es|]. apply unsigned_reads in Hr.
  assert (map u64 (map i64 vs) = vs) as E.
  { clear -Hvs. induction Hvs as [|v vs Hv _ IH]; [reflexivity|]. cbn [map]. rewrite IH, u64_i64, u64_small by exact Hv. reflexivity. }
  rewrite E in Hr. auto.
Defined.

(** ** Booleans *)

Lemma bool_reads chunks l pad k :
  Forall (fun c => length c = 8%nat) chunks -> concat chunks = l ++ pad -> (k <= length l)%nat ->
  exists d, reads (VC := boolean_codec) (mkBD (map num_of chunks) (Z.of_nat k - 1) (zlen l) false) (drop k l) d /\ bd_err d = false.
Proof.
  intros Hc Hl Hk. remember (length l - k)%nat as m eqn:Em. revert k Hk Em. induction m as [|m IH]; intros k Hk Em.
  { rewrite drop_ge by lia. eexists. split; [constructor|reflexivity]. }
  destruct (l !! k) as [b|] eqn:Eb; [|apply lookup_ge_None in Eb; lia]. rewrite (drop_S l b k Eb).
  destruct (IH (S k) ltac:(lia) ltac:(lia)) as (d & Hr & He). exists d. split; [|exact He].
  replace (Z.of_nat (S k) - 1) with (Z.of_nat k) in Hr by lia.
  eapply reads_cons; [| |exact Hr].
  - cbn. unfold bd_Next. cbn [bd_err bd_i bd_n bd_b]. replace (Z.of_nat k - 1 + 1) with (Z.of_nat k) by lia.
    destruct (Z.ltb_spec (Z.of_nat k) (zlen l)) as [|H]; [reflexivity|unfold zlen in H; lia].
  - cbn [vc_Read boolean_codec]. rewrite (Read_bit chunks k) by (auto; rewrite Hl, length_app; lia).
    rewrite Hl, lookup_app_l by lia. rewrite Eb. reflexivity.
Qed.

Definition boolean_laws : ValueCodecLaws (VC := boolean_codec).
Proof.
  refine {| vc_fits := fun vs : list bool => zlen vs < 2 ^ 62;
            vc_usable := fun d : @vc_dec _ boolean_codec => bd_err d = false |}.
  intros vs e Hz. exists (encode_bools vs). split; [reflexivity|]. intros d Hu.
  destruct (SetBytes_encoded vs d Hz Hu) as (chunks & pad & E & Hc & Hcat).
  destruct (bool_reads chunks vs pad 0 Hc Hcat ltac:(lia)) as (d1 & Hr & He).
  exists (bd_SetBytes (encode_bools vs) d), d1. split; [reflexivity|]. rewrite E. cbn [vc_Error boolean_codec]. rewrite He. auto.
Defined.

(** ** Strings *)

Lemma string_reads l d pre :
  sd_at d pre (enc_strings l) -> zlen (sd_b d) < 2 ^ 62 ->
  exists d', reads (VC := string_codec) d l d' /\ sd_err d' = None.
Proof.
  revert d pre. induction l as [|s l IH]; intros d pre Hd Hz.
  { exists d. split; [constructor|apply Hd]. }
  unfold enc_strings in Hd. cbn [map concat] in Hd. destruct (sd_step d pre s _ Hd Hz) as (d1 & d2 & HN & HR & Hd2 & Eb).
  destruct (IH d2 _ Hd2 ltac:(rewrite Eb; exact Hz)) as (d' & Hr & He). exists d'. split; [|exact He].
  eapply reads_cons; [exact HN|exact HR|exact Hr].
Qed.

Definition string_laws : ValueCodecLaws (VC := string_codec).
Proof.
  refine {| vc_fits := fun vs => zlen (enc_strings vs) < 2 ^ 62; vc_usable := fun d : @vc_dec _ string_codec => True |}.
  intros vs e Hz. set (s := se_write_all vs (se_Reset e)). exists (se_Bytes s). split; [reflexivity|]. intros d _.
  assert (se_bytes s = enc_strings vs) as Es.
  { unfold s. rewrite se_write_all_bytes; [reflexivity|]. apply Forall_forall. intros x Hx. pose proof (zlen_enc_strings_in x vs Hx). lia. }
  destruct (string_reads vs (mkSD (enc_strings vs) 0 0 None) []) as (d' & Hr & He).
  - split; [reflexivity|]. split; reflexivity.
  - exact Hz.
  - exists (mkSD (enc_strings vs) 0 0 None), d'. split; [|auto]. cbn. rewrite snappy_inverse, Es. reflexivity.
Defined.

(** ** Floats *)

Lemma fd_Next_true it it' : fd_Next it = (true, it') -> fd_err it' = None.
Proof.
  unfold fd_Next. destruct (fd_err it) eqn:He; [discriminate|]. cbn [orb]. destruct (fd_finished it); [discriminate|].
  assert (forall i i', fd_err i = None -> fd_significant i = (true, i') -> fd_err i' = None) as Hs.
  { intros i i' Hi. unfold fd_significant. destruct (ReadBits _ _) as [[v| |] br]; try discriminate.
    destruct (_ =? uvnan); [discriminate|]. intros H. injection H as <-. exact Hi. }
  destruct (fd_first it).
  { destruct (_ =? uvnan); [discriminate|]. intros H. injection H as <-. first [reflexivity|exact He]. }
  destruct (next_bit _) as [[[]| |] br]; try discriminate; [|intros H; injection H as <-; first [reflexivity|exact He]].
  destruct (next_bit _) as [[[]| |] br2]; try discriminate; [|apply Hs; first [reflexivity|exact He]].
  unfold fd_new_window. destruct (ReadBits _ _) as [[v| |] br3]; try discriminate.
  destruct (ReadBits _ _) as [[v'| |] br4]; try discriminate. apply Hs. first [reflexivity|exact He].
Qed.

Lemma float_reads fuel d vs d' :
  fd_read_all fuel d = (vs, d') -> (length vs < fuel)%nat -> fd_err d = None ->
  exists d1, reads (VC := float_codec) d vs d1 /\ fd_err d1 = None.
Proof.
  revert d vs. induction fuel as [|f IH]; intros d vs H Hf He; [lia|]. cbn [fd_read_all] in H.
  destruct (fd_Next d) as [ok d1] eqn:EN. destruct ok; [|injection H as <- <-; exists d; split; [constructor|auto]].
  destruct (fd_read_all f d1) as [l d3] eqn:ED. injection H as <- <-. cbn [length] in Hf.
  destruct (IH d1 l ED ltac:(lia) (fd_Next_true _ _ EN)) as (d4 & Hr & He4).
  exists d4. split; [|exact He4]. eapply reads_cons; [exact EN|reflexivity|exact Hr].
Qed.

Definition float_laws : ValueCodecLaws (VC := float_codec).
Proof.
  refine {| vc_fits := Forall float_ok; vc_usable := fun d : @vc_dec _ float_codec => True |}.
  intros vs e Hvs. destruct (write_all_decodes vs (fe_Reset e) Hvs (or_intror (ex_intro _ e eq_refl))) as (b & Eb & Hd).
  exists b. split.
  { change (match fe_Bytes (fe_Flush (fe_write_all vs (fe_Reset e))) with (b, None) => Ok b | (_, Some err) => Err err end = Ok b).
    rewrite Eb. reflexivity. }
  intros d _. destruct (Hd d) as (d0 & E0 & Hread). destruct (Hread (S (length vs)) ltac:(lia)) as (d' & E & _).
  destruct (float_reads _ _ _ _ E ltac:(lia)) as (d1 & Hr & He).
  { unfold fd_SetBytes in E0. destruct b; [injection E0 as <-; reflexivity|].
    destruct (ReadBits _ _) as [[]]; try discriminate. injection E0 as <-. reflexivity. }
  exists d0, d1. cbn [vc_SetBytes vc_Error float_codec]. rewrite E0. cbn [float_error]. change (fd_Error d1) with (fd_err d1). rewrite He. auto.
Defined.

(** ** Tagged blocks *)

Definition timed {V} (l : list (tv V)) : Prop := Forall (fun x => is_i64 (unixnano x)) l.

(** Values of one type, with 64-bit times, floats that are not NaN, and strings
    of a total size that fits. *)
Inductive storable : list Value -> Prop :=
| st_float l : timed l -> Forall (fun x => float_ok (value x)) l -> storable (map VFloat l)
| st_integer l : timed l -> Forall (fun x => is_i64 (value x)) l -> storable (map VInteger l)
| st_unsigned l : timed l -> Forall (fun x => is_u64 (value x)) l -> storable (map VUnsigned l)
| st_boolean l : timed l -> storable (map VBoolean l)
| st_string l : timed l -> zlen (enc_strings (map value l)) < 2 ^ 62 -> storable (map VString l).

(** The decoders a pool holds when no error sticks to one of them. *)
Definition usable (p : decoders) : Prop := length (id_values (p_idec p)) = 240%nat /\ bd_err (p_bdec p) = false.

Lemma mapM_wrap {V} (w : tv V -> Value) (f : Value -> option (tv V)) l : (forall x, f (w x) = Some x) -> mapM f (map w l) = Some l.
Proof. intros H. induction l as [|x l IH]; [reflexivity|]. cbn. rewrite H. cbn. rewrite IH. reflexivity. Qed.

Lemma zlen_map {A B} (f : A -> B) l : zlen (map f l) = zlen l.
Proof. unfold zlen. rewrite length_map. reflexivity. Qed.

Lemma unpacked_nonempty block r : unpackBlock block = Ok r -> exists b bs, block = b :: bs.
Proof. destruct block as [|b bs]; [discriminate|eauto]. Qed.

(** The dispatch of [DecodeBlock] and [BlockCount], given the type byte. *)
Lemma count_dispatch {V} `{VC : !ValueCodec V} t block tb vb n :
  unpackBlock block = Ok (tb, vb) -> CountTimestamps tb = Some n -> BlockCount (t :: block) = Some n.
Proof. intros Hu Hc. destruct (unpacked_nonempty _ _ Hu) as (b & bs & ->). unfold BlockCount. rewrite Hu. exact Hc. Qed.

Lemma long_block t block r : unpackBlock block = Ok r -> (zlen (t :: block) <=? 1) = false.
Proof.
  intros Hu. destruct (unpacked_nonempty _ _ Hu) as (b & bs & ->). rewrite !zlen_cons. pose proof (zlen_nonneg bs).
  apply Z.leb_gt. lia.
Qed.

(** What a block of [a] must give. *)
Definition block_of (a : list Value) (b : list Z) : Prop :=
  BlockCount b = Some (zlen a)
  /\ forall q, usable q -> exists q', DecodeBlock b q = (Some (a, None), q') /\ usable q'.

Lemma wrap_nonempty {V} (w : tv V -> Value) l : map w l <> [] -> exists x l', l = x :: l'.
Proof. intros H. destruct l as [|x l']; [exfalso; apply H; reflexivity|eauto]. Qed.

Lemma float_block l p : map VFloat l <> [] -> timed l -> Forall (fun x => float_ok (value x)) l -> zlen l < 2 ^ 58 ->
  exists b, Encode (map VFloat l) p = Ok b /\ block_of (map VFloat l) b.
Proof.
  intros Hne Ht Hv Hz. destruct (wrap_nonempty _ _ Hne) as (x & l' & El).
  destruct (block_decodes (VC := float_codec) (VL := float_laws) l (p_tenc p) (p_fenc p)) as (blk & Eb & Hd & tb & vb & Hu & Hc & _);
    auto; [rewrite El; discriminate|apply Forall_map; exact Hv|].
  eexists. split.
  { assert (Encode (map VFloat l) p = encodeFloatBlock (map VFloat l) p) as -> by (rewrite El; reflexivity). unfold encodeFloatBlock. rewrite zlen_map.
    assert (mapM as_float (map VFloat l) = Some l) as -> by (apply (mapM_wrap VFloat as_float); reflexivity).
    destruct (Z.eqb_spec (zlen l) 0) as [E0|_]; [rewrite El, zlen_cons in E0; pose proof (zlen_nonneg l'); lia|]. exact Eb. }
  split; [rewrite zlen_map; apply (count_dispatch (VC := float_codec) _ _ _ _ _ Hu Hc)|]. intros q Hq.
  destruct (Hd (p_tdec q) (p_fdec q) I) as (t' & d' & E & _). unfold DecodeBlock. rewrite (long_block _ _ _ Hu). unfold DecodeFloatBlock.
  rewrite E. eexists. split; [reflexivity|exact Hq].
Qed.

Lemma integer_block l p : map VInteger l <> [] -> timed l -> Forall (fun x => is_i64 (value x)) l -> zlen l < 2 ^ 58 ->
  exists b, Encode (map VInteger l) p = Ok b /\ block_of (map VInteger l) b.
Proof.
  intros Hne Ht Hv Hz. destruct (wrap_nonempty _ _ Hne) as (x & l' & El).
  destruct (block_decodes (VC := integer_codec) (VL := integer_laws) l (p_tenc p) (p_ienc p)) as (blk & Eb & Hd & tb & vb & Hu & Hc & _);
    auto; [rewrite El; discriminate|split; [apply Forall_map; exact Hv|rewrite zlen_map; lia]|].
  eexists. split.
  { assert (Encode (map VInteger l) p = encodeIntegerBlock (map VInteger l) p) as -> by (rewrite El; reflexivity). unfold encodeIntegerBlock. 
    assert (mapM as_integer (map VInteger l) = Some l) as -> by (apply (mapM_wrap VInteger as_integer); reflexivity). exact Eb. }
  split; [rewrite zlen_map; apply (count_dispatch (VC := integer_codec) _ _ _ _ _ Hu Hc)|]. intros q [Hq1 Hq2].
  destruct (Hd (p_tdec q) (p_idec q) Hq1) as (t' & d' & E & Hu'). unfold DecodeBlock. rewrite (long_block _ _ _ Hu). unfold DecodeIntegerBlock.
  rewrite E. eexists. split; [reflexivity|split; [exact Hu'|exact Hq2]].
Qed.

Lemma unsigned_block l p : map VUnsigned l <> [] -> timed l -> Forall (fun x => is_u64 (value x)) l -> zlen l < 2 ^ 58 ->
  exists b, Encode (map VUnsigned l) p = Ok b /\ block_of (map VUnsigned l) b.
Proof.
  intros Hne Ht Hv Hz. destruct (wrap_nonempty _ _ Hne) as (x & l' & El).
  destruct (block_decodes (VC := unsigned_codec) (VL := unsigned_laws) l (p_tenc p) (p_ienc p)) as (blk & Eb & Hd & tb & vb & Hu & Hc & _);
    auto; [rewrite El; discriminate|split; [apply Forall_map; exact Hv|rewrite zlen_map; lia]|].
  eexists. split.
  { assert (Encode (map VUnsigned l) p = encodeUnsignedBlock (map VUnsigned l) p) as -> by (rewrite El; reflexivity). unfold encodeUnsignedBlock. 
    assert (mapM as_unsigned (map VUnsigned l) = Some l) as -> by (apply (mapM_wrap VUnsigned as_unsigned); reflexivity). exact Eb. }
  split; [rewrite zlen_map; apply (count_dispatch (VC := unsigned_codec) _ _ _ _ _ Hu Hc)|]. intros q [Hq1 Hq2].
  destruct (Hd (p_tdec q) (p_idec q) Hq1) as (t' & d' & E & Hu'). unfold DecodeBlock. rewrite (long_block _ _ _ Hu). unfold DecodeUnsignedBlock.
  rewrite E. eexists. split; [reflexivity|split; [exact Hu'|exact Hq2]].
Qed.

Lemma boolean_block l p : map VBoolean l <> [] -> timed l -> zlen l < 2 ^ 58 ->
  exists b, Encode (map VBoolean l) p = Ok b /\ block_of (map VBoolean l) b.
Proof.
  intros Hne Ht Hz. destruct (wrap_nonempty _ _ Hne) as (x & l' & El).
  destruct (block_decodes (VC := boolean_codec) (VL := boolean_laws) l (p_tenc p) (p_benc p)) as (blk & Eb & Hd & tb & vb & Hu & Hc & _);
    auto; [rewrite El; discriminate|cbn; rewrite zlen_map; lia|].
  eexists. split.
  { assert (Encode (map VBoolean l) p = encodeBooleanBlock (map VBoolean l) p) as -> by (rewrite El; reflexivity). unfold encodeBooleanBlock. rewrite zlen_map.
    assert (mapM as_boolean (map VBoolean l) = Some l) as -> by (apply (mapM_wrap VBoolean as_boolean); reflexivity).
    destruct (Z.eqb_spec (zlen l) 0) as [E0|_]; [rewrite El, zlen_cons in E0; pose proof (zlen_nonneg l'); lia|]. exact Eb. }
  split; [rewrite zlen_map; apply (count_dispatch (VC := boolean_codec) _ _ _ _ _ Hu Hc)|]. intros q [Hq1 Hq2].
  destruct (Hd (p_tdec q) (p_bdec q) Hq2) as (t' & d' & E & Hu'). unfold DecodeBlock. rewrite (long_block _ _ _ Hu). unfold DecodeBooleanBlock.
  rewrite E. eexists. split; [reflexivity|split; [exact Hq1|exact Hu']].
Qed.

Lemma string_block l p : map VString l <> [] -> timed l -> zlen (enc_strings (map value l)) < 2 ^ 62 -> zlen l < 2 ^ 58 ->
  exists b, Encode (map VString l) p = Ok b /\ block_of (map VString l) b.
Proof.
  intros Hne Ht Hv Hz. destruct (wrap_nonempty _ _ Hne) as (x & l' & El).
  destruct (block_decodes (VC := string_codec) (VL := string_laws) l (p_tenc p) (p_senc p)) as (blk & Eb & Hd & tb & vb & Hu & Hc & _);
    auto; [rewrite El; discriminate|].
  eexists. split.
  { assert (Encode (map VString l) p = encodeStringBlock (map VString l) p) as -> by (rewrite El; reflexivity). unfold encodeStringBlock. 
    assert (mapM as_string (map VString l) = Some l) as -> by (apply (mapM_wrap VString as_string); reflexivity).
    rewrite El in Eb |- *. exact Eb. }
  split; [rewrite zlen_map; apply (count_dispatch (VC := string_codec) _ _ _ _ _ Hu Hc)|]. intros q Hq.
  destruct (Hd (p_tdec q) (p_sdec q) I) as (t' & d' & E & _). unfold DecodeBlock. rewrite (long_block _ _ _ Hu). unfold DecodeStringBlock.
  rewrite E. eexists. split; [reflexivity|exact Hq].
Qed.

Lemma Encode_decodes (a : list Value) (p : encoders) :
  a <> [] -> storable a -> zlen a < 2 ^ 58 ->
  exists b, Encode a p = Ok b /\ BlockCount b = Some (zlen a)
    /\ forall q, usable q -> exists q', DecodeBlock b q = (Some (a, None), q') /\ usable q'.
Proof.
  intros Hne Hs Hz. destruct Hs as [l H1 H2|l H1 H2|l H1 H2|l H1|l H1 H2]; rewrite zlen_map in Hz.
  - apply float_block; assumption.
  - apply integer_block; assumption.
  - apply unsigned_block; assumption.
  - apply boolean_block; assumption.
  - apply string_block; assumption.
Qed.

(** C21 (round trip). A block of values of one type, whichever it is, encodes
    without error, whatever the encoders of the pools hold; its count is read
    off without decoding, and decoding it, with any decoders of the pools to
    which no error sticks, gives back the values with their times, and leaves
    the decoders so. *)
Theorem block_roundtrip (a : list Value) (p : encoders) :
  a <> [] -> storable a -> zlen a < 2 ^ 58 ->
  exists b, Encode a p = Ok b /\ BlockCount b = Some (zlen a)
    /\ forall q, usable q -> exists q', DecodeBlock b q = (Some (a, None), q') /\ usable q'.
Proof. apply Encode_decodes. Qed.

(** ** An error that sticks *)

(** A boolean block whose value bytes end after the type byte. *)
Definition truncated_block : list Z := packBlock BlockBoolean (u8 (Z.shiftl timeUncompressed 4) :: be64 5) [16].

Definition bool_error : tsm_error := ErrDecode "BooleanDecoder: invalid count".

Lemma stuck_loop n tdec d : bd_err d = true -> td_err tdec = None ->
  exists tdec' d', decode_loop (VC := boolean_codec) n tdec d = Some ([], tdec', d') /\ td_err tdec' = None /\ bd_err d' = true.
Proof.
  intros Hd Ht. destruct n as [|n]; [eexists; eexists; split; [reflexivity|auto]|]. cbn [decode_loop].
  pose proof (td_Next_err tdec) as He. rewrite Ht in He. destruct (td_Next tdec) as [[] tdec1]; cbn [snd] in He; cbn [negb].
  - cbn [vc_Next boolean_codec]. unfold bd_Next. rewrite Hd. cbn [negb]. eauto.
  - eauto.
Qed.

Lemma bd_SetBytes_stuck b d : bd_err d = true -> bd_err (bd_SetBytes b d) = true.
Proof.
  intros H. unfold bd_SetBytes. destruct b as [|b0 b]; [exact H|]. destruct (Uvarint b) as [c n]. destruct (n <=? 0); [reflexivity|exact H].
Qed.

Lemma truncated_sticks q : bd_err (p_bdec (DecodeBlock truncated_block q).2) = true.
Proof. reflexivity. Qed.

(** The decoder of boolean blocks never clears its error: once a truncated
    block has been read with a decoder, every well-formed boolean block read
    with it afterwards gives no values and the error of the truncated one. *)
Theorem boolean_error_sticks (l : list (tv bool)) (p : encoders) (q : decoders) (b : list Z) :
  l <> [] -> timed l -> zlen l < 2 ^ 58 -> Encode (map VBoolean l) p = Ok b ->
  let '(_, q1) := DecodeBlock truncated_block q in (DecodeBlock b q1).1 = Some ([], Some bool_error).
Proof.
  intros Hne Ht Hz Henc. destruct (DecodeBlock truncated_block q) as [r q1] eqn:Eq.
  assert (bd_err (p_bdec q1) = true) as Hq by (pose proof (truncated_sticks q) as H; rewrite Eq in H; exact H). clear Eq r.
  destruct (block_decodes (VC := boolean_codec) (VL := boolean_laws) l (p_tenc p) (p_benc p)) as (blk & Eb & _ & tb & vb & Hu & Hc & Hterr);
    auto; [cbn; rewrite zlen_map; lia|].
  assert (b = BlockBoolean :: blk) as ->.
  { destruct l as [|x l']; [congruence|]. cbn [map Encode] in Henc. unfold encodeBooleanBlock in Henc.
    change (VBoolean x :: map VBoolean l') with (map VBoolean (x :: l')) in Henc. rewrite zlen_map in Henc.
    assert (mapM as_boolean (map VBoolean (x :: l')) = Some (x :: l')) as Em by (apply (mapM_wrap VBoolean as_boolean); reflexivity).
    rewrite Em in Henc.
    rewrite zlen_cons in Henc. pose proof (zlen_nonneg l'). destruct (Z.eqb_spec (1 + zlen l') 0); [lia|]. rewrite Eb in Henc. injection Henc as <-. reflexivity. }
  unfold DecodeBlock. rewrite (long_block _ _ _ Hu). change (BlockType (BlockBoolean :: blk)) with (@Ok tsm_error Z BlockBoolean).
  change (BlockBoolean =? BlockFloat64) with false. change (BlockBoolean =? BlockInteger) with false.
  change (BlockBoolean =? BlockUnsigned) with false. change (BlockBoolean =? BlockBoolean) with true. cbv iota.
  unfold DecodeBooleanBlock, DecodeBlockOf. change (negb (BlockBoolean =? vc_type)) with false. cbv iota. rewrite Hu, Hc.
  pose proof (zlen_nonneg l). destruct (Z.ltb_spec (zlen l) 0); [lia|]. cbn [vc_SetBytes boolean_codec].
  destruct (stuck_loop (Z.to_nat (zlen l)) (td_Init tb (p_tdec q1)) (bd_SetBytes vb (p_bdec q1))) as (t' & d' & -> & He & Hd).
  - apply bd_SetBytes_stuck, Hq.
  - apply Hterr.
  - cbn [wrap fst map]. change (td_Error t') with (td_err t'). rewrite He. cbn [vc_Error boolean_codec]. rewrite Hd. reflexivity.
Qed.

End Laws.

(** ** Witnesses *)

#[local] Existing Instance plain_words.
#[local] Existing Instance list_stream.
#[local] Instance plain_snappy : Snappy := {| snappy_Encode b := b; snappy_Decode := Some |}.

Definition plain_snappy_laws : SnappyLaws.
Proof. split. reflexivity. Defined.

Definition encoders_ex : encoders := mkEncoders NewTimeEncoder NewFloatEncoder NewIntegerEncoder NewBooleanEncoder NewStringEncoder.
Definition decoders_ex : decoders :=
  mkDecoders td_zero (mkFD 0 0 0 (mkBR [] 0 0) false false None) (mkID (replicate 240 0) [] 0 0 0 false 0 0 0 None)
    (mkBD [] 0 0 false) (mkSD [] 0 0 None).

Definition strings_ex : list (tv (list Z)) := [mkTV 1000 [104; 105]; mkTV 2000 []; mkTV 2001 [120]].

Lemma block_roundtrip_witness :
  (exists b, Encode (map VString strings_ex) encoders_ex = Ok b /\ BlockCount b = Some 3
    /\ forall q, usable q -> exists q', DecodeBlock b q = (Some (map VString strings_ex, None), q') /\ usable q')
  /\ usable decoders_ex.
Proof.
  split; [|split; reflexivity].
  apply (block_roundtrip (L8 := plain_laws) (LS := plain_snappy_laws) (LB := list_stream_laws) (map VString strings_ex) encoders_ex).
  - discriminate.
  - apply st_string; [repeat constructor; vm_compute; congruence|vm_compute; reflexivity].
  - vm_compute. reflexivity.
Defined.

Definition booleans_ex : list (tv bool) := [mkTV 10 true; mkTV 20 false].
Definition booleans_block : list Z := Eval vm_compute in match Encode (map VBoolean booleans_ex) encoders_ex with Ok b => b | _ => [] end.

Lemma boolean_error_sticks_witness :
  (let '(_, q1) := DecodeBlock truncated_block decoders_ex in (DecodeBlock booleans_block q1).1 = Some ([], Some bool_error))
  /\ (DecodeBlock booleans_block decoders_ex).1 = Some (map VBoolean booleans_ex, None).
Proof.
  split; [|vm_compute; reflexivity].
  apply (boolean_error_sticks (L8 := plain_laws) booleans_ex encoders_ex).
  - discriminate.
  - repeat constructor; vm_compute; congruence.
  - vm_compute. reflexivity.
  - vm_compute. reflexivity.
Defined.
