(* ===== verification/TypedValues.v ===== *)
(** * The value slices of the six types

    [tsdb/engine/tsm1/encoding.gen.go] is generated from one template: the
    operations of [Values] for six element types, and for the five typed ones a
    typed [Encode].  A [values_ops] is one such set of operations; the six
    instances are the six copies in the file. *)

From S2P Require Import Prelude Varint Simple8b TimeCodec IntCodec BoolCodec StringCodec BitReader FloatCodec.
From S2P Require Import ValueCodec Values Blocks BlockFacts.

Record values_ops (V : Type) := mkOps {
  vo_MinTime : list V -> option Z;
  vo_MaxTime : list V -> option Z;
  vo_Size : list V -> Z;
  vo_ordered : list V -> bool;
  vo_assertOrdered : list V -> option unit;
  vo_Deduplicate : list V -> list V;
  vo_Exclude : list V -> Z -> Z -> list V;
  vo_Include : list V -> Z -> Z -> list V;
  vo_search : list V -> Z -> Z;
  vo_FindRange : list V -> Z -> Z -> Z * Z;
  vo_Merge : list V -> list V -> list V;
  vo_Len : list V -> Z;
  vo_Swap : list V -> nat -> nat -> list V;
  vo_Less : list V -> nat -> nat -> option bool;
}.
Arguments vo_Merge {V} v.
Arguments vo_Deduplicate {V} v.

(** The template. *)
Definition template {V} (UnixNano Size_ : V -> Z) : values_ops V := {|
  vo_MinTime := MinTime UnixNano; vo_MaxTime := MaxTime UnixNano; vo_Size := Size Size_;
  vo_ordered := ordered UnixNano; vo_assertOrdered := assertOrdered UnixNano;
  vo_Deduplicate := Deduplicate UnixNano; vo_Exclude := Exclude UnixNano; vo_Include := Include UnixNano;
  vo_search := search UnixNano; vo_FindRange := FindRange UnixNano; vo_Merge := Merge UnixNano;
  vo_Len := zlen; vo_Swap := Swap; vo_Less := Less UnixNano;
|}.

(** Sizes of a value with its timestamp. *)
Definition FloatValue_Size (_ : tv Z) : Z := 16.
Definition IntegerValue_Size (_ : tv Z) : Z := 16.
Definition UnsignedValue_Size (_ : tv Z) : Z := 16.
Definition BooleanValue_Size (_ : tv bool) : Z := 9.
Definition StringValue_Size (v : tv (list Z)) : Z := 8 + zlen (value v).

Definition FloatValues : values_ops (tv Z) := template unixnano FloatValue_Size.
Definition IntegerValues : values_ops (tv Z) := template unixnano IntegerValue_Size.
Definition UnsignedValues : values_ops (tv Z) := template unixnano UnsignedValue_Size.
Definition StringValues : values_ops (tv (list Z)) := template unixnano StringValue_Size.
Definition BooleanValues : values_ops (tv bool) := template unixnano BooleanValue_Size.

(** The methods of the interface [Value]; [EOF] is a constant of package [tsdb]. *)
Section Tagged.
Variable tsdb_EOF : Z.

Definition Value_UnixNano (v : Value) : Z :=
  match v with
  | VFloat x => unixnano x | VInteger x => unixnano x | VUnsigned x => unixnano x
  | VBoolean x => unixnano x | VString x => unixnano x | VEmpty => tsdb_EOF
  end.

Definition Value_Size (v : Value) : Z :=
  match v with
  | VFloat x => FloatValue_Size x | VInteger x => IntegerValue_Size x | VUnsigned x => UnsignedValue_Size x
  | VBoolean x => BooleanValue_Size x | VString x => StringValue_Size x | VEmpty => 0
  end.

Definition InterfaceValues : values_ops Value := template Value_UnixNano Value_Size.
End Tagged.

(** The typed [Encode]: the encoders come reset from the pools. *)
Section Typed.
Context `{S8 : Simple8b} `{SN : Snappy} `{BS : BitStream}.

Definition encode_typed {V} `{VC : !ValueCodec V} (values : list (tv V)) (tsenc : encoder) (venc : vc_enc) : res tsm_error (list Z) :=
  if zlen values =? 0 then Ok [] else encodeBlockUsing values tsenc venc.

Definition encodeFloatValuesBlock := encode_typed (VC := float_codec).
Definition encodeIntegerValuesBlock := encode_typed (VC := integer_codec).
Definition encodeUnsignedValuesBlock := encode_typed (VC := unsigned_codec).
Definition encodeStringValuesBlock := encode_typed (VC := string_codec).
Definition encodeBooleanValuesBlock := encode_typed (VC := boolean_codec).
End Typed.

(** ** Slices as maps: sizes *)

Section Maps.
Context {V : Type} (UnixNano : V -> Z).

Lemma to_map_snoc a v : to_map UnixNano (a ++ [v]) = <[UnixNano v := v]> (to_map UnixNano a).
Proof. unfold to_map. rewrite fold_left_app. reflexivity. Qed.

Lemma to_map_elem a t v : to_map UnixNano a !! t = Some v -> v ∈ a.
Proof.
  induction a as [|w a IH] using rev_ind; [discriminate|]. rewrite to_map_snoc, lookup_insert_Some, elem_of_app, list_elem_of_singleton.
  intros [[_ <-]|[_ H]]; auto.
Qed.

Lemma size_to_map a : (size (to_map UnixNano a) <= length a)%nat.
Proof.
  induction a as [|w a IH] using rev_ind; [cbn; rewrite map_size_empty; lia|]. rewrite to_map_snoc, map_size_insert, length_app.
  destruct (to_map UnixNano a !! UnixNano w); cbn; lia.
Qed.

Lemma increasing_snoc a v : increasing UnixNano (a ++ [v]) -> increasing UnixNano a /\ Forall (fun w => UnixNano w < UnixNano v) a.
Proof.
  unfold increasing. induction a as [|w a IH]; cbn [app]; intros H; [split; constructor|].
  apply StronglySorted_inv in H as [H Hw]. destruct (IH H) as [H1 H2]. apply Forall_app in Hw as [Hw Hv].
  split; [constructor; assumption|]. constructor; [exact (Forall_inv Hv)|exact H2].
Qed.

Lemma size_increasing a : increasing UnixNano a -> size (to_map UnixNano a) = length a.
Proof.
  induction a as [|w a IH] using rev_ind; intros H; [reflexivity|]. apply increasing_snoc in H as [H Hw].
  rewrite to_map_snoc, map_size_insert, length_app, (to_map_None UnixNano a), IH by
    (first [exact H|eapply Forall_impl; [exact Hw|cbn; lia]]). cbn. lia.
Qed.

Lemma increasing_in_map a v : increasing UnixNano a -> v ∈ a -> to_map UnixNano a !! UnixNano v = Some v.
Proof.
  induction a as [|w a IH] using rev_ind; intros H Hv; [inversion Hv|]. apply increasing_snoc in H as [H Hw].
  rewrite to_map_snoc. apply elem_of_app in Hv as [Hv|Hv].
  - rewrite lookup_insert_ne; [apply IH; assumption|]. rewrite Forall_forall in Hw. specialize (Hw v Hv). cbn in Hw. lia.
  - rewrite list_elem_of_singleton in Hv. subst v. apply lookup_insert_eq.
Qed.

End Maps.

(** ** Merging and storing *)

Section Merged.
Context `{S8 : Simple8b} `{L8 : !Simple8bLaws}.

Definition integer_ok (x : tv Z) : Prop := is_i64 (unixnano x) /\ is_i64 (value x).

Lemma merged_elem {V} (U : V -> Z) (P : V -> Prop) a b m :
  Forall P a -> Forall P b -> increasing U m -> to_map U m = to_map U b ∪ to_map U a -> Forall P m.
Proof.
  intros Ha Hb Hm E. rewrite Forall_forall in Ha, Hb. apply Forall_forall. intros v Hv.
  pose proof (increasing_in_map U m v Hm Hv) as Hl. rewrite E in Hl. apply lookup_union_Some_raw in Hl as [Hl|[_ Hl]];
    apply to_map_elem in Hl; auto.
Qed.

Lemma merged_length {V} (U : V -> Z) a b m :
  increasing U m -> to_map U m = to_map U b ∪ to_map U a -> (length m <= length a + length b)%nat.
Proof.
  intros Hm E. rewrite <- (size_increasing U m Hm), E. pose proof (size_to_map U a). pose proof (size_to_map U b).
  rewrite <- (to_map_app U a b). etransitivity; [apply size_to_map|]. rewrite length_app. lia.
Qed.

(** Two non-empty slices of integers, sorted or not, merged,
    stored and read back with decoders of the pools: the block that is read holds
    one value per timestamp, in time order, and where the slices share a
    timestamp it is the last one of the second slice. *)
Theorem merged_block (a b : list (tv Z)) (tsenc : encoder) (venc : IntegerEncoder) :
  a <> [] -> b <> [] -> Forall integer_ok a -> Forall integer_ok b -> zlen a + zlen b < 2 ^ 58 ->
  exists block, encodeIntegerValuesBlock (vo_Merge IntegerValues a b) tsenc venc = Ok block
    /\ forall tdec vdec, length (id_values vdec) = 240%nat ->
         exists l tdec' vdec', DecodeIntegerBlock block tdec vdec = (Some (l, None), tdec', vdec')
           /\ increasing unixnano l /\ to_map unixnano l = to_map unixnano b ∪ to_map unixnano a.
Proof.
  intros Hna Hnb Ha Hb Hz. destruct (Merge_both unixnano a b Hna Hnb) as [Hinc Hmap].
  change (vo_Merge IntegerValues a b) with (Merge unixnano a b). set (m := Merge unixnano a b) in *.
  pose proof (merged_elem unixnano integer_ok a b m Ha Hb Hinc Hmap) as Hok. pose proof (merged_length unixnano a b m Hinc Hmap) as Hlen.
  assert (m <> []) as Hne.
  { intros Em. rewrite Em in Hmap. destruct b as [|x b]; [congruence|].
    assert (is_Some (to_map unixnano (x :: b) !! unixnano x)) as [y Hy] by (apply to_map_dom; exists x; split; [left|reflexivity]).
    assert (to_map unixnano [] !! unixnano x = Some y) as H0 by (rewrite Hmap, lookup_union_Some_raw; auto). discriminate H0. }
  destruct (block_decodes (VC := integer_codec) (VL := integer_laws) m tsenc venc) as (blk & Eb & Hd & _); auto.
  - eapply Forall_impl; [exact Hok|]. intros x [H _]. exact H.
  - unfold zlen in *. lia.
  - split; [apply Forall_map; eapply Forall_impl; [exact Hok|]; intros x [_ H]; exact H|rewrite zlen_map; unfold zlen in *; lia].
  - exists (BlockInteger :: blk). split.
    + unfold encodeIntegerValuesBlock, encode_typed. destruct (Z.eqb_spec (zlen m) 0) as [E0|_]; [|exact Eb].
      destruct m; [congruence|]. rewrite zlen_cons in E0. pose proof (zlen_nonneg m). lia.
    + intros tdec vdec Hu. destruct (Hd tdec vdec Hu) as (t' & d' & E & _). exists m, t', d'. auto.
Qed.
End Merged.

#[local] Existing Instance plain_words.

Lemma merged_block_witness :
  exists block, encodeIntegerValuesBlock (vo_Merge IntegerValues [mkTV 5 50; mkTV 2 20] [mkTV 2 (-7); mkTV 9 90])
      NewTimeEncoder NewIntegerEncoder = Ok block
    /\ forall tdec vdec, length (id_values vdec) = 240%nat ->
         exists l tdec' vdec', DecodeIntegerBlock block tdec vdec = (Some (l, None), tdec', vdec')
           /\ increasing unixnano l /\ to_map unixnano l = to_map unixnano [mkTV 2 (-7); mkTV 9 90] ∪ to_map unixnano [mkTV 5 50; mkTV 2 20].
Proof.
  apply (merged_block (L8 := plain_laws) [mkTV 5 50; mkTV 2 20] [mkTV 2 (-7); mkTV 9 90] NewTimeEncoder NewIntegerEncoder).
  - discriminate.
  - discriminate.
  - repeat constructor; vm_compute; congruence.
  - repeat constructor; vm_compute; congruence.
  - vm_compute. reflexivity.
Defined.
