(* ===== verification/Bytes.v ===== *)
(** * Byte slices

    Package [bytes]' lexicographic order, slicing with bounds, and fixed-width
    big-endian integers, as the TSM files use them. *)

From S2P Require Import Prelude.

(** ** Order *)

(** [bytes.Compare]. *)
Fixpoint bytes_compare (a b : list Z) : comparison :=
  match a with
  | [] => match b with [] => Eq | _ => Lt end
  | x :: a' =>
      match b with
      | [] => Gt
      | y :: b' => match Z.compare x y with Eq => bytes_compare a' b' | c => c end
      end
  end.

Definition bytes_lt (a b : list Z) : Prop := bytes_compare a b = Lt.
Definition bytes_le (a b : list Z) : Prop := bytes_compare a b <> Gt.

#[export] Instance bytes_lt_dec a b : Decision (bytes_lt a b).
Proof. unfold bytes_lt. solve_decision. Defined.
#[export] Instance bytes_le_dec a b : Decision (bytes_le a b).
Proof. unfold bytes_le. solve_decision. Defined.

Lemma bytes_compare_refl a : bytes_compare a a = Eq.
Proof. induction a as [|x a IH]; [reflexivity|]. cbn. rewrite Z.compare_refl. exact IH. Qed.

Lemma bytes_compare_eq a b : bytes_compare a b = Eq <-> a = b.
Proof.
  split; [|intros ->; apply bytes_compare_refl]. revert b. induction a as [|x a IH]; intros [|y b] H; cbn in H; try discriminate; [reflexivity|].
  destruct (Z.compare_spec x y) as [->|?|?]; try discriminate. f_equal. apply IH, H.
Qed.

Lemma bytes_compare_antisym a b : bytes_compare b a = CompOpp (bytes_compare a b).
Proof.
  revert b. induction a as [|x a IH]; intros [|y b]; try reflexivity. cbn.
  rewrite (Z.compare_antisym x y). destruct (x ?= y); cbn; [apply IH|reflexivity|reflexivity].
Qed.

Lemma bytes_lt_trans a b c : bytes_lt a b -> bytes_lt b c -> bytes_lt a c.
Proof.
  unfold bytes_lt. revert b c. induction a as [|x a IH]; intros [|y b] [|z c] H1 H2; cbn in *; try discriminate; try reflexivity.
  destruct (Z.compare_spec x y) as [->|?|?]; try discriminate.
  - destruct (y ?= z) eqn:E; try discriminate; [|reflexivity]. eapply IH; eassumption.
  - destruct (Z.compare_spec y z) as [->|?|?]; try discriminate.
    + destruct (Z.compare_spec x z); try lia. reflexivity.
    + destruct (Z.compare_spec x z); try lia. reflexivity.
Qed.

Lemma bytes_lt_irrefl a : ~ bytes_lt a a.
Proof. unfold bytes_lt. rewrite bytes_compare_refl. discriminate. Qed.

#[export] Instance bytes_lt_transitive : Transitive bytes_lt.
Proof. intros a b c. apply bytes_lt_trans. Qed.

Lemma bytes_lt_ne a b : bytes_lt a b -> a <> b.
Proof. intros H ->. exact (bytes_lt_irrefl b H). Qed.

Lemma bytes_gt_lt a b : bytes_compare a b = Gt <-> bytes_lt b a.
Proof. unfold bytes_lt. rewrite (bytes_compare_antisym a b). destruct (bytes_compare a b); cbn; split; congruence. Qed.

Lemma bytes_trichotomy a b : bytes_lt a b \/ a = b \/ bytes_lt b a.
Proof.
  destruct (bytes_compare a b) eqn:E; [right; left; apply bytes_compare_eq; exact E|left; exact E|].
  right. right. apply bytes_gt_lt. exact E.
Qed.

(** ** Slicing *)

(** [b[lo:hi]]; [None] where Go panics.  A slice is taken to have no capacity
    beyond its length. *)
Definition sub (b : list Z) (lo hi : Z) : option (list Z) :=
  if (0 <=? lo) && (lo <=? hi) && (hi <=? zlen b) then Some (take (Z.to_nat (hi - lo)) (drop (Z.to_nat lo) b)) else None.

(** [b[lo:]] *)
Definition from (b : list Z) (lo : Z) : option (list Z) := sub b lo (zlen b).

Lemma sub_app pre m post : sub (pre ++ m ++ post) (zlen pre) (zlen pre + zlen m) = Some m.
Proof.
  unfold sub. pose proof (zlen_nonneg pre). pose proof (zlen_nonneg m). pose proof (zlen_nonneg post).
  rewrite !zlen_app. destruct (Z.leb_spec 0 (zlen pre)); [|lia]. destruct (Z.leb_spec (zlen pre) (zlen pre + zlen m)); [|lia].
  destruct (Z.leb_spec (zlen pre + zlen m) (zlen pre + (zlen m + zlen post))); [|lia]. cbn [andb].
  rewrite drop_app_zlen. replace (zlen pre + zlen m - zlen pre) with (zlen m) by lia. rewrite take_app_zlen. reflexivity.
Qed.

Lemma sub_at b pre m post lo hi :
  b = pre ++ m ++ post -> lo = zlen pre -> hi = zlen pre + zlen m -> sub b lo hi = Some m.
Proof. intros -> -> ->. apply sub_app. Qed.

Lemma from_at b pre post lo : b = pre ++ post -> lo = zlen pre -> from b lo = Some post.
Proof.
  intros -> ->. unfold from. apply (sub_at _ pre post []); [rewrite app_nil_r; reflexivity|reflexivity|apply zlen_app].
Qed.

Lemma sub_length b lo hi m : sub b lo hi = Some m -> zlen m = hi - lo /\ 0 <= lo <= hi /\ hi <= zlen b.
Proof.
  unfold sub. destruct (Z.leb_spec 0 lo), (Z.leb_spec lo hi), (Z.leb_spec hi (zlen b)); cbn; try discriminate.
  intros [= <-]. unfold zlen in *. rewrite length_take, length_drop. lia.
Qed.

(** ** Big-endian fields *)

Definition be16 (v : Z) : list Z := be_enc 2 v.
Definition be32 (v : Z) : list Z := be_enc 4 v.
#[global] Arguments be16 : simpl never.
#[global] Arguments be32 : simpl never.

Lemma zlen_be16 v : zlen (be16 v) = 2.
Proof. unfold zlen, be16. rewrite length_be_enc. reflexivity. Qed.
Lemma zlen_be32 v : zlen (be32 v) = 4.
Proof. unfold zlen, be32. rewrite length_be_enc. reflexivity. Qed.
#[export] Hint Rewrite zlen_be16 zlen_be32 : zlen.

Lemma de_be16 v : 0 <= v < 2 ^ 16 -> be_dec (be16 v) = v.
Proof. intros H. unfold be16. rewrite be_dec_enc. apply Z.mod_small. exact H. Qed.
Lemma de_be32 v : 0 <= v < 2 ^ 32 -> be_dec (be32 v) = v.
Proof. intros H. unfold be32. rewrite be_dec_enc. apply Z.mod_small. exact H. Qed.

Lemma i32_small z : - 2 ^ 31 <= z < 2 ^ 31 -> i32 z = z.
Proof. intros H. unfold i32. rewrite Z.mod_small; lia. Qed.

Lemma i64_de_be64 v : is_i64 v -> i64 (be_dec (be64 (u64 v))) = v.
Proof. intros H. change be_dec with de64. rewrite de64_be64 by apply u64_range. rewrite i64_u64. apply i64_small. exact H. Qed.

(** ** The checksum of package [hash/crc32]

    The IEEE polynomial, bit by bit. *)

Fixpoint crc_bits (n : nat) (c : Z) : Z :=
  match n with
  | O => c
  | S n' => crc_bits n' (if Z.testbit c 0 then Z.lxor (Z.shiftr c 1) 0xEDB88320 else Z.shiftr c 1)
  end.

Definition ChecksumIEEE (b : list Z) : Z :=
  Z.lxor (fold_left (fun c x => crc_bits 8 (Z.lxor c x)) b 0xFFFFFFFF) 0xFFFFFFFF.

(** The check value of the CRC catalogue: the checksum of "123456789". *)
Example ChecksumIEEE_check : ChecksumIEEE [49; 50; 51; 52; 53; 54; 55; 56; 57] = 0xCBF43926.
Proof. vm_compute. reflexivity. Qed.

(** * Package [sort]

    [sort.Search], the binary search several components use. *)

(** [fuel] bounds the iterations: every one shrinks [j - i]. *)
Fixpoint Search_loop (fuel : nat) (f : Z -> bool) (i j : Z) : Z :=
  match fuel with
  | O => i
  | S fuel' =>
      if i <? j then
        let h := (i + j) / 2 in
        if f h then Search_loop fuel' f i h else Search_loop fuel' f (h + 1) j
      else i
  end.

Definition Search (n : Z) (f : Z -> bool) : Z := Search_loop (S (Z.to_nat n)) f 0 n.

Lemma half_between i j : i < j -> i <= (i + j) / 2 < j.
Proof. intros H. Z.div_mod_to_equations. lia. Qed.

Lemma Search_loop_spec fuel f n i j :
  (forall a b, 0 <= a <= b -> b < n -> f a = true -> f b = true) ->
  0 <= i <= j -> j <= n -> (Z.to_nat (j - i) < fuel)%nat ->
  (forall a, 0 <= a < i -> f a = false) -> (forall a, j <= a < n -> f a = true) ->
  let r := Search_loop fuel f i j in
  i <= r <= j /\ (forall a, 0 <= a < r -> f a = false) /\ (forall a, r <= a < n -> f a = true).
Proof.
  intros Hm. revert i j. induction fuel as [|fuel IH]; intros i j Hij Hn Hf Hlo Hhi; [lia|]. cbn [Search_loop].
  destruct (Z.ltb_spec i j) as [Hlt|Hge].
  2:{ cbn. assert (j = i) as -> by lia. split; [lia|]. auto. }
  pose proof (half_between i j Hlt) as Hh. set (h := (i + j) / 2) in *.
  destruct (f h) eqn:Efh.
  - destruct (IH i h) as (A & B & C); [lia|lia|lia|exact Hlo| |].
    + intros a Ha. apply (Hm h a); [lia|lia|exact Efh].
    + cbn in *. split; [lia|]. auto.
  - destruct (IH (h + 1) j) as (A & B & C); [lia|lia|lia| |exact Hhi|].
    + intros a Ha. destruct (f a) eqn:E; [|reflexivity]. rewrite <- Efh. symmetry. apply (Hm a h); [lia|lia|exact E].
    + cbn in *. split; [lia|]. auto.
Qed.

(** The least index that satisfies [f], [n] if there is none, provided the ones
    that do are the last ones. *)
Lemma Search_spec n f :
  0 <= n -> (forall a b, 0 <= a <= b -> b < n -> f a = true -> f b = true) ->
  0 <= Search n f <= n
  /\ (forall a, 0 <= a < Search n f -> f a = false) /\ (forall a, Search n f <= a < n -> f a = true).
Proof. intros Hn Hm. apply (Search_loop_spec _ f n 0 n Hm); lia. Qed.

(** Positions of a sorted list. *)
Lemma StronglySorted_lookup_lt {A} (R : A -> A -> Prop) l i j x y :
  StronglySorted R l -> l !! i = Some x -> l !! j = Some y -> (i < j)%nat -> R x y.
Proof.
  intros Hs. revert i j. induction Hs as [|z l Hs IH Hf]; intros i j Hi Hj Hlt; [discriminate Hi|].
  destruct j as [|j]; [lia|]. cbn in Hj. destruct i as [|i].
  - injection Hi as ->. rewrite Forall_forall in Hf. apply Hf. eapply list_elem_of_lookup_2. exact Hj.
  - cbn in Hi. apply (IH i j); [exact Hi|exact Hj|lia].
Qed.
