(* ===== verification/ShardMap.v ===== *)
(** * Mapping points to shards

    [MapShards] of [services/data/point_writer.go] with [sgList] and
    [ShardMapping].  The meta client, the order of [meta.ShardGroupInfos] and
    [ShardFor] belong to other packages and are parameters; the class
    [ShardGroupLaws] is what the code relies on. *)

From S2P Require Import Prelude Bytes MetaData ShardWrite.

Section ShardMap.
Context {Point W : Type}.
Context (Time HashID : Point -> Z).

(** The interface [MetaClient] of the writer, acting on a world [W]. *)
Record meta_client := {
  mc_Database : string -> W -> option DatabaseInfo;
  mc_RetentionPolicy : string -> string -> M W werror (option RetentionPolicyInfo);
  mc_CreateShardGroup : string -> string -> Z -> M W werror (option ShardGroupInfo) }.

(** [sort.Sort(meta.ShardGroupInfos(next))] and [ShardFor]. *)
Context (Sort : list ShardGroupInfo -> list ShardGroupInfo) (ShardFor : ShardGroupInfo -> Z -> ShardInfo).
(** The capacity the run time gives a slice that [append] has to grow. *)
Context (grow : Z -> Z).
Context (MinNanoTime : Z).

(** ** The list of shard groups *)

Definition ShardGroupAt (l : list ShardGroupInfo) (t : Z) : option ShardGroupInfo :=
  let idx := Search (zlen l) (fun i => match l !! Z.to_nat i with
                                       | Some g => sgi_EndTime g >? t
                                       | None => false
                                       end) in
  match l !! Z.to_nat idx with
  | Some g => if t <? sgi_StartTime g then None else Some g
  | None => None
  end.

Definition Covers (l : list ShardGroupInfo) (t : Z) : bool :=
  match l with
  | [] => false
  | _ => match ShardGroupAt l t with Some _ => true | None => false end
  end.

Definition Append (l : list ShardGroupInfo) (g : ShardGroupInfo) : list ShardGroupInfo := Sort (l ++ [g]).

(** ** The mapping *)

(** A slice with its capacity. *)
Record slice := mkSlice { sl_cap : Z; sl_data : list Point }.

Record ShardMapping := mkSM {
  sm_n : Z;
  sm_Points : gmap Z slice;
  sm_Shards : gmap Z ShardInfo;
  sm_Dropped : list Point }.

Definition NewShardMapping (n : Z) : ShardMapping := mkSM n ∅ ∅ [].

Definition nil_slice : slice := mkSlice 0 [].

Definition slice_append (s : slice) (p : Point) : slice :=
  mkSlice (if zlen (sl_data s) <? sl_cap s then sl_cap s else grow (sl_cap s)) (sl_data s ++ [p]).

(** The slice of a shard, made with room for all points when it has less. *)
Definition shard_slice (m : ShardMapping) (id : Z) : slice :=
  let cur := default nil_slice (sm_Points m !! id) in
  if sl_cap cur <? sm_n m then mkSlice (sm_n m) [] else cur.

Definition MapPoint (m : ShardMapping) (sh : ShardInfo) (p : Point) : ShardMapping :=
  let id := si_ID sh in
  mkSM (sm_n m) (<[id := slice_append (shard_slice m id) p]> (sm_Points m)) (<[id := sh]> (sm_Shards m)) (sm_Dropped m).

(** ** MapShards *)

Variable mc : meta_client.

(** The groups the points need; every point that none of the groups so far
    covers asks the meta client for one. *)
Fixpoint need_groups (db rp : string) (min : Z) (l : list ShardGroupInfo) (ps : list Point)
    : M W werror (list ShardGroupInfo) :=
  match ps with
  | [] => ret l
  | p :: ps' =>
      if (Time p <? min) || Covers l (Time p) then need_groups db rp min l ps'
      else let* sg := mc_CreateShardGroup mc db rp (Time p) in
           match sg with
           | None => throw ErrNilShardGroup
           | Some g => need_groups db rp min (Append l g) ps'
           end
  end.

Definition map_one (l : list ShardGroupInfo) (m : ShardMapping) (p : Point) : ShardMapping :=
  match ShardGroupAt l (Time p) with
  | None => mkSM (sm_n m) (sm_Points m) (sm_Shards m) (sm_Dropped m ++ [p])
  | Some sg => MapPoint m (ShardFor sg (HashID p)) p
  end.

(** The earliest time the policy keeps. *)
Definition min_time (now : Z) (rp : RetentionPolicyInfo) : Z :=
  if 0 <? rp_Duration rp then now - rp_Duration rp else MinNanoTime.

Definition MapShards (now : Z) (db rpname : string) (ps : list Point) : M W werror ShardMapping :=
  let* rp := mc_RetentionPolicy mc db rpname in
  match rp with
  | None => throw (ErrRetentionPolicyNotFound rpname)
  | Some rp =>
      let* l := need_groups db rpname (min_time now rp) [] ps in
      ret (fold_left (map_one l) ps (NewShardMapping (zlen ps)))
  end.

(** What is added to the counter of dropped points. *)
Definition map_stats (m : ShardMapping) : list (counter * Z) := map (fun _ => (WriteDropped, 1)) (sm_Dropped m).

(** ** What the code relies on

    Groups are sorted by end time, then by start time; a group created for a
    time covers it; and two groups handed out cover the same time span or none
    in common. *)

Definition group_le (g h : ShardGroupInfo) : Prop :=
  sgi_EndTime g < sgi_EndTime h \/ (sgi_EndTime g = sgi_EndTime h /\ sgi_StartTime g <= sgi_StartTime h).

Definition spans (g : ShardGroupInfo) (t : Z) : Prop := sgi_StartTime g <= t < sgi_EndTime g.

Definition apart (g h : ShardGroupInfo) : Prop :=
  (sgi_StartTime g = sgi_StartTime h /\ sgi_EndTime g = sgi_EndTime h)
  \/ sgi_EndTime g <= sgi_StartTime h \/ sgi_EndTime h <= sgi_StartTime g.

Class ShardGroupLaws (known : ShardGroupInfo -> Prop) : Prop := {
  Sort_perm l : Sort l ≡ₚ l;
  Sort_sorted l : StronglySorted group_le (Sort l);
  create_spans db rp t w g w' :
    mc_CreateShardGroup mc db rp t w = (Ok (Some g), w') -> known g /\ spans g t;
  known_apart g h : known g -> known h -> apart g h;
  known_span g : known g -> sgi_StartTime g < sgi_EndTime g }.

Section Facts.
Context (known : ShardGroupInfo -> Prop) {L : ShardGroupLaws known}.

Definition end_after (l : list ShardGroupInfo) (t i : Z) : bool :=
  match l !! Z.to_nat i with Some g => sgi_EndTime g >? t | None => false end.

Lemma sorted_lookup l i j g h :
  StronglySorted group_le l -> l !! i = Some g -> l !! j = Some h -> (i <= j)%nat -> sgi_EndTime g <= sgi_EndTime h.
Proof.
  intros Hs Hi Hj Hle. destruct (decide (i = j)) as [->|Hne]; [rewrite Hi in Hj; injection Hj as ->; lia|].
  pose proof (StronglySorted_lookup_lt _ l i j g h Hs Hi Hj ltac:(lia)) as [H|[H _]]; lia.
Qed.

(** The group found is the first of those that end after the time. *)
Lemma ShardGroupAt_search l t :
  StronglySorted group_le l ->
  exists r, 0 <= r <= zlen l
    /\ (forall i g, l !! i = Some g -> Z.of_nat i < r -> sgi_EndTime g <= t)
    /\ (forall i g, l !! i = Some g -> r <= Z.of_nat i -> t < sgi_EndTime g)
    /\ ShardGroupAt l t = match l !! Z.to_nat r with
                          | Some g => if t <? sgi_StartTime g then None else Some g
                          | None => None
                          end.
Proof.
  intros Hs. destruct (Search_spec (zlen l) (end_after l t)) as (Hr & Hlo & Hhi); [apply zlen_nonneg| |].
  { intros a b Hab Hb Ha. unfold end_after in *. destruct (l !! Z.to_nat a) as [g|] eqn:Eg; [|discriminate].
    destruct (lookup_lt_is_Some_2 l (Z.to_nat b)) as [h Eh]; [unfold zlen in Hb; lia|]. rewrite Eh.
    pose proof (sorted_lookup _ _ _ _ _ Hs Eg Eh ltac:(lia)). apply Z.gtb_lt in Ha. apply Z.gtb_lt. lia. }
  exists (Search (zlen l) (end_after l t)). split; [exact Hr|]. split; [|split; [|reflexivity]].
  - intros i g Hi Hlt. specialize (Hlo (Z.of_nat i) ltac:(lia)). unfold end_after in Hlo. rewrite Nat2Z.id, Hi in Hlo. lia.
  - intros i g Hi Hge. apply lookup_lt_Some in Hi as Hlt.
    assert (Z.of_nat i < zlen l) as Hz by (unfold zlen; lia). specialize (Hhi (Z.of_nat i) ltac:(lia)). unfold end_after in Hhi. rewrite Nat2Z.id, Hi in Hhi. lia.
Qed.

Lemma ShardGroupAt_sound l t g : StronglySorted group_le l -> ShardGroupAt l t = Some g -> g ∈ l /\ spans g t.
Proof.
  intros Hs H. destruct (ShardGroupAt_search l t Hs) as (r & Hr & _ & Hhi & E). rewrite E in H.
  destruct (l !! Z.to_nat r) as [h|] eqn:Eh; [|discriminate]. destruct (Z.ltb_spec t (sgi_StartTime h)); [discriminate|].
  injection H as ->. split; [eapply list_elem_of_lookup_2; exact Eh|]. split; [lia|]. apply (Hhi _ _ Eh). lia.
Qed.

Lemma ShardGroupAt_complete l t g :
  StronglySorted group_le l -> Forall known l -> g ∈ l -> spans g t -> is_Some (ShardGroupAt l t).
Proof.
  intros Hs Hk Hg [Hlo Hhi]. rewrite Forall_forall in Hk. destruct (ShardGroupAt_search l t Hs) as (r & Hr & Hbefore & Hafter & ->).
  apply list_elem_of_lookup in Hg as [i Hi].
  assert (r <= Z.of_nat i) as Hri. { destruct (Z.le_gt_cases r (Z.of_nat i)); [assumption|]. pose proof (Hbefore i g Hi ltac:(lia)). lia. }
  pose proof (lookup_lt_Some _ _ _ Hi) as Hlt. destruct (lookup_lt_is_Some_2 l (Z.to_nat r)) as [h Hh]; [lia|]. rewrite Hh.
  pose proof (sorted_lookup _ _ _ _ _ Hs Hh Hi ltac:(lia)) as Hle. pose proof (Hafter _ _ Hh ltac:(lia)) as Ht.
  pose proof (Hk h (list_elem_of_lookup_2 _ _ _ Hh)) as Kh. pose proof (Hk g (list_elem_of_lookup_2 _ _ _ Hi)) as Kg.
  pose proof (known_span h Kh). destruct (Z.ltb_spec t (sgi_StartTime h)) as [Hc|]; [|eauto].
  destruct (known_apart h g Kh Kg) as [[]|[|]]; lia.
Qed.

(** *** The groups collected *)

Definition good_list (l : list ShardGroupInfo) : Prop := StronglySorted group_le l /\ Forall known l.

Lemma good_Append l g : good_list l -> known g -> good_list (Append l g).
Proof.
  intros [_ Hk] Hg. split; [apply Sort_sorted|]. unfold Append. rewrite Sort_perm.
  apply Forall_app. auto.
Qed.

Lemma elem_of_Append l g h : h ∈ Append l g <-> h ∈ l \/ h = g.
Proof. unfold Append. rewrite Sort_perm, elem_of_app, list_elem_of_singleton. reflexivity. Qed.

Lemma Covers_spans l t : good_list l -> Covers l t = true -> exists g, g ∈ l /\ spans g t.
Proof.
  intros [Hs _] H. unfold Covers in H. destruct l as [|g0 l0]; [discriminate|].
  destruct (ShardGroupAt (g0 :: l0) t) as [g|] eqn:E; [|discriminate].
  exists g. apply ShardGroupAt_sound; assumption.
Qed.

Lemma need_groups_spec db rp min ps l w l' w' :
  good_list l -> need_groups db rp min l ps w = (Ok l', w') ->
  good_list l' /\ (forall g, g ∈ l -> g ∈ l')
  /\ Forall (fun p => min <= Time p -> exists g, g ∈ l' /\ spans g (Time p)) ps.
Proof.
  revert l w. induction ps as [|p ps IH]; intros l w Hl H; cbn [need_groups] in H.
  { injection H as -> ->. auto. }
  destruct ((Time p <? min) || Covers l (Time p)) eqn:Ec.
  - destruct (IH _ _ Hl H) as (G & S & F). split; [exact G|]. split; [exact S|]. constructor; [|exact F].
    intros Hp. apply orb_true_iff in Ec as [Ec|Ec]; [lia|]. destruct (Covers_spans _ _ Hl Ec) as (g & Hg & Ht). eauto.
  - unfold bind in H. destruct (mc_CreateShardGroup mc db rp (Time p) w) as [[[g|]|e|] w1] eqn:E; try discriminate H.
    destruct (create_spans _ _ _ _ _ _ E) as [Kg Tg].
    destruct (IH _ _ (good_Append _ _ Hl Kg) H) as (G & S & F). split; [exact G|]. split.
    + intros h Hh. apply S, elem_of_Append. auto.
    + constructor; [|exact F]. intros _. exists g. split; [apply S, elem_of_Append; auto|exact Tg].
Qed.

(** *** The mapping *)

(** Where the list of groups sends a point. *)
Definition target (l : list ShardGroupInfo) (p : Point) : option ShardInfo :=
  match ShardGroupAt l (Time p) with Some g => Some (ShardFor g (HashID p)) | None => None end.

Definition goes_to (l : list ShardGroupInfo) (id : Z) (p : Point) : bool :=
  match target l p with Some sh => si_ID sh =? id | None => false end.

Definition goes_nowhere (l : list ShardGroupInfo) (p : Point) : bool :=
  match target l p with Some _ => false | None => true end.

(** [m] maps exactly the points [ps]: every shard has the points sent to it, in
    their order, and the rest is dropped. *)
Record maps (l : list ShardGroupInfo) (ps : list Point) (m : ShardMapping) : Prop := {
  maps_shard id sl : sm_Points m !! id = Some sl ->
    sl_data sl = List.filter (goes_to l id) ps /\ sl_cap sl = sm_n m
    /\ exists sh, sm_Shards m !! id = Some sh /\ si_ID sh = id /\ exists p, p ∈ ps /\ target l p = Some sh;
  maps_none id : sm_Points m !! id = None -> List.filter (goes_to l id) ps = [];
  maps_dropped : sm_Dropped m = List.filter (goes_nowhere l) ps }.

Lemma filter_snoc (f : Point -> bool) ps p :
  List.filter f (ps ++ [p]) = List.filter f ps ++ (if f p then [p] else []).
Proof. rewrite List.filter_app. cbn. destruct (f p); reflexivity. Qed.

Lemma zlen_filter_le (f : Point -> bool) ps : zlen (List.filter f ps) <= zlen ps.
Proof. unfold zlen. pose proof (List.filter_length_le f ps). lia. Qed.

Lemma goes_to_target l id p sh : target l p = Some sh -> goes_to l id p = (si_ID sh =? id).
Proof. intros H. unfold goes_to. rewrite H. reflexivity. Qed.

Lemma goes_to_none l id p : target l p = None -> goes_to l id p = false.
Proof. intros H. unfold goes_to. rewrite H. reflexivity. Qed.

(** The slice [MapPoint] appends to holds the points mapped so far: it is only
    made anew when there are none. *)
Lemma current_slice l ps m id :
  maps l ps m -> zlen ps < sm_n m ->
  shard_slice m id = mkSlice (sm_n m) (List.filter (goes_to l id) ps).
Proof.
  intros [Hs Hn Hd] Hlen. unfold shard_slice. pose proof (zlen_nonneg ps). destruct (sm_Points m !! id) as [sl|] eqn:E; cbn.
  - destruct (Hs _ _ E) as (D & C & _). rewrite C, Z.ltb_irrefl, <- D, <- C. destruct sl; reflexivity.
  - destruct (Z.ltb_spec 0 (sm_n m)); [|lia]. rewrite (Hn _ E). reflexivity.
Qed.

Lemma maps_MapPoint l ps m p sh :
  maps l ps m -> zlen ps < sm_n m -> target l p = Some sh -> maps l (ps ++ [p]) (MapPoint m sh p).
Proof.
  intros HM Hlen T. unfold MapPoint. rewrite (current_slice l ps m (si_ID sh) HM Hlen). destruct HM as [Hs Hn Hd].
  pose proof (zlen_filter_le (goes_to l (si_ID sh)) ps) as Hz. unfold slice_append. cbn [sl_cap sl_data].
  destruct (Z.ltb_spec (zlen (List.filter (goes_to l (si_ID sh)) ps)) (sm_n m)); [|lia].
  split; cbn [sm_Points sm_Shards sm_n sm_Dropped].
  - intros id sl H1. rewrite filter_snoc, (goes_to_target _ _ _ _ T). destruct (Z.eqb_spec (si_ID sh) id) as [<-|Hne].
    + rewrite lookup_insert_eq in H1. injection H1 as <-. cbn. split; [reflexivity|]. split; [reflexivity|].
      exists sh. rewrite lookup_insert_eq. split; [reflexivity|]. split; [reflexivity|].
      exists p. rewrite elem_of_app, list_elem_of_singleton. auto.
    + rewrite lookup_insert_ne in H1 by exact Hne. rewrite app_nil_r. destruct (Hs _ _ H1) as (D & C & sh' & E & I & q & Hq & Tq).
      split; [exact D|]. split; [exact C|]. exists sh'. rewrite lookup_insert_ne by exact Hne. split; [exact E|].
      split; [exact I|]. exists q. rewrite elem_of_app. auto.
  - intros id H1. rewrite filter_snoc, (goes_to_target _ _ _ _ T).
    destruct (Z.eqb_spec (si_ID sh) id) as [<-|Hne]; [rewrite lookup_insert_eq in H1; discriminate|].
    rewrite lookup_insert_ne in H1 by exact Hne. rewrite (Hn _ H1). reflexivity.
  - rewrite filter_snoc. unfold goes_nowhere at 2. rewrite T, app_nil_r. exact Hd.
Qed.

Lemma maps_drop l ps m p :
  maps l ps m -> target l p = None ->
  maps l (ps ++ [p]) (mkSM (sm_n m) (sm_Points m) (sm_Shards m) (sm_Dropped m ++ [p])).
Proof.
  intros [Hs Hn Hd] T. split; cbn [sm_Points sm_Shards sm_n sm_Dropped].
  - intros id sl H. rewrite filter_snoc, (goes_to_none _ _ _ T), app_nil_r.
    destruct (Hs _ _ H) as (D & C & sh' & E & I & q & Hq & Tq). split; [exact D|]. split; [exact C|].
    exists sh'. split; [exact E|]. split; [exact I|]. exists q. rewrite elem_of_app. auto.
  - intros id H. rewrite filter_snoc, (goes_to_none _ _ _ T), (Hn _ H). reflexivity.
  - rewrite filter_snoc. unfold goes_nowhere at 2. rewrite T, Hd. reflexivity.
Qed.

Lemma maps_snoc l ps m p :
  maps l ps m -> zlen ps < sm_n m -> maps l (ps ++ [p]) (map_one l m p).
Proof.
  intros H Hlen. assert (target l p = match ShardGroupAt l (Time p) with Some g => Some (ShardFor g (HashID p)) | None => None end) as T
    by reflexivity.
  unfold map_one. destruct (ShardGroupAt l (Time p)) as [g|]; [apply maps_MapPoint|apply maps_drop]; assumption.
Qed.

Lemma map_one_n l m p : sm_n (map_one l m p) = sm_n m.
Proof. unfold map_one. destruct (ShardGroupAt l (Time p)); reflexivity. Qed.

Lemma maps_fold l n ps :
  zlen ps <= n -> maps l ps (fold_left (map_one l) ps (NewShardMapping n))
                  /\ sm_n (fold_left (map_one l) ps (NewShardMapping n)) = n.
Proof.
  induction ps as [|p ps IH] using rev_ind; intros Hn.
  - split; [|reflexivity]. split; done.
  - rewrite fold_left_app. cbn. rewrite zlen_app in Hn. change (zlen [p]) with 1 in Hn.
    destruct (IH ltac:(lia)) as [I N]. rewrite map_one_n. split; [|exact N]. apply maps_snoc; [exact I|]. rewrite N. lia.
Qed.

(** *** MapShards *)

Lemma MapShards_spec now db rpname ps w m w' :
  MapShards now db rpname ps w = (Ok m, w') ->
  exists rp w1 l, mc_RetentionPolicy mc db rpname w = (Ok (Some rp), w1) /\ good_list l /\ maps l ps m
    /\ Forall (fun p => min_time now rp <= Time p -> is_Some (target l p)) ps.
Proof.
  intros H. unfold MapShards, bind in H. destruct (mc_RetentionPolicy mc db rpname w) as [[[rp|]|e|] w1]; try discriminate H.
  destruct (need_groups db rpname (min_time now rp) [] ps w1) as [[l|e|] w2] eqn:E; try discriminate H. injection H as <- _.
  destruct (need_groups_spec _ _ _ _ _ _ _ _ (conj (SSorted_nil _) (List.Forall_nil _)) E) as (G & _ & F).
  exists rp, w1, l. split; [reflexivity|]. split; [exact G|]. split; [apply maps_fold; reflexivity|].
  eapply Forall_impl; [exact F|]. intros p Hp Hmin. destruct (Hp Hmin) as (g & Hg & Sg). destruct G as [G1 G2].
  destruct (ShardGroupAt_complete _ _ _ G1 G2 Hg Sg) as [h Hh]. unfold target. rewrite Hh. eauto.
Qed.

(** C28 [MapShards] loses no point and invents none: every shard of the mapping
    has exactly the points of the request that its group and hash select, in the
    order of the request, each shard recorded under its own id; the points
    dropped are exactly those no group was found for; and provided the groups
    handed out do not overlap, none of them is within the retention policy. *)
Theorem points_mapped now db rpname ps w m w' :
  MapShards now db rpname ps w = (Ok m, w') ->
  exists rp w1 l, mc_RetentionPolicy mc db rpname w = (Ok (Some rp), w1)
    /\ Forall known l /\ maps l ps m
    /\ Forall (fun p => Time p < min_time now rp) (sm_Dropped m).
Proof.
  intros H. destruct (MapShards_spec _ _ _ _ _ _ _ H) as (rp & w1 & l & Hrp & [_ Hk] & HM & F).
  exists rp, w1, l. split; [exact Hrp|]. split; [exact Hk|]. split; [exact HM|].
  rewrite (maps_dropped _ _ _ HM). rewrite Forall_forall in F |- *. intros p Hp.
  apply list_elem_of_In, filter_In in Hp as [Hp Hn]. apply list_elem_of_In in Hp.
  destruct (Z.lt_ge_cases (Time p) (min_time now rp)) as [Hlt|Hge]; [exact Hlt|].
  destruct (F p Hp Hge) as [sh Hsh]. unfold goes_nowhere in Hn. rewrite Hsh in Hn. discriminate.
Qed.

End Facts.
End ShardMap.

(** ** A concrete cluster

    Points are their times; shard groups of ten nanoseconds with one shard. *)

#[export] Instance group_le_dec g h : Decision (group_le g h).
Proof. unfold group_le. apply _. Defined.

Definition sort_groups (l : list ShardGroupInfo) : list ShardGroupInfo := merge_sort group_le l.

Definition group_of (t : Z) : ShardGroupInfo :=
  mkGroup (1 + t / 10) (10 * (t / 10)) (10 * (t / 10) + 10) zero_time [mkShard (100 + t / 10) [1; 2; 3]] zero_time.
Definition shard_for (g : ShardGroupInfo) (_ : Z) : ShardInfo := default (mkShard 0 []) (head (sgi_Shards g)).
Definition policy_ex : RetentionPolicyInfo := mkRP "rp" 3 100 10 [] [].
Definition client_ex : @meta_client unit := {|
  mc_Database := fun _ _ => Some (mkDB "db" "rp" [policy_ex] []);
  mc_RetentionPolicy := fun _ _ w => (Ok (Some policy_ex), w);
  mc_CreateShardGroup := fun _ _ t w => (Ok (Some (group_of t)), w) |}.

#[export] Instance group_le_trans : Transitive group_le.
Proof. intros a b c. unfold group_le. lia. Qed.

#[export] Instance group_le_total : Total group_le.
Proof. intros a b. unfold group_le. lia. Qed.

Definition known_ex (g : ShardGroupInfo) : Prop := exists t, g = group_of t.

#[export] Instance client_ex_laws : ShardGroupLaws sort_groups client_ex known_ex.
Proof.
  split.
  - intros l. apply merge_sort_Permutation.
  - intros l. apply (StronglySorted_merge_sort group_le); exact _.
  - intros db rp t w g w' [= <- <-]. split; [eexists; reflexivity|]. unfold spans, group_of. cbn. Z.div_mod_to_equations. lia.
  - intros g h [t ->] [u ->]. unfold apart, group_of. cbn. lia.
  - intros g [t ->]. cbn. lia.
Qed.

Lemma points_mapped_witness :
  exists m w', MapShards (fun p => p) (fun p => p) sort_groups shard_for (fun c => c) 0 client_ex 1000 "db" "rp"
      [951; 890; 967; 953] tt = (Ok m, w')
    /\ sm_Dropped m = [890] /\ sl_data <$> sm_Points m !! 195 = Some [951; 953]
    /\ Forall (fun p => p < 900) (sm_Dropped m).
Proof.
  destruct (MapShards (fun p => p) (fun p => p) sort_groups shard_for (fun c => c) 0 client_ex 1000 "db" "rp"
      [951; 890; 967; 953] tt) as [r w'] eqn:E.
  destruct r as [m|e|]; [|vm_compute in E; discriminate|vm_compute in E; discriminate].
  destruct (points_mapped _ _ _ _ _ _ _ known_ex _ _ _ _ _ _ _ E) as (rp & w1 & l & Hrp & _ & _ & F).
  exists m, w'. injection Hrp as <- _. vm_compute in E. injection E as <- <-.
  split; [reflexivity|]. split; [reflexivity|]. split; [reflexivity|exact F].
Defined.

(** When the groups overlap, a point whose group was created for it can still be
    dropped: of the groups [[0,100)] and [[40,50)] the second ends first, so at
    time 10 the search stops at it and reports that no group covers the point. *)
Definition nested_client : @meta_client unit := {|
  mc_Database := fun _ _ => None;
  mc_RetentionPolicy := fun _ _ w => (Ok (Some (mkRP "rp" 1 0 10 [] [])), w);
  mc_CreateShardGroup := fun _ _ t w =>
    (Ok (Some (if (40 <=? t) && (t <? 50) then mkGroup 2 40 50 zero_time [mkShard 20 [1]] zero_time
               else mkGroup 1 0 100 zero_time [mkShard 10 [1]] zero_time)), w) |}.

Lemma nested_groups_drop :
  (fst (MapShards (fun p => p) (fun p => p) sort_groups shard_for (fun c => c) 0 nested_client 1000 "db" "rp" [45; 10] tt))
  = Ok (mkSM 2 {[ 20 := mkSlice 2 [45] ]} {[ 20 := mkShard 20 [1] ]} [10]).
Proof. vm_compute. reflexivity. Qed.
