(* ===== verification/WritePoints.v ===== *)
(** * Writing points to the cluster

    [WritePointsPrivileged] of [services/data/point_writer.go]: the points are
    mapped to shards, every shard is written by a goroutine of its own that
    runs [writeToShard], and the caller waits for all of them, for the first
    error, for the writer to be closed or for the time to be up.  The state
    holds the state of every shard write; an event is one of them, or the
    caller, taking a step. *)

From S2P Require Import Prelude Bytes MetaData ShardWrite ShardMap.

(** ** Opening and closing the writer *)

(** The channel [closing]: nil, open or closed; whether [subPoints] is set. *)
Inductive chan := NilChan | OpenChan | ClosedChan.
Record points_writer := mkPW { pw_closing : chan; pw_subPoints : bool }.

Definition NewPointsWriter : points_writer := mkPW OpenChan false.

Definition PW_Open (subscriber : bool) (w : points_writer) : points_writer :=
  mkPW OpenChan (if subscriber then true else pw_subPoints w).

(** Closing a closed channel panics. *)
Definition PW_Close : M points_writer werror unit :=
  fun w => match pw_closing w with
           | NilChan => (Ok tt, mkPW NilChan false)
           | OpenChan => (Ok tt, mkPW ClosedChan false)
           | ClosedChan => (Panic, w)
           end.

Section Begin.
Context {Point W : Type}.
Context (Time HashID : Point -> Z).
Context (Sort : list ShardGroupInfo -> list ShardGroupInfo) (ShardFor : ShardGroupInfo -> Z -> ShardInfo).
Context (grow : Z -> Z) (MinNanoTime : Z).
Variable mc : @meta_client W.

(** ** Up to the start of the goroutines *)

Definition policy_name (database retentionPolicy : string) : M W werror string :=
  fun x => if String.eqb retentionPolicy "" then
             match mc_Database mc database x with
             | None => (Err (ErrDatabaseNotFound database), x)
             | Some db => (Ok (db_DefaultRetentionPolicy db), x)
             end
           else (Ok retentionPolicy, x).

(** The write of one shard of the mapping; a shard without entry would be a nil
    pointer. *)
Definition shard_job (database retentionPolicy : string) (c : ConsistencyLevel) (m : @ShardMapping Point)
    (x : Z * @slice Point) : option (@job Point) :=
  match sm_Shards m !! x.1 with
  | Some sh => Some (mkJob sh database retentionPolicy c (sl_data x.2))
  | None => None
  end.

Record started := mkStarted { st_jobs : list (@job Point); st_dropped : list Point }.

Definition begin_write (now : Z) (database retentionPolicy : string) (c : ConsistencyLevel) (points : list Point)
    : M W werror started :=
  let* rp := policy_name database retentionPolicy in
  let* m := MapShards Time HashID Sort ShardFor grow MinNanoTime mc now database rp points in
  match mapM (shard_job database rp c m) (map_to_list (sm_Points m)) with
  | Some jobs => ret (mkStarted jobs (sm_Dropped m))
  | None => panic
  end.

Definition begin_stats (points dropped : list Point) : list (counter * Z) :=
  [(WriteReq, 1); (PointWriteReq, zlen points)] ++ map (fun _ => (WriteDropped, 1)) dropped.

End Begin.

(** ** The goroutines and the caller *)

Section Machine.
Context {Point : Type}.
Variable w : writer.

Record shard_run := mkRun { sr_job : @job Point; sr_state : @wstate Point; sr_sent : bool }.

Record ostate := mkOS {
  os_runs : list shard_run;
  os_ch : list (option werror);
  os_sub : bool;                      (* the points were offered to subscriptions *)
  os_left : nat;
  os_err : option werror;
  os_ret : option (option werror) }.

Definition ostart (s : @started Point) : ostate :=
  mkOS (map (fun j => mkRun j (wstart w j) false) (st_jobs s)) [] false (length (st_jobs s))
    (if 0 <? zlen (st_dropped s) then Some (PartialWriteError (zlen (st_dropped s))) else None) None.

Inductive oevent :=
| OShard (k : nat) (e : wevent)        (* a step of the write of shard k *)
| OSend (k : nat)                      (* its goroutine sends the result *)
| OSub (ok : bool)
| ORecv
| OClosing
| OTimeout
| OLoopEnd.

Definition set_oret (r : option werror) (s : ostate) : ostate :=
  mkOS (os_runs s) (os_ch s) (os_sub s) (os_left s) (os_err s) (Some r).

Definition ostep (s : ostate) (e : oevent) : option (ostate * list (counter * Z)) :=
  match e with
  | OShard k e =>
      match os_runs s !! k with
      | Some r =>
          match wstep w (sr_job r) (sr_state r) e with
          | Some (t, cs) =>
              Some (mkOS (<[k := mkRun (sr_job r) t (sr_sent r)]> (os_runs s)) (os_ch s) (os_sub s) (os_left s)
                      (os_err s) (os_ret s), cs)
          | None => None
          end
      | None => None
      end
  | OSend k =>
      match os_runs s !! k with
      | Some (mkRun j t false) =>
          match ws_ret t with
          | Some r =>
              if (length (os_ch s) <? length (os_runs s))%nat then
                Some (mkOS (<[k := mkRun j t true]> (os_runs s)) (os_ch s ++ [r]) (os_sub s) (os_left s)
                        (os_err s) (os_ret s), [])
              else None
          | None => None
          end
      | _ => None
      end
  | OSub ok =>
      if os_sub s then None
      else Some (mkOS (os_runs s) (os_ch s) true (os_left s) (os_err s) (os_ret s),
                 [(if ok then SubWriteOK else SubWriteDrop, 1)])
  | ORecv =>
      match os_sub s, os_ret s, os_left s, os_ch s with
      | true, None, S n, r :: ch' =>
          let s' := mkOS (os_runs s) ch' true n (os_err s) None in
          Some (match r with Some e => set_oret (Some e) s' | None => s' end, [])
      | _, _, _, _ => None
      end
  | OClosing =>
      match os_sub s, os_ret s, os_left s with
      | true, None, S _ => Some (set_oret (Some ErrWriteFailed) s, [])
      | _, _, _ => None
      end
  | OTimeout =>
      match os_sub s, os_ret s, os_left s with
      | true, None, S _ => Some (set_oret (Some ErrTimeout) s, [(WriteTimeout, 1)])
      | _, _, _ => None
      end
  | OLoopEnd =>
      match os_sub s, os_ret s, os_left s with
      | true, None, O => Some (set_oret (os_err s) s, [])
      | _, _, _ => None
      end
  end.

Inductive oreach (s0 : @started Point) : ostate -> Prop :=
| oreach_start : oreach s0 (ostart s0)
| oreach_step s e s' cs : oreach s0 s -> ostep s e = Some (s', cs) -> oreach s0 s'.

Fixpoint orun (s : ostate) (evs : list oevent) : option ostate :=
  match evs with
  | [] => Some s
  | e :: evs' => match ostep s e with Some (s', _) => orun s' evs' | None => None end
  end.

(** ** Invariant *)

Definition osent (runs : list shard_run) (k : nat) (x : option werror) : Prop :=
  exists r, runs !! k = Some r /\ sr_sent r = true /\ ws_ret (sr_state r) = Some x.

Definition oret_ok (s : ostate) (rcv : list (option werror)) (r : option werror) : Prop :=
  (r = os_err s /\ Forall (fun x => x = None) rcv /\ length rcv = length (os_runs s))
  \/ r = Some ErrWriteFailed \/ r = Some ErrTimeout \/ (exists e, r = Some e /\ Some e ∈ rcv).

Record oinv (s0 : @started Point) (s : ostate) (order : list nat) (rcv : list (option werror)) : Prop := {
  oi_len : length (os_runs s) = length (st_jobs s0);
  oi_run k r : os_runs s !! k = Some r ->
    st_jobs s0 !! k = Some (sr_job r) /\ wreach w (sr_job r) (sr_state r);
  oi_nodup : NoDup order;
  oi_sent : Forall2 (osent (os_runs s)) order (rcv ++ os_ch s);
  oi_all k r : os_runs s !! k = Some r -> sr_sent r = true -> k ∈ order;
  oi_left : (os_left s + length rcv = length (os_runs s))%nat;
  oi_none : os_ret s = None -> Forall (fun x => x = None) rcv;
  oi_err : os_err s = os_err (ostart s0);
  oi_ret r : os_ret s = Some r -> oret_ok s rcv r }.

Lemma oinv_start s0 : oinv s0 (ostart s0) [] [].
Proof.
  split; cbn; try done.
  - apply length_map.
  - intros k r H. rewrite list_lookup_fmap in H. destruct (st_jobs s0 !! k) as [j|]; [|discriminate].
    injection H as <-. cbn. split; [reflexivity|apply wreach_start].
  - constructor.
  - intros k r H. rewrite list_lookup_fmap in H. destruct (st_jobs s0 !! k) as [j|]; [|discriminate].
    injection H as <-. discriminate.
  - rewrite length_map. lia.
Qed.

(** Once [writeToShard] has returned, its goroutines go on but the result stays. *)
Lemma ret_stable (j : @job Point) s e s' cs r : wstep w j s e = Some (s', cs) -> ws_ret s = Some r -> ws_ret s' = Some r.
Proof.
  intros H Hr. destruct e as [i x|i| | | |]; cbn [wstep] in H; rewrite ?Hr in H; try discriminate H.
  - destruct (owners j !! i); [|discriminate]. destruct (ws_go s !! i); [|discriminate].
    destruct (pending_call j z p); [|discriminate]. injection H as <- _. reflexivity.
  - destruct (owners j !! i); [|discriminate]. destruct (ws_go s !! i) as [[| | | | |x|]|]; try discriminate.
    destruct (_ <? _)%nat; [|discriminate]. injection H as <- _. reflexivity.
Qed.

(** An update of a run that keeps what it sent keeps what was sent. *)
Lemma osent_insert runs k r r' l x :
  runs !! k = Some r -> (sr_sent r = true -> sr_sent r' = true /\ ws_ret (sr_state r') = ws_ret (sr_state r)) ->
  Forall2 (osent runs) l x -> Forall2 (osent (<[k := r']> runs)) l x.
Proof.
  intros Hk Hr H. eapply Forall2_impl; [exact H|]. intros n y (q & Hq & Hs & Hret).
  destruct (decide (n = k)) as [->|Hne].
  - rewrite Hk in Hq. injection Hq as ->. destruct (Hr Hs) as [S R]. exists r'.
    rewrite list_lookup_insert_eq by (eapply lookup_lt_Some; exact Hk). rewrite R. auto.
  - exists q. rewrite list_lookup_insert_ne by congruence. auto.
Qed.

Lemma oinv_shard s0 s k e s' cs order rcv :
  oinv s0 s order rcv -> ostep s (OShard k e) = Some (s', cs) -> oinv s0 s' order rcv.
Proof.
  intros [] H. cbn [ostep] in H. destruct (os_runs s !! k) as [r|] eqn:Hk; [|discriminate].
  destruct (wstep w (sr_job r) (sr_state r) e) as [[t c]|] eqn:Hs; [|discriminate]. injection H as <- _.
  destruct (oi_run0 _ _ Hk) as [Hj Hreach]. pose proof (lookup_lt_Some _ _ _ Hk) as Hlt.
  split; cbn [os_runs os_ch os_left os_err os_ret]; try done.
  - rewrite length_insert. exact oi_len0.
  - intros n q Hq. destruct (decide (n = k)) as [->|Hne].
    + rewrite list_lookup_insert_eq in Hq by exact Hlt. injection Hq as <-. cbn. split; [exact Hj|].
      eapply wreach_step; eassumption.
    + rewrite list_lookup_insert_ne in Hq by congruence. auto.
  - eapply osent_insert; [exact Hk| |exact oi_sent0]. cbn. intros Hsent. split; [exact Hsent|].
    destruct (Forall2_elem_l _ _ _ _ oi_sent0 (oi_all0 _ _ Hk Hsent)) as (x & _ & q & Hq & _ & Hret).
    rewrite Hk in Hq. injection Hq as <-. rewrite Hret. eapply ret_stable; eassumption.
  - intros n q Hq Hsent. destruct (decide (n = k)) as [->|Hne].
    + rewrite list_lookup_insert_eq in Hq by exact Hlt. injection Hq as <-. exact (oi_all0 _ _ Hk Hsent).
    + rewrite list_lookup_insert_ne in Hq by congruence. eauto.
  - rewrite length_insert. exact oi_left0.
  - intros r' Hr. specialize (oi_ret0 _ Hr). unfold oret_ok in *. cbn [os_err os_runs]. rewrite length_insert. exact oi_ret0.
Qed.

Lemma oinv_send s0 s k s' cs order rcv :
  oinv s0 s order rcv -> ostep s (OSend k) = Some (s', cs) -> oinv s0 s' (order ++ [k]) rcv.
Proof.
  intros [] H. cbn [ostep] in H. destruct (os_runs s !! k) as [[j t [|]]|] eqn:Hk; try discriminate.
  destruct (ws_ret t) as [x|] eqn:Hx; [|discriminate]. destruct (_ <? _)%nat; [|discriminate]. injection H as <- _.
  pose proof (lookup_lt_Some _ _ _ Hk) as Hlt. split; cbn [os_runs os_ch os_left os_err os_ret]; try done.
  - rewrite length_insert. exact oi_len0.
  - intros n q Hq. destruct (decide (n = k)) as [->|Hne].
    + rewrite list_lookup_insert_eq in Hq by exact Hlt. injection Hq as <-. exact (oi_run0 _ _ Hk).
    + rewrite list_lookup_insert_ne in Hq by congruence. auto.
  - apply NoDup_app. split; [exact oi_nodup0|]. split; [|apply NoDup_singleton].
    intros n Hn Hn'. apply list_elem_of_singleton in Hn' as ->.
    destruct (Forall2_elem_l _ _ _ _ oi_sent0 Hn) as (y & _ & q & Hq & Hs & _). rewrite Hk in Hq. injection Hq as <-. discriminate Hs.
  - rewrite app_assoc. apply Forall2_app; [eapply osent_insert; [exact Hk|discriminate|exact oi_sent0]|].
    constructor; [|constructor]. exists (mkRun j t true). rewrite list_lookup_insert_eq by exact Hlt. auto.
  - intros n q Hq Hsent. rewrite elem_of_app, list_elem_of_singleton. destruct (decide (n = k)) as [->|Hne]; [tauto|].
    rewrite list_lookup_insert_ne in Hq by congruence. left. eauto.
  - rewrite length_insert. exact oi_left0.
  - intros r' Hr. specialize (oi_ret0 _ Hr). unfold oret_ok in *. cbn [os_err os_runs]. rewrite length_insert. exact oi_ret0.
Qed.

Lemma oinv_recv s0 s s' cs order rcv :
  oinv s0 s order rcv -> ostep s ORecv = Some (s', cs) -> exists x, oinv s0 s' order (rcv ++ [x]).
Proof.
  intros [] H. cbn [ostep] in H. destruct (os_sub s); [|discriminate]. destruct (os_ret s) eqn:Hr; [discriminate|].
  destruct (os_left s) as [|n] eqn:Hl; [discriminate|]. destruct (os_ch s) as [|x ch] eqn:Hch; [discriminate|].
  assert (rcv ++ x :: ch = (rcv ++ [x]) ++ ch) as E by (rewrite <- app_assoc; reflexivity). rewrite E in oi_sent0.
  specialize (oi_none0 eq_refl). exists x. injection H as <- _.
  destruct x as [e|]; split; cbn [set_oret os_runs os_ch os_left os_err os_ret]; try done; rewrite ?length_app; cbn [length];
    try lia.
  - intros r [= <-]. right. right. right. exists e. rewrite elem_of_app, list_elem_of_singleton. auto.
  - intros _. apply Forall_app. auto.
Qed.

Lemma oinv_set_ret s0 s r order rcv : oinv s0 s order rcv -> oret_ok s rcv r -> oinv s0 (set_oret r s) order rcv.
Proof. intros [] H. split; cbn; try done. intros r' [= <-]. exact H. Qed.

Lemma oinv_step s0 s e s' cs order rcv :
  oinv s0 s order rcv -> ostep s e = Some (s', cs) -> exists order' rcv', oinv s0 s' order' rcv'.
Proof.
  intros I H. destruct e as [k e|k|b| | | |].
  - eauto using oinv_shard.
  - eauto using oinv_send.
  - cbn [ostep] in H. destruct (os_sub s); [discriminate|]. injection H as <- _. exists order, rcv. destruct I. split; cbn; try done.
  - destruct (oinv_recv _ _ _ _ _ _ I H) as [x Hx]. eauto.
  - cbn [ostep] in H. destruct (os_sub s), (os_ret s), (os_left s); try discriminate. injection H as <- _.
    exists order, rcv. apply oinv_set_ret; [exact I|]. right. left. reflexivity.
  - cbn [ostep] in H. destruct (os_sub s), (os_ret s), (os_left s); try discriminate. injection H as <- _.
    exists order, rcv. apply oinv_set_ret; [exact I|]. right. right. left. reflexivity.
  - cbn [ostep] in H. destruct (os_sub s), (os_ret s) eqn:Hr, (os_left s) eqn:Hl; try discriminate. injection H as <- _.
    exists order, rcv. apply oinv_set_ret; [exact I|]. left. split; [reflexivity|]. split; [exact (oi_none _ _ _ _ I Hr)|].
    pose proof (oi_left _ _ _ _ I). lia.
Qed.

Lemma oinv_reach s0 s : oreach s0 s -> exists order rcv, oinv s0 s order rcv.
Proof.
  induction 1 as [|s e s' cs _ (order & rcv & I) H].
  - exists [], []. apply oinv_start.
  - eapply oinv_step; eassumption.
Qed.

(** ** What an acknowledged write means *)

Lemma oorder_lt s0 s order rcv k : oinv s0 s order rcv -> k ∈ order -> (k < length (os_runs s))%nat.
Proof.
  intros [] Hk. destruct (Forall2_elem_l _ _ _ _ oi_sent0 Hk) as (x & _ & r & Hr & _). eapply lookup_lt_Some; exact Hr.
Qed.

Lemma oorder_sub s0 s order rcv : oinv s0 s order rcv -> order ⊆+ seq 0 (length (os_runs s)).
Proof.
  intros I. apply NoDup_submseteq; [exact (oi_nodup _ _ _ _ I)|]. intros k Hk. apply elem_of_seq.
  pose proof (oorder_lt _ _ _ _ _ I Hk). lia.
Qed.

Lemma oorder_length s0 s order rcv : oinv s0 s order rcv -> length order = (length rcv + length (os_ch s))%nat.
Proof. intros []. apply Forall2_length in oi_sent0. rewrite oi_sent0, length_app. reflexivity. Qed.

Lemma all_succeeded s0 s order rcv k r :
  oinv s0 s order rcv -> Forall (fun x => x = None) rcv -> length rcv = length (os_runs s) ->
  os_runs s !! k = Some r -> ws_ret (sr_state r) = Some None.
Proof.
  intros I Hn Hl Hk. pose proof (oorder_sub _ _ _ _ I) as Hs. pose proof (submseteq_length _ _ Hs) as L.
  rewrite length_seq, (oorder_length _ _ _ _ I) in L. assert (os_ch s = []) as Hch by (apply length_zero_iff_nil; lia).
  assert (order ≡ₚ seq 0 (length (os_runs s))) as P.
  { apply submseteq_length_Permutation; [exact Hs|]. rewrite length_seq, (oorder_length _ _ _ _ I). lia. }
  assert (k ∈ order) as Hin.
  { rewrite P. apply elem_of_seq. pose proof (lookup_lt_Some _ _ _ Hk). lia. }
  destruct (Forall2_elem_l _ _ _ _ (oi_sent _ _ _ _ I) Hin) as (x & Hx & q & Hq & _ & Hret).
  rewrite Hch, app_nil_r in Hx. rewrite Forall_forall in Hn. rewrite (Hn _ Hx) in Hret.
  rewrite Hk in Hq. injection Hq as <-. exact Hret.
Qed.

(** The results that say that every shard was written. *)
Definition acknowledged (r : option werror) : option Z :=
  match r with None => Some 0 | Some (PartialWriteError d) => Some d | Some _ => None end.

(** The points are with as many owners of the shard as the level asks for: with
    as many entries of its owner list, and with as many nodes if the list
    names no node twice. *)
Definition stored (r : shard_run) : Prop :=
  exists got, NoDup got /\ required (sr_job r) <= zlen got
    /\ Forall (accepted w (sr_job r) (ws_log (sr_state r))) got
    /\ (NoDup (owners (sr_job r)) -> exists nodes, NoDup nodes /\ Forall2 (fun i o => owners (sr_job r) !! i = Some o) got nodes).

Lemma nodes_of (l : list Z) got :
  NoDup got -> Forall (fun i => is_Some (l !! i)) got -> NoDup l -> exists nodes, NoDup nodes /\ Forall2 (fun i o => l !! i = Some o) got nodes.
Proof.
  intros N F Nl. induction F as [|i got [o Ho] F IH]; [exists []; split; constructor|]. apply NoDup_cons in N as [Hi N].
  destruct (IH N) as (nodes & Nn & Fn). exists (o :: nodes). split; [|constructor; assumption]. constructor; [|exact Nn].
  intros Hin. apply Forall2_flip in Fn. destruct (Forall2_elem_l _ _ _ _ Fn Hin) as (i' & Hi' & Ho'). rewrite (NoDup_lookup _ _ _ _ Nl Ho Ho') in Hi. contradiction.
Qed.

Lemma run_stored j t : wreach w j t -> ws_ret t = Some None -> forall b, stored (mkRun j t b).
Proof.
  intros H R b. destruct (nil_accepted _ _ _ H R) as (got & N & L & A). exists got. split; [exact N|]. split; [exact L|]. split; [exact A|].
  apply nodes_of; [exact N|]. eapply Forall_impl; [exact A|]. intros i (o & Ho & _). eauto.
Qed.

Lemma acknowledged_stored s0 s r d :
  oreach s0 s -> os_ret s = Some r -> acknowledged r = Some d -> d = zlen (st_dropped s0) /\ Forall stored (os_runs s).
Proof.
  intros H Hr Hd. destruct (oinv_reach _ _ H) as (order & rcv & I).
  destruct (oi_ret _ _ _ _ I _ Hr) as [(E & Hn & Hl)|[->|[->|(e & -> & He)]]]; try discriminate Hd.
  - split.
    + rewrite E, (oi_err _ _ _ _ I) in Hd. cbn in Hd. pose proof (zlen_nonneg (st_dropped s0)).
      destruct (Z.ltb_spec 0 (zlen (st_dropped s0))); cbn in Hd; injection Hd as <-; lia.
    + apply Forall_forall. intros q Hq. apply list_elem_of_lookup in Hq as [k Hk].
      pose proof (all_succeeded _ _ _ _ _ _ I Hn Hl Hk) as R. destruct (oi_run _ _ _ _ I _ _ Hk) as [_ Hreach].
      destruct q as [j t b]. exact (run_stored _ _ Hreach R b).
  - exfalso. pose proof (oi_sent _ _ _ _ I) as S. apply Forall2_flip in S.
    destruct (Forall2_elem_l _ _ _ (Some e) S) as (k & _ & q & Hq & _ & Hret); [rewrite elem_of_app; auto|].
    destruct (oi_run _ _ _ _ I _ _ Hq) as [_ Hreach]. destruct (ret_reach _ _ _ _ Hreach Hret) as (_ & rcv' & _ & O).
    destruct e; cbn in Hd; try discriminate Hd; exact O.
Qed.

Lemma job_run s0 s j : oreach s0 s -> j ∈ st_jobs s0 -> exists r, r ∈ os_runs s /\ sr_job r = j.
Proof.
  intros H Hj. destruct (oinv_reach _ _ H) as (order & rcv & I). apply list_elem_of_lookup in Hj as [k Hk].
  destruct (lookup_lt_is_Some_2 (os_runs s) k) as [r Hr]; [rewrite (oi_len _ _ _ _ I); eapply lookup_lt_Some; exact Hk|].
  exists r. split; [eapply list_elem_of_lookup_2; exact Hr|]. destruct (oi_run _ _ _ _ I _ _ Hr) as [E _]. congruence.
Qed.

(** ** Termination *)

Definition run_work (r : shard_run) : nat := work (sr_state r) + (if sr_sent r then 0 else 1).

Definition owork (s : ostate) : nat :=
  sum_list_with run_work (os_runs s) + os_left s + (if os_sub s then 0 else 1)
  + match os_ret s with None => 1 | Some _ => 0 end.

Lemma run_sum_insert (l : list shard_run) k p q :
  l !! k = Some p -> (sum_list_with run_work (<[k := q]> l) + run_work p = sum_list_with run_work l + run_work q)%nat.
Proof.
  revert k. induction l as [|x l IH]; intros [|k] H; try discriminate H.
  - injection H as ->. cbn. lia.
  - specialize (IH k H). change (<[S k := q]> (x :: l)) with (x :: <[k := q]> l). cbn [sum_list_with]. lia.
Qed.

Lemma run_work_eq j t b : run_work (mkRun j t b) = (work t + (if b then 0 else 1))%nat.
Proof. reflexivity. Qed.

Lemma owork_step s e s' cs : ostep s e = Some (s', cs) -> (owork s' < owork s)%nat.
Proof.
  unfold owork. destruct e as [k e|k|b| | | |]; cbn [ostep]; intros H.
  - destruct (os_runs s !! k) as [[j t0 b]|] eqn:Hk; [|discriminate]. cbn [sr_job sr_state sr_sent] in H.
    destruct (wstep w j t0 e) as [[t c]|] eqn:Hs; [|discriminate]. injection H as <- _.
    pose proof (run_sum_insert _ _ _ (mkRun j t b) Hk) as E. pose proof (work_step _ _ _ _ _ _ Hs).
    rewrite !run_work_eq in E. cbn [os_runs os_left os_sub os_ret]. lia.
  - destruct (os_runs s !! k) as [[j t [|]]|] eqn:Hk; try discriminate. destruct (ws_ret t); [|discriminate].
    destruct (_ <? _)%nat; [|discriminate]. injection H as <- _.
    pose proof (run_sum_insert _ _ _ (mkRun j t true) Hk) as E. rewrite !run_work_eq in E.
    cbn [os_runs os_left os_sub os_ret]. lia.
  - destruct (os_sub s); [discriminate|]. injection H as <- _. cbn. lia.
  - destruct (os_sub s); [|discriminate]. destruct (os_ret s); [discriminate|]. destruct (os_left s) as [|n]; [discriminate|].
    destruct (os_ch s) as [|[e|] ch]; [discriminate| |]; injection H as <- _; cbn; lia.
  - destruct (os_sub s) eqn:Hb, (os_ret s), (os_left s) eqn:Hl; try discriminate. injection H as <- _. cbn. rewrite Hb, Hl. lia.
  - destruct (os_sub s) eqn:Hb, (os_ret s), (os_left s) eqn:Hl; try discriminate. injection H as <- _. cbn. rewrite Hb, Hl. lia.
  - destruct (os_sub s) eqn:Hb, (os_ret s), (os_left s) eqn:Hl; try discriminate. injection H as <- _. cbn. rewrite Hb, Hl. lia.
Qed.

Lemma owork_run evs s s' : orun s evs = Some s' -> (length evs + owork s' <= owork s)%nat.
Proof.
  revert s. induction evs as [|e evs IH]; intros s H; cbn [orun length] in H |- *.
  - injection H as ->. lia.
  - destruct (ostep s e) as [[s1 cs]|] eqn:E; [|discriminate]. pose proof (owork_step _ _ _ _ E). specialize (IH _ H). lia.
Qed.

(** Steps that need neither the writer to be closed nor the time to be up. *)
Definition regular (e : oevent) : bool :=
  match e with
  | OShard _ Closing | OShard _ Timeout | OClosing | OTimeout => false
  | _ => true
  end.

Definition run_done (r : shard_run) : Prop :=
  Forall (fun p => is_finished p = true) (ws_go (sr_state r)) /\ (exists x, ws_ret (sr_state r) = Some x) /\ sr_sent r = true.

Lemma shard_step_regular s k r e x :
  os_runs s !! k = Some r -> wstep w (sr_job r) (sr_state r) e = Some x -> e <> Closing -> e <> Timeout ->
  exists e' y, regular e' = true /\ ostep s e' = Some y.
Proof.
  intros Hk H H1 H2. exists (OShard k e). cbn [ostep]. rewrite Hk, H. destruct x as [t c].
  eexists. split; [|reflexivity]. destruct e; try reflexivity; contradiction.
Qed.

Lemma Forall_dec_counter {A} (P : A -> Prop) `{!forall x, Decision (P x)} (l : list A) :
  Forall P l \/ exists i x, l !! i = Some x /\ ~ P x.
Proof.
  destruct (decide (Forall P l)) as [F|F]; [auto|]. right. apply not_Forall_Exists in F; [|exact _].
  apply Exists_exists in F as (x & Hx & HP). apply list_elem_of_lookup in Hx as [i Hi]. eauto.
Qed.

(** A shard write that is not done can go on, its own channel and the caller's
    having room. *)
Lemma run_progress s0 s k r :
  oreach s0 s -> os_runs s !! k = Some r -> run_done r \/ exists e y, regular e = true /\ ostep s e = Some y.
Proof.
  intros H Hk. destruct (oinv_reach _ _ H) as (order & rcv & I). destruct (oi_run _ _ _ _ I _ _ Hk) as [_ Hr].
  destruct (Forall_dec_counter (fun p => is_finished p = true) (ws_go (sr_state r))) as [F|(i & p & Hp & Hf)].
  2:{ right. apply not_true_is_false in Hf.
      destruct (go_progress _ _ _ _ _ Hr Hp Hf) as [G|[x G]].
      - destruct (G None) as [x Gx]. eapply shard_step_regular; [exact Hk|exact Gx|discriminate|discriminate].
      - eapply shard_step_regular; [exact Hk|exact G|discriminate|discriminate]. }
  destruct (ws_ret (sr_state r)) as [x|] eqn:Hx.
  2:{ right. destruct (caller_progress _ _ _ Hr F Hx) as (e & y & N1 & N2 & E). eapply shard_step_regular; eassumption. }
  destruct (sr_sent r) eqn:Hs; [left; unfold run_done; eauto|]. right.
  exists (OSend k). cbn [ostep]. rewrite Hk. destruct r as [j t b]. cbn [sr_state sr_sent] in *. subst b. rewrite Hx.
  assert (length (os_ch s) < length (os_runs s))%nat as Hroom.
  { assert (k ∉ order) as Hn.
    { intros Hn. destruct (Forall2_elem_l _ _ _ _ (oi_sent _ _ _ _ I) Hn) as (y & _ & q & Hq & Hqs & _).
      rewrite Hk in Hq. injection Hq as <-. discriminate Hqs. }
    assert (k :: order ⊆+ seq 0 (length (os_runs s))) as Hsub.
    { apply NoDup_submseteq; [constructor; [exact Hn|exact (oi_nodup _ _ _ _ I)]|]. intros n Hn'. apply elem_of_seq.
      apply elem_of_cons in Hn' as [->|Hn']; [pose proof (lookup_lt_Some _ _ _ Hk); lia|].
      pose proof (oorder_lt _ _ _ _ _ I Hn'). lia. }
    apply submseteq_length in Hsub. rewrite length_seq in Hsub. cbn [length] in Hsub.
    rewrite (oorder_length _ _ _ _ I) in Hsub. lia. }
  destruct (Nat.ltb_spec (length (os_ch s)) (length (os_runs s))); [|lia]. eexists. split; reflexivity.
Qed.

Lemma runs_progress s0 s :
  oreach s0 s -> Forall run_done (os_runs s) \/ exists e y, regular e = true /\ ostep s e = Some y.
Proof.
  intros H. assert (forall l, (forall r, r ∈ l -> r ∈ os_runs s) ->
    Forall run_done l \/ exists e y, regular e = true /\ ostep s e = Some y) as G.
  { induction l as [|r l IH]; intros Hl; [left; constructor|].
    assert (r ∈ os_runs s) as Hr by (apply Hl; left). apply list_elem_of_lookup in Hr as [k Hk].
    destruct (run_progress _ _ _ _ H Hk) as [D|E]; [|auto].
    destruct IH as [F|E]; [intros q Hq; apply Hl; right; exact Hq|left; constructor; assumption|auto]. }
  apply G. auto.
Qed.

Lemma caller_oprogress s0 s :
  oreach s0 s -> Forall run_done (os_runs s) -> os_ret s = None -> exists e y, regular e = true /\ ostep s e = Some y.
Proof.
  intros H Hd Hret. destruct (oinv_reach _ _ H) as (order & rcv & I). pose proof (oi_left _ _ _ _ I) as L.
  destruct (os_sub s) eqn:Hsub; [|exists (OSub true); cbn [ostep]; rewrite Hsub; eauto].
  destruct (os_left s) as [|n] eqn:Hl.
  { exists OLoopEnd. cbn [ostep]. rewrite Hsub, Hret, Hl. eauto. }
  exists ORecv. cbn [ostep]. rewrite Hsub, Hret, Hl. destruct (os_ch s) as [|x ch] eqn:Hch; [|eauto].
  exfalso. assert (seq 0 (length (os_runs s)) ⊆+ order) as S.
  { apply NoDup_submseteq; [apply NoDup_seq|]. intros k Hk. apply elem_of_seq in Hk.
    destruct (lookup_lt_is_Some_2 (os_runs s) k) as [r Hr]; [lia|]. rewrite Forall_forall in Hd.
    destruct (Hd r (list_elem_of_lookup_2 _ _ _ Hr)) as (_ & _ & Hs). exact (oi_all _ _ _ _ I _ _ Hr Hs). }
  apply submseteq_length in S. rewrite length_seq, (oorder_length _ _ _ _ I), Hch in S. cbn in S. lia.
Qed.

(** C27 A write always ends, and blocks no goroutine: from any reachable state
    every sequence of steps is shorter than [owork] of the state; and as long as
    the call has not returned, or a goroutine of any shard or owner has not
    finished, some step is possible that needs neither the timeout nor the
    writer to be closed.  So the buffered channels are large enough for the
    goroutines that outlive an early return. *)
Theorem write_points_terminates s0 s :
  oreach s0 s ->
  (forall evs s', orun s evs = Some s' -> (length evs <= owork s)%nat)
  /\ ((forall e y, regular e = true -> ostep s e <> Some y) ->
      (exists r, os_ret s = Some r) /\ Forall run_done (os_runs s)).
Proof.
  intros H. split; [intros evs s' E; pose proof (owork_run _ _ _ E); lia|].
  intros Hstuck. destruct (runs_progress _ _ H) as [D|(e & y & R & E)]; [|exfalso; exact (Hstuck e y R E)].
  split; [|exact D]. destruct (os_ret s) as [r|] eqn:Hr; [eauto|].
  destruct (caller_oprogress _ _ H D Hr) as (e & y & R & E). exfalso. exact (Hstuck e y R E).
Qed.

End Machine.

Section Acknowledge.
Context {Point W : Type}.
Context (Time HashID : Point -> Z).
Context (Sort : list ShardGroupInfo -> list ShardGroupInfo) (ShardFor : ShardGroupInfo -> Z -> ShardInfo).
Context (grow : Z -> Z) (MinNanoTime : Z).
Variable mc : @meta_client W.
Variable w : writer.

(** *** Every point is in a job or dropped *)

(** [rp] is the policy points are mapped with; a point was dropped because no
    group was found for it, and if groups do not overlap it is beyond the policy. *)
Lemma begin_covers now db rp c points x s0 x' :
  begin_write Time HashID Sort ShardFor grow MinNanoTime mc now db rp c points x = (Ok s0, x') ->
  exists l rpn rpi x1 x2, mc_RetentionPolicy mc db rpn x1 = (Ok (Some rpi), x2)
  /\ st_dropped s0 = List.filter (goes_nowhere Time HashID ShardFor l) points
  /\ (forall known, ShardGroupLaws Sort mc known -> Forall (fun p => Time p < min_time MinNanoTime now rpi) (st_dropped s0))
  /\ Forall (fun p => p ∈ st_dropped s0 \/ exists j, j ∈ st_jobs s0 /\ p ∈ j_points j /\ j_consistency j = c) points.
Proof.
  intros H. unfold begin_write, bind in H. destruct (policy_name mc db rp x) as [[rpn|e|] x1]; try discriminate H.
  destruct (MapShards _ _ _ _ _ _ _ _ _ _ _ x1) as [[m|e|] x2] eqn:EM; try discriminate H.
  destruct (mapM _ (map_to_list (sm_Points m))) as [jobs|] eqn:EJ; [|discriminate H]. injection H as <- _. cbn [st_dropped st_jobs].
  pose proof EM as EM0. unfold MapShards, bind in EM. destruct (mc_RetentionPolicy mc db rpn x1) as [[[rpi|]|e|] x3] eqn:ER; try discriminate EM.
  destruct (need_groups _ _ _ _ _ _ _ _ _) as [[l|e|] x4]; try discriminate EM. injection EM as EM _.
  destruct (maps_fold Time HashID ShardFor grow l (zlen points) points ltac:(lia)) as [HM _]. rewrite EM in HM.
  exists l, rpn, rpi, x1, x3. split; [exact ER|]. split; [exact (maps_dropped _ _ _ _ _ _ HM)|]. split.
  { intros known L. destruct (MapShards_spec Time HashID Sort ShardFor grow MinNanoTime mc known _ _ _ _ _ _ _ EM0) as (rp' & w1 & l' & Hrp & _ & HM' & F).
    rewrite ER in Hrp. injection Hrp as <- _. rewrite (maps_dropped _ _ _ _ _ _ HM'). rewrite Forall_forall in F |- *. intros p Hp.
    apply list_elem_of_In, filter_In in Hp as [Hp Hn]. apply list_elem_of_In in Hp. destruct (Z.lt_ge_cases (Time p) (min_time MinNanoTime now rpi)) as [Hlt|Hge]; [exact Hlt|].
    destruct (F p Hp Hge) as [sh Hsh]. unfold goes_nowhere in Hn. rewrite Hsh in Hn. discriminate. }
  apply Forall_forall. intros p Hp. destruct (target Time HashID ShardFor l p) as [sh|] eqn:T.
  - right. assert (p ∈ List.filter (goes_to Time HashID ShardFor l (si_ID sh)) points) as Hf.
    { apply list_elem_of_In, filter_In. split; [apply list_elem_of_In; exact Hp|].
      rewrite (goes_to_target _ _ _ _ _ _ _ T). apply Z.eqb_refl. }
    destruct (sm_Points m !! si_ID sh) as [sl|] eqn:E.
    2:{ rewrite (maps_none _ _ _ _ _ _ HM _ E) in Hf. apply elem_of_nil in Hf as []. }
    destruct (maps_shard _ _ _ _ _ _ HM _ _ E) as (D & _ & sh' & Hsh & _). rewrite <- D in Hf.
    apply elem_of_map_to_list in E. apply mapM_Some_1 in EJ.
    destruct (Forall2_elem_l _ _ _ _ EJ E) as (j & Hj & Hjob). unfold shard_job in Hjob. cbn [fst snd] in Hjob. rewrite Hsh in Hjob.
    injection Hjob as <-. eexists. split; [exact Hj|]. auto.
  - left. rewrite (maps_dropped _ _ _ _ _ _ HM). apply list_elem_of_In, filter_In. split; [apply list_elem_of_In; exact Hp|].
    unfold goes_nowhere. rewrite T. reflexivity.
Qed.

(** C4 (safety). An acknowledged write is stored.  When [WritePointsPrivileged]
    returns nil or the error that counts dropped points, the number
    reported is the number of points dropped, and every point of the request
    was dropped or belongs to a shard whose points at least as many entries
    of its owner list have accepted as the consistency level asks for (as many nodes, if the
    list names no node twice).  The points dropped are exactly those for whose
    time no group is found in the list of groups the call collected; if the groups
    handed out do not overlap, they are beyond the retention policy.  All this
    whatever the interleaving of the goroutines and the outcomes of their calls. *)
Theorem write_acknowledged now db rp c points x s0 x' s r d :
  begin_write Time HashID Sort ShardFor grow MinNanoTime mc now db rp c points x = (Ok s0, x') ->
  oreach w s0 s -> os_ret s = Some r -> acknowledged r = Some d ->
  d = zlen (st_dropped s0)
  /\ Forall (fun p => p ∈ st_dropped s0
                     \/ exists run, run ∈ os_runs s /\ p ∈ j_points (sr_job run) /\ j_consistency (sr_job run) = c
                                    /\ stored w run) points
  /\ exists l rpn rpi x1 x2, mc_RetentionPolicy mc db rpn x1 = (Ok (Some rpi), x2)
       /\ (forall p, p ∈ st_dropped s0 <-> p ∈ points /\ ShardGroupAt l (Time p) = None)
       /\ (forall known, ShardGroupLaws Sort mc known -> Forall (fun p => Time p < min_time MinNanoTime now rpi) (st_dropped s0)).
Proof.
  intros Hb Hs Hr Hd. destruct (acknowledged_stored _ _ _ _ _ Hs Hr Hd) as [E F]. destruct (begin_covers _ _ _ _ _ _ _ _ Hb) as (l & rpn & rpi & x1 & x2 & Er & Ed & El & Ec).
  split; [exact E|]. split.
  - rewrite Forall_forall in F. eapply Forall_impl; [exact Ec|].
    intros p [Hp|(j & Hj & Hp & Hc)]; [auto|]. right. destruct (job_run _ _ _ _ Hs Hj) as (run & Hrun & <-).
    exists run. auto 6.
  - exists l, rpn, rpi, x1, x2. split; [exact Er|]. split; [|exact El]. intros p. rewrite Ed, list_elem_of_In, filter_In, <- list_elem_of_In.
    unfold goes_nowhere, target. destruct (ShardGroupAt l (Time p)); split; intros [A B]; split; auto; discriminate.
Qed.

End Acknowledge.

Lemma orun_reach {Point} w (s0 : @started Point) evs s s' : oreach w s0 s -> orun w s evs = Some s' -> oreach w s0 s'.
Proof.
  revert s. induction evs as [|e evs IH]; intros s H E; cbn in E; [injection E as <-; exact H|].
  destruct (ostep w s e) as [[s1 cs]|] eqn:Es; [|discriminate]. apply (IH s1); [|exact E]. eapply oreach_step; eassumption.
Qed.

(** The cluster of [ShardMap]: three points, one too old, two shards with three
    owners each, one owner down, level QUORUM. *)
Definition shard_events (k : nat) : list oevent :=
  map (OShard k) [GoCall 0 None; GoCall 1 None; GoCall 2 (Some (CallErr "down")); GoSend 0; GoSend 1; Recv; GoCall 2 None; Recv;
                  GoSend 2] ++ [OSend k].
Definition write_events : list oevent := shard_events 1 ++ [OSub false] ++ shard_events 0 ++ [ORecv; ORecv; OLoopEnd].
Definition started_ex : started :=
  match fst (begin_write (fun p => p) (fun p => p) sort_groups shard_for (fun c => c) 0 client_ex 1000 "db" ""
               ConsistencyLevelQuorum [951; 890; 967] tt) with
  | Ok s => s
  | _ => mkStarted [] []
  end.

Lemma write_acknowledged_witness :
  exists s, orun writer_ex (ostart writer_ex started_ex) write_events = Some s
    /\ os_ret s = Some (Some (PartialWriteError 1))
    /\ Forall (fun p => p ∈ st_dropped started_ex
         \/ exists run, run ∈ os_runs s /\ p ∈ j_points (sr_job run) /\ j_consistency (sr_job run) = ConsistencyLevelQuorum
             /\ stored writer_ex run) [951; 890; 967]
    /\ Forall (fun p => p < 900) (st_dropped started_ex).
Proof.
  destruct (orun writer_ex (ostart writer_ex started_ex) write_events) as [s|] eqn:E; [|vm_compute in E; discriminate].
  assert (oreach writer_ex started_ex s) as R by (eapply orun_reach; [apply oreach_start|exact E]).
  assert (os_ret s = Some (Some (PartialWriteError 1))) as Hr by (vm_compute in E; injection E as <-; reflexivity).
  exists s. split; [reflexivity|]. split; [exact Hr|].
  destruct (write_acknowledged (fun p => p) (fun p => p) sort_groups shard_for (fun c => c) 0 client_ex writer_ex 1000 "db" ""
           ConsistencyLevelQuorum [951; 890; 967] tt started_ex tt s (Some (PartialWriteError 1)) 1)
    as (_ & A & l & rpn & rpi & x1 & x2 & Erp & _ & B); [vm_compute; reflexivity|exact R|exact Hr|reflexivity|].
  split; [exact A|]. injection Erp as <- _. exact (B known_ex client_ex_laws).
Defined.

Lemma write_points_terminates_witness :
  oreach writer_ex started_ex (ostart writer_ex started_ex)
  /\ (forall evs s', orun writer_ex (ostart writer_ex started_ex) evs = Some s' -> (length evs <= 34)%nat).
Proof.
  split; [apply oreach_start|]. intros evs s' E.
  pose proof (proj1 (write_points_terminates writer_ex started_ex _ (oreach_start _ _)) evs s' E) as H.
  replace (owork (ostart writer_ex started_ex)) with 34%nat in H by (vm_compute; reflexivity). exact H.
Defined.

(** Closing the writer twice panics. *)
Lemma close_twice_panics w w1 :
  pw_closing w = OpenChan -> snd (PW_Close w) = w1 -> PW_Close w1 = (Panic, w1).
Proof. intros H <-. unfold PW_Close. rewrite H. reflexivity. Qed.
