(* ===== verification/TSMWriter.v ===== *)
(** * Writing TSM files

    [tsdb/engine/tsm1/writer.go] with [indexEntries] of [reader.go]: blocks with
    their checksums, the index built beside them, and the footer.  What is
    written goes through buffers to a file; the model keeps the bytes.  How a
    block of values is encoded is the interface [BlockCodec]. *)

From S2P Require Import Prelude Bytes Varint Blocks.

Inductive werr :=
| ErrNoValues
| ErrMaxKeyLengthExceeded
| ErrMaxBlocksExceeded
| ErrTooManyEntries          (* "key '%s' exceeds max index entries" *)
| ErrTSMClosed
| ErrFormat (what : string)
| ErrBlock (e : tsm_error).

(** ** What the files need of the block encoding *)

(** [Values.Encode] and [DecodeBlock]; [D] is the state of the pooled decoders. *)
Class BlockCodec (V D : Type) := {
  bc_time : V -> Z;
  bc_Encode : list V -> res tsm_error (list Z);
  bc_Decode : list Z -> D -> option (list V * option tsm_error) * D }.

(** Its promise: a storable block encodes to a typed block of bytes, shorter than
    [bc_max], that every usable decoder reads back. *)
Class BlockCodecLaws {V D} (BC : BlockCodec V D) := {
  bc_storable : list V -> Prop;
  bc_usable : D -> Prop;
  bc_roundtrip a : a <> [] -> bc_storable a ->
    exists b t, bc_Encode a = Ok b /\ BlockType b = Ok t
      /\ forall q, bc_usable q -> exists q', bc_Decode b q = (Some (a, None), q') /\ bc_usable q' }.

(** ** Constants *)

Definition MagicNumber : Z := 0x16D116D1.
Definition Version : Z := 1.
Definition indexEntrySize : Z := 28.
Definition indexCountSize : Z := 2.
Definition indexTypeSize : Z := 1.
Definition maxIndexEntries : Z := 65535.
Definition maxKeyLength : Z := 65535.

(** ** Index entries *)

Record IndexEntry := mkEntry { MinTime : Z; MaxTime : Z; Offset : Z; Size : Z }.

#[export] Instance IndexEntry_eq_dec : EqDecision IndexEntry.
Proof. solve_decision. Defined.

Definition AppendTo (e : IndexEntry) (b : list Z) : list Z :=
  (be64 (u64 (MinTime e)) ++ be64 (u64 (MaxTime e)) ++ be64 (u64 (Offset e)) ++ be32 (Size e)) ++ drop 28 b.

Definition entry_UnmarshalBinary (b : list Z) : option IndexEntry :=
  if zlen b <? indexEntrySize then None
  else Some (mkEntry (i64 (be_dec (take 8 b))) (i64 (be_dec (take 8 (drop 8 b))))
               (i64 (be_dec (take 8 (drop 16 b)))) (be_dec (take 4 (drop 24 b)))).

Definition entry_Contains (e : IndexEntry) (t : Z) : bool := (MinTime e <=? t) && (MaxTime e >=? t).
Definition entry_OverlapsTimeRange (e : IndexEntry) (min max : Z) : bool := (MinTime e <=? max) && (MaxTime e >=? min).

(** [indexEntries.WriteTo]. *)
Definition entries_WriteTo (l : list IndexEntry) : list Z := concat (map (fun e => AppendTo e (repeat 0 28)) l).

(** [sort.IsSorted] by the start of the block. *)
Fixpoint entries_sorted (l : list IndexEntry) : bool :=
  match l with
  | a :: ((b :: _) as l') => negb (MinTime b <? MinTime a) && entries_sorted l'
  | _ => true
  end.

Section Writer.
Context {V D : Type} `{BC : BlockCodec V D}.

(** [sort.Sort] is not stable: what it does to entries of equal start is left
    open. *)
Context (Sort_entries : list IndexEntry -> list IndexEntry).

(** ** The index under construction *)

(** [di_buf] is what was flushed, [di_key] is empty before the first block. *)
Record directIndex := mkDI {
  di_keyCount : Z; di_size : Z; di_buf : list Z; di_key : list Z; di_Type : Z; di_entries : list IndexEntry }.

Definition NewIndexWriter : directIndex := mkDI 0 0 [] [] 0 [].

Definition di_flush (d : directIndex) : res werr Z * directIndex :=
  match di_key d with
  | [] => (Ok 0, d)
  | _ =>
      if zlen (di_entries d) >? maxIndexEntries then (Err ErrTooManyEntries, d)
      else
        let es := if entries_sorted (di_entries d) then di_entries d else Sort_entries (di_entries d) in
        let out := be16 (zlen (di_key d)) ++ di_key d ++ [di_Type d] ++ be16 (zlen es) ++ entries_WriteTo es in
        (Ok (zlen out), mkDI (di_keyCount d) (di_size d) (di_buf d ++ out) [] 0 [])
  end.

(** A block under a key that was not seen before. *)
Definition di_start (key : list Z) (blockType : Z) (e : IndexEntry) (d : directIndex) : directIndex :=
  let size := u32 (u32 (di_size d + u32 (2 + zlen key)) + indexCountSize) in
  mkDI (di_keyCount d + 1) (u32 (size + indexEntrySize)) (di_buf d) key blockType (di_entries d ++ [e]).

(** The error of [flush] is dropped; keys out of order panic. *)
Definition di_Add (key : list Z) (blockType minTime maxTime offset size : Z) (d : directIndex) : res werr unit * directIndex :=
  let e := mkEntry minTime maxTime offset size in
  match di_key d with
  | [] => (Ok tt, di_start key blockType e d)
  | _ =>
      match bytes_compare (di_key d) key with
      | Eq => (Ok tt, mkDI (di_keyCount d) (u32 (di_size d + indexEntrySize)) (di_buf d) (di_key d) (di_Type d) (di_entries d ++ [e]))
      | Lt => (Ok tt, di_start key blockType e (snd (di_flush d)))
      | Gt => (Panic, d)
      end
  end.

Definition di_Entries (key : list Z) (d : directIndex) : list IndexEntry :=
  match di_key d with
  | [] => []
  | _ => if decide (di_key d = key) then di_entries d else []
  end.

Definition di_Entry (key : list Z) (t : Z) (d : directIndex) : option IndexEntry :=
  List.find (fun e => entry_Contains e t) (di_Entries key d).

(** The bytes of the index; the buffer is drained. *)
Definition di_WriteTo (d : directIndex) : res werr (list Z) * directIndex :=
  match di_flush d with
  | (Ok _, d') => (Ok (di_buf d'), mkDI (di_keyCount d') (di_size d') [] (di_key d') (di_Type d') (di_entries d'))
  | (Err e, d') => (Err e, d')
  | (Panic, d') => (Panic, d')
  end.

(** ** The file *)

Record tsmWriter := mkTW { tw_out : list Z; tw_n : Z; tw_index : directIndex }.
Definition TM (A : Type) : Type := M tsmWriter werr A.

Definition NewTSMWriter : tsmWriter := mkTW [] 0 NewIndexWriter.

Definition tw_emit (b : list Z) : TM unit := modify (fun t => mkTW (tw_out t ++ b) (tw_n t) (tw_index t)).
Definition tw_advance (n : Z) : TM unit := modify (fun t => mkTW (tw_out t) (i64 (tw_n t + n)) (tw_index t)).
Definition tw_add (key : list Z) (typ minTime maxTime offset size : Z) : TM unit :=
  fun t => match di_Add key typ minTime maxTime offset size (tw_index t) with
           | (r, d) => (r, mkTW (tw_out t) (tw_n t) d)
           end.
Definition of_block {A} (r : res tsm_error A) : TM A :=
  fun t => (match r with Ok a => Ok a | Err e => Err (ErrBlock e) | Panic => Panic end, t).

Definition writeHeader : TM unit :=
  do* tw_emit (be32 MagicNumber ++ [Version]) in
  modify (fun t => mkTW (tw_out t) 5 (tw_index t)).

Definition header_once : TM unit :=
  let* t := get in if tw_n t =? 0 then writeHeader else ret tt.

(** The checksum and the block, and the entry that records them. *)
Definition put_block (key : list Z) (typ minTime maxTime : Z) (block : list Z) : TM unit :=
  do* tw_emit (be32 (ChecksumIEEE block)) in
  do* tw_emit block in
  let n := zlen block + 4 in
  let* t := get in
  do* tw_add key typ minTime maxTime (tw_n t) (u32 n) in
  tw_advance n.

Definition tw_Write (key : list Z) (values : list V) : TM unit :=
  if zlen key >? maxKeyLength then throw ErrMaxKeyLengthExceeded
  else match head values, last values with
       | Some first, Some final =>
           do* header_once in
           let* block := of_block (bc_Encode values) in
           let* typ := of_block (BlockType block) in
           put_block key typ (bc_time first) (bc_time final) block
       | _, _ => ret tt
       end.

Definition tw_WriteBlock (key : list Z) (minTime maxTime : Z) (block : list Z) : TM unit :=
  if zlen key >? maxKeyLength then throw ErrMaxKeyLengthExceeded
  else match block with
       | [] => ret tt
       | _ =>
           let* typ := of_block (BlockType block) in
           do* header_once in
           do* put_block key typ minTime maxTime block in
           let* t := get in
           if zlen (di_Entries key (tw_index t)) >=? maxIndexEntries then throw ErrMaxBlocksExceeded else ret tt
       end.

Definition tw_WriteIndex : TM unit :=
  let* t := get in
  let indexPos := tw_n t in
  if di_keyCount (tw_index t) =? 0 then throw ErrNoValues
  else fun t => match di_WriteTo (tw_index t) with
                | (Ok b, d) => (Ok tt, mkTW (tw_out t ++ b ++ be64 (u64 indexPos)) (tw_n t) d)
                | (Err e, d) => (Err e, mkTW (tw_out t) (tw_n t) d)
                | (Panic, d) => (Panic, mkTW (tw_out t) (tw_n t) d)
                end.

Definition tw_Size (t : tsmWriter) : Z := u32 (u32 (tw_n t) + di_size (tw_index t)).

End Writer.

(** [verifyVersion]: the first five bytes of the file. *)
Definition verifyVersion (b : list Z) : res werr unit :=
  if zlen b <? 4 then Err (ErrFormat "init: error reading magic number of file")
  else if negb (be_dec (take 4 b) =? MagicNumber) then Err (ErrFormat "can only read from tsm file")
  else match drop 4 b with
       | [] => Err (ErrFormat "init: error reading version")
       | v :: _ => if v =? Version then Ok tt else Err (ErrFormat "init: file is version")
       end.
