(* ===== verification/TSMIndex.v ===== *)
(** * The index of a TSM file

    [indirectIndex] of [tsdb/engine/tsm1/reader.go]: the raw bytes of the index,
    the positions of the keys in them, and the deletions.  The byte slice of
    4-byte positions is a list of positions here.  Package [bytesutil] of influxdb is
    another repository: its binary search, its test for sortedness and its sort
    are parameters with the laws [BytesUtilLaws]. *)

From S2P Require Import Prelude Bytes Varint Blocks TSMWriter.

Class BytesUtil := {
  SearchBytesFixed : list Z -> (Z -> bool) -> Z;
  bytesutil_IsSorted : list (list Z) -> bool;
  bytesutil_Sort : list (list Z) -> list (list Z) }.

Class BytesUtilLaws `{BU : BytesUtil} : Prop := {
  SearchBytesFixed_spec a (f : Z -> bool) :
    (forall i j x y, a !! i = Some x -> a !! j = Some y -> (i <= j)%nat -> f x = true -> f y = true) ->
    0 <= SearchBytesFixed a f <= zlen a
    /\ (forall i x, a !! i = Some x -> Z.of_nat i < SearchBytesFixed a f -> f x = false)
    /\ (forall i x, a !! i = Some x -> SearchBytesFixed a f <= Z.of_nat i -> f x = true);
  IsSorted_spec l : bytesutil_IsSorted l = true -> StronglySorted bytes_le l;
  Sort_spec l : bytesutil_Sort l ≡ₚ l /\ StronglySorted bytes_le (bytesutil_Sort l) }.

Record TimeRange := mkTR { tr_Min : Z; tr_Max : Z }.

#[export] Instance TimeRange_eq_dec : EqDecision TimeRange.
Proof. solve_decision. Defined.

Definition Overlaps (t : TimeRange) (min max : Z) : bool := (tr_Min t <=? max) && (tr_Max t >=? min).

Record indirectIndex := mkIX {
  ix_b : list Z;
  ix_offsets : list Z;
  ix_minKey : list Z;
  ix_maxKey : list Z;
  ix_minTime : Z;
  ix_maxTime : Z;
  ix_tombstones : gmap (list Z) (list TimeRange) }.

Definition NewIndirectIndex : indirectIndex := mkIX [] [] [] [] 0 0 ∅.

(** ** Reading keys and entries *)

(** The number of bytes read and the key; [None] panics. *)
Definition readKey (b : list Z) : option (Z * list Z) :=
  match sub b 0 2 with
  | Some l => match sub b 2 (2 + be_dec l) with
              | Some key => Some (2 + zlen key, key)
              | None => None
              end
  | None => None
  end.

Definition key_at (b : list Z) (ofs : Z) : option (Z * list Z) :=
  match from b ofs with Some r => readKey r | None => None end.

Fixpoint read_entry_list (n : nat) (b : list Z) : option (list IndexEntry) :=
  match n with
  | O => Some []
  | S n' => match entry_UnmarshalBinary b with
            | Some e => match read_entry_list n' (drop 28 b) with Some l => Some (e :: l) | None => None end
            | None => None
            end
  end.

(** The type and the entries, or an error. *)
Definition readEntries (b : list Z) : res werr (Z * list IndexEntry) :=
  match b with
  | t :: c1 :: c2 :: b' =>
      match read_entry_list (Z.to_nat (be_dec [c1; c2])) b' with
      | Some l => Ok (t, l)
      | None => Err (ErrFormat "readEntries: unmarshal error")
      end
  | _ => Err (ErrFormat "readEntries: data too short for headers")
  end.

(** ** Building the index from its bytes *)

(** One round of the loop of [UnmarshalBinary] over the keys: the position after
    the key's entries and their time span.  The arithmetic is on [int32]. *)
Definition scan_key (b : list Z) (i : Z) : res werr (Z * Z * Z) :=
  let iMax := i32 (zlen b) in
  if i32 (i + 2) >=? iMax then Err (ErrFormat "indirectIndex: not enough data for key length value") else
  match sub b i (i32 (i + 2)) with
  | None => Panic
  | Some l =>
      let i := i32 (i + i32 (3 + be_dec l)) in
      if i32 (i + indexCountSize) >=? iMax then Err (ErrFormat "indirectIndex: not enough data for index entries count") else
      match sub b i (i32 (i + indexCountSize)) with
      | None => Panic
      | Some c =>
          let i := i32 (i + indexCountSize) in
          if i32 (i + 8) >=? iMax then Err (ErrFormat "indirectIndex: not enough data for min time") else
          match sub b i (i32 (i + 8)) with
          | None => Panic
          | Some lo =>
              let i := i32 (i + i32 ((be_dec c - 1) * indexEntrySize)) in
              if i32 (i + 16) >=? iMax then Err (ErrFormat "indirectIndex: not enough data for max time") else
              match sub b (i32 (i + 8)) (i32 (i + 16)) with
              | None => Panic
              | Some hi => Ok (i32 (i + indexEntrySize), i64 (be_dec lo), i64 (be_dec hi))
              end
          end
      end
  end.

(** The loop; [fuel] above the number of keys is enough, and every key takes at
    least five bytes. *)
Fixpoint scan_keys (fuel : nat) (b : list Z) (i : Z) (offsets : list Z) (minTime maxTime : Z) : res werr (list Z * Z * Z) :=
  if i <? i32 (zlen b) then
    match fuel with
    | O => Err (ErrFormat "out of fuel")
    | S fuel' =>
        match scan_key b i with
        | Ok (i', minT, maxT) => scan_keys fuel' b i' (offsets ++ [i]) (Z.min minTime minT) (Z.max maxTime maxT)
        | Err e => Err e
        | Panic => Panic
        end
    end
  else Ok (offsets, minTime, maxTime).

Definition ix_UnmarshalBinary (b : list Z) (d : indirectIndex) : res werr unit * indirectIndex :=
  let d1 := mkIX b (ix_offsets d) (ix_minKey d) (ix_maxKey d) (ix_minTime d) (ix_maxTime d) (ix_tombstones d) in
  match b with
  | [] => (Ok tt, d1)
  | _ =>
      match scan_keys (S (length b)) b 0 [] (2 ^ 63 - 1) 0 with
      | Err e => (Err e, d1)
      | Panic => (Panic, d1)
      | Ok (offsets, minTime, maxTime) =>
          match head offsets, last offsets with
          | Some f, Some l =>
              match key_at b f, key_at b l with
              | Some (_, k1), Some (_, k2) => (Ok tt, mkIX b offsets k1 k2 minTime maxTime (ix_tombstones d))
              | _, _ => (Panic, d1)
              end
          | _, _ => (Panic, d1)
          end
      end
  end.

(** ** Looking up *)

Section Index.
Context `{BU : BytesUtil}.

(** The test of the binary search.  Every position in [offsets] has a key. *)
Definition key_ge (b key : list Z) (ofs : Z) : bool :=
  match key_at b ofs with
  | Some (_, k) => match bytes_compare k key with Lt => false | _ => true end
  | None => false
  end.

(** The position of the key, or the length of the bytes. *)
Definition ix_search (d : indirectIndex) (key : list Z) : Z :=
  let i := SearchBytesFixed (ix_offsets d) (key_ge (ix_b d) key) in
  match ix_offsets d !! Z.to_nat i with
  | Some ofs =>
      match key_at (ix_b d) ofs with
      | Some (_, k) => if decide (key = k) then ofs else zlen (ix_b d)
      | None => zlen (ix_b d)
      end
  | None => zlen (ix_b d)
  end.

Definition ix_Entries (d : indirectIndex) (key : list Z) : res werr (list IndexEntry) :=
  let ofs := ix_search d key in
  if ofs <? zlen (ix_b d) then
    match key_at (ix_b d) ofs with
    | Some (n, k) =>
        if decide (key = k) then
          match from (ix_b d) (ofs + n) with
          | Some r => match readEntries r with Ok (_, l) => Ok l | _ => Panic end
          | None => Panic
          end
        else Ok []
    | None => Panic
    end
  else Ok [].

Definition res_map {E A B} (f : A -> B) (r : res E A) : res E B :=
  match r with Ok a => Ok (f a) | Err e => Err e | Panic => Panic end.

Definition ix_Entry (d : indirectIndex) (key : list Z) (t : Z) : res werr (option IndexEntry) :=
  res_map (List.find (fun e => entry_Contains e t)) (ix_Entries d key).

Definition ix_Key (d : indirectIndex) (idx : Z) : res werr (list Z * Z * list IndexEntry) :=
  if idx <? 0 then Ok ([], 0, [])
  else match ix_offsets d !! Z.to_nat idx with
       | None => Ok ([], 0, [])
       | Some ofs =>
           match key_at (ix_b d) ofs with
           | None => Panic
           | Some (n, key) =>
               match from (ix_b d) (ofs + n) with
               | Some ((typ :: _) as r) =>
                   match readEntries r with Ok (_, l) => Ok (key, typ, l) | _ => Ok ([], 0, []) end
               | _ => Panic
               end
           end
       end.

Definition ix_KeyAt (d : indirectIndex) (idx : Z) : res werr (list Z * Z) :=
  if idx <? 0 then Ok ([], 0)
  else match ix_offsets d !! Z.to_nat idx with
       | None => Ok ([], 0)
       | Some ofs =>
           match key_at (ix_b d) ofs with
           | None => Panic
           | Some (n, key) => match from (ix_b d) (ofs + n) with Some (typ :: _) => Ok (key, typ) | _ => Panic end
           end
       end.

Definition ix_KeyCount (d : indirectIndex) : Z := zlen (ix_offsets d).

Definition ix_Type (d : indirectIndex) (key : list Z) : res werr Z :=
  let ofs := ix_search d key in
  if ofs <? zlen (ix_b d) then
    match key_at (ix_b d) ofs with
    | Some (n, _) => match from (ix_b d) (ofs + n) with Some (t :: _) => Ok t | _ => Panic end
    | None => Panic
    end
  else Err (ErrFormat "key does not exist").

Definition ix_Contains (d : indirectIndex) (key : list Z) : res werr bool :=
  res_map (fun l => 0 <? zlen l) (ix_Entries d key).

Definition ix_TombstoneRange (d : indirectIndex) (key : list Z) : list TimeRange := default [] (ix_tombstones d !! key).

Definition ix_ContainsValue (d : indirectIndex) (key : list Z) (t : Z) : res werr bool :=
  res_map (fun e => match e with
                    | None => false
                    | Some _ => negb (existsb (fun r => (tr_Min r <=? t) && (tr_Max r >=? t)) (ix_TombstoneRange d key))
                    end) (ix_Entry d key t).

Definition ix_OverlapsTimeRange (d : indirectIndex) (min max : Z) : bool := (ix_minTime d <=? max) && (ix_maxTime d >=? min).

Definition ix_OverlapsKeyRange (d : indirectIndex) (min max : list Z) : bool :=
  match bytes_compare (ix_minKey d) max with Gt => false | _ => true end
  && match bytes_compare (ix_maxKey d) min with Lt => false | _ => true end.

(** ** Deleting *)

Fixpoint drop_less (k : list Z) (keys : list (list Z)) : list (list Z) :=
  match keys with
  | k0 :: keys' => if decide (bytes_lt k0 k) then drop_less k keys' else keys
  | [] => []
  end.

(** Both lists are walked in order; the positions of the keys that are in both
    are left out. *)
Fixpoint delete_loop (b : list Z) (offsets : list Z) (keys : list (list Z)) : option (list Z) :=
  match offsets with
  | [] => Some []
  | ofs :: offsets' =>
      match key_at b ofs with
      | None => None
      | Some (_, k) =>
          match drop_less k keys with
          | k0 :: keys' =>
              if decide (k0 = k) then delete_loop b offsets' keys'
              else match delete_loop b offsets' (k0 :: keys') with Some l => Some (ofs :: l) | None => None end
          | [] => match delete_loop b offsets' [] with Some l => Some (ofs :: l) | None => None end
          end
      end
  end.

Definition set_offsets (o : list Z) (d : indirectIndex) : indirectIndex :=
  mkIX (ix_b d) o (ix_minKey d) (ix_maxKey d) (ix_minTime d) (ix_maxTime d) (ix_tombstones d).
Definition set_tombstones (t : gmap (list Z) (list TimeRange)) (d : indirectIndex) : indirectIndex :=
  mkIX (ix_b d) (ix_offsets d) (ix_minKey d) (ix_maxKey d) (ix_minTime d) (ix_maxTime d) t.

Definition ix_Delete (keys : list (list Z)) (d : indirectIndex) : res werr unit * indirectIndex :=
  match keys with
  | [] => (Ok tt, d)
  | _ =>
      let keys := if bytesutil_IsSorted keys then keys else bytesutil_Sort keys in
      match delete_loop (ix_b d) (ix_offsets d) keys with
      | Some o => (Ok tt, set_offsets o d)
      | None => (Panic, d)
      end
  end.

(** The order of the tombstones of a key, which sorting makes total. *)
Definition tr_le (a b : TimeRange) : Prop := tr_Min a < tr_Min b \/ (tr_Min a = tr_Min b /\ tr_Max a <= tr_Max b).

#[global] Instance tr_le_dec a b : Decision (tr_le a b).
Proof. unfold tr_le. apply _. Defined.

(** [sort.SliceIsSorted] with the comparison of the code, for which equal
    neighbours are out of order. *)
Fixpoint tr_sorted (l : list TimeRange) : bool :=
  match l with
  | a :: ((b :: _) as l') => negb (bool_decide (tr_le b a)) && tr_sorted l'
  | _ => true
  end.

(** Equal elements are indistinguishable, so the sorted slice is unique. *)
Definition sort_ranges (l : list TimeRange) : list TimeRange :=
  if (1 <? zlen l) && negb (tr_sorted l) then merge_sort tr_le l else l.

(** The window that grows over adjacent or overlapping ranges; a gap makes it
    empty. *)
Fixpoint window (prev : TimeRange) (l : list TimeRange) (minTs maxTs : Z) : Z * Z :=
  match l with
  | [] => (minTs, maxTs)
  | ts :: l' =>
      if negb (tr_Max prev =? i64 (tr_Min ts - 1)) && negb (Overlaps prev (tr_Min ts) (tr_Max ts))
      then (2 ^ 63 - 1, - 2 ^ 63)
      else window ts l' (Z.min minTs (tr_Min ts)) (Z.max maxTs (tr_Max ts))
  end.

Definition deleted_window (l : list TimeRange) : Z * Z :=
  match l with
  | [] => (2 ^ 63 - 1, - 2 ^ 63)
  | t :: l' => window t l' (tr_Min t) (tr_Max t)
  end.

(** One key of [DeleteRange]: [full] collects the keys to delete altogether,
    [ts] the tombstones to record. *)
Definition delete_range_key (d : indirectIndex) (minTime maxTime : Z) (full : list (list Z)) (ts : gmap (list Z) (list TimeRange))
    (k : list Z) : res werr (list (list Z) * gmap (list Z) (list TimeRange)) :=
  match ix_Entries d k with
  | Ok entries =>
      match head entries, last entries with
      | Some e0, Some e1 =>
          let min := MinTime e0 in
          let max := MaxTime e1 in
          if (minTime >? max) || (maxTime <? min) then Ok (full, ts)
          else if (minTime <=? min) && (maxTime >=? max) then Ok (full ++ [k], ts)
          else
            let existing := ix_TombstoneRange d k in
            let newTs := sort_ranges (existing ++ default [] (ts !! k) ++ [mkTR minTime maxTime]) in
            let '(minTs, maxTs) := deleted_window newTs in
            Ok (if (minTs <=? min) && (maxTs >=? max) then full ++ [k] else full, <[k := newTs]> ts)
      | _, _ => Ok (full, ts)
      end
  | Err e => Err e
  | Panic => Panic
  end.

Fixpoint delete_range_keys (d : indirectIndex) (minTime maxTime : Z) (full : list (list Z)) (ts : gmap (list Z) (list TimeRange))
    (keys : list (list Z)) : res werr (list (list Z) * gmap (list Z) (list TimeRange)) :=
  match keys with
  | [] => Ok (full, ts)
  | k :: keys' =>
      match delete_range_key d minTime maxTime full ts k with
      | Ok (full', ts') => delete_range_keys d minTime maxTime full' ts' keys'
      | Err e => Err e
      | Panic => Panic
      end
  end.

Definition ix_DeleteRange (keys : list (list Z)) (minTime maxTime : Z) (d : indirectIndex) : res werr unit * indirectIndex :=
  match keys with
  | [] => (Ok tt, d)
  | _ =>
      if (minTime =? - 2 ^ 63) && (maxTime =? 2 ^ 63 - 1) then ix_Delete keys d
      else if (minTime >? ix_maxTime d) || (maxTime <? ix_minTime d) then (Ok tt, d)
      else match delete_range_keys d minTime maxTime [] ∅ keys with
           | Ok (full, ts) =>
               match ix_Delete full d with
               | (Ok _, d1) => (Ok tt, set_tombstones (ts ∪ ix_tombstones d1) d1)
               | (r, d1) => (r, d1)
               end
           | Err e => (Err e, d)
           | Panic => (Panic, d)
           end
  end.

End Index.
