(* ===== verification/TSMIndexFacts.v ===== *)
(** * What the index of a TSM file holds

    The abstract index is a list of series in the order of their keys.  The
    index [UnmarshalBinary] builds from the bytes the writer produces represents
    it, lookups return what it holds, and deletions remove exactly the keys and
    times they name. *)

From S2P Require Import Prelude Bytes Varint Blocks TSMWriter TSMIndex.

(** ** Series and their bytes *)

Record series := mkSeries { s_key : list Z; s_type : Z; s_entries : list IndexEntry }.

Definition entry_ok (e : IndexEntry) : Prop :=
  is_i64 (MinTime e) /\ is_i64 (MaxTime e) /\ is_i64 (Offset e) /\ 0 <= Size e < 2 ^ 32.

Definition series_ok (s : series) : Prop :=
  zlen (s_key s) <= maxKeyLength /\ 0 < zlen (s_entries s) <= maxIndexEntries /\ Forall entry_ok (s_entries s).

Definition enc_entry (e : IndexEntry) : list Z :=
  be64 (u64 (MinTime e)) ++ be64 (u64 (MaxTime e)) ++ be64 (u64 (Offset e)) ++ be32 (Size e).

Definition enc_series (s : series) : list Z :=
  be16 (zlen (s_key s)) ++ s_key s ++ [s_type s] ++ be16 (zlen (s_entries s)) ++ entries_WriteTo (s_entries s).

Lemma AppendTo_enc e : AppendTo e (repeat 0 28) = enc_entry e.
Proof. unfold AppendTo, enc_entry. change (drop 28 (repeat 0 28)) with (@nil Z). apply app_nil_r. Qed.

Lemma zlen_enc_entry e : zlen (enc_entry e) = 28.
Proof. unfold enc_entry. autorewrite with zlen. lia. Qed.

Lemma entries_WriteTo_cons e l : entries_WriteTo (e :: l) = enc_entry e ++ entries_WriteTo l.
Proof. unfold entries_WriteTo. cbn [map concat]. rewrite AppendTo_enc. reflexivity. Qed.

Lemma entries_WriteTo_app l k : entries_WriteTo (l ++ k) = entries_WriteTo l ++ entries_WriteTo k.
Proof. unfold entries_WriteTo. rewrite map_app, concat_app. reflexivity. Qed.

Lemma zlen_entries_WriteTo l : zlen (entries_WriteTo l) = 28 * zlen l.
Proof.
  induction l as [|e l IH]; [reflexivity|]. rewrite entries_WriteTo_cons, zlen_app, zlen_enc_entry, IH, zlen_cons. lia.
Qed.
#[export] Hint Rewrite zlen_enc_entry zlen_entries_WriteTo : zlen.

Lemma zlen_enc_series s : zlen (enc_series s) = 5 + zlen (s_key s) + 28 * zlen (s_entries s).
Proof. unfold enc_series. autorewrite with zlen. lia. Qed.

(** Reading a field that starts the rest of the bytes. *)
Lemma take_field {A} (n : nat) (f r : list A) : length f = n -> take n (f ++ r) = f.
Proof. intros <-. apply take_app_length. Qed.

Lemma drop_field {A} (n : nat) (f r : list A) : length f = n -> drop n (f ++ r) = r.
Proof. intros <-. apply drop_app_length. Qed.

Lemma length_be32 v : length (be32 v) = 4%nat.
Proof. apply length_be_enc. Qed.

Lemma entry_roundtrip e rest : entry_ok e -> entry_UnmarshalBinary (enc_entry e ++ rest) = Some e.
Proof.
  intros (H1 & H2 & H3 & H4). unfold entry_UnmarshalBinary, indexEntrySize.
  destruct (Z.ltb_spec (zlen (enc_entry e ++ rest)) 28) as [H|_]; [zlen_lia|]. unfold enc_entry. rewrite <- !app_assoc.
  rewrite (take_field 8) by apply length_be64.
  rewrite (drop_field 8) by apply length_be64. rewrite (take_field 8) by apply length_be64.
  replace (drop 16 _) with (be64 (u64 (Offset e)) ++ be32 (Size e) ++ rest)
    by (change 16%nat with (8 + 8)%nat; rewrite <- drop_drop, !(drop_field 8) by apply length_be64; reflexivity).
  rewrite (take_field 8) by apply length_be64.
  replace (drop 24 _) with (be32 (Size e) ++ rest)
    by (change 24%nat with (8 + (8 + 8))%nat; rewrite <- !drop_drop, !(drop_field 8) by apply length_be64; reflexivity).
  rewrite (take_field 4) by apply length_be32. rewrite !i64_de_be64, de_be32 by assumption. destruct e; reflexivity.
Qed.

Lemma read_entry_list_enc l rest :
  Forall entry_ok l -> read_entry_list (length l) (entries_WriteTo l ++ rest) = Some l.
Proof.
  induction 1 as [|e l He Hl IH]; [reflexivity|]. cbn [length read_entry_list]. rewrite entries_WriteTo_cons, <- app_assoc.
  rewrite entry_roundtrip by exact He. rewrite (drop_field 28), IH; [reflexivity|].
  pose proof (zlen_enc_entry e) as H. unfold zlen in H. lia.
Qed.

Lemma be16_two v : exists a b, be16 v = [a; b].
Proof. unfold be16, be_enc. cbn. eauto. Qed.

Lemma readEntries_enc t l rest :
  0 < zlen l <= maxIndexEntries -> Forall entry_ok l ->
  readEntries ([t] ++ be16 (zlen l) ++ entries_WriteTo l ++ rest) = Ok (t, l).
Proof.
  intros Hn Hl. unfold maxIndexEntries in Hn. pose proof (de_be16 (zlen l) ltac:(lia)) as D.
  destruct (be16_two (zlen l)) as (a & b & E). rewrite E in *. cbn [app readEntries]. rewrite D.
  replace (Z.to_nat (zlen l)) with (length l) by (unfold zlen; lia). rewrite read_entry_list_enc by exact Hl. reflexivity.
Qed.

(** ** Reading at a position *)

(** The series [s] starts at position [ofs] of [b]. *)
Definition at_pos (b : list Z) (ofs : Z) (s : series) : Prop :=
  exists pre post, b = pre ++ enc_series s ++ post /\ ofs = zlen pre.

Lemma key_at_pos b ofs s :
  at_pos b ofs s -> series_ok s -> key_at b ofs = Some (2 + zlen (s_key s), s_key s).
Proof.
  intros (pre & post & -> & ->) (Hk & _ & _). unfold maxKeyLength in Hk. pose proof (zlen_nonneg (s_key s)). unfold key_at.
  rewrite (from_at _ pre (enc_series s ++ post)) by reflexivity. unfold readKey, enc_series.
  erewrite (sub_at _ [] (be16 (zlen (s_key s)))); [|rewrite <- !app_assoc; reflexivity|reflexivity|zlen_lia].
  rewrite de_be16 by lia.
  erewrite (sub_at _ (be16 (zlen (s_key s))) (s_key s)); [reflexivity|rewrite <- !app_assoc; reflexivity|zlen_lia|zlen_lia].
Qed.

Lemma entries_at_pos b ofs s :
  at_pos b ofs s ->
  exists rest, from b (ofs + (2 + zlen (s_key s)))
               = Some ([s_type s] ++ be16 (zlen (s_entries s)) ++ entries_WriteTo (s_entries s) ++ rest).
Proof.
  intros (pre & post & -> & ->). exists post. apply (from_at _ (pre ++ be16 (zlen (s_key s)) ++ s_key s)).
  - unfold enc_series. rewrite <- !app_assoc. reflexivity.
  - zlen_lia.
Qed.

Lemma at_pos_lt b ofs s : at_pos b ofs s -> 0 <= ofs < zlen b.
Proof.
  intros (pre & post & -> & ->). rewrite !zlen_app, zlen_enc_series.
  pose proof (zlen_nonneg (s_key s)). pose proof (zlen_nonneg (s_entries s)). pose proof (zlen_nonneg pre). pose proof (zlen_nonneg post). lia.
Qed.

(** ** Building the index *)

Definition min_time_of (s : series) : Z := match head (s_entries s) with Some e => MinTime e | None => 0 end.
Definition max_time_of (s : series) : Z := match last (s_entries s) with Some e => MaxTime e | None => 0 end.

(** The four fields one round of the scan reads. *)
Lemma series_fields s :
  series_ok s ->
  exists r1 r2, enc_series s = be16 (zlen (s_key s)) ++ (s_key s ++ [s_type s]) ++ be16 (zlen (s_entries s)) ++ be64 (u64 (min_time_of s)) ++ r1
    /\ enc_series s = (be16 (zlen (s_key s)) ++ s_key s ++ [s_type s] ++ be16 (zlen (s_entries s)) ++ r2) ++ be64 (u64 (max_time_of s))
                      ++ drop 16 (take 28 (drop (Z.to_nat (28 * (zlen (s_entries s) - 1))) (entries_WriteTo (s_entries s))))
    /\ zlen r2 = 28 * (zlen (s_entries s) - 1) + 8
    /\ is_i64 (min_time_of s) /\ is_i64 (max_time_of s).
Proof.
  intros (_ & Hn & He). destruct (s_entries s) as [|e0 l] eqn:E; rewrite ?E in Hn, He; [unfold zlen in Hn; cbn in Hn; lia|].
  destruct (exists_last (l := e0 :: l)) as (k & e1 & Ek); [discriminate|].
  assert (min_time_of s = MinTime e0) as Hmin by (unfold min_time_of; rewrite E; reflexivity).
  assert (max_time_of s = MaxTime e1) as Hmax by (unfold max_time_of; rewrite E, Ek, last_snoc; reflexivity).
  assert (zlen (e0 :: l) = zlen k + 1) as Hk by (rewrite Ek, zlen_app; reflexivity).
  exists (be64 (u64 (MaxTime e0)) ++ be64 (u64 (Offset e0)) ++ be32 (Size e0) ++ entries_WriteTo l), (entries_WriteTo k ++ be64 (u64 (MinTime e1))).
  rewrite Hmin, Hmax. split; [|split; [|split; [|split]]].
  - unfold enc_series. rewrite E, entries_WriteTo_cons. unfold enc_entry. rewrite <- !app_assoc. reflexivity.
  - replace (Z.to_nat (28 * (zlen (e0 :: l) - 1))) with (length (entries_WriteTo k))
      by (pose proof (zlen_entries_WriteTo k) as Z; unfold zlen in Z, Hk |- *; lia).
    unfold enc_series. rewrite E, Ek, entries_WriteTo_app, drop_app_length.
    change (entries_WriteTo [e1]) with (AppendTo e1 (repeat 0 28) ++ []). rewrite AppendTo_enc, app_nil_r.
    rewrite (take_ge (enc_entry e1)) by (pose proof (zlen_enc_entry e1) as Z; unfold zlen in Z; lia).
    unfold enc_entry. change 16%nat with (8 + 8)%nat. rewrite <- drop_drop, !(drop_field 8) by apply length_be64.
    rewrite <- !app_assoc. reflexivity.
  - zlen_lia.
  - rewrite Forall_cons in He. apply He.
  - rewrite Ek, Forall_app, Forall_singleton in He. apply He.
Qed.

Lemma scan_key_series b pre s post :
  b = pre ++ enc_series s ++ post -> zlen b < 2 ^ 31 -> series_ok s ->
  scan_key b (zlen pre) = Ok (zlen pre + zlen (enc_series s), min_time_of s, max_time_of s).
Proof.
  intros -> Hb Hs. destruct (series_fields s Hs) as (r1 & r2 & E1 & E2 & L2 & Hmin & Hmax). destruct Hs as (Hk & Hn & _).
  unfold maxKeyLength, maxIndexEntries in *.
  pose proof (zlen_enc_series s) as L. pose proof (zlen_nonneg (s_key s)). pose proof (zlen_nonneg pre). pose proof (zlen_nonneg post).
  assert (zlen (pre ++ enc_series s ++ post) = zlen pre + zlen (enc_series s) + zlen post) as LB by (rewrite !zlen_app; lia).
  unfold scan_key, indexCountSize, indexEntrySize. rewrite (i32_small (zlen _)) by lia. rewrite !(i32_small (zlen pre + 2)) by lia.
  rewrite Z.geb_leb. destruct (Z.leb_spec (zlen (pre ++ enc_series s ++ post)) (zlen pre + 2)); [lia|].
  erewrite (sub_at _ pre (be16 (zlen (s_key s)))); [|rewrite E1, <- !app_assoc; reflexivity|reflexivity|zlen_lia].
  rewrite de_be16 by lia. rewrite (i32_small (3 + _)) by lia. rewrite !(i32_small (zlen pre + (3 + zlen (s_key s)))) by lia.
  rewrite !(i32_small (zlen pre + (3 + zlen (s_key s)) + 2)) by lia.
  rewrite Z.geb_leb. destruct (Z.leb_spec (zlen (pre ++ enc_series s ++ post)) (zlen pre + (3 + zlen (s_key s)) + 2)); [lia|].
  erewrite (sub_at _ (pre ++ be16 (zlen (s_key s)) ++ s_key s ++ [s_type s]) (be16 (zlen (s_entries s))));
    [|rewrite E1, <- !app_assoc; reflexivity|zlen_lia|zlen_lia].
  rewrite !(i32_small (zlen pre + (3 + zlen (s_key s)) + 2 + 8)) by lia.
  rewrite Z.geb_leb. destruct (Z.leb_spec (zlen (pre ++ enc_series s ++ post)) (zlen pre + (3 + zlen (s_key s)) + 2 + 8)); [lia|].
  erewrite (sub_at _ (pre ++ be16 (zlen (s_key s)) ++ (s_key s ++ [s_type s]) ++ be16 (zlen (s_entries s))) (be64 (u64 (min_time_of s))));
    [|rewrite E1, <- !app_assoc; reflexivity|zlen_lia|zlen_lia].
  rewrite de_be16 by lia. rewrite (i32_small ((zlen (s_entries s) - 1) * 28)) by lia.
  set (i := zlen pre + (3 + zlen (s_key s)) + 2 + (zlen (s_entries s) - 1) * 28).
  rewrite !(i32_small i) by (unfold i; lia). rewrite !(i32_small (i + 16)), !(i32_small (i + 8)), !(i32_small (i + 28)) by (unfold i; lia).
  rewrite Z.geb_leb. destruct (Z.leb_spec (zlen (pre ++ enc_series s ++ post)) (i + 16)); [unfold i in *; lia|].
  erewrite (sub_at _ (pre ++ be16 (zlen (s_key s)) ++ s_key s ++ [s_type s] ++ be16 (zlen (s_entries s)) ++ r2) (be64 (u64 (max_time_of s))));
    [|rewrite E2, <- !app_assoc; reflexivity|unfold i; rewrite !zlen_app, L2; zlen_lia|unfold i; rewrite !zlen_app, L2; zlen_lia].
  rewrite !i64_de_be64 by assumption. replace (i + 28) with (zlen pre + zlen (enc_series s)) by (unfold i; lia). reflexivity.
Qed.

Definition enc_index (l : list series) : list Z := concat (map enc_series l).

(** The series with the positions their bytes start at. *)
Fixpoint place (ofs : Z) (l : list series) : list (Z * series) :=
  match l with
  | [] => []
  | s :: l' => (ofs, s) :: place (ofs + zlen (enc_series s)) l'
  end.

Definition file_min (l : list series) (m : Z) : Z := fold_left (fun m s => Z.min m (min_time_of s)) l m.
Definition file_max (l : list series) (m : Z) : Z := fold_left (fun m s => Z.max m (max_time_of s)) l m.

Lemma scan_keys_index l fuel b pre offs mn mx :
  b = pre ++ enc_index l -> zlen b < 2 ^ 31 -> Forall series_ok l -> (length l < fuel)%nat ->
  scan_keys fuel b (zlen pre) offs mn mx = Ok (offs ++ map fst (place (zlen pre) l), file_min l mn, file_max l mx).
Proof.
  revert fuel pre offs mn mx. induction l as [|s l IH]; intros fuel pre offs mn mx Eb Hb Hl Hf.
  - cbn in Eb. rewrite app_nil_r in Eb. subst pre. pose proof (zlen_nonneg b). destruct fuel; cbn [scan_keys];
      rewrite (i32_small (zlen b)), Z.ltb_irrefl by lia; cbn; rewrite app_nil_r; reflexivity.
  - apply Forall_cons in Hl as [Hs Hl]. destruct fuel as [|fuel]; [lia|]. cbn [scan_keys]. pose proof (zlen_nonneg b).
    assert (b = pre ++ enc_series s ++ enc_index l) as Eb' by exact Eb.
    pose proof (at_pos_lt b (zlen pre) s (ex_intro _ pre (ex_intro _ (enc_index l) (conj Eb' eq_refl)))) as Hlt.
    rewrite (i32_small (zlen b)) by lia. destruct (Z.ltb_spec (zlen pre) (zlen b)); [|lia].
    rewrite (scan_key_series b pre s (enc_index l) Eb' Hb Hs). rewrite <- zlen_app.
    rewrite (IH fuel (pre ++ enc_series s)); [|rewrite <- app_assoc; exact Eb'|exact Hb|exact Hl|cbn in Hf; lia].
    cbn [place map fst file_min file_max fold_left]. rewrite zlen_app, <- app_assoc. reflexivity.
Qed.

(** ** Representation *)

(** The live series of an index: those that are not deleted, in key order, with
    their positions. *)
Record ix_rep (d : indirectIndex) (live : list (Z * series)) : Prop := {
  rep_offsets : ix_offsets d = map fst live;
  rep_pos : Forall (fun x => at_pos (ix_b d) x.1 x.2 /\ series_ok x.2) live;
  rep_sorted : StronglySorted (fun x y => bytes_lt (s_key x.2) (s_key y.2)) live }.

Lemma place_pos l pre b :
  b = pre ++ enc_index l -> Forall series_ok l -> Forall (fun x => at_pos b x.1 x.2 /\ series_ok x.2) (place (zlen pre) l).
Proof.
  revert pre. induction l as [|s l IH]; intros pre Eb Hl; cbn [place]; [constructor|]. apply Forall_cons in Hl as [Hs Hl].
  assert (b = pre ++ enc_series s ++ enc_index l) as Eb' by exact Eb. constructor; [split; [exists pre, (enc_index l); auto|exact Hs]|].
  rewrite <- zlen_app. apply IH; [rewrite <- app_assoc; exact Eb'|exact Hl].
Qed.

Lemma place_snd l ofs : map snd (place ofs l) = l.
Proof. revert ofs. induction l as [|s l IH]; intros ofs; cbn; [reflexivity|]. rewrite IH. reflexivity. Qed.

Lemma place_sorted l ofs :
  StronglySorted (fun x y => bytes_lt (s_key x) (s_key y)) l ->
  StronglySorted (fun x y => bytes_lt (s_key x.2) (s_key y.2)) (place ofs l).
Proof.
  intros H. revert ofs. induction H as [|s l H IH Hs]; intros ofs; cbn [place]; constructor; [apply IH|].
  rewrite <- (place_snd l (ofs + zlen (enc_series s))) in Hs. rewrite Forall_map in Hs. exact Hs.
Qed.

Lemma length_enc_index l : (length l < S (length (enc_index l)))%nat.
Proof.
  unfold enc_index. induction l as [|s l IH]; cbn [map concat length]; [lia|]. rewrite length_app.
  pose proof (zlen_enc_series s) as L. change (zlen (enc_series s)) with (Z.of_nat (length (enc_series s))) in L.
  pose proof (zlen_nonneg (s_key s)). pose proof (zlen_nonneg (s_entries s)). lia.
Qed.

(** What the writer's index bytes unmarshal to. *)
Lemma UnmarshalBinary_index l d :
  l <> [] -> Forall series_ok l -> StronglySorted (fun x y => bytes_lt (s_key x) (s_key y)) l -> zlen (enc_index l) < 2 ^ 31 ->
  exists d', ix_UnmarshalBinary (enc_index l) d = (Ok tt, d') /\ ix_rep d' (place 0 l) /\ ix_tombstones d' = ix_tombstones d
    /\ ix_b d' = enc_index l /\ ix_minTime d' = file_min l (2 ^ 63 - 1) /\ ix_maxTime d' = file_max l 0
    /\ Some (ix_minKey d') = s_key <$> head l /\ Some (ix_maxKey d') = s_key <$> last l.
Proof.
  intros Hne Hl Hs Hb. destruct l as [|s0 l0]; [contradiction|]. set (l := s0 :: l0) in *.
  pose proof (place_pos l [] (enc_index l) eq_refl Hl) as P. change (zlen []) with 0 in P.
  assert (length l < S (length (enc_index l)))%nat as Hfuel.
  { apply length_enc_index. }
  pose proof (scan_keys_index l (S (length (enc_index l))) (enc_index l) [] [] (2 ^ 63 - 1) 0 eq_refl Hb Hl Hfuel) as S.
  change (zlen []) with 0 in S. cbn [app] in S. unfold ix_UnmarshalBinary.
  destruct (enc_index l) as [|x0 xs] eqn:Eb.
  { exfalso. apply (f_equal zlen) in Eb. unfold l, enc_index in Eb. cbn [map concat] in Eb. rewrite zlen_app, zlen_enc_series in Eb.
    pose proof (zlen_nonneg (s_key s0)). pose proof (zlen_nonneg (s_entries s0)). pose proof (zlen_nonneg (concat (map enc_series l0))).
    change (zlen []) with 0 in Eb. lia. }
  rewrite <- Eb in *. rewrite S. destruct (exists_last (l := place 0 l)) as (k & [o1 s1] & Ek); [discriminate|].
  assert (last l = Some s1) as Hlast by (rewrite <- (place_snd l 0), Ek, map_app; apply last_snoc).
  assert (head (map fst (place 0 l)) = Some 0) as -> by reflexivity.
  assert (last (map fst (place 0 l)) = Some o1) as -> by (rewrite Ek, map_app; apply last_snoc).
  rewrite Forall_forall in P. destruct (P (0, s0)) as [A0 B0]; [unfold l; cbn; left|].
  destruct (P (o1, s1)) as [A1 B1]; [rewrite Ek, elem_of_app; right; left|]. cbn [fst snd] in A0, B0, A1, B1.
  rewrite (key_at_pos _ _ _ A0 B0), (key_at_pos _ _ _ A1 B1). rewrite <- Forall_forall in P.
  eexists. split; [reflexivity|]. cbn [ix_tombstones ix_b ix_minTime ix_maxTime ix_minKey ix_maxKey]. rewrite Hlast.
  repeat split; cbn [ix_offsets ix_b]; auto. apply place_sorted. exact Hs.
Qed.

(** ** Lookups *)

Definition find_live (live : list (Z * series)) (key : list Z) : option (Z * series) :=
  List.find (fun x => bool_decide (s_key x.2 = key)) live.

Definition live_entries (live : list (Z * series)) (key : list Z) : list IndexEntry :=
  match find_live live key with Some (_, s) => s_entries s | None => [] end.

Lemma find_live_some live key x : find_live live key = Some x -> x ∈ live /\ s_key x.2 = key.
Proof.
  intros H. apply List.find_some in H as [H E]. split; [apply list_elem_of_In; exact H|]. apply bool_decide_eq_true in E. exact E.
Qed.

Lemma find_live_none live key x : find_live live key = None -> x ∈ live -> s_key x.2 <> key.
Proof.
  intros H Hx. apply list_elem_of_In in Hx. pose proof (List.find_none _ _ H x Hx) as E. apply bool_decide_eq_false in E. exact E.
Qed.

Lemma find_live_in live x :
  StronglySorted (fun x y => bytes_lt (s_key x.2) (s_key y.2)) live -> x ∈ live -> find_live live (s_key x.2) = Some x.
Proof.
  intros Hs Hx. destruct (find_live live (s_key x.2)) as [y|] eqn:E.
  - apply find_live_some in E as [Hy E]. apply list_elem_of_lookup in Hx as [i Hi], Hy as [j Hj].
    destruct (Nat.lt_trichotomy i j) as [H|[->|H]].
    + pose proof (StronglySorted_lookup_lt _ _ _ _ _ _ Hs Hi Hj H) as L. cbn in L. rewrite E in L. destruct (bytes_lt_irrefl _ L).
    + congruence.
    + pose proof (StronglySorted_lookup_lt _ _ _ _ _ _ Hs Hj Hi H) as L. cbn in L. rewrite E in L. destruct (bytes_lt_irrefl _ L).
  - exfalso. exact (find_live_none _ _ _ E Hx eq_refl).
Qed.

Section Lookup.
Context `{BU : BytesUtil} {BL : BytesUtilLaws}.

Lemma key_ge_live d live ofs s key :
  ix_rep d live -> (ofs, s) ∈ live -> key_ge (ix_b d) key ofs = negb (bool_decide (bytes_lt (s_key s) key)).
Proof.
  intros [_ P _] Hin. rewrite Forall_forall in P. destruct (P _ Hin) as [A B]. cbn in A, B. unfold key_ge.
  rewrite (key_at_pos _ _ _ A B). destruct (bytes_compare (s_key s) key) eqn:E.
  - rewrite bool_decide_eq_false_2; [reflexivity|]. unfold bytes_lt. congruence.
  - rewrite bool_decide_eq_true_2; [reflexivity|exact E].
  - rewrite bool_decide_eq_false_2; [reflexivity|]. unfold bytes_lt. congruence.
Qed.

Lemma offsets_lookup d live i ofs : ix_rep d live -> ix_offsets d !! i = Some ofs -> exists s, live !! i = Some (ofs, s).
Proof.
  intros [E _ _] H. rewrite E, list_lookup_fmap in H. destruct (live !! i) as [[o s]|]; [|discriminate]. injection H as <-. eauto.
Qed.

(** The binary search over positions finds the key, if it is live. *)
Lemma search_live d live key :
  ix_rep d live -> ix_search d key = match find_live live key with Some (ofs, _) => ofs | None => zlen (ix_b d) end.
Proof.
  intros R. pose proof R as [Eo P Hs]. unfold ix_search.
  destruct (SearchBytesFixed_spec (ix_offsets d) (key_ge (ix_b d) key)) as (Hr & Hlo & Hhi).
  { intros i j x y Hi Hj Hle Hx. destruct (offsets_lookup _ _ _ _ R Hi) as [s Ls], (offsets_lookup _ _ _ _ R Hj) as [t Lt].
    rewrite (key_ge_live _ _ _ _ _ R (list_elem_of_lookup_2 _ _ _ Ls)) in Hx.
    rewrite (key_ge_live _ _ _ _ _ R (list_elem_of_lookup_2 _ _ _ Lt)). apply negb_true_iff, bool_decide_eq_false in Hx.
    apply negb_true_iff, bool_decide_eq_false. intros H. apply Hx. destruct (decide (i = j)) as [->|Hne]; [congruence|].
    pose proof (StronglySorted_lookup_lt _ _ _ _ _ _ Hs Ls Lt ltac:(lia)) as L. cbn in L. eapply bytes_lt_trans; eassumption. }
  set (r := SearchBytesFixed (ix_offsets d) (key_ge (ix_b d) key)) in *.
  assert (forall i x, live !! i = Some x -> Z.of_nat i < r -> bytes_lt (s_key x.2) key) as Hbefore.
  { intros i [o s] Hx Hi. assert (ix_offsets d !! i = Some o) as Ho by (rewrite Eo, list_lookup_fmap, Hx; reflexivity).
    specialize (Hlo i o Ho Hi). rewrite (key_ge_live _ _ _ _ _ R (list_elem_of_lookup_2 _ _ _ Hx)) in Hlo.
    apply negb_false_iff, bool_decide_eq_true in Hlo. exact Hlo. }
  destruct (ix_offsets d !! Z.to_nat r) as [ofs|] eqn:Er.
  - destruct (offsets_lookup _ _ _ _ R Er) as [s Ls]. rewrite Forall_forall in P.
    destruct (P _ (list_elem_of_lookup_2 _ _ _ Ls)) as [A B]. cbn in A, B. rewrite (key_at_pos _ _ _ A B).
    destruct (decide (key = s_key s)) as [->|Hne].
    + change (s_key s) with (s_key (ofs, s).2). rewrite (find_live_in live (ofs, s) Hs (list_elem_of_lookup_2 _ _ _ Ls)). reflexivity.
    + destruct (find_live live key) as [[o' s']|] eqn:E; [|reflexivity]. exfalso. apply find_live_some in E as [Hin <-]. cbn in Hne, Hbefore.
      apply list_elem_of_lookup in Hin as [i Hi].
      destruct (Z.lt_ge_cases (Z.of_nat i) r) as [H|H]; [exact (bytes_lt_irrefl _ (Hbefore _ _ Hi H))|].
      specialize (Hhi (Z.to_nat r) ofs Er ltac:(lia)). rewrite (key_ge_live _ _ _ _ _ R (list_elem_of_lookup_2 _ _ _ Ls)) in Hhi.
      apply negb_true_iff, bool_decide_eq_false in Hhi. destruct (decide (i = Z.to_nat r)) as [->|Hi'].
      * rewrite Ls in Hi. injection Hi as -> ->. contradiction.
      * pose proof (StronglySorted_lookup_lt _ _ _ _ _ _ Hs Ls Hi ltac:(lia)) as L. cbn in L. contradiction.
  - destruct (find_live live key) as [[o' s']|] eqn:E; [|reflexivity]. exfalso. apply find_live_some in E as [Hin <-].
    apply list_elem_of_lookup in Hin as [i Hi]. apply lookup_ge_None in Er.
    pose proof (lookup_lt_Some _ _ _ Hi) as Hlt. rewrite Eo, length_map in Er. exact (bytes_lt_irrefl _ (Hbefore _ _ Hi ltac:(lia))).
Qed.

Lemma Entries_live d live key : ix_rep d live -> ix_Entries d key = Ok (live_entries live key).
Proof.
  intros R. unfold ix_Entries, live_entries. rewrite (search_live _ _ _ R). destruct (find_live live key) as [[ofs s]|] eqn:E.
  - apply find_live_some in E as [Hin <-]. destruct R as [_ P _]. rewrite Forall_forall in P. destruct (P _ Hin) as [A B]. cbn in A, B |- *.
    destruct (Z.ltb_spec ofs (zlen (ix_b d))) as [_|H]; [|pose proof (at_pos_lt _ _ _ A); lia].
    rewrite (key_at_pos _ _ _ A B). destruct (decide (s_key s = s_key s)) as [_|H]; [|contradiction].
    destruct (entries_at_pos _ _ _ A) as [rest ->]. destruct B as (_ & Hn & He). rewrite (readEntries_enc _ _ _ Hn He). reflexivity.
  - rewrite Z.ltb_irrefl. reflexivity.
Qed.

Lemma KeyAt_live d live i ofs s :
  ix_rep d live -> live !! i = Some (ofs, s) -> ix_KeyAt d (Z.of_nat i) = Ok (s_key s, s_type s).
Proof.
  intros [E P _] H. unfold ix_KeyAt. destruct (Z.ltb_spec (Z.of_nat i) 0); [lia|]. rewrite Nat2Z.id, E, list_lookup_fmap, H. cbn.
  rewrite Forall_forall in P. destruct (P _ (list_elem_of_lookup_2 _ _ _ H)) as [A B]. cbn in A, B.
  rewrite (key_at_pos _ _ _ A B). destruct (entries_at_pos _ _ _ A) as [rest ->]. reflexivity.
Qed.

Lemma Key_live d live i ofs s :
  ix_rep d live -> live !! i = Some (ofs, s) -> ix_Key d (Z.of_nat i) = Ok (s_key s, s_type s, s_entries s).
Proof.
  intros [E P _] H. unfold ix_Key. destruct (Z.ltb_spec (Z.of_nat i) 0); [lia|]. rewrite Nat2Z.id, E, list_lookup_fmap, H. cbn.
  rewrite Forall_forall in P. destruct (P _ (list_elem_of_lookup_2 _ _ _ H)) as [A B]. cbn in A, B.
  rewrite (key_at_pos _ _ _ A B). destruct (entries_at_pos _ _ _ A) as [rest ->]. cbn [app].
  destruct B as (_ & Hn & He). pose proof (readEntries_enc (s_type s) (s_entries s) rest Hn He) as R. cbn [app] in R. rewrite R. reflexivity.
Qed.

(** ** Deleting keys *)

Definition del_live (keys : list (list Z)) (live : list (Z * series)) : list (Z * series) :=
  List.filter (fun x => negb (bool_decide (s_key x.2 ∈ keys))) live.

Lemma drop_less_spec k keys :
  StronglySorted bytes_le keys ->
  exists pre, keys = pre ++ drop_less k keys /\ Forall (fun x => bytes_lt x k) pre
    /\ (forall x, x ∈ drop_less k keys -> ~ bytes_lt x k) /\ StronglySorted bytes_le (drop_less k keys).
Proof.
  intros H. induction H as [|a l H IH Ha]; cbn [drop_less].
  - exists []. repeat split; try constructor. intros x Hx. apply elem_of_nil in Hx as [].
  - destruct (decide (bytes_lt a k)) as [L|L].
    + destruct IH as (pre & E & F & N & S). exists (a :: pre). cbn. rewrite <- E. auto.
    + exists []. split; [reflexivity|]. split; [constructor|]. split; [|constructor; assumption].
      intros x Hx Hlt. apply elem_of_cons in Hx as [->|Hx]; [contradiction|]. rewrite Forall_forall in Ha.
      specialize (Ha x Hx). unfold bytes_le in Ha. destruct (bytes_trichotomy a x) as [H1|[->|H1]]; [|contradiction|].
      * exact (L (bytes_lt_trans _ _ _ H1 Hlt)).
      * apply bytes_gt_lt in H1. contradiction.
Qed.

Lemma delete_loop_spec b live keys :
  Forall (fun x => at_pos b x.1 x.2 /\ series_ok x.2) live ->
  StronglySorted (fun x y => bytes_lt (s_key x.2) (s_key y.2)) live -> StronglySorted bytes_le keys ->
  delete_loop b (map fst live) keys = Some (map fst (del_live keys live)).
Proof.
  intros P Hs. revert keys. induction Hs as [|[ofs s] live Hs IH Hgt]; intros keys Hk; [reflexivity|].
  apply Forall_cons in P as [[A B] P]. cbn in A, B. cbn [map fst delete_loop]. rewrite (key_at_pos _ _ _ A B).
  destruct (drop_less_spec (s_key s) keys Hk) as (pre & E & F & N & S). specialize (IH P).
  assert (forall ks, (forall x, x ∈ live -> (s_key x.2 ∈ ks <-> s_key x.2 ∈ keys)) -> del_live ks live = del_live keys live) as Hext.
  { intros ks Hks. unfold del_live. apply List.filter_ext_in. intros x Hx. apply list_elem_of_In in Hx. specialize (Hks x Hx).
    f_equal. apply bool_decide_ext. exact Hks. }
  rewrite Forall_forall in F. rewrite Forall_forall in Hgt. cbn in Hgt.
  assert (forall x, x ∈ live -> s_key x.2 ∉ pre) as Hpre.
  { intros x Hx Hin. exact (bytes_lt_irrefl _ (bytes_lt_trans _ _ _ (Hgt x Hx) (F _ Hin))). }
  assert (s_key s ∉ pre) as Hspre by (intros Hin; exact (bytes_lt_irrefl _ (F _ Hin))).
  destruct (drop_less (s_key s) keys) as [|k0 ks] eqn:Ed.
  - rewrite (IH [] (SSorted_nil _)). rewrite (Hext []).
    + unfold del_live. cbn [List.filter snd]. rewrite bool_decide_eq_false_2; [reflexivity|]. rewrite E, app_nil_r. exact Hspre.
    + intros x Hx. rewrite E, app_nil_r. split; [intros H; apply elem_of_nil in H as []|]. intros H. destruct (Hpre x Hx H).
  - destruct (decide (k0 = s_key s)) as [->|Hne].
    + apply StronglySorted_inv in S as [S' F0]. rewrite (IH ks S'). rewrite (Hext ks).
      * unfold del_live. cbn [List.filter snd]. rewrite bool_decide_eq_true_2; [reflexivity|]. rewrite E, elem_of_app. right. left.
      * intros x Hx. rewrite E, elem_of_app, elem_of_cons. split; [tauto|]. intros [H|[H|H]]; [destruct (Hpre x Hx H)| |exact H].
        pose proof (Hgt x Hx) as L. rewrite H in L. destruct (bytes_lt_irrefl _ L).
    + rewrite (IH (k0 :: ks) S). rewrite (Hext (k0 :: ks)).
      * unfold del_live. cbn [List.filter snd]. rewrite bool_decide_eq_false_2; [reflexivity|]. rewrite E, elem_of_app. intros [H|H]; [contradiction|].
        apply elem_of_cons in H as [H|H]; [congruence|]. apply StronglySorted_inv in S as [S' F0]. rewrite Forall_forall in F0. specialize (F0 _ H).
        destruct (bytes_trichotomy k0 (s_key s)) as [L|[L|L]]; [exact (N k0 ltac:(left) L)|contradiction|]. apply bytes_gt_lt in L. contradiction.
      * intros x Hx. rewrite E, elem_of_app. split; [tauto|]. intros [H|H]; [destruct (Hpre x Hx H)|exact H].
Qed.

Lemma rep_filter d live f :
  ix_rep d live -> ix_rep (set_offsets (map fst (List.filter f live)) d) (List.filter f live).
Proof.
  intros [E P S]. split; cbn [set_offsets ix_offsets ix_b]; [reflexivity| |].
  - rewrite Forall_forall in *. intros x Hx. apply P. apply list_elem_of_In, filter_In in Hx as [Hx _]. apply list_elem_of_In. exact Hx.
  - clear E P. induction S as [|x l S IH F]; cbn; [constructor|]. destruct (f x); [|exact IH]. constructor; [exact IH|].
    rewrite Forall_forall in *. intros y Hy. apply F. apply list_elem_of_In, filter_In in Hy as [Hy _]. apply list_elem_of_In. exact Hy.
Qed.

Lemma del_live_nil live : del_live [] live = live.
Proof. unfold del_live. induction live as [|x l IH]; [reflexivity|]. cbn. rewrite IH. reflexivity. Qed.

Lemma Delete_live d live keys :
  ix_rep d live -> exists d', ix_Delete keys d = (Ok tt, d') /\ ix_rep d' (del_live keys live) /\ ix_tombstones d' = ix_tombstones d
    /\ ix_minTime d' = ix_minTime d /\ ix_maxTime d' = ix_maxTime d /\ ix_b d' = ix_b d.
Proof.
  intros R. unfold ix_Delete. destruct keys as [|k0 ks]; [exists d; rewrite del_live_nil; auto 7|].
  generalize (k0 :: ks). clear k0 ks. intros keys.
  set (keys' := if bytesutil_IsSorted keys then keys else bytesutil_Sort keys).
  assert (StronglySorted bytes_le keys' /\ forall k, k ∈ keys' <-> k ∈ keys) as [Hs Hk].
  { unfold keys'. destruct (bytesutil_IsSorted keys) eqn:E; [split; [apply IsSorted_spec; exact E|tauto]|].
    destruct (Sort_spec keys) as [Hp Hs]. split; [exact Hs|]. intros k. rewrite Hp. tauto. }
  rewrite (rep_offsets _ _ R), (delete_loop_spec _ _ _ (rep_pos _ _ R) (rep_sorted _ _ R) Hs).
  assert (del_live keys' live = del_live keys live) as ->.
  { unfold del_live. apply List.filter_ext. intros x. f_equal. apply bool_decide_ext. apply Hk. }
  eexists. split; [reflexivity|]. split; [apply rep_filter; exact R|]. auto 6.
Qed.

Lemma find_del_live keys live key :
  find_live (del_live keys live) key = if decide (key ∈ keys) then None else find_live live key.
Proof.
  unfold find_live, del_live. induction live as [|x l IH]; cbn [List.filter List.find]; [destruct (decide (key ∈ keys)); reflexivity|].
  destruct (decide (s_key x.2 ∈ keys)) as [H|H].
  - rewrite bool_decide_eq_true_2 by exact H. cbn [negb]. rewrite IH. destruct (decide (key ∈ keys)) as [|Hk]; [reflexivity|].
    rewrite bool_decide_eq_false_2; [reflexivity|]. intros E. apply Hk. rewrite <- E. exact H.
  - rewrite bool_decide_eq_false_2 by exact H. cbn [negb List.find]. destruct (decide (s_key x.2 = key)) as [<-|Hne].
    + rewrite bool_decide_eq_true_2 by reflexivity. destruct (decide (s_key x.2 ∈ keys)); [contradiction|reflexivity].
    + rewrite bool_decide_eq_false_2 by exact Hne. exact IH.
Qed.

End Lookup.
