(* ===== verification/TSMDelete.v ===== *)
(** * Deleting a time range

    [indirectIndex.DeleteRange] of [tsdb/engine/tsm1/reader.go] deletes exactly
    the given times of the given keys, whether it records tombstones, drops keys
    altogether or finds that the tombstones of a key add up to all of it. *)

From S2P Require Import Prelude Bytes Varint Blocks TSMWriter TSMIndex TSMIndexFacts.

(** ** Sorted tombstones *)

#[export] Instance tr_le_trans : Transitive tr_le.
Proof. intros a b c. unfold tr_le. lia. Qed.
#[export] Instance tr_le_total : Total tr_le.
Proof. intros a b. unfold tr_le. lia. Qed.

Lemma tr_sorted_spec l : tr_sorted l = true -> StronglySorted tr_le l.
Proof.
  intros H. apply Sorted_StronglySorted; [exact _|]. induction l as [|a l IH]; [constructor|]. cbn in H. destruct l as [|b l]; [repeat constructor|].
  apply andb_true_iff in H as [H1 H2]. constructor; [apply IH; exact H2|]. constructor.
  apply negb_true_iff, bool_decide_eq_false in H1. destruct (total tr_le a b); [assumption|contradiction].
Qed.

Lemma sort_ranges_spec l : sort_ranges l ≡ₚ l /\ StronglySorted tr_le (sort_ranges l).
Proof.
  unfold sort_ranges. destruct (Z.ltb_spec 1 (zlen l)) as [H|H]; cbn [andb].
  - destruct (tr_sorted l) eqn:E; cbn [negb]; [split; [reflexivity|apply tr_sorted_spec; exact E]|].
    split; [apply merge_sort_Permutation|apply (StronglySorted_merge_sort tr_le); exact _].
  - split; [reflexivity|]. destruct l as [|a [|b l]]; [constructor|repeat constructor|]. exfalso. rewrite !zlen_cons in H. pose proof (zlen_nonneg l). lia.
Qed.

(** ** Covered times *)

Definition covers (r : TimeRange) (t : Z) : bool := (tr_Min r <=? t) && (tr_Max r >=? t).
Definition covered (l : list TimeRange) (t : Z) : bool := existsb (fun r => covers r t) l.

Lemma covered_in l t : covered l t = true <-> exists r, r ∈ l /\ tr_Min r <= t <= tr_Max r.
Proof.
  unfold covered, covers. rewrite existsb_exists. split; intros (r & H & E); exists r; rewrite list_elem_of_In in *; split; auto; lia.
Qed.

Lemma covered_perm l k t : l ≡ₚ k -> covered l t = covered k t.
Proof.
  intros P. apply eq_true_iff_eq. rewrite !covered_in. split; intros (r & H & E); exists r; [rewrite <- P|rewrite P]; auto.
Qed.

Lemma covered_app l k t : covered (l ++ k) t = covered l t || covered k t.
Proof. apply existsb_app. Qed.

Definition range_ok (r : TimeRange) : Prop := is_i64 (tr_Min r) /\ is_i64 (tr_Max r).

(** The window only ever spans times that some range covers. *)
Lemma window_covered l prev done mn mx a b :
  StronglySorted tr_le (prev :: l) -> Forall range_ok (prev :: l) ->
  mn <= tr_Min prev -> tr_Max prev <= mx -> (forall t, mn <= t <= mx -> covered done t = true) ->
  window prev l mn mx = (a, b) -> forall t, is_i64 t -> a <= t <= b -> covered (done ++ l) t = true.
Proof.
  revert prev done mn mx. induction l as [|ts l IH]; intros prev dn mn mx Hs Hok Hmn Hmx Hd Hw t Ht Hab; cbn [window] in Hw.
  - injection Hw as <- <-. rewrite app_nil_r. apply Hd. exact Hab.
  - destruct (negb (tr_Max prev =? i64 (tr_Min ts - 1)) && negb (Overlaps prev (tr_Min ts) (tr_Max ts))) eqn:E.
    { injection Hw as <- <-. unfold is_i64 in Ht. lia. }
    apply StronglySorted_inv in Hs as [Hs Hf]. apply Forall_cons in Hf as [Hf _]. apply Forall_cons in Hok as [Hp Hok].
    pose proof Hok as Hok'. apply Forall_cons in Hok' as [Hts _]. unfold range_ok, is_i64 in Hp, Hts.
    assert (tr_Min ts <= tr_Max prev + 1) as Hadj.
    { apply andb_false_iff in E as [E|E]; apply negb_false_iff in E.
      - apply Z.eqb_eq in E. destruct (Z.eq_dec (tr_Min ts) (- 2 ^ 63)) as [Hm|Hm]; [lia|]. rewrite i64_small in E by lia. lia.
      - unfold Overlaps in E. lia. }
    assert (mn <= tr_Min ts) as Hmn' by (unfold tr_le in Hf; lia).
    replace (dn ++ ts :: l) with ((dn ++ [ts]) ++ l) by (rewrite <- app_assoc; reflexivity).
    apply (IH ts (dn ++ [ts]) (Z.min mn (tr_Min ts)) (Z.max mx (tr_Max ts))); auto; try lia.
    intros u Hu. rewrite covered_app. destruct (Z.le_gt_cases u mx) as [H|H]; [rewrite Hd by lia; reflexivity|].
    apply orb_true_iff. right. apply covered_in. exists ts. split; [left|]. lia.
Qed.

Lemma deleted_window_covered l a b t :
  StronglySorted tr_le l -> Forall range_ok l -> deleted_window l = (a, b) -> is_i64 t -> a <= t <= b -> covered l t = true.
Proof.
  intros Hs Hok Hw Ht Hab. destruct l as [|r l]; cbn [deleted_window] in Hw; [injection Hw as <- <-; unfold is_i64 in Ht; lia|].
  change (r :: l) with ([r] ++ l). apply (window_covered l r [r] (tr_Min r) (tr_Max r) a b); auto; try lia.
  intros u Hu. apply covered_in. exists r. split; [left|exact Hu].
Qed.

(** ** What is visible *)

(** The key may have a value at the time: a block spans it and no tombstone
    covers it. *)
Definition visible (d : indirectIndex) (live : list (Z * series)) (key : list Z) (t : Z) : bool :=
  existsb (fun e => entry_Contains e t) (live_entries live key) && negb (covered (ix_TombstoneRange d key) t).

(** The times of the entries lie between the first start and the last end, and
    those within the times of the file. *)
Definition timed (d : indirectIndex) (live : list (Z * series)) : Prop :=
  Forall (fun x => ix_minTime d <= min_time_of x.2 /\ max_time_of x.2 <= ix_maxTime d
            /\ Forall (fun e => min_time_of x.2 <= MinTime e /\ MaxTime e <= max_time_of x.2) (s_entries x.2)) live.

Definition tombstones_ok (d : indirectIndex) : Prop := forall k, Forall range_ok (ix_TombstoneRange d k).

Section Delete.
Context `{BU : BytesUtil} {BL : BytesUtilLaws}.

Lemma ContainsValue_visible d live key t : ix_rep d live -> ix_ContainsValue d key t = Ok (visible d live key t).
Proof.
  intros R. unfold ix_ContainsValue, ix_Entry, visible. rewrite (Entries_live _ _ _ R). cbn [res_map]. f_equal.
  destruct (List.find (fun e => entry_Contains e t) (live_entries live key)) as [e|] eqn:E.
  - apply List.find_some in E as [E1 E2]. assert (existsb (fun e => entry_Contains e t) (live_entries live key) = true) as ->; [|reflexivity].
    apply existsb_exists. eauto.
  - assert (existsb (fun e => entry_Contains e t) (live_entries live key) = false) as ->; [|reflexivity].
    apply not_true_is_false. intros H. apply existsb_exists in H as (e & H1 & H2). pose proof (List.find_none _ _ E e H1) as H3. congruence.
Qed.

Definition spanned (live : list (Z * series)) (key : list Z) (t : Z) : bool :=
  existsb (fun e => entry_Contains e t) (live_entries live key).

(** Where the entries of a live key lie. *)
Lemma spanned_bounds d live key t :
  timed d live -> spanned live key t = true ->
  exists s, head (live_entries live key) <> None /\ live_entries live key = s_entries s
    /\ min_time_of s <= t <= max_time_of s /\ ix_minTime d <= min_time_of s /\ max_time_of s <= ix_maxTime d.
Proof.
  intros T H. unfold spanned, live_entries in *. destruct (find_live live key) as [[ofs s]|] eqn:E; [|discriminate].
  apply find_live_some in E as [Hin _]. unfold timed in T. rewrite Forall_forall in T. destruct (T _ Hin) as (T1 & T2 & T3). cbn in T1, T2, T3.
  apply existsb_exists in H as (e & He & Hc). exists s. split; [destruct (s_entries s); [destruct He|discriminate]|]. split; [reflexivity|].
  rewrite Forall_forall in T3. apply list_elem_of_In in He. specialize (T3 e He). unfold entry_Contains in Hc. lia.
Qed.

(** What the loop over the keys has established for the keys seen. *)
Record range_inv (d : indirectIndex) (live : list (Z * series)) (mn mx : Z) (seen full : list (list Z))
    (ts : gmap (list Z) (list TimeRange)) : Prop := {
  ri_full k : k ∈ full -> k ∈ seen /\ forall t, is_i64 t -> spanned live k t = true -> mn <= t <= mx \/ covered (ix_TombstoneRange d k) t = true;
  ri_ts k l : ts !! k = Some l -> k ∈ seen /\ Forall range_ok l
    /\ forall t, covered l t = covered (ix_TombstoneRange d k) t || covers (mkTR mn mx) t;
  ri_rest k : k ∈ seen -> k ∉ full -> ts !! k = None -> forall t, spanned live k t = true -> ~ mn <= t <= mx }.

Lemma in_snoc {A} (x k : A) l : x ∈ l ++ [k] <-> x ∈ l \/ x = k.
Proof. rewrite elem_of_app, list_elem_of_singleton. reflexivity. Qed.

Lemma range_inv_skip d live mn mx seen full ts k :
  range_inv d live mn mx seen full ts -> (forall t, spanned live k t = true -> ~ mn <= t <= mx) ->
  range_inv d live mn mx (seen ++ [k]) full ts.
Proof.
  intros [Hf Hts Hrest] Hk. split.
  - intros x Hx. rewrite in_snoc. destruct (Hf x Hx). auto.
  - intros x l Hx. rewrite in_snoc. destruct (Hts x l Hx). auto.
  - intros x Hx Hnf Hn. apply in_snoc in Hx as [Hx| ->]; [exact (Hrest x Hx Hnf Hn)|exact Hk].
Qed.

Lemma range_inv_full d live mn mx seen full ts k :
  range_inv d live mn mx seen full ts -> (forall t, spanned live k t = true -> mn <= t <= mx) ->
  range_inv d live mn mx (seen ++ [k]) (full ++ [k]) ts.
Proof.
  intros [Hf Hts Hrest] Hk. split.
  - intros x Hx. rewrite in_snoc in *. destruct Hx as [Hx| ->]; [destruct (Hf x Hx)|]; auto.
  - intros x l Hx. rewrite in_snoc. destruct (Hts x l Hx). auto.
  - intros x Hx Hnf Hn. rewrite in_snoc in *. destruct Hx as [Hx| ->]; [|tauto]. apply Hrest; tauto.
Qed.

Lemma range_inv_record (b : bool) d live mn mx seen full ts k l :
  range_inv d live mn mx seen full ts -> Forall range_ok l ->
  (forall t, covered l t = covered (ix_TombstoneRange d k) t || covers (mkTR mn mx) t) ->
  (b = true -> forall t, is_i64 t -> spanned live k t = true -> covered l t = true) ->
  range_inv d live mn mx (seen ++ [k]) (if b then full ++ [k] else full) (<[k := l]> ts).
Proof.
  intros [Hf Hts Hrest] Hok Hcov Hb. split.
  - intros x Hx. rewrite in_snoc. assert (x ∈ full \/ (x = k /\ b = true)) as [Hx'|[-> Eb]].
    { destruct b; [apply in_snoc in Hx as [|]; auto|auto]. }
    + destruct (Hf x Hx'). auto.
    + split; [auto|]. intros t Ht Hs. specialize (Hb Eb t Ht Hs). rewrite Hcov in Hb. apply orb_true_iff in Hb as [C|C]; [auto|].
      unfold covers in C. cbn in C. left. lia.
  - intros x r Hx. rewrite in_snoc. destruct (decide (x = k)) as [->|Hne].
    + rewrite lookup_insert_eq in Hx. injection Hx as <-. auto.
    + rewrite lookup_insert_ne in Hx by congruence. destruct (Hts x r Hx). auto.
  - intros x Hx Hnf Hn. destruct (decide (x = k)) as [->|Hne]; [rewrite lookup_insert_eq in Hn; discriminate|].
    rewrite lookup_insert_ne in Hn by congruence. apply in_snoc in Hx as [Hx|Hx]; [|contradiction]. apply Hrest; [exact Hx| |exact Hn].
    intros Hin. apply Hnf. destruct b; [rewrite in_snoc; auto|exact Hin].
Qed.

(** The tombstones of a key together with the new range. *)
Lemma new_tombstones d live mn mx seen full ts k :
  range_inv d live mn mx seen full ts -> tombstones_ok d -> range_ok (mkTR mn mx) ->
  let all := sort_ranges (ix_TombstoneRange d k ++ default [] (ts !! k) ++ [mkTR mn mx]) in
  StronglySorted tr_le all /\ Forall range_ok all
  /\ forall t, covered all t = covered (ix_TombstoneRange d k) t || covers (mkTR mn mx) t.
Proof.
  intros [_ Hts _] TO Hr all. unfold all. destruct (sort_ranges_spec (ix_TombstoneRange d k ++ default [] (ts !! k) ++ [mkTR mn mx])) as [Sp Ss].
  split; [exact Ss|]. split.
  - rewrite Sp, !Forall_app, Forall_singleton. split; [apply TO|]. split; [|exact Hr].
    destruct (ts !! k) as [l|] eqn:El; [destruct (Hts k l El) as (_ & O & _); exact O|constructor].
  - intros t. rewrite (covered_perm _ _ t Sp), !covered_app. assert (covered [mkTR mn mx] t = covers (mkTR mn mx) t) as -> by apply orb_false_r.
    destruct (ts !! k) as [l|] eqn:El; cbn [default from_option]; [|reflexivity]. destruct (Hts k l El) as (_ & _ & C).
    change (id l) with l. rewrite C. destruct (covered (ix_TombstoneRange d k) t), (covers (mkTR mn mx) t); reflexivity.
Qed.

Lemma range_inv_step d live mn mx seen full ts k full' ts' :
  ix_rep d live -> timed d live -> tombstones_ok d -> range_ok (mkTR mn mx) ->
  range_inv d live mn mx seen full ts -> delete_range_key d mn mx full ts k = Ok (full', ts') ->
  range_inv d live mn mx (seen ++ [k]) full' ts'.
Proof.
  intros R T TO Hr I H. unfold delete_range_key in H. rewrite (Entries_live _ _ _ R) in H.
  destruct (head (live_entries live k)) as [e0|] eqn:E0.
  2:{ injection H as <- <-. apply range_inv_skip; [exact I|]. intros t Ht.
      destruct (spanned_bounds _ _ _ _ T Ht) as (s & B & _). contradiction. }
  assert (exists e1, last (live_entries live k) = Some e1) as [e1 E1].
  { destruct (live_entries live k); [discriminate|]. apply last_is_Some. discriminate. }
  rewrite E1 in H.
  assert (forall t, spanned live k t = true -> MinTime e0 <= t <= MaxTime e1) as SB.
  { intros t Ht. destruct (spanned_bounds _ _ _ _ T Ht) as (s & _ & Es & B & _). unfold min_time_of, max_time_of in B.
    rewrite <- Es, E0, E1 in B. exact B. }
  destruct ((mn >? MaxTime e1) || (mx <? MinTime e0)) eqn:Eout.
  { injection H as <- <-. apply range_inv_skip; [exact I|]. intros t Ht. specialize (SB t Ht). lia. }
  destruct ((mn <=? MinTime e0) && (mx >=? MaxTime e1)) eqn:Eall.
  { injection H as <- <-. apply range_inv_full; [exact I|]. intros t Ht. specialize (SB t Ht). lia. }
  destruct (new_tombstones d live mn mx seen full ts k I TO Hr) as (Ss & Hok & Hcov).
  set (all := sort_ranges _) in *. destruct (deleted_window all) as [a b] eqn:Ew. injection H as <- <-.
  apply range_inv_record; [exact I|exact Hok|exact Hcov|]. intros Eab t Ht Hs. specialize (SB t Hs).
  apply (deleted_window_covered all a b t Ss Hok Ew Ht). lia.
Qed.

Lemma delete_range_key_total d live mn mx full ts k :
  ix_rep d live -> exists r, delete_range_key d mn mx full ts k = Ok r.
Proof.
  intros R. unfold delete_range_key. rewrite (Entries_live _ _ _ R).
  destruct (head (live_entries live k)) as [e0|]; [|eauto]. destruct (last (live_entries live k)) as [e1|]; [|eauto].
  destruct (_ || _); [eauto|]. destruct (_ && _); [eauto|]. destruct (deleted_window _). eauto.
Qed.

Lemma range_inv_keys d live mn mx keys seen full ts :
  ix_rep d live -> timed d live -> tombstones_ok d -> range_ok (mkTR mn mx) -> range_inv d live mn mx seen full ts ->
  exists full' ts', delete_range_keys d mn mx full ts keys = Ok (full', ts') /\ range_inv d live mn mx (seen ++ keys) full' ts'.
Proof.
  intros R T TO Hr. revert seen full ts. induction keys as [|k keys IH]; intros seen full ts I; cbn [delete_range_keys].
  - exists full, ts. rewrite app_nil_r. auto.
  - destruct (delete_range_key_total d live mn mx full ts k R) as ([full1 ts1] & E). rewrite E.
    replace (seen ++ k :: keys) with ((seen ++ [k]) ++ keys) by (rewrite <- app_assoc; reflexivity).
    apply IH. eapply range_inv_step; eassumption.
Qed.

(** *** The deletion *)

Definition hit (keys : list (list Z)) (mn mx : Z) (key : list Z) (t : Z) : bool :=
  bool_decide (key ∈ keys) && covers (mkTR mn mx) t.

Lemma spanned_del keys live key t : spanned (del_live keys live) key t = negb (bool_decide (key ∈ keys)) && spanned live key t.
Proof.
  unfold spanned, live_entries. rewrite find_del_live. destruct (decide (key ∈ keys)) as [H|H].
  - rewrite bool_decide_eq_true_2 by exact H. reflexivity.
  - rewrite bool_decide_eq_false_2 by exact H. reflexivity.
Qed.

Lemma del_live_sub keys live x : x ∈ del_live keys live -> x ∈ live.
Proof. intros Hx. apply list_elem_of_In, filter_In in Hx as [Hx _]. apply list_elem_of_In. exact Hx. Qed.

Lemma timed_filter d d' live f :
  timed d live -> ix_minTime d' = ix_minTime d -> ix_maxTime d' = ix_maxTime d -> timed d' (List.filter f live).
Proof.
  unfold timed. intros T -> ->. rewrite Forall_forall in *. intros x Hx. apply T. apply list_elem_of_In, filter_In in Hx as [Hx _].
  apply list_elem_of_In. exact Hx.
Qed.

(** What [DeleteRange] leaves: still an index, its blocks and tombstones well
    formed, and visible is what was visible and not hit. *)
Definition deleted_ok (d d' : indirectIndex) (live : list (Z * series)) (keys : list (list Z)) (mn mx : Z) : Prop :=
  exists live', ix_rep d' live' /\ timed d' live' /\ tombstones_ok d' /\ (forall x, x ∈ live' -> x ∈ live)
    /\ forall key t, is_i64 t -> visible d' live' key t = visible d live key t && negb (hit keys mn mx key t).

Lemma Delete_ok d live keys :
  ix_rep d live -> timed d live -> tombstones_ok d ->
  exists d', ix_Delete keys d = (Ok tt, d') /\ deleted_ok d d' live keys (- 2 ^ 63) (2 ^ 63 - 1).
Proof.
  intros R T TO. destruct (Delete_live d live keys R) as (d' & E & R' & Et & Emn & Emx & _). exists d'. split; [exact E|].
  exists (del_live keys live). split; [exact R'|]. split; [eapply timed_filter; eassumption|].
  assert (forall k, ix_TombstoneRange d' k = ix_TombstoneRange d k) as Etr by (intros k; unfold ix_TombstoneRange; rewrite Et; reflexivity).
  split; [intros k; rewrite Etr; apply TO|]. split; [apply del_live_sub|].
  intros key t Ht. unfold visible. fold (spanned live key t) (spanned (del_live keys live) key t).
  rewrite spanned_del, Etr. unfold hit, covers. cbn [tr_Min tr_Max]. unfold is_i64 in Ht.
  destruct (Z.leb_spec (- 2 ^ 63) t); [|lia]. rewrite Z.geb_leb. destruct (Z.leb_spec t (2 ^ 63 - 1)); [|lia].
  destruct (bool_decide (key ∈ keys)), (spanned live key t), (covered (ix_TombstoneRange d key) t); reflexivity.
Qed.

Lemma DeleteRange_ok d live keys mn mx :
  ix_rep d live -> timed d live -> tombstones_ok d -> range_ok (mkTR mn mx) ->
  exists d', ix_DeleteRange keys mn mx d = (Ok tt, d') /\ deleted_ok d d' live keys mn mx.
Proof.
  intros R T TO Hr. unfold ix_DeleteRange. destruct keys as [|k0 ks].
  { exists d. split; [reflexivity|]. exists live. split; [exact R|]. split; [exact T|]. split; [exact TO|]. split; [auto|]. intros key t _.
    unfold hit. rewrite bool_decide_eq_false_2 by (intros H; apply elem_of_nil in H as []). cbn. rewrite andb_true_r. reflexivity. }
  generalize (k0 :: ks). clear k0 ks. intros keys.
  destruct ((mn =? - 2 ^ 63) && (mx =? 2 ^ 63 - 1)) eqn:Efull.
  { apply andb_true_iff in Efull as [E1 E2]. apply Z.eqb_eq in E1 as ->. apply Z.eqb_eq in E2 as ->. apply Delete_ok; assumption. }
  destruct ((mn >? ix_maxTime d) || (mx <? ix_minTime d)) eqn:Eout.
  { exists d. split; [reflexivity|]. exists live. split; [exact R|]. split; [exact T|]. split; [exact TO|]. split; [auto|]. intros key t _.
    destruct (visible d live key t) eqn:V; [|reflexivity]. unfold visible in V. apply andb_true_iff in V as [V _].
    destruct (spanned_bounds _ _ _ _ T V) as (s & _ & _ & B & B1 & B2). unfold hit, covers. cbn [tr_Min tr_Max].
    destruct (bool_decide (key ∈ keys)); [|reflexivity]. cbn. lia. }
  destruct (range_inv_keys d live mn mx keys [] [] ∅ R T TO Hr) as (full & ts & -> & [Hf Hts Hrest]).
  { split; [intros k H; apply elem_of_nil in H as []|intros k l H; rewrite lookup_empty in H; discriminate|intros k H; apply elem_of_nil in H as []]. }
  cbn [app] in *. destruct (Delete_live d live full R) as (d1 & -> & R1 & Et & Emn & Emx & Eb).
  eexists. split; [reflexivity|]. exists (del_live full live).
  assert (forall k, ix_TombstoneRange (set_tombstones (ts ∪ ix_tombstones d1) d1) k
           = match ts !! k with Some l => l | None => ix_TombstoneRange d k end) as Etr.
  { intros k. unfold ix_TombstoneRange. cbn [set_tombstones ix_tombstones]. rewrite Et, lookup_union.
    destruct (ts !! k); [destruct (ix_tombstones d !! k)|destruct (ix_tombstones d !! k)]; reflexivity. }
  split; [destruct R1; split; assumption|]. split; [eapply timed_filter; eassumption|]. split.
  { intros k. rewrite Etr. destruct (ts !! k) as [l|] eqn:El; [apply (Hts k l El)|apply TO]. }
  split; [apply del_live_sub|]. intros key t Hti. unfold visible. fold (spanned live key t) (spanned (del_live full live) key t). rewrite spanned_del, Etr.
  destruct (spanned live key t) eqn:Es; [|rewrite !andb_false_r; reflexivity]. rewrite andb_true_r. cbn [andb].
  unfold hit. destruct (decide (key ∈ full)) as [Hin|Hin].
  - rewrite (bool_decide_eq_true_2 (key ∈ full)) by exact Hin. cbn [negb andb]. destruct (Hf key Hin) as [Hk Hc].
    rewrite bool_decide_eq_true_2 by exact Hk. destruct (Hc t Hti Es) as [C|C]; [|rewrite C; reflexivity].
    unfold covers. cbn. destruct (Z.leb_spec mn t); [|lia]. rewrite Z.geb_leb. destruct (Z.leb_spec t mx); [|lia]. rewrite andb_false_r. reflexivity.
  - rewrite (bool_decide_eq_false_2 (key ∈ full)) by exact Hin. cbn [negb andb]. destruct (ts !! key) as [l|] eqn:El.
    + destruct (Hts key l El) as (Hk & _ & C). rewrite bool_decide_eq_true_2 by exact Hk. cbn [andb]. rewrite C, negb_orb. reflexivity.
    + destruct (decide (key ∈ keys)) as [Hk|Hk].
      * rewrite bool_decide_eq_true_2 by exact Hk. specialize (Hrest key Hk Hin El t Es). unfold covers. cbn [tr_Min tr_Max].
        replace ((mn <=? t) && (mx >=? t)) with false by lia. cbn. rewrite andb_true_r. reflexivity.
      * rewrite bool_decide_eq_false_2 by exact Hk. cbn. rewrite andb_true_r. reflexivity.
Qed.

(** Deleting changes neither the bytes nor the recorded ranges of the file. *)
Lemma Delete_frame keys d x d' :
  ix_Delete keys d = (x, d') ->
  ix_minKey d' = ix_minKey d /\ ix_maxKey d' = ix_maxKey d /\ ix_minTime d' = ix_minTime d /\ ix_maxTime d' = ix_maxTime d /\ ix_b d' = ix_b d.
Proof.
  unfold ix_Delete. intros H. destruct keys; [injection H as _ <-; auto 6|].
  destruct (delete_loop _ _ _); injection H as _ <-; auto 6.
Qed.

Lemma DeleteRange_frame keys mn mx d x d' :
  ix_DeleteRange keys mn mx d = (x, d') ->
  ix_minKey d' = ix_minKey d /\ ix_maxKey d' = ix_maxKey d /\ ix_minTime d' = ix_minTime d /\ ix_maxTime d' = ix_maxTime d /\ ix_b d' = ix_b d.
Proof.
  unfold ix_DeleteRange. intros H. destruct keys as [|k0 ks]; [injection H as _ <-; auto 6|].
  destruct (_ && _); [eapply Delete_frame; exact H|]. destruct (_ || _); [injection H as _ <-; auto 6|].
  destruct (delete_range_keys _ _ _ _ _ _) as [[full ts]|e|]; [|injection H as _ <-; auto 6|injection H as _ <-; auto 6].
  destruct (ix_Delete full d) as [r d1] eqn:E. pose proof (Delete_frame _ _ _ _ E) as F. destruct r; injection H as _ <-; exact F.
Qed.

End Delete.
