(* ===== verification/Tombstone.v ===== *)
(** * Tombstone files

    [tsdb/engine/tsm1/tombstone.go]: the deletions of a TSM file, in a file beside
    it.  Three versions of the format are read, the third is written.  The reader of the
    second version hands out keys that are slices of the buffer it goes on to
    read into: buffers live in a heap, and a key is a reference.  [compress/gzip]
    is a parameter: what a stream decompresses to, and whether it ends cleanly. *)

From S2P Require Import Prelude Varint Blocks Bytes TSMWriter TSMIndex TSMIndexFacts.

(** How reading a compressed stream ends: at its end ([io.EOF]), in the middle of
    a file that was cut off ([io.ErrUnexpectedEOF]), or with another error, as of
    a wrong checksum. *)
Inductive gz_end := GzEOF | GzTruncated | GzCorrupt.

Class Gzip := {
  gzip : list Z -> list Z;
  (** [None]: no gzip header; otherwise the bytes that can be read and how the
      stream then ends. *)
  gunzip : list Z -> option (list Z * gz_end) }.

Class GzipLaws `{GZ : Gzip} : Prop := { gunzip_gzip b : gunzip (gzip b) = Some (b, GzEOF) }.

Definition headerSize : Z := 4.
Definition v2header : Z := 0x1502.
Definition v3header : Z := 0x1503.

(** A key of its own, or the first bytes of a buffer. *)
Inductive keyref := KOwn (k : list Z) | KBuf (buf len : nat).

Record Tombstone := mkTS { ts_Key : keyref; ts_Min : Z; ts_Max : Z }.

Definition heap : Type := list (list Z).

Definition key_of (h : heap) (k : keyref) : list Z :=
  match k with
  | KOwn k => k
  | KBuf b n => take n (default [] (h !! b))
  end.

Definition min_int64 : Z := - 2 ^ 63.
Definition max_int64 : Z := 2 ^ 63 - 1.

Section Walk.
Context {S : Type}.
(** The callback, with the heap at the time of the call; it never fails. *)
Variable fn : heap -> Tombstone -> S -> S.

(** ** Version 1: a key per line *)

(** [bufio.Scanner] on lines: the lines, and whether one was too long. *)
Fixpoint split_lines (cur b : list Z) : list (list Z) :=
  match b with
  | [] => match cur with [] => [] | _ => [cur] end
  | x :: b' => if x =? 10 then cur :: split_lines [] b' else split_lines (cur ++ [x]) b'
  end.

(** A trailing carriage return is not part of the line. *)
Definition drop_cr (l : list Z) : list Z :=
  match last l with Some 13 => take (length l - 1) l | _ => l end.

Definition MaxScanTokenSize : Z := 65536.

Fixpoint walk_lines (ls : list (list Z)) (s : S) : res werr unit * S :=
  match ls with
  | [] => (Ok tt, s)
  | l :: ls' =>
      if MaxScanTokenSize <=? zlen l then (Err (ErrFormat "bufio.Scanner: token too long"), s)
      else match drop_cr l with
           | [] => walk_lines ls' s
           | line => walk_lines ls' (fn [] (mkTS (KOwn line) min_int64 max_int64) s)
           end
  end.

Definition readTombstoneV1 (b : list Z) (s : S) : res werr unit * S := walk_lines (split_lines [] b) s.

(** ** Version 2: binary *)

(** [f.Read] into the first [k] bytes of a buffer: as many as there are. *)
Definition read_into (k : nat) (buf rest : list Z) : option (list Z * list Z) :=
  match k, rest with
  | O, _ => Some (buf, rest)
  | _, [] => None
  | _, _ => let got := take k rest in Some (got ++ drop (length got) buf, drop k rest)
  end.

(** The loop; [buf] is the current buffer, number [g] of the heap.  Every round
    adds at least 20 to [n]. *)
Fixpoint walk_v2 (fuel : nat) (size n : Z) (h : heap) (g : nat) (rest : list Z) (s : S) : res werr unit * S :=
  if n >=? size then (Ok tt, s)
  else
    match fuel with
    | O => (Err (ErrFormat "out of fuel"), s)
    | Datatypes.S fuel' =>
        let eof := (Err (ErrFormat "EOF"), s) in
        match read_into 4 (default [] (h !! g)) rest with
        | None => eof
        | Some (buf, rest) =>
            let keyLen := Z.to_nat (be_dec (take 4 buf)) in
            let '(h, g, buf) := if (length buf <? keyLen)%nat then (<[g := buf]> h ++ [repeat 0 keyLen], length h, repeat 0 keyLen)
                                else (h, g, buf) in
            match read_into keyLen buf rest with
            | None => eof
            | Some (buf, rest) =>
                match read_into 8 buf rest with
                | None => eof
                | Some (buf, rest) =>
                    let min := i64 (be_dec (take 8 buf)) in
                    match read_into 8 buf rest with
                    | None => eof
                    | Some (buf, rest) =>
                        let max := i64 (be_dec (take 8 buf)) in
                        let h := <[g := buf]> h in
                        walk_v2 fuel' size (n + 4 + Z.of_nat keyLen + 8 + 8) h g rest (fn h (mkTS (KBuf g keyLen) min max) s)
                    end
                end
            end
        end
    end.

Definition readTombstoneV2 (b : list Z) (s : S) : res werr unit * S :=
  walk_v2 (length b) (zlen b) 4 [repeat 0 4096] 0 (drop 4 b) s.

(** ** Version 3: the same, compressed, and keys are copied *)

(** [io.ReadFull]: the bytes, or [io.EOF] when there are none, or
    [io.ErrUnexpectedEOF] when there are too few or the file was cut off, or
    another error of the stream. *)
Inductive read_result := Got (b rest : list Z) | AtEOF | UnexpectedEOF | ReadErr.

Definition ReadFull (k : nat) (rest : list Z) (fin : gz_end) : read_result :=
  if (k <=? length rest)%nat then Got (take k rest) (drop k rest)
  else match fin with
       | GzEOF => match rest with [] => AtEOF | _ => UnexpectedEOF end
       | GzTruncated => UnexpectedEOF
       | GzCorrupt => ReadErr
       end.

(** The error of a read that is not expected to meet the end. *)
Definition read_error (r : read_result) : werr :=
  match r with
  | ReadErr => ErrFormat "gzip: invalid stream"
  | AtEOF => ErrFormat "EOF"
  | _ => ErrFormat "unexpected EOF"
  end.

(** Both ends of a stream end the walk without error where a length is read: a
    file cut off there loses the tombstones behind it silently. *)
Fixpoint walk_v3 (fuel : nat) (fin : gz_end) (rest : list Z) (s : S) : res werr unit * S :=
  match fuel with
  | O => (Err (ErrFormat "out of fuel"), s)
  | Datatypes.S fuel' =>
      match ReadFull 4 rest fin with
      | AtEOF | UnexpectedEOF => (Ok tt, s)
      | ReadErr => (Err (read_error ReadErr), s)
      | Got lb rest =>
          match ReadFull (Z.to_nat (be_dec lb)) rest fin with
          | Got key rest =>
              match ReadFull 8 rest fin with
              | Got mn rest =>
                  match ReadFull 8 rest fin with
                  | Got mx rest =>
                      walk_v3 fuel' fin rest (fn [] (mkTS (KOwn key) (i64 (be_dec mn)) (i64 (be_dec mx))) s)
                  | r => (Err (read_error r), s)
                  end
              | r => (Err (read_error r), s)
              end
          | r => (Err (read_error r), s)
          end
      end
  end.

Definition readTombstoneV3 `{GZ : Gzip} (b : list Z) (s : S) : res werr unit * S :=
  match gunzip (drop 4 b) with
  | None => (Err (ErrFormat "gzip: invalid header"), s)
  | Some (rest, fin) => walk_v3 (Datatypes.S (length rest)) fin rest s
  end.

(** ** Walk *)

(** The contents of the file, if there is one. *)
Definition Walk `{GZ : Gzip} (file : option (list Z)) (s : S) : res werr unit * S :=
  match file with
  | None => (Ok tt, s)
  | Some [] => readTombstoneV1 [] s
  | Some b =>
      let header := be_dec (take 4 (take 4 b ++ repeat 0 4)) in
      if header =? v3header then readTombstoneV3 b s
      else if header =? v2header then readTombstoneV2 b s
      else readTombstoneV1 b s
  end.

End Walk.

(** ** Recording deletions *)

Section Tombstoner.
Context `{GZ : Gzip}.

(** The tombstones of the file; the last heap seen is what the keys refer to. *)
Definition readTombstone (file : option (list Z)) : res werr (list (list Z * Z * Z)) :=
  match Walk (fun h t (acc : heap * list Tombstone) => (h, acc.2 ++ [t])) file ([], []) with
  | (Ok _, (h, l)) => Ok (map (fun t => (key_of h (ts_Key t), ts_Min t, ts_Max t)) l)
  | (Err e, _) => Err e
  | (Panic, _) => Panic
  end.

Definition enc_tombstone (t : list Z * Z * Z) : list Z :=
  let '(k, mn, mx) := t in be32 (u32 (zlen k)) ++ k ++ be64 (u64 mn) ++ be64 (u64 mx).

(** The contents [writeTombstone] renames into place. *)
Definition tombstone_file (l : list (list Z * Z * Z)) : list Z := be32 v3header ++ gzip (concat (map enc_tombstone l)).

(** [AddRange] on the tombstone file; [path] tells whether the TSM file has been
    written, [io_ok] whether the system calls of [writeTombstone] succeed: the new file
    replaces the old one by a rename.  An error of reading the old file is
    dropped. *)
Definition AddRange (path io_ok : bool) (keys : list (list Z)) (mn mx : Z) (file : option (list Z)) : res werr unit * option (list Z) :=
  match keys with
  | [] => (Ok tt, file)
  | _ =>
      if negb path then (Ok tt, file)
      else match readTombstone file with
           | Ok l => if io_ok then (Ok tt, Some (tombstone_file (l ++ map (fun k => (k, mn, mx)) keys)))
                     else (Err (ErrFormat "write"), file)
           | Err _ => (Ok tt, file)
           | Panic => (Panic, file)
           end
  end.

Definition Tombstoner_Add (path io_ok : bool) (keys : list (list Z)) (file : option (list Z)) : res werr unit * option (list Z) :=
  AddRange path io_ok keys min_int64 max_int64 file.

Definition Tombstoner_Delete (file : option (list Z)) : option (list Z) := None.

Definition HasTombstones (file : option (list Z)) : bool := match file with Some b => 0 <? u32 (zlen b) | None => false end.

End Tombstoner.

(** * What tombstone files preserve

    The third version round-trips and accumulates; the second version's keys
    come back overwritten; and a file that cannot be read makes a deletion
    that reports success leave no trace. *)

Definition tomb_ok (t : list Z * Z * Z) : Prop :=
  let '(k, mn, mx) := t in zlen k < 2 ^ 32 /\ is_i64 mn /\ is_i64 mx.

Definition own (t : list Z * Z * Z) : Tombstone := let '(k, mn, mx) := t in mkTS (KOwn k) mn mx.

Section Facts.
Context `{GZ : Gzip} {GL : GzipLaws}.

Lemma ReadFull_app k b rest fin : length b = k -> ReadFull k (b ++ rest) fin = Got b rest.
Proof.
  intros <-. unfold ReadFull. rewrite length_app. destruct (Nat.leb_spec (length b) (length b + length rest)); [|lia].
  rewrite take_app_length, drop_app_length. reflexivity.
Qed.

Lemma walk_v3_enc {S} (fn : heap -> Tombstone -> S -> S) l fuel s :
  Forall tomb_ok l -> (length (concat (map enc_tombstone l)) < fuel)%nat ->
  walk_v3 fn fuel GzEOF (concat (map enc_tombstone l)) s = (Ok tt, fold_left (fun s t => fn [] (own t) s) l s).
Proof.
  intros Hl. revert fuel s. induction Hl as [|[[k mn] mx] l (Hk & Hmn & Hmx) Hl IH]; intros fuel s Hf; destruct fuel as [|fuel]; try (cbn in Hf; lia).
  - reflexivity.
  - cbn [map concat walk_v3 enc_tombstone] in *. rewrite <- !app_assoc. rewrite !length_app in Hf. pose proof (zlen_nonneg k).
    unfold u32. rewrite Z.mod_small by lia.
    rewrite (ReadFull_app 4) by apply length_be32. rewrite de_be32 by lia.
    rewrite ReadFull_app by (unfold zlen; lia).
    rewrite (ReadFull_app 8) by apply length_be64. rewrite (ReadFull_app 8) by apply length_be64. rewrite !i64_de_be64 by assumption.
    rewrite IH by (rewrite length_be64 in Hf; lia). reflexivity.
Qed.


Lemma Walk_v3 {S} (fn : heap -> Tombstone -> S -> S) l s :
  Forall tomb_ok l -> Walk fn (Some (tombstone_file l)) s = (Ok tt, fold_left (fun s t => fn [] (own t) s) l s).
Proof.
  intros Hl. unfold Walk, tombstone_file. set (z := gzip _).
  change (be32 v3header ++ z) with (0 :: [0; 21; 3] ++ z). cbv iota.
  change (take 4 (0 :: [0; 21; 3] ++ z)) with [0; 0; 21; 3]. change (be_dec (take 4 ([0; 0; 21; 3] ++ repeat 0 4)) =? v3header) with true. cbv iota.
  unfold readTombstoneV3. change (drop 4 (0 :: [0; 21; 3] ++ z)) with z. unfold z. rewrite gunzip_gzip. apply walk_v3_enc; [exact Hl|lia].
Qed.

Lemma readTombstone_v3 l : Forall tomb_ok l -> readTombstone (Some (tombstone_file l)) = Ok l.
Proof.
  intros Hl. unfold readTombstone. rewrite (Walk_v3 _ _ _ Hl).
  assert (forall acc h, exists h', fold_left (fun (s : heap * list Tombstone) t => ([], s.2 ++ [own t])) l (h, acc) = (h', acc ++ map own l)) as F.
  { clear Hl. induction l as [|t l IH]; intros acc h; cbn; [exists h; rewrite app_nil_r; reflexivity|].
    destruct (IH (acc ++ [own t]) []) as [h' E]. exists h'. etransitivity; [exact E|]. rewrite <- app_assoc. reflexivity. }
  destruct (F [] []) as [h' E]. match goal with |- context [fold_left ?f l ?a] => replace (fold_left f l a) with (h', map own l) by (symmetry; exact E) end.
  f_equal. rewrite map_map. clear.
  induction l as [|[[k mn] mx] l IH]; cbn; [reflexivity|]. rewrite IH. reflexivity.
Qed.

(** The tombstones a file of the current format, or no file, stands for. *)
Definition file_holds (file : option (list Z)) (l : list (list Z * Z * Z)) : Prop :=
  Forall tomb_ok l /\ match file with None => l = [] | Some b => b = tombstone_file l end.

Lemma readTombstone_holds file l : file_holds file l -> readTombstone file = Ok l.
Proof. intros [Hl H]. destruct file as [b|]; subst; [apply readTombstone_v3; exact Hl|reflexivity]. Qed.

Lemma AddRange_holds file l keys mn mx :
  file_holds file l -> keys <> [] -> Forall (fun k => zlen k < 2 ^ 32) keys -> is_i64 mn -> is_i64 mx ->
  exists file', AddRange true true keys mn mx file = (Ok tt, file') /\ file_holds file' (l ++ map (fun k => (k, mn, mx)) keys).
Proof.
  intros H Hne Hk Hmn Hmx. unfold AddRange. rewrite (readTombstone_holds _ _ H). destruct keys as [|k0 ks]; [contradiction|].
  eexists. split; [reflexivity|]. split; [|reflexivity]. apply Forall_app. split; [apply H|]. rewrite Forall_map.
  eapply Forall_impl; [exact Hk|]. intros k Hlen. split; auto.
Qed.

(** A file cut off within a length shows the tombstones before it, and no error. *)
Example truncated_tombstones :
  walk_v3 (fun _ t l => l ++ [(key_of [] (ts_Key t), ts_Min t, ts_Max t)]) 9 GzTruncated (enc_tombstone ([97], 1, 2) ++ [0; 0]) [] = (Ok tt, [([97], 1, 2)])
  /\ (walk_v3 (fun _ _ n => S n) 9 GzTruncated (enc_tombstone ([97], 1, 2) ++ [0; 0; 0; 1]) 0%nat).1 = Err (ErrFormat "unexpected EOF").
Proof. split; vm_compute; reflexivity. Qed.

(** ** Version 2 *)

Lemma read_into_app k buf b rest :
  length b = k -> b <> [] -> read_into k buf (b ++ rest) = Some (b ++ drop k buf, rest).
Proof.
  intros <- Hne. unfold read_into. destruct b as [|x b]; [contradiction|]. cbn [length app]. cbv zeta.
  change (x :: b ++ rest) with ((x :: b) ++ rest). change (S (length b)) with (length (x :: b)).
  rewrite take_app_length, drop_app_length. reflexivity.
Qed.

Definition v2_file (k : list Z) (mn mx : Z) : list Z := be32 v2header ++ be32 (zlen k) ++ k ++ be64 (u64 mn) ++ be64 (u64 mx).

(** A deletion of version 2 comes back under a key whose first eight bytes are
    the end of the deleted range. *)
Lemma v2_key_overwritten k mn mx :
  (8 <= length k <= 4096)%nat -> is_i64 mn -> is_i64 mx ->
  readTombstone (Some (v2_file k mn mx)) = Ok [(be64 (u64 mx) ++ drop 8 k, mn, mx)].
Proof.
  intros Hk Hmn Hmx. unfold readTombstone, Walk. unfold v2_file at 1. change (be32 v2header) with [0; 0; 21; 2] at 1. cbn [app]. cbv iota.
  change (be_dec (take 4 (take 4 (v2_file k mn mx) ++ repeat 0 4))) with v2header. change (v2header =? v3header) with false. rewrite Z.eqb_refl. cbv iota.
  assert (zlen (v2_file k mn mx) = 24 + zlen k) as Hz by (unfold v2_file; autorewrite with zlen; lia).
  unfold readTombstoneV2. assert (exists f, length (v2_file k mn mx) = S f) as [f ->] by (exists (length (v2_file k mn mx) - 1)%nat; unfold zlen in Hz; lia).
  rewrite Hz. change (drop 4 (v2_file k mn mx)) with (be32 (zlen k) ++ k ++ be64 (u64 mn) ++ be64 (u64 mx)).
  assert (0 <= zlen k <= 4096) as Hzk by (unfold zlen; lia). remember (repeat 0 4096) as buf0 eqn:Eb.
  assert (length buf0 = 4096%nat) as Lb by (rewrite Eb; apply repeat_length). clear Eb.
  cbn [walk_v2]. rewrite Z.geb_leb. destruct (Z.leb_spec (24 + zlen k) 4); [lia|]. cbn [lookup list_lookup default from_option]. change (id buf0) with buf0.
  rewrite read_into_app by (apply length_be32 || discriminate). rewrite take_app_length' by (symmetry; apply length_be32). rewrite de_be32 by lia.
  assert (Z.to_nat (zlen k) = length k) as Lk by (unfold zlen; lia). rewrite Lk.
  assert (length (be32 (zlen k) ++ drop 4 buf0) = 4096%nat) as -> by (rewrite length_app, length_be32, length_drop; lia).
  destruct (Nat.ltb_spec 4096 (length k)); [lia|]. cbv iota beta.
  rewrite read_into_app by (reflexivity || (intros ->; cbn in Hk; lia)).
  rewrite read_into_app by (apply length_be64 || discriminate).
  replace (be64 (u64 mx)) with (be64 (u64 mx) ++ []) at 1 by apply app_nil_r.
  rewrite read_into_app by (apply length_be64 || discriminate). rewrite !take_app_length' by (symmetry; apply length_be64). rewrite !i64_de_be64 by assumption.
  rewrite drop_app_length' by (symmetry; apply length_be64). cbn [list_insert insert].
  set (buf := be64 (u64 mx) ++ drop 8 (k ++ _)).
  assert (forall g (st : heap * list Tombstone), walk_v2 (fun h t acc => (h, acc.2 ++ [t])) g (24 + zlen k) (4 + 4 + Z.of_nat (length k) + 8 + 8) [buf] 0 [] st = (Ok tt, st)) as W.
  { intros g st. destruct g; cbn [walk_v2]; rewrite Z.geb_leb; (destruct (Z.leb_spec (24 + zlen k) (4 + 4 + Z.of_nat (length k) + 8 + 8)); [reflexivity|unfold zlen in *; lia]). }
  rewrite W. cbn. do 2 f_equal. unfold buf. rewrite drop_app_le by lia. rewrite app_assoc, take_app_length'; [reflexivity|].
  rewrite length_app, length_be64, length_drop. lia.
Qed.

(** A tombstone file that cannot be read makes a deletion report success and
    record nothing. *)
Lemma AddRange_lost b e io keys mn mx :
  readTombstone (Some b) = Err e -> AddRange true io keys mn mx (Some b) = (Ok tt, Some b).
Proof. intros H. unfold AddRange. rewrite H. destruct keys; reflexivity. Qed.

Example AddRange_lost_ex : let b := be32 v2header ++ be32 9 ++ [97] in
  readTombstone (Some b) = Err (ErrFormat "EOF") /\ AddRange true true [[98]] 0 9 (Some b) = (Ok tt, Some b).
Proof. split; vm_compute; reflexivity. Qed.

End Facts.
