(* ===== verification/TSMReader.v ===== *)
(** * Reading TSM files

    [tsdb/engine/tsm1/reader.go]: the accessor of a mapped file, [TSMReader] with
    its deletions and tombstones, and [BlockIterator].  The mapped file is its
    bytes; [None] once it is unmapped. *)

From S2P Require Import Prelude Values Bytes Varint Blocks TSMWriter TSMIndex Tombstone.

Section Reader.
Context {V D : Type} `{BC : BlockCodec V D} `{BU : BytesUtil} `{GZ : Gzip}.

(** ** The accessor *)

Record mmapAccessor := mkMA { ma_b : option (list Z); ma_access : Z; ma_free : Z }.

Definition mapped (m : mmapAccessor) : list Z := default [] (ma_b m).

Definition incAccess (m : mmapAccessor) : mmapAccessor := mkMA (ma_b m) (u64 (ma_access m + 1)) (ma_free m).

(** The index of the file [b]. *)
Definition ma_init (b : list Z) : res werr (mmapAccessor * indirectIndex) :=
  match verifyVersion b with
  | Err e => Err e
  | Panic => Panic
  | Ok _ =>
      if zlen b <? 8 then Err (ErrFormat "mmapAccessor: byte slice too small for indirectIndex") else
      let indexOfsPos := zlen b - 8 in
      match sub b indexOfsPos (indexOfsPos + 8) with
      | None => Panic
      | Some f =>
          let indexStart := be_dec f in
          if indexStart >=? u64 indexOfsPos then Err (ErrFormat "mmapAccessor: invalid indexStart") else
          match sub b indexStart indexOfsPos with
          | None => Panic
          | Some ib =>
              match ix_UnmarshalBinary ib NewIndirectIndex with
              | (Ok _, d) => Ok (mkMA (Some b) 1 1, d)
              | (Err e, _) => Err e
              | (Panic, _) => Panic
              end
          end
      end
  end.

(** Whether the pages are given back to the system. *)
Definition ma_free_pages (m : mmapAccessor) : bool * mmapAccessor :=
  if (ma_free m =? 0) && (ma_access m =? 0) then (false, m)
  else if negb (ma_access m =? ma_free m) then (false, mkMA (ma_b m) (ma_access m) (ma_access m))
  else (true, mkMA (ma_b m) 0 0).

Definition ma_close (m : mmapAccessor) : mmapAccessor := mkMA None (ma_access m) (ma_free m).

(** The decoded values, an error, or a panic. *)
Definition decoded (r : option (list V * option tsm_error) * D) : res werr (list V) * D :=
  match r with
  | (Some (l, None), q) => (Ok l, q)
  | (Some (_, Some e), q) => (Err (ErrBlock e), q)
  | (None, q) => (Panic, q)
  end.

Definition block_bytes (b : list Z) (e : IndexEntry) : option (list Z) :=
  sub b (i64 (Offset e + 4)) (i64 (Offset e + Size e)).

Definition readBlock (m : mmapAccessor) (e : IndexEntry) (q : D) : res werr (list V) * D :=
  if zlen (mapped m) <? i64 (Offset e + Size e) then (Err ErrTSMClosed, q)
  else match block_bytes (mapped m) e with
       | None => (Panic, q)
       | Some block => decoded (bc_Decode block q)
       end.

Definition readBytes (m : mmapAccessor) (e : IndexEntry) : res werr (Z * list Z) :=
  if zlen (mapped m) <? i64 (Offset e + Size e) then Err ErrTSMClosed
  else match sub (mapped m) (Offset e) (i64 (Offset e + 4)), block_bytes (mapped m) e with
       | Some c, Some block => Ok (be_dec c, block)
       | _, _ => Panic
       end.

(** The blocks of a key in turn, without what is deleted. *)
Fixpoint readAll_loop (b : list Z) (tombstones : list TimeRange) (blocks : list IndexEntry) (values : list V) (q : D)
    : res werr (list V) * D :=
  match blocks with
  | [] => (Ok values, q)
  | e :: blocks' =>
      if existsb (fun t => (tr_Min t <=? MinTime e) && (tr_Max t >=? MaxTime e)) tombstones
      then readAll_loop b tombstones blocks' values q
      else match block_bytes b e with
           | None => (Panic, q)
           | Some block =>
               match decoded (bc_Decode block q) with
               | (Ok temp, q') =>
                   let temp := fold_left (fun l t => Exclude bc_time l (tr_Min t) (tr_Max t)) tombstones temp in
                   readAll_loop b tombstones blocks' (values ++ temp) q'
               | r => r
               end
           end
  end.

Definition readAll (m : mmapAccessor) (d : indirectIndex) (key : list Z) (q : D) : res werr (list V) * D :=
  match ix_Entries d key with
  | Ok blocks => readAll_loop (mapped m) (ix_TombstoneRange d key) blocks [] q
  | Err e => (Err e, q)
  | Panic => (Panic, q)
  end.

Definition ma_read (m : mmapAccessor) (d : indirectIndex) (key : list Z) (t : Z) (q : D) : res werr (list V) * D :=
  match ix_Entry d key t with
  | Ok None => (Ok [], q)
  | Ok (Some e) => readBlock m e q
  | Err e => (Err e, q)
  | Panic => (Panic, q)
  end.

(** ** The reader *)

(** [rd_tomb] is the tombstone file beside the TSM file. *)
Record TSMReader := mkRD { rd_refs : Z; rd_acc : mmapAccessor; rd_index : indirectIndex; rd_tomb : option (list Z); rd_size : Z }.

Definition set_index (d : indirectIndex) (r : TSMReader) : TSMReader := mkRD (rd_refs r) (rd_acc r) d (rd_tomb r) (rd_size r).
Definition set_tomb (f : option (list Z)) (r : TSMReader) : TSMReader := mkRD (rd_refs r) (rd_acc r) (rd_index r) f (rd_size r).

(** *** Applying the tombstones *)

(** The index, the keys collected and the tombstone before; [None] after a
    panic in the index. *)
Record apply_state := mkAS { as_index : option indirectIndex; as_batch : list keyref; as_prev : Z * Z }.

Definition batch_delete (h : heap) (batch : list keyref) (r : Z * Z) (o : option indirectIndex) : option indirectIndex :=
  match o with
  | Some d => match ix_DeleteRange (map (key_of h) batch) r.1 r.2 d with (Ok _, d') => Some d' | _ => None end
  | None => None
  end.

Definition batchSize : nat := 4096.

Definition apply_one (h : heap) (ts : Tombstone) (s : apply_state) : apply_state :=
  let cur := (ts_Min ts, ts_Max ts) in
  let '(d, batch) :=
    match as_batch s with
    | [] => (as_index s, [])
    | _ => if bool_decide (as_prev s = cur) then (as_index s, as_batch s)
           else (batch_delete h (as_batch s) (as_prev s) (as_index s), [])
    end in
  let batch := batch ++ [ts_Key ts] in
  let '(d, batch) := if (batchSize <=? length batch)%nat then (batch_delete h batch (as_prev s) d, []) else (d, batch) in
  mkAS d batch cur.

(** The heap of the last call is what the remaining keys are read from. *)
Definition applyTombstones (file : option (list Z)) (d : indirectIndex) : res werr unit * option indirectIndex :=
  match Walk (fun h ts (s : heap * apply_state) => (h, apply_one h ts s.2)) file ([], mkAS (Some d) [] (0, 0)) with
  | (Ok _, (h, s)) =>
      (Ok tt, match as_batch s with [] => as_index s | _ => batch_delete h (as_batch s) (as_prev s) (as_index s) end)
  | (Err e, (_, s)) => (Err (ErrFormat "init: read tombstones"), as_index s)
  | (Panic, (_, s)) => (Panic, as_index s)
  end.

Definition NewTSMReader (b : list Z) (tomb : option (list Z)) : res werr TSMReader :=
  match ma_init b with
  | Ok (m, d) =>
      match applyTombstones tomb d with
      | (Ok _, Some d') => Ok (mkRD 0 m d' tomb (zlen b))
      | (Err e, Some _) => Err e
      | _ => Panic
      end
  | Err e => Err e
  | Panic => Panic
  end.

(** *** Deleting *)

Definition rd_DeleteRange (io_ok : bool) (keys : list (list Z)) (mn mx : Z) (r : TSMReader) : res werr unit * TSMReader :=
  match head keys, last keys with
  | Some minKey, Some maxKey =>
      if negb (ix_OverlapsKeyRange (rd_index r) minKey maxKey) then (Ok tt, r)
      else if negb (ix_OverlapsTimeRange (rd_index r) mn mx) then (Ok tt, r)
      else match AddRange true io_ok keys mn mx (rd_tomb r) with
           | (Ok _, f) =>
               match ix_DeleteRange keys mn mx (rd_index r) with
               | (x, d) => (x, set_index d (set_tomb f r))
               end
           | (Err e, f) => (Err e, set_tomb f r)
           | (Panic, f) => (Panic, set_tomb f r)
           end
  | _, _ => (Ok tt, r)
  end.

Definition rd_Delete (io_ok : bool) (keys : list (list Z)) (r : TSMReader) : res werr unit * TSMReader :=
  match Tombstoner_Add true io_ok keys (rd_tomb r) with
  | (Ok _, f) => match ix_Delete keys (rd_index r) with (x, d) => (x, set_index d (set_tomb f r)) end
  | (Err e, f) => (Err e, set_tomb f r)
  | (Panic, f) => (Panic, set_tomb f r)
  end.

(** *** References *)

Definition set_refs (n : Z) (r : TSMReader) : TSMReader := mkRD n (rd_acc r) (rd_index r) (rd_tomb r) (rd_size r).
Definition rd_Ref (r : TSMReader) : TSMReader := set_refs (i64 (rd_refs r + 1)) r.
Definition rd_Unref (r : TSMReader) : TSMReader := set_refs (i64 (rd_refs r - 1)) r.
Definition rd_InUse (r : TSMReader) : bool := rd_refs r >? 0.

Definition rd_Close (r : TSMReader) : bool * TSMReader :=
  if rd_InUse r then (false, r) else (true, mkRD (rd_refs r) (ma_close (rd_acc r)) (rd_index r) (rd_tomb r) (rd_size r)).

(** Whether the files are removed. *)
Definition rd_Remove (r : TSMReader) : bool * TSMReader :=
  if rd_InUse r then (false, r) else (true, set_tomb (Tombstoner_Delete (rd_tomb r)) r).

Definition rd_ReadAll (r : TSMReader) (key : list Z) (q : D) : res werr (list V) * D := readAll (rd_acc r) (rd_index r) key q.
Definition rd_Read (r : TSMReader) (key : list Z) (t : Z) (q : D) : res werr (list V) * D := ma_read (rd_acc r) (rd_index r) key t q.

(** ** Iterating over the blocks *)

Record BlockIterator := mkBI { bi_i : Z; bi_n : Z; bi_key : list Z; bi_typ : Z; bi_entries : list IndexEntry; bi_err : bool }.

Definition rd_BlockIterator (r : TSMReader) : BlockIterator := mkBI 0 (ix_KeyCount (rd_index r)) [] 0 [] false.

Definition bi_PeekNext (r : TSMReader) (b : BlockIterator) : res werr (list Z) :=
  if 1 <? zlen (bi_entries b) then Ok (bi_key b)
  else if 1 <? bi_n b - bi_i b then res_map fst (ix_KeyAt (rd_index r) (bi_i b + 1))
  else Ok [].

Definition bi_Next (r : TSMReader) (b : BlockIterator) : res werr bool * BlockIterator :=
  if bi_err b then (Ok false, b)
  else if (bi_n b - bi_i b =? 0) && (zlen (bi_entries b) =? 0) then (Ok false, b)
  else
    let rest := drop 1 (bi_entries b) in
    let b1 := mkBI (bi_i b) (bi_n b) (bi_key b) (bi_typ b) rest (bi_err b) in
    if 0 <? zlen rest then (Ok true, b1)
    else if 0 <? bi_n b - bi_i b then
      match ix_Key (rd_index r) (bi_i b) with
      | Ok (key, typ, es) =>
          if negb (bi_n b =? ix_KeyCount (rd_index r)) then (Ok false, mkBI (bi_i b + 1) (bi_n b) key typ es true)
          else (Ok (0 <? zlen es), mkBI (bi_i b + 1) (bi_n b) key typ es false)
      | Err e => (Err e, b1)
      | Panic => (Panic, b1)
      end
    else (Ok false, b1).

(** Key, start, end, type, checksum and bytes of the current block. *)
Definition bi_Read (r : TSMReader) (b : BlockIterator) : res werr (list Z * Z * Z * Z * Z * list Z) :=
  if bi_err b then Err (ErrFormat "delete during iteration")
  else match bi_entries b with
       | [] => Panic
       | e :: _ => match readBytes (rd_acc r) e with
                   | Ok (crc, block) => Ok (bi_key b, MinTime e, MaxTime e, bi_typ b, crc, block)
                   | Err x => Err x
                   | Panic => Panic
                   end
       end.

End Reader.
