(* ===== verification/TSMFile.v ===== *)
(** * TSM files: what is written is read

    The writer of [writer.go] and the reader of [reader.go] together.  A file is
    specified by the series it holds: keys in order, each with its blocks of
    values. *)

From S2P Require Import Prelude Bytes Values Varint Blocks TSMWriter TSMIndex TSMIndexFacts TSMDelete Tombstone TSMReader.

(** Excluding ranges one after the other keeps what none covers. *)
Lemma exclude_ranges {V} (U : V -> Z) ts vs :
  increasing U vs ->
  fold_left (fun l t => Exclude U l (tr_Min t) (tr_Max t)) ts vs = List.filter (fun v => negb (covered ts (U v))) vs.
Proof.
  revert vs. induction ts as [|t ts IH]; intros vs H; cbn [fold_left].
  - symmetry. apply filter_all, Forall_true. reflexivity.
  - rewrite (proj2 (include_exclude_filter U vs (tr_Min t) (tr_Max t) H)), IH by (apply increasing_filter; exact H).
    rewrite filter_filter. apply List.filter_ext. intros v. unfold in_range, covered. cbn [existsb]. unfold covers at 2.
    rewrite negb_orb, Z.geb_leb. reflexivity.
Qed.

Section File.
Context {V D : Type} `{BC : BlockCodec V D} {BL : BlockCodecLaws BC}.
Context (Sort_entries : list IndexEntry -> list IndexEntry).

(** ** What a file should hold *)

(** The blocks of a key, in the order they are written. *)
Definition column : Type := list Z * list (list V).

Definition span (vs : list V) : option (Z * Z) :=
  match head vs, last vs with Some a, Some b => Some (bc_time a, bc_time b) | _, _ => None end.

Definition block_ok (vs : list V) : Prop :=
  vs <> [] /\ bc_storable vs /\ increasing bc_time vs /\ Forall (fun v => is_i64 (bc_time v)) vs.

Definition start_of (vs : list V) : Z := match head vs with Some v => bc_time v | None => 0 end.
Definition end_of (vs : list V) : Z := match last vs with Some v => bc_time v | None => 0 end.

(** Blocks follow each other in time. *)
Definition column_ok (c : column) : Prop :=
  0 < zlen c.1 <= maxKeyLength /\ 0 < zlen c.2 <= maxIndexEntries /\ Forall block_ok c.2
  /\ StronglySorted (fun a b => end_of a < start_of b) c.2.

Definition columns_ok (l : list column) : Prop :=
  Forall column_ok l /\ StronglySorted (fun a b => bytes_lt a.1 b.1) l.

Definition block_size (vs : list V) : Z := match bc_Encode vs with Ok b => zlen b + 4 | _ => 0 end.
Definition data_size (l : list column) : Z := fold_right (fun c n => fold_right (fun vs m => block_size vs + m) 0 c.2 + n) 0 l.
Definition index_size (l : list column) : Z := fold_right (fun c n => 5 + zlen c.1 + 28 * zlen c.2 + n) 0 l.

(** ** Writing it *)

Fixpoint write_blocks (key : list Z) (vss : list (list V)) : TM unit :=
  match vss with
  | [] => ret tt
  | vs :: vss' => do* tw_Write Sort_entries key vs in write_blocks key vss'
  end.

Fixpoint write_columns (l : list column) : TM unit :=
  match l with
  | [] => ret tt
  | (key, vss) :: l' => do* write_blocks key vss in write_columns l'
  end.

Definition write_file (l : list column) : TM unit :=
  do* write_columns l in tw_WriteIndex Sort_entries.

(** ** The bytes of a block *)

(** The entry locates a block of [out] that decodes to the values. *)
Definition holds (out : list Z) (e : IndexEntry) (vs : list V) : Prop :=
  exists pre block post, out = pre ++ (be32 (ChecksumIEEE block) ++ block) ++ post /\ Offset e = zlen pre /\ Size e = zlen block + 4
    /\ MinTime e = start_of vs /\ MaxTime e = end_of vs /\ block_ok vs
    /\ forall q, bc_usable q -> exists q', bc_Decode block q = (Some (vs, None), q') /\ bc_usable q'.

Lemma holds_app out more e vs : holds out e vs -> holds (out ++ more) e vs.
Proof.
  intros (pre & block & post & -> & H). exists pre, block, (post ++ more). split; [rewrite <- !app_assoc; reflexivity|exact H].
Qed.

(** ** The index under construction *)

(** The series added so far, the last of them not flushed. *)
Definition di_rep (d : directIndex) (l : list series) : Prop :=
  di_keyCount d = zlen l /\
  ((l = [] /\ di_key d = [] /\ di_buf d = [] /\ di_entries d = [])
   \/ exists done s, l = done ++ [s] /\ di_buf d = enc_index done /\ di_key d = s_key s /\ s_key s <> []
        /\ di_Type d = s_type s /\ di_entries d = s_entries s).

Lemma enc_index_app l k : enc_index (l ++ k) = enc_index l ++ enc_index k.
Proof. unfold enc_index. rewrite map_app, concat_app. reflexivity. Qed.

Lemma enc_index_snoc l s : enc_index (l ++ [s]) = enc_index l ++ enc_series s.
Proof. rewrite enc_index_app. unfold enc_index at 2. cbn [map concat]. rewrite app_nil_r. reflexivity. Qed.

Lemma di_flush_rep d done s :
  di_buf d = enc_index done -> di_key d = s_key s -> s_key s <> [] -> di_Type d = s_type s -> di_entries d = s_entries s ->
  zlen (s_entries s) <= maxIndexEntries -> entries_sorted (s_entries s) = true ->
  exists n, di_flush Sort_entries d = (Ok n, mkDI (di_keyCount d) (di_size d) (enc_index (done ++ [s])) [] 0 []).
Proof.
  intros Hb Hk Hne Ht He Hn Hs. unfold di_flush. rewrite Hk, He, Hb, Ht. destruct (s_key s) as [|k0 ks] eqn:Ek; [contradiction|]. rewrite <- Ek.
  destruct (Z.gtb_spec (zlen (s_entries s)) maxIndexEntries); [lia|]. rewrite Hs. eexists. rewrite enc_index_snoc.
  reflexivity.
Qed.

(** Adding a block to the last series. *)
Lemma di_Add_same d done s typ mn mx ofs sz :
  di_rep d (done ++ [s]) ->
  exists d', di_Add Sort_entries (s_key s) typ mn mx ofs sz d = (Ok tt, d')
    /\ di_rep d' (done ++ [mkSeries (s_key s) (s_type s) (s_entries s ++ [mkEntry mn mx ofs sz])]).
Proof.
  intros (Hc & [(E & _)|(done' & s' & E & Hb & Hk & Hne & Ht & He)]); [destruct done; discriminate|].
  apply app_inj_tail in E as [<- <-]. unfold di_Add. rewrite Hk, bytes_compare_refl. destruct (s_key s) as [|k0 ks] eqn:Ek; [contradiction|]. rewrite <- Ek in *.
  eexists. split; [reflexivity|]. split; [rewrite !zlen_app in *; exact Hc|]. right. do 2 eexists. split; [reflexivity|]. cbn. rewrite Hb, Ht, He. auto 8.
Qed.

(** Starting a new series. *)
Lemma di_Add_new d l key typ mn mx ofs sz :
  di_rep d l -> key <> [] -> Forall (fun s => bytes_lt (s_key s) key) l ->
  Forall (fun s => zlen (s_entries s) <= maxIndexEntries /\ entries_sorted (s_entries s) = true) l ->
  exists d', di_Add Sort_entries key typ mn mx ofs sz d = (Ok tt, d')
    /\ di_rep d' (l ++ [mkSeries key typ [mkEntry mn mx ofs sz]]).
Proof.
  intros (Hc & H) Hkey Hlt Hok. unfold di_Add. destruct H as [(-> & Hk & Hb & He)|(done & s & -> & Hb & Hk & Hne & Ht & He)].
  - rewrite Hk. eexists. split; [reflexivity|]. unfold di_start. split; [cbn [di_keyCount]; rewrite Hc; reflexivity|].
    right. exists [], (mkSeries key typ [mkEntry mn mx ofs sz]). cbn. rewrite Hb, He. auto 8.
  - apply Forall_app in Hlt as [_ Hlt]. apply Forall_app in Hok as [_ Hok]. rewrite Forall_singleton in Hlt, Hok.
    destruct Hok as [Hn Hs].
    rewrite Hk. destruct (s_key s) as [|k0 ks] eqn:Ek; [contradiction|]. rewrite <- Ek in *. unfold bytes_lt in Hlt. rewrite Hlt.
    destruct (di_flush_rep d done s Hb Hk ltac:(rewrite Ek; discriminate) Ht He Hn Hs) as [n ->]. cbn [snd].
    eexists. split; [reflexivity|]. unfold di_start. cbn [di_keyCount di_entries di_buf]. split.
    + cbn [di_keyCount]. rewrite Hc, (zlen_app (done ++ [s])). reflexivity.
    + right. exists (done ++ [s]), (mkSeries key typ [mkEntry mn mx ofs sz]). cbn. auto 8.
Qed.

(** ** The writer's state *)

Definition header : list Z := be32 MagicNumber ++ [Version].

(** The bytes once the header is there. *)
Definition with_header (t : tsmWriter) : list Z := match tw_out t with [] => header | o => o end.

Record wrep (t : tsmWriter) (l : list series) (data : list (list (list V))) : Prop := {
  wr_n : tw_n t = zlen (tw_out t);
  wr_small : zlen (with_header t) < 2 ^ 31;
  wr_head : exists body, with_header t = header ++ body;
  wr_index : di_rep (tw_index t) l;
  wr_data : Forall2 (fun s vss => Forall2 (holds (tw_out t)) (s_entries s) vss) l data }.

Lemma header_length : zlen header = 5.
Proof. reflexivity. Qed.

Lemma block_encodes vs : block_ok vs ->
  exists b typ, bc_Encode vs = Ok b /\ BlockType b = Ok typ /\ block_size vs = zlen b + 4
    /\ forall q, bc_usable q -> exists q', bc_Decode b q = (Some (vs, None), q') /\ bc_usable q'.
Proof.
  intros (Hne & Hs & _). destruct (bc_roundtrip vs Hne Hs) as (b & typ & E & T & R). exists b, typ. unfold block_size. rewrite E. auto.
Qed.

(** The header is written once. *)
Lemma header_once_run t l data : wrep t l data -> header_once t = (Ok tt, mkTW (with_header t) (zlen (with_header t)) (tw_index t)).
Proof.
  intros W. unfold header_once, get, bind. rewrite (wr_n _ _ _ W). unfold with_header. destruct (tw_out t) as [|o0 os] eqn:Eo.
  - change (zlen [] =? 0) with true. cbv iota. unfold writeHeader, tw_emit, modify, bind. cbn [tw_out tw_n tw_index]. rewrite Eo. reflexivity.
  - destruct (Z.eqb_spec (zlen (o0 :: os)) 0) as [Z|_]; [rewrite zlen_cons in Z; pose proof (zlen_nonneg os); lia|].
    unfold ret. f_equal. pose proof (wr_n _ _ _ W) as N. rewrite Eo in N. rewrite <- N, <- Eo. destruct t; reflexivity.
Qed.

(** What one write does to the bytes and what it hands to the index. *)
Lemma tw_Write_run key vs t l data :
  wrep t l data -> zlen key <= maxKeyLength -> block_ok vs -> zlen (with_header t) + block_size vs < 2 ^ 31 ->
  exists b typ, block_size vs = zlen b + 4
    /\ (forall q, bc_usable q -> exists q', bc_Decode b q = (Some (vs, None), q') /\ bc_usable q')
    /\ forall d', di_Add Sort_entries key typ (start_of vs) (end_of vs) (zlen (with_header t)) (zlen b + 4) (tw_index t) = (Ok tt, d') ->
       tw_Write Sort_entries key vs t
       = (Ok tt, mkTW (with_header t ++ be32 (ChecksumIEEE b) ++ b) (zlen (with_header t) + (zlen b + 4)) d').
Proof.
  intros W Hk Hb Hz. destruct (block_encodes vs Hb) as (b & typ & E & T & Hsz & R). exists b, typ. split; [exact Hsz|]. split; [exact R|].
  intros d' Hadd. destruct Hb as (Hne & _). destruct vs as [|v vs']; [contradiction|]. pose proof (zlen_nonneg b). pose proof (zlen_nonneg (with_header t)).
  unfold tw_Write. destruct (Z.gtb_spec (zlen key) maxKeyLength); [lia|]. cbn [head].
  destruct (last (v :: vs')) as [w|] eqn:El; [|apply last_None in El; discriminate].
  assert (start_of (v :: vs') = bc_time v) as Es by reflexivity. assert (end_of (v :: vs') = bc_time w) as Ee by (unfold end_of; rewrite El; reflexivity).
  pose proof (header_once_run t l data W) as Hh.
  rewrite (bind_ok _ _ _ _ _ Hh), E. unfold of_block at 1. erewrite bind_ok by reflexivity. rewrite T. unfold of_block. erewrite bind_ok by reflexivity.
  unfold put_block, tw_emit, modify, get, tw_add, tw_advance. do 3 (erewrite bind_ok by reflexivity). cbn [tw_out tw_n tw_index].
  unfold bind. cbn [tw_index tw_n tw_out]. unfold u32. rewrite Z.mod_small by lia. rewrite <- Es, <- Ee, Hadd.
  unfold modify. cbn [tw_out tw_n tw_index].   rewrite i64_small by lia. rewrite <- app_assoc. reflexivity.
Qed.

(** The state after one block, given what the index made of it. *)
Lemma wrep_put t l data l' data' b vs e d' :
  wrep t l data -> block_ok vs -> zlen (with_header t) + (zlen b + 4) < 2 ^ 31 ->
  (forall q, bc_usable q -> exists q', bc_Decode b q = (Some (vs, None), q') /\ bc_usable q') ->
  e = mkEntry (start_of vs) (end_of vs) (zlen (with_header t)) (zlen b + 4) -> di_rep d' l' ->
  (forall out, Forall2 (fun s vss => Forall2 (holds out) (s_entries s) vss) l data -> holds out e vs ->
     Forall2 (fun s vss => Forall2 (holds out) (s_entries s) vss) l' data') ->
  let t' := mkTW (with_header t ++ be32 (ChecksumIEEE b) ++ b) (zlen (with_header t) + (zlen b + 4)) d' in
  wrep t' l' data' /\ zlen (with_header t') = zlen (with_header t) + (zlen b + 4).
Proof.
  intros W Hb Hz R He Hd Hdata t'. destruct (wr_head _ _ _ W) as [body Hbody].
  assert (with_header t' = with_header t ++ be32 (ChecksumIEEE b) ++ b) as Hw.
  { unfold with_header at 1, t'. cbn [tw_out]. rewrite Hbody. reflexivity. }
  assert (zlen (with_header t') = zlen (with_header t) + (zlen b + 4)) as Hl by (rewrite Hw; autorewrite with zlen; lia).
  split; [|exact Hl]. split.
  - unfold t'. cbn [tw_n tw_out]. autorewrite with zlen. lia.
  - rewrite Hl. exact Hz.
  - rewrite Hw, Hbody. exists (body ++ be32 (ChecksumIEEE b) ++ b). rewrite <- app_assoc. reflexivity.
  - exact Hd.
  - unfold t'. cbn [tw_out]. apply Hdata.
    + assert (exists more, with_header t = tw_out t ++ more) as [more Hm].
      { unfold with_header. destruct (tw_out t); [eexists; reflexivity|exists []; rewrite app_nil_r; reflexivity]. }
      rewrite Hm, <- app_assoc. eapply Forall2_impl; [exact (wr_data _ _ _ W)|]. intros s vss H. eapply Forall2_impl; [exact H|].
      intros x y. apply holds_app.
    + subst e. exists (with_header t), b, []. cbn. rewrite app_nil_r. auto 8.
Qed.

(** A block for the key written last. *)
Lemma write_same t done s data vss vs :
  wrep t (done ++ [s]) (data ++ [vss]) -> zlen (s_key s) <= maxKeyLength -> block_ok vs ->
  zlen (with_header t) + block_size vs < 2 ^ 31 ->
  exists t' s', tw_Write Sort_entries (s_key s) vs t = (Ok tt, t') /\ s_key s' = s_key s
    /\ wrep t' (done ++ [s']) (data ++ [vss ++ [vs]]) /\ zlen (with_header t') = zlen (with_header t) + block_size vs.
Proof.
  intros W Hk Hb Hz. destruct (tw_Write_run _ _ _ _ _ W Hk Hb Hz) as (b & typ & Hsz & R & Hrun). rewrite Hsz in *.
  destruct (di_Add_same _ _ _ typ (start_of vs) (end_of vs) (zlen (with_header t)) (zlen b + 4) (wr_index _ _ _ W)) as (d' & Ea & Hd).
  rewrite (Hrun d' Ea). eexists _, _. split; [reflexivity|]. split; [|eapply (wrep_put t _ _ _ _ b vs); eauto]; [reflexivity|].
  intros out H He. apply Forall2_app_inv in H as [H1 H2]; [|apply Forall2_length in H; rewrite !length_app in H; cbn in H; lia].
  apply Forall2_app; [exact H1|]. constructor; [|constructor]. cbn. apply Forall2_app; [|constructor; [exact He|constructor]].
  inversion H2; assumption.
Qed.

(** A block for a greater key. *)
Lemma write_new t l data key vs :
  wrep t l data -> key <> [] -> zlen key <= maxKeyLength -> block_ok vs -> zlen (with_header t) + block_size vs < 2 ^ 31 ->
  Forall (fun s => bytes_lt (s_key s) key) l ->
  Forall (fun s => zlen (s_entries s) <= maxIndexEntries /\ entries_sorted (s_entries s) = true) l ->
  exists t' s', tw_Write Sort_entries key vs t = (Ok tt, t') /\ s_key s' = key
    /\ wrep t' (l ++ [s']) (data ++ [[vs]]) /\ zlen (with_header t') = zlen (with_header t) + block_size vs.
Proof.
  intros W Hne Hk Hb Hz Hlt Hok. destruct (tw_Write_run _ _ _ _ _ W Hk Hb Hz) as (b & typ & Hsz & R & Hrun). rewrite Hsz in *.
  destruct (di_Add_new _ _ key typ (start_of vs) (end_of vs) (zlen (with_header t)) (zlen b + 4) (wr_index _ _ _ W) Hne Hlt Hok) as (d' & Ea & Hd).
  rewrite (Hrun d' Ea). eexists _, _. split; [reflexivity|]. split; [|eapply (wrep_put t _ _ _ _ b vs); eauto]; [reflexivity|].
  intros out H He. apply Forall2_app; [exact H|]. constructor; [|constructor]. cbn. constructor; [exact He|constructor].
Qed.

Lemma block_size_nonneg vs : 0 <= block_size vs.
Proof. unfold block_size. destruct (bc_Encode vs) as [b|e|]; [pose proof (zlen_nonneg b); lia|lia|lia]. Qed.

Lemma blocks_size_nonneg vss : 0 <= fold_right (fun vs m => block_size vs + m) 0 vss.
Proof. induction vss as [|v l IH]; cbn; [lia|]. pose proof (block_size_nonneg v). lia. Qed.

Lemma data_size_nonneg l : 0 <= data_size l.
Proof. induction l as [|c l IH]; cbn; [lia|]. pose proof (blocks_size_nonneg c.2). unfold data_size in IH. lia. Qed.

(** The rest of the blocks of a key. *)
Lemma write_rest vss t done s data pre :
  wrep t (done ++ [s]) (data ++ [pre]) -> zlen (s_key s) <= maxKeyLength -> Forall block_ok vss ->
  zlen (with_header t) + fold_right (fun vs m => block_size vs + m) 0 vss < 2 ^ 31 ->
  exists t' s', write_blocks (s_key s) vss t = (Ok tt, t') /\ s_key s' = s_key s /\ wrep t' (done ++ [s']) (data ++ [pre ++ vss])
    /\ zlen (with_header t') = zlen (with_header t) + fold_right (fun vs m => block_size vs + m) 0 vss.
Proof.
  revert t s pre. induction vss as [|vs vss IH]; intros t s pre W Hk Hb Hz; cbn [write_blocks fold_right] in *.
  - exists t, s. rewrite app_nil_r, Z.add_0_r. auto.
  - apply Forall_cons in Hb as [Hb1 Hb]. pose proof (blocks_size_nonneg vss) as Hpos.
    destruct (write_same t done s data pre vs W Hk Hb1 ltac:(lia)) as (t1 & s1 & E1 & K1 & W1 & L1).
    destruct (IH t1 s1 (pre ++ [vs]) W1 ltac:(rewrite K1; exact Hk) Hb ltac:(lia)) as (t2 & s2 & E2 & K2 & W2 & L2).
    exists t2, s2. rewrite (bind_ok _ _ _ _ _ E1), <- K1, E2, K2. split; [reflexivity|]. split; [reflexivity|].
    replace (pre ++ vs :: vss) with ((pre ++ [vs]) ++ vss) by (rewrite <- app_assoc; reflexivity). split; [exact W2|lia].
Qed.

(** *** The entries are in order *)

Lemma block_span_le vs : block_ok vs -> start_of vs <= end_of vs /\ is_i64 (start_of vs) /\ is_i64 (end_of vs).
Proof.
  intros (Hne & _ & Hi & Ht). unfold start_of, end_of. destruct vs as [|v vs]; [contradiction|]. cbn [head].
  destruct (last (v :: vs)) as [w|] eqn:El; [|apply last_None in El; discriminate].
  assert (w ∈ v :: vs) as Hw by (apply last_Some_elem_of in El; exact El). rewrite Forall_forall in Ht.
  split; [|split; apply Ht; [left|exact Hw]]. apply StronglySorted_inv in Hi as [_ Hf]. apply elem_of_cons in Hw as [->|Hw]; [lia|].
  rewrite Forall_forall in Hf. specialize (Hf w Hw). lia.
Qed.

Lemma entries_sorted_holds out es vss :
  Forall2 (holds out) es vss -> StronglySorted (fun a b => end_of a < start_of b) vss -> entries_sorted es = true.
Proof.
  intros H. induction H as [|e vs es vss He H IH]; intros Hs; [reflexivity|]. apply StronglySorted_inv in Hs as [Hs Hf].
  specialize (IH Hs). cbn [entries_sorted]. destruct H as [|e2 vs2 es vss He2 H]; [reflexivity|].
  apply andb_true_iff. split; [|exact IH]. apply Forall_cons in Hf as [Hf _].
  destruct He as (? & ? & ? & _ & _ & _ & M1 & _ & B1 & _), He2 as (? & ? & ? & _ & _ & _ & M2 & _ & _ & _).
  rewrite M1, M2. pose proof (block_span_le _ B1). apply negb_true_iff. lia.
Qed.

(** What the series of the index are, column by column. *)
Lemma series_of_columns out l cs :
  Forall2 (fun s vss => Forall2 (holds out) (s_entries s) vss) l (map snd cs) -> Forall column_ok cs ->
  Forall (fun s => zlen (s_entries s) <= maxIndexEntries /\ entries_sorted (s_entries s) = true) l.
Proof.
  intros H Hc. apply Forall_forall. intros s Hs. apply list_elem_of_lookup in Hs as [i Hi].
  destruct (Forall2_lookup_l _ _ _ _ _ H Hi) as (vss & Hv & F). rewrite list_lookup_fmap in Hv.
  destruct (cs !! i) as [c|] eqn:Ec; [|discriminate]. injection Hv as <-. rewrite Forall_forall in Hc.
  destruct (Hc c (list_elem_of_lookup_2 _ _ _ Ec)) as (_ & Hn & _ & Ho).
  split; [|eapply entries_sorted_holds; eassumption]. apply Forall2_length in F. unfold zlen in *. lia.
Qed.

Lemma sorted_app_elem {A} (R : A -> A -> Prop) l k x y : StronglySorted R (l ++ k) -> x ∈ l -> y ∈ k -> R x y.
Proof.
  induction l as [|a l IH]; intros H Hx Hy; [apply elem_of_nil in Hx as []|]. apply StronglySorted_inv in H as [H F].
  apply elem_of_cons in Hx as [->|Hx]; [|exact (IH H Hx Hy)]. rewrite Forall_forall in F. apply F. rewrite elem_of_app. auto.
Qed.

Lemma write_columns_rep cs t l dn :
  wrep t l (map snd dn) -> map s_key l = map fst dn -> columns_ok (dn ++ cs) -> zlen (with_header t) + data_size cs < 2 ^ 31 ->
  exists t' l', write_columns cs t = (Ok tt, t') /\ wrep t' l' (map snd (dn ++ cs)) /\ map s_key l' = map fst (dn ++ cs)
    /\ zlen (with_header t') = zlen (with_header t) + data_size cs.
Proof.
  revert t l dn. induction cs as [|[key vss] cs IH]; intros t l dn W Hkeys Hok Hz; cbn [write_columns].
  - exists t, l. rewrite app_nil_r. cbn. rewrite Z.add_0_r. auto.
  - pose proof Hok as [Hc Hs]. pose proof Hc as Hc'. apply Forall_app in Hc' as [Hdn Hcs]. apply Forall_cons in Hcs as [Hk Hcs].
    destruct Hk as (Hlen & Hn & Hb & Ho). cbn [fst snd] in *. destruct vss as [|vs vss]; [unfold zlen in Hn; cbn in Hn; lia|].
    apply Forall_cons in Hb as [Hb1 Hb]. cbn [data_size fold_right snd] in Hz. fold (data_size cs) in Hz.
    pose proof (blocks_size_nonneg vss). pose proof (data_size_nonneg cs).
    assert (Forall (fun s => bytes_lt (s_key s) key) l) as Hlt.
    { assert (Forall (fun k => bytes_lt k key) (map s_key l)) as F; [|rewrite Forall_map in F; exact F].
      rewrite Hkeys, Forall_map. apply Forall_forall. intros c Hin. exact (sorted_app_elem _ _ _ _ _ Hs Hin ltac:(left)). }
    destruct (write_new t l (map snd dn) key vs W) as (t1 & s1 & E1 & K1 & W1 & L1); auto; try lia.
    { intros ->. unfold zlen in Hlen. cbn in Hlen. lia. }
    { eapply series_of_columns; [exact (wr_data _ _ _ W)|exact Hdn]. }
    destruct (write_rest vss t1 l s1 (map snd dn) [vs] W1) as (t2 & s2 & E2 & K2 & W2 & L2); auto; [rewrite K1; lia|lia|].
    destruct (IH t2 (l ++ [s2]) (dn ++ [(key, vs :: vss)])) as (t3 & l3 & E3 & W3 & K3 & L3).
    + rewrite map_app. exact W2.
    + rewrite !map_app, Hkeys. cbn. rewrite K2, K1. reflexivity.
    + rewrite <- app_assoc. exact Hok.
    + lia.
    + exists t3, l3. rewrite <- app_assoc in W3, K3. split; [|split; [exact W3|split; [exact K3|]]].
      * unfold bind at 1. cbn [write_blocks]. rewrite (bind_ok _ _ _ _ _ E1), <- K1, E2. exact E3.
      * cbn [data_size fold_right snd]. fold (data_size cs). lia.
Qed.

(** ** The finished file *)

Lemma holds_bounds out e vs : holds out e vs -> zlen out < 2 ^ 31 -> entry_ok e /\ 0 <= Offset e /\ Offset e + Size e <= zlen out.
Proof.
  intros (pre & block & post & -> & Ho & Hs & Hmin & Hmax & Hb & _) Hz. autorewrite with zlen in Hz. rewrite zlen_app.
  pose proof (zlen_nonneg pre). pose proof (zlen_nonneg block). pose proof (zlen_nonneg post). pose proof (block_span_le _ Hb).
  unfold entry_ok, is_i64 in *. rewrite Ho, Hs, Hmin, Hmax. autorewrite with zlen. lia.
Qed.

Lemma series_ok_columns out l cs :
  Forall2 (fun s vss => Forall2 (holds out) (s_entries s) vss) l (map snd cs) -> map s_key l = map fst cs -> Forall column_ok cs ->
  zlen out < 2 ^ 31 -> Forall series_ok l.
Proof.
  intros H Hk Hc Hz. apply Forall_forall. intros s Hs. apply list_elem_of_lookup in Hs as [i Hi].
  destruct (Forall2_lookup_l _ _ _ _ _ H Hi) as (vss & Hv & F). rewrite list_lookup_fmap in Hv.
  destruct (cs !! i) as [c|] eqn:Ec; [|discriminate]. injection Hv as <-.
  assert (s_key s = c.1) as Ek.
  { assert (map s_key l !! i = Some (s_key s)) as E1 by (rewrite list_lookup_fmap, Hi; reflexivity).
    rewrite Hk, list_lookup_fmap, Ec in E1. injection E1 as <-. reflexivity. }
  rewrite Forall_forall in Hc. destruct (Hc c (list_elem_of_lookup_2 _ _ _ Ec)) as (Hlen & Hn & _ & _).
  pose proof (Forall2_length _ _ _ F) as L. split; [rewrite Ek; lia|]. split; [unfold zlen in *; lia|].
  apply Forall_forall. intros e He. apply list_elem_of_lookup in He as [n Hn']. destruct (Forall2_lookup_l _ _ _ _ _ F Hn') as (vs & _ & Hh).
  apply (holds_bounds _ _ _ Hh Hz).
Qed.

Lemma zlen_enc_index l : zlen (enc_index l) = fold_right (fun s n => 5 + zlen (s_key s) + 28 * zlen (s_entries s) + n) 0 l.
Proof.
  induction l as [|s l IH]; [reflexivity|]. unfold enc_index in *. cbn [map concat fold_right]. rewrite zlen_app, zlen_enc_series, IH. lia.
Qed.

Lemma index_size_columns out l cs :
  Forall2 (fun s vss => Forall2 (holds out) (s_entries s) vss) l (map snd cs) -> map s_key l = map fst cs ->
  zlen (enc_index l) = index_size cs.
Proof.
  rewrite zlen_enc_index. revert l. induction cs as [|c cs IH]; intros l H Hk; inversion H; subst; [reflexivity|].
  cbn in Hk. injection Hk as Hk1 Hk2. cbn [fold_right index_size]. rewrite (IH _ ltac:(eassumption) Hk2), Hk1.
  match goal with F : Forall2 (holds out) _ _ |- _ => apply Forall2_length in F; unfold zlen; rewrite F end. reflexivity.
Qed.

Lemma WriteIndex_rep t l data :
  wrep t l data -> l <> [] -> Forall (fun s => zlen (s_entries s) <= maxIndexEntries /\ entries_sorted (s_entries s) = true) l ->
  exists d, tw_WriteIndex Sort_entries t = (Ok tt, mkTW (tw_out t ++ enc_index l ++ be64 (zlen (tw_out t))) (tw_n t) d).
Proof.
  intros W Hne Hok. destruct (wr_index _ _ _ W) as (Hc & [(E & _)|(done & s & E & Hb & Hk & Hkne & Ht & He)]); [contradiction|].
  subst l. apply Forall_app in Hok as [_ Hok]. rewrite Forall_singleton in Hok. destruct Hok as [Hn Hs].
  unfold tw_WriteIndex, get, bind. rewrite Hc, zlen_app. destruct (Z.eqb_spec (zlen done + zlen [s]) 0) as [Z|_].
  { change (zlen [s]) with 1 in Z. pose proof (zlen_nonneg done). lia. }
  unfold di_WriteTo. destruct (di_flush_rep _ _ _ Hb Hk Hkne Ht He Hn Hs) as [n ->]. cbn [di_buf]. eexists.
  rewrite (wr_n _ _ _ W), u64_small; [reflexivity|]. pose proof (wr_small _ _ _ W) as Z. unfold with_header in Z.
  pose proof (zlen_nonneg (tw_out t)). destruct (tw_out t); [unfold zlen; cbn; lia|lia].
Qed.

Definition whole (out : list Z) (l : list series) : list Z := out ++ enc_index l ++ be64 (zlen out).

(** The index of a finished file. *)
Lemma ma_init_whole out body l :
  out = header ++ body -> zlen out < 2 ^ 31 -> l <> [] -> Forall series_ok l ->
  StronglySorted (fun x y => bytes_lt (s_key x) (s_key y)) l -> zlen (enc_index l) < 2 ^ 31 ->
  exists d, ma_init (whole out l) = Ok (mkMA (Some (whole out l)) 1 1, d) /\ ix_rep d (place 0 l) /\ ix_tombstones d = ∅
    /\ ix_minTime d = file_min l (2 ^ 63 - 1) /\ ix_maxTime d = file_max l 0
    /\ Some (ix_minKey d) = s_key <$> head l /\ Some (ix_maxKey d) = s_key <$> last l.
Proof.
  intros Eo Hz Hne Hok Hs Hi. destruct (UnmarshalBinary_index l NewIndirectIndex Hne Hok Hs Hi) as (d & Eu & R & Et & Eb & Emn & Emx & Ek1 & Ek2).
  exists d. split; [|auto 7].
  pose proof (zlen_nonneg body) as Hbody. assert (zlen out = 5 + zlen body) as Hlo by (rewrite Eo, zlen_app, header_length; reflexivity).
  assert (0 < zlen (enc_index l)) as Hpos.
  { destruct l as [|s l']; [contradiction|]. unfold enc_index. cbn [map concat]. rewrite zlen_app, zlen_enc_series.
    pose proof (zlen_nonneg (s_key s)). pose proof (zlen_nonneg (s_entries s)). pose proof (zlen_nonneg (concat (map enc_series l'))). lia. }
  assert (zlen (whole out l) = zlen out + zlen (enc_index l) + 8) as Hw by (unfold whole; autorewrite with zlen; lia).
  unfold ma_init. assert (verifyVersion (whole out l) = Ok tt) as ->.
  { unfold verifyVersion. destruct (Z.ltb_spec (zlen (whole out l)) 4); [lia|]. unfold whole. rewrite Eo, <- !app_assoc. reflexivity. }
  destruct (Z.ltb_spec (zlen (whole out l)) 8); [lia|].
  erewrite (sub_at _ (out ++ enc_index l) (be64 (zlen out)) []); [|unfold whole; rewrite app_nil_r, <- app_assoc; reflexivity|rewrite zlen_app; lia|zlen_lia].
  change be_dec with de64. rewrite de64_be64 by (unfold is_u64; lia). rewrite u64_small by lia. rewrite Z.geb_leb.
  destruct (Z.leb_spec (zlen (whole out l) - 8) (zlen out)); [lia|].
  erewrite (sub_at _ out (enc_index l) (be64 (zlen out))); [|reflexivity|reflexivity|lia]. rewrite Eu. reflexivity.
Qed.

(** ** Reading it *)

(** Every live series is a column of the file. *)
Definition columns_at (b : list Z) (live : list (Z * series)) (cs : list column) : Prop :=
  Forall (fun x => exists c, c ∈ cs /\ c.1 = s_key x.2 /\ Forall2 (holds b) (s_entries x.2) c.2) live.

Definition column_values (cs : list column) (key : list Z) : list V :=
  match List.find (fun c => bool_decide (c.1 = key)) cs with Some c => concat c.2 | None => [] end.

Lemma column_values_in cs c :
  StronglySorted (fun a b : column => bytes_lt a.1 b.1) cs -> c ∈ cs -> column_values cs c.1 = concat c.2.
Proof.
  intros Hs Hc. unfold column_values. destruct (List.find (fun x => bool_decide (x.1 = c.1)) cs) as [x|] eqn:E.
  - apply List.find_some in E as [Hx Ex]. apply list_elem_of_In in Hx. apply bool_decide_eq_true in Ex.
    apply list_elem_of_lookup in Hx as [i Hi], Hc as [j Hj]. destruct (Nat.lt_trichotomy i j) as [H|[->|H]].
    + pose proof (StronglySorted_lookup_lt _ _ _ _ _ _ Hs Hi Hj H) as L. cbn in L. rewrite Ex in L. destruct (bytes_lt_irrefl _ L).
    + congruence.
    + pose proof (StronglySorted_lookup_lt _ _ _ _ _ _ Hs Hj Hi H) as L. cbn in L. rewrite Ex in L. destruct (bytes_lt_irrefl _ L).
  - exfalso. apply list_elem_of_In in Hc. pose proof (List.find_none _ _ E c Hc) as F. apply bool_decide_eq_false in F. contradiction.
Qed.

Lemma holds_block b e vs :
  holds b e vs -> zlen b < 2 ^ 31 ->
  exists block, block_bytes b e = Some block /\ forall q, bc_usable q -> exists q', bc_Decode block q = (Some (vs, None), q') /\ bc_usable q'.
Proof.
  intros H Hz. destruct (holds_bounds _ _ _ H Hz) as ((_ & _ & Ho & Hs) & H0 & H1).
  destruct H as (pre & block & post & -> & Eo & Es & _ & _ & _ & R). exists block. split; [|exact R].
  unfold block_bytes. rewrite !i64_small by (unfold is_i64 in *; lia).
  apply (sub_at _ (pre ++ be32 (ChecksumIEEE block)) block post); [rewrite <- !app_assoc; reflexivity|zlen_lia|zlen_lia].
Qed.

Definition kept (ts : list TimeRange) (v : V) : bool := negb (covered ts (bc_time v)).

(** Excluding the tombstones one after the other keeps what none covers. *)
Lemma exclude_all ts vs :
  increasing bc_time vs ->
  fold_left (fun l t => Exclude bc_time l (tr_Min t) (tr_Max t)) ts vs = List.filter (kept ts) vs.
Proof. apply exclude_ranges. Qed.

Lemma block_times vs : increasing bc_time vs -> Forall (fun v => start_of vs <= bc_time v <= end_of vs) vs.
Proof.
  intros Hi. unfold start_of, end_of. apply Forall_forall. intros v Hv. apply list_elem_of_lookup in Hv as [i Hv].
    destruct vs as [|w vs]; [discriminate|]. destruct (last (w :: vs)) as [z|] eqn:El; [|apply last_None in El; discriminate]. cbn [head].
    rewrite last_lookup in El. pose proof (lookup_lt_Some _ _ _ Hv) as Hlt. cbn [length pred] in El, Hlt. split.
    - destruct i as [|i]; [injection Hv as ->; lia|].
      pose proof (StronglySorted_lookup_lt _ _ 0 (S i) w v Hi eq_refl Hv ltac:(lia)). cbn in *. lia.
    - destruct (decide (i = length vs)) as [->|Hne]; [rewrite Hv in El; injection El as ->; lia|].
      pose proof (StronglySorted_lookup_lt _ _ i (length vs) v z Hi Hv El ltac:(lia)). cbn in *. lia.
Qed.

Lemma skip_block b e vs ts :
  holds b e vs -> existsb (fun t => (tr_Min t <=? MinTime e) && (tr_Max t >=? MaxTime e)) ts = true -> List.filter (kept ts) vs = [].
Proof.
  intros (? & ? & ? & _ & _ & _ & Emin & Emax & Hb & _) H. apply existsb_exists in H as (t & Hin & Ht). rewrite Emin, Emax in Ht.
  destruct Hb as (_ & _ & Hi & _).
  pose proof (block_times vs Hi) as F.
  rewrite Forall_forall in F. destruct (List.filter (kept ts) vs) as [|v l] eqn:E; [reflexivity|]. exfalso.
  assert (v ∈ List.filter (kept ts) vs) as Hv by (rewrite E; left). apply list_elem_of_In, filter_In in Hv as [Hv Hk].
  apply list_elem_of_In in Hv. specialize (F v Hv). unfold kept in Hk. apply negb_true_iff in Hk.
  assert (covered ts (bc_time v) = true) as C; [|congruence]. apply covered_in. exists t. rewrite list_elem_of_In. split; [exact Hin|lia].
Qed.

Lemma readAll_loop_spec b ts es vss acc q :
  Forall2 (holds b) es vss -> zlen b < 2 ^ 31 -> bc_usable q ->
  exists q', readAll_loop b ts es acc q = (Ok (acc ++ List.filter (kept ts) (concat vss)), q') /\ bc_usable q'.
Proof.
  intros H Hz. revert acc q. induction H as [|e vs es vss He H IH]; intros acc q Hq; cbn [readAll_loop concat].
  - exists q. cbn. rewrite app_nil_r. auto.
  - rewrite List.filter_app. destruct (existsb _ ts) eqn:Ex.
    + rewrite (skip_block _ _ _ _ He Ex). apply IH. exact Hq.
    + destruct (holds_block _ _ _ He Hz) as (block & -> & R). destruct (R q Hq) as (q1 & -> & Hq1). cbn [decoded].
      rewrite exclude_all by (destruct He as (? & ? & ? & _ & _ & _ & _ & _ & Hb & _); apply Hb).
      destruct (IH (acc ++ List.filter (kept ts) vs) q1 Hq1) as (q2 & -> & Hq2). exists q2. rewrite <- app_assoc. auto.
Qed.

Section Reading.
Context `{BU : BytesUtil} {UL : BytesUtilLaws}.

(** Reading all values of a key gives the visible ones of its column. *)
Lemma readAll_visible b d live cs key q a f :
  ix_rep d live -> columns_at b live cs -> StronglySorted (fun a b : column => bytes_lt a.1 b.1) cs -> zlen b < 2 ^ 31 -> bc_usable q ->
  exists q', readAll (mkMA (Some b) a f) d key q
    = (Ok (List.filter (fun v => visible d live key (bc_time v)) (column_values cs key)), q') /\ bc_usable q'.
Proof.
  intros R HC Hs Hz Hq. unfold readAll. rewrite (Entries_live _ _ _ R). cbn [mapped ma_b default from_option].
  unfold visible, live_entries. destruct (find_live live key) as [[ofs s]|] eqn:E.
  - apply find_live_some in E as [Hin Ek]. cbn in Ek. unfold columns_at in HC. rewrite Forall_forall in HC.
    destruct (HC _ Hin) as (c & Hc & Ec & F). cbn in Ec, F.
    destruct (readAll_loop_spec b (ix_TombstoneRange d key) (s_entries s) c.2 [] q F Hz Hq) as (q' & Er & Hq').
    exists q'. split; [|exact Hq']. change (id b) with b. rewrite Er. cbn [app]. do 2 f_equal.
    rewrite <- Ek, <- Ec, (column_values_in cs c Hs Hc). apply List.filter_ext_in. intros v Hv. unfold kept. rewrite Ec.
    assert (existsb (fun e => entry_Contains e (bc_time v)) (s_entries s) = true) as ->; [|reflexivity].
    apply in_concat in Hv as (vs & Hvs & Hv). apply list_elem_of_In in Hvs. apply Forall2_flip in F.
    apply list_elem_of_lookup in Hvs as [i Hvs]. destruct (Forall2_lookup_l _ _ _ _ _ F Hvs) as (e & He & Hh).
    apply existsb_exists. exists e. split; [apply list_elem_of_In; eapply list_elem_of_lookup_2; exact He|].
    destruct Hh as (? & ? & ? & _ & _ & _ & Emin & Emax & (_ & _ & Hi & _) & _). pose proof (block_times vs Hi) as B.
    rewrite Forall_forall in B. specialize (B v ltac:(apply list_elem_of_In; exact Hv)). unfold entry_Contains. rewrite Emin, Emax. lia.
  - exists q. split; [|exact Hq]. cbn. do 2 f_equal. induction (column_values cs key) as [|v l IH]; [reflexivity|]. cbn. exact IH.
Qed.

(** ** Applying tombstones *)

Definition hits (T : list (list Z * Z * Z)) (key : list Z) (t : Z) : bool :=
  existsb (fun x => bool_decide (x.1.1 = key) && covers (mkTR x.1.2 x.2) t) T.

(** An index that [d0] with [live0] became by deletions. *)
Record ix_from (d0 d : indirectIndex) (live0 live : list (Z * series)) : Prop := {
  xf_rep : ix_rep d live;
  xf_timed : timed d live;
  xf_tomb : tombstones_ok d;
  xf_sub x : x ∈ live -> x ∈ live0;
  xf_frame : ix_minKey d = ix_minKey d0 /\ ix_maxKey d = ix_maxKey d0 /\ ix_minTime d = ix_minTime d0 /\ ix_maxTime d = ix_maxTime d0
             /\ ix_b d = ix_b d0 }.

Lemma ix_from_refl d live : ix_rep d live -> timed d live -> tombstones_ok d -> ix_from d d live live.
Proof. intros H1 H2 H3. split; auto 7. Qed.

Lemma ix_from_delete d0 d live0 live keys mn mx :
  ix_from d0 d live0 live -> range_ok (mkTR mn mx) ->
  exists d' live', ix_DeleteRange keys mn mx d = (Ok tt, d') /\ ix_from d0 d' live0 live'
    /\ forall key t, is_i64 t -> visible d' live' key t = visible d live key t && negb (hit keys mn mx key t).
Proof.
  intros [R T TO Sub Fr] Hr. destruct (DeleteRange_ok d live keys mn mx R T TO Hr) as (d' & E & live' & R' & T' & TO' & Sub' & Hv).
  exists d', live'. split; [exact E|]. split; [|exact Hv]. pose proof (DeleteRange_frame _ _ _ _ _ _ E) as F.
  split; auto. destruct Fr as (-> & -> & -> & -> & ->) in F |- *. intuition congruence.
Qed.

End Reading.

End File.
