(* ===== verification/TSMDurable.v ===== *)
(** * TSM files: deletions last

    A file that was written, opened, and deleted from: what the reader shows,
    and what a reader that opens the file and its tombstones anew shows. *)

From S2P Require Import Prelude Bytes Values Varint Blocks TSMWriter TSMIndex TSMIndexFacts TSMDelete Tombstone TSMReader TSMFile.

Section Durable.
Context {V D : Type} `{BC : BlockCodec V D} {BL : BlockCodecLaws BC}.
Context `{BU : BytesUtil} {UL : BytesUtilLaws} `{GZ : Gzip} {GL : GzipLaws}.

(** ** A finished file *)

Definition tsm_file (b : list Z) (cs : list (column (V := V))) : Prop :=
  exists body l, b = whole (header ++ body) l /\ l <> [] /\ Forall series_ok l
    /\ StronglySorted (fun x y => bytes_lt (s_key x) (s_key y)) l /\ map s_key l = map fst cs
    /\ Forall2 (fun s vss => Forall2 (holds (header ++ body)) (s_entries s) vss) l (map snd cs).

Lemma sorted_keys l (cs : list (column (V := V))) :
  map s_key l = map fst cs -> StronglySorted (fun a b => bytes_lt a.1 b.1) cs ->
  StronglySorted (fun x y => bytes_lt (s_key x) (s_key y)) l.
Proof.
  revert cs. induction l as [|s l IH]; intros [|c cs] E H; try discriminate; [constructor|]. cbn in E. injection E as E1 E2.
  apply StronglySorted_inv in H as [H F]. constructor; [eapply IH; eassumption|].
  assert (Forall (fun k => bytes_lt (s_key s) k) (map s_key l)) as G; [|rewrite Forall_map in G; exact G].
  rewrite E2, Forall_map, E1. exact F.
Qed.

(** Once the blocks are written the index finishes the file. *)
Lemma finish_file Sort_entries t l cs :
  wrep t l (map snd cs) -> map s_key l = map fst cs -> columns_ok cs -> cs <> [] ->
  exists t', tw_WriteIndex Sort_entries t = (Ok tt, t') /\ tsm_file (tw_out t') cs /\ zlen (tw_out t') = zlen (with_header t) + 8 + index_size cs.
Proof.
  intros W K [Hc Hs] Hne. assert (l <> []) as Hl by (intros ->; destruct cs; [contradiction|discriminate]).
  pose proof (wr_data _ _ _ W) as Hd. pose proof (wr_small _ _ _ W) as Hsm. destruct (wr_head _ _ _ W) as [body Hb].
  destruct (WriteIndex_rep Sort_entries t l (map snd cs) W Hl (series_of_columns _ _ _ Hd Hc)) as [d Ei].
  assert (with_header t = tw_out t) as Ew.
  { unfold with_header. destruct (tw_out t) as [|x o] eqn:Eo; [exfalso|reflexivity]. destruct l as [|s l']; [contradiction|].
    destruct cs as [|c cs']; [contradiction|]. cbn in Hd. apply Forall2_cons_1 in Hd as [Hh _].
    apply Forall_cons in Hc as [(_ & Hn & _) _]. destruct Hh as [|e vs es vss (pre & block & post & Eb & _) Hh]; [unfold zlen in Hn; cbn in Hn; lia|].
    apply (f_equal zlen) in Eb. autorewrite with zlen in Eb. pose proof (zlen_nonneg pre). pose proof (zlen_nonneg block). pose proof (zlen_nonneg post).
    change (zlen []) with 0 in Eb. lia. }
  rewrite Ew in *. eexists. split; [exact Ei|]. cbn [tw_out]. split.
  - exists body, l. rewrite <- Hb. split; [reflexivity|]. split; [exact Hl|]. split; [eapply series_ok_columns; eassumption|].
    split; [eapply sorted_keys; eassumption|]. auto.
  - autorewrite with zlen. rewrite (index_size_columns _ _ _ Hd K). lia.
Qed.

Lemma write_file_tsm Sort_entries cs :
  columns_ok cs -> cs <> [] -> 13 + data_size cs + index_size cs < 2 ^ 31 ->
  exists t, write_file Sort_entries cs NewTSMWriter = (Ok tt, t) /\ tsm_file (tw_out t) cs /\ zlen (tw_out t) = 13 + data_size cs + index_size cs.
Proof.
  intros Hok Hne Hz. assert (0 <= index_size cs) as Hi.
  { unfold index_size. clear. induction cs as [|c l IH]; cbn; [lia|]. pose proof (zlen_nonneg c.1). pose proof (zlen_nonneg c.2). lia. }
  destruct (write_columns_rep Sort_entries cs NewTSMWriter [] []) as (t & l & E & W & K & L).
  - split; [reflexivity|change (5 < 2 ^ 31); lia|exists []; reflexivity|split; [reflexivity|left; auto]|constructor].
  - reflexivity.
  - exact Hok.
  - cbn [with_header NewTSMWriter tw_out]. rewrite header_length. lia.
  - cbn [app] in *. destruct (finish_file Sort_entries t l cs W K Hok Hne) as (t' & Ei & Hf & Hl'). exists t'.
    split; [unfold write_file, bind; rewrite E; exact Ei|]. split; [exact Hf|].
    rewrite Hl', L. change (with_header NewTSMWriter) with header. rewrite header_length. lia.
Qed.

(** ** Its index *)

(** An index that shows exactly the file: every column is live, its blocks
    where the entries say. *)
Record shows (b : list Z) (cs : list (column (V := V))) (d : indirectIndex) (live : list (Z * series)) : Prop := {
  sh_rep : ix_rep d live;
  sh_timed : timed d live;
  sh_tomb : ix_tombstones d = ∅;
  sh_at : columns_at b live cs;
  sh_keys : map (fun x => s_key x.2) live = map fst cs;
  sh_min : Some (ix_minKey d) = fst <$> head cs;
  sh_max : Some (ix_maxKey d) = fst <$> last cs }.

Lemma file_min_le l m : file_min l m <= m /\ Forall (fun s => file_min l m <= min_time_of s) l.
Proof.
  revert m. induction l as [|s l IH]; intros m; cbn; [split; [lia|constructor]|]. destruct (IH (Z.min m (min_time_of s))) as [H1 H2].
  unfold file_min in *. split; [lia|]. constructor; [lia|exact H2].
Qed.

Lemma file_max_ge l m : m <= file_max l m /\ Forall (fun s => max_time_of s <= file_max l m) l.
Proof.
  revert m. induction l as [|s l IH]; intros m; cbn; [split; [lia|constructor]|]. destruct (IH (Z.max m (max_time_of s))) as [H1 H2].
  unfold file_max in *. split; [lia|]. constructor; [lia|exact H2].
Qed.

(** The first entry starts and the last one ends the series. *)
Lemma entries_within out es vss s :
  s_entries s = es -> Forall2 (holds out) es vss -> StronglySorted (fun a b => end_of a < start_of b) vss ->
  Forall (fun e => min_time_of s <= MinTime e /\ MaxTime e <= max_time_of s) es.
Proof.
  intros Es H Hs. assert (forall i e vs, es !! i = Some e -> vss !! i = Some vs -> MinTime e = start_of vs /\ MaxTime e = end_of vs /\ start_of vs <= end_of vs) as Ht.
  { intros i e vs He Hv. destruct (Forall2_lookup_lr _ _ _ _ _ _ H He Hv) as (? & ? & ? & _ & _ & _ & M1 & M2 & B & _).
    destruct (block_span_le _ B) as [Hle _]. auto. }
  apply Forall_forall. intros e He. apply list_elem_of_lookup in He as [i Hi]. destruct (Forall2_lookup_l _ _ _ _ _ H Hi) as (vs & Hv & _).
  destruct (Ht i e vs Hi Hv) as (-> & -> & Hle). unfold min_time_of, max_time_of. rewrite Es, head_lookup, last_lookup. pose proof (lookup_lt_Some _ _ _ Hi) as Hlt.
  destruct (lookup_lt_is_Some_2 es 0 ltac:(lia)) as [e0 E0]. destruct (lookup_lt_is_Some_2 es (pred (length es)) ltac:(lia)) as [e1 E1]. rewrite E0, E1.
  destruct (Forall2_lookup_l _ _ _ _ _ H E0) as (v0 & V0 & _), (Forall2_lookup_l _ _ _ _ _ H E1) as (v1 & V1 & _).
  destruct (Ht _ _ _ E0 V0) as (-> & _ & ?), (Ht _ _ _ E1 V1) as (_ & -> & ?). split.
  - destruct i as [|i]; [rewrite Hv in V0; injection V0 as ->; lia|]. pose proof (StronglySorted_lookup_lt _ _ _ _ _ _ Hs V0 Hv ltac:(lia)) as L. cbn in L. lia.
  - destruct (decide (i = pred (length es))) as [->|Hne]; [rewrite Hv in V1; injection V1 as ->; lia|].
    pose proof (StronglySorted_lookup_lt _ _ _ _ _ _ Hs Hv V1 ltac:(lia)) as L. cbn in L. lia.
Qed.

(** Series and columns in step. *)
Lemma column_of_series out l (cs : list (column (V := V))) i s :
  Forall2 (fun s vss => Forall2 (holds out) (s_entries s) vss) l (map snd cs) -> map s_key l = map fst cs -> l !! i = Some s ->
  exists c, cs !! i = Some c /\ c.1 = s_key s /\ Forall2 (holds out) (s_entries s) c.2.
Proof.
  intros H K Hi. destruct (Forall2_lookup_l _ _ _ _ _ H Hi) as (vss & Hv & F). rewrite list_lookup_fmap in Hv.
  unfold column in *. destruct (cs !! i) as [c|] eqn:Ec; [|discriminate]. injection Hv as <-. exists c. split; [reflexivity|]. split; [|exact F].
  assert (map s_key l !! i = Some (s_key s)) as E1 by (rewrite list_lookup_fmap, Hi; reflexivity).
  rewrite K, list_lookup_fmap, Ec in E1. cbn in E1. congruence.
Qed.

Lemma place_lookup l i j x : place i l !! j = Some x -> l !! j = Some x.2.
Proof. intros H. assert (map snd (place i l) !! j = Some x.2) as E by (rewrite list_lookup_fmap, H; reflexivity). rewrite place_snd in E. exact E. Qed.

Lemma open_shows b cs :
  tsm_file b cs -> columns_ok cs -> zlen b < 2 ^ 31 ->
  exists d live, ma_init b = Ok (mkMA (Some b) 1 1, d) /\ shows b cs d live.
Proof.
  intros (body & l & Eb & Hne & Hl & Hs & K & H) [Hc Hcs] Hz. subst b. set (out := header ++ body) in *.
  assert (zlen (whole out l) = zlen out + zlen (enc_index l) + 8) as Hw by (unfold whole; autorewrite with zlen; lia).
  pose proof (zlen_nonneg out). pose proof (zlen_nonneg (enc_index l)).
  destruct (ma_init_whole out body l eq_refl ltac:(lia) Hne Hl Hs ltac:(lia)) as (d & E & R & Et & Emn & Emx & Ek1 & Ek2).
  exists d, (place 0 l). split; [exact E|]. split; auto.
  - unfold timed. rewrite Emn, Emx. apply Forall_forall. intros x Hx. apply list_elem_of_lookup in Hx as [i Hi]. apply place_lookup in Hi.
    destruct (file_min_le l (2 ^ 63 - 1)) as [_ F1], (file_max_ge l 0) as [_ F2]. rewrite Forall_forall in F1, F2.
    pose proof (list_elem_of_lookup_2 _ _ _ Hi) as Hin. split; [apply F1; exact Hin|]. split; [apply F2; exact Hin|].
    destruct (column_of_series _ _ _ _ _ H K Hi) as (c & Ec & _ & F). rewrite Forall_forall in Hc.
    destruct (Hc c (list_elem_of_lookup_2 _ _ _ Ec)) as (_ & _ & _ & Ho). eapply entries_within; [reflexivity|exact F|exact Ho].
  - apply Forall_forall. intros x Hx. apply list_elem_of_lookup in Hx as [i Hi]. apply place_lookup in Hi.
    destruct (column_of_series _ _ _ _ _ H K Hi) as (c & Ec & E1 & F). exists c. split; [eapply list_elem_of_lookup_2; exact Ec|]. split; [exact E1|].
    eapply Forall2_impl; [exact F|]. intros e vs Hh. unfold whole. apply holds_app. exact Hh.
  - rewrite <- K, <- (map_map snd s_key), place_snd. reflexivity.
  - rewrite Ek1. destruct l, cs; try discriminate; try reflexivity. cbn in K |- *. congruence.
  - rewrite Ek2, !last_lookup, <- !list_lookup_fmap. change (s_key <$> l) with (map s_key l). change (fst <$> cs) with (map fst cs). rewrite K. f_equal. f_equal.
    rewrite <- (length_map s_key l), K, length_map. reflexivity.
Qed.

(** ** Readers *)

(** The values of a key that no tombstone hits. *)
Definition left_values (cs : list (column (V := V))) (T : list (list Z * Z * Z)) (key : list Z) : list V :=
  List.filter (fun v => negb (hits T key (bc_time v))) (column_values cs key).

(** [d] is the index of the file after the deletions [T]. *)
Definition index_after (b : list Z) (cs : list (column (V := V))) (T : list (list Z * Z * Z)) (d : indirectIndex) : Prop :=
  exists d0 live0 live, shows b cs d0 live0 /\ ix_from d0 d live0 live
    /\ forall key t, is_i64 t -> visible d live key t = spanned live0 key t && negb (hits T key t).

Record reader_of (b : list Z) (cs : list (column (V := V))) (T : list (list Z * Z * Z)) (r : TSMReader) : Prop := {
  ro_bytes : exists a f, rd_acc r = mkMA (Some b) a f;
  ro_index : index_after b cs T (rd_index r);
  ro_file : file_holds (rd_tomb r) T }.

Lemma shows_after b cs d live : shows b cs d live -> index_after b cs [] d.
Proof.
  intros H. exists d, live, live. split; [exact H|]. assert (forall k, ix_TombstoneRange d k = []) as Et.
  { intros k. unfold ix_TombstoneRange. rewrite (sh_tomb _ _ _ _ H), lookup_empty. reflexivity. }
  split; [apply ix_from_refl; [apply H|apply H|intros k; rewrite Et; constructor]|].
  intros key t _. unfold visible. fold (spanned live key t). rewrite Et. reflexivity.
Qed.

Lemma hits_app T U key t : hits (T ++ U) key t = hits T key t || hits U key t.
Proof. apply existsb_app. Qed.

Lemma hits_range keys mn mx key t : hits (map (fun k => (k, mn, mx)) keys) key t = hit keys mn mx key t.
Proof.
  unfold hits, hit. induction keys as [|k keys IH]; cbn [map existsb fst snd].
  - rewrite bool_decide_eq_false_2 by (intros H; apply elem_of_nil in H as []). reflexivity.
  - rewrite IH. destruct (decide (k = key)) as [->|Hne].
    + rewrite (bool_decide_eq_true_2 (key = key)) by reflexivity. rewrite (bool_decide_eq_true_2 (key ∈ key :: keys)) by left. cbn [andb]. destruct (covers _ t); [reflexivity|]. apply andb_false_r.
    + rewrite (bool_decide_eq_false_2 (k = key)) by exact Hne. cbn [andb orb]. f_equal. apply bool_decide_ext. rewrite elem_of_cons. intuition congruence.
Qed.

Lemma after_delete b cs T d keys mn mx :
  index_after b cs T d -> is_i64 mn -> is_i64 mx ->
  exists d', ix_DeleteRange keys mn mx d = (Ok tt, d') /\ index_after b cs (T ++ map (fun k => (k, mn, mx)) keys) d'.
Proof.
  intros (d0 & live0 & live & Hs & F & Hv) Hmn Hmx. destruct (ix_from_delete d0 d live0 live keys mn mx F) as (d' & live' & E & F' & Hv'); [split; assumption|].
  exists d'. split; [exact E|]. exists d0, live0, live'. split; [exact Hs|]. split; [exact F'|]. intros key t Ht.
  rewrite (Hv' key t Ht), (Hv key t Ht), hits_app, hits_range, negb_orb, andb_assoc. reflexivity.
Qed.

Lemma column_values_elem (cs : list (column (V := V))) key v :
  v ∈ column_values cs key -> exists c, c ∈ cs /\ c.1 = key /\ v ∈ concat c.2.
Proof.
  intros Hv. unfold column_values in Hv. unfold column in *. destruct (List.find _ cs) as [c|] eqn:E; [|apply elem_of_nil in Hv as []].
  apply List.find_some in E as [Hc Ek]. apply list_elem_of_In in Hc. apply bool_decide_eq_true in Ek. eauto.
Qed.

(** Every value of the file is within the blocks of its key. *)
Lemma values_spanned b cs d live key v :
  shows b cs d live -> StronglySorted (fun a b : column (V := V) => bytes_lt a.1 b.1) cs -> v ∈ column_values cs key -> spanned live key (bc_time v) = true.
Proof.
  intros H Hs Hv. apply column_values_elem in Hv as (c & Hc & Ek & Hv).
  assert (c.1 ∈ map (fun x => s_key x.2) live) as Hin by (rewrite (sh_keys _ _ _ _ H); apply list_elem_of_fmap; eauto).
  apply list_elem_of_fmap in Hin as ([ofs s] & Es & Hin). cbn in Es. pose proof (sh_at _ _ _ _ H) as A. unfold columns_at in A. rewrite Forall_forall in A.
  destruct (A _ Hin) as (c' & Hc' & Ek' & F). cbn in Ek', F.
  assert (concat c'.2 = concat c.2) as Ec by (rewrite <- !(column_values_in cs) by assumption; congruence).
  pose proof (find_live_in live (ofs, s) (rep_sorted _ _ (sh_rep _ _ _ _ H)) Hin) as Ef. cbn in Ef.
  unfold spanned, live_entries. rewrite <- Ek, Es, Ef.
  rewrite <- Ec in Hv. apply list_elem_of_In, in_concat in Hv as (vs & Hvs & Hv). apply list_elem_of_In, list_elem_of_lookup in Hvs as [i Hi].
  apply Forall2_flip in F. destruct (Forall2_lookup_l _ _ _ _ _ F Hi) as (e & He & Hh).
  apply existsb_exists. exists e. split; [apply list_elem_of_In; eapply list_elem_of_lookup_2; exact He|].
  destruct Hh as (? & ? & ? & _ & _ & _ & Emin & Emax & (_ & _ & Hinc & _) & _). pose proof (block_times vs Hinc) as B.
  rewrite Forall_forall in B. specialize (B v ltac:(apply list_elem_of_In; exact Hv)). unfold entry_Contains. rewrite Emin, Emax. lia.
Qed.

Lemma value_time cs key v : Forall column_ok cs -> v ∈ column_values cs key -> is_i64 (bc_time v).
Proof.
  intros Hc Hv. apply column_values_elem in Hv as (c & Hin & _ & Hv). rewrite Forall_forall in Hc. destruct (Hc c Hin) as (_ & _ & Hb & _).
  apply list_elem_of_In, in_concat in Hv as (vs & Hvs & Hv). apply list_elem_of_In in Hvs, Hv. rewrite Forall_forall in Hb.
  destruct (Hb vs Hvs) as (_ & _ & _ & Ht). rewrite Forall_forall in Ht. apply Ht, Hv.
Qed.

(** A reader returns what is left of a key. *)
Lemma ReadAll_left b cs T r key q :
  reader_of b cs T r -> columns_ok cs -> zlen b < 2 ^ 31 -> bc_usable q ->
  exists q', rd_ReadAll r key q = (Ok (left_values cs T key), q') /\ bc_usable q'.
Proof.
  intros [(a & f & Ea) (d0 & live0 & live & Hs & [R _ _ Sub _] & Hv) _] [Hc Hsorted] Hz Hq. unfold rd_ReadAll. rewrite Ea.
  destruct (readAll_visible b (rd_index r) live cs key q a f R) as (q' & E & Hq'); auto.
  - pose proof (sh_at _ _ _ _ Hs) as A. unfold columns_at in *. rewrite Forall_forall in *. auto.
  - exists q'. split; [|exact Hq']. rewrite E. do 2 f_equal. unfold left_values. apply List.filter_ext_in. intros v Hin. apply list_elem_of_In in Hin.
    rewrite Hv by (eapply value_time; eassumption). rewrite (values_spanned _ _ _ _ _ _ Hs Hsorted Hin). reflexivity.
Qed.

(** ** Applying the tombstones of a file *)

(** After the tombstones [T]: the first [A] of them are in the index, the keys
    of the rest are collected and share one range. *)
Definition applied (b : list Z) (cs : list (column (V := V))) (T : list (list Z * Z * Z)) (s : apply_state) : Prop :=
  exists A ks d, T = A ++ map (fun k => (k, (as_prev s).1, (as_prev s).2)) ks /\ as_batch s = map KOwn ks
    /\ as_index s = Some d /\ index_after b cs A d.

Lemma batch_delete_after b cs A d h ks mn mx :
  index_after b cs A d -> is_i64 mn -> is_i64 mx ->
  exists d', batch_delete h (map KOwn ks) (mn, mx) (Some d) = Some d' /\ index_after b cs (A ++ map (fun k => (k, mn, mx)) ks) d'.
Proof.
  intros Hd Hmn Hmx. destruct (after_delete b cs A d ks mn mx Hd Hmn Hmx) as (d' & E & Hd'). exists d'. split; [|exact Hd'].
  unfold batch_delete. rewrite map_map. cbn [key_of fst snd]. rewrite map_id, E. reflexivity.
Qed.

Definition ranged (s : apply_state) : Prop := as_batch s = [] \/ (is_i64 (as_prev s).1 /\ is_i64 (as_prev s).2).

(** A change of range flushes the batch. *)
Lemma apply_flush b cs T s h cur :
  applied b cs T s -> ranged s ->
  let '(o, batch) := match as_batch s with
                     | [] => (as_index s, [])
                     | _ => if bool_decide (as_prev s = cur) then (as_index s, as_batch s)
                            else (batch_delete h (as_batch s) (as_prev s) (as_index s), [])
                     end in
  exists A ks d, T = A ++ map (fun k => (k, cur.1, cur.2)) ks /\ batch = map KOwn ks /\ o = Some d /\ index_after b cs A d
    /\ (ks = [] \/ as_prev s = cur).
Proof.
  intros (A & ks & d & ET & Eb & Ei & Hd) Hr. rewrite Eb, Ei. destruct ks as [|k ks].
  - exists A, [], d. cbn in *. auto 6.
  - cbn [map]. destruct (bool_decide (as_prev s = cur)) eqn:E.
    + apply bool_decide_eq_true in E. exists A, (k :: ks), d. rewrite <- E. auto 6.
    + destruct Hr as [Hr|[Hmn Hmx]]; [rewrite Eb in Hr; discriminate|]. destruct (as_prev s) as [mn mx]. cbn [fst snd] in *.
      destruct (batch_delete_after b cs A d h (k :: ks) mn mx Hd Hmn Hmx) as (d' & E' & Hd'). cbn [map] in E'. rewrite E'.
      exists T, [], d'. rewrite ET. cbn [map] in *. rewrite !app_nil_r. auto 6.
Qed.

Lemma apply_one_applied b cs T s h t :
  applied b cs T s -> ranged s -> tomb_ok t ->
  applied b cs (T ++ [t]) (apply_one h (own t) s) /\ ranged (apply_one h (own t) s).
Proof.
  intros Ha Hr Ht. destruct t as [[k mn] mx]. destruct Ht as (_ & Hmn & Hmx). unfold apply_one. cbn [own ts_Min ts_Max ts_Key].
  pose proof (apply_flush b cs T s h (mn, mx) Ha Hr) as F. destruct (match as_batch s with [] => _ | _ => _ end) as [o batch].
  destruct F as (A & ks & d & -> & -> & -> & Hd & Hk). cbn [fst snd]. rewrite length_app, length_map. cbn [length].
  destruct (Nat.leb_spec batchSize (length ks + 1)) as [Hfull|Hfew].
  - destruct Hk as [->|Hp]; [unfold batchSize in Hfull; cbn in Hfull; lia|]. rewrite Hp. change [KOwn k] with (map KOwn [k]). rewrite <- map_app.
    destruct (batch_delete_after b cs A d h (ks ++ [k]) mn mx Hd Hmn Hmx) as (d' & -> & Hd'). split; [|left; reflexivity].
    exists (A ++ map (fun k => (k, mn, mx)) (ks ++ [k])), [], d'. cbn. rewrite app_nil_r, map_app, app_assoc. rewrite map_app, app_assoc in Hd'. auto.
  - split; [|right; auto]. exists A, (ks ++ [k]), d. cbn. rewrite !map_app, <- app_assoc. auto.
Qed.

Lemma apply_all b cs T s h :
  Forall tomb_ok T -> forall P, applied b cs P s -> ranged s ->
  exists h' s', fold_left (fun (x : heap * apply_state) t => ([], apply_one [] (own t) x.2)) T (h, s) = (h', s') /\ applied b cs (P ++ T) s' /\ ranged s'.
Proof.
  intros HT. revert s h. induction HT as [|t T Ht HT IH]; intros s h P Ha Hr; cbn [fold_left].
  - exists h, s. rewrite app_nil_r. auto.
  - destruct (apply_one_applied b cs P s [] t Ha Hr Ht) as [Ha' Hr']. destruct (IH (apply_one [] (own t) s) [] (P ++ [t]) Ha' Hr') as (h' & s' & E & Ha'' & Hr'').
    exists h', s'. rewrite <- app_assoc in Ha''. auto.
Qed.

Lemma applyTombstones_after b cs T file d :
  index_after b cs [] d -> file_holds file T ->
  exists d', applyTombstones file d = (Ok tt, Some d') /\ index_after b cs T d'.
Proof.
  intros Hd [HT Hf]. unfold applyTombstones. destruct file as [fb|]; subst; [rewrite (Walk_v3 _ _ _ HT)|exists d; auto].
  destruct (apply_all b cs T (mkAS (Some d) [] (0, 0)) [] HT []) as (h' & s' & E & (A & ks & d' & ET & Eb & Ei & Hd') & Hr).
  { exists [], [], d. auto. }
  { left. reflexivity. }
  match goal with |- context [fold_left ?f T ?a] => replace (fold_left f T a) with (h', s') by (symmetry; exact E) end. cbv iota beta.
  rewrite Eb, Ei. cbn [app] in ET. destruct ks as [|k ks].
  - cbn in *. rewrite app_nil_r in ET. subst. eauto.
  - destruct Hr as [Hr|[Hmn Hmx]]; [rewrite Eb in Hr; discriminate|].
    destruct (batch_delete_after b cs A d' h' (k :: ks) (as_prev s').1 (as_prev s').2 Hd' Hmn Hmx) as (d2 & E2 & Hd2).
    rewrite <- surjective_pairing in E2. cbn [map] in E2 |- *. rewrite E2, ET. eauto.
Qed.

(** Opening a file with its tombstones. *)
Lemma open_reader b cs T file :
  tsm_file b cs -> columns_ok cs -> zlen b < 2 ^ 31 -> file_holds file T ->
  exists r, NewTSMReader b file = Ok r /\ reader_of b cs T r /\ rd_refs r = 0.
Proof.
  intros Hb Hc Hz Hf. destruct (open_shows b cs Hb Hc Hz) as (d & live & E & Hs).
  destruct (applyTombstones_after b cs T file d (shows_after _ _ _ _ Hs) Hf) as (d' & E' & Hd'). unfold NewTSMReader. rewrite E, E'.
  eexists. split; [reflexivity|]. split; [|reflexivity]. split; cbn; eauto.
Qed.

(** ** Deleting *)

Record deletion := mkDel { del_keys : list (list Z); del_min : Z; del_max : Z }.

Definition deletion_ok (o : deletion) : Prop :=
  StronglySorted bytes_le (del_keys o) /\ Forall (fun k => zlen k < 2 ^ 32) (del_keys o) /\ is_i64 (del_min o) /\ is_i64 (del_max o).

Definition deletes (o : deletion) (key : list Z) (t : Z) : bool := hit (del_keys o) (del_min o) (del_max o) key t.

(** Sorted keys lie between the first and the last. *)
Lemma sorted_between {A} (R : A -> A -> Prop) l a z x :
  (forall x, R x x) -> StronglySorted R l -> head l = Some a -> last l = Some z -> x ∈ l -> R a x /\ R x z.
Proof.
  intros Rr H Ha Hz Hx. apply list_elem_of_lookup in Hx as [i Hi]. rewrite head_lookup in Ha. rewrite last_lookup in Hz.
  pose proof (lookup_lt_Some _ _ _ Hi). split.
  - destruct i as [|i]; [rewrite Hi in Ha; injection Ha as <-; apply Rr|]. exact (StronglySorted_lookup_lt _ _ _ _ _ _ H Ha Hi ltac:(lia)).
  - destruct (decide (i = pred (length l))) as [->|Hne]; [rewrite Hi in Hz; injection Hz as <-; apply Rr|].
    exact (StronglySorted_lookup_lt _ _ _ _ _ _ H Hi Hz ltac:(lia)).
Qed.

Lemma bytes_le_refl a : bytes_le a a.
Proof. unfold bytes_le. rewrite bytes_compare_refl. discriminate. Qed.

Lemma bytes_le_lt a b : bytes_le a b <-> a = b \/ bytes_lt a b.
Proof.
  unfold bytes_le, bytes_lt. split.
  - destruct (bytes_compare a b) eqn:E; [left; apply bytes_compare_eq; exact E|auto|intros H; contradiction].
  - intros [->|H]; [rewrite bytes_compare_refl; discriminate|congruence].
Qed.

Lemma bytes_le_trans a b c : bytes_le a b -> bytes_le b c -> bytes_le a c.
Proof.
  rewrite !bytes_le_lt. intros [->|H1] [->|H2]; auto. right. eapply bytes_lt_trans; eassumption.
Qed.

(** A deletion that is skipped because of its keys or its times hits nothing. *)
Lemma skipped_keys b cs T d keys k1 k2 key v :
  index_after b cs T d -> StronglySorted (fun a b : column (V := V) => bytes_lt a.1 b.1) cs -> StronglySorted bytes_le keys ->
  head keys = Some k1 -> last keys = Some k2 -> ix_OverlapsKeyRange d k1 k2 = false -> v ∈ column_values cs key -> key ∉ keys.
Proof.
  intros (d0 & live0 & live & Hs & [_ _ _ _ (Fmin & Fmax & _)] & _) Hcs Hk H1 H2 Ho Hv Hin.
  apply column_values_elem in Hv as (c & Hc & <- & _). destruct (sorted_between bytes_le keys k1 k2 c.1 bytes_le_refl Hk H1 H2 Hin) as [Ha Hb].
  pose proof (sh_min _ _ _ _ Hs) as Emin. pose proof (sh_max _ _ _ _ Hs) as Emax. rewrite <- Fmin in Emin. rewrite <- Fmax in Emax.
  destruct (head cs) as [c0|] eqn:E0; [|discriminate]. destruct (last cs) as [c1|] eqn:E1; [|discriminate]. cbn in Emin, Emax.
  injection Emin as Emin. injection Emax as Emax.
  destruct (sorted_between (fun a b : column (V := V) => bytes_le a.1 b.1) cs c0 c1 c) as [Hc0 Hc1]; auto.
  { intros x. apply bytes_le_refl. }
  { clear -Hcs. induction Hcs as [|x l H IH F]; constructor; [exact IH|]. eapply Forall_impl; [exact F|]. intros y Hy. apply bytes_le_lt. auto. }
  unfold ix_OverlapsKeyRange in Ho. rewrite Emin, Emax in Ho.
  assert (bytes_le c0.1 k2) as L1 by (eapply bytes_le_trans; eassumption). assert (bytes_le k1 c1.1) as L2 by (eapply bytes_le_trans; eassumption).
  unfold bytes_le in L1, L2. rewrite (bytes_compare_antisym c1.1 k1) in L2.
  destruct (bytes_compare c0.1 k2); try congruence; destruct (bytes_compare c1.1 k1); cbn in *; congruence.
Qed.

Lemma skipped_times b cs T d mn mx key v :
  index_after b cs T d -> StronglySorted (fun a b : column (V := V) => bytes_lt a.1 b.1) cs ->
  ix_OverlapsTimeRange d mn mx = false -> v ∈ column_values cs key -> covers (mkTR mn mx) (bc_time v) = false.
Proof.
  intros (d0 & live0 & live & Hs & [_ _ _ _ (_ & _ & Fmin & Fmax & _)] & _) Hcs Ho Hv.
  pose proof (values_spanned _ _ _ _ _ _ Hs Hcs Hv) as Hsp. destruct (spanned_bounds _ _ _ _ (sh_timed _ _ _ _ Hs) Hsp) as (s & _ & _ & B & B1 & B2).
  unfold ix_OverlapsTimeRange in Ho. rewrite Fmin, Fmax in Ho. unfold covers. cbn. lia.
Qed.

Lemma DeleteRange_reader b cs T r o :
  reader_of b cs T r -> columns_ok cs -> deletion_ok o ->
  exists r' T', rd_DeleteRange true (del_keys o) (del_min o) (del_max o) r = (Ok tt, r') /\ reader_of b cs T' r'
    /\ forall key v, v ∈ column_values cs key -> hits T' key (bc_time v) = hits T key (bc_time v) || deletes o key (bc_time v).
Proof.
  intros H [_ Hcs] (Hk & Hlen & Hmn & Hmx). destruct o as [keys mn mx]. cbn [del_keys del_min del_max] in *. unfold deletes. cbn [del_keys del_min del_max].
  unfold rd_DeleteRange. destruct keys as [|k0 ks]; cbn [head].
  { exists r, T. split; [reflexivity|]. split; [exact H|]. intros key v _. unfold hit.
    rewrite bool_decide_eq_false_2 by (intros E; apply elem_of_nil in E as []). rewrite orb_false_r. reflexivity. }
  assert (head (k0 :: ks) = Some k0) as E1 by reflexivity. assert (k0 :: ks <> []) as Hne by discriminate. revert E1 Hne Hk Hlen. generalize (k0 :: ks). intros keys E1 Hne Hk Hlen.
  destruct (last keys) as [k1|] eqn:E2; [|apply last_None in E2; contradiction].
  destruct (ix_OverlapsKeyRange (rd_index r) k0 k1) eqn:Eo; cbn [negb].
  2:{ exists r, T. split; [reflexivity|]. split; [exact H|]. intros key v Hv. unfold hit.
      rewrite bool_decide_eq_false_2 by (eapply skipped_keys; [exact (ro_index _ _ _ _ H)|..]; eassumption). rewrite orb_false_r. reflexivity. }
  destruct (ix_OverlapsTimeRange (rd_index r) mn mx) eqn:Et; cbn [negb].
  2:{ exists r, T. split; [reflexivity|]. split; [exact H|]. intros key v Hv. unfold hit.
      rewrite (skipped_times _ _ _ _ _ _ _ _ (ro_index _ _ _ _ H) Hcs Et Hv), andb_false_r, orb_false_r. reflexivity. }
  destruct (AddRange_holds (rd_tomb r) T keys mn mx (ro_file _ _ _ _ H) Hne Hlen Hmn Hmx) as (file' & -> & Hf).
  destruct (after_delete b cs T (rd_index r) keys mn mx (ro_index _ _ _ _ H) Hmn Hmx) as (d' & -> & Hd').
  eexists _, _. split; [reflexivity|]. split; [split; cbn; [exact (ro_bytes _ _ _ _ H)|exact Hd'|exact Hf]|].
  intros key v _. rewrite hits_app, hits_range. reflexivity.
Qed.

Fixpoint delete_all (l : list deletion) (r : TSMReader) : res werr unit * TSMReader :=
  match l with
  | [] => (Ok tt, r)
  | o :: l' => match rd_DeleteRange true (del_keys o) (del_min o) (del_max o) r with
               | (Ok _, r') => delete_all l' r'
               | e => e
               end
  end.

Lemma delete_all_reader b cs T r l :
  reader_of b cs T r -> columns_ok cs -> Forall deletion_ok l ->
  exists r' T', delete_all l r = (Ok tt, r') /\ reader_of b cs T' r'
    /\ forall key v, v ∈ column_values cs key -> hits T' key (bc_time v) = hits T key (bc_time v) || existsb (fun o => deletes o key (bc_time v)) l.
Proof.
  intros H Hc Hl. revert r T H. induction Hl as [|o l Ho Hl IH]; intros r T H; cbn [delete_all existsb].
  - exists r, T. split; [reflexivity|]. split; [exact H|]. intros. rewrite orb_false_r. reflexivity.
  - destruct (DeleteRange_reader b cs T r o H Hc Ho) as (r1 & T1 & -> & H1 & Hh1). destruct (IH r1 T1 H1) as (r2 & T2 & E & H2 & Hh2).
    exists r2, T2. split; [exact E|]. split; [exact H2|]. intros key v Hv. rewrite (Hh2 key v Hv), (Hh1 key v Hv), orb_assoc. reflexivity.
Qed.

(** What is left of a key after deletions. *)
Definition undeleted (cs : list (column (V := V))) (l : list deletion) (key : list Z) : list V :=
  List.filter (fun v => negb (existsb (fun o => deletes o key (bc_time v)) l)) (column_values cs key).

(** The reader returns, for every key, what is expected. *)
Definition reads (r : TSMReader) (expected : list Z -> list V) : Prop :=
  forall key q, bc_usable q -> exists q', rd_ReadAll r key q = (Ok (expected key), q') /\ bc_usable q'.

Lemma reads_undeleted b cs T r l :
  reader_of b cs T r -> columns_ok cs -> zlen b < 2 ^ 31 ->
  (forall key v, v ∈ column_values cs key -> hits T key (bc_time v) = existsb (fun o => deletes o key (bc_time v)) l) ->
  reads r (undeleted cs l).
Proof.
  intros H Hc Hz Hh key q Hq. destruct (ReadAll_left b cs T r key q H Hc Hz Hq) as (q' & E & Hq'). exists q'. split; [|exact Hq'].
  rewrite E. do 2 f_equal. unfold left_values, undeleted. apply List.filter_ext_in. intros v Hv. apply list_elem_of_In in Hv. rewrite (Hh key v Hv). reflexivity.
Qed.

(** A file opened without tombstones shows its columns. *)
Lemma open_reads b cs :
  tsm_file b cs -> columns_ok cs -> zlen b < 2 ^ 31 -> exists r, NewTSMReader b None = Ok r /\ reads r (column_values cs).
Proof.
  intros Hb Hc Hz. destruct (open_reader b cs [] None Hb Hc Hz) as (r & E & Hr & _); [split; [constructor|reflexivity]|]. exists r. split; [exact E|].
  intros key q Hq. destruct (reads_undeleted b cs [] r [] Hr Hc Hz ltac:(reflexivity) key q Hq) as (q' & E' & Hq'). exists q'. split; [|exact Hq'].
  rewrite E'. do 2 f_equal. unfold undeleted. cbn. induction (column_values cs key) as [|v l IH]; [reflexivity|]. cbn. f_equal. exact IH.
Qed.

End Durable.
