(* ===== verification/TSMStore.v ===== *)
(** * TSM files end to end

    The block codec of [encoding.go] keeps the promise that the files need, and
    the two main theorems about the files: what is written can be read back,
    and deletions survive reopening. *)

From S2P Require Import Prelude Bytes Simple8b TimeCodec StringCodec FloatCodec ValueCodec Blocks BlockFacts Values TypedValues Varint TSMWriter TSMIndex TSMIndexFacts TSMDelete Tombstone TSMReader TSMFile TSMDurable.

(** ** The blocks of [encoding.go] *)

Section Codec.
Context `{S8 : Simple8b} `{SN : Snappy} `{BS : BitStream}.
Context `{L8 : !Simple8bLaws} `{LS : !SnappyLaws} `{LB : !BitStreamLaws}.
(** The encoders of the pools, and [tsdb.EOF] of influxdb. *)
Context (p : encoders) (tsdb_EOF : Z).

#[export] Instance value_blocks : BlockCodec Value decoders :=
  {| bc_time := Value_UnixNano tsdb_EOF; bc_Encode a := Encode a p; bc_Decode := DecodeBlock |}.

(** A block that decodes to values has a type. *)
Lemma decoded_type b q a q' : DecodeBlock b q = (Some (a, None), q') -> exists t, BlockType b = Ok t.
Proof.
  unfold DecodeBlock. destruct (zlen b <=? 1); [discriminate|]. destruct (BlockType b) as [t|e|]; [eauto|discriminate|discriminate].
Qed.

Lemma fresh_usable : usable decoders_ex.
Proof. split; reflexivity. Qed.

(** *** Reading a block of one type *)

Definition read_typed {V} {VC : ValueCodec V} (m : mmapAccessor) (e : IndexEntry) (td : TimeDecoder) (vd : vc_dec)
    : res werr (list (tv V)) * TimeDecoder * vc_dec :=
  if zlen (mapped m) <? i64 (Offset e + Size e) then (Err ErrTSMClosed, td, vd)
  else match block_bytes (mapped m) e with
       | None => (Panic, td, vd)
       | Some block =>
           match DecodeBlockOf block td vd with
           | (Some (l, None), td', vd') => (Ok l, td', vd')
           | (Some (_, Some x), td', vd') => (Err (ErrBlock x), td', vd')
           | (None, td', vd') => (Panic, td', vd')
           end
       end.

Definition readFloatBlock := read_typed (VC := float_codec).
Definition readIntegerBlock := read_typed (VC := integer_codec).
Definition readUnsignedBlock := read_typed (VC := unsigned_codec).
Definition readStringBlock := read_typed (VC := string_codec).
Definition readBooleanBlock := read_typed (VC := boolean_codec).

#[export] Instance value_blocks_laws : BlockCodecLaws value_blocks.
Proof.
  refine {| bc_storable a := storable a /\ zlen a < 2 ^ 58; bc_usable := usable |}.
  intros a Hne [Hs Hz]. destruct (Encode_decodes a p Hne Hs Hz) as (b & E & _ & R). destruct (R _ fresh_usable) as (q' & Hd & _).
  destruct (decoded_type _ _ _ _ Hd) as [t Ht]. exists b, t. auto.
Defined.

End Codec.

(** ** The theorems *)

Section Store.
Context {V D : Type} `{BC : BlockCodec V D} {BL : BlockCodecLaws BC}.
Context `{BU : BytesUtil} {UL : BytesUtilLaws} `{GZ : Gzip} {GL : GzipLaws}.

(** C15 (round trip). Columns of blocks, keys in order and times increasing, that
    fit into two gigabytes are written without error; the file opens,
    its index lists exactly the keys in order, and reading all of a key gives
    back its values, for a key that was not written none. *)
Theorem tsm_file_roundtrip (Sort_entries : list IndexEntry -> list IndexEntry) (cs : list column) :
  columns_ok cs -> cs <> [] -> 13 + data_size cs + index_size cs < 2 ^ 31 ->
  exists t r, write_file Sort_entries cs NewTSMWriter = (Ok tt, t) /\ NewTSMReader (tw_out t) None = Ok r
    /\ ix_KeyCount (rd_index r) = zlen cs
    /\ (forall i c, cs !! i = Some c -> res_map (fun x => x.1.1) (ix_Key (rd_index r) (Z.of_nat i)) = Ok c.1)
    /\ reads r (column_values cs).
Proof.
  intros Hc Hne Hz. destruct (write_file_tsm Sort_entries cs Hc Hne Hz) as (t & Ew & Hb & Hl).
  destruct (open_shows _ _ Hb Hc ltac:(lia)) as (d & live & Ei & Hs). set (r := mkRD 0 (mkMA (Some (tw_out t)) 1 1) d None (zlen (tw_out t))).
  exists t, r. split; [exact Ew|]. split; [unfold NewTSMReader; rewrite Ei; reflexivity|]. cbn [rd_index r].
  pose proof (sh_keys _ _ _ _ Hs) as K. split; [|split].
  - unfold ix_KeyCount. rewrite (rep_offsets _ _ (sh_rep _ _ _ _ Hs)). apply (f_equal length) in K. rewrite !length_map in K. unfold zlen. rewrite length_map, K. reflexivity.
  - intros i c Hi. assert (map (fun x => s_key x.2) live !! i = Some c.1) as E by (unfold column in *; rewrite K, list_lookup_fmap, Hi; reflexivity).
    rewrite list_lookup_fmap in E. destruct (live !! i) as [[ofs s]|] eqn:El; [|discriminate]. cbn in E. injection E as E.
    rewrite (Key_live _ _ _ _ _ (sh_rep _ _ _ _ Hs) El). cbn. rewrite E. reflexivity.
  - assert (reads r (undeleted cs [])) as R.
    { apply (reads_undeleted (tw_out t) cs [] r []); auto; [|lia]. split; cbn; [eauto|exact (shows_after _ _ _ _ Hs)|split; [constructor|reflexivity]]. }
    intros key q Hq. destruct (R key q Hq) as (q' & E & Hq'). exists q'. split; [|exact Hq']. rewrite E. do 2 f_equal.
    unfold undeleted. cbn. induction (column_values cs key) as [|v l IH]; [reflexivity|]. cbn. f_equal. exact IH.
Qed.

(** C16 (durability of deletes). After any sequence of range deletions, each of
    sorted keys, the reader shows for every key exactly the values no deletion
    hit; and so does a reader that opens the file anew together with the
    tombstone file the deletions left. *)
Theorem deletes_durable (Sort_entries : list IndexEntry -> list IndexEntry) (cs : list column) (l : list deletion) :
  columns_ok cs -> cs <> [] -> 13 + data_size cs + index_size cs < 2 ^ 31 -> Forall deletion_ok l ->
  exists t r r' r2, write_file Sort_entries cs NewTSMWriter = (Ok tt, t) /\ NewTSMReader (tw_out t) None = Ok r
    /\ delete_all l r = (Ok tt, r') /\ reads r' (undeleted cs l)
    /\ NewTSMReader (tw_out t) (rd_tomb r') = Ok r2 /\ reads r2 (undeleted cs l).
Proof.
  intros Hc Hne Hz Hl. destruct (write_file_tsm Sort_entries cs Hc Hne Hz) as (t & Ew & Hb & Hlen).
  assert (zlen (tw_out t) < 2 ^ 31) as Hlt by lia.
  destruct (open_reader _ _ [] None Hb Hc Hlt) as (r & Er & Hr & _); [split; [constructor|reflexivity]|].
  destruct (delete_all_reader _ _ _ _ l Hr Hc Hl) as (r' & T & Ed & Hr' & Hh).
  destruct (open_reader _ _ T (rd_tomb r') Hb Hc Hlt (ro_file _ _ _ _ Hr')) as (r2 & E2 & Hr2 & _).
  exists t, r, r', r2. split; [exact Ew|]. split; [exact Er|]. split; [exact Ed|].
  split; [|split; [exact E2|]]; (eapply reads_undeleted; [eassumption|exact Hc|exact Hlt|]); intros key v Hv; rewrite (Hh key v Hv); reflexivity.
Qed.

(** On an index that represents series, [DeleteRange] never fails
    or panics, the result again represents series, and what the index says to
    contain afterwards is what it said before without the given times of the
    given keys: whether it drops keys, records tombstones, or finds that the
    tombstones of a key have grown over all of it. *)
Theorem delete_range_exact (d : indirectIndex) (live : list (Z * series)) (keys : list (list Z)) (mn mx : Z) :
  ix_rep d live -> timed d live -> tombstones_ok d -> is_i64 mn -> is_i64 mx ->
  exists d' live', ix_DeleteRange keys mn mx d = (Ok tt, d') /\ ix_rep d' live' /\ timed d' live' /\ tombstones_ok d'
    /\ forall key t, is_i64 t ->
       ix_ContainsValue d' key t = res_map (fun b => b && negb (hit keys mn mx key t)) (ix_ContainsValue d key t).
Proof.
  intros R T TO Hmn Hmx. destruct (DeleteRange_ok d live keys mn mx R T TO (conj Hmn Hmx)) as (d' & E & live' & R' & T' & TO' & _ & Hv).
  exists d', live'. split; [exact E|]. split; [exact R'|]. split; [exact T'|]. split; [exact TO'|]. intros key t Ht.
  rewrite (ContainsValue_visible _ _ _ _ R'), (ContainsValue_visible _ _ _ _ R), (Hv key t Ht). reflexivity.
Qed.

End Store.

(** ** Witnesses *)

#[local] Existing Instance plain_words.
#[local] Existing Instance list_stream.
#[local] Instance id_snappy : Snappy := {| snappy_Encode b := b; snappy_Decode := Some |}.
#[local] Instance id_snappy_laws : SnappyLaws.
Proof. split. reflexivity. Defined.

#[local] Instance list_bytesutil : BytesUtil := {|
  SearchBytesFixed a f := Search (zlen a) (fun i => match a !! Z.to_nat i with Some x => f x | None => true end);
  bytesutil_IsSorted l := bool_decide (StronglySorted bytes_le l);
  bytesutil_Sort := merge_sort bytes_le |}.

#[local] Instance bytes_le_total : Total bytes_le.
Proof.
  intros a b. rewrite !bytes_le_lt. destruct (bytes_trichotomy a b) as [H|[H|H]]; auto.
Qed.
#[local] Instance bytes_le_transitive : Transitive bytes_le.
Proof. intros a b c. apply bytes_le_trans. Qed.

#[local] Instance list_bytesutil_laws : BytesUtilLaws.
Proof.
  split.
  - intros a f H. cbn [SearchBytesFixed list_bytesutil].
    destruct (Search_spec (zlen a) (fun i => match a !! Z.to_nat i with Some x => f x | None => true end) (zlen_nonneg a)) as (H1 & H2 & H3).
    { intros i j Hi Hj Hx. destruct (lookup_lt_is_Some_2 a (Z.to_nat j)) as [y Hy]; [unfold zlen in Hj; lia|]. rewrite Hy.
      destruct (lookup_lt_is_Some_2 a (Z.to_nat i)) as [x Hx']; [unfold zlen in Hj; lia|]. rewrite Hx' in Hx. eapply H; [exact Hx'|exact Hy|lia|exact Hx]. }
    set (n := Search _ _) in H1, H2, H3 |- *.
    split; [exact H1|]. split; intros i x Hi Hlt; pose proof (lookup_lt_Some _ _ _ Hi) as L.
    + specialize (H2 (Z.of_nat i) ltac:(lia)). cbn in H2. rewrite Nat2Z.id, Hi in H2. exact H2.
    + specialize (H3 (Z.of_nat i) ltac:(unfold zlen; lia)). cbn in H3. rewrite Nat2Z.id, Hi in H3. exact H3.
  - intros l H. apply bool_decide_eq_true in H. exact H.
  - intros l. split; [apply merge_sort_Permutation|apply StronglySorted_merge_sort; exact _].
Qed.

#[local] Instance id_gzip : Gzip := {| gzip b := b; gunzip b := Some (b, GzEOF) |}.
#[local] Instance id_gzip_laws : GzipLaws.
Proof. split. reflexivity. Qed.

#[local] Instance ex_blocks : BlockCodec Value decoders := value_blocks encoders_ex 0.
#[local] Instance ex_blocks_laws : BlockCodecLaws ex_blocks :=
  value_blocks_laws (L8 := plain_laws) (LB := list_stream_laws) encoders_ex 0.

(** Two series: one of strings in two blocks, one of booleans. *)
Definition strings2_ex : list (tv (list Z)) := [mkTV 3000 [111]; mkTV 4000 [112; 113]].
Definition columns_ex : list column :=
  [([99; 112; 117], [map VString strings_ex; map VString strings2_ex]); ([109; 101; 109], [map VBoolean booleans_ex])].

Lemma string_block_ok (l : list (tv (list Z))) :
  l <> [] -> Forall (fun x => is_i64 (unixnano x)) l -> StronglySorted (fun x y => unixnano x < unixnano y) l -> storable (map VString l) ->
  zlen l < 2 ^ 58 -> block_ok (map VString l).
Proof.
  intros Hne Ht Hs Hst Hz. split; [destruct l; [contradiction|discriminate]|]. split; [split; [exact Hst|rewrite zlen_map; exact Hz]|]. split.
  - clear -Hs. induction Hs as [|x l H IH F]; [constructor|]. cbn. constructor; [exact IH|]. rewrite Forall_map. exact F.
  - rewrite Forall_map. exact Ht.
Qed.

Lemma columns_ex_ok : columns_ok columns_ex.
Proof.
  assert (block_ok (map VString strings_ex)) as B1.
  { apply string_block_ok; [discriminate| | |apply st_string; [|vm_compute; reflexivity]|vm_compute; reflexivity]; repeat constructor; vm_compute; congruence. }
  assert (block_ok (map VString strings2_ex)) as B2.
  { apply string_block_ok; [discriminate| | |apply st_string; [|vm_compute; reflexivity]|vm_compute; reflexivity]; repeat constructor; vm_compute; congruence. }
  assert (block_ok (map VBoolean booleans_ex)) as B3.
  { split; [discriminate|]. split; [split; [apply st_boolean; repeat constructor; vm_compute; congruence|vm_compute; reflexivity]|].
    split; repeat constructor; vm_compute; congruence. }
  split; [|repeat constructor]. apply Forall_cons. split; [|apply Forall_singleton].
  - split; [split; vm_compute; congruence|]. split; [split; vm_compute; congruence|]. split; [repeat (apply Forall_cons; split; [assumption|]); apply Forall_nil; exact I|].
    repeat constructor.
  - split; [split; vm_compute; congruence|]. split; [split; vm_compute; congruence|]. split; [apply Forall_singleton; exact B3|repeat constructor].
Qed.

Definition no_sort (l : list IndexEntry) : list IndexEntry := l.

Lemma columns_ex_size : 13 + data_size columns_ex + index_size columns_ex < 2 ^ 31.
Proof. vm_compute. reflexivity. Qed.

Lemma tsm_file_roundtrip_witness :
  exists t r, write_file no_sort columns_ex NewTSMWriter = (Ok tt, t) /\ NewTSMReader (tw_out t) None = Ok r
    /\ ix_KeyCount (rd_index r) = 2 /\ reads r (column_values columns_ex).
Proof.
  destruct (tsm_file_roundtrip no_sort columns_ex columns_ex_ok) as (t & r & H1 & H2 & H3 & _ & H4); [discriminate|exact columns_ex_size|].
  exists t, r. auto.
Defined.

(** The middle of the strings, then all of the booleans. *)
Definition deletions_ex : list deletion := [mkDel [[99; 112; 117]] 1500 3500; mkDel [[97]; [109; 101; 109]] 0 20].

Lemma deletions_ex_ok : Forall deletion_ok deletions_ex.
Proof. repeat constructor; vm_compute; congruence. Qed.

Lemma deletes_durable_witness :
  (exists t r r' r2, write_file no_sort columns_ex NewTSMWriter = (Ok tt, t) /\ NewTSMReader (tw_out t) None = Ok r
    /\ delete_all deletions_ex r = (Ok tt, r') /\ reads r' (undeleted columns_ex deletions_ex)
    /\ NewTSMReader (tw_out t) (rd_tomb r') = Ok r2 /\ reads r2 (undeleted columns_ex deletions_ex))
  /\ undeleted columns_ex deletions_ex [99; 112; 117] = [VString (mkTV 1000 [104; 105]); VString (mkTV 4000 [112; 113])]
  /\ undeleted columns_ex deletions_ex [109; 101; 109] = [].
Proof.
  split; [|split; vm_compute; reflexivity].
  apply (deletes_durable no_sort columns_ex deletions_ex columns_ex_ok); [discriminate|exact columns_ex_size|exact deletions_ex_ok].
Defined.

(** One series of two blocks; a tombstone over the first grows over all of it. *)
Definition series_ex : list series := [mkSeries [99] 1 [mkEntry 10 20 5 30; mkEntry 30 40 35 30]].
Definition index_ex : indirectIndex := (ix_UnmarshalBinary (enc_index series_ex) NewIndirectIndex).2.

Lemma delete_range_exact_witness :
  exists d' live', ix_DeleteRange [[99]] 10 25 index_ex = (Ok tt, d') /\ ix_rep d' live' /\ timed d' live' /\ tombstones_ok d'
    /\ forall key t, is_i64 t ->
       ix_ContainsValue d' key t = res_map (fun b => b && negb (hit [[99]] 10 25 key t)) (ix_ContainsValue index_ex key t).
Proof.
  destruct (UnmarshalBinary_index series_ex NewIndirectIndex) as (d & E & R & Et & _ & Emn & Emx & _).
  - discriminate.
  - repeat constructor; vm_compute; congruence.
  - repeat constructor.
  - vm_compute. reflexivity.
  - assert (index_ex = d) as -> by (unfold index_ex; rewrite E; reflexivity).
    apply (delete_range_exact d (place 0 series_ex) [[99]] 10 25 R).
    + unfold timed. rewrite Emn, Emx. repeat constructor; vm_compute; congruence.
    + intros k. unfold ix_TombstoneRange. rewrite Et. cbn [ix_tombstones NewIndirectIndex]. rewrite lookup_empty. constructor.
    + vm_compute. split; congruence.
    + vm_compute. split; congruence.
Defined.
