(* ===== verification/TSMIter.v ===== *)
(** * Iterating over the blocks of a TSM file

    [BlockIterator] of [tsdb/engine/tsm1/reader.go], as the compactor drives it:
    [for iter.Next() { iter.Read() }] visits every block of every key in order.
    Also what the edges of the writer and the reader do. *)

From S2P Require Import Prelude Bytes Values Varint Blocks TSMWriter TSMIndex TSMIndexFacts TSMDelete Tombstone TSMReader TSMFile TSMDurable TSMStore.

Section Iterate.
Context {V D : Type} `{BC : BlockCodec V D} {BL : BlockCodecLaws BC}.
Context `{BU : BytesUtil} {UL : BytesUtilLaws} `{GZ : Gzip} {GL : GzipLaws}.

(** Key, start, end, type, checksum and bytes. *)
Definition block_read : Type := list Z * Z * Z * Z * Z * list Z.

(** The loop of the compactor over one file. *)
Fixpoint bi_collect (fuel : nat) (r : TSMReader) (b : BlockIterator) : res werr (list block_read) :=
  match fuel with
  | O => Err (ErrFormat "out of fuel")
  | S fuel' =>
      match bi_Next r b with
      | (Ok true, b1) =>
          match bi_Read r b1 with
          | Ok x => res_map (cons x) (bi_collect fuel' r b1)
          | Err e => Err e
          | Panic => Panic
          end
      | (Ok false, b1) => if bi_err b1 then Err (ErrFormat "delete during iteration") else Ok []
      | (Err e, _) => Err e
      | (Panic, _) => Panic
      end
  end.

(** What is to come: key, type and entry of every block. *)
Definition tagged (key : list Z) (typ : Z) (es : list IndexEntry) : list (list Z * Z * IndexEntry) := map (fun e => (key, typ, e)) es.
Definition blocks_of (live : list (Z * series)) : list (list Z * Z * IndexEntry) :=
  concat (map (fun x => tagged (s_key x.2) (s_type x.2) (s_entries x.2)) live).
Definition to_come (live : list (Z * series)) (b : BlockIterator) : list (list Z * Z * IndexEntry) :=
  tagged (bi_key b) (bi_typ b) (drop 1 (bi_entries b)) ++ blocks_of (drop (Z.to_nat (bi_i b)) live).

(** The iterator is in step with the index. *)
Definition bi_ok (live : list (Z * series)) (b : BlockIterator) : Prop :=
  bi_n b = zlen live /\ 0 <= bi_i b <= bi_n b /\ bi_err b = false.

Lemma blocks_of_drop live i ofs s :
  live !! i = Some (ofs, s) -> blocks_of (drop i live) = tagged (s_key s) (s_type s) (s_entries s) ++ blocks_of (drop (S i) live).
Proof. intros H. rewrite (drop_S _ _ _ H). reflexivity. Qed.

Lemma bi_Next_spec r live b :
  ix_rep (rd_index r) live -> bi_ok live b ->
  match to_come live b with
  | [] => exists b', bi_Next r b = (Ok false, b') /\ bi_err b' = false
  | (k, t, e) :: rest => exists b', bi_Next r b = (Ok true, b') /\ bi_ok live b' /\ to_come live b' = rest
                           /\ bi_key b' = k /\ bi_typ b' = t /\ head (bi_entries b') = Some e
  end.
Proof.
  intros R (Hn & Hi & He). unfold bi_Next, to_come. rewrite He. pose proof (zlen_nonneg live). pose proof (zlen_nonneg (bi_entries b)).
  destruct (drop 1 (bi_entries b)) as [|e rest] eqn:Ed.
  - cbn [tagged map app]. destruct (Z.eqb_spec (bi_n b - bi_i b) 0) as [E0|E0].
    + replace (Z.to_nat (bi_i b)) with (length live) by (unfold zlen in *; lia). rewrite drop_all. cbn [blocks_of map concat].
      destruct (zlen (bi_entries b) =? 0); cbn [andb]; [eauto|]. change (0 <? zlen (@nil IndexEntry)) with false. cbv iota.
      destruct (Z.ltb_spec 0 (bi_n b - bi_i b)); [lia|]. eauto.
    + cbn [andb]. change (0 <? zlen (@nil IndexEntry)) with false. cbv iota. destruct (Z.ltb_spec 0 (bi_n b - bi_i b)); [|lia].
      destruct (lookup_lt_is_Some_2 live (Z.to_nat (bi_i b))) as [[ofs s] Hs]; [unfold zlen in *; lia|].
      rewrite (blocks_of_drop _ _ _ _ Hs). pose proof (Key_live _ _ _ _ _ R Hs) as K. rewrite Z2Nat.id in K by lia. rewrite K.
      assert (bi_n b = ix_KeyCount (rd_index r)) as Ec by (unfold ix_KeyCount; rewrite (rep_offsets _ _ R), Hn; unfold zlen; rewrite length_map; reflexivity).
      rewrite Ec, Z.eqb_refl. cbn [negb]. rewrite <- Ec.
      pose proof (rep_pos _ _ R) as P. rewrite Forall_forall in P. destruct (P _ (list_elem_of_lookup_2 _ _ _ Hs)) as [_ (_ & Hne & _)]. cbn in Hne.
      destruct (s_entries s) as [|e es]; [unfold zlen in Hne; cbn in Hne; lia|]. cbn [tagged map app]. rewrite zlen_cons. pose proof (zlen_nonneg es).
      destruct (Z.ltb_spec 0 (1 + zlen es)); [|lia]. eexists. split; [reflexivity|]. cbn [bi_i bi_n bi_key bi_typ bi_entries bi_err drop head].
      split; [split; [exact Hn|split; [cbn; lia|reflexivity]]|]. split; [|auto]. replace (Z.to_nat (bi_i b + 1)) with (S (Z.to_nat (bi_i b))) by lia. reflexivity.
  - cbn [tagged map app]. destruct (bi_entries b) as [|e0 es]; [discriminate|]. change (es = e :: rest) in Ed. subst es. rewrite !zlen_cons. pose proof (zlen_nonneg rest).
    destruct (Z.eqb_spec (1 + (1 + zlen rest)) 0); [lia|]. rewrite andb_false_r.
    destruct (Z.ltb_spec 0 (1 + zlen rest)); [|lia]. eexists. split; [reflexivity|]. cbn [bi_i bi_n bi_key bi_typ bi_entries bi_err drop head tagged map].
    split; [split; [exact Hn|split; [cbn; lia|reflexivity]]|]. auto.
Qed.

(** What reading a block should give. *)
Definition read_of (out : list Z) (x : list Z * Z * IndexEntry) (y : block_read) : Prop :=
  let '(k, t, e) := x in
  exists block, y = (k, MinTime e, MaxTime e, t, u32 (ChecksumIEEE block), block) /\ block_bytes out e = Some block.

Lemma readBytes_holds out e vs a f :
  holds out e vs -> zlen out < 2 ^ 31 ->
  exists block, readBytes (mkMA (Some out) a f) e = Ok (u32 (ChecksumIEEE block), block) /\ block_bytes out e = Some block.
Proof.
  intros H Hz. destruct (holds_bounds _ _ _ H Hz) as ((_ & _ & Ho & Hs) & H0 & H1).
  destruct H as (pre & block & post & -> & Eo & Es & _). exists block. unfold readBytes. cbn [mapped ma_b default from_option]. change (@id (list Z)) with (fun x : list Z => x). cbv beta.
  pose proof (zlen_nonneg pre). pose proof (zlen_nonneg block).
  assert (block_bytes (pre ++ (be32 (ChecksumIEEE block) ++ block) ++ post) e = Some block) as Eb.
  { unfold block_bytes. rewrite !i64_small by (unfold is_i64 in *; lia).
    apply (sub_at _ (pre ++ be32 (ChecksumIEEE block)) block post); [rewrite <- !app_assoc; reflexivity|zlen_lia|zlen_lia]. }
  split; [|exact Eb]. rewrite Eb, !i64_small by (unfold is_i64 in *; lia).
  destruct (Z.ltb_spec (zlen (pre ++ (be32 (ChecksumIEEE block) ++ block) ++ post)) (Offset e + Size e)); [lia|].
  erewrite (sub_at _ pre (be32 (ChecksumIEEE block)) (block ++ post)); [|rewrite <- !app_assoc; reflexivity|lia|zlen_lia].
  unfold be32. rewrite be_dec_enc. reflexivity.
Qed.

(** The loop returns every block that is to come. *)
Lemma bi_collect_spec r live out fuel b :
  ix_rep (rd_index r) live -> (exists a f, rd_acc r = mkMA (Some out) a f) -> zlen out < 2 ^ 31 ->
  Forall (fun x : list Z * Z * IndexEntry => exists vs, holds out x.2 vs) (to_come live b) -> bi_ok live b -> (length (to_come live b) < fuel)%nat ->
  exists l, bi_collect fuel r b = Ok l /\ Forall2 (read_of out) (to_come live b) l.
Proof.
  intros R (a & f & Ea) Hz. revert b. induction fuel as [|fuel IH]; intros b Hh Hb Hf; [lia|]. cbn [bi_collect].
  pose proof (bi_Next_spec r live b R Hb) as N. destruct (to_come live b) as [|[[k t] e] rest] eqn:Et.
  - destruct N as (b' & -> & ->). exists []. split; [reflexivity|constructor].
  - destruct N as (b' & -> & Hb' & Er & Ek & Ety & Eh). apply Forall_cons in Hh as [[vs Hv] Hh]. cbn [snd] in Hv.
    unfold bi_Read. destruct Hb' as (Hn' & Hi' & He'). rewrite He'. destruct (bi_entries b') as [|e' es]; [discriminate|]. cbn in Eh. injection Eh as ->.
    rewrite Ea. destruct (readBytes_holds out e vs a f Hv Hz) as (block & -> & Eb). rewrite Ek, Ety.
    destruct (IH b') as (l & -> & Hl); [rewrite Er; exact Hh|exact (conj Hn' (conj Hi' He'))|rewrite Er; cbn in Hf; lia|].
    eexists. split; [reflexivity|]. rewrite Er in Hl. constructor; [exists block; auto|exact Hl].
Qed.

(** The blocks of the columns, with their keys. *)
Definition column_blocks (cs : list (column (V := V))) : list (list Z * list V) :=
  concat (map (fun c => map (fun vs => (c.1, vs)) c.2) cs).

(** A block read is the one that was written. *)
Definition read_back (x : list Z * list V) (y : block_read) : Prop :=
  let '(k, mn, mx, t, crc, block) := y in
  k = x.1 /\ mn = start_of x.2 /\ mx = end_of x.2 /\ crc = u32 (ChecksumIEEE block)
  /\ forall q, bc_usable q -> exists q', bc_Decode block q = (Some (x.2, None), q') /\ bc_usable q'.

Lemma read_of_back out key typ es vss l :
  Forall2 (holds out) es vss -> zlen out < 2 ^ 31 -> Forall2 (read_of out) (tagged key typ es) l ->
  Forall2 read_back (map (fun vs => (key, vs)) vss) l.
Proof.
  intros H Hz. revert l. induction H as [|e vs es vss He H IH]; intros l Hl; cbn [tagged map] in Hl; [inversion Hl; constructor|].
  inversion Hl as [|x y xs ys Hy Hl']; subst. destruct Hy as (block & -> & Eb). cbn [map]. constructor; [|apply IH; exact Hl']. destruct (holds_block _ _ _ He Hz) as (block' & Eb' & R). rewrite Eb in Eb'. injection Eb' as <-.
  destruct He as (_ & _ & _ & _ & _ & _ & Emin & Emax & _). cbn. auto.
Qed.

Lemma blocks_of_back out live (cs : list (column (V := V))) l :
  Forall2 (fun x c => c.1 = s_key x.2 /\ Forall2 (holds out) (s_entries x.2) c.2) live cs -> zlen out < 2 ^ 31 ->
  Forall2 (read_of out) (blocks_of live) l -> Forall2 read_back (column_blocks cs) l.
Proof.
  intros H Hz. revert l. induction H as [|x c live cs [Ek He] H IH]; intros l Hl; [inversion Hl; constructor|].
  unfold blocks_of, column_blocks in *. cbn [map concat] in *. apply Forall2_app_inv_l in Hl as (l1 & l2 & H1 & H2 & ->).
  apply Forall2_app; [rewrite Ek; eapply read_of_back; eassumption|apply IH; exact H2].
Qed.

Lemma shows_in_step b cs d live :
  shows b cs d live -> StronglySorted (fun a b : column (V := V) => bytes_lt a.1 b.1) cs ->
  Forall2 (fun x c => c.1 = s_key x.2 /\ Forall2 (holds b) (s_entries x.2) c.2) live cs.
Proof.
  intros Hs Hsorted. pose proof (sh_keys _ _ _ _ Hs) as K. apply Forall2_same_length_lookup_2; [apply (f_equal length) in K; rewrite !length_map in K; exact K|].
  intros i x c Hx Hc. unfold column in *. assert (c.1 = s_key x.2) as Ek.
  { assert (map (fun x => s_key x.2) live !! i = Some (s_key x.2)) as E by (rewrite list_lookup_fmap, Hx; reflexivity).
    rewrite K, list_lookup_fmap, Hc in E. cbn in E. congruence. }
  split; [exact Ek|]. pose proof (sh_at _ _ _ _ Hs) as A. unfold columns_at in A. rewrite Forall_forall in A.
  destruct (A x (list_elem_of_lookup_2 _ _ _ Hx)) as (c' & Hc' & Ek' & F). apply list_elem_of_lookup in Hc' as [j Hj].
  assert (c' = c) as ->; [|exact F]. destruct (Nat.lt_trichotomy i j) as [H|[->|H]]; [|congruence|].
  - pose proof (StronglySorted_lookup_lt _ _ _ _ _ _ Hsorted Hc Hj H) as L. cbn in L. rewrite Ek, Ek' in L. destruct (bytes_lt_irrefl _ L).
  - pose proof (StronglySorted_lookup_lt _ _ _ _ _ _ Hsorted Hj Hc H) as L. cbn in L. rewrite Ek, Ek' in L. destruct (bytes_lt_irrefl _ L).
Qed.

Lemma blocks_of_hold out live (cs : list (column (V := V))) :
  Forall2 (fun x c => c.1 = s_key x.2 /\ Forall2 (holds out) (s_entries x.2) c.2) live cs ->
  Forall (fun x : list Z * Z * IndexEntry => exists vs, holds out x.2 vs) (blocks_of live) /\ length (blocks_of live) = length (column_blocks cs).
Proof.
  intros H. induction H as [|x c live cs [_ He] H [IH1 IH2]]; [split; [constructor|reflexivity]|].
  unfold blocks_of, column_blocks in *. cbn [map concat]. rewrite Forall_app, !length_app, IH2. unfold tagged. rewrite !length_map, (Forall2_length _ _ _ He).
  split; [|reflexivity]. split; [|exact IH1]. rewrite Forall_map. cbn. clear -He. induction He; constructor; eauto.
Qed.

(** C29 (functional). Iterating over a file with [Next] and [Read], as the
    compactor does, ends without error after as many steps as there are blocks and
    returns every block that was written, in order: its key, its time span, its
    checksum and bytes that decode to its values. *)
Theorem block_iterator_complete (Sort_entries : list IndexEntry -> list IndexEntry) (cs : list column) :
  columns_ok cs -> cs <> [] -> 13 + data_size cs + index_size cs < 2 ^ 31 ->
  exists t r l, write_file Sort_entries cs NewTSMWriter = (Ok tt, t) /\ NewTSMReader (tw_out t) None = Ok r
    /\ bi_collect (S (length (column_blocks cs))) r (rd_BlockIterator r) = Ok l /\ Forall2 read_back (column_blocks cs) l.
Proof.
  intros Hc Hne Hz. destruct (write_file_tsm Sort_entries cs Hc Hne Hz) as (t & Ew & Hb & Hl).
  destruct (open_shows _ _ Hb Hc ltac:(lia)) as (d & live & Ei & Hs). set (r := mkRD 0 (mkMA (Some (tw_out t)) 1 1) d None (zlen (tw_out t))).
  pose proof (shows_in_step _ _ _ _ Hs (proj2 Hc)) as St. destruct (blocks_of_hold _ _ _ St) as [Hh Hlen].
  assert (to_come live (rd_BlockIterator r) = blocks_of live) as Et by (unfold to_come; cbn; rewrite drop_0; reflexivity).
  destruct (bi_collect_spec r live (tw_out t) (S (length (column_blocks cs))) (rd_BlockIterator r)) as (l & E & F).
  - exact (sh_rep _ _ _ _ Hs).
  - eexists _, _. reflexivity.
  - lia.
  - rewrite Et. exact Hh.
  - unfold bi_ok, rd_BlockIterator, ix_KeyCount. cbn. rewrite (rep_offsets _ _ (sh_rep _ _ _ _ Hs)). unfold zlen. rewrite length_map. lia.
  - rewrite Et, Hlen. lia.
  - rewrite Et in F. exists t, r, l. split; [exact Ew|]. split; [unfold NewTSMReader; rewrite Ei; reflexivity|]. split; [exact E|].
    eapply blocks_of_back; [exact St|lia|exact F].
Qed.

(** ** Edges *)

(** A key with more blocks than an entry count can hold is dropped when the next
    key comes: the error of the flush is not looked at, the blocks end up under
    the new key. *)
Lemma overfull_key_lost S d key typ mn mx ofs sz :
  maxIndexEntries < zlen (di_entries d) -> bytes_lt (di_key d) key -> di_key d <> [] ->
  exists d', di_Add S key typ mn mx ofs sz d = (Ok tt, d') /\ di_buf d' = di_buf d /\ di_key d' = key
    /\ di_entries d' = di_entries d ++ [mkEntry mn mx ofs sz].
Proof.
  intros Hn Hlt Hne. unfold di_Add. unfold bytes_lt in Hlt. rewrite Hlt. unfold di_flush. destruct (di_key d); [contradiction|].
  destruct (Z.gtb_spec (zlen (di_entries d)) maxIndexEntries); [|lia]. eexists. split; [reflexivity|]. auto.
Qed.

End Iterate.

#[local] Existing Instances list_bytesutil list_bytesutil_laws id_gzip id_gzip_laws ex_blocks ex_blocks_laws.

Lemma block_iterator_complete_witness :
  exists t r l, write_file no_sort columns_ex NewTSMWriter = (Ok tt, t) /\ NewTSMReader (tw_out t) None = Ok r
    /\ bi_collect 4 r (rd_BlockIterator r) = Ok l /\ Forall2 read_back (column_blocks columns_ex) l.
Proof.
  apply (block_iterator_complete no_sort columns_ex columns_ex_ok); [discriminate|exact columns_ex_size].
Defined.

(** [PeekNext] is one key ahead: after the only block of the first of three keys
    it names the third. *)
Definition three_keys : list series :=
  [mkSeries [97] 1 [mkEntry 1 2 5 30]; mkSeries [98] 1 [mkEntry 1 2 35 30]; mkSeries [99] 1 [mkEntry 1 2 65 30]].
Definition three_reader : TSMReader := mkRD 0 (mkMA None 0 0) (ix_UnmarshalBinary (enc_index three_keys) NewIndirectIndex).2 None 0.

Example peek_skips_a_key : bi_PeekNext three_reader (bi_Next three_reader (rd_BlockIterator three_reader)).2 = Ok [99].
Proof. vm_compute. reflexivity. Qed.

(** An index that ends inside its last entry is accepted; looking up the key
    panics. *)
Definition short_index : list Z := take 33 (enc_index [mkSeries [99] 1 [mkEntry 10 20 5 30]]).

Example short_index_accepted :
  let '(x, d) := ix_UnmarshalBinary short_index NewIndirectIndex in x = Ok tt /\ ix_Entries d [99] = Panic.
Proof. vm_compute. auto. Qed.

(** The size the writer reports leaves out the type byte of every key and the
    footer. *)
Example size_short_of_file :
  let t := (write_file no_sort columns_ex NewTSMWriter).2 in zlen (tw_out t) = tw_Size t + 8 + 2.
Proof. vm_compute. reflexivity. Qed.
