(* ===== verification/Ring.v ===== *)
(** * The store of the cache

    [tsdb/engine/tsm1/ring.go] and the entries of [cache.go]: a series key is
    hashed to one of the partitions, each a map from keys to entries.  The hash is
    package [xxhash], a parameter.  A map is ranged over in the order of
    [map_to_list]; nothing that is proved depends on it. *)

From S2P Require Import Prelude Varint Blocks Values TypedValues Bytes TSMIndex.

Inductive cache_error :=
| ErrCacheMemorySizeLimitExceeded (n limit : Z)
| ErrFieldTypeConflict
| ErrSnapshotInProgress
| ErrInvalidPartitions (n : Z).

Definition valueType (v : Value) : Z :=
  match v with
  | VFloat _ => 1
  | VInteger _ => 2
  | VString _ => 3
  | VBoolean _ => 4
  | _ => 0
  end.

Record entry := mkE { e_values : list Value; e_vtype : Z }.

(** A [partition] is its map; its lock is not modelled. *)
Abbreviation partition := (gmap (list Z) entry).

Section Ring.
Context (Sum64 : list Z -> Z) (tsdb_EOF : Z).

(** ** Entries *)

Definition Values_Size (values : list Value) : Z := Size Value_Size values.

Definition newEntryValues (values : list Value) : res cache_error entry :=
  match values with
  | [] => Ok (mkE [] 0)
  | v :: _ => if forallb (fun x => valueType v =? valueType x) values then Ok (mkE values (valueType v)) else Err ErrFieldTypeConflict
  end.

Definition entry_add (values : list Value) (e : entry) : res cache_error unit * entry :=
  match values with
  | [] => (Ok tt, e)
  | _ => if forallb (fun x => e_vtype e =? valueType x) values then (Ok tt, mkE (e_values e ++ values) (e_vtype e))
         else (Err ErrFieldTypeConflict, e)
  end.

Definition entry_deduplicate (e : entry) : entry :=
  if zlen (e_values e) <=? 1 then e else mkE (Deduplicate (Value_UnixNano tsdb_EOF) (e_values e)) (e_vtype e).

Definition entry_count (e : entry) : Z := zlen (e_values e).

Definition entry_filter (min max : Z) (e : entry) : entry := mkE (Exclude (Value_UnixNano tsdb_EOF) (e_values e) min max) (e_vtype e).

Definition entry_size (e : entry) : Z := Values_Size (e_values e).

(** ** Partitions *)

Definition partition_write (key : list Z) (values : list Value) (p : partition) : res cache_error bool * partition :=
  match p !! key with
  | Some e => match entry_add values e with
              | (Ok _, e') => (Ok false, <[key := e']> p)
              | (Err x, _) => (Err x, p)
              | (Panic, _) => (Panic, p)
              end
  | None => match newEntryValues values with
            | Ok e => (Ok true, <[key := e]> p)
            | Err x => (Err x, p)
            | Panic => (Panic, p)
            end
  end.

Definition partition_keys (p : partition) : list (list Z) :=
  map fst (List.filter (fun x => negb (entry_count x.2 =? 0)) (map_to_list p)).

Definition partition_count (p : partition) : Z := zlen (List.filter (fun x => 0 <? entry_count x.2) (map_to_list p)).

Definition partition_reset (p : partition) : partition := ∅.

(** ** The ring *)

Definition partitions : Z := 4096.

Record ring := mkRing { r_keysHint : Z; r_partitions : list partition }.

Definition newring (n : Z) : res cache_error ring :=
  if (n <=? 0) || (partitions <? n) then Err (ErrInvalidPartitions n) else Ok (mkRing 0 (replicate (Z.to_nat n) ∅)).

Definition ring_reset (r : ring) : ring := mkRing 0 (map partition_reset (r_partitions r)).

Definition part_index (key : list Z) : nat := Z.to_nat (Sum64 key mod partitions).

(** [None]: the index is beyond the slice. *)
Definition getPartition (r : ring) (key : list Z) : option partition := r_partitions r !! part_index key.

Definition set_partition (r : ring) (key : list Z) (p : partition) : ring :=
  mkRing (r_keysHint r) (<[part_index key := p]> (r_partitions r)).

Definition ring_entry (r : ring) (key : list Z) : res cache_error (option entry) :=
  match getPartition r key with Some p => Ok (p !! key) | None => Panic end.

Definition ring_write (key : list Z) (values : list Value) (r : ring) : res cache_error bool * ring :=
  match getPartition r key with
  | None => (Panic, r)
  | Some p => let '(x, p') := partition_write key values p in (x, set_partition r key p')
  end.

Definition ring_add (key : list Z) (e : entry) (r : ring) : res cache_error unit * ring :=
  match getPartition r key with
  | None => (Panic, r)
  | Some p => (Ok tt, mkRing (i64 (r_keysHint r + 1)) (<[part_index key := <[key := e]> p]> (r_partitions r)))
  end.

Definition ring_remove (key : list Z) (r : ring) : res cache_error unit * ring :=
  match getPartition r key with
  | None => (Panic, r)
  | Some p => (Ok tt, mkRing (if 0 <? r_keysHint r then i64 (r_keysHint r - 1) else r_keysHint r)
                             (<[part_index key := delete key p]> (r_partitions r)))
  end.

Definition ring_count (r : ring) : Z := fold_left (fun n p => n + partition_count p) (r_partitions r) 0.

(** [apply] with a function that cannot fail: every entry is replaced, in any
    order. *)
Definition ring_apply (f : list Z -> entry -> entry) (r : ring) : ring := mkRing (r_keysHint r) (map (map_imap (fun k e => Some (f k e))) (r_partitions r)).

(** [applySerial]: the entries that have values, up to the first error. *)
Fixpoint apply_entries {S} (f : list Z -> entry -> S -> res cache_error unit * S) (l : list (list Z * entry)) (s : S) : res cache_error unit * S :=
  match l with
  | [] => (Ok tt, s)
  | (k, e) :: l' => if entry_count e =? 0 then apply_entries f l' s
                    else match f k e s with
                         | (Ok _, s') => apply_entries f l' s'
                         | r => r
                         end
  end.

Definition ring_applySerial {S} (f : list Z -> entry -> S -> res cache_error unit * S) (r : ring) : S -> res cache_error unit * S :=
  apply_entries f (concat (map map_to_list (r_partitions r))).

(** [split]: ring [j] gets the partitions congruent to [j], the others are empty. *)
Definition ring_split (n : nat) (r : ring) : list ring :=
  map (fun j => mkRing 0 (imap (fun i p => if (i mod n =? j)%nat then p else ∅) (r_partitions r))) (seq 0 n).

Section Keys.
Context `{BU : BytesUtil}.
Definition ring_keys (sorted : bool) (r : ring) : list (list Z) :=
  let keys := concat (map partition_keys (r_partitions r)) in
  if sorted then bytesutil_Sort keys else keys.
End Keys.

(** ** What the ring promises *)

(** Every key is in the partition it hashes to. *)
Record ring_ok (r : ring) : Prop := {
  ro_length : length (r_partitions r) = Z.to_nat partitions;
  ro_placed i p k : r_partitions r !! i = Some p -> is_Some (p !! k) -> i = part_index k }.

(** The ring as one map. *)
Definition rlookup (r : ring) (k : list Z) : option entry := match getPartition r k with Some p => p !! k | None => None end.

Lemma part_index_lt k : (part_index k < Z.to_nat partitions)%nat.
Proof. unfold part_index. pose proof (Z.mod_pos_bound (Sum64 k) partitions ltac:(reflexivity)). unfold partitions in *. lia. Qed.

Lemma getPartition_ok r k : ring_ok r -> exists p, getPartition r k = Some p.
Proof. intros [L _]. unfold getPartition. apply lookup_lt_is_Some_2. rewrite L. apply part_index_lt. Qed.

Lemma ring_entry_ok r k : ring_ok r -> ring_entry r k = Ok (rlookup r k).
Proof. intros H. unfold ring_entry, rlookup. destruct (getPartition_ok r k H) as [p ->]. reflexivity. Qed.

(** Replacing the entry of a key, or removing it, in its partition. *)
Lemma ring_update r k p p' h :
  ring_ok r -> getPartition r k = Some p -> (forall k', k' <> k -> p' !! k' = p !! k') ->
  let r' := mkRing h (<[part_index k := p']> (r_partitions r)) in
  ring_ok r' /\ rlookup r' k = p' !! k /\ forall k', k' <> k -> rlookup r' k' = rlookup r k'.
Proof.
  intros [L P] Hp Hk r'. pose proof (part_index_lt k) as Lt. unfold getPartition in Hp. split; [|split].
  - split; cbn; [rewrite length_insert; exact L|]. intros i q k' Hi Hs. destruct (decide (i = part_index k)) as [->|Hne].
    + rewrite list_lookup_insert_eq in Hi by (rewrite L; exact Lt). injection Hi as <-. destruct (decide (k' = k)) as [->|Hne']; [reflexivity|].
      rewrite Hk in Hs by exact Hne'. apply (P _ _ _ Hp Hs).
    + rewrite list_lookup_insert_ne in Hi by congruence. apply (P _ _ _ Hi Hs).
  - unfold rlookup, getPartition. cbn. rewrite list_lookup_insert_eq by (rewrite L; exact Lt). reflexivity.
  - intros k' Hne. unfold rlookup, getPartition. cbn. destruct (decide (part_index k' = part_index k)) as [E|Hne'].
    + rewrite E, list_lookup_insert_eq by (rewrite L; exact Lt). rewrite Hk by exact Hne. rewrite Hp. reflexivity.
    + rewrite list_lookup_insert_ne by congruence. reflexivity.
Qed.

(** The entry of a key after writing values to it. *)
Definition written (values : list Value) (o : option entry) : res cache_error (option entry) :=
  match o with
  | Some e => match entry_add values e with (Ok _, e') => Ok (Some e') | (Err x, _) => Err x | (Panic, _) => Panic end
  | None => match newEntryValues values with Ok e => Ok (Some e) | Err x => Err x | Panic => Panic end
  end.

Lemma ring_write_spec r k values :
  ring_ok r -> exists r', ring_write k values r
    = (match written values (rlookup r k) with Ok _ => Ok (match rlookup r k with None => true | _ => false end) | Err x => Err x | Panic => Panic end, r')
    /\ ring_ok r' /\ rlookup r' k = match written values (rlookup r k) with Ok o => o | _ => rlookup r k end
    /\ forall k', k' <> k -> rlookup r' k' = rlookup r k'.
Proof.
  intros H. destruct (getPartition_ok r k H) as [p Hp]. unfold ring_write, written. assert (rlookup r k = p !! k) as E by (unfold rlookup; rewrite Hp; reflexivity).
  rewrite Hp, E. unfold partition_write, set_partition. destruct (p !! k) as [e|] eqn:Ek.
  - destruct (entry_add values e) as [[u|x|] e'];
      (eexists; split; [reflexivity|]; cbn [r_keysHint];
       match goal with |- context [<[part_index k := ?q]>] => destruct (ring_update r k p q (r_keysHint r) H Hp) as (H1 & H2 & H3) end;
       [intros k' Hne; rewrite ?lookup_insert_ne by (intros ->; contradiction); reflexivity|];
       split; [exact H1|]; split; [|exact H3]; rewrite H2; rewrite ?lookup_insert_eq; auto).
  - destruct (newEntryValues values) as [e|x|];
      (eexists; split; [reflexivity|]; cbn [r_keysHint];
       match goal with |- context [<[part_index k := ?q]>] => destruct (ring_update r k p q (r_keysHint r) H Hp) as (H1 & H2 & H3) end;
       [intros k' Hne; rewrite ?lookup_insert_ne by (intros ->; contradiction); reflexivity|];
       split; [exact H1|]; split; [|exact H3]; rewrite H2; rewrite ?lookup_insert_eq; auto).
Qed.

Lemma ring_remove_spec r k :
  ring_ok r -> exists r', ring_remove k r = (Ok tt, r') /\ ring_ok r' /\ rlookup r' k = None /\ forall k', k' <> k -> rlookup r' k' = rlookup r k'.
Proof.
  intros H. destruct (getPartition_ok r k H) as [p Hp]. unfold ring_remove. rewrite Hp. eexists. split; [reflexivity|].
  match goal with |- context [mkRing ?h _] => destruct (ring_update r k p (delete k p) h H Hp) as (H1 & H2 & H3) end.
  { intros k' Hne. rewrite lookup_delete_ne by congruence. reflexivity. }
  rewrite lookup_delete_eq in H2. auto.
Qed.

Lemma ring_add_spec r k e :
  ring_ok r -> exists r', ring_add k e r = (Ok tt, r') /\ ring_ok r' /\ rlookup r' k = Some e /\ forall k', k' <> k -> rlookup r' k' = rlookup r k'.
Proof.
  intros H. destruct (getPartition_ok r k H) as [p Hp]. unfold ring_add. rewrite Hp. eexists. split; [reflexivity|].
  match goal with |- context [mkRing ?h _] => destruct (ring_update r k p (<[k := e]> p) h H Hp) as (H1 & H2 & H3) end.
  { intros k' Hne. rewrite lookup_insert_ne by congruence. reflexivity. }
  rewrite lookup_insert_eq in H2. auto.
Qed.

(** Mapping the partitions maps the entries. *)
Lemma ring_map_spec (r : ring) (h : Z) (g : nat -> partition -> partition) (f : list Z -> entry -> option entry) :
  ring_ok r -> (forall i p k, is_Some (g i p !! k) -> is_Some (p !! k)) ->
  (forall i p k, i = part_index k -> g i p !! k = p !! k ≫= f k) ->
  let r' := mkRing h (imap g (r_partitions r)) in ring_ok r' /\ forall k, rlookup r' k = rlookup r k ≫= f k.
Proof.
  intros [L P] Hg Hi r'. split.
  - split; cbn; [rewrite length_imap; exact L|]. intros i q k Hq Hs. rewrite list_lookup_imap in Hq.
    destruct (r_partitions r !! i) as [p|] eqn:E; [|discriminate]. cbn in Hq. injection Hq as <-. apply (P _ _ _ E).
    apply (Hg i p k Hs).
  - intros k. unfold rlookup, getPartition. cbn. rewrite list_lookup_imap. destruct (r_partitions r !! part_index k) as [p|]; [|reflexivity].
    cbn. apply Hi. reflexivity.
Qed.

Lemma map_as_imap {A B} (f : A -> B) l : map f l = imap (fun _ => f) l.
Proof. symmetry. apply imap_const. Qed.

Lemma ring_apply_spec r f : ring_ok r -> ring_ok (ring_apply f r) /\ forall k, rlookup (ring_apply f r) k = f k <$> rlookup r k.
Proof.
  intros H. unfold ring_apply. rewrite map_as_imap.
  destruct (ring_map_spec r (r_keysHint r) (fun _ => map_imap (fun k e => Some (f k e))) (fun k e => Some (f k e)) H) as [H1 H2].
  - intros i p k. rewrite map_lookup_imap. destruct (p !! k); [eauto|intros [? [=]]].
  - intros i p k _. rewrite map_lookup_imap. reflexivity.
  - split; [exact H1|]. intros k. rewrite H2. destruct (rlookup r k); reflexivity.
Qed.

Lemma ring_reset_spec r : ring_ok r -> ring_ok (ring_reset r) /\ forall k, rlookup (ring_reset r) k = None.
Proof.
  intros H. unfold ring_reset. rewrite map_as_imap.
  destruct (ring_map_spec r 0 (fun _ => partition_reset) (fun _ _ => None) H) as [H1 H2].
  - intros i p k. rewrite (lookup_empty k : partition_reset p !! k = None). intros [? [=]].
  - intros i p k _. rewrite (lookup_empty k : partition_reset p !! k = None). destruct (p !! k); reflexivity.
  - split; [exact H1|]. intros k. rewrite H2. destruct (rlookup r k); reflexivity.
Qed.

Lemma newring_spec : exists r, newring partitions = Ok r /\ ring_ok r /\ forall k, rlookup r k = None.
Proof.
  eexists. split; [reflexivity|]. split.
  - split; cbn [r_partitions]; [apply length_replicate|]. intros i p k Hp [e He]. apply lookup_replicate in Hp as [-> _]. rewrite lookup_empty in He. discriminate.
  - intros k. unfold rlookup, getPartition. cbn [r_partitions]. destruct (replicate _ ∅ !! part_index k) as [p|] eqn:E; [|reflexivity].
    apply lookup_replicate in E as [-> _]. apply lookup_empty.
Qed.

(** *** The keys *)

Lemma partition_keys_elem p k : k ∈ partition_keys p <-> exists e, p !! k = Some e /\ e_values e <> [].
Proof.
  unfold partition_keys. rewrite list_elem_of_fmap. split.
  - intros ([k' e] & -> & H). apply list_elem_of_In, filter_In in H as [H E]. apply list_elem_of_In, elem_of_map_to_list in H. exists e. split; [exact H|].
    cbn in E. unfold entry_count in E. destruct (e_values e); [discriminate|discriminate].
  - intros (e & H & Hne). exists (k, e). split; [reflexivity|]. apply list_elem_of_In, filter_In. split; [apply list_elem_of_In, elem_of_map_to_list; exact H|].
    cbn. unfold entry_count. destruct (e_values e); [contradiction|]. rewrite zlen_cons. pose proof (zlen_nonneg l). destruct (Z.eqb_spec (1 + zlen l) 0); [lia|reflexivity].
Qed.

Lemma partition_keys_NoDup p : NoDup (partition_keys p).
Proof.
  unfold partition_keys. pose proof (NoDup_fst_map_to_list p) as N. revert N. generalize (map_to_list p). intros l N.
  induction l as [|[k e] l IH]; cbn; [constructor|]. cbn in N. apply NoDup_cons in N as [Hk N]. destruct (negb _); [|apply IH; exact N]. cbn. constructor; [|apply IH; exact N].
  intros H. apply Hk. apply list_elem_of_fmap in H as ([k' e'] & E & H). apply list_elem_of_In, filter_In in H as [H _]. cbn in E. subst k'.
  apply list_elem_of_fmap. exists (k, e'). split; [reflexivity|]. apply list_elem_of_In. exact H.
Qed.

Lemma placed_keys ps i :
  (forall j p k, ps !! j = Some p -> is_Some (p !! k) -> (i + j)%nat = part_index k) ->
  NoDup (concat (map partition_keys ps)) /\ forall k, k ∈ concat (map partition_keys ps) -> (i <= part_index k)%nat.
Proof.
  revert i. induction ps as [|p ps IH]; intros i H; cbn; [split; [constructor|intros k Hk; apply elem_of_nil in Hk as []]|].
  destruct (IH (S i)) as [N B]. { intros j q k Hj Hs. rewrite <- (H (S j) q k Hj Hs). lia. }
  assert (forall k, k ∈ partition_keys p -> i = part_index k) as Hp.
  { intros k Hk. apply partition_keys_elem in Hk as (e & Hk & _). rewrite <- (H 0%nat p k eq_refl (ex_intro _ e Hk)). lia. }
  split.
  - apply NoDup_app. split; [apply partition_keys_NoDup|]. split; [|exact N]. intros k H1 H2. specialize (Hp k H1). specialize (B k H2). lia.
  - intros k Hk. apply elem_of_app in Hk as [Hk|Hk]; [rewrite (Hp k Hk); lia|]. specialize (B k Hk). lia.
Qed.

Lemma ring_keys_elem r k : ring_ok r -> k ∈ concat (map partition_keys (r_partitions r)) <-> exists e, rlookup r k = Some e /\ e_values e <> [].
Proof.
  intros [L P]. split.
  - intros H. apply list_elem_of_In, in_concat in H as (l & Hl & Hk). apply in_map_iff in Hl as (p & <- & Hp). apply list_elem_of_In in Hk, Hp.
    apply partition_keys_elem in Hk as (e & He & Hne). apply list_elem_of_lookup in Hp as [i Hi]. exists e. split; [|exact Hne].
    unfold rlookup, getPartition. rewrite <- (P i p k Hi (ex_intro _ e He)), Hi. exact He.
  - intros (e & H & Hne). unfold rlookup in H. destruct (getPartition r k) as [p|] eqn:E; [|discriminate]. unfold getPartition in E.
    apply list_elem_of_In, in_concat. exists (partition_keys p). split; [apply in_map_iff; exists p; split; [reflexivity|]|].
    + apply list_elem_of_In. eapply list_elem_of_lookup_2. exact E.
    + apply list_elem_of_In, partition_keys_elem. eauto.
Qed.

Lemma ring_keys_spec `{BU : BytesUtil} {UL : BytesUtilLaws} r :
  ring_ok r -> StronglySorted bytes_le (ring_keys true r) /\ NoDup (ring_keys true r)
    /\ forall k, k ∈ ring_keys true r <-> exists e, rlookup r k = Some e /\ e_values e <> [].
Proof.
  intros H. unfold ring_keys. destruct (Sort_spec (concat (map partition_keys (r_partitions r)))) as [Hp Hs]. split; [exact Hs|]. split.
  - rewrite Hp. apply (placed_keys _ 0). intros j p k Hj Hk. exact (ro_placed _ H _ _ _ Hj Hk).
  - intros k. rewrite Hp. apply ring_keys_elem. exact H.
Qed.

(** *** Splitting *)

Lemma ring_split_spec r n j s :
  ring_ok r -> ring_split n r !! j = Some s ->
  ring_ok s /\ forall k, rlookup s k = if decide (j = (part_index k mod n)%nat) then rlookup r k else None.
Proof.
  intros H Hj. unfold ring_split in Hj. rewrite list_lookup_fmap in Hj. destruct (seq 0 n !! j) as [j'|] eqn:E; [|discriminate].
  apply lookup_seq in E as [-> Hlt]. cbn in Hj. injection Hj as <-.
  destruct (ring_map_spec r 0 (fun i p => if (i mod n =? j)%nat then p else ∅) (fun k e => if decide (j = (part_index k mod n)%nat) then Some e else None) H) as [H1 H2].
  - intros i p k. destruct (i mod n =? j)%nat; [auto|]. rewrite lookup_empty. intros [? [=]].
  - intros i p k ->. destruct (Nat.eqb_spec (part_index k mod n) j) as [Ej|Ej]; destruct (decide (j = (part_index k mod n)%nat)); try lia.
    + destruct (p !! k); reflexivity.
    + rewrite lookup_empty. destruct (p !! k); reflexivity.
  - split; [exact H1|]. intros k. etransitivity; [apply H2|]. destruct (decide _), (rlookup r k); reflexivity.
Qed.

End Ring.
