(* ===== verification/Cache.v ===== *)
(** * The cache

    [Cache] of [tsdb/engine/tsm1/cache.go]: the values that are in the write-ahead
    log and not yet in a TSM file.  Operations run one at a time.  Sizes are
    [uint64] and the statistics [int64]; both wrap. *)

From S2P Require Import Prelude Varint Blocks Values TypedValues Bytes TSMIndex Ring.

Section Cache.
Context (Sum64 : list Z -> Z) (tsdb_EOF : Z).

Inductive storer := EmptyStore | RingStore (r : ring).

Definition st_entry (s : storer) (key : list Z) : res cache_error (option entry) :=
  match s with EmptyStore => Ok None | RingStore r => ring_entry Sum64 r key end.

Definition on_ring {A} (f : ring -> res cache_error A * ring) (x : A) (s : storer) : res cache_error A * storer :=
  match s with EmptyStore => (Ok x, s) | RingStore r => let '(y, r') := f r in (y, RingStore r') end.

Definition st_write (key : list Z) (values : list Value) : storer -> res cache_error bool * storer := on_ring (ring_write Sum64 key values) false.
Definition st_remove (key : list Z) : storer -> res cache_error unit * storer := on_ring (ring_remove Sum64 key) tt.
Definition st_reset (s : storer) : storer := match s with EmptyStore => EmptyStore | RingStore r => RingStore (ring_reset r) end.
Definition st_count (s : storer) : Z := match s with EmptyStore => 0 | RingStore r => ring_count r end.
Definition st_apply (f : list Z -> entry -> entry) (s : storer) : storer := match s with EmptyStore => EmptyStore | RingStore r => RingStore (ring_apply f r) end.
Definition st_update (key : list Z) (e : entry) (s : storer) : storer :=
  match s with
  | EmptyStore => EmptyStore
  | RingStore r => match getPartition Sum64 r key with Some p => RingStore (set_partition Sum64 r key (<[key := e]> p)) | None => s end
  end.

Record CacheStatistics := mkStats {
  MemSizeBytes : Z; DiskSizeBytes : Z; SnapshotCount : Z; CacheAgeMs : Z; CachedBytes : Z; WALCompactionTimeMs : Z;
  WriteOK : Z; WriteErr : Z; WriteDropped : Z }.

(** The snapshot is a [Cache] of which only the store and the size are used. *)
Record snapshot := mkSnap { sn_size : Z; sn_store : storer }.

Record Cache := mkC {
  c_size : Z; c_snapshotSize : Z; c_store : storer; c_maxSize : Z; c_snapshot : option snapshot; c_snapshotting : bool;
  c_snapshotAttempts : Z; c_stats : CacheStatistics; c_lastSnapshot : Z; c_initialized : bool }.

Definition set_size (n : Z) (c : Cache) : Cache :=
  mkC n (c_snapshotSize c) (c_store c) (c_maxSize c) (c_snapshot c) (c_snapshotting c) (c_snapshotAttempts c) (c_stats c) (c_lastSnapshot c) (c_initialized c).
Definition set_store (s : storer) (c : Cache) : Cache :=
  mkC (c_size c) (c_snapshotSize c) s (c_maxSize c) (c_snapshot c) (c_snapshotting c) (c_snapshotAttempts c) (c_stats c) (c_lastSnapshot c) (c_initialized c).
Definition set_snapshot (s : option snapshot) (c : Cache) : Cache :=
  mkC (c_size c) (c_snapshotSize c) (c_store c) (c_maxSize c) s (c_snapshotting c) (c_snapshotAttempts c) (c_stats c) (c_lastSnapshot c) (c_initialized c).
Definition set_stats (s : CacheStatistics) (c : Cache) : Cache :=
  mkC (c_size c) (c_snapshotSize c) (c_store c) (c_maxSize c) (c_snapshot c) (c_snapshotting c) (c_snapshotAttempts c) s (c_lastSnapshot c) (c_initialized c).
Definition set_flags (snapping : bool) (attempts : Z) (c : Cache) : Cache :=
  mkC (c_size c) (c_snapshotSize c) (c_store c) (c_maxSize c) (c_snapshot c) snapping attempts (c_stats c) (c_lastSnapshot c) (c_initialized c).

(** ** Statistics *)

Definition bump_WriteErr (s : CacheStatistics) : CacheStatistics :=
  mkStats (MemSizeBytes s) (DiskSizeBytes s) (SnapshotCount s) (CacheAgeMs s) (CachedBytes s) (WALCompactionTimeMs s) (WriteOK s) (i64 (WriteErr s + 1)) (WriteDropped s).
Definition bump_WriteOK (s : CacheStatistics) : CacheStatistics :=
  mkStats (MemSizeBytes s) (DiskSizeBytes s) (SnapshotCount s) (CacheAgeMs s) (CachedBytes s) (WALCompactionTimeMs s) (i64 (WriteOK s + 1)) (WriteErr s) (WriteDropped s).
Definition bump_WriteDropped (s : CacheStatistics) : CacheStatistics :=
  mkStats (MemSizeBytes s) (DiskSizeBytes s) (SnapshotCount s) (CacheAgeMs s) (CachedBytes s) (WALCompactionTimeMs s) (WriteOK s) (WriteErr s) (i64 (WriteDropped s + 1)).
Definition set_MemSize (n : Z) (s : CacheStatistics) : CacheStatistics :=
  mkStats n (DiskSizeBytes s) (SnapshotCount s) (CacheAgeMs s) (CachedBytes s) (WALCompactionTimeMs s) (WriteOK s) (WriteErr s) (WriteDropped s).

Definition updateMemSize (b : Z) (c : Cache) : Cache := set_stats (set_MemSize (i64 (MemSizeBytes (c_stats c) + b)) (c_stats c)) c.

Definition updateCachedBytes (b : Z) (c : Cache) : Cache :=
  let s := c_stats c in
  set_stats (mkStats (MemSizeBytes s) (DiskSizeBytes s) (SnapshotCount s) (CacheAgeMs s) (i64 (CachedBytes s + i64 b)) (WALCompactionTimeMs s)
               (WriteOK s) (WriteErr s) (WriteDropped s)) c.

Definition updateSnapshots (c : Cache) : Cache :=
  let s := c_stats c in
  set_stats (mkStats (MemSizeBytes s) (i64 (c_snapshotSize c)) (c_snapshotAttempts c) (CacheAgeMs s) (CachedBytes s) (WALCompactionTimeMs s)
               (WriteOK s) (WriteErr s) (WriteDropped s)) c.

(** Times are nanoseconds. *)
Definition UpdateAge (now : Z) (c : Cache) : Cache :=
  let s := c_stats c in
  set_stats (mkStats (MemSizeBytes s) (DiskSizeBytes s) (SnapshotCount s) (Z.quot (now - c_lastSnapshot c) 1000000) (CachedBytes s)
               (WALCompactionTimeMs s) (WriteOK s) (WriteErr s) (WriteDropped s)) c.

Definition UpdateCompactTime (d : Z) (c : Cache) : Cache :=
  let s := c_stats c in
  set_stats (mkStats (MemSizeBytes s) (DiskSizeBytes s) (SnapshotCount s) (CacheAgeMs s) (CachedBytes s)
               (i64 (WALCompactionTimeMs s + Z.quot d 1000000)) (WriteOK s) (WriteErr s) (WriteDropped s)) c.

Definition zero_stats : CacheStatistics := mkStats 0 0 0 0 0 0 0 0 0.

Definition NewCache (maxSize now : Z) : Cache :=
  updateSnapshots (mkC 0 0 EmptyStore maxSize None false 0 zero_stats now false).

(** ** Size *)

Definition c_Size (c : Cache) : Z := u64 (c_size c + c_snapshotSize c).
Definition increaseSize (delta : Z) (c : Cache) : Cache := set_size (u64 (c_size c + delta)) c.

(** [^(delta - 1)] is the two's complement of [delta]. *)
Definition decreaseSize (delta : Z) (c : Cache) : Cache := set_size (u64 (c_size c + (2 ^ 64 - 1 - u64 (delta - 1)))) c.

Definition SetMaxSize (size : Z) (c : Cache) : Cache :=
  mkC (c_size c) (c_snapshotSize c) (c_store c) size (c_snapshot c) (c_snapshotting c) (c_snapshotAttempts c) (c_stats c) (c_lastSnapshot c) (c_initialized c).

(** ** Initialising and freeing *)

Definition fresh_store : storer := match newring partitions with Ok r => RingStore r | _ => EmptyStore end.

Definition init (c : Cache) : Cache :=
  if c_initialized c then c
  else mkC (c_size c) (c_snapshotSize c) fresh_store (c_maxSize c) (c_snapshot c) (c_snapshotting c) (c_snapshotAttempts c) (c_stats c) (c_lastSnapshot c) true.

Definition Free (c : Cache) : Cache :=
  if c_initialized c
  then mkC (c_size c) (c_snapshotSize c) EmptyStore (c_maxSize c) (c_snapshot c) (c_snapshotting c) (c_snapshotAttempts c) (c_stats c) (c_lastSnapshot c) false
  else c.

(** ** Writing *)

Definition Write (key : list Z) (values : list Value) (c0 : Cache) : res cache_error unit * Cache :=
  let c := init c0 in
  let addedSize := u64 (Values_Size values) in
  let n := u64 (c_Size c + addedSize) in
  if (0 <? c_maxSize c) && (c_maxSize c <? n)
  then (Err (ErrCacheMemorySizeLimitExceeded n (c_maxSize c)), set_stats (bump_WriteErr (c_stats c)) c)
  else match st_write key values (c_store c) with
       | (Err e, s) => (Err e, set_stats (bump_WriteErr (c_stats c)) (set_store s c))
       | (Panic, s) => (Panic, set_store s c)
       | (Ok newKey, s) =>
           let addedSize := if newKey : bool then u64 (addedSize + zlen key) else addedSize in
           let c := updateMemSize (i64 addedSize) (increaseSize addedSize (set_store s c)) in
           (Ok tt, set_stats (bump_WriteOK (c_stats c)) c)
       end.

(** The loop of [WriteMulti]: the last error, the size added; [None] panics. *)
Fixpoint write_all (l : list (list Z * list Value)) (werr : option cache_error) (addedSize : Z) (c : Cache) : option (option cache_error * Z * Cache) :=
  match l with
  | [] => Some (werr, addedSize, c)
  | (k, v) :: l' =>
      match st_write k v (c_store c) with
      | (Panic, _) => None
      | (Err e, s) => write_all l' (Some e) (u64 (addedSize - u64 (Values_Size v))) (decreaseSize (u64 (Values_Size v)) (set_store s c))
      | (Ok newKey, s) =>
          if newKey : bool then write_all l' werr (u64 (addedSize + zlen k)) (increaseSize (zlen k) (set_store s c))
          else write_all l' werr addedSize (set_store s c)
      end
  end.

(** The map of the points, in the order it is ranged over. *)
Definition WriteMulti (values : list (list Z * list Value)) (c0 : Cache) : res cache_error unit * Cache :=
  let c := init c0 in
  let addedSize := fold_left (fun n x => u64 (n + u64 (Values_Size x.2))) values 0 in
  let n := u64 (c_Size c + addedSize) in
  if (0 <? c_maxSize c) && (c_maxSize c <? n)
  then (Err (ErrCacheMemorySizeLimitExceeded n (c_maxSize c)), set_stats (bump_WriteErr (c_stats c)) c)
  else match write_all values None addedSize (increaseSize addedSize c) with
       | None => (Panic, c)
       | Some (werr, addedSize, c) =>
           let c := match werr with Some _ => set_stats (bump_WriteErr (bump_WriteDropped (c_stats c))) c | None => c end in
           let c := updateMemSize (i64 addedSize) c in
           (match werr with Some e => Err e | None => Ok tt end, set_stats (bump_WriteOK (c_stats c)) c)
       end.

(** ** Snapshots *)

(** The store of the snapshot handed out. *)
Definition Snapshot (now : Z) (c0 : Cache) : res cache_error storer * Cache :=
  let c := init c0 in
  if c_snapshotting c then (Err ErrSnapshotInProgress, c)
  else
    let c := set_flags true (c_snapshotAttempts c + 1) c in
    let sn := match c_snapshot c with Some sn => sn | None => mkSnap 0 fresh_store end in
    if 0 <? sn_size sn then (Ok (sn_store sn), set_snapshot (Some sn) c)
    else
      let size := c_Size c in
      let c := mkC 0 size (st_reset (sn_store sn)) (c_maxSize c) (Some (mkSnap size (c_store c))) (c_snapshotting c) (c_snapshotAttempts c) (c_stats c) now (c_initialized c) in
      (Ok (match c_snapshot c with Some sn => sn_store sn | None => EmptyStore end), updateSnapshots (updateCachedBytes size c)).

Definition ClearSnapshot (success : bool) (c0 : Cache) : res cache_error unit * Cache :=
  let c := init c0 in
  match c_snapshot c with
  | None => (Panic, c)
  | Some sn =>
      if success then
        let c := updateMemSize (i64 (- i64 (c_snapshotSize c))) (set_flags false 0 (set_snapshot (Some (mkSnap 0 (st_reset (sn_store sn)))) c)) in
        let c := mkC (c_size c) 0 (c_store c) (c_maxSize c) (c_snapshot c) (c_snapshotting c) (c_snapshotAttempts c) (c_stats c) (c_lastSnapshot c) (c_initialized c) in
        (Ok tt, updateSnapshots c)
      else (Ok tt, set_flags false (c_snapshotAttempts c) c)
  end.

Definition c_Deduplicate (c : Cache) : Cache := set_store (st_apply (fun _ => entry_deduplicate tsdb_EOF) (c_store c)) c.

(** ** Reading *)

Definition c_Count (c : Cache) : Z := st_count (c_store c).

Section Keys.
Context `{BU : BytesUtil}.
Definition c_Keys (c : Cache) : list (list Z) := match c_store c with EmptyStore => [] | RingStore r => ring_keys true r end.
End Keys.

(** The values of a key; the entries read are deduplicated in place. *)
Definition c_Values (key : list Z) (c : Cache) : res cache_error (list Value) * Cache :=
  match st_entry (c_store c) key, match c_snapshot c with Some sn => st_entry (sn_store sn) key | None => Ok None end with
  | Ok e, Ok snapshotEntries =>
      match e, snapshotEntries with
      | None, None => (Ok [], c)
      | _, _ =>
          let c := match e with Some x => set_store (st_update key (entry_deduplicate tsdb_EOF x) (c_store c)) c | None => c end in
          let c := match snapshotEntries, c_snapshot c with
                   | Some x, Some sn => set_snapshot (Some (mkSnap (sn_size sn) (st_update key (entry_deduplicate tsdb_EOF x) (sn_store sn)))) c
                   | _, _ => c
                   end in
          let vals (o : option entry) := match o with Some x => e_values (entry_deduplicate tsdb_EOF x) | None => [] end in
          let values := vals snapshotEntries ++ vals e in
          (Ok (match values with [] => [] | _ => Deduplicate (Value_UnixNano tsdb_EOF) values end), c)
      end
  | _, _ => (Panic, c)
  end.

(** ** Deleting *)

Definition delete_one (min max : Z) (k : list Z) (c : Cache) : res cache_error Cache :=
  match st_entry (c_store c) k with
  | Ok None => Ok c
  | Ok (Some e) =>
      let origSize := u64 (entry_size e) in
      if (min =? - 2 ^ 63) && (max =? 2 ^ 63 - 1)
      then match st_remove k (c_store c) with
           | (Ok _, s) => Ok (set_store s (decreaseSize (u64 (origSize + zlen k)) c))
           | _ => Panic
           end
      else
        let e' := entry_filter tsdb_EOF min max e in
        let c := set_store (st_update k e' (c_store c)) c in
        if entry_count e' =? 0
        then match st_remove k (c_store c) with
             | (Ok _, s) => Ok (decreaseSize (u64 (origSize + zlen k)) (set_store s c))
             | _ => Panic
             end
        else Ok (decreaseSize (u64 (origSize - u64 (entry_size e'))) c)
  | _ => Panic
  end.

Fixpoint delete_each (min max : Z) (keys : list (list Z)) (c : Cache) : res cache_error Cache :=
  match keys with
  | [] => Ok c
  | k :: keys' => match delete_one min max k c with Ok c' => delete_each min max keys' c' | e => e end
  end.

Definition c_DeleteRange (keys : list (list Z)) (min max : Z) (c0 : Cache) : res cache_error unit * Cache :=
  let c := init c0 in
  match delete_each min max keys c with
  | Ok c => (Ok tt, set_stats (set_MemSize (i64 (c_Size c)) (c_stats c)) c)
  | _ => (Panic, c)
  end.

Definition c_Delete (keys : list (list Z)) : Cache -> res cache_error unit * Cache := c_DeleteRange keys (- 2 ^ 63) (2 ^ 63 - 1).

(** ** For the compactor *)

Definition c_values (key : list Z) (c : Cache) : res cache_error (list Value) :=
  match st_entry (c_store c) key with Ok (Some e) => Ok (e_values e) | Ok None => Ok [] | Err e => Err e | Panic => Panic end.

(** The stores of the parts; an uninitialised cache panics for more than one,
    no parts divide by zero. *)
Definition c_Split (n : nat) (c : Cache) : res cache_error (list storer) :=
  if (n =? 1)%nat then Ok [c_store c]
  else match c_store c with
       | EmptyStore => if (n =? 0)%nat then Ok [] else Panic
       | RingStore r => if (n =? 0)%nat then Panic else Ok (map RingStore (ring_split n r))
       end.

Definition ApplyEntryFn {S} (f : list Z -> entry -> S -> res cache_error unit * S) (c : Cache) (s : S) : res cache_error unit * S :=
  match c_store c with EmptyStore => (Ok tt, s) | RingStore r => ring_applySerial f r s end.

End Cache.
