(* ===== verification/CacheFacts.v ===== *)
(** * What the cache promises

    Two maps from keys to maps from times to values, the live one and the one
    of the snapshot, specify the cache: writes overlay, deletes remove, a snapshot
    moves one into the other, reads overlay the live one on the snapshot.  When a write is
    refused and what a snapshot does depends on the limit and size, the
    types of the keys, and on a snapshot being taken or left over.  The
    cache refines this specification, and accounts for at least the
    bytes it holds. *)

From S2P Require Import Prelude Values Varint ValueCodec Blocks TypedValues Bytes TSMIndex Ring Cache.

Section Facts.
Context (Sum64 : list Z -> Z) (tsdb_EOF : Z).

(** ** Stores as maps *)

Definition slookup (s : storer) (k : list Z) : option entry :=
  match s with EmptyStore => None | RingStore r => rlookup Sum64 r k end.

Definition store_ok (s : storer) : Prop := match s with EmptyStore => True | RingStore r => ring_ok Sum64 r end.

Definition vals_of (o : option entry) : list Value := match o with Some e => e_values e | None => [] end.

Definition tmap (l : list Value) : gmap Z Value := to_map (Value_UnixNano tsdb_EOF) l.

Lemma st_entry_ok s k : store_ok s -> st_entry Sum64 s k = Ok (slookup s k).
Proof. destruct s as [|r]; intros H; [reflexivity|]. apply ring_entry_ok. exact H. Qed.

(** One store is another with one key changed. *)
Definition changed (s s' : storer) (k : list Z) (o : option entry) : Prop :=
  store_ok s' /\ slookup s' k = o /\ forall k', k' <> k -> slookup s' k' = slookup s k'.

Lemma st_write_spec r k values :
  store_ok (RingStore r) ->
  exists s', changed (RingStore r) s' k (match written values (slookup (RingStore r) k) with Ok o => o | _ => slookup (RingStore r) k end)
    /\ (exists r', s' = RingStore r')
    /\ st_write Sum64 k values (RingStore r)
       = (match written values (slookup (RingStore r) k) with
          | Ok _ => Ok (match slookup (RingStore r) k with None => true | _ => false end) | Err x => Err x | Panic => Panic end, s').
Proof.
  intros H. destruct (ring_write_spec Sum64 r k values H) as (r' & E & H1 & H2 & H3). exists (RingStore r').
  unfold st_write, on_ring. rewrite E. split; [split; [exact H1|split; [exact H2|exact H3]]|]. split; [eauto|reflexivity].
Qed.

Lemma st_remove_spec r k :
  store_ok (RingStore r) -> exists s', st_remove Sum64 k (RingStore r) = (Ok tt, s') /\ changed (RingStore r) s' k None /\ (exists r', s' = RingStore r').
Proof.
  intros H. destruct (ring_remove_spec Sum64 r k H) as (r' & E & H1 & H2 & H3). exists (RingStore r').
  unfold st_remove, on_ring. rewrite E. split; [reflexivity|]. split; [split; [exact H1|split; [exact H2|exact H3]]|eauto].
Qed.

Lemma st_update_spec r k e :
  store_ok (RingStore r) -> changed (RingStore r) (st_update Sum64 k e (RingStore r)) k (Some e) /\ exists r', st_update Sum64 k e (RingStore r) = RingStore r'.
Proof.
  intros H. unfold st_update. destruct (getPartition_ok Sum64 r k H) as [p Hp]. rewrite Hp. split; [|eauto].
  destruct (ring_update Sum64 r k p (<[k := e]> p) (r_keysHint r) H Hp) as (H1 & H2 & H3).
  { intros k' Hne. apply lookup_insert_ne. congruence. }
  split; [exact H1|]. split; [|exact H3]. etransitivity; [exact H2|]. apply lookup_insert_eq.
Qed.

Lemma fresh_store_spec : exists r, fresh_store = RingStore r /\ store_ok (RingStore r) /\ forall k, slookup (RingStore r) k = None.
Proof. destruct (newring_spec Sum64) as (r & E & H1 & H2). exists r. unfold fresh_store. rewrite E. auto. Qed.

Lemma st_reset_spec r : store_ok (RingStore r) -> exists r', st_reset (RingStore r) = RingStore r' /\ store_ok (RingStore r') /\ forall k, slookup (RingStore r') k = None.
Proof. intros H. destruct (ring_reset_spec Sum64 r H) as [H1 H2]. exists (ring_reset r). auto. Qed.

(** ** The values of an entry *)

Lemma written_vals values o o' : written values o = Ok o' -> vals_of o' = vals_of o ++ values.
Proof.
  unfold written. destruct o as [e|].
  - unfold entry_add. destruct values as [|v vs]; [intros [= <-]; cbn; rewrite app_nil_r; reflexivity|].
    destruct (forallb _ _); [intros [= <-]; reflexivity|discriminate].
  - unfold newEntryValues. destruct values as [|v vs]; [intros [= <-]; reflexivity|]. destruct (forallb _ _); [intros [= <-]; reflexivity|discriminate].
Qed.

Lemma written_no_panic values o : written values o <> Panic.
Proof.
  unfold written. destruct o as [e|].
  - unfold entry_add. destruct values as [|v vs]; [discriminate|]. destruct (forallb _ _); discriminate.
  - unfold newEntryValues. destruct values as [|v vs]; [discriminate|]. destruct (forallb _ _); discriminate.
Qed.

Lemma dedup_vals e : let l := e_values (entry_deduplicate tsdb_EOF e) in
  increasing (Value_UnixNano tsdb_EOF) l /\ tmap l = tmap (e_values e) /\ (l = [] -> e_values e = []).
Proof.
  unfold entry_deduplicate. destruct (Z.leb_spec (zlen (e_values e)) 1) as [H|H]; cbn.
  - split; [|auto]. destruct (e_values e) as [|v [|w l]]; [constructor|repeat constructor|]. rewrite !zlen_cons in H. pose proof (zlen_nonneg l). lia.
  - destruct (Deduplicate_spec (Value_UnixNano tsdb_EOF) (e_values e)) as [H1 H2]. split; [exact H1|]. split; [exact H2|].
    intros E. rewrite E in H2. destruct (e_values e) as [|v l]; [reflexivity|]. exfalso.
    destruct (proj2 (to_map_dom (Value_UnixNano tsdb_EOF) (v :: l) (Value_UnixNano tsdb_EOF v))) as [x Hx]; [exists v; split; [left|reflexivity]|].
    rewrite <- H2 in Hx. discriminate.
Qed.

(** ** Sizes *)

Lemma Values_Size_from n l : fold_left (fun sz v => sz + Value_Size v) l n = n + Values_Size l.
Proof.
  unfold Values_Size, Size. revert n. induction l as [|v l IH]; intros n; cbn [fold_left]; [lia|]. rewrite IH, (IH (0 + Value_Size v)). lia.
Qed.

Lemma Values_Size_app l k : Values_Size (l ++ k) = Values_Size l + Values_Size k.
Proof. unfold Values_Size at 1, Size. rewrite fold_left_app, Values_Size_from. reflexivity. Qed.

Lemma Values_Size_cons v l : Values_Size (v :: l) = Value_Size v + Values_Size l.
Proof. apply (Values_Size_app [v] l). Qed.

Lemma Value_Size_nonneg v : 0 <= Value_Size v.
Proof. destruct v; cbn; unfold FloatValue_Size, IntegerValue_Size, UnsignedValue_Size, BooleanValue_Size, StringValue_Size; zlen_lia. Qed.

Lemma Values_Size_nonneg l : 0 <= Values_Size l.
Proof. induction l as [|v l IH]; [reflexivity|]. rewrite Values_Size_cons. pose proof (Value_Size_nonneg v). lia. Qed.

Lemma Values_Size_sub l k : l ⊆+ k -> Values_Size l <= Values_Size k.
Proof.
  induction 1 as [|x l k H IH|x y l|x l k H IH|l1 l2 l3 H1 IH1 H2 IH2]; rewrite ?Values_Size_cons; try lia.
  pose proof (Value_Size_nonneg x). lia.
Qed.

(** [VEmpty] is the only value without size. *)
Definition proper (v : Value) : Prop := v <> VEmpty.

Lemma proper_Size v : proper v -> 0 < Value_Size v.
Proof. intros H. destruct v; cbn; unfold FloatValue_Size, IntegerValue_Size, UnsignedValue_Size, BooleanValue_Size, StringValue_Size; try zlen_lia. destruct (H eq_refl). Qed.

Lemma increasing_NoDup U (l : list Value) : increasing U l -> NoDup l.
Proof.
  intros H. induction H as [|v l H IH F]; constructor; [|exact IH]. intros Hin. rewrite Forall_forall in F. specialize (F v Hin). lia.
Qed.

Lemma dedup_sub e : e_values (entry_deduplicate tsdb_EOF e) ⊆+ e_values e.
Proof.
  destruct (dedup_vals e) as (Hi & Hm & _). apply NoDup_submseteq; [eapply increasing_NoDup; exact Hi|]. intros v Hv.
  eapply (to_map_elem (Value_UnixNano tsdb_EOF)). fold (tmap (e_values e)). rewrite <- Hm. apply increasing_in_map; [exact Hi|exact Hv].
Qed.

(** The bytes a store holds: keys and values. *)
Definition weight (k : list Z) (e : entry) : Z := zlen k + entry_size e.

Definition flat (s : storer) : gmap (list Z) entry :=
  match s with EmptyStore => ∅ | RingStore r => list_to_map (concat (map map_to_list (r_partitions r))) end.

Definition total (s : storer) : Z := map_fold (fun k e n => weight k e + n) 0 (flat s).

Lemma in_partitions (ps : list partition) (i : nat) (x : list Z * entry) :
  (forall j (p : partition) k, ps !! j = Some p -> is_Some (p !! k) -> (i + j)%nat = part_index Sum64 k) ->
  NoDup (map fst (concat (map map_to_list ps)))
  /\ (x ∈ concat (map map_to_list ps) <-> exists j (p : partition), ps !! j = Some p /\ p !! x.1 = Some x.2)
  /\ forall k, k ∈ map fst (concat (map map_to_list ps)) -> (i <= part_index Sum64 k)%nat.
Proof.
  revert i. induction ps as [|p ps IH]; intros i H; cbn.
  - split; [constructor|]. split; [|intros k Hk; apply elem_of_nil in Hk as []]. split; [intros Hx; apply elem_of_nil in Hx as []|intros (j & p & Hj & _); discriminate].
  - destruct (IH (S i)) as (N & E & B). { intros j q k Hj Hs. rewrite <- (H (S j) q k Hj Hs). lia. }
    assert (forall k, k ∈ map fst (map_to_list p) -> i = part_index Sum64 k) as Hp.
    { intros k Hk. apply list_elem_of_fmap in Hk as ([k' e] & -> & Hk). apply elem_of_map_to_list in Hk.
      cbn. rewrite <- (H 0%nat p k' eq_refl (ex_intro _ e Hk)). lia. }
    rewrite map_app. split; [|split].
    + apply NoDup_app. split; [apply NoDup_fst_map_to_list|]. split; [|exact N]. intros k H1 H2. specialize (Hp k H1). specialize (B k H2). lia.
    + rewrite elem_of_app, E. destruct x as [k e]. rewrite elem_of_map_to_list. cbn. split.
      * intros [H1|(j & q & Hj & Hq)]; [exists 0%nat, p; auto|exists (S j), q; auto].
      * intros ([|j] & q & Hj & Hq); [left; injection Hj as ->; exact Hq|right; eauto].
    + intros k Hk. apply elem_of_app in Hk as [Hk|Hk]; [rewrite (Hp k Hk); lia|]. specialize (B k Hk). lia.
Qed.

Lemma flat_lookup s k : store_ok s -> flat s !! k = slookup s k.
Proof.
  destruct s as [|r]; intros H; cbn; [apply lookup_empty|]. destruct H as [L P].
  assert (forall e, (list_to_map (concat (map map_to_list (r_partitions r))) : gmap (list Z) entry) !! k = Some e <-> rlookup Sum64 r k = Some e) as E.
  { intros e. destruct (in_partitions (r_partitions r) 0 (k, e)) as (N & Hin & _). { intros j p k' Hj Hs. exact (P _ _ _ Hj Hs). }
    rewrite <- (elem_of_list_to_map _ _ _ N), Hin. cbn. unfold rlookup, getPartition. split.
    - intros (j & p & Hj & Hp). rewrite <- (P j p k Hj (ex_intro _ e Hp)), Hj. exact Hp.
    - destruct (r_partitions r !! part_index Sum64 k) as [p|] eqn:Ep; [|discriminate]. eauto. }
  apply option_eq. exact E.
Qed.

Lemma weight_nonneg k e : 0 <= weight k e.
Proof. unfold weight, entry_size. pose proof (Values_Size_nonneg (e_values e)). zlen_lia. Qed.

Definition weight_o (k : list Z) (o : option entry) : Z := match o with Some e => weight k e | None => 0 end.

Lemma map_total_insert (m : gmap (list Z) entry) k e :
  map_fold (fun k e n => weight k e + n) 0 (<[k := e]> m) = weight k e + map_fold (fun k e n => weight k e + n) 0 (delete k m).
Proof.
  rewrite <- insert_delete_eq. apply (map_fold_insert_L (fun k e n => weight k e + n) 0 k e (delete k m)); [intros; lia|apply lookup_delete_eq].
Qed.

Lemma map_total_split (m : gmap (list Z) entry) k :
  map_fold (fun k e n => weight k e + n) 0 m = weight_o k (m !! k) + map_fold (fun k e n => weight k e + n) 0 (delete k m).
Proof.
  destruct (m !! k) as [e|] eqn:E; cbn.
  - rewrite <- (insert_id m k e E) at 1. apply map_total_insert.
  - rewrite delete_id by exact E. reflexivity.
Qed.

Lemma total_changed s s' k o : store_ok s -> changed s s' k o -> total s' = total s - weight_o k (slookup s k) + weight_o k o.
Proof.
  intros H (H' & Hk & Hne). unfold total. rewrite (map_total_split (flat s) k), (map_total_split (flat s') k), !flat_lookup, Hk by assumption.
  assert (delete k (flat s') = delete k (flat s)) as ->; [|lia]. apply map_eq. intros k'. destruct (decide (k' = k)) as [->|N]; [rewrite !lookup_delete_eq; reflexivity|].
  rewrite !lookup_delete_ne by congruence. rewrite !flat_lookup by assumption. apply Hne. exact N.
Qed.

Lemma total_ge s k : store_ok s -> weight_o k (slookup s k) <= total s.
Proof.
  intros H. unfold total. rewrite (map_total_split (flat s) k), flat_lookup by exact H.
  enough (forall m : gmap (list Z) entry, 0 <= map_fold (fun k e n => weight k e + n) 0 m) as P by (specialize (P (delete k (flat s))); lia).
  clear. intros m. induction m as [|k e m Hk IH] using map_ind; [rewrite map_fold_empty; lia|]. rewrite map_total_insert, delete_id by exact Hk.
  pose proof (weight_nonneg k e). lia.
Qed.

Lemma total_empty s : store_ok s -> (forall k, slookup s k = None) -> total s = 0.
Proof.
  intros H E. unfold total. assert (flat s = ∅) as -> by (apply map_empty; intros k; rewrite flat_lookup by exact H; apply E). apply map_fold_empty.
Qed.

End Facts.

(** When a write is accepted, in terms of the type the key has. *)

Definition agrees (o : option Z) (values : list Value) : bool :=
  match o, values with
  | Some t, _ => forallb (fun x => t =? valueType x) values
  | None, v :: _ => forallb (fun x => valueType v =? valueType x) values
  | None, [] => true
  end.

(** The type of a key once it has an entry; an entry made without values has type 0. *)
Definition typed_by (o : option Z) (values : list Value) : Z :=
  match o, values with Some t, _ => t | None, v :: _ => valueType v | None, [] => 0 end.

Lemma written_agrees values (o : option entry) :
  written values o = if agrees (e_vtype <$> o) values then Ok (Some (mkE (vals_of o ++ values) (typed_by (e_vtype <$> o) values))) else Err ErrFieldTypeConflict.
Proof.
  destruct o as [[l t]|]; cbn.
  - unfold entry_add. destruct values as [|v vs]; [cbn; rewrite app_nil_r; reflexivity|]. cbn [e_vtype]. destruct (forallb _ _); reflexivity.
  - unfold newEntryValues. destruct values as [|v vs]; [reflexivity|]. destruct (forallb _ _); reflexivity.
Qed.

(** * The cache refines two maps *)

Section Spec.
Context (Sum64 : list Z -> Z) (tsdb_EOF : Z).

(** ** The specification *)

Record aspec := mkA { a_live : list Z -> gmap Z Value; a_snap : list Z -> gmap Z Value }.

Inductive cop :=
| OWrite (k : list Z) (values : list Value)
| OWriteMulti (l : list (list Z * list Value))
| OSnapshot (now : Z)
| OClearSnapshot (success : bool)
| ODeduplicate
| OValues (k : list Z)
| ODeleteRange (keys : list (list Z)) (min max : Z)
| OFree.

Inductive cobs := CDone | CErr (e : cache_error) | CVals (l : list Value) | CPanic.

Definition overlay (k : list Z) (values : list Value) (m : list Z -> gmap Z Value) : list Z -> gmap Z Value :=
  fun k' => if decide (k' = k) then tmap tsdb_EOF values ∪ m k else m k'.

(** The writes of a batch that succeeded. *)
Fixpoint overlays (l : list (list Z * list Value)) (ok : list bool) (m : list Z -> gmap Z Value) : list Z -> gmap Z Value :=
  match l, ok with
  | (k, v) :: l', b :: ok' => overlays l' ok' (if b then overlay k v m else m)
  | _, _ => m
  end.

(** What decides whether a write is accepted and what a snapshot does: the limit
    and the size, the types of the keys, whether a snapshot is being
    written, and whether one is left over from an attempt. *)
Record control := mkCtl { t_max : Z; t_size : Z; t_type : list Z -> option Z; t_busy : bool; t_left : bool }.

Definition full (t : control) (n : Z) : bool := (0 <? t_max t) && (t_max t <? t_size t + n).

Definition put_type (k : list Z) (values : list Value) (m : list Z -> option Z) : list Z -> option Z :=
  fun k' => if decide (k' = k) then Some (typed_by (m k) values) else m k'.

(** Which writes of a batch are accepted, and the types after it. *)
Fixpoint batch_ok (l : list (list Z * list Value)) (m : list Z -> option Z) : list bool :=
  match l with
  | [] => []
  | (k, v) :: l' => agrees (m k) v :: batch_ok l' (if agrees (m k) v then put_type k v m else m)
  end.

Fixpoint batch_types (l : list (list Z * list Value)) (m : list Z -> option Z) : list Z -> option Z :=
  match l with
  | [] => m
  | (k, v) :: l' => batch_types l' (if agrees (m k) v then put_type k v m else m)
  end.

Definition sizes (l : list (list Z * list Value)) : Z := fold_right (fun x n => Values_Size x.2 + n) 0 l.

Definition types_are (m : list Z -> option Z) (t : control) : Prop := forall k, t_type t k = m k.
Definition keeps (t t' : control) : Prop := t_max t' = t_max t /\ t_busy t' = t_busy t /\ t_left t' = t_left t.

Definition without (min max : Z) (m : gmap Z Value) : gmap Z Value := filter (fun x => ~ (min <= x.1 <= max)) m.

Definition same (m m' : list Z -> gmap Z Value) : Prop := forall k, m' k = m k.
Definition nothing (m : list Z -> gmap Z Value) : Prop := forall k, m k = ∅.

Definition cspec (a : aspec) (t : control) (op : cop) (o : cobs) (a' : aspec) (t' : control) : Prop :=
  match op with
  | OWrite k values =>
      same (a_snap a) (a_snap a') /\ keeps t t'
      /\ if full t (Values_Size values)
         then (exists n, o = CErr (ErrCacheMemorySizeLimitExceeded n (t_max t))) /\ same (a_live a) (a_live a') /\ types_are (t_type t) t'
         else if agrees (t_type t k) values
         then o = CDone /\ same (overlay k values (a_live a)) (a_live a') /\ types_are (put_type k values (t_type t)) t'
         else o = CErr ErrFieldTypeConflict /\ same (a_live a) (a_live a') /\ types_are (t_type t) t'
  | OWriteMulti l =>
      same (a_snap a) (a_snap a') /\ keeps t t'
      /\ if full t (sizes l)
         then (exists n, o = CErr (ErrCacheMemorySizeLimitExceeded n (t_max t))) /\ same (a_live a) (a_live a') /\ types_are (t_type t) t'
         else let ok := batch_ok l (t_type t) in
              o = (if forallb id ok then CDone else CErr ErrFieldTypeConflict)
              /\ same (overlays l ok (a_live a)) (a_live a') /\ types_are (batch_types l (t_type t)) t'
  | OSnapshot _ =>
      if t_busy t
      then o = CErr ErrSnapshotInProgress /\ same (a_live a) (a_live a') /\ same (a_snap a) (a_snap a') /\ types_are (t_type t) t' /\ keeps t t'
      else o = CDone /\ t_busy t' = true /\ t_max t' = t_max t
           /\ if t_left t
              then same (a_live a) (a_live a') /\ same (a_snap a) (a_snap a') /\ types_are (t_type t) t' /\ t_left t' = true
              else nothing (a_snap a) /\ nothing (a_live a') /\ same (a_live a) (a_snap a') /\ types_are (fun _ => None) t'
                   /\ (t_left t' = false -> nothing (a_live a))
  | OClearSnapshot b =>
      o = CDone /\ same (a_live a) (a_live a') /\ types_are (t_type t) t' /\ t_busy t' = false /\ t_max t' = t_max t
      /\ if b then nothing (a_snap a') /\ t_left t' = false else same (a_snap a) (a_snap a') /\ t_left t' = t_left t
  | ODeduplicate => o = CDone /\ same (a_live a) (a_live a') /\ same (a_snap a) (a_snap a') /\ types_are (t_type t) t' /\ keeps t t'
  | OValues k =>
      same (a_live a) (a_live a') /\ same (a_snap a) (a_snap a') /\ types_are (t_type t) t' /\ keeps t t'
      /\ exists l, o = CVals l /\ increasing (Value_UnixNano tsdb_EOF) l /\ tmap tsdb_EOF l = a_live a k ∪ a_snap a k
  | ODeleteRange keys mn mx =>
      o = CDone /\ same (a_snap a) (a_snap a') /\ keeps t t'
      /\ (forall k, a_live a' k = if decide (k ∈ keys) then without mn mx (a_live a k) else a_live a k)
      /\ forall k, t_type t' k = t_type t k \/ (k ∈ keys /\ t_type t' k = None /\ a_live a' k = ∅)
  | OFree => o = CDone /\ same (a_snap a) (a_snap a') /\ nothing (a_live a') /\ types_are (fun _ => None) t' /\ keeps t t'
  end.

(** ** The cache *)

Definition exec (op : cop) (c : Cache) : cobs * Cache :=
  let unit_obs (r : res cache_error unit * Cache) := (match r.1 with Ok _ => CDone | Err e => CErr e | Panic => CPanic end, r.2) in
  match op with
  | OWrite k values => unit_obs (Write Sum64 k values c)
  | OWriteMulti l => unit_obs (WriteMulti Sum64 l c)
  | OSnapshot now => let r := Snapshot now c in (match r.1 with Ok _ => CDone | Err e => CErr e | Panic => CPanic end, r.2)
  | OClearSnapshot b => unit_obs (ClearSnapshot b c)
  | ODeduplicate => (CDone, c_Deduplicate tsdb_EOF c)
  | OValues k => let r := c_Values Sum64 tsdb_EOF k c in (match r.1 with Ok l => CVals l | Err e => CErr e | Panic => CPanic end, r.2)
  | ODeleteRange keys mn mx => unit_obs (c_DeleteRange Sum64 tsdb_EOF keys mn mx c)
  | OFree => (CDone, Free c)
  end.

Definition snap_entry (c : Cache) (k : list Z) : option entry :=
  match c_snapshot c with Some sn => slookup Sum64 (sn_store sn) k | None => None end.

Definition live_entry (c : Cache) (k : list Z) : option entry := slookup Sum64 (c_store c) k.

Definition abs (c : Cache) : aspec :=
  mkA (fun k => tmap tsdb_EOF (vals_of (live_entry c k))) (fun k => tmap tsdb_EOF (vals_of (snap_entry c k))).

Definition left_over (c : Cache) : bool := match c_snapshot c with Some sn => 0 <? sn_size sn | None => false end.

Definition control_of (c : Cache) : control :=
  mkCtl (c_maxSize c) (c_Size c) (fun k => e_vtype <$> live_entry c k) (c_snapshotting c) (left_over c).

Definition ring_store (s : storer) : Prop := exists r, s = RingStore r /\ ring_ok Sum64 r.

Definition all_proper (s : storer) : Prop := forall k, Forall proper (vals_of (slookup Sum64 s k)).

Record cinv (c : Cache) : Prop := {
  ci_store : if c_initialized c then ring_store (c_store c) else c_store c = EmptyStore;
  ci_total : total (c_store c) <= c_size c;
  ci_proper : all_proper (c_store c);
  ci_snap : match c_snapshot c with
            | None => c_snapshotSize c = 0
            | Some sn => ring_store (sn_store sn) /\ total (sn_store sn) <= sn_size sn /\ sn_size sn = c_snapshotSize c /\ all_proper (sn_store sn)
            end;
  ci_fit : 0 <= c_snapshotSize c /\ 0 <= c_size c /\ c_size c + c_snapshotSize c < 2 ^ 64 }.

(** When [DeleteRange] on an entry with these values is exact: all of time is
    deleted, or the values are sorted. *)
Definition deletable (mn mx : Z) (l : list Value) : Prop :=
  Forall (fun v => is_i64 (Value_UnixNano tsdb_EOF v)) l
  /\ ((mn = - 2 ^ 63 /\ mx = 2 ^ 63 - 1) \/ increasing (Value_UnixNano tsdb_EOF) l).

(** What an operation needs: sizes stay below [2^64], values are values, and a
    range is deleted from sorted entries only, unless it is all of time. *)
Definition op_ok (op : cop) (c : Cache) : Prop :=
  match op with
  | OWrite k values => Forall proper values /\ c_size c + c_snapshotSize c + Values_Size values + zlen k < 2 ^ 64
  | OWriteMulti l => Forall (fun x => Forall proper x.2) l
      /\ c_size c + c_snapshotSize c + fold_right (fun x n => Values_Size x.2 + zlen x.1 + n) 0 l < 2 ^ 64
  | OClearSnapshot _ => c_snapshot c <> None
  | ODeleteRange keys mn mx => Forall (fun k => deletable mn mx (vals_of (live_entry c k))) keys
  | _ => True
  end.

Lemma same_refl m : same m m.
Proof. intros k. reflexivity. Qed.
#[local] Hint Resolve same_refl : core.

Lemma ring_store_ok s : ring_store s -> store_ok Sum64 s.
Proof. intros (r & -> & H). exact H. Qed.

Lemma cinv_ok c : cinv c -> store_ok Sum64 (c_store c).
Proof. intros H. pose proof (ci_store _ H) as S. destruct (c_initialized c); [apply ring_store_ok; exact S|rewrite S; exact I]. Qed.

(** *** Initialising changes nothing that can be seen *)

Lemma init_live c : cinv c -> forall k, live_entry (init c) k = live_entry c k.
Proof.
  intros H k. unfold init. destruct (c_initialized c) eqn:E; [reflexivity|]. pose proof (ci_store _ H) as S. rewrite E in S.
  destruct (fresh_store_spec Sum64) as (r & Er & _ & Hn). unfold live_entry. cbn [c_store]. rewrite Er, Hn, S. reflexivity.
Qed.

Lemma init_control c : c_maxSize (init c) = c_maxSize c /\ c_Size (init c) = c_Size c /\ c_snapshotting (init c) = c_snapshotting c /\ left_over (init c) = left_over c.
Proof. unfold init. destruct (c_initialized c); auto. Qed.

(** Nothing the specification sees of the control state but the types and the
    size has changed since the cache was initialised. *)
Lemma keeps_init c c' :
  c_maxSize c' = c_maxSize (init c) -> c_snapshotting c' = c_snapshotting (init c) -> left_over c' = left_over (init c) -> keeps (control_of c) (control_of c').
Proof. destruct (init_control c) as (E1 & _ & E2 & E3). unfold keeps. cbn. intros -> -> ->. auto. Qed.

Lemma types_init c c' : cinv c -> (forall k, live_entry c' k = live_entry (init c) k) -> types_are (t_type (control_of c)) (control_of c').
Proof. intros H E k. cbn. rewrite E, (init_live c H). reflexivity. Qed.

Lemma init_spec c : cinv c -> cinv (init c) /\ ring_store (c_store (init c)) /\ c_initialized (init c) = true
  /\ (forall k, vals_of (live_entry (init c) k) = vals_of (live_entry c k)) /\ (forall k, snap_entry (init c) k = snap_entry c k)
  /\ c_size (init c) = c_size c /\ c_snapshotSize (init c) = c_snapshotSize c /\ c_snapshot (init c) = c_snapshot c /\ c_snapshotting (init c) = c_snapshotting c.
Proof.
  intros H. unfold init. destruct (c_initialized c) eqn:E.
  - pose proof (ci_store _ H) as S. rewrite E in S. auto 12.
  - pose proof (ci_store _ H) as S. rewrite E in S. destruct (fresh_store_spec Sum64) as (r & Er & Hr & Hn). rewrite Er.
    assert (forall k, vals_of (slookup Sum64 (RingStore r) k) = []) as Hv by (intros k; rewrite Hn; reflexivity).
    split; [|split; [exists r; auto|split; [reflexivity|split; [intros k; unfold live_entry; cbn [c_store]; rewrite Hv, S; reflexivity|auto 8]]]].
    destruct H as [_ Ht _ Hsn Hf]. split; cbn; auto.
    + exists r. auto.
    + rewrite (total_empty Sum64) by assumption. lia.
    + intros k. rewrite Hv. constructor.
Qed.

Lemma ring_changed s s' k o : changed Sum64 s s' k o -> (exists r', s' = RingStore r') -> ring_store s'.
Proof. intros (H & _) (r' & ->). exists r'. auto. Qed.

Lemma all_proper_changed s s' k o : all_proper s -> changed Sum64 s s' k o -> Forall proper (vals_of o) -> all_proper s'.
Proof. intros H (_ & Hk & Hne) Ho k'. destruct (decide (k' = k)) as [->|N]; [rewrite Hk; exact Ho|rewrite Hne by exact N; apply H]. Qed.

(** The invariant after a change of the live store and its size. *)
Lemma cinv_live c c' :
  cinv c -> c_initialized c' = true -> ring_store (c_store c') -> all_proper (c_store c') -> total (c_store c') <= c_size c' ->
  c_snapshot c' = c_snapshot c -> c_snapshotSize c' = c_snapshotSize c -> c_size c' + c_snapshotSize c < 2 ^ 64 -> 0 <= c_size c' -> cinv c'.
Proof.
  intros [_ _ _ Hs Hf] Hi Hr Hp Ht E1 E2 Hfit Hpos. split; auto; [rewrite Hi; exact Hr|rewrite E1, E2; exact Hs|rewrite E2; lia].
Qed.

Lemma snap_same c c' : c_snapshot c' = c_snapshot c -> forall k, snap_entry c' k = snap_entry c k.
Proof. intros E k. unfold snap_entry. rewrite E. reflexivity. Qed.

(** *** Writing one key *)

Definition put_vals (c c' : Cache) (k : list Z) (values : list Value) : Prop :=
  forall k', vals_of (live_entry c' k') = if decide (k' = k) then vals_of (live_entry c k) ++ values else vals_of (live_entry c k').

Lemma weight_o_vals k o : weight_o k o = match o with Some _ => zlen k | None => 0 end + Values_Size (vals_of o).
Proof. destruct o as [e|]; reflexivity. Qed.

Definition type_of (c : Cache) (k : list Z) : option Z := e_vtype <$> live_entry c k.

(** What [store.write] does to the store of a cache. *)
Lemma write_store c k values :
  ring_store (c_store c) -> all_proper (c_store c) -> Forall proper values ->
  (agrees (type_of c k) values = true
     /\ exists s', st_write Sum64 k values (c_store c) = (Ok (match live_entry c k with None => true | _ => false end), s')
     /\ ring_store s' /\ all_proper s' /\ put_vals c (set_store s' c) k values
     /\ total s' = total (c_store c) + Values_Size values + match live_entry c k with None => zlen k | _ => 0 end
     /\ forall k', e_vtype <$> slookup Sum64 s' k' = put_type k values (type_of c) k')
  \/ (agrees (type_of c k) values = false
     /\ exists s', st_write Sum64 k values (c_store c) = (Err ErrFieldTypeConflict, s') /\ ring_store s' /\ all_proper s' /\ (forall k', slookup Sum64 s' k' = live_entry c k')
        /\ total s' = total (c_store c)).
Proof.
  intros (r & Er & Hr) Hp Hv. unfold put_vals, type_of, live_entry. cbn [set_store c_store]. rewrite Er in *.
  destruct (st_write_spec Sum64 r k values Hr) as (s' & Hch & Hex & ->). pose proof (total_changed Sum64 _ _ _ _ (Hr : store_ok Sum64 (RingStore r)) Hch) as Ht.
  pose proof (ring_changed _ _ _ _ Hch Hex) as Hrs. pose proof Hch as (Hok & Hk & Hne). rewrite written_agrees in *.
  destruct (agrees (e_vtype <$> slookup Sum64 (RingStore r) k) values) eqn:Ew; [left|right]; (split; [reflexivity|]).
  - exists s'. split; [reflexivity|]. set (o := Some (mkE _ _)) in *.
    assert (vals_of o = vals_of (slookup Sum64 (RingStore r) k) ++ values) as Ev by reflexivity.
    assert (Forall proper (vals_of o)) as Hpo by (rewrite Ev; apply Forall_app; split; [apply Hp|exact Hv]).
    split; [exact Hrs|]. split; [eapply all_proper_changed; eassumption|]. split; [|split].
    + intros k'. destruct (decide (k' = k)) as [->|N]; [rewrite Hk, Ev; reflexivity|rewrite Hne by exact N; reflexivity].
    + rewrite Ht, !weight_o_vals, Ev, Values_Size_app. destruct (slookup Sum64 (RingStore r) k); cbn [o]; lia.
    + intros k'. unfold put_type. destruct (decide (k' = k)) as [->|N]; [rewrite Hk; reflexivity|rewrite Hne by exact N; reflexivity].
  - exists s'. split; [reflexivity|]. split; [exact Hrs|]. split; [eapply all_proper_changed; [exact Hp|exact Hch|apply Hp]|]. split; [|lia].
    intros k'. destruct (decide (k' = k)) as [->|N]; [exact Hk|apply Hne; exact N].
Qed.

Lemma put_abs c c' k values : put_vals c c' k values -> same (overlay k values (a_live (abs c))) (a_live (abs c')).
Proof.
  intros H k'. cbn. rewrite H. unfold overlay. destruct (decide (k' = k)) as [->|_]; [|reflexivity]. apply to_map_app.
Qed.

Lemma Write_refines c k values :
  cinv c -> op_ok (OWrite k values) c ->
  let '(o, c') := exec (OWrite k values) c in cinv c' /\ cspec (abs c) (control_of c) (OWrite k values) o (abs c') (control_of c').
Proof.
  intros H [Hv Hfit]. destruct (init_spec c H) as (H0 & Hr & Hi & Hlive & Hsnap & Esz & Esn & Ess & _). cbn [exec]. unfold Write. set (c0 := init c) in *.
  pose proof (Values_Size_nonneg values) as Hpos. pose proof (ci_fit _ H0) as Hf0. rewrite Esz, Esn in Hf0. pose proof (zlen_nonneg k) as Hkpos.
  rewrite (u64_small (Values_Size values)) by lia.
  assert (forall c', c_store c' = c_store c0 -> c_snapshot c' = c_snapshot c0 -> (forall k, a_live (abs c') k = a_live (abs c) k) /\ same (a_snap (abs c)) (a_snap (abs c'))) as Hsame.
  { intros c' E1 E2. split; intros k'; cbn; unfold live_entry, snap_entry in *; [rewrite E1, Hlive; reflexivity|rewrite E2, Hsnap; reflexivity]. }
  destruct (init_control c) as (Em & Eszc & _). fold c0 in Em, Eszc.
  assert (u64 (c_Size c0 + Values_Size values) = c_Size c + Values_Size values) as En.
  { rewrite Eszc. unfold c_Size. rewrite (u64_small (c_size c + c_snapshotSize c)) by lia. apply u64_small. lia. }
  assert ((0 <? c_maxSize c0) && (c_maxSize c0 <? u64 (c_Size c0 + Values_Size values)) = full (control_of c) (Values_Size values)) as Efull by (unfold full; cbn; rewrite Em, En; reflexivity).
  rewrite Efull. cbn [cspec]. destruct (full (control_of c) (Values_Size values)).
  { cbn [fst snd]. split; [destruct H0; split; assumption|]. destruct (Hsame (set_stats (bump_WriteErr (c_stats c0)) c0) eq_refl eq_refl) as [S1 S2]. split; [exact S2|].
    split; [apply keeps_init; reflexivity|]. split; [rewrite Em; eauto|]. split; [exact S1|apply types_init; auto]. }
  assert (forall k, type_of c0 k = t_type (control_of c) k) as Ety by (intros k'; unfold type_of; cbn; rewrite (init_live c H); reflexivity).
  pose proof (write_store c0 k values Hr (ci_proper _ H0) Hv) as W. rewrite Ety in W.
  destruct W as [(-> & s' & -> & Hrs & Hps & Hput & Ht & Hty)|(-> & s' & -> & Hrs & Hps & Hput & Ht)]; cbn [fst snd].
  - pose proof (ci_total _ H0) as Htot. rewrite Esz in Htot.
    assert (u64 (c_size c + (if match live_entry c0 k with None => true | _ => false end : bool then u64 (Values_Size values + zlen k) else Values_Size values))
            = c_size c + Values_Size values + match live_entry c0 k with None => zlen k | _ => 0 end) as Es.
    { destruct (live_entry c0 k); rewrite ?(u64_small (Values_Size values + zlen k)) by lia; rewrite u64_small by lia; lia. }
    split.
    + apply (cinv_live c0); auto; cbn [updateMemSize increaseSize set_stats set_store set_size c_size c_store c_snapshot c_snapshotSize]; try rewrite Esz; rewrite ?Es, ?Esn; try (destruct (live_entry c0 k); lia).
    + split; [intros k'; cbn; unfold snap_entry in *; cbn; apply (f_equal (fun o => tmap tsdb_EOF (vals_of o))), Hsnap|].
      split; [apply keeps_init; reflexivity|]. split; [reflexivity|]. split.
      * intros k'. etransitivity; [apply (put_abs c0 _ k values Hput)|]. unfold overlay. cbn. rewrite !Hlive. reflexivity.
      * intros k'. etransitivity; [exact (Hty k')|]. unfold put_type. rewrite !Ety. reflexivity.
  - split.
    + pose proof (ci_total _ H0) as Htot. apply (cinv_live c0); auto; cbn; rewrite ?Esz, ?Esn; lia.
    + split; [intros k'; cbn; unfold snap_entry in *; cbn; apply (f_equal (fun o => tmap tsdb_EOF (vals_of o))), Hsnap|].
      split; [apply keeps_init; reflexivity|]. split; [reflexivity|]. split.
      * intros k'. cbn. unfold live_entry at 1. cbn [set_stats set_store c_store]. rewrite Hput, Hlive. reflexivity.
      * apply types_init; [exact H|]. intros k'. exact (Hput k').
Qed.

(** *** Writing a batch *)

Lemma decrease_exact n d : 0 <= d <= n -> n < 2 ^ 64 -> u64 (n + (2 ^ 64 - 1 - u64 (d - 1))) = n - d.
Proof.
  intros H1 H2. destruct (Z.eq_dec d 0) as [->|Hd].
  - change (u64 (0 - 1)) with (2 ^ 64 - 1). rewrite u64_small; lia.
  - rewrite (u64_small (d - 1)) by lia. unfold u64. replace (n + (2 ^ 64 - 1 - (d - 1))) with ((n - d) + 1 * 2 ^ 64) by lia. rewrite Z.mod_add by lia.
    apply Z.mod_small. lia.
Qed.

Definition key_sizes (l : list (list Z * list Value)) : Z := fold_right (fun x n => zlen x.1 + n) 0 l.

Lemma sizes_nonneg l : 0 <= sizes l.
Proof. induction l as [|x l IH]; cbn; [lia|]. pose proof (Values_Size_nonneg x.2). unfold sizes in *. lia. Qed.
Lemma key_sizes_nonneg l : 0 <= key_sizes l.
Proof. induction l as [|x l IH]; cbn; [lia|]. pose proof (zlen_nonneg x.1). unfold key_sizes in *. lia. Qed.

(** Only the live store and its size differ. *)
Definition frame (c c' : Cache) : Prop :=
  c_snapshot c' = c_snapshot c /\ c_snapshotSize c' = c_snapshotSize c /\ c_initialized c' = c_initialized c
  /\ c_maxSize c' = c_maxSize c /\ c_snapshotting c' = c_snapshotting c.

Lemma put_type_ext k v m m' : (forall k, m k = m' k) -> forall k', put_type k v m k' = put_type k v m' k'.
Proof. intros H k'. unfold put_type. rewrite !H. reflexivity. Qed.

Lemma batch_ext l m m' : (forall k, m k = m' k) -> batch_ok l m = batch_ok l m' /\ forall k, batch_types l m k = batch_types l m' k.
Proof.
  revert m m'. induction l as [|[k v] l IH]; intros m m' H; cbn; [auto|]. rewrite (H k).
  destruct (IH (if agrees (m' k) v then put_type k v m else m) (if agrees (m' k) v then put_type k v m' else m')) as [-> E]; [|auto].
  destruct (agrees (m' k) v); [apply put_type_ext|]; exact H.
Qed.

Lemma length_batch_ok l m : length (batch_ok l m) = length l.
Proof. revert m. induction l as [|[k v] l IH]; intros m; cbn; [reflexivity|]. rewrite IH. reflexivity. Qed.

Lemma overlay_same k values m m' : same m m' -> same (overlay k values m) (overlay k values m').
Proof. intros H k'. unfold overlay. rewrite !H. reflexivity. Qed.

Lemma overlays_same l ok m m' : same m m' -> same (overlays l ok m) (overlays l ok m').
Proof.
  revert ok m m'. induction l as [|[k v] l IH]; intros [|b ok] m m' H; cbn; auto. apply IH. destruct b; [apply overlay_same|]; exact H.
Qed.

Lemma same_trans m1 m2 m3 : same m1 m2 -> same m2 m3 -> same m1 m3.
Proof. intros H1 H2 k. rewrite H2. apply H1. Qed.

Lemma write_all_spec l werr added c :
  Forall (fun x => Forall proper x.2) l -> ring_store (c_store c) -> all_proper (c_store c) ->
  total (c_store c) + sizes l <= c_size c -> 0 <= total (c_store c) -> 0 <= c_snapshotSize c -> c_size c + c_snapshotSize c + key_sizes l < 2 ^ 64 ->
  let ok := batch_ok l (type_of c) in
  exists added' c', write_all Sum64 l werr added c = Some (if forallb id ok then werr else Some ErrFieldTypeConflict, added', c')
    /\ same (overlays l ok (a_live (abs c))) (a_live (abs c')) /\ (forall k, type_of c' k = batch_types l (type_of c) k)
    /\ frame c c' /\ ring_store (c_store c') /\ all_proper (c_store c') /\ total (c_store c') <= c_size c' /\ 0 <= total (c_store c')
    /\ c_size c' + c_snapshotSize c < 2 ^ 64.
Proof.
  intros Hl. revert werr added c. induction Hl as [|[k v] l Hv Hl IH]; intros werr added c Hr Hp Ht Ht0 Hs0 Hfit.
  { exists added, c. cbn in *. repeat split; auto; lia. }
  cbn [write_all sizes key_sizes fold_right fst snd batch_ok batch_types] in *. fold (sizes l) in Ht. fold (key_sizes l) in Hfit. pose proof (Values_Size_nonneg v). pose proof (sizes_nonneg l).
  pose proof (zlen_nonneg k). pose proof (key_sizes_nonneg l).
  destruct (write_store c k v Hr Hp Hv) as [(-> & s' & -> & Hrs & Hps & Hput & Et & Hty)|(-> & s' & -> & Hrs & Hps & Hput & Et)].
  - set (grow := match live_entry c k with None => zlen k | _ => 0 end) in *.
    assert (exists c1 w1, (if match live_entry c k with None => true | _ => false end : bool
                      then write_all Sum64 l werr (u64 (added + zlen k)) (increaseSize (zlen k) (set_store s' c))
                      else write_all Sum64 l werr added (set_store s' c)) = write_all Sum64 l werr w1 c1
              /\ c_store c1 = s' /\ c_size c1 = c_size c + grow /\ frame c c1) as (c1 & w1 & -> & E1 & E2 & F1).
    { unfold grow. destruct (live_entry c k); [exists (set_store s' c), added|exists (increaseSize (zlen k) (set_store s' c)), (u64 (added + zlen k))];
        (split; [reflexivity|]; split; [reflexivity|]; split; [|repeat split]); cbn [increaseSize set_size set_store c_size]; [lia|rewrite u64_small by lia; reflexivity]. }
    assert (0 <= grow <= zlen k) as Hg by (unfold grow; destruct (live_entry c k); lia). destruct F1 as (F1 & F2 & F3 & F4 & F5).
    assert (forall k', type_of c1 k' = put_type k v (type_of c) k') as Ht1 by (intros k'; unfold type_of at 1, live_entry; rewrite E1; apply Hty).
    destruct (batch_ext l _ _ Ht1) as [<- Hbt].
    destruct (IH werr w1 c1) as (added' & c' & Ew & Hov & Hbt' & (G1 & G2 & G3 & G4 & G5) & R1 & R2 & R3 & R4 & R5); rewrite ?E1, ?E2, ?F2; auto; try lia.
    exists added', c'. split; [exact Ew|]. split; [|split; [intros k'; rewrite Hbt'; apply Hbt|]].
    + cbn [overlays]. eapply same_trans; [|exact Hov]. apply overlays_same. intros k'. etransitivity; [|apply (put_abs c (set_store s' c) k v Hput)].
      cbn. unfold live_entry. cbn. rewrite E1. reflexivity.
    + rewrite F2 in R5. split; [repeat split; congruence|]. auto.
  - rewrite (u64_small (Values_Size v)) by lia. set (c1 := decreaseSize (Values_Size v) (set_store s' c)).
    assert (c_size c1 = c_size c - Values_Size v) as E2 by (unfold c1, decreaseSize; cbn [set_size set_store c_size]; apply decrease_exact; lia).
    assert (forall k', type_of c1 k' = type_of c k') as Ht1 by (intros k'; unfold type_of, live_entry; cbn [c1 decreaseSize set_size set_store c_store]; rewrite Hput; reflexivity).
    destruct (batch_ext l _ _ Ht1) as [<- Hbt].
    destruct (IH (Some ErrFieldTypeConflict) (u64 (added - Values_Size v)) c1) as (added' & c' & Ew & Hov & Hbt' & (G1 & G2 & G3 & G4 & G5) & R1 & R2 & R3 & R4 & R5);
      rewrite ?E2; cbn [c1 decreaseSize set_size set_store c_store c_snapshotSize]; auto; try lia.
    exists added', c'. split; [rewrite Ew; cbn; destruct (forallb _ _); reflexivity|]. split; [|split; [intros k'; rewrite Hbt'; apply Hbt|]].
    + cbn [overlays]. eapply same_trans; [|exact Hov]. apply overlays_same. intros k'. cbn. unfold live_entry at 1. cbn. rewrite Hput. reflexivity.
    + split; [repeat split; assumption|auto].
Qed.

Lemma batch_sizes l n : 0 <= n -> n + sizes l < 2 ^ 64 -> fold_left (fun n x => u64 (n + u64 (Values_Size x.2))) l n = n + sizes l.
Proof.
  revert n. induction l as [|x l IH]; intros n Hn Hfit; cbn [fold_left sizes fold_right] in *; [lia|]. fold (sizes l) in *.
  pose proof (Values_Size_nonneg x.2). pose proof (sizes_nonneg l). rewrite (u64_small (Values_Size x.2)) by lia. rewrite u64_small by lia. rewrite IH by lia. lia.
Qed.

Lemma batch_fit l : fold_right (fun x n => Values_Size x.2 + zlen x.1 + n) 0 l = sizes l + key_sizes l.
Proof. induction l as [|x l IH]; [reflexivity|]. cbn [fold_right sizes key_sizes]. fold (sizes l) (key_sizes l). lia. Qed.

(** The specification only sees the values, and statistics are not seen. *)
Lemma live_abs c c' : (forall k, vals_of (live_entry c' k) = vals_of (live_entry c k)) -> same (a_live (abs c)) (a_live (abs c')).
Proof. intros H k. cbn. rewrite H. reflexivity. Qed.
Lemma snap_abs c c' : (forall k, snap_entry c' k = snap_entry c k) -> same (a_snap (abs c)) (a_snap (abs c')).
Proof. intros H k. cbn. rewrite H. reflexivity. Qed.

Lemma total_nonneg s : store_ok Sum64 s -> 0 <= total s.
Proof.
  intros H. pose proof (total_ge Sum64 s [] H) as G. destruct (slookup Sum64 s []); cbn in G; [|exact G]. pose proof (weight_nonneg [] e). lia.
Qed.

Lemma WriteMulti_refines c l :
  cinv c -> op_ok (OWriteMulti l) c ->
  let '(o, c') := exec (OWriteMulti l) c in cinv c' /\ cspec (abs c) (control_of c) (OWriteMulti l) o (abs c') (control_of c').
Proof.
  intros H [Hv Hfit]. destruct (init_spec c H) as (H0 & Hr & Hi & Hlive & Hsnap & Esz & Esn & Ess & _). cbn [exec]. unfold WriteMulti. set (c0 := init c) in *.
  rewrite batch_fit in Hfit. pose proof (sizes_nonneg l). pose proof (key_sizes_nonneg l). pose proof (ci_fit _ H0) as Hf0. rewrite Esz, Esn in Hf0.
  rewrite (batch_sizes l 0) by lia. rewrite Z.add_0_l. destruct (init_control c) as (Em & Eszc & _). fold c0 in Em, Eszc.
  assert (u64 (c_Size c0 + sizes l) = c_Size c + sizes l) as En.
  { rewrite Eszc. unfold c_Size. rewrite (u64_small (c_size c + c_snapshotSize c)) by lia. apply u64_small. lia. }
  assert ((0 <? c_maxSize c0) && (c_maxSize c0 <? u64 (c_Size c0 + sizes l)) = full (control_of c) (sizes l)) as Efull by (unfold full; cbn; rewrite Em, En; reflexivity).
  rewrite Efull. cbn [cspec]. destruct (full (control_of c) (sizes l)).
  { cbn [fst snd]. split; [destruct H0; split; assumption|]. split; [apply (snap_abs c); exact Hsnap|]. split; [apply keeps_init; reflexivity|].
    split; [rewrite Em; eauto|]. split; [apply (live_abs c); exact Hlive|apply types_init; auto]. }
  pose proof (total_nonneg _ (cinv_ok _ H0)) as Ht0. pose proof (ci_total _ H0) as Htot. rewrite Esz in Htot.
  assert (forall k, type_of (increaseSize (sizes l) c0) k = t_type (control_of c) k) as Ety.
  { intros k. change (type_of (increaseSize (sizes l) c0) k) with (type_of c0 k). unfold type_of. cbn. unfold c0. rewrite (init_live c H). reflexivity. }
  destruct (batch_ext l _ _ Ety) as [Eok Ebt].
  destruct (write_all_spec l None (sizes l) (increaseSize (sizes l) c0)) as (added & c' & -> & Hov & Hbt & (G1 & G2 & G3 & G4 & G5) & R1 & R2 & R3 & R4 & R5);
    cbn [increaseSize set_size c_store c_size c_snapshotSize]; auto; rewrite ?Esz, ?Esn, ?u64_small by lia; try lia; [exact (ci_proper _ H0)|].
  cbn [increaseSize set_size c_snapshot c_snapshotSize c_initialized c_maxSize c_snapshotting] in *. rewrite Eok in *.
  assert (forall k, snap_entry c' k = snap_entry c k) as Hs' by (intros k; rewrite <- Hsnap; apply snap_same; exact G1).
  assert (left_over c' = left_over c0) as Hl' by (unfold left_over; rewrite G1; reflexivity).
  assert (same (overlays l (batch_ok l (t_type (control_of c))) (a_live (abs c))) (a_live (abs c'))) as Hov'.
  { intros k. etransitivity; [exact (Hov k)|]. apply overlays_same. intros k'. exact (live_abs c c0 Hlive k'). }
  assert (types_are (batch_types l (t_type (control_of c))) (control_of c')) as Hty' by (intros k; etransitivity; [exact (Hbt k)|apply Ebt]).
  destruct (forallb id (batch_ok l (t_type (control_of c)))); cbn [fst snd];
    (split; [apply (cinv_live c0); auto; cbn; try lia; congruence|]); (split; [intros k; exact (snap_abs c c' Hs' k)|]);
    (split; [apply keeps_init; [exact G4|exact G5|exact Hl']|]); (split; [reflexivity|split; [exact Hov'|exact Hty']]).
Qed.

(** *** Snapshots *)

Lemma no_size_no_values s k : store_ok Sum64 s -> all_proper s -> total s <= 0 -> vals_of (slookup Sum64 s k) = [].
Proof.
  intros Hok Hp Ht. pose proof (total_ge Sum64 s k Hok) as G. rewrite weight_o_vals in G. specialize (Hp k).
  destruct (vals_of (slookup Sum64 s k)) as [|v l]; [reflexivity|]. exfalso. apply Forall_cons in Hp as [Hp _]. apply proper_Size in Hp. rewrite Values_Size_cons in G.
  pose proof (Values_Size_nonneg l). pose proof (zlen_nonneg k). destruct (slookup Sum64 s k); lia.
Qed.

Lemma Snapshot_refines c now :
  cinv c -> let '(o, c') := exec (OSnapshot now) c in cinv c' /\ cspec (abs c) (control_of c) (OSnapshot now) o (abs c') (control_of c').
Proof.
  intros H. destruct (init_spec c H) as (H0 & Hr & Hi & Hlive & Hsnap & Esz & Esn & Ess & Ebusy). cbn [exec]. unfold Snapshot. set (c0 := init c) in *.
  destruct (init_control c) as (Em & _ & _ & Eleft). fold c0 in Em, Eleft. cbn [cspec]. change (t_busy (control_of c)) with (c_snapshotting c). rewrite <- Ebusy.
  destruct (c_snapshotting c0) eqn:Eb0; cbn [fst snd].
  { split; [exact H0|]. split; [reflexivity|]. split; [apply live_abs; exact Hlive|]. split; [apply snap_abs; exact Hsnap|]. split; [apply types_init; auto|apply keeps_init; reflexivity]. }
  cbn [set_flags c_snapshot]. pose proof (ci_snap _ H0) as Hsn. pose proof (ci_fit _ H0) as Hf.
  set (sn := match c_snapshot c0 with Some sn => sn | None => mkSnap 0 fresh_store end).
  assert (ring_store (sn_store sn) /\ total (sn_store sn) <= sn_size sn /\ sn_size sn = c_snapshotSize c0 /\ all_proper (sn_store sn)
          /\ forall k, vals_of (slookup Sum64 (sn_store sn) k) = vals_of (snap_entry c0 k)) as (S1 & S2 & S3 & S4 & S5).
  { unfold sn, snap_entry. destruct (c_snapshot c0) as [x|]; [destruct Hsn as (A & B & C & D); auto 6|].
    destruct (fresh_store_spec Sum64) as (r & Er & Hro & Hn). cbn [sn_store sn_size]. rewrite Er.
    split; [exists r; auto|]. split; [rewrite (total_empty Sum64) by assumption; lia|]. split; [auto|].
    split; intros k; rewrite Hn; [constructor|reflexivity]. }
  assert (t_left (control_of c) = (0 <? sn_size sn)) as El.
  { cbn. rewrite <- Eleft. unfold left_over, sn. destruct (c_snapshot c0); reflexivity. }
  rewrite El. destruct (Z.ltb_spec 0 (sn_size sn)) as [Hpos|Hzero]; cbn [fst snd].
  - split.
    + split; cbn; [rewrite Hi; exact Hr|exact (ci_total _ H0)|exact (ci_proper _ H0)|auto|exact Hf].
    + split; [reflexivity|]. split; [reflexivity|]. split; [exact Em|]. split; [exact (live_abs c c0 Hlive)|]. split; [intros k; cbn; rewrite S5, Hsnap; reflexivity|].
      split; [apply types_init; auto|]. cbn. apply Z.ltb_lt. exact Hpos.
  - destruct S1 as (r & Er & Hro). destruct (st_reset_spec Sum64 r Hro) as (r' & Err & Hro' & Hn'). rewrite Er, Err in *.
    assert (c_Size (set_flags true (c_snapshotAttempts c0 + 1) c0) = c_size c0) as Ez by (unfold c_Size; cbn; rewrite u64_small; lia). rewrite Ez.
    split.
    + split; cbn; [rewrite Hi; exists r'; auto|rewrite (total_empty Sum64) by assumption; lia|intros k; rewrite Hn'; constructor| |lia].
      split; [exact Hr|]. split; [exact (ci_total _ H0)|]. split; [reflexivity|exact (ci_proper _ H0)].
    + split; [reflexivity|]. split; [reflexivity|]. split; [exact Em|]. split; [|split; [|split; [|split]]].
      * intros k. cbn. rewrite <- Hsnap, <- S5. rewrite no_size_no_values; auto; lia.
      * intros k. exact (f_equal (fun o => tmap tsdb_EOF (vals_of o)) (Hn' k)).
      * intros k. cbn. exact (live_abs c c0 Hlive k).
      * intros k. cbn. exact (f_equal (fmap e_vtype) (Hn' k)).
      * cbn. intros Hz. apply Z.ltb_ge in Hz. intros k. cbn. rewrite <- Hlive. unfold live_entry. pose proof (ci_total _ H0).
        rewrite no_size_no_values; [reflexivity|apply cinv_ok; exact H0|exact (ci_proper _ H0)|lia].
Qed.

Lemma ClearSnapshot_refines c b :
  cinv c -> op_ok (OClearSnapshot b) c -> let '(o, c') := exec (OClearSnapshot b) c in cinv c' /\ cspec (abs c) (control_of c) (OClearSnapshot b) o (abs c') (control_of c').
Proof.
  intros H Hne. destruct (init_spec c H) as (H0 & Hr & Hi & Hlive & Hsnap & Esz & Esn & Ess & _). cbn [exec op_ok] in *. unfold ClearSnapshot. set (c0 := init c) in *.
  destruct (init_control c) as (Em & _ & _ & Eleft). fold c0 in Em, Eleft.
  pose proof (ci_snap _ H0) as Hsn. pose proof (ci_fit _ H0) as Hf. rewrite <- Ess in Hne. destruct (c_snapshot c0) as [sn|] eqn:Es; [|contradiction].
  destruct Hsn as ((r & Er & Hro) & _). destruct b; cbn [fst snd].
  - destruct (st_reset_spec Sum64 r Hro) as (r' & Err & Hro' & Hn'). rewrite Er, Err.
    split; [split; cbn; [rewrite Hi; exact Hr|exact (ci_total _ H0)|exact (ci_proper _ H0)| |lia]|].
    + split; [exists r'; auto|]. split; [rewrite (total_empty Sum64) by assumption; lia|]. split; [reflexivity|]. intros k. rewrite Hn'. constructor.
    + split; [reflexivity|]. split; [exact (live_abs c c0 Hlive)|]. split; [apply types_init; auto|]. split; [reflexivity|]. split; [exact Em|].
      split; [intros k; exact (f_equal (fun o => tmap tsdb_EOF (vals_of o)) (Hn' k))|reflexivity].
  - split; [split; cbn; [rewrite Hi; exact Hr|exact (ci_total _ H0)|exact (ci_proper _ H0)|exact (ci_snap _ H0)|exact Hf]|].
    split; [reflexivity|]. split; [exact (live_abs c c0 Hlive)|]. split; [apply types_init; auto|]. split; [reflexivity|]. split; [exact Em|].
    split; [exact (snap_abs c c0 Hsnap)|exact Eleft].
Qed.

(** *** Deduplicating and reading *)

Lemma map_total_mono (m m' : gmap (list Z) entry) :
  (forall k, weight_o k (m' !! k) <= weight_o k (m !! k)) ->
  map_fold (fun k e n => weight k e + n) 0 m' <= map_fold (fun k e n => weight k e + n) 0 m.
Proof.
  revert m'. induction m as [|k e m Hk IH] using map_ind; intros m' H.
  - rewrite map_fold_empty. assert (forall k, weight_o k (m' !! k) <= 0) as Z by (intros k; specialize (H k); rewrite lookup_empty in H; exact H). clear H.
    induction m' as [|k e m' Hk IH] using map_ind; [rewrite map_fold_empty; lia|]. rewrite map_total_insert, delete_id by exact Hk.
    pose proof (Z k) as Zk. rewrite lookup_insert_eq in Zk. cbn in Zk. enough (map_fold (fun k e n => weight k e + n) 0 m' <= 0) by lia. apply IH.
    intros k'. specialize (Z k'). destruct (decide (k' = k)) as [->|N]; [rewrite Hk; cbn; lia|]. rewrite lookup_insert_ne in Z by congruence. exact Z.
  - rewrite (map_total_split m' k), map_total_insert, (delete_id m) by exact Hk. pose proof (H k) as Hk'. rewrite lookup_insert_eq in Hk'. cbn [weight_o] in Hk'.
    enough (map_fold (fun k e n => weight k e + n) 0 (delete k m') <= map_fold (fun k e n => weight k e + n) 0 m) by lia. apply IH.
    intros k'. destruct (decide (k' = k)) as [->|N]; [rewrite lookup_delete_eq, Hk; cbn; lia|]. rewrite lookup_delete_ne by congruence.
    specialize (H k'). rewrite lookup_insert_ne in H by congruence. exact H.
Qed.

Lemma dedup_weight k e : weight k (entry_deduplicate tsdb_EOF e) <= weight k e.
Proof. unfold weight, entry_size. pose proof (Values_Size_sub _ _ (dedup_sub tsdb_EOF e)). lia. Qed.

Lemma dedup_proper e : Forall proper (e_values e) -> Forall proper (e_values (entry_deduplicate tsdb_EOF e)).
Proof.
  rewrite !Forall_forall. intros H v Hv. apply H. eapply elem_of_submseteq; [exact Hv|apply dedup_sub].
Qed.

Lemma dedup_type e : e_vtype (entry_deduplicate tsdb_EOF e) = e_vtype e.
Proof. unfold entry_deduplicate. destruct (_ <=? _); reflexivity. Qed.

Lemma Deduplicate_refines c :
  cinv c -> let '(o, c') := exec ODeduplicate c in cinv c' /\ cspec (abs c) (control_of c) ODeduplicate o (abs c') (control_of c').
Proof.
  intros H. cbn [exec]. unfold c_Deduplicate. pose proof (ci_store _ H) as S.
  destruct (c_store c) as [|r] eqn:Es.
  { assert (set_store (st_apply (fun _ => entry_deduplicate tsdb_EOF) EmptyStore) c = c) as -> by (destruct c; cbn in *; subst; reflexivity).
    split; [exact H|]. split; [reflexivity|]. split; [auto|]. split; [auto|]. split; [intros k; reflexivity|repeat split]. }
  destruct (c_initialized c) eqn:Ei; [|discriminate]. destruct S as (r0 & [= <-] & Hr).
  destruct (ring_apply_spec Sum64 r (fun _ => entry_deduplicate tsdb_EOF) Hr) as [Hr' Hl].
  assert (forall k, slookup Sum64 (RingStore (ring_apply (fun _ => entry_deduplicate tsdb_EOF) r)) k = entry_deduplicate tsdb_EOF <$> slookup Sum64 (c_store c) k) as Hl'.
  { intros k. rewrite Es. apply Hl. }
  cbn [st_apply]. set (s' := RingStore (ring_apply (fun _ => entry_deduplicate tsdb_EOF) r)) in *. assert (store_ok Sum64 s') as Hok' by exact Hr'.
  assert (total s' <= total (c_store c)) as Ht.
  { apply map_total_mono. intros k. rewrite !(flat_lookup Sum64), Hl' by (exact Hok' || (rewrite Es; exact Hr)).
    destruct (slookup Sum64 (c_store c) k) as [e|]; cbn; [apply dedup_weight|lia]. }
  pose proof (ci_total _ H). pose proof (ci_fit _ H). pose proof (ci_proper _ H) as Hp.
  split; [apply (cinv_live c); auto; cbn; try lia; [exists (ring_apply (fun _ => entry_deduplicate tsdb_EOF) r); auto|]|].
  - intros k. rewrite Hl'. specialize (Hp k). destruct (slookup Sum64 (c_store c) k) as [e|]; cbn in *; [apply dedup_proper; exact Hp|constructor].
  - split; [reflexivity|]. split; [|split; [apply snap_abs; reflexivity|split; [|repeat split]]].
    + intros k. cbn [abs a_live]. unfold live_entry. cbn [set_store c_store]. rewrite Hl'.
      destruct (slookup Sum64 (c_store c) k) as [e|]; cbn; [apply dedup_vals|reflexivity].
    + intros k. cbn [control_of t_type]. unfold live_entry. cbn [set_store c_store]. rewrite Hl'. destruct (slookup Sum64 (c_store c) k) as [e|]; cbn; [rewrite dedup_type|]; reflexivity.
Qed.

(** Replacing an entry by its deduplicated form. *)
Lemma dedup_store s k e :
  ring_store s -> all_proper s -> slookup Sum64 s k = Some e ->
  let s' := st_update Sum64 k (entry_deduplicate tsdb_EOF e) s in
  ring_store s' /\ all_proper s' /\ total s' <= total s /\ (forall k', tmap tsdb_EOF (vals_of (slookup Sum64 s' k')) = tmap tsdb_EOF (vals_of (slookup Sum64 s k')))
  /\ forall k', e_vtype <$> slookup Sum64 s' k' = e_vtype <$> slookup Sum64 s k'.
Proof.
  intros (r & -> & Hr) Hp He s'. destruct (st_update_spec Sum64 r k (entry_deduplicate tsdb_EOF e) Hr) as [Hch Hex]. pose proof Hch as (_ & Hk & Hne).
  split; [eapply ring_changed; [exact Hch|exact Hex]|]. split; [eapply all_proper_changed; [exact Hp|exact Hch|]|split; [|split]].
  - specialize (Hp k). rewrite He in Hp. apply dedup_proper. exact Hp.
  - unfold s'. rewrite (total_changed Sum64 _ _ _ _ (Hr : store_ok Sum64 (RingStore r)) Hch), He. cbn [weight_o]. pose proof (dedup_weight k e). lia.
  - intros k'. unfold s'. destruct (decide (k' = k)) as [->|N]; [rewrite Hk, He; apply dedup_vals|rewrite Hne by exact N; reflexivity].
  - intros k'. unfold s'. destruct (decide (k' = k)) as [->|N]; [rewrite Hk, He; cbn; rewrite dedup_type; reflexivity|rewrite Hne by exact N; reflexivity].
Qed.

Lemma Values_refines c k :
  cinv c -> let '(o, c') := exec (OValues k) c in cinv c' /\ cspec (abs c) (control_of c) (OValues k) o (abs c') (control_of c').
Proof.
  intros H. cbn [exec]. unfold c_Values. rewrite (st_entry_ok Sum64) by (apply cinv_ok; exact H). fold (live_entry c k).
  assert (match c_snapshot c with Some sn => st_entry Sum64 (sn_store sn) k | None => Ok None end = Ok (snap_entry c k)) as ->.
  { unfold snap_entry. pose proof (ci_snap _ H) as S. destruct (c_snapshot c) as [sn|]; [|reflexivity]. apply st_entry_ok, ring_store_ok, S. }
  set (c1 := match live_entry c k with Some x => set_store (st_update Sum64 k (entry_deduplicate tsdb_EOF x) (c_store c)) c | None => c end).
  assert (cinv c1 /\ same (a_live (abs c)) (a_live (abs c1)) /\ c_snapshot c1 = c_snapshot c /\ types_are (t_type (control_of c)) (control_of c1) /\ keeps (control_of c) (control_of c1))
    as (H1 & L1 & E1 & T1 & K1).
  { unfold c1. destruct (live_entry c k) as [x|] eqn:Ex; [|split; [exact H|split; [auto|split; [reflexivity|split; [intros k'; reflexivity|repeat split]]]]]. pose proof (ci_store _ H) as S. destruct (c_initialized c) eqn:Ei.
    2:{ exfalso. unfold live_entry in Ex. rewrite S in Ex. discriminate. }
    destruct (dedup_store _ _ _ S (ci_proper _ H) Ex) as (D1 & D2 & D3 & D4 & D5). pose proof (ci_total _ H). pose proof (ci_fit _ H).
    split; [apply (cinv_live c); auto; cbn; lia|]. split; [intros k'; exact (D4 k')|]. split; [reflexivity|]. split; [intros k'; exact (D5 k')|repeat split]. }
  set (c2 := match snap_entry c k, c_snapshot c1 with
             | Some x, Some sn => set_snapshot (Some (mkSnap (sn_size sn) (st_update Sum64 k (entry_deduplicate tsdb_EOF x) (sn_store sn)))) c1 | _, _ => c1 end).
  assert (cinv c2 /\ same (a_live (abs c)) (a_live (abs c2)) /\ same (a_snap (abs c)) (a_snap (abs c2)) /\ types_are (t_type (control_of c)) (control_of c2)
          /\ keeps (control_of c) (control_of c2)) as (H2 & L2 & S2 & T2 & K2).
  { unfold c2. rewrite E1. assert (forall k', snap_entry c1 k' = snap_entry c k') as Es1 by (apply snap_same; exact E1).
    destruct (snap_entry c k) as [x|] eqn:Ex; [|split; [exact H1|split; [exact L1|split; [apply snap_abs; exact Es1|auto]]]]. unfold snap_entry in Ex.
    destruct (c_snapshot c) as [sn|] eqn:Esn; [|discriminate]. pose proof (ci_snap _ H1) as S. rewrite E1 in S. destruct S as (S1 & S2 & S3 & S4).
    destruct (dedup_store _ _ _ S1 S4 Ex) as (D1 & D2 & D3 & D4 & _). split; [destruct H1 as [Q1 Q2 Q3 Q4 Q5]; split; cbn; auto; split; [exact D1|split; [lia|auto]]|].
    split; [exact L1|]. split; [intros k'; cbn; unfold snap_entry; rewrite Esn; exact (D4 k')|]. split; [exact T1|].
    destruct K1 as (K1 & K2 & K3). split; [exact K1|]. split; [exact K2|]. cbn in K3 |- *. unfold left_over in *. rewrite Esn. reflexivity. }
  assert (forall o : option entry, tmap tsdb_EOF (match o with Some x => e_values (entry_deduplicate tsdb_EOF x) | None => [] end) = tmap tsdb_EOF (vals_of o)) as Hd.
  { intros [x|]; [apply dedup_vals|reflexivity]. }
  set (values := _ ++ _). assert (tmap tsdb_EOF values = a_live (abs c) k ∪ a_snap (abs c) k) as Hv.
  { unfold values, tmap. rewrite to_map_app. fold (tmap tsdb_EOF). cbn. rewrite <- !Hd. reflexivity. }
  set (out := match values with [] => [] | _ => Deduplicate (Value_UnixNano tsdb_EOF) values end).
  assert (increasing (Value_UnixNano tsdb_EOF) out /\ tmap tsdb_EOF out = a_live (abs c) k ∪ a_snap (abs c) k) as [O1 O2].
  { rewrite <- Hv. unfold out. destruct values as [|v l] eqn:Ev; [split; [constructor|reflexivity]|]. rewrite <- Ev. apply Deduplicate_spec. }
  destruct (live_entry c k) as [x|] eqn:El; [|destruct (snap_entry c k) as [y|] eqn:Esn].
  - cbn [fst snd]. split; [exact H2|]. split; [exact L2|]. split; [exact S2|]. split; [exact T2|]. split; [exact K2|]. exists out. auto.
  - cbn [fst snd]. split; [exact H2|]. split; [exact L2|]. split; [exact S2|]. split; [exact T2|]. split; [exact K2|]. exists out. auto.
  - cbn [fst snd]. split; [exact H|]. split; [auto|]. split; [auto|]. split; [intros k'; reflexivity|]. split; [repeat split|]. exists []. split; [reflexivity|]. split; [constructor|]. rewrite <- Hv. reflexivity.
Qed.

(** *** Deleting *)

Definition outside (mn mx : Z) (v : Value) : bool := negb (in_range (Value_UnixNano tsdb_EOF) mn mx v).

Lemma tmap_filter mn mx l : tmap tsdb_EOF (List.filter (outside mn mx) l) = without mn mx (tmap tsdb_EOF l).
Proof.
  unfold tmap, without. induction l as [|v l IH] using rev_ind; [cbn; rewrite map_filter_empty; reflexivity|].
  rewrite List.filter_app, (to_map_snoc (Value_UnixNano tsdb_EOF)). cbn [List.filter]. destruct (outside mn mx v) eqn:E.
  - rewrite to_map_snoc, IH, map_filter_insert_True; [reflexivity|]. cbn. unfold outside, in_range in E. lia.
  - rewrite app_nil_r, IH, map_filter_insert_not; [reflexivity|]. intros y. cbn. unfold outside, in_range in E. lia.
Qed.

Lemma deletable_filter mn mx f l : deletable mn mx l -> deletable mn mx (List.filter f l).
Proof.
  intros [Hi [H|H]]; (split; [rewrite Forall_forall in *; intros v Hv; apply Hi; apply list_elem_of_In, filter_In in Hv as [Hv _]; apply list_elem_of_In; exact Hv|]); [auto|right].
  - clear Hi. induction H as [|x l H IH F]; cbn; [constructor|]. destruct (f x); [|exact IH]. constructor; [exact IH|].
    rewrite Forall_forall in *. intros y Hy. apply F. apply list_elem_of_In, filter_In in Hy as [Hy _]. apply list_elem_of_In. exact Hy.
Qed.

Lemma filter_sub (f : Value -> bool) l : List.filter f l ⊆+ l.
Proof. induction l as [|x l IH]; cbn; [constructor|]. destruct (f x); [apply submseteq_skip; exact IH|apply submseteq_cons; exact IH]. Qed.

(** The entry of a key replaced, and the size lowered by what it lost. *)
Lemma shrink_store c s' k o mid :
  cinv c -> c_initialized c = true -> changed Sum64 (c_store c) s' k o -> (exists r, s' = RingStore r) -> vals_of o ⊆+ vals_of (live_entry c k) ->
  weight_o k o <= weight_o k (live_entry c k) -> mid = set_store s' c ->
  let d := weight_o k (live_entry c k) - weight_o k o in
  0 <= d /\ cinv (decreaseSize d mid) /\ frame c (decreaseSize d mid) /\ c_store (decreaseSize d mid) = s'.
Proof.
  intros H Hi Hch Hex Hsub Hle -> d. pose proof (cinv_ok _ H) as Hok. pose proof (total_ge Sum64 _ k Hok) as Hge. fold (live_entry c k) in Hge. pose proof (ci_total _ H) as Ht.
  pose proof (total_changed Sum64 _ _ _ _ Hok Hch) as Et. fold (live_entry c k) in Et. pose proof (ci_fit _ H) as Hf.
  assert (0 <= weight_o k o) as Hw by (destruct o as [e|]; cbn; [apply weight_nonneg|lia]).
  assert (c_size (decreaseSize d (set_store s' c)) = c_size c - d) as Es by (unfold decreaseSize; cbn [set_size set_store c_size]; apply decrease_exact; unfold d; lia).
  split; [unfold d; lia|]. split; [|repeat split]. apply (cinv_live c); auto; rewrite ?Es; cbn [decreaseSize set_size set_store c_store c_snapshot c_snapshotSize]; try (unfold d; lia).
  - eapply ring_changed; eassumption.
  - eapply all_proper_changed; [exact (ci_proper _ H)|exact Hch|]. pose proof (ci_proper _ H k) as P. fold (live_entry c k) in P. rewrite Forall_forall in *. intros v Hv.
    apply P. eapply elem_of_submseteq; eassumption.
Qed.

Lemma filter_all_out mn mx l : Forall (fun v => is_i64 (Value_UnixNano tsdb_EOF v)) l -> mn = - 2 ^ 63 -> mx = 2 ^ 63 - 1 -> List.filter (outside mn mx) l = [].
Proof.
  intros H -> ->. apply filter_none. eapply Forall_impl; [exact H|]. intros v Hv. unfold outside, in_range, is_i64 in *. lia.
Qed.

Definition cut_vals (c c' : Cache) (k : list Z) (mn mx : Z) : Prop :=
  forall k', vals_of (live_entry c' k') = if decide (k' = k) then List.filter (outside mn mx) (vals_of (live_entry c k)) else vals_of (live_entry c k').

Lemma changed_vals c c' s' k o mn mx :
  changed Sum64 (c_store c) s' k o -> c_store c' = s' -> vals_of o = List.filter (outside mn mx) (vals_of (live_entry c k)) -> cut_vals c c' k mn mx.
Proof.
  intros (_ & Hk & Hne) E Hv k'. unfold live_entry at 1. rewrite E. destruct (decide (k' = k)) as [->|N]; [rewrite Hk; exact Hv|rewrite Hne by exact N; reflexivity].
Qed.

Lemma changed_types c c' s' k o :
  changed Sum64 (c_store c) s' k o -> c_store c' = s' -> o = None \/ e_vtype <$> o = type_of c k ->
  forall k', type_of c' k' = type_of c k' \/ (k' = k /\ live_entry c' k' = None).
Proof.
  intros (_ & Hk & Hne) E Ho k'. unfold type_of at 1, live_entry. rewrite E. destruct (decide (k' = k)) as [->|N]; [|rewrite Hne by exact N; auto].
  rewrite Hk. destruct Ho as [-> |Ho]; auto.
Qed.

Lemma changed_trans s s1 s2 k o1 o2 : changed Sum64 s s1 k o1 -> changed Sum64 s1 s2 k o2 -> changed Sum64 s s2 k o2.
Proof. intros (_ & _ & H1) (H2 & H3 & H4). split; [exact H2|]. split; [exact H3|]. intros k' N. rewrite H4, H1 by exact N. reflexivity. Qed.

Lemma delete_one_spec c k mn mx :
  cinv c -> c_initialized c = true -> deletable mn mx (vals_of (live_entry c k)) ->
  exists c', delete_one Sum64 tsdb_EOF mn mx k c = Ok c' /\ cinv c' /\ frame c c' /\ cut_vals c c' k mn mx
    /\ forall k', type_of c' k' = type_of c k' \/ (k' = k /\ live_entry c' k' = None).
Proof.
  intros H Hi Hd. unfold delete_one. rewrite (st_entry_ok Sum64) by (apply cinv_ok; exact H). fold (live_entry c k).
  pose proof (ci_store _ H) as S. rewrite Hi in S. destruct S as (r & Er & Hr).
  destruct (live_entry c k) as [e|] eqn:Ee.
  2:{ exists c. split; [reflexivity|]. split; [exact H|]. split; [repeat split|]. split; [|auto]. intros k'. destruct (decide (k' = k)) as [->|_]; [rewrite Ee|]; reflexivity. }
  cbn [vals_of] in Hd. pose proof (total_ge Sum64 _ k (cinv_ok _ H)) as Hge. fold (live_entry c k) in Hge. rewrite Ee in Hge. cbn [weight_o] in Hge. unfold weight in Hge.
  pose proof (ci_total _ H). pose proof (ci_fit _ H). pose proof (Values_Size_nonneg (e_values e)) as Hsz. fold (entry_size e) in Hsz. pose proof (zlen_nonneg k).
  rewrite (u64_small (entry_size e)) by lia.
  destruct ((mn =? - 2 ^ 63) && (mx =? 2 ^ 63 - 1)) eqn:Efull.
  - rewrite Er. destruct (st_remove_spec Sum64 r k Hr) as (s' & -> & Hch & Hex). rewrite <- Er in Hch.
    rewrite u64_small by lia. destruct (shrink_store c s' k None (set_store s' c) H Hi Hch Hex) as (D0 & D1 & D2 & D3); auto; [apply submseteq_nil_l|rewrite Ee; cbn [weight_o]; apply weight_nonneg|].
    rewrite Ee in D1, D2, D3. cbn [weight_o] in D1, D2, D3. replace (weight k e - 0) with (entry_size e + zlen k) in * by (unfold weight; lia).
    eexists. split; [reflexivity|]. split; [exact D1|]. split; [exact D2|].
    split; [|exact (changed_types c _ s' k None Hch D3 (or_introl eq_refl))].
    apply (changed_vals c _ s' k None mn mx Hch D3). rewrite Ee. cbn. symmetry. apply andb_true_iff in Efull as [F1 F2]. apply Z.eqb_eq in F1, F2.
    apply filter_all_out; [apply Hd|exact F1|exact F2].
  - assert (increasing (Value_UnixNano tsdb_EOF) (e_values e)) as Hinc by (destruct Hd as [_ [[-> ->]|Hd]]; [discriminate|exact Hd]).
    assert (e_values (entry_filter tsdb_EOF mn mx e) = List.filter (outside mn mx) (e_values e)) as Ef by (apply include_exclude_filter; exact Hinc).
    set (e' := entry_filter tsdb_EOF mn mx e) in *. pose proof (filter_sub (outside mn mx) (e_values e)) as Hsub. rewrite <- Ef in Hsub.
    pose proof (Values_Size_sub _ _ Hsub) as Hss. fold (entry_size e) in Hss. fold (entry_size e') in Hss.
    destruct (st_update_spec Sum64 r k e' Hr) as [Hup (r1 & Er1)]. rewrite Er. cbn [set_store c_store]. rewrite Er1 in *. rewrite <- Er in Hup.
    destruct (Z.eqb_spec (entry_count e') 0) as [Ez|Ez].
    + assert (store_ok Sum64 (RingStore r1)) as Hr1 by apply Hup. destruct (st_remove_spec Sum64 r1 k Hr1) as (s' & -> & Hch & Hex).
      pose proof (changed_trans _ _ _ _ _ _ Hup Hch) as Hch'. rewrite u64_small by lia.
      destruct (shrink_store c s' k None (set_store s' (set_store (RingStore r1) c)) H Hi Hch' Hex) as (D0 & D1 & D2 & D3); auto; [apply submseteq_nil_l|rewrite Ee; cbn [weight_o]; apply weight_nonneg|].
      rewrite Ee in D1, D2, D3. cbn [weight_o] in D1, D2, D3. replace (weight k e - 0) with (entry_size e + zlen k) in * by (unfold weight; lia).
      eexists. split; [reflexivity|]. split; [exact D1|]. split; [exact D2|]. split; [|exact (changed_types c _ s' k None Hch' D3 (or_introl eq_refl))]. apply (changed_vals c _ s' k None mn mx Hch' D3). rewrite Ee. cbn.
      rewrite <- Ef. unfold entry_count in Ez. destruct (e_values e'); [reflexivity|]. rewrite zlen_cons in Ez. pose proof (zlen_nonneg l). lia.
    + rewrite (u64_small (entry_size e')) by (unfold entry_size in *; pose proof (Values_Size_nonneg (e_values e')); lia).
      rewrite u64_small by (pose proof (Values_Size_nonneg (e_values e')) as P; fold (entry_size e') in P; lia).
      destruct (shrink_store c (RingStore r1) k (Some e') (set_store (RingStore r1) c) H Hi Hup) as (D0 & D1 & D2 & D3); eauto; [rewrite Ee; exact Hsub|rewrite Ee; cbn; unfold weight; lia|].
      rewrite Ee in D1, D2, D3. cbn [weight_o] in D1, D2, D3. replace (weight k e - weight k e') with (entry_size e - entry_size e') in * by (unfold weight; lia).
      eexists. split; [reflexivity|]. split; [exact D1|]. split; [exact D2|]. split; [apply (changed_vals c _ (RingStore r1) k (Some e') mn mx Hup D3); rewrite Ee; exact Ef|].
      apply (changed_types c _ (RingStore r1) k (Some e') Hup D3). right. unfold type_of. rewrite Ee. reflexivity.
Qed.

Lemma delete_each_spec keys c mn mx :
  cinv c -> c_initialized c = true -> Forall (fun k => deletable mn mx (vals_of (live_entry c k))) keys ->
  exists c', delete_each Sum64 tsdb_EOF mn mx keys c = Ok c' /\ cinv c' /\ frame c c'
    /\ (forall k, vals_of (live_entry c' k) = if decide (k ∈ keys) then List.filter (outside mn mx) (vals_of (live_entry c k)) else vals_of (live_entry c k))
    /\ forall k, type_of c' k = type_of c k \/ (k ∈ keys /\ live_entry c' k = None).
Proof.
  revert c. induction keys as [|k keys IH]; intros c H Hi Hd; cbn [delete_each].
  - exists c. split; [reflexivity|]. split; [exact H|]. split; [repeat split|]. split; [|auto]. intros k. destruct (decide (k ∈ [])) as [E|_]; [apply elem_of_nil in E as []|reflexivity].
  - apply Forall_cons in Hd as [Hk Hd]. destruct (delete_one_spec c k mn mx H Hi Hk) as (c1 & -> & H1 & (F1 & F2 & F3 & F4 & F5) & Hv & Ht).
    destruct (IH c1 H1) as (c2 & E & H2 & (G1 & G2 & G3 & G4 & G5) & Hv2 & Ht2); [congruence| |].
    { eapply Forall_impl; [exact Hd|]. intros k' Hk'. cbn in *. rewrite (Hv k'). destruct (decide (k' = k)) as [->|_]; [apply deletable_filter; exact Hk|exact Hk']. }
    exists c2. split; [exact E|]. split; [exact H2|]. split; [repeat split; congruence|]. split.
    2:{ intros k'. destruct (Ht2 k') as [E2|[Hin E2]]; [|right; split; [right; exact Hin|exact E2]]. destruct (Ht k') as [E1|[-> E1]]; [left; congruence|].
        right. split; [left|]. unfold type_of in E2. rewrite E1 in E2. destruct (live_entry c2 k); [discriminate|reflexivity]. }
    intros k'. rewrite Hv2, (Hv k').
    destruct (decide (k' = k)) as [->|N].
    + destruct (decide (k ∈ k :: keys)) as [_|Hc]; [|destruct Hc; left]. destruct (decide (k ∈ keys)); [|reflexivity].
      set (l := vals_of (live_entry c k)). clearbody l. clear. induction l as [|v l IH]; [reflexivity|]. cbn. destruct (outside mn mx v) eqn:E; [cbn; rewrite E, IH; reflexivity|exact IH].
    + destruct (decide (k' ∈ keys)) as [Hin|Hin], (decide (k' ∈ k :: keys)) as [Hin'|Hin']; try reflexivity; rewrite elem_of_cons in Hin'; tauto.
Qed.

Lemma DeleteRange_refines c keys mn mx :
  cinv c -> op_ok (ODeleteRange keys mn mx) c ->
  let '(o, c') := exec (ODeleteRange keys mn mx) c in cinv c' /\ cspec (abs c) (control_of c) (ODeleteRange keys mn mx) o (abs c') (control_of c').
Proof.
  intros H Hok. destruct (init_spec c H) as (H0 & Hr & Hi & Hlive & Hsnap & _). cbn [exec op_ok] in *. unfold c_DeleteRange. set (c0 := init c) in *.
  destruct (delete_each_spec keys c0 mn mx H0 Hi) as (c1 & -> & H1 & (F1 & F2 & F3 & F4 & F5) & Hv & Ht).
  { eapply Forall_impl; [exact Hok|]. intros k Hk. cbn in *. rewrite Hlive. exact Hk. }
  cbn [fst snd]. split; [destruct H1; split; assumption|]. split; [reflexivity|]. split; [|split; [|split]].
  - intros k. cbn. unfold snap_entry. cbn [set_stats c_snapshot]. rewrite F1. exact (snap_abs c c0 Hsnap k).
  - apply keeps_init; [exact F4|exact F5|]. unfold left_over. cbn. rewrite F1. reflexivity.
  - intros k. cbn [abs a_live]. unfold live_entry at 1. cbn [set_stats c_store]. fold (live_entry c1 k). rewrite Hv, Hlive. destruct (decide (k ∈ keys)); [apply tmap_filter|reflexivity].
  - intros k. assert (t_type (control_of c) k = type_of c0 k) as -> by (cbn; unfold type_of, c0; rewrite (init_live c H); reflexivity).
    destruct (Ht k) as [E|[Hin E]]; [left; exact E|]. right. split; [exact Hin|]. cbn. unfold live_entry in *. cbn [set_stats c_store]. rewrite E. auto.
Qed.

Lemma Free_refines c : cinv c -> let '(o, c') := exec OFree c in cinv c' /\ cspec (abs c) (control_of c) OFree o (abs c') (control_of c').
Proof.
  intros H. cbn [exec]. unfold Free. pose proof (ci_store _ H) as S. pose proof (ci_fit _ H). destruct (c_initialized c) eqn:Ei.
  - split; [destruct H as [_ H1 H2 H3 H4]; split; cbn; auto; [|intros k; constructor]|split; [reflexivity|split; [apply snap_abs; reflexivity|split; [intros k; reflexivity|split; [intros k; reflexivity|repeat split]]]]].
    change (total EmptyStore) with 0. lia.
  - split; [exact H|]. split; [reflexivity|]. split; [auto|]. split; [intros k; cbn; unfold live_entry; rewrite S; reflexivity|].
    split; [intros k; cbn; unfold live_entry; rewrite S; reflexivity|repeat split].
Qed.

Lemma exec_refines op c :
  cinv c -> op_ok op c -> let '(o, c') := exec op c in cinv c' /\ cspec (abs c) (control_of c) op o (abs c') (control_of c').
Proof.
  intros H Hok. destruct op; [apply Write_refines|apply WriteMulti_refines|apply Snapshot_refines|apply ClearSnapshot_refines|apply Deduplicate_refines
    |apply Values_refines|apply DeleteRange_refines|apply Free_refines]; assumption.
Qed.

(** ** Runs *)

Fixpoint exec_all (ops : list cop) (c : Cache) : list (cop * cobs) * Cache :=
  match ops with
  | [] => ([], c)
  | op :: ops' => let '(o, c1) := exec op c in let '(l, c2) := exec_all ops' c1 in ((op, o) :: l, c2)
  end.

Fixpoint all_ok (ops : list cop) (c : Cache) : Prop :=
  match ops with [] => True | op :: ops' => op_ok op c /\ all_ok ops' (exec op c).2 end.

Lemma all_ok_prefix ops more c : all_ok (ops ++ more) c -> all_ok ops c.
Proof. revert c. induction ops as [|op ops IH]; intros c H; [exact I|]. destruct H as [H1 H2]. split; [exact H1|apply IH; exact H2]. Qed.


Lemma NewCache_inv maxSize now : cinv (NewCache maxSize now) /\ nothing (a_live (abs (NewCache maxSize now))) /\ nothing (a_snap (abs (NewCache maxSize now))).
Proof.
  split; [|split; intros k; reflexivity]. split; cbn; [reflexivity|change (total EmptyStore) with 0; lia|intros k; constructor|reflexivity|lia].
Qed.


(** C40 (bounds). Through any such sequence the size the cache reports covers all
    that it holds, keys and values, of the live store and of the snapshot,
    duplicates not yet removed included; so the limit on new writes is never
    evaluated against too small a size. *)
Theorem cache_size_covers (ops : list cop) (maxSize now : Z) :
  all_ok ops (NewCache maxSize now) ->
  let c := (exec_all ops (NewCache maxSize now)).2 in
  total (c_store c) + match c_snapshot c with Some sn => total (sn_store sn) | None => 0 end <= c_Size c < 2 ^ 64.
Proof.
  intros Hok. destruct (NewCache_inv maxSize now) as (H & _). revert Hok. set (c0 := NewCache maxSize now) in *. clearbody c0. intros Hok.
  assert (cinv (exec_all ops c0).2) as Hc.
  { revert c0 H Hok. induction ops as [|op ops IH]; intros c0 H Hok; cbn [exec_all]; [exact H|]. destruct Hok as [Ho Hok].
    pose proof (exec_refines op c0 H Ho) as E. destruct (exec op c0) as [o c1]. destruct E as [H1 _]. cbn [snd] in Hok. specialize (IH c1 H1 Hok).
    destruct (exec_all ops c1). exact IH. }
  cbv zeta. destruct Hc as [_ Ht _ Hs Hf]. set (c := (exec_all ops c0).2) in *. unfold c_Size. rewrite u64_small by lia. destruct (c_snapshot c); lia.
Qed.

End Spec.

(** ** Witnesses *)

Definition sum_ex (_ : list Z) : Z := 5.
Definition key_ex : list Z := [99; 112; 117].
Definition v_ex (t v : Z) : Value := VInteger (mkTV t v).

(** Out of order, then snapshotted, overwritten, read, deleted from. *)
Definition ops_ex : list cop :=
  [OWrite key_ex [v_ex 30 1; v_ex 10 2]; OSnapshot 0; OWrite key_ex [v_ex 10 3]; OValues key_ex; ODeleteRange [key_ex] 5 15; OValues key_ex; OClearSnapshot true].

Lemma ops_ex_ok : all_ok sum_ex 0 ops_ex (NewCache 1000 0).
Proof.
  unfold ops_ex. cbn [all_ok]. repeat split.
  - repeat constructor; discriminate.
  - repeat constructor; discriminate.
  - apply Forall_singleton. unfold deletable.
    match goal with |- context [live_entry ?a ?b ?c] => replace (live_entry a b c) with (Some (mkE [v_ex 10 3] 2)) by (vm_compute; reflexivity) end.
    split; [repeat constructor; vm_compute; congruence|right; repeat constructor].
  - vm_compute. discriminate.
Qed.


Lemma cache_size_covers_witness :
  let c := (exec_all sum_ex 0 (take 4 ops_ex) (NewCache 1000 0)).2 in
  total (c_store c) + match c_snapshot c with Some sn => total (sn_store sn) | None => 0 end <= c_Size c < 2 ^ 64.
Proof.
  apply (cache_size_covers sum_ex 0 (take 4 ops_ex) 1000 0). apply (all_ok_prefix _ _ _ (drop 4 ops_ex)). rewrite take_drop. exact ops_ex_ok.
Defined.

(** ** Edges *)

(** Deleting from an entry that is not sorted: the value at 1 stays. *)
Example unsorted_delete_misses :
  snd <$> last (exec_all sum_ex 0 [OWrite key_ex [v_ex 3 0; v_ex 1 0]; ODeleteRange [key_ex] 1 1; OValues key_ex] (NewCache 0 0)).1
  = Some (CVals [v_ex 1 0; v_ex 3 0]).
Proof. vm_compute. reflexivity. Qed.

(** A write without values makes every later write to the key fail. *)
Example empty_write_poisons :
  map snd (exec_all sum_ex 0 [OWrite key_ex []; OWrite key_ex [v_ex 3 0]] (NewCache 0 0)).1 = [CDone; CErr ErrFieldTypeConflict].
Proof. vm_compute. reflexivity. Qed.

(** Reading removes duplicates without lowering the size: after the key is
    deleted the cache is empty and its size is not zero. *)
Example size_leaks :
  let c := (exec_all sum_ex 0 [OWrite key_ex [v_ex 1 0; v_ex 1 1]; OValues key_ex; ODeleteRange [key_ex] (- 2 ^ 63) (2 ^ 63 - 1)] (NewCache 0 0)).2 in
  c_Count c = 0 /\ c_Size c = 16.
Proof. vm_compute. auto. Qed.
