(* ===== verification/WALEntry.v ===== *)
(** * The entries of the write-ahead log

    [tsdb/engine/tsm1/wal.go]: writes and deletions as bytes.  The points of a
    write are a map from keys to values: the pairs in the order the map is
    ranged over when encoding, a finite map when decoding.  The size an entry
    memoises is that of its keys and values, which do not change between
    [MarshalSize] and [Encode]; buffers are only reused storage. *)

From S2P Require Import Prelude Varint ValueCodec Blocks Bytes.

Inductive wal_error :=
| ErrWALClosed
| ErrWALCorrupt
| ErrUnsupported          (* "unsupported value type: %T" *)
| ErrIncorrectValue       (* "incorrect value found in %T slice: %T" *)
| ErrUnknownEntry         (* "unknown wal entry type: %v" *)
| ErrSnappyCorrupt        (* an error of snappy.DecodedLen or snappy.Decode *)
| ErrUnexpectedEOF        (* io.ErrUnexpectedEOF *)
| ErrFile                 (* an error of a system call *)
| ErrSyncing              (* "error syncing wal" *).

Definition float64EntryType : Z := 1.
Definition integerEntryType : Z := 2.
Definition booleanEntryType : Z := 3.
Definition stringEntryType : Z := 4.
Definition unsignedEntryType : Z := 5.

Definition WriteWALEntryType : Z := 1.
Definition DeleteWALEntryType : Z := 2.
Definition DeleteRangeWALEntryType : Z := 3.

(** ** Writes *)

(** The type byte of a slice of values, from its first one. *)
Definition entry_type (v : Value) : option Z :=
  match v with
  | VFloat _ => Some float64EntryType
  | VInteger _ => Some integerEntryType
  | VUnsigned _ => Some unsignedEntryType
  | VBoolean _ => Some booleanEntryType
  | VString _ => Some stringEntryType
  | VEmpty => None
  end.

(** The length of the values of a key; [None] is the early [return 0]. *)
Fixpoint strings_size (vs : list Value) : option Z :=
  match vs with
  | [] => Some 0
  | VString x :: vs' => match strings_size vs' with Some n => Some (4 + zlen (value x) + n) | None => None end
  | _ :: _ => None
  end.

Definition values_size (v : list Value) : option Z :=
  match v with
  | [] => None
  | (VFloat _ | VInteger _ | VUnsigned _) :: _ => Some (8 * zlen v + 8 * zlen v)
  | VBoolean _ :: _ => Some (8 * zlen v + 1 * zlen v)
  | VString _ :: _ => match strings_size v with Some n => Some (8 * zlen v + n) | None => None end
  | VEmpty :: _ => None
  end.

Fixpoint entries_size (l : list (list Z * list Value)) : option Z :=
  match l with
  | [] => Some 0
  | (k, v) :: l' =>
      match values_size v, entries_size l' with
      | Some n, Some r => Some (7 + zlen k + n + r)
      | _, _ => None
      end
  end.

Definition Write_MarshalSize (l : list (list Z * list Value)) : Z := default 0 (entries_size l).

(** One value of a slice of type [curType]: its time, then its bytes. *)
Definition enc_value (curType : Z) (vv : Value) : res wal_error (list Z) :=
  let of_type t b := if curType =? t then Ok b else Err ErrIncorrectValue in
  match vv with
  | VFloat x => of_type float64EntryType (be64 (u64 (unixnano x)) ++ be64 (u64 (value x)))
  | VInteger x => of_type integerEntryType (be64 (u64 (unixnano x)) ++ be64 (u64 (value x)))
  | VUnsigned x => of_type unsignedEntryType (be64 (u64 (unixnano x)) ++ be64 (u64 (value x)))
  | VBoolean x => of_type booleanEntryType (be64 (u64 (unixnano x)) ++ [if value x then 1 else 0])
  | VString x => of_type stringEntryType (be64 (u64 (unixnano x)) ++ be32 (u32 (zlen (value x))) ++ value x)
  | VEmpty => Err ErrUnsupported
  end.

Fixpoint enc_values (curType : Z) (vs : list Value) : res wal_error (list Z) :=
  match vs with
  | [] => Ok []
  | vv :: vs' =>
      match enc_value curType vv with
      | Ok b => match enc_values curType vs' with Ok r => Ok (b ++ r) | e => e end
      | e => e
      end
  end.

(** The bytes of each key.  [len] is the length of the buffer: writing the type
    of the first key into an empty one panics, as does a key without values. *)
Fixpoint enc_entries (len : Z) (l : list (list Z * list Value)) : res wal_error (list Z) :=
  match l with
  | [] => Ok []
  | (k, v) :: l' =>
      match v with
      | [] => Panic
      | v0 :: _ =>
          match entry_type v0 with
          | None => Err ErrUnsupported
          | Some curType =>
              if len <=? 0 then Panic
              else match enc_values curType v with
                   | Ok b => match enc_entries len l' with
                             | Ok r => Ok ([curType] ++ be16 (zlen k mod 2 ^ 16) ++ k ++ be32 (u32 (zlen v)) ++ b ++ r)
                             | e => e
                             end
                   | e => e
                   end
          end
      end
  end.

Definition Write_Encode (l : list (list Z * list Value)) : res wal_error (list Z) := enc_entries (Write_MarshalSize l) l.

(** The values of a fixed-width type: [n] of them, each a time and [w] bytes. *)
Fixpoint dec_fixed (w : nat) (mk : Z -> list Z -> Value) (n : nat) (rest : list Z) : list Value * list Z :=
  match n with
  | O => ([], rest)
  | S n' =>
      let un := i64 (be_dec (take 8 rest)) in
      let v := mk un (take w (drop 8 rest)) in
      let '(vs, rest') := dec_fixed w mk n' (drop w (drop 8 rest)) in
      (v :: vs, rest')
  end.

Fixpoint dec_strings (n : nat) (rest : list Z) : res wal_error (list Value * list Z) :=
  match n with
  | O => Ok ([], rest)
  | S n' =>
      if zlen rest <? 12 then Err ErrWALCorrupt
      else
        let un := i64 (be_dec (take 8 rest)) in
        let rest := drop 8 rest in
        let length := be_dec (take 4 rest) in
        if zlen rest <? length then Err ErrWALCorrupt
        else
          let rest := drop 4 rest in
          if zlen rest <? length then Err ErrWALCorrupt
          else match dec_strings n' (drop (Z.to_nat length) rest) with
               | Ok (vs, rest') => Ok (VString (mkTV un (take (Z.to_nat length) rest)) :: vs, rest')
               | e => e
               end
  end.

Definition mk_float (un : Z) (b : list Z) : Value := VFloat (mkTV un (be_dec b)).
Definition mk_integer (un : Z) (b : list Z) : Value := VInteger (mkTV un (i64 (be_dec b))).
Definition mk_unsigned (un : Z) (b : list Z) : Value := VUnsigned (mkTV un (be_dec b)).
Definition mk_boolean (un : Z) (b : list Z) : Value := VBoolean (mkTV un (be_dec b =? 1)).

(** The values of a key, of type byte [typ]. *)
Definition dec_values (typ nvals : Z) (rest : list Z) : res wal_error (list Value * list Z) :=
  let n := Z.to_nat nvals in
  let fixed w mk := if zlen rest <? (8 + Z.of_nat w) * nvals then Err ErrWALCorrupt else Ok (dec_fixed w mk n rest) in
  if typ =? float64EntryType then fixed 8%nat mk_float
  else if typ =? integerEntryType then fixed 8%nat mk_integer
  else if typ =? unsignedEntryType then fixed 8%nat mk_unsigned
  else if typ =? booleanEntryType then fixed 1%nat mk_boolean
  else if typ =? stringEntryType then dec_strings n rest
  else Err ErrUnsupported.

(** The loop; [rest] is what is left of [b] from [i] on, [total] the length of
    [b].  Every round takes at least seven bytes. *)
Fixpoint dec_entries (fuel : nat) (total : Z) (rest : list Z) (m : gmap (list Z) (list Value)) : res wal_error (gmap (list Z) (list Value)) :=
  match rest with
  | [] => Ok m
  | typ :: rest =>
      match fuel with
      | O => Err ErrWALCorrupt
      | S fuel' =>
          if zlen rest <? 2 then Err ErrWALCorrupt
          else
            let length := be_dec (take 2 rest) in
            let rest := drop 2 rest in
            if zlen rest <? length then Err ErrWALCorrupt
            else
              let k := take (Z.to_nat length) rest in
              let rest := drop (Z.to_nat length) rest in
              if zlen rest <? 4 then Err ErrWALCorrupt
              else
                let nvals := be_dec (take 4 rest) in
                let rest := drop 4 rest in
                if (nvals <=? 0) || (total <? nvals) then Err ErrWALCorrupt
                else match dec_values typ nvals rest with
                     | Ok (values, rest) => dec_entries fuel' total rest (<[k := values]> m)
                     | Err e => Err e
                     | Panic => Panic
                     end
      end
  end.

Definition Write_UnmarshalBinary (b : list Z) : res wal_error (gmap (list Z) (list Value)) := dec_entries (length b) (zlen b) b ∅.

(** ** Deletions *)

Definition newline : Z := 10.

Definition Delete_MarshalSize (keys : list (list Z)) : Z := fold_left (fun n k => n + zlen k) keys (zlen keys).

(** Without keys the result is sliced up to minus one. *)
Definition Delete_Encode (keys : list (list Z)) : res wal_error (list Z) :=
  let b := concat (map (fun k => k ++ [newline]) keys) in
  if zlen b =? 0 then Panic else Ok (take (length b - 1) b).

(** [bytes.Split(b, "\n")] *)
Fixpoint split_at (sep : Z) (cur b : list Z) : list (list Z) :=
  match b with
  | [] => [cur]
  | x :: b' => if x =? sep then cur :: split_at sep [] b' else split_at sep (cur ++ [x]) b'
  end.

Definition Delete_UnmarshalBinary (b : list Z) : list (list Z) := split_at newline [] b.

Definition DeleteRange_MarshalSize (keys : list (list Z)) : Z := fold_left (fun n k => n + zlen k) keys (16 + zlen keys * 4).

Definition DeleteRange_Encode (keys : list (list Z)) (mn mx : Z) : list Z :=
  be64 (u64 mn) ++ be64 (u64 mx) ++ concat (map (fun k => be32 (u32 (zlen k)) ++ k) keys).

Fixpoint dec_keys (fuel : nat) (rest : list Z) : res wal_error (list (list Z)) :=
  match rest with
  | [] => Ok []
  | _ =>
      match fuel with
      | O => Err ErrWALCorrupt
      | S fuel' =>
          if zlen rest <? 4 then Err ErrWALCorrupt
          else
            let sz := be_dec (take 4 rest) in
            let rest := drop 4 rest in
            if zlen rest <? sz then Err ErrWALCorrupt
            else match dec_keys fuel' (drop (Z.to_nat sz) rest) with
                 | Ok ks => Ok (take (Z.to_nat sz) rest :: ks)
                 | e => e
                 end
      end
  end.

Definition DeleteRange_UnmarshalBinary (b : list Z) : res wal_error (list (list Z) * Z * Z) :=
  if zlen b <? 16 then Err ErrWALCorrupt
  else
    let mn := i64 (be_dec (take 8 b)) in
    let mx := i64 (be_dec (take 8 (drop 8 b))) in
    match dec_keys (length b) (drop 16 b) with Ok ks => Ok (ks, mn, mx) | Err e => Err e | Panic => Panic end.

(** ** The entries together *)

(** What [writeToLog] is given: the points of a write in the order they are ranged
    over. *)
Inductive WALEntry :=
| WriteEntry (l : list (list Z * list Value))
| DeleteEntry (keys : list (list Z))
| DeleteRangeEntry (keys : list (list Z)) (mn mx : Z).

Definition Entry_Type (e : WALEntry) : Z :=
  match e with
  | WriteEntry _ => WriteWALEntryType
  | DeleteEntry _ => DeleteWALEntryType
  | DeleteRangeEntry _ _ _ => DeleteRangeWALEntryType
  end.

Definition Encode (e : WALEntry) : res wal_error (list Z) :=
  match e with
  | WriteEntry l => Write_Encode l
  | DeleteEntry keys => Delete_Encode keys
  | DeleteRangeEntry keys mn mx => Ok (DeleteRange_Encode keys mn mx)
  end.

(** What the reader hands out. *)
Inductive ReadEntry :=
| ReadWrite (m : gmap (list Z) (list Value))
| ReadDelete (keys : list (list Z))
| ReadDeleteRange (keys : list (list Z)) (mn mx : Z).

Definition UnmarshalEntry (typ : Z) (data : list Z) : res wal_error ReadEntry :=
  if typ =? WriteWALEntryType then
    match Write_UnmarshalBinary data with Ok m => Ok (ReadWrite m) | Err e => Err e | Panic => Panic end
  else if typ =? DeleteWALEntryType then Ok (ReadDelete (Delete_UnmarshalBinary data))
  else if typ =? DeleteRangeWALEntryType then
    match DeleteRange_UnmarshalBinary data with Ok (ks, mn, mx) => Ok (ReadDeleteRange ks mn mx) | Err e => Err e | Panic => Panic end
  else Err ErrUnknownEntry.

(** * Entries of the write-ahead log decode to what was encoded *)

(** ** What can be written *)

Definition value_ok (v : Value) : Prop :=
  match v with
  | VFloat x => is_i64 (unixnano x) /\ is_u64 (value x)
  | VInteger x => is_i64 (unixnano x) /\ is_i64 (value x)
  | VUnsigned x => is_i64 (unixnano x) /\ is_u64 (value x)
  | VBoolean x => is_i64 (unixnano x)
  | VString x => is_i64 (unixnano x) /\ zlen (value x) < 2 ^ 32
  | VEmpty => False
  end.

(** Values of one type, at least one, no more than the count can say. *)
Definition values_ok (vs : list Value) : Prop :=
  vs <> [] /\ zlen vs < 2 ^ 32 /\ exists t, Forall (fun v => value_ok v /\ entry_type v = Some t) vs.

Definition entry_ok (e : WALEntry) : Prop :=
  match e with
  | WriteEntry l => NoDup l.*1 /\ Forall (fun x => zlen x.1 < 2 ^ 16 /\ values_ok x.2) l
  | DeleteEntry keys => keys <> [] /\ Forall (fun k => newline ∉ k) keys
  | DeleteRangeEntry keys mn mx => is_i64 mn /\ is_i64 mx /\ Forall (fun k => zlen k < 2 ^ 32) keys
  end.

Definition read_of (e : WALEntry) : ReadEntry :=
  match e with
  | WriteEntry l => ReadWrite (list_to_map l)
  | DeleteEntry keys => ReadDelete keys
  | DeleteRangeEntry keys mn mx => ReadDeleteRange keys mn mx
  end.

(** ** Reading off a prefix *)

Lemma take_enc {A} n (b r : list A) : length b = n -> take n (b ++ r) = b.
Proof. intros <-. apply take_app_length. Qed.
Lemma drop_enc {A} n (b r : list A) : length b = n -> drop n (b ++ r) = r.
Proof. intros <-. apply drop_app_length. Qed.

Lemma Ok_inj {E A} (x y : A) : @Ok E A x = Ok y -> x = y.
Proof. congruence. Qed.

Lemma be16_length v : length (be16 v) = 2%nat.
Proof. apply length_be_enc. Qed.
Lemma be32_length v : length (be32 v) = 4%nat.
Proof. apply length_be_enc. Qed.

Lemma u32_small z : 0 <= z < 2 ^ 32 -> u32 z = z.
Proof. intros H. unfold u32. apply Z.mod_small. exact H. Qed.

Lemma de_be64 v : be_dec (be64 (u64 v)) = u64 v.
Proof. apply de64_be64, u64_range. Qed.

Create Rewrite HintDb peel.
#[export] Hint Rewrite <- @app_assoc : peel.
#[export] Hint Rewrite (fun v r => take_enc 8 (be64 v) r (length_be64 v)) (fun v r => drop_enc 8 (be64 v) r (length_be64 v)) : peel.
#[export] Hint Rewrite (fun v r => take_enc 4 (be32 v) r (be32_length v)) (fun v r => drop_enc 4 (be32 v) r (be32_length v)) : peel.
#[export] Hint Rewrite (fun v r => take_enc 2 (be16 v) r (be16_length v)) (fun v r => drop_enc 2 (be16 v) r (be16_length v)) : peel.

(** Take the words at the front off the buffer. *)
Ltac peel := autorewrite with peel.

(** ** Values *)

Lemma entry_type_values vs t : Forall (fun v => value_ok v /\ entry_type v = Some t) vs -> exists b, enc_values t vs = Ok b.
Proof.
  induction 1 as [|v vs [Hv Ht] _ (b & IH)]; [exists []; reflexivity|]. cbn [enc_values].
  destruct v; cbn in Ht; simplify_eq; cbn [enc_value]; cbn; rewrite IH; eauto.
Qed.

Lemma enc_fixed_spec t w mk vs b rest :
  (forall v, value_ok v -> entry_type v = Some t ->
     exists un vb, enc_value t v = Ok (be64 (u64 un) ++ vb) /\ is_i64 un /\ length vb = w /\ mk un vb = v) ->
  Forall (fun v => value_ok v /\ entry_type v = Some t) vs -> enc_values t vs = Ok b ->
  dec_fixed w mk (length vs) (b ++ rest) = (vs, rest) /\ zlen b = (8 + Z.of_nat w) * zlen vs.
Proof.
  intros Hmk H. revert b. induction H as [|v vs [Hv Ht] _ IH]; intros b E; cbn [enc_values] in E.
  { injection E as <-. split; [reflexivity|]. change (0 = (8 + Z.of_nat w) * 0). lia. }
  destruct (Hmk v Hv Ht) as (un & vb & Ev & Hun & Hw & Hm). rewrite Ev in E. destruct (enc_values t vs) as [r| |] eqn:Er; try discriminate.
  apply Ok_inj in E; subst b. destruct (IH _ eq_refl) as [IHd IHl]. split.
  - cbn [dec_fixed length]. peel. rewrite !(take_enc w), !(drop_enc w) by exact Hw. rewrite IHd, de_be64, i64_u64, i64_small by exact Hun. rewrite Hm. reflexivity.
  - assert (zlen vb = Z.of_nat w) by (unfold zlen; lia). rewrite !zlen_app, zlen_be64, zlen_cons, IHl. lia.
Qed.

Lemma dec_strings_spec vs b rest :
  Forall (fun v => value_ok v /\ entry_type v = Some stringEntryType) vs -> enc_values stringEntryType vs = Ok b ->
  dec_strings (length vs) (b ++ rest) = Ok (vs, rest) /\ strings_size vs = Some (zlen b - 8 * zlen vs) /\ 12 * zlen vs <= zlen b.
Proof.
  intros H. revert b. induction H as [|v vs [Hv Ht] _ IH]; intros b E; cbn [enc_values] in E.
  { injection E as <-. repeat split; reflexivity || (change (12 * 0 <= 0); lia). }
  destruct v as [| | | |x|]; cbn in Ht; try discriminate. cbn [enc_value] in E. change (stringEntryType =? stringEntryType) with true in E. cbn iota in E.
  destruct (enc_values stringEntryType vs) as [r| |] eqn:Er; try discriminate. apply Ok_inj in E; subst b. destruct (IH _ eq_refl) as (IHd & IHs & IHl).
  destruct Hv as [Ht' Hlen]. pose proof (zlen_nonneg (value x)). split; [|split].
  - cbn [dec_strings length]. destruct (Z.ltb_spec (zlen (((be64 (u64 (unixnano x)) ++ be32 (u32 (zlen (value x))) ++ value x) ++ r) ++ rest)) 12) as [Hs|_].
    { rewrite !zlen_app, zlen_be64, zlen_be32 in Hs. pose proof (zlen_nonneg r). pose proof (zlen_nonneg rest). lia. }
    peel. rewrite de_be64, i64_u64, i64_small by exact Ht'. rewrite u32_small, de_be32 by lia.
    destruct (Z.ltb_spec (zlen (be32 (zlen (value x)) ++ value x ++ r ++ rest)) (zlen (value x))) as [Hs|_].
    { rewrite !zlen_app, zlen_be32 in Hs. pose proof (zlen_nonneg r). pose proof (zlen_nonneg rest). lia. }
    destruct (Z.ltb_spec (zlen (value x ++ r ++ rest)) (zlen (value x))) as [Hs|_].
    { rewrite !zlen_app in Hs. pose proof (zlen_nonneg r). pose proof (zlen_nonneg rest). lia. }
    rewrite take_app_zlen, drop_app_zlen, IHd. destruct x; reflexivity.
  - cbn [strings_size]. rewrite IHs. f_equal. rewrite !zlen_app, zlen_be64, zlen_be32, zlen_cons. lia.
  - rewrite !zlen_app, zlen_be64, zlen_be32, zlen_cons. lia.
Qed.

Lemma dec_values_spec t vs b rest :
  Forall (fun v => value_ok v /\ entry_type v = Some t) vs -> vs <> [] -> enc_values t vs = Ok b ->
  dec_values t (zlen vs) (b ++ rest) = Ok (vs, rest) /\ values_size vs = Some (zlen b) /\ zlen vs <= zlen b.
Proof.
  intros H Hne E. pose proof (zlen_nonneg rest). pose proof (zlen_nonneg vs).
  assert (exists v vs', vs = v :: vs' /\ value_ok v /\ entry_type v = Some t) as (v & vs' & Evs & Hv & Ht).
  { destruct H as [|v vs' [??] _]; [congruence|]. eauto 6. }
  assert (forall w mk,
    (forall v, value_ok v -> entry_type v = Some t ->
       exists un vb, enc_value t v = Ok (be64 (u64 un) ++ vb) /\ is_i64 un /\ length vb = w /\ mk un vb = v) ->
    (if zlen (b ++ rest) <? (8 + Z.of_nat w) * zlen vs then Err ErrWALCorrupt else Ok (dec_fixed w mk (Z.to_nat (zlen vs)) (b ++ rest))) = Ok (vs, rest)
    /\ zlen b = (8 + Z.of_nat w) * zlen vs) as Hfix.
  { intros w mk Hmk. destruct (enc_fixed_spec t w mk vs b rest Hmk H E) as [Hd Hl]. split; [|exact Hl]. rewrite zlen_app, Hl.
    destruct (Z.ltb_spec ((8 + Z.of_nat w) * zlen vs + zlen rest) ((8 + Z.of_nat w) * zlen vs)); [lia|]. unfold zlen at 1. rewrite Nat2Z.id, Hd. reflexivity. }
  destruct v as [x|x|x|x|x|]; cbn in Ht; simplify_eq; cbv beta iota zeta delta [dec_values float64EntryType integerEntryType unsignedEntryType booleanEntryType stringEntryType Z.eqb Pos.eqb values_size].
  1-4: match goal with |- context [dec_fixed ?w ?mk] => destruct (Hfix w mk) as [Hd Hl] end;
    [intros u Hu Hty; destruct u as [y|y|y|y|y|]; cbn in Hty; try discriminate; cbn in Hu; exists (unixnano y)
    |split; [exact Hd|split; [f_equal|]; lia]].
  - exists (be64 (u64 (value y))). split; [reflexivity|]. split; [apply Hu|]. split; [apply length_be64|]. unfold mk_float. rewrite de_be64, u64_small by apply Hu. destruct y; reflexivity.
  - exists (be64 (u64 (value y))). split; [reflexivity|]. split; [apply Hu|]. split; [apply length_be64|]. unfold mk_integer. rewrite de_be64, i64_u64, i64_small by apply Hu. destruct y; reflexivity.
  - exists (be64 (u64 (value y))). split; [reflexivity|]. split; [apply Hu|]. split; [apply length_be64|]. unfold mk_unsigned. rewrite de_be64, u64_small by apply Hu. destruct y; reflexivity.
  - exists [if value y then 1 else 0]. split; [reflexivity|]. split; [apply Hu|]. split; [reflexivity|]. destruct y as [? []]; reflexivity.
  - destruct (dec_strings_spec _ _ rest H E) as (Hd & Hs & Hl). unfold zlen at 1. rewrite Nat2Z.id. split; [exact Hd|]. rewrite Hs. split; [f_equal|]; lia.
Qed.

(** ** Writes *)

Lemma enc_values_ok v t : Forall (fun v => value_ok v /\ entry_type v = Some t) v -> v <> [] ->
  exists v0 v', v = v0 :: v' /\ entry_type v0 = Some t.
Proof. intros H Hne. destruct H as [|v0 v' [??] _]; [congruence|]. eauto. Qed.

Lemma enc_entries_size l :
  Forall (fun x => zlen x.1 < 2 ^ 16 /\ values_ok x.2) l -> exists n, entries_size l = Some n /\ (l <> [] -> 0 < n) /\ 0 <= n.
Proof.
  induction 1 as [|[k v] l [Hk (Hne & Hlen & t & Hv)] _ (n & En & _ & Hn)]; [exists 0; split; [reflexivity|split; [congruence|lia]]|].
  cbn [fst snd] in *. cbn [entries_size]. destruct (entry_type_values _ _ Hv) as [b Eb]. destruct (dec_values_spec _ _ _ [] Hv Hne Eb) as (_ & -> & Hb). rewrite En.
  eexists. split; [reflexivity|]. pose proof (zlen_nonneg k). pose proof (zlen_nonneg b). split; intros; lia.
Qed.

Lemma enc_entries_spec len l :
  0 < len -> Forall (fun x => zlen x.1 < 2 ^ 16 /\ values_ok x.2) l ->
  exists b, enc_entries len l = Ok b /\ entries_size l = Some (zlen b)
    /\ forall total fuel m, zlen b <= total -> (length l <= fuel)%nat -> NoDup l.*1 -> (forall k, k ∈ l.*1 -> m !! k = None) ->
         dec_entries fuel total b m = Ok (list_to_map l ∪ m).
Proof.
  intros Hlen. induction 1 as [|[k v] l [Hk (Hne & Hvl & t & Hv)] _ (b & Eb & Es & IH)].
  { exists []. repeat split. intros total fuel m _ _ _ _. destruct fuel; cbn; rewrite (left_id_L ∅ (∪)); reflexivity. }
  destruct (entry_type_values _ _ Hv) as [vb Evb]. destruct (dec_values_spec _ _ _ b Hv Hne Evb) as (Hdec & Hsz & Hvb).
  destruct (enc_values_ok _ _ Hv Hne) as (v0 & v' & Ev & Ht). cbn [fst snd] in *. pose proof (zlen_nonneg v). pose proof (zlen_nonneg k).
  exists ([t] ++ be16 (zlen k mod 2 ^ 16) ++ k ++ be32 (u32 (zlen v)) ++ vb ++ b). split; [|split].
  - cbn [enc_entries]. rewrite Ev at 1. rewrite Ht. destruct (Z.leb_spec len 0); [lia|]. rewrite Evb, Eb. reflexivity.
  - cbn [entries_size]. rewrite Hsz, Es. f_equal. rewrite !zlen_app, zlen_be16, zlen_be32. change (zlen [t]) with 1. lia.
  - intros total fuel m Htot Hfuel Hnd Hm. cbn [length] in Hfuel. destruct fuel as [|fuel]; [lia|]. cbn [app dec_entries].
    rewrite !zlen_app, zlen_be16, zlen_be32 in *. change (zlen [t]) with 1 in Htot. pose proof (zlen_nonneg vb). pose proof (zlen_nonneg b).
    destruct (Z.ltb_spec (2 + (zlen k + (4 + (zlen vb + zlen b)))) 2); [lia|]. peel. rewrite Z.mod_small, de_be16 by lia.
    rewrite !zlen_app, zlen_be32, take_app_zlen, drop_app_zlen. destruct (Z.ltb_spec (zlen k + (4 + (zlen vb + zlen b))) (zlen k)); [lia|].
    rewrite !zlen_app, zlen_be32. destruct (Z.ltb_spec (4 + (zlen vb + zlen b)) 4); [lia|]. peel. rewrite u32_small, de_be32 by lia.
    assert (0 < zlen v) by (rewrite Ev, zlen_cons; pose proof (zlen_nonneg v'); lia).
    destruct (Z.leb_spec (zlen v) 0); [lia|]. destruct (Z.ltb_spec total (zlen v)); [lia|]. cbn [orb]. rewrite Hdec.
    apply NoDup_cons in Hnd as [Hk' Hnd]. rewrite IH; [|lia|lia|exact Hnd|].
    + f_equal. rewrite list_to_map_cons, <- insert_union_l. symmetry. apply insert_union_r, not_elem_of_list_to_map_1. exact Hk'.
    + intros k' Hk1. rewrite lookup_insert_ne by (intros ->; contradiction). apply Hm. right. exact Hk1.
Qed.

Lemma length_entries len l b : enc_entries len l = Ok b -> (length l <= length b)%nat.
Proof.
  revert b. induction l as [|[k v] l IH]; intros b E; cbn [enc_entries] in E; [cbn; lia|].
  destruct v as [|v0 v]; [discriminate|]. destruct (entry_type v0); [|discriminate]. destruct (len <=? 0); [discriminate|].
  destruct (enc_values z (v0 :: v)); try discriminate. destruct (enc_entries len l) as [r| |]; try discriminate. apply Ok_inj in E. subst b.
  specialize (IH _ eq_refl). rewrite !length_app. cbn [length]. lia.
Qed.

Lemma Write_roundtrip l :
  entry_ok (WriteEntry l) -> exists b, Write_Encode l = Ok b /\ zlen b = Write_MarshalSize l /\ Write_UnmarshalBinary b = Ok (list_to_map l).
Proof.
  intros [Hnd H]. destruct (decide (l = [])) as [->|Hl]. { exists []. repeat split. }
  destruct (enc_entries_size l H) as (n & En & Hn & _). specialize (Hn Hl). unfold Write_Encode, Write_MarshalSize. rewrite En. cbn [default].
  destruct (enc_entries_spec n l Hn H) as (b & Eb & Es & Hd). exists b. split; [exact Eb|]. split; [cbn; congruence|]. unfold Write_UnmarshalBinary.
  rewrite Hd; [rewrite (right_id_L ∅ (∪)); reflexivity|lia|eapply length_entries; exact Eb|exact Hnd|intros; apply lookup_empty].
Qed.

(** ** Deletions *)

Lemma split_at_app sep cur k b : sep ∉ k -> split_at sep cur (k ++ sep :: b) = (cur ++ k) :: split_at sep [] b.
Proof.
  revert cur. induction k as [|x k IH]; intros cur Hk; cbn [app split_at].
  - rewrite Z.eqb_refl, app_nil_r. reflexivity.
  - apply not_elem_of_cons in Hk as [Hx Hk]. destruct (Z.eqb_spec x sep); [congruence|]. rewrite IH by exact Hk. rewrite <- app_assoc. reflexivity.
Qed.

Lemma split_at_last sep cur k : sep ∉ k -> split_at sep cur k = [cur ++ k].
Proof.
  revert cur. induction k as [|x k IH]; intros cur Hk; cbn [split_at]; [rewrite app_nil_r; reflexivity|].
  apply not_elem_of_cons in Hk as [Hx Hk]. destruct (Z.eqb_spec x sep); [congruence|]. rewrite IH by exact Hk. rewrite <- app_assoc. reflexivity.
Qed.

Lemma join_keys keys :
  keys <> [] -> Forall (fun k => newline ∉ k) keys ->
  exists b, concat (map (fun k => k ++ [newline]) keys) = b ++ [newline] /\ split_at newline [] b = keys.
Proof.
  intros Hne H. induction H as [|k keys Hk _ IH]; [congruence|]. destruct (decide (keys = [])) as [->|Hk'].
  - exists k. split; [cbn; rewrite app_nil_r; reflexivity|]. rewrite split_at_last by exact Hk. reflexivity.
  - destruct (IH Hk') as (b & Eb & Hb). exists (k ++ newline :: b). split; [cbn [map concat]; rewrite Eb, <- !app_assoc; reflexivity|].
    rewrite split_at_app by exact Hk. rewrite Hb. reflexivity.
Qed.

Lemma Delete_roundtrip keys :
  entry_ok (DeleteEntry keys) -> exists b, Delete_Encode keys = Ok b /\ Delete_UnmarshalBinary b = keys.
Proof.
  intros [Hne H]. destruct (join_keys keys Hne H) as (b & Eb & Hb). exists b. split; [|exact Hb]. unfold Delete_Encode. rewrite Eb.
  rewrite zlen_app. change (zlen [newline]) with 1. pose proof (zlen_nonneg b). destruct (Z.eqb_spec (zlen b + 1) 0); [lia|].
  rewrite length_app. cbn [length]. rewrite Nat.add_sub, take_app_length. reflexivity.
Qed.

Lemma dec_keys_spec keys fuel :
  Forall (fun k => zlen k < 2 ^ 32) keys -> (length keys <= fuel)%nat -> dec_keys fuel (concat (map (fun k => be32 (u32 (zlen k)) ++ k) keys)) = Ok keys.
Proof.
  intros H. revert fuel. induction H as [|k keys Hk _ IH]; intros fuel Hf; [destruct fuel; reflexivity|]. cbn [length] in Hf.
  destruct fuel as [|fuel]; [lia|]. cbn [map concat]. set (r := concat _) in *. pose proof (zlen_nonneg k). pose proof (zlen_nonneg r).
  rewrite <- app_assoc. cbn [dec_keys]. destruct (be32 (u32 (zlen k)) ++ k ++ r) as [|z l] eqn:E.
  { apply (f_equal length) in E. rewrite length_app, be32_length in E. discriminate. }
  rewrite <- E. clear E z l. rewrite !zlen_app, zlen_be32. destruct (Z.ltb_spec (4 + (zlen k + zlen r)) 4); [lia|]. peel. rewrite u32_small, de_be32 by lia.
  rewrite zlen_app, take_app_zlen, drop_app_zlen. destruct (Z.ltb_spec (zlen k + zlen r) (zlen k)); [lia|]. unfold r at 1. rewrite IH by lia. reflexivity.
Qed.

Lemma DeleteRange_roundtrip keys mn mx :
  entry_ok (DeleteRangeEntry keys mn mx) -> DeleteRange_UnmarshalBinary (DeleteRange_Encode keys mn mx) = Ok (keys, mn, mx).
Proof.
  intros (Hmn & Hmx & Hk). unfold DeleteRange_UnmarshalBinary, DeleteRange_Encode. set (r := concat _). rewrite !zlen_app, !zlen_be64. pose proof (zlen_nonneg r).
  destruct (Z.ltb_spec (8 + (8 + zlen r)) 16); [lia|]. change (drop 16 ?x) with (drop (8 + 8) x). rewrite <- drop_drop. peel.
  rewrite !de_be64, !i64_u64, !i64_small by assumption. unfold r. rewrite dec_keys_spec; [reflexivity|exact Hk|].
  rewrite !length_app. enough (length keys <= length (concat (map (fun k => be32 (u32 (zlen k)) ++ k) keys)))%nat by lia.
  clear. induction keys as [|k keys IH]; [reflexivity|]. cbn [map concat length]. rewrite !length_app, be32_length. lia.
Qed.

(** ** Any entry *)

Lemma entry_codec e : entry_ok e -> exists b, Encode e = Ok b /\ UnmarshalEntry (Entry_Type e) b = Ok (read_of e).
Proof.
  destruct e as [l|keys|keys mn mx]; intros H; cbn [Encode Entry_Type read_of].
  - destruct (Write_roundtrip l H) as (b & Eb & _ & Hb). exists b. split; [exact Eb|]. cbn. rewrite Hb. reflexivity.
  - destruct (Delete_roundtrip keys H) as (b & Eb & Hb). exists b. split; [exact Eb|]. cbn. rewrite Hb. reflexivity.
  - exists (DeleteRange_Encode keys mn mx). split; [reflexivity|]. cbn. rewrite DeleteRange_roundtrip by exact H. reflexivity.
Qed.
