(* ===== verification/WALSegment.v ===== *)
(** * Segments of the write-ahead log

    [tsdb/engine/tsm1/wal.go], [WALSegmentWriter] and [WALSegmentReader]: frames
    of a type, a length and a compressed entry.  The writer goes through a
    [bufio.Writer], modelled with its buffer and the error it keeps once a write
    of the file has failed; the file is one of the directory of [OSFile], with
    its fault plan.  How much of each file has been fsynced is recorded beside
    it.  The reader sees the contents of a file. *)

From S2P Require Import Prelude OSFile Bytes StringCodec WALEntry.

(** ** Files with what is safe on disk *)

(** [st_synced] is the length of each file at its last successful fsync. *)
Record store := mkSt { st_fs : fs; st_synced : gmap string nat }.

Definition set_fs (f : fs) (s : store) : store := mkSt f (st_synced s).

(** A system call of the file system, whose errors the log wraps or returns. *)
Definition sys {A} (m : FM A) : M store wal_error A :=
  fun s => match m (st_fs s) with
           | (Ok a, f) => (Ok a, set_fs f s)
           | (Err _, f) => (Err ErrFile, set_fs f s)
           | (Panic, f) => (Panic, set_fs f s)
           end.

Definition file_data (p : string) (s : store) : list Z := match disk (st_fs s) !! p with Some e => de_data e | None => [] end.

(** [f.Sync()] *)
Definition os_Sync (p : string) : M store wal_error unit :=
  do* sys (syscall (ret tt)) in
  modify (fun s => mkSt (st_fs s) (<[p := length (file_data p s)]> (st_synced s))).

(** [os.Remove(path)] *)
Definition os_RemoveFile (p : string) : M store wal_error unit :=
  do* sys (os_Remove p) in
  modify (fun s => mkSt (st_fs s) (delete p (st_synced s))).

(** ** The writer *)

(** [sw_open] is false once the file has been closed: writing, fsyncing or closing
    it again fails.  [sw_err] is the error the buffered writer keeps. *)
Record WALSegmentWriter := mkSW { sw_path : string; sw_off : Z; sw_open : bool; sw_buf : list Z; sw_err : bool; sw_size : Z }.

Definition NewWALSegmentWriter (p : string) : WALSegmentWriter := mkSW p 0 true [] false 0.

(** The state of a method: the files and the writer. *)
Abbreviation SM := (M (store * WALSegmentWriter) wal_error).

Definition on_store {A} (m : M store wal_error A) : SM A := fun x => let '(r, s) := m x.1 in (r, (s, x.2)).
Definition sw_mod (f : WALSegmentWriter -> WALSegmentWriter) : SM unit := modify (fun x => (x.1, f x.2)).
Definition sw_get : SM WALSegmentWriter := fun x => (Ok x.2, x).

Definition set_buf (b : list Z) (w : WALSegmentWriter) : WALSegmentWriter := mkSW (sw_path w) (sw_off w) (sw_open w) b (sw_err w) (sw_size w).
Definition set_err (w : WALSegmentWriter) : WALSegmentWriter := mkSW (sw_path w) (sw_off w) (sw_open w) (sw_buf w) true (sw_size w).
Definition set_off (n : Z) (w : WALSegmentWriter) : WALSegmentWriter := mkSW (sw_path w) n (sw_open w) (sw_buf w) (sw_err w) (sw_size w).
Definition add_size (n : Z) (w : WALSegmentWriter) : WALSegmentWriter := mkSW (sw_path w) (sw_off w) (sw_open w) (sw_buf w) (sw_err w) (sw_size w + n).
Definition set_closed (w : WALSegmentWriter) : WALSegmentWriter := mkSW (sw_path w) (sw_off w) false (sw_buf w) (sw_err w) (sw_size w).

(** [f.Write(b)] at the offset of the file: how much was written, and whether all
    was. *)
Definition file_Write (b : list Z) : SM (Z * bool) :=
  let* w := sw_get in
  if sw_open w then
    let* r := on_store (sys (os_Write (sw_path w) (sw_off w) b)) in
    do* sw_mod (set_off (sw_off w + r.1)) in
    ret r
  else ret (0, false).

(** *** [bufio.Writer] with its default buffer *)

Definition bufSize : Z := 4096.

Definition bw_Flush : SM unit :=
  let* w := sw_get in
  if sw_err w then throw ErrFile
  else if zlen (sw_buf w) =? 0 then ret tt
  else
    let* r := file_Write (sw_buf w) in
    if r.2 : bool then sw_mod (set_buf [])
    else
      do* sw_mod (fun w' => set_err (set_buf (drop (Z.to_nat r.1) (sw_buf w)) w')) in
      throw ErrFile.

(** A write past the buffer when nothing is buffered. *)
Definition bw_direct (p : list Z) : SM unit :=
  let* r := file_Write p in
  if r.2 : bool then ret tt else do* sw_mod set_err in throw ErrFile.

(** The loop of [Write] unrolled: a flush that succeeds leaves the buffer empty, and a
    direct write leaves nothing to do. *)
Definition bw_Write (p : list Z) : SM unit :=
  let* w := sw_get in
  if sw_err w then throw ErrFile
  else
    let avail := bufSize - zlen (sw_buf w) in
    if zlen p <=? avail then sw_mod (set_buf (sw_buf w ++ p))
    else if zlen (sw_buf w) =? 0 then bw_direct p
    else
      let n := Z.to_nat avail in
      do* sw_mod (set_buf (sw_buf w ++ take n p)) in
      do* bw_Flush in
      let p := drop n p in
      if zlen p <=? bufSize then sw_mod (set_buf p) else bw_direct p.

(** *** The methods of the segment writer *)

Definition sw_Write (entryType : Z) (compressed : list Z) : SM unit :=
  do* bw_Write ([entryType] ++ be32 (u32 (zlen compressed))) in
  do* bw_Write compressed in
  sw_mod (add_size (5 + zlen compressed)).

Definition sw_sync : SM unit :=
  do* bw_Flush in
  let* w := sw_get in
  if sw_open w then on_store (os_Sync (sw_path w)) else throw ErrFile.

Definition sw_Flush : SM unit := bw_Flush.

(** [f.Close()] releases the file also when it reports an error. *)
Definition sw_close : SM unit :=
  do* sw_Flush in
  let* w := sw_get in
  if sw_open w then
    do* sw_mod set_closed in
    on_store (sys (syscall (ret tt)))
  else throw ErrFile.

(** ** The reader *)

Record WALSegmentReader := mkSR { sr_rest : list Z; sr_entry : option ReadEntry; sr_n : Z; sr_err : option wal_error }.

Definition NewWALSegmentReader (b : list Z) : WALSegmentReader := mkSR b None 0 None.
Definition sr_Reset (b : list Z) (r : WALSegmentReader) : WALSegmentReader := mkSR b None 0 None.

Section Reader.
Context `{SN : Snappy}.

Definition sr_fail (rest : list Z) (e : wal_error) (r : WALSegmentReader) : WALSegmentReader :=
  mkSR rest (sr_entry r) (sr_n r) (Some e).

(** [io.ReadFull] consumes what there is; nothing at all is the end of the file for the
    header.  The keys of a deletion are slices of a buffer that goes back to a pool:
    here they are values, which is what [Load] sees, as it applies an entry before it
    reads the next one, unless another goroutine takes the buffer in between. *)
Definition sr_Next (r : WALSegmentReader) : res wal_error bool * WALSegmentReader :=
  match sr_rest r with
  | [] => (Ok false, r)
  | rest =>
      if zlen rest <? 5 then (Ok true, sr_fail [] ErrUnexpectedEOF r)
      else
        let entryType := hd 0 rest in
        let length := be_dec (take 4 (drop 1 rest)) in
        let rest := drop 5 rest in
        if zlen rest <? length then (Ok true, sr_fail [] ErrUnexpectedEOF r)
        else
          let b := take (Z.to_nat length) rest in
          let rest := drop (Z.to_nat length) rest in
          match snappy_Decode b with
          | None => (Ok true, sr_fail rest ErrSnappyCorrupt r)
          | Some data =>
              match UnmarshalEntry entryType data with
              | Ok e => (Ok true, mkSR rest (Some e) (sr_n r + (5 + length)) None)
              | Err e => (Ok true, sr_fail rest e r)
              | Panic => (Panic, r)
              end
          end
  end.

Definition sr_Read (r : WALSegmentReader) : res wal_error (option ReadEntry) :=
  match sr_err r with Some e => Err e | None => Ok (sr_entry r) end.

Definition sr_Count (r : WALSegmentReader) : Z := sr_n r.

End Reader.
