(* ===== verification/WAL.v ===== *)
(** * The write-ahead log

    [tsdb/engine/tsm1/wal.go], [WAL]: the log over its segments.  A call of
    [writeToLog] encodes its entry, then holds the lock while it rolls the
    segment, appends the frame and queues itself for the next fsync; a background
    goroutine takes the lock to fsync and answers all that wait.  Each critical
    section is one operation on the state; what a waiting call is told is the
    outcome of a later one.  Calls are numbered by the caller.  The limiter and the logger
    do nothing to the state; times are the clock of the file system. *)

From Stdlib Require Import Ascii.
From S2P Require Import Prelude OSFile StringCodec Blocks Bytes WALEntry WALSegment.

Definition DefaultSegmentSize : Z := 10 * 1024 * 1024.

(** ** Names of segments *)

(** [%05d] *)
Definition pad5 (s : string) : string := String.append (String.string_of_list_ascii (repeat "0"%char (5 - String.length s))) s.

Definition segment_name (id : Z) : string := String.append "_" (String.append (pad5 (FormatUint id)) ".wal").

(** The pattern [_*.wal] *)
Definition is_segment_name (n : string) : bool :=
  let l := String.list_ascii_of_string n in
  bool_decide (hd_error l = Some "_"%char) && bool_decide (5 <= length l)%nat
  && bool_decide (drop (length l - 4) l = String.list_ascii_of_string ".wal").

(** [filepath.Glob], then [sort.Strings]: a directory that cannot be read has no
    matches. *)
Definition segmentFileNames : M store wal_error (list string) :=
  fun s => (Ok (merge_sort String.le (List.filter is_segment_name (map fst (map_to_list (disk (st_fs s)))))), s).

(** [strings.Split(name, ".")] *)
Fixpoint split_dots (cur : list ascii) (l : list ascii) : list (list ascii) :=
  match l with
  | [] => [cur]
  | c :: l' => if bool_decide (c = "."%char) then cur :: split_dots [] l' else split_dots (cur ++ [c]) l'
  end.

Definition idFromFileName (name : string) : res wal_error Z :=
  match split_dots [] (String.list_ascii_of_string name) with
  | [p; _] =>
      match p with
      | [] => Panic
      | _ :: digits =>
          match ParseUint (String.string_of_list_ascii digits) with
          | Some v => if v <? 2 ^ 32 then Ok v else Err ErrFile
          | None => Err ErrFile
          end
      end
  | _ => Err ErrFile
  end.

(** ** The state *)

Record WALStatistics := mkWS { OldBytes : Z; CurrentBytes : Z; WriteOK : Z; WriteErr : Z }.

Record WAL := mkWAL {
  w_store : store;
  w_id : Z;                                 (* currentSegmentID *)
  w_writer : option WALSegmentWriter;       (* currentSegmentWriter *)
  w_waiters : list nat;                     (* syncWaiters: the calls that wait *)
  w_syncing : bool;                         (* syncCount: the goroutine runs *)
  w_closing : bool;                         (* closing has been closed *)
  w_once : bool;                            (* once has run *)
  w_lastWrite : Z;
  w_stats : WALStatistics;
  w_answers : list (nat * option wal_error) (* what the waiting calls were sent *)
}.

Abbreviation WM := (M WAL wal_error).

Definition set_w_store (x : store) (w : WAL) : WAL := mkWAL x (w_id w) (w_writer w) (w_waiters w) (w_syncing w) (w_closing w) (w_once w) (w_lastWrite w) (w_stats w) (w_answers w).
Definition set_w_id (x : Z) (w : WAL) : WAL := mkWAL (w_store w) x (w_writer w) (w_waiters w) (w_syncing w) (w_closing w) (w_once w) (w_lastWrite w) (w_stats w) (w_answers w).
Definition set_w_writer (x : option WALSegmentWriter) (w : WAL) : WAL := mkWAL (w_store w) (w_id w) x (w_waiters w) (w_syncing w) (w_closing w) (w_once w) (w_lastWrite w) (w_stats w) (w_answers w).
Definition set_w_waiters (x : list nat) (w : WAL) : WAL := mkWAL (w_store w) (w_id w) (w_writer w) x (w_syncing w) (w_closing w) (w_once w) (w_lastWrite w) (w_stats w) (w_answers w).
Definition set_w_syncing (x : bool) (w : WAL) : WAL := mkWAL (w_store w) (w_id w) (w_writer w) (w_waiters w) x (w_closing w) (w_once w) (w_lastWrite w) (w_stats w) (w_answers w).
Definition set_w_closing (x : bool) (w : WAL) : WAL := mkWAL (w_store w) (w_id w) (w_writer w) (w_waiters w) (w_syncing w) x (w_once w) (w_lastWrite w) (w_stats w) (w_answers w).
Definition set_w_once (w : WAL) : WAL := mkWAL (w_store w) (w_id w) (w_writer w) (w_waiters w) (w_syncing w) (w_closing w) true (w_lastWrite w) (w_stats w) (w_answers w).
Definition set_w_lastWrite (x : Z) (w : WAL) : WAL := mkWAL (w_store w) (w_id w) (w_writer w) (w_waiters w) (w_syncing w) (w_closing w) (w_once w) x (w_stats w) (w_answers w).
Definition set_w_stats (x : WALStatistics) (w : WAL) : WAL := mkWAL (w_store w) (w_id w) (w_writer w) (w_waiters w) (w_syncing w) (w_closing w) (w_once w) (w_lastWrite w) x (w_answers w).
Definition set_w_answers (x : list (nat * option wal_error)) (w : WAL) : WAL := mkWAL (w_store w) (w_id w) (w_writer w) (w_waiters w) (w_syncing w) (w_closing w) (w_once w) (w_lastWrite w) (w_stats w) x.

Definition store_OldBytes (n : Z) : WM unit := modify (fun w => set_w_stats (mkWS n (CurrentBytes (w_stats w)) (WriteOK (w_stats w)) (WriteErr (w_stats w))) w).
Definition store_CurrentBytes (n : Z) : WM unit := modify (fun w => set_w_stats (mkWS (OldBytes (w_stats w)) n (WriteOK (w_stats w)) (WriteErr (w_stats w))) w).
Definition bump_WriteOK : WM unit := modify (fun w => set_w_stats (mkWS (OldBytes (w_stats w)) (CurrentBytes (w_stats w)) (WriteOK (w_stats w) + 1) (WriteErr (w_stats w))) w).
Definition bump_WriteErr : WM unit := modify (fun w => set_w_stats (mkWS (OldBytes (w_stats w)) (CurrentBytes (w_stats w)) (WriteOK (w_stats w)) (WriteErr (w_stats w) + 1)) w).

Definition NewWAL (s : store) : WAL := mkWAL s 0 None [] false false false 0 (mkWS 0 0 0 0) [].

Definition on_w_store {A} (m : M store wal_error A) : WM A := fun w => let '(r, s) := m (w_store w) in (r, set_w_store s w).

(** A method of the current writer; there is none after [Close]. *)
Definition on_writer {A} (m : SM A) : WM A :=
  fun w => match w_writer w with
           | None => (Panic, w)
           | Some sw => let '(r, (s, sw')) := m (w_store w, sw) in (r, set_w_writer (Some sw') (set_w_store s w))
           end.

(** ** Fsync *)

(** All waiting calls are sent the outcome. *)
Definition wal_sync : WM unit :=
  catch (on_writer sw_sync) (fun r =>
    let err := match r with inl _ => None | inr e => Some e end in
    modify (fun w => set_w_waiters [] (set_w_answers (w_answers w ++ map (fun c => (c, err)) (w_waiters w)) w))).

(** A round of the goroutine of [scheduleSync]: the timer fires. *)
Definition sync_tick : WM unit :=
  let* w := get in
  match w_waiters w with
  | [] => modify (set_w_syncing false)
  | _ => wal_sync
  end.

(** The goroutine is started unless it runs. *)
Definition scheduleSync : WM unit := modify (set_w_syncing true).

(** ** Segments *)

Definition newSegmentFile : WM unit :=
  do* modify (fun w => set_w_id (w_id w + 1) w) in
  let* w := get in
  do* (match w_writer w with
       | None => ret tt
       | Some sw =>
           do* wal_sync in
           do* on_writer sw_close in
           let* w := get in
           match w_writer w with Some sw => store_OldBytes (sw_size sw) | None => panic end
       end) in
  let fileName := segment_name (w_id w) in
  do* on_w_store (sys (os_OpenFile fileName)) in
  do* modify (set_w_writer (Some (NewWALSegmentWriter fileName))) in
  do* catch (on_w_store (sys (os_Stat fileName))) (fun r =>
    match r with inl e => modify (set_w_lastWrite (de_mtime e)) | inr _ => ret tt end) in
  store_CurrentBytes 0.

Definition rollSegment : WM unit :=
  let* w := get in
  match w_writer w with
  | None => newSegmentFile
  | Some sw => if DefaultSegmentSize <? sw_size sw then newSegmentFile else ret tt
  end.

Definition CloseSegment : WM unit :=
  let* w := get in
  match w_writer w with
  | None => newSegmentFile
  | Some sw => if 0 <? sw_size sw then newSegmentFile else ret tt
  end.

(** ** Writing *)

Definition maxWaiters : nat := 1024.

Section Writing.
Context `{SN : Snappy}.

(** The critical section of [writeToLog] for call number [call]. *)
Definition append_entry (call : nat) (typ : Z) (compressed : list Z) : WM Z :=
  let* w := get in
  if w_closing w then throw ErrWALClosed
  else
    do* rollSegment in
    do* on_writer (sw_Write typ compressed) in
    let* w := get in
    if (maxWaiters <=? length (w_waiters w))%nat then throw ErrSyncing
    else
      do* modify (set_w_waiters (w_waiters w ++ [call])) in
      do* scheduleSync in
      do* (match w_writer w with Some sw => store_CurrentBytes (sw_size sw) | None => panic end) in
      do* modify (fun w => set_w_lastWrite (now (st_fs (w_store w))) w) in
      ret (w_id w).

(** [writeToLog] up to the point where it waits for the fsync. *)
Definition writeToLog (call : nat) (e : WALEntry) : WM Z :=
  match Encode e with
  | Ok b => append_entry call (Entry_Type e) (snappy_Encode b)
  | Err err => throw err
  | Panic => panic
  end.

(** The beginnings of [WriteMulti], [Delete] and [DeleteRange]; [None]: nothing
    to do.  [answered] is what they do once the fsync is answered. *)
Definition WAL_WriteMulti (call : nat) (values : list (list Z * list Value)) : WM Z :=
  catch (writeToLog call (WriteEntry values)) (fun r =>
    match r with inl id => ret id | inr e => do* bump_WriteErr in throw e end).

Definition WriteMulti_answered (err : option wal_error) : WM unit :=
  match err with None => bump_WriteOK | Some e => do* bump_WriteErr in throw e end.

Definition WAL_Delete (call : nat) (keys : list (list Z)) : WM (option Z) :=
  match keys with
  | [] => ret None
  | _ => let* id := writeToLog call (DeleteEntry keys) in ret (Some id)
  end.

Definition WAL_DeleteRange (call : nat) (keys : list (list Z)) (mn mx : Z) : WM (option Z) :=
  match keys with
  | [] => ret None
  | _ => let* id := writeToLog call (DeleteRangeEntry keys mn mx) in ret (Some id)
  end.

End Writing.

(** ** Opening, closing, removing *)

Fixpoint sizes_of (segments : list string) (total : Z) : WM Z :=
  match segments with
  | [] => ret total
  | seg :: segments' =>
      let* stat := on_w_store (sys (os_Stat seg)) in
      sizes_of segments' (total + zlen (de_data stat))
  end.

(** As [sizes_of], keeping the time of the last change. *)
Fixpoint old_sizes (segments : list string) (total : Z) : WM Z :=
  match segments with
  | [] => ret total
  | seg :: segments' =>
      let* stat := on_w_store (sys (os_Stat seg)) in
      do* modify (fun w => if w_lastWrite w <? de_mtime stat then set_w_lastWrite (de_mtime stat) w else w) in
      old_sizes segments' (total + zlen (de_data stat))
  end.

(** [mkdir] tells whether the directory can be made. *)
Definition WAL_Open (mkdir : bool) : WM unit :=
  if negb mkdir then throw ErrFile
  else
    let* segments := on_w_store segmentFileNames in
    let* segments :=
      match last segments with
      | None => ret segments
      | Some lastSegment =>
          match idFromFileName lastSegment with
          | Ok id =>
              do* modify (set_w_id id) in
              let* stat := on_w_store (sys (os_Stat lastSegment)) in
              let* segments :=
                (if zlen (de_data stat) =? 0 then
                   catch (on_w_store (os_RemoveFile lastSegment)) (fun _ => ret (take (length segments - 1) segments))
                 else ret segments) in
              do* newSegmentFile in
              ret segments
          | Err e => throw e
          | Panic => panic
          end
      end in
    let* totalOldDiskSize := old_sizes segments 0 in
    do* store_OldBytes totalOldDiskSize in
    modify (set_w_closing false).

(** The fsync and the close of the file are attempted, their errors dropped. *)
Definition WAL_Close : WM unit :=
  let* w := get in
  if w_once w then ret tt
  else
    do* modify (fun w => set_w_closing true (set_w_once w)) in
    match w_writer w with
    | None => ret tt
    | Some _ =>
        do* wal_sync in
        do* catch (on_writer sw_close) (fun _ => ret tt) in
        modify (set_w_writer None)
    end.

Definition ClosedSegments : WM (list string) :=
  let* w := get in
  let* files := on_w_store segmentFileNames in
  ret (List.filter (fun fn => negb (bool_decide (Some fn = option_map sw_path (w_writer w)))) files).

(** [os.RemoveAll] of each file, its errors dropped. *)
Fixpoint remove_files (files : list string) : WM unit :=
  match files with
  | [] => ret tt
  | fn :: files' => do* catch (on_w_store (os_RemoveFile fn)) (fun _ => ret tt) in remove_files files'
  end.

Definition WAL_Remove (files : list string) : WM unit :=
  do* remove_files files in
  let* segments := on_w_store segmentFileNames in
  let* totalOldDiskSize := sizes_of segments 0 in
  store_OldBytes totalOldDiskSize.

Definition DiskSizeBytes (w : WAL) : Z := OldBytes (w_stats w) + CurrentBytes (w_stats w).

(** * Names of the segments of the write-ahead log

    A name determines the id, and as strings names up to [_99999.wal] are in
    the order of their ids; beyond that they are not. *)

Abbreviation soa := String.string_of_list_ascii.

Lemma soa_app a b : soa (a ++ b) = String.append (soa a) (soa b).
Proof. induction a as [|c a IH]; cbn; [reflexivity|]. rewrite IH. reflexivity. Qed.

(** ** Digits of fixed width *)

Fixpoint fixed_digits (k : nat) (n : Z) : list ascii :=
  match k with
  | O => []
  | S k' => fixed_digits k' (n / 10) ++ [digit (n mod 10)]
  end.

Lemma length_fixed k n : length (fixed_digits k n) = k.
Proof. revert n. induction k as [|k IH]; intros n; cbn; [reflexivity|]. rewrite length_app, IH. cbn. lia. Qed.

Lemma fixed_zero k : fixed_digits k 0 = repeat "0"%char k.
Proof. induction k as [|k IH]; [reflexivity|]. cbn [fixed_digits]. change (0 / 10) with 0. rewrite IH. symmetry. apply repeat_cons. Qed.

Lemma length_digits f n : (0 < f)%nat -> (0 < length (digits f n))%nat.
Proof. intros H. destruct f; [lia|]. cbn. rewrite length_app. cbn. lia. Qed.

Lemma pad_digits k f n :
  0 <= n < 10 ^ Z.of_nat k -> (0 < k <= f)%nat -> repeat "0"%char (k - length (digits f n)) ++ digits f n = fixed_digits k n.
Proof.
  revert f n. induction k as [|k IH]; intros f n Hn Hk; [lia|]. destruct f as [|f]; [lia|]. cbn [digits fixed_digits].
  rewrite Nat2Z.inj_succ, Z.pow_succ_r in Hn by lia. pose proof (Z.div_mod n 10 ltac:(lia)). pose proof (Z.mod_pos_bound n 10 ltac:(lia)). destruct (Z.ltb_spec n 10).
  - rewrite (Z.div_small n 10) by lia. cbn [app length]. replace (S k - 1)%nat with k by lia. rewrite fixed_zero. reflexivity.
  - assert (0 < k)%nat by (destruct k; [change (10 ^ Z.of_nat 0) with 1 in Hn; lia|lia]).
    rewrite length_app. cbn [length]. replace (S k - (length (digits f (n / 10)) + 1))%nat with (k - length (digits f (n / 10)))%nat by lia.
    rewrite app_assoc, IH; [reflexivity|lia|lia].
Qed.

Lemma String_length l : String.length (soa l) = length l.
Proof. induction l as [|c l IH]; cbn; [reflexivity|]. rewrite IH. reflexivity. Qed.

Lemma segment_name_chars id : String.list_ascii_of_string (segment_name id) = "_"%char :: repeat "0"%char (5 - length (digits 20 id)) ++ digits 20 id ++ String.list_ascii_of_string ".wal".
Proof.
  unfold segment_name, pad5, FormatUint. rewrite String_length. change ".wal" with (soa (String.list_ascii_of_string ".wal")) at 1.
  rewrite <- !soa_app. change "_" with (soa ["_"%char]). rewrite <- soa_app, String.list_ascii_of_string_of_list_ascii, <- app_assoc. reflexivity.
Qed.

Lemma segment_name_fixed id : 0 <= id < 100000 -> segment_name id = soa (("_"%char :: fixed_digits 5 id) ++ String.list_ascii_of_string ".wal").
Proof.
  intros H. rewrite <- (String.string_of_list_ascii_of_string (segment_name id)), segment_name_chars. f_equal. cbn [app]. f_equal.
  rewrite app_assoc, pad_digits; [reflexivity|change (10 ^ Z.of_nat 5) with 100000; lia|lia].
Qed.

(** ** The order of names *)

Lemma compare_digit a b : 0 <= a < 10 -> 0 <= b < 10 -> Ascii.compare (digit a) (digit b) = (a ?= b).
Proof. intros Ha Hb. unfold Ascii.compare, digit. rewrite !N_ascii_embedding by lia. rewrite <- N2Z.inj_compare, !N2Z.inj_add, !Z2N.id by lia. apply Zcompare_plus_compat. Qed.

Lemma compare_app a b a' b' :
  length a = length a' -> String.compare (soa (a ++ b)) (soa (a' ++ b')) = match String.compare (soa a) (soa a') with Eq => String.compare (soa b) (soa b') | c => c end.
Proof.
  revert a'. induction a as [|x a IH]; intros [|x' a'] H; try discriminate; [reflexivity|]. cbn. destruct (Ascii.compare x x'); [|reflexivity|reflexivity]. apply IH. cbn in H. congruence.
Qed.

Lemma compare_fixed k i j : 0 <= i < 10 ^ Z.of_nat k -> 0 <= j < 10 ^ Z.of_nat k -> String.compare (soa (fixed_digits k i)) (soa (fixed_digits k j)) = (i ?= j).
Proof.
  revert i j. induction k as [|k IH]; intros i j Hi Hj.
  - change (10 ^ Z.of_nat 0) with 1 in *. replace i with 0 by lia. replace j with 0 by lia. reflexivity.
  - rewrite Nat2Z.inj_succ, Z.pow_succ_r in Hi, Hj by lia. cbn [fixed_digits]. rewrite compare_app by (rewrite !length_fixed; reflexivity).
    pose proof (Z.div_mod i 10 ltac:(lia)). pose proof (Z.mod_pos_bound i 10 ltac:(lia)). pose proof (Z.div_mod j 10 ltac:(lia)). pose proof (Z.mod_pos_bound j 10 ltac:(lia)).
    rewrite IH by lia. cbn [soa String.compare]. rewrite compare_digit by lia.
    destruct (Z.compare_spec (i / 10) (j / 10)); [destruct (Z.compare_spec (i mod 10) (j mod 10))| |]; symmetry; rewrite ?Z.compare_eq_iff, ?Z.compare_lt_iff, ?Z.compare_gt_iff; lia.
Qed.

Lemma segment_name_le i j : 0 <= i < 100000 -> 0 <= j < 100000 -> String.le (segment_name i) (segment_name j) <-> i <= j.
Proof.
  intros Hi Hj. unfold String.le. rewrite (segment_name_fixed i), (segment_name_fixed j) by lia. unfold String.leb.
  rewrite compare_app by (cbn [length]; rewrite !length_fixed; reflexivity).
  cbn [soa String.compare]. change (Ascii.compare "_" "_") with Eq. cbn iota.
  rewrite compare_fixed by (change (10 ^ Z.of_nat 5) with 100000; lia). destruct (Z.compare_spec i j); cbn; split; intros; try lia; try contradiction; constructor.
Qed.

(** ** The id of a name *)

Lemma split_dots_word cur w rest : Forall (fun c => c <> "."%char) w -> split_dots cur (w ++ "."%char :: rest) = (cur ++ w) :: split_dots [] rest.
Proof.
  revert cur. induction w as [|c w IH]; intros cur H; cbn [app split_dots]; [rewrite app_nil_r; reflexivity|].
  apply Forall_cons in H as [Hc H]. rewrite bool_decide_false by exact Hc. rewrite IH by exact H. rewrite <- app_assoc. reflexivity.
Qed.

Lemma digits_nodot f n : 0 <= n -> Forall (fun c => c <> "."%char) (digits f n).
Proof.
  revert n. induction f as [|f IH]; intros n Hn; cbn [digits]; [constructor|]. apply Forall_app. split.
  - destruct (n <? 10); [constructor|]. apply IH. apply Z.div_pos; lia.
  - constructor; [|constructor]. intros E. pose proof (digit_val_digit (n mod 10) (Z.mod_pos_bound n 10 ltac:(lia))) as H. rewrite E in H. discriminate.
Qed.

Lemma parse_zeros k l : fold_left parse_step (repeat "0"%char k ++ l) (Some 0) = fold_left parse_step l (Some 0).
Proof. induction k as [|k IH]; [reflexivity|]. cbn. exact IH. Qed.

Lemma idFromFileName_name id : 0 <= id < 2 ^ 32 -> idFromFileName (segment_name id) = Ok id.
Proof.
  intros H. unfold idFromFileName. rewrite segment_name_chars. set (z := repeat "0"%char (5 - length (digits 20 id))).
  change (String.list_ascii_of_string ".wal") with ("."%char :: ["w"%char; "a"%char; "l"%char]).
  change ("_"%char :: z ++ digits 20 id ++ ?r) with (("_"%char :: []) ++ z ++ digits 20 id ++ r). rewrite !app_assoc, split_dots_word.
  2: { apply Forall_app; split; [apply Forall_app; split; [repeat constructor; discriminate|]|apply digits_nodot; lia].
       unfold z. apply Forall_forall. intros x Hx. apply list_elem_of_In, repeat_spec in Hx. subst. discriminate. }
  cbn [app]. change (split_dots [] ["w"%char; "a"%char; "l"%char]) with [["w"%char; "a"%char; "l"%char]]. cbn iota.
  unfold ParseUint. rewrite String.list_ascii_of_string_of_list_ascii. destruct (z ++ digits 20 id) as [|c l] eqn:E.
  { pose proof (length_digits 20 id ltac:(lia)). apply (f_equal length) in E. rewrite length_app in E. cbn [length] in E. lia. }
  rewrite <- E. unfold z. rewrite parse_zeros, fold_digits by (split || idtac; lia). destruct (Z.ltb_spec id (2 ^ 64)); [|lia]. destruct (Z.ltb_spec id (2 ^ 32)); [reflexivity|lia].
Qed.

Lemma segment_name_inj i j : 0 <= i < 2 ^ 32 -> 0 <= j < 2 ^ 32 -> segment_name i = segment_name j -> i = j.
Proof. intros Hi Hj E. apply (f_equal idFromFileName) in E. rewrite !idFromFileName_name in E by assumption. congruence. Qed.

Lemma segment_name_matches id : is_segment_name (segment_name id) = true.
Proof.
  unfold is_segment_name. rewrite segment_name_chars. change (String.list_ascii_of_string ".wal") with ["."%char; "w"%char; "a"%char; "l"%char].
  set (t := ["."%char; "w"%char; "a"%char; "l"%char]). rewrite app_assoc. set (l := repeat _ _ ++ digits 20 id). cbn [hd_error].
  rewrite (bool_decide_true (Some "_"%char = _)) by reflexivity. change ("_"%char :: l ++ t) with (("_"%char :: l) ++ t).
  rewrite length_app. change (length t) with 4%nat. rewrite Nat.add_sub, drop_app_length, !bool_decide_true; [reflexivity|reflexivity|cbn [length]; lia].
Qed.
