(* ===== verification/WALSegmentFacts.v ===== *)
(** * What a torn segment reads back as *)

From S2P Require Import Prelude OSFile StringCodec Bytes WALEntry WALSegment.

Section Frames.
Context `{SN : Snappy} {SL : SnappyLaws}.

(** ** Frames *)

Definition payload (e : WALEntry) : list Z := match Encode e with Ok b => snappy_Encode b | _ => [] end.

Definition frame (e : WALEntry) : list Z := [Entry_Type e] ++ be32 (u32 (zlen (payload e))) ++ payload e.

Definition segment_bytes (es : list WALEntry) : list Z := concat (map frame es).

(** An entry the log can hold. *)
Definition frame_ok (e : WALEntry) : Prop := entry_ok e /\ zlen (payload e) < 2 ^ 32.

Lemma zlen_frame e : zlen (frame e) = 5 + zlen (payload e).
Proof. unfold frame. rewrite !zlen_app, zlen_be32. change (zlen [Entry_Type e]) with 1. lia. Qed.

Lemma segment_bytes_app es es' : segment_bytes (es ++ es') = segment_bytes es ++ segment_bytes es'.
Proof. unfold segment_bytes. rewrite map_app, concat_app. reflexivity. Qed.

Lemma segment_bytes_take es j : exists r, segment_bytes es = segment_bytes (take j es) ++ r.
Proof. exists (segment_bytes (drop j es)). rewrite <- segment_bytes_app, take_drop. reflexivity. Qed.

Lemma segment_bytes_mono es i j : (i <= j)%nat -> zlen (segment_bytes (take i es)) <= zlen (segment_bytes (take j es)).
Proof.
  intros H. destruct (segment_bytes_take (take j es) i) as [r ->]. rewrite take_take, (Nat.min_l i j) by lia. rewrite zlen_app. pose proof (zlen_nonneg r). lia.
Qed.

Lemma payload_decodes e : entry_ok e -> exists data, snappy_Decode (payload e) = Some data /\ UnmarshalEntry (Entry_Type e) data = Ok (read_of e).
Proof. intros H. destruct (entry_codec e H) as (b & Eb & Hb). exists b. unfold payload. rewrite Eb, snappy_inverse. auto. Qed.

(** ** One step of the reader *)

Lemma Next_frame e rest r :
  frame_ok e -> sr_rest r = frame e ++ rest ->
  sr_Next r = (Ok true, mkSR rest (Some (read_of e)) (sr_n r + zlen (frame e)) None).
Proof.
  intros [He Hl] Er. unfold sr_Next. rewrite Er. unfold frame at 1. cbn [app].
  change (Entry_Type e :: (be32 (u32 (zlen (payload e))) ++ payload e) ++ rest) with ([Entry_Type e] ++ (be32 (u32 (zlen (payload e))) ++ payload e) ++ rest).
  rewrite <- app_assoc, !zlen_app, zlen_be32. change (zlen [Entry_Type e]) with 1.
  pose proof (zlen_nonneg (payload e)). pose proof (zlen_nonneg rest). destruct (Z.ltb_spec (1 + (4 + (zlen (payload e) + zlen rest))) 5); [lia|].
  change (drop 5 ([Entry_Type e] ++ ?x)) with (drop 4 x). change (drop 1 ([Entry_Type e] ++ ?x)) with x. cbn [hd app]. peel. rewrite u32_small, de_be32 by lia.
  rewrite zlen_app. destruct (Z.ltb_spec (zlen (payload e) + zlen rest) (zlen (payload e))); [lia|]. rewrite take_app_zlen, drop_app_zlen.
  destruct (payload_decodes e He) as (data & -> & ->). rewrite zlen_frame. reflexivity.
Qed.

Lemma Next_torn e part more r :
  frame_ok e -> frame e = part ++ more -> part <> [] -> more <> [] -> sr_rest r = part ->
  sr_Next r = (Ok true, sr_fail [] ErrUnexpectedEOF r).
Proof.
  intros [_ Hl] E Hp Hm Er. unfold sr_Next. rewrite Er. destruct part as [|x part]; [congruence|]. set (p := x :: part) in *. clearbody p. clear x part Er.
  destruct (Z.ltb_spec (zlen p) 5) as [|H5]; [destruct p; [congruence|]; reflexivity|].
  assert (zlen p < zlen (frame e)) as Hlt.
  { rewrite E, zlen_app. destruct more; [congruence|]. rewrite zlen_cons. pose proof (zlen_nonneg more). lia. }
  assert (take 4 (drop 1 p) = be32 (u32 (zlen (payload e)))) as ->.
  { assert (take 5 p = take 5 (frame e)) as Et by (rewrite E, take_app_le; [reflexivity|unfold zlen in H5; lia]).
    change (take 4 (drop 1 p)) with (take (5 - 1) (drop 1 p)). rewrite <- skipn_firstn_comm, Et. unfold frame. change (take 5 ([?a] ++ ?l)) with (a :: take 4 l). peel. reflexivity. }
  rewrite u32_small by (pose proof (zlen_nonneg (payload e)); lia). rewrite de_be32 by (pose proof (zlen_nonneg (payload e)); lia).
  assert (zlen (drop 5 p) = zlen p - 5) as -> by (unfold zlen in *; rewrite length_drop; lia). rewrite zlen_frame in Hlt.
  destruct (Z.ltb_spec (zlen p - 5) (zlen (payload e))); [|lia]. destruct p; [congruence|]. reflexivity.
Qed.

(** ** All of a segment *)

(** What the loop of a client sees up to the end of the file or the first error: the
    entries, the count, whether there was an error.  Every round takes five bytes. *)
Fixpoint read_all (fuel : nat) (r : WALSegmentReader) : option (list ReadEntry * Z * bool) :=
  match fuel with
  | O => None
  | S fuel' =>
      match sr_Next r with
      | (Ok false, r) => Some ([], sr_Count r, false)
      | (Ok true, r) =>
          match sr_Read r with
          | Ok (Some e) => match read_all fuel' r with Some (es, n, bad) => Some (e :: es, n, bad) | None => None end
          | Ok None => None
          | Err _ => Some ([], sr_Count r, true)
          | Panic => None
          end
      | _ => None
      end
  end.

Lemma read_all_frames es part r fuel :
  Forall frame_ok es -> sr_rest r = segment_bytes es ++ part -> (length es < fuel)%nat ->
  (part = [] \/ exists e more, frame_ok e /\ frame e = part ++ more /\ more <> []) ->
  read_all fuel r = Some (map read_of es, sr_n r + zlen (segment_bytes es), negb (bool_decide (part = []))).
Proof.
  intros H. revert r fuel. induction H as [|e es He _ IH]; intros r fuel Er Hf Hp; (destruct fuel as [|fuel]; [cbn in Hf; lia|]); cbn [read_all].
  - cbn [segment_bytes map concat app] in Er. destruct (decide (part = [])) as [->|Hne].
    + unfold sr_Next. rewrite Er. unfold sr_Count. rewrite (bool_decide_true ([] = [])) by reflexivity. change (zlen (segment_bytes [])) with 0. rewrite Z.add_0_r. reflexivity.
    + destruct Hp as [?|(e & more & He & E & Hm)]; [congruence|]. rewrite (Next_torn e part more r He E Hne Hm Er). cbn.
      rewrite (bool_decide_false (part = [])) by exact Hne. change (zlen (segment_bytes [])) with 0. rewrite Z.add_0_r. reflexivity.
  - change (segment_bytes (e :: es)) with (frame e ++ segment_bytes es) in *. rewrite <- app_assoc in Er. rewrite (Next_frame e _ r He Er). cbn [sr_Read sr_err sr_entry].
    rewrite (IH (mkSR (segment_bytes es ++ part) (Some (read_of e)) (sr_n r + zlen (frame e)) None) fuel eq_refl ltac:(cbn in Hf; lia) Hp).
    cbn [sr_n map]. do 2 f_equal. rewrite zlen_app. f_equal. lia.
Qed.

(** A prefix of a segment is some whole frames and part of the next one. *)
Lemma prefix_frames es data :
  data `prefix_of` segment_bytes es ->
  exists j part, (j <= length es)%nat /\ data = segment_bytes (take j es) ++ part
    /\ (part = [] \/ exists e more, es !! j = Some e /\ frame e = part ++ more /\ more <> []).
Proof.
  revert data. induction es as [|e es IH]; intros data [s Hs].
  - destruct data; [|discriminate]. exists 0%nat, []. auto.
  - change (segment_bytes (e :: es)) with (frame e ++ segment_bytes es) in Hs. destruct (decide (length data < length (frame e))%nat) as [Hlt|Hge].
    + exists 0%nat, data. split; [lia|]. split; [reflexivity|]. right. exists e, (drop (length data) (frame e)). split; [reflexivity|].
      assert (data = take (length data) (frame e)) as Ed.
      { rewrite <- (take_app_le (frame e) (segment_bytes es)) by lia. rewrite Hs. symmetry. apply take_app_length. }
      split; [rewrite Ed at 1; symmetry; apply take_drop|]. intros E. assert (length (drop (length data) (frame e)) = 0%nat) as E0 by (rewrite E; reflexivity). rewrite length_drop in E0. lia.
    + assert (exists d, data = frame e ++ d) as [d ->].
      { exists (drop (length (frame e)) data). rewrite <- (take_drop (length (frame e)) data) at 1. f_equal.
        rewrite <- (take_app_le data s) by lia. rewrite <- Hs. apply take_app_length. }
      rewrite <- app_assoc in Hs. apply app_inv_head in Hs. destruct (IH d) as (j & part & Hj & Hd & Hp); [exists s; exact Hs|].
      exists (S j), part. split; [cbn; lia|]. split; [|exact Hp]. rewrite Hd. cbn [take]. change (segment_bytes (e :: take j es)) with (frame e ++ segment_bytes (take j es)). rewrite app_assoc. reflexivity.
Qed.

Lemma length_segment es : (length es <= length (segment_bytes es))%nat.
Proof.
  induction es as [|e es IH]; [reflexivity|]. change (segment_bytes (e :: es)) with (frame e ++ segment_bytes es). rewrite length_app. cbn [length].
  pose proof (zlen_frame e). pose proof (zlen_nonneg (payload e)). unfold zlen in *. lia.
Qed.

Definition recover (b : list Z) : option (list ReadEntry * Z * bool) := read_all (S (length b)) (NewWALSegmentReader b).

(** The entries recovered are those whose frame is complete. *)
Lemma recover_prefix es data :
  Forall frame_ok es -> data `prefix_of` segment_bytes es ->
  exists j, (j <= length es)%nat
    /\ recover data = Some (map read_of (take j es), zlen (segment_bytes (take j es)), negb (zlen data =? zlen (segment_bytes (take j es))))
    /\ zlen (segment_bytes (take j es)) <= zlen data
    /\ forall i, (i <= length es)%nat -> zlen (segment_bytes (take i es)) <= zlen data -> (i <= j)%nat.
Proof.
  intros Hok Hpre. destruct (prefix_frames es data Hpre) as (j & part & Hj & Hd & Hp). exists j. split; [exact Hj|].
  pose proof (zlen_nonneg part) as Hz. split; [|split].
  - unfold recover. rewrite (read_all_frames (take j es) part); [|apply Forall_take; exact Hok|exact Hd| |].
    + cbn [NewWALSegmentReader sr_n]. rewrite Z.add_0_l, Hd, zlen_app. do 3 f_equal. destruct part as [|x part].
      * rewrite bool_decide_true by reflexivity. symmetry. apply Z.eqb_eq. rewrite zlen_nil. lia.
      * rewrite bool_decide_false by congruence. symmetry. apply Z.eqb_neq. rewrite zlen_cons. pose proof (zlen_nonneg part). lia.
    + rewrite Hd, length_app. pose proof (length_segment (take j es)). lia.
    + destruct Hp as [?|(e & more & He & E & Hm)]; [left; assumption|]. right. exists e, more. split; [|auto]. eapply Forall_lookup_1; eassumption.
  - rewrite Hd, zlen_app. lia.
  - intros i Hi Hle. destruct (decide (i <= j)%nat) as [|Hn]; [assumption|exfalso].
    destruct Hp as [->|(e & more & He & E & Hm)].
    + rewrite app_nil_r in Hd. subst data. destruct (es !! j) as [e|] eqn:He; [|apply lookup_ge_None in He; lia].
      pose proof (segment_bytes_mono es (S j) i ltac:(lia)) as Hmono. rewrite (take_S_r _ _ _ He), segment_bytes_app, zlen_app in Hmono.
      change (segment_bytes [e]) with (frame e ++ []) in Hmono. rewrite app_nil_r, zlen_frame in Hmono. pose proof (zlen_nonneg (payload e)). lia.
    + pose proof (segment_bytes_mono es (S j) i ltac:(lia)) as Hmono. rewrite (take_S_r _ _ _ He), segment_bytes_app, zlen_app in Hmono.
      change (segment_bytes [e]) with (frame e ++ []) in Hmono. rewrite app_nil_r, E, zlen_app in Hmono. rewrite Hd, zlen_app in Hle.
      destruct more as [|x more]; [congruence|]. rewrite zlen_cons in Hmono. pose proof (zlen_nonneg more). lia.
Qed.

End Frames.

(** * The segment writer appends, or breaks for good *)

(** ** Files *)

Definition file_at (p : string) (s : store) (d : list Z) : Prop := exists e, disk (st_fs s) !! p = Some e /\ de_data e = d.

Lemma file_at_data p s d : file_at p s d -> file_data p s = d.
Proof. intros (e & E & H). unfold file_data. rewrite E. exact H. Qed.

Lemma file_at_fun p s d d' : file_at p s d -> file_at p s d' -> d = d'.
Proof. intros H H'. rewrite <- (file_at_data _ _ _ H). apply file_at_data. exact H'. Qed.

(** Only the file [p] changed, and it grew. *)
Record grows (p : string) (s s' : store) : Prop := {
  gr_other q : q <> p -> disk (st_fs s') !! q = disk (st_fs s) !! q;
  gr_data d : file_at p s d -> exists x, file_at p s' (d ++ x);
  gr_synced : st_synced s' = st_synced s }.

Lemma grows_refl p s : grows p s s.
Proof. split; auto. intros d H. exists []. rewrite app_nil_r. exact H. Qed.

Lemma grows_trans p s1 s2 s3 : grows p s1 s2 -> grows p s2 s3 -> grows p s1 s3.
Proof.
  intros [A1 B1 C1] [A2 B2 C2]. split; [intros q Hq; rewrite A2, A1 by exact Hq; reflexivity| |congruence].
  intros d H. destruct (B1 d H) as [x Hx]. destruct (B2 _ Hx) as [y Hy]. exists (x ++ y). rewrite app_assoc. exact Hy.
Qed.

(** A call that changes no file. *)
Lemma grows_same p s s' : disk (st_fs s') = disk (st_fs s) -> st_synced s' = st_synced s -> grows p s s'.
Proof. intros E E'. split; [rewrite E; auto| |exact E']. intros d (e & H & Hd). exists [], e. rewrite E, app_nil_r. auto. Qed.

Lemma tick_disk f : exists x f', tick f = (Ok x, f') /\ disk f' = disk f /\ now f' = now f.
Proof. unfold tick. destruct (faults f) as [|x r]; eauto 6. Qed.

Lemma take_zlen {A} (b : list A) : take (Z.to_nat (zlen b)) b = b.
Proof. unfold zlen. rewrite Nat2Z.id. apply take_ge. lia. Qed.

Lemma os_Write_spec p off b s e :
  disk (st_fs s) !! p = Some e -> off = zlen (de_data e) ->
  exists n ok s', sys (os_Write p off b) s = (Ok (n, ok), s') /\ 0 <= n <= zlen b /\ (ok = true -> n = zlen b)
    /\ file_at p s' (de_data e ++ take (Z.to_nat n) b)
    /\ (forall q, q <> p -> disk (st_fs s') !! q = disk (st_fs s) !! q) /\ st_synced s' = st_synced s.
Proof.
  intros E ->. destruct (tick_disk (st_fs s)) as (x & f & Ht & Hd & _). unfold sys, os_Write, bind. rewrite Ht.
  assert (forall b', file_at p (set_fs (put_data p (zlen (de_data e)) b' f) s) (de_data e ++ b')
     /\ forall q, q <> p -> disk (put_data p (zlen (de_data e)) b' f) !! q = disk (st_fs s) !! q) as Hput.
  { intros b'. unfold put_data. rewrite Hd, E. split.
    - exists (mkDirent false (splice (de_data e) (zlen (de_data e)) b') (now f)). split; [apply lookup_insert_eq|]. cbn. apply splice_end.
    - intros q Hq. cbn. apply lookup_insert_ne. congruence. }
  destruct x as [|k]; eexists _, _, _; (split; [reflexivity|]).
  - pose proof (zlen_nonneg b). split; [lia|]. split; [auto|]. rewrite take_zlen. split; [apply Hput|]. split; [apply Hput|reflexivity].
  - assert (zlen (take k b) <= zlen b) by (unfold zlen; rewrite length_take; lia). pose proof (zlen_nonneg (take k b)).
    split; [lia|]. split; [discriminate|]. assert (take (Z.to_nat (zlen (take k b))) b = take k b) as ->.
    { unfold zlen. rewrite Nat2Z.id, length_take. destruct (decide (k <= length b)%nat); [rewrite Nat.min_l by lia; reflexivity|]. rewrite Nat.min_r by lia. rewrite !take_ge by lia. reflexivity. }
    split; [apply Hput|]. split; [apply Hput|reflexivity].
Qed.

(** ** The writer and the bytes it was given *)

(** Nothing has gone wrong: the file is open and no write has failed. *)
Definition healthy (w : WALSegmentWriter) : bool := sw_open w && negb (sw_err w).

(** [T] is all that was written to the writer: the file holds some of it, and while
    nothing has gone wrong the buffer holds the rest. *)
Definition sw_inv (T : list Z) (s : store) (w : WALSegmentWriter) : Prop :=
  exists d, file_at (sw_path w) s d /\ d `prefix_of` T
    /\ (healthy w = true -> d ++ sw_buf w = T /\ sw_off w = zlen d).

(** How a method takes [(s, w)] to [(s', w')]. *)
Definition sw_step (T' : list Z) (s : store) (w : WALSegmentWriter) (s' : store) (w' : WALSegmentWriter) : Prop :=
  sw_inv T' s' w' /\ grows (sw_path w) s s' /\ sw_path w' = sw_path w /\ sw_size w' = sw_size w /\ (healthy w' = true -> healthy w = true).

Lemma sw_step_refl T s w : sw_inv T s w -> sw_step T s w s w.
Proof. intros H. split; [exact H|]. split; [apply grows_refl|auto]. Qed.

Lemma sw_step_trans T s w s1 w1 T' s2 w2 : sw_step T s w s1 w1 -> sw_step T' s1 w1 s2 w2 -> sw_step T' s w s2 w2.
Proof.
  intros (_ & G & P & Z & H) (I' & G' & P' & Z' & H'). rewrite P in G'. split; [exact I'|]. split; [eapply grows_trans; eassumption|].
  split; [congruence|]. split; [congruence|auto].
Qed.

(** Once something is wrong, what is written later does not matter. *)
Lemma sw_inv_broken T T' s w : sw_inv T s w -> healthy w = false -> T `prefix_of` T' -> sw_inv T' s w.
Proof. intros (d & F & P & _) Hh HT. exists d. split; [exact F|]. split; [etrans; eassumption|congruence]. Qed.

Lemma healthy_err w : healthy (set_err w) = false.
Proof. apply andb_false_r. Qed.

Lemma healthy_true w : healthy w = true -> sw_open w = true /\ sw_err w = false.
Proof. unfold healthy. destruct (sw_open w), (sw_err w); cbn; auto; discriminate. Qed.

Lemma wp_sw_get Q (s : store) w : Q (Ok w) (s, w) -> wp sw_get Q (s, w).
Proof. exact id. Qed.
Lemma wp_sw_mod f Q (s : store) w : Q (Ok tt) (s, f w) -> wp (sw_mod f) Q (s, w).
Proof. exact id. Qed.
Lemma wp_on_store {A} (m : M store wal_error A) Q s w : wp m (fun r s' => Q r (s', w)) s -> wp (on_store m) Q (s, w).
Proof. unfold wp, on_store. cbn. destruct (m s). exact id. Qed.

(** One step into a sequence. *)
Ltac step := apply wp_bind; first [apply wp_sw_get | apply wp_sw_mod | apply wp_get | apply wp_modify]; cbn [seq_post].

Lemma file_Write_spec b s w d :
  file_at (sw_path w) s d -> (sw_open w = true -> sw_off w = zlen d) ->
  wp (file_Write b) (fun r x => exists n ok, r = Ok (n, ok) /\ 0 <= n <= zlen b /\ (ok = true -> sw_open w = true /\ n = zlen b) /\ (sw_open w = false -> n = 0)
    /\ x.2 = (if sw_open w then set_off (zlen d + n) w else w) /\ file_at (sw_path w) x.1 (d ++ take (Z.to_nat n) b) /\ grows (sw_path w) s x.1) (s, w).
Proof.
  intros F Hoff. unfold file_Write. step. destruct (sw_open w) eqn:Eo.
  - destruct F as (e & E & Hd). specialize (Hoff eq_refl).
    destruct (os_Write_spec (sw_path w) (sw_off w) b s e E ltac:(congruence)) as (n & ok & s' & Ew & Hn & Hok & F' & Ho & Hs).
    apply wp_bind, wp_on_store. unfold wp at 1. rewrite Ew. cbn [seq_post fst snd]. step. apply wp_ret.
    exists n, ok. split; [reflexivity|]. split; [exact Hn|]. split; [auto|]. split; [discriminate|]. split; [cbn; congruence|]. subst d. split; [exact F'|]. split; [exact Ho| |exact Hs].
    intros d' F1. rewrite (file_at_fun _ _ _ (de_data e) F1) by (exists e; auto). eauto.
  - apply wp_ret. exists 0, false. pose proof (zlen_nonneg b). split; [reflexivity|]. split; [lia|]. split; [discriminate|]. split; [reflexivity|]. split; [reflexivity|].
    split; [rewrite take_0, app_nil_r; exact F|apply grows_refl].
Qed.

(** ** The buffered writer *)

Lemma bw_Flush_spec T s w :
  sw_inv T s w ->
  wp bw_Flush (fun r x => sw_step T s w x.1 x.2 /\ r <> Panic /\ sw_open x.2 = sw_open w
    /\ match r with Ok _ => sw_err x.2 = false /\ sw_buf x.2 = [] /\ healthy x.2 = healthy w | _ => healthy x.2 = false end) (s, w).
Proof.
  intros I. pose proof I as (d & F & P & Hh). unfold bw_Flush. step.
  destruct (sw_err w) eqn:Ee.
  { apply wp_throw. cbn. split; [apply sw_step_refl; exact I|]. split; [discriminate|]. split; [reflexivity|]. unfold healthy. rewrite Ee. destruct (sw_open w); reflexivity. }
  destruct (Z.eqb_spec (zlen (sw_buf w)) 0) as [Hz|Hz].
  { apply wp_ret. cbn. split; [apply sw_step_refl; exact I|]. split; [discriminate|]. split; [reflexivity|]. split; [exact Ee|]. split; [|reflexivity].
    destruct (sw_buf w); [reflexivity|]. rewrite zlen_cons in Hz. pose proof (zlen_nonneg l). lia. }
  assert (healthy w = sw_open w) as Eh by (unfold healthy; rewrite Ee; destruct (sw_open w); reflexivity). rewrite Eh in Hh.
  apply wp_bind. eapply wp_mono; [apply (file_Write_spec (sw_buf w) s w d F); apply Hh|].
  intros r [s' w'] (n & ok & -> & Hn & Hok & H0 & Ew & F' & G). cbn [fst snd] in *. cbn [seq_post]. destruct ok.
  - destruct (Hok eq_refl) as [Eo ->]. rewrite Eo in *. destruct (Hh eq_refl) as [HT Ho]. apply wp_sw_mod. cbn [fst snd]. subst w'. rewrite take_zlen in F'.
    split; [|split; [discriminate|split; [exact Eo|split; [exact Ee|split; [reflexivity|unfold healthy; cbn; rewrite Ee, Eo; reflexivity]]]]].
    split; [|split; [exact G|split; [reflexivity|split; [reflexivity|intros _; exact Eh]]]].
    exists (d ++ sw_buf w). split; [exact F'|]. rewrite HT. split; [reflexivity|]. intros _. cbn. rewrite app_nil_r, <- HT, zlen_app. auto.
  - step. apply wp_throw. cbn [fst snd].
    assert (sw_path w' = sw_path w /\ sw_size w' = sw_size w /\ sw_open w' = sw_open w) as (Ep & Es & Eo) by (subst w'; destruct (sw_open w) eqn:Eo1; cbn; auto).
    split; [|split; [discriminate|split; [exact Eo|apply healthy_err]]].
    split; [|split; [exact G|split; [exact Ep|split; [exact Es|rewrite healthy_err; discriminate]]]].
    exists (d ++ take (Z.to_nat n) (sw_buf w)). cbn [set_err set_buf sw_path]. rewrite Ep. split; [exact F'|]. split; [|rewrite healthy_err; discriminate].
    destruct (sw_open w) eqn:Eo'; [|].
    + destruct (Hh eq_refl) as [<- _]. apply prefix_app. apply prefix_take.
    + rewrite (H0 eq_refl), take_0, app_nil_r. exact P.
Qed.

(** Putting bytes behind those of the buffer. *)
Lemma set_buf_step T p s w : sw_inv T s w -> sw_step (T ++ p) s w s (set_buf (sw_buf w ++ p) w).
Proof.
  intros (d & F & P & Hh). split; [|split; [apply grows_refl|auto]]. exists d. split; [exact F|]. split; [apply prefix_app_r; exact P|].
  intros H. destruct (Hh H) as [<- Ho]. cbn. rewrite app_assoc. auto.
Qed.

Lemma bw_direct_spec T p s w :
  sw_inv T s w -> sw_buf w = [] -> sw_err w = false ->
  wp (bw_direct p) (fun r x => sw_step (T ++ p) s w x.1 x.2 /\ r <> Panic /\ match r with Ok _ => True | _ => healthy x.2 = false end) (s, w).
Proof.
  intros (d & F & P & Hh) Hb Ee. unfold bw_direct.
  assert (healthy w = sw_open w) as Eh by (unfold healthy; rewrite Ee; destruct (sw_open w); reflexivity). rewrite Eh, Hb, app_nil_r in Hh.
  apply wp_bind. eapply wp_mono; [apply (file_Write_spec p s w d F); apply Hh|].
  intros r [s' w'] (n & ok & -> & Hn & Hok & H0 & Ew & F' & G). cbn [fst snd seq_post] in *.
  assert (sw_path w' = sw_path w /\ sw_size w' = sw_size w) as (Ep & Es) by (subst w'; destruct (sw_open w) eqn:Eo1; cbn; auto).
  assert (d ++ take (Z.to_nat n) p `prefix_of` T ++ p) as Hpre.
  { destruct (sw_open w); [destruct (Hh eq_refl) as [<- _]; apply prefix_app, prefix_take|].
    rewrite (H0 eq_refl), take_0, app_nil_r. apply prefix_app_r. exact P. }
  destruct ok.
  - destruct (Hok eq_refl) as [Eo ->]. rewrite Eo in *. destruct (Hh eq_refl) as [-> Ho]. rewrite take_zlen in *. apply wp_ret. split; [|auto]. cbn [fst snd].
    split; [|split; [exact G|split; [exact Ep|split; [exact Es|auto]]]]. exists (T ++ p). rewrite Ep. split; [exact F'|]. split; [reflexivity|]. intros _. subst w'. cbn. rewrite Hb, app_nil_r, zlen_app. auto.
  - step. apply wp_throw. cbn [fst snd]. split; [|split; [discriminate|apply healthy_err]].
    split; [|split; [exact G|split; [exact Ep|split; [exact Es|rewrite healthy_err; discriminate]]]].
    exists (d ++ take (Z.to_nat n) p). cbn [set_err sw_path]. rewrite Ep. split; [exact F'|]. split; [exact Hpre|rewrite healthy_err; discriminate].
Qed.

Lemma healthy_err_false w : sw_err w = true -> healthy w = false.
Proof. intros H. unfold healthy. rewrite H. apply andb_false_r. Qed.

Lemma bw_Write_spec T p s w :
  sw_inv T s w ->
  wp (bw_Write p) (fun r x => sw_step (T ++ p) s w x.1 x.2 /\ r <> Panic /\ match r with Ok _ => True | _ => healthy x.2 = false end) (s, w).
Proof.
  intros I. unfold bw_Write. step. destruct (sw_err w) eqn:Ee.
  { apply wp_throw. pose proof (healthy_err_false w Ee) as Hf. split; [|auto]. split; [|split; [apply grows_refl|auto]].
    eapply sw_inv_broken; [exact I|exact Hf|]. apply prefix_app_r. reflexivity. }
  destruct (zlen p <=? bufSize - zlen (sw_buf w)). { apply wp_sw_mod. split; [apply set_buf_step; exact I|auto]. }
  destruct (Z.eqb_spec (zlen (sw_buf w)) 0) as [Hz|_].
  { apply bw_direct_spec; [exact I| |exact Ee]. destruct (sw_buf w) as [|? l]; [reflexivity|]. rewrite zlen_cons in Hz. pose proof (zlen_nonneg l). lia. }
  set (n := Z.to_nat (bufSize - zlen (sw_buf w))). step. pose proof (set_buf_step T (take n p) s w I) as St. set (w1 := set_buf _ w) in *.
  apply wp_bind. eapply wp_mono; [apply (bw_Flush_spec (T ++ take n p)); apply St|]. intros r [s2 w2] (St2 & Hnp & Ho & Hr). cbn [fst snd] in *.
  pose proof (sw_step_trans _ _ _ _ _ _ _ _ St St2) as St'. destruct r as [[]|e|]; cbn [seq_post]; [|split; [|auto]|congruence].
  - destruct Hr as (Ee2 & Eb2 & _). destruct St2 as (I2 & _). replace (T ++ p) with ((T ++ take n p) ++ drop n p) by (rewrite <- app_assoc, take_drop; reflexivity).
    destruct (zlen (drop n p) <=? bufSize).
    + apply wp_sw_mod. split; [|auto]. eapply sw_step_trans; [exact St'|]. cbn [fst snd].
      pose proof (set_buf_step _ (drop n p) _ _ I2) as H. rewrite Eb2 in H. exact H.
    + eapply wp_mono; [apply (bw_direct_spec _ _ _ _ I2 Eb2 Ee2)|]. intros r [s3 w3] (St3 & Hr). split; [eapply sw_step_trans; eassumption|exact Hr].
  - destruct St' as (I' & H'). split; [|exact H']. eapply sw_inv_broken; [exact I'|exact Hr|]. rewrite <- (take_drop n p) at 2. rewrite app_assoc. apply prefix_app_r. reflexivity.
Qed.

(** ** The segment writer *)

(** As [sw_step], without the size. *)
Definition seg_step (T' : list Z) (s : store) (w : WALSegmentWriter) (s' : store) (w' : WALSegmentWriter) : Prop :=
  sw_inv T' s' w' /\ grows (sw_path w) s s' /\ sw_path w' = sw_path w /\ (healthy w' = true -> healthy w = true).

Lemma sw_Write_spec T typ c s w :
  sw_inv T s w ->
  wp (sw_Write typ c) (fun r x => seg_step (T ++ ([typ] ++ be32 (u32 (zlen c))) ++ c) s w x.1 x.2 /\ r <> Panic
    /\ match r with Ok _ => True | _ => healthy x.2 = false end) (s, w).
Proof.
  intros I. unfold sw_Write. set (h := [typ] ++ be32 (u32 (zlen c))). apply wp_bind. eapply wp_mono; [apply (bw_Write_spec T h); exact I|].
  intros r [s1 w1] (St & Hnp & Hr). cbn [fst snd] in *. destruct St as (I1 & G1 & P1 & _ & H1). destruct r as [[]|e|]; cbn [seq_post]; [| |congruence].
  - apply wp_bind. eapply wp_mono; [apply (bw_Write_spec (T ++ h) c); exact I1|]. intros r [s2 w2] (St2 & Hnp2 & Hr2). cbn [fst snd] in *.
    destruct St2 as (I2 & G2 & P2 & _ & H2). rewrite P1 in G2. rewrite <- app_assoc in I2. pose proof (grows_trans _ _ _ _ G1 G2) as G. destruct r as [[]|e|]; cbn [seq_post]; [| |congruence].
    + apply wp_sw_mod. split; [|auto]. split; [exact I2|]. split; [exact G|]. split; [cbn; congruence|]. intros Hh. apply H1, H2. exact Hh.
    + split; [|auto]. split; [exact I2|]. split; [exact G|]. split; [cbn; congruence|auto].
  - split; [|auto]. split; [|auto]. eapply sw_inv_broken; [exact I1|exact Hr|]. rewrite app_assoc. apply prefix_app_r. reflexivity.
Qed.

Lemma syscall_disk (s : store) :
  exists r s', sys (syscall (ret tt)) s = (r, s') /\ r <> Panic /\ disk (st_fs s') = disk (st_fs s) /\ st_synced s' = st_synced s.
Proof.
  destruct (tick_disk (st_fs s)) as (x & f & Ht & Hd & _). unfold sys, syscall, bind. rewrite Ht. destruct x; eexists _, _; (split; [reflexivity|split; [discriminate|auto]]).
Qed.

(** After a successful sync all that was written is in the file, and safe. *)
Lemma sw_sync_spec T s w :
  sw_inv T s w ->
  wp sw_sync (fun r x => sw_inv T x.1 x.2 /\ sw_path x.2 = sw_path w /\ sw_open x.2 = sw_open w /\ r <> Panic /\ (healthy x.2 = true -> healthy w = true)
    /\ exists s1, grows (sw_path w) s s1 /\ disk (st_fs x.1) = disk (st_fs s1)
    /\ match r with
       | Ok _ => healthy x.2 = true /\ file_at (sw_path w) x.1 T /\ st_synced x.1 = <[sw_path w := length T]> (st_synced s1)
       | _ => st_synced x.1 = st_synced s1
       end) (s, w).
Proof.
  intros I. unfold sw_sync. apply wp_bind. eapply wp_mono; [apply (bw_Flush_spec T); exact I|].
  intros r [s1 w1] (St & Hnp & Ho & Hr). cbn [fst snd] in *. destruct St as (I1 & G & P & _ & H1). destruct r as [[]|e|]; cbn [seq_post]; [| |congruence].
  - step. destruct Hr as (Ee & Eb & Eh). destruct (sw_open w1) eqn:Eo.
    + assert (healthy w1 = true) as Hw1 by (unfold healthy; rewrite Eo, Ee; reflexivity). pose proof I1 as (d & F & _ & Hd). destruct (Hd Hw1) as [HT Hoff]. rewrite Eb, app_nil_r in HT. subst d.
      apply wp_on_store. unfold os_Sync. apply wp_bind. destruct (syscall_disk s1) as (r & s2 & E & Hr & Hdk & Hs). unfold wp at 1. rewrite E.
      assert (forall y, sw_inv T (mkSt (st_fs s2) y) w1) as I2.
      { intros y. exists T. destruct F as (e & He & Hd'). split; [exists e; cbn; rewrite Hdk; auto|]. split; [reflexivity|]. intros _. rewrite Eb, app_nil_r. auto. }
      destruct r as [[]|e|]; cbn [seq_post]; [| |congruence].
      * apply wp_modify. cbn. split; [apply I2|]. split; [exact P|]. split; [congruence|]. split; [discriminate|]. split; [auto|]. exists s1. split; [exact G|]. split; [exact Hdk|].
        assert (file_at (sw_path w1) s2 T) as F2 by (destruct F as (e & He & Hd'); exists e; rewrite Hdk; auto).
        split; [exact Hw1|]. rewrite (file_at_data _ _ _ F2), P, Hs. rewrite P in F2. auto.
      * cbn. split; [|split; [exact P|split; [congruence|split; [discriminate|split; [auto|exists s1; auto]]]]]. specialize (I2 (st_synced s2)). destruct s2. exact I2.
    + apply wp_throw. cbn. split; [exact I1|]. split; [exact P|]. split; [congruence|]. split; [discriminate|]. split; [auto|]. exists s1. auto.
  - cbn. split; [exact I1|]. split; [exact P|]. split; [exact Ho|]. split; [discriminate|]. split; [auto|]. exists s1. auto.
Qed.

(** Whatever [close] reports, the writer is done. *)
Lemma sw_close_spec T s w :
  sw_inv T s w ->
  wp sw_close (fun r x => seg_step T s w x.1 x.2 /\ r <> Panic /\ healthy x.2 = false) (s, w).
Proof.
  intros I. unfold sw_close. apply wp_bind. eapply wp_mono; [apply (bw_Flush_spec T); exact I|].
  intros r [s1 w1] (St & Hnp & Ho & Hr). cbn [fst snd] in *. destruct St as (I1 & G & P & _ & H1). destruct r as [[]|e|]; cbn [seq_post]; [| |congruence].
  - step. destruct (sw_open w1) eqn:Eo.
    + step. apply wp_on_store. destruct (syscall_disk s1) as (r & s2 & E & Hr' & Hdk & Hs). unfold wp. rewrite E. split; [|split; [destruct r; congruence|reflexivity]].
      destruct I1 as (d & (e' & He & Hd') & Hp & _). cbn [fst snd]. split; [|split; [eapply grows_trans; [exact G|apply grows_same; assumption]|split; [exact P|discriminate]]].
      exists d. split; [exists e'; cbn; rewrite Hdk; auto|]. split; [exact Hp|discriminate].
    + apply wp_throw. assert (healthy w1 = false) as Hf by (unfold healthy; rewrite Eo; reflexivity). split; [|auto]. split; [exact I1|auto].
  - split; [|auto]. split; [exact I1|auto].
Qed.
