(* ===== verification/WALFacts.v ===== *)
(** * Runs of the write-ahead log

    The operations in any order, system calls failing at any point, crashes
    that lose what was not fsynced, restarts; and the history a client
    observes: calls, the segment each accepted call was placed in, and the calls told that
    their entry is on disk. *)

From S2P Require Import Prelude OSFile Bytes StringCodec WALEntry WALSegment WALSegmentFacts WAL.

Definition synced_len (p : string) (s : store) : nat := default 0%nat (st_synced s !! p).

(** ** Crashes *)

(** Of a file [p] at least what was fsynced is left, and at most [cut p]
    bytes if that is more.  Every file stays in the directory: that an entry of the
    directory made by [newSegmentFile], which does not fsync the directory, survives
    is an assumption on the file system. *)
Definition crash (cut : string -> nat) (s : store) : store :=
  let left p e := take (Nat.max (synced_len p s) (cut p)) (de_data e) in
  mkSt (mkFs (map_imap (fun p e => Some (mkDirent (de_dir e) (left p e) (de_mtime e))) (disk (st_fs s))) (faults (st_fs s)) (now (st_fs s)))
       (map_imap (fun p e => Some (length (left p e))) (disk (st_fs s))).

(** ** Histories *)

Record hist := mkH {
  h_issued : list (nat * WALEntry);   (* the calls of [writeToLog], in order *)
  h_placed : list (nat * Z);          (* accepted calls and the segment returned, while it has not been removed *)
  h_acked : list nat                  (* calls answered without an error *)
}.

Inductive wop :=
| OAppend (call : nat) (e : WALEntry)
| OTick
| OCloseSegment
| OClose
| ORemove (files : list string)
| OCrash (cut : string -> nat).

Section Runs.
Context `{SN : Snappy} {SL : SnappyLaws}.

(** Hand the answers out. *)
Definition collect (x : WAL * hist) : WAL * hist :=
  (set_w_answers [] x.1, mkH (h_issued x.2) (h_placed x.2) (h_acked x.2 ++ omap (fun a => match a.2 with None => Some a.1 | Some _ => None end) (w_answers x.1))).

Definition exec_op (op : wop) (w : WAL) (h : hist) : res wal_error unit * (WAL * hist) :=
  let plain (m : WM unit) := let '(r, w') := m w in (r, (w', h)) in
  match op with
  | OAppend c e =>
      let '(r, w') := writeToLog c e w in
      (match r with Ok _ => Ok tt | Err e => Err e | Panic => Panic end,
       (w', mkH (h_issued h ++ [(c, e)]) (match r with Ok id => h_placed h ++ [(c, id)] | _ => h_placed h end) (h_acked h)))
  | OTick => plain sync_tick
  | OCloseSegment => plain CloseSegment
  | OClose => plain WAL_Close
  | ORemove files =>
      let '(r, w') := WAL_Remove files w in
      (r, (w', mkH (h_issued h) (List.filter (fun x => negb (bool_decide (segment_name x.2 ∈ files))) (h_placed h)) (h_acked h)))
  | OCrash cut => let '(r, w') := WAL_Open true (NewWAL (crash cut (w_store w))) in (r, (w', h))
  end.

(** A crash loses no answers: those sent were collected. *)
Definition run_op (op : wop) (x : WAL * hist) : WAL * hist := collect (exec_op op x.1 x.2).2.

Definition run (ops : list wop) (x : WAL * hist) : WAL * hist := fold_left (fun x op => run_op op x) ops x.

(** Entries the format can hold, under fresh call numbers; the segment in use is not
    removed; after a crash the log is used only if it opens; and fewer than
    100000 segments, beyond which names are not in order. *)
Definition op_ok (op : wop) (x : WAL * hist) : Prop :=
  match op with
  | OAppend c e => frame_ok e /\ c ∉ (h_issued x.2).*1
  | ORemove files => match w_writer x.1 with Some sw => sw_path sw ∉ files | None => True end
  | OCrash cut => (exec_op op x.1 x.2).1 = Ok tt
  | _ => True
  end /\ w_id (run_op op x).1 < 100000.

Fixpoint run_ok (ops : list wop) (x : WAL * hist) : Prop :=
  match ops with
  | [] => True
  | op :: ops' => op_ok op x /\ run_ok ops' (run_op op x)
  end.

(** ** The invariant *)

Abbreviation segments := (list (Z * list (nat * WALEntry))).

Definition seg_bytes (l : list (nat * WALEntry)) : list Z := segment_bytes l.*2.

(** [segs]: for every segment file, in order, the calls whose frame was
    written to it.  [wid] is the id of the segment the writer is for. *)
Record files_ok (s : store) (segs : segments) : Prop := {
  fo_sorted : StronglySorted Z.lt segs.*1;
  fo_pos : Forall (fun id => 0 < id < 100000) segs.*1;
  fo_dom : dom (disk (st_fs s)) = list_to_set (map segment_name segs.*1);
  fo_data id l : (id, l) ∈ segs -> exists d, file_at (segment_name id) s d /\ d `prefix_of` seg_bytes l /\ (synced_len (segment_name id) s <= length d)%nat;
  fo_synced p : disk (st_fs s) !! p = None -> st_synced s !! p = None }.

Record hist_ok (h : hist) (segs : segments) : Prop := {
  ho_sub : concat segs.*2 `sublist_of` h_issued h;
  ho_frames : Forall (fun x => frame_ok x.2) (h_issued h);
  ho_nodup : NoDup (h_issued h).*1;
  ho_placed c id : (c, id) ∈ h_placed h -> c ∈ (h_issued h).*1 }.

(** The frame of call [c] is in what has been fsynced. *)
Definition safe (s : store) (segs : segments) (c : nat) (e : WALEntry) (id : Z) : Prop :=
  exists l j, (id, l) ∈ segs /\ l !! j = Some (c, e) /\ zlen (seg_bytes (take (S j) l)) <= Z.of_nat (synced_len (segment_name id) s).

Definition writer_ok (wid : Z) (s : store) (waiters : list nat) (h : hist) (segs : segments) (sw : WALSegmentWriter) : Prop :=
  exists segs' id l, segs = segs' ++ [(id, l)] /\ sw_path sw = segment_name id /\ sw_inv (seg_bytes l) s sw
    /\ (healthy sw = true -> id = wid /\ forall c, c ∈ waiters -> c ∈ l.*1 /\ forall id', (c, id') ∈ h_placed h -> id' = wid).

Record linv (wid : Z) (w : WAL) (h : hist) (segs : segments) : Prop := {
  li_files : files_ok (w_store w) segs;
  li_hist : hist_ok h segs;
  li_id : Forall (fun id => id <= w_id w) segs.*1 /\ 0 <= w_id w;
  li_acked c e id : (c, e) ∈ h_issued h -> (c, id) ∈ h_placed h -> c ∈ h_acked h \/ (c, None) ∈ w_answers w -> safe (w_store w) segs c e id;
  li_writer : match w_writer w with
              | None => w_waiters w = []
              | Some sw => writer_ok wid (w_store w) (w_waiters w) h segs sw
              end;
  li_known c : c ∈ h_acked h \/ c ∈ (w_answers w).*1 \/ c ∈ w_waiters w -> c ∈ (h_issued h).*1 }.

(** ** Files *)

Lemma seg_id_in (segs : segments) id l : (id, l) ∈ segs -> id ∈ segs.*1.
Proof. intros H. exact (list_elem_of_fmap_2 fst segs (id, l) H). Qed.

Lemma names_inj ids i j : Forall (fun id => 0 < id < 100000) ids -> i ∈ ids -> j ∈ ids -> segment_name i = segment_name j -> i = j.
Proof. intros H Hi Hj. rewrite Forall_forall in H. pose proof (H i Hi). pose proof (H j Hj). apply segment_name_inj; lia. Qed.

Lemma last_names (segs' : segments) id l s :
  files_ok s (segs' ++ [(id, l)]) -> forall id' l', (id', l') ∈ segs' -> id' < id /\ segment_name id' <> segment_name id.
Proof.
  intros F id' l' H. pose proof (fo_sorted _ _ F) as Hs. rewrite fmap_app in Hs.
  assert (id' < id) as Hlt by (eapply StronglySorted_app_1_elem_of; [exact Hs|eapply seg_id_in; exact H|left]). split; [exact Hlt|]. intros E.
  enough (id' = id) by lia. eapply names_inj; [apply (fo_pos _ _ F)| | |exact E]; rewrite fmap_app; apply elem_of_app; [left; eapply seg_id_in; exact H|right; left].
Qed.

(** The same files, with what is fsynced. *)
Lemma files_ok_same s s' segs : disk (st_fs s') = disk (st_fs s) -> st_synced s' = st_synced s -> files_ok s segs -> files_ok s' segs.
Proof.
  intros E E' [A B C D F]. split; [exact A|exact B|congruence| |rewrite E, E'; exact F].
  intros id l H. destruct (D id l H) as (d & Hd). exists d. unfold file_at, synced_len in *. rewrite E, E'. exact Hd.
Qed.

(** The last segment is written to. *)
Lemma files_ok_last s s' segs' id l l' sw :
  files_ok s (segs' ++ [(id, l)]) -> sw_path sw = segment_name id -> sw_inv (seg_bytes (l ++ l')) s' sw -> grows (segment_name id) s s' ->
  files_ok s' (segs' ++ [(id, l ++ l')]).
Proof.
  intros F Hp (d & Fd & Pd & _) [Go Gd Gs]. rewrite Hp in Fd. destruct (fo_data _ _ F id l ltac:(apply elem_of_app; right; left)) as (d0 & Fd0 & _ & Hs0).
  split.
  - pose proof (fo_sorted _ _ F) as H. rewrite !fmap_app in *. exact H.
  - pose proof (fo_pos _ _ F) as H. rewrite !fmap_app in *. exact H.
  - transitivity (dom (disk (st_fs s))); [|rewrite (fo_dom _ _ F), !fmap_app; reflexivity]. apply set_eq. intros q. rewrite !elem_of_dom.
    destruct (decide (q = segment_name id)) as [->|Hq]; [|rewrite Go by exact Hq; reflexivity].
    destruct Fd as (e & E & _), Fd0 as (e0 & E0 & _). rewrite E, E0. split; eauto.
  - intros id1 l1 H. apply elem_of_app in H as [H|H].
    + destruct (fo_data _ _ F id1 l1 ltac:(apply elem_of_app; left; exact H)) as (d1 & (e & E & Hd) & Hr). exists d1. split; [exists e; rewrite Go; [auto|apply (last_names _ _ _ _ F _ _ H)]|].
      unfold synced_len in *. rewrite Gs. exact Hr.
    + apply list_elem_of_singleton in H. injection H as -> ->. exists d. split; [exact Fd|]. split; [exact Pd|]. destruct (Gd d0 Fd0) as (x & Fx). rewrite (file_at_fun _ _ _ _ Fd Fx), length_app.
      unfold synced_len in *. rewrite Gs. lia.
  - intros p Hn. rewrite Gs. apply (fo_synced _ _ F). destruct (decide (p = segment_name id)) as [->|Hq]; [|rewrite Go in Hn by exact Hq; exact Hn].
    destruct Fd as (e & E & _). congruence.
Qed.

(** All of a file is fsynced. *)
Lemma files_ok_sync s s' segs id l T :
  files_ok s segs -> (id, l) ∈ segs -> disk (st_fs s') = disk (st_fs s) -> file_at (segment_name id) s T -> st_synced s' = <[segment_name id := length T]> (st_synced s) -> files_ok s' segs.
Proof.
  intros [A B C D F] Hin E FT Es. split; [exact A|exact B|congruence| |].
  - intros id1 l1 H. destruct (D id1 l1 H) as (d & Fd & Pd & Hs). exists d. unfold file_at, synced_len in *. rewrite E, Es. split; [exact Fd|]. split; [exact Pd|].
    destruct (decide (segment_name id1 = segment_name id)) as [En|En]; [rewrite En, lookup_insert_eq|rewrite lookup_insert_ne by congruence; exact Hs].
    rewrite En in Fd. rewrite (file_at_fun _ _ _ _ Fd FT). reflexivity.
  - intros p. rewrite E. intros Hn. rewrite Es, lookup_insert_ne; [apply F; exact Hn|]. intros <-. destruct FT as (e & Ee & _). congruence.
Qed.

(** ** What is safe stays safe *)

Definition extends (segs segs' : segments) : Prop := forall id l, (id, l) ∈ segs -> exists l', (id, l ++ l') ∈ segs'.

Lemma extends_refl segs : extends segs segs.
Proof. intros id l H. exists []. rewrite app_nil_r. exact H. Qed.

Lemma safe_mono s s' segs segs' c e id :
  safe s segs c e id -> extends segs segs' -> (synced_len (segment_name id) s <= synced_len (segment_name id) s')%nat -> safe s' segs' c e id.
Proof.
  intros (l & j & Hin & Hj & Hs) He Hle. destruct (He _ _ Hin) as (l' & Hin'). exists (l ++ l'), j. split; [exact Hin'|]. split; [apply lookup_app_l_Some; exact Hj|].
  rewrite take_app_le by (apply lookup_lt_Some in Hj; lia). lia.
Qed.

Lemma issued_fun h segs c e e' : hist_ok h segs -> (c, e) ∈ h_issued h -> (c, e') ∈ h_issued h -> e = e'.
Proof.
  intros H H1 H2. pose proof (ho_nodup _ _ H) as Hn. apply list_elem_of_lookup in H1 as [i H1], H2 as [j H2].
  assert (i = j) as <-; [|congruence]. eapply NoDup_lookup; [exact Hn| |]; rewrite list_lookup_fmap; [rewrite H1|rewrite H2]; reflexivity.
Qed.

Lemma seg_issued h (segs : segments) id l x : hist_ok h segs -> (id, l) ∈ segs -> x ∈ l -> x ∈ h_issued h.
Proof.
  intros H Hin Hx. eapply elem_of_sublist; [|exact (ho_sub _ _ H)]. apply list_elem_of_In, in_concat. exists l. split; [|apply list_elem_of_In; exact Hx].
  apply list_elem_of_In. exact (list_elem_of_fmap_2 snd segs (id, l) Hin).
Qed.

(** ** Fsync *)

Lemma wp_on_writer {A} (m : SM A) Q w sw :
  w_writer w = Some sw -> wp m (fun r x => Q r (set_w_writer (Some x.2) (set_w_store x.1 w))) (w_store w, sw) -> wp (on_writer m) Q w.
Proof. intros E. unfold wp, on_writer. rewrite E. destruct (m (w_store w, sw)) as [r [s' sw']]. exact id. Qed.

Lemma wp_on_w_store {A} (m : M store wal_error A) Q w : wp m (fun r s' => Q r (set_w_store s' w)) (w_store w) -> wp (on_w_store m) Q w.
Proof. unfold wp, on_w_store. destruct (m (w_store w)). exact id. Qed.

Lemma sw_inv_same T s s' w : disk (st_fs s') = disk (st_fs s) -> sw_inv T s w -> sw_inv T s' w.
Proof. intros E. unfold sw_inv, file_at. rewrite E. exact id. Qed.

Lemma seg_bytes_mono l i j : (i <= j)%nat -> zlen (seg_bytes (take i l)) <= zlen (seg_bytes (take j l)).
Proof. intros H. unfold seg_bytes. rewrite !fmap_take. apply segment_bytes_mono. exact H. Qed.

(** What the fields outside the files and the writer keep. *)
Definition kept (w w' : WAL) : Prop := w_id w' = w_id w /\ w_closing w' = w_closing w /\ w_once w' = w_once w.

Lemma synced_grows p s s' q : grows p s s' -> synced_len q s' = synced_len q s.
Proof. intros [_ _ H]. unfold synced_len. rewrite H. reflexivity. Qed.

(** The frame of a call in a segment that is all fsynced is safe. *)
Lemma safe_synced s segs id l c e : (id, l) ∈ segs -> (c, e) ∈ l -> zlen (seg_bytes l) <= Z.of_nat (synced_len (segment_name id) s) -> safe s segs c e id.
Proof.
  intros Hin Hc Hl. apply list_elem_of_lookup in Hc as [j Hj]. exists l, j. split; [exact Hin|]. split; [exact Hj|].
  pose proof (seg_bytes_mono l (S j) (length l) ltac:(apply lookup_lt_Some in Hj; lia)) as H. rewrite firstn_all in H. lia.
Qed.

Lemma wal_sync_spec wid w h segs sw :
  linv wid w h segs -> w_writer w = Some sw ->
  wp wal_sync (fun r w' => r = Ok tt /\ linv wid w' h segs /\ w_waiters w' = [] /\ kept w w' /\ exists sw', w_writer w' = Some sw') w.
Proof.
  intros L Ew. pose proof (li_writer _ _ _ _ L) as W. rewrite Ew in W. destruct W as (segs' & id & l & -> & Hp & I & Hh).
  unfold wal_sync. apply wp_catch. apply (wp_on_writer _ _ _ sw Ew). eapply wp_mono; [apply (sw_sync_spec (seg_bytes l)); exact I|].
  intros r [s2 sw2] (I2 & P2 & O2 & Hnp & Hh2 & s1 & G & Hdk & Hr). cbn [fst snd] in *. set (segs := segs' ++ [(id, l)]) in *.
  assert ((id, l) ∈ segs) as Hin by (apply elem_of_app; right; left).
  rewrite Hp in G, P2. pose proof (li_files _ _ _ _ L) as F.
  assert (files_ok s1 segs) as F1.
  { unfold segs. replace l with (l ++ []) by apply app_nil_r. eapply files_ok_last; [exact F|exact P2| |exact G]. rewrite app_nil_r. eapply sw_inv_same; [symmetry; exact Hdk|exact I2]. }
  assert (files_ok s2 segs /\ (forall q, synced_len q (w_store w) <= synced_len q s2)%nat
    /\ (r = Ok tt -> healthy sw = true /\ synced_len (segment_name id) s2 = length (seg_bytes l))) as (F2 & Hmono & Hok).
  { destruct r as [[]|e|]; [| |congruence].
    - destruct Hr as (Hh' & FT & Es). rewrite Hp in FT, Es. assert (file_at (segment_name id) s1 (seg_bytes l)) as FT1 by (unfold file_at in *; rewrite <- Hdk; exact FT).
      split; [eapply files_ok_sync; eassumption|]. assert (synced_len (segment_name id) s2 = length (seg_bytes l)) as Esl by (unfold synced_len; rewrite Es, lookup_insert_eq; reflexivity).
      split; [|auto]. intros q. destruct (decide (q = segment_name id)) as [->|Hq].
      + rewrite Esl, <- (synced_grows _ _ _ _ G). destruct (fo_data _ _ F1 id l Hin) as (d & Fd & Pd & Hd). rewrite (file_at_fun _ _ _ _ Fd FT1) in Hd. exact Hd.
      + rewrite <- (synced_grows _ _ _ q G). unfold synced_len. rewrite Es, lookup_insert_ne by congruence. reflexivity.
    - split; [eapply files_ok_same; [exact Hdk|exact Hr|exact F1]|]. split; [|discriminate]. intros q. rewrite <- (synced_grows _ _ _ q G). unfold synced_len. rewrite Hr. reflexivity. }
  assert (forall err, (err = None -> r = Ok tt) -> linv wid (set_w_waiters [] (set_w_answers (w_answers w ++ map (fun c => (c, err)) (w_waiters w)) (set_w_writer (Some sw2) (set_w_store s2 w)))) h segs) as Hfin.
  { intros err He. split; [exact F2|exact (li_hist _ _ _ _ L)|exact (li_id _ _ _ _ L)| | |].
    - intros c e id' Hi Hpl Ha. cbn [w_answers w_store set_w_waiters set_w_answers set_w_writer set_w_store] in *. rewrite elem_of_app in Ha. destruct Ha as [Ha|[Ha|Ha]].
      1,2: eapply safe_mono; [exact (li_acked _ _ _ _ L c e id' Hi Hpl ltac:(auto))|apply extends_refl|apply Hmono].
      apply list_elem_of_fmap in Ha as (c' & E & Hc). injection E as <- <-. destruct (Hok (He eq_refl)) as [Hhl Esl]. destruct (Hh Hhl) as [-> Hw]. destruct (Hw c Hc) as [Hcl Hid].
      rewrite (Hid id' Hpl). apply list_elem_of_fmap in Hcl as ([c' e'] & E & Hcl). cbn in E. subst c'.
      rewrite (issued_fun h _ c e e' (li_hist _ _ _ _ L) Hi (seg_issued h _ _ _ _ (li_hist _ _ _ _ L) Hin Hcl)). eapply safe_synced; [exact Hin|exact Hcl|]. rewrite Esl. unfold zlen. lia.
    - cbn. exists segs', id, l. split; [reflexivity|]. split; [exact P2|]. split; [exact I2|]. intros Hx. destruct (Hh (Hh2 Hx)) as [-> _]. split; [reflexivity|]. intros c Hc. apply elem_of_nil in Hc as [].
    - cbn [set_w_waiters set_w_answers set_w_writer set_w_store w_answers w_waiters]. intros c Hc. apply (li_known _ _ _ _ L). rewrite fmap_app, elem_of_app in Hc.
      destruct Hc as [Hc|[[Hc|Hc]|Hc]]; [auto|auto| |apply elem_of_nil in Hc as []]. right. right. apply list_elem_of_fmap in Hc as (a & -> & Ha). apply list_elem_of_fmap in Ha as (c' & -> & Ha). exact Ha. }
  destruct r as [[]|e|]; [| |congruence]; apply wp_modify; (split; [reflexivity|]; split; [apply Hfin; congruence|]; split; [reflexivity|]; split; [repeat split|eexists; reflexivity]).
Qed.

(** ** Segments *)

(** Nothing the invariant speaks of changed. *)
Definition same_log (w w' : WAL) : Prop :=
  disk (st_fs (w_store w')) = disk (st_fs (w_store w)) /\ st_synced (w_store w') = st_synced (w_store w)
  /\ w_id w' = w_id w /\ w_writer w' = w_writer w /\ w_waiters w' = w_waiters w /\ w_answers w' = w_answers w.

Lemma writer_ok_same wid s s' ws h segs sw : disk (st_fs s') = disk (st_fs s) -> writer_ok wid s ws h segs sw -> writer_ok wid s' ws h segs sw.
Proof. intros E (segs' & id & l & A & B & C & D). exists segs', id, l. split; [exact A|]. split; [exact B|]. split; [eapply sw_inv_same; eassumption|exact D]. Qed.

Lemma linv_same wid w w' h segs : same_log w w' -> linv wid w h segs -> linv wid w' h segs.
Proof.
  intros (E1 & E2 & E3 & E4 & E5 & E6) [A B C D F K]. split; [eapply files_ok_same; eassumption|exact B|rewrite E3; exact C| | |rewrite E5, E6; exact K].
  - rewrite E6. intros c e id H1 H2 H3. eapply safe_mono; [exact (D c e id H1 H2 H3)|apply extends_refl|]. unfold synced_len. rewrite E2. reflexivity.
  - rewrite E4, E5. destruct (w_writer w); [eapply writer_ok_same; eassumption|exact F].
Qed.

(** A broken writer serves no segment. *)
Lemma linv_wid wid wid' w h segs sw : linv wid w h segs -> w_writer w = Some sw -> healthy sw = false -> linv wid' w h segs.
Proof.
  intros [A B C D F K] E Hh. split; [exact A|exact B|exact C|exact D| |exact K]. rewrite E in *. destruct F as (segs' & id & l & F1 & F2 & F3 & _). exists segs', id, l. split; [exact F1|]. split; [exact F2|]. split; [exact F3|congruence].
Qed.

Lemma close_spec wid w h segs sw :
  linv wid w h segs -> w_writer w = Some sw ->
  wp (on_writer sw_close) (fun r w' => r <> Panic /\ (forall wid', linv wid' w' h segs) /\ kept w w' /\ w_waiters w' = w_waiters w
    /\ exists sw', w_writer w' = Some sw' /\ healthy sw' = false) w.
Proof.
  intros L Ew. pose proof (li_writer _ _ _ _ L) as W. rewrite Ew in W. destruct W as (segs' & id & l & -> & Hp & I & Hh).
  apply (wp_on_writer _ _ _ sw Ew). eapply wp_mono; [apply (sw_close_spec (seg_bytes l)); exact I|].
  intros r [s2 sw2] ((I2 & G & P2 & _) & Hnp & Hh2). cbn [fst snd] in *. rewrite Hp in G, P2. split; [exact Hnp|]. split; [|split; [repeat split|split; [reflexivity|exists sw2; auto]]].
  intros wid'. apply (linv_wid wid _ _ _ _ sw2); [|reflexivity|exact Hh2]. destruct L as [A B C D F K]. split; [|exact B|exact C| | |exact K].
  - cbn. rewrite <- (app_nil_r l). eapply files_ok_last; [exact A|exact P2| |exact G]. rewrite app_nil_r. exact I2.
  - intros c e id' H1 H2 H3. eapply safe_mono; [exact (D c e id' H1 H2 H3)|apply extends_refl|]. cbn. rewrite (synced_grows _ _ _ _ G). reflexivity.
  - cbn. exists segs', id, l. split; [reflexivity|]. split; [exact P2|]. split; [exact I2|congruence].
Qed.

(** A new file. *)
Lemma os_OpenFile_new p s :
  disk (st_fs s) !! p = None -> st_synced s !! p = None ->
  exists r s', sys (os_OpenFile p) s = (r, s') /\ r <> Panic /\ st_synced s' = st_synced s
    /\ match r with
       | Ok _ => exists e, disk (st_fs s') = <[p := e]> (disk (st_fs s)) /\ de_data e = []
       | _ => disk (st_fs s') = disk (st_fs s)
       end.
Proof.
  intros E Es. destruct (tick_disk (st_fs s)) as (x & f & Ht & Hd & _). unfold sys, os_OpenFile, syscall, bind. rewrite Ht. destruct x; cbn.
  - rewrite Hd, E. eexists _, _. split; [reflexivity|]. split; [discriminate|]. split; [reflexivity|]. cbn. rewrite ?Hd. eexists. split; reflexivity.
  - eexists _, _. split; [reflexivity|]. split; [discriminate|]. auto.
Qed.

Lemma os_Stat_same p s : exists r s', sys (os_Stat p) s = (r, s') /\ r <> Panic /\ st_synced s' = st_synced s /\ disk (st_fs s') = disk (st_fs s)
  /\ forall e, r = Ok e -> disk (st_fs s) !! p = Some e.
Proof.
  destruct (tick_disk (st_fs s)) as (x & f & Ht & Hd & _). unfold sys, os_Stat, syscall, bind. rewrite Ht. destruct x; cbn; rewrite ?Hd.
  - destruct (disk (st_fs s) !! p) eqn:E; cbn; eexists _, _; (split; [reflexivity|split; [discriminate|split; [reflexivity|split; [exact Hd|]]]]); congruence.
  - eexists _, _. split; [reflexivity|]. split; [discriminate|]. split; [reflexivity|]. split; [exact Hd|congruence].
Qed.

(** The directory with a new empty segment. *)
Lemma files_ok_new s s' segs id e :
  files_ok s segs -> Forall (fun i => i < id) segs.*1 -> 0 < id < 100000 -> disk (st_fs s) !! segment_name id = None ->
  disk (st_fs s') = <[segment_name id := e]> (disk (st_fs s)) -> de_data e = [] -> st_synced s' = st_synced s -> files_ok s' (segs ++ [(id, [])]).
Proof.
  intros [A B C D F] Hlt Hid Hn Ed Ee Es. split.
  - rewrite fmap_app. apply StronglySorted_app_2; [|exact A|repeat constructor]. intros x y Hx Hy. apply list_elem_of_singleton in Hy. subst y. rewrite Forall_forall in Hlt. exact (Hlt x Hx).
  - rewrite fmap_app. apply Forall_app. split; [exact B|]. constructor; [exact Hid|constructor].
  - rewrite Ed, dom_insert_L, C, fmap_app, map_app, list_to_set_app_L. cbn. set_solver.
  - intros id1 l1 H. unfold file_at, synced_len. rewrite Ed, Es. apply elem_of_app in H as [H|H].
    + destruct (D id1 l1 H) as (d & (e1 & E1 & Hd) & Hr). exists d. split; [|exact Hr]. exists e1. rewrite lookup_insert_ne by congruence. auto.
    + apply list_elem_of_singleton in H. injection H as -> ->. exists []. split; [exists e; rewrite lookup_insert_eq; auto|]. split; [reflexivity|]. rewrite (F _ Hn). cbn. lia.
  - intros p. rewrite Ed, Es. intros H. apply lookup_insert_None in H as [H _]. apply F. exact H.
Qed.

Lemma fresh_name s segs n id :
  files_ok s segs -> Forall (fun i => i <= n) segs.*1 -> 0 <= n -> n < id < 100000 -> disk (st_fs s) !! segment_name id = None.
Proof.
  intros F Hle Hn Hid. apply not_elem_of_dom. rewrite (fo_dom _ _ F), elem_of_list_to_set. intros H. apply list_elem_of_fmap in H as (i & E & Hi).
  rewrite Forall_forall in Hle. pose proof (Hle i Hi). pose proof (fo_pos _ _ F) as P. rewrite Forall_forall in P. pose proof (P i Hi). apply segment_name_inj in E; lia.
Qed.

Lemma linv_next_id wid w h segs : linv wid w h segs -> linv wid (set_w_id (w_id w + 1) w) h segs.
Proof.
  intros [A B [C1 C2] D F K]. split; [exact A|exact B| |exact D|exact F|exact K]. cbn. split; [|lia]. eapply Forall_impl; [exact C1|]. intros; cbn in *; lia.
Qed.

(** Opening the file of the next segment, all before being done. *)
Lemma open_segment_spec w h segs :
  (forall wid, linv wid w h segs) -> Forall (fun i => i < w_id w) segs.*1 -> 0 < w_id w -> w_waiters w = [] ->
  let fileName := segment_name (w_id w) in
  wp (do* on_w_store (sys (os_OpenFile fileName)) in
      do* modify (set_w_writer (Some (NewWALSegmentWriter fileName))) in
      do* catch (on_w_store (sys (os_Stat fileName))) (fun r =>
        match r with inl e => modify (set_w_lastWrite (de_mtime e)) | inr _ => ret tt end) in
      store_CurrentBytes 0)
     (fun r w' => r <> Panic /\ kept w w' /\ (w_id w < 100000 -> exists segs', linv (w_id w) w' h segs'
        /\ (r = Ok tt -> segs' = segs ++ [(w_id w, [])] /\ w_waiters w' = [] /\ exists sw, w_writer w' = Some sw /\ healthy sw = true)))
     w.
Proof.
  intros L Hlt Hpos Hw fileName. destruct (decide (w_id w < 100000)) as [Hid|Hid].
  2: { apply wp_bind, wp_on_w_store. unfold wp at 1. destruct (sys (os_OpenFile fileName) (w_store w)) as [r s1] eqn:Eo.
       assert (r <> Panic) as Hr.
       { clear -Eo. revert Eo. unfold sys, os_OpenFile, syscall, bind. destruct (tick_disk (st_fs (w_store w))) as (x & f & -> & _). destruct x; cbn; [|congruence].
         destruct (disk f !! fileName) as [e|]; [destruct (de_dir e)|]; congruence. }
       destruct r as [[]|e|]; cbn [seq_post]; [| |congruence]; [|split; [discriminate|split; [repeat split|lia]]].
       step. apply wp_bind, wp_catch, wp_on_w_store. destruct (os_Stat_same fileName s1) as (r & s2 & E & Hr' & _). cbn [set_w_store set_w_writer w_store]. unfold wp at 1. rewrite E.
       destruct r; [| |congruence]; [apply wp_modify|apply wp_ret]; cbn [seq_post]; apply wp_modify; (split; [discriminate|split; [repeat split|lia]]). }
  pose proof (L 0) as L0. destruct L0 as [F HO [Hle H0] HA _ HK].
  pose proof (fresh_name _ _ (w_id w - 1) (w_id w) F ltac:(eapply Forall_impl; [exact Hlt|]; intros; cbn in *; lia) ltac:(lia) ltac:(lia)) as Hn. fold fileName in Hn.
  apply wp_bind, wp_on_w_store. unfold wp at 1. destruct (os_OpenFile_new fileName (w_store w) Hn (fo_synced _ _ F _ Hn)) as (r & s1 & Eo & Hr & Es & Hd). rewrite Eo.
  destruct r as [[]|e|]; cbn [seq_post]; [| |congruence].
  - destruct Hd as (e & Hd & He). step. apply wp_bind, wp_catch, wp_on_w_store. cbn [set_w_store set_w_writer w_store].
    destruct (os_Stat_same fileName s1) as (r & s2 & E & Hr' & Es2 & Hd2 & _). unfold wp at 1. rewrite E.
    assert (forall w', kept w w' -> w_store w' = s2 -> w_writer w' = Some (NewWALSegmentWriter fileName) -> w_waiters w' = [] -> w_answers w' = w_answers w ->
      linv (w_id w) w' h (segs ++ [(w_id w, [])])) as Hfin.
    { intros w' (K & _) E1 E2 E3 E4. split.
      - rewrite E1. eapply files_ok_same; [exact Hd2|exact Es2|]. eapply files_ok_new; [exact F|exact Hlt|lia|exact Hn|exact Hd|exact He|exact Es].
      - destruct HO as [O1 O2 O3 O4]. split; [|exact O2|exact O3|exact O4]. rewrite fmap_app, concat_app. cbn. rewrite app_nil_r. exact O1.
      - rewrite K. split; [|lia]. rewrite fmap_app. apply Forall_app. split; [exact Hle|]. repeat constructor. cbn. lia.
      - rewrite E1, E4. intros c e' id' H1 H2 H3. eapply safe_mono; [exact (HA c e' id' H1 H2 H3)| |].
        + intros i l Hi. exists []. rewrite app_nil_r. apply elem_of_app. left. exact Hi.
        + unfold synced_len. rewrite Es2, Es. reflexivity.
      - rewrite E1, E2, E3. exists segs, (w_id w), []. split; [reflexivity|]. split; [reflexivity|]. split.
        + exists []. split; [exists e; rewrite Hd2, Hd; cbn; rewrite lookup_insert_eq; auto|]. split; [reflexivity|]. intros _. split; reflexivity.
        + intros _. split; [reflexivity|]. intros c Hc. apply elem_of_nil in Hc as [].
      - rewrite E3, E4, <- Hw. exact HK. }
    destruct r; [| |congruence]; [apply wp_modify|apply wp_ret]; cbn [seq_post]; apply wp_modify; (split; [discriminate|]; split; [repeat split|]; intros _; eexists; split;
      [apply Hfin; first [exact Hw|reflexivity|repeat split]|]; intros _; split; [reflexivity|]; split; [exact Hw|]; eexists; split; reflexivity).
  - split; [discriminate|]. split; [repeat split|]. intros _. exists segs. split; [|discriminate]. eapply linv_same; [|apply L]. repeat split; [exact Hd|exact Es].
Qed.

Lemma newSegmentFile_spec w h segs :
  linv (w_id w) w h segs ->
  wp newSegmentFile (fun r w' => r <> Panic /\ w_id w' = w_id w + 1 /\ w_closing w' = w_closing w /\ w_once w' = w_once w
    /\ (w_id w' < 100000 -> exists segs', linv (w_id w') w' h segs'
        /\ (r = Ok tt -> segs' = segs ++ [(w_id w', [])] /\ w_waiters w' = [] /\ exists sw, w_writer w' = Some sw /\ healthy sw = true))) w.
Proof.
  intros L. unfold newSegmentFile. step. step. set (w0 := set_w_id (w_id w + 1) w). pose proof (linv_next_id _ _ _ _ L) as L0. fold w0 in L0.
  assert (Forall (fun i => i < w_id w + 1) segs.*1 /\ 0 <= w_id w) as [Hlt H0].
  { destruct (li_id _ _ _ _ L) as [H1 H2]. split; [|exact H2]. eapply Forall_impl; [exact H1|]. intros; cbn in *; lia. }
  apply wp_bind. change (w_writer w0) with (w_writer w). change (w_id w0) with (w_id w + 1).
  assert (forall w1, (forall wid, linv wid w1 h segs) -> kept w0 w1 -> w_waiters w1 = [] ->
    wp (do* on_w_store (sys (os_OpenFile (segment_name (w_id w + 1)))) in
        do* modify (set_w_writer (Some (NewWALSegmentWriter (segment_name (w_id w + 1))))) in
        do* catch (on_w_store (sys (os_Stat (segment_name (w_id w + 1))))) (fun r =>
          match r with inl e => modify (set_w_lastWrite (de_mtime e)) | inr _ => ret tt end) in
        store_CurrentBytes 0)
       (fun r w' => r <> Panic /\ w_id w' = w_id w + 1 /\ w_closing w' = w_closing w /\ w_once w' = w_once w
        /\ (w_id w' < 100000 -> exists segs', linv (w_id w') w' h segs'
        /\ (r = Ok tt -> segs' = segs ++ [(w_id w', [])] /\ w_waiters w' = [] /\ exists sw, w_writer w' = Some sw /\ healthy sw = true))) w1) as Hopen.
  { intros w1 L1 (K1 & K2 & K3) Hw. cbn in K1, K2, K3. rewrite <- K1 in *. eapply wp_mono; [apply (open_segment_spec w1 h segs L1 Hlt ltac:(lia) Hw)|].
    intros r w' (Hr & (K1' & K2' & K3') & Hl). split; [exact Hr|]. split; [exact K1'|]. split; [congruence|]. split; [congruence|]. rewrite K1'. exact Hl. }
  destruct (w_writer w) as [sw|] eqn:Ew.
  - apply wp_bind. eapply wp_mono; [apply (wal_sync_spec (w_id w) w0 h segs sw L0 Ew)|]. intros r w1 (-> & L1 & Hw1 & K1 & sw1 & Ew1). cbn [seq_post].
    apply wp_bind. eapply wp_mono; [apply (close_spec _ _ _ _ _ L1 Ew1)|]. intros r w2 (Hr & L2 & K2 & Hw2 & sw2 & Ew2 & Hh2).
    assert (kept w0 w2) as K by (destruct K1 as (A1 & A2 & A3), K2 as (B1 & B2 & B3); repeat split; congruence).
    destruct r as [[]|e|]; cbn [seq_post]; [| |congruence].
    + step. rewrite Ew2. apply wp_modify. cbn [seq_post]. apply Hopen; [|exact K|cbn; congruence]. intros wid. eapply linv_same; [|apply (L2 wid)]. repeat split.
    + destruct K as (K1' & K2' & K3'). split; [discriminate|]. split; [exact K1'|]. split; [exact K2'|]. split; [exact K3'|]. intros _. exists segs. split; [apply L2|discriminate].
  - apply wp_ret. cbn [seq_post]. apply Hopen; [|repeat split|]; pose proof (li_writer _ _ _ _ L0) as W; change (w_writer w0) with (w_writer w) in W; rewrite Ew in W.
    + intros wid. destruct L0 as [A B C D F K]. split; [exact A|exact B|exact C|exact D| |exact K]. cbn. rewrite Ew. exact W.
    + exact W.
Qed.

(** ** Appending *)

(** What an operation other than an append or a removal establishes. *)
Definition keeps (h : hist) (m : WM unit) (w : WAL) : Prop :=
  wp m (fun r w' => r <> Panic /\ (w_id w' < 100000 -> exists segs', linv (w_id w') w' h segs')) w.

Lemma rollSegment_spec w h segs :
  linv (w_id w) w h segs ->
  wp rollSegment (fun r w' => r <> Panic /\ (w_id w' < 100000 -> exists segs', linv (w_id w') w' h segs' /\ (r = Ok tt -> w_writer w' <> None))) w.
Proof.
  intros L. unfold rollSegment. step.
  assert (wp newSegmentFile (fun r w' => r <> Panic /\ (w_id w' < 100000 -> exists segs', linv (w_id w') w' h segs' /\ (r = Ok tt -> w_writer w' <> None))) w) as Hnew.
  { eapply wp_mono; [apply (newSegmentFile_spec w h segs L)|]. intros r w' (Hr & _ & _ & _ & H). split; [exact Hr|]. intros Hid. destruct (H Hid) as (segs' & L' & Hok).
    exists segs'. split; [exact L'|]. intros E. destruct (Hok E) as (_ & _ & sw & -> & _). discriminate. }
  destruct (w_writer w) as [sw|] eqn:Ew; [|exact Hnew]. destruct (DefaultSegmentSize <? sw_size sw); [exact Hnew|]. apply wp_ret. split; [discriminate|]. intros _. exists segs. split; [exact L|congruence].
Qed.

Lemma CloseSegment_spec w h segs : linv (w_id w) w h segs -> keeps h CloseSegment w.
Proof.
  intros L. unfold keeps, CloseSegment. step.
  assert (keeps h newSegmentFile w) as Hnew.
  { eapply wp_mono; [apply (newSegmentFile_spec w h segs L)|]. intros r w' (Hr & _ & _ & _ & H). split; [exact Hr|]. intros Hid. destruct (H Hid) as (segs' & L' & _). eauto. }
  destruct (w_writer w) as [sw|]; [|exact Hnew]. destruct (0 <? sw_size sw); [exact Hnew|]. apply wp_ret. split; [discriminate|]. eauto.
Qed.

(** A call is recorded. *)
Definition issue (c : nat) (e : WALEntry) (h : hist) : hist := mkH (h_issued h ++ [(c, e)]) (h_placed h) (h_acked h).

Lemma linv_issue wid w h segs c e : linv wid w h segs -> c ∉ (h_issued h).*1 -> frame_ok e -> linv wid w (issue c e h) segs.
Proof.
  intros [A [B1 B2 B3 B4] C D F K] Hc He. split; [exact A| |exact C| | |].
  - split; cbn; [apply sublist_inserts_r; exact B1|apply Forall_app; split; [exact B2|constructor; [exact He|constructor]]| |].
    + rewrite fmap_app. apply NoDup_app. split; [exact B3|]. split; [|repeat constructor; apply not_elem_of_nil]. intros x Hx Hy. apply list_elem_of_singleton in Hy. subst x. contradiction.
    + intros c' id H. rewrite fmap_app. apply elem_of_app. left. exact (B4 c' id H).
  - cbn. intros c' e' id H1 H2 H3. apply elem_of_app in H1 as [H1|H1]; [exact (D c' e' id H1 H2 H3)|].
    apply list_elem_of_singleton in H1. injection H1 as -> ->. destruct Hc. exact (B4 c id H2).
  - destruct (w_writer w); exact F.
  - cbn. intros c' H. rewrite fmap_app. apply elem_of_app. left. exact (K c' H).
Qed.

(** The frame is handed to the writer. *)
Lemma write_frame_spec wid w h segs c e sw :
  linv wid w h segs -> w_writer w = Some sw -> c ∉ (h_issued h).*1 -> frame_ok e ->
  wp (on_writer (sw_Write (Entry_Type e) (payload e))) (fun r w' => r <> Panic /\ kept w w' /\ w_answers w' = w_answers w
    /\ exists segs' sw', linv wid w' (issue c e h) segs' /\ w_writer w' = Some sw'
      /\ (healthy sw' = true -> exists segs1 l, segs' = segs1 ++ [(wid, l)] /\ c ∈ l.*1)) w.
Proof.
  intros L Ew Hc He. pose proof (li_writer _ _ _ _ L) as W. rewrite Ew in W. destruct W as (segs1 & id & l & -> & Hp & I & Hh).
  apply (wp_on_writer _ _ _ sw Ew). eapply wp_mono; [apply (sw_Write_spec (seg_bytes l)); exact I|].
  intros r [s2 sw2] ((I2 & G & P2 & Hh2) & Hnp & Hr). cbn [fst snd] in *. rewrite Hp in G, P2. split; [exact Hnp|]. split; [repeat split|]. split; [reflexivity|].
  assert (seg_bytes l ++ ([Entry_Type e] ++ be32 (u32 (zlen (payload e)))) ++ payload e = seg_bytes (l ++ [(c, e)])) as ET.
  { unfold seg_bytes. rewrite fmap_app, segment_bytes_app. cbn. unfold segment_bytes. cbn. rewrite app_nil_r. reflexivity. }
  rewrite ET in I2. pose proof (linv_issue _ _ _ _ c e L Hc He) as L1. destruct L1 as [A [B1 B2 B3 B4] C D F K].
  exists (segs1 ++ [(id, l ++ [(c, e)])]), sw2. split; [|split; [reflexivity|]].
  - split; [cbn; eapply files_ok_last; [exact A|exact P2|exact I2|exact G]| | | | |exact K].
    + split; [|exact B2|exact B3|exact B4]. pose proof (ho_sub _ _ (li_hist _ _ _ _ L)) as Hs. rewrite fmap_app, concat_app in *. cbn in *. rewrite app_nil_r in *. rewrite app_assoc. apply sublist_app; [exact Hs|reflexivity].
    + rewrite !fmap_app in *. exact C.
    + cbn. intros c' e' id' H1 H2 H3. eapply safe_mono; [exact (D c' e' id' H1 H2 H3)| |rewrite (synced_grows _ _ _ _ G); reflexivity].
      intros i l' Hi. apply elem_of_app in Hi as [Hi|Hi]; [exists []; rewrite app_nil_r; apply elem_of_app; left; exact Hi|].
      apply list_elem_of_singleton in Hi. injection Hi as -> ->. exists [(c, e)]. apply elem_of_app. right. left.
    + cbn. exists segs1, id, (l ++ [(c, e)]). split; [reflexivity|]. split; [exact P2|]. split; [exact I2|]. intros Hx. destruct (Hh (Hh2 Hx)) as [-> Hw]. split; [reflexivity|].
      intros c' Hc'. destruct (Hw c' Hc') as [H1 H2]. split; [rewrite fmap_app; apply elem_of_app; left; exact H1|exact H2].
  - intros Hx. destruct (Hh (Hh2 Hx)) as [-> _]. exists segs1, (l ++ [(c, e)]). split; [reflexivity|]. rewrite fmap_app. apply elem_of_app. right. left.
Qed.

Definition place (c : nat) (r : res wal_error Z) (h : hist) : hist :=
  mkH (h_issued h) (match r with Ok id => h_placed h ++ [(c, id)] | _ => h_placed h end) (h_acked h).

Lemma append_entry_spec w h segs c e :
  linv (w_id w) w h segs -> c ∉ (h_issued h).*1 -> frame_ok e ->
  wp (append_entry c (Entry_Type e) (payload e)) (fun r w' => w_id w' < 100000 -> r <> Panic /\ exists segs', linv (w_id w') w' (place c r (issue c e h)) segs') w.
Proof.
  intros L Hc He. unfold append_entry. step. destruct (w_closing w).
  { apply wp_throw. intros _. split; [discriminate|]. exists segs. exact (linv_issue _ _ _ _ c e L Hc He). }
  apply wp_bind. eapply wp_mono; [apply (rollSegment_spec w h segs L)|]. intros r w1 (Hr & H1). destruct r as [[]|err|]; cbn [seq_post]; [| |congruence].
  2: { intros Hid. split; [discriminate|]. destruct (H1 Hid) as (segs1 & L1 & _). exists segs1. exact (linv_issue _ _ _ _ c e L1 Hc He). }
  apply wp_bind. destruct (decide (w_id w1 < 100000)) as [Hid|Hid].
  2: { unfold wp at 1, on_writer. destruct (w_writer w1) as [sw|]; [|cbn; lia]. destruct (sw_Write _ _ _) as [r [s2 sw2]]. destruct r; cbn [seq_post]; [|cbn; lia|cbn; lia].
       step. cbn [set_w_writer set_w_store w_waiters]. destruct (maxWaiters <=? _)%nat; [apply wp_throw; cbn; lia|]. do 2 step. apply wp_bind. cbn [w_writer]. apply wp_modify. cbn [seq_post]. step. apply wp_ret. cbn. lia. }
  destruct (H1 Hid) as (segs1 & L1 & Hsw). specialize (Hsw eq_refl). destruct (w_writer w1) as [sw|] eqn:Ew; [|congruence].
  eapply wp_mono; [apply (write_frame_spec _ _ _ _ c e sw L1 Ew Hc He)|]. intros r w2 (Hnp & K & Hw2 & segs2 & sw2 & L2 & Ew2 & Hh2). destruct K as (K & _).
  destruct r as [[]|err|]; cbn [seq_post]; [| |congruence].
  2: { intros _. split; [discriminate|]. exists segs2. rewrite K. exact L2. }
  step. destruct (maxWaiters <=? length (w_waiters w2))%nat. { apply wp_throw. intros _. split; [discriminate|]. exists segs2. rewrite K. exact L2. }
  do 2 step. apply wp_bind. rewrite Ew2. apply wp_modify. cbn [seq_post]. step. apply wp_ret. intros _. split; [discriminate|]. exists segs2.
  destruct L2 as [A [B1 B2 B3 B4] C D F Kn]. cbn [w_id set_w_lastWrite set_w_stats set_w_syncing set_w_waiters]. rewrite K.
  assert (forall id', (c, id') ∉ h_placed h) as Hnew by (intros id' Hx; apply Hc; exact (ho_placed _ _ (li_hist _ _ _ _ L) c id' Hx)).
  split; [exact A|split; [exact B1|exact B2|exact B3|]|exact C| | |].
  - cbn. intros c' id' H. apply elem_of_app in H as [H|H]; [exact (B4 c' id' H)|]. apply list_elem_of_singleton in H. injection H as -> ->. rewrite fmap_app. apply elem_of_app. right. left.
  - cbn. intros c' e' id' Hi Hpl Ha. apply elem_of_app in Hpl as [Hpl|Hpl]; [exact (D c' e' id' Hi Hpl Ha)|]. apply list_elem_of_singleton in Hpl. injection Hpl as -> ->. exfalso. apply Hc.
    pose proof (li_known _ _ _ _ L1) as Kh. rewrite Hw2 in Ha. apply Kh. destruct Ha as [Ha|Ha]; [auto|]. right. left. exact (list_elem_of_fmap_2 fst _ (c, None) Ha).
  - cbn. rewrite Ew2. rewrite Ew2 in F. destruct F as (segs3 & id & l & E3 & P3 & I3 & H3). exists segs3, id, l. split; [exact E3|]. split; [exact P3|]. split; [exact I3|].
    intros Hx. destruct (H3 Hx) as [-> Hw]. split; [reflexivity|]. destruct (Hh2 Hx) as (segs4 & l4 & E4 & Hc4). rewrite E4 in E3. apply app_inj_tail in E3 as [_ E3]. injection E3 as <-.
    intros c' Hc'. apply elem_of_app in Hc' as [Hc'|Hc'].
    + destruct (Hw c' Hc') as [G1 G2]. split; [exact G1|]. intros id' Hpl. cbn in Hpl. apply elem_of_app in Hpl as [Hpl|Hpl]; [exact (G2 id' Hpl)|]. apply list_elem_of_singleton in Hpl. simplify_eq. reflexivity.
    + apply list_elem_of_singleton in Hc'. subst c'. split; [exact Hc4|]. intros id' Hpl. cbn in Hpl. apply elem_of_app in Hpl as [Hpl|Hpl]; [destruct (Hnew id' Hpl)|]. apply list_elem_of_singleton in Hpl. simplify_eq. reflexivity.
  - cbn. intros c' [Hx|[Hx|Hx]]; [exact (Kn c' (or_introl Hx))|exact (Kn c' (or_intror (or_introl Hx)))|]. apply elem_of_app in Hx as [Hx|Hx]; [exact (Kn c' (or_intror (or_intror Hx)))|].
    apply list_elem_of_singleton in Hx. subst c'. rewrite fmap_app. apply elem_of_app. right. left.
Qed.

(** ** Ticks and closing *)

Lemma sync_tick_spec w h segs : linv (w_id w) w h segs -> keeps h sync_tick w.
Proof.
  intros L. unfold keeps, sync_tick. step. destruct (w_waiters w) as [|c ws] eqn:Ews.
  - apply wp_modify. split; [discriminate|]. intros _. exists segs. eapply linv_same; [|exact L]. repeat split.
  - pose proof (li_writer _ _ _ _ L) as W. destruct (w_writer w) as [sw|] eqn:Ew; [|congruence].
    eapply wp_mono; [apply (wal_sync_spec _ _ _ _ sw L Ew)|]. intros r w' (-> & L' & _ & (K & _) & _). split; [discriminate|]. intros _. exists segs. rewrite K. exact L'.
Qed.

Lemma WAL_Close_spec w h segs : linv (w_id w) w h segs -> keeps h WAL_Close w.
Proof.
  intros L. unfold keeps, WAL_Close. step. destruct (w_once w). { apply wp_ret. split; [discriminate|]. eauto. }
  step. set (w0 := set_w_closing true (set_w_once w)). assert (linv (w_id w0) w0 h segs) as L0 by (eapply linv_same; [|exact L]; repeat split). change (w_writer w) with (w_writer w0).
  destruct (w_writer w0) as [sw|] eqn:Ew; [|apply wp_ret; split; [discriminate|eauto]].
  apply wp_bind. eapply wp_mono; [apply (wal_sync_spec _ _ _ _ sw L0 Ew)|]. intros r w1 (-> & L1 & Hw1 & K1 & sw1 & Ew1). cbn [seq_post].
  apply wp_bind, wp_catch. eapply wp_mono; [apply (close_spec _ _ _ _ _ L1 Ew1)|]. intros r w2 (Hr & L2 & _ & Hw2 & _).
  assert (linv (w_id w2) (set_w_writer None w2) h segs) as L3.
  { destruct (L2 (w_id w2)) as [A B C D F K]. split; [exact A|exact B|exact C|exact D| |exact K]. cbn. congruence. }
  destruct r; [| |congruence]; apply wp_ret; cbn [seq_post]; apply wp_modify; (split; [discriminate|]; intros _; exists segs; exact L3).
Qed.

(** ** Removing segments *)

(** Segments taken away: those left keep their files. *)
Lemma linv_removed wid w w' h (P Q : Z -> bool) segs :
  linv wid w h segs -> w_id w' = w_id w -> w_writer w' = w_writer w -> w_waiters w' = w_waiters w -> w_answers w' = w_answers w ->
  (forall id l, (id, l) ∈ segs -> P id = true -> disk (st_fs (w_store w')) !! segment_name id = disk (st_fs (w_store w)) !! segment_name id
     /\ st_synced (w_store w') !! segment_name id = st_synced (w_store w) !! segment_name id) ->
  (forall id l, (id, l) ∈ segs -> P id = false -> disk (st_fs (w_store w')) !! segment_name id = None) ->
  (forall p, disk (st_fs (w_store w)) !! p = None -> disk (st_fs (w_store w')) !! p = None) ->
  (forall p, disk (st_fs (w_store w')) !! p = None -> st_synced (w_store w') !! p = None) ->
  (forall segs' id l sw, segs = segs' ++ [(id, l)] -> w_writer w = Some sw -> P id = true) ->
  (forall id l, (id, l) ∈ segs -> Q id = true -> P id = true) ->
  linv wid w' (mkH (h_issued h) (List.filter (fun x => Q x.2) (h_placed h)) (h_acked h)) (List.filter (fun x => P x.1) segs).
Proof.
  intros [A B C D F K] E1 E2 E3 E4 Hkeep Hgone Hnone Hsyn Hlast HQ.
  assert (forall id l, (id, l) ∈ List.filter (fun x => P x.1) segs <-> (id, l) ∈ segs /\ P id = true) as Hin.
  { intros id l. rewrite !list_elem_of_In, filter_In. reflexivity. }
  assert (List.filter (fun x => P x.1) segs `sublist_of` segs) as Hsub by (clear; induction segs as [|x segs IH]; cbn; [constructor|destruct (P x.1); constructor; exact IH]).
  split.
  - split.
    + pose proof (fo_sorted _ _ A) as Hs. clear -Hs. induction segs as [|x segs IH]; cbn in *; [constructor|]. inversion Hs as [|? ? H1 H2]; subst.
      destruct (P x.1); [|apply IH; exact H1]. cbn. constructor; [apply IH; exact H1|]. rewrite Forall_forall in *. intros y Hy. apply H2.
      apply list_elem_of_fmap in Hy as (z & -> & Hz). apply list_elem_of_In, filter_In in Hz as [Hz _]. apply (list_elem_of_fmap_2 fst), list_elem_of_In, Hz.
    + pose proof (fo_pos _ _ A) as Hs. rewrite Forall_forall in *. intros y Hy. apply Hs. apply list_elem_of_fmap in Hy as (z & -> & Hz). apply list_elem_of_In, filter_In in Hz as [Hz _].
      apply (list_elem_of_fmap_2 fst), list_elem_of_In, Hz.
    + apply set_eq. intros p. rewrite elem_of_dom, elem_of_list_to_set. split.
      * intros [e He]. destruct (disk (st_fs (w_store w)) !! p) as [e0|] eqn:E0; [|rewrite (Hnone p E0) in He; discriminate].
        assert (p ∈ dom (disk (st_fs (w_store w)))) as Hp by (apply elem_of_dom; eauto). rewrite (fo_dom _ _ A), elem_of_list_to_set in Hp.
        apply list_elem_of_fmap in Hp as (id & -> & Hid). apply list_elem_of_fmap in Hid as ([id1 l] & -> & Hl). cbn in *.
        destruct (P id1) eqn:EP; [|rewrite (Hgone id1 l Hl EP) in He; discriminate]. apply (list_elem_of_fmap_2 segment_name). apply (list_elem_of_fmap_2 fst _ (id1, l)). apply Hin. auto.
      * intros Hp. apply list_elem_of_fmap in Hp as (id & -> & Hid). apply list_elem_of_fmap in Hid as ([id1 l] & -> & Hl). apply Hin in Hl as [Hl EP]. cbn.
        destruct (Hkeep id1 l Hl EP) as [-> _]. destruct (fo_data _ _ A id1 l Hl) as (d & (e & He & _) & _). eauto.
    + intros id l Hl. apply Hin in Hl as [Hl EP]. destruct (Hkeep id l Hl EP) as [Ed Es]. destruct (fo_data _ _ A id l Hl) as (d & Hd). exists d. unfold file_at, synced_len in *. rewrite Ed, Es. exact Hd.
    + exact Hsyn.
  - destruct B as [B1 B2 B3 B4]. split; cbn; [|exact B2|exact B3|].
    + etrans; [|exact B1]. clear -Hsub. induction Hsub as [|x l1 l2 H IH|x l1 l2 H IH]; cbn; [constructor|apply sublist_app; [reflexivity|exact IH]|apply sublist_inserts_l; exact IH].
    + intros c id H. apply list_elem_of_In, filter_In in H as [H _]. apply list_elem_of_In in H. exact (B4 c id H).
  - rewrite E1. destruct C as [C1 C2]. split; [|exact C2]. rewrite Forall_forall in *. intros y Hy. apply C1. apply list_elem_of_fmap in Hy as (z & -> & Hz). apply list_elem_of_In, filter_In in Hz as [Hz _].
    apply (list_elem_of_fmap_2 fst), list_elem_of_In, Hz.
  - cbn. rewrite E4. intros c e id Hi Hpl Ha. apply list_elem_of_In, filter_In in Hpl as [Hpl EP]. apply list_elem_of_In in Hpl. cbn in EP. destruct (D c e id Hi Hpl Ha) as (l & j & Hl & Hj & Hs). apply (HQ _ _ Hl) in EP.
    exists l, j. split; [apply Hin; auto|]. split; [exact Hj|]. destruct (Hkeep id l Hl EP) as [_ Es]. unfold synced_len in *. rewrite Es. exact Hs.
  - rewrite E2, E3. destruct (w_writer w) as [sw|] eqn:Ew; [|exact F]. destruct F as (segs' & id & l & -> & Hp & I & Hh). pose proof (Hlast segs' id l sw eq_refl eq_refl) as EP.
    assert ((id, l) ∈ segs' ++ [(id, l)]) as Hl by (apply elem_of_app; right; left). destruct (Hkeep id l Hl EP) as [Ed _].
    exists (List.filter (fun x => P x.1) segs'), id, l. split; [rewrite List.filter_app; cbn; rewrite EP; reflexivity|]. split; [exact Hp|]. split; [|].
    + unfold sw_inv, file_at in *. rewrite Hp in *. rewrite Ed. exact I.
    + intros Hx. destruct (Hh Hx) as [-> Hw]. split; [reflexivity|]. intros c Hc. destruct (Hw c Hc) as [G1 G2]. split; [exact G1|]. intros id' Hpl. cbn in Hpl. apply list_elem_of_In, filter_In in Hpl as [Hpl _]. apply list_elem_of_In in Hpl. exact (G2 id' Hpl).
  - cbn. rewrite E3, E4. exact K.
Qed.

(** What removing files, faults included, does to the directory. *)
Definition removed (files : list string) (s s' : store) : Prop :=
  (forall p, p ∉ files -> disk (st_fs s') !! p = disk (st_fs s) !! p /\ st_synced s' !! p = st_synced s !! p)
  /\ (forall p, disk (st_fs s') !! p = None \/ (disk (st_fs s') !! p = disk (st_fs s) !! p /\ st_synced s' !! p = st_synced s !! p))
  /\ ((forall p, disk (st_fs s) !! p = None -> st_synced s !! p = None) -> forall p, disk (st_fs s') !! p = None -> st_synced s' !! p = None).

Lemma removed_refl files s : removed files s s.
Proof. repeat split; auto. Qed.

Lemma os_RemoveFile_spec p s : exists r s', os_RemoveFile p s = (r, s') /\ r <> Panic /\ removed [p] s s'.
Proof.
  unfold os_RemoveFile, bind, sys, os_Remove, syscall. destruct (tick_disk (st_fs s)) as (x & f & Ht & Hd & _). unfold bind. rewrite Ht.
  destruct x as [|k]; cbn.
  - rewrite Hd. destruct (disk (st_fs s) !! p) as [e|] eqn:E; cbn.
    + eexists _, _. split; [reflexivity|]. split; [discriminate|]. unfold removed. cbn. rewrite ?Hd. split; [|split].
      * intros q Hq. rewrite list_elem_of_singleton in Hq. rewrite !lookup_delete_ne by congruence. auto.
      * intros q. destruct (decide (q = p)) as [->|Hq]; [left; apply lookup_delete_eq|right; rewrite !lookup_delete_ne by congruence; auto].
      * intros H q Hq. destruct (decide (q = p)) as [->|Hn]; [apply lookup_delete_eq|rewrite lookup_delete_ne in Hq by congruence; rewrite lookup_delete_ne by congruence; apply H; exact Hq].
    + eexists _, _. split; [reflexivity|]. split; [discriminate|]. unfold removed. cbn. rewrite Hd. repeat split; auto.
  - eexists _, _. split; [reflexivity|]. split; [discriminate|]. unfold removed. cbn. rewrite Hd. repeat split; auto.
Qed.

Lemma removed_cons f files s s1 s2 : removed [f] s s1 -> removed files s1 s2 -> removed (f :: files) s s2.
Proof.
  intros (A1 & B1 & C1) (A2 & B2 & C2). split; [|split].
  - intros p Hp. apply not_elem_of_cons in Hp as [Hp1 Hp2]. destruct (A2 p Hp2) as [-> ->]. apply A1. rewrite list_elem_of_singleton. congruence.
  - intros p. destruct (B2 p) as [H|[E1 E2]]; [left; exact H|]. rewrite E1, E2. apply B1.
  - intros H. apply C2, C1, H.
Qed.

Lemma remove_files_spec files w :
  wp (remove_files files) (fun r w' => r = Ok tt /\ removed files (w_store w) (w_store w') /\ w' = set_w_store (w_store w') w) w.
Proof.
  revert w. induction files as [|f files IH]; intros w; cbn [remove_files].
  - apply wp_ret. split; [reflexivity|]. split; [apply removed_refl|]. destruct w; reflexivity.
  - apply wp_bind, wp_catch, wp_on_w_store. destruct (os_RemoveFile_spec f (w_store w)) as (r & s1 & E & Hr & Rm). unfold wp at 1. rewrite E.
    destruct r; [| |congruence]; apply wp_ret; cbn [seq_post]; (eapply wp_mono; [apply IH|]; intros r w' (-> & R & E'); split; [reflexivity|]; split; [eapply removed_cons; [exact Rm|exact R]|]; rewrite E'; destruct w; reflexivity).
Qed.

(** Reading the sizes changes nothing. *)
Lemma sizes_of_spec l n w : wp (sizes_of l n) (fun r w' => r <> Panic /\ same_log w w') w.
Proof.
  revert n w. induction l as [|p l IH]; intros n w; cbn [sizes_of]; [apply wp_ret; split; [discriminate|repeat split]|].
  apply wp_bind, wp_on_w_store. destruct (os_Stat_same p (w_store w)) as (r & s1 & E & Hr & Es & Ed & _). unfold wp at 1. rewrite E.
  destruct r; cbn [seq_post]; [|split; [discriminate|repeat split; assumption]|congruence]. eapply wp_mono; [apply IH|]. intros r w' (H1 & H2 & H3 & H4 & H5 & H6 & H7).
  cbn in *. split; [exact H1|]. repeat split; congruence.
Qed.

Lemma WAL_Remove_spec w h segs files :
  linv (w_id w) w h segs -> match w_writer w with Some sw => sw_path sw ∉ files | None => True end ->
  wp (WAL_Remove files) (fun r w' => r <> Panic
    /\ exists segs', linv (w_id w') w' (mkH (h_issued h) (List.filter (fun x => negb (bool_decide (segment_name x.2 ∈ files))) (h_placed h)) (h_acked h)) segs') w.
Proof.
  intros L Hcur. unfold WAL_Remove. apply wp_bind. eapply wp_mono; [apply remove_files_spec|]. intros r w1 (-> & (R1 & R2 & R3) & E1). cbn [seq_post].
  assert (exists segs', linv (w_id w1) w1 (mkH (h_issued h) (List.filter (fun x => negb (bool_decide (segment_name x.2 ∈ files))) (h_placed h)) (h_acked h)) segs') as (segs' & L1).
  { set (P id := negb (bool_decide (disk (st_fs (w_store w1)) !! segment_name id = None))). exists (List.filter (fun x => P x.1) segs).
    assert (w_id w1 = w_id w) as -> by (rewrite E1; reflexivity).
    set (Q id := negb (bool_decide (segment_name id ∈ files))).
    apply (linv_removed (w_id w) w w1 h P Q segs L); try (rewrite E1; reflexivity).
    - intros id l Hl HP. unfold P in HP. apply negb_true_iff, bool_decide_eq_false in HP. destruct (R2 (segment_name id)) as [H|H]; [contradiction|exact H].
    - intros id l Hl HP. unfold P in HP. apply negb_false_iff, bool_decide_eq_true in HP. exact HP.
    - intros p Hp. destruct (R2 p) as [H|[H _]]; [exact H|congruence].
    - apply R3. apply (fo_synced _ _ (li_files _ _ _ _ L)).
    - intros segs1 id l sw -> Ew. unfold P. apply negb_true_iff, bool_decide_eq_false. pose proof (li_writer _ _ _ _ L) as W. rewrite Ew in *.
      destruct W as (segs2 & id2 & l2 & E2 & Hp & _). apply app_inj_tail in E2 as [_ E2]. injection E2 as <- <-. rewrite Hp in Hcur. destruct (R1 _ Hcur) as [-> _].
      destruct (fo_data _ _ (li_files _ _ _ _ L) id l ltac:(apply elem_of_app; right; left)) as (d & (e & He & _) & _). congruence.
    - intros id l Hl HQ. unfold Q in HQ. apply negb_true_iff, bool_decide_eq_false in HQ. unfold P. apply negb_true_iff, bool_decide_eq_false. destruct (R1 _ HQ) as [-> _].
      destruct (fo_data _ _ (li_files _ _ _ _ L) id l Hl) as (d & (e & He & _) & _). congruence. }
  apply wp_bind, wp_on_w_store. unfold wp at 1, segmentFileNames. cbn [seq_post]. apply wp_bind. eapply wp_mono; [apply sizes_of_spec|].
  intros r w2 (Hr & S2). assert (same_log w1 w2) as S3 by (destruct S2 as (H1 & H2 & H3 & H4 & H5 & H6); repeat split; assumption).
  assert (w_id w2 = w_id w1) as Eid by apply S3. assert (linv (w_id w2) w2 (mkH (h_issued h) (List.filter (fun x => negb (bool_decide (segment_name x.2 ∈ files))) (h_placed h)) (h_acked h)) segs') as L2.
  { rewrite Eid. eapply linv_same; [exact S3|exact L1]. }
  destruct r; cbn [seq_post]; [|split; [discriminate|eauto]|congruence]. apply wp_modify. split; [discriminate|]. exists segs'. eapply linv_same; [|exact L2]. repeat split.
Qed.

(** ** Crashing and opening *)

Lemma crash_lookup cut s p : disk (st_fs (crash cut s)) !! p = (fun e => mkDirent (de_dir e) (take (Nat.max (synced_len p s) (cut p)) (de_data e)) (de_mtime e)) <$> disk (st_fs s) !! p.
Proof. cbn. rewrite map_lookup_imap. destruct (disk (st_fs s) !! p); reflexivity. Qed.

Lemma crash_synced cut s p : st_synced (crash cut s) !! p = (fun e => length (take (Nat.max (synced_len p s) (cut p)) (de_data e))) <$> disk (st_fs s) !! p.
Proof. cbn. rewrite map_lookup_imap. destruct (disk (st_fs s) !! p); reflexivity. Qed.

Lemma crash_files cut s segs : files_ok s segs -> files_ok (crash cut s) segs.
Proof.
  intros [A B C D F]. split; [exact A|exact B| | |].
  - rewrite <- C. apply set_eq. intros p. rewrite !elem_of_dom, crash_lookup, fmap_is_Some. reflexivity.
  - intros id l Hl. destruct (D id l Hl) as (d & (e & He & Hd) & Pd & Hs). exists (take (Nat.max (synced_len (segment_name id) s) (cut (segment_name id))) d). split; [|split].
    + eexists. rewrite crash_lookup, He. split; [reflexivity|]. cbn. rewrite Hd. reflexivity.
    + etrans; [apply prefix_take|exact Pd].
    + unfold synced_len at 1. rewrite crash_synced, He. cbn. rewrite Hd. reflexivity.
  - intros p. rewrite crash_lookup, crash_synced. destruct (disk (st_fs s) !! p); [discriminate|reflexivity].
Qed.

Lemma crash_safe cut s segs c e id : files_ok s segs -> safe s segs c e id -> safe (crash cut s) segs c e id.
Proof.
  intros F Hsafe. eapply safe_mono; [exact Hsafe|apply extends_refl|]. destruct Hsafe as (l & j & Hl & _). destruct (fo_data _ _ F id l Hl) as (d & (e' & He & Hd) & _ & Hs).
  unfold synced_len at 2. rewrite crash_synced, He. cbn. rewrite Hd, length_take. lia.
Qed.

Lemma names_NoDup s segs : files_ok s segs -> NoDup (map segment_name segs.*1).
Proof.
  intros F. apply NoDup_fmap_2_strong; [intros x y Hx Hy E; eapply names_inj; [apply (fo_pos _ _ F)|exact Hx|exact Hy|exact E]|].
  pose proof (fo_sorted _ _ F) as Hs. clear -Hs. induction segs.*1 as [|i ids IH]; [constructor|]. inversion Hs as [|? ? H1 H2]; subst. constructor; [|apply IH; exact H1].
  intros Hi. rewrite Forall_forall in H2. specialize (H2 i Hi). lia.
Qed.

(** The segments of a directory, in the order of their ids. *)
Lemma segment_names s segs : files_ok s segs -> segmentFileNames s = (Ok (map segment_name segs.*1), s).
Proof.
  intros F. unfold segmentFileNames. do 2 f_equal.
  assert (StronglySorted String.le (map segment_name segs.*1)) as Hsort.
  { pose proof (fo_sorted _ _ F) as Hs. pose proof (fo_pos _ _ F) as Hp. clear F. induction segs.*1 as [|i ids IH]; [constructor|]. inversion Hs as [|? ? H1 H2]; subst. apply Forall_cons in Hp as [Hi Hp].
    cbn. constructor; [apply IH; assumption|]. apply Forall_forall. intros n Hn. apply list_elem_of_fmap in Hn as (j & -> & Hj). rewrite Forall_forall in H2, Hp. apply segment_name_le; [lia|specialize (Hp j Hj); lia|]. specialize (H2 j Hj). lia. }
  apply (StronglySorted_unique String.le); [apply (StronglySorted_merge_sort String.le)|exact Hsort|]. rewrite (merge_sort_Permutation String.le).
  assert (forall n, n ∈ map fst (map_to_list (disk (st_fs s))) <-> n ∈ map segment_name segs.*1) as Hel.
  { intros n. rewrite <- (elem_of_list_to_set (C := gset string) n (map segment_name segs.*1)), <- (fo_dom _ _ F), elem_of_dom. split.
    - intros H. apply list_elem_of_fmap in H as ([n' e] & -> & H). apply elem_of_map_to_list in H. eauto.
    - intros [e H]. apply elem_of_map_to_list in H. exact (elem_of_map fst _ _ H). }
  apply NoDup_Permutation.
  - apply NoDup_ListNoDup, List.NoDup_filter, NoDup_ListNoDup. apply NoDup_fst_map_to_list.
  - exact (names_NoDup s segs F).
  - intros n. rewrite <- Hel. rewrite !list_elem_of_In, filter_In. split; [intros [H _]; exact H|]. intros H. split; [exact H|].
    apply list_elem_of_In, Hel, list_elem_of_fmap in H as (id & -> & _). apply segment_name_matches.
Qed.

(** The last segment is empty and goes. *)
Lemma files_ok_drop_last s s' segs id l :
  files_ok s (segs ++ [(id, l)]) -> disk (st_fs s') = delete (segment_name id) (disk (st_fs s)) -> st_synced s' = delete (segment_name id) (st_synced s) -> files_ok s' segs.
Proof.
  intros F Ed Es. pose proof (last_names _ _ _ _ F) as Hne. destruct F as [A B C D G]. rewrite fmap_app in A, B, C. split.
  - eapply StronglySorted_app_1_l. exact A.
  - apply Forall_app in B as [B _]. exact B.
  - rewrite Ed, dom_delete_L, C, map_app, list_to_set_app_L. cbn. apply set_eq. intros p. rewrite elem_of_difference, elem_of_union, elem_of_union, elem_of_empty, elem_of_singleton, elem_of_list_to_set. split; [intros [[H|[H|[]]] H']; [exact H|contradiction]|].
    intros H. split; [left; exact H|]. apply list_elem_of_fmap in H as (i & -> & Hi). apply list_elem_of_fmap in Hi as ([i' l'] & -> & Hi). apply (Hne i' l' Hi).
  - intros i l' Hi. destruct (D i l' ltac:(apply elem_of_app; left; exact Hi)) as (d & Hd). exists d. destruct (Hne i l' Hi) as [_ Hn]. unfold file_at, synced_len in *. rewrite Ed, Es, !lookup_delete_ne by congruence. exact Hd.
  - intros p. rewrite Ed, Es. intros H. apply lookup_delete_None in H as [<-|H]; [apply lookup_delete_eq|]. rewrite lookup_delete_None. right. apply G. exact H.
Qed.

Lemma old_sizes_spec l n w : wp (old_sizes l n) (fun r w' => r <> Panic /\ same_log w w') w.
Proof.
  revert n w. induction l as [|p l IH]; intros n w; cbn [old_sizes]; [apply wp_ret; split; [discriminate|repeat split]|].
  apply wp_bind, wp_on_w_store. destruct (os_Stat_same p (w_store w)) as (r & s1 & E & Hr & Es & Ed & _). unfold wp at 1. rewrite E.
  destruct r as [e| |]; cbn [seq_post]; [|split; [discriminate|repeat split; assumption]|congruence]. step. eapply wp_mono; [apply IH|]. intros r w' (H1 & H2 & H3 & H4 & H5 & H6 & H7).
  split; [exact H1|]. destruct (w_lastWrite _ <? _); cbn in *; repeat split; congruence.
Qed.

(** A log that has no writer yet. *)
Record idle (s : store) (h : hist) (segs : segments) : Prop := {
  id_files : files_ok s segs;
  id_hist : hist_ok h segs;
  id_acked c e id : (c, e) ∈ h_issued h -> (c, id) ∈ h_placed h -> c ∈ h_acked h -> safe s segs c e id;
  id_known c : c ∈ h_acked h -> c ∈ (h_issued h).*1 }.

Lemma linv_idle wid w h segs :
  idle (w_store w) h segs -> Forall (fun id => id <= w_id w) segs.*1 -> 0 <= w_id w -> w_writer w = None -> w_waiters w = [] -> w_answers w = [] -> linv wid w h segs.
Proof.
  intros [A B C D] Hid H0 Ew Ews Ea. split; [exact A|exact B|auto| |rewrite Ew; exact Ews|].
  - rewrite Ea. intros c e id H1 H2 [H3|H3]; [exact (C c e id H1 H2 H3)|]. apply elem_of_nil in H3 as [].
  - rewrite Ea, Ews. intros c [H|[H|H]]; [exact (D c H)|apply elem_of_nil in H as []|apply elem_of_nil in H as []].
Qed.

Lemma idle_same s s' h segs : disk (st_fs s') = disk (st_fs s) -> st_synced s' = st_synced s -> idle s h segs -> idle s' h segs.
Proof.
  intros E1 E2 [A B C D]. split; [eapply files_ok_same; eassumption|exact B| |exact D]. intros c e id H1 H2 H3. eapply safe_mono; [exact (C c e id H1 H2 H3)|apply extends_refl|].
  unfold synced_len. rewrite E2. reflexivity.
Qed.

Lemma idle_drop_last s s' h segs id l d :
  idle s h (segs ++ [(id, l)]) -> file_at (segment_name id) s d -> d = [] ->
  disk (st_fs s') = delete (segment_name id) (disk (st_fs s)) -> st_synced s' = delete (segment_name id) (st_synced s) -> idle s' h segs.
Proof.
  intros [A [B1 B2 B3 B4] C D] Fd -> E1 E2. split; [eapply files_ok_drop_last; eassumption|split; [|exact B2|exact B3|exact B4]| |exact D].
  - etrans; [|exact B1]. rewrite fmap_app, concat_app. apply sublist_inserts_r. reflexivity.
  - intros c e i H1 H2 H3. destruct (C c e i H1 H2 H3) as (l' & j & Hl & Hj & Hs). apply elem_of_app in Hl as [Hl|Hl].
    + exists l', j. split; [exact Hl|]. split; [exact Hj|]. destruct (last_names _ _ _ _ A i l' Hl) as [_ Hn]. unfold synced_len in *. rewrite E2, lookup_delete_ne by congruence. exact Hs.
    + exfalso. apply list_elem_of_singleton in Hl. injection Hl as -> ->. destruct (fo_data _ _ A id l ltac:(apply elem_of_app; right; left)) as (d & Fd' & _ & Hd).
      rewrite (file_at_fun _ _ _ _ Fd' Fd) in Hd. cbn in Hd. unfold seg_bytes in Hs. rewrite (take_S_r _ _ _ Hj), fmap_app, segment_bytes_app, zlen_app in Hs.
      pose proof (zlen_nonneg (segment_bytes (take j l).*2)). change (segment_bytes [(c, e)].*2) with (frame e ++ []) in Hs. rewrite app_nil_r, zlen_frame in Hs. pose proof (zlen_nonneg (payload e)). lia.
Qed.

Lemma os_RemoveFile_cases p s :
  exists r s', os_RemoveFile p s = (r, s') /\ r <> Panic
    /\ ((disk (st_fs s') = disk (st_fs s) /\ st_synced s' = st_synced s) \/ (disk (st_fs s') = delete p (disk (st_fs s)) /\ st_synced s' = delete p (st_synced s))).
Proof.
  unfold os_RemoveFile, bind, sys, os_Remove, syscall. destruct (tick_disk (st_fs s)) as (x & f & Ht & Hd & _). unfold bind. rewrite Ht.
  destruct x as [|k]; cbn; [rewrite Hd; destruct (disk (st_fs s) !! p) eqn:E; cbn|]; eexists _, _; (split; [reflexivity|split; [discriminate|]]); cbn; rewrite ?Hd; auto.
Qed.

Lemma WAL_Open_spec s h segs :
  idle s h segs -> wp (WAL_Open true) (fun r w' => r = Ok tt -> w_id w' < 100000 -> exists segs', linv (w_id w') w' h segs') (NewWAL s).
Proof.
  intros I. unfold WAL_Open. cbn [negb]. apply wp_bind, wp_on_w_store. unfold wp at 1. cbn [NewWAL w_store]. rewrite (segment_names s segs (id_files _ _ _ I)). cbn [seq_post].
  assert (forall (names : list string) w, (w_id w < 100000 -> exists segs', linv (w_id w) w h segs') ->
    wp (let* totalOldDiskSize := old_sizes names 0 in do* store_OldBytes totalOldDiskSize in modify (set_w_closing false))
       (fun r w' => r = Ok tt -> w_id w' < 100000 -> exists segs', linv (w_id w') w' h segs') w) as Hend.
  { intros names w Hl. apply wp_bind. eapply wp_mono; [apply old_sizes_spec|]. intros r w1 (Hr & S1). destruct r; cbn [seq_post]; [|discriminate|congruence].
    step. apply wp_modify. intros _. cbn [set_w_closing w_id]. cbn. intros Hid. assert (w_id w1 = w_id w) as Eid by apply S1. rewrite Eid in *. destruct (Hl Hid) as (segs' & L). exists segs'.
    eapply linv_same; [|exact L]. destruct S1 as (H1 & H2 & H3 & H4 & H5 & H6). repeat split; assumption. }
  apply wp_bind. destruct segs as [|[i0 l0] segs0] using rev_ind.
  { cbn [fmap list_fmap map last]. apply wp_ret. cbn [seq_post]. apply Hend. intros _. exists []. apply linv_idle; [exact I|constructor|cbn; lia|reflexivity|reflexivity|reflexivity]. }
  clear IHsegs0. rewrite fmap_app, map_app. cbn [fmap list_fmap map]. rewrite last_snoc.
  pose proof (fo_pos _ _ (id_files _ _ _ I)) as Hpos. rewrite fmap_app in Hpos. apply Forall_app in Hpos as [Hpos0 Hpos1]. apply Forall_cons in Hpos1 as [Hi0 _]. cbn [fst] in *.
  rewrite idFromFileName_name by lia. step. apply wp_bind, wp_on_w_store. change (w_store (set_w_id i0 (set_w_store s (NewWAL s)))) with s.
  destruct (os_Stat_same (segment_name i0) s) as (r & s1 & E1 & Hr1 & Es1 & Ed1 & Hst). unfold wp at 1. rewrite E1. destruct r as [e| |]; cbn [seq_post]; [|discriminate|congruence].
  specialize (Hst e eq_refl). pose proof (idle_same s s1 h _ Ed1 Es1 I) as I1.
  assert (forall segs1 s2, idle s2 h segs1 -> Forall (fun i => i <= i0) segs1.*1 -> forall names : list string,
    wp (do* newSegmentFile in ret names) (fun r w => seq_post (fun segments => let* totalOldDiskSize := old_sizes segments 0 in do* store_OldBytes totalOldDiskSize in modify (set_w_closing false))
      (fun r w' => r = Ok tt -> w_id w' < 100000 -> exists segs', linv (w_id w') w' h segs') r w) (set_w_store s2 (set_w_id i0 (set_w_store s (NewWAL s))))) as Hnew.
  { intros segs1 s2 I2 Hle names. apply wp_bind. eapply wp_mono; [apply (newSegmentFile_spec _ h segs1)|].
    - apply linv_idle; [exact I2|exact Hle|cbn; lia|reflexivity|reflexivity|reflexivity].
    - intros r w' (Hr & _ & _ & _ & Hl). destruct r as [[]| |]; cbn [seq_post]; [|discriminate|congruence]. apply wp_ret. cbn [seq_post]. apply Hend. intros Hid. destruct (Hl Hid) as (segs' & L & _). eauto. }
  assert (Forall (fun i => i <= i0) segs0.*1) as Hle0.
  { apply Forall_forall. intros i Hi. apply list_elem_of_fmap in Hi as ([i' l'] & -> & Hi). destruct (last_names _ _ _ _ (id_files _ _ _ I) i' l' Hi). cbn. lia. }
  assert (Forall (fun i => i <= i0) (segs0 ++ [(i0, l0)]).*1) as Hle1 by (rewrite fmap_app; apply Forall_app; split; [exact Hle0|repeat constructor; cbn; lia]).
  apply wp_bind. destruct (Z.eqb_spec (zlen (de_data e)) 0) as [Hz|Hz].
  - apply wp_catch, wp_on_w_store. change (w_store (set_w_store s1 ?w)) with s1. change (set_w_store ?s' (set_w_store s1 ?w)) with (set_w_store s' w). destruct (os_RemoveFile_cases (segment_name i0) s1) as (r & s2 & E2 & Hr2 & Hcase). unfold wp at 1. rewrite E2.
    assert (de_data e = []) as Ee by (destruct (de_data e) as [|z l]; [reflexivity|]; rewrite zlen_cons in Hz; pose proof (zlen_nonneg l); lia).
    assert (exists segs1, idle s2 h segs1 /\ Forall (fun i => i <= i0) segs1.*1) as (segs1 & I2 & Hle2).
    { destruct Hcase as [[Ed2 Es2]|[Ed2 Es2]]; [exists (segs0 ++ [(i0, l0)]); split; [eapply idle_same; eassumption|exact Hle1]|].
      exists segs0. split; [|exact Hle0]. eapply idle_drop_last; [exact I1| |exact Ee|exact Ed2|exact Es2]. exists e. rewrite Ed1. auto. }
    destruct r; [| |congruence]; apply wp_ret; cbn [seq_post]; apply (Hnew segs1 s2 I2 Hle2).
  - apply wp_ret. cbn [seq_post]. apply (Hnew (segs0 ++ [(i0, l0)]) s1 I1 Hle1).
Qed.

(** ** Runs *)

Lemma collect_linv wid x segs : linv wid x.1 x.2 segs -> linv wid (collect x).1 (collect x).2 segs.
Proof.
  intros [A [B1 B2 B3 B4] C D F K]. split; cbn; [exact A|split; [exact B1|exact B2|exact B3|exact B4]|exact C| | |].
  - intros c e id H1 H2 [H3|H3]; [|apply elem_of_nil in H3 as []]. apply (D c e id H1 H2). apply elem_of_app in H3 as [H3|H3]; [left; exact H3|right].
    apply list_elem_of_omap in H3 as ([c' [err|]] & Ha & E); cbn in E; [discriminate|]. injection E as ->. exact Ha.
  - destruct (w_writer x.1); exact F.
  - intros c [H|[H|H]]; [|apply elem_of_nil in H as []|exact (K c (or_intror (or_intror H)))]. apply elem_of_app in H as [H|H]; [exact (K c (or_introl H))|].
    apply list_elem_of_omap in H as ([c' [err|]] & Ha & E); cbn in E; [discriminate|]. injection E as ->. apply K. right. left. exact (list_elem_of_fmap_2 fst _ (c, None) Ha).
Qed.

Lemma run_op_linv op x segs :
  linv (w_id x.1) x.1 x.2 segs -> w_answers x.1 = [] -> op_ok op x ->
  (exec_op op x.1 x.2).1 <> Panic /\ exists segs', linv (w_id (run_op op x).1) (run_op op x).1 (run_op op x).2 segs'.
Proof.
  destruct x as [w h]. cbn [fst snd]. intros L Ha [Hok Hid]. unfold run_op in *. cbn [fst snd] in *.
  assert (forall m : WM unit, keeps h m w -> w_id (m w).2 < 100000 -> (m w).1 <> Panic /\ exists segs', linv (w_id (m w).2) (collect ((m w).2, h)).1 (collect ((m w).2, h)).2 segs') as Hplain.
  { intros m Hk Hlt. unfold keeps, wp in Hk. destruct (m w) as [r w']. cbn [fst snd] in *. destruct Hk as [Hr Hl]. split; [exact Hr|]. destruct (Hl Hlt) as (segs' & L'). exists segs'.
    exact (collect_linv (w_id w') (w', h) segs' L'). }
  destruct op as [c e| | | |files|cut]; cbn [exec_op] in *.
  - destruct Hok as [He Hc]. assert (writeToLog c e w = append_entry c (Entry_Type e) (payload e) w) as E.
    { unfold writeToLog, payload. destruct (entry_codec e (proj1 He)) as (b & -> & _). reflexivity. }
    rewrite E in *. pose proof (append_entry_spec w h segs c e L Hc He) as H. unfold wp in H. destruct (append_entry c (Entry_Type e) (payload e) w) as [r w']. cbn [fst snd] in *.
    destruct (H Hid) as [Hr (segs' & L')]. split; [destruct r; congruence|]. exists segs'. apply (collect_linv (w_id w') (w', _) segs'). cbn [fst snd]. destruct r; exact L'.
  - specialize (Hplain sync_tick (sync_tick_spec w h segs L)). destruct (sync_tick w) as [r w']. apply Hplain. exact Hid.
  - specialize (Hplain CloseSegment (CloseSegment_spec w h segs L)). destruct (CloseSegment w) as [r w']. apply Hplain. exact Hid.
  - specialize (Hplain WAL_Close (WAL_Close_spec w h segs L)). destruct (WAL_Close w) as [r w']. apply Hplain. exact Hid.
  - pose proof (WAL_Remove_spec w h segs files L Hok) as H. unfold wp in H. destruct (WAL_Remove files w) as [r w']. destruct H as [Hr (segs' & L')]. split; [exact Hr|]. exists segs'.
    exact (collect_linv (w_id w') (w', _) segs' L').
  - assert (idle (crash cut (w_store w)) h segs) as I.
    { destruct L as [A B C D F K]. split; [apply crash_files; exact A|exact B| |intros c Hc; apply K; auto]. intros c e id H1 H2 H3. apply crash_safe; [exact A|]. apply (D c e id H1 H2). auto. }
    pose proof (WAL_Open_spec _ _ _ I) as H. unfold wp in H. destruct (WAL_Open true (NewWAL (crash cut (w_store w)))) as [r w']. cbn [fst snd] in *. subst r. split; [discriminate|].
    destruct (H eq_refl Hid) as (segs' & L'). exists segs'. exact (collect_linv (w_id w') (w', h) segs' L').
Qed.

End Runs.
