(* ===== verification/WALDurable.v ===== *)
(** * What the log promises

    Whatever the order of calls, fsyncs, rolls, removals, faults and crashes: an
    entry whose call was answered without an error is read back after a
    crash, nothing is read back that was not written, and the order is that of
    the calls. *)

From S2P Require Import Prelude OSFile Bytes ValueCodec Blocks StringCodec WALEntry WALSegment WALSegmentFacts WAL WALFacts.

Section Durable.
Context `{SN : Snappy} {SL : SnappyLaws}.

(** ** Reading the directory back *)

(** Every segment up to its end or its first corrupt entry, in the order of the
    names. *)
Fixpoint recover_files (s : store) (files : list string) : option (list ReadEntry) :=
  match files with
  | [] => Some []
  | fn :: files' =>
      match recover (file_data fn s), recover_files s files' with
      | Some (es, _, _), Some r => Some (es ++ r)
      | _, _ => None
      end
  end.

Definition recover_dir (s : store) : option (list ReadEntry) :=
  match segmentFileNames s with (Ok files, _) => recover_files s files | _ => None end.

(** An empty directory, with what the system calls will do. *)
Definition empty_store (plan : list fault) : store := mkSt (mkFs ∅ plan 0) ∅.

Definition start (plan : list fault) : WAL * hist := (NewWAL (empty_store plan), mkH [] [] []).

Lemma start_linv plan wid : linv wid (start plan).1 (start plan).2 [].
Proof.
  split; cbn.
  - split; cbn; [constructor|constructor|apply dom_empty_L|intros id l H; apply elem_of_nil in H as []|intros p _; apply lookup_empty].
  - split; cbn; [constructor|constructor|constructor|intros c id H; apply elem_of_nil in H as []].
  - split; [constructor|lia].
  - intros c e id H. apply elem_of_nil in H as [].
  - reflexivity.
  - intros c [H|[H|H]]; apply elem_of_nil in H as [].
Qed.

Lemma run_linv ops x segs :
  linv (w_id x.1) x.1 x.2 segs -> w_answers x.1 = [] -> run_ok ops x ->
  exists segs', linv (w_id (run ops x).1) (run ops x).1 (run ops x).2 segs'.
Proof.
  revert x segs. induction ops as [|op ops IH]; intros x segs L Ha Hok; [exists segs; exact L|]. destruct Hok as [Ho Hok].
  destruct (run_op_linv op x segs L Ha Ho) as (_ & segs1 & L1). cbn [run fold_left]. fold (run ops (run_op op x)). apply (IH (run_op op x) segs1 L1); [reflexivity|exact Hok].
Qed.

(** ** One segment, all segments *)

(** [sel] is what can be read of a segment whose frames are [l]. *)
Definition readable (s : store) (id : Z) (l sel : list (nat * WALEntry)) : Prop :=
  (exists n bad, recover (file_data (segment_name id) s) = Some (map (fun x => read_of x.2) sel, n, bad)) /\ sel `sublist_of` l
  /\ forall c e j, l !! j = Some (c, e) -> zlen (seg_bytes (take (S j) l)) <= Z.of_nat (synced_len (segment_name id) s) -> (c, e) ∈ sel.

Lemma segment_readable s segs id l :
  files_ok s segs -> (id, l) ∈ segs -> Forall (fun x => frame_ok x.2) l -> exists sel, readable s id l sel.
Proof.
  intros F Hl Hok. destruct (fo_data _ _ F id l Hl) as (d & Fd & Pd & Hs). unfold readable. rewrite (file_at_data _ _ _ Fd).
  assert (Forall frame_ok l.*2) as Hok' by (apply Forall_fmap; exact Hok). destruct (recover_prefix l.*2 d Hok' Pd) as (j & Hj & Er & Hle & Hmax). exists (take j l). split; [|split].
  - rewrite Er. rewrite <- fmap_take. rewrite <- list_fmap_compose. eexists _, _. reflexivity.
  - apply sublist_take.
  - intros c e i Hi Hsync. assert (S i <= j)%nat as Hij.
    { apply Hmax; [rewrite length_fmap; apply lookup_lt_Some in Hi; lia|]. unfold seg_bytes in Hsync. rewrite <- fmap_take. unfold zlen in *. lia. }
    apply list_elem_of_lookup. exists i. rewrite lookup_take_lt by lia. exact Hi.
Qed.

Lemma segments_readable s segs l :
  files_ok s (segs ++ l) -> Forall (fun x => Forall (fun y => frame_ok y.2) x.2) l ->
  exists sel, recover_files s (map segment_name l.*1) = Some (map (fun x => read_of x.2) sel) /\ sel `sublist_of` concat l.*2
    /\ forall c e id, safe s l c e id -> (c, e) ∈ sel.
Proof.
  revert segs. induction l as [|[id l0] l IH]; intros segs F Hok.
  { exists []. split; [reflexivity|]. split; [constructor|]. intros c e id (l' & j & H & _). apply elem_of_nil in H as []. }
  apply Forall_cons in Hok as [Hok0 Hok]. destruct (segment_readable s _ id l0 F ltac:(apply elem_of_app; right; left) Hok0) as (sel0 & (n & bad & E0) & S0 & R0).
  destruct (IH (segs ++ [(id, l0)])) as (sel & E & Sub & R); [rewrite <- app_assoc; exact F|exact Hok|].
  exists (sel0 ++ sel). cbn [fmap list_fmap map recover_files fst snd]. change (list_fmap _ _ fst l) with (l.*1). rewrite E0, E. split; [rewrite map_app; reflexivity|]. split; [apply sublist_app; assumption|].
  intros c e i (l' & j & Hl & Hj & Hs). apply elem_of_app. apply elem_of_cons in Hl as [Hl|Hl].
  - injection Hl as -> ->. left. exact (R0 c e j Hj Hs).
  - right. apply (R c e i). exists l', j. auto.
Qed.

Lemma recover_dir_ok s h segs :
  files_ok s segs -> hist_ok h segs -> exists sel, recover_dir s = Some (map (fun x => read_of x.2) sel) /\ sel `sublist_of` h_issued h /\ forall c e id, safe s segs c e id -> (c, e) ∈ sel.
Proof.
  intros F H. unfold recover_dir. rewrite (segment_names s segs F). destruct (segments_readable s [] segs F) as (sel & E & Sub & R).
  - apply Forall_forall. intros [id l] Hl. apply Forall_forall. intros x Hx. pose proof (ho_frames _ _ H) as Hf. rewrite Forall_forall in Hf. apply Hf. exact (seg_issued h segs id l x H Hl Hx).
  - exists sel. split; [exact E|]. split; [etrans; [exact Sub|exact (ho_sub _ _ H)]|exact R].
Qed.

(** C3 (safety). Take any sequence of appends, fsyncs, segment rolls, removals,
    closings and restarts after crashes, on an empty directory, with system calls that fail or
    write short at any point, and stop it with a crash that leaves every file in the
    directory and of each at least what was fsynced.  Then reading the segments back succeeds, and gives entries of
    the calls made, each at most once and in the order of the calls; among them is every
    entry whose call was answered without an error and whose segment, the one
    returned to the caller, has not been removed. *)
Theorem wal_durable (plan : list fault) (ops : list wop) (cut : string -> nat) :
  run_ok ops (start plan) ->
  let '(w, h) := run ops (start plan) in
  exists sel, recover_dir (crash cut (w_store w)) = Some (map (fun x => read_of x.2) sel)
    /\ sel `sublist_of` h_issued h
    /\ forall c e id, (c, e) ∈ h_issued h -> (c, id) ∈ h_placed h -> c ∈ h_acked h -> (c, e) ∈ sel.
Proof.
  intros Hok. destruct (run_linv ops (start plan) [] (start_linv plan _) eq_refl Hok) as (segs & L). destruct (run ops (start plan)) as [w h]. cbn [fst snd] in L.
  pose proof (li_files _ _ _ _ L) as F. destruct (recover_dir_ok (crash cut (w_store w)) h segs (crash_files cut _ _ F) (li_hist _ _ _ _ L)) as (sel & E & Sub & R).
  exists sel. split; [exact E|]. split; [exact Sub|]. intros c e id H1 H2 H3. apply (R c e id), crash_safe; [exact F|]. apply (li_acked _ _ _ _ L c e id H1 H2). auto.
Qed.

(** No operation of the log panics in such a run: the writer is
    there whenever the log goes to it, also after segments failed to roll. *)
Theorem wal_no_panic (plan : list fault) (ops : list wop) (op : wop) :
  run_ok (ops ++ [op]) (start plan) -> (exec_op op (run ops (start plan)).1 (run ops (start plan)).2).1 <> Panic.
Proof.
  intros Hok. assert (forall x segs, linv (w_id x.1) x.1 x.2 segs -> w_answers x.1 = [] -> run_ok (ops ++ [op]) x -> (exec_op op (run ops x).1 (run ops x).2).1 <> Panic) as G.
  { clear Hok. induction ops as [|o ops IH]; intros x segs L Ha [Ho Hok]; [exact (proj1 (run_op_linv op x segs L Ha Ho))|].
    destruct (run_op_linv o x segs L Ha Ho) as (_ & segs1 & L1). apply (IH (run_op o x) segs1 L1 eq_refl Hok). }
  apply (G (start plan) [] (start_linv plan _) eq_refl Hok).
Qed.

End Durable.

(** ** Witnesses *)

#[local] Instance wal_snappy : Snappy := {| snappy_Encode b := b; snappy_Decode := Some |}.
#[local] Instance wal_snappy_laws : SnappyLaws.
Proof. split. reflexivity. Qed.

Definition write_ex : WALEntry := WriteEntry [([99; 112; 117], [VInteger (mkTV 10 1); VInteger (mkTV 20 2)])].
Definition delete_ex : WALEntry := DeleteRangeEntry [[99; 112; 117]] 15 30.

Lemma write_ex_ok : frame_ok write_ex.
Proof.
  split; [|vm_compute; reflexivity]. split; [repeat constructor; apply not_elem_of_nil|]. constructor; [|constructor]. split; [reflexivity|].
  split; [discriminate|]. split; [reflexivity|]. exists integerEntryType. repeat constructor; cbn; unfold is_i64; lia.
Qed.

Lemma delete_ex_ok : frame_ok delete_ex.
Proof. split; [|vm_compute; reflexivity]. split; [unfold is_i64; lia|]. split; [unfold is_i64; lia|]. constructor; [reflexivity|constructor]. Qed.

(** A write that is fsynced, a deletion whose fsync writes short, a crash, a restart, another
    write that never reaches the disk. *)
Definition plan_ex : list fault := [Good; Good; Good; Good; Bad 4].
Definition wal_ops_ex : list wop := [OAppend 1 write_ex; OTick; OAppend 2 delete_ex; OTick; OCrash (fun _ => 1000%nat); OAppend 3 write_ex].

Lemma wal_ops_ex_ok : run_ok wal_ops_ex (start plan_ex).
Proof.
  unfold wal_ops_ex. cbn [run_ok].
  split; [split; [split; [apply write_ex_ok|apply not_elem_of_nil]|vm_compute; reflexivity]|].
  split; [split; [exact I|vm_compute; reflexivity]|].
  split; [split; [split; [apply delete_ex_ok|vm_compute; intros H; inversion H; subst; inversion H2]|vm_compute; reflexivity]|].
  split; [split; [exact I|vm_compute; reflexivity]|].
  split; [split; [vm_compute; reflexivity|vm_compute; reflexivity]|].
  split; [split; [split; [apply write_ex_ok|vm_compute; intros H; inversion H; subst; inversion H2; subst; inversion H3]|vm_compute; reflexivity]|exact I].
Qed.

Lemma wal_durable_witness :
  exists sel, recover_dir (crash (fun _ => 50%nat) (w_store (run wal_ops_ex (start plan_ex)).1)) = Some (map (fun x => read_of x.2) sel) /\ (1%nat, write_ex) ∈ sel.
Proof.
  pose proof (wal_durable plan_ex wal_ops_ex (fun _ => 50%nat) wal_ops_ex_ok) as H.
  assert ((1%nat, write_ex) ∈ h_issued (run wal_ops_ex (start plan_ex)).2) as H1 by (vm_compute; left).
  assert ((1%nat, 1) ∈ h_placed (run wal_ops_ex (start plan_ex)).2) as H2 by (vm_compute; left).
  assert (1%nat ∈ h_acked (run wal_ops_ex (start plan_ex)).2) as H3 by (vm_compute; left).
  destruct (run wal_ops_ex (start plan_ex)) as [w h]. destruct H as (sel & E & _ & Hin). exists sel. split; [exact E|]. exact (Hin _ _ _ H1 H2 H3).
Defined.

Lemma wal_no_panic_witness : (exec_op OTick (run [OAppend 1 write_ex] (start plan_ex)).1 (run [OAppend 1 write_ex] (start plan_ex)).2).1 <> Panic.
Proof.
  apply (wal_no_panic plan_ex [OAppend 1 write_ex] OTick). cbn [app run_ok].
  split; [split; [split; [apply write_ex_ok|apply not_elem_of_nil]|vm_compute; reflexivity]|]. split; [split; [exact I|vm_compute; reflexivity]|exact I].
Defined.

(** ** What goes wrong *)

(** From segment 100000 on names are not in the order of ids: the log opened on
    segments 99999 and 100000 takes the first for the last and reuses the
    file of the other, whose entries it overwrites. *)
Definition late_store : store :=
  mkSt (mkFs {[ segment_name 99999 := mkDirent false (frame write_ex) 0; segment_name 100000 := mkDirent false (frame write_ex ++ frame delete_ex) 0 ]} [] 0) ∅.

Example late_segment_overwritten :
  let w := (WAL_Open true (NewWAL late_store)).2 in
  let w' := (sync_tick (writeToLog 1 delete_ex w).2).2 in
  option_map sw_path (w_writer w) = Some (segment_name 100000)
  /\ take (length (frame delete_ex)) (file_data (segment_name 100000) (w_store w')) = frame delete_ex
  /\ length (file_data (segment_name 100000) (w_store w')) = length (file_data (segment_name 100000) late_store).
Proof. vm_compute. auto. Qed.

(** A segment that cannot be opened when the log rolls leaves the closed one in
    place: every later write fails, although the disk has recovered. *)
Definition after_failed_roll : WAL :=
  let w := (writeToLog 1 write_ex (NewWAL (empty_store []))).2 in
  let w := (sync_tick w).2 in
  let w := set_w_store (mkSt (mkFs (disk (st_fs (w_store w))) [Good; Good; Bad 0] 0) (st_synced (w_store w))) w in
  (CloseSegment w).2.

Example failed_roll_wedges :
  let w := after_failed_roll in
  let w1 := (sync_tick (writeToLog 2 write_ex w).2).2 in
  faults (st_fs (w_store w)) = [] /\ w_answers w1 = [(1%nat, None); (2%nat, Some ErrFile)] /\ (CloseSegment w1).1 = Err ErrFile /\ (writeToLog 3 write_ex w1).1 = Err ErrFile.
Proof. vm_compute. auto. Qed.

(** Close runs once: after reopening the log a second Close does nothing, and the
    log goes on taking writes. *)
Example second_close_ignored :
  let w := (WAL_Close (NewWAL (empty_store []))).2 in
  let w := (WAL_Open true w).2 in
  let w := (WAL_Close w).2 in
  w_closing w = false /\ (writeToLog 1 write_ex w).1 = Ok 1.
Proof. vm_compute. auto. Qed.
