(* ===== verification/CacheLoader.v ===== *)
(** * Loading the cache from the write-ahead log

    [tsdb/engine/tsm1/cache.go], [CacheLoader], and [reloadCache] of
    [tsdb/engine/tsm1/engine.go].  The order in which the map of a batch is
    ranged over is a parameter.  Reading a file that has been opened does not
    fail; opening, truncating and the rest may. *)

From S2P Require Import Prelude OSFile Bytes StringCodec Blocks WALEntry WALSegment WAL Ring Cache.

Inductive load_error := LoadFile (e : wal_error) | LoadCache (e : cache_error).

(** [f.Truncate(n)] *)
Definition os_Truncate (p : string) (n : Z) : M store wal_error unit :=
  sys (syscall (modify (fun f =>
    match disk f !! p with
    | Some e => set_disk (<[p := mkDirent (de_dir e) (take (Z.to_nat n) (de_data e)) (now f)]> (disk f)) f
    | None => f
    end))).

Section Loader.
Context `{SN : Snappy} (Sum64 : list Z -> Z) (tsdb_EOF : Z).
(** The pairs of a map in the order of a [range] loop. *)
Variable range : gmap (list Z) (list Value) -> list (list Z * list Value).

Definition apply_entry (e : ReadEntry) (c : Cache) : res cache_error unit * Cache :=
  match e with
  | ReadWrite m => WriteMulti Sum64 (range m) c
  | ReadDeleteRange keys mn mx => c_DeleteRange Sum64 tsdb_EOF keys mn mx c
  | ReadDelete keys => c_Delete Sum64 tsdb_EOF keys c
  end.

(** The loop over the entries of a file: where to truncate it, if it is corrupt.
    Every round takes at least five bytes. *)
Fixpoint load_loop (fuel : nat) (r : WALSegmentReader) (c : Cache) : res load_error (option Z) * Cache :=
  match fuel with
  | O => (Err (LoadFile ErrWALCorrupt), c)
  | S fuel' =>
      match sr_Next r with
      | (Ok false, _) => (Ok None, c)
      | (Ok true, r) =>
          match sr_Read r with
          | Err _ => (Ok (Some (sr_Count r)), c)
          | Ok (Some e) =>
              match apply_entry e c with
              | (Ok _, c) => load_loop fuel' r c
              | (Err x, c) => (Err (LoadCache x), c)
              | (Panic, c) => (Panic, c)
              end
          | Ok None => load_loop fuel' r c
          | Panic => (Panic, c)
          end
      | (Err e, _) => (Err (LoadFile e), c)
      | (Panic, _) => (Panic, c)
      end
  end.

Abbreviation LM := (M (store * Cache) load_error).

Definition on_files {A} (m : M store wal_error A) : LM A :=
  fun x => let '(r, s) := m x.1 in (match r with Ok a => Ok a | Err e => Err (LoadFile e) | Panic => Panic end, (s, x.2)).

Definition on_cache {A} (m : Cache -> res load_error A * Cache) : LM A := fun x => let '(r, c) := m x.2 in (r, (x.1, c)).

(** One file.  The reader is reset for each. *)
Definition load_file (fn : string) : LM unit :=
  do* on_files (sys (os_OpenFile fn)) in
  let* stat := on_files (sys (os_Stat fn)) in
  if zlen (de_data stat) =? 0 then ret tt
  else
    let* bad := on_cache (load_loop (S (length (de_data stat))) (NewWALSegmentReader (de_data stat))) in
    match bad with
    | Some n => on_files (os_Truncate fn n)
    | None => ret tt
    end.

Fixpoint Load (files : list string) : LM unit :=
  match files with
  | [] => ret tt
  | fn :: files' => do* load_file fn in Load files'
  end.

(** No limit while loading; it is put back also after an error. *)
Definition reloadCache : LM unit :=
  let* files := on_files segmentFileNames in
  let* x := get in
  let limit := c_maxSize x.2 in
  do* modify (fun x => (x.1, SetMaxSize 0 x.2)) in
  fun x => let '(r, x') := Load files x in (r, (x'.1, SetMaxSize limit x'.2)).

End Loader.
