(* ===== verification/CacheReplay.v ===== *)
(** * Replaying entries onto the cache

    A log whose writes give each key values of one type replays without an
    error, and the cache then holds what applying the entries one after another to maps
    gives.  Range deletions are taken over all of time: over part of it the cache is
    exact on sorted values only. *)

From S2P Require Import Prelude OSFile Bytes ValueCodec Blocks Values TypedValues StringCodec WALEntry WALSegment WALSegmentFacts Ring Cache CacheFacts CacheLoader.

Section Replay.
Context (Sum64 : list Z -> Z) (tsdb_EOF : Z).
Context (range : gmap (list Z) (list Value) -> list (list Z * list Value)) (range_all : forall m, range m ≡ₚ map_to_list m).
(** The type of the values of each key. *)
Context (ty : list Z -> Z).

Abbreviation abs := (abs Sum64 tsdb_EOF).
Abbreviation live_entry := (live_entry Sum64).
Abbreviation tmap := (tmap tsdb_EOF).
Abbreviation cinv := (cinv Sum64).
Abbreviation apply_entry := (apply_entry Sum64 tsdb_EOF range).

(** ** The specification *)

Definition min_time : Z := - 2 ^ 63.
Definition max_time : Z := 2 ^ 63 - 1.

Definition apply_spec (e : ReadEntry) (m : list Z -> gmap Z Value) : list Z -> gmap Z Value :=
  match e with
  | ReadWrite w => fun k => match w !! k with Some vs => tmap vs ∪ m k | None => m k end
  | ReadDelete keys => fun k => if decide (k ∈ keys) then without min_time max_time (m k) else m k
  | ReadDeleteRange keys mn mx => fun k => if decide (k ∈ keys) then without mn mx (m k) else m k
  end.

Definition value_in (k : list Z) (v : Value) : Prop := proper v /\ valueType v = ty k /\ is_i64 (Value_UnixNano tsdb_EOF v).

Definition read_ok (e : ReadEntry) : Prop :=
  match e with
  | ReadWrite m => forall k vs, m !! k = Some vs -> vs <> [] /\ Forall (value_in k) vs
  | ReadDelete _ => True
  | ReadDeleteRange _ mn mx => mn = min_time /\ mx = max_time
  end.

Definition read_weight (e : ReadEntry) : Z :=
  match e with ReadWrite m => sizes (map_to_list m) + key_sizes (map_to_list m) | _ => 0 end.

(** The loader's loop without the file. *)
Fixpoint replay (es : list ReadEntry) (c : Cache) : res cache_error unit * Cache :=
  match es with
  | [] => (Ok tt, c)
  | e :: es' => match apply_entry e c with (Ok _, c') => replay es' c' | r => r end
  end.

(** ** A cache while it is loaded *)

Record rinv (B : Z) (c : Cache) : Prop := {
  ri_cinv : cinv c;
  ri_types k e : live_entry c k = Some e -> e_vtype e = ty k;
  ri_times k : Forall (fun v => is_i64 (Value_UnixNano tsdb_EOF v)) (vals_of (live_entry c k));
  ri_max : c_maxSize c = 0;
  ri_size : c_size c + c_snapshotSize c <= B }.

Lemma sizes_perm l l' : l ≡ₚ l' -> sizes l = sizes l' /\ key_sizes l = key_sizes l'.
Proof. induction 1 as [|x l l' H [IH1 IH2]|x y l|l1 l2 l3 H1 [IH1 IH2] H2 [IH3 IH4]]; cbn; unfold sizes, key_sizes in *; split; lia. Qed.

(** Values of the key's type are taken, and the entry has that type. *)
Lemma written_typed k vs o :
  vs <> [] -> Forall (fun v => valueType v = ty k) vs -> (forall e, o = Some e -> e_vtype e = ty k) ->
  exists e, written vs o = Ok (Some e) /\ e_vtype e = ty k.
Proof.
  intros Hne Hv Ho. destruct vs as [|v vs]; [congruence|].
  assert (forall t, t = ty k -> forallb (fun x => t =? valueType x) (v :: vs) = true) as Hall.
  { intros t ->. apply forallb_forall. intros x Hx. rewrite Forall_forall in Hv. rewrite (Hv x) by (apply list_elem_of_In; exact Hx). apply Z.eqb_refl. }
  unfold written. destruct o as [e|].
  - unfold entry_add. rewrite (Hall _ (Ho e eq_refl)). eexists. split; [reflexivity|]. exact (Ho e eq_refl).
  - unfold newEntryValues. apply Forall_cons in Hv as [Hv _]. rewrite (Hall _ Hv). eexists. split; [reflexivity|]. exact Hv.
Qed.

Definition types (s : storer) : Prop := forall k e, slookup Sum64 s k = Some e -> e_vtype e = ty k.

Lemma write_all_typed l added c :
  ring_store Sum64 (c_store c) -> types (c_store c) -> Forall (fun x => x.2 <> [] /\ Forall (value_in x.1) x.2) l ->
  0 <= c_size c -> c_size c + key_sizes l < 2 ^ 64 ->
  exists added' c', write_all Sum64 l None added c = Some (None, added', c') /\ types (c_store c') /\ c_maxSize c' = c_maxSize c
    /\ c_snapshotSize c' = c_snapshotSize c /\ c_size c' <= c_size c + key_sizes l.
Proof.
  intros Hr Ht Hl. revert added c Hr Ht. induction Hl as [|[k vs] l [Hne Hv] _ IH]; intros added c Hr Ht H0 Hfit.
  { exists added, c. cbn. repeat split; auto; lia. }
  cbn [write_all key_sizes fold_right fst snd] in *. fold (key_sizes l) in *. pose proof (zlen_nonneg k). pose proof (key_sizes_nonneg l).
  destruct Hr as (r & Er & Hr). rewrite Er in *.
  destruct (written_typed k vs (slookup Sum64 (RingStore r) k) Hne ltac:(eapply Forall_impl; [exact Hv|]; intros v (_ & H' & _); exact H') (Ht k)) as (e & Ew & Ee).
  destruct (st_write_spec Sum64 r k vs Hr) as (s' & Hch & (r' & Hex) & ->). rewrite Ew in *.
  assert (types s') as Ht'. { destruct Hch as (_ & Hk & Hn). intros k' e' E. destruct (decide (k' = k)) as [->|N]; [congruence|]. rewrite Hn in E by exact N. exact (Ht k' e' E). }
  assert (ring_store Sum64 s') as Hr' by (exists r'; split; [exact Hex|]; subst s'; apply Hch).
  destruct (slookup Sum64 (RingStore r) k).
  - destruct (IH added (set_store s' c) Hr' Ht') as (added' & c' & E & T & M & S & Z); cbn [set_store c_size] in *; [lia|lia|]. exists added', c'. repeat split; auto; cbn in *; lia.
  - destruct (IH (u64 (added + zlen k)) (increaseSize (zlen k) (set_store s' c)) Hr' Ht') as (added' & c' & E & T & M & S & Z);
      cbn [increaseSize set_size set_store c_size] in *; rewrite ?u64_small in * by lia; [lia|lia|]. exists added', c'. repeat split; auto; cbn in *; lia.
Qed.

Lemma overlays_all l m k :
  NoDup l.*1 -> overlays tsdb_EOF l (map (fun _ => true) l) m k = match (list_to_map l : gmap (list Z) (list Value)) !! k with Some vs => tmap vs ∪ m k | None => m k end.
Proof.
  revert m. induction l as [|[k0 vs] l IH]; intros m Hn; [reflexivity|]. apply NoDup_cons in Hn as [Hk Hn]. cbn [map overlays]. rewrite IH by exact Hn. rewrite list_to_map_cons.
  unfold overlay. destruct (decide (k = k0)) as [->|N].
  - rewrite lookup_insert_eq, not_elem_of_list_to_map_1 by exact Hk. reflexivity.
  - rewrite lookup_insert_ne by congruence. reflexivity.
Qed.

Lemma all_true_map (ok : list bool) {A} (l : list A) : length ok = length l -> Forall (fun b => b = true) ok -> ok = map (fun _ => true) l.
Proof. revert l. induction ok as [|b ok IH]; intros [|x l] Hl H; try discriminate; [reflexivity|]. apply Forall_cons in H as [-> H]. cbn. f_equal. apply IH; [cbn in Hl; lia|exact H]. Qed.

Lemma init_fields c : c_maxSize (init c) = c_maxSize c.
Proof. unfold init. destruct (c_initialized c); reflexivity. Qed.

Lemma types_live c : types (c_store c) <-> forall k e, live_entry c k = Some e -> e_vtype e = ty k.
Proof. reflexivity. Qed.

Lemma init_types c : cinv c -> types (c_store c) -> types (c_store (init c)).
Proof.
  intros H Ht. unfold init. destruct (c_initialized c) eqn:E; [exact Ht|]. cbn [c_store]. intros k e He. destruct (fresh_store_spec Sum64) as (r & Er & _ & Hn). rewrite Er, Hn in He. discriminate.
Qed.

(** ** Writes *)

Lemma map_to_list_ok m : read_ok (ReadWrite m) -> Forall (fun x => x.2 <> [] /\ Forall (value_in x.1) x.2) (range m).
Proof. intros H. apply Forall_forall. intros [k vs] Hx. apply H. rewrite range_all in Hx. apply elem_of_map_to_list in Hx. exact Hx. Qed.

Lemma live_times c c' (l : list (list Z * list Value)) :
  (forall k, Forall (fun v => is_i64 (Value_UnixNano tsdb_EOF v)) (vals_of (live_entry c k))) -> Forall (fun x => Forall (value_in x.1) x.2) l ->
  (forall k v, v ∈ vals_of (live_entry c' k) -> v ∈ vals_of (live_entry c k) \/ exists vs, (k, vs) ∈ l /\ v ∈ vs) ->
  forall k, Forall (fun v => is_i64 (Value_UnixNano tsdb_EOF v)) (vals_of (live_entry c' k)).
Proof.
  intros Ht Hl Hin k. apply Forall_forall. intros v Hv. destruct (Hin k v Hv) as [H|(vs & H1 & H2)].
  - specialize (Ht k). rewrite Forall_forall in Ht. exact (Ht v H).
  - rewrite Forall_forall in Hl. specialize (Hl _ H1). cbn in Hl. rewrite Forall_forall in Hl. apply (Hl v H2).
Qed.

(** Where the values of an entry after a batch come from. *)
Lemma write_all_vals l werr added c x :
  ring_store Sum64 (c_store c) -> write_all Sum64 l werr added c = Some x ->
  forall k v, v ∈ vals_of (live_entry x.2 k) -> v ∈ vals_of (live_entry c k) \/ exists vs, (k, vs) ∈ l /\ v ∈ vs.
Proof.
  revert werr added c. induction l as [|[k0 vs] l IH]; intros werr added c Hr E k v Hv; cbn [write_all] in E; [injection E as <-; auto|].
  destruct Hr as (r & Er & Hr). rewrite Er in E. destruct (st_write_spec Sum64 r k0 vs Hr) as (s' & Hch & (r' & Hex) & Ew). rewrite Ew in E. clear Ew.
  assert (forall c1, c_store c1 = s' -> v ∈ vals_of (live_entry c1 k) -> v ∈ vals_of (live_entry c k) \/ exists vs', (k, vs') ∈ (k0, vs) :: l /\ v ∈ vs') as Hone.
  { intros c1 E1 H. unfold CacheFacts.live_entry in *. rewrite E1 in H. rewrite Er. destruct Hch as (_ & Hk & Hn). destruct (decide (k = k0)) as [->|N]; [|rewrite Hn in H by exact N; auto].
    rewrite Hk in H. destruct (written vs (slookup Sum64 (RingStore r) k0)) as [o| |] eqn:W; auto. rewrite (written_vals _ _ _ W) in H. apply elem_of_app in H as [H|H]; [auto|]. right. exists vs. split; [left|exact H]. }
  assert (ring_store Sum64 s') as Hr' by (exists r'; split; [exact Hex|]; subst s'; apply Hch).
  assert (forall c1, c_store c1 = s' -> (exists werr' added', write_all Sum64 l werr' added' c1 = Some x) -> v ∈ vals_of (live_entry c k) \/ exists vs', (k, vs') ∈ (k0, vs) :: l /\ v ∈ vs') as Hgo.
  { intros c1 E1 (werr' & added' & E2). destruct (IH werr' added' c1 ltac:(rewrite E1; exact Hr') E2 k v Hv) as [H|(vs' & H1 & H2)]; [exact (Hone c1 E1 H)|]. right. exists vs'. split; [right; exact H1|exact H2]. }
  destruct (written vs (slookup Sum64 (RingStore r) k0)) as [o|err|]; [destruct (slookup Sum64 (RingStore r) k0)| |discriminate]; (eapply Hgo; [|eexists _, _; exact E]); reflexivity.
Qed.

Lemma WriteMulti_typed B c l :
  rinv B c -> Forall (fun x => x.2 <> [] /\ Forall (value_in x.1) x.2) l -> NoDup l.*1 -> B + sizes l + key_sizes l < 2 ^ 64 ->
  exists c', WriteMulti Sum64 l c = (Ok tt, c') /\ rinv (B + (sizes l + key_sizes l)) c' /\ forall k, a_live (abs c') k = apply_spec (ReadWrite (list_to_map l)) (a_live (abs c)) k.
Proof.
  intros [H Ht Hti Hm Hsz] Hl Hn Hfit. pose proof (sizes_nonneg l). pose proof (key_sizes_nonneg l). pose proof (ci_fit _ _ H) as Hf.
  assert (Forall (fun x => Forall proper x.2) l) as Hp by (eapply Forall_impl; [exact Hl|]; intros x (_ & Hx); eapply Forall_impl; [exact Hx|]; intros v Hv; apply Hv).
  assert (op_ok Sum64 tsdb_EOF (OWriteMulti l) c) as Hok by (split; [exact Hp|rewrite batch_fit; lia]).
  pose proof (WriteMulti_refines Sum64 tsdb_EOF c l H Hok) as R. cbn [exec] in R.
  destruct (init_spec Sum64 c H) as (Hi0 & Hr & Hi & Hlive & Hsnap & Esz & Esn & Ess & _).
  assert (exists added' c2, write_all Sum64 l None (sizes l) (increaseSize (sizes l) (init c)) = Some (None, added', c2) /\ types (c_store c2) /\ c_maxSize c2 = 0
     /\ c_snapshotSize c2 = c_snapshotSize c /\ c_size c2 <= c_size c + sizes l + key_sizes l) as (added' & c2 & Ew & T2 & M2 & S2 & Z2).
  { destruct (write_all_typed l (sizes l) (increaseSize (sizes l) (init c)) Hr (init_types c H Ht) Hl) as (added' & c2 & E & T & M & S & Z);
      cbn [increaseSize set_size c_size] in *; rewrite ?Esz, ?u64_small in * by lia; [lia|lia|]. exists added', c2. repeat split; auto; [rewrite M; cbn; rewrite init_fields; exact Hm|rewrite S; exact Esn]. }
  unfold WriteMulti in *. cbv zeta in *. rewrite (batch_sizes l 0) in * by lia. rewrite Z.add_0_l in *. rewrite init_fields, Hm in *. cbn [Z.ltb Z.compare andb] in *. rewrite Ew in *. cbn [fst snd] in R.
  destruct R as [H' R]. eexists. split; [reflexivity|]. split.
  - split; [exact H'|exact T2| |cbn; exact M2|cbn; lia].
    apply (live_times c _ l Hti); [eapply Forall_impl; [exact Hl|]; intros x Hx; apply Hx|]. intros k v Hv.
    destruct (write_all_vals l None (sizes l) (increaseSize (sizes l) (init c)) _ Hr Ew k v Hv) as [Hx|Hx]; [left; rewrite <- Hlive; exact Hx|right; exact Hx].
  - cbn [cspec] in R. unfold full in R. cbn [control_of t_max] in R. rewrite Hm in R. cbn [Z.ltb Z.compare andb] in R. destruct R as (_ & _ & Eo & Hov & _).
    set (ok := batch_ok _ _) in *. destruct (forallb id ok) eqn:Hall; [|discriminate].
    intros k. rewrite (Hov k), (all_true_map ok l); [apply overlays_all; exact Hn|apply length_batch_ok|].
    apply Forall_forall. rewrite forallb_forall in Hall. intros b Hb. apply (Hall b), list_elem_of_In, Hb.
Qed.

(** ** Deletions over all of time *)

Lemma delete_one_full c k c' :
  cinv c -> c_initialized c = true -> delete_one Sum64 tsdb_EOF min_time max_time k c = Ok c' ->
  c_maxSize c' = c_maxSize c /\ c_size c' <= c_size c /\ forall k', live_entry c' k' = None \/ live_entry c' k' = live_entry c k'.
Proof.
  intros H Hi. unfold delete_one. rewrite (st_entry_ok Sum64) by (apply (cinv_ok Sum64); exact H). pose proof (ci_store _ _ H) as S. rewrite Hi in S. destruct S as (r & Er & Hr).
  change (slookup Sum64 (c_store c) k) with (live_entry c k). destruct (live_entry c k) as [e|] eqn:Ee; [|intros [= <-]; split; [reflexivity|split; [lia|auto]]].
  change ((min_time =? - 2 ^ 63) && (max_time =? 2 ^ 63 - 1)) with true. cbn iota. rewrite Er. destruct (st_remove_spec Sum64 r k Hr) as (s' & -> & (_ & Hk & Hn) & _).
  intros [= <-]. split; [reflexivity|]. split.
  - pose proof (total_ge Sum64 _ k (cinv_ok _ _ H)) as Hge. change (slookup Sum64 (c_store c) k) with (live_entry c k) in Hge. rewrite Ee in Hge. cbn [weight_o] in Hge. unfold weight in Hge.
    pose proof (ci_total _ _ H). pose proof (ci_fit _ _ H). pose proof (Values_Size_nonneg (e_values e)) as Hsz. fold (entry_size e) in Hsz. pose proof (zlen_nonneg k).
    cbn [set_store c_size decreaseSize set_size]. rewrite (u64_small (entry_size e)) by lia. rewrite (u64_small (entry_size e + zlen k)) by lia. rewrite decrease_exact by lia. lia.
  - intros k'. unfold CacheFacts.live_entry. cbn [set_store c_store]. rewrite Er. destruct (decide (k' = k)) as [->|N]; [left; exact Hk|right; apply Hn; exact N].
Qed.

Lemma deletable_full l : Forall (fun v => is_i64 (Value_UnixNano tsdb_EOF v)) l -> deletable tsdb_EOF min_time max_time l.
Proof. intros H. split; [exact H|]. left. auto. Qed.

Lemma delete_each_full keys c c' :
  cinv c -> c_initialized c = true -> (forall k, Forall (fun v => is_i64 (Value_UnixNano tsdb_EOF v)) (vals_of (live_entry c k))) ->
  delete_each Sum64 tsdb_EOF min_time max_time keys c = Ok c' ->
  c_maxSize c' = c_maxSize c /\ c_size c' <= c_size c /\ forall k', live_entry c' k' = None \/ live_entry c' k' = live_entry c k'.
Proof.
  revert c. induction keys as [|k keys IH]; intros c H Hi Ht E; cbn [delete_each] in E; [injection E as <-; split; [reflexivity|split; [lia|auto]]|].
  destruct (delete_one_spec Sum64 tsdb_EOF c k min_time max_time H Hi (deletable_full _ (Ht k))) as (c1 & E1 & H1 & (F1 & F2 & F3 & _) & _). rewrite E1 in E.
  destruct (delete_one_full c k c1 H Hi E1) as (M1 & Z1 & L1).
  destruct (IH c1 H1) as (M2 & Z2 & L2); [congruence| |exact E|].
  - intros k'. destruct (L1 k') as [-> | ->]; [constructor|apply Ht].
  - split; [congruence|]. split; [lia|]. intros k'. destruct (L2 k') as [-> | ->]; auto.
Qed.

Lemma Delete_typed B c keys :
  rinv B c -> exists c', c_DeleteRange Sum64 tsdb_EOF keys min_time max_time c = (Ok tt, c') /\ rinv B c'
    /\ forall k, a_live (abs c') k = if decide (k ∈ keys) then without min_time max_time (a_live (abs c) k) else a_live (abs c) k.
Proof.
  intros [H Ht Hti Hm Hsz]. assert (op_ok Sum64 tsdb_EOF (ODeleteRange keys min_time max_time) c) as Hok by (apply Forall_forall; intros k _; apply deletable_full, Hti).
  pose proof (DeleteRange_refines Sum64 tsdb_EOF c keys min_time max_time H Hok) as R. cbn [exec] in R.
  destruct (init_spec Sum64 c H) as (H0 & Hr & Hi & Hlive & Hsnap & Esz & Esn & Ess & _). unfold c_DeleteRange in *. cbv zeta in *.
  assert (forall k, Forall (fun v => is_i64 (Value_UnixNano tsdb_EOF v)) (vals_of (live_entry (init c) k))) as Hti0 by (intros k; rewrite Hlive; apply Hti).
  destruct (delete_each_spec Sum64 tsdb_EOF keys (init c) min_time max_time H0 Hi ltac:(apply Forall_forall; intros k _; apply deletable_full, Hti0)) as (c1 & E1 & H1 & (F1 & F2 & F3 & _) & _).
  destruct (delete_each_full keys (init c) c1 H0 Hi Hti0 E1) as (M1 & Z1 & L1). rewrite E1 in *. cbn [fst snd] in R. destruct R as (H' & _ & _ & _ & Hl & _).
  eexists. split; [reflexivity|]. split; [|exact Hl]. split; [exact H'| | | |].
  - intros k e. change (live_entry (set_stats ?s c1) k) with (live_entry c1 k). destruct (L1 k) as [-> | ->]; [discriminate|]. apply (init_types c H Ht).
  - intros k. change (live_entry (set_stats ?s c1) k) with (live_entry c1 k). destruct (L1 k) as [-> | ->]; [constructor|apply Hti0].
  - cbn. rewrite M1, init_fields. exact Hm.
  - cbn. rewrite F2, Esn. lia.
Qed.

(** ** All entries *)

Definition total_weight (es : list ReadEntry) : Z := fold_right (fun e n => read_weight e + n) 0 es.

Lemma read_weight_nonneg e : 0 <= read_weight e.
Proof. destruct e as [m| |]; cbn; [|lia|lia]. pose proof (sizes_nonneg (map_to_list m)). pose proof (key_sizes_nonneg (map_to_list m)). lia. Qed.

Lemma total_weight_nonneg es : 0 <= total_weight es.
Proof. induction es as [|e es IH]; cbn; [lia|]. pose proof (read_weight_nonneg e). unfold total_weight in IH. lia. Qed.

Lemma apply_typed B c e :
  rinv B c -> read_ok e -> B + read_weight e < 2 ^ 64 ->
  exists c', apply_entry e c = (Ok tt, c') /\ rinv (B + read_weight e) c' /\ forall k, a_live (abs c') k = apply_spec e (a_live (abs c)) k.
Proof.
  intros I He Hfit. destruct e as [m|keys|keys mn mx]; cbn [CacheLoader.apply_entry read_weight] in *.
  - destruct (sizes_perm _ _ (range_all m)) as [E1 E2]. destruct (WriteMulti_typed B c (range m) I (map_to_list_ok m He)) as (c' & E & I' & Hl).
    + rewrite (range_all m). apply NoDup_fst_map_to_list.
    + lia.
    + exists c'. rewrite E1, E2 in I'. split; [exact E|]. split; [exact I'|]. intros k. rewrite Hl. assert (list_to_map (range m) = m) as ->; [|reflexivity].
      rewrite <- (list_to_map_to_list m) at 2. apply list_to_map_proper; [rewrite (range_all m); apply NoDup_fst_map_to_list|apply range_all].
  - destruct (Delete_typed B c keys I) as (c' & E & I' & Hl). exists c'. rewrite Z.add_0_r. auto.
  - destruct He as [-> ->]. destruct (Delete_typed B c keys I) as (c' & E & I' & Hl). exists c'. rewrite Z.add_0_r. auto.
Qed.

Lemma apply_spec_ext e m m' : (forall k, m k = m' k) -> forall k, apply_spec e m k = apply_spec e m' k.
Proof. intros H k. destruct e; cbn; rewrite H; reflexivity. Qed.

Lemma fold_spec_ext es m m' : (forall k, m k = m' k) -> forall k, fold_left (fun m e => apply_spec e m) es m k = fold_left (fun m e => apply_spec e m) es m' k.
Proof. revert m m'. induction es as [|e es IH]; intros m m' H k; [apply H|]. cbn. apply IH. apply apply_spec_ext. exact H. Qed.

Lemma replay_typed es B c :
  rinv B c -> Forall read_ok es -> B + total_weight es < 2 ^ 64 ->
  exists c', replay es c = (Ok tt, c') /\ rinv (B + total_weight es) c' /\ forall k, a_live (abs c') k = fold_left (fun m e => apply_spec e m) es (a_live (abs c)) k.
Proof.
  intros I H. revert B c I. induction H as [|e es He _ IH]; intros B c I Hfit; cbn [replay total_weight fold_right] in *.
  { exists c. rewrite Z.add_0_r. auto. }
  fold (total_weight es) in *. pose proof (total_weight_nonneg es). destruct (apply_typed B c e I He ltac:(lia)) as (c1 & -> & I1 & L1).
  destruct (IH _ c1 I1 ltac:(lia)) as (c2 & E & I2 & L2). exists c2. split; [exact E|]. split; [rewrite Z.add_assoc; exact I2|].
  intros k. rewrite L2. cbn [fold_left]. apply fold_spec_ext. exact L1.
Qed.

Lemma NewCache_rinv now : rinv 0 (NewCache 0 now).
Proof.
  destruct (NewCache_inv Sum64 tsdb_EOF 0 now) as (H & _). split; [exact H|intros k e E; discriminate|intros k; constructor|reflexivity|cbn; lia].
Qed.

(** ** Files *)

Section Files.
Context `{SN : Snappy}.
Abbreviation Load := (Load Sum64 tsdb_EOF range).

(** The loop replays what the segment reads back as. *)
Lemma load_loop_replay fuel r c es n bad :
  read_all fuel r = Some (es, n, bad) ->
  load_loop Sum64 tsdb_EOF range fuel r c
  = match replay es c with
    | (Ok _, c') => (Ok (if bad : bool then Some n else None), c')
    | (Err x, c') => (Err (LoadCache x), c')
    | (Panic, c') => (Panic, c')
    end.
Proof.
  revert r c es. induction fuel as [|fuel IH]; intros r c es E; cbn [read_all load_loop] in *; [discriminate|].
  destruct (sr_Next r) as [[[]| |] r1]; [| |discriminate|discriminate].
  - destruct (sr_Read r1) as [[e|]| |]; [|discriminate| |discriminate].
    + destruct (read_all fuel r1) as [[[es1 n1] bad1]|] eqn:E1; [|discriminate]. injection E as <- <- <-. cbn [replay]. destruct (apply_entry e c) as [[u|x|] c1]; [|reflexivity|reflexivity]. apply IH. exact E1.
    + injection E as <- <- <-. reflexivity.
  - injection E as <- <- <-. reflexivity.
Qed.

Lemma replay_app es es' c : replay (es ++ es') c = match replay es c with (Ok _, c') => replay es' c' | r => r end.
Proof. revert c. induction es as [|e es IH]; intros c; cbn [app replay]; [reflexivity|]. destruct (apply_entry e c) as [[]]; [apply IH|reflexivity|reflexivity]. Qed.

(** A directory all of whose files can be opened, and no call fails. *)
Record calm (s : store) (files : list string) : Prop := {
  ca_faults : faults (st_fs s) = [];
  ca_files fn : fn ∈ files -> exists e, disk (st_fs s) !! fn = Some e /\ de_dir e = false }.

Lemma load_file_replay fn s c c' es n bad e :
  faults (st_fs s) = [] -> disk (st_fs s) !! fn = Some e -> de_dir e = false -> recover (de_data e) = Some (es, n, bad) -> replay es c = (Ok tt, c') ->
  exists s', load_file Sum64 tsdb_EOF range fn (s, c) = (Ok tt, (s', c')) /\ faults (st_fs s') = [] /\ (forall p, p <> fn -> disk (st_fs s') !! p = disk (st_fs s) !! p).
Proof.
  intros Hf He Hd Hr Hp. destruct s as [[dk fl nw] sy]. cbn in Hf, He. subst fl.
  unfold load_file, on_files, sys, bind, os_OpenFile, os_Stat, syscall, tick, bind. cbn [st_fs faults disk fst snd set_fs st_synced]. rewrite He, Hd. cbn [st_fs faults disk fst snd set_fs st_synced]. rewrite He.
  cbn [fst snd]. destruct (Z.eqb_spec (zlen (de_data e)) 0) as [Hz|Hz].
  - assert (de_data e = []) as Ed by (destruct (de_data e) as [|z l]; [reflexivity|]; rewrite zlen_cons in Hz; pose proof (zlen_nonneg l); lia).
    rewrite Ed in Hr. cbn in Hr. injection Hr as <- <- <-. cbn in Hp. injection Hp as <-. eexists. split; [reflexivity|]. split; [reflexivity|]. auto.
  - unfold on_cache. cbn [fst snd]. rewrite (load_loop_replay _ _ _ es n bad Hr), Hp. cbn [fst snd]. destruct bad; cbn.
    + rewrite He. eexists. split; [reflexivity|]. split; [reflexivity|]. intros p Hne. cbn. apply lookup_insert_ne. congruence.
    + eexists. split; [reflexivity|]. split; [reflexivity|]. auto.
Qed.

End Files.

End Replay.
