(* ===== verification/CrashRecovery.v ===== *)
(** * From the log back into the cache

    The composition of the log, the loader and the cache: after a crash the
    cache loaded at the restart holds what the recovered entries say. *)

From S2P Require Import Prelude OSFile Bytes ValueCodec Blocks Values TypedValues StringCodec WALEntry WALSegment WALSegmentFacts WAL WALFacts WALDurable Ring Cache CacheFacts CacheLoader CacheReplay.

(** ** The files of the log are plain files *)

Definition plain (f : fs) : Prop := forall p e, disk f !! p = Some e -> de_dir e = false.

(** A computation that keeps a property of the state, whatever it returns. *)
Definition preserves {S E A} (P : S -> Prop) (m : M S E A) : Prop := forall s, P s -> P (m s).2.

Lemma pres_bind {S E A B} (P : S -> Prop) (m : M S E A) (k : A -> M S E B) : preserves P m -> (forall a, preserves P (k a)) -> preserves P (bind m k).
Proof. intros Hm Hk s H. unfold bind. specialize (Hm s H). destruct (m s) as [[a|e|] s']; [apply Hk|..]; exact Hm. Qed.
Lemma pres_catch {S E A B} (P : S -> Prop) (m : M S E A) (k : A + E -> M S E B) : preserves P m -> (forall a, preserves P (k a)) -> preserves P (catch m k).
Proof. intros Hm Hk s H. unfold catch. specialize (Hm s H). destruct (m s) as [[a|e|] s']; [apply Hk|apply Hk|]; exact Hm. Qed.
Lemma pres_ret {S E A} (P : S -> Prop) (a : A) : preserves P (ret (E := E) a).
Proof. intros s H. exact H. Qed.
Lemma pres_throw {S E A} (P : S -> Prop) (e : E) : preserves P (throw (A := A) e).
Proof. intros s H. exact H. Qed.
Lemma pres_panic {S E A} (P : S -> Prop) : preserves P (panic (S := S) (E := E) (A := A)).
Proof. intros s H. exact H. Qed.
Lemma pres_get {S E} (P : S -> Prop) : preserves P (get (S := S) (E := E)).
Proof. intros s H. exact H. Qed.

Create HintDb pres.
#[export] Hint Resolve pres_bind pres_catch pres_ret pres_throw pres_panic pres_get : pres.

Definition plain_store (s : store) : Prop := plain (st_fs s).
Definition plain_sw (x : store * WALSegmentWriter) : Prop := plain_store x.1.
Definition plain_wal (w : WAL) : Prop := plain_store (w_store w).

Lemma plain_tick f : plain f -> plain (tick f).2.
Proof. intros H. unfold tick. destruct (faults f); exact H. Qed.

Lemma plain_syscall {A} (m : FM A) : preserves plain m -> preserves plain (syscall m).
Proof. intros Hm. apply pres_bind; [exact plain_tick|]. intros []; [exact Hm|apply pres_throw]. Qed.

Lemma plain_insert f p e : plain f -> de_dir e = false -> plain (set_disk (<[p := e]> (disk f)) f).
Proof. intros H He q e' Hq. cbn in Hq. apply lookup_insert_Some in Hq as [[_ <-]|[_ Hq]]; [exact He|exact (H q e' Hq)]. Qed.

Lemma plain_put p off b f : plain f -> plain (put_data p off b f).
Proof. intros H. unfold put_data. destruct (disk f !! p); [apply plain_insert; [exact H|reflexivity]|exact H]. Qed.

Lemma plain_OpenFile p : preserves plain (os_OpenFile p).
Proof. apply plain_syscall. intros f H. destruct (disk f !! p) as [e|]; [destruct (de_dir e); exact H|]. apply plain_insert; [exact H|reflexivity]. Qed.
Lemma plain_Stat p : preserves plain (os_Stat p).
Proof. apply plain_syscall. intros f H. destruct (disk f !! p); exact H. Qed.
Lemma plain_Remove p : preserves plain (os_Remove p).
Proof. apply plain_syscall. intros f H. destruct (disk f !! p); [|exact H]. intros q e Hq. cbn in Hq. apply lookup_delete_Some in Hq as [_ Hq]. exact (H q e Hq). Qed.
Lemma plain_Write p off b : preserves plain (os_Write p off b).
Proof. apply pres_bind; [exact plain_tick|]. intros [|k] f H; apply plain_put; exact H. Qed.

Lemma plain_sys {A} (m : FM A) : preserves plain m -> preserves plain_store (sys m).
Proof. intros Hm s H. unfold sys. specialize (Hm (st_fs s) H). destruct (m (st_fs s)) as [[] f]; exact Hm. Qed.

Lemma plain_Sync p : preserves plain_store (os_Sync p).
Proof. apply pres_bind; [apply plain_sys, plain_syscall, pres_ret|]. intros _ s H. exact H. Qed.
Lemma plain_RemoveFile p : preserves plain_store (os_RemoveFile p).
Proof. apply pres_bind; [apply plain_sys, plain_Remove|]. intros _ s H. exact H. Qed.

#[local] Hint Resolve plain_OpenFile plain_Stat plain_Write plain_sys plain_Sync plain_RemoveFile plain_syscall : pres.

Lemma plain_on_store {A} (m : M store wal_error A) : preserves plain_store m -> preserves plain_sw (on_store m).
Proof. intros Hm x H. unfold on_store. specialize (Hm x.1 H). destruct (m x.1). exact Hm. Qed.
Lemma plain_sw_mod f : preserves plain_sw (sw_mod f).
Proof. intros x H. exact H. Qed.
Lemma plain_sw_get : preserves plain_sw sw_get.
Proof. intros x H. exact H. Qed.
#[local] Hint Resolve plain_on_store plain_sw_mod plain_sw_get : pres.

(** Step into the program; case splits as they come. *)
Ltac keep_plain := repeat first [solve [eauto 6 with pres] | apply pres_bind; [|intros ?] | apply pres_catch; [|intros ?] | case_match].

Lemma plain_file_Write b : preserves plain_sw (file_Write b).
Proof. unfold file_Write. keep_plain. Qed.
#[local] Hint Resolve plain_file_Write : pres.
Lemma plain_Flush : preserves plain_sw bw_Flush.
Proof. unfold bw_Flush. keep_plain. Qed.
Lemma plain_direct p : preserves plain_sw (bw_direct p).
Proof. unfold bw_direct. keep_plain. Qed.
#[local] Hint Resolve plain_Flush plain_direct : pres.
Lemma plain_bw_Write p : preserves plain_sw (bw_Write p).
Proof. unfold bw_Write. keep_plain. Qed.
#[local] Hint Resolve plain_bw_Write : pres.
Lemma plain_sw_Write t c : preserves plain_sw (sw_Write t c).
Proof. unfold sw_Write. keep_plain. Qed.
Lemma plain_sw_sync : preserves plain_sw sw_sync.
Proof. unfold sw_sync. keep_plain. Qed.
Lemma plain_sw_close : preserves plain_sw sw_close.
Proof. unfold sw_close, sw_Flush. keep_plain. Qed.

Lemma plain_on_writer {A} (m : SM A) : preserves plain_sw m -> preserves plain_wal (on_writer m).
Proof. intros Hm w H. unfold on_writer. destruct (w_writer w) as [sw|]; [|exact H]. specialize (Hm (w_store w, sw) H). destruct (m (w_store w, sw)) as [r [s sw']]. exact Hm. Qed.
Lemma plain_on_w_store {A} (m : M store wal_error A) : preserves plain_store m -> preserves plain_wal (on_w_store m).
Proof. intros Hm w H. unfold on_w_store. specialize (Hm (w_store w) H). destruct (m (w_store w)). exact Hm. Qed.
Lemma plain_modify (f : WAL -> WAL) : (forall w, w_store (f w) = w_store w) -> preserves plain_wal (modify (E := wal_error) f).
Proof. intros Hf w H. unfold plain_wal. cbn. rewrite Hf. exact H. Qed.
Lemma plain_names : preserves plain_store segmentFileNames.
Proof. intros s H. exact H. Qed.
#[local] Hint Resolve plain_sw_Write plain_sw_sync plain_sw_close plain_on_writer plain_on_w_store plain_names : pres.

Ltac keep_wal := repeat first [solve [eauto 6 with pres] | apply plain_modify; intros ?; (reflexivity || (case_match; reflexivity)) | apply pres_bind; [|intros ?] | apply pres_catch; [|intros ?] | case_match].

Lemma plain_wal_sync : preserves plain_wal wal_sync.
Proof. unfold wal_sync. keep_wal. Qed.
#[local] Hint Resolve plain_wal_sync : pres.
Lemma plain_newSegmentFile : preserves plain_wal newSegmentFile.
Proof. unfold newSegmentFile, store_OldBytes, store_CurrentBytes. keep_wal. Qed.
#[local] Hint Resolve plain_newSegmentFile : pres.

Lemma plain_append `{SN : Snappy} c t b : preserves plain_wal (append_entry c t b).
Proof. unfold append_entry, rollSegment, scheduleSync, store_CurrentBytes. keep_wal. Qed.
Lemma plain_tick_op : preserves plain_wal sync_tick.
Proof. unfold sync_tick. keep_wal. Qed.
Lemma plain_CloseSegment : preserves plain_wal CloseSegment.
Proof. unfold CloseSegment. keep_wal. Qed.
Lemma plain_Close : preserves plain_wal WAL_Close.
Proof. unfold WAL_Close. keep_wal. Qed.
Lemma plain_sizes l n : preserves plain_wal (sizes_of l n).
Proof. revert n. induction l as [|p l IH]; intros n; cbn [sizes_of]; keep_wal. Qed.
Lemma plain_old_sizes l n : preserves plain_wal (old_sizes l n).
Proof. revert n. induction l as [|p l IH]; intros n; cbn [old_sizes]; keep_wal. Qed.
Lemma plain_remove_files l : preserves plain_wal (remove_files l).
Proof. induction l as [|p l IH]; cbn [remove_files]; keep_wal. Qed.
#[local] Hint Resolve plain_sizes plain_old_sizes plain_remove_files : pres.
Lemma plain_WAL_Remove l : preserves plain_wal (WAL_Remove l).
Proof. unfold WAL_Remove, store_OldBytes. keep_wal. Qed.
Lemma plain_WAL_Open b : preserves plain_wal (WAL_Open b).
Proof. unfold WAL_Open, store_OldBytes. keep_wal. Qed.

(** ** Runs keep plain files *)

Section Recovery.
Context `{SN : Snappy} {SL : SnappyLaws}.

Lemma plain_crash cut s : plain_store s -> plain_store (crash cut s).
Proof.
  intros H p e E. rewrite crash_lookup in E. destruct (disk (st_fs s) !! p) as [e0|] eqn:E0; [|discriminate]. injection E as <-. exact (H p e0 E0).
Qed.

Lemma plain_run_op op x : plain_wal x.1 -> plain_wal (run_op op x).1.
Proof.
  intros H. unfold run_op, collect. change (plain_store (w_store (exec_op op x.1 x.2).2.1)). fold (plain_wal (exec_op op x.1 x.2).2.1).
  destruct op as [c e| | | |files|cut]; cbn [exec_op].
  - assert (preserves plain_wal (writeToLog c e)) as P by (unfold writeToLog; destruct (Encode e); [apply plain_append|apply pres_throw|apply pres_panic]).
    specialize (P x.1 H). destruct (writeToLog c e x.1). exact P.
  - pose proof (plain_tick_op x.1 H) as P. destruct (sync_tick x.1). exact P.
  - pose proof (plain_CloseSegment x.1 H) as P. destruct (CloseSegment x.1). exact P.
  - pose proof (plain_Close x.1 H) as P. destruct (WAL_Close x.1). exact P.
  - pose proof (plain_WAL_Remove files x.1 H) as P. destruct (WAL_Remove files x.1). exact P.
  - pose proof (plain_WAL_Open true (NewWAL (crash cut (w_store x.1))) (plain_crash cut _ H)) as P. destruct (WAL_Open true _). exact P.
Qed.

Lemma plain_run ops x : plain_wal x.1 -> plain_wal (run ops x).1.
Proof. revert x. induction ops as [|op ops IH]; intros x H; [exact H|]. apply IH, plain_run_op, H. Qed.

(** ** Loading a directory *)

Context (Sum64 : list Z -> Z) (tsdb_EOF : Z).
Context (range : gmap (list Z) (list Value) -> list (list Z * list Value)) (range_all : forall m, range m ≡ₚ map_to_list m).
Context (ty : list Z -> Z).

Lemma recover_files_same s s' files : (forall fn, fn ∈ files -> file_data fn s' = file_data fn s) -> recover_files s' files = recover_files s files.
Proof.
  induction files as [|fn files IH]; intros H; cbn [recover_files]; [reflexivity|]. rewrite (H fn) by left. rewrite IH; [reflexivity|]. intros f Hf. apply H. right. exact Hf.
Qed.

Lemma Load_replay files s c c' es :
  calm s files -> NoDup files -> recover_files s files = Some es -> replay Sum64 tsdb_EOF range es c = (Ok tt, c') ->
  exists s', Load Sum64 tsdb_EOF range files (s, c) = (Ok tt, (s', c')).
Proof.
  revert s c es. induction files as [|fn files IH]; intros s c es [Hf Hc] Hn Hr Hp; cbn [recover_files Load] in *.
  { injection Hr as <-. injection Hp as <-. exists s. reflexivity. }
  apply NoDup_cons in Hn as [Hnf Hn]. destruct (Hc fn ltac:(left)) as (e & He & Hd). destruct (recover (file_data fn s)) as [[[es1 n] bad]|] eqn:E1; [|discriminate].
  destruct (recover_files s files) as [es2|] eqn:E2; [|discriminate]. injection Hr as <-. rewrite replay_app in Hp. destruct (replay Sum64 tsdb_EOF range es1 c) as [[[]|x|] c1] eqn:Ep; [|discriminate|discriminate].
  unfold file_data in E1. rewrite He in E1. destruct (load_file_replay Sum64 tsdb_EOF range fn s c c1 es1 n bad e Hf He Hd E1 Ep) as (s1 & El & Hf1 & Ho). unfold bind. rewrite El.
  apply (IH s1 c1 es2); [split; [exact Hf1|]|exact Hn| |exact Hp].
  - intros p Hpf. rewrite Ho by (intros ->; contradiction). apply Hc. right. exact Hpf.
  - rewrite (recover_files_same s s1); [exact E2|]. intros p Hpf. unfold file_data. rewrite Ho by (intros ->; contradiction). reflexivity.
Qed.

(** ** What the entries of a run give the cache *)

(** Writes give each key values of its type; ranges deleted are all of time. *)
Definition entry_typed (e : WALEntry) : Prop :=
  match e with
  | WriteEntry l => Forall (fun x => Forall (fun v => valueType v = ty x.1) x.2) l
  | DeleteEntry _ => True
  | DeleteRangeEntry _ mn mx => mn = min_time /\ mx = max_time
  end.

Definition entry_weight (e : WALEntry) : Z := match e with WriteEntry l => sizes l + key_sizes l | _ => 0 end.

Definition issued_weight (l : list (nat * WALEntry)) : Z := fold_right (fun x n => entry_weight x.2 + n) 0 l.

Lemma value_ok_in k v : value_ok v -> valueType v = ty k -> value_in tsdb_EOF ty k v.
Proof. intros H Ht. split; [destruct v; cbn in *; [discriminate..|contradiction]|]. split; [exact Ht|]. destruct v; cbn in *; tauto. Qed.

Lemma read_of_ok e : entry_ok e -> entry_typed e -> read_ok tsdb_EOF ty (read_of e) /\ read_weight (read_of e) = entry_weight e.
Proof.
  destruct e as [l|keys|keys mn mx]; cbn; intros H Ht; [|auto|auto]. destruct H as [Hn Hl]. split.
  - intros k vs Hk. apply elem_of_list_to_map_2 in Hk. rewrite Forall_forall in Hl, Ht. destruct (Hl _ Hk) as (_ & Hne & _ & t & Hv). specialize (Ht _ Hk). cbn in *. split; [exact Hne|].
    rewrite Forall_forall in *. intros v Hin. apply value_ok_in; [apply (Hv v Hin)|apply (Ht v Hin)].
  - destruct (sizes_perm (map_to_list (list_to_map l : gmap (list Z) (list Value))) l (map_to_list_to_map l Hn)) as [-> ->]. reflexivity.
Qed.

Lemma sel_ok h segs (sel : list (nat * WALEntry)) :
  hist_ok h segs -> sel `sublist_of` h_issued h -> Forall (fun x => entry_typed x.2) (h_issued h) ->
  Forall (read_ok tsdb_EOF ty) (map (fun x => read_of x.2) sel) /\ total_weight (map (fun x => read_of x.2) sel) <= issued_weight (h_issued h).
Proof.
  intros H Sub Ht. assert (Forall (fun x => read_ok tsdb_EOF ty (read_of x.2) /\ read_weight (read_of x.2) = entry_weight x.2) (h_issued h)) as Hall.
  { pose proof (ho_frames _ _ H) as Hf. rewrite Forall_forall in *. intros x Hx. apply read_of_ok; [apply (Hf x Hx)|exact (Ht x Hx)]. }
  clear H Ht. induction Sub as [|x l1 l2 Sub IH|x l1 l2 Sub IH]; cbn [map total_weight issued_weight fold_right]; [split; [constructor|lia]| |]; apply Forall_cons in Hall as [[Hx Hw] Hall]; destruct (IH Hall) as [I1 I2].
  - unfold total_weight, issued_weight in *. split; [constructor; assumption|lia].
  - pose proof (read_weight_nonneg (read_of x.2)). unfold issued_weight in *. split; [exact I1|lia].
Qed.

(** No more faults. *)
Definition healed (s : store) : store := mkSt (mkFs (disk (st_fs s)) [] (now (st_fs s))) (st_synced s).

(** C2 (refinement). Recovery end to end.  Take any run of the log as in the durability
    theorem, with faults and crashes, at the end a crash and a restart of the log.
    Assume that all writes give a key values of one
    type, that range deletions are over all of time, that the points fit in
    memory, and that the system calls of the restart itself work.  Then
    loading a new cache succeeds, whatever the order maps are ranged
    over in, and the cache then holds, key by key and timestamp by timestamp, what the
    recovered entries leave when applied one after another to empty maps.  The
    recovered entries are of the calls made, in their order, among them every one acknowledged
    in a segment that was not removed.  The limit of the cache is as before. *)
Theorem crash_recovery (plan : list fault) (ops : list wop) (cut : string -> nat) (maxSize time : Z) :
  run_ok (ops ++ [OCrash cut]) (start plan) ->
  Forall (fun x => entry_typed x.2) (h_issued (run (ops ++ [OCrash cut]) (start plan)).2) ->
  issued_weight (h_issued (run (ops ++ [OCrash cut]) (start plan)).2) < 2 ^ 64 ->
  let '(w, h) := run (ops ++ [OCrash cut]) (start plan) in
  exists sel s c, reloadCache Sum64 tsdb_EOF range (healed (w_store w), NewCache maxSize time) = (Ok tt, (s, c))
    /\ c_maxSize c = maxSize
    /\ (forall k, a_live (abs Sum64 tsdb_EOF c) k = fold_left (fun m e => apply_spec tsdb_EOF e m) (map (fun x => read_of x.2) sel) (fun _ => ∅) k)
    /\ sel `sublist_of` h_issued h
    /\ forall c e id, (c, e) ∈ h_issued h -> (c, id) ∈ h_placed h -> c ∈ h_acked h -> (c, e) ∈ sel.
Proof.
  intros Hok Ht Hw. destruct (run_linv _ (start plan) [] (start_linv plan _) eq_refl Hok) as (segs & L).
  pose proof (plain_run (ops ++ [OCrash cut]) (start plan) ltac:(intros p e E; discriminate E)) as Hpl.
  destruct (run (ops ++ [OCrash cut]) (start plan)) as [w h]. cbn [fst snd] in *. pose proof (li_hist _ _ _ _ L) as HO.
  assert (files_ok (healed (w_store w)) segs) as F by (eapply files_ok_same; [| |exact (li_files _ _ _ _ L)]; reflexivity).
  destruct (recover_dir_ok (healed (w_store w)) h segs F HO) as (sel & E & Sub & R). destruct (sel_ok h segs sel HO Sub Ht) as [Hread Hweight].
  destruct (replay_typed Sum64 tsdb_EOF range range_all ty (map (fun x => read_of x.2) sel) 0 (NewCache 0 time) (NewCache_rinv Sum64 tsdb_EOF ty time) Hread ltac:(lia)) as (c & Ec & _ & Hc).
  unfold recover_dir in E. pose proof (segment_names _ _ F) as En. rewrite En in E.
  assert (calm (healed (w_store w)) (map segment_name segs.*1)) as Hcalm.
  { split; [reflexivity|]. intros fn Hfn. assert (fn ∈ dom (disk (st_fs (healed (w_store w))))) as Hd by (rewrite (fo_dom _ _ F), elem_of_list_to_set; exact Hfn).
    apply elem_of_dom in Hd as [e He]. exists e. split; [exact He|]. exact (Hpl fn e He). }
  destruct (Load_replay (map segment_name segs.*1) (healed (w_store w)) (NewCache 0 time) c _ Hcalm (names_NoDup _ _ F) E Ec) as (s & El).
  exists sel, s, (SetMaxSize maxSize c). split; [|split; [reflexivity|split; [|split; [exact Sub|]]]].
  - unfold reloadCache, bind, on_files. cbn [fst snd]. rewrite En. cbn [fst snd get modify c_maxSize NewCache]. change (SetMaxSize 0 (NewCache maxSize time)) with (NewCache 0 time). rewrite El. reflexivity.
  - intros k. exact (Hc k).
  - intros c' e id H1 H2 H3. apply (R c' e id). eapply safe_mono; [exact (li_acked _ _ _ _ L c' e id H1 H2 (or_introl H3))|apply extends_refl|reflexivity].
Qed.

End Recovery.

(** ** Witness *)

#[local] Instance cr_snappy : Snappy := {| snappy_Encode b := b; snappy_Decode := Some |}.
#[local] Instance cr_snappy_laws : SnappyLaws.
Proof. split. reflexivity. Qed.

Definition cr_ops : list wop := [OAppend 1 write_ex; OTick; OAppend 2 (DeleteEntry [[97]])].
Definition cr_plan : list fault := [Good; Good; Good; Good].

Lemma cr_ops_ok : run_ok (cr_ops ++ [OCrash (fun _ => 40%nat)]) (start cr_plan).
Proof.
  unfold cr_ops. cbn [app run_ok].
  split; [split; [split; [apply write_ex_ok|apply not_elem_of_nil]|vm_compute; reflexivity]|].
  split; [split; [exact I|vm_compute; reflexivity]|].
  split; [split; [split|vm_compute; reflexivity]|].
  - split; [|vm_compute; reflexivity]. split; [discriminate|]. constructor; [|constructor]. rewrite list_elem_of_singleton. discriminate.
  - vm_compute. intros H. inversion H; subst. inversion H2.
  - split; [split; [vm_compute; reflexivity|vm_compute; reflexivity]|exact I].
Qed.

Lemma crash_recovery_witness :
  exists sel s c, reloadCache (fun _ => 5) 0 map_to_list (healed (w_store (run (cr_ops ++ [OCrash (fun _ => 40%nat)]) (start cr_plan)).1), NewCache 1000 0) = (Ok tt, (s, c))
    /\ c_maxSize c = 1000
    /\ (forall k, a_live (abs (fun _ => 5) 0 c) k = fold_left (fun m e => apply_spec 0 e m) (map (fun x => read_of x.2) sel) (fun _ => ∅) k)
    /\ sel `sublist_of` [(1%nat, write_ex); (2%nat, DeleteEntry [[97]])] /\ (1%nat, write_ex) ∈ sel.
Proof.
  set (x := run (cr_ops ++ [OCrash (fun _ => 40%nat)]) (start cr_plan)).
  assert (h_issued x.2 = [(1%nat, write_ex); (2%nat, DeleteEntry [[97]])] /\ h_placed x.2 = [(1%nat, 1); (2%nat, 1)] /\ h_acked x.2 = [1%nat]) as (Ei & Ep & Ea) by (vm_compute; auto).
  pose proof (crash_recovery (fun _ => 5) 0 map_to_list (fun m => reflexivity _) (fun _ => 2) cr_plan cr_ops (fun _ => 40%nat) 1000 0 cr_ops_ok) as H. fold x in H. rewrite Ei in H.
  specialize (H ltac:(repeat constructor) ltac:(vm_compute; reflexivity)). destruct x as [w h]. cbn [fst snd] in *. destruct H as (sel & s & c & E & Em & Hl & Sub & R).
  exists sel, s, c. split; [exact E|]. split; [exact Em|]. split; [exact Hl|]. rewrite Ei in Sub, R. split; [exact Sub|].
  apply (R 1%nat write_ex 1); [left|rewrite Ep; left|rewrite Ea; left].
Defined.
