(* ===== verification/KeyIterator.v ===== *)
(** * Merging the blocks of TSM files

    [tsmKeyIterator] of [tsdb/engine/tsm1/compact.go] and the merging of
    [compact.gen.go], which is one template generated for five value types.  The
    template is modelled once, over a codec for one type of values, and
    instantiated five times.  The blocks an iterator hands over are recycled
    for the next key only after [k.blocks] and [k.merged] let go of them (unless
    a block failed to decode, and then every [Read] reports the error), so that
    they are values here. *)

From S2P Require Import Prelude Values Varint Simple8b TimeCodec IntCodec BoolCodec StringCodec BitReader FloatCodec ValueCodec Blocks TypedValues.
From S2P Require Import Bytes TSMWriter TSMIndex Tombstone TSMReader.

(** ** Blocks *)

Definition MaxInt64 : Z := 2 ^ 63 - 1.
Definition MinInt64 : Z := - 2 ^ 63.

Record block := mkBlock {
  blk_key : list Z; blk_minTime : Z; blk_maxTime : Z; blk_typ : Z; blk_b : list Z; blk_tombstones : list TimeRange;
  blk_readMin : Z; blk_readMax : Z }.

Definition overlapsTimeRange (b : block) (min max : Z) : bool := (blk_minTime b <=? max) && (blk_maxTime b >=? min).

Definition blk_read (b : block) : bool := (blk_readMin b <=? blk_minTime b) && (blk_readMax b >=? blk_maxTime b).

Definition set_read (mn mx : Z) (b : block) : block :=
  mkBlock (blk_key b) (blk_minTime b) (blk_maxTime b) (blk_typ b) (blk_b b) (blk_tombstones b) mn mx.

Definition markRead (min max : Z) (b : block) : block :=
  set_read (if min <? blk_readMin b then min else blk_readMin b) (if max >? blk_readMax b then max else blk_readMax b) b.

Definition partiallyRead (b : block) : bool :=
  if (blk_readMin b =? MaxInt64) && (blk_readMax b =? MinInt64) then false
  else negb (blk_readMin b =? blk_minTime b) || negb (blk_readMax b =? blk_maxTime b).

(** [Less] of [blocks]: by key, then by start. *)
Definition blocks_Less (a : list block) (i j : nat) : option bool :=
  x ← a !! i; y ← a !! j;
  Some match bytes_compare (blk_key x) (blk_key y) with
       | Eq => blk_minTime x <? blk_minTime y
       | Lt => true
       | Gt => false
       end.

(** ** The template *)

(** What the template uses of a value type: [UnixNano], [DecodeXBlock] with the
    decoders of the pools, [XValues.Encode] and [BlockCount]. *)
Class TypedCodec (V : Type) := {
  tc_time : V -> Z;
  tc_pool : decoders;
  tc_Decode : list Z -> decoders -> option (list V * option tsm_error) * decoders;
  tc_Encode : list V -> res tsm_error (list Z);
  tc_Count : list Z -> option Z }.

(** The part of the iterator the template reads and writes; [mg_values] is the
    pending slice of its type. *)
Record merger (V : Type) := mkMerger {
  mg_key : list Z; mg_size : Z; mg_fast : bool;
  mg_blocks : list block; mg_merged : list block; mg_values : list V; mg_err : option tsm_error }.
Arguments mkMerger {V}.
Arguments mg_key {V}. Arguments mg_size {V}. Arguments mg_fast {V}.
Arguments mg_blocks {V}. Arguments mg_merged {V}. Arguments mg_values {V}. Arguments mg_err {V}.

Section Template.
Context {V : Type} `{TC : !TypedCodec V}.

Definition with_blocks (bs : list block) (k : merger V) : merger V :=
  mkMerger (mg_key k) (mg_size k) (mg_fast k) bs (mg_merged k) (mg_values k) (mg_err k).
Definition with_merged (m : list block) (k : merger V) : merger V :=
  mkMerger (mg_key k) (mg_size k) (mg_fast k) (mg_blocks k) m (mg_values k) (mg_err k).
Definition with_values (vs : list V) (k : merger V) : merger V :=
  mkMerger (mg_key k) (mg_size k) (mg_fast k) (mg_blocks k) (mg_merged k) vs (mg_err k).
Definition with_err (e : tsm_error) (k : merger V) : merger V :=
  mkMerger (mg_key k) (mg_size k) (mg_fast k) (mg_blocks k) (mg_merged k) (mg_values k) (Some e).

(** [DecodeXBlock] with its error; a panic has no result. *)
Definition decode_block (b : block) : option (list V + tsm_error) :=
  match (tc_Decode (blk_b b) tc_pool).1 with
  | Some (v, None) => Some (inl v)
  | Some (_, Some e) => Some (inr e)
  | None => None
  end.

(** [for _, ts := range tombstones] *)
Definition exclude_tombstones (ts : list TimeRange) (v : list V) : list V :=
  fold_left (fun v t => Exclude tc_time v (tr_Min t) (tr_Max t)) ts v.

(** *** chunk *)

Definition new_block (key : list Z) (mn mx : Z) (b : list Z) : block := mkBlock key mn mx 0 b [] 0 0.

(** Encode [values] as the next block of [dst], leaving [rest] pending. *)
Definition chunk_values (values rest : list V) (dst : list block) (k : merger V) : option (list block * merger V) :=
  match tc_Encode values with
  | Ok cb =>
      match values !! 0%nat, last values with
      | Some f, Some l => Some (dst ++ [new_block (mg_key k) (tc_time f) (tc_time l) cb], with_values rest k)
      | _, _ => None
      end
  | Err e => Some ([], with_err e k)
  | Panic => None
  end.

Definition chunk (dst : list block) (k : merger V) : option (list block * merger V) :=
  let n := zlen (mg_values k) in
  if n >? mg_size k then
    if mg_size k <? 0 then None
    else chunk_values (take (Z.to_nat (mg_size k)) (mg_values k)) (drop (Z.to_nat (mg_size k)) (mg_values k)) dst k
  else if n >? 0 then chunk_values (mg_values k) [] dst k
  else Some (dst, k).

(** *** combine with dedup *)

(** [for len(k.blocks) > 0 && k.blocks[0].read()] *)
Fixpoint drop_read (bs : list block) : list block :=
  match bs with
  | b :: bs' => if blk_read b then drop_read bs' else bs
  | [] => []
  end.

(** The range that is decoded next: from the start of any overlapping block to
    the first end of one. *)
Definition window_step (w : Z * Z) (b : block) : Z * Z :=
  let '(minTime, maxTime) := w in
  if overlapsTimeRange b minTime maxTime && negb (blk_read b) then
    let minTime := if blk_minTime b <? minTime then blk_minTime b else minTime in
    let maxTime := if (blk_maxTime b >? minTime) && (blk_maxTime b <? maxTime) then blk_maxTime b else maxTime in
    (minTime, maxTime)
  else w.

(** The blocks that overlap the range, each in turn: decode, leave out what was
    read before, keep the range, mark it, apply the tombstones, merge.  The
    blocks before the current one are [done]. *)
Fixpoint read_window (minTime maxTime : Z) (done bs : list block) (k : merger V) : option (bool * merger V) :=
  match bs with
  | [] => Some (true, with_blocks done k)
  | b :: bs' =>
      if negb (overlapsTimeRange b minTime maxTime) || blk_read b then read_window minTime maxTime (done ++ [b]) bs' k
      else match decode_block b with
           | None => None
           | Some (inr e) => Some (false, with_err e (with_blocks (done ++ b :: bs') k))
           | Some (inl v) =>
               let v := Exclude tc_time v (blk_readMin b) (blk_readMax b) in
               let v := Include tc_time v minTime maxTime in
               let b' := match v !! 0%nat, last v with
                         | Some f, Some l => markRead (tc_time f) (tc_time l) b
                         | _, _ => b
                         end in
               let v := exclude_tombstones (blk_tombstones b) v in
               read_window minTime maxTime (done ++ [b']) bs' (with_values (Merge tc_time (mg_values k) v) k)
           end
  end.

(** The loop; [false] says that decoding failed.  Without fuel there is no
    result. *)
Fixpoint combine_dedup (fuel : nat) (k : merger V) : option (bool * merger V) :=
  match fuel with
  | O => None
  | S fuel' =>
      if (zlen (mg_values k) <? mg_size k) && negb (zlen (mg_blocks k) =? 0) then
        let k := with_blocks (drop_read (mg_blocks k)) k in
        match mg_blocks k with
        | [] => Some (true, k)
        | first :: _ =>
            let '(minTime, maxTime) := fold_left window_step (mg_blocks k) (blk_minTime first, blk_maxTime first) in
            match read_window minTime maxTime [] (mg_blocks k) k with
            | Some (true, k) => combine_dedup fuel' k
            | r => r
            end
        end
      else Some (true, k)
  end.

(** *** combine without dedup *)

(** Blocks that are full are taken as they are; the ones still to do and what
    was taken. *)
Fixpoint take_full (size : Z) (bs : list block) : option (list block * list block) :=
  match bs with
  | [] => Some ([], [])
  | b :: bs' =>
      if blk_read b then take_full size bs'
      else match tc_Count (blk_b b) with
           | None => None
           | Some n =>
               if n >=? size then '(rest, l) ← take_full size bs'; Some (rest, b :: l)
               else Some (bs, [])
           end
  end.

Definition unread (bs : list block) : list block := List.filter (fun b => negb (blk_read b)) bs.

(** The remaining blocks are decoded while there is room; the flag says that
    decoding succeeded, the blocks are the ones left. *)
Fixpoint read_rest (bs : list block) (k : merger V) : option (bool * list block * merger V) :=
  match bs with
  | [] => Some (true, [], k)
  | b :: bs' =>
      if zlen (mg_values k) <? mg_size k then
        if blk_read b then read_rest bs' k
        else match decode_block b with
             | None => None
             | Some (inr e) => Some (false, bs, with_err e k)
             | Some (inl v) => read_rest bs' (with_values (Merge tc_time (mg_values k) (exclude_tombstones (blk_tombstones b) v)) k)
             end
      else Some (true, bs, k)
  end.

(** After a failure [k.blocks] is what it was, the blocks decoded so far marked. *)
Definition mark_prefix (n : nat) (bs : list block) : list block :=
  map (fun b => if blk_read b then b else markRead (blk_minTime b) (blk_maxTime b) b) (take n bs) ++ drop n bs.

Definition combine_plain (k : merger V) : option (list block * merger V) :=
  match take_full (mg_size k) (mg_blocks k) with
  | None => None
  | Some (rest, full) =>
      let '(rest, l) := if mg_fast k then ([], full ++ unread rest) else (rest, full) in
      let '(rest, l) := match rest with
                        | [b] => ([], if blk_read b then l else l ++ [b])
                        | _ => (rest, l)
                        end in
      let k := with_merged (mg_merged k ++ l) k in
      match read_rest rest k with
      | None => None
      | Some (false, remaining, k') =>
          let skipped := (length (mg_blocks k) - length rest)%nat in
          Some ([], with_blocks (take skipped (mg_blocks k) ++ mark_prefix (length rest - length remaining) rest) k')
      | Some (true, remaining, k') => chunk (mg_merged k') (with_blocks remaining k')
      end
  end.

Definition combine_with (fuel : nat) (dedup : bool) (k : merger V) : option (list block * merger V) :=
  if dedup then
    match combine_dedup fuel k with
    | None => None
    | Some (false, k) => Some ([], k)
    | Some (true, k) => chunk [] k
    end
  else combine_plain k.

(** Every pass of the loop over well-formed blocks finishes one of them. *)
Definition combine (dedup : bool) (k : merger V) : option (list block * merger V) :=
  combine_with (S (length (mg_blocks k))) dedup k.

(** *** merge *)

Fixpoint needs_dedup (prev : block) (bs : list block) : bool :=
  match bs with
  | [] => false
  | b :: bs' =>
      if partiallyRead b || (blk_minTime b <=? blk_maxTime prev) || (0 <? zlen (blk_tombstones b)) then true
      else needs_dedup b bs'
  end.

Definition dedup_of (k : merger V) : bool :=
  if negb (zlen (mg_values k) =? 0) then true
  else match mg_blocks k with
       | [] => false
       | b :: bs => (0 <? zlen (blk_tombstones b)) || partiallyRead b || needs_dedup b bs
       end.

Definition merge_blocks (k : merger V) : option (merger V) :=
  if (zlen (mg_blocks k) =? 0) && (zlen (mg_merged k) =? 0) && (zlen (mg_values k) =? 0) then Some k
  else '(m, k) ← combine (dedup_of k) k; Some (with_merged m k).

End Template.

(** ** The five instances

    The encoders and decoders come from the pools. *)

Section Instances.
Context `{S8 : Simple8b} `{SN : Snappy} `{BS : BitStream} (p : encoders) (pool : decoders).

Definition float_values : TypedCodec (tv Z) := {|
  tc_time := unixnano; tc_pool := pool; tc_Decode b q := let '(r, td, d) := DecodeFloatBlock b (p_tdec q) (p_fdec q) in (r, mkDecoders td d (p_idec q) (p_bdec q) (p_sdec q));
  tc_Encode a := encodeFloatValuesBlock a (p_tenc p) (p_fenc p); tc_Count := BlockCount |}.
Definition integer_values : TypedCodec (tv Z) := {|
  tc_time := unixnano; tc_pool := pool; tc_Decode b q := let '(r, td, d) := DecodeIntegerBlock b (p_tdec q) (p_idec q) in (r, mkDecoders td (p_fdec q) d (p_bdec q) (p_sdec q));
  tc_Encode a := encodeIntegerValuesBlock a (p_tenc p) (p_ienc p); tc_Count := BlockCount |}.
Definition unsigned_values : TypedCodec (tv Z) := {|
  tc_time := unixnano; tc_pool := pool; tc_Decode b q := let '(r, td, d) := DecodeUnsignedBlock b (p_tdec q) (p_idec q) in (r, mkDecoders td (p_fdec q) d (p_bdec q) (p_sdec q));
  tc_Encode a := encodeUnsignedValuesBlock a (p_tenc p) (p_ienc p); tc_Count := BlockCount |}.
Definition boolean_values : TypedCodec (tv bool) := {|
  tc_time := unixnano; tc_pool := pool; tc_Decode b q := let '(r, td, d) := DecodeBooleanBlock b (p_tdec q) (p_bdec q) in (r, mkDecoders td (p_fdec q) (p_idec q) d (p_sdec q));
  tc_Encode a := encodeBooleanValuesBlock a (p_tenc p) (p_benc p); tc_Count := BlockCount |}.
Definition string_values : TypedCodec (tv (list Z)) := {|
  tc_time := unixnano; tc_pool := pool; tc_Decode b q := let '(r, td, d) := DecodeStringBlock b (p_tdec q) (p_sdec q) in (r, mkDecoders td (p_fdec q) (p_idec q) (p_bdec q) d);
  tc_Encode a := encodeStringValuesBlock a (p_tenc p) (p_senc p); tc_Count := BlockCount |}.

Definition mergeFloat := merge_blocks (TC := float_values).
Definition mergeInteger := merge_blocks (TC := integer_values).
Definition mergeUnsigned := merge_blocks (TC := unsigned_values).
Definition mergeString := merge_blocks (TC := string_values).
Definition mergeBoolean := merge_blocks (TC := boolean_values).
Definition combineFloat := combine (TC := float_values).
Definition combineInteger := combine (TC := integer_values).
Definition combineUnsigned := combine (TC := unsigned_values).
Definition combineString := combine (TC := string_values).
Definition combineBoolean := combine (TC := boolean_values).
Definition chunkFloat := chunk (TC := float_values).
Definition chunkInteger := chunk (TC := integer_values).
Definition chunkUnsigned := chunk (TC := unsigned_values).
Definition chunkString := chunk (TC := string_values).
Definition chunkBoolean := chunk (TC := boolean_values).

End Instances.

(** ** The iterator over files *)

(** One reader with its block iterator and the blocks of its current key: the
    parallel slices [readers], [iterators] and [buf]. *)
Record source := mkSource { src_reader : TSMReader; src_iter : BlockIterator; src_buf : list block }.

Record tsmKeyIterator := mkTKI {
  ki_sources : list source; ki_err : option werr; ki_fast : bool; ki_size : Z; ki_key : list Z; ki_typ : Z;
  ki_blocks : list block; ki_merged : list block;
  ki_mergedFloatValues : list (tv Z); ki_mergedIntegerValues : list (tv Z); ki_mergedUnsignedValues : list (tv Z);
  ki_mergedBooleanValues : list (tv bool); ki_mergedStringValues : list (tv (list Z)) }.

Section Iterator.
Context `{S8 : Simple8b} `{SN : Snappy} `{BS : BitStream} (p : encoders) (q : decoders).
Context `{BU : BytesUtil}.

Definition NewTSMKeyIterator (size : Z) (fast : bool) (readers : list TSMReader) : tsmKeyIterator :=
  mkTKI (map (fun r => mkSource r (rd_BlockIterator r) []) readers) None fast size [] 0 [] [] [] [] [] [] [].

Definition hasMergedValues (k : tsmKeyIterator) : bool :=
  (0 <? zlen (ki_mergedFloatValues k)) || (0 <? zlen (ki_mergedIntegerValues k)) || (0 <? zlen (ki_mergedUnsignedValues k))
  || (0 <? zlen (ki_mergedStringValues k)) || (0 <? zlen (ki_mergedBooleanValues k)).

Definition ki_with_blocks (bs : list block) (k : tsmKeyIterator) : tsmKeyIterator :=
  mkTKI (ki_sources k) (ki_err k) (ki_fast k) (ki_size k) (ki_key k) (ki_typ k) bs (ki_merged k)
    (ki_mergedFloatValues k) (ki_mergedIntegerValues k) (ki_mergedUnsignedValues k) (ki_mergedBooleanValues k) (ki_mergedStringValues k).
Definition ki_with_merged (m : list block) (k : tsmKeyIterator) : tsmKeyIterator :=
  mkTKI (ki_sources k) (ki_err k) (ki_fast k) (ki_size k) (ki_key k) (ki_typ k) (ki_blocks k) m
    (ki_mergedFloatValues k) (ki_mergedIntegerValues k) (ki_mergedUnsignedValues k) (ki_mergedBooleanValues k) (ki_mergedStringValues k).
Definition ki_with_err (e : werr) (k : tsmKeyIterator) : tsmKeyIterator :=
  mkTKI (ki_sources k) (Some e) (ki_fast k) (ki_size k) (ki_key k) (ki_typ k) (ki_blocks k) (ki_merged k)
    (ki_mergedFloatValues k) (ki_mergedIntegerValues k) (ki_mergedUnsignedValues k) (ki_mergedBooleanValues k) (ki_mergedStringValues k).
Definition ki_with_sources (ss : list source) (e : option werr) (k : tsmKeyIterator) : tsmKeyIterator :=
  mkTKI ss e (ki_fast k) (ki_size k) (ki_key k) (ki_typ k) (ki_blocks k) (ki_merged k)
    (ki_mergedFloatValues k) (ki_mergedIntegerValues k) (ki_mergedUnsignedValues k) (ki_mergedBooleanValues k) (ki_mergedStringValues k).
Definition ki_with_key (key : list Z) (typ : Z) (k : tsmKeyIterator) : tsmKeyIterator :=
  mkTKI (ki_sources k) (ki_err k) (ki_fast k) (ki_size k) key typ (ki_blocks k) (ki_merged k)
    (ki_mergedFloatValues k) (ki_mergedIntegerValues k) (ki_mergedUnsignedValues k) (ki_mergedBooleanValues k) (ki_mergedStringValues k).

(** The part the template works on, and putting it back. *)
Definition merger_of {V} (vs : list V) (k : tsmKeyIterator) : merger V :=
  mkMerger (ki_key k) (ki_size k) (ki_fast k) (ki_blocks k) (ki_merged k) vs None.
Definition put_back {V} (set : list V -> tsmKeyIterator -> tsmKeyIterator) (k : tsmKeyIterator) (m : merger V) : tsmKeyIterator :=
  let k := set (mg_values m) (ki_with_merged (mg_merged m) (ki_with_blocks (mg_blocks m) k)) in
  match mg_err m with Some e => ki_with_err (ErrBlock e) k | None => k end.

Definition set_floats vs (k : tsmKeyIterator) : tsmKeyIterator :=
  mkTKI (ki_sources k) (ki_err k) (ki_fast k) (ki_size k) (ki_key k) (ki_typ k) (ki_blocks k) (ki_merged k)
    vs (ki_mergedIntegerValues k) (ki_mergedUnsignedValues k) (ki_mergedBooleanValues k) (ki_mergedStringValues k).
Definition set_integers vs (k : tsmKeyIterator) : tsmKeyIterator :=
  mkTKI (ki_sources k) (ki_err k) (ki_fast k) (ki_size k) (ki_key k) (ki_typ k) (ki_blocks k) (ki_merged k)
    (ki_mergedFloatValues k) vs (ki_mergedUnsignedValues k) (ki_mergedBooleanValues k) (ki_mergedStringValues k).
Definition set_unsigneds vs (k : tsmKeyIterator) : tsmKeyIterator :=
  mkTKI (ki_sources k) (ki_err k) (ki_fast k) (ki_size k) (ki_key k) (ki_typ k) (ki_blocks k) (ki_merged k)
    (ki_mergedFloatValues k) (ki_mergedIntegerValues k) vs (ki_mergedBooleanValues k) (ki_mergedStringValues k).
Definition set_booleans vs (k : tsmKeyIterator) : tsmKeyIterator :=
  mkTKI (ki_sources k) (ki_err k) (ki_fast k) (ki_size k) (ki_key k) (ki_typ k) (ki_blocks k) (ki_merged k)
    (ki_mergedFloatValues k) (ki_mergedIntegerValues k) (ki_mergedUnsignedValues k) vs (ki_mergedStringValues k).
Definition set_strings vs (k : tsmKeyIterator) : tsmKeyIterator :=
  mkTKI (ki_sources k) (ki_err k) (ki_fast k) (ki_size k) (ki_key k) (ki_typ k) (ki_blocks k) (ki_merged k)
    (ki_mergedFloatValues k) (ki_mergedIntegerValues k) (ki_mergedUnsignedValues k) (ki_mergedBooleanValues k) vs.

Definition ki_merge (k : tsmKeyIterator) : option tsmKeyIterator :=
  if ki_typ k =? BlockFloat64 then put_back set_floats k <$> mergeFloat p q (merger_of (ki_mergedFloatValues k) k)
  else if ki_typ k =? BlockInteger then put_back set_integers k <$> mergeInteger p q (merger_of (ki_mergedIntegerValues k) k)
  else if ki_typ k =? BlockUnsigned then put_back set_unsigneds k <$> mergeUnsigned p q (merger_of (ki_mergedUnsignedValues k) k)
  else if ki_typ k =? BlockBoolean then put_back set_booleans k <$> mergeBoolean p q (merger_of (ki_mergedBooleanValues k) k)
  else if ki_typ k =? BlockString then put_back set_strings k <$> mergeString p q (merger_of (ki_mergedStringValues k) k)
  else Some (ki_with_err (ErrFormat "unknown block type") k).

(** *** Reading the blocks of the next key of a file *)

(** [iter.Read] as a block, with the error it may leave. *)
Definition read_block (r : TSMReader) (it : BlockIterator) : res werr (block * option werr) :=
  match bi_Read r it with
  | Ok (key, minTime, maxTime, typ, _, b) =>
      Ok (mkBlock key minTime maxTime typ b (ix_TombstoneRange (rd_index r) key) MaxInt64 MinInt64, None)
  | Err e => Ok (mkBlock [] 0 0 0 [] (ix_TombstoneRange (rd_index r) []) MaxInt64 MinInt64, Some e)
  | Panic => Panic
  end.

Definition or_err (e : option werr) (err : option werr) : option werr := match e with Some x => Some x | None => err end.

(** [for bytes.Equal(iter.PeekNext(), blockKey)]; the fuel is the number of
    entries the iterator has. *)
Fixpoint more_blocks (fuel : nat) (blockKey : list Z) (r : TSMReader) (it : BlockIterator) (buf : list block) (err : option werr)
    : res werr (list block * BlockIterator * option werr) :=
  match fuel with
  | O => Err (ErrFormat "out of fuel")
  | S fuel' =>
      match bi_PeekNext r it with
      | Ok key =>
          if bool_decide (key = blockKey) then
            match bi_Next r it with
            | (Ok _, it) =>
                match read_block r it with
                | Ok (b, e) => more_blocks fuel' blockKey r it (buf ++ [b]) (or_err e err)
                | Err e => Err e
                | Panic => Panic
                end
            | (Err e, _) => Err e
            | (Panic, _) => Panic
            end
          else Ok (buf, it, err)
      | Err e => Err e
      | Panic => Panic
      end
  end.

Definition fill (s : source) (err : option werr) : res werr (source * option werr) :=
  match src_buf s with
  | _ :: _ => Ok (s, err)
  | [] =>
      let r := src_reader s in
      let r1 :=
        match bi_Next r (src_iter s) with
        | (Ok true, it) =>
            match read_block r it with
            | Ok (b, e) => more_blocks (S (length (bi_entries it))) (blk_key b) r it [b] (or_err e err)
            | Err e => Err e
            | Panic => Panic
            end
        | (Ok false, it) => Ok ([], it, err)
        | (Err e, _) => Err e
        | (Panic, _) => Panic
        end in
      match r1 with
      | Ok (buf, it, err) => Ok (mkSource r it buf, if bi_err it then Some (ErrFormat "delete during iteration") else err)
      | Err e => Err e
      | Panic => Panic
      end
  end.

Fixpoint fill_all (ss : list source) (err : option werr) : res werr (list source * option werr) :=
  match ss with
  | [] => Ok ([], err)
  | s :: ss' =>
      match fill s err with
      | Ok (s, err) =>
          match fill_all ss' err with
          | Ok (ss', err) => Ok (s :: ss', err)
          | Err e => Err e
          | Panic => Panic
          end
      | Err e => Err e
      | Panic => Panic
      end
  end.

(** The smallest key of the buffers, with its type. *)
Definition min_step (m : list Z * Z) (s : source) : list Z * Z :=
  match src_buf s with
  | [] => m
  | b :: _ =>
      if (zlen m.1 =? 0) || match bytes_compare (blk_key b) m.1 with Lt => true | _ => false end
      then (blk_key b, blk_typ b) else m
  end.

Definition at_key (key : list Z) (s : source) : bool :=
  match src_buf s with [] => false | b :: _ => bool_decide (blk_key b = key) end.

Definition taken (key : list Z) (ss : list source) : list block :=
  concat (map (fun s => if at_key key s then src_buf s else []) ss).
Definition emptied (key : list Z) (s : source) : source :=
  if at_key key s then mkSource (src_reader s) (src_iter s) [] else s.

(** *** Next, Read, Close, Err *)

Definition merge_if (g : bool) (k : tsmKeyIterator) : res werr (bool * tsmKeyIterator) :=
  if g then match ki_merge k with
            | Some k => Ok ((0 <? zlen (ki_merged k)) || hasMergedValues k, k)
            | None => Panic
            end
  else Ok (false, k).

Definition next_key (k : tsmKeyIterator) : res werr (bool * tsmKeyIterator) :=
  match fill_all (ki_sources k) (ki_err k) with
  | Ok (ss, err) =>
      let '(minKey, minType) := fold_left min_step ss ([], 0) in
      let bs := ki_blocks k ++ taken minKey ss in
      let k := ki_with_blocks bs (ki_with_key minKey minType (ki_with_sources (map (emptied minKey) ss) err k)) in
      if zlen (ki_blocks k) =? 0 then Ok (false, k)
      else match ki_merge k with
           | Some k => Ok (0 <? zlen (ki_merged k), k)
           | None => Panic
           end
  | Err e => Err e
  | Panic => Panic
  end.

Definition ki_Next (k : tsmKeyIterator) : res werr (bool * tsmKeyIterator) :=
  let k := ki_with_merged (drop 1 (ki_merged k)) k in
  if 0 <? zlen (ki_merged k) then Ok (true, k)
  else match merge_if (hasMergedValues k) k with
       | Ok (true, k) => Ok (true, k)
       | Ok (false, k) =>
           match merge_if (0 <? zlen (ki_blocks k)) k with
           | Ok (true, k) => Ok (true, k)
           | Ok (false, k) => next_key k
           | Err e => Err e
           | Panic => Panic
           end
       | Err e => Err e
       | Panic => Panic
       end.

(** The block, and the error of the iterator. *)
Definition ki_Read (interrupted : bool) (k : tsmKeyIterator) : (list Z * Z * Z * list Z) * option werr :=
  if interrupted then (([], 0, 0, []), Some (ErrFormat "compaction aborted"))
  else match ki_merged k with
       | [] => (([], 0, 0, []), ki_err k)
       | b :: _ => ((blk_key b, blk_minTime b, blk_maxTime b, blk_b b), ki_err k)
       end.

Definition ki_Err (k : tsmKeyIterator) : option werr := ki_err k.

End Iterator.
