(* ===== verification/KeyMerge.v ===== *)
(** * What merging blocks gives

    The template of [compact.gen.go] over the blocks of one key, when they are
    ordered by their start: however they overlap, whatever is deleted, and however
    often the merge is interrupted because enough values are pending, the values
    that come out are in time order and are the blocks overlaid, later ones on
    earlier ones, without what is deleted.

    The proof is a sweep: after every pass there is a time [T] such that of every
    block exactly the values up to [T] have been taken. *)

From S2P Require Import Prelude Values Varint ValueCodec Blocks BlockFacts TypedValues Bytes TSMWriter TSMIndex TSMDelete Tombstone TSMReader TSMFile KeyIterator.

(** The promise of the codec of a value type: slices of at most [tc_max] values
    encode to a block that decodes to them and has their count. *)
Class TypedCodecLaws {V} (TC : TypedCodec V) := {
  tc_val : V -> Prop;
  tc_max : Z;
  tc_pool_usable : usable tc_pool;
  tc_roundtrip a : a <> [] -> Forall tc_val a -> zlen a <= tc_max ->
    exists b, tc_Encode a = Ok b /\ tc_Count b = Some (zlen a)
      /\ forall q, usable q -> exists q', tc_Decode b q = (Some (a, None), q') /\ usable q' }.

(** ** Slices and times *)

Section Times.
Context {V : Type} (U : V -> Z).

Definition first_time (vs : list V) : Z := match head vs with Some v => U v | None => 0 end.
Definition last_time (vs : list V) : Z := match last vs with Some v => U v | None => 0 end.

Lemma time_span vs v : increasing U vs -> v ∈ vs -> first_time vs <= U v <= last_time vs.
Proof.
  intros Hi Hv. unfold first_time, last_time. destruct vs as [|x vs]; [apply elem_of_nil in Hv as []|].
  destruct (last (x :: vs)) as [l|] eqn:El; [|apply last_None in El; discriminate].
  split; [apply (increasing_head U x vs); assumption|apply (increasing_last U (x :: vs)); assumption].
Qed.

Lemma first_le_last vs : increasing U vs -> vs <> [] -> first_time vs <= last_time vs.
Proof. intros Hi Hn. destruct vs as [|x vs]; [congruence|]. apply (time_span (x :: vs) x) in Hi; [cbn in *; lia|left]. Qed.

Lemma to_map_filter (f : Z -> bool) l :
  to_map U (List.filter (fun v => f (U v)) l) = filter (fun kv => f kv.1 = true) (to_map U l).
Proof.
  induction l as [|v l IH] using rev_ind; [reflexivity|]. rewrite List.filter_app, to_map_snoc. cbn [List.filter].
  rewrite map_filter_insert. cbn. destruct (f (U v)) eqn:E.
  - rewrite to_map_snoc, IH, decide_True by reflexivity. reflexivity.
  - rewrite app_nil_r, IH, decide_False by discriminate. apply map_eq. intros t. apply option_eq. intros x.
    rewrite !map_lookup_filter_Some, lookup_delete_Some. cbn. split; [|tauto]. intros [H1 H2]. repeat split; auto. intros Heq. rewrite Heq in E. congruence.
Qed.

Lemma filter_concat_map {A} (f : V -> bool) (g : A -> list V) l :
  List.filter f (concat (map g l)) = concat (map (fun x => List.filter f (g x)) l).
Proof. induction l as [|x l IH]; [reflexivity|]. cbn. rewrite List.filter_app, IH. reflexivity. Qed.

(** Up to [T], after [T] up to [M]. *)
Definition below (T : Z) (v : V) : bool := U v <=? T.
Definition between (T M : Z) (v : V) : bool := (T <? U v) && (U v <=? M).

Lemma below_split T M vs :
  increasing U vs -> T <= M -> List.filter (below M) vs = List.filter (below T) vs ++ List.filter (between T M) vs.
Proof.
  intros Hi Hle. unfold below, between. induction Hi as [|x vs Hi IH Hx]; [reflexivity|]. cbn [List.filter]. rewrite IH. rewrite Forall_forall in Hx.
  destruct (Z.leb_spec (U x) T) as [H1|H1]; destruct (Z.leb_spec (U x) M) as [H2|H2]; try lia.
  - destruct (Z.ltb_spec T (U x)); [lia|]. reflexivity.
  - destruct (Z.ltb_spec T (U x)); [|lia]. cbn [andb]. rewrite (filter_none (fun v => U v <=? T) vs); [reflexivity|].
    apply Forall_forall. intros y Hy. specialize (Hx y Hy). cbn in Hx. zcases; lia || reflexivity.
  - rewrite andb_false_r. reflexivity.
Qed.

Lemma head_below T vs v l : increasing U vs -> List.filter (below T) vs = v :: l -> head vs = Some v.
Proof.
  intros Hi E. destruct vs as [|x vs]; [discriminate|]. cbn [List.filter] in E. unfold below in E at 1. destruct (Z.leb_spec (U x) T) as [H|H]; [injection E as -> _; reflexivity|].
  exfalso. assert (v ∈ List.filter (below T) vs) as Hv by (rewrite E; left). apply list_elem_of_In, filter_In in Hv as [Hv Hb].
  apply list_elem_of_In in Hv. apply StronglySorted_inv in Hi as [_ Hi]. rewrite Forall_forall in Hi. specialize (Hi v Hv). unfold below in Hb. cbn in Hi. lia.
Qed.

Lemma below_all T vs : increasing U vs -> last_time vs <= T -> List.filter (below T) vs = vs.
Proof.
  intros Hi H. apply filter_all, Forall_forall. intros v Hv. pose proof (time_span vs v Hi Hv). unfold below. lia.
Qed.

Lemma below_none T vs : increasing U vs -> T < first_time vs -> List.filter (below T) vs = [].
Proof.
  intros Hi H. apply filter_none, Forall_forall. intros v Hv. pose proof (time_span vs v Hi Hv). unfold below. lia.
Qed.
End Times.

Section Facts.
Context {V : Type} `{TC : !TypedCodec V} {TL : TypedCodecLaws TC} (key : list Z).

(** ** Blocks with their values *)

(** The values of a block and the ranges deleted from it. *)
Definition piece : Type := list V * list TimeRange.

Record holds_values (b : block) (vs : list V) : Prop := {
  hv_key : blk_key b = key;
  hv_ne : vs <> []; hv_inc : increasing tc_time vs; hv_val : Forall tc_val vs; hv_i64 : Forall (fun v => is_i64 (tc_time v)) vs;
  hv_decodes : forall q, usable q -> exists q', tc_Decode (blk_b b) q = (Some (vs, None), q') /\ usable q';
  hv_count : tc_Count (blk_b b) = Some (zlen vs);
  hv_min : blk_minTime b = first_time tc_time vs; hv_max : blk_maxTime b = last_time tc_time vs }.

Lemma hv_dec b vs : holds_values b vs -> (tc_Decode (blk_b b) tc_pool).1 = Some (vs, None).
Proof. intros H. destruct (hv_decodes _ _ H tc_pool tc_pool_usable) as (q' & -> & _). reflexivity. Qed.

(** Of the values of [b] exactly those up to [T] were taken. *)
Definition taken_upto (T : Z) (b : block) (vs : list V) : Prop :=
  match last (List.filter (below tc_time T) vs) with
  | None => blk_readMin b = MaxInt64 /\ blk_readMax b = MinInt64
  | Some v => blk_readMin b = first_time tc_time vs /\ blk_readMax b = tc_time v
  end.

Definition at_time (T : Z) (b : block) (x : piece) : Prop :=
  holds_values b x.1 /\ blk_tombstones b = x.2 /\ taken_upto T b x.1.

Lemma hv_span b vs : holds_values b vs -> blk_minTime b <= blk_maxTime b /\ MinInt64 <= blk_minTime b /\ blk_maxTime b <= MaxInt64.
Proof.
  intros H. rewrite (hv_min _ _ H), (hv_max _ _ H). split; [apply first_le_last; apply H|].
  pose proof (hv_i64 _ _ H) as F. rewrite Forall_forall in F. unfold first_time, last_time. pose proof (hv_ne _ _ H).
  destruct vs as [|x vs]; [congruence|]. destruct (last (x :: vs)) as [l|] eqn:El; [|apply last_None in El; discriminate].
  apply last_Some_elem_of in El. pose proof (F x ltac:(left)). pose proof (F l El). unfold MinInt64, MaxInt64, is_i64 in *. cbn. lia.
Qed.

Lemma below_last T vs v :
  increasing tc_time vs -> last (List.filter (below tc_time T) vs) = Some v -> v ∈ vs /\ tc_time v <= T.
Proof.
  intros Hi H. apply last_Some_elem_of in H. apply list_elem_of_In, filter_In in H as [H Hb]. rewrite list_elem_of_In. unfold below in Hb. split; [exact H|lia].
Qed.

(** A block counts as read when its end is reached. *)
Lemma read_iff T b vs : holds_values b vs -> taken_upto T b vs -> blk_read b = (last_time tc_time vs <=? T).
Proof.
  intros H R. pose proof (hv_span _ _ H) as (S1 & S2 & S3). unfold blk_read, taken_upto in *.
  destruct (Z.leb_spec (last_time tc_time vs) T) as [Hl|Hl].
  - rewrite below_all in R by (apply H || exact Hl). unfold last_time in *. pose proof (hv_max _ _ H) as Hm. unfold last_time in Hm.
    destruct (last vs) as [v|] eqn:El; [|apply last_None in El; destruct (hv_ne _ _ H El)].
    destruct R as [-> ->]. rewrite (hv_min _ _ H), Hm. zcases; lia || reflexivity.
  - destruct (last (List.filter _ vs)) as [v|] eqn:El; destruct R as [-> ->].
    + apply below_last in El as [_ El]; [|apply H]. rewrite <- (hv_max _ _ H) in Hl. zcases; lia || reflexivity.
    + unfold MaxInt64, MinInt64 in *. zcases; lia || reflexivity.
Qed.

(** What is left out is what was taken. *)
Lemma exclude_taken T b vs :
  holds_values b vs -> taken_upto T b vs ->
  Exclude tc_time vs (blk_readMin b) (blk_readMax b) = List.filter (fun v => negb (below tc_time T v)) vs.
Proof.
  intros H R. rewrite (proj2 (include_exclude_filter tc_time vs _ _ (hv_inc _ _ H))). apply List.filter_ext_in. intros w Hw. f_equal.
  apply list_elem_of_In in Hw. pose proof (time_span tc_time vs w (hv_inc _ _ H) Hw) as Sp.
  unfold taken_upto in R. unfold in_range, below. destruct (last (List.filter _ vs)) as [v|] eqn:El; destruct R as [-> ->].
  - destruct (Z.leb_spec (tc_time w) T) as [Hle|Hgt].
    + assert (w ∈ List.filter (below tc_time T) vs) as Hin by (apply list_elem_of_In, filter_In; rewrite <- list_elem_of_In; unfold below; split; [exact Hw|lia]).
      pose proof (increasing_last tc_time _ _ w (increasing_filter tc_time _ _ (hv_inc _ _ H)) El Hin). zcases; lia || reflexivity.
    + apply below_last in El as [_ El]; [|apply H]. zcases; lia || reflexivity.
  - apply last_None in El. destruct (Z.leb_spec (tc_time w) T) as [Hle|Hgt].
    + exfalso. assert (w ∈ List.filter (below tc_time T) vs) as Hin by (apply list_elem_of_In, filter_In; rewrite <- list_elem_of_In; unfold below; split; [exact Hw|lia]).
      rewrite El in Hin. apply elem_of_nil in Hin as [].
    + unfold MaxInt64, MinInt64. zcases; lia || reflexivity.
Qed.

Lemma include_between T m M vs :
  increasing tc_time vs -> m <= first_time tc_time vs ->
  Include tc_time (List.filter (fun v => negb (below tc_time T v)) vs) m M = List.filter (between tc_time T M) vs.
Proof.
  intros Hi Hm. rewrite (proj1 (include_exclude_filter tc_time _ _ _ (increasing_filter tc_time _ _ Hi))), filter_filter.
  apply List.filter_ext_in. intros v Hv. apply list_elem_of_In in Hv. pose proof (time_span tc_time vs v Hi Hv).
  unfold in_range, below, between. zcases; cbn; lia || reflexivity.
Qed.

Lemma taken_same T M b vs : increasing tc_time vs -> T <= M -> List.filter (between tc_time T M) vs = [] -> taken_upto T b vs -> taken_upto M b vs.
Proof. intros Hi Hle E R. unfold taken_upto in *. rewrite (below_split tc_time T M) by assumption. rewrite E, app_nil_r. exact R. Qed.

(** Marking the values up to [M]. *)
Lemma taken_mark T M b vs f l :
  holds_values b vs -> T <= M -> head (List.filter (between tc_time T M) vs) = Some f -> last (List.filter (between tc_time T M) vs) = Some l ->
  taken_upto T b vs -> taken_upto M (markRead (tc_time f) (tc_time l) b) vs.
Proof.
  intros H Hle Ef El R. unfold taken_upto. rewrite (below_split tc_time T M) by (apply H || exact Hle). rewrite last_app, El.
  assert (f ∈ vs /\ T < tc_time f <= M) as [Hf Tf].
  { assert (f ∈ List.filter (between tc_time T M) vs) as Hf by (destruct (List.filter _ vs); [discriminate|injection Ef as ->; left]).
    apply list_elem_of_In, filter_In in Hf as [Hf Hb]. rewrite list_elem_of_In. unfold between in Hb. split; [exact Hf|lia]. }
  assert (l ∈ vs /\ T < tc_time l <= M) as [Hl Tl].
  { apply last_Some_elem_of, list_elem_of_In, filter_In in El as [Hl Hb]. rewrite list_elem_of_In. unfold between in Hb. split; [exact Hl|lia]. }
  pose proof (time_span tc_time vs f (hv_inc _ _ H) Hf) as Sf.
  pose proof (hv_i64 _ _ H) as Fi. rewrite Forall_forall in Fi. pose proof (Fi f Hf) as If. pose proof (Fi l Hl) as Il.
  unfold taken_upto in R. cbn [markRead set_read blk_readMin blk_readMax].
  destruct (last (List.filter (below tc_time T) vs)) as [v|] eqn:Ev; destruct R as [-> ->].
  - apply below_last in Ev as [_ Ev]; [|apply H]. zcases; cbn; split; lia.
  - apply last_None in Ev. assert (List.filter (below tc_time M) vs = List.filter (between tc_time T M) vs) as Em
      by (rewrite (below_split tc_time T M) by (apply H || exact Hle); rewrite Ev; reflexivity).
    destruct (List.filter (between tc_time T M) vs) as [|f' r] eqn:Er; [discriminate|]. injection Ef as ->.
    apply head_below in Em; [|apply H]. unfold first_time. rewrite Em. unfold MaxInt64, MinInt64, is_i64 in *. zcases; split; lia.
Qed.

Lemma holds_mark b vs mn mx : holds_values b vs -> holds_values (markRead mn mx b) vs.
Proof. intros H. destruct H. split; assumption. Qed.

(** ** One window *)

Definition survives (x : piece) : list V := List.filter (fun v => negb (covered x.2 (tc_time v))) x.1.

Lemma survives_between T M x : increasing tc_time x.1 ->
  exclude_tombstones x.2 (List.filter (between tc_time T M) x.1) = List.filter (between tc_time T M) (survives x).
Proof.
  intros Hi. unfold exclude_tombstones, survives. rewrite exclude_ranges by (apply increasing_filter; exact Hi).
  rewrite !filter_filter. apply List.filter_ext. intros v. apply andb_comm.
Qed.

Lemma survives_none T M x : List.filter (between tc_time T M) x.1 = [] -> List.filter (between tc_time T M) (survives x) = [].
Proof.
  intros E. unfold survives. rewrite filter_filter.
  assert (List.filter (fun v => negb (covered x.2 (tc_time v))) (List.filter (between tc_time T M) x.1) = []) as H by (rewrite E; reflexivity).
  rewrite filter_filter in H. rewrite <- H. apply List.filter_ext. intros v. apply andb_comm.
Qed.

(** [k] with other blocks and values. *)
Definition with_bv (bs : list block) (vs : list V) (k : merger V) : merger V := with_values vs (with_blocks bs k).

Lemma not_between T M vs : increasing tc_time vs -> last_time tc_time vs <= T \/ M < first_time tc_time vs -> List.filter (between tc_time T M) vs = [].
Proof.
  intros Hi H. apply filter_none, Forall_forall. intros v Hv. pose proof (time_span tc_time vs v Hi Hv). unfold between. zcases; cbn; lia || reflexivity.
Qed.

Lemma read_window_spec m M T bs rest done k :
  Forall2 (at_time T) bs rest -> Forall (fun x : piece => m <= first_time tc_time x.1) rest -> T <= M -> increasing tc_time (mg_values k) ->
  exists bs' vs', read_window m M done bs k = Some (true, with_bv (done ++ bs') vs' k)
    /\ Forall2 (at_time M) bs' rest /\ increasing tc_time vs'
    /\ to_map tc_time vs' = to_map tc_time (concat (map (fun x => List.filter (between tc_time T M) (survives x)) rest)) ∪ to_map tc_time (mg_values k).
Proof.
  intros F. revert done k. induction F as [|b x bs rest (Hh & Ht & Hr) F IH]; intros done k Hm Hle Hv.
  { exists [], (mg_values k). rewrite app_nil_r. split; [reflexivity|]. split; [constructor|]. split; [exact Hv|].
    cbn [map concat]. change (to_map tc_time []) with (∅ : gmap Z V). rewrite map_empty_union. reflexivity. }
  apply Forall_cons in Hm as [Hmx Hm]. cbn [read_window]. pose proof (hv_inc _ _ Hh) as Hi. pose proof (hv_span _ _ Hh) as Hsp.
  rewrite (read_iff T b x.1 Hh Hr). cbn [map concat].
  destruct (negb (overlapsTimeRange b m M) || (last_time tc_time x.1 <=? T)) eqn:Eskip.
  - assert (List.filter (between tc_time T M) x.1 = []) as En.
    { apply not_between; [exact Hi|]. apply orb_true_iff in Eskip as [E|E]; [right|left; lia].
      unfold overlapsTimeRange in E. rewrite (hv_min _ _ Hh), (hv_max _ _ Hh) in *. zcases; cbn in E; lia || discriminate. }
    destruct (IH (done ++ [b]) k Hm Hle Hv) as (bs' & vs' & E & A & I & Mp). exists (b :: bs'), vs'. rewrite E, <- app_assoc.
    split; [reflexivity|]. split; [|split; [exact I|rewrite (survives_none T M x En); exact Mp]].
    constructor; [|exact A]. split; [exact Hh|]. split; [exact Ht|]. apply (taken_same T); assumption.
  - unfold decode_block. rewrite (hv_dec _ _ Hh), (exclude_taken T b x.1 Hh Hr), (include_between T m M x.1 Hi Hmx), Ht, survives_between by exact Hi.
    set (v := List.filter (between tc_time T M) x.1). set (w := List.filter (between tc_time T M) (survives x)).
    set (b' := match v !! 0%nat with Some f => _ | None => b end).
    assert (at_time M b' x) as Hb'.
    { assert (v !! 0%nat = head v) as Ehd by (destruct v; reflexivity). unfold b'. rewrite Ehd. destruct (head v) as [f|] eqn:Ef.
      - destruct (last v) as [l|] eqn:El; [|apply last_None in El; rewrite El in Ef; discriminate].
        split; [apply holds_mark, Hh|]. split; [exact Ht|]. apply (taken_mark T M b x.1 f l Hh Hle Ef El Hr).
      - split; [exact Hh|]. split; [exact Ht|]. apply (taken_same T); [exact Hi|exact Hle| |exact Hr]. fold v. destruct v; [reflexivity|discriminate]. }
    destruct (IH (done ++ [b']) (with_values (Merge tc_time (mg_values k) w) k) Hm Hle) as (bs' & vs' & E & A & I & Mp).
    { apply Merge_increasing; [exact Hv|]. apply increasing_filter, increasing_filter. exact Hi. }
    exists (b' :: bs'), vs'. rewrite E, <- app_assoc. split; [reflexivity|]. split; [constructor; assumption|]. split; [exact I|].
    rewrite Mp. cbn [with_values mg_values]. rewrite Merge_map, to_map_app, map_union_assoc. reflexivity.
Qed.

(** The window ends at the end of a block that is not read yet. *)
Lemma window_fold bs m M :
  let w := fold_left window_step bs (m, M) in
  w.1 <= m /\ (w.2 = M \/ exists b, b ∈ bs /\ blk_read b = false /\ w.2 = blk_maxTime b).
Proof.
  revert m M. induction bs as [|b bs IH]; intros m M; cbn [fold_left]; [cbn; lia|].
  destruct (window_step (m, M) b) as [m1 M1] eqn:E.
  assert (m1 <= m /\ (M1 = M \/ blk_read b = false /\ M1 = blk_maxTime b)) as [H1 H2].
  { unfold window_step in E. destruct (overlapsTimeRange b m M && negb (blk_read b)) eqn:Eo; [|injection E as <- <-; lia].
    apply andb_true_iff in Eo as [_ Eo]. apply negb_true_iff in Eo. injection E as <- <-.
    split; [zcases; lia|]. destruct (_ && _); [right; auto|left; reflexivity]. }
  destruct (IH m1 M1) as [I1 I2]. split; [lia|]. destruct I2 as [I2|(c & Hc & Hr & I2)].
  - rewrite I2. destruct H2 as [H2|[H2 H3]]; [left; exact H2|]. right. exists b. split; [left|]. auto.
  - right. exists c. split; [right; exact Hc|]. auto.
Qed.

(** ** The sweep *)

(** What the blocks of a key say together: later ones override earlier ones. *)
Definition content (all : list piece) : gmap Z V := to_map tc_time (concat (map survives all)).

Definition upto (T : Z) (m : gmap Z V) : gmap Z V := filter (fun kv => kv.1 <= T) m.

Lemma upto_filter T l : upto T (to_map tc_time l) = to_map tc_time (List.filter (below tc_time T) l).
Proof.
  unfold below. rewrite (to_map_filter tc_time (fun t => t <=? T)). apply map_filter_ext. intros t v _. cbn. lia.
Qed.

Lemma upto_grow T M all :
  T <= M -> upto M (content all) = to_map tc_time (concat (map (fun x => List.filter (between tc_time T M) (survives x)) all)) ∪ upto T (content all).
Proof.
  intros Hle. rewrite <- filter_concat_map. unfold content, upto, between. set (l := concat _).
  rewrite (to_map_filter tc_time (fun t => (T <? t) && (t <=? M))). apply map_eq. intros t. apply option_eq. intros v.
  rewrite lookup_union_Some_raw, map_lookup_filter_None, !map_lookup_filter_Some. cbn. split.
  - intros [H1 H2]. destruct (Z.le_gt_cases t T) as [H|H].
    + right. split; [|auto]. right. intros y Hy E. lia.
    + left. split; [exact H1|]. lia.
  - intros [[H1 H2]|[_ [H1 H2]]]; (split; [exact H1|lia]).
Qed.

Definition starts_sorted (all : list piece) : Prop :=
  StronglySorted (fun x y : piece => first_time tc_time x.1 <= first_time tc_time y.1) all.

(** Everything up to [T] has come out ([em]) or is pending, in order; the blocks
    that are left are at [T], the ones that are gone end before. *)
Record sweep (all : list piece) (T : Z) (em : list V) (k : merger V) : Prop := {
  sw_key : mg_key k = key;
  sw_blocks : exists gone rest, all = gone ++ rest /\ Forall (fun x : piece => increasing tc_time x.1 /\ last_time tc_time x.1 <= T) gone
                /\ Forall2 (at_time T) (mg_blocks k) rest;
  sw_inc : increasing tc_time (em ++ mg_values k);
  sw_map : to_map tc_time (em ++ mg_values k) = upto T (content all) }.

(** The values that are out or pending come from the blocks. *)
Lemma sweep_elem all T em k v : sweep all T em k -> v ∈ em ++ mg_values k -> (exists x, x ∈ all /\ v ∈ x.1) /\ tc_time v <= T.
Proof.
  intros H Hv. pose proof (increasing_in_map tc_time _ v (sw_inc _ _ _ _ H) Hv) as L. rewrite (sw_map _ _ _ _ H) in L.
  apply map_lookup_filter_Some in L as [L HT]. split; [|exact HT]. apply to_map_elem in L. apply list_elem_of_In, in_concat in L as (l & Hl & L).
  apply in_map_iff in Hl as (x & <- & Hx). apply filter_In in L as [L _]. exists x. rewrite !list_elem_of_In. auto.
Qed.

Lemma gone_nothing T M gone :
  Forall (fun x : piece => increasing tc_time x.1 /\ last_time tc_time x.1 <= T) gone ->
  concat (map (fun x => List.filter (between tc_time T M) (survives x)) gone) = [].
Proof.
  induction 1 as [|x gone [Hi Hx] _ IH]; [reflexivity|]. cbn. rewrite IH, (survives_none T M x), app_nil_r; [reflexivity|].
  apply not_between; [exact Hi|lia].
Qed.

(** Read blocks at the front are dropped. *)
Lemma drop_read_sweep all T em k : sweep all T em k -> sweep all T em (with_blocks (drop_read (mg_blocks k)) k).
Proof.
  intros [K (gone & rest & E & G & F) I Mp]. split; [exact K| |exact I|exact Mp]. cbn [with_blocks mg_blocks].
  clear I Mp. revert gone E G. induction F as [|b x bs rest (Hh & Ht & Hr) F IH]; intros gone E G; cbn [drop_read]; [exists gone, []; auto|].
  rewrite (read_iff T b x.1 Hh Hr). destruct (Z.leb_spec (last_time tc_time x.1) T) as [Hl|Hl].
  - apply (IH (gone ++ [x])); [rewrite <- app_assoc; exact E|]. apply Forall_app. split; [exact G|]. repeat constructor; [apply Hh|exact Hl].
  - exists gone, (x :: rest). split; [exact E|]. split; [exact G|]. constructor; [split; [exact Hh|auto]|exact F].
Qed.

Lemma drop_read_head bs b bs' : drop_read bs = b :: bs' -> blk_read b = false.
Proof. induction bs as [|c bs IH]; cbn; [discriminate|]. destruct (blk_read c) eqn:E; [exact IH|]. intros H. injection H as <- _. exact E. Qed.

(** Blocks whose end is after [T]. *)
Definition unfinished (bs : list block) : nat := length (unread bs).

Lemma unfinished_drop bs : unfinished (drop_read bs) = unfinished bs.
Proof. unfold unfinished, unread. induction bs as [|b bs IH]; cbn; [reflexivity|]. destruct (blk_read b) eqn:E; [exact IH|]. cbn. rewrite E. reflexivity. Qed.

Lemma unfinished_mono T M bs bs' rest :
  Forall2 (at_time T) bs rest -> Forall2 (at_time M) bs' rest -> T <= M ->
  (unfinished bs' <= unfinished bs)%nat
  /\ ((exists b, b ∈ bs /\ blk_read b = false /\ blk_maxTime b <= M) -> (unfinished bs' < unfinished bs)%nat).
Proof.
  intros F. revert bs'. unfold unfinished, unread. induction F as [|b x bs rest (Hh & Ht & Hr) F IH]; intros bs' F' Hle.
  { inversion F'. subst. split; [reflexivity|]. intros (b & Hb & _). apply elem_of_nil in Hb as []. }
  inversion F' as [|b' y bs1 rest1 (Hh' & Ht' & Hr') F1]; subst. destruct (IH bs1 F1 Hle) as [IH1 IH2]. cbn.
  pose proof (read_iff T b x.1 Hh Hr) as R1. pose proof (read_iff M b' x.1 Hh' Hr') as R2.
  assert (blk_read b = true -> blk_read b' = true) as Rm by (rewrite R1, R2; lia).
  split.
  - destruct (blk_read b) eqn:E1; [rewrite Rm by reflexivity; cbn; lia|]. destruct (blk_read b'); cbn; lia.
  - intros (c & Hc & Hcr & Hcm). apply elem_of_cons in Hc as [->|Hc].
    + rewrite Hcr. rewrite (hv_max _ _ Hh) in Hcm. assert (blk_read b' = true) as -> by (rewrite R2; lia). cbn. lia.
    + assert ((length (List.filter (fun b => negb (blk_read b)) bs1) < length (List.filter (fun b => negb (blk_read b)) bs))%nat) as Hlt by (apply IH2; eauto).
      destruct (blk_read b) eqn:E1; [rewrite Rm by reflexivity; cbn; lia|]. destruct (blk_read b'); cbn; lia.
Qed.

(** One pass of the loop moves [T] to the end of a block. *)
Lemma pass_spec all T em k first bs :
  starts_sorted all -> sweep all T em k -> mg_blocks k = first :: bs -> blk_read first = false ->
  let w := fold_left window_step (mg_blocks k) (blk_minTime first, blk_maxTime first) in
  exists bs' vs', read_window w.1 w.2 [] (mg_blocks k) k = Some (true, with_bv bs' vs' k) /\ T <= w.2
    /\ sweep all w.2 em (with_bv bs' vs' k) /\ (unfinished bs' < unfinished (mg_blocks k))%nat.
Proof.
  intros Hs H Eb Ef. destruct H as [K (gone & rest & E & G & F) I Mp]. set (w := fold_left _ _ _).
  destruct (window_fold (mg_blocks k) (blk_minTime first) (blk_maxTime first)) as [W1 W2]. fold w in W1, W2.
  assert (exists b, b ∈ mg_blocks k /\ blk_read b = false /\ w.2 = blk_maxTime b) as (b & Hb & Hrb & Ew).
  { destruct W2 as [W2|W2]; [exists first; rewrite Eb; split; [left|auto]|exact W2]. }
  assert (T <= w.2) as HT.
  { apply list_elem_of_lookup in Hb as [i Hi]. destruct (Forall2_lookup_l _ _ _ _ _ F Hi) as (x & _ & Hh & _ & Hr).
    rewrite (read_iff T b x.1 Hh Hr) in Hrb. rewrite Ew, (hv_max _ _ Hh). lia. }
  assert (increasing tc_time (mg_values k)) as Iv by (apply StronglySorted_app_1_r in I; exact I).
  destruct (read_window_spec w.1 w.2 T (mg_blocks k) rest [] k F) as (bs' & vs' & Er & F' & I' & M'); [|exact HT|exact Iv|].
  { rewrite Eb in F. inversion F as [|? x ? rest' (Hh & _) F1]; subst. rewrite (hv_min _ _ Hh) in W1.
    unfold starts_sorted in Hs. apply StronglySorted_app_1_r in Hs. constructor; [exact W1|].
    apply StronglySorted_inv in Hs as [_ Hs]. eapply Forall_impl; [exact Hs|]. intros y Hy. cbn in Hy. lia. }
  exists bs', vs'. split; [exact Er|]. split; [exact HT|]. split; [split; [exact K|..]|].
  - exists gone, rest. split; [exact E|]. split; [|exact F']. eapply Forall_impl; [exact G|]. intros y [Hy1 Hy2]. split; [exact Hy1|lia].
  - cbn [with_bv with_values mg_values]. apply increasing_app; [apply StronglySorted_app_1_l in I; exact I|exact I'|]. intros u v Hu Hv.
    pose proof (increasing_in_map tc_time _ v I' Hv) as L. rewrite M' in L. apply lookup_union_Some_raw in L as [L|[_ L]]; apply to_map_elem in L.
    + rewrite <- filter_concat_map in L. apply list_elem_of_In, filter_In in L as [_ L].
      assert (tc_time u <= T) as HuT; [|unfold between in L; lia].
      apply (sweep_elem all T em k); [split; [exact K|exists gone, rest; auto|exact I|exact Mp]|apply elem_of_app; left; exact Hu].
    + apply list_elem_of_lookup in Hu as [i Hu], L as [j Hj].
      apply (increasing_lookup tc_time (em ++ mg_values k) i (length em + j)); [exact I| | |apply lookup_lt_Some in Hu; lia].
      * apply lookup_app_l_Some. exact Hu.
      * rewrite lookup_app_r by lia. replace (length em + j - length em)%nat with j by lia. exact Hj.
  - cbn [with_bv with_values mg_values]. rewrite (upto_grow T w.2) by exact HT. rewrite <- Mp, !to_map_app, M', map_union_assoc. f_equal. f_equal.
    rewrite E, map_app, concat_app, (gone_nothing T w.2 gone G). reflexivity.
  - apply (unfinished_mono T w.2 _ _ rest F F' HT). exists b. rewrite Ew. split; [exact Hb|]. split; [exact Hrb|lia].
Qed.

(** The loop ends: with enough values, or with every block read. *)
Lemma combine_dedup_spec fuel all T em k :
  starts_sorted all -> sweep all T em k -> (unfinished (mg_blocks k) < fuel)%nat ->
  exists bs' vs' T', combine_dedup fuel k = Some (true, with_bv bs' vs' k) /\ T <= T' /\ sweep all T' em (with_bv bs' vs' k)
    /\ (mg_size k <= zlen vs' \/ bs' = []).
Proof.
  intros Hs. revert T k. induction fuel as [|fuel IH]; intros T k H Hf; [lia|]. cbn [combine_dedup].
  assert (k = with_bv (mg_blocks k) (mg_values k) k) as Ek by (destruct k; reflexivity).
  destruct (Z.ltb_spec (zlen (mg_values k)) (mg_size k)) as [Hz|Hz]; cbn [andb].
  2: { exists (mg_blocks k), (mg_values k), T. rewrite <- Ek. split; [reflexivity|]. split; [lia|]. auto. }
  destruct (Z.eqb_spec (zlen (mg_blocks k)) 0) as [E0|E0]; cbn [negb].
  { exists (mg_blocks k), (mg_values k), T. rewrite <- Ek. split; [reflexivity|]. split; [lia|]. split; [exact H|].
    right. destruct (mg_blocks k) as [|b l]; [reflexivity|]. rewrite zlen_cons in E0. pose proof (zlen_nonneg l). lia. }
  pose proof (drop_read_sweep all T em k H) as H1. cbn [with_blocks mg_blocks]. destruct (drop_read (mg_blocks k)) as [|first bs] eqn:Ed.
  { exists [], (mg_values k), T. split; [reflexivity|]. split; [lia|]. split; [exact H1|]. auto. }
  pose proof (pass_spec all T em _ first bs Hs H1 eq_refl (drop_read_head _ _ _ Ed)) as P. cbn [with_blocks mg_blocks] in P. cbv zeta in P.
  destruct (fold_left window_step (first :: bs) _) as [m M]. cbn [fst snd] in P.
  destruct P as (bs' & vs' & Er & HT & H2 & Hlt). change (@with_blocks V (first :: bs) k) with (with_blocks (first :: bs) k). rewrite Er.
  destruct (IH M _ H2) as (bs2 & vs2 & T2 & Ec & HT2 & H3 & Hend).
  { cbn [with_bv with_values with_blocks mg_blocks]. rewrite <- Ed, unfinished_drop in Hlt. lia. }
  exists bs2, vs2, T2. rewrite Ec. split; [reflexivity|]. split; [lia|]. split; [exact H3|]. exact Hend.
Qed.

(** ** Writing out *)

Definition emits (bs : list block) (outs : list (list V)) : Prop := Forall2 holds_values bs outs.

Lemma chunk_values_spec values rest dst k :
  values <> [] -> increasing tc_time values -> Forall tc_val values -> Forall (fun v => is_i64 (tc_time v)) values -> zlen values <= tc_max -> mg_key k = key ->
  exists nb, chunk_values values rest dst k = Some (dst ++ [nb], with_values rest k) /\ holds_values nb values.
Proof.
  intros Hne Hi Hv H64 Hz Hk. destruct (tc_roundtrip values Hne Hv Hz) as (cb & Ee & Ec & Ed). unfold chunk_values. rewrite Ee.
  destruct values as [|f values]; [congruence|]. destruct (last (f :: values)) as [l|] eqn:El; [|apply last_None in El; discriminate].
  eexists. split; [reflexivity|]. split; try assumption; cbn; [reflexivity|]. unfold last_time. rewrite El. reflexivity.
Qed.

Definition piece_ok (x : piece) : Prop :=
  x.1 <> [] /\ increasing tc_time x.1 /\ Forall tc_val x.1 /\ Forall (fun v => is_i64 (tc_time v)) x.1.

Lemma sweep_values all T em k :
  Forall piece_ok all -> sweep all T em k ->
  increasing tc_time (mg_values k) /\ Forall tc_val (mg_values k) /\ Forall (fun v => is_i64 (tc_time v)) (mg_values k).
Proof.
  intros Hok H. split; [pose proof (sw_inc _ _ _ _ H) as I; apply StronglySorted_app_1_r in I; exact I|].
  rewrite Forall_forall in Hok. split; apply Forall_forall; intros v Hv;
    (destruct (proj1 (sweep_elem all T em k v H ltac:(apply elem_of_app; right; exact Hv))) as (x & Hx & Hvx);
     destruct (Hok x Hx) as (_ & _ & Hval & H64); rewrite Forall_forall in Hval, H64; auto).
Qed.

Lemma increasing_take n l : increasing tc_time l -> increasing tc_time (take n l).
Proof. intros H. rewrite <- (take_drop n l) in H. apply StronglySorted_app_1_l in H. exact H. Qed.

Lemma chunk_spec all T em dst k :
  Forall piece_ok all -> sweep all T em k -> 0 < mg_size k <= tc_max ->
  exists outs bs vs', chunk dst k = Some (dst ++ bs, with_values vs' k) /\ emits bs outs /\ sweep all T (em ++ concat outs) (with_values vs' k)
    /\ Forall (fun o => zlen o <= mg_size k) outs
    /\ (outs = [] -> mg_values k = [] /\ vs' = []).
Proof.
  intros Hok H Hsz. destruct (sweep_values all T em k Hok H) as (Hi & Hv & H64). destruct H as [K B I Mp]. unfold chunk.
  destruct (Z.gtb_spec (zlen (mg_values k)) (mg_size k)) as [Hgt|Hle].
  - destruct (Z.ltb_spec (mg_size k) 0); [lia|]. set (n := Z.to_nat (mg_size k)).
    assert (zlen (take n (mg_values k)) = mg_size k) as Hz by (unfold zlen in *; rewrite length_take; lia).
    destruct (chunk_values_spec (take n (mg_values k)) (drop n (mg_values k)) dst k) as (nb & -> & Hnb).
    { intros E. rewrite E, zlen_nil in Hz. lia. }
    { apply increasing_take, Hi. }
    { apply Forall_take, Hv. }
    { apply Forall_take, H64. }
    { lia. }
    { exact K. }
    exists [take n (mg_values k)], [nb], (drop n (mg_values k)). split; [reflexivity|]. split; [repeat constructor; apply Hnb|].
    split; [|split; [repeat constructor; lia|discriminate]].
    cbn [concat]. rewrite app_nil_r. split; cbn [with_values mg_key mg_blocks mg_values]; [exact K|exact B| |]; rewrite <- app_assoc, take_drop; assumption.
  - destruct (Z.gtb_spec (zlen (mg_values k)) 0) as [Hpos|Hz].
    + destruct (chunk_values_spec (mg_values k) [] dst k) as (nb & -> & Hnb);
        [intros E; unfold zlen in Hpos; rewrite E in Hpos; cbn in Hpos; lia|exact Hi|exact Hv|exact H64|lia|exact K|].
      exists [mg_values k], [nb], []. split; [reflexivity|]. split; [repeat constructor; apply Hnb|].
      split; [|split; [repeat constructor; lia|discriminate]].
      cbn [concat]. split; cbn [with_values mg_key mg_blocks mg_values]; [exact K|exact B| |]; rewrite !app_nil_r; assumption.
    + exists [], [], (mg_values k). rewrite app_nil_r. assert (k = with_values (mg_values k) k) as <- by (destruct k; reflexivity).
      split; [reflexivity|]. split; [constructor|]. rewrite app_nil_r. split; [split; assumption|]. split; [constructor|].
      intros _. destruct (mg_values k) as [|v l]; [auto|]. rewrite zlen_cons in Hz. pose proof (zlen_nonneg l). lia.
Qed.

(** ** Blocks that do not overlap *)

Record plain (all : list piece) (T : Z) (em vals : list V) (bs : list block) : Prop := {
  pl_blocks : exists gone rest, all = gone ++ rest /\ Forall (fun x : piece => increasing tc_time x.1 /\ last_time tc_time x.1 <= T) gone
                /\ Forall2 (at_time T) bs rest /\ StronglySorted (fun x y : piece => last_time tc_time x.1 < first_time tc_time y.1) rest
                /\ Forall (fun x : piece => x.2 = [] /\ (last_time tc_time x.1 <= T \/ T < first_time tc_time x.1)) rest;
  pl_inc : increasing tc_time (em ++ vals);
  pl_map : to_map tc_time (em ++ vals) = upto T (content all) }.

Lemma plain_sweep all T em vals bs k : mg_key k = key -> plain all T em vals bs -> sweep all T em (with_bv bs vals k).
Proof. intros K [(gone & rest & E & G & F & _) I Mp]. split; [exact K|exists gone, rest; auto|exact I|exact Mp]. Qed.

Lemma plain_emit all T em o vals bs : plain all T em (o ++ vals) bs -> plain all T (em ++ o) vals bs.
Proof. intros [B I Mp]. split; [exact B|rewrite <- app_assoc; exact I|rewrite <- app_assoc; exact Mp]. Qed.

Lemma plain_skip all T em vals b bs : plain all T em vals (b :: bs) -> blk_read b = true -> plain all T em vals bs.
Proof.
  intros [(gone & rest & E & G & F & S & N) I Mp] Hr. split; [|exact I|exact Mp].
  inversion F as [|? x ? rest' (Hh & Ht & Hu) F']; subst. rewrite (read_iff T b x.1 Hh Hu) in Hr.
  exists (gone ++ [x]), rest'. rewrite <- app_assoc. split; [reflexivity|]. split; [apply Forall_app; split; [exact G|]; repeat constructor; [apply Hh|lia]|].
  split; [exact F'|]. apply StronglySorted_inv in S as [S _]. apply Forall_cons in N as [_ N]. auto.
Qed.

(** Moving over the next block: its values follow what is there. *)
Lemma plain_next all T em vals b bs :
  plain all T em vals (b :: bs) -> blk_read b = false ->
  exists vs T', holds_values b vs /\ blk_tombstones b = [] /\ T <= T' /\ plain all T' em (vals ++ vs) bs.
Proof.
  intros [(gone & rest & E & G & F & S & N) I Mp] Hr. inversion F as [|? x ? rest' (Hh & Ht & Hu) F']; subst rest; subst.
  rewrite (read_iff T b x.1 Hh Hu) in Hr. apply Forall_cons in N as [[Nt Nx] N]. apply StronglySorted_inv in S as [S Sx]. rewrite Forall_forall in Sx.
  pose proof (first_le_last tc_time x.1 (hv_inc _ _ Hh) (hv_ne _ _ Hh)) as Hfl. set (T' := last_time tc_time x.1) in *.
  exists x.1, T'. split; [exact Hh|]. split; [congruence|]. split; [lia|].
  assert (List.filter (between tc_time T T') (survives x) = x.1) as Ex.
  { unfold survives. rewrite Nt, filter_filter. apply filter_all, Forall_forall. intros v Hv. pose proof (time_span tc_time x.1 v (hv_inc _ _ Hh) Hv). unfold between. cbn. lia. }
  assert (forall y, y ∈ rest' -> List.filter (between tc_time T T') y.1 = []) as Hrest.
  { intros y Hy. apply list_elem_of_lookup in Hy as [i Hy]. destruct (Forall2_lookup_r _ _ _ _ _ F' Hy) as (c & _ & Hc & _).
    apply not_between; [apply Hc|]. right. apply Sx. eapply list_elem_of_lookup_2. exact Hy. }
  assert (to_map tc_time (em ++ vals ++ x.1) = upto T' (content (gone ++ x :: rest'))) as Emap.
  { rewrite (upto_grow T T') by lia. rewrite map_app, concat_app, (gone_nothing T T' gone G). cbn [map concat app]. rewrite Ex.
    assert (concat (map (fun y => List.filter (between tc_time T T') (survives y)) rest') = []) as ->.
    { clear -Hrest TL. induction rest' as [|y l IH]; [reflexivity|]. cbn. rewrite (survives_none T T' y), IH; [reflexivity| |].
      - intros z Hz. apply Hrest. right. exact Hz.
      - apply Hrest. left. }
    rewrite app_nil_r, <- Mp, app_assoc, to_map_app. reflexivity. }
  assert (forall v, v ∈ em ++ vals -> tc_time v <= T) as Hbelow.
  { intros v Hv. pose proof (increasing_in_map tc_time _ v I Hv) as L. rewrite Mp in L. apply map_lookup_filter_Some in L as [_ L]. exact L. }
  split; [| |exact Emap].
  - exists (gone ++ [x]), rest'. rewrite <- app_assoc. split; [reflexivity|]. split.
    { apply Forall_app. split; [eapply Forall_impl; [exact G|]; intros y [Hy1 Hy2]; split; [exact Hy1|lia]|repeat constructor; [apply Hh|lia]]. }
    split; [|split; [exact S|]].
    + apply Forall2_same_length_lookup_2; [eapply Forall2_length; exact F'|]. intros i c y Hc Hy.
      destruct (Forall2_lookup_lr _ _ _ _ _ _ F' Hc Hy) as (Hhy & Hty & Huy). split; [exact Hhy|]. split; [exact Hty|].
      apply (taken_same T); [apply Hhy|lia|apply Hrest; eapply list_elem_of_lookup_2; exact Hy|exact Huy].
    + rewrite Forall_forall in N |- *. intros y Hy. split; [apply N, Hy|]. right. apply Sx, Hy.
  - rewrite app_assoc. apply increasing_app; [exact I|apply Hh|]. intros u v Hu' Hv. pose proof (Hbelow u Hu'). pose proof (time_span tc_time x.1 v (hv_inc _ _ Hh) Hv). lia.
Qed.

Lemma Deduplicate_id l : increasing tc_time l -> Deduplicate tc_time l = l.
Proof.
  intros H. apply (ordered_increasing tc_time) in H. destruct l as [|v [|w l]]; try reflexivity.
  unfold Deduplicate. rewrite H. reflexivity.
Qed.

Lemma Merge_append a b : increasing tc_time (a ++ b) -> Merge tc_time a b = a ++ b.
Proof.
  intros H. pose proof H as H0. apply StronglySorted_app_1_l in H0. pose proof H as H1. apply StronglySorted_app_1_r in H1.
  destruct a as [|x a]; [reflexivity|]. destruct b as [|y b]; [rewrite app_nil_r; reflexivity|]. unfold Merge.
  rewrite (Deduplicate_id (x :: a) H0), (Deduplicate_id (y :: b) H1). destruct (last (x :: a)) as [la|] eqn:La; [|apply last_None in La; discriminate].
  destruct (last (y :: b)) as [lb|] eqn:Lb; [|apply last_None in Lb; discriminate]. cbn [lookup list_lookup].
  destruct (Z.ltb_spec (tc_time la) (tc_time y)) as [Hl|Hl]; [reflexivity|]. exfalso.
  rewrite last_lookup in La. assert (tc_time la < tc_time y); [|lia].
  apply (increasing_lookup tc_time _ (pred (length (x :: a))) (length (x :: a)) la y H); [| |cbn; lia].
  - apply lookup_app_l_Some. exact La.
  - rewrite lookup_app_r by lia. rewrite Nat.sub_diag. reflexivity.
Qed.

(** Emitting the next block as it is. *)
Lemma plain_as_is all T em b bs :
  plain all T em [] (b :: bs) -> blk_read b = false ->
  exists vs T', holds_values b vs /\ T <= T' /\ plain all T' (em ++ vs) [] bs /\ (vs, []) ∈ all.
Proof.
  intros H Hr. pose proof H as [(gone & rest & E & _ & F & _ & N) _ _]. inversion F as [|? x ? rest' (Hh & _) _]; subst.
  destruct (plain_next _ _ _ _ _ _ H Hr) as (vs & T' & Hv & _ & HT & P). exists vs, T'. split; [exact Hv|]. split; [exact HT|].
  split; [apply plain_emit; rewrite app_nil_r; exact P|]. apply Forall_cons in N as [[Nt _] _].
  pose proof (hv_dec _ _ Hv) as D1. rewrite (hv_dec _ _ Hh) in D1. injection D1 as E1. apply elem_of_app. right. rewrite <- E1, <- Nt. destruct x. left.
Qed.

(** Values that come out of the plain path as they are. *)
Definition as_is (all : list piece) (o : list V) : Prop := (o, []) ∈ all.

Lemma take_full_spec all T em size bs :
  plain all T em [] bs ->
  exists rest l outs T', take_full size bs = Some (rest, l) /\ T <= T' /\ plain all T' (em ++ concat outs) [] rest /\ emits l outs
    /\ Forall (as_is all) outs.
Proof.
  revert T em. induction bs as [|b bs IH]; intros T em H; cbn [take_full].
  { exists [], [], [], T. rewrite app_nil_r. split; [reflexivity|]. split; [lia|]. split; [exact H|]. split; constructor. }
  destruct (blk_read b) eqn:Eb; [apply IH; apply (plain_skip _ _ _ _ b); assumption|].
  destruct (plain_as_is _ _ _ _ _ H Eb) as (vs & T1 & Hv & HT & P & Ha). rewrite (hv_count _ _ Hv).
  destruct (zlen vs >=? size).
  - destruct (IH T1 (em ++ vs) P) as (rest & l & outs & T2 & E & HT2 & P2 & Em & Fa). rewrite E. cbn.
    exists rest, (b :: l), (vs :: outs), T2. split; [reflexivity|]. split; [lia|]. cbn [concat]. rewrite app_assoc. split; [exact P2|].
    split; constructor; assumption.
  - exists (b :: bs), [], [], T. rewrite app_nil_r. split; [reflexivity|]. split; [lia|]. split; [exact H|]. split; constructor.
Qed.

Lemma unread_spec all T em bs :
  plain all T em [] bs ->
  exists outs T', T <= T' /\ plain all T' (em ++ concat outs) [] [] /\ emits (unread bs) outs /\ Forall (as_is all) outs.
Proof.
  revert T em. induction bs as [|b bs IH]; intros T em H.
  { exists [], T. rewrite app_nil_r. split; [lia|]. split; [exact H|]. split; constructor. }
  unfold unread. cbn [List.filter]. destruct (blk_read b) eqn:Eb; cbn [negb]; [apply IH; apply (plain_skip _ _ _ _ b); assumption|].
  destruct (plain_as_is _ _ _ _ _ H Eb) as (vs & T1 & Hv & HT & P & Ha).
  destruct (IH T1 (em ++ vs) P) as (outs & T2 & HT2 & P2 & Em & Fa). exists (vs :: outs), T2. split; [lia|]. cbn [concat]. rewrite app_assoc.
  split; [exact P2|]. split; constructor; assumption.
Qed.

Lemma read_rest_spec all T em bs k :
  plain all T em (mg_values k) bs ->
  exists remaining vals' T', read_rest bs k = Some (true, remaining, with_values vals' k) /\ T <= T' /\ plain all T' em vals' remaining
    /\ (remaining = [] \/ mg_size k <= zlen vals').
Proof.
  revert T k. induction bs as [|b bs IH]; intros T k H; cbn [read_rest].
  { exists [], (mg_values k), T. assert (with_values (mg_values k) k = k) as -> by (destruct k; reflexivity). split; [reflexivity|]. split; [lia|]. auto. }
  destruct (Z.ltb_spec (zlen (mg_values k)) (mg_size k)) as [Hlt|Hge].
  2: { exists (b :: bs), (mg_values k), T. assert (with_values (mg_values k) k = k) as -> by (destruct k; reflexivity). split; [reflexivity|]. split; [lia|]. auto. }
  destruct (blk_read b) eqn:Eb; [apply IH; apply (plain_skip _ _ _ _ b); assumption|].
  destruct (plain_next _ _ _ _ _ _ H Eb) as (vs & T1 & Hv & Et & HT & P). unfold decode_block. rewrite (hv_dec _ _ Hv), Et. cbn [exclude_tombstones fold_left].
  rewrite Merge_append by (pose proof (pl_inc _ _ _ _ _ P) as I; apply StronglySorted_app_1_r in I; exact I).
  destruct (IH T1 (with_values (mg_values k ++ vs) k) P) as (rem & vals' & T2 & E & HT2 & P2 & Hend). exists rem, vals', T2.
  split; [exact E|]. split; [lia|]. split; [exact P2|exact Hend].
Qed.

(** The last one alone is taken as it is. *)
Lemma single_spec all T em rest (l : list block) :
  plain all T em [] rest ->
  exists rest' l' outs T', match rest with [b] => ([], if blk_read b then l else l ++ [b]) | _ => (rest, l) end = (rest', l ++ l')
    /\ T <= T' /\ plain all T' (em ++ concat outs) [] rest' /\ emits l' outs /\ Forall (as_is all) outs.
Proof.
  intros H. assert (exists rest' l' outs T', (rest, l) = (rest', l ++ l') /\ T <= T' /\ plain all T' (em ++ concat outs) [] rest' /\ emits l' outs /\ Forall (as_is all) outs) as D.
  { exists rest, [], [], T. rewrite !app_nil_r. split; [reflexivity|]. split; [lia|]. split; [exact H|]. split; constructor. }
  destruct rest as [|b [|c rest]]; [exact D| |exact D]. destruct (blk_read b) eqn:Eb.
  - exists [], [], [], T. rewrite !app_nil_r. split; [reflexivity|]. split; [lia|]. split; [apply (plain_skip _ _ _ _ b); assumption|]. split; constructor.
  - destruct (plain_as_is _ _ _ _ _ H Eb) as (vs & T1 & Hv & HT & P & Ha). exists [], [b], [vs], T1. split; [reflexivity|]. split; [exact HT|].
    cbn [concat]. rewrite app_nil_r. split; [exact P|]. split; (constructor; [assumption|constructor]).
Qed.

(** ** merge *)

(** What one call of [merge] may put out: chunks, or blocks as they were. *)
Definition out_ok (all : list piece) (size : Z) (o : list V) : Prop := o <> [] /\ (zlen o <= size \/ as_is all o).

Lemma emits_ne bs outs : emits bs outs -> Forall (fun o => o <> []) outs.
Proof. intros H. induction H as [|b o bs outs Hh _ IH]; constructor; [apply Hh|exact IH]. Qed.

Lemma outs_ok all size bs outs :
  emits bs outs -> Forall (fun o => zlen o <= size \/ as_is all o) outs -> Forall (out_ok all size) outs.
Proof.
  intros He F. pose proof (emits_ne _ _ He) as N. rewrite Forall_forall in *. intros o Ho. split; auto.
Qed.

Lemma as_is_ok all size outs : Forall (as_is all) outs -> Forall (fun o => zlen o <= size \/ as_is all o) outs.
Proof. intros H. eapply Forall_impl; [exact H|]. auto. Qed.
Lemma small_ok all size outs : Forall (fun o => zlen o <= size) outs -> Forall (fun o => zlen o <= size \/ as_is all o) outs.
Proof. intros H. eapply Forall_impl; [exact H|]. auto. Qed.

(** What a step leaves. *)
Definition step_ok (all : list piece) (em : list V) (k : merger V) (m : list block) (k' : merger V) : Prop :=
  exists outs T', emits m outs /\ Forall (out_ok all (mg_size k)) outs /\ sweep all T' (em ++ concat outs) k'
    /\ mg_size k' = mg_size k /\ mg_fast k' = mg_fast k /\ mg_err k' = mg_err k
    /\ (outs = [] -> mg_blocks k' = [] /\ mg_values k' = []).

Lemma combine_plain_spec all T em k :
  Forall piece_ok all -> mg_key k = key -> plain all T em [] (mg_blocks k) -> mg_values k = [] -> mg_merged k = [] -> 0 < mg_size k <= tc_max ->
  exists m k', combine_plain k = Some (m, k') /\ step_ok all em k m k'.
Proof.
  intros Hok Hk H Hv Hm Hsz. unfold combine_plain. destruct (take_full_spec all T em (mg_size k) (mg_blocks k) H) as (rest & full & outs & T1 & -> & HT1 & P1 & Em1 & A1).
  assert (exists rest2 l2 outs2 T2, (if mg_fast k then ([], full ++ unread rest) else (rest, full)) = (rest2, full ++ l2) /\ T1 <= T2
    /\ plain all T2 ((em ++ concat outs) ++ concat outs2) [] rest2 /\ emits l2 outs2 /\ Forall (as_is all) outs2) as (rest2 & l2 & outs2 & T2 & -> & HT2 & P2 & Em2 & A2).
  { destruct (mg_fast k).
    - destruct (unread_spec _ _ _ _ P1) as (outs2 & T2 & HT2 & P2 & Em2 & A2). exists [], (unread rest), outs2, T2. auto.
    - exists rest, [], [], T1. rewrite !app_nil_r. split; [reflexivity|]. split; [lia|]. split; [exact P1|]. split; constructor. }
  destruct (single_spec _ _ _ _ (full ++ l2) P2) as (rest3 & l3 & outs3 & T3 & -> & HT3 & P3 & Em3 & A3).
  cbv zeta. cbn [with_merged mg_merged mg_blocks]. set (k1 := with_merged (mg_merged k ++ (full ++ l2) ++ l3) k).
  destruct (read_rest_spec all T3 (((em ++ concat outs) ++ concat outs2) ++ concat outs3) rest3 k1) as (rem & vals & T4 & -> & HT4 & P4 & Hend); [cbn [k1 with_merged mg_values]; rewrite Hv; exact P3|].
  set (k2 := with_blocks rem (with_values vals k1)).
  destruct (chunk_spec all T4 (((em ++ concat outs) ++ concat outs2) ++ concat outs3) (mg_merged (with_values vals k1)) k2 Hok) as (outs4 & bs4 & vs4 & E4 & Em4 & S4 & Z4 & N4).
  { apply (plain_sweep all T4 _ vals rem (with_values vals k1)); [exact Hk|exact P4]. }
  { exact Hsz. }
  rewrite E4. eexists _, _. split; [reflexivity|]. exists (((outs ++ outs2) ++ outs3) ++ outs4), T4. rewrite !concat_app, !app_assoc.
  assert (emits (mg_merged (with_values vals k1) ++ bs4) (((outs ++ outs2) ++ outs3) ++ outs4)) as Hall.
  { cbn [k1 with_values with_merged mg_merged]. rewrite Hm, app_nil_l. unfold emits in *. apply Forall2_app; [|exact Em4]. apply Forall2_app; [|exact Em3]. apply Forall2_app; assumption. }
  split; [exact Hall|]. split.
  { apply (outs_ok _ _ _ _ Hall). apply Forall_app. split; [|apply small_ok; exact Z4]. rewrite !Forall_app. split; [split|]; apply as_is_ok; assumption. }
  split; [exact S4|]. split; [reflexivity|]. split; [reflexivity|]. split; [reflexivity|].
  intros En. apply app_eq_nil in En as [_ En]. destruct (N4 En) as [N5 ->]. cbn in N5. split; [|reflexivity]. cbn.
  destruct Hend as [Hend|Hend]; [exact Hend|]. rewrite N5, zlen_nil in Hend. cbn in Hend. lia.
Qed.

Lemma combine_dedup_ok all T em k :
  Forall piece_ok all -> starts_sorted all -> sweep all T em k -> 0 < mg_size k <= tc_max ->
  exists m k', combine true k = Some (m, k') /\ step_ok all em k m k'.
Proof.
  intros Hok Hs H Hsz. unfold combine, combine_with.
  destruct (combine_dedup_spec (S (length (mg_blocks k))) all T em k Hs H) as (bs' & vs' & T' & -> & HT & S1 & Hend).
  { unfold unfinished, unread. pose proof (List.filter_length_le (fun b => negb (blk_read b)) (mg_blocks k)). lia. }
  destruct (chunk_spec all T' em [] (with_bv bs' vs' k) Hok S1) as (outs & bs & vs & E & Em & S2 & Z2 & N2); [exact Hsz|].
  rewrite E. eexists _, _. split; [reflexivity|]. exists outs, T'. split; [exact Em|]. split; [apply (outs_ok _ _ _ _ Em), small_ok, Z2|]. split; [exact S2|].
  split; [reflexivity|]. split; [reflexivity|]. split; [reflexivity|]. intros En. destruct (N2 En) as [N3 ->]. cbn in N3. split; [|reflexivity]. cbn.
  destruct Hend as [Hend|Hend]; [|exact Hend]. rewrite N3, zlen_nil in Hend. lia.
Qed.

(** A block that is not partially read is before or after [T]. *)
Lemma not_partial T b x : at_time T b x -> partiallyRead b = false -> last_time tc_time x.1 <= T \/ T < first_time tc_time x.1.
Proof.
  intros (Hh & _ & Hu) Hp. unfold taken_upto in Hu. destruct (last (List.filter _ _)) as [v|] eqn:El; destruct Hu as [U1 U2].
  - left. apply below_last in El as [Hv El]; [|apply Hh]. pose proof (time_span tc_time x.1 v (hv_inc _ _ Hh) Hv) as Sp.
    unfold partiallyRead in Hp. rewrite U1, U2, (hv_max _ _ Hh) in Hp. unfold MaxInt64, MinInt64 in Hp.
    destruct (Z.eqb_spec (tc_time v) (last_time tc_time x.1)); [lia|]. rewrite orb_true_r in Hp.
    revert Hp. zcases; cbn; try discriminate. lia.
  - right. apply last_None in El. pose proof (hv_ne _ _ Hh) as Hne. unfold first_time. destruct x.1 as [|v l]; [congruence|]. cbn [head].
    cbn [List.filter] in El. unfold below in El at 1. destruct (Z.leb_spec (tc_time v) T); [discriminate|lia].
Qed.

Lemma needs_dedup_spec T prev px bs rest :
  at_time T prev px -> Forall2 (at_time T) bs rest -> needs_dedup prev bs = false ->
  Forall (fun y : piece => last_time tc_time px.1 < first_time tc_time y.1) rest
  /\ StronglySorted (fun x y : piece => last_time tc_time x.1 < first_time tc_time y.1) rest
  /\ Forall (fun x : piece => x.2 = [] /\ (last_time tc_time x.1 <= T \/ T < first_time tc_time x.1)) rest.
Proof.
  intros Hp F. revert prev px Hp. induction F as [|b x bs rest Hb F IH]; intros prev px Hp H; [repeat constructor|]. cbn [needs_dedup] in H.
  destruct (partiallyRead b || _ || _) eqn:E; [discriminate|]. apply orb_false_iff in E as [E E3]. apply orb_false_iff in E as [E1 E2].
  destruct (IH b x Hb H) as (I1 & I2 & I3). pose proof (not_partial T b x Hb E1) as Np. destruct Hb as (Hh & Ht & Hu), Hp as (Hhp & _ & _).
  rewrite (hv_min _ _ Hh), (hv_max _ _ Hhp) in E2. apply Z.leb_gt in E2. pose proof (first_le_last tc_time x.1 (hv_inc _ _ Hh) (hv_ne _ _ Hh)) as Hfl.
  split; [constructor; [lia|]; eapply Forall_impl; [exact I1|]; intros y Hy; cbn in Hy; lia|]. split; [constructor; assumption|].
  constructor; [|exact I3]. split; [|exact Np]. rewrite <- Ht. destruct (blk_tombstones b) as [|t l]; [reflexivity|]. rewrite zlen_cons in E3. pose proof (zlen_nonneg l). lia.
Qed.

Lemma dedup_plain all T em k :
  sweep all T em k -> dedup_of k = false -> mg_values k = [] /\ plain all T em [] (mg_blocks k).
Proof.
  intros [K (gone & rest & E & G & F) I Mp] Hd. unfold dedup_of in Hd. destruct (Z.eqb_spec (zlen (mg_values k)) 0) as [E0|E0]; [|discriminate]. cbn [negb] in Hd.
  assert (mg_values k = []) as Ev by (destruct (mg_values k) as [|v l]; [reflexivity|]; rewrite zlen_cons in E0; pose proof (zlen_nonneg l); lia).
  split; [exact Ev|]. rewrite Ev in I, Mp. split; [|exact I|exact Mp]. exists gone, rest. split; [exact E|]. split; [exact G|]. split; [exact F|].
  destruct F as [|b x bs rest' Hb F]; [split; constructor|]. apply orb_false_iff in Hd as [Hd Hn]. apply orb_false_iff in Hd as [Ht Hp].
  destruct (needs_dedup_spec T b x bs rest' Hb F Hn) as (I1 & I2 & I3). split; [constructor; assumption|]. constructor; [|exact I3].
  split; [|apply (not_partial T b x Hb Hp)]. destruct Hb as (_ & <- & _). destruct (blk_tombstones b) as [|t l]; [reflexivity|]. rewrite zlen_cons in Ht. pose proof (zlen_nonneg l). lia.
Qed.

Lemma zlen_0 {A} (l : list A) : zlen l = 0 -> l = [].
Proof. destruct l as [|x l]; [reflexivity|]. rewrite zlen_cons. pose proof (zlen_nonneg l). lia. Qed.

(** One call: blocks come out that follow what came out before; when none does,
    nothing is left. *)
Lemma merge_blocks_spec all T em k :
  Forall piece_ok all -> starts_sorted all -> sweep all T em k -> mg_merged k = [] -> 0 < mg_size k <= tc_max ->
  exists k', merge_blocks k = Some k' /\ step_ok all em k (mg_merged k') k'.
Proof.
  intros Hok Hs H Hm Hsz. unfold merge_blocks.
  destruct (((zlen (mg_blocks k) =? 0) && (zlen (mg_merged k) =? 0) && (zlen (mg_values k) =? 0))) eqn:E.
  - exists k. split; [reflexivity|]. exists [], T. rewrite Hm, app_nil_r. split; [constructor|]. split; [constructor|]. split; [exact H|].
    repeat (split; [reflexivity|]). intros _. apply andb_true_iff in E as [E Ev]. apply andb_true_iff in E as [Eb _]. split; apply zlen_0; lia.
  - assert (exists m k', combine (dedup_of k) k = Some (m, k') /\ step_ok all em k m k') as (m & k' & -> & S).
    { destruct (dedup_of k) eqn:Ed; [apply (combine_dedup_ok all T); assumption|]. destruct (dedup_plain all T em k H Ed) as [Hv P].
      apply (combine_plain_spec all T em k); try assumption. apply H. }
    exists (with_merged m k'). split; [reflexivity|]. destruct S as (outs & T' & S1 & S2 & S3 & S4 & S5 & S6 & S7).
    exists outs, T'. split; [exact S1|]. split; [exact S2|]. split; [destruct S3; split; assumption|]. auto.
Qed.

(** ** All the blocks of a key *)

(** [Next] for one key: the merged blocks are handed out and [merge] is called
    again while values or blocks are left. *)
Fixpoint drain (fuel : nat) (k : merger V) : option (list block) :=
  match fuel with
  | O => None
  | S fuel' =>
      if (zlen (mg_values k) =? 0) && (zlen (mg_blocks k) =? 0) then Some []
      else k' ← merge_blocks k; l ← drain fuel' (with_merged [] k'); Some (mg_merged k' ++ l)
  end.

(** [k] starts on fresh blocks. *)
Definition fresh (all : list piece) (k : merger V) : Prop :=
  mg_key k = key /\ Forall2 (fun b (x : piece) => holds_values b x.1 /\ blk_tombstones b = x.2 /\ blk_readMin b = MaxInt64 /\ blk_readMax b = MinInt64) (mg_blocks k) all
  /\ mg_values k = [] /\ mg_merged k = [] /\ mg_err k = None.

Lemma fresh_sweep all k : Forall piece_ok all -> fresh all k -> sweep all (MinInt64 - 1) [] k.
Proof.
  intros Hok (K & F & Ev & _). assert (forall v : V, is_i64 (tc_time v) -> below tc_time (MinInt64 - 1) v = false) as Hb.
  { intros v Hv. unfold below, MinInt64, is_i64 in *. lia. }
  split; [exact K| |rewrite Ev; constructor|].
  - exists [], all. split; [reflexivity|]. split; [constructor|]. eapply Forall2_impl; [exact F|]. intros b x (Hh & Ht & R1 & R2).
    split; [exact Hh|]. split; [exact Ht|]. unfold taken_upto. rewrite filter_none; [cbn; auto|]. eapply Forall_impl; [apply (hv_i64 _ _ Hh)|]. exact Hb.
  - rewrite Ev. unfold content. rewrite upto_filter, filter_concat_map. cbn [app]. clear -Hok Hb. induction Hok as [|x all (_ & _ & _ & H64) _ IH]; [reflexivity|].
    cbn [map concat]. rewrite filter_none; [exact IH|]. apply Forall_forall. intros v Hv. apply Hb. rewrite Forall_forall in H64. apply H64.
    apply list_elem_of_In, filter_In in Hv as [Hv _]. apply list_elem_of_In. exact Hv.
Qed.

(** How many values there are at most. *)
Definition total (all : list piece) : nat := length (concat (map survives all)).

Lemma out_bound all T em k : sweep all T em k -> (length em <= total all)%nat.
Proof.
  intros H. pose proof (sw_inc _ _ _ _ H) as I. apply (size_increasing tc_time) in I. rewrite length_app in I.
  assert (size (to_map tc_time (em ++ mg_values k)) <= size (content all))%nat as Hle.
  { rewrite (sw_map _ _ _ _ H). apply map_subseteq_size. apply map_filter_subseteq. }
  pose proof (size_to_map tc_time (concat (map survives all))) as Ht. unfold content, total in *. lia.
Qed.

Lemma concat_ne (outs : list (list V)) : Forall (fun o => o <> []) outs -> outs <> [] -> (0 < length (concat outs))%nat.
Proof.
  intros F Hn. destruct F as [|o outs Ho _]; [congruence|]. destruct o; [congruence|]. cbn. lia.
Qed.

Lemma drain_spec fuel all T em k :
  Forall piece_ok all -> starts_sorted all -> sweep all T em k -> mg_merged k = [] -> 0 < mg_size k <= tc_max ->
  (S (total all) < fuel + length em)%nat ->
  exists l outs, drain fuel k = Some l /\ emits l outs /\ Forall (out_ok all (mg_size k)) outs
    /\ increasing tc_time (em ++ concat outs) /\ exists T', to_map tc_time (em ++ concat outs) = upto T' (content all)
         /\ Forall (fun x : piece => last_time tc_time x.1 <= T') all.
Proof.
  intros Hok Hs. revert T em k. induction fuel as [|fuel IH]; intros T em k H Hm Hsz Hf.
  { pose proof (out_bound all T em k H). lia. }
  cbn [drain]. destruct ((zlen (mg_values k) =? 0) && (zlen (mg_blocks k) =? 0)) eqn:E.
  - apply andb_true_iff in E as [Ev Eb]. exists [], []. split; [reflexivity|]. split; [constructor|]. split; [constructor|]. cbn [concat].
    destruct H as [K (gone & rest & Ea & G & F) I Mp]. rewrite (zlen_0 (mg_values k)) in I, Mp by lia. split; [exact I|]. exists T. split; [exact Mp|].
    rewrite (zlen_0 (mg_blocks k)) in F by lia. inversion F. subst. rewrite app_nil_r. eapply Forall_impl; [exact G|]. intros x [_ Hx]. exact Hx.
  - destruct (merge_blocks_spec all T em k Hok Hs H Hm Hsz) as (k1 & E1 & (outs & T1 & Em & Ho & S1 & Es & Ef & Ee & En)). rewrite E1. cbn.
    set (k2 := with_merged [] k1).
    assert (sweep all T1 (em ++ concat outs) k2) as S2 by (destruct S1; split; assumption).
    destruct outs as [|o outs].
    { destruct (En eq_refl) as [Eb Ev]. inversion Em as [E0|]. cbn [concat] in S2. rewrite app_nil_r in S2. pose proof (out_bound all T1 em k2 S2).
      destruct fuel as [|fuel]; [lia|]. exists [], []. cbn [drain k2 with_merged mg_values mg_blocks]. rewrite Ev, Eb. split; [reflexivity|].
      split; [constructor|]. split; [constructor|]. cbn [concat]. destruct S2 as [K (gone & rest & Ea & G & F) I Mp]. cbn [k2 with_merged mg_values mg_blocks] in *.
      rewrite Ev in I, Mp. split; [exact I|]. exists T1. split; [exact Mp|]. rewrite Eb in F. inversion F. subst. rewrite app_nil_r.
      eapply Forall_impl; [exact G|]. intros x [_ Hx]. exact Hx. }
    pose proof (concat_ne (o :: outs) (emits_ne _ _ Em) ltac:(discriminate)) as Hpos.
    destruct (IH T1 (em ++ concat (o :: outs)) k2 S2 eq_refl) as (l & outs2 & Ed & Em2 & Ho2 & I2 & T2 & M2 & L2).
    { cbn [k2 with_merged mg_size]. lia. }
    { rewrite length_app. lia. }
    exists (mg_merged k1 ++ l), ((o :: outs) ++ outs2). rewrite Ed. cbn [mbind option_bind]. split; [reflexivity|]. rewrite concat_app, app_assoc.
    split; [apply Forall2_app; assumption|]. split; [apply Forall_app; split; [exact Ho|cbn [k2 with_merged mg_size] in Ho2; rewrite Es in Ho2; exact Ho2]|].
    split; [exact I2|]. exists T2. auto.
Qed.

Lemma upto_all T all : Forall piece_ok all -> Forall (fun x : piece => last_time tc_time x.1 <= T) all -> upto T (content all) = content all.
Proof.
  intros Hok H. unfold content. rewrite upto_filter. f_equal. apply filter_all, Forall_forall. intros v Hv.
  apply list_elem_of_In, in_concat in Hv as (l & Hl & Hv). apply in_map_iff in Hl as (x & <- & Hx). apply filter_In in Hv as [Hv _].
  apply list_elem_of_In in Hx, Hv. rewrite Forall_forall in Hok, H. destruct (Hok x Hx) as (_ & Hi & _). pose proof (time_span tc_time x.1 v Hi Hv).
  specialize (H x Hx). cbn in H. unfold below. lia.
Qed.

(** C22 (functional). Merging the blocks of one key, ordered by their start, for
    any of the five value types, any block size and either strategy: the loop of
    [Next] ends without error or panic; the blocks it hands out decode to values in
    strictly increasing time over the whole key; together they are the blocks overlaid,
    a later block over an earlier one at the same time, less what the tombstones of
    each block cover; and every block but those passed on as they were has at most
    [size] values.  Overlaps may chain arbitrarily. *)
Theorem merge_overlays (all : list piece) (k : merger V) :
  Forall piece_ok all -> starts_sorted all -> fresh all k -> 0 < mg_size k <= tc_max ->
  exists l outs, drain (S (S (total all))) k = Some l /\ Forall2 holds_values l outs
    /\ increasing tc_time (concat outs) /\ to_map tc_time (concat outs) = content all
    /\ Forall (fun o => o <> [] /\ (zlen o <= mg_size k \/ (o, []) ∈ all)) outs.
Proof.
  intros Hok Hs Hf Hsz. pose proof (fresh_sweep all k Hok Hf) as H. destruct Hf as (_ & _ & _ & Hm & _).
  destruct (drain_spec (S (S (total all))) all _ [] k Hok Hs H Hm Hsz) as (l & outs & E & Em & Ho & I & T' & Mp & L); [cbn; lia|].
  exists l, outs. rewrite (upto_all T' all Hok L) in Mp. auto.
Qed.
End Facts.
