(* ===== verification/KeyTypes.v ===== *)
(** * The five value types of the merge, and what it does at its edges

    The codecs of [KeyIterator] keep the promise [KeyMerge] is proved against;
    merging on concrete blocks, among them two ways in which a compaction loses
    values. *)

From S2P Require Import Prelude Bytes TSMWriter TSMIndex TSMDelete Tombstone TSMReader TSMFile TSMStore KeyIterator KeyMerge.
From S2P Require Import Values Varint Simple8b TimeCodec IntCodec BoolCodec StringCodec BitReader FloatCodec ValueCodec Blocks BlockFacts TypedValues.

Section Laws.
Context `{S8 : Simple8b} `{L8 : !Simple8bLaws} `{SN : Snappy} `{LS : !SnappyLaws} `{BS : BitStream} `{LB : !BitStreamLaws}.
Context (p : encoders) (q : decoders) (Hq : usable q).

Lemma typed_roundtrip {V} `{VC : !ValueCodec V} `{VL : !ValueCodecLaws} (a : list (tv V)) tsenc venc :
  a <> [] -> timed a -> zlen a < 2 ^ 58 -> vc_fits (map value a) ->
  exists b, encode_typed a tsenc venc = Ok b /\ BlockCount b = Some (zlen a)
    /\ forall tdec vdec, vc_usable vdec -> exists tdec' vdec', DecodeBlockOf b tdec vdec = (Some (a, None), tdec', vdec') /\ vc_usable vdec'.
Proof.
  intros Hne Ht Hz Hf. destruct (block_decodes a tsenc venc Hne Ht Hz Hf) as (blk & Eb & Hd & tb & vb & Hup & Hc & _).
  exists (vc_type :: blk). split.
  { unfold encode_typed. destruct (Z.eqb_spec (zlen a) 0) as [E0|_]; [|exact Eb]. destruct a as [|x a]; [congruence|].
    rewrite zlen_cons in E0. pose proof (zlen_nonneg a). lia. }
  split; [apply (count_dispatch (VC := VC) _ _ _ _ _ Hup Hc)|exact Hd].
Qed.

Lemma Forall_and_l {A} (P Q : A -> Prop) l : Forall (fun x => P x /\ Q x) l -> Forall P l /\ Forall Q l.
Proof. apply Forall_and. Qed.

Definition float_values_laws : TypedCodecLaws (float_values p q).
Proof.
  refine {| tc_val := fun x : tv Z => is_i64 (unixnano x) /\ float_ok (value x); tc_max := 2 ^ 57; tc_pool_usable := _ |}; [exact Hq|].
  intros a Hne Hv Hz. apply Forall_and_l in Hv as [Ht Hv].
  destruct (typed_roundtrip (VC := float_codec) (VL := float_laws) a (p_tenc p) (p_fenc p) Hne Ht ltac:(lia) ltac:(apply Forall_map; exact Hv)) as (b & E & C & D).
  exists b. split; [exact E|]. split; [exact C|]. intros q' Hq'. destruct (D (p_tdec q') (p_fdec q') I) as (t1 & d1 & E1 & _).
  cbn [tc_Decode float_values]. unfold DecodeFloatBlock. rewrite E1. eexists. split; [reflexivity|exact Hq'].
Defined.

Definition integer_values_laws : TypedCodecLaws (integer_values p q).
Proof.
  refine {| tc_val := integer_ok; tc_max := 2 ^ 57; tc_pool_usable := _ |}; [exact Hq|].
  intros a Hne Hv Hz. apply Forall_and_l in Hv as [Ht Hv].
  destruct (typed_roundtrip (VC := integer_codec) (VL := integer_laws) a (p_tenc p) (p_ienc p) Hne Ht ltac:(lia)
    ltac:(split; [apply Forall_map; exact Hv|rewrite zlen_map; lia])) as (b & E & C & D).
  exists b. split; [exact E|]. split; [exact C|]. intros q' [Hq1 Hq2]. destruct (D (p_tdec q') (p_idec q') Hq1) as (t1 & d1 & E1 & U1).
  cbn [tc_Decode integer_values]. unfold DecodeIntegerBlock. rewrite E1. eexists. split; [reflexivity|split; [exact U1|exact Hq2]].
Defined.

Definition unsigned_values_laws : TypedCodecLaws (unsigned_values p q).
Proof.
  refine {| tc_val := fun x : tv Z => is_i64 (unixnano x) /\ is_u64 (value x); tc_max := 2 ^ 57; tc_pool_usable := _ |}; [exact Hq|].
  intros a Hne Hv Hz. apply Forall_and_l in Hv as [Ht Hv].
  destruct (typed_roundtrip (VC := unsigned_codec) (VL := unsigned_laws) a (p_tenc p) (p_ienc p) Hne Ht ltac:(lia)
    ltac:(split; [apply Forall_map; exact Hv|rewrite zlen_map; lia])) as (b & E & C & D).
  exists b. split; [exact E|]. split; [exact C|]. intros q' [Hq1 Hq2]. destruct (D (p_tdec q') (p_idec q') Hq1) as (t1 & d1 & E1 & U1).
  cbn [tc_Decode unsigned_values]. unfold DecodeUnsignedBlock. rewrite E1. eexists. split; [reflexivity|split; [exact U1|exact Hq2]].
Defined.

Definition boolean_values_laws : TypedCodecLaws (boolean_values p q).
Proof.
  refine {| tc_val := fun x : tv bool => is_i64 (unixnano x); tc_max := 2 ^ 57; tc_pool_usable := _ |}; [exact Hq|].
  intros a Hne Ht Hz.
  destruct (typed_roundtrip (VC := boolean_codec) (VL := boolean_laws) a (p_tenc p) (p_benc p) Hne Ht ltac:(lia) ltac:(cbn; rewrite zlen_map; lia)) as (b & E & C & D).
  exists b. split; [exact E|]. split; [exact C|]. intros q' [Hq1 Hq2]. destruct (D (p_tdec q') (p_bdec q') Hq2) as (t1 & d1 & E1 & U1).
  cbn [tc_Decode boolean_values]. unfold DecodeBooleanBlock. rewrite E1. eexists. split; [reflexivity|split; [exact Hq1|exact U1]].
Defined.

Lemma enc_strings_bound (l : list (list Z)) n : Forall (fun s => zlen s <= n) l -> zlen (enc_strings l) <= zlen l * (n + 10).
Proof.
  unfold enc_strings. induction 1 as [|s l Hs _ IH]; [unfold zlen; cbn; lia|]. cbn [map concat]. unfold enc_string at 1. rewrite !zlen_app, zlen_cons.
  rewrite Z.mul_add_distr_r. pose proof (zlen_PutUvarint_le (zlen s)). lia.
Qed.

Definition string_values_laws : TypedCodecLaws (string_values p q).
Proof.
  refine {| tc_val := fun x : tv (list Z) => is_i64 (unixnano x) /\ zlen (value x) <= 2 ^ 32; tc_max := 2 ^ 24; tc_pool_usable := _ |}; [exact Hq|].
  intros a Hne Hv Hz. apply Forall_and_l in Hv as [Ht Hv].
  assert (zlen (enc_strings (map value a)) < 2 ^ 62) as Hs.
  { pose proof (enc_strings_bound (map value a) (2 ^ 32) ltac:(apply Forall_map; exact Hv)) as B. rewrite zlen_map in B. pose proof (zlen_nonneg a). nia. }
  destruct (typed_roundtrip (VC := string_codec) (VL := string_laws) a (p_tenc p) (p_senc p) Hne Ht ltac:(lia) Hs) as (b & E & C & D).
  exists b. split; [exact E|]. split; [exact C|]. intros q' Hq'. destruct (D (p_tdec q') (p_sdec q') I) as (t1 & d1 & E1 & _).
  cbn [tc_Decode string_values]. unfold DecodeStringBlock. rewrite E1. eexists. split; [reflexivity|exact Hq'].
Defined.
End Laws.

(** ** Examples *)

#[local] Existing Instances plain_words list_stream id_snappy id_snappy_laws.

(** A block of integers. *)
Definition int_block (key : list Z) (ts : list TimeRange) (l : list (Z * Z)) : block :=
  let vs := map (fun x => mkTV x.1 x.2) l in
  let b := match encodeIntegerValuesBlock vs NewTimeEncoder NewIntegerEncoder with Ok b => b | _ => [] end in
  mkBlock key (first_time unixnano vs) (last_time unixnano vs) BlockInteger b ts MaxInt64 MinInt64.

Definition int_merger (size : Z) (bs : list block) : merger (tv Z) := mkMerger [107] size false bs [] [] None.

Definition int_drain (fuel : nat) (k : merger (tv Z)) : option (list block) :=
  drain (TC := integer_values encoders_ex decoders_ex) fuel k.

(** The values of the blocks that come out. *)
Definition int_values (bs : list block) : list (list (Z * Z)) :=
  map (fun b => match (DecodeIntegerBlock (blk_b b) (p_tdec decoders_ex) (p_idec decoders_ex)).1.1 with
                | Some (l, _) => map (fun x => (unixnano x, value x)) l
                | None => [] end) bs.

(** Blocks of four files, not ordered by their start. *)
Definition file_a := int_block [107] [] [(50, 1); (60, 1)].
Definition file_b := int_block [107] [] [(0, 2); (3, 2); (7, 2); (10, 2)].
Definition file_c := int_block [107] [] [(5, 3); (55, 3)].
Definition file_d := int_block [107] [] [(-5, 4); (2, 4)].

(** Merged in this order the second file's value at 3 is lost: its values at 7 and
    10 are taken with the third file, its value at 0 with the fourth, and then
    [markRead] counts everything from 0 to 10 as taken. *)
Example merge_loses_value :
  option_map int_values (int_drain 10 (int_merger 100 [file_a; file_b; file_c; file_d]))
  = Some [[(-5, 4); (0, 2); (2, 4); (5, 3); (7, 2); (10, 2); (50, 1); (55, 3); (60, 1)]].
Proof. vm_compute. reflexivity. Qed.

(** With small blocks what comes out is not in time order either. *)
Example merge_out_of_order :
  option_map int_values (int_drain 10 (int_merger 2 [file_a; file_b; file_c; file_d]))
  = Some [[(5, 3); (7, 2)]; [(10, 2); (50, 1)]; [(55, 3); (60, 1)]; [(-5, 4); (0, 2)]; [(2, 4)]].
Proof. vm_compute. reflexivity. Qed.

(** Ordered by their start they merge as [merge_overlays] says; the tombstone
    takes the third file's value at 55. *)
Definition file_c' := int_block [107] [mkTR 55 58] [(5, 3); (55, 3)].
Definition in_order : list block := [file_d; file_b; file_c'; file_a].
Definition in_order_values : list (list (tv Z) * list TimeRange) :=
  [([mkTV (-5) 4; mkTV 2 4], []); ([mkTV 0 2; mkTV 3 2; mkTV 7 2; mkTV 10 2], []); ([mkTV 5 3; mkTV 55 3], [mkTR 55 58]); ([mkTV 50 1; mkTV 60 1], [])].

Definition decoders_usable : usable decoders_ex := conj eq_refl eq_refl.
Definition int_laws : TypedCodecLaws (integer_values encoders_ex decoders_ex) := integer_values_laws (L8 := plain_laws) encoders_ex decoders_ex decoders_usable.

(** A block of integers holds the values it was made from. *)
Lemma int_holds key b (vs : list (tv Z)) :
  vs <> [] -> increasing unixnano vs -> Forall integer_ok vs -> zlen vs <= 1000 ->
  encodeIntegerValuesBlock vs NewTimeEncoder NewIntegerEncoder = Ok (blk_b b) ->
  blk_key b = key -> blk_minTime b = first_time unixnano vs -> blk_maxTime b = last_time unixnano vs ->
  holds_values (TL := int_laws) key b vs.
Proof.
  intros Hn Hi Hv Hz He Hk H1 H2. destruct (tc_roundtrip (TypedCodecLaws := int_laws) vs Hn Hv) as (cb & E & C & D); [cbn; lia|].
  cbn [tc_Encode integer_values p_tenc p_ienc encoders_ex] in E. rewrite He in E. injection E as <-. split; try assumption.
  eapply Forall_impl; [exact Hv|]. intros x [H _]. exact H.
Qed.

Ltac int_block_holds := apply int_holds; [discriminate|repeat constructor|repeat constructor; vm_compute; congruence|vm_compute; congruence|vm_compute; reflexivity|reflexivity|reflexivity|reflexivity].

Lemma merge_overlays_witness :
  exists l outs, int_drain (S (S (total (TC := integer_values encoders_ex decoders_ex) in_order_values))) (int_merger 3 in_order) = Some l
    /\ Forall2 (holds_values (TL := int_laws) [107]) l outs /\ increasing unixnano (concat outs)
    /\ to_map unixnano (concat outs) = content (TC := integer_values encoders_ex decoders_ex) in_order_values
    /\ Forall (fun o => o <> [] /\ (zlen o <= 3 \/ (o, []) ∈ in_order_values)) outs.
Proof.
  apply (merge_overlays (TL := int_laws) [107] in_order_values (int_merger 3 in_order)).
  - repeat constructor; try discriminate; vm_compute; congruence.
  - repeat constructor; vm_compute; congruence.
  - split; [reflexivity|]. split; [|auto]. repeat (constructor; [split; [int_block_holds|auto]|]). constructor.
  - split; vm_compute; congruence.
Defined.
