(* ===== verification/KeyFiles.v ===== *)
(** * Iterating over several TSM files at once

    [tsmKeyIterator] of [compact.go] over readers: [Next] and [Read], called as the
    compactor calls them, hand out the keys of all files in order, and for every
    key the merge of its blocks in the order of the files. *)

From S2P Require Import Prelude Bytes Values Varint Simple8b TimeCodec IntCodec BoolCodec StringCodec BitReader FloatCodec ValueCodec Blocks BlockFacts TypedValues.
From S2P Require Import TSMWriter TSMIndex TSMIndexFacts TSMDelete Tombstone TSMReader TSMFile TSMDurable TSMStore TSMIter.
From S2P Require Import KeyIterator KeyMerge KeyTypes.

(** ** One file *)

(** The blocks of a key of a file, as the iterator reads them. *)
Definition bytes_at (r : TSMReader) (e : IndexEntry) : list Z := match readBytes (rd_acc r) e with Ok (_, b) => b | _ => [] end.
Definition block_at (r : TSMReader) (s : series) (e : IndexEntry) : block :=
  mkBlock (s_key s) (MinTime e) (MaxTime e) (s_type s) (bytes_at r e) (ix_TombstoneRange (rd_index r) (s_key s)) MaxInt64 MinInt64.
Definition group_at (r : TSMReader) (s : series) : list Z * list block := (s_key s, map (block_at r s) (s_entries s)).

Definition readable (r : TSMReader) (s : series) : Prop :=
  s_key s <> [] /\ Forall (fun e => exists c b, readBytes (rd_acc r) e = Ok (c, b)) (s_entries s).

(** What a source still has to offer: keys with their blocks, in order; the first
    may be in the buffer already. *)
Definition offers (s : source) (gs : list (list Z * list block)) : Prop :=
  exists live, ix_rep (rd_index (src_reader s)) live /\ bi_ok live (src_iter s) /\ drop 1 (bi_entries (src_iter s)) = []
    /\ Forall (fun x => readable (src_reader s) x.2) live
    /\ let rest := map (fun x => group_at (src_reader s) x.2) (drop (Z.to_nat (bi_i (src_iter s))) live) in
       (src_buf s = [] /\ gs = rest)
       \/ exists x, live !! pred (Z.to_nat (bi_i (src_iter s))) = Some x /\ 0 < bi_i (src_iter s)
            /\ src_buf s = (group_at (src_reader s) x.2).2 /\ gs = group_at (src_reader s) x.2 :: rest.

Section OneFile.
Context `{BU : BytesUtil}.

Lemma read_block_at r (live : list (Z * series)) it s e es :
  bi_err it = false -> bi_key it = s_key s -> bi_typ it = s_type s -> bi_entries it = e :: es ->
  (exists c b, readBytes (rd_acc r) e = Ok (c, b)) -> read_block r it = Ok (block_at r s e, None).
Proof.
  intros He Hk Ht Hes (c & b & Hb). unfold read_block, bi_Read. rewrite He, Hes, Hb, Hk, Ht. unfold block_at, bytes_at. rewrite Hb. reflexivity.
Qed.

(** [PeekNext] names the key while it has more blocks, and never otherwise. *)
Lemma more_blocks_spec r live i ofs s es e fuel buf err :
  ix_rep (rd_index r) live -> live !! i = Some (ofs, s) -> s_key s <> [] ->
  Forall (fun e => exists c b, readBytes (rd_acc r) e = Ok (c, b)) es -> (length es < fuel)%nat ->
  more_blocks fuel (s_key s) r (mkBI (Z.of_nat (S i)) (zlen live) (s_key s) (s_type s) (e :: es) false) buf err
  = Ok (buf ++ map (block_at r s) es,
        mkBI (Z.of_nat (S i)) (zlen live) (s_key s) (s_type s) [match last es with Some x => x | None => e end] false, err).
Proof.
  intros R Hs Hk F. revert e fuel buf. induction es as [|e' es IH]; intros e fuel buf Hf; (destruct fuel as [|fuel]; [cbn in Hf; lia|]); cbn [more_blocks].
  - unfold bi_PeekNext. cbn [bi_entries bi_n bi_i bi_key]. change (1 <? zlen [e]) with false. cbv iota.
    assert (exists k, (if 1 <? zlen live - Z.of_nat (S i) then res_map fst (ix_KeyAt (rd_index r) (Z.of_nat (S i) + 1)) else Ok []) = Ok k /\ k <> s_key s) as (k & -> & Hne).
    { destruct (Z.ltb_spec 1 (zlen live - Z.of_nat (S i))) as [Hl|Hl]; [|exists []; split; [reflexivity|congruence]].
      destruct (lookup_lt_is_Some_2 live (S (S i))) as [[o2 s2] H2]; [unfold zlen in Hl; lia|].
      replace (Z.of_nat (S i) + 1) with (Z.of_nat (S (S i))) by lia. rewrite (KeyAt_live _ _ _ _ _ R H2). exists (s_key s2). split; [reflexivity|].
      pose proof (StronglySorted_lookup_lt _ _ _ _ _ _ (rep_sorted _ _ R) Hs H2 ltac:(lia)) as L. cbn in L. intros E. rewrite E in L. destruct (bytes_lt_irrefl _ L). }
    rewrite bool_decide_eq_false_2 by exact Hne. cbn [map last]. rewrite app_nil_r. reflexivity.
  - apply Forall_cons in F as [He F]. unfold bi_PeekNext. cbn [bi_entries bi_n bi_i bi_key]. rewrite !zlen_cons. pose proof (zlen_nonneg es).
    destruct (Z.ltb_spec 1 (1 + (1 + zlen es))); [|lia]. rewrite bool_decide_eq_true_2 by reflexivity.
    unfold bi_Next. cbn [bi_err bi_n bi_i bi_entries bi_key bi_typ]. rewrite !zlen_cons.
    destruct (Z.eqb_spec (1 + (1 + zlen es)) 0); [lia|]. rewrite andb_false_r. change (drop 1 (e :: e' :: es)) with (e' :: es). rewrite zlen_cons.
    destruct (Z.ltb_spec 0 (1 + zlen es)); [|lia]. rewrite (read_block_at r live _ s e' es) by (reflexivity || exact He). cbn [or_err].
    rewrite IH by (exact F || (cbn in Hf; lia)). rewrite <- app_assoc. cbn [map app]. destruct es as [|e2 es]; [reflexivity|].
    change (last (e' :: e2 :: es)) with (last (e2 :: es)). destruct (last (e2 :: es)) eqn:El; [reflexivity|]. apply last_None in El. discriminate.
Qed.

(** Filling a buffer. *)
Lemma fill_spec s gs err :
  offers s gs ->
  exists s', fill s err = Ok (s', err) /\ offers s' gs /\ src_reader s' = src_reader s
    /\ match gs with [] => src_buf s' = [] | g :: _ => src_buf s' = g.2 /\ g.2 <> [] /\ g.1 <> [] /\ Forall (fun b => blk_key b = g.1) g.2 end.
Proof.
  intros (live & R & Hb & Hd & Hr & H). cbv zeta in H. unfold fill.
  assert (forall x, x ∈ live -> let g := group_at (src_reader s) x.2 in g.2 <> [] /\ g.1 <> [] /\ Forall (fun b => blk_key b = g.1) g.2) as Hg.
  { intros x Hx. pose proof (rep_pos _ _ R) as P. rewrite Forall_forall in P, Hr. destruct (P x Hx) as [_ (_ & Hne & _)]. destruct (Hr x Hx) as [Hk _]. cbn.
    split; [destruct (s_entries x.2); [unfold zlen in Hne; cbn in Hne; lia|discriminate]|]. split; [exact Hk|]. rewrite Forall_map. apply Forall_true. reflexivity. }
  destruct H as [[Hbuf Hgs]|(x & Hx & Hpos & Hbuf & Hgs)].
  2: { pose proof (Hg x (list_elem_of_lookup_2 _ _ _ Hx)) as G. cbv zeta in G. rewrite Hbuf. destruct (group_at (src_reader s) x.2) as [k bl] eqn:Egr. cbn [fst snd] in *.
       destruct bl as [|b bl]; [exfalso; apply (proj1 G); reflexivity|].
       exists s. split; [reflexivity|]. split; [|split; [reflexivity|rewrite Hgs; rewrite Hbuf; auto]].
       exists live. split; [exact R|]. split; [exact Hb|]. split; [exact Hd|]. split; [exact Hr|]. right. exists x. rewrite Egr. auto. }
  rewrite Hbuf. pose proof (bi_Next_spec (src_reader s) live (src_iter s) R Hb) as N. unfold to_come in N. rewrite Hd in N. cbn [tagged map app] in N.
  destruct Hb as (Hn & Hi & He). set (i := Z.to_nat (bi_i (src_iter s))) in *. destruct (live !! i) as [[ofs sr]|] eqn:El.
  - pose proof (Hg _ (list_elem_of_lookup_2 _ _ _ El)) as G. cbv zeta in G. cbn [snd] in G.
    rewrite (blocks_of_drop _ _ _ _ El) in N. rewrite (drop_S _ _ _ El) in Hgs. cbn [map snd] in Hgs.
    pose proof Hr as Hr'. rewrite Forall_forall in Hr'. destruct (Hr' _ (list_elem_of_lookup_2 _ _ _ El)) as [Hk Hrd]. cbn [snd] in Hk, Hrd.
    destruct (s_entries sr) as [|e es] eqn:Ees; [exfalso; apply (proj1 G); unfold group_at; rewrite Ees; reflexivity|]. cbn [tagged map app] in N.
    destruct N as (b' & EN & (Hn' & Hi' & He') & Et & Ek & Ety & Eh). rewrite EN.
    assert (b' = mkBI (Z.of_nat (S i)) (zlen live) (s_key sr) (s_type sr) (e :: es) false) as ->.
    { revert EN. unfold bi_Next. rewrite He, Hd. change (0 <? zlen (@nil IndexEntry)) with false. cbv iota.
      destruct (_ && _); [discriminate|]. destruct (Z.ltb_spec 0 (bi_n (src_iter s) - bi_i (src_iter s))) as [Hlt|]; [|discriminate].
      pose proof (Key_live _ _ _ _ _ R El) as K. replace (Z.of_nat i) with (bi_i (src_iter s)) in K by lia. rewrite K, Ees.
      destruct (negb _); [discriminate|]. intros E. apply (f_equal snd) in E. cbn [snd] in E. rewrite <- E, Hn. f_equal. lia. }
    apply Forall_cons in Hrd as [Hre Hres]. rewrite (read_block_at _ live _ sr e es) by (reflexivity || exact Hre). cbn [or_err block_at blk_key bi_entries length].
    rewrite (more_blocks_spec _ live i ofs sr es e) by (assumption || lia). cbn [bi_err].
    eexists. split; [reflexivity|]. split; [|split; [reflexivity|]].
    + exists live. cbn [src_reader src_iter src_buf bi_entries bi_i drop]. split; [exact R|]. split; [split; [reflexivity|split; [|reflexivity]]|].
      { cbn. apply lookup_lt_Some in El. unfold zlen. lia. }
      split; [reflexivity|]. split; [exact Hr|]. right. exists (ofs, sr). replace (Z.to_nat (Z.of_nat (S i))) with (S i) by lia. cbn [pred snd].
      split; [exact El|]. split; [lia|]. split; [unfold group_at; rewrite Ees; reflexivity|exact Hgs].
    + rewrite Hgs. cbn [src_buf]. split; [unfold group_at; rewrite Ees; reflexivity|exact G].
  - rewrite drop_ge in N, Hgs by (apply lookup_ge_None; exact El). cbn [blocks_of map concat] in N. destruct N as (b' & EN & Eb'). rewrite EN, Eb'.
    eexists. split; [reflexivity|]. rewrite Hgs. split; [|split; reflexivity]. exists live. cbn [src_reader src_iter src_buf].
    apply lookup_ge_None in El.
    assert (bi_i b' = bi_i (src_iter s) /\ bi_n b' = bi_n (src_iter s) /\ drop 1 (bi_entries b') = []) as (E1 & E2 & E3).
    { revert EN. unfold bi_Next. rewrite He, Hd. change (0 <? zlen (@nil IndexEntry)) with false. cbv iota.
      destruct (_ && _); [intros E; injection E as <-; auto|]. destruct (Z.ltb_spec 0 (bi_n (src_iter s) - bi_i (src_iter s))) as [Hlt|]; [unfold zlen in Hn; lia|].
      intros E. injection E as <-. auto. }
    split; [exact R|]. split; [split; [congruence|split; [lia|exact Eb']]|]. split; [exact E3|]. split; [exact Hr|].
    left. split; [reflexivity|]. rewrite E1. fold i. rewrite drop_ge by exact El. reflexivity.
Qed.
End OneFile.

(** A reader that was just opened offers all its series. *)
Lemma offers_all r live :
  ix_rep (rd_index r) live -> Forall (fun x => readable r x.2) live ->
  offers (mkSource r (rd_BlockIterator r) []) (map (fun x => group_at r x.2) live).
Proof.
  intros R Hr. exists live. split; [exact R|]. split; [|split; [reflexivity|split; [exact Hr|left; split; [reflexivity|]; cbn; rewrite drop_0; reflexivity]]].
  unfold bi_ok. cbn. unfold ix_KeyCount. rewrite (rep_offsets _ _ R). unfold zlen. rewrite length_map. lia.
Qed.

(** ** The pending values of one type *)

Record pending := mkPending {
  pd_floats : list (tv Z); pd_integers : list (tv Z); pd_unsigneds : list (tv Z); pd_booleans : list (tv bool); pd_strings : list (tv (list Z)) }.
Definition no_pending : pending := mkPending [] [] [] [] [].

Definition iter_at (ss : list source) (fast : bool) (size : Z) (key : list Z) (typ : Z) (bs m : list block) (v : pending) : tsmKeyIterator :=
  mkTKI ss None fast size key typ bs m (pd_floats v) (pd_integers v) (pd_unsigneds v) (pd_booleans v) (pd_strings v).

Section Views.
Context `{S8 : Simple8b} `{L8 : !Simple8bLaws} `{SN : Snappy} `{LS : !SnappyLaws} `{BS : BitStream} `{LB : !BitStreamLaws}.
Context (p : encoders) (q : decoders) (Hq : usable q).

(** A value type: its codec with the laws, its code, and the field of the
    iterator its pending values are in. *)
Record view := mkView {
  vw_V : Type; vw_TC : TypedCodec vw_V; vw_TL : TypedCodecLaws vw_TC; vw_typ : Z; vw_pending : list vw_V -> pending;
  vw_nil : vw_pending [] = no_pending;
  vw_has : forall ss fast size key bs m vs, hasMergedValues (iter_at ss fast size key vw_typ bs m (vw_pending vs)) = (0 <? zlen vs);
  vw_merge : forall ss fast size key bs m vs g,
    merge_blocks (TC := vw_TC) (mkMerger key size fast bs m vs None) = Some g -> mg_err g = None ->
    ki_merge p q (iter_at ss fast size key vw_typ bs m (vw_pending vs)) = Some (iter_at ss fast size key vw_typ (mg_blocks g) (mg_merged g) (vw_pending (mg_values g))) }.

Ltac view_laws :=
  [> reflexivity
   | intros; unfold hasMergedValues; cbn; rewrite ?orb_false_r; reflexivity
   | intros ss fast size key bs m vs g E Eg; unfold ki_merge; cbn - [merge_blocks];
     unfold mergeFloat, mergeInteger, mergeUnsigned, mergeBoolean, mergeString, merger_of; cbn - [merge_blocks];
     rewrite E; unfold put_back; cbn; rewrite Eg; reflexivity ].

Definition float_view : view.
Proof. refine (mkView _ (float_values p q) (float_values_laws p q Hq) BlockFloat64 (fun vs => mkPending vs [] [] [] []) _ _ _); view_laws. Defined.
Definition integer_view : view.
Proof. refine (mkView _ (integer_values p q) (integer_values_laws p q Hq) BlockInteger (fun vs => mkPending [] vs [] [] []) _ _ _); view_laws. Defined.
Definition unsigned_view : view.
Proof. refine (mkView _ (unsigned_values p q) (unsigned_values_laws p q Hq) BlockUnsigned (fun vs => mkPending [] [] vs [] []) _ _ _); view_laws. Defined.
Definition boolean_view : view.
Proof. refine (mkView _ (boolean_values p q) (boolean_values_laws p q Hq) BlockBoolean (fun vs => mkPending [] [] [] vs []) _ _ _); view_laws. Defined.
Definition string_view : view.
Proof. refine (mkView _ (string_values p q) (string_values_laws p q Hq) BlockString (fun vs => mkPending [] [] [] [] vs) _ _ _); view_laws. Defined.

Definition views : list view := [float_view; integer_view; unsigned_view; boolean_view; string_view].
End Views.

(** ** Runs of the iterator *)

Definition handed : Type := list Z * Z * Z * list Z.
Definition handed_out (b : block) : handed := (blk_key b, blk_minTime b, blk_maxTime b, blk_b b).

Section Run.
Context `{S8 : Simple8b} `{L8 : !Simple8bLaws} `{SN : Snappy} `{LS : !SnappyLaws} `{BS : BitStream} `{LB : !BitStreamLaws} `{BU : BytesUtil}.
Context (p : encoders) (q : decoders) (Hq : usable q).

(** The loop of the compactor: [Next], then [Read], until [Next] is false; then
    [Err] is looked at. *)
Fixpoint ki_collect (fuel : nat) (k : tsmKeyIterator) : res werr (list handed) :=
  match fuel with
  | O => Err (ErrFormat "out of fuel")
  | S fuel' =>
      match ki_Next p q k with
      | Ok (true, k) =>
          match ki_Read false k with
          | (x, None) => res_map (cons x) (ki_collect fuel' k)
          | (_, Some e) => Err e
          end
      | Ok (false, k) => match ki_Err k with Some e => Err e | None => Ok [] end
      | Err e => Err e
      | Panic => Panic
      end
  end.

(** From the result of a [Next] on, [l] is handed out. *)
Inductive finishes : res werr (bool * tsmKeyIterator) -> list handed -> Prop :=
| fin_end k : ki_err k = None -> finishes (Ok (false, k)) []
| fin_more k x l : ki_Read false k = (x, None) -> finishes (ki_Next p q k) l -> finishes (Ok (true, k)) (x :: l).

Lemma finishes_collect k l : finishes (ki_Next p q k) l -> ki_collect (S (length l)) k = Ok l.
Proof.
  revert k. induction l as [|x l IH]; intros k H.
  - cbn [ki_collect length]. inversion H as [k1 E1 E2|]; subst. rewrite <- E2 in *. unfold ki_Err. rewrite E1. reflexivity.
  - change (ki_collect (S (length (x :: l))) k) with
      (match ki_Next p q k with
       | Ok (true, k) => match ki_Read false k with (x, None) => res_map (cons x) (ki_collect (S (length l)) k) | (_, Some e) => Err e end
       | Ok (false, k) => match ki_Err k with Some e => Err e | None => Ok [] end
       | Err e => Err e | Panic => Panic end).
    inversion H as [|k1 x1 l1 E1 E2 E3 E4]; subst. rewrite <- E3 in *. rewrite E1, (IH k1 E2). reflexivity.
Qed.

Lemma ki_collect_fuel n m k l : ki_collect n k = Ok l -> (n <= m)%nat -> ki_collect m k = Ok l.
Proof.
  revert m k l. induction n as [|n IH]; intros [|m] k l E Hle; try (discriminate || lia). cbn [ki_collect] in *. destruct (ki_Next p q k) as [[[] k1]|e|]; try exact E.
  destruct (ki_Read false k1) as [x [e|]]; [exact E|]. destruct (ki_collect n k1) as [l1|e|] eqn:E1; try discriminate. rewrite (IH m k1 l1 E1 ltac:(lia)). exact E.
Qed.

(** *** Within a key *)

Context (vw : view p q).
#[local] Existing Instance vw_TC.
#[local] Existing Instance vw_TL.
Context (ss : list source) (fast : bool) (size : Z) (key : list Z).
Context (all : list (piece (V := vw_V p q vw))) (Hok : Forall piece_ok all) (Hs : starts_sorted all) (Hsz : 0 < size <= @tc_max _ _ (vw_TL p q vw)).

Definition at_key_state (bs m : list block) (vs : list (vw_V p q vw)) : tsmKeyIterator :=
  iter_at ss fast size key (vw_typ p q vw) bs m (vw_pending p q vw vs).

(** The merged blocks are handed out one by one. *)
Lemma hand_out b m bs vs l :
  (forall c, finishes (ki_Next p q (at_key_state bs [c] vs)) l) ->
  finishes (Ok (true, at_key_state bs (b :: m) vs)) (map handed_out (b :: m) ++ l).
Proof.
  intros H. revert b. induction m as [|c m IH]; intros b; cbn [map app]; (constructor; [reflexivity|]); [apply H|].
  change (ki_Next p q (at_key_state bs (b :: c :: m) vs)) with
    (if 0 <? zlen (c :: m) then Ok (true, at_key_state bs (c :: m) vs) else ki_Next p q (at_key_state bs (b :: c :: m) vs)).
  rewrite zlen_cons. pose proof (zlen_nonneg m). destruct (Z.ltb_spec 0 (1 + zlen m)); [|lia]. apply IH.
Qed.

Lemma next_nothing_left b : ki_Next p q (at_key_state [] [b] []) = next_key p q (at_key_state [] [] []).
Proof.
  unfold ki_Next. change (ki_with_merged (drop 1 (ki_merged (at_key_state [] [b] []))) (at_key_state [] [b] [])) with (at_key_state [] [] []).
  cbn [at_key_state iter_at ki_merged]. change (0 <? zlen (@nil block)) with false. cbv iota. unfold merge_if.
  assert (hasMergedValues (at_key_state [] [] []) = false) as Hh by (unfold at_key_state; rewrite vw_has; reflexivity).
  fold (at_key_state [] [] []). rewrite Hh. cbn [at_key_state iter_at ki_blocks]. change (0 <? zlen (@nil block)) with false. reflexivity.
Qed.

(** With something left [Next] merges; when nothing comes out the key is done. *)
Lemma next_merges bs vs T em :
  sweep key all T em (mkMerger key size fast bs [] vs None) -> (bs <> [] \/ vs <> []) ->
  exists g, step_ok key all em (mkMerger key size fast bs [] vs None) (mg_merged g) g
    /\ forall b, ki_Next p q (at_key_state bs [b] vs)
       = (if 0 <? zlen (mg_merged g) then Ok (true, at_key_state (mg_blocks g) (mg_merged g) (mg_values g)) else next_key p q (at_key_state [] [] [])).
Proof.
  intros H Hne. set (k0 := mkMerger key size fast bs [] vs None) in *.
  destruct (merge_blocks_spec key all T em k0 Hok Hs H eq_refl Hsz) as (g & Eg & St). exists g. split; [exact St|].
  pose proof St as (outs & T' & Em & Ho & Sw & _ & _ & Ee & En). cbn [k0 mg_err] in Ee.
  pose proof (vw_merge p q vw ss fast size key bs [] vs g Eg Ee) as Hm. fold (at_key_state bs [] vs) in Hm.
  fold (at_key_state (mg_blocks g) (mg_merged g) (mg_values g)) in Hm.
  assert (hasMergedValues (at_key_state bs [] vs) = (0 <? zlen vs)) as Hh by apply vw_has.
  assert (hasMergedValues (at_key_state (mg_blocks g) (mg_merged g) (mg_values g)) = (0 <? zlen (mg_values g))) as Hg by apply vw_has.
  assert ((0 <? zlen (mg_merged g)) || (0 <? zlen (mg_values g)) = (0 <? zlen (mg_merged g))
          /\ (zlen (mg_merged g) = 0 -> at_key_state (mg_blocks g) (mg_merged g) (mg_values g) = at_key_state [] [] [])) as [Hor Hdone].
  { destruct outs as [|o outs]; [|inversion Em; subst; rewrite zlen_cons; pose proof (zlen_nonneg l); destruct (Z.ltb_spec 0 (1 + zlen l)); [split; [reflexivity|lia]|lia]].
    destruct (En eq_refl) as [Eb Ev]. inversion Em as [Em0|]. rewrite Eb, Ev. split; [reflexivity|]. auto. }
  intros b. unfold ki_Next. change (ki_with_merged (drop 1 (ki_merged (at_key_state bs [b] vs))) (at_key_state bs [b] vs)) with (at_key_state bs [] vs).
  change (0 <? zlen (ki_merged (at_key_state bs [] vs))) with false. cbv iota. unfold merge_if. rewrite Hh.
  pose proof (zlen_nonneg vs) as Hv0. destruct (Z.ltb_spec 0 (zlen vs)) as [Hv|Hv].
  - rewrite Hm. change (ki_merged (at_key_state (mg_blocks g) (mg_merged g) (mg_values g))) with (mg_merged g). rewrite Hg, Hor.
    destruct (Z.ltb_spec 0 (zlen (mg_merged g))) as [Hp|Hp]; [reflexivity|]. rewrite Hdone by (pose proof (zlen_nonneg (mg_merged g)); lia). reflexivity.
  - assert (vs = []) as Ev by (apply zlen_0; lia). change (ki_blocks (at_key_state bs [] vs)) with bs. pose proof (zlen_nonneg bs).
    destruct (Z.ltb_spec 0 (zlen bs)) as [Hb|Hb]; [|exfalso; destruct Hne as [Hne|Hne]; apply Hne; [apply zlen_0; lia|exact Ev]].
    rewrite Hm. change (ki_merged (at_key_state (mg_blocks g) (mg_merged g) (mg_values g))) with (mg_merged g). rewrite Hg, Hor.
    destruct (Z.ltb_spec 0 (zlen (mg_merged g))) as [Hp|Hp]; [reflexivity|]. rewrite Hdone by (pose proof (zlen_nonneg (mg_merged g)); lia). reflexivity.
Qed.

Lemma sweep_done T em bs vs :
  sweep key all T em (mkMerger key size fast bs [] vs None) -> bs = [] -> vs = [] -> increasing tc_time em /\ to_map tc_time em = content all.
Proof.
  intros [_ (gone & rest & Ea & G & F) I Mp] -> ->. cbn [mg_values mg_blocks] in *. rewrite app_nil_r in I, Mp. inversion F. subst rest. rewrite app_nil_r in Ea.
  split; [exact I|]. rewrite Mp. apply upto_all; [exact Hok|]. rewrite Ea. eapply Forall_impl; [exact G|]. intros x [_ Hx]. exact Hx.
Qed.

(** Everything of the key is handed out, then the next key follows. *)
Lemma key_finishes n b m bs vs T em lnext :
  sweep key all T em (mkMerger key size fast bs [] vs None) -> (total all <= n + length em)%nat ->
  finishes (next_key p q (at_key_state [] [] [])) lnext ->
  exists more outs, finishes (Ok (true, at_key_state bs (b :: m) vs)) (map handed_out (b :: m ++ more) ++ lnext)
    /\ emits key more outs /\ Forall (out_ok all size) outs
    /\ increasing tc_time (em ++ concat outs) /\ to_map tc_time (em ++ concat outs) = content all.
Proof.
  intros H Hn Hl. revert b m bs vs T em H Hn. induction n as [n IH] using lt_wf_ind; intros b m bs vs T em H Hn.
  assert ((bs = [] /\ vs = []) \/ (bs <> [] \/ vs <> [])) as [[Eb Ev]|Hne].
  { destruct bs; [|right; left; discriminate]. destruct vs; [left; auto|right; right; discriminate]. }
  { destruct (sweep_done T em bs vs H Eb Ev) as [I Mp]. exists [], []. rewrite !app_nil_r. split; [|split; [constructor|split; [constructor|auto]]].
    subst bs vs. apply hand_out. intros c. rewrite next_nothing_left. exact Hl. }
  destruct (next_merges bs vs T em H Hne) as (g & (outs & T' & Em & Ho & Sw & _ & _ & _ & En) & Hnext). cbn [mg_size] in Ho.
  assert (sweep key all T' (em ++ concat outs) (mkMerger key size fast (mg_blocks g) [] (mg_values g) None)) as Sw' by (destruct Sw; split; auto).
  destruct outs as [|o outs].
  - destruct (En eq_refl) as [Eb Ev]. inversion Em as [Em0|]. destruct (sweep_done _ _ _ _ Sw' Eb Ev) as [I Mp]. exists [], []. rewrite app_nil_r.
    split; [|split; [constructor|split; [constructor|auto]]]. apply hand_out. intros c. rewrite Hnext, <- Em0. exact Hl.
  - destruct (mg_merged g) as [|c m'] eqn:Eg; [inversion Em|]. pose proof (concat_ne (o :: outs) (emits_ne _ _ _ Em) ltac:(discriminate)) as Hpos.
    pose proof (out_bound _ _ _ _ _ Sw') as Hb. rewrite length_app in Hb.
    destruct (IH (total all - length (em ++ concat (o :: outs)))%nat ltac:(rewrite length_app; lia) c m' (mg_blocks g) (mg_values g) T' _ Sw' ltac:(lia)) as (more & outs2 & F & Em2 & Ho2 & I2 & M2).
    exists ((c :: m') ++ more), ((o :: outs) ++ outs2). rewrite concat_app, (app_assoc em). split; [|split; [apply Forall2_app; assumption|split; [apply Forall_app; auto|auto]]].
    change (b :: m ++ (c :: m') ++ more) with ((b :: m) ++ ((c :: m') ++ more)). rewrite map_app, <- app_assoc. apply hand_out. intros d. rewrite Hnext.
    rewrite zlen_cons. pose proof (zlen_nonneg m'). destruct (Z.ltb_spec 0 (1 + zlen m')); [|lia]. exact F.
Qed.
End Run.

(** ** From key to key *)

Definition file : Type := list (list Z * list block).

(** The blocks of a key, of one file and of all in order. *)
Definition of_key (key : list Z) (f : file) : list block := concat (map snd (List.filter (fun g => bool_decide (g.1 = key)) f)).
Definition files_key (key : list Z) (fs : list file) : list block := concat (map (of_key key) fs).

(** A file once the blocks of [key] at its front are taken. *)
Definition pop (key : list Z) (f : file) : file :=
  match f with g :: f' => if bool_decide (g.1 = key) then f' else f | [] => [] end.

Definition file_ok (f : file) : Prop :=
  StronglySorted (fun g h => bytes_lt g.1 h.1) f /\ Forall (fun g => g.1 <> [] /\ g.2 <> [] /\ Forall (fun b => blk_key b = g.1) g.2) f.

Lemma offers_ok s f : offers s f -> file_ok f.
Proof.
  intros (live & R & Hb & _ & Hr & H). cbv zeta in H. set (r := src_reader s) in *. set (i := Z.to_nat (bi_i (src_iter s))) in *.
  assert (file_ok (map (fun x => group_at r x.2) live)) as [So F].
  { split.
    - pose proof (rep_sorted _ _ R) as Sk. clear -Sk. induction Sk as [|x l Sk IH F]; [constructor|]. cbn. constructor; [exact IH|]. rewrite Forall_map. exact F.
    - rewrite Forall_map. pose proof (rep_pos _ _ R) as P. rewrite Forall_forall in P, Hr |- *. intros x Hx. destruct (P x Hx) as [_ (_ & Hne & _)]. destruct (Hr x Hx) as [Hk _]. cbn.
      split; [exact Hk|]. split; [destruct (s_entries x.2); [unfold zlen in Hne; cbn in Hne; lia|discriminate]|]. rewrite Forall_map. apply Forall_true. reflexivity. }
  assert (forall j, file_ok (drop j (map (fun x => group_at r x.2) live))) as Hd.
  { intros j. split; [|apply Forall_drop; exact F]. rewrite <- (take_drop j (map _ live)) in So. apply StronglySorted_app_1_r in So. exact So. }
  destruct H as [[_ ->]|(x & Hx & Hp & _ & ->)]; [rewrite <- skipn_map; apply Hd|].
  specialize (Hd (pred i)). rewrite skipn_map, (drop_S _ _ _ Hx) in Hd. replace (S (pred i)) with i in Hd by lia. exact Hd.
Qed.

Lemma key_le a b : bytes_le a b <-> bytes_lt a b \/ a = b.
Proof. rewrite bytes_le_lt. tauto. Qed.

Lemma of_key_none key f : Forall (fun g => g.1 <> key) f -> of_key key f = [].
Proof.
  intros H. unfold of_key. induction H as [|g f Hg _ IH]; [reflexivity|]. cbn. rewrite bool_decide_eq_false_2 by exact Hg. exact IH.
Qed.

Lemma of_key_head key g f : file_ok (g :: f) -> bytes_le key g.1 -> of_key key (g :: f) = if bool_decide (g.1 = key) then g.2 else [].
Proof.
  intros [S _] Hle. apply StronglySorted_inv in S as [_ S]. unfold of_key. cbn [List.filter]. case_bool_decide as E.
  - cbn [map concat]. fold (of_key key f). rewrite of_key_none, app_nil_r; [reflexivity|]. eapply Forall_impl; [exact S|]. intros h Hh E2. cbn in Hh.
    rewrite E, E2 in Hh. destruct (bytes_lt_irrefl _ Hh).
  - fold (of_key key f). apply of_key_none. eapply Forall_impl; [exact S|]. intros h Hh E2. cbn in Hh. rewrite E2 in Hh.
    apply key_le in Hle as [Hle|Hle]; [|congruence]. destruct (bytes_lt_irrefl key). eapply bytes_lt_trans; eassumption.
Qed.

Lemma pop_ok key f : file_ok f -> file_ok (pop key f).
Proof.
  intros H. destruct f as [|g f]; [exact H|]. cbn. case_bool_decide; [|exact H]. destruct H as [S F]. apply StronglySorted_inv in S as [S _]. apply Forall_cons in F as [_ F]. split; assumption.
Qed.

Lemma of_key_pop key k f : file_ok f -> match f with g :: _ => bytes_le key g.1 | [] => True end ->
  of_key k (pop key f) = if bool_decide (k = key) then [] else of_key k f.
Proof.
  intros Hok Hle. destruct f as [|g f]; [cbn; destruct (bool_decide _); reflexivity|]. cbn [pop]. pose proof (of_key_head key g f Hok Hle) as Hh. case_bool_decide as E1.
  - case_bool_decide as E2.
    + rewrite E2. unfold of_key in Hh at 1. cbn [List.filter] in Hh. rewrite bool_decide_eq_true_2 in Hh by exact E1. cbn [map concat] in Hh.
      fold (of_key key f) in Hh. rewrite <- (app_nil_r g.2) in Hh at 2. apply app_inv_head in Hh. exact Hh.
    + unfold of_key at 2. cbn [List.filter]. rewrite bool_decide_eq_false_2 by congruence. reflexivity.
  - case_bool_decide as E2; [|reflexivity]. rewrite E2. exact Hh.
Qed.

(** The sources after filling, in step with their files. *)
Definition ready (s : source) (f : file) : Prop :=
  offers s f /\ src_buf s = match f with g :: _ => g.2 | [] => [] end.

Section Files.
Context `{S8 : Simple8b} `{L8 : !Simple8bLaws} `{SN : Snappy} `{LS : !SnappyLaws} `{BS : BitStream} `{LB : !BitStreamLaws} `{BU : BytesUtil}.
Context (p : encoders) (q : decoders) (Hq : usable q).

Lemma fill_all_spec ss fs : Forall2 offers ss fs -> exists ss', fill_all ss None = Ok (ss', None) /\ Forall2 ready ss' fs.
Proof.
  intros H. induction H as [|s f ss fs Hs _ (ss' & E & IH)]; [exists []; split; [reflexivity|constructor]|]. cbn [fill_all].
  destruct (fill_spec s f None Hs) as (s' & -> & Ho & _ & Hb). rewrite E. exists (s' :: ss'). split; [reflexivity|]. constructor; [|exact IH].
  split; [exact Ho|]. destruct f; [exact Hb|apply Hb].
Qed.

Lemma ready_head s f g : ready s (g :: f) -> exists b bl, src_buf s = b :: bl /\ blk_key b = g.1 /\ g.2 = b :: bl /\ g.1 <> [].
Proof.
  intros [Ho Hb]. destruct (offers_ok _ _ Ho) as [_ F]. apply Forall_cons in F as [(Hk & Hne & Fk) _]. rewrite Hb. clear Hb Ho. destruct g as [k bl]. cbn [fst snd] in *.
  destruct bl as [|b bl]; [congruence|]. apply Forall_cons in Fk as [Fk _]. exists b, bl. auto.
Qed.

(** The smallest key, and the type of one of its blocks. *)
Lemma min_spec ss fs acc :
  Forall2 ready ss fs ->
  let m := fold_left min_step ss acc in
  (m = acc \/ exists s f g b bl, s ∈ ss /\ ready s (g :: f) /\ g :: f ∈ fs /\ g.1 = m.1 /\ src_buf s = b :: bl /\ m.2 = blk_typ b)
  /\ (acc.1 <> [] -> m.1 <> [] /\ bytes_le m.1 acc.1)
  /\ Forall (fun f : file => match f with g :: _ => m.1 <> [] /\ bytes_le m.1 g.1 | [] => True end) fs.
Proof.
  intros H. revert acc. induction H as [|s f ss fs Hs Hss IH]; intros acc; cbn [fold_left].
  { split; [left; reflexivity|]. split; [|constructor]. intros Ha. split; [exact Ha|]. apply key_le. right. reflexivity. }
  destruct (IH (min_step acc s)) as (I1 & I2 & I3). set (m := fold_left min_step ss (min_step acc s)) in *.
  assert (forall a b c, bytes_le a b -> bytes_le b c -> bytes_le a c) as Tr by (intros a b c; apply bytes_le_trans).
  assert ((min_step acc s = acc \/ exists f' g b bl, f = g :: f' /\ g.1 = (min_step acc s).1 /\ src_buf s = b :: bl /\ (min_step acc s).2 = blk_typ b)
    /\ (acc.1 <> [] -> (min_step acc s).1 <> [] /\ bytes_le (min_step acc s).1 acc.1)
    /\ match f with g :: _ => (min_step acc s).1 <> [] /\ bytes_le (min_step acc s).1 g.1 | [] => True end) as (J1 & J2 & J3).
  { unfold min_step. destruct f as [|g f'].
    - destruct Hs as [_ ->]. split; [left; reflexivity|]. split; [|exact I]. intros Ha. split; [exact Ha|]. apply key_le. right. reflexivity.
    - destruct (ready_head _ _ _ Hs) as (b & bl & -> & Ek & _ & Hk). rewrite Ek. destruct (Z.eqb_spec (zlen acc.1) 0) as [E0|E0]; cbn [orb].
      + apply zlen_0 in E0. split; [right; exists f', g, b, bl; auto|]. split; [congruence|]. cbn. split; [exact Hk|]. apply key_le. right. reflexivity.
      + destruct (bytes_compare g.1 acc.1) eqn:Ec.
        * apply bytes_compare_eq in Ec. split; [left; reflexivity|]. rewrite <- Ec. split; intros; (split; [exact Hk|apply key_le; right; reflexivity]).
        * split; [right; exists f', g, b, bl; auto|]. cbn. split; intros; (split; [exact Hk|]); apply key_le; [left; exact Ec|right; reflexivity].
        * assert (acc.1 <> []) as Ha by (intros E; rewrite E in E0; apply E0; reflexivity).
          split; [left; reflexivity|]. split; intros; (split; [exact Ha|]); apply key_le; [right; reflexivity|left].
          unfold bytes_lt. rewrite bytes_compare_antisym, Ec. reflexivity. }
  split; [|split].
  - destruct I1 as [I1|(s' & f' & g & b & bl & Hs' & R' & Hf' & rest)].
    + rewrite I1. destruct J1 as [J1|(f' & g & b & bl & Ef & J)]; [left; exact J1|]. right. exists s, f', g, b, bl. subst f. split; [left|]. split; [exact Hs|]. split; [left|exact J].
    + right. exists s', f', g, b, bl. split; [right; exact Hs'|]. split; [exact R'|]. split; [right; exact Hf'|exact rest].
  - intros Ha. destruct (J2 Ha) as [J4 J5]. destruct (I2 J4) as [I4 I5]. split; [exact I4|]. eapply Tr; eassumption.
  - constructor; [|exact I3]. destruct f as [|g f']; [exact I|]. destruct J3 as [J4 J5]. destruct (I2 J4) as [I4 I5]. split; [exact I4|]. eapply Tr; eassumption.
Qed.

Lemma at_key_ready key s f : ready s f -> at_key key s = match f with g :: _ => bool_decide (g.1 = key) | [] => false end.
Proof.
  intros H. unfold at_key. destruct f as [|g f]; [destruct H as [_ ->]; reflexivity|]. destruct (ready_head _ _ _ H) as (b & bl & -> & -> & _). reflexivity.
Qed.

Lemma taken_spec key ss fs :
  Forall2 ready ss fs -> Forall (fun f : file => match f with g :: _ => bytes_le key g.1 | [] => True end) fs -> taken key ss = files_key key fs.
Proof.
  intros H. unfold taken, files_key. induction H as [|s f ss fs Hs _ IH]; intros F; [reflexivity|]. apply Forall_cons in F as [Hf F]. cbn [map concat]. rewrite (IH F). f_equal.
  rewrite (at_key_ready key s f Hs). pose proof (offers_ok _ _ (proj1 Hs)) as Hok. destruct f as [|g f]; [reflexivity|]. rewrite (of_key_head key g f Hok Hf).
  destruct Hs as [_ ->]. reflexivity.
Qed.

Lemma emptied_spec key s f : ready s f -> offers (emptied key s) (pop key f).
Proof.
  intros H. unfold emptied. rewrite (at_key_ready key s f H). destruct f as [|g f]; [apply H|]. cbn [pop]. destruct (bool_decide (g.1 = key)); [|apply H].
  destruct (ready_head _ _ _ H) as (b & bl & Eb & _). destruct H as [(live & R & Hb & Hd & Hr & Ho) _]. exists live. cbn [src_reader src_iter src_buf]. 
  split; [exact R|]. split; [exact Hb|]. split; [exact Hd|]. split; [exact Hr|]. left. split; [reflexivity|].
  cbv zeta in Ho. destruct Ho as [[E _]|(x & _ & _ & _ & E)]; [congruence|]. injection E as _ ->. reflexivity.
Qed.

#[local] Existing Instances vw_TC vw_TL.

(** *** What is asked of the blocks of a key, and what comes of them *)

(** The blocks of a key are of one type and hold values; in the order of the files
    they are ordered by their start; something survives the tombstones. *)
Definition holds_piece {V} `{TC : !TypedCodec V} {TL : TypedCodecLaws TC} (key : list Z) (b : block) (x : list V * list TimeRange) : Prop :=
  holds_values key b x.1 /\ blk_tombstones b = x.2 /\ blk_readMin b = MaxInt64 /\ blk_readMax b = MinInt64.

Definition mergeable (size : Z) (key : list Z) (bs : list block) : Prop :=
  exists vw : view p q, vw ∈ views p q Hq /\ exists all : list (piece (V := vw_V p q vw)),
    Forall2 (holds_piece key) bs all /\ starts_sorted all /\ Forall (fun b => blk_typ b = vw_typ p q vw) bs /\ content all <> ∅ /\ size <= @tc_max _ _ (vw_TL p q vw).

(** Their values in time order, overlaid, less what is deleted, in blocks of at
    most [size] values or as they were. *)
Definition merged_as (size : Z) (key : list Z) (bs : list block) (out : list handed) : Prop :=
  exists vw : view p q, vw ∈ views p q Hq /\ exists (all : list (piece (V := vw_V p q vw))) (blocks : list block) (outs : list (list (vw_V p q vw))),
    Forall2 (holds_piece key) bs all /\ out = map handed_out blocks /\ Forall2 (holds_values key) blocks outs
    /\ increasing tc_time (concat outs) /\ to_map tc_time (concat outs) = content all
    /\ Forall (fun o => o <> [] /\ (zlen o <= size \/ (o, []) ∈ all)) outs.

Lemma holds_pieces_ok {V} `{TC : !TypedCodec V} {TL : TypedCodecLaws TC} key bs (all : list (list V * list TimeRange)) :
  Forall2 (holds_piece key) bs all -> Forall piece_ok all.
Proof.
  intros H. induction H as [|b x bs all (Hh & _) _ IH]; constructor; [|exact IH]. split; [apply Hh|]. split; [apply Hh|]. split; apply Hh.
Qed.

Definition handed_key (x : handed) : list Z := x.1.1.1.
Definition key_out (key : list Z) (l : list handed) : list handed := List.filter (fun x => bool_decide (handed_key x = key)) l.

(** *** One key, given the rest *)

Lemma key_run ss fast size key typ bs lnext :
  mergeable size key bs -> bs <> [] -> 0 < size ->
  (forall b, b ∈ bs -> blk_typ b = typ) ->
  finishes p q (next_key p q (iter_at ss fast size key typ [] [] no_pending)) lnext ->
  exists k, ki_merge p q (iter_at ss fast size key typ bs [] no_pending) = Some k /\ (0 <? zlen (ki_merged k)) = true
    /\ exists out, finishes p q (Ok (true, k)) (out ++ lnext) /\ merged_as size key bs out /\ Forall (fun x => handed_key x = key) out.
Proof.
  intros (vw & Hvw & all & Hp & Hs & Ht & Hc & Hm) Hne Hsz Htyp Hl.
  assert (typ = vw_typ p q vw) as ->.
  { destruct bs as [|b bs]; [congruence|]. apply Forall_cons in Ht as [Ht _]. rewrite <- Ht. symmetry. apply Htyp. left. }
  rewrite <- (vw_nil p q vw) in *. pose proof (holds_pieces_ok key bs all Hp) as Hok.
  set (k0 := @mkMerger (vw_V p q vw) key size fast bs [] [] None).
  assert (fresh key all k0) as Hf by (split; [reflexivity|]; split; [exact Hp|auto]).
  pose proof (fresh_sweep key all k0 Hok Hf) as Sw.
  destruct (merge_blocks_spec key all _ [] k0 Hok Hs Sw eq_refl (conj Hsz Hm)) as (g & Eg & (outs & T' & Em & Ho & Sw' & _ & _ & Ee & En)).
  rewrite (vw_merge p q vw ss fast size key bs [] [] g Eg Ee). eexists. split; [reflexivity|]. cbn [iter_at ki_merged app mg_size k0] in *.
  assert (sweep key all T' (concat outs) (mkMerger key size fast (mg_blocks g) [] (mg_values g) None)) as Sw2 by (destruct Sw'; split; auto).
  destruct (mg_merged g) as [|b m] eqn:Egm.
  { exfalso. inversion Em; subst outs. destruct (En eq_refl) as [Eb Ev]. destruct (sweep_done p q vw fast size key all Hok _ _ _ _ Sw2 Eb Ev) as [_ Mp]. cbn in Mp. congruence. }
  split; [rewrite zlen_cons; pose proof (zlen_nonneg m); lia|].
  destruct (key_finishes p q vw ss fast size key all Hok Hs (conj Hsz Hm) (total all) b m _ _ T' (concat outs) lnext Sw2 ltac:(lia) Hl) as (more & outs2 & F & Em2 & Ho2 & I2 & M2).
  assert (emits key ((b :: m) ++ more) (outs ++ outs2)) as Hem by (apply Forall2_app; assumption).
  exists (map handed_out ((b :: m) ++ more)). split; [exact F|]. split.
  - exists vw. split; [exact Hvw|]. exists all, ((b :: m) ++ more), (outs ++ outs2). split; [exact Hp|]. split; [reflexivity|]. split; [exact Hem|]. rewrite concat_app.
    split; [exact I2|]. split; [exact M2|]. apply Forall_app. split; assumption.
  - rewrite Forall_map. clear -Hem. induction Hem as [|c o l ol Hh _ IH]; constructor; [apply Hh|exact IH].
Qed.

Definition keys_left (fs : list file) : nat := length (concat fs).

Lemma files_key_pop key k fs :
  Forall file_ok fs -> Forall (fun f : file => match f with g :: _ => bytes_le key g.1 | [] => True end) fs ->
  files_key k (map (pop key) fs) = if bool_decide (k = key) then [] else files_key k fs.
Proof.
  intros F. unfold files_key. induction F as [|f fs Hf _ IH]; intros H; [cbn; destruct (bool_decide _); reflexivity|]. apply Forall_cons in H as [Hh H]. cbn [map concat].
  rewrite (IH H), (of_key_pop key k f Hf Hh). destruct (bool_decide (k = key)); reflexivity.
Qed.

Lemma pop_left key fs : (length (concat (map (pop key) fs)) <= length (concat fs))%nat
  /\ ((exists g f, g :: f ∈ fs /\ g.1 = key) -> (length (concat (map (pop key) fs)) < length (concat fs))%nat).
Proof.
  induction fs as [|f fs [IH1 IH2]]; cbn [map concat]; [split; [lia|]; intros (g & f & H & _); apply elem_of_nil in H as []|]. rewrite !length_app.
  assert ((length (pop key f) <= length f)%nat) as Hf by (destruct f as [|g f]; cbn; [lia|]; case_bool_decide; cbn; lia).
  split; [lia|]. intros (g & f' & H & E). apply elem_of_cons in H as [H|H].
  - rewrite <- H. cbn [pop]. rewrite bool_decide_eq_true_2 by exact E. cbn. lia.
  - assert ((length (concat (map (pop key) fs)) < length (concat fs))%nat) by (apply IH2; eauto). lia.
Qed.

Lemma files_key_le key k fs :
  Forall file_ok fs -> Forall (fun f : file => match f with g :: _ => bytes_le key g.1 | [] => True end) fs -> files_key k fs <> [] -> bytes_le key k.
Proof.
  intros F H Hne. destruct (decide (bytes_le key k)) as [Hd|Hd]; [exact Hd|]. exfalso. apply Hne. unfold files_key.
  induction F as [|f fs Hf _ IH]; [reflexivity|]. apply Forall_cons in H as [Hh H]. cbn [map concat].
  assert (of_key k f = []) as E.
  { destruct f as [|g f]; [reflexivity|]. apply of_key_none. constructor; [intros E; apply Hd; rewrite <- E; exact Hh|].
    destruct Hf as [So _]. apply StronglySorted_inv in So as [_ So]. eapply Forall_impl; [exact So|]. intros h Hh2 E. cbn in Hh2. apply Hd. rewrite <- E.
    apply key_le in Hh as [Hh|Hh]; apply key_le; left; [eapply bytes_lt_trans; eassumption|rewrite Hh; exact Hh2]. }
  rewrite E. apply IH; [exact H|]. cbn [files_key map concat] in Hne. unfold files_key in Hne. cbn [map concat] in Hne. rewrite E in Hne. exact Hne.
Qed.

Lemma key_out_all key l : Forall (fun x => handed_key x = key) l -> key_out key l = l.
Proof. intros H. apply filter_all. eapply Forall_impl; [exact H|]. intros x Hx. apply bool_decide_eq_true_2. exact Hx. Qed.
Lemma key_out_none key l : Forall (fun x => handed_key x <> key) l -> key_out key l = [].
Proof. intros H. apply filter_none. eapply Forall_impl; [exact H|]. intros x Hx. apply bool_decide_eq_false_2. exact Hx. Qed.

Lemma next_key_unfold ss fast size key typ ss' :
  fill_all ss None = Ok (ss', None) ->
  next_key p q (iter_at ss fast size key typ [] [] no_pending)
  = (let '(minKey, minType) := fold_left min_step ss' ([], 0) in
     let k := iter_at (map (emptied minKey) ss') fast size minKey minType (taken minKey ss') [] no_pending in
     if zlen (taken minKey ss') =? 0 then Ok (false, k)
     else match ki_merge p q k with Some k => Ok (0 <? zlen (ki_merged k), k) | None => Panic end).
Proof. intros E. unfold next_key. cbn [iter_at ki_sources ki_err]. rewrite E. destruct (fold_left min_step ss' ([], 0)) as [mk mt]. reflexivity. Qed.

(** The sources [ss] can be merged to [l]. *)
Definition good_run (fast : bool) (size : Z) (ss : list source) (fs : list file) (key : list Z) (typ : Z) : Prop :=
  exists l, finishes p q (next_key p q (iter_at ss fast size key typ [] [] no_pending)) l
    /\ StronglySorted bytes_le (map handed_key l) /\ Forall (fun x => files_key (handed_key x) fs <> []) l
    /\ (forall k, files_key k fs <> [] -> merged_as size k (files_key k fs) (key_out k l)) /\ (concat fs <> [] -> l <> []).

Lemma nothing_left fast size ss ss' fs key typ :
  fill_all ss None = Ok (ss', None) -> Forall2 ready ss' fs -> concat fs = [] -> good_run fast size ss fs key typ.
Proof.
  intros Ef Hr E. assert (Forall (fun f : file => f = []) fs) as Hn.
  { clear -E. induction fs as [|f fs IH]; [constructor|]. cbn in E. apply app_eq_nil in E as [E1 E2]. constructor; [exact E1|apply IH, E2]. }
  assert (forall k, files_key k fs = []) as Hk.
  { intros k. unfold files_key. clear -Hn. induction Hn as [|f fs -> _ IH]; [reflexivity|]. exact IH. }
  exists []. rewrite (next_key_unfold _ _ _ _ _ _ Ef). pose proof (min_spec ss' fs ([], 0) Hr) as (M1 & _ & M3). cbv zeta in M1, M3.
  destruct (fold_left min_step ss' ([], 0)) as [mk mt]. cbv zeta.
  assert (taken mk ss' = []) as ->.
  { rewrite (taken_spec mk ss' fs Hr); [apply Hk|]. eapply Forall_impl; [exact Hn|]. intros f ->. exact I. }
  change (zlen (@nil block) =? 0) with true. cbv iota. split; [constructor; reflexivity|]. split; [constructor|]. split; [constructor|]. split; [intros k H; destruct (H (Hk k))|contradiction].
Qed.

(** The smallest key is taken from every file that has it. *)
Lemma first_key ss' fs :
  Forall2 ready ss' fs -> concat fs <> [] ->
  exists mk mt, fold_left min_step ss' ([], 0) = (mk, mt)
    /\ Forall (fun f : file => match f with g :: _ => bytes_le mk g.1 | [] => True end) fs
    /\ taken mk ss' = files_key mk fs /\ (exists b, b ∈ files_key mk fs /\ blk_typ b = mt) /\ exists g f, g :: f ∈ fs /\ g.1 = mk.
Proof.
  intros Hr Hne. pose proof (min_spec ss' fs ([], 0) Hr) as (M1 & _ & M3). cbv zeta in M1, M3.
  destruct (fold_left min_step ss' ([], 0)) as [mk mt]. cbn [fst snd] in *. exists mk, mt. split; [reflexivity|].
  assert (Forall (fun f : file => match f with g :: _ => bytes_le mk g.1 | [] => True end) fs) as Hle.
  { eapply Forall_impl; [exact M3|]. intros [|g f]; [auto|]. intros [_ H]. exact H. }
  pose proof (taken_spec mk ss' fs Hr Hle) as Ht. split; [exact Hle|]. split; [exact Ht|].
  destruct M1 as [M1|(s & f & g & b & bl & Hs & Hrd & Hf & Hg & Hb & Hty)].
  - exfalso. injection M1 as -> ->. apply Hne. clear -M3. induction M3 as [|f fs Hf _ IH]; [reflexivity|]. destruct f as [|g f]; [exact IH|]. destruct Hf as [Hf _]. congruence.
  - split; [|eauto]. exists b. split; [|auto]. rewrite <- Ht. apply list_elem_of_In, in_concat. exists (src_buf s). split.
    + apply in_map_iff. exists s. split; [|apply list_elem_of_In; exact Hs]. rewrite (at_key_ready mk s (g :: f) Hrd), bool_decide_eq_true_2 by exact Hg. reflexivity.
    + rewrite Hb. left. reflexivity.
Qed.

Lemma all_files fast size n ss fs key typ :
  0 < size -> (keys_left fs <= n)%nat -> Forall2 offers ss fs -> (forall k, files_key k fs <> [] -> mergeable size k (files_key k fs)) ->
  good_run fast size ss fs key typ.
Proof.
  intros Hsz. revert ss fs key typ. induction n as [n IH] using lt_wf_ind. intros ss fs key typ Hn Ho Hm. destruct (fill_all_spec ss fs Ho) as (ss' & Ef & Hr).
  assert (concat fs = [] \/ concat fs <> []) as [E|Hne] by (destruct (concat fs); [left|right]; congruence); [apply (nothing_left _ _ _ ss'); assumption|].
  destruct (first_key ss' fs Hr Hne) as (mk & mt & Emin & Hle & Ht & (b & Hb & Hty) & Hg).
  assert (Forall file_ok fs) as Hok by (clear -Ho; induction Ho as [|s f ss fs H _ IH]; constructor; [apply (offers_ok _ _ H)|exact IH]).
  assert (files_key mk fs <> []) as Hnk by (intros E; rewrite E in Hb; apply elem_of_nil in Hb as []).
  pose proof (files_key_pop mk) as Hpop. set (fs2 := map (pop mk) fs). set (ss2 := map (emptied mk) ss').
  assert ((keys_left fs2 < n)%nat) as Hlt by (pose proof (proj2 (pop_left mk fs) Hg) as Hp; unfold keys_left, fs2 in *; lia).
  destruct (IH (keys_left fs2) Hlt ss2 fs2 mk mt ltac:(lia)) as (l & F & So & Fk & Hl & _).
  { unfold ss2, fs2. clear -Hr. induction Hr as [|s f ss' fs H _ IH]; cbn; constructor; [apply emptied_spec, H|exact IH]. }
  { intros k Hk. unfold fs2 in *. rewrite (Hpop k fs Hok Hle) in Hk |- *. destruct (bool_decide (k = mk)); [congruence|]. apply Hm, Hk. }
  destruct (key_run ss2 fast size mk mt (files_key mk fs) l (Hm mk Hnk) Hnk Hsz) as (k & Ek & Ez & out & Fo & Mo & Ko); [|exact F|].
  { intros c Hc. destruct (Hm mk Hnk) as (vw & _ & all & _ & _ & Hall & _). rewrite Forall_forall in Hall. rewrite <- Hty, (Hall c Hc), (Hall b Hb). reflexivity. }
  assert (Forall (fun x => handed_key x <> mk /\ files_key (handed_key x) fs <> []) l) as Fk2.
  { eapply Forall_impl; [exact Fk|]. intros x Hx. cbn beta in Hx. unfold fs2 in Hx. rewrite (Hpop (handed_key x) fs Hok Hle) in Hx. case_bool_decide; [congruence|]. auto. }
  exists (out ++ l). rewrite (next_key_unfold _ _ _ _ _ _ Ef), Emin. cbv zeta. rewrite Ht.
  split; [|split; [|split; [|split]]].
  - destruct (Z.eqb_spec (zlen (files_key mk fs)) 0) as [E|_]; [destruct (Hnk (zlen_0 _ E))|]. fold ss2. rewrite Ek, Ez. exact Fo.
  - rewrite map_app. clear -So Ko Fk2 Hok Hle. induction Ko as [|x out Hx Ko IHo]; [exact So|]. cbn [map app]. constructor; [exact IHo|]. rewrite Forall_app, !Forall_map. rewrite Hx. split.
    + eapply Forall_impl; [exact Ko|]. intros y Hy. cbn in Hy. rewrite Hy. apply key_le. right. reflexivity.
    + eapply Forall_impl; [exact Fk2|]. intros y [_ Hy]. apply (files_key_le mk _ fs Hok Hle Hy).
  - apply Forall_app. split; [eapply Forall_impl; [exact Ko|]; intros x ->; exact Hnk|]. eapply Forall_impl; [exact Fk2|]. intros x [_ Hx]. exact Hx.
  - intros k2 Hk2. unfold key_out. rewrite List.filter_app. fold (key_out k2 out) (key_out k2 l). destruct (decide (k2 = mk)) as [->|Hd].
    + rewrite (key_out_all mk out Ko), (key_out_none mk l), app_nil_r; [exact Mo|]. eapply Forall_impl; [exact Fk2|]. intros x [Hx _]. exact Hx.
    + rewrite (key_out_none k2 out) by (eapply Forall_impl; [exact Ko|]; intros x Hx; cbn in Hx; congruence). cbn [app].
      specialize (Hl k2). unfold fs2 in Hl. rewrite (Hpop k2 fs Hok Hle), bool_decide_eq_false_2 in Hl by exact Hd. apply Hl, Hk2.
  - intros _ E. rewrite E in Fo. inversion Fo.
Qed.

(** Compacting TSM files: [Next] and [Read] over any number of
    readers, called as the compactor calls them, for any block size and either
    strategy.  The iteration ends without error; keys come out in order and no key
    that no file has; and for every key, of whichever of the five types, the blocks
    handed out hold in time order the values of its blocks in all files, the later
    file winning at equal times, without what the tombstones of each file delete.
    The blocks of a key have to be ordered by their start and something has to be
    left of it: [merge_loses_value] and [deleted_key_ends_iteration] show that the
    code needs both. *)
Theorem compaction_merges (size : Z) (fast : bool) (readers : list TSMReader) (files : list file) :
  Forall2 (fun r f => offers (mkSource r (rd_BlockIterator r) []) f) readers files ->
  (forall k, files_key k files <> [] -> mergeable size k (files_key k files)) -> 0 < size ->
  exists l, ki_collect p q (S (length l)) (NewTSMKeyIterator size fast readers) = Ok l
    /\ StronglySorted bytes_le (map handed_key l) /\ Forall (fun x => files_key (handed_key x) files <> []) l
    /\ forall k, files_key k files <> [] -> merged_as size k (files_key k files) (key_out k l).
Proof.
  intros H Hm Hsz. set (ss := map (fun r => mkSource r (rd_BlockIterator r) []) readers).
  assert (Forall2 offers ss files) as Ho by (unfold ss; clear -H; induction H; cbn; constructor; assumption).
  destruct (all_files fast size (keys_left files) ss files [] 0 Hsz ltac:(lia) Ho Hm) as (l & F & So & Fk & Hl & _).
  exists l. split; [|auto]. apply finishes_collect. exact F.
Qed.
End Files.

(** ** A witness: two files with a common key *)

#[local] Existing Instances plain_words plain_laws list_stream list_stream_laws id_snappy id_snappy_laws list_bytesutil id_gzip ex_blocks.

Definition ints (l : list (Z * Z)) : list Value := map (fun x => VInteger (mkTV x.1 x.2)) l.
Definition reader_of (cs : list (column (V := Value))) : TSMReader :=
  match NewTSMReader (tw_out (write_file no_sort cs NewTSMWriter).2) None with Ok r => r | _ => mkRD 0 (mkMA None 0 0) NewIndirectIndex None 0 end.

(** The series of an index. *)
Definition series_at (d : indirectIndex) (i : nat) : Z * series :=
  match ix_offsets d !! i, ix_Key d (Z.of_nat i) with
  | Some ofs, Ok (k, t, es) => (ofs, mkSeries k t es)
  | _, _ => (0, mkSeries [] 0 [])
  end.
Definition live_of (r : TSMReader) : list (Z * series) := map (series_at (rd_index r)) (seq 0 (length (ix_offsets (rd_index r)))).

(** Two points of the first file, one of them deleted; the second file repeats
    the other. *)
Definition older : TSMReader := Eval vm_compute in
  (rd_DeleteRange true [[97]] 1 1 (reader_of [([97], [ints [(1, 10); (5, 20)]]); ([98], [ints [(1, 30)]])])).2.
Definition newer : TSMReader := Eval vm_compute in reader_of [([97], [ints [(3, 11); (5, 99)]; ints [(7, 70)]])].

Definition live_older : list (Z * series) := Eval vm_compute in live_of older.
Definition live_newer : list (Z * series) := Eval vm_compute in live_of newer.
Definition two_files : list file := Eval vm_compute in [map (fun x => group_at older x.2) live_older; map (fun x => group_at newer x.2) live_newer].

Lemma older_offers : offers (mkSource older (rd_BlockIterator older) []) (map (fun x => group_at older x.2) live_older).
Proof.
  apply offers_all.
  - split; [reflexivity| |repeat constructor].
    apply Forall_cons; split; [|apply Forall_cons; split; [|constructor]]; (split; [|split; [vm_compute; congruence|split; [split; vm_compute; congruence|repeat constructor; vm_compute; congruence]]]).
    + exists [], (drop 34 (ix_b (rd_index older))). split; vm_compute; reflexivity.
    + exists (take 34 (ix_b (rd_index older))), []. split; vm_compute; reflexivity.
  - repeat constructor; try discriminate; eexists _, _; vm_compute; reflexivity.
Qed.

Lemma newer_offers : offers (mkSource newer (rd_BlockIterator newer) []) (map (fun x => group_at newer x.2) live_newer).
Proof.
  apply offers_all.
  - split; [reflexivity| |repeat constructor].
    apply Forall_cons; split; [|constructor]; (split; [|split; [vm_compute; congruence|split; [split; vm_compute; congruence|repeat constructor; vm_compute; congruence]]]).
    exists [], []. split; vm_compute; reflexivity.
  - repeat constructor; try discriminate; eexists _, _; vm_compute; reflexivity.
Qed.

Lemma two_files_keys k : files_key k two_files <> [] -> k = [97] \/ k = [98].
Proof.
  intros H. destruct (decide (k = [97])) as [->|H1]; [auto|]. destruct (decide (k = [98])) as [->|H2]; [auto|]. exfalso. apply H.
  unfold files_key, two_files, of_key. cbn [map concat List.filter fst].
  repeat (rewrite bool_decide_eq_false_2 by congruence). reflexivity.
Qed.

Lemma two_files_mergeable k :
  files_key k two_files <> [] -> mergeable encoders_ex decoders_ex decoders_usable 2 k (files_key k two_files).
Proof.
  intros H. exists (integer_view encoders_ex decoders_ex decoders_usable). split; [right; left|].
  apply two_files_keys in H as [-> | ->]; cbn [integer_view vw_V].
  - exists [([mkTV 1 10; mkTV 5 20], [mkTR 1 1]); ([mkTV 3 11; mkTV 5 99], []); ([mkTV 7 70], [])].
    split; [repeat (constructor; [split; [int_block_holds|auto]|]); constructor|]. split; [repeat constructor; vm_compute; congruence|]. split; [repeat constructor|].
    split; [vm_compute; discriminate|vm_compute; congruence].
  - exists [([mkTV 1 30], [])].
    split; [repeat (constructor; [split; [int_block_holds|auto]|]); constructor|]. split; [repeat constructor|]. split; [repeat constructor|].
    split; [vm_compute; discriminate|vm_compute; congruence].
Qed.

Lemma compaction_merges_witness :
  exists l, ki_collect encoders_ex decoders_ex (S (length l)) (NewTSMKeyIterator 2 false [older; newer]) = Ok l
    /\ StronglySorted bytes_le (map handed_key l) /\ Forall (fun x => files_key (handed_key x) two_files <> []) l
    /\ forall k, files_key k two_files <> [] ->
         merged_as encoders_ex decoders_ex decoders_usable 2 k (files_key k two_files) (key_out k l).
Proof.
  apply (compaction_merges encoders_ex decoders_ex decoders_usable 2 false [older; newer] two_files).
  - repeat constructor; [apply older_offers|apply newer_offers].
  - exact two_files_mergeable.
  - lia.
Defined.

(** ** A key that is deleted to the last value

    Both points of the first key are deleted, one by one.  [Next] finds nothing to
    hand out for it and says that the iteration is over, without an error: the
    other key of the file is not in the compaction. *)

Definition undeleted_file : TSMReader := reader_of [([97], [ints [(1, 10); (5, 20)]]); ([98], [ints [(1, 30)]])].
Definition deleted_file : TSMReader := (rd_DeleteRange true [[97]] 5 5 (rd_DeleteRange true [[97]] 1 1 undeleted_file).2).2.

Example deleted_key_ends_iteration :
  res_map (map handed_key) (ki_collect encoders_ex decoders_ex 5 (NewTSMKeyIterator 1000 false [undeleted_file])) = Ok [[97]; [98]]
  /\ ki_collect encoders_ex decoders_ex 5 (NewTSMKeyIterator 1000 false [deleted_file]) = Ok []
  /\ rd_ReadAll deleted_file [98] decoders_ex = rd_ReadAll undeleted_file [98] decoders_ex.
Proof. vm_compute. auto. Qed.

(** A reader closed under the iteration: reading its last block fails, and the
    look at what comes next runs past the end. *)
Definition closed_file : TSMReader := (rd_Close (reader_of [([98], [ints [(1, 30)]])])).2.

Example closed_reader_panics : ki_Next encoders_ex decoders_ex (NewTSMKeyIterator 1000 false [closed_file]) = Panic.
Proof. vm_compute. reflexivity. Qed.
