(* ===== verification/TSMNames.v ===== *)
(** * Names of TSM files

    [tsdb/engine/tsm1]: files are named [%09d-%09d.tsm] by generation and
    sequence, [.tmp] while they are written.  [ParseTSMFileName] of
    [file_store.go] gives the two numbers back, and names sort like them as long
    as nine digits are enough.  Paths are names in one directory. *)

From Stdlib Require Import Ascii.
From S2P Require Import Prelude OSFile Values Varint Blocks Bytes TSMWriter TSMIndex TSMIndexFacts TSMDelete Tombstone TSMReader TSMFile TSMDurable WALEntry.
From S2P Require Import WALSegment WAL.

(** [%09d] *)
Definition pad9 (n : Z) : list ascii := repeat "0"%char (9 - length (digits 20 n)) ++ digits 20 n.

Definition tsm_chars (gen seq : Z) : list ascii := pad9 gen ++ "-"%char :: pad9 seq.
Definition dot_tsm : list ascii := ["."%char; "t"%char; "s"%char; "m"%char].
Definition dot_tmp : list ascii := ["."%char; "t"%char; "m"%char; "p"%char].

Definition tsm_name (gen seq : Z) : string := soa (tsm_chars gen seq ++ dot_tsm).
Definition tmp_name (gen seq : Z) : string := soa (tsm_chars gen seq ++ dot_tsm ++ dot_tmp).

Abbreviation chars := String.list_ascii_of_string.

(** [strings.HasSuffix] *)
Definition has_suffix (p : string) (suf : list ascii) : bool :=
  let l := chars p in bool_decide (length suf <= length l)%nat && bool_decide (drop (length l - length suf) l = suf).

(** [strings.Index] of one character, as the parts before and after it. *)
Fixpoint cut (c : ascii) (l : list ascii) : option (list ascii * list ascii) :=
  match l with
  | [] => None
  | x :: l' => if bool_decide (x = c) then Some ([], l') else '(a, b) ← cut c l'; Some (x :: a, b)
  end.

(** [strconv.ParseUint(s, 10, 32)] *)
Definition ParseUint32 (l : list ascii) : option Z :=
  n ← ParseUint (soa l); if n <? 2 ^ 32 then Some n else None.

(** [None] is "file %s is named incorrectly". *)
Definition ParseTSMFileName (name : string) : option (Z * Z) :=
  '(id, _) ← cut "."%char (String.list_ascii_of_string name);
  '(g, s) ← cut "-"%char id;
  generation ← ParseUint32 g;
  sequence ← ParseUint32 s;
  Some (generation, sequence).

(** ** Facts *)

Lemma chars_soa l : chars (soa l) = l.
Proof. apply String.list_ascii_of_string_of_list_ascii. Qed.

Lemma soa_chars p : soa (chars p) = p.
Proof. apply String.string_of_list_ascii_of_string. Qed.

Lemma has_suffix_iff p suf : has_suffix p suf = true <-> exists base, chars p = base ++ suf.
Proof.
  unfold has_suffix. rewrite andb_true_iff, !bool_decide_eq_true. split.
  - intros [H E]. exists (take (length (chars p) - length suf) (chars p)). rewrite <- E at 2. symmetry. apply take_drop.
  - intros [base ->]. rewrite length_app. split; [lia|]. rewrite drop_app_ge by lia.
    replace (length base + length suf - length suf - length base)%nat with 0%nat by lia. reflexivity.
Qed.

Lemma cut_word c w rest : Forall (fun x => x <> c) w -> cut c (w ++ c :: rest) = Some (w, rest).
Proof.
  induction 1 as [|x w Hx _ IH]; cbn [app cut]; [rewrite bool_decide_eq_true_2 by reflexivity; reflexivity|].
  rewrite bool_decide_eq_false_2 by exact Hx. rewrite IH. reflexivity.
Qed.

Lemma digits_no c f n : 0 <= n -> digit_val c = None -> Forall (fun x => x <> c) (digits f n).
Proof.
  intros Hn Hc. revert n Hn. induction f as [|f IH]; intros n Hn; cbn [digits]; [constructor|]. apply Forall_app. split.
  - destruct (n <? 10); [constructor|]. apply IH. apply Z.div_pos; lia.
  - constructor; [|constructor]. intros E. pose proof (digit_val_digit (n mod 10) (Z.mod_pos_bound n 10 ltac:(lia))) as H. rewrite E in H. congruence.
Qed.

Lemma pad9_no c n : 0 <= n -> digit_val c = None -> Forall (fun x => x <> c) (pad9 n).
Proof.
  intros Hn Hc. apply Forall_app. split; [|apply digits_no; assumption].
  apply Forall_forall. intros x Hx. apply list_elem_of_In, repeat_spec in Hx. subst. intros E. rewrite <- E in Hc. discriminate.
Qed.

Lemma ParseUint32_pad9 n : 0 <= n < 2 ^ 32 -> ParseUint32 (pad9 n) = Some n.
Proof.
  intros H. unfold ParseUint32, ParseUint. rewrite String.list_ascii_of_string_of_list_ascii. unfold pad9. destruct (repeat "0"%char _ ++ digits 20 n) as [|c l] eqn:E.
  { pose proof (length_digits 20 n ltac:(lia)). apply (f_equal length) in E. rewrite length_app in E. cbn [length] in E. lia. }
  rewrite <- E, parse_zeros, fold_digits by lia. destruct (Z.ltb_spec n (2 ^ 64)); [|lia]. cbn. destruct (Z.ltb_spec n (2 ^ 32)); [reflexivity|lia].
Qed.

Lemma parse_chars gen seq ext :
  0 <= gen < 2 ^ 32 -> 0 <= seq < 2 ^ 32 -> ParseTSMFileName (soa (tsm_chars gen seq ++ "."%char :: ext)) = Some (gen, seq).
Proof.
  intros Hg Hs. unfold ParseTSMFileName. rewrite String.list_ascii_of_string_of_list_ascii. rewrite cut_word; cbn [mbind option_bind].
  - unfold tsm_chars. rewrite cut_word by (apply pad9_no; [lia|reflexivity]). cbn [mbind option_bind].
    rewrite (ParseUint32_pad9 gen Hg). cbn [mbind option_bind]. rewrite (ParseUint32_pad9 seq Hs). reflexivity.
  - unfold tsm_chars. apply Forall_app. split; [apply pad9_no; [lia|reflexivity]|]. constructor; [discriminate|apply pad9_no; [lia|reflexivity]].
Qed.

Lemma parse_tsm_name gen seq : 0 <= gen < 2 ^ 32 -> 0 <= seq < 2 ^ 32 -> ParseTSMFileName (tsm_name gen seq) = Some (gen, seq).
Proof. apply parse_chars. Qed.
Lemma parse_tmp_name gen seq : 0 <= gen < 2 ^ 32 -> 0 <= seq < 2 ^ 32 -> ParseTSMFileName (tmp_name gen seq) = Some (gen, seq).
Proof. apply (parse_chars gen seq (["t"%char; "s"%char; "m"%char] ++ dot_tmp)). Qed.

Lemma tmp_name_inj g s g' s' :
  0 <= g < 2 ^ 32 -> 0 <= s < 2 ^ 32 -> 0 <= g' < 2 ^ 32 -> 0 <= s' < 2 ^ 32 -> tmp_name g s = tmp_name g' s' -> g = g' /\ s = s'.
Proof. intros H1 H2 H3 H4 E. apply (f_equal ParseTSMFileName) in E. rewrite !parse_tmp_name in E by assumption. injection E as -> ->. auto. Qed.

Lemma compare_dash a b : String.compare (soa ("-"%char :: a)) (soa ("-"%char :: b)) = String.compare (soa a) (soa b).
Proof. reflexivity. Qed.

(** With at most nine digits the names are in the order of generation and
    sequence. *)
Lemma tsm_name_le g s g' s' :
  0 <= g < 10 ^ 9 -> 0 <= s < 10 ^ 9 -> 0 <= g' < 10 ^ 9 -> 0 <= s' < 10 ^ 9 ->
  String.le (tsm_name g s) (tsm_name g' s') <-> g < g' \/ g = g' /\ s <= s'.
Proof.
  intros Hg Hs Hg' Hs'. assert (forall n, 0 <= n < 10 ^ 9 -> pad9 n = fixed_digits 9 n) as Hp by (intros n Hn; apply pad_digits; [exact Hn|lia]).
  unfold tsm_name, tsm_chars, String.le, String.leb. rewrite (Hp g), (Hp s), (Hp g'), (Hp s') by assumption. rewrite <- !app_assoc, compare_app by (rewrite !length_fixed; reflexivity).
  rewrite compare_fixed by assumption. cbn [app]. rewrite compare_dash.
  rewrite compare_app by (rewrite !length_fixed; reflexivity). rewrite compare_fixed by assumption. change (String.compare (soa dot_tsm) (soa dot_tsm)) with Eq.
  destruct (Z.compare_spec g g'); [destruct (Z.compare_spec s s')| |]; cbn; split; intros; try lia; try contradiction; constructor.
Qed.

(** The tenth digit breaks it: generation 10^9 sorts before generation 2. *)
Example tenth_digit : String.le (tsm_name 1000000000 1) (tsm_name 200000000 1).
Proof. vm_compute. constructor. Qed.

(** Parsing gives two 32-bit numbers. *)
Lemma parse_step_nonneg l a n : 0 <= a -> fold_left parse_step l (Some a) = Some n -> 0 <= n.
Proof.
  revert a. induction l as [|c l IH]; intros a Ha; cbn [fold_left]; [intros [= <-]; exact Ha|]. cbn [parse_step]. destruct (digit_val c) as [d|] eqn:E.
  - apply IH. unfold digit_val in E. destruct (Z.leb_spec 0 (Z.of_N (N_of_ascii c) - 48)); [|discriminate]. destruct (_ <=? 9); [|discriminate]. injection E as <-. lia.
  - clear. induction l as [|x l IH]; [discriminate|exact IH].
Qed.

Lemma ParseUint32_range l n : ParseUint32 l = Some n -> 0 <= n < 2 ^ 32.
Proof.
  unfold ParseUint32, ParseUint. destruct (String.list_ascii_of_string (soa l)) as [|c cs]; [discriminate|].
  destruct (fold_left parse_step (c :: cs) (Some 0)) as [m|] eqn:E; [|discriminate]. apply parse_step_nonneg in E; [|lia].
  destruct (m <? 2 ^ 64); [|discriminate]. cbn. destruct (Z.ltb_spec m (2 ^ 32)); [|discriminate]. intros [= <-]. lia.
Qed.

Lemma ParseTSMFileName_range name g s : ParseTSMFileName name = Some (g, s) -> 0 <= g < 2 ^ 32 /\ 0 <= s < 2 ^ 32.
Proof.
  unfold ParseTSMFileName. destruct (cut "."%char _) as [[id ext]|]; [|discriminate]. cbn. destruct (cut "-"%char id) as [[a b]|]; [|discriminate]. cbn.
  destruct (ParseUint32 a) as [ga|] eqn:Ea; [|discriminate]. cbn. destruct (ParseUint32 b) as [sb|] eqn:Eb; [|discriminate]. cbn. intros [= <- <-].
  split; eapply ParseUint32_range; eassumption.
Qed.

(** * Writing blocks that are encoded already

    [tsmWriter.WriteBlock] of [writer.go], as the compactor uses it: the blocks of
    one key after the other, without going over the limits.  What is written is a
    TSM file of the values the blocks decode to. *)

Section Blocks.
Context {V D : Type} `{BC : BlockCodec V D} {BL : BlockCodecLaws BC}.
Context (Sort_entries : list IndexEntry -> list IndexEntry).

Definition maxTSMFileSize : Z := 2 ^ 31.

(** Bytes that decode to [vs]. *)
Definition encodes (b : list Z) (vs : list V) : Prop :=
  block_ok vs /\ (exists t, BlockType b = Ok t) /\ forall q, bc_usable q -> exists q', bc_Decode b q = (Some (vs, None), q') /\ bc_usable q'.

(** The blocks of a key: their bytes and their values. *)
Definition bcolumn : Type := list Z * list (list Z * list V).
Definition values_of (c : bcolumn) : column := (c.1, map snd c.2).

Definition bcolumn_ok (c : bcolumn) : Prop :=
  0 < zlen c.1 <= maxKeyLength /\ 0 < zlen c.2 < maxIndexEntries /\ Forall (fun x => encodes x.1 x.2) c.2
  /\ StronglySorted (fun a b => end_of a < start_of b) (map snd c.2).
Definition bcolumns_ok (l : list bcolumn) : Prop :=
  Forall bcolumn_ok l /\ StronglySorted (fun a b => bytes_lt a.1 b.1) l.

(** The calls: key, start, end, bytes. *)
Definition calls_of (c : bcolumn) : list (list Z * Z * Z * list Z) := map (fun x => (c.1, start_of x.2, end_of x.2, x.1)) c.2.
Definition calls (l : list bcolumn) : list (list Z * Z * Z * list Z) := concat (map calls_of l).

Definition bytes_size (l : list bcolumn) : Z := fold_right (fun c n => fold_right (fun x m => zlen x.1 + 4 + m) 0 c.2 + n) 0 l.

Lemma values_ok l : bcolumns_ok l -> columns_ok (map values_of l).
Proof.
  intros [F S]. split.
  - rewrite Forall_map. eapply Forall_impl; [exact F|]. intros c (H1 & H2 & H3 & H4). split; [exact H1|]. cbn. unfold zlen in *. rewrite length_map.
    split; [lia|]. split; [|exact H4]. rewrite Forall_map. eapply Forall_impl; [exact H3|]. intros x [H _]. exact H.
  - clear F. induction S as [|c l S IH F]; cbn; constructor; [exact IH|]. rewrite Forall_map. exact F.
Qed.

(** Calls that succeed and keep the file below the limit. *)
Inductive writes : list (list Z * Z * Z * list Z) -> tsmWriter -> tsmWriter -> Prop :=
| writes_nil t : writes [] t t
| writes_cons key mn mx b l t t1 t2 :
    tw_WriteBlock Sort_entries key mn mx b t = (Ok tt, t1) -> (tw_Size t1 >? maxTSMFileSize) = false -> writes l t1 t2 ->
    writes ((key, mn, mx, b) :: l) t t2.

Lemma writes_app l1 l2 t t1 t2 : writes l1 t t1 -> writes l2 t1 t2 -> writes (l1 ++ l2) t t2.
Proof. intros H H2. induction H as [|key mn mx b l t t1 t3 H1 Hs _ IH]; [exact H2|]. econstructor; eauto. Qed.

(** ** What one call does *)

(** The size the index reports: without the type byte of each key. *)
Definition reported (l : list series) : Z := fold_right (fun s n => 4 + zlen (s_key s) + 28 * zlen (s_entries s) + n) 0 l.

Lemma reported_app l k : reported (l ++ k) = reported l + reported k.
Proof. induction l as [|s l IH]; cbn in *; [reflexivity|]. unfold reported in *. lia. Qed.
Lemma reported_nonneg l : 0 <= reported l.
Proof. induction l as [|s l IH]; cbn; [lia|]. pose proof (zlen_nonneg (s_key s)). pose proof (zlen_nonneg (s_entries s)). unfold reported in *. lia. Qed.

Lemma tw_WriteBlock_run key mn mx b typ t l (data : list (list (list V))) d' :
  wrep t l data -> zlen key <= maxKeyLength -> BlockType b = Ok typ -> zlen (with_header t) + (zlen b + 4) < 2 ^ 31 ->
  di_Add Sort_entries key typ mn mx (zlen (with_header t)) (zlen b + 4) (tw_index t) = (Ok tt, d') ->
  zlen (di_Entries key d') < maxIndexEntries ->
  tw_WriteBlock Sort_entries key mn mx b t
  = (Ok tt, mkTW (with_header t ++ be32 (ChecksumIEEE b) ++ b) (zlen (with_header t) + (zlen b + 4)) d').
Proof.
  intros W Hk T Hz Hadd Hn. pose proof (zlen_nonneg b). pose proof (zlen_nonneg (with_header t)).
  unfold tw_WriteBlock. destruct (Z.gtb_spec (zlen key) maxKeyLength); [lia|]. destruct b as [|b0 bs]; [discriminate|]. set (b := b0 :: bs) in *.
  pose proof (header_once_run t l data W) as Hh.
  unfold of_block. rewrite T. erewrite bind_ok by reflexivity. rewrite (bind_ok _ _ _ _ _ Hh).
  assert (put_block Sort_entries key typ mn mx b (mkTW (with_header t) (zlen (with_header t)) (tw_index t))
    = (Ok tt, mkTW (with_header t ++ be32 (ChecksumIEEE b) ++ b) (zlen (with_header t) + (zlen b + 4)) d')) as Hp.
  { unfold put_block, tw_emit, modify, get, tw_add, tw_advance. do 3 (erewrite bind_ok by reflexivity). cbn [tw_out tw_n tw_index].
    unfold bind. cbn [tw_index tw_n tw_out]. unfold u32. rewrite Z.mod_small by lia. rewrite Hadd.
    unfold modify. cbn [tw_out tw_n tw_index]. rewrite i64_small by lia. rewrite <- app_assoc. reflexivity. }
  rewrite (bind_ok _ _ _ _ _ Hp). unfold get. erewrite bind_ok by reflexivity. cbn [tw_index]. rewrite Z.geb_leb.
  destruct (Z.leb_spec maxIndexEntries (zlen (di_Entries key d'))); [lia|]. reflexivity.
Qed.

Lemma di_Add_size key typ mn mx ofs sz d d' :
  di_Add Sort_entries key typ mn mx ofs sz d = (Ok tt, d') ->
  di_size d' = if bool_decide (di_key d = key /\ key <> []) then u32 (di_size d + 28) else u32 (u32 (u32 (di_size d + u32 (2 + zlen key)) + 2) + 28).
Proof.
  unfold di_Add. destruct (di_key d) as [|k0 ks] eqn:Ek.
  - intros E. injection E as <-. unfold di_start. cbn [di_size]. rewrite bool_decide_eq_false_2; [reflexivity|]. intros [<- H]. congruence.
  - destruct (bytes_compare (k0 :: ks) key) eqn:Ec; intros E; [| |discriminate]; injection E as <-.
    + apply bytes_compare_eq in Ec. rewrite bool_decide_eq_true_2; [reflexivity|]. subst key. split; [reflexivity|discriminate].
    + rewrite bool_decide_eq_false_2; [|intros [<- _]; exact (bytes_lt_irrefl _ Ec)]. unfold di_start. cbn [di_size].
      unfold di_flush. rewrite Ek. destruct (_ >? _); reflexivity.
Qed.

(** ** A run of calls *)

Definition room (t : tsmWriter) (l : list series) : Z := 2 ^ 31 - (zlen (with_header t) + reported l).

Record brep (t : tsmWriter) (l : list series) (data : list (list (list V))) : Prop := {
  br_rep : wrep t l data;
  br_size : di_size (tw_index t) = reported l }.

Lemma Size_below t l data : brep t l data -> 0 <= room t l -> tw_out t <> [] -> (tw_Size t >? maxTSMFileSize) = false.
Proof.
  intros [W S] Hr Hne. unfold tw_Size, maxTSMFileSize, room in *. rewrite S, (wr_n _ _ _ W). pose proof (reported_nonneg l). pose proof (zlen_nonneg (tw_out t)).
  assert (with_header t = tw_out t) as E by (unfold with_header; destruct (tw_out t); [congruence|reflexivity]). rewrite E in Hr.
  unfold u32. rewrite (Z.mod_small (zlen (tw_out t))) by lia. rewrite Z.mod_small by lia. rewrite Z.gtb_ltb. apply Z.ltb_ge. lia.
Qed.

(** What the index holds for the key that was added last. *)
Lemma Entries_last d l s : di_rep d (l ++ [s]) -> di_Entries (s_key s) d = s_entries s.
Proof.
  intros (_ & [(E & _)|(done & s' & E & _ & Hk & Hne & _ & He)]); [destruct l; discriminate|]. apply app_inj_tail in E as [_ <-].
  unfold di_Entries. rewrite Hk, He. destruct (s_key s) as [|k ks] eqn:Es; [congruence|]. rewrite decide_True by reflexivity. reflexivity.
Qed.

Lemma put_same t done s data vss b vs :
  brep t (done ++ [s]) (data ++ [vss]) -> 0 < zlen (s_key s) <= maxKeyLength -> encodes b vs -> zlen (s_entries s) + 1 < maxIndexEntries ->
  zlen b + 4 + 28 < room t (done ++ [s]) ->
  exists t' s', tw_WriteBlock Sort_entries (s_key s) (start_of vs) (end_of vs) b t = (Ok tt, t') /\ (tw_Size t' >? maxTSMFileSize) = false
    /\ s_key s' = s_key s /\ brep t' (done ++ [s']) (data ++ [vss ++ [vs]]) /\ zlen (s_entries s') = zlen (s_entries s) + 1
    /\ zlen (with_header t') = zlen (with_header t) + (zlen b + 4) /\ room t' (done ++ [s']) = room t (done ++ [s]) - (zlen b + 4 + 28).
Proof.
  intros [W S] Hk (Hb & [typ Ht] & R) Hn Hr. pose proof (reported_nonneg (done ++ [s])) as Hp. unfold room in Hr. pose proof (zlen_nonneg b).
  destruct (di_Add_same Sort_entries _ _ _ typ (start_of vs) (end_of vs) (zlen (with_header t)) (zlen b + 4) (wr_index _ _ _ W)) as (d' & Ea & Hd).
  set (s' := mkSeries (s_key s) (s_type s) (s_entries s ++ [mkEntry (start_of vs) (end_of vs) (zlen (with_header t)) (zlen b + 4)])) in *.
  assert (zlen (s_entries s') = zlen (s_entries s) + 1) as Hse by (cbn [s' s_entries]; rewrite zlen_app; reflexivity).
  assert (di_size d' = reported (done ++ [s'])) as Sd.
  { rewrite (di_Add_size _ _ _ _ _ _ _ _ Ea). destruct (wr_index _ _ _ W) as (_ & [(E & _)|(dn & s0 & E & _ & Hk0 & Hne0 & _)]); [destruct done; discriminate|].
    apply app_inj_tail in E as [_ <-]. rewrite bool_decide_eq_true_2 by auto. rewrite S, !reported_app in *. cbn [reported fold_right] in *. rewrite Hse. cbn [s' s_key].
    unfold u32. pose proof (reported_nonneg done). pose proof (zlen_nonneg (s_key s)). pose proof (zlen_nonneg (s_entries s)). pose proof (zlen_nonneg (with_header t)). rewrite Z.mod_small by lia. lia. }
  destruct (wrep_put t _ _ (done ++ [s']) (data ++ [vss ++ [vs]]) b vs _ d' W Hb ltac:(lia) R eq_refl Hd) as [W' L'].
  { intros out H0 He. apply Forall2_app_inv in H0 as [H1 H2]; [|apply Forall2_length in H0; rewrite !length_app in H0; cbn in H0; lia].
    apply Forall2_app; [exact H1|]. constructor; [|constructor]. cbn. apply Forall2_app; [|constructor; [exact He|constructor]]. inversion H2; assumption. }
  pose proof (Entries_last d' done s' Hd) as El. cbn [s' s_key] in El. fold s' in El.
  eexists _, s'. split; [eapply (tw_WriteBlock_run _ _ _ _ typ); eauto; [lia|lia|rewrite El, Hse; exact Hn]|].
  assert (room (mkTW (with_header t ++ be32 (ChecksumIEEE b) ++ b) (zlen (with_header t) + (zlen b + 4)) d') (done ++ [s']) = room t (done ++ [s]) - (zlen b + 4 + 28)) as Er.
  { unfold room. rewrite L', !reported_app. cbn [reported fold_right]. rewrite Hse. cbn [s' s_key]. lia. }
  assert (brep (mkTW (with_header t ++ be32 (ChecksumIEEE b) ++ b) (zlen (with_header t) + (zlen b + 4)) d') (done ++ [s']) (data ++ [vss ++ [vs]])) as B' by (split; [exact W'|exact Sd]).
  split; [apply (Size_below _ _ _ B'); [rewrite Er; unfold room; lia|]|].
  { cbn [tw_out]. destruct (wr_head _ _ _ W) as [body ->]. discriminate. }
  split; [reflexivity|]. split; [exact B'|]. split; [exact Hse|]. split; [exact L'|exact Er].
Qed.

Lemma put_new t l data key b vs :
  brep t l data -> 0 < zlen key <= maxKeyLength -> encodes b vs -> 
  Forall (fun s => bytes_lt (s_key s) key) l -> Forall (fun s => zlen (s_entries s) <= maxIndexEntries /\ entries_sorted (s_entries s) = true) l ->
  zlen b + 4 + (32 + zlen key) < room t l ->
  exists t' s', tw_WriteBlock Sort_entries key (start_of vs) (end_of vs) b t = (Ok tt, t') /\ (tw_Size t' >? maxTSMFileSize) = false
    /\ s_key s' = key /\ brep t' (l ++ [s']) (data ++ [[vs]]) /\ zlen (s_entries s') = 1
    /\ zlen (with_header t') = zlen (with_header t) + (zlen b + 4) /\ room t' (l ++ [s']) = room t l - (zlen b + 4 + (32 + zlen key)).
Proof.
  intros [W S] Hk (Hb & [typ Ht] & R) Hlt Hok Hr. pose proof (reported_nonneg l) as Hp. unfold room in Hr. pose proof (zlen_nonneg b). pose proof (zlen_nonneg (with_header t)).
  assert (key <> []) as Hne by (intros ->; unfold zlen in Hk; cbn in Hk; lia).
  destruct (di_Add_new Sort_entries _ _ key typ (start_of vs) (end_of vs) (zlen (with_header t)) (zlen b + 4) (wr_index _ _ _ W) Hne Hlt Hok) as (d' & Ea & Hd).
  set (s' := mkSeries key typ [mkEntry (start_of vs) (end_of vs) (zlen (with_header t)) (zlen b + 4)]) in *.
  assert (di_size d' = reported (l ++ [s'])) as Sd.
  { rewrite (di_Add_size _ _ _ _ _ _ _ _ Ea). rewrite bool_decide_eq_false_2.
    - rewrite S, reported_app. cbn [reported fold_right s' s_key s_entries]. change (zlen [_]) with 1. unfold u32. rewrite (Z.mod_small (2 + zlen key)) by lia.
      rewrite (Z.mod_small (reported l + (2 + zlen key))) by lia. rewrite (Z.mod_small (reported l + (2 + zlen key) + 2)) by lia. rewrite Z.mod_small by lia. lia.
    - intros [E _]. destruct (wr_index _ _ _ W) as (_ & [(_ & E0 & _)|(dn & s0 & El & _ & Hk0 & _)]); [congruence|].
      subst l. apply Forall_app in Hlt as [_ Hlt]. rewrite Forall_singleton in Hlt. rewrite <- Hk0, E in Hlt. exact (bytes_lt_irrefl _ Hlt). }
  destruct (wrep_put t _ _ (l ++ [s']) (data ++ [[vs]]) b vs _ d' W Hb ltac:(lia) R eq_refl Hd) as [W' L'].
  { intros out Hf He. apply Forall2_app; [exact Hf|]. constructor; [|constructor]. cbn. constructor; [exact He|constructor]. }
  pose proof (Entries_last d' l s' Hd) as El. cbn [s' s_key] in El. fold s' in El.
  eexists _, s'. split; [eapply (tw_WriteBlock_run _ _ _ _ typ); eauto; [lia|lia|rewrite El; change (zlen (s_entries s')) with 1; unfold maxIndexEntries; lia]|].
  assert (room (mkTW (with_header t ++ be32 (ChecksumIEEE b) ++ b) (zlen (with_header t) + (zlen b + 4)) d') (l ++ [s']) = room t l - (zlen b + 4 + (32 + zlen key))) as Er.
  { unfold room. rewrite L', !reported_app. cbn [reported fold_right s' s_key s_entries]. change (zlen [_]) with 1. lia. }
  assert (brep (mkTW (with_header t ++ be32 (ChecksumIEEE b) ++ b) (zlen (with_header t) + (zlen b + 4)) d') (l ++ [s']) (data ++ [[vs]])) as B' by (split; [exact W'|exact Sd]).
  split; [apply (Size_below _ _ _ B'); [rewrite Er; unfold room; lia|]|].
  { cbn [tw_out]. destruct (wr_head _ _ _ W) as [body ->]. discriminate. }
  split; [reflexivity|]. split; [exact B'|]. split; [reflexivity|]. split; [exact L'|exact Er].
Qed.

(** The rest of the blocks of a key. *)
Definition blocks_cost (l : list (list Z * list V)) : Z := fold_right (fun x m => zlen x.1 + 4 + 28 + m) 0 l.
Definition cost (l : list bcolumn) : Z := fold_right (fun c n => 4 + zlen c.1 + blocks_cost c.2 + n) 0 l.

Lemma blocks_cost_nonneg l : 0 <= blocks_cost l.
Proof. induction l as [|x l IH]; cbn; [lia|]. pose proof (zlen_nonneg x.1). unfold blocks_cost in *. lia. Qed.
Lemma cost_nonneg l : 0 <= cost l.
Proof. induction l as [|c l IH]; cbn; [lia|]. pose proof (zlen_nonneg c.1). pose proof (blocks_cost_nonneg c.2). unfold cost in *. lia. Qed.

Lemma put_rest xs t done s data pre :
  brep t (done ++ [s]) (data ++ [pre]) -> 0 < zlen (s_key s) <= maxKeyLength -> Forall (fun x => encodes x.1 x.2) xs ->
  zlen (s_entries s) + zlen xs < maxIndexEntries -> blocks_cost xs < room t (done ++ [s]) ->
  exists t' s', writes (map (fun x => (s_key s, start_of x.2, end_of x.2, x.1)) xs) t t' /\ s_key s' = s_key s
    /\ brep t' (done ++ [s']) (data ++ [pre ++ map snd xs])
    /\ zlen (with_header t') = zlen (with_header t) + fold_right (fun x m => zlen x.1 + 4 + m) 0 xs
    /\ room t' (done ++ [s']) = room t (done ++ [s]) - blocks_cost xs.
Proof.
  revert t s pre. induction xs as [|[b vs] xs IH]; intros t s pre B Hk F Hn Hr; cbn [map fold_right blocks_cost fst snd] in *.
  - exists t, s. rewrite app_nil_r. split; [constructor|]. split; [reflexivity|]. split; [exact B|]. lia.
  - apply Forall_cons in F as [Hb F]. cbn [fst snd] in Hb. fold (blocks_cost xs) in *. pose proof (blocks_cost_nonneg xs). rewrite zlen_cons in Hn. pose proof (zlen_nonneg xs).
    destruct (put_same t done s data pre b vs B Hk Hb ltac:(lia) ltac:(lia)) as (t1 & s1 & E1 & Z1 & K1 & B1 & N1 & L1 & R1).
    destruct (IH t1 s1 (pre ++ [vs]) B1 ltac:(rewrite K1; exact Hk) F ltac:(lia) ltac:(lia)) as (t2 & s2 & E2 & K2 & B2 & L2 & R2).
    exists t2, s2. rewrite K1 in E2, K2. split; [econstructor; eassumption|]. split; [exact K2|]. rewrite <- app_assoc in B2. split; [exact B2|]. lia.
Qed.

Lemma put_columns cs t l dn :
  brep t l (map (fun c => map snd c.2) dn) -> map s_key l = map fst dn -> bcolumns_ok (dn ++ cs) -> cost cs < room t l ->
  exists t' l', writes (calls cs) t t' /\ brep t' l' (map (fun c => map snd c.2) (dn ++ cs)) /\ map s_key l' = map fst (dn ++ cs)
    /\ zlen (with_header t') = zlen (with_header t) + bytes_size cs.
Proof.
  revert t l dn. induction cs as [|[key xs] cs IH]; intros t l dn B Hkeys Hok Hr.
  - exists t, l. rewrite app_nil_r. split; [constructor|]. cbn. split; [exact B|]. split; [exact Hkeys|lia].
  - pose proof Hok as [Hc Hs]. pose proof Hc as Hc'. apply Forall_app in Hc' as [Hdn Hcs]. apply Forall_cons in Hcs as [(Hlen & Hn & Hb & Ho) Hcs].
    cbn [fst snd cost fold_right] in *. fold (cost cs) in Hr. destruct xs as [|[b vs] xs]; [unfold zlen in Hn; cbn in Hn; lia|].
    apply Forall_cons in Hb as [Hb1 Hb]. cbn [fst snd blocks_cost fold_right] in *. fold (blocks_cost xs) in Hr. pose proof (blocks_cost_nonneg xs). pose proof (cost_nonneg cs).
    assert (Forall (fun s => bytes_lt (s_key s) key) l) as Hlt.
    { assert (Forall (fun k => bytes_lt k key) (map s_key l)) as F; [|rewrite Forall_map in F; exact F].
      rewrite Hkeys, Forall_map. apply Forall_forall. intros c Hin. exact (sorted_app_elem _ _ _ _ _ Hs Hin ltac:(left)). }
    assert (Forall (fun s => zlen (s_entries s) <= maxIndexEntries /\ entries_sorted (s_entries s) = true) l) as Hsorted.
    { apply (series_of_columns (tw_out t) l (map values_of dn)).
      - rewrite map_map. exact (wr_data _ _ _ (br_rep _ _ _ B)).
      - assert (bcolumns_ok dn) as Hd by (split; [exact Hdn|]; apply StronglySorted_app_1_l in Hs; exact Hs). apply (values_ok dn Hd). }
    destruct (put_new t l _ key b vs B Hlen Hb1 Hlt Hsorted ltac:(lia)) as (t1 & s1 & E1 & Z1 & K1 & B1 & N1 & L1 & R1).
    rewrite zlen_cons in Hn. destruct (put_rest xs t1 l s1 _ [vs] B1 ltac:(rewrite K1; exact Hlen) Hb ltac:(lia) ltac:(lia)) as (t2 & s2 & E2 & K2 & B2 & L2 & R2).
    destruct (IH t2 (l ++ [s2]) (dn ++ [(key, (b, vs) :: xs)])) as (t3 & l3 & E3 & B3 & K3 & L3).
    + rewrite map_app. exact B2.
    + rewrite !map_app, Hkeys. cbn. rewrite K2, K1. reflexivity.
    + rewrite <- app_assoc. exact Hok.
    + lia.
    + exists t3, l3. rewrite <- app_assoc in B3, K3. split; [|split; [exact B3|split; [exact K3|]]].
      * unfold calls. cbn [map concat calls_of fst snd]. rewrite K1 in E2. change (?x :: ?y ++ ?z) with ((x :: y) ++ z). eapply writes_app; [|exact E3]. econstructor; eassumption.
      * cbn [bytes_size fold_right fst snd]. fold (bytes_size cs). lia.
Qed.

Lemma cost_split cs : bcolumns_ok cs -> cost cs <= bytes_size cs + index_size (map values_of cs).
Proof.
  intros _. induction cs as [|c cs IH]; [cbn; lia|]. cbn [cost bytes_size index_size fold_right map values_of fst snd] in *.
  fold (cost cs) (bytes_size cs) in *. unfold index_size in IH.
  assert (blocks_cost c.2 = fold_right (fun x m => zlen x.1 + 4 + m) 0 c.2 + 28 * zlen (map snd c.2)) as ->.
  { clear IH. induction c.2 as [|x l IH2]; [reflexivity|]. cbn [blocks_cost fold_right map]. fold (blocks_cost l). rewrite IH2, zlen_cons. lia. }
  lia.
Qed.

(** All the calls and the index: a file of the columns. *)
Lemma write_calls cs :
  bcolumns_ok cs -> cs <> [] -> 13 + bytes_size cs + index_size (map values_of cs) < 2 ^ 31 ->
  exists t t', writes (calls cs) NewTSMWriter t /\ tw_WriteIndex Sort_entries t = (Ok tt, t')
    /\ tsm_file (tw_out t') (map values_of cs) /\ zlen (tw_out t') = 13 + bytes_size cs + index_size (map values_of cs).
Proof.
  intros Hok Hne Hz. pose proof (cost_split cs Hok) as Hcost.
  destruct (put_columns cs NewTSMWriter [] []) as (t & l & E & B & K & L).
  - split; [|reflexivity]. split; [reflexivity|change (5 < 2 ^ 31); lia|exists []; reflexivity|split; [reflexivity|left; auto]|constructor].
  - reflexivity.
  - exact Hok.
  - unfold room. change (with_header NewTSMWriter) with header. rewrite header_length. cbn [reported fold_right]. lia.
  - cbn [app] in *. assert (wrep t l (map snd (map values_of cs))) as W by (rewrite map_map; apply B).
    assert (map s_key l = map fst (map values_of cs)) as K' by (rewrite map_map; exact K).
    destruct (finish_file Sort_entries t l (map values_of cs) W K' (values_ok cs Hok) ltac:(destruct cs; [contradiction|discriminate])) as (t' & Ei & Hf & Hl').
    exists t, t'. split; [exact E|]. split; [exact Ei|]. split; [exact Hf|].
    rewrite Hl', L. change (with_header NewTSMWriter) with header. rewrite header_length. lia.
Qed.
End Blocks.
