(* ===== verification/Compactor.v ===== *)
(** * The compactor

    [Compactor] of [tsdb/engine/tsm1/compact.go]: the flags and channels that turn
    it off, the set of files in use, and writing what a key iterator hands out to
    new TSM files.  The directory is its files; opening and removing a file may
    fail.  What other goroutines do to the flags and channels while a compaction
    runs is an environment that is consulted where the code looks at them. *)

From Stdlib Require Import Ascii.
From S2P Require Import Prelude Bytes Varint Blocks TSMWriter TSMIndex Tombstone TSMReader TSMNames OSFile KeyIterator.
From S2P Require Import Simple8b BitReader FloatCodec StringCodec.

Inductive cerr :=
| errMaxFileExceeded
| errSnapshotsDisabled
| errCompactionsDisabled
| errCompactionInProgress
| errCompactionAborted
| errNamed               (* "file %s is named incorrectly" *)
| errRemove              (* an error of os.Remove or os.RemoveAll *)
| EWriter (e : werr).

(** ** Key iterators *)

(** The interface [KeyIterator].  [Read] is told whether the interrupt channel is
    closed. *)
Class KeyIter (I : Type) := {
  kit_Next : I -> res werr (bool * I);
  kit_Read : bool -> I -> res werr (((list Z * Z * Z * list Z) + cerr) * I);
  kit_Err : I -> option cerr }.

(** The iterator over TSM files. *)
Section Files.
Context `{S8 : Simple8b} `{SN : Snappy} `{BS : BitStream} `{BU : BytesUtil} (p : encoders) (q : decoders).

Definition tsm_iter : KeyIter tsmKeyIterator := {|
  kit_Next := ki_Next p q;
  kit_Read interrupted k :=
    Ok (if interrupted then inr errCompactionAborted
        else match ki_Read false k with (_, Some e) => inr (EWriter e) | (x, None) => inl x end, k);
  kit_Err k := EWriter <$> ki_Err k |}.
End Files.

(** ** The compactor itself *)

(** A channel that is only ever closed. *)
Inductive chan := NilChan | OpenChan | ClosedChan.
#[export] Instance chan_eq_dec : EqDecision chan.
Proof. solve_decision. Defined.

(** [c_files] is nil until [Open]. *)
Record Compactor := mkCompactor {
  c_Size : Z; c_snapshotsEnabled : bool; c_compactionsEnabled : bool;
  c_snapshotsInterrupt : chan; c_compactionsInterrupt : chan; c_files : option (gset string) }.

Definition Compactor_Open (c : Compactor) : Compactor :=
  if c_snapshotsEnabled c || c_compactionsEnabled c then c
  else mkCompactor (c_Size c) true true OpenChan OpenChan (Some ∅).

(** [close] of a channel; closing a closed one panics. *)
Definition close_chan (ch : chan) : option chan :=
  match ch with NilChan => Some NilChan | OpenChan => Some ClosedChan | ClosedChan => None end.

(** [None] is a panic. *)
Definition Compactor_Close (c : Compactor) : option Compactor :=
  if negb (c_snapshotsEnabled c || c_compactionsEnabled c) then Some c
  else ci ← close_chan (c_compactionsInterrupt c); si ← close_chan (c_snapshotsInterrupt c);
       Some (mkCompactor (c_Size c) false false si ci (c_files c)).

Definition DisableSnapshots (c : Compactor) : option Compactor :=
  _ ← close_chan (c_snapshotsInterrupt c);
  Some (mkCompactor (c_Size c) false (c_compactionsEnabled c) NilChan (c_compactionsInterrupt c) (c_files c)).

Definition EnableSnapshots (c : Compactor) : Compactor :=
  mkCompactor (c_Size c) true (c_compactionsEnabled c)
    (match c_snapshotsInterrupt c with NilChan => OpenChan | ch => ch end) (c_compactionsInterrupt c) (c_files c).

Definition DisableCompactions (c : Compactor) : option Compactor :=
  _ ← close_chan (c_compactionsInterrupt c);
  Some (mkCompactor (c_Size c) (c_snapshotsEnabled c) false (c_snapshotsInterrupt c) NilChan (c_files c)).

Definition EnableCompactions (c : Compactor) : Compactor :=
  mkCompactor (c_Size c) (c_snapshotsEnabled c) true (c_snapshotsInterrupt c)
    (match c_compactionsInterrupt c with NilChan => OpenChan | ch => ch end) (c_files c).

Definition set_files (fs : option (gset string)) (c : Compactor) : Compactor :=
  mkCompactor (c_Size c) (c_snapshotsEnabled c) (c_compactionsEnabled c) (c_snapshotsInterrupt c) (c_compactionsInterrupt c) fs.

(** Writing to the nil map panics. *)
Definition Compactor_add (files : list string) (c : Compactor) : option (bool * Compactor) :=
  let used := default ∅ (c_files c) in
  if existsb (fun f => bool_decide (f ∈ used)) files then Some (false, c)
  else match files, c_files c with
       | [], _ => Some (true, c)
       | _, None => None
       | _, Some s => Some (true, set_files (Some (list_to_set files ∪ s)) c)
       end.

Definition Compactor_remove (files : list string) (c : Compactor) : Compactor :=
  set_files ((fun s => s ∖ list_to_set files) <$> c_files c) c.

(** ** Writing *)

(** What the other goroutines have done when the loop looks: whether snapshots or
    compactions are still enabled, and whether the interrupt channel is closed. *)
Record event := mkEvent { ev_enabled : bool; ev_interrupted : bool }.
Definition quiet : event := mkEvent true false.

(** The directory, with the outcome of the next calls of the system: [false] is
    a failure, and calls after the end of the list succeed. *)
Record cdir := mkDir { cd_files : gmap string (list Z); cd_plan : list bool }.

Definition cd_tick (d : cdir) : bool * cdir :=
  match cd_plan d with [] => (true, d) | b :: r => (b, mkDir (cd_files d) r) end.

(** [O_CREATE|O_EXCL] *)
Definition cd_create (name : string) (d : cdir) : bool * cdir :=
  let '(ok, d) := cd_tick d in
  if ok && negb (bool_decide (is_Some (cd_files d !! name))) then (true, mkDir (<[name := []]> (cd_files d)) (cd_plan d)) else (false, d).

Definition cd_put (name : string) (b : list Z) (d : cdir) : cdir := mkDir (<[name := b]> (cd_files d)) (cd_plan d).

(** [os.Remove]: an absent file is an error; [os.RemoveAll]: it is not. *)
Definition cd_remove (name : string) (d : cdir) : bool * cdir :=
  let '(ok, d) := cd_tick d in
  if ok && bool_decide (is_Some (cd_files d !! name)) then (true, mkDir (delete name (cd_files d)) (cd_plan d)) else (false, d).
Definition cd_removeAll (name : string) (d : cdir) : bool * cdir :=
  let '(ok, d) := cd_tick d in
  if ok then (true, mkDir (delete name (cd_files d)) (cd_plan d)) else (false, d).

Section Writing.
Context {V D : Type} `{BC : BlockCodec V D} (Sort_entries : list IndexEntry -> list IndexEntry).
Context {I : Type} `{KI : !KeyIter I}.

Definition index_then (e : cerr) (w : tsmWriter) : res werr (option cerr) * tsmWriter :=
  match tw_WriteIndex Sort_entries w with
  | (Ok _, w) => (Ok (Some e), w)
  | (Err x, w) => (Ok (Some (EWriter x)), w)
  | (Panic, w) => (Panic, w)
  end.

(** The loop of [write]: the error it returns, the writer, the iterator and the
    events to come.  [Err] is the end of the fuel. *)
Fixpoint write_loop (fuel : nat) (w : tsmWriter) (it : I) (env : list event) : res werr (option cerr) * tsmWriter * I * list event :=
  match fuel with
  | O => (Err (ErrFormat "out of fuel"), w, it, env)
  | S fuel' =>
      match kit_Next it with
      | Ok (true, it) =>
          let ev := default quiet (head env) in
          let env := drop 1 env in
          if negb (ev_enabled ev) then (Ok (Some errCompactionAborted), w, it, env)
          else match kit_Read (ev_interrupted ev) it with
               | Ok (inl (key, minTime, maxTime, block), it) =>
                   match tw_WriteBlock Sort_entries key minTime maxTime block w with
                   | (Err ErrMaxBlocksExceeded, w) => let '(r, w) := index_then (EWriter ErrMaxBlocksExceeded) w in (r, w, it, env)
                   | (Err e, w) => (Ok (Some (EWriter e)), w, it, env)
                   | (Panic, w) => (Panic, w, it, env)
                   | (Ok _, w) =>
                       if tw_Size w >? maxTSMFileSize then let '(r, w) := index_then errMaxFileExceeded w in (r, w, it, env)
                       else write_loop fuel' w it env
                   end
               | Ok (inr e, it) => (Ok (Some e), w, it, env)
               | Err e => (Err e, w, it, env)
               | Panic => (Panic, w, it, env)
               end
      | Ok (false, it) =>
          match kit_Err it with
          | Some e => (Ok (Some e), w, it, env)
          | None => match tw_WriteIndex Sort_entries w with
                    | (Ok _, w) => (Ok None, w, it, env)
                    | (Err e, w) => (Ok (Some (EWriter e)), w, it, env)
                    | (Panic, w) => (Panic, w, it, env)
                    end
          end
      | Err e => (Err e, w, it, env)
      | Panic => (Panic, w, it, env)
      end
  end.

(** [NewTSMWriter] on a file: unless it is the first of its generation (or named
    like one) the index goes through a file of its own beside it, which is removed
    when the writer is closed. *)
Definition disk_index (path : string) : bool := negb (has_suffix path (chars "01.tsm.tmp")).

Definition idx_name (path : string) : string :=
  String.string_of_list_ascii ((if has_suffix path (dot_tsm ++ dot_tmp) then take (length (chars path) - 8) (chars path) else chars path) ++ chars ".idx.tmp").

Definition open_index (path : string) (d : cdir) : bool * cdir :=
  if disk_index path then cd_create (idx_name path) d else (true, d).
Definition close_index (path : string) (d : cdir) : bool * cdir :=
  if disk_index path then cd_remove (idx_name path) d else (true, d).

(** [w.Remove]: the index first; after its error, as when [Close] has removed the
    index already, the file stays. *)
Definition w_Remove (path : string) (d : cdir) : cdir :=
  if disk_index path then
    match cd_remove (idx_name path) d with (true, d) => (cd_remove path d).2 | (false, d) => d end
  else (cd_remove path d).2.

(** Errors after which the file stays. *)
Definition keeps_file (e : cerr) : bool :=
  match e with errCompactionInProgress | errMaxFileExceeded | EWriter ErrMaxBlocksExceeded => true | _ => false end.

(** The deferred function: closing the writer, and removing what it wrote after an
    error. *)
Definition finish_write (path : string) (err : option cerr) (d : cdir) : option cerr * cdir :=
  let '(closed, d) := close_index path d in
  let err := match err with Some e => Some e | None => if closed then None else Some errRemove end in
  match err with
  | Some e => (Some e, if keeps_file e then d else w_Remove path d)
  | None => (None, d)
  end.

(** The error returned, the directory, the iterator, the events.  Closing flushes
    what was written; writing, flushing and syncing the two files do not fail here,
    and of the index file only its presence is modelled: its contents are copied
    behind the blocks before it is removed. *)
Definition Compactor_write (fuel : nat) (path : string) (it : I) (env : list event) (d : cdir)
    : res werr (option cerr) * cdir * I * list event :=
  match cd_create path d with
  | (false, d) => (Ok (Some errCompactionInProgress), d, it, env)
  | (true, d) =>
      match open_index path d with
      | (false, d) => (Ok (Some (EWriter (ErrFormat "open index"))), d, it, env)
      | (true, d) =>
          let '(r, w, it, env) := write_loop fuel NewTSMWriter it env in
          let d := cd_put path (tw_out w) d in
          match r with
          | Ok err => let '(err, d) := finish_write path err d in (Ok err, d, it, env)
          | r => (r, d, it, env)
          end
      end
  end.

(** [for _, f := range files { os.RemoveAll(f) }], stopping at an error. *)
Fixpoint remove_files (files : list string) (d : cdir) : bool * cdir :=
  match files with
  | [] => (true, d)
  | f :: files' => match cd_removeAll f d with (true, d) => remove_files files' d | r => r end
  end.

(** The files written or an error.  [n] bounds the number of files. *)
Fixpoint writeNewFiles (n fuel : nat) (generation sequence : Z) (files : list string) (it : I) (env : list event) (d : cdir)
    : res werr (list string + cerr) * cdir * I * list event :=
  match n with
  | O => (Err (ErrFormat "out of fuel"), d, it, env)
  | S n' =>
      let sequence := sequence + 1 in
      let fileName := tmp_name generation sequence in
      match Compactor_write fuel fileName it env d with
      | (Ok None, d, it, env) => (Ok (inl (files ++ [fileName])), d, it, env)
      | (Ok (Some err), d, it, env) =>
          match err with
          | errMaxFileExceeded | EWriter ErrMaxBlocksExceeded =>
              writeNewFiles n' fuel generation sequence (files ++ [fileName]) it env d
          | EWriter ErrNoValues =>
              match cd_removeAll fileName d with
              | (true, d) => (Ok (inl files), d, it, env)
              | (false, d) => (Ok (inr errRemove), d, it, env)
              end
          | errCompactionInProgress => (Ok (inr err), d, it, env)
          | _ =>
              match remove_files files d with
              | (false, d) => (Ok (inr errRemove), d, it, env)
              | (true, d) => match cd_removeAll fileName d with
                             | (true, d) => (Ok (inr err), d, it, env)
                             | (false, d) => (Ok (inr errRemove), d, it, env)
                             end
              end
          end
      | (Err e, d, it, env) => (Err e, d, it, env)
      | (Panic, d, it, env) => (Panic, d, it, env)
      end
  end.
End Writing.

(** [removeTmpFiles]: [os.Remove], stopping at an error. *)
Fixpoint removeTmpFiles (files : list string) (d : cdir) : bool * cdir :=
  match files with
  | [] => (true, d)
  | f :: files' => match cd_remove f d with (true, d) => removeTmpFiles files' d | r => r end
  end.

(** ** Compacting files *)

Definition DefaultMaxPointsPerBlock : Z := 1000.

(** The greatest generation and the greatest sequence within it. *)
Definition max_step (m : Z * Z) (x : Z * Z) : Z * Z :=
  let '(maxGeneration, maxSequence) := m in
  let '(gen, seq) := x in
  let m := if gen >? maxGeneration then (gen, seq) else (maxGeneration, maxSequence) in
  if (gen =? m.1) && (seq >? m.2) then (m.1, seq) else m.

Section Compacting.
Context `{S8 : Simple8b} `{SN : Snappy} `{BS : BitStream} `{BU : BytesUtil} (p : encoders) (q : decoders).
Context {V D : Type} `{BC : BlockCodec V D} (Sort_entries : list IndexEntry -> list IndexEntry).

(** [FileStore.TSMReader]; [None] is nil. *)
Context (fs_TSMReader : string -> option TSMReader).

(** [fuel] bounds the blocks of a file, [n] the files.  The events before the
    readers are opened come first. *)
Definition Compactor_compact (n fuel : nat) (fast : bool) (tsmFiles : list string) (c : Compactor) (env : list event) (d : cdir)
    : res werr (list string + cerr) * cdir :=
  let size := if c_Size c <=? 0 then DefaultMaxPointsPerBlock else c_Size c in
  match mapM ParseTSMFileName tsmFiles with
  | None => (Ok (inr errNamed), d)
  | Some ids =>
      let '(maxGeneration, maxSequence) := fold_left max_step ids (0, 0) in
      if existsb (fun e => ev_interrupted e) (take (length tsmFiles) env) then (Ok (inr errCompactionAborted), d)
      else match mapM fs_TSMReader tsmFiles with
           | None => (Ok (inr errCompactionAborted), d)
           | Some [] => (Ok (inl []), d)
           | Some trs =>
               let '(r, d, _, _) := writeNewFiles (KI := tsm_iter p q) Sort_entries n fuel maxGeneration maxSequence []
                                      (NewTSMKeyIterator size fast trs) (drop (length tsmFiles) env) d in
               (r, d)
           end
  end.

(** [CompactFull] and [CompactFast]; [still] is whether compactions are enabled
    when the files are written. *)
Definition Compactor_run (fast : bool) (n fuel : nat) (tsmFiles : list string) (still : bool) (env : list event) (d : cdir) (c : Compactor)
    : res werr (list string + cerr) * cdir * Compactor :=
  if negb (c_compactionsEnabled c) then (Ok (inr errCompactionsDisabled), d, c)
  else match Compactor_add tsmFiles c with
       | None => (Panic, d, c)
       | Some (false, c) => (Ok (inr errCompactionInProgress), d, c)
       | Some (true, c) =>
           let '(r, d) := Compactor_compact n fuel fast tsmFiles c env d in
           match r with
           | Ok x =>
               let files := match x with inl l => l | inr _ => [] end in
               let '(r, d) :=
                 if still then (Ok x, d)
                 else match removeTmpFiles files d with
                      | (true, d) => (Ok (inr errCompactionsDisabled), d)
                      | (false, d) => (Ok (inr errRemove), d)
                      end in
               (r, d, Compactor_remove tsmFiles c)
           | r => (r, d, Compactor_remove tsmFiles c)
           end
       end.

Definition CompactFull := Compactor_run false.
Definition CompactFast := Compactor_run true.
End Compacting.
