(* ===== verification/CacheIterator.v ===== *)
(** * Writing the cache to TSM files

    [cacheKeyIterator] and [Compactor.WriteSnapshot] of
    [tsdb/engine/tsm1/compact.go].  The goroutines that encode the keys write to
    slots of their own and a key is looked at only after its signal, so that
    encoding is a function of the cache; the encoders they reuse are in whatever
    state they were left in. *)

From S2P Require Import Prelude Varint Blocks TypedValues TSMWriter TSMIndex TSMNames Compactor Ring Cache.
From S2P Require Import Simple8b BitReader FloatCodec StringCodec.

(** ** The iterator *)

Record cacheBlock := mkCB { cb_k : list Z; cb_minTime : Z; cb_maxTime : Z; cb_b : list Z; cb_err : option tsm_error }.

(** [cki_err] is the error that was met last, in the order of the keys. *)
Record cacheKeyIterator := mkCKI { cki_i : Z; cki_blocks : list (list cacheBlock); cki_err : option cerr }.

Section Iterator.
Context `{S8 : Simple8b} `{SN : Snappy} `{BS : BitStream} `{BU : BytesUtil}.
Context (Sum64 : list Z -> Z) (tsdb_EOF : Z).

(** The encoders that are used for a block of a key. *)
Context (enc : list Z -> nat -> encoders).

(** [for len(values) > 0]: the blocks of a key; a panic has no result.  The fuel
    is the number of values. *)
Fixpoint encode_values (fuel n : nat) (size : Z) (key : list Z) (values : list Value) : option (list cacheBlock) :=
  match fuel, values with
  | S fuel', v :: _ =>
      let e := if zlen values >? size then size else zlen values in
      if e <? 1 then None
      else
        let part := take (Z.to_nat e) values in
        match last part, Encode part (enc key n) with
        | Some l, Ok b =>
            rest ← encode_values fuel' (S n) size key (drop (Z.to_nat e) values);
            Some (mkCB key (Value_UnixNano tsdb_EOF v) (Value_UnixNano tsdb_EOF l) b None :: rest)
        | Some l, Err x =>
            rest ← encode_values fuel' (S n) size key (drop (Z.to_nat e) values);
            Some (mkCB key (Value_UnixNano tsdb_EOF v) (Value_UnixNano tsdb_EOF l) [] (Some x) :: rest)
        | _, _ => None
        end
  | _, _ => Some []
  end.

Definition store_keys (s : storer) : list (list Z) := match s with EmptyStore => [] | RingStore r => ring_keys true r end.

Definition encode_key (size : Z) (s : storer) (key : list Z) : option (list cacheBlock) :=
  match st_entry Sum64 s key with
  | Ok (Some e) => encode_values (length (e_values e)) 0 size key (e_values e)
  | Ok None => Some []
  | _ => None
  end.

Definition block_errors (bs : list (list cacheBlock)) : list tsm_error := omap cb_err (concat bs).

(** [NewCacheKeyIterator] on the store of the cache, with [encode]. *)
Definition NewCacheKeyIterator (size : Z) (s : storer) : option cacheKeyIterator :=
  bs ← mapM (encode_key size s) (store_keys s);
  Some (mkCKI (-1) bs ((fun e => EWriter (ErrBlock e)) <$> last (block_errors bs))).

(** The blocks of the current key. *)
Definition cki_current (c : cacheKeyIterator) : option (list cacheBlock) :=
  if cki_i c <? 0 then None else cki_blocks c !! Z.to_nat (cki_i c).

Definition cki_Next (c : cacheKeyIterator) : bool * cacheKeyIterator :=
  let bs := match cki_current c with
            | Some (_ :: l) => <[Z.to_nat (cki_i c) := l]> (cki_blocks c)
            | _ => cki_blocks c
            end in
  match cki_current c with
  | Some (_ :: (_ :: _)) => (true, mkCKI (cki_i c) bs (cki_err c))
  | _ => (cki_i c + 1 <? zlen (cki_blocks c), mkCKI (cki_i c + 1) bs (cki_err c))
  end.

(** Out of range: a panic. *)
Definition cki_Read (interrupted : bool) (c : cacheKeyIterator) : res werr (((list Z * Z * Z * list Z) + cerr) * cacheKeyIterator) :=
  if interrupted then Ok (inr errCompactionAborted, mkCKI (cki_i c) (cki_blocks c) (Some errCompactionAborted))
  else match cki_current c with
       | Some (blk :: _) =>
           Ok (match cb_err blk with
               | Some e => inr (EWriter (ErrBlock e))
               | None => inl (cb_k blk, cb_minTime blk, cb_maxTime blk, cb_b blk)
               end, c)
       | _ => Panic
       end.

Definition cki_Err (c : cacheKeyIterator) : option cerr := cki_err c.

Definition cache_iter : KeyIter cacheKeyIterator :=
  {| kit_Next c := Ok (cki_Next c); kit_Read := cki_Read; kit_Err := cki_Err |}.

(** ** Snapshots *)

(** How many goroutines write, for [GOMAXPROCS] and the number of keys. *)
Definition snapshot_concurrency (procs card : Z) : Z :=
  let maxConcurrency := procs ÷ 2 in
  let maxConcurrency := if maxConcurrency <? 1 then 1 else maxConcurrency in
  let maxConcurrency := if maxConcurrency >? 4 then 4 else maxConcurrency in
  let concurrency := if card >=? 3 * 1024 * 1024 then 4 else if card >=? 1024 * 1024 then 2 else 1 in
  if concurrency >? maxConcurrency then maxConcurrency else concurrency.

(** [FileStore.NextGeneration]: the generation and the counter. *)
Definition NextGeneration (currentGeneration : Z) : Z * Z := (currentGeneration + 1, currentGeneration + 1).

Context {V D : Type} `{BC : BlockCodec V D} (Sort_entries : list IndexEntry -> list IndexEntry).

(** One of the goroutines. *)
Definition write_split (n fuel : nat) (sp : storer) (env : list event) (gen : Z) (d : cdir) : res werr (list string + cerr) * cdir * Z :=
  match NewCacheKeyIterator DefaultMaxPointsPerBlock sp with
  | None => (Panic, d, gen)
  | Some it =>
      let '(g, gen) := NextGeneration gen in
      let '(r, d, _, _) := writeNewFiles (KI := cache_iter) Sort_entries n fuel g 0 [] it env d in (r, d, gen)
  end.

(** The goroutines work on files of their own generation; they are run in the
    order in which they take one, with the events each sees. *)
Fixpoint write_splits (n fuel : nat) (order : list (storer * list event)) (gen : Z) (d : cdir)
    : res werr (list (list string + cerr)) * cdir * Z :=
  match order with
  | [] => (Ok [], d, gen)
  | (sp, env) :: order' =>
      match write_split n fuel sp env gen d with
      | (Ok r, d, gen) =>
          match write_splits n fuel order' gen d with
          | (Ok l, d, gen) => (Ok (r :: l), d, gen)
          | x => x
          end
      | (Err e, d, gen) => (Err e, d, gen)
      | (Panic, d, gen) => (Panic, d, gen)
      end
  end.

(** The results as they arrive: all files, and the last error. *)
Definition arrive (acc : list string * option cerr) (r : list string + cerr) : list string * option cerr :=
  match r with inl fs => (acc.1 ++ fs, acc.2) | inr e => (acc.1, Some e) end.

(** What a schedule decides: the order of the goroutines, with the events each
    sees, and the order in which the results arrive. *)
Record schedule := mkSched { sd_order : list storer -> list (storer * list event); sd_arrival : list (list string + cerr) -> list (list string + cerr) }.

(** [still] is whether snapshots are enabled after writing. *)
Definition WriteSnapshot (procs : Z) (n fuel : nat) (sd : schedule) (still : bool) (cache : Cache) (c : Compactor) (gen : Z) (d : cdir)
    : res werr (list string * option cerr) * cdir * Z :=
  if negb (c_snapshotsEnabled c) then (Ok ([], Some errSnapshotsDisabled), d, gen)
  else
    match c_Split (Z.to_nat (snapshot_concurrency procs (c_Count cache))) cache with
    | Ok splits =>
        match write_splits n fuel (sd_order sd splits) gen d with
        | (Ok l, d, gen) =>
            if still then (Ok (fold_left arrive (sd_arrival sd l) ([], None)), d, gen)
            else (Ok ([], Some errSnapshotsDisabled), d, gen)
        | (Err e, d, gen) => (Err e, d, gen)
        | (Panic, d, gen) => (Panic, d, gen)
        end
    | Err _ => (Err (ErrFormat "split"), d, gen)
    | Panic => (Panic, d, gen)
    end.
End Iterator.
