(* ===== verification/CompactorFacts.v ===== *)
(** * What the compactor writes

    Facts about [Compactor] of [compact.go] for any key iterator: an iterator that
    runs to its end gives one TSM file of the blocks it handed out, a compaction
    that fails leaves the directory as it was, and no file is in two compactions
    at a time. *)

From S2P Require Import Prelude Values Simple8b StringCodec FloatCodec Bytes Varint Blocks TSMWriter TSMIndex TSMIndexFacts TSMDelete Tombstone TSMReader TSMFile TSMDurable TSMNames OSFile KeyIterator Compactor.

(** What an iterator hands out until its end, when it is not interrupted. *)
Inductive yields {I} `{KI : !KeyIter I} : I -> list (list Z * Z * Z * list Z) -> I -> Prop :=
| yields_end it it' : kit_Next it = Ok (false, it') -> kit_Err it' = None -> yields it [] it'
| yields_next it it1 it2 it' c l :
    kit_Next it = Ok (true, it1) -> kit_Read false it1 = Ok (inl c, it2) -> yields it2 l it' -> yields it (c :: l) it'.

Definition undisturbed (env : list event) : Prop := Forall (eq quiet) env.

Lemma undisturbed_head env : undisturbed env -> default quiet (head env) = quiet /\ undisturbed (drop 1 env).
Proof. intros H. destruct H as [|e env <- H]; [split; [reflexivity|constructor]|]. split; [reflexivity|exact H]. Qed.

Section Written.
Context {V D : Type} `{BC : BlockCodec V D} {BL : BlockCodecLaws BC}.
Context (Sort_entries : list IndexEntry -> list IndexEntry).
Context {I : Type} `{KI : !KeyIter I}.

(** The loop over all blocks, up to the index. *)
Lemma write_loop_all fuel w w' it l it' env :
  yields it l it' -> writes Sort_entries l w w' -> undisturbed env -> (length l < fuel)%nat ->
  exists env', undisturbed env' /\ write_loop Sort_entries fuel w it env =
    match tw_WriteIndex Sort_entries w' with
    | (Ok _, w2) => (Ok None, w2, it', env')
    | (Err e, w2) => (Ok (Some (EWriter e)), w2, it', env')
    | (Panic, w2) => (Panic, w2, it', env')
    end.
Proof.
  intros Y. revert fuel w env. induction Y as [it it' N E|it it1 it2 it' [[[key mn] mx] b] l N R Y IH]; intros [|fuel] w env W U F; try (cbn in F; lia).
  - inversion W; subst. exists env. split; [exact U|]. cbn [write_loop]. rewrite N, E. destruct (tw_WriteIndex Sort_entries w') as [[?|?|] ?]; reflexivity.
  - inversion W as [|? ? ? ? ? ? w1 ? Hw Hs W' E1 E2 E3]; subst. destruct (undisturbed_head env U) as [Eh U']. cbn [write_loop].
    rewrite N, Eh. cbn [ev_enabled ev_interrupted quiet negb]. rewrite R, Hw, Hs. apply IH; [exact W'|exact U'|cbn in F; lia].
Qed.

(** A directory where nothing fails. *)
Definition calm (d : cdir) : Prop := cd_plan d = [].

Lemma cd_create_calm name d : calm d -> cd_files d !! name = None -> cd_create name d = (true, cd_put name [] d).
Proof.
  intros C E. destruct d as [fs plan]. unfold calm in C. cbn in *. subst plan. unfold cd_create, cd_tick, cd_put. cbn. rewrite E.
  rewrite bool_decide_eq_false_2 by (intros [x [=]]). reflexivity.
Qed.

Lemma cd_put_put name b b' d : cd_put name b (cd_put name b' d) = cd_put name b d.
Proof. unfold cd_put. cbn. rewrite insert_insert_eq. reflexivity. Qed.

(** *** The file of the index *)

Lemma idx_name_ne path : idx_name path <> path.
Proof.
  intros E. apply (f_equal chars) in E. unfold idx_name in E. rewrite chars_soa in E. destruct (has_suffix path (dot_tsm ++ dot_tmp)) eqn:H.
  - apply has_suffix_iff in H as [base H]. rewrite H, length_app in E. change (length (dot_tsm ++ dot_tmp)) with 8%nat in E.
    rewrite Nat.add_sub, take_app_length in E. apply app_inv_head in E. discriminate.
  - apply (f_equal length) in E. rewrite length_app in E. cbn in E. lia.
Qed.

(** The first file of a generation keeps its index in memory. *)
Lemma disk_index_first gen : disk_index (tmp_name gen 1) = false.
Proof.
  unfold disk_index. assert (has_suffix (tmp_name gen 1) (chars "01.tsm.tmp") = true) as ->; [|reflexivity].
  apply has_suffix_iff. exists (pad9 gen ++ chars "-0000000"). unfold tmp_name. rewrite chars_soa. unfold tsm_chars. rewrite <- !app_assoc. reflexivity.
Qed.

(** The index can be opened. *)
Definition index_free (path : string) (d : cdir) : Prop := disk_index path = true -> cd_files d !! idx_name path = None.

(** The directory while the writer is open. *)
Definition cd_open (path : string) (d : cdir) : cdir :=
  if disk_index path then cd_put (idx_name path) [] (cd_put path [] d) else cd_put path [] d.

Lemma open_index_calm path d : calm d -> index_free path d -> open_index path (cd_put path [] d) = (true, cd_open path d).
Proof.
  intros C F. unfold open_index, cd_open. destruct (disk_index path) eqn:Di; [|reflexivity]. apply cd_create_calm; [exact C|].
  cbn. rewrite lookup_insert_ne by (intros E; exact (idx_name_ne path (eq_sym E))). exact (F Di).
Qed.

Lemma cd_remove_there name d : calm d -> is_Some (cd_files d !! name) -> cd_remove name d = (true, mkDir (delete name (cd_files d)) []).
Proof. intros C H. destruct d as [fs plan]. unfold calm in C. cbn in *. subst plan. unfold cd_remove, cd_tick. cbn. rewrite bool_decide_eq_true_2 by exact H. reflexivity. Qed.

Lemma cd_remove_absent name d : calm d -> cd_files d !! name = None -> cd_remove name d = (false, d).
Proof. intros C H. destruct d as [fs plan]. unfold calm in C. cbn in *. subst plan. unfold cd_remove, cd_tick. cbn. rewrite H. reflexivity. Qed.

Lemma close_index_calm path b d :
  calm d -> index_free path d -> close_index path (cd_put path b (cd_open path d)) = (true, cd_put path b d).
Proof.
  intros C F. pose proof (idx_name_ne path) as Ne. destruct d as [fs plan]. unfold calm in C. cbn in C. subst plan. unfold close_index, cd_open.
  destruct (disk_index path) eqn:Di; [|unfold cd_put; cbn; rewrite insert_insert_eq; reflexivity].
  specialize (F Di). cbn in F. rewrite cd_remove_there; [|reflexivity|cbn; rewrite lookup_insert_ne, lookup_insert_eq by congruence; eauto].
  unfold cd_put. cbn. do 2 f_equal. rewrite delete_insert_ne, delete_insert_eq, delete_insert_ne, (delete_id fs) by congruence. apply insert_insert_eq.
Qed.

(** What is left of a file: it stays after success and after some errors, and
    also when its index was removed with the closing. *)
Lemma finish_write_calm path b err d :
  calm d -> index_free path d -> cd_files d !! path = None ->
  exists d', finish_write path err (cd_put path b (cd_open path d)) = (err, d') /\ calm d'
    /\ match err with
       | Some e => if keeps_file e then d' = cd_put path b d else delete path (cd_files d') = cd_files d
       | None => d' = cd_put path b d
       end.
Proof.
  intros C F N. unfold finish_write. rewrite (close_index_calm _ _ _ C F). destruct err as [e|]; [|exists (cd_put path b d); auto].
  destruct (keeps_file e); [exists (cd_put path b d); auto|]. eexists. split; [reflexivity|]. unfold w_Remove. destruct (disk_index path) eqn:Di.
  - rewrite cd_remove_absent; [|exact C|cbn; rewrite lookup_insert_ne by (intros E; exact (idx_name_ne path (eq_sym E))); exact (F Di)].
    split; [exact C|]. cbn. rewrite delete_insert_eq. apply delete_id, N.
  - rewrite cd_remove_there; [|exact C|cbn; rewrite lookup_insert_eq; eauto]. split; [reflexivity|]. cbn. rewrite delete_insert_eq, (delete_id (delete _ _)) by apply lookup_delete_eq. apply delete_id, N.
Qed.

(** The columns of an iterator that runs to its end, in one new file. *)
Lemma writeNewFiles_one n fuel gen seq it cs it' env d :
  yields it (calls cs) it' -> bcolumns_ok cs -> cs <> [] -> 13 + bytes_size cs + index_size (map values_of cs) < 2 ^ 31 ->
  undisturbed env -> (length (calls cs) < fuel)%nat -> calm d -> cd_files d !! tmp_name gen (seq + 1) = None -> index_free (tmp_name gen (seq + 1)) d ->
  exists b env', writeNewFiles Sort_entries (S n) fuel gen seq [] it env d
      = (Ok (inl [tmp_name gen (seq + 1)]), cd_put (tmp_name gen (seq + 1)) b d, it', env')
    /\ tsm_file b (map values_of cs) /\ zlen b < 2 ^ 31.
Proof.
  intros Y Hok Hne Hz U F C E Fr. destruct (write_calls Sort_entries cs Hok Hne Hz) as (t & t' & W & Wi & T & L).
  destruct (write_loop_all fuel NewTSMWriter t it (calls cs) it' env Y W U F) as (env' & _ & El). rewrite Wi in El.
  exists (tw_out t'), env'. split; [|split; [exact T|lia]]. cbn [writeNewFiles]. unfold Compactor_write. rewrite (cd_create_calm _ _ C E), (open_index_calm _ _ C Fr), El.
  destruct (finish_write_calm (tmp_name gen (seq + 1)) (tw_out t') None d C Fr E) as (d' & -> & _ & ->). reflexivity.
Qed.

(** An iterator without blocks leaves no file. *)
Lemma writeNewFiles_none n fuel gen seq it it' env d :
  yields it [] it' -> undisturbed env -> (0 < fuel)%nat -> calm d -> cd_files d !! tmp_name gen (seq + 1) = None -> index_free (tmp_name gen (seq + 1)) d ->
  exists env', writeNewFiles Sort_entries (S n) fuel gen seq [] it env d = (Ok (inl []), d, it', env').
Proof.
  intros Y U F C E Fr. destruct (write_loop_all fuel NewTSMWriter NewTSMWriter it [] it' env Y ltac:(constructor) U ltac:(cbn; lia)) as (env' & _ & El).
  change (tw_WriteIndex Sort_entries NewTSMWriter) with (@Err werr unit ErrNoValues, NewTSMWriter) in El.
  exists env'. cbn [writeNewFiles]. unfold Compactor_write. rewrite (cd_create_calm _ _ C E), (open_index_calm _ _ C Fr), El.
  destruct (finish_write_calm (tmp_name gen (seq + 1)) (tw_out NewTSMWriter) (Some (EWriter ErrNoValues)) d C Fr E) as (d' & -> & C' & D').
  cbn [keeps_file] in D'. destruct d as [fs plan], d' as [fs' plan']. unfold calm in C, C'. cbn in C, C', D'. subst plan plan' fs. reflexivity.
Qed.

(** ** A compaction that fails *)

Lemma cd_create_spec name d ok d' :
  calm d -> cd_create name d = (ok, d') ->
  calm d' /\ if ok then cd_files d !! name = None /\ cd_files d' = <[name := []]> (cd_files d) else cd_files d' = cd_files d.
Proof.
  destruct d as [fs plan]. unfold calm. cbn [cd_plan]. intros ->. unfold cd_create, cd_tick. cbn. destruct (fs !! name) as [x|] eqn:E.
  - rewrite bool_decide_eq_true_2 by (exists x; reflexivity). intros [= <- <-]. auto.
  - rewrite bool_decide_eq_false_2 by (intros [y [=]]). intros [= <- <-]. auto.
Qed.

Lemma cd_removeAll_spec name d : calm d -> cd_removeAll name d = (true, mkDir (delete name (cd_files d)) []).
Proof. destruct d as [fs plan]. unfold calm. cbn. intros ->. reflexivity. Qed.

Lemma discard_files_spec files d :
  calm d -> exists d', remove_files files d = (true, d') /\ calm d'
    /\ forall f, cd_files d' !! f = if bool_decide (f ∈ files) then None else cd_files d !! f.
Proof.
  revert d. induction files as [|x files IH]; intros d C; cbn [remove_files].
  - exists d. split; [reflexivity|]. split; [exact C|]. reflexivity.
  - rewrite (cd_removeAll_spec x d C). destruct (IH (mkDir (delete x (cd_files d)) []) eq_refl) as (d' & E & C' & H). exists d'. split; [exact E|]. split; [exact C'|].
    intros f. rewrite H. cbn [cd_files]. case_bool_decide as B1; case_bool_decide as B2; try reflexivity.
    + exfalso. apply B2. right. exact B1.
    + apply elem_of_cons in B2 as [-> | B2]; [apply lookup_delete_eq|contradiction].
    + apply lookup_delete_ne. intros ->. apply B2. left.
Qed.

(** The directory holds, besides what it held, the files written so far, each
    under a name of its own. *)
Record listed (d0 : gmap string (list Z)) (files : list string) (d : cdir) : Prop := {
  ls_calm : calm d;
  ls_new : Forall (fun f => d0 !! f = None) files;
  ls_old f : f ∉ files -> cd_files d !! f = d0 !! f;
  ls_nodup : NoDup files;
  ls_there : Forall (fun f => is_Some (cd_files d !! f)) files }.

Lemma listed_removed d0 files d d' :
  listed d0 files d -> (forall f, cd_files d' !! f = if bool_decide (f ∈ files) then None else cd_files d !! f) -> cd_files d' = d0.
Proof.
  intros [_ N O _ _] H. apply map_eq. intros f. rewrite H. case_bool_decide as B; [|apply O, B]. rewrite Forall_forall in N. symmetry. apply N, B.
Qed.

Lemma listed_put d0 files name b d d1 :
  listed d0 files d -> calm d1 -> cd_files d !! name = None -> cd_files d1 = <[name := []]> (cd_files d) ->
  listed d0 (files ++ [name]) (cd_put name b d1).
Proof.
  intros [C N O ND T] C1 N1 F1.
  assert (name ∉ files) as Hni. { intros H. rewrite Forall_forall in T. destruct (T name H) as [x Hx]. congruence. }
  split; [exact C1| | | |].
  - apply Forall_app. split; [exact N|]. apply Forall_singleton. rewrite <- (O _ Hni). exact N1.
  - intros f Hf. rewrite not_elem_of_app, list_elem_of_singleton in Hf. destruct Hf as [Hf Hne]. cbn. rewrite F1, !lookup_insert_ne by congruence. apply O, Hf.
  - apply NoDup_app. split; [exact ND|]. split; [|apply NoDup_singleton]. intros f Hf. rewrite list_elem_of_singleton. intros ->. contradiction.
  - apply Forall_app. cbn. split; [|apply Forall_singleton; rewrite lookup_insert_eq; eauto]. apply Forall_forall. intros f Hf. rewrite F1.
    rewrite !lookup_insert_ne by (intros ->; contradiction). rewrite Forall_forall in T. apply T, Hf.
Qed.

Lemma listed_same d0 files d d' : listed d0 files d -> calm d' -> cd_files d' = cd_files d -> listed d0 files d'.
Proof. intros [C N O ND T] C' E. split; try assumption; [intros f; rewrite E; apply O|]. rewrite E. exact T. Qed.

Lemma write_listed fuel d0 files name it env d r d' it' env' :
  listed d0 files d -> Compactor_write Sort_entries fuel name it env d = (Ok r, d', it', env') ->
  match r with
  | None => listed d0 (files ++ [name]) d'
  | Some e => e = errCompactionInProgress \/ if keeps_file e then listed d0 (files ++ [name]) d'
              else calm d' /\ cd_files d !! name = None /\ delete name (cd_files d') = cd_files d
  end.
Proof.
  intros L. pose proof (ls_calm _ _ _ L) as C. unfold Compactor_write. destruct (cd_create name d) as [[] d1] eqn:E; destruct (cd_create_spec _ _ _ _ C E) as [C1 S1].
  2: { intros [= <- <- <- <-]. auto. }
  destruct S1 as [N1 F1]. rewrite (cd_create_calm _ _ C N1) in E. injection E as <-.
  assert (open_index name (cd_put name [] d) = (false, cd_put name [] d) \/ index_free name d) as [Eo|Fr].
  { unfold index_free. destruct (cd_files d !! idx_name name) as [x|] eqn:Ex; [|right; reflexivity]. destruct (disk_index name) eqn:Di; [left|right; discriminate].
    unfold open_index, cd_create, cd_tick. rewrite Di. unfold calm in C1. cbn in C1 |- *. rewrite C1. cbn. rewrite lookup_insert_ne by (intros H; exact (idx_name_ne name (eq_sym H))). rewrite Ex.
    rewrite bool_decide_eq_true_2 by eauto. reflexivity. }
  { rewrite Eo. intros [= <- <- <- <-]. right. cbn [keeps_file]. split; [exact C1|]. split; [exact N1|]. cbn. rewrite delete_insert_eq. apply delete_id, N1. }
  rewrite (open_index_calm _ _ C Fr). destruct (write_loop Sort_entries fuel NewTSMWriter it env) as [[[r1 w] it1] env1].
  pose proof (listed_put d0 files name (tw_out w) d _ L C1 N1 F1) as L1. rewrite cd_put_put in L1.
  destruct r1 as [err| |]; [|discriminate|discriminate]. destruct (finish_write_calm name (tw_out w) err d C Fr N1) as (d2 & -> & C2 & D2). intros [= <- <- <- <-].
  destruct err as [e|]; [|subst d2; exact L1]. right. destruct (keeps_file e); [subst d2; exact L1|auto].
Qed.

(** Removing what an error left of the last file gives back the directory. *)
Lemma removeAll_restores name (d d1 : cdir) : calm d1 -> calm d -> delete name (cd_files d1) = cd_files d -> cd_removeAll name d1 = (true, d).
Proof. intros C1 C E. rewrite (cd_removeAll_spec _ _ C1), E. destruct d as [fs plan]. unfold calm in C. cbn in *. subst plan. reflexivity. Qed.

Lemma discard_all name d0 files d d1 :
  listed d0 files d -> calm d1 -> cd_files d !! name = None -> delete name (cd_files d1) = cd_files d ->
  exists d2, remove_files files d1 = (true, d2) /\ cd_removeAll name d2 = (true, mkDir d0 []).
Proof.
  intros L C1 N D1. destruct (discard_files_spec files d1 C1) as (d2 & E2 & C2 & H2). exists d2. split; [exact E2|].
  rewrite (cd_removeAll_spec _ _ C2). do 2 f_equal. rewrite <- (listed_removed d0 files d (mkDir (delete name (cd_files d2)) []) L); [reflexivity|].
  intros f. cbn. rewrite <- D1. destruct (decide (f = name)) as [->|Hf]; [rewrite !lookup_delete_eq; case_bool_decide; reflexivity|].
  rewrite !lookup_delete_ne by congruence. apply H2.
Qed.

(** Files written stay listed; after an error none of them is left. *)
Lemma writeNewFiles_listed n fuel gen seq d0 files it env d r d' it' env' :
  listed d0 files d -> writeNewFiles Sort_entries n fuel gen seq files it env d = (Ok r, d', it', env') ->
  match r with
  | inl fs => listed d0 fs d'
  | inr e => e = errCompactionInProgress \/ (calm d' /\ cd_files d' = d0)
  end.
Proof.
  revert seq files it env d. induction n as [|n IH]; intros seq files it env d L; [discriminate|]. cbn [writeNewFiles]. set (name := tmp_name gen (seq + 1)).
  destruct (Compactor_write Sort_entries fuel name it env d) as [[[r1 d1] it1] env1] eqn:E.
  destruct r1 as [[e1|]| |]; [|intros [= <- <- <- <-]; exact (write_listed _ _ _ _ _ _ _ _ _ _ _ L E)|discriminate|discriminate].
  pose proof (write_listed _ _ _ _ _ _ _ _ _ _ _ L E) as [-> | W]; [intros [= <- <- <- <-]; left; reflexivity|].
  destruct (keeps_file e1) eqn:K.
  - destruct e1 as [ | | | | | | |x]; try discriminate; [intros H; exact (IH _ _ _ _ _ W H)|intros [= <- <- <- <-]; left; reflexivity|].
    destruct x; try discriminate. intros H. exact (IH _ _ _ _ _ W H).
  - destruct W as (C1 & N & D1). rewrite (removeAll_restores _ _ _ C1 (ls_calm _ _ _ L) D1). destruct (discard_all _ _ _ _ _ L C1 N D1) as (d2 & -> & ->).
    destruct e1 as [ | | | | | | |x]; try discriminate; try (intros [= <- <- <- <-]; right; split; reflexivity).
    destruct x; try discriminate; intros [= <- <- <- <-]; try (right; split; reflexivity). exact L.
Qed.

(** [removeTmpFiles] on the files that are there. *)
Lemma removeTmpFiles_listed d0 files d : listed d0 files d -> exists d', removeTmpFiles files d = (true, d') /\ calm d' /\ cd_files d' = d0.
Proof.
  intros [C N O ND T].
  assert (exists d', removeTmpFiles files d = (true, d') /\ calm d' /\ forall f, cd_files d' !! f = if bool_decide (f ∈ files) then None else cd_files d !! f)
    as (d' & E & C' & H).
  { clear N O. revert d C T. induction ND as [|x files Hx ND IH]; intros d C T; cbn [removeTmpFiles]; [exists d; auto|].
    apply Forall_cons in T as [[b Tx] T]. destruct d as [fs plan]. unfold calm in C. cbn in C, Tx, T. subst plan. unfold cd_remove, cd_tick. cbn.
    rewrite Tx, bool_decide_eq_true_2 by eauto. destruct (IH (mkDir (delete x fs) []) eq_refl) as (d' & E & C' & H).
    { cbn. apply Forall_forall. intros f Hf. rewrite lookup_delete_ne by (intros ->; contradiction). rewrite Forall_forall in T. apply T, Hf. }
    exists d'. split; [exact E|]. split; [exact C'|]. intros f. rewrite H. cbn. case_bool_decide as B1; case_bool_decide as B2; try reflexivity.
    - exfalso. apply B2. right. exact B1.
    - apply elem_of_cons in B2 as [-> | B2]; [apply lookup_delete_eq|contradiction].
    - apply lookup_delete_ne. intros ->. apply B2. left. }
  exists d'. split; [exact E|]. split; [exact C'|]. apply (listed_removed d0 files d); [split; assumption|exact H].
Qed.
End Written.

(** ** Compactions as a whole *)

Section InProgress.
Context {V D : Type} `{BC : BlockCodec V D} (Sort_entries : list IndexEntry -> list IndexEntry).
Context {I : Type} `{KI : !KeyIter I}.

(** Iterators do not speak of compactions in progress. *)
Hypothesis Read_honest : forall i it it', kit_Read i it <> Ok (inr errCompactionInProgress, it').
Hypothesis Err_honest : forall it, kit_Err it <> Some errCompactionInProgress.

Lemma write_loop_honest fuel w it env w' it' env' :
  write_loop Sort_entries fuel w it env <> (Ok (Some errCompactionInProgress), w', it', env').
Proof.
  revert w it env. induction fuel as [|fuel IH]; intros w it env; [discriminate|]. cbn [write_loop].
  destruct (kit_Next it) as [[[] it1]|e|]; [| |discriminate|discriminate].
  - destruct (ev_enabled _); cbn [negb]; [|discriminate].
    destruct (kit_Read _ it1) as [[[[[[key mn] mx] b]|e] it2]|e|] eqn:R; [|intros [= -> _ _ _]; exact (Read_honest _ _ _ R)|discriminate|discriminate].
    destruct (tw_WriteBlock Sort_entries key mn mx b w) as [[u|e|] w1]; [| |discriminate].
    + destruct (_ >? _); [|apply IH]. unfold index_then. destruct (tw_WriteIndex Sort_entries w1) as [[?|?|] ?]; discriminate.
    + unfold index_then. destruct e; try discriminate. destruct (tw_WriteIndex Sort_entries w1) as [[?|?|] ?]; discriminate.
  - destruct (kit_Err it1) eqn:E; [intros [= -> _ _ _]; exact (Err_honest _ E)|]. destruct (tw_WriteIndex Sort_entries w) as [[?|?|] ?]; discriminate.
Qed.

Lemma finish_honest path err d d' : err <> Some errCompactionInProgress -> finish_write path err d <> (Some errCompactionInProgress, d').
Proof. intros H. unfold finish_write. destruct (close_index path d) as [[] d1], err as [e|]; congruence. Qed.

Lemma write_honest fuel name it env d d' it' env' :
  calm d -> cd_files d !! name = None -> Compactor_write Sort_entries fuel name it env d <> (Ok (Some errCompactionInProgress), d', it', env').
Proof.
  intros C N. unfold Compactor_write. rewrite (cd_create_calm _ _ C N). destruct (open_index _ _) as [[] d1]; [|discriminate].
  destruct (write_loop Sort_entries fuel NewTSMWriter it env) as [[[r w] it1] env1] eqn:E. destruct r as [err| |]; try discriminate.
  destruct (finish_write name err _) as [err' d2] eqn:Ef. intros [= -> _ _ _]. refine (finish_honest _ _ _ _ _ Ef). intros ->. exact (write_loop_honest _ _ _ _ _ _ _ E).
Qed.

(** No file written here, and none that was there, is in the way of the next. *)
Lemma writeNewFiles_honest n fuel gen seq d0 files it env d d' it' env' :
  listed d0 files d -> 0 <= gen < 2 ^ 32 -> 0 <= seq -> seq + Z.of_nat n < 2 ^ 32 -> (forall s, d0 !! tmp_name gen s = None) ->
  Forall (fun f => exists s, 0 <= s <= seq /\ f = tmp_name gen s) files ->
  writeNewFiles Sort_entries n fuel gen seq files it env d <> (Ok (inr errCompactionInProgress), d', it', env').
Proof.
  intros L Hg. revert seq files it env d L. induction n as [|n IH]; intros seq files it env d L Hs Hn Hfree Hf; [discriminate|]. cbn [writeNewFiles].
  set (name := tmp_name gen (seq + 1)).
  assert (name ∉ files) as Hni.
  { intros H. rewrite Forall_forall in Hf. destruct (Hf _ H) as (s & Hs' & E). apply tmp_name_inj in E; lia. }
  assert (cd_files d !! name = None) as Na by (rewrite (ls_old _ _ _ L _ Hni); apply Hfree).
  destruct (Compactor_write Sort_entries fuel name it env d) as [[[r1 d1] it1] env1] eqn:E.
  destruct r1 as [[e1|]| |]; [|discriminate|discriminate|discriminate].
  pose proof (write_listed Sort_entries _ _ _ _ _ _ _ _ _ _ _ L E) as [-> | W]; [exfalso; exact (write_honest _ _ _ _ _ _ _ _ (ls_calm _ _ _ L) Na E)|].
  assert (Forall (fun f => exists s, 0 <= s <= seq + 1 /\ f = tmp_name gen s) (files ++ [name])) as Hf'.
  { apply Forall_app. split; [eapply Forall_impl; [exact Hf|]; intros f (s & ? & ->); exists s; split; [lia|reflexivity]|]. apply Forall_singleton. exists (seq + 1). split; [lia|reflexivity]. }
  assert (e1 <> errCompactionInProgress) as Hne by (intros ->; exact (write_honest _ _ _ _ _ _ _ _ (ls_calm _ _ _ L) Na E)).
  destruct e1 as [ | | | | | | |x]; try congruence; try (destruct (remove_files files d1) as [[] d2]; [destruct (cd_removeAll name d2) as [[] ?]|]; discriminate).
  - apply (IH (seq + 1) _ it1 env1 d1 W); [lia|lia|exact Hfree|exact Hf'].
  - destruct x; try (destruct (remove_files files d1) as [[] d2]; [destruct (cd_removeAll name d2) as [[] ?]|]; discriminate).
    + destruct (cd_removeAll name d1) as [[] ?]; discriminate.
    + apply (IH (seq + 1) _ it1 env1 d1 W); [lia|lia|exact Hfree|exact Hf'].
Qed.
End InProgress.

(** ** Compactions end *)

(** The iterator is at its end after at most [k] blocks, or panics before: what
    [Read] says, an error or a block, does not matter, and the error it ends with
    is not one after which a file stays. *)
Inductive ends {I} `{KI : !KeyIter I} : nat -> I -> Prop :=
| ends_stop k it it' : kit_Next it = Ok (false, it') -> (forall e, kit_Err it' = Some e -> keeps_file e = false) -> ends k it
| ends_panic k it : kit_Next it = Panic -> ends k it
| ends_next k it it1 : kit_Next it = Ok (true, it1) ->
    (forall i x it2, kit_Read i it1 = Ok (x, it2) -> ends k it2) -> (forall i e, kit_Read i it1 <> Err e) -> ends (S k) it.

Section Ends.
Context {V D : Type} `{BC : BlockCodec V D} (Sort_entries : list IndexEntry -> list IndexEntry).
Context {I : Type} `{KI : !KeyIter I}.

Lemma WriteIndex_not_max w w' : tw_WriteIndex Sort_entries w <> (Err ErrMaxBlocksExceeded, w').
Proof.
  unfold tw_WriteIndex, bind, get. destruct (_ =? 0); [discriminate|]. unfold di_WriteTo, di_flush. destruct (di_key _); [discriminate|].
  destruct (_ >? _); discriminate.
Qed.

(** One file: no more rounds than blocks, and when another file follows, at least
    one block is gone. *)
Definition progress (k : nat) (r : res werr (option cerr)) (it : I) : Prop :=
  match r with
  | Ok (Some e) => keeps_file e = true -> exists k', (k' < k)%nat /\ ends k' it
  | Err _ => False
  | _ => True
  end.

Lemma progress_mono k k' r it : (k <= k')%nat -> progress k r it -> progress k' r it.
Proof. intros Hle. destruct r as [[e|]| |]; auto. intros H K. destruct (H K) as (j & ? & ?). exists j. split; [lia|assumption]. Qed.

Lemma progress_read k r it : ends k it -> (forall e, r <> Err e) -> progress (S k) r it.
Proof. intros E Hr. destruct r as [[e|]|e|]; cbn; [intros _; exists k; auto|exact Logic.I|exact (Hr e eq_refl)|exact Logic.I]. Qed.

Lemma index_then_no_err e w x : (index_then Sort_entries e w).1 <> Err x.
Proof. unfold index_then. destruct (tw_WriteIndex Sort_entries w) as [[?|?|] ?]; discriminate. Qed.

Lemma write_loop_ends k fuel w it env r w' it' env' :
  ends k it -> (k < fuel)%nat -> write_loop Sort_entries fuel w it env = (r, w', it', env') -> progress k r it'.
Proof.
  revert k w it env. induction fuel as [|fuel IH]; intros k w it env E Hf; [lia|]. cbn [write_loop]. destruct E as [k it it1 N He|k it N|k it it1 N R Re]; rewrite N.
  - destruct (kit_Err it1) as [e|] eqn:Ee; [intros [= <- <- <- <-]; cbn; rewrite (He e eq_refl); discriminate|].
    destruct (tw_WriteIndex Sort_entries w) as [[u|e|] w1] eqn:W; intros [= <- <- <- <-]; cbn; auto. destruct e; try discriminate. destruct (WriteIndex_not_max _ _ W).
  - intros [= <- <- <- <-]. exact Logic.I.
  - destruct (ev_enabled _); cbn [negb]; [|intros [= <- <- <- <-]; discriminate]. set (i := ev_interrupted _). specialize (R i). specialize (Re i).
    destruct (kit_Read i it1) as [[[[[[key mn] mx] b]|e] it2]|e|]; [specialize (R _ _ eq_refl)|specialize (R _ _ eq_refl)|destruct (Re e eq_refl)|intros [= <- <- <- <-]; exact Logic.I].
    2: { intros [= <- <- <- <-]. apply progress_read; [exact R|discriminate]. }
    destruct (tw_WriteBlock Sort_entries key mn mx b w) as [[u|e|] w1]; [| |intros [= <- <- <- <-]; exact Logic.I].
    + destruct (_ >? _); [|intros H; apply (progress_mono k); [lia|]; refine (IH _ _ _ _ R _ H); lia].
      pose proof (index_then_no_err errMaxFileExceeded w1) as Hi. destruct (index_then _ _ w1) as [r1 w2]. intros [= <- <- <- <-]. exact (progress_read _ _ _ R Hi).
    + pose proof (index_then_no_err (EWriter ErrMaxBlocksExceeded) w1) as Hi.
      destruct e; try (intros [= <- <- <- <-]; apply progress_read; [exact R|discriminate]).
      destruct (index_then _ _ w1) as [r1 w2]. intros [= <- <- <- <-]. exact (progress_read _ _ _ R Hi).
Qed.

Lemma finish_progress k path err d it : progress k (Ok err) it -> progress k (Ok (finish_write path err d).1) it.
Proof. unfold finish_write. destruct (close_index path d) as [[] d1], err as [e|]; cbn; auto. discriminate. Qed.

Lemma write_ends k fuel name it env d r d' it' env' :
  ends k it -> (k < fuel)%nat -> Compactor_write Sort_entries fuel name it env d = (r, d', it', env') ->
  r = Ok (Some errCompactionInProgress) \/ progress k r it'.
Proof.
  intros E Hf. unfold Compactor_write. destruct (cd_create name d) as [[] d1]; [|intros [= <- <- <- <-]; auto].
  destruct (open_index name d1) as [[] d2]; [|intros [= <- <- <- <-]; right; discriminate].
  destruct (write_loop Sort_entries fuel NewTSMWriter it env) as [[[r1 w] it1] env1] eqn:W. pose proof (write_loop_ends _ _ _ _ _ _ _ _ _ E Hf W) as P.
  destruct r1 as [err| |]; [|intros [= <- <- <- <-]; right; exact P..].
  pose proof (finish_progress k name err (cd_put name (tw_out w) d2) it1 P) as Q. destruct (finish_write name err _) as [err' d3]. intros [= <- <- <- <-]. right. exact Q.
Qed.

Lemma writeNewFiles_ends n k fuel gen seq files it env d e d' it' env' :
  ends k it -> (k < n)%nat -> (k < fuel)%nat -> writeNewFiles Sort_entries n fuel gen seq files it env d <> (Err e, d', it', env').
Proof.
  revert k seq files it env d. induction n as [|n IH]; intros k seq files it env d E Hn Hf; [lia|]. cbn [writeNewFiles]. set (name := tmp_name gen (seq + 1)).
  destruct (Compactor_write Sort_entries fuel name it env d) as [[[r d1] it1] env1] eqn:W. destruct (write_ends _ _ _ _ _ _ _ _ _ _ E Hf W) as [->|P]; [discriminate|].
  destruct r as [[e1|]|e1|]; [|discriminate|contradiction|discriminate].
  assert (forall files' d2, keeps_file e1 = true -> writeNewFiles Sort_entries n fuel gen (seq + 1) files' it1 env1 d2 <> (Err e, d', it', env')) as Next.
  { intros files' d2 K. destruct (P K) as (k' & Hk & E'). apply (IH k'); [exact E'|lia|lia]. }
  destruct e1 as [ | | | | | | |x]; try (apply Next; reflexivity); try discriminate;
    try (destruct (remove_files files _) as [[] d2]; [destruct (cd_removeAll _ d2) as [[] ?]|]; discriminate).
  destruct x; try (apply Next; reflexivity);
    try (destruct (remove_files files _) as [[] d2]; [destruct (cd_removeAll _ d2) as [[] ?]|]; discriminate).
  destruct (cd_removeAll _ _) as [[] ?]; discriminate.
Qed.
End Ends.

Lemma max_step_bounds n l m :
  0 <= m.1 < 2 ^ 32 /\ 0 <= m.2 < n -> Forall (fun x => 0 <= x.1 < 2 ^ 32 /\ 0 <= x.2 < n) l ->
  let r := fold_left max_step l m in 0 <= r.1 < 2 ^ 32 /\ 0 <= r.2 < n.
Proof.
  intros Hm F. revert m Hm. induction F as [|[g s] l H F IH]; intros [mg ms] Hm; cbn [fold_left]; [exact Hm|]. apply IH. unfold max_step. cbn in *.
  destruct (g >? mg); cbn; destruct (_ && _); cbn; lia.
Qed.

(** Taking the files and giving them back. *)
Lemma add_remove files c c' : Compactor_add files c = Some (true, c') -> c_files (Compactor_remove files c') = c_files c.
Proof.
  unfold Compactor_add. destruct (existsb _ _) eqn:E; [discriminate|]. assert (forall f, f ∈ files -> f ∉ default ∅ (c_files c)) as Hd.
  { intros f Hf Hu. apply not_true_iff_false in E. apply E. apply existsb_exists. exists f. split; [apply list_elem_of_In; exact Hf|apply bool_decide_eq_true_2; exact Hu]. }
  destruct files as [|f fs]; [intros [= <-]; cbn; destruct (c_files c) as [s|]; [cbn; rewrite difference_empty_L; reflexivity|reflexivity]|].
  destruct (c_files c) as [s|] eqn:Ef; [|discriminate]. intros [= <-]. cbn [Compactor_remove set_files c_files fmap option_fmap option_map]. f_equal.
  change ((list_to_set (f :: fs) ∪ s) ∖ list_to_set (f :: fs) = s).
  change (default ∅ (Some s)) with s in Hd. apply set_eq. intros x. rewrite elem_of_difference, elem_of_union, !elem_of_list_to_set. specialize (Hd x). tauto.
Qed.

Lemma add_keeps_size files c b c' : Compactor_add files c = Some (b, c') -> c_Size c' = c_Size c.
Proof.
  unfold Compactor_add. destruct (existsb _ _); [intros [= <- <-]; reflexivity|]. destruct files; [intros [= <- <-]; reflexivity|].
  destruct (c_files c); [|discriminate]. intros [= <- <-]. reflexivity.
Qed.

Section Compacting.
Context `{S8 : Simple8b} `{SN : Snappy} `{BS : BitStream} `{BU : BytesUtil} (p : encoders) (q : decoders).
Context {V D : Type} `{BC : BlockCodec V D} (Sort_entries : list IndexEntry -> list IndexEntry).
Context (fs_TSMReader : string -> option TSMReader).

Lemma tsm_iter_honest : (forall i it it', kit_Read (KeyIter := tsm_iter p q) i it <> Ok (inr errCompactionInProgress, it'))
  /\ forall it, kit_Err (KeyIter := tsm_iter p q) it <> Some errCompactionInProgress.
Proof.
  split.
  - intros i it it'. cbn [kit_Read tsm_iter]. destruct i; [discriminate|]. destruct (ki_Read false it) as [x [e|]]; discriminate.
  - intros it. cbn [kit_Err tsm_iter]. destruct (ki_Err it); discriminate.
Qed.

(** What [compact] and the files it wrote, or the error, mean for the directory. *)
Lemma compact_listed fast n fuel tsmFiles c env d r d' :
  calm d -> (forall g s, cd_files d !! tmp_name g s = None) ->
  Forall (fun f => forall g s, ParseTSMFileName f = Some (g, s) -> s + Z.of_nat n < 2 ^ 32) tsmFiles -> Z.of_nat n < 2 ^ 32 ->
  Compactor_compact p q Sort_entries fs_TSMReader n fuel fast tsmFiles c env d = (Ok r, d') ->
  match r with inl fs => listed (cd_files d) fs d' | inr _ => calm d' /\ cd_files d' = cd_files d end.
Proof.
  intros C Hfree Hn Hn0. unfold Compactor_compact. destruct (mapM ParseTSMFileName tsmFiles) as [ids|] eqn:Ei; [|intros [= <- <-]; auto].
  apply mapM_Some_1 in Ei. assert (Forall (fun x => 0 <= x.1 < 2 ^ 32 /\ 0 <= x.2 < 2 ^ 32 - Z.of_nat n) ids) as Hb.
  { clear -Ei Hn. induction Ei as [|f [g s] fs ids E _ IH]; [constructor|]. apply Forall_cons in Hn as [Hf Hn]. constructor; [|exact (IH Hn)].
    cbn. pose proof (ParseTSMFileName_range _ _ _ E). specialize (Hf _ _ E). lia. }
  destruct (max_step_bounds (2 ^ 32 - Z.of_nat n) ids (0, 0) ltac:(cbn; lia) Hb) as [Hg Hs]. destruct (fold_left max_step ids (0, 0)) as [mg ms]. cbn in Hg, Hs.
  destruct (existsb _ _); [intros [= <- <-]; auto|]. destruct (mapM fs_TSMReader tsmFiles) as [[|tr trs]|]; [intros [= <- <-]; split; auto; constructor| |intros [= <- <-]; auto].
  destruct (writeNewFiles (KI := tsm_iter p q) _ _ _ _ _ _ _ _ _) as [[[r1 d1] it1] env1] eqn:E. intros [= -> ->].
  assert (listed (cd_files d) [] d) as L0 by (split; auto; constructor).
  pose proof (writeNewFiles_listed Sort_entries (KI := tsm_iter p q) _ _ _ _ _ _ _ _ _ _ _ _ _ L0 E) as W. destruct r as [fs|e]; [exact W|].
  destruct W as [-> | W]; [|exact W]. exfalso. destruct tsm_iter_honest as [H1 H2].
  exact (writeNewFiles_honest Sort_entries (KI := tsm_iter p q) H1 H2 n fuel mg ms (cd_files d) [] _ _ d _ _ _ L0 Hg ltac:(lia) ltac:(lia) (Hfree mg) ltac:(constructor) E).
Qed.

(** The iterator over the readers of the files ends within [k] blocks. *)
Definition blocks_within (k : nat) (fast : bool) (tsmFiles : list string) (c : Compactor) : Prop :=
  let size := if c_Size c <=? 0 then DefaultMaxPointsPerBlock else c_Size c in
  forall trs, mapM fs_TSMReader tsmFiles = Some trs -> ends (KI := tsm_iter p q) k (NewTSMKeyIterator size fast trs).

Lemma compact_ends fast n fuel k tsmFiles c env d e d' :
  blocks_within k fast tsmFiles c -> (k < n)%nat -> (k < fuel)%nat ->
  Compactor_compact p q Sort_entries fs_TSMReader n fuel fast tsmFiles c env d <> (Err e, d').
Proof.
  intros Hk Hn Hf. unfold Compactor_compact. destruct (mapM ParseTSMFileName tsmFiles) as [ids|]; [|discriminate].
  destruct (fold_left max_step ids (0, 0)) as [mg ms]. destruct (existsb _ _); [discriminate|]. unfold blocks_within in Hk.
  destruct (mapM fs_TSMReader tsmFiles) as [[|tr trs]|]; [discriminate| |discriminate]. specialize (Hk _ eq_refl).
  destruct (writeNewFiles (KI := tsm_iter p q) _ _ _ _ _ _ _ _ _) as [[[r1 d1] it1] env1] eqn:E. intros [= -> ->].
  exact (writeNewFiles_ends Sort_entries (KI := tsm_iter p q) _ _ _ _ _ _ _ _ _ _ _ _ _ Hk Hn Hf E).
Qed.

(** C23 (error). When the iterator over the files ends, after at most [k] blocks,
    no call of the system fails and no temporary file is there before, and the
    sequence of the new files stays below 2^32, a compaction ends, with a result
    or with a panic, and is all or nothing in the directory: on success the files
    it names are new and there and every other file is untouched; after any
    error, from a reader, from the writer, by interruption or because compactions
    were disabled meanwhile, the directory is what it was.  In either case the
    files are given back to other compactions.  The bounds of the model on blocks
    and files are not reached.  (With a left-over temporary file of the name the
    compaction stops with [errCompactionInProgress] and does not remove the files
    it wrote before.) *)
Theorem compaction_all_or_nothing (fast : bool) (n fuel k : nat) (tsmFiles : list string) (still : bool) (env : list event)
    (d : cdir) (c : Compactor) :
  calm d -> (forall g s, cd_files d !! tmp_name g s = None) ->
  Forall (fun f => forall g s, ParseTSMFileName f = Some (g, s) -> s + Z.of_nat n < 2 ^ 32) tsmFiles -> Z.of_nat n < 2 ^ 32 ->
  blocks_within k fast tsmFiles c -> (k < n)%nat -> (k < fuel)%nat ->
  match Compactor_run p q Sort_entries fs_TSMReader fast n fuel tsmFiles still env d c with
  | (Ok (inl fs), d', c') =>
      c_files c' = c_files c /\ NoDup fs /\ (forall f, f ∈ fs -> cd_files d !! f = None /\ is_Some (cd_files d' !! f))
      /\ forall f, f ∉ fs -> cd_files d' !! f = cd_files d !! f
  | (Ok (inr _), d', c') => c_files c' = c_files c /\ cd_files d' = cd_files d
  | (Err _, _, _) => False
  | (Panic, _, _) => True
  end.
Proof.
  intros C Hfree Hn Hn0 Hk Kn Kf. unfold Compactor_run. destruct (c_compactionsEnabled c); [|split; reflexivity]. cbn [negb].
  destruct (Compactor_add tsmFiles c) as [[[] c1]|] eqn:Ea; [| |exact Logic.I].
  2: { unfold Compactor_add in Ea. destruct (existsb _ _); [injection Ea as <-; split; reflexivity|]. destruct tsmFiles, (c_files c); discriminate. }
  assert (blocks_within k fast tsmFiles c1) as Hk1 by (unfold blocks_within; rewrite (add_keeps_size _ _ _ _ Ea); exact Hk).
  pose proof (fun e d' => compact_ends fast n fuel k tsmFiles c1 env d e d' Hk1 Kn Kf) as Ne.
  destruct (Compactor_compact _ _ _ _ _ _ _ _ _ _ _) as [r1 d1] eqn:E. destruct r1 as [x|e|]; [|destruct (Ne _ _ eq_refl)|exact Logic.I].
  pose proof (compact_listed fast n fuel tsmFiles c1 env d x d1 C Hfree Hn Hn0 E) as L. pose proof (add_remove _ _ _ Ea) as Hc. destruct still.
  - destruct x as [fs|e]; [|split; [exact Hc|apply L]]. destruct L as [_ N O ND T]. split; [exact Hc|]. split; [exact ND|]. split; [|exact O].
    rewrite Forall_forall in N, T. intros f Hf. split; [apply N, Hf|apply T, Hf].
  - assert (exists d2, removeTmpFiles (match x with inl l => l | inr _ => [] end) d1 = (true, d2) /\ cd_files d2 = cd_files d) as (d2 & -> & E2).
    { destruct x as [fs|e]; [destruct (removeTmpFiles_listed _ _ _ L) as (d2 & E2 & _ & H); eauto|]. exists d1. split; [reflexivity|apply L]. }
    split; [exact Hc|exact E2].
Qed.
End Compacting.
