(* ===== verification/CacheTypes.v ===== *)
(** * The types of the cache

    An entry of the cache has one type, and every value in it is of that type,
    whatever operations the cache goes through: the check of [entry.add] in
    [tsdb/engine/tsm1/cache.go] is the only gate. *)

From S2P Require Import Prelude Bytes Values Simple8b StringCodec FloatCodec ValueCodec Blocks BlockFacts TypedValues Ring Cache CacheFacts.

Section Types.
Context (Sum64 : list Z -> Z) (tsdb_EOF : Z).

Definition typed_entry (e : entry) : Prop := Forall (fun v => valueType v = e_vtype e) (e_values e).

Definition typed_store (s : storer) : Prop := store_ok Sum64 s /\ forall k e, slookup Sum64 s k = Some e -> typed_entry e.

Record typed_cache (c : Cache) : Prop := {
  tc_live : typed_store (c_store c);
  tc_snap sn : c_snapshot c = Some sn -> typed_store (sn_store sn) }.

(** ** Entries *)

Lemma same_types t values : forallb (fun x => t =? valueType x) values = true -> Forall (fun v => valueType v = t) values.
Proof. rewrite forallb_forall, Forall_forall. intros H v Hv. symmetry. apply Z.eqb_eq, H, list_elem_of_In, Hv. Qed.

Lemma written_of_type values o o' e : (forall x, o = Some x -> typed_entry x) -> written values o = Ok o' -> o' = Some e -> typed_entry e.
Proof.
  intros Ho. unfold written. destruct o as [x|].
  - specialize (Ho x eq_refl). unfold entry_add. destruct values as [|v values]; [intros [= <-] [= <-]; exact Ho|].
    destruct (forallb _ _) eqn:E; [|discriminate]. intros [= <-] [= <-]. apply Forall_app. split; [exact Ho|apply same_types, E].
  - unfold newEntryValues. destruct values as [|v values]; [intros [= <-] [= <-]; constructor|].
    destruct (forallb _ _) eqn:E; [|discriminate]. intros [= <-] [= <-]. apply same_types, E.
Qed.

Lemma dedup_typed e : typed_entry e -> typed_entry (entry_deduplicate tsdb_EOF e).
Proof.
  intros H. unfold typed_entry. rewrite Forall_forall in *. intros v Hv.
  assert (e_vtype (entry_deduplicate tsdb_EOF e) = e_vtype e) as -> by (unfold entry_deduplicate; destruct (_ <=? 1); reflexivity).
  unfold typed_entry in H. rewrite Forall_forall in H. apply H. eapply elem_of_submseteq; [exact Hv|apply dedup_sub].
Qed.

Lemma Exclude_Forall (P : Value -> Prop) a min max : Forall P a -> Forall P (Exclude (Value_UnixNano tsdb_EOF) a min max).
Proof.
  intros H. unfold Exclude. destruct (FindRange _ _ _ _) as [rmin rmax]. destruct (_ && _); [exact H|].
  assert (forall n, Forall P (take n a)) as Ht by (intros n; apply Forall_take, H). destruct (rmax <? zlen a); [|apply Ht].
  destruct (_ >? 0); [|apply Ht]. apply Forall_app. split; [apply Ht|apply Forall_drop, H].
Qed.

Lemma filter_typed min max e : typed_entry e -> typed_entry (entry_filter tsdb_EOF min max e).
Proof. apply Exclude_Forall. Qed.

(** ** Stores *)

Lemma typed_changed s s' k o : typed_store s -> changed Sum64 s s' k o -> (forall e, o = Some e -> typed_entry e) -> typed_store s'.
Proof.
  intros [_ H] (Hok & Hk & Hne) Ho. split; [exact Hok|]. intros k' e He. destruct (decide (k' = k)) as [->|N]; [apply Ho; congruence|].
  rewrite Hne in He by exact N. exact (H k' e He).
Qed.

Lemma typed_none s : store_ok Sum64 s -> (forall k, slookup Sum64 s k = None) -> typed_store s.
Proof. intros Hok H. split; [exact Hok|]. intros k e. rewrite H. discriminate. Qed.

Lemma typed_empty : typed_store EmptyStore.
Proof. apply typed_none; [exact I|reflexivity]. Qed.

Lemma typed_fresh : typed_store fresh_store.
Proof. destruct (fresh_store_spec Sum64) as (r & -> & H1 & H2). apply typed_none; assumption. Qed.

Lemma typed_reset s : typed_store s -> typed_store (st_reset s).
Proof.
  destruct s as [|r]; [auto|]. intros [H _]. destruct (st_reset_spec Sum64 r H) as (r' & -> & H1 & H2). apply typed_none; assumption.
Qed.

Lemma typed_write k values s : typed_store s -> typed_store (st_write Sum64 k values s).2.
Proof.
  destruct s as [|r]; [auto|]. intros T. destruct (st_write_spec Sum64 r k values (proj1 T)) as (s' & Hch & _ & ->). cbn [snd].
  eapply typed_changed; [exact T|exact Hch|]. intros e He. destruct (written values (slookup Sum64 (RingStore r) k)) as [o|x|] eqn:Ew; try exact (proj2 T k e He).
  eapply written_of_type; [|exact Ew|exact He]. intros x Hx. exact (proj2 T k x Hx).
Qed.

Lemma typed_remove k s : typed_store s -> typed_store (st_remove Sum64 k s).2.
Proof.
  destruct s as [|r]; [auto|]. intros T. destruct (st_remove_spec Sum64 r k (proj1 T)) as (s' & -> & Hch & _). eapply typed_changed; [exact T|exact Hch|discriminate].
Qed.

Lemma typed_update k e s : typed_store s -> typed_entry e -> typed_store (st_update Sum64 k e s).
Proof.
  destruct s as [|r]; [auto|]. intros T He. destruct (st_update_spec Sum64 r k e (proj1 T)) as [Hch _]. eapply typed_changed; [exact T|exact Hch|]. intros x [= <-]. exact He.
Qed.

Lemma typed_apply f s : typed_store s -> (forall k e, typed_entry e -> typed_entry (f k e)) -> typed_store (st_apply f s).
Proof.
  destruct s as [|r]; [auto|]. intros [Hok H] Hf. destruct (ring_apply_spec Sum64 r f Hok) as [H1 H2]. split; [exact H1|]. intros k e. cbn. rewrite H2.
  destruct (rlookup Sum64 r k) as [x|] eqn:E; [|discriminate]. intros [= <-]. apply Hf, (H k x E).
Qed.

(** ** Operations *)

Create HintDb types.
#[local] Hint Resolve typed_empty typed_fresh typed_reset typed_write typed_remove typed_update typed_apply dedup_typed filter_typed : types.

(** A cache with the given store and the snapshot of another. *)
Lemma typed_with c c' : typed_cache c -> typed_store (c_store c') -> c_snapshot c' = c_snapshot c -> typed_cache c'.
Proof. intros [_ H] Hs E. split; [exact Hs|]. rewrite E. exact H. Qed.

Lemma typed_init c : typed_cache c -> typed_cache (init c).
Proof. intros T. unfold init. destruct (c_initialized c); [exact T|]. eapply typed_with; [exact T|auto with types|reflexivity]. Qed.

Lemma typed_Write k values c : typed_cache c -> typed_cache (Write Sum64 k values c).2.
Proof.
  intros T. apply typed_init in T. unfold Write. set (c0 := init c) in *. pose proof (typed_write k values _ (tc_live _ T)) as Hw.
  destruct (_ && _); [eapply typed_with; [exact T|apply T|reflexivity]|]. destruct (st_write Sum64 k values (c_store c0)) as [[b|e|] s]; (eapply typed_with; [exact T|exact Hw|reflexivity]).
Qed.

Lemma typed_write_all l werr added c x : typed_cache c -> write_all Sum64 l werr added c = Some x -> typed_cache x.2.
Proof.
  revert werr added c. induction l as [|[k v] l IH]; intros werr added c T; cbn [write_all]; [intros [= <-]; exact T|].
  pose proof (typed_write k v _ (tc_live _ T)) as Hw. destruct (st_write Sum64 k v (c_store c)) as [[[]|e|] s]; [| | |discriminate]; cbn [snd] in Hw; apply IH; (eapply typed_with; [exact T|exact Hw|reflexivity]).
Qed.

Lemma typed_WriteMulti l c : typed_cache c -> typed_cache (WriteMulti Sum64 l c).2.
Proof.
  intros T. apply typed_init in T. unfold WriteMulti. set (c0 := init c) in *. destruct (_ && _); [eapply typed_with; [exact T|apply T|reflexivity]|].
  set (n := fold_left _ l 0). assert (typed_cache (increaseSize n c0)) as T1 by (eapply typed_with; [exact T|apply T|reflexivity]).
  destruct (write_all Sum64 l None n (increaseSize n c0)) as [[[w a] c1]|] eqn:E; [|exact T].
  pose proof (typed_write_all _ _ _ _ _ T1 E) as T2. cbn [snd] in *. eapply typed_with; [exact T2| |]; destruct w; try reflexivity; apply T2.
Qed.

Lemma typed_Snapshot now c : typed_cache c -> typed_cache (Snapshot now c).2.
Proof.
  intros T. apply typed_init in T. unfold Snapshot. set (c0 := init c) in *. destruct (c_snapshotting c0); [exact T|]. cbn [set_flags c_snapshot].
  assert (typed_store (sn_store match c_snapshot c0 with Some sn => sn | None => mkSnap 0 fresh_store end)) as Hs.
  { destruct (c_snapshot c0) as [sn|] eqn:E; [apply (tc_snap _ T sn E)|apply typed_fresh]. }
  destruct (0 <? _); (split; [|intros sn [= <-]; try exact Hs]); cbn; auto with types; apply T.
Qed.

Lemma typed_ClearSnapshot b c : typed_cache c -> typed_cache (ClearSnapshot b c).2.
Proof.
  intros T. apply typed_init in T. unfold ClearSnapshot. set (c0 := init c) in *. destruct (c_snapshot c0) as [sn|] eqn:E; [|exact T].
  destruct b; (split; [apply T|]); cbn.
  - intros x [= <-]. apply typed_reset, (tc_snap _ T sn E).
  - exact (tc_snap _ T).
Qed.

Lemma typed_Values k c : typed_cache c -> typed_cache (c_Values Sum64 tsdb_EOF k c).2.
Proof.
  intros T. unfold c_Values. rewrite (st_entry_ok Sum64 _ k (proj1 (tc_live _ T))).
  assert (forall c1, (exists s, typed_store s /\ c1 = set_store s c) -> typed_cache c1 /\ c_snapshot c1 = c_snapshot c) as Hl
    by (intros c1 (s & Hs & ->); split; [eapply typed_with; [exact T|exact Hs|reflexivity]|reflexivity]).
  set (c1 := match slookup Sum64 (c_store c) k with Some x => set_store (st_update Sum64 k (entry_deduplicate tsdb_EOF x) (c_store c)) c | None => c end).
  assert (typed_cache c1 /\ c_snapshot c1 = c_snapshot c) as [T1 E1].
  { unfold c1. destruct (slookup Sum64 (c_store c) k) as [x|] eqn:E; [|auto]. apply Hl. eexists. split; [|reflexivity]. apply typed_update; [apply T|]. apply dedup_typed, (proj2 (tc_live _ T) k x E). }
  destruct (c_snapshot c) as [sn|] eqn:En.
  - pose proof (tc_snap _ T sn En) as Ts. rewrite (st_entry_ok Sum64 _ k (proj1 Ts)).
    assert (forall x, slookup Sum64 (sn_store sn) k = Some x ->
      typed_cache (set_snapshot (Some (mkSnap (sn_size sn) (st_update Sum64 k (entry_deduplicate tsdb_EOF x) (sn_store sn)))) c1)) as Hs.
    { intros x Hx. split; [apply T1|]. intros y [= <-]. apply typed_update; [exact Ts|]. apply dedup_typed, (proj2 Ts k x Hx). }
    destruct (slookup Sum64 (c_store c) k) as [x|], (slookup Sum64 (sn_store sn) k) as [y|] eqn:Ey; cbn [snd]; fold c1; rewrite ?E1; auto.
  - destruct (slookup Sum64 (c_store c) k) as [x|]; cbn [snd]; [exact T1|exact T].
Qed.

Lemma typed_delete_one mn mx k c c' : typed_cache c -> delete_one Sum64 tsdb_EOF mn mx k c = Ok c' -> typed_cache c'.
Proof.
  intros T. unfold delete_one. rewrite (st_entry_ok Sum64 _ k (proj1 (tc_live _ T))). destruct (slookup Sum64 (c_store c) k) as [e|] eqn:E; [|intros [= <-]; exact T].
  pose proof (typed_update k _ _ (tc_live _ T) (filter_typed mn mx e (proj2 (tc_live _ T) k e E))) as Tu.
  destruct (_ && _); [|destruct (_ =? 0)].
  - pose proof (typed_remove k _ (tc_live _ T)) as Tr. destruct (st_remove Sum64 k (c_store c)) as [[?|?|] s]; try discriminate. intros [= <-]. eapply typed_with; [exact T|exact Tr|reflexivity].
  - cbn [set_store c_store]. pose proof (typed_remove k _ Tu) as Tr. destruct (st_remove Sum64 k _) as [[?|?|] s]; try discriminate. intros [= <-]. eapply typed_with; [exact T|exact Tr|reflexivity].
  - intros [= <-]. eapply typed_with; [exact T|exact Tu|reflexivity].
Qed.

Lemma typed_DeleteRange keys mn mx c : typed_cache c -> typed_cache (c_DeleteRange Sum64 tsdb_EOF keys mn mx c).2.
Proof.
  intros T. apply typed_init in T. unfold c_DeleteRange. set (c0 := init c) in *. clearbody c0.
  assert (forall c', delete_each Sum64 tsdb_EOF mn mx keys c0 = Ok c' -> typed_cache c') as H.
  { revert c0 T. induction keys as [|k keys IH]; intros c0 T c'; cbn [delete_each]; [intros [= <-]; exact T|].
    destruct (delete_one Sum64 tsdb_EOF mn mx k c0) as [c1|?|] eqn:E; try discriminate. apply IH. eapply typed_delete_one; eassumption. }
  destruct (delete_each Sum64 tsdb_EOF mn mx keys c0) as [c1|?|]; cbn [snd]; [|exact T|exact T]. eapply typed_with; [apply (H c1 eq_refl)|apply (H c1 eq_refl)|reflexivity].
Qed.

Lemma typed_exec op c : typed_cache c -> typed_cache (exec Sum64 tsdb_EOF op c).2.
Proof.
  intros T. destruct op; cbn [exec snd]; auto using typed_Write, typed_WriteMulti, typed_Snapshot, typed_ClearSnapshot, typed_Values, typed_DeleteRange.
  - eapply typed_with; [exact T| |reflexivity]. cbn. apply typed_apply; [apply T|]. intros _ e. apply dedup_typed.
  - unfold Free. destruct (c_initialized c); [|exact T]. eapply typed_with; [exact T|apply typed_empty|reflexivity].
Qed.

Lemma typed_exec_all ops c : typed_cache c -> typed_cache (exec_all Sum64 tsdb_EOF ops c).2.
Proof.
  revert c. induction ops as [|op ops IH]; intros c T; cbn [exec_all]; [exact T|]. pose proof (typed_exec op c T) as T1.
  destruct (exec Sum64 tsdb_EOF op c) as [o c1]. specialize (IH c1 T1). destruct (exec_all Sum64 tsdb_EOF ops c1). exact IH.
Qed.

Lemma typed_new maxSize now : typed_cache (NewCache maxSize now).
Proof. split; [apply typed_empty|discriminate]. Qed.

(** C25 (type). Whatever operations a new cache goes through, in any order and with
    any arguments, the values of an entry, in the live store or in the snapshot, are
    all of the type the entry was made with: a write of another type is refused as
    a whole. *)
Theorem cache_entries_typed (ops : list cop) (maxSize now : Z) (k : list Z) (e : entry) :
  let c := (exec_all Sum64 tsdb_EOF ops (NewCache maxSize now)).2 in
  live_entry Sum64 c k = Some e \/ snap_entry Sum64 c k = Some e ->
  Forall (fun v => valueType v = e_vtype e) (e_values e).
Proof.
  intros c. pose proof (typed_exec_all ops _ (typed_new maxSize now)) as T. fold c in T.
  unfold live_entry, snap_entry. intros [H|H]; [exact (proj2 (tc_live _ T) k e H)|]. destruct (c_snapshot c) as [sn|] eqn:E; [|discriminate].
  exact (proj2 (tc_snap _ T sn E) k e H).
Qed.
End Types.

(** A write of floats to an entry of integers is refused, one of integers is
    added. *)
Definition mixed_ops : list cop :=
  [OWrite key_ex [v_ex 30 1]; OWrite key_ex [VFloat (mkTV 40 0)]; OWrite key_ex [v_ex 10 2]; OSnapshot 0; OWriteMulti [(key_ex, [v_ex 50 3])]].

Lemma cache_entries_typed_witness :
  let c := (exec_all sum_ex 0 mixed_ops (NewCache 1000 0)).2 in
  exists e, snap_entry sum_ex c key_ex = Some e /\ e_values e = [v_ex 30 1; v_ex 10 2] /\ Forall (fun v => valueType v = e_vtype e) (e_values e).
Proof.
  eexists. split; [vm_compute; reflexivity|]. split; [reflexivity|].
  apply (cache_entries_typed sum_ex 0 mixed_ops 1000 0 key_ex). right. vm_compute. reflexivity.
Defined.
