(* ===== verification/CacheSnapshot.v ===== *)
(** * Snapshots hold the cache

    Writing a cache whose entries are sorted to TSM files with [WriteSnapshot]
    and reading the files gives back the cache. *)

From S2P Require Import Prelude Bytes Values Simple8b StringCodec BitReader FloatCodec ValueCodec Varint Blocks BlockFacts TypedValues TSMWriter TSMIndex TSMIndexFacts TSMDelete Tombstone TSMReader TSMFile TSMDurable TSMStore TSMNames.
From S2P Require Import OSFile KeyIterator Compactor CompactorFacts Ring Cache CacheFacts CacheTypes CacheIterator.

(** ** Parts of storable values *)

Lemma app_map {A B} (f : A -> B) l a b : map f l = a ++ b -> exists l1 l2, l = l1 ++ l2 /\ a = map f l1 /\ b = map f l2.
Proof. intros H. apply List.map_eq_app in H as (l1 & l2 & -> & <- & <-). eauto. Qed.

Lemma storable_app a b : storable (a ++ b) -> storable a /\ storable b.
Proof.
  intros H. remember (a ++ b) as l eqn:E. unfold BlockFacts.timed in *. destruct H as [l T F|l T F|l T F|l T|l T F]; apply app_map in E as (l1 & l2 & -> & -> & ->);
    apply Forall_app in T as [T1 T2]; try (apply Forall_app in F as [F1 F2]); try (split; constructor; assumption).
  assert (forall u w, enc_strings (u ++ w) = enc_strings u ++ enc_strings w) as Happ by (intros; unfold enc_strings; rewrite map_app, concat_app; reflexivity).
  rewrite map_app, Happ, zlen_app in F. pose proof (zlen_nonneg (enc_strings (map value l1))). pose proof (zlen_nonneg (enc_strings (map value l2))).
  split; constructor; try assumption; lia.
Qed.

Lemma submseteq_map {A B} (f : A -> B) l k : k ⊆+ map f l -> exists k', k = map f k' /\ k' ⊆+ l.
Proof.
  intros H. remember (map f l) as m eqn:E. revert l E. induction H as [|x k m H IH|x y m|x k m H IH|k m m2 H1 IH1 H2 IH2]; intros l E.
  - exists []. split; [reflexivity|apply submseteq_nil_l].
  - destruct l as [|a l]; [discriminate|]. injection E as -> ->. destruct (IH l eq_refl) as (k' & -> & Hk). exists (a :: k'). split; [reflexivity|]. apply submseteq_skip, Hk.
  - destruct l as [|a [|b l]]; try discriminate. injection E as -> -> ->. exists (b :: a :: l). split; [reflexivity|]. apply submseteq_swap.
  - destruct l as [|a l]; [discriminate|]. injection E as -> ->. destruct (IH l eq_refl) as (k' & -> & Hk). exists k'. split; [reflexivity|]. apply submseteq_cons, Hk.
  - destruct (IH2 l E) as (k2 & -> & Hk2). destruct (IH1 k2 eq_refl) as (k1 & -> & Hk1). exists k1. split; [reflexivity|]. etransitivity; eassumption.
Qed.

Lemma enc_strings_submseteq a b : a ⊆+ b -> zlen (enc_strings a) <= zlen (enc_strings b).
Proof.
  assert (forall s l, zlen (enc_strings (s :: l)) = zlen (enc_string s) + zlen (enc_strings l)) as Hc by (intros; unfold enc_strings; cbn; apply zlen_app).
  induction 1 as [|x a b H IH|x y b|x a b H IH|a b c H1 IH1 H2 IH2]; rewrite ?Hc; try lia. pose proof (zlen_nonneg (enc_string x)). lia.
Qed.

(** Leaving out and reordering values keeps them storable. *)
Lemma storable_submseteq l k : k ⊆+ l -> storable l -> storable k.
Proof.
  intros Hk H. unfold BlockFacts.timed in *. assert (forall A (P : A -> Prop) a b, a ⊆+ b -> Forall P b -> Forall P a) as HF.
  { intros A P a b Hs. rewrite !Forall_forall. intros F x Hx. apply F. eapply elem_of_submseteq; eassumption. }
  destruct H as [l T F|l T F|l T F|l T|l T F]; apply submseteq_map in Hk as (k' & -> & Hk); constructor; unfold BlockFacts.timed in *; try (eapply HF; eassumption).
  assert (map value k' ⊆+ map value l) as Hm by (apply (fmap_submseteq value); exact Hk). pose proof (enc_strings_submseteq _ _ Hm). lia.
Qed.

(** ** The blocks of a key *)

Section Snapshot.
Context `{S8 : Simple8b} `{L8 : !Simple8bLaws} `{SN : Snappy} `{LS : !SnappyLaws} `{BS : BitStream} `{LB : !BitStreamLaws}.
Context `{BU : BytesUtil} {UL : BytesUtilLaws} `{GZ : Gzip} {GL : GzipLaws}.
Context (Sum64 : list Z -> Z) (tsdb_EOF : Z) (enc : list Z -> nat -> encoders) (p0 : encoders).

#[local] Instance snap_blocks : BlockCodec Value decoders := value_blocks p0 tsdb_EOF.
#[local] Instance snap_blocks_laws : BlockCodecLaws snap_blocks := value_blocks_laws p0 tsdb_EOF.

Abbreviation vtime := (Value_UnixNano tsdb_EOF).

Definition cache_block (key : list Z) (x : list Z * list Value) : cacheBlock := mkCB key (start_of x.2) (end_of x.2) x.1 None.

Lemma Encode_encodes p vs : block_ok vs -> exists b, Encode vs p = Ok b /\ encodes b vs.
Proof.
  intros B. pose proof B as (Hne & [Hs Hz] & _). destruct (Encode_decodes vs p Hne Hs Hz) as (b & E & _ & R). exists b. split; [exact E|]. split; [exact B|].
  split; [|exact R]. destruct (R _ fresh_usable) as (q' & Hd & _). exact (decoded_type _ _ _ _ Hd).
Qed.

Lemma block_ok_app a b : block_ok (a ++ b) -> (a <> [] -> block_ok a) /\ (b <> [] -> block_ok b) /\ (a <> [] -> b <> [] -> end_of a < start_of b).
Proof.
  intros (_ & [S Z] & I & F). apply storable_app in S as [S1 S2]. rewrite zlen_app in Z. pose proof (zlen_nonneg a). pose proof (zlen_nonneg b).
  apply Forall_app in F as [F1 F2]. unfold increasing in I. pose proof I as I'. apply StronglySorted_app in I as (I1 & I2 & I3).
  split; [|split].
  - intros Ha. split; [exact Ha|]. split; [split; [exact S1|lia]|]. split; assumption.
  - intros Hb. split; [exact Hb|]. split; [split; [exact S2|lia]|]. split; assumption.
  - intros Ha Hb. unfold start_of, end_of. destruct (last a) as [x|] eqn:El; [|apply last_None in El; contradiction]. destruct b as [|y b]; [contradiction|]. cbn.
    apply last_Some in El as [a' ->]. apply I1; [apply elem_of_app; right; left|left].
Qed.

(** Cutting the values of a key into blocks of [size]. *)
Lemma encode_values_spec size key fuel n values :
  0 < size -> (length values <= fuel)%nat -> values = [] \/ block_ok values ->
  exists xs, encode_values tsdb_EOF enc fuel n size key values = Some (map (cache_block key) xs)
    /\ Forall (fun x => encodes x.1 x.2) xs /\ concat (map snd xs) = values
    /\ StronglySorted (fun a b => end_of a < start_of b) (map snd xs) /\ (zlen xs - 1) * size <= zlen values /\ (values = [] <-> xs = []).
Proof.
  intros Hsz. revert n values. induction fuel as [|fuel IH]; intros n values Hf Hv.
  { destruct values; [|cbn in Hf; lia]. exists []. change (zlen (@nil (list Z * list Value))) with 0. change (zlen (@nil Value)) with 0. repeat split; auto; try constructor. lia. }
  destruct values as [|v values].
  { exists []. change (zlen (@nil (list Z * list Value))) with 0. change (zlen (@nil Value)) with 0. repeat split; auto; try constructor. lia. }
  destruct Hv as [?|B]; [discriminate|]. cbn [encode_values]. set (l := v :: values) in *. set (e := if zlen l >? size then size else zlen l).
  assert (0 < zlen l) as Hl by (unfold l; rewrite zlen_cons; pose proof (zlen_nonneg values); lia).
  assert (1 <= e <= zlen l /\ (e = size \/ e = zlen l)) as [He He'] by (unfold e; destruct (Z.gtb_spec (zlen l) size); lia).
  destruct (Z.ltb_spec e 1); [lia|]. set (part := take (Z.to_nat e) l). set (rest := drop (Z.to_nat e) l).
  assert (l = part ++ rest) as Esplit by (symmetry; apply take_drop).
  assert (zlen part = e) as Zp by (unfold zlen, part; rewrite length_take; unfold zlen in He; lia).
  assert (zlen rest = zlen l - e) as Zr by (unfold zlen, rest; rewrite length_drop; unfold zlen in *; lia).
  assert (part <> []) as Hp by (intros E; rewrite E in Zp; unfold zlen in Zp; cbn in Zp; lia).
  rewrite Esplit in B. destruct (block_ok_app part rest B) as (B1 & B2 & B3).
  destruct (last part) as [x|] eqn:El; [|apply last_None in El; contradiction].
  destruct (Encode_encodes (enc key n) part (B1 Hp)) as (b & -> & Hb).
  destruct (IH (S n) rest) as (xs & -> & F & C & So & Zx & Hnil).
  { unfold rest. rewrite length_drop. unfold l in *. cbn in *. lia. }
  { destruct rest; [left; reflexivity|right; apply B2; discriminate]. }
  cbn [mbind option_bind]. exists ((b, part) :: xs). split; [|split; [|split; [|split; [|split]]]].
  - cbn [map]. unfold cache_block at 2. cbn [fst snd]. do 2 f_equal. unfold start_of, end_of. rewrite El. unfold part, l. destruct (Z.to_nat e) eqn:En; [lia|]. reflexivity.
  - constructor; assumption.
  - cbn. rewrite C. symmetry. exact Esplit.
  - cbn. constructor; [exact So|]. destruct xs as [|y xs]; [constructor|]. assert (rest <> []) as Hr by (intros E; apply Hnil in E; discriminate).
    pose proof (B3 Hp Hr) as Hlt. rewrite Forall_map. apply Forall_forall. intros z Hz.
    assert (start_of rest <= start_of z.2) as Hle; [|lia]. 
    assert (exists w, w ∈ z.2 /\ vtime w = start_of z.2) as (w & Hw & <-).
    { rewrite Forall_forall in F. destruct (F z Hz) as ((Hne & _) & _). destruct (z.2) as [|w ws] eqn:Ez; [contradiction|]. exists w. split; [left|reflexivity]. }
    assert (w ∈ rest) as Hin by (rewrite <- C; apply list_elem_of_In, in_concat; exists z.2; split; [apply in_map_iff; exists z; split; [reflexivity|apply list_elem_of_In; exact Hz]|apply list_elem_of_In; exact Hw]).
    destruct (B2 Hr) as (_ & _ & I & _). destruct rest as [|r0 rest]; [contradiction|]. cbn. apply (increasing_head _ _ _ _ I Hin).
  - rewrite zlen_cons. destruct He' as [He'|He']; [lia|]. assert (rest = []) as E by (destruct rest; [reflexivity|rewrite zlen_cons in Zr; pose proof (zlen_nonneg rest); lia]).
    apply Hnil in E. subst xs. change (zlen (@nil (list Z * list Value))) with 0. lia.
  - split; discriminate.
Qed.

(** ** The iterator *)

Abbreviation lookup_values s k := (vals_of (slookup Sum64 s k)).

(** A sorted entry whose key and blocks fit into a file. *)
Definition entry_fits (k : list Z) (values : list Value) : Prop :=
  values = [] \/ 0 < zlen k <= maxKeyLength /\ block_ok values /\ zlen values <= DefaultMaxPointsPerBlock * 65533.

Definition column_blocks (c : bcolumn) : list cacheBlock := map (cache_block c.1) c.2.

Lemma columns_of_keys s ks :
  store_ok Sum64 s -> (forall k, entry_fits k (lookup_values s k)) -> Forall (fun k => lookup_values s k <> []) ks -> StronglySorted bytes_lt ks ->
  exists cs, mapM (encode_key Sum64 tsdb_EOF enc DefaultMaxPointsPerBlock s) ks = Some (map column_blocks cs) /\ map fst cs = ks /\ bcolumns_ok cs
    /\ Forall (fun c => concat (map snd c.2) = lookup_values s c.1) cs.
Proof.
  intros Hok Hfit F So. induction So as [|k ks So IH Hk]; [exists []; repeat split; constructor|]. apply Forall_cons in F as [Fk F].
  destruct (IH F) as (cs & Em & Ek & [Ho Hs] & Fv). destruct (Hfit k) as [?|(Hlen & Hb & Hz)]; [contradiction|].
  destruct (encode_values_spec DefaultMaxPointsPerBlock k (length (lookup_values s k)) 0 (lookup_values s k) ltac:(reflexivity) ltac:(lia) (or_intror Hb))
    as (xs & Ee & Fx & Cx & Sx & Zx & Nx).
  exists ((k, xs) :: cs). split; [|split; [|split; [split|]]].
  - apply mapM_Some_2. cbn [map]. constructor; [|apply mapM_Some_1; exact Em]. unfold encode_key. rewrite (st_entry_ok Sum64 s k Hok).
    unfold vals_of in *. destruct (slookup Sum64 s k) as [e|]; [exact Ee|contradiction].
  - cbn. rewrite Ek. reflexivity.
  - constructor; [|exact Ho]. split; [exact Hlen|]. cbn [snd]. split; [|split; assumption].
    assert (xs <> []) as Hx by (intros E; apply Nx in E; contradiction). unfold DefaultMaxPointsPerBlock in *. destruct xs as [|x xs]; [contradiction|].
    rewrite zlen_cons in *. pose proof (zlen_nonneg xs). unfold maxIndexEntries. lia.
  - constructor; [exact Hs|]. rewrite <- Ek, Forall_map in Hk. exact Hk.
  - constructor; assumption.
Qed.

Lemma sorted_keys_lt l : StronglySorted bytes_le l -> NoDup l -> StronglySorted bytes_lt l.
Proof.
  intros S. induction S as [|k l S IH F]; intros N; [constructor|]. inversion N as [|? ? Hk N']; subst. constructor; [exact (IH N')|].
  rewrite Forall_forall in F |- *. intros x Hx. destruct (proj1 (bytes_le_lt k x) (F x Hx)) as [-> | H]; [contradiction|exact H].
Qed.

Lemma iterator_columns s :
  store_ok Sum64 s -> (forall k, entry_fits k (lookup_values s k)) ->
  exists cs, NewCacheKeyIterator Sum64 tsdb_EOF enc DefaultMaxPointsPerBlock s = Some (mkCKI (-1) (map column_blocks cs) None)
    /\ bcolumns_ok cs /\ forall k, column_values (map values_of cs) k = lookup_values s k.
Proof.
  intros Hok Hfit.
  assert (StronglySorted bytes_lt (store_keys s) /\ forall k, k ∈ store_keys s <-> lookup_values s k <> []) as [So He].
  { destruct s as [|r]; cbn; [split; [constructor|]; intros k; split; [intros H; inversion H|intros H; contradiction]|].
    destruct (ring_keys_spec Sum64 r Hok) as (S & N & H). split; [exact (sorted_keys_lt _ S N)|]. intros k. rewrite H. unfold vals_of. split.
    - intros (e & -> & Hne). exact Hne.
    - destruct (rlookup Sum64 r k) as [e|]; [eauto|contradiction]. }
  destruct (columns_of_keys s (store_keys s) Hok Hfit) as (cs & Em & Ek & Hb & Fv); [apply Forall_forall; intros k; apply He|exact So|].
  exists cs. split; [|split; [exact Hb|]].
  - unfold NewCacheKeyIterator. rewrite Em. cbn [mbind option_bind]. do 2 f_equal.
    assert (block_errors (map column_blocks cs) = []) as ->; [|reflexivity]. unfold block_errors. clear. induction cs as [|[k xs] cs IH]; [reflexivity|].
    cbn. rewrite omap_app, IH, app_nil_r. unfold column_blocks. cbn. induction xs as [|x xs IHx]; [reflexivity|exact IHx].
  - intros k. destruct (decide (k ∈ store_keys s)) as [H|H].
    + rewrite <- Ek in H. apply list_elem_of_In, in_map_iff in H as (c & <- & Hc). apply list_elem_of_In in Hc. rewrite Forall_forall in Fv.
      rewrite <- (Fv c Hc). apply (column_values_in (map values_of cs) (values_of c)); [apply (values_ok cs Hb)|]. apply list_elem_of_In, in_map, list_elem_of_In. exact Hc.
    + assert (lookup_values s k = []) as -> by (destruct (lookup_values s k) eqn:E; [reflexivity|]; exfalso; apply H, He; congruence).
      unfold column_values. destruct (List.find _ _) as [c|] eqn:Ef; [|reflexivity]. exfalso. apply List.find_some in Ef as [Hin Hk]. apply bool_decide_eq_true in Hk.
      apply H. rewrite <- Ek, <- Hk. apply in_map_iff in Hin as (c' & <- & Hc'). apply list_elem_of_In. exact (in_map fst _ _ Hc').
Qed.

(** Its blocks come out as the calls of the writer. *)
Lemma cache_next it it1 it' c l :
  cki_Next it = (true, it1) -> cki_Read false it1 = Ok (inl c, it1) -> yields (KI := cache_iter) it1 l it' -> yields (KI := cache_iter) it (c :: l) it'.
Proof. intros N R Y. eapply yields_next; [cbn; rewrite N; reflexivity|exact R|exact Y]. Qed.

Definition call_of (b : cacheBlock) : list Z * Z * Z * list Z := (cb_k b, cb_minTime b, cb_maxTime b, cb_b b).

Lemma cki_at done cur rest : cki_current (mkCKI (Z.of_nat (length done)) (done ++ cur :: rest) None) = Some cur.
Proof.
  unfold cki_current. cbn [cki_i cki_blocks]. destruct (Z.ltb_spec (Z.of_nat (length done)) 0); [lia|]. rewrite Nat2Z.id, lookup_app_r, Nat.sub_diag by lia. reflexivity.
Qed.

(** The next block of the same key. *)
Lemma cki_more done b b2 cur rest l it' :
  cb_err b2 = None -> yields (KI := cache_iter) (mkCKI (Z.of_nat (length done)) (done ++ (b2 :: cur) :: rest) None) l it' ->
  yields (KI := cache_iter) (mkCKI (Z.of_nat (length done)) (done ++ (b :: b2 :: cur) :: rest) None) (call_of b2 :: l) it'.
Proof.
  intros Hb Y. eapply cache_next; [| |exact Y].
  - unfold cki_Next. rewrite cki_at. cbn [cki_i cki_blocks cki_err]. rewrite Nat2Z.id, insert_app_r_alt, Nat.sub_diag by lia. reflexivity.
  - unfold cki_Read. rewrite cki_at, Hb. reflexivity.
Qed.

Lemma cki_rest done cur rest :
  cur <> [] -> Forall (fun bs => bs <> []) rest -> Forall (Forall (fun b => cb_err b = None)) (cur :: rest) ->
  exists it', yields (KI := cache_iter) (mkCKI (Z.of_nat (length done)) (done ++ cur :: rest) None) (map call_of (drop 1 cur ++ concat rest)) it'.
Proof.
  revert done cur. induction rest as [|nxt rest IH]; intros done cur Hc Hr He.
  all: induction cur as [|b [|b2 cur] IHc]; [contradiction| |apply Forall_cons in He as [He0 He]; apply Forall_cons in He0 as [_ He0];
    destruct (IHc ltac:(discriminate) ltac:(constructor; [exact He0|exact He])) as [it' Y]; exists it'; apply Forall_cons in He0 as [Hb2 _];
    exact (cki_more _ _ _ _ _ _ _ Hb2 Y)].
  - eexists (mkCKI _ _ None). apply yields_end; [cbn [kit_Next cache_iter]; unfold cki_Next|reflexivity]. rewrite cki_at. cbn [cki_i cki_blocks cki_err]. rewrite zlen_app. change (zlen [[b]]) with 1.
    unfold zlen. destruct (Z.ltb_spec (Z.of_nat (length done) + 1) (Z.of_nat (length done) + 1)); [lia|]. reflexivity.
  - apply Forall_cons in Hr as [Hn Hr]. apply Forall_cons in He as [_ He]. pose proof He as He'. apply Forall_cons in He' as [Hen _].
    destruct nxt as [|b1 nxt]; [contradiction|]. apply Forall_cons in Hen as [Hb1 _].
    destruct (IH (done ++ [[]]) (b1 :: nxt) Hn Hr He) as [it' Y]. exists it'. cbn [concat map app drop]. pose proof (cki_at (done ++ [[]]) (b1 :: nxt) rest) as Hat.
    eapply cache_next; [| |exact Y].
    + unfold cki_Next. rewrite cki_at. cbn [cki_i cki_blocks cki_err]. rewrite Nat2Z.id, insert_app_r_alt, Nat.sub_diag by lia. cbn [list_insert insert].
      rewrite zlen_app, !zlen_cons, length_app. cbn [length]. unfold zlen. destruct (Z.ltb_spec (Z.of_nat (length done) + 1) (Z.of_nat (length done) + (1 + (1 + Z.of_nat (length rest))))); [|lia].
      rewrite <- app_assoc. cbn [app]. do 4 f_equal. lia.
    + unfold cki_Read. rewrite Hat, Hb1. reflexivity.
Qed.

Lemma calls_blocks cs : map call_of (concat (map column_blocks cs)) = calls cs.
Proof.
  unfold calls. induction cs as [|[k xs] cs IH]; [reflexivity|]. cbn. rewrite map_app, IH. f_equal. unfold column_blocks, calls_of. rewrite map_map. reflexivity.
Qed.

Lemma iterator_yields cs : bcolumns_ok cs -> exists it', yields (KI := cache_iter) (mkCKI (-1) (map column_blocks cs) None) (calls cs) it'.
Proof.
  intros [F _]. rewrite <- calls_blocks.
  assert (Forall (fun bs => bs <> []) (map column_blocks cs) /\ Forall (Forall (fun b => cb_err b = None)) (map column_blocks cs)) as [Hn He].
  { rewrite !Forall_map. split; (eapply Forall_impl; [exact F|]); intros [k xs] (_ & Hz & _); unfold column_blocks; cbn in *.
    - destruct xs; [unfold zlen in Hz; cbn in Hz; lia|discriminate].
    - rewrite Forall_map. apply Forall_true. reflexivity. }
  destruct (map column_blocks cs) as [|[|b bs] rest].
  - eexists. apply yields_end; reflexivity.
  - inversion Hn; contradiction.
  - inversion Hn as [|? ? _ Hr]; subst. destruct (cki_rest [] (b :: bs) rest ltac:(discriminate) Hr He) as [it' Y]. exists it'.
    apply Forall_cons in He as [He _]. apply Forall_cons in He as [Hb _]. cbn [concat map app]. eapply cache_next; [| |exact Y].
    + unfold cki_Next. cbn [cki_i cki_current cki_blocks cki_err]. rewrite zlen_cons. pose proof (zlen_nonneg rest). destruct (Z.ltb_spec (-1 + 1) (1 + zlen rest)); [reflexivity|lia].
    + unfold cki_Read. rewrite (cki_at [] (b :: bs) rest), Hb. reflexivity.
Qed.

(** ** One part of the cache *)

(** The size of the file of an iterator. *)
Definition file_size (bs : list (list cacheBlock)) : Z :=
  fold_right (fun l n => match l with [] => 0 | b :: _ => 5 + zlen (cb_k b) end + fold_right (fun b m => zlen (cb_b b) + 32 + m) 0 l + n) 13 bs.

(** The encoded blocks of a store fit into a file, and the fuel into them. *)
Definition part_fits (fuel : nat) (s : storer) : Prop :=
  forall it, NewCacheKeyIterator Sum64 tsdb_EOF enc DefaultMaxPointsPerBlock s = Some it ->
    file_size (cki_blocks it) < 2 ^ 31 /\ (length (concat (cki_blocks it)) < fuel)%nat.

Lemma file_size_columns cs : bcolumns_ok cs -> file_size (map column_blocks cs) = 13 + bytes_size cs + index_size (map values_of cs).
Proof.
  intros [F _]. induction F as [|[k xs] cs (_ & Hz & _) F IH]; [reflexivity|]. cbn [map file_size fold_right bytes_size index_size values_of fst snd] in *.
  fold (bytes_size cs). unfold file_size, index_size in IH |- *. rewrite IH. clear IH.
  assert (fold_right (fun b m => zlen (cb_b b) + 32 + m) 0 (column_blocks (k, xs)) = fold_right (fun x m => zlen x.1 + 4 + m) 0 xs + 28 * zlen (map snd xs)) as ->.
  { unfold column_blocks. cbn. clear. induction xs as [|x xs IH]; [reflexivity|]. cbn [map fold_right]. rewrite IH, zlen_cons. cbn. lia. }
  unfold column_blocks at 1. destruct xs as [|x xs]; [unfold zlen in Hz; cbn in Hz; lia|]. cbn [map cb_k cache_block fst snd]. lia.
Qed.

Definition hold_file (d : cdir) (f : string) (expected : list Z -> list Value) : Prop :=
  exists b r, cd_files d !! f = Some b /\ NewTSMReader b None = Ok r /\ reads r expected.

Lemma first_free gen d : index_free (tmp_name gen 1) d.
Proof. intros H. rewrite disk_index_first in H. discriminate. Qed.

(** A goroutine writes one file that holds the part, or none when it is empty. *)
Lemma write_split_spec (Sort_entries : list IndexEntry -> list IndexEntry) n fuel s env gen d :
  store_ok Sum64 s -> (forall k, entry_fits k (lookup_values s k)) -> part_fits fuel s -> undisturbed env -> calm d ->
  cd_files d !! tmp_name (gen + 1) 1 = None ->
  exists fs d', write_split Sum64 tsdb_EOF enc Sort_entries (S n) fuel s env gen d = (Ok (inl fs), d', gen + 1)
    /\ calm d' /\ (forall f, f <> tmp_name (gen + 1) 1 -> cd_files d' !! f = cd_files d !! f)
    /\ ((fs = [tmp_name (gen + 1) 1] /\ hold_file d' (tmp_name (gen + 1) 1) (fun k => lookup_values s k))
        \/ (fs = [] /\ d' = d /\ forall k, lookup_values s k = [])).
Proof.
  intros Hok Hfit Hpart U C N. destruct (iterator_columns s Hok Hfit) as (cs & Ei & Hb & Hv). destruct (iterator_yields cs Hb) as [it' Y].
  destruct (Hpart _ Ei) as [Hz Hfuel]. cbn [cki_blocks] in Hz, Hfuel. rewrite (file_size_columns cs Hb) in Hz.
  assert ((length (calls cs) < fuel)%nat) as Hf by (rewrite <- calls_blocks, length_map; exact Hfuel).
  unfold write_split. rewrite Ei. cbn [NextGeneration].
  assert (cs = [] \/ cs <> []) as [->|Hne] by (destruct cs; [left|right]; congruence).
  - destruct (writeNewFiles_none Sort_entries (KI := cache_iter) n fuel (gen + 1) 0 _ _ env d Y U ltac:(cbn in Hf; lia) C N (first_free _ d)) as (env' & E).
    rewrite E. exists [], d. split; [reflexivity|]. split; [exact C|]. split; [auto|]. right. split; [reflexivity|]. split; [reflexivity|]. intros k. rewrite <- Hv. reflexivity.
  - destruct (writeNewFiles_one Sort_entries (KI := cache_iter) n fuel (gen + 1) 0 _ cs _ env d Y Hb Hne Hz U Hf C N (first_free _ d)) as (b & env' & E & T & L).
    rewrite E. exists [tmp_name (gen + 1) 1], (cd_put (tmp_name (gen + 1) 1) b d). split; [reflexivity|]. split; [exact C|]. split.
    { intros f Hd. apply lookup_insert_ne. intros <-. apply Hd. reflexivity. }
    left. split; [reflexivity|]. destruct (open_reads b (map values_of cs) T (values_ok cs Hb) L) as (r & Er & Hr). exists b, r.
    split; [apply lookup_insert_eq|]. split; [exact Er|]. intros key q Hq. destruct (Hr key q Hq) as (q' & Eq & Hq'). exists q'. split; [|exact Hq']. rewrite Eq, Hv. reflexivity.
Qed.

(** ** All parts *)

(** What a goroutine reports for its part. *)
Definition wrote (d : cdir) (s : storer) (r : list string + cerr) : Prop :=
  exists fs, r = inl fs /\ ((exists f, fs = [f] /\ hold_file d f (fun k => lookup_values s k)) \/ (fs = [] /\ forall k, lookup_values s k = [])).

Definition part_ok (fuel : nat) (s : storer) : Prop := store_ok Sum64 s /\ (forall k, entry_fits k (lookup_values s k)) /\ part_fits fuel s.

Lemma hold_file_same d d' f g : cd_files d' !! f = cd_files d !! f -> hold_file d f g -> hold_file d' f g.
Proof. intros E (b & r & Eb & H). exists b, r. rewrite E. auto. Qed.

Lemma write_splits_spec (Sort_entries : list IndexEntry -> list IndexEntry) n fuel order gen d :
  Forall (fun x => part_ok fuel x.1 /\ undisturbed x.2) order -> calm d -> 0 <= gen -> gen + zlen order < 2 ^ 32 ->
  (forall g, gen < g <= gen + zlen order -> cd_files d !! tmp_name g 1 = None) ->
  exists l d', write_splits Sum64 tsdb_EOF enc Sort_entries (S n) fuel order gen d = (Ok l, d', gen + zlen order)
    /\ (forall f, (forall g, gen < g <= gen + zlen order -> f <> tmp_name g 1) -> cd_files d' !! f = cd_files d !! f)
    /\ Forall2 (fun x r => wrote d' x.1 r) order l.
Proof.
  intros F. revert gen d. induction F as [|[s env] order [(Hok & Hfit & Hpart) U] F IH]; intros gen d C Hg Hlen Hnew.
  { exists [], d. change (zlen (@nil (storer * list event))) with 0. rewrite Z.add_0_r. auto. }
  rewrite zlen_cons in *. pose proof (zlen_nonneg order). cbn [write_splits fst snd] in *.
  destruct (write_split_spec Sort_entries n fuel s env gen d Hok Hfit Hpart U C (Hnew (gen + 1) ltac:(lia))) as (fs & d1 & E1 & C1 & O1 & H1).
  assert (forall g, gen + 1 < g <= gen + (1 + zlen order) -> tmp_name g 1 <> tmp_name (gen + 1) 1) as Hd by (intros g Hgt E; apply tmp_name_inj in E; lia).
  rewrite E1. destruct (IH (gen + 1) d1 C1 ltac:(lia) ltac:(lia)) as (l & d2 & E2 & O2 & H2).
  { intros g Hgt. rewrite O1 by (apply Hd; lia). apply Hnew. lia. }
  rewrite E2, <- Z.add_assoc. exists (inl fs :: l), d2. split; [reflexivity|]. split.
  - intros f Hf. rewrite O2, O1; [reflexivity|apply Hf; lia|]. intros g Hgt. apply Hf. lia.
  - constructor; [|exact H2]. exists fs. split; [reflexivity|]. destruct H1 as [[-> H1]|(-> & _ & H1)]; [left|right; auto].
    eexists. split; [reflexivity|]. eapply hold_file_same; [|exact H1]. apply O2. intros g Hgt E. symmetry in E. revert E. apply Hd. lia.
Qed.

(** The results, in any order of arrival. *)
Lemma arrivals d ss l acc :
  Forall2 (wrote d) ss l ->
  exists fs cont, fold_left arrive l (acc, None) = (acc ++ fs, None) /\ Forall2 (hold_file d) fs cont
    /\ forall k, concat (map (fun c => c k) cont) = concat (map (fun s => lookup_values s k) ss).
Proof.
  intros F. revert acc. induction F as [|s r ss l (fs & -> & H) F IH]; intros acc; cbn [fold_left arrive fst snd].
  - exists [], []. rewrite app_nil_r. auto.
  - destruct (IH (acc ++ fs)) as (fs' & cont & E & F2 & Hc). destruct H as [(f & -> & Hf)|[-> Hn]].
    + exists (f :: fs'), ((fun k => lookup_values s k) :: cont). rewrite E, <- app_assoc. split; [reflexivity|]. split; [constructor; assumption|].
      intros k. cbn. rewrite Hc. reflexivity.
    + exists fs', cont. rewrite E, app_nil_r. split; [reflexivity|]. split; [exact F2|]. intros k. cbn. rewrite Hn, Hc. reflexivity.
Qed.

(** One part has the key, the others have not. *)
Definition single {A B} (f : A -> list B) (l : list A) (v : list B) : Prop :=
  exists l1 x l2, l = l1 ++ x :: l2 /\ f x = v /\ Forall (fun y => f y = []) (l1 ++ l2).

Lemma single_concat {A B} (f : A -> list B) l v : single f l v -> concat (map f l) = v.
Proof.
  intros (l1 & x & l2 & -> & <- & F). apply Forall_app in F as [F1 F2]. rewrite map_app, concat_app. cbn.
  assert (forall l, Forall (fun y => f y = []) l -> concat (map f l) = []) as H by (induction 1 as [|y m Hy _ IH]; [reflexivity|]; cbn; rewrite Hy; exact IH).
  rewrite (H l1 F1), (H l2 F2), app_nil_r. reflexivity.
Qed.

Lemma single_perm {A B} (f : A -> list B) l l' v : l ≡ₚ l' -> single f l v -> single f l' v.
Proof.
  intros P (l1 & x & l2 & -> & Hx & F). assert (x ∈ l') as Hin by (rewrite <- P; apply elem_of_app; right; left).
  apply list_elem_of_split in Hin as (m1 & m2 & ->). exists m1, x, m2. split; [reflexivity|]. split; [exact Hx|].
  rewrite <- !Permutation_middle in P. apply Permutation_cons_inv in P. rewrite <- P. exact F.
Qed.

Lemma split_parts n cache r :
  c_store cache = RingStore r -> ring_ok Sum64 r -> (1 <= n)%nat ->
  exists ss, c_Split n cache = Ok ss /\ length ss = n /\ Forall (store_ok Sum64) ss /\ (forall k s, s ∈ ss -> lookup_values s k = [] \/ lookup_values s k = lookup_values (RingStore r) k)
    /\ forall k, single (fun s => lookup_values s k) ss (lookup_values (RingStore r) k).
Proof.
  intros Es Hr Hn. unfold c_Split. rewrite Es. destruct (Nat.eqb_spec n 1) as [->|Hn1].
  - exists [RingStore r]. split; [reflexivity|]. split; [reflexivity|]. split; [constructor; [exact Hr|constructor]|]. split.
    + intros k s Hs. apply list_elem_of_singleton in Hs as ->. right. reflexivity.
    + intros k. exists [], (RingStore r), []. split; [reflexivity|]. split; [reflexivity|constructor].
  - destruct (Nat.eqb_spec n 0); [lia|]. exists (map RingStore (ring_split n r)). split; [reflexivity|].
    assert (length (ring_split n r) = n) as Hl by (unfold ring_split; rewrite length_map, length_seq; reflexivity).
    assert (forall j s, map RingStore (ring_split n r) !! j = Some s -> store_ok Sum64 s /\
      forall k, lookup_values s k = if decide (j = (part_index Sum64 k mod n)%nat) then lookup_values (RingStore r) k else []) as Hj.
    { intros j s Hs. rewrite list_lookup_fmap in Hs. destruct (ring_split n r !! j) as [rj|] eqn:Ej; [|discriminate]. injection Hs as <-.
      destruct (ring_split_spec Sum64 r n j rj Hr Ej) as [Hok Hk]. split; [exact Hok|]. intros k. cbn. rewrite Hk. destruct (decide _); reflexivity. }
    split; [rewrite length_map; exact Hl|]. split; [|split].
    + apply Forall_lookup. intros j s Hs. apply (Hj j s Hs).
    + intros k s Hs. apply list_elem_of_lookup in Hs as [j Hs]. rewrite (proj2 (Hj j s Hs) k). destruct (decide _); auto.
    + intros k. set (j := (part_index Sum64 k mod n)%nat). assert ((j < n)%nat) as Hlt by (apply Nat.mod_upper_bound; lia).
      destruct (lookup_lt_is_Some_2 (map RingStore (ring_split n r)) j) as [s Hs]; [rewrite length_map, Hl; exact Hlt|].
      pose proof (take_drop_middle _ _ _ Hs) as Ess. exists (take j (map RingStore (ring_split n r))), s, (drop (S j) (map RingStore (ring_split n r))).
      split; [symmetry; exact Ess|]. split; [rewrite (proj2 (Hj j s Hs) k), decide_True by reflexivity; reflexivity|].
      apply Forall_app. split; apply Forall_lookup; intros i s' Hi.
      * apply lookup_take_Some in Hi as [Hi Hij]. rewrite (proj2 (Hj i s' Hi) k), decide_False by lia. reflexivity.
      * rewrite lookup_drop in Hi. rewrite (proj2 (Hj _ s' Hi) k), decide_False by lia. reflexivity.
Qed.

(** ** The whole snapshot *)

(** Values as they were written, in any order, of a key that fits into a file. *)
Definition raw_fits (k : list Z) (values : list Value) : Prop :=
  values = [] \/ 0 < zlen k <= maxKeyLength /\ storable values /\ zlen values <= DefaultMaxPointsPerBlock * 65533.

Lemma storable_times values : storable values -> Forall (fun v => is_i64 (vtime v)) values.
Proof.
  unfold BlockFacts.timed. intros [l T _|l T _|l T _|l T|l T _]; rewrite Forall_map; exact T.
Qed.

(** Deduplication sorts them. *)
Lemma raw_dedup k e : raw_fits k (e_values e) -> entry_fits k (e_values (entry_deduplicate tsdb_EOF e)).
Proof.
  intros [E|(Hk & Hs & Hz)].
  - left. unfold entry_deduplicate. rewrite E. exact E.
  - destruct (dedup_vals tsdb_EOF e) as (Hi & _ & Hn). pose proof (dedup_sub tsdb_EOF e) as Hsub. set (l := e_values (entry_deduplicate tsdb_EOF e)) in *.
    destruct (decide (l = [])) as [->|Hne]; [left; reflexivity|]. right. split; [exact Hk|]. pose proof (submseteq_length _ _ Hsub) as Hlen.
    assert (zlen l <= DefaultMaxPointsPerBlock * 65533) as Hl by (unfold zlen in *; lia). split; [|exact Hl].
    pose proof (storable_submseteq _ _ Hsub Hs) as Hst. split; [exact Hne|]. split; [split; [exact Hst|unfold DefaultMaxPointsPerBlock in Hl; lia]|].
    split; [exact Hi|apply storable_times, Hst].
Qed.

Definition schedule_ok (sd : schedule) : Prop :=
  (forall ss, map fst (sd_order sd ss) ≡ₚ ss /\ Forall (fun x => undisturbed x.2) (sd_order sd ss)) /\ forall l, sd_arrival sd l ≡ₚ l.

Lemma concurrency_bounds procs card : 1 <= snapshot_concurrency procs card <= 4.
Proof.
  unfold snapshot_concurrency. cbv zeta. set (m := procs ÷ 2). destruct (Z.ltb_spec m 1); cbn; repeat destruct (_ >=? _); repeat (match goal with |- context [?a >? ?b] => destruct (Z.gtb_spec a b) end); lia.
Qed.

(** C14 (round trip). Flushing the cache: after [Deduplicate], [WriteSnapshot] with
    any number of goroutines, in any order, writes the entries of all keys, whatever
    order the values were written in, without error.  The files it names open, and
    together they hold, for every key, exactly the values of the cache: in time order
    and for each time the value written last.  No other file of the directory
    changes.  Each part has to fit into one file. *)
Theorem snapshot_written (Sort_entries : list IndexEntry -> list IndexEntry) (procs : Z) (n fuel : nat) (sd : schedule)
    (cache : Cache) (r : ring) (c : Compactor) (gen : Z) (d : cdir) :
  c_store cache = RingStore r -> ring_ok Sum64 r -> c_snapshotsEnabled c = true ->
  (forall k, raw_fits k (lookup_values (RingStore r) k)) -> schedule_ok sd ->
  let sorted := c_Deduplicate tsdb_EOF cache in
  (forall ss, c_Split (Z.to_nat (snapshot_concurrency procs (c_Count sorted))) sorted = Ok ss -> Forall (part_fits fuel) ss) ->
  calm d -> 0 <= gen -> gen + 4 < 2 ^ 32 -> (forall g, cd_files d !! tmp_name g 1 = None) ->
  exists files contents d' gen',
    WriteSnapshot Sum64 tsdb_EOF enc Sort_entries procs (S n) fuel sd true sorted c gen d = (Ok (files, None), d', gen')
    /\ gen < gen' <= gen + 4 /\ (forall f, (forall g, f <> tmp_name g 1) -> cd_files d' !! f = cd_files d !! f)
    /\ Forall2 (hold_file d') files contents
    /\ forall k, let l := concat (map (fun content => content k) contents) in
         increasing vtime l /\ tmap tsdb_EOF l = tmap tsdb_EOF (lookup_values (RingStore r) k).
Proof.
  intros Es Hr En Hraw [Ho Ha] sorted Hfit C Hg0 Hg4 Hfree.
  destruct (ring_apply_spec Sum64 r (fun _ => entry_deduplicate tsdb_EOF) Hr) as [Hr' Hl]. set (r' := ring_apply (fun _ => entry_deduplicate tsdb_EOF) r) in *.
  assert (c_store sorted = RingStore r') as Es' by (unfold sorted, c_Deduplicate; cbn; rewrite Es; reflexivity).
  assert (forall k, entry_fits k (lookup_values (RingStore r') k)) as Hent.
  { intros k. specialize (Hraw k). cbn in Hraw |- *. rewrite Hl. destruct (rlookup Sum64 r k) as [e|]; [apply raw_dedup, Hraw|left; reflexivity]. }
  unfold WriteSnapshot. rewrite En. cbn [negb]. pose proof (concurrency_bounds procs (c_Count sorted)) as Hc. set (w := snapshot_concurrency procs (c_Count sorted)) in *.
  destruct (split_parts (Z.to_nat w) sorted r' Es' Hr' ltac:(lia)) as (ss & Esp & Hlen & Hok & Hsub & Hone). rewrite Esp. pose proof (Hfit ss Esp) as Hparts.
  destruct (Ho ss) as [Hperm Hquiet].
  assert (Forall (fun x => part_ok fuel x.1 /\ undisturbed x.2) (sd_order sd ss)) as Hp.
  { apply Forall_and. split; [|exact Hquiet]. apply (Forall_map fst (part_ok fuel)). rewrite Hperm. apply Forall_forall. intros s Hs. rewrite Forall_forall in Hok, Hparts.
    split; [exact (Hok s Hs)|]. split; [|exact (Hparts s Hs)]. intros k. destruct (Hsub k s Hs) as [-> | ->]; [left; reflexivity|apply Hent]. }
  assert (zlen (sd_order sd ss) = w) as Hz by (apply Permutation_length in Hperm; rewrite length_map in Hperm; unfold zlen; lia).
  destruct (write_splits_spec Sort_entries n fuel (sd_order sd ss) gen d Hp C Hg0 ltac:(lia) ltac:(auto)) as (l & d' & E & Hother & F). rewrite E.
  assert (Forall2 (wrote d') (map fst (sd_order sd ss)) l) as F1 by (clear -F; induction F; cbn; constructor; assumption).
  assert (exists ss', ss' ≡ₚ ss /\ Forall2 (wrote d') ss' (sd_arrival sd l)) as (ss' & P' & F').
  { apply Forall2_flip in F1. destruct (Permutation_Forall2 (symmetry (Ha l)) F1) as (ss' & P' & F'). exists ss'. split; [rewrite <- P'; exact Hperm|]. apply Forall2_flip. exact F'. }
  destruct (arrivals d' ss' (sd_arrival sd l) [] F') as (files & contents & Efold & Hhold & Hcont). rewrite Efold. cbn [app].
  exists files, contents, d', (gen + zlen (sd_order sd ss)). split; [reflexivity|]. split; [lia|]. split; [intros f Hf; apply Hother; auto|]. split; [exact Hhold|].
  intros k. cbv zeta. rewrite Hcont, (single_concat _ _ _ (single_perm _ _ _ _ (symmetry P') (Hone k))). cbn. rewrite Hl.
  destruct (rlookup Sum64 r k) as [e|]; cbn; [destruct (dedup_vals tsdb_EOF e) as (H1 & H2 & _); auto|split; [constructor|reflexivity]].
Qed.
End Snapshot.

(** ** A witness: two keys, one written out of order and twice at the same time *)

#[local] Existing Instances plain_words plain_laws list_stream list_stream_laws id_snappy id_snappy_laws list_bytesutil list_bytesutil_laws id_gzip id_gzip_laws.

Definition flushed_ops : list cop := [OWrite key_ex [v_ex 30 1; v_ex 10 2; v_ex 30 3]; OWrite [97] [v_ex 5 7]].
Definition flushed_cache : Cache := (exec_all sum_ex 0 flushed_ops (NewCache 1000 0)).2.
Definition flushed_ring : ring := match c_store flushed_cache with RingStore r => r | EmptyStore => mkRing 0 [] end.
Definition one_writer : schedule := mkSched (map (fun s => (s, []))) (fun l => l).
Definition snapshots_on : Compactor := Compactor_Open (mkCompactor 0 false false NilChan NilChan None).

Lemma flushed_store : c_store flushed_cache = RingStore flushed_ring.
Proof. vm_compute. reflexivity. Qed.

Lemma flushed_raw k : raw_fits k (vals_of (slookup sum_ex (RingStore flushed_ring) k)).
Proof.
  assert (forall l, Forall (fun x : Z * Z => is_i64 x.1 /\ is_i64 x.2) l -> storable (map (fun x => v_ex x.1 x.2) l)) as Hst.
  { intros l F. assert (map (fun x : Z * Z => v_ex x.1 x.2) l = map VInteger (map (fun x => mkTV x.1 x.2) l)) as -> by (rewrite map_map; reflexivity).
    apply st_integer; unfold BlockFacts.timed; rewrite Forall_map; (eapply Forall_impl; [exact F|]); intros x [H1 H2]; assumption. }
  assert (r_partitions flushed_ring !! 5%nat = Some (<[key_ex := mkE [v_ex 30 1; v_ex 10 2; v_ex 30 3] 2]> (<[[97] := mkE [v_ex 5 7] 2]> ∅))) as Ep by (vm_compute; reflexivity).
  cbn [slookup]. unfold rlookup, getPartition. change (part_index sum_ex k) with 5%nat. rewrite Ep.
  destruct (decide (k = key_ex)) as [->|H1]; [|destruct (decide (k = [97])) as [->|H2]].
  - rewrite lookup_insert_eq. right. split; [split; vm_compute; congruence|]. split; [|vm_compute; congruence].
    apply (Hst [(30, 1); (10, 2); (30, 3)]). repeat constructor; vm_compute; congruence.
  - rewrite lookup_insert_ne, lookup_insert_eq by discriminate. right. split; [split; vm_compute; congruence|]. split; [|vm_compute; congruence].
    apply (Hst [(5, 7)]). repeat constructor; vm_compute; congruence.
  - rewrite !lookup_insert_ne by congruence. left. reflexivity.
Qed.

Lemma snapshot_written_witness :
  exists files contents d' gen',
    WriteSnapshot sum_ex 0 (fun _ _ => encoders_ex) no_sort 2 1 10 one_writer true (c_Deduplicate 0 flushed_cache) snapshots_on 7 (mkDir ∅ []) = (Ok (files, None), d', gen')
    /\ Forall2 (hold_file 0 encoders_ex d') files contents
    /\ forall k, let l := concat (map (fun content => content k) contents) in
         increasing (Value_UnixNano 0) l /\ tmap 0 l = tmap 0 (vals_of (slookup sum_ex (RingStore flushed_ring) k)).
Proof.
  destruct (snapshot_written sum_ex 0 (fun _ _ => encoders_ex) encoders_ex no_sort 2 0 10 one_writer flushed_cache flushed_ring snapshots_on 7 (mkDir ∅ []))
    as (files & contents & d' & gen' & E & _ & _ & H1 & H2).
  - exact flushed_store.
  - pose proof (typed_exec_all sum_ex 0 flushed_ops _ (typed_new sum_ex 1000 0)) as T. fold flushed_cache in T.
    pose proof (proj1 (tc_live _ _ T)) as Hr. rewrite flushed_store in Hr. exact Hr.
  - reflexivity.
  - exact flushed_raw.
  - split; [|reflexivity]. intros ss. unfold one_writer. cbn. rewrite map_map, map_id. split; [reflexivity|]. rewrite Forall_map. apply Forall_true. constructor.
  - intros ss Hs. change (Z.to_nat (snapshot_concurrency 2 (c_Count (c_Deduplicate 0 flushed_cache)))) with 1%nat in Hs. injection Hs as <-.
    constructor; [|constructor]. intros it Hit.
    assert (NewCacheKeyIterator sum_ex 0 (fun _ _ => encoders_ex) DefaultMaxPointsPerBlock (c_store (c_Deduplicate 0 flushed_cache)) = Some it) as E by exact Hit.
    vm_compute in E. injection E as <-. split; vm_compute; [reflexivity|lia].
  - reflexivity.
  - lia.
  - lia.
  - intros g. apply lookup_empty.
  - exists files, contents, d', gen'. auto.
Defined.
