(* ===== verification/CompactionDone.v ===== *)
(** * Compacting files, end to end

    [CompactFull] and [CompactFast] of [compact.go] on readers of TSM files: the
    new file opens and reads as the files overlaid, later ones on earlier ones,
    without what was deleted. *)

From S2P Require Import Prelude Bytes Values Simple8b TimeCodec IntCodec BoolCodec StringCodec BitReader FloatCodec ValueCodec Varint Blocks BlockFacts TypedValues TSMWriter TSMIndex TSMIndexFacts TSMDelete Tombstone TSMReader TSMFile TSMDurable TSMStore TSMNames.
From S2P Require Import OSFile WAL KeyIterator KeyMerge KeyTypes KeyFiles Compactor CompactorFacts.

Section Done.
Context `{S8 : Simple8b} `{L8 : !Simple8bLaws} `{SN : Snappy} `{LS : !SnappyLaws} `{BS : BitStream} `{LB : !BitStreamLaws}.
Context `{BU : BytesUtil} {UL : BytesUtilLaws} `{GZ : Gzip} {GL : GzipLaws}.
Context (p : encoders) (q : decoders) (Hq : usable q) (tsdb_EOF : Z).

#[local] Instance done_blocks : BlockCodec Value decoders := value_blocks p tsdb_EOF.
#[local] Instance done_blocks_laws : BlockCodecLaws done_blocks := value_blocks_laws p tsdb_EOF.
#[local] Existing Instances vw_TC vw_TL.

Abbreviation vtime := (Value_UnixNano tsdb_EOF).

(** ** Blocks of one type as tagged blocks *)

Lemma typed_dispatch {V} {VC : ValueCodec V} b td vd vs td' vd' :
  DecodeBlockOf b td vd = (Some (vs, None), td', vd') -> exists r, b = vc_type :: r /\ (zlen b <=? 1) = false.
Proof.
  unfold DecodeBlockOf. destruct b as [|t r]; [discriminate|]. destruct (Z.eqb_spec t vc_type) as [->|]; [|discriminate]. cbn [negb].
  destruct (unpackBlock r) as [[tb vb]|e|] eqn:Eu; [|discriminate|discriminate]. intros _. exists r. split; [reflexivity|]. apply (long_block _ _ _ Eu).
Qed.

(** What a view adds to the tagged values. *)
Definition tagged (vw : view p q) (w : vw_V p q vw -> Value) : Prop :=
  (forall v, vtime (w v) = tc_time v)
  /\ (forall b q1 vs q2, tc_Decode b q1 = (Some (vs, None), q2) -> DecodeBlock b q1 = (Some (map w vs, None), q2))
  /\ (forall vs, Forall tc_val vs -> zlen vs <= @tc_max _ _ (vw_TL p q vw) -> storable (map w vs) /\ zlen vs < 2 ^ 58).

Ltac dispatch :=
  let b := fresh "b" in let vs := fresh "vs" in let E := fresh "E" in let Ed := fresh "Ed" in let r := fresh "r" in let Hl := fresh "Hl" in
  intros b ? vs ? E;
  cbn [vw_TC tc_Decode float_view integer_view unsigned_view boolean_view string_view float_values integer_values unsigned_values boolean_values string_values] in E;
  match type of E with (match ?d with pair _ _ => _ end) = _ => destruct d as [[? ?] ?] eqn:Ed end;
  injection E as -> <-; destruct (typed_dispatch _ _ _ _ _ _ Ed) as (r & -> & Hl);
  unfold DecodeBlock; rewrite Hl; cbn [BlockType vc_type]; rewrite Ed; reflexivity.

Lemma views_tagged vw : vw ∈ views p q Hq -> exists w, tagged vw w.
Proof.
  intros H. unfold views in H. repeat (apply elem_of_cons in H as [->|H]); [..|apply elem_of_nil in H as []].
  - exists VFloat. split; [reflexivity|]. split; [dispatch|]. intros vs F Z. apply Forall_and_l in F as [F1 F2]. split; [constructor; assumption|]. change (zlen vs <= 2 ^ 57) in Z. lia.
  - exists VInteger. split; [reflexivity|]. split; [dispatch|]. intros vs F Z. apply Forall_and_l in F as [F1 F2]. split; [constructor; assumption|]. change (zlen vs <= 2 ^ 57) in Z. lia.
  - exists VUnsigned. split; [reflexivity|]. split; [dispatch|]. intros vs F Z. apply Forall_and_l in F as [F1 F2]. split; [constructor; assumption|]. change (zlen vs <= 2 ^ 57) in Z. lia.
  - exists VBoolean. split; [reflexivity|]. split; [dispatch|]. intros vs F Z. split; [constructor; assumption|]. change (zlen vs <= 2 ^ 57) in Z. lia.
  - exists VString. split; [reflexivity|]. split; [dispatch|]. intros vs F Z. apply Forall_and_l in F as [F1 F2]. change (zlen vs <= 2 ^ 24) in Z. split; [constructor; [assumption|]|lia].
    pose proof (enc_strings_bound (map value vs) (2 ^ 32) ltac:(apply Forall_map; exact F2)) as B. rewrite zlen_map in B.
    assert (zlen (enc_strings (map value vs)) <= 2 ^ 24 * (2 ^ 32 + 10)) by (etransitivity; [exact B|apply Z.mul_le_mono_nonneg_r; [lia|exact Z]]). lia.
Qed.

Lemma view_max vw : vw ∈ views p q Hq -> 2 ^ 24 <= @tc_max _ _ (vw_TL p q vw).
Proof.
  intros H. unfold views in H. repeat (apply elem_of_cons in H as [->|H]); [..|apply elem_of_nil in H as []]; cbn; lia.
Qed.

Lemma view_count vw b : vw ∈ views p q Hq -> tc_Count (TypedCodec := vw_TC p q vw) b = BlockCount b.
Proof. intros H. unfold views in H. repeat (apply elem_of_cons in H as [->|H]); [..|apply elem_of_nil in H as []]; reflexivity. Qed.

(** ** One key *)

Lemma increasing_map {V} (U : V -> Z) (w : V -> Value) l : (forall v, vtime (w v) = U v) -> increasing U l -> increasing vtime (map w l).
Proof.
  intros E H. unfold increasing in *. induction H as [|v l H IH F]; cbn; constructor; [exact IH|]. rewrite Forall_map. eapply Forall_impl; [exact F|].
  intros x Hx. cbn in *. rewrite !E. exact Hx.
Qed.

Lemma first_start {V} (U : V -> Z) (w : V -> Value) l : (forall v, vtime (w v) = U v) -> first_time U l = start_of (map w l) /\ last_time U l = end_of (map w l).
Proof.
  intros E. unfold first_time, last_time, start_of, end_of. split; [destruct l; cbn; [reflexivity|symmetry; apply E]|].
  change (map w l) with (w <$> l). rewrite fmap_last. destruct (last l); cbn; [symmetry; apply E|reflexivity].
Qed.

(** Blocks of increasing values follow each other. *)
Lemma concat_ordered (ls : list (list Value)) :
  increasing vtime (concat ls) -> Forall (fun l => l <> []) ls -> StronglySorted (fun a b => end_of a < start_of b) ls.
Proof.
  intros I F. induction F as [|l ls Hl F IH]; [constructor|]. cbn in I. unfold increasing in I. pose proof I as I'. apply StronglySorted_app in I as (I1 & I2 & I3).
  constructor; [apply IH, I3|]. rewrite Forall_forall in F |- *. intros m Hm. unfold end_of, start_of.
  destruct (last l) as [x|] eqn:El; [|apply last_None in El; contradiction]. destruct m as [|y m]; [destruct (F [] Hm eq_refl)|]. cbn. apply I1.
  - apply last_Some in El as [l' ->]. apply elem_of_app. right. left.
  - apply list_elem_of_In, in_concat. exists (y :: m). split; [apply list_elem_of_In; exact Hm|left; reflexivity].
Qed.

(** The blocks handed out for a key, as calls of the writer. *)
Definition key_written (k : list Z) (bs : list block) (xs : list (list Z * list Value)) : Prop :=
  exists vw w all vs, vw ∈ views p q Hq /\ tagged vw w /\ Forall2 (holds_piece k) bs all
    /\ concat (map snd xs) = map w vs /\ increasing tc_time vs /\ to_map tc_time vs = content all.

Lemma merged_column size k bs out :
  merged_as p q Hq size k bs out -> size <= 2 ^ 24 -> Forall (fun b => forall n, BlockCount (blk_b b) = Some n -> n <= 2 ^ 24) bs ->
  exists xs, out = calls_of (k, xs) /\ Forall (fun x => encodes x.1 x.2) xs /\ StronglySorted (fun a b => end_of a < start_of b) (map snd xs) /\ key_written k bs xs.
Proof.
  intros (vw & Hvw & all & blocks & outs & Hp & -> & Hh & I & M & Ho) Hsz Hcnt. destruct (views_tagged vw Hvw) as (w & Tw). pose proof Tw as (Tt & Td & Ts). pose proof (view_max vw Hvw) as Hmax.
  assert (Forall (fun x => zlen x.1 <= 2 ^ 24) all) as Hall.
  { clear -Hp Hcnt Hvw. induction Hp as [|b x bs all (Hx & _) _ IH]; [constructor|]. apply Forall_cons in Hcnt as [Hb Hcnt]. constructor; [|exact (IH Hcnt)].
    apply Hb. rewrite <- (view_count vw _ Hvw). apply Hx. }
  assert (Forall (fun o => o <> [] /\ zlen o <= @tc_max _ _ (vw_TL p q vw)) outs) as Hol.
  { eapply Forall_impl; [exact Ho|]. intros o [Hne Hz]. split; [exact Hne|]. destruct Hz as [Hz|Hz]; [lia|]. rewrite Forall_forall in Hall. specialize (Hall _ Hz). cbn in Hall. lia. }
  set (xs := zip_with (fun b o => (blk_b b, map w o)) blocks outs).
  assert (map handed_out blocks = calls_of (k, xs) /\ Forall (fun x => encodes x.1 x.2) xs /\ map snd xs = map (map w) outs) as (E1 & E2 & E3).
  { unfold xs. clear -Hh Hol Tt Td Ts. induction Hh as [|b o blocks outs Hb _ IH]; [repeat split; constructor|]. apply Forall_cons in Hol as [[Hne Hz] Hol].
    destruct (IH Hol) as (E1 & E2 & E3). destruct Hb as [Kb Nb Ib Vb Tb Db Cb Mb Xb]. destruct (first_start tc_time w o Tt) as [F1 F2]. cbn [zip_with map calls_of fst snd] in *. split; [|split].
    - rewrite E1. unfold handed_out at 1. rewrite Kb, Mb, Xb, F1, F2. reflexivity.
    - constructor; [|exact E2]. cbn. destruct (Ts o Vb Hz) as [St Zo]. split; [|split].
      + split; [destruct o; [contradiction|discriminate]|]. split; [split; [exact St|rewrite zlen_map; exact Zo]|]. split; [apply (increasing_map tc_time w o Tt Ib)|].
        rewrite Forall_map. eapply Forall_impl; [exact Tb|]. intros v Hv. cbn. rewrite Tt. exact Hv.
      + destruct (Db _ fresh_usable) as (q2 & Ed & _). eapply decoded_type. apply (Td _ _ _ _ Ed).
      + intros q1 Hq1. destruct (Db q1 Hq1) as (q2 & Ed & Hq2). exists q2. split; [apply (Td _ _ _ _ Ed)|exact Hq2].
    - rewrite E3. reflexivity. }
  exists xs. split; [exact E1|]. split; [exact E2|]. split.
  - rewrite E3. apply concat_ordered.
    + rewrite <- concat_map. apply (increasing_map tc_time w _ Tt I).
    + rewrite Forall_map. eapply Forall_impl; [exact Hol|]. intros o [Hne _]. destruct o; [contradiction|discriminate].
  - exists vw, w, all, (concat outs). split; [exact Hvw|]. split; [exact Tw|]. split; [exact Hp|]. rewrite E3, <- concat_map. auto.
Qed.

(** ** All keys *)

Lemma sorted_filter (P : handed -> bool) l : StronglySorted bytes_le (map handed_key l) -> StronglySorted bytes_le (map handed_key (List.filter P l)).
Proof.
  induction l as [|x l IH]; intros H; [constructor|]. cbn in H |- *. apply StronglySorted_inv in H as [H F]. destruct (P x); [|exact (IH H)]. cbn. constructor; [exact (IH H)|].
  rewrite Forall_map in F |- *. rewrite Forall_forall in F |- *. intros y Hy. apply F. apply list_elem_of_In, filter_In in Hy as [Hy _]. apply list_elem_of_In. exact Hy.
Qed.

(** Sorted by key, the blocks of the first key come first. *)
Lemma key_out_front k l :
  StronglySorted bytes_le (map handed_key l) -> Forall (fun x => bytes_le k (handed_key x)) l ->
  l = key_out k l ++ List.filter (fun x => negb (bool_decide (handed_key x = k))) l.
Proof.
  unfold key_out. induction l as [|x l IH]; intros S F; [reflexivity|]. cbn in S. apply StronglySorted_inv in S as [S Fx]. apply Forall_cons in F as [Fk F]. cbn [List.filter].
  case_bool_decide as E; cbn [negb app].
  - f_equal. apply IH; assumption.
  - assert (key_out k l = []) as En.
    { apply key_out_none. rewrite Forall_map in Fx. rewrite Forall_forall in Fx |- *. intros y Hy Ey. specialize (Fx y Hy). rewrite Ey in Fx.
      apply key_le in Fk as [Fk|Fk]; [|congruence]. apply key_le in Fx as [Fx|Fx]; [|congruence]. exact (bytes_lt_irrefl _ (bytes_lt_trans _ _ _ Fk Fx)). }
    unfold key_out in En. rewrite En. cbn. f_equal. specialize (IH S F). rewrite En in IH. exact IH.
Qed.

Lemma group_calls (P : list Z -> list (list Z * list Value) -> Prop) n l :
  (length l <= n)%nat -> StronglySorted bytes_le (map handed_key l) ->
  (forall k, key_out k l <> [] -> exists xs, key_out k l = calls_of (k, xs) /\ bcolumn_ok (k, xs) /\ P k xs) ->
  exists cs, calls cs = l /\ bcolumns_ok cs /\ Forall (fun c => key_out c.1 l <> [] /\ P c.1 c.2) cs /\ forall k, key_out k l <> [] -> k ∈ map fst cs.
Proof.
  revert l. induction n as [|n IH]; intros l Hn S H.
  { destruct l; [|cbn in Hn; lia]. exists []. repeat split; try constructor. intros k Hk. contradiction. }
  destruct l as [|x l]; [exists []; repeat split; try constructor; intros k Hk; contradiction|]. set (k := handed_key x). set (l0 := x :: l) in *.
  assert (Forall (fun y => bytes_le k (handed_key y)) l0) as Fk.
  { unfold l0, k. constructor; [apply key_le; right; reflexivity|]. unfold l0 in S. cbn in S. apply StronglySorted_inv in S as [_ F]. rewrite Forall_map in F. exact F. }
  pose proof (key_out_front k l0 S Fk) as Esplit. set (rest := List.filter (fun y => negb (bool_decide (handed_key y = k))) l0) in *.
  assert (key_out k l0 <> []) as Hk by (unfold key_out, l0; cbn [List.filter]; rewrite bool_decide_eq_true_2 by reflexivity; discriminate).
  destruct (H k Hk) as (xs & Ex & Hx & Px).
  assert (forall k', k' <> k -> key_out k' rest = key_out k' l0) as Hrest.
  { intros k' Hne. unfold key_out, rest. rewrite filter_filter. apply List.filter_ext. intros y. case_bool_decide as E1; [|reflexivity]. cbn.
    rewrite bool_decide_eq_false_2 by congruence. reflexivity. }
  assert (key_out k rest = []) as Hkr.
  { apply key_out_none, Forall_forall. intros y Hy. apply list_elem_of_In, filter_In in Hy as [_ Hy]. apply negb_true_iff, bool_decide_eq_false in Hy. exact Hy. }
  destruct (IH rest) as (cs & Ec & Ho & Fc & Hc).
  { apply (f_equal length) in Esplit. rewrite length_app in Esplit. assert (0 < length (key_out k l0))%nat by (destruct (key_out k l0); [contradiction|cbn; lia]). lia. }
  { apply sorted_filter, S. }
  { intros k' Hk'. assert (k' <> k) as Hne by (intros ->; contradiction). rewrite (Hrest k' Hne) in Hk' |- *. apply H, Hk'. }
  exists ((k, xs) :: cs). split; [|split; [|split]].
  - unfold calls. cbn [map concat]. fold (calls cs). rewrite Ec, <- Ex. symmetry. exact Esplit.
  - destruct Ho as [Ho1 Ho2]. split; [constructor; assumption|]. constructor; [exact Ho2|]. rewrite Forall_forall in Fc |- *. intros c Hin. destruct (Fc c Hin) as [Hne _].
    assert (c.1 <> k) as Hd by (intros E; rewrite E in Hne; contradiction). cbn. rewrite (Hrest _ Hd) in Hne. unfold key_out in Hne.
    destruct (List.filter (fun y => bool_decide (handed_key y = c.1)) l0) as [|y ys] eqn:Ey; [contradiction|].
    assert (y ∈ List.filter (fun y => bool_decide (handed_key y = c.1)) l0) as Hy by (rewrite Ey; left). apply list_elem_of_In, filter_In in Hy as [Hy Eq].
    apply bool_decide_eq_true in Eq. rewrite Forall_forall in Fk. specialize (Fk y (proj2 (list_elem_of_In _ _) Hy)). rewrite Eq in Fk.
    apply key_le in Fk as [Fk|Fk]; [exact Fk|congruence].
  - constructor; [split; assumption|]. eapply Forall_impl; [exact Fc|]. intros c [Hne Pc]. split; [|exact Pc].
    assert (c.1 <> k) as Hd by (intros E; rewrite E in Hne; contradiction). rewrite <- (Hrest _ Hd). exact Hne.
  - intros k' Hk'. cbn. destruct (decide (k' = k)) as [->|Hne]; [left|right]. apply Hc. rewrite (Hrest k' Hne). exact Hk'.
Qed.

(** The iterator hands out as the writer asks. *)
Lemma finishes_yields k l : finishes p q (ki_Next p q k) l -> exists it', yields (KI := tsm_iter p q) k l it'.
Proof.
  revert k. induction l as [|x l IH]; intros k H.
  - inversion H as [k1 E1 E2|]; subst. exists k1. apply yields_end; [cbn; symmetry; exact E2|]. cbn. unfold ki_Err. rewrite E1. reflexivity.
  - inversion H as [|k1 x1 l1 E1 E2 E3 E4]; subst. destruct (IH k1 E2) as [it' Y]. exists it'.
    eapply yields_next; [cbn; symmetry; exact E3|cbn [kit_Read tsm_iter]; rewrite E1; reflexivity|exact Y].
Qed.

(** An iterator that can be run to its end ends; the files of [compaction_merges] are
    such. *)
Lemma collect_ends n k l : ki_collect p q n k = Ok l -> ends (KI := tsm_iter p q) (length l) k.
Proof.
  revert k l. induction n as [|n IH]; intros k l E; [discriminate|]. cbn [ki_collect] in E. destruct (ki_Next p q k) as [[[] k1]|e|] eqn:N; try discriminate.
  - destruct (ki_Read false k1) as [x [e|]] eqn:R; [discriminate|]. destruct (ki_collect p q n k1) as [l1|e|] eqn:E1; try discriminate. injection E as <-.
    apply (ends_next (KI := tsm_iter p q) _ _ k1 N); cbn; [|discriminate]. intros i y it2 [= _ <-]. exact (IH _ _ E1).
  - destruct (ki_Err k1) as [e|] eqn:Ee; [discriminate|]. apply (ends_stop (KI := tsm_iter p q) _ _ k1 N). cbn. rewrite Ee. discriminate.
Qed.

(** What the blocks of [l] take in a file at most. *)
Definition handed_size (l : list handed) : Z := fold_right (fun x n => zlen x.2 + 37 + zlen (handed_key x) + n) 13 l.

Lemma handed_size_columns cs : bcolumns_ok cs -> 13 + bytes_size cs + index_size (map values_of cs) <= handed_size (calls cs).
Proof.
  intros [F _]. unfold calls. induction F as [|[k xs] cs (_ & Hz & _) F IH]; [cbn; lia|]. cbn [map concat bytes_size index_size fold_right values_of fst snd] in *. fold (bytes_size cs).
  unfold index_size, handed_size in *. rewrite fold_right_app. set (m := fold_right _ 13 (concat (map calls_of cs))) in *. clearbody m.
  assert (forall ys, fold_right (fun x n => zlen x.2 + 37 + zlen (handed_key x) + n) m (map (fun x : list Z * list Value => (k, start_of x.2, end_of x.2, x.1)) ys)
    = fold_right (fun x n => zlen x.1 + 4 + n) 0 ys + (33 + zlen k) * zlen ys + m) as Hy.
  { induction ys as [|y ys IHy]; [change (zlen (@nil (list Z * list Value))) with 0; cbn [map fold_right]; lia|]. cbn [map fold_right]. rewrite IHy, zlen_cons. unfold handed_key. cbn. lia. }
  unfold calls_of. cbn [fst snd] in *. rewrite Hy, zlen_map. pose proof (zlen_nonneg k). nia.
Qed.

(** ** The theorem *)

Definition block_size (c : Compactor) : Z := if c_Size c <=? 0 then DefaultMaxPointsPerBlock else c_Size c.

(** What is asked of a key: a length the index can hold, blocks that can be merged
    and are not huge. *)
Definition key_fits (size : Z) (k : list Z) (bs : list block) : Prop :=
  0 < zlen k <= maxKeyLength /\ mergeable p q Hq size k bs /\ Forall (fun b => forall n, BlockCount (blk_b b) = Some n -> n <= 2 ^ 24) bs.

(** All that is handed out fits into one file, and the fuel into it. *)
Definition run_fits (fuel : nat) (size : Z) (fast : bool) (readers : list TSMReader) : Prop :=
  forall l, ki_collect p q (S (length l)) (NewTSMKeyIterator size fast readers) = Ok l ->
    handed_size l < 2 ^ 31 /\ (length l < fuel)%nat /\ forall k, zlen (key_out k l) < maxIndexEntries.

Lemma run_columns fuel fast size readers files :
  Forall2 (fun r f => offers (mkSource r (rd_BlockIterator r) []) f) readers files ->
  (forall k, files_key k files <> [] -> key_fits size k (files_key k files)) -> 0 < size <= 2 ^ 24 -> run_fits fuel size fast readers ->
  exists cs it', yields (KI := tsm_iter p q) (NewTSMKeyIterator size fast readers) (calls cs) it' /\ bcolumns_ok cs
    /\ handed_size (calls cs) < 2 ^ 31 /\ (length (calls cs) < fuel)%nat
    /\ Forall (fun c => files_key c.1 files <> [] /\ key_written c.1 (files_key c.1 files) c.2) cs
    /\ (forall k, files_key k files <> [] -> k ∉ map fst cs -> key_written k (files_key k files) []) /\ ((exists k, files_key k files <> []) -> cs <> []).
Proof.
  intros H Hm Hsz Hfit. set (ss := map (fun r => mkSource r (rd_BlockIterator r) []) readers).
  assert (Forall2 offers ss files) as Ho by (unfold ss; clear -H; induction H; cbn; constructor; assumption).
  destruct (all_files p q Hq fast size (keys_left files) ss files [] 0 ltac:(lia) ltac:(lia) Ho ltac:(intros k Hk; apply (Hm k Hk))) as (l & F & So & Fk & Hl & Hnl).
  assert (finishes p q (ki_Next p q (NewTSMKeyIterator size fast readers)) l) as F1 by exact F. clear F.
  destruct (Hfit l (finishes_collect p q _ _ F1)) as (Hs & Hf & Hn).
  destruct (group_calls (fun k xs => files_key k files <> [] /\ key_written k (files_key k files) xs) (length l) l ltac:(lia) So) as (cs & Ec & Hb & Fc & Hc).
  { intros k Hk. assert (files_key k files <> []) as Hfk.
    { destruct (key_out k l) as [|x xs] eqn:Ex; [contradiction|]. assert (x ∈ key_out k l) as Hx by (rewrite Ex; left). unfold key_out in Hx.
      apply list_elem_of_In, filter_In in Hx as [Hx Ek]. apply bool_decide_eq_true in Ek. rewrite Forall_forall in Fk. rewrite <- Ek. apply Fk, list_elem_of_In, Hx. }
    destruct (Hm k Hfk) as (Hlen & _ & Hcnt). destruct (merged_column size k _ _ (Hl k Hfk) ltac:(lia) Hcnt) as (xs & Ex & Fe & Sx & Kx).
    exists xs. split; [exact Ex|]. split; [|auto]. split; [exact Hlen|]. specialize (Hn k). rewrite Ex in Hn, Hk. unfold calls_of in Hn, Hk. cbn [fst snd] in *.
    rewrite zlen_map in Hn. split; [|split; assumption]. destruct xs as [|x xs]; [contradiction|]. rewrite zlen_cons in *. pose proof (zlen_nonneg xs). lia. }
  destruct (finishes_yields _ _ F1) as [it' Y]. exists cs, it'. rewrite Ec. split; [exact Y|]. split; [exact Hb|]. split; [exact Hs|]. split; [exact Hf|]. split; [|split].
  - eapply Forall_impl; [exact Fc|]. intros c [_ Hw]. exact Hw.
  - intros k Hk Hni. destruct (Hm k Hk) as (_ & _ & Hcnt). destruct (merged_column size k _ _ (Hl k Hk) ltac:(lia) Hcnt) as (xs & Ex & _ & _ & Kx).
    destruct (key_out k l) eqn:Ek; [|exfalso; apply Hni, Hc; congruence]. destruct xs; [exact Kx|discriminate].
  - intros [k Hk] ->. cbn in Ec. subst l. apply Hnl; [|reflexivity]. intros E. apply Hk. unfold files_key. clear -E. induction files as [|f files IH]; [reflexivity|].
    cbn in E |- *. apply app_eq_nil in E as [-> E]. apply IH, E.
Qed.

(** What the new file says of a key: of one of the five types, in time order, and
    the blocks of all files overlaid without what their tombstones delete. *)
Definition compacted (k : list Z) (bs : list block) (values : list Value) : Prop :=
  exists vw w all vs, vw ∈ views p q Hq /\ tagged vw w /\ Forall2 (holds_piece k) bs all
    /\ values = map w vs /\ increasing tc_time vs /\ to_map tc_time vs = content all.

Context (Sort_entries : list IndexEntry -> list IndexEntry) (fs_TSMReader : string -> option TSMReader).

(** C5 (functional). Compacting TSM files with [CompactFull] or [CompactFast]: the
    compactor writes one new file, named after the greatest generation and the next
    sequence, and touches no other.  The file opens, and for every key, of whichever
    of the five types, reading it gives in time order the values of the key in all
    files, the later file winning at equal times, without what the tombstones of each
    file delete; a key in none of the files has no values.  The blocks of a key have
    to be ordered by their start over all files and something has to be left of it:
    [merge_loses_value] and [deleted_key_ends_iteration] show that the code needs
    both.  The result has to fit into one file, blocks into 2^24 values; no call of
    the system fails, the compaction is not interrupted, and no file has the
    temporary name or that of the file its index goes through meanwhile. *)
Theorem compaction_written (fast : bool) (n fuel : nat) (tsmFiles : list string) (env : list event) (d : cdir) (c c1 : Compactor)
    (readers : list TSMReader) (files : list file) (ids : list (Z * Z)) (gen seq : Z) :
  c_compactionsEnabled c = true -> Compactor_add tsmFiles c = Some (true, c1) ->
  mapM ParseTSMFileName tsmFiles = Some ids -> fold_left max_step ids (0, 0) = (gen, seq) -> mapM fs_TSMReader tsmFiles = Some readers ->
  Forall2 (fun r f => offers (mkSource r (rd_BlockIterator r) []) f) readers files -> (exists k, files_key k files <> []) ->
  (forall k, files_key k files <> [] -> key_fits (block_size c) k (files_key k files)) -> block_size c <= 2 ^ 24 ->
  run_fits fuel (block_size c) fast readers -> undisturbed env -> calm d ->
  cd_files d !! tmp_name gen (seq + 1) = None -> index_free (tmp_name gen (seq + 1)) d ->
  exists b r result,
    Compactor_run p q Sort_entries fs_TSMReader fast (S n) fuel tsmFiles true env d c
      = (Ok (inl [tmp_name gen (seq + 1)]), cd_put (tmp_name gen (seq + 1)) b d, Compactor_remove tsmFiles c1)
    /\ NewTSMReader b None = Ok r /\ reads r result
    /\ forall k, if decide (files_key k files = []) then result k = [] else compacted k (files_key k files) (result k).
Proof.
  intros En Ha Ei Em Er Ho Hne Hk Hsz Hfit U C N Fr. assert (0 < block_size c) as Hpos by (unfold block_size, DefaultMaxPointsPerBlock; destruct (Z.leb_spec (c_Size c) 0); lia).
  destruct (run_columns fuel fast (block_size c) readers files Ho Hk ltac:(lia) Hfit) as (cs & it' & Y & Hb & Hs & Hf & Fc & Hn & Hcs).
  pose proof (handed_size_columns cs Hb) as Hsize. specialize (Hcs Hne).
  assert (undisturbed (drop (length tsmFiles) env)) as U2 by (apply Forall_drop, U).
  destruct (writeNewFiles_one Sort_entries (KI := tsm_iter p q) n fuel gen seq _ cs it' (drop (length tsmFiles) env) d Y Hb Hcs ltac:(lia) U2 Hf C N Fr) as (b & env' & E & T & L).
  destruct (open_reads b (map values_of cs) T (values_ok cs Hb) L) as (r & Eo & Hr).
  exists b, r, (column_values (map values_of cs)). split; [|split; [exact Eo|split; [exact Hr|]]].
  - unfold Compactor_run. rewrite En, Ha. cbn [negb]. unfold Compactor_compact. rewrite Ei, Em.
    assert (existsb (fun e => ev_interrupted e) (take (length tsmFiles) env) = false) as ->.
    { apply not_true_iff_false. rewrite existsb_exists. intros (e & Hin & He). apply list_elem_of_In in Hin. pose proof (Forall_take _ (length tsmFiles) _ U) as U1.
      rewrite Forall_forall in U1. rewrite <- (U1 e Hin) in He. discriminate. }
    rewrite Er. assert (c_Size c1 = c_Size c) as -> by (revert Ha; unfold Compactor_add; destruct (existsb _ _); [discriminate|]; destruct tsmFiles, (c_files c); intros [= <-]; reflexivity).
    fold (block_size c). destruct readers as [|r0 readers]; [inversion Ho; subst files; destruct Hne as [k Hk0]; contradiction|]. rewrite E. reflexivity.
  - intros k. destruct (decide (k ∈ map fst cs)) as [Hin|Hin].
    + apply list_elem_of_In, in_map_iff in Hin as (col & <- & Hin). apply list_elem_of_In in Hin. rewrite Forall_forall in Fc. destruct (Fc col Hin) as [Hfk (vw & w & all & vs & H1 & H2 & H3 & H4 & H5)].
      rewrite decide_False by exact Hfk. exists vw, w, all, vs. split; [exact H1|]. split; [exact H2|]. split; [exact H3|]. split; [|exact H5]. rewrite <- H4.
      apply (column_values_in (map values_of cs) (values_of col)); [apply (values_ok cs Hb)|]. apply list_elem_of_In, in_map, list_elem_of_In. exact Hin.
    + assert (column_values (map values_of cs) k = []) as Ek.
      { unfold column_values. destruct (List.find _ _) as [col|] eqn:Ef; [|reflexivity]. exfalso. apply List.find_some in Ef as [Hi Hk']. apply bool_decide_eq_true in Hk'.
        apply Hin. rewrite <- Hk'. apply in_map_iff in Hi as (c' & <- & Hc'). apply list_elem_of_In. exact (in_map fst _ _ Hc'). }
      rewrite Ek. destruct (decide (files_key k files = [])) as [|Hfk]; [reflexivity|]. destruct (Hn k Hfk Hin) as (vw & w & all & vs & H1 & H2 & H3 & H4 & H5).
      exists vw, w, all, vs. auto 8.
Qed.
End Done.

(** ** Witnesses: the two files of [KeyFiles] *)

#[local] Existing Instances plain_words plain_laws list_stream list_stream_laws id_snappy id_snappy_laws list_bytesutil list_bytesutil_laws id_gzip id_gzip_laws.

Definition two_names : list string := [tsm_name 1 1; tsm_name 2 3].
Definition two_readers (f : string) : option TSMReader :=
  if bool_decide (f = tsm_name 1 1) then Some older else if bool_decide (f = tsm_name 2 3) then Some newer else None.
Definition small_blocks : Compactor := Compactor_Open (mkCompactor 2 false false NilChan NilChan None).
Definition no_files : cdir := mkDir ∅ [].

Lemma two_files_fit k : files_key k two_files <> [] -> key_fits encoders_ex decoders_ex decoders_usable 2 k (files_key k two_files).
Proof.
  intros H. split; [|split; [apply two_files_mergeable, H|]].
  - apply two_files_keys in H as [-> | ->]; split; vm_compute; congruence.
  - apply two_files_keys in H as [-> | ->]; repeat constructor; intros n E; vm_compute in E; injection E as <-; vm_compute; congruence.
Qed.

Definition two_handed : list handed := Eval vm_compute in
  match ki_collect encoders_ex decoders_ex 10 (NewTSMKeyIterator 2 false [older; newer]) with Ok l => l | _ => [] end.

Lemma two_run_fits : run_fits encoders_ex decoders_ex 10 2 false [older; newer].
Proof.
  intros l E. assert (l = two_handed) as ->.
  { assert (ki_collect encoders_ex decoders_ex 10 (NewTSMKeyIterator 2 false [older; newer]) = Ok two_handed) as E0 by (vm_compute; reflexivity).
    apply (ki_collect_fuel _ _ _ (max (S (length l)) 10)) in E; [|lia]. apply (ki_collect_fuel _ _ _ (max (S (length l)) 10)) in E0; [|lia]. congruence. }
  split; [vm_compute; reflexivity|]. split; [cbn; lia|]. intros k. unfold zlen, key_out.
  pose proof (List.filter_length_le (fun x => bool_decide (handed_key x = k)) two_handed) as Hle. assert (length two_handed = 3%nat) as E3 by reflexivity.
  unfold maxIndexEntries. lia.
Qed.

Lemma compaction_written_witness :
  exists b r result,
    Compactor_run encoders_ex decoders_ex no_sort two_readers false 1 10 two_names true [] no_files small_blocks
      = (Ok (inl [tmp_name 2 4]), cd_put (tmp_name 2 4) b no_files, Compactor_remove two_names (set_files (Some (list_to_set two_names ∪ ∅)) small_blocks))
    /\ NewTSMReader b None = Ok r
    /\ reads (BL := value_blocks_laws (L8 := plain_laws) (LB := list_stream_laws) encoders_ex 0) r result
    /\ forall k, if decide (files_key k two_files = []) then result k = []
                else compacted encoders_ex decoders_ex decoders_usable 0 k (files_key k two_files) (result k).
Proof.
  apply (compaction_written encoders_ex decoders_ex decoders_usable 0 no_sort two_readers false 0 10 two_names [] no_files small_blocks _ [older; newer] two_files [(1, 1); (2, 3)] 2 3).
  - reflexivity.
  - vm_compute. reflexivity.
  - vm_compute. reflexivity.
  - reflexivity.
  - vm_compute. reflexivity.
  - repeat constructor; [apply older_offers|apply newer_offers].
  - exists [97]. vm_compute. discriminate.
  - exact two_files_fit.
  - vm_compute. congruence.
  - exact two_run_fits.
  - constructor.
  - reflexivity.
  - reflexivity.
  - intros _. reflexivity.
Defined.

(** The same compaction interrupted after its first block. *)
Definition one_file : cdir := mkDir {["x"%string := [1]]} [].
Definition interrupted : list event := [quiet; quiet; quiet; mkEvent true true].

Lemma one_file_free g s : cd_files one_file !! tmp_name g s = None.
Proof.
  apply lookup_singleton_None. intros E. apply (f_equal String.length) in E. unfold tmp_name in E. rewrite String_length, !length_app in E. cbn in E. lia.
Qed.

Lemma compaction_all_or_nothing_witness :
  match Compactor_run encoders_ex decoders_ex no_sort two_readers false 4 4 two_names true interrupted one_file small_blocks with
  | (Ok (inr e), d', c') => e = errCompactionAborted /\ c_files c' = c_files small_blocks /\ cd_files d' = cd_files one_file
  | _ => False
  end.
Proof.
  assert (blocks_within encoders_ex decoders_ex two_readers 3 false two_names small_blocks) as Hk.
  { intros trs E. vm_compute in E. injection E as <-. apply (collect_ends encoders_ex decoders_ex 10 _ two_handed). vm_compute. reflexivity. }
  pose proof (compaction_all_or_nothing encoders_ex decoders_ex no_sort two_readers false 4 4 3 two_names true interrupted one_file small_blocks eq_refl one_file_free
    ltac:(repeat constructor; intros g s E; vm_compute in E; injection E as _ <-; lia) ltac:(lia) Hk ltac:(lia) ltac:(lia)) as H.
  destruct (Compactor_run _ _ _ _ _ _ _ _ _ _ _ _) as [[[[fs|e]|e|] d'] c'] eqn:R; vm_compute in R; try discriminate.
  split; [injection R as <- _ _; reflexivity|exact H].
Defined.
