(* ===== verification/CompactPlan.v ===== *)
(** * Planning compactions

    [DefaultPlanner] of [tsdb/engine/tsm1/compact.go]: the files of the store
    grouped by generation, the plans made from them, and the set of files that are
    part of a plan.  The file store is what its three methods answer at the moment;
    the time is an argument. *)

From S2P Require Import Prelude OSFile WAL TSMNames Compactor.

Record FileStat := mkStat {
  st_Path : string; st_HasTombstone : bool; st_Size : Z; st_LastModified : Z; st_MinTime : Z; st_MaxTime : Z; st_MinKey : list Z; st_MaxKey : list Z }.

(** The interface [fileStore]; a time that was never set is [None]. *)
Record fileStore := mkStore { fst_Stats : list FileStat; fst_LastModified : option Z; fst_BlockCount : string -> Z -> Z }.

(** ** Generations *)

Record tsmGeneration := mkGen { tg_id : Z; tg_files : list FileStat }.

Definition tg_size (t : tsmGeneration) : Z := fold_left (fun n f => u64 (n + st_Size f)) (tg_files t) 0.

(** A generation has a file. *)
Definition tg_level (t : tsmGeneration) : Z :=
  let seq := match tg_files t with
             | f :: _ => match ParseTSMFileName (st_Path f) with Some (_, seq) => seq | None => 0 end
             | [] => 0
             end in
  if seq <? 4 then seq else 4.

Definition tg_count (t : tsmGeneration) : Z := zlen (tg_files t).
Definition tg_hasTombstones (t : tsmGeneration) : bool := existsb st_HasTombstone (tg_files t).
Definition tg_paths (t : tsmGeneration) : list string := map st_Path (tg_files t).

Abbreviation tsmGenerations := (list tsmGeneration).

Definition gens_Less (a b : tsmGeneration) : bool := tg_id a <? tg_id b.
Definition gens_hasTombstones (a : tsmGenerations) : bool := existsb tg_hasTombstones a.
Definition gens_level (a : tsmGenerations) : Z := fold_left (fun l g => if tg_level g >? l then tg_level g else l) a 0.

Fixpoint gens_IsSorted (a : tsmGenerations) : bool :=
  match a with
  | x :: ((y :: _) as a') => negb (gens_Less y x) && gens_IsSorted a'
  | _ => true
  end.

(** [size] is positive. *)
Fixpoint chunk_loop (fuel : nat) (size : nat) (a : tsmGenerations) : list tsmGenerations :=
  match fuel, a with
  | S fuel', _ :: _ => if (size <=? length a)%nat then take size a :: chunk_loop fuel' size (drop size a) else [a]
  | _, _ => []
  end.
Definition gens_chunk (size : nat) (a : tsmGenerations) : list tsmGenerations := chunk_loop (length a) size a.

Definition paths_of (a : tsmGenerations) : list string := concat (map tg_paths a).

(** ** The planner *)

Abbreviation CompactionGroup := (list string).

Record DefaultPlanner := mkPlanner {
  pl_coldDuration : Z; pl_lastPlanCheck : option Z; pl_lastFindGenerations : option Z; pl_lastGenerations : tsmGenerations; pl_filesInUse : gset string }.

Definition NewDefaultPlanner (writeColdDuration : Z) : DefaultPlanner := mkPlanner writeColdDuration None None [] ∅.

Definition gen_le (a b : tsmGeneration) : Prop := tg_id a <= tg_id b.
#[export] Instance gen_le_dec a b : Decision (gen_le a b).
Proof. unfold gen_le. apply _. Defined.

Definition generation_of (f : FileStat) : Z := match ParseTSMFileName (st_Path f) with Some (gen, _) => gen | None => 0 end.

Definition add_file (m : gmap Z (list FileStat)) (f : FileStat) : gmap Z (list FileStat) :=
  <[generation_of f := default [] (m !! generation_of f) ++ [f]]> m.

(** The generations are collected in the order of a map and then sorted; ids are
    distinct, so the order of the map does not matter. *)
Definition group_files (l : list FileStat) : tsmGenerations :=
  let gens := map (fun x => mkGen x.1 x.2) (map_to_list (fold_left add_file l ∅)) in
  if gens_IsSorted gens then gens else merge_sort gen_le gens.

Definition findGenerations (skipInUse : bool) (fs : fileStore) (c : DefaultPlanner) : tsmGenerations * DefaultPlanner :=
  if bool_decide (is_Some (pl_lastFindGenerations c)) && bool_decide (fst_LastModified fs = pl_lastFindGenerations c) then (pl_lastGenerations c, c)
  else
    let used f := skipInUse && bool_decide (st_Path f ∈ pl_filesInUse c) in
    let gens := group_files (List.filter (fun f => negb (used f)) (fst_Stats fs)) in
    (gens, mkPlanner (pl_coldDuration c) (pl_lastPlanCheck c) (fst_LastModified fs) gens (pl_filesInUse c)).

Definition set_inUse (s : gset string) (c : DefaultPlanner) : DefaultPlanner :=
  mkPlanner (pl_coldDuration c) (pl_lastPlanCheck c) (pl_lastFindGenerations c) (pl_lastGenerations c) s.

Definition acquire (groups : list CompactionGroup) (c : DefaultPlanner) : bool * DefaultPlanner :=
  if existsb (fun g => existsb (fun f => bool_decide (f ∈ pl_filesInUse c)) g) groups then (false, c)
  else (true, set_inUse (list_to_set (concat groups) ∪ pl_filesInUse c) c).

Definition Release (groups : list CompactionGroup) (c : DefaultPlanner) : DefaultPlanner :=
  set_inUse (pl_filesInUse c ∖ list_to_set (concat groups)) c.

Definition FullyCompacted (fs : fileStore) (c : DefaultPlanner) : bool * DefaultPlanner :=
  let '(gens, c) := findGenerations false fs c in ((zlen gens <=? 1) && negb (gens_hasTombstones gens), c).

(** [if !c.acquire(groups) { return nil }; return groups] *)
Definition acquired (groups : list CompactionGroup) (c : DefaultPlanner) : list CompactionGroup * DefaultPlanner :=
  match acquire groups c with (true, c) => (groups, c) | (false, c) => ([], c) end.

(** ** Plans by level *)

(** Adjacent generations of a level, and those below the level of the next, form a
    group. *)
Fixpoint group_levels (currentGen generations : tsmGenerations) : list tsmGenerations :=
  match generations with
  | [] => match currentGen with [] => [] | _ => [currentGen] end
  | cur :: rest =>
      if match rest with next :: _ => tg_level cur <? tg_level next | [] => false end then group_levels (currentGen ++ [cur]) rest
      else if (zlen currentGen =? 0) || (gens_level currentGen =? tg_level cur) then group_levels (currentGen ++ [cur]) rest
      else currentGen :: group_levels [cur] rest
  end.

Definition of_level (level : Z) (groups : list tsmGenerations) : list tsmGenerations := List.filter (fun g => gens_level g =? level) groups.

Definition minGenerations (level : Z) : Z := if negb (level mod 2 =? 0) then level + 1 else level.
Definition groupSize (level : Z) : nat := if level =? 1 then 8 else 4.

Definition worthwhile (n : Z) (chunk : tsmGenerations) : bool := negb ((zlen chunk <? n) && negb (gens_hasTombstones chunk)).

(** The generations of the groups of a level plan. *)
Definition level_chunks (level : Z) (generations : tsmGenerations) : list tsmGenerations :=
  List.filter (worthwhile (minGenerations level)) (concat (map (gens_chunk (groupSize level)) (of_level level (group_levels [] generations)))).

Definition PlanLevel (level : Z) (fs : fileStore) (c : DefaultPlanner) : list CompactionGroup * DefaultPlanner :=
  let '(generations, c) := findGenerations true fs c in
  if (zlen generations <=? 1) && negb (gens_hasTombstones generations) then ([], c)
  else acquired (map paths_of (level_chunks level generations)) c.

Definition optimize_groups (generations : tsmGenerations) : list tsmGenerations :=
  List.filter (worthwhile 4) (of_level 4 (group_levels [] generations)).

Definition PlanOptimize (fs : fileStore) (c : DefaultPlanner) : list CompactionGroup * DefaultPlanner :=
  let '(generations, c) := findGenerations true fs c in
  if (zlen generations <=? 1) && negb (gens_hasTombstones generations) then ([], c)
  else acquired (map paths_of (optimize_groups generations)) c.

(** ** Full plans *)

Definition sort_Strings (l : list string) : list string := merge_sort String.le l.

(** Over the limit and with a full block. *)
Definition maxed_out (fs : fileStore) (g : tsmGeneration) : bool :=
  (tg_size g >? maxTSMFileSize) && match tg_paths g with f :: _ => fst_BlockCount fs f 1 =? DefaultMaxPointsPerBlock | [] => false end.

(** The generations of a full compaction; [n] is the number of generations. *)
Fixpoint cold_gens (n : Z) (fs : fileStore) (generations : tsmGenerations) : tsmGenerations :=
  match generations with
  | [] => []
  | g :: rest =>
      let skip := (n >? 2) && maxed_out fs g && negb (tg_hasTombstones g) in
      let skip := match rest with next :: _ => if tg_level next <=? 3 then false else skip | [] => skip end in
      if skip then cold_gens n fs rest else g :: cold_gens n fs rest
  end.

(** The generations before the first of level 3 or less. *)
Fixpoint plan_end (generations : tsmGenerations) : nat :=
  match generations with
  | g :: rest => if tg_level g <=? 3 then O else S (plan_end rest)
  | [] => O
  end.

Fixpoint plan_start (fs : fileStore) (i : nat) (prev : option tsmGeneration) (hasTombstones : bool) (start : nat) (generations : tsmGenerations) : nat :=
  match generations with
  | [] => start
  | g :: rest =>
      if hasTombstones || tg_hasTombstones g then plan_start fs (S i) (Some g) true start rest
      else
        let start := if maxed_out fs g then S i else start in
        match prev with
        | Some p => if u64 (tg_size g * 2) <? tg_size p then i else plan_start fs (S i) (Some g) false start rest
        | None => plan_start fs (S i) (Some g) false start rest
        end
  end.

(** A slice of [step] generations: none when one of a lower level is in it; else it
    is cut at the front by as many as are full. *)
Definition full_or_over (fs : fileStore) (g : tsmGeneration) : bool :=
  (tg_size g >=? maxTSMFileSize) && match tg_paths g with f :: _ => fst_BlockCount fs f 1 =? DefaultMaxPointsPerBlock | [] => false end && negb (tg_hasTombstones g).

Definition step_group (fs : fileStore) (part : tsmGenerations) : list tsmGenerations :=
  if existsb (fun g => tg_level g <=? 3) part then []
  else match drop (length (List.filter (full_or_over fs) part)) part with [] => [] | g => [g] end.

(** The groups of generations of a full plan that is not cold. *)
Definition full_groups (fs : fileStore) (generations : tsmGenerations) : list tsmGenerations :=
  let e := plan_end generations in
  let start := plan_start fs 0 None false 0 (take e generations) in
  let step := Nat.min 4 e in
  let groups := concat (map (step_group fs) (gens_chunk step (drop start (take e generations)))) in
  List.filter (worthwhile 2) groups.

(** [t.After(u)] *)
Definition After (t u : option Z) : bool := match t, u with Some x, Some y => x >? y | Some _, None => true | None, _ => false end.

(** [now] is the time of the call. *)
Definition Plan (lastWrite now : Z) (fs : fileStore) (c : DefaultPlanner) : list CompactionGroup * DefaultPlanner :=
  let '(generations, c) := findGenerations true fs c in
  if (pl_coldDuration c >? 0) && (now - lastWrite >? pl_coldDuration c) && (zlen generations >? 1) then
    let gens := cold_gens (zlen generations) fs generations in
    let tsmFiles := sort_Strings (paths_of gens) in
    if (zlen tsmFiles <=? 1) || (zlen gens <=? 1) then ([], c) else acquired [tsmFiles] c
  else if After (pl_lastPlanCheck c) (fst_LastModified fs) && negb (gens_hasTombstones generations) then ([], c)
  else
    let c := mkPlanner (pl_coldDuration c) (Some now) (pl_lastFindGenerations c) (pl_lastGenerations c) (pl_filesInUse c) in
    if (zlen generations <=? 1) && negb (gens_hasTombstones generations) then ([], c)
    else match full_groups fs generations with
         | [] => ([], c)
         | groups => acquired (map (fun g => sort_Strings (paths_of g)) groups) c
         end.

(** ** Facts *)

(** *** Groups are made of the files of the generations, in order *)

Lemma paths_of_app a b : paths_of (a ++ b) = paths_of a ++ paths_of b.
Proof. unfold paths_of. rewrite map_app, concat_app. reflexivity. Qed.

Lemma paths_concat (l : list tsmGenerations) : concat (map paths_of l) = paths_of (concat l).
Proof. induction l as [|a l IH]; [reflexivity|]. cbn [map concat]. rewrite paths_of_app, IH. reflexivity. Qed.

Lemma paths_sublist a b : a `sublist_of` b -> paths_of a `sublist_of` paths_of b.
Proof.
  induction 1 as [|g a b H IH|g a b H IH]; [apply sublist_nil|apply sublist_app; [reflexivity|exact IH]|]. unfold paths_of in *. cbn. apply sublist_inserts_l. exact IH.
Qed.

Lemma filter_sublist {A} (f : A -> bool) l : List.filter f l `sublist_of` l.
Proof. induction l as [|x l IH]; cbn; [constructor|]. destruct (f x); [apply sublist_skip|apply sublist_cons]; exact IH. Qed.

Lemma concat_sublist {A} (a b : list (list A)) : a `sublist_of` b -> concat a `sublist_of` concat b.
Proof. induction 1 as [|g a b H IH|g a b H IH]; cbn; [constructor|apply sublist_app; [reflexivity|exact IH]|apply sublist_inserts_l, IH]. Qed.

Lemma chunk_concat size a : (0 < size)%nat -> concat (gens_chunk size a) = a.
Proof.
  intros Hs. unfold gens_chunk. assert (forall fuel a, (length a <= fuel)%nat -> concat (chunk_loop fuel size a) = a) as H; [|apply H; lia].
  clear a. induction fuel as [|fuel IH]; intros a Hle; [destruct a; [reflexivity|cbn in Hle; lia]|]. destruct a as [|g a]; [reflexivity|]. cbn [chunk_loop].
  destruct (Nat.leb_spec size (length (g :: a))); [|apply app_nil_r]. change (concat (?x :: ?y)) with (x ++ concat y). rewrite IH; [apply take_drop|]. rewrite length_drop. cbn in *. lia.
Qed.

Lemma chunk_sizes size a x : (0 < size)%nat -> x ∈ gens_chunk size a -> (0 < length x <= size)%nat /\ exists pre post, a = pre ++ x ++ post.
Proof.
  intros Hs. unfold gens_chunk. assert (forall fuel a, x ∈ chunk_loop fuel size a -> (0 < length x <= size)%nat /\ exists pre post, a = pre ++ x ++ post) as H; [|apply H].
  clear a. induction fuel as [|fuel IH]; intros a Hx; [apply elem_of_nil in Hx as []|]. destruct a as [|g a]; [apply elem_of_nil in Hx as []|]. cbn [chunk_loop] in Hx.
  destruct (Nat.leb_spec size (length (g :: a))) as [Hle|Hlt].
  - apply elem_of_cons in Hx as [->|Hx].
    + rewrite length_take. split; [lia|]. exists [], (drop size (g :: a)). cbn [app]. symmetry. apply take_drop.
    + destruct (IH _ Hx) as [Hl (pre & post & E)]. split; [exact Hl|]. exists (take size (g :: a) ++ pre), post. rewrite <- app_assoc, <- E. symmetry. apply take_drop.
  - apply list_elem_of_singleton in Hx as ->. split; [cbn in *; lia|]. exists [], []. rewrite app_nil_r. reflexivity.
Qed.

Lemma group_levels_concat cur gens : concat (group_levels cur gens) = cur ++ gens.
Proof.
  revert cur. induction gens as [|g gens IH]; intros cur; cbn [group_levels]; [destruct cur; [reflexivity|cbn; reflexivity]|].
  destruct (match gens with next :: _ => _ | [] => false end); [rewrite IH, <- app_assoc; reflexivity|].
  destruct (_ || _); [rewrite IH, <- app_assoc; reflexivity|]. cbn. rewrite IH. reflexivity.
Qed.

Lemma groupSize_pos level : (0 < groupSize level)%nat.
Proof. unfold groupSize. destruct (level =? 1); lia. Qed.

Lemma level_chunks_sublist level gens : concat (level_chunks level gens) `sublist_of` gens.
Proof.
  unfold level_chunks. etransitivity; [apply concat_sublist, filter_sublist|].
  assert (forall l, concat (concat (map (gens_chunk (groupSize level)) l)) = concat l) as ->.
  { induction l as [|a l IH]; [reflexivity|]. cbn. rewrite concat_app, IH, chunk_concat by apply groupSize_pos. reflexivity. }
  unfold of_level. etransitivity; [apply concat_sublist, filter_sublist|]. rewrite group_levels_concat. reflexivity.
Qed.

Lemma optimize_sublist gens : concat (optimize_groups gens) `sublist_of` gens.
Proof.
  unfold optimize_groups, of_level. etransitivity; [apply concat_sublist, filter_sublist|]. etransitivity; [apply concat_sublist, filter_sublist|].
  rewrite group_levels_concat. reflexivity.
Qed.

Lemma cold_sublist n fs gens : cold_gens n fs gens `sublist_of` gens.
Proof. induction gens as [|g gens IH]; cbn [cold_gens]; [constructor|]. destruct (match gens with next :: _ => _ | [] => _ end); [apply sublist_cons|apply sublist_skip]; exact IH. Qed.

Lemma full_sublist fs gens : concat (full_groups fs gens) `sublist_of` gens.
Proof.
  unfold full_groups. cbv zeta. set (e := plan_end gens). set (s := plan_start _ _ _ _ _ _). set (l := drop s (take e gens)).
  assert (l `sublist_of` gens) as Hl by (unfold l; etransitivity; [apply sublist_drop|apply sublist_take]).
  etransitivity; [apply concat_sublist, filter_sublist|].
  destruct (decide (e = 0%nat)) as [E|E]; [assert (l = []) as -> by (unfold l; rewrite E; apply drop_nil); apply sublist_nil_l|].
  etransitivity; [|exact Hl]. rewrite <- (chunk_concat (Nat.min 4 e) l) at 2 by lia. clear. induction (gens_chunk (Nat.min 4 e) l) as [|part parts IH]; [reflexivity|]. cbn.
  rewrite concat_app. apply sublist_app; [|exact IH]. unfold step_group. destruct (existsb _ _); [apply sublist_nil_l|].
  pose proof (sublist_drop part (length (List.filter (full_or_over fs) part))) as Hd. destruct (drop _ part) as [|g x]; [apply sublist_nil_l|]. cbn. rewrite app_nil_r. exact Hd.
Qed.

(** *** A file is in one generation *)

Lemma add_files_perm l m :
  concat (map snd (map_to_list (fold_left add_file l m))) ≡ₚ concat (map snd (map_to_list m)) ++ l.
Proof.
  revert m. induction l as [|f l IH]; intros m; cbn [fold_left]; [rewrite app_nil_r; reflexivity|]. rewrite IH. unfold add_file. set (g := generation_of f).
  change (f :: l) with ([f] ++ l). rewrite app_assoc. apply Permutation_app_tail. destruct (m !! g) as [old|] eqn:E; cbn [default].
  - rewrite <- insert_delete_eq, (map_to_list_insert (delete g m)) by apply lookup_delete_eq. rewrite <- (insert_delete_id m g old E) at 2.
    rewrite (map_to_list_insert (delete g m) g old) by apply lookup_delete_eq. cbn [map concat snd]. change (default [] (Some old)) with old. rewrite <- !app_assoc.
    apply Permutation_app_head, Permutation_app_comm.
  - rewrite map_to_list_insert by exact E. cbn [map concat snd]. change (default [] None ++ [f]) with [f]. apply Permutation_app_comm.
Qed.

#[local] Instance gen_le_total : Total gen_le.
Proof. intros a b. unfold gen_le. lia. Qed.
#[local] Instance gen_le_trans : Transitive gen_le.
Proof. intros a b c. unfold gen_le. lia. Qed.

Lemma group_files_perm l : paths_of (group_files l) ≡ₚ map st_Path l.
Proof.
  unfold group_files. cbv zeta. set (gens := map _ _). assert (paths_of gens ≡ₚ map st_Path l) as H.
  { unfold gens, paths_of. rewrite map_map. transitivity (map st_Path (concat (map snd (map_to_list (fold_left add_file l ∅))))).
    - rewrite concat_map, map_map. reflexivity.
    - rewrite (add_files_perm l ∅), map_to_list_empty. reflexivity. }
  destruct (gens_IsSorted gens); [exact H|]. rewrite <- H. unfold paths_of.
  pose proof (merge_sort_Permutation gen_le gens) as P. rewrite <- P at 2. reflexivity.
Qed.

(** Sorted by id, whatever the order of the map. *)
Lemma group_files_sorted l : StronglySorted gen_le (group_files l).
Proof.
  unfold group_files. cbv zeta. set (gens := map _ _). clearbody gens. destruct (gens_IsSorted gens) eqn:E; [|apply StronglySorted_merge_sort; apply _].
  apply Sorted_StronglySorted; [intros a b c; apply gen_le_trans|]. induction gens as [|x [|y gens] IH]; [constructor|repeat constructor|].
  cbn [gens_IsSorted] in E. apply andb_true_iff in E as [E1 E2]. constructor; [apply IH, E2|]. constructor. unfold gens_Less in E1. unfold gen_le. destruct (Z.ltb_spec (tg_id y) (tg_id x)); [discriminate|lia].
Qed.

(** ** The files in use *)

(** The planner and the file store with the groups handed out and not yet
    released.  Plans are made, groups of any number are released, and the store
    changes; its files have names of their own. *)
Record pstate := mkPS { ps_planner : DefaultPlanner; ps_store : fileStore; ps_out : list CompactionGroup }.

Inductive pstep : pstate -> pstate -> Prop :=
| ps_level level c fs out : pstep (mkPS c fs out) (mkPS (PlanLevel level fs c).2 fs ((PlanLevel level fs c).1 ++ out))
| ps_optimize c fs out : pstep (mkPS c fs out) (mkPS (PlanOptimize fs c).2 fs ((PlanOptimize fs c).1 ++ out))
| ps_plan lastWrite now c fs out : pstep (mkPS c fs out) (mkPS (Plan lastWrite now fs c).2 fs ((Plan lastWrite now fs c).1 ++ out))
| ps_fully c fs out : pstep (mkPS c fs out) (mkPS (FullyCompacted fs c).2 fs out)
| ps_release gs rest c fs out : out ≡ₚ gs ++ rest -> pstep (mkPS c fs out) (mkPS (Release gs c) fs rest)
| ps_change c fs fs' out : NoDup (map st_Path (fst_Stats fs')) -> pstep (mkPS c fs out) (mkPS c fs' out).

Record plan_inv (s : pstate) : Prop := {
  pi_stats : NoDup (map st_Path (fst_Stats (ps_store s)));
  pi_gens : NoDup (paths_of (pl_lastGenerations (ps_planner s)));
  pi_out : NoDup (concat (ps_out s));
  pi_used : pl_filesInUse (ps_planner s) = list_to_set (concat (ps_out s)) }.

Lemma find_spec skip fs c :
  NoDup (map st_Path (fst_Stats fs)) -> NoDup (paths_of (pl_lastGenerations c)) ->
  let '(gens, c') := findGenerations skip fs c in
  NoDup (paths_of gens) /\ pl_lastGenerations c' = gens /\ pl_filesInUse c' = pl_filesInUse c.
Proof.
  intros Hs Hg. unfold findGenerations. destruct (_ && _); [auto|]. cbn. split; [|auto]. rewrite group_files_perm.
  eapply sublist_NoDup; [exact Hs|]. apply (fmap_sublist st_Path), filter_sublist.
Qed.

(** A plan of distinct files is handed out whole, and only when none of its files
    is in use. *)
Lemma acquired_inv groups c c0 fs out :
  NoDup (concat groups) -> pl_lastGenerations c = pl_lastGenerations c0 \/ NoDup (paths_of (pl_lastGenerations c)) -> pl_filesInUse c = pl_filesInUse c0 ->
  plan_inv (mkPS c0 fs out) -> plan_inv (mkPS (acquired groups c).2 fs ((acquired groups c).1 ++ out)).
Proof.
  intros Hd Hg Hu [I1 I2 I3 I4]. cbn in I1, I2, I3, I4. assert (NoDup (paths_of (pl_lastGenerations c))) as Hg' by (destruct Hg as [-> | Hg]; assumption).
  unfold acquired, acquire. destruct (existsb _ groups) eqn:E; cbn; [split; cbn; congruence|]. split; cbn; [exact I1|exact Hg'| |rewrite concat_app, Hu, I4; set_solver].
  rewrite concat_app. apply NoDup_app. split_and!; [exact Hd| |exact I3]. intros f Hf Ho. apply not_true_iff_false in E. apply E.
  apply list_elem_of_In, in_concat in Hf as (g & Hg1 & Hf). apply existsb_exists. exists g. split; [exact Hg1|]. apply existsb_exists. exists f. split; [exact Hf|].
  apply bool_decide_eq_true. rewrite Hu, I4. set_solver.
Qed.

Lemma groups_NoDup gens (groups : list tsmGenerations) :
  NoDup (paths_of gens) -> concat groups `sublist_of` gens -> NoDup (concat (map paths_of groups)).
Proof. intros Hd Hs. rewrite paths_concat. eapply sublist_NoDup; [exact Hd|]. apply paths_sublist, Hs. Qed.

Lemma sorted_groups_NoDup gens (groups : list tsmGenerations) :
  NoDup (paths_of gens) -> concat groups `sublist_of` gens -> NoDup (concat (map (fun g => sort_Strings (paths_of g)) groups)).
Proof.
  intros Hd Hs. pose proof (groups_NoDup _ _ Hd Hs) as H. enough (concat (map (fun g => sort_Strings (paths_of g)) groups) ≡ₚ concat (map paths_of groups)) as -> by exact H.
  clear. induction groups as [|g groups IH]; [reflexivity|]. cbn. apply Permutation_app; [apply merge_sort_Permutation|exact IH].
Qed.

(** What every planning operation starts with. *)
Lemma found_inv skip fs c out :
  plan_inv (mkPS c fs out) ->
  let '(gens, c') := findGenerations skip fs c in NoDup (paths_of gens) /\ plan_inv (mkPS c' fs out).
Proof.
  intros [I1 I2 I3 I4]. cbn in *. pose proof (find_spec skip fs c I1 I2) as H. destruct (findGenerations skip fs c) as [gens c']. destruct H as (Hn & Hl & Hu).
  split; [exact Hn|]. split; cbn; [exact I1|congruence|exact I3|congruence].
Qed.

Lemma acquire_keeps groups c fs out :
  NoDup (concat groups) -> plan_inv (mkPS c fs out) -> plan_inv (mkPS (acquired groups c).2 fs ((acquired groups c).1 ++ out)).
Proof. intros Hd Hi. apply (acquired_inv groups c c); auto. Qed.

Lemma Plan_inv lastWrite now c fs out :
  plan_inv (mkPS c fs out) -> plan_inv (mkPS (Plan lastWrite now fs c).2 fs ((Plan lastWrite now fs c).1 ++ out)).
Proof.
  intros Hi. unfold Plan. pose proof (found_inv true fs c out Hi) as H. destruct (findGenerations true fs c) as [gens c']. destruct H as [Hn Hi'].
  destruct (_ && _ && _); [destruct (_ || _); [exact Hi'|]|].
  - apply acquire_keeps; [|exact Hi']. apply (sorted_groups_NoDup gens [cold_gens (zlen gens) fs gens] Hn). cbn. rewrite app_nil_r. apply cold_sublist.
  - destruct (After _ _ && _); [exact Hi'|]. cbv zeta. set (c'' := mkPlanner _ _ _ _ _).
    assert (plan_inv (mkPS c'' fs out)) as Hi'' by (destruct Hi' as [J1 J2 J3 J4]; split; assumption). destruct (_ && _); [exact Hi''|].
    pose proof (sorted_groups_NoDup gens _ Hn (full_sublist fs gens)) as Hd. destruct (full_groups fs gens); [exact Hi''|]. apply acquire_keeps; assumption.
Qed.

Lemma pstep_inv s s' : pstep s s' -> plan_inv s -> plan_inv s'.
Proof.
  intros Hst Hi. destruct Hst as [level c fs out|c fs out|lw now c fs out|c fs out|gs rest c fs out Hp|c fs fs' out Hn].
  - unfold PlanLevel. pose proof (found_inv true fs c out Hi) as H. destruct (findGenerations true fs c) as [gens c']. destruct H as [Hn Hi'].
    destruct (_ && _); [exact Hi'|]. apply acquire_keeps; [|exact Hi']. exact (groups_NoDup gens _ Hn (level_chunks_sublist level gens)).
  - unfold PlanOptimize. pose proof (found_inv true fs c out Hi) as H. destruct (findGenerations true fs c) as [gens c']. destruct H as [Hn Hi'].
    destruct (_ && _); [exact Hi'|]. apply acquire_keeps; [|exact Hi']. exact (groups_NoDup gens _ Hn (optimize_sublist gens)).
  - apply Plan_inv, Hi.
  - unfold FullyCompacted. pose proof (found_inv false fs c out Hi) as H. destruct (findGenerations false fs c) as [gens c']. apply H.
  - destruct Hi as [I1 I2 I3 I4]. cbn in *. assert (concat out ≡ₚ concat gs ++ concat rest) as Hc by (rewrite Hp, concat_app; reflexivity).
    rewrite Hc in I3. apply NoDup_app in I3 as (J1 & J2 & J3). split; cbn; [assumption|assumption|exact J3|]. rewrite I4. apply leibniz_equiv. intros f.
    rewrite elem_of_difference, !elem_of_list_to_set, Hc, elem_of_app. specialize (J2 f). tauto.
  - destruct Hi as [I1 I2 I3 I4]. split; assumption.
Qed.

(** C24 (invariant). Two plans that are both out never have a file in common, and
    the planner's set of files in use is exactly the files of the plans that are
    out: in every state that is reached from a new planner by making plans of any
    level, optimize plans and full plans, asking whether the shard is fully
    compacted, releasing groups and changes of the file store, whatever the cached
    generations are when the files on disk have changed. *)
Theorem plans_disjoint cold fs s :
  NoDup (map st_Path (fst_Stats fs)) -> rtc pstep (mkPS (NewDefaultPlanner cold) fs []) s ->
  NoDup (concat (ps_out s)) /\ pl_filesInUse (ps_planner s) = list_to_set (concat (ps_out s)).
Proof.
  intros Hn Hr. enough (plan_inv s) as [_ _ H3 H4] by auto. assert (plan_inv (mkPS (NewDefaultPlanner cold) fs [])) as Hi by (split; cbn; [exact Hn|constructor|constructor|reflexivity]).
  revert Hi. generalize (mkPS (NewDefaultPlanner cold) fs []), Hr. clear. intros s0 Hr. induction Hr; eauto using pstep_inv.
Qed.

(** ** Level plans *)

Lemma group_levels_nonempty cur gens x : x ∈ group_levels cur gens -> x <> [] /\ exists pre post, cur ++ gens = pre ++ x ++ post.
Proof.
  revert cur. induction gens as [|g gens IH]; intros cur; cbn [group_levels].
  - destruct cur as [|c cur]; intros H; [apply elem_of_nil in H as []|]. apply list_elem_of_singleton in H as ->. split; [discriminate|]. exists [], []. reflexivity.
  - assert (x ∈ group_levels (cur ++ [g]) gens -> x <> [] /\ exists pre post, cur ++ g :: gens = pre ++ x ++ post) as Happ.
    { intros H. destruct (IH _ H) as [H1 (pre & post & H2)]. split; [exact H1|]. exists pre, post. rewrite <- H2, <- app_assoc. reflexivity. }
    destruct (match gens with next :: _ => _ | [] => false end); [exact Happ|]. destruct (_ || _) eqn:E; [exact Happ|]. intros H. apply elem_of_cons in H as [-> | H].
    + split; [intros ->; discriminate|]. exists [], (g :: gens). reflexivity.
    + destruct (IH _ H) as [H1 (pre & post & H2)]. split; [exact H1|]. exists (cur ++ pre), post. rewrite <- app_assoc, <- H2. reflexivity.
Qed.

Lemma fold_level_bound l n : n <= fold_left (fun l g => if tg_level g >? l then tg_level g else l) l n.
Proof. revert n. induction l as [|g l IH]; intros n; cbn; [lia|]. specialize (IH (if tg_level g >? n then tg_level g else n)). destruct (Z.gtb_spec (tg_level g) n); lia. Qed.

Lemma gens_level_bound l g : g ∈ l -> tg_level g <= gens_level l.
Proof.
  unfold gens_level. generalize 0. induction l as [|x l IH]; intros n Hg; [apply elem_of_nil in Hg as []|]. cbn. apply elem_of_cons in Hg as [-> | Hg]; [|apply IH, Hg].
  pose proof (fold_level_bound l (if tg_level x >? n then tg_level x else n)). destruct (Z.gtb_spec (tg_level x) n); lia.
Qed.

Lemma elem_of_filter_list {A} (f : A -> bool) l x : x ∈ List.filter f l <-> x ∈ l /\ f x = true.
Proof. rewrite !list_elem_of_In. apply filter_In. Qed.

Lemma level_chunk level gens chunk :
  chunk ∈ level_chunks level gens ->
  (0 < length chunk <= groupSize level)%nat /\ worthwhile (minGenerations level) chunk = true /\
  (exists pre post, gens = pre ++ chunk ++ post) /\ Forall (fun g => tg_level g <= level) chunk.
Proof.
  unfold level_chunks. rewrite elem_of_filter_list. intros [Hc Hw]. apply list_elem_of_In, in_concat in Hc as (l & Hl & Hc). apply in_map_iff in Hl as (grp & <- & Hg).
  apply list_elem_of_In, elem_of_filter_list in Hg as [Hg Hlev]. apply list_elem_of_In, (chunk_sizes _ _ _ (groupSize_pos level)) in Hc as [Hs (p & q & ->)].
  destruct (group_levels_nonempty _ _ _ Hg) as [_ (pre & post & E)]. cbn [app] in E. split; [exact Hs|]. split; [exact Hw|]. split.
  - exists (pre ++ p), (q ++ post). rewrite E, <- !app_assoc. reflexivity.
  - apply Forall_forall. intros g Hin. apply Z.eqb_eq in Hlev. rewrite <- Hlev. apply gens_level_bound. set_solver.
Qed.

Lemma found_order skip fs c :
  let '(gens, c') := findGenerations skip fs c in
  (StronglySorted gen_le gens \/ gens = pl_lastGenerations c) /\ pl_filesInUse c' = pl_filesInUse c.
Proof. unfold findGenerations. destruct (_ && _); [auto|]. split; [left; apply group_files_sorted|reflexivity]. Qed.

Lemma acquired_group groups c group :
  group ∈ (acquired groups c).1 -> group ∈ groups /\ Forall (fun f => f ∉ pl_filesInUse c /\ f ∈ pl_filesInUse (acquired groups c).2) group.
Proof.
  unfold acquired, acquire. destruct (existsb _ groups) eqn:E; [intros H; apply elem_of_nil in H as []|]. cbn. intros H. split; [exact H|]. apply Forall_forall. intros f Hf. split.
  - intros Hu. apply not_true_iff_false in E. apply E. apply existsb_exists. exists group. split; [apply list_elem_of_In, H|]. apply existsb_exists. exists f.
    split; [apply list_elem_of_In, Hf|]. apply bool_decide_eq_true, Hu.
  - apply elem_of_union_l, elem_of_list_to_set, list_elem_of_In, in_concat. exists group. rewrite <- !list_elem_of_In. auto.
Qed.

(** What a level plan hands out: each group is the files, in
    order, of a run of generations that are consecutive among the generations
    found, which are in ascending order or the ones of the last time; none of the
    files was in use before and all are after; the run has at most eight generations at level one and
    at most four above, none of a level above the one planned; and it has at least
    the minimum number of generations of the level unless one of its files has
    tombstones. *)
Theorem plan_level_sound level fs c group :
  let '(generations, _) := findGenerations true fs c in
  group ∈ (PlanLevel level fs c).1 ->
  (StronglySorted gen_le generations \/ generations = pl_lastGenerations c) /\
  Forall (fun f => f ∉ pl_filesInUse c /\ f ∈ pl_filesInUse (PlanLevel level fs c).2) group /\
  exists pre chunk post,
    generations = pre ++ chunk ++ post /\ group = concat (map tg_paths chunk) /\
    zlen chunk <= (if decide (level = 1) then 8 else 4) /\ Forall (fun g => tg_level g <= level) chunk /\
    (minGenerations level <= zlen chunk \/ exists g f, g ∈ chunk /\ f ∈ tg_files g /\ st_HasTombstone f = true).
Proof.
  unfold PlanLevel. pose proof (found_order true fs c) as Hf. destruct (findGenerations true fs c) as [gens c1]. destruct Hf as [Ho Hu].
  destruct (_ && _); [intros H; apply elem_of_nil in H as []|]. intros H. split; [exact Ho|]. destruct (acquired_group _ _ _ H) as [Hm Hin]. rewrite Hu in Hin. split; [exact Hin|].
  apply list_elem_of_In, in_map_iff in Hm as (chunk & <- & Hc). apply list_elem_of_In, level_chunk in Hc as (Hs & Hw & (pre & post & E) & Hl).
  exists pre, chunk, post. split; [exact E|]. split; [reflexivity|]. split; [unfold groupSize in Hs; unfold zlen; destruct (Z.eqb_spec level 1), (decide (level = 1)); lia|]. split; [exact Hl|].
  unfold worthwhile in Hw. destruct (Z.ltb_spec (zlen chunk) (minGenerations level)) as [Hlt|]; [|left; assumption]. right. cbn in Hw. rewrite negb_involutive in Hw.
  apply existsb_exists in Hw as (g & Hg & Hf). apply existsb_exists in Hf as (f & Hf & Ht). exists g, f. rewrite !list_elem_of_In. auto.
Qed.

(** ** Examples *)

Module PlanExample.
Definition stat (name : string) (tomb : bool) (size : Z) : FileStat := mkStat name tomb size 0 0 0 [] [].
Definition snap (i : string) : string := ("00000000" ++ i ++ "-000000001.tsm")%string.
Definition full (i : string) : string := ("00000000" ++ i ++ "-000000004.tsm")%string.
Definition big : Z := 3 * 1024 * 1024 * 1024.

Definition three_snapshots : fileStore := mkStore [stat (snap "3") false 10; stat (snap "1") false 10; stat (snap "2") false 10] (Some 5) (fun _ _ => 0).

Lemma plan_level_sound_witness :
  Forall (fun f => f ∉ pl_filesInUse (NewDefaultPlanner 0) /\ f ∈ pl_filesInUse (PlanLevel 1 three_snapshots (NewDefaultPlanner 0)).2) [snap "1"; snap "2"; snap "3"].
Proof. pose proof (plan_level_sound 1 three_snapshots (NewDefaultPlanner 0) [snap "1"; snap "2"; snap "3"]) as H. apply H. vm_compute. left. Defined.

(** A plan, the answer nothing while it is out, a release and the same plan again. *)
Definition planned : pstate :=
  let c := (PlanLevel 1 three_snapshots (NewDefaultPlanner 0)).2 in
  let out := (PlanLevel 1 three_snapshots (NewDefaultPlanner 0)).1 in
  let c := (PlanOptimize three_snapshots (PlanLevel 1 three_snapshots c).2).2 in
  mkPS (PlanLevel 1 three_snapshots (Release out c)).2 three_snapshots (PlanLevel 1 three_snapshots (Release out c)).1.

Lemma plans_disjoint_witness :
  ps_out planned = [[snap "1"; snap "2"; snap "3"]] /\ NoDup (concat (ps_out planned)) /\ pl_filesInUse (ps_planner planned) = list_to_set (concat (ps_out planned)).
Proof.
  split; [vm_compute; reflexivity|]. apply (plans_disjoint 0 three_snapshots); [apply (bool_decide_unpack _); vm_compute; exact I|].
  eapply rtc_l; [exact (ps_level 1 _ _ _)|]. eapply rtc_l; [exact (ps_level 1 _ _ _)|]. eapply rtc_l; [exact (ps_optimize _ _ _)|].
  eapply rtc_l; [apply (ps_release [[snap "1"; snap "2"; snap "3"]] []); vm_compute; reflexivity|].
  eapply rtc_l; [exact (ps_level 1 _ _ _)|]. vm_compute. apply rtc_refl.
Defined.

Definition with_big (l : list FileStat) : fileStore := mkStore l (Some 5) (fun p _ => if decide (p = full "2") then DefaultMaxPointsPerBlock else 10).

(** A cold shard's full plan leaves out a generation that is full, and compacts the
    ones before and after it into one: what the first had is then in a generation
    above the one left out, which is newer. *)
Example plan_spans_gap :
  (Plan 0 10 (with_big [stat (full "1") false 10; stat (full "2") false big; stat (full "3") false 10]) (NewDefaultPlanner 1)).1 = [[full "1"; full "3"]].
Proof. vm_compute. reflexivity. Qed.

(** A full generation that is not the first of its slice is kept, and the first is
    left out in its place: here the one with tombstones. *)
Example plan_drops_front :
  (Plan 0 0 (with_big [stat (full "1") true 10; stat (full "2") false big; stat (full "3") false 10]) (NewDefaultPlanner 0)).1 = [[full "2"; full "3"]].
Proof. vm_compute. reflexivity. Qed.

(** The generations found last are used again while the store is unchanged, in use
    or not: the files of a level that are free are not planned when one of the same
    level is in use. *)
Example plan_stale :
  let s := mkStore (map (fun i => stat (snap i) true 10) ["1"; "2"]) (Some 5) (fun _ _ => 0) in
  let c := (FullyCompacted s (set_inUse {[snap "1"]} (NewDefaultPlanner 0))).2 in
  (PlanLevel 1 s c).1 = [] /\ (PlanLevel 1 s (set_inUse {[snap "1"]} (NewDefaultPlanner 0))).1 = [[snap "2"]].
Proof. vm_compute. auto. Qed.
End PlanExample.
