(* ===== verification/KeyCursor.v ===== *)
(** * Cursors over the files of a store

    [KeyCursor], [location] and [FileStore.locations] of
    [tsdb/engine/tsm1/file_store.go], and the reading of blocks of
    [file_store.gen.go], which is one template generated for five value types.
    A cursor and the store share the readers of the files, which are objects of a
    heap; the current blocks of a cursor are positions in its list of locations,
    which they share.  [sort.Sort] is a parameter: what it does when [Less] is not
    an order is not specified. *)

From S2P Require Import Prelude Values Varint Simple8b TimeCodec IntCodec BoolCodec StringCodec BitReader FloatCodec ValueCodec Blocks TypedValues.
From S2P Require Import Bytes TSMWriter TSMIndex TSMDelete Tombstone TSMReader TSMFile TSMStore KeyIterator.

(** ** Files and locations *)

Record tsmFile := mkTF { tf_path : string; tf_rd : TSMReader }.
Abbreviation fileHeap := (gmap nat tsmFile).

Record location := mkLoc { loc_r : nat; loc_entry : IndexEntry; loc_readMin : Z; loc_readMax : Z }.

Definition loc_read (l : location) : bool := (loc_readMin l <=? MinTime (loc_entry l)) && (loc_readMax l >=? MaxTime (loc_entry l)).

Definition loc_markRead (min max : Z) (l : location) : location :=
  mkLoc (loc_r l) (loc_entry l) (if min <? loc_readMin l then min else loc_readMin l) (if max >? loc_readMax l then max else loc_readMax l).

Definition loc_path (h : fileHeap) (l : location) : string := match h !! loc_r l with Some f => tf_path f | None => ""%string end.
Definition string_lt (a b : string) : bool := match String.compare a b with Lt => true | _ => false end.
Definition loc_overlaps (a b : location) : bool := entry_OverlapsTimeRange (loc_entry a) (MinTime (loc_entry b)) (MaxTime (loc_entry b)).

Definition descLess (h : fileHeap) (a b : location) : bool :=
  if loc_overlaps a b then string_lt (loc_path h a) (loc_path h b) else MaxTime (loc_entry a) <? MaxTime (loc_entry b).
Definition ascLess (h : fileHeap) (a b : location) : bool :=
  if loc_overlaps a b then string_lt (loc_path h a) (loc_path h b) else MinTime (loc_entry a) <? MinTime (loc_entry b).

(** The entries of a key in one file. *)
Section Locations.
Context `{BU : BytesUtil}.

Definition tombstoned (ts : list TimeRange) (e : IndexEntry) : bool := existsb (fun t => (tr_Min t <=? MinTime e) && (tr_Max t >=? MaxTime e)) ts.

Definition file_locations (key : list Z) (t : Z) (ascending : bool) (id : nat) (f : tsmFile) : res werr (list location) :=
  let d := rd_index (tf_rd f) in
  if ascending && (ix_maxTime d <? t) then Ok []
  else if negb ascending && (ix_minTime d >? t) then Ok []
  else
    res_map (fun entries =>
      map (fun ie => if ascending then mkLoc id ie MinInt64 (i64 (t - 1)) else mkLoc id ie (i64 (t + 1)) MaxInt64)
        (List.filter (fun ie =>
           negb (tombstoned (ix_TombstoneRange d key) ie) && negb (ascending && (MaxTime ie <? t)) && negb (negb ascending && (MinTime ie >? t))) entries))
      (ix_Entries d key).

(** [locations]; [ids] are the files of the store. *)
Fixpoint locations (h : fileHeap) (ids : list nat) (key : list Z) (t : Z) (ascending : bool) : res werr (list location) :=
  match ids with
  | [] => Ok []
  | id :: ids' =>
      match h !! id with
      | None => Panic
      | Some f =>
          match file_locations key t ascending id f with
          | Ok l => res_map (app l) (locations h ids' key t ascending)
          | Err e => Err e
          | Panic => Panic
          end
      end
  end.
End Locations.

(** ** The cursor *)

Record KeyCursor := mkKC {
  kc_key : list Z; kc_seeks : list location; kc_current : list nat; kc_pos : Z; kc_ascending : bool; kc_duplicates : bool }.

Definition kc_set (seeks : list location) (current : list nat) (pos : Z) (c : KeyCursor) : KeyCursor :=
  mkKC (kc_key c) seeks current pos (kc_ascending c) (kc_duplicates c).

(** [hasOverlappingBlocks] *)
Fixpoint overlapping (prev : location) (l : list location) : bool :=
  match l with
  | cur :: l' => (MaxTime (loc_entry prev) >=? MinTime (loc_entry cur)) || overlapping cur l'
  | [] => false
  end.
Definition hasOverlappingBlocks (seeks : list location) : bool := match seeks with prev :: l => overlapping prev l | [] => false end.

Definition is_unread (seeks : list location) (i : nat) : bool := match seeks !! i with Some l => negb (loc_read l) | None => false end.

(** The positions that a seek to [t] finds, in the order they are visited. *)
Definition seek_matches (seeks : list location) (t : Z) (ascending : bool) : list nat :=
  let n := length seeks in
  if ascending then List.filter (fun i => match seeks !! i with Some e => (t <? MinTime (loc_entry e)) || entry_Contains (loc_entry e) t | None => false end) (seq 0 n)
  else List.filter (fun i => match seeks !! i with Some e => (t >? MaxTime (loc_entry e)) || entry_Contains (loc_entry e) t | None => false end) (reverse (seq 0 n)).

(** [seek], with [seekAscending] and [seekDescending]: the first match is the
    position; without duplicates it is the only one that is current. *)
Definition kc_seek (t : Z) (c : KeyCursor) : KeyCursor :=
  match kc_seeks c with
  | [] => c
  | seeks =>
      match seek_matches seeks t (kc_ascending c) with
      | [] => kc_set seeks [] (kc_pos c) c
      | i :: l => kc_set seeks (if kc_duplicates c then i :: l else [i]) (Z.of_nat i) c
      end
  end.

(** [nextAscending] and [nextDescending]: the next position that is not read; with
    duplicates, all later ones that are not read, where going down the position
    itself comes again. *)
Definition nextAscending (c : KeyCursor) : KeyCursor :=
  let n := length (kc_seeks c) in
  let from := Z.to_nat (kc_pos c + 1) in
  match List.filter (is_unread (kc_seeks c)) (seq from (n - from)) with
  | [] => kc_set (kc_seeks c) [] (Z.max (kc_pos c + 1) (Z.of_nat n)) c
  | i :: l => kc_set (kc_seeks c) (if kc_duplicates c then i :: l else [i]) (Z.of_nat i) c
  end.

Definition nextDescending (c : KeyCursor) : KeyCursor :=
  match List.filter (is_unread (kc_seeks c)) (reverse (seq 0 (Z.to_nat (kc_pos c)))) with
  | [] => kc_set (kc_seeks c) [] (Z.min (kc_pos c - 1) (-1)) c
  | i :: l => kc_set (kc_seeks c) (if kc_duplicates c then i :: i :: l else [i]) (Z.of_nat i) c
  end.

(** A panic has no result. *)
Definition kc_Next (c : KeyCursor) : option KeyCursor :=
  match kc_current c with
  | [] => Some c
  | i :: _ =>
      l ← kc_seeks c !! i;
      if negb (loc_read l) then Some c else Some (if kc_ascending c then nextAscending c else nextDescending c)
  end.

(** References on the files; a file is named once for each of its locations. *)
Definition adjust (g : TSMReader -> TSMReader) (h : fileHeap) (l : location) : fileHeap :=
  alter (fun f => mkTF (tf_path f) (g (tf_rd f))) (loc_r l) h.
Definition ref_all (seeks : list location) (h : fileHeap) : fileHeap := fold_left (adjust rd_Ref) seeks h.
Definition unref_all (seeks : list location) (h : fileHeap) : fileHeap := fold_left (adjust rd_Unref) seeks h.

Definition kc_Close (c : KeyCursor) (h : fileHeap) : KeyCursor * fileHeap := (kc_set [] [] (kc_pos c) c, unref_all (kc_seeks c) h).

Section New.
Context `{BU : BytesUtil}.
Context (sort_Sort : (location -> location -> bool) -> list location -> list location).

Definition newKeyCursor (h : fileHeap) (ids : list nat) (key : list Z) (t : Z) (ascending : bool) : res werr (KeyCursor * fileHeap) :=
  match locations h ids key t ascending with
  | Ok l =>
      let seeks := sort_Sort (if ascending then ascLess h else descLess h) l in
      Ok (kc_seek t (mkKC key seeks [] 0 ascending (hasOverlappingBlocks l)), ref_all seeks h)
  | Err e => Err e
  | Panic => Panic
  end.
End New.

(** ** Reading a block *)

(** [filterXValues] *)
Definition filterValues {V} (U : V -> Z) (tombstones : list TimeRange) (values : list V) : list V :=
  fold_left (fun v t => Exclude U v (tr_Min t) (tr_Max t)) tombstones values.

Section Template.
Context {V : Type} (U : V -> Z) (ReadBlockAt : TSMReader -> IndexEntry -> res werr (list V)).

(** The values of a block that were not read and are not deleted, going first by
    one and then by the other. *)
Definition read_first (key : list Z) (h : fileHeap) (l : location) : res werr (list V) :=
  match h !! loc_r l with
  | Some f => res_map (fun v => filterValues U (ix_TombstoneRange (rd_index (tf_rd f)) key) (Exclude U v (loc_readMin l) (loc_readMax l))) (ReadBlockAt (tf_rd f) (loc_entry l))
  | None => Panic
  end.
Definition read_other (key : list Z) (h : fileHeap) (l : location) : res werr (list V) :=
  match h !! loc_r l with
  | Some f => res_map (fun v => Exclude U (filterValues U (ix_TombstoneRange (rd_index (tf_rd f)) key) v) (loc_readMin l) (loc_readMax l)) (ReadBlockAt (tf_rd f) (loc_entry l))
  | None => Panic
  end.

(** The window, over the other current blocks: down to the earliest start (the
    latest end) of what is unread, then up to the end (down to the start) of the
    first block that overlaps. *)
Definition widen (ascending : bool) (others : list location) (w : Z * Z) : Z * Z :=
  fold_left (fun w cur =>
    if ascending then (if (MinTime (loc_entry cur) <? w.1) && negb (loc_read cur) then MinTime (loc_entry cur) else w.1, w.2)
    else (w.1, if (MaxTime (loc_entry cur) >? w.2) && negb (loc_read cur) then MaxTime (loc_entry cur) else w.2)) others w.

Definition shrink (ascending : bool) (others : list location) (w : Z * Z) (values : list V) : (Z * Z) * list V :=
  match List.find (fun cur => entry_OverlapsTimeRange (loc_entry cur) w.1 w.2 && negb (loc_read cur)) others with
  | Some cur =>
      let w := if ascending then (w.1, if MaxTime (loc_entry cur) >? w.2 then MaxTime (loc_entry cur) else w.2)
               else (if MinTime (loc_entry cur) <? w.1 then MinTime (loc_entry cur) else w.1, w.2) in
      (w, Include U values w.1 w.2)
  | None => (w, values)
  end.

(** The values of the other blocks in the window; a block of a later file wins. *)
Fixpoint merge_others (ascending : bool) (key : list Z) (h : fileHeap) (w : Z * Z) (idx : list nat) (seeks : list location) (values : list V)
    : res werr (list V) * list location :=
  match idx with
  | [] => (Ok values, seeks)
  | i :: idx' =>
      match seeks !! i with
      | None => (Panic, seeks)
      | Some cur =>
          let seeks' := <[i := loc_markRead w.1 w.2 cur]> seeks in
          if negb (entry_OverlapsTimeRange (loc_entry cur) w.1 w.2) || loc_read cur then merge_others ascending key h w idx' seeks' values
          else match read_other key h cur with
               | Ok [] => merge_others ascending key h w idx' seeks' values
               | Ok v =>
                   let v := Include U v w.1 w.2 in
                   merge_others ascending key h w idx' seeks' (if ascending then Merge U values v else Merge U v values)
               | Err e => (Err e, seeks)
               | Panic => (Panic, seeks)
               end
      end
  end.

Definition mark_at (i : nat) (min max : Z) (seeks : list location) : list location := alter (loc_markRead min max) i seeks.

Definition ReadBlock (h : fileHeap) (c : KeyCursor) : res werr (list V) * KeyCursor :=
  match kc_current c with
  | [] => (Ok [], c)
  | i :: idx =>
      match kc_seeks c !! i with
      | None => (Panic, c)
      | Some first =>
          match read_first (kc_key c) h first with
          | Ok values =>
              match head values, last values with
              | Some v0, Some v1 =>
                  match idx with
                  | [] => (Ok values, kc_set (mark_at i (U v0) (U v1) (kc_seeks c)) (kc_current c) (kc_pos c) c)
                  | _ =>
                      let others := omap (fun j => kc_seeks c !! j) idx in
                      let '(w, values) := shrink (kc_ascending c) others (widen (kc_ascending c) others (U v0, U v1)) values in
                      match merge_others (kc_ascending c) (kc_key c) h w idx (kc_seeks c) values with
                      | (Ok values, seeks) => (Ok values, kc_set (mark_at i w.1 w.2 seeks) (kc_current c) (kc_pos c) c)
                      | (r, seeks) => (r, kc_set seeks (kc_current c) (kc_pos c) c)
                      end
                  end
              | _, _ => (Ok [], c)
              end
          | r => (r, c)
          end
      end
  end.
End Template.

(** ** The five instances

    The decoders come from the pools. *)

Section Instances.
Context `{S8 : Simple8b} `{SN : Snappy} `{BS : BitStream} (q : decoders).

Definition ReadFloatBlockAt (r : TSMReader) (e : IndexEntry) : res werr (list (tv Z)) := (readFloatBlock (rd_acc r) e (p_tdec q) (p_fdec q)).1.1.
Definition ReadIntegerBlockAt (r : TSMReader) (e : IndexEntry) : res werr (list (tv Z)) := (readIntegerBlock (rd_acc r) e (p_tdec q) (p_idec q)).1.1.
Definition ReadUnsignedBlockAt (r : TSMReader) (e : IndexEntry) : res werr (list (tv Z)) := (readUnsignedBlock (rd_acc r) e (p_tdec q) (p_idec q)).1.1.
Definition ReadStringBlockAt (r : TSMReader) (e : IndexEntry) : res werr (list (tv (list Z))) := (readStringBlock (rd_acc r) e (p_tdec q) (p_sdec q)).1.1.
Definition ReadBooleanBlockAt (r : TSMReader) (e : IndexEntry) : res werr (list (tv bool)) := (readBooleanBlock (rd_acc r) e (p_tdec q) (p_bdec q)).1.1.

Definition filterFloatValues := filterValues (V := tv Z) unixnano.
Definition filterIntegerValues := filterValues (V := tv Z) unixnano.
Definition filterUnsignedValues := filterValues (V := tv Z) unixnano.
Definition filterStringValues := filterValues (V := tv (list Z)) unixnano.
Definition filterBooleanValues := filterValues (V := tv bool) unixnano.

Definition ReadFloatBlock := ReadBlock unixnano ReadFloatBlockAt.
Definition ReadIntegerBlock := ReadBlock unixnano ReadIntegerBlockAt.
Definition ReadUnsignedBlock := ReadBlock unixnano ReadUnsignedBlockAt.
Definition ReadStringBlock := ReadBlock unixnano ReadStringBlockAt.
Definition ReadBooleanBlock := ReadBlock unixnano ReadBooleanBlockAt.
End Instances.
