(* ===== verification/CursorFacts.v ===== *)
(** * What a cursor reads

    [ReadBlock] and [Next] over the blocks of a key, in either direction and however
    the blocks overlap.  Going up is looked at in time, going down in negated time:
    in both, blocks are entered at their near end and left at their far end, and
    after every block that is handed out there is a [T] such that exactly what is
    not beyond [T] has been read. *)

From S2P Require Import Prelude Bytes Values Varint Simple8b ValueCodec Blocks TypedValues.
From S2P Require Import TSMWriter TSMIndex TSMDelete Tombstone TSMReader TSMFile TSMStore KeyIterator KeyMerge KeyCursor.

Section Facts.
Context {V : Type} (U : V -> Z) (ReadBlockAt : TSMReader -> IndexEntry -> res werr (list V)).
Context (key : list Z) (h : fileHeap) (asc : bool).

(** ** Directed time *)

Definition dir (z : Z) : Z := if asc then z else - z.
Definition tau (v : V) : Z := dir (U v).
Definition near (e : IndexEntry) : Z := if asc then MinTime e else - MaxTime e.
Definition far (e : IndexEntry) : Z := if asc then MaxTime e else - MinTime e.
Definition readFar (l : location) : Z := if asc then loc_readMax l else - loc_readMin l.
Definition wnear (w : Z * Z) : Z := if asc then w.1 else - w.2.
Definition wfar (w : Z * Z) : Z := if asc then w.2 else - w.1.
(** The bound of [int64] where blocks are entered. *)
Definition lowest : Z := if asc then MinInt64 else - MaxInt64.
Definition edge (l : location) : Prop := if asc then loc_readMin l = MinInt64 else loc_readMax l = MaxInt64.

Ltac both := unfold tau, dir, near, far, readFar, wnear, wfar, lowest, edge in *; destruct asc.

(** The values of a block with the ranges deleted from it. *)
Definition bpiece : Type := list V * list TimeRange.
Definition surviving (x : bpiece) : list V := List.filter (fun v => negb (covered x.2 (U v))) x.1.

Record loc_holds (l : location) (x : bpiece) : Prop := {
  lh_read : exists f, h !! loc_r l = Some f /\ ReadBlockAt (tf_rd f) (loc_entry l) = Ok x.1 /\ ix_TombstoneRange (rd_index (tf_rd f)) key = x.2;
  lh_ne : x.1 <> []; lh_inc : increasing U x.1; lh_i64 : Forall (fun v => is_i64 (U v)) x.1;
  lh_min : MinTime (loc_entry l) = first_time U x.1; lh_max : MaxTime (loc_entry l) = last_time U x.1;
  (** the value at the far end is not deleted *)
  lh_end : covered x.2 (if asc then last_time U x.1 else first_time U x.1) = false }.

(** Exactly the values up to [T] were read. *)
Definition loc_taken (T : Z) (l : location) (x : bpiece) : Prop := edge l /\ forall v, v ∈ x.1 -> tau v <= readFar l <-> tau v <= T.

Definition at_T (T : Z) (l : location) (x : bpiece) : Prop := loc_holds l x /\ loc_taken T l x.

Lemma first_elem vs : vs <> [] -> exists v, v ∈ vs /\ U v = first_time U vs.
Proof. destruct vs as [|v vs]; [congruence|]. intros _. exists v. split; [left|reflexivity]. Qed.
Lemma last_elem vs : vs <> [] -> exists v, v ∈ vs /\ U v = last_time U vs.
Proof.
  intros H. unfold last_time. destruct (last vs) as [v|] eqn:E; [|apply last_None in E; congruence]. exists v. split; [apply last_Some_elem_of, E|reflexivity].
Qed.

Lemma lh_span l x v : loc_holds l x -> v ∈ x.1 -> near (loc_entry l) <= tau v <= far (loc_entry l).
Proof. intros H Hv. pose proof (time_span U _ v (lh_inc _ _ H) Hv). pose proof (lh_min _ _ H). pose proof (lh_max _ _ H). both; lia. Qed.

(** The far end is a value, and survives. *)
Lemma lh_far l x : loc_holds l x -> exists v, v ∈ surviving x /\ tau v = far (loc_entry l).
Proof.
  intros H. pose proof (lh_min _ _ H) as Emin. pose proof (lh_max _ _ H) as Emax. pose proof (lh_end _ _ H) as He.
  unfold surviving. both.
  - destruct (last_elem _ (lh_ne _ _ H)) as (v & Hv & E). exists v. split; [|congruence]. apply list_elem_of_In, filter_In. rewrite <- list_elem_of_In. split; [exact Hv|]. rewrite E, He. reflexivity.
  - destruct (first_elem _ (lh_ne _ _ H)) as (v & Hv & E). exists v. split; [|congruence]. apply list_elem_of_In, filter_In. rewrite <- list_elem_of_In. split; [exact Hv|]. rewrite E, He. reflexivity.
Qed.

Lemma surviving_elem x v : v ∈ surviving x <-> v ∈ x.1 /\ covered x.2 (U v) = false.
Proof. unfold surviving. rewrite !list_elem_of_In, filter_In, negb_true_iff. reflexivity. Qed.

Lemma lh_lowest l x v : loc_holds l x -> v ∈ x.1 -> lowest <= tau v.
Proof. intros H Hv. pose proof (lh_i64 _ _ H) as F. rewrite Forall_forall in F. specialize (F v Hv). unfold is_i64, MinInt64, MaxInt64 in *. both; unfold MinInt64, MaxInt64; lia. Qed.

Lemma lh_near l x : loc_holds l x -> lowest <= near (loc_entry l).
Proof.
  intros H. pose proof (lh_min _ _ H) as Emin. pose proof (lh_max _ _ H) as Emax. pose proof (lh_i64 _ _ H) as F. rewrite Forall_forall in F.
  destruct (first_elem _ (lh_ne _ _ H)) as (v & Hv & E). destruct (last_elem _ (lh_ne _ _ H)) as (v' & Hv' & E').
  pose proof (F v Hv). pose proof (F v' Hv'). unfold is_i64 in *. both; unfold MinInt64, MaxInt64; lia.
Qed.

Lemma loc_read_iff T l x : at_T T l x -> loc_read l = (far (loc_entry l) <=? T).
Proof.
  intros [H [He Hr]]. destruct (lh_far _ _ H) as (v & Hv & Ev). apply surviving_elem in Hv as [Hv _]. specialize (Hr v Hv). pose proof (lh_near _ _ H) as Hl.
  unfold loc_read. both; unfold MinInt64, MaxInt64 in *; rewrite ?He in *; zcases; lia || reflexivity.
Qed.

Definition beyond (T : Z) (v : V) : bool := T <? tau v.
Definition within (T M : Z) (v : V) : bool := (T <? tau v) && (tau v <=? M).

Lemma exclude_read T l x : at_T T l x -> forall vs, increasing U vs -> (forall v, v ∈ vs -> v ∈ x.1) -> Exclude U vs (loc_readMin l) (loc_readMax l) = List.filter (beyond T) vs.
Proof.
  intros [H [He Hr]] vs Hi Hs. rewrite (proj2 (include_exclude_filter U vs _ _ Hi)). apply List.filter_ext_in. intros v Hv. apply list_elem_of_In, Hs in Hv.
  specialize (Hr v Hv). pose proof (lh_i64 _ _ H) as F. rewrite Forall_forall in F. specialize (F v Hv). unfold is_i64 in F.
  unfold in_range, beyond. both; unfold MinInt64, MaxInt64 in *; rewrite ?He in *; zcases; cbn; lia || reflexivity.
Qed.

(** What is left of a block. *)
Lemma read_first_spec T l x : at_T T l x -> read_first U ReadBlockAt key h l = Ok (List.filter (beyond T) (surviving x)).
Proof.
  intros Ha. pose proof Ha as [H _]. destruct (lh_read _ _ H) as (f & Ef & Er & Et). unfold read_first. rewrite Ef, Er, Et. cbn [res_map].
  rewrite (exclude_read T l x Ha x.1 (lh_inc _ _ H)) by auto. unfold filterValues. rewrite exclude_ranges by (apply increasing_filter, H). unfold surviving.
  rewrite !filter_filter. f_equal. apply List.filter_ext. intros v. apply andb_comm.
Qed.

Lemma read_other_spec T l x : at_T T l x -> read_other U ReadBlockAt key h l = Ok (List.filter (beyond T) (surviving x)).
Proof.
  intros Ha. pose proof Ha as [H _]. destruct (lh_read _ _ H) as (f & Ef & Er & Et). unfold read_other. rewrite Ef, Er, Et. cbn [res_map].
  unfold filterValues. rewrite exclude_ranges by apply H. f_equal. apply (exclude_read T l x Ha).
  - apply increasing_filter, H.
  - intros v Hv. apply surviving_elem in Hv. apply Hv.
Qed.

(** ** The window *)

Lemma overlaps_dir e w : entry_OverlapsTimeRange e w.1 w.2 = (near e <=? wfar w) && (far e >=? wnear w).
Proof. unfold entry_OverlapsTimeRange. both; zcases; lia || reflexivity. Qed.

Lemma widen_spec others w :
  let w' := widen asc others w in
  wfar w' = wfar w /\ wnear w' <= wnear w /\ Forall (fun l => loc_read l = false -> wnear w' <= near (loc_entry l)) others
  /\ (wnear w' = wnear w \/ exists l, l ∈ others /\ wnear w' = near (loc_entry l)).
Proof.
  unfold widen. revert w. induction others as [|l others IH]; intros w; cbn [fold_left]; [cbn; split; [reflexivity|]; split; [lia|]; split; [constructor|auto]|].
  set (w1 := if asc then _ else _). destruct (IH w1) as (I1 & I2 & I3 & I4). cbv zeta in *.
  assert (wfar w1 = wfar w /\ wnear w1 <= wnear w /\ (loc_read l = false -> wnear w1 <= near (loc_entry l)) /\ (wnear w1 = wnear w \/ wnear w1 = near (loc_entry l))) as (J1 & J2 & J3 & J4).
  { unfold w1. clear IH I1 I2 I3 I4 w1. both; cbn [fst snd]; destruct (loc_read l); cbn [negb]; rewrite ?andb_true_r, ?andb_false_r; zcases; repeat split; lia. }
  split; [lia|]. split; [lia|]. split.
  - constructor; [intros Hr; specialize (J3 Hr); lia|exact I3].
  - destruct I4 as [I4|(l' & Hl & I4)]; [|right; exists l'; split; [right; exact Hl|exact I4]]. destruct J4 as [J4|J4]; [left; lia|]. right. exists l. split; [left|lia].
Qed.

Lemma in_window (values : list V) w : Forall (fun v => wnear w <= tau v <= wfar w) values -> increasing U values -> Include U values w.1 w.2 = values.
Proof.
  intros F Hi. rewrite (proj1 (include_exclude_filter U values _ _ Hi)). apply filter_all. eapply Forall_impl; [exact F|]. intros v Hv. cbn in Hv. unfold in_range. both; zcases; cbn; lia || reflexivity.
Qed.

Lemma shrink_window_spec others w values :
  Forall (fun v => wnear w <= tau v <= wfar w) values -> increasing U values ->
  exists w', shrink U asc others w values = (w', values) /\ wnear w' = wnear w /\ wfar w <= wfar w'.
Proof.
  intros F Hi. unfold shrink. destruct (List.find _ others) as [l|]; [|exists w; split; [reflexivity|lia]].
  set (w' := if asc then _ else _). assert (wnear w' = wnear w /\ wfar w <= wfar w') as [H1 H2] by (unfold w'; both; cbn [fst snd]; zcases; lia).
  exists w'. split; [|auto]. f_equal. apply in_window; [|exact Hi]. eapply Forall_impl; [exact F|]. intros v Hv. cbn in Hv |- *. lia.
Qed.

Definition win (T M : Z) (x : bpiece) : list V := List.filter (within T M) (surviving x).

Lemma include_win T l x w : at_T T l x -> wnear w <= near (loc_entry l) -> Include U (List.filter (beyond T) (surviving x)) w.1 w.2 = win T (wfar w) x.
Proof.
  intros [H _] Hw. unfold win. rewrite (proj1 (include_exclude_filter U (List.filter (beyond T) (surviving x)) w.1 w.2 (increasing_filter U _ _ (increasing_filter U _ _ (lh_inc _ _ H))))), filter_filter.
  apply List.filter_ext_in. intros v Hv. apply list_elem_of_In, surviving_elem in Hv as [Hv _]. pose proof (lh_span _ _ v H Hv) as Hs.
  unfold beyond, within, in_range. both; zcases; cbn; lia || reflexivity.
Qed.

Lemma win_none T M x : (forall v, v ∈ x.1 -> tau v <= T \/ M < tau v) -> win T M x = [].
Proof. intros H. apply filter_none, Forall_forall. intros v Hv. apply surviving_elem in Hv as [Hv _]. specialize (H v Hv). unfold within. zcases; cbn; lia || reflexivity. Qed.

Lemma win_increasing T M x : increasing U x.1 -> increasing U (win T M x).
Proof. intros H. apply increasing_filter, increasing_filter, H. Qed.

(** Marking what is in the window. *)
Lemma mark_taken T l x w : at_T T l x -> T <= wfar w -> lowest <= wnear w -> at_T (wfar w) (loc_markRead w.1 w.2 l) x.
Proof.
  intros [H [He Hr]] Hle Hlow. split; [destruct H; split; assumption|]. unfold loc_taken, loc_markRead in *. cbn [loc_readMin loc_readMax]. split.
  - both; cbn [loc_readMin loc_readMax]; rewrite He; zcases; unfold MinInt64, MaxInt64 in *; lia.
  - intros v Hv. specialize (Hr v Hv). both; cbn [loc_readMin loc_readMax]; zcases; lia.
Qed.

(** Nothing of a block lies between [T] and [M]. *)
Lemma taken_later T M l x : at_T T l x -> T <= M -> (forall v, v ∈ x.1 -> tau v <= T \/ M < tau v) -> at_T M l x.
Proof. intros [H [He Hr]] Hle Hq. split; [exact H|]. split; [exact He|]. intros v Hv. specialize (Hr v Hv). specialize (Hq v Hv). lia. Qed.

Lemma read_quiet T M l x : at_T T l x -> loc_read l = true -> forall v, v ∈ x.1 -> tau v <= T \/ M < tau v.
Proof. intros Ha Hr v Hv. rewrite (loc_read_iff T l x Ha) in Hr. destruct Ha as [H _]. pose proof (lh_span _ _ v H Hv). lia. Qed.

(** ** The other blocks *)

(** The locations at [idx] have moved on to [M]. *)
Definition moved (T M : Z) (idx : list nat) (pieces : list bpiece) (seeks : list location) : Prop :=
  length seeks = length pieces /\ forall i l x, seeks !! i = Some l -> pieces !! i = Some x -> at_T (if decide (i ∈ idx) then M else T) l x.

Definition win_at (T M : Z) (pieces : list bpiece) (i : nat) : list V := match pieces !! i with Some x => win T M x | None => [] end.

Lemma merge_others_spec T w pieces idx done seeks values :
  moved T (wfar w) done pieces seeks -> T <= wfar w -> lowest <= wnear w -> NoDup idx -> Forall (fun i => (i < length pieces)%nat /\ i ∉ done) idx ->
  Forall (fun i => forall l, seeks !! i = Some l -> loc_read l = false -> wnear w <= near (loc_entry l)) idx -> increasing U values ->
  exists values' seeks', merge_others U ReadBlockAt asc key h w idx seeks values = (Ok values', seeks')
    /\ moved T (wfar w) (idx ++ done) pieces seeks' /\ increasing U values'
    /\ to_map U values' = if asc then to_map U (concat (map (win_at T (wfar w) pieces) idx)) ∪ to_map U values
                          else to_map U values ∪ to_map U (concat (map (win_at T (wfar w) pieces) (reverse idx))).
Proof.
  intros Hm Hle Hlow. revert done seeks values Hm. induction idx as [|i idx IH]; intros done seeks values Hm Hd Hb Hn Hi; cbn [merge_others map concat].
  { exists values, seeks. split; [reflexivity|]. split; [exact Hm|]. split; [exact Hi|]. destruct asc; [exact (eq_sym (map_empty_union _))|exact (eq_sym (map_union_empty _))]. }
  apply NoDup_cons in Hd as [Hni Hd]. apply Forall_cons in Hb as [[Hlt Hnd] Hb]. apply Forall_cons in Hn as [Hni' Hn]. destruct Hm as [Hlen Hm].
  destruct (lookup_lt_is_Some_2 seeks i ltac:(lia)) as [l El]. destruct (lookup_lt_is_Some_2 pieces i Hlt) as [x Ex]. rewrite El.
  pose proof (Hm i l x El Ex) as Ha. rewrite decide_False in Ha by exact Hnd. specialize (Hni' l El).
  set (seeks1 := <[i := loc_markRead w.1 w.2 l]> seeks).
  assert (moved T (wfar w) (i :: done) pieces seeks1) as Hm1.
  { split; [unfold seeks1; rewrite length_insert; exact Hlen|]. intros j l' x' Hj Hx'. unfold seeks1 in Hj. destruct (decide (j = i)) as [-> | Hne].
    - rewrite list_lookup_insert_eq in Hj by (apply lookup_lt_Some in El; exact El). injection Hj as <-. assert (x' = x) as -> by congruence.
      rewrite decide_True by left. apply (mark_taken T); assumption.
    - rewrite list_lookup_insert_ne in Hj by congruence. specialize (Hm j l' x' Hj Hx'). destruct (decide (j ∈ i :: done)) as [Hin|Hin], (decide (j ∈ done)) as [Hin2|Hin2]; try exact Hm; exfalso; set_solver. }
  assert (forall values1, increasing U values1 ->
    exists values' seeks', merge_others U ReadBlockAt asc key h w idx seeks1 values1 = (Ok values', seeks')
      /\ moved T (wfar w) (i :: idx ++ done) pieces seeks' /\ increasing U values'
      /\ to_map U values' = if asc then to_map U (concat (map (win_at T (wfar w) pieces) idx)) ∪ to_map U values1
                            else to_map U values1 ∪ to_map U (concat (map (win_at T (wfar w) pieces) (reverse idx)))) as Hnext.
  { intros values1 Hi1. destruct (IH (i :: done) seeks1 values1 Hm1 Hd) as (v' & s' & E & Hm' & Hi' & Hp).
    - eapply Forall_impl; [apply Forall_and; split; [exact Hb|apply Forall_forall; intros j Hj; exact Hj]|]. intros j [[H1 H2] H3]. split; [exact H1|]. set_solver.
    - eapply Forall_impl; [apply Forall_and; split; [exact Hn|apply Forall_forall; intros j Hj; exact Hj]|]. intros j [H1 H3] l' Hl'. apply H1. unfold seeks1 in Hl'. rewrite list_lookup_insert_ne in Hl' by set_solver. exact Hl'.
    - exact Hi1.
    - exists v', s'. split; [exact E|]. split; [|auto]. destruct Hm' as [L' M']. split; [exact L'|]. intros j l' x' Hj Hx'. specialize (M' j l' x' Hj Hx').
      destruct (decide (j ∈ idx ++ i :: done)) as [Hin|Hin], (decide (j ∈ i :: idx ++ done)) as [Hin2|Hin2]; try exact M'; exfalso; set_solver. }
  assert (forall values1, increasing U values1 -> to_map U values1 = (if asc then to_map U (win_at T (wfar w) pieces i) ∪ to_map U values else to_map U values ∪ to_map U (win_at T (wfar w) pieces i)) ->
    exists values' seeks', merge_others U ReadBlockAt asc key h w idx seeks1 values1 = (Ok values', seeks')
      /\ moved T (wfar w) ((i :: idx) ++ done) pieces seeks' /\ increasing U values'
      /\ to_map U values' = if asc then to_map U (win_at T (wfar w) pieces i ++ concat (map (win_at T (wfar w) pieces) idx)) ∪ to_map U values
                            else to_map U values ∪ to_map U (concat (map (win_at T (wfar w) pieces) (reverse (i :: idx))))) as Hfin.
  { intros values1 Hi1 E1. destruct (Hnext values1 Hi1) as (v' & s' & E & Hm' & Hi' & Hp). exists v', s'. split; [exact E|]. split; [exact Hm'|]. split; [exact Hi'|]. rewrite Hp, E1. clear.
    destruct asc; [rewrite to_map_app, map_union_assoc; reflexivity|].
    rewrite reverse_cons, map_app, concat_app. cbn [map concat]. rewrite app_nil_r, to_map_app, map_union_assoc. reflexivity. }
  assert (win_at T (wfar w) pieces i = win T (wfar w) x) as Ew by (unfold win_at; rewrite Ex; reflexivity). rewrite Ew in *.
  rewrite overlaps_dir, (loc_read_iff T l x Ha) in *. pose proof Ha as [Hh _].
  assert (win T (wfar w) x = [] -> to_map U values = if asc then to_map U (win T (wfar w) x) ∪ to_map U values else to_map U values ∪ to_map U (win T (wfar w) x)) as Hempty.
  { intros ->. change (to_map U []) with (∅ : gmap Z V). destruct asc; [rewrite map_empty_union|rewrite map_union_empty]; reflexivity. }
  destruct (negb _ || _) eqn:Eskip.
  - apply (Hfin values Hi). apply Hempty, win_none. intros v Hv. pose proof (lh_span _ _ v Hh Hv) as Hs.
    destruct (Z.leb_spec (far (loc_entry l)) T) as [Hf|Hf]; [lia|]. specialize (Hni' ltac:(reflexivity)).
    rewrite orb_false_r in Eskip. apply negb_true_iff, andb_false_iff in Eskip. zcases; destruct Eskip; try discriminate; lia.
  - apply orb_false_iff in Eskip as [_ Hf]. rewrite (read_other_spec T l x Ha). specialize (Hni' Hf). pose proof (include_win T l x w Ha Hni') as Ei.
    destruct (List.filter (beyond T) (surviving x)) as [|v0 vs] eqn:Ev.
    + apply (Hfin values Hi). apply Hempty. rewrite <- Ei. reflexivity.
    + rewrite Ei. apply Hfin.
      * destruct asc; apply Merge_increasing; auto; apply win_increasing, Hh.
      * destruct asc; rewrite Merge_map; reflexivity.
Qed.

(** ** One block *)

(** The order in which positions are visited. *)
Definition idx_lt (i j : nat) : Prop := if asc then (i < j)%nat else (j < i)%nat.

Lemma concat_sparse {A} (f : nat -> list A) a n l :
  StronglySorted lt l -> Forall (fun i => a <= i < a + n)%nat l -> (forall j, (a <= j < a + n)%nat -> j ∉ l -> f j = []) -> concat (map f l) = concat (map f (seq a n)).
Proof.
  revert a l. induction n as [|n IH]; intros a l Hs Hb Hf; [destruct l as [|i l]; [reflexivity|]; apply Forall_cons in Hb as [Hb _]; lia|]. cbn [seq map concat].
  destruct l as [|i l].
  - rewrite (Hf a ltac:(lia)) by apply not_elem_of_nil. rewrite <- (IH (S a) []); [reflexivity|constructor|constructor|]. intros j Hj Hn. apply Hf; [lia|exact Hn].
  - apply Forall_cons in Hb as [Hi Hb]. apply StronglySorted_inv in Hs as [Hs Hlt]. destruct (decide (i = a)) as [-> | Hne].
    + cbn [map concat]. f_equal. apply IH; [exact Hs| |].
      * eapply Forall_impl; [apply Forall_and; split; [exact Hb|exact Hlt]|]. intros j [H1 H2]. cbn in H2. lia.
      * intros j Hj Hn. apply Hf; [lia|]. intros Hin. apply elem_of_cons in Hin as [-> | Hin]; [lia|contradiction].
    + rewrite (Hf a ltac:(lia)). 2:{ intros Hin. apply elem_of_cons in Hin as [-> | Hin]; [congruence|]. rewrite Forall_forall in Hlt. specialize (Hlt a Hin). lia. }
      cbn [app]. apply (IH (S a) (i :: l)).
      * constructor; assumption.
      * constructor; [lia|]. eapply Forall_impl; [apply Forall_and; split; [exact Hb|exact Hlt]|]. intros j [H1 H2]. cbn in H2. lia.
      * intros j Hj Hn. apply Hf; [lia|exact Hn].
Qed.

Lemma map_win_at T M (pieces : list bpiece) : concat (map (win_at T M pieces) (seq 0 (length pieces))) = concat (map (win T M) pieces).
Proof.
  f_equal. apply list_eq. intros i. rewrite !list_lookup_fmap. destruct (decide (i < length pieces)%nat) as [H|H].
  - rewrite lookup_seq_lt by exact H. destruct (lookup_lt_is_Some_2 pieces i H) as [x E]. unfold win_at. cbn. rewrite E. reflexivity.
  - rewrite lookup_seq_ge by lia. rewrite (lookup_ge_None_2 pieces i) by lia. reflexivity.
Qed.

Lemma reverse_sorted l : StronglySorted (fun i j : nat => (j < i)%nat) l -> StronglySorted lt (reverse l).
Proof.
  induction 1 as [|i l Hs IH Hf]; [constructor|]. rewrite reverse_cons. apply StronglySorted_app. split_and!; [|exact IH|repeat constructor].
  intros a b Ha Hb. apply list_elem_of_singleton in Hb as ->. rewrite elem_of_reverse in Ha. rewrite Forall_forall in Hf. apply Hf, Ha.
Qed.

(** The windows of the positions that are visited are all there are. *)
Lemma visited_windows T M (pieces : list bpiece) i0 tl values :
  StronglySorted idx_lt (i0 :: tl) -> Forall (fun i => i < length pieces)%nat (i0 :: tl) -> (forall j, j ∉ i0 :: tl -> win_at T M pieces j = []) ->
  to_map U values = to_map U (win_at T M pieces i0) ->
  (if asc then to_map U (concat (map (win_at T M pieces) tl)) ∪ to_map U values else to_map U values ∪ to_map U (concat (map (win_at T M pieces) (reverse tl))))
  = to_map U (concat (map (win T M) pieces)).
Proof.
  intros Hs Hb Hn Hv. rewrite <- map_win_at. unfold idx_lt in Hs. destruct asc; rewrite Hv, <- to_map_app.
  - f_equal. apply (concat_sparse (win_at T M pieces) 0 (length pieces) (i0 :: tl)); [exact Hs|eapply Forall_impl; [exact Hb|]; intros i Hi; cbn in Hi; lia|auto].
  - assert (concat (map (win_at T M pieces) (reverse tl)) ++ win_at T M pieces i0 = concat (map (win_at T M pieces) (reverse (i0 :: tl)))) as ->
      by (rewrite reverse_cons, map_app, concat_app; cbn; rewrite app_nil_r; reflexivity).
    f_equal. apply (concat_sparse (win_at T M pieces) 0 (length pieces)); [apply reverse_sorted, Hs| |].
    + apply Forall_forall. intros i Hi. rewrite elem_of_reverse in Hi. rewrite Forall_forall in Hb. specialize (Hb i Hi). cbn in Hb. lia.
    + intros j _ Hj. apply Hn. intros Hin. apply Hj, elem_of_reverse, Hin.
Qed.

Lemma values_window (values : list V) v0 v1 :
  increasing U values -> head values = Some v0 -> last values = Some v1 -> Forall (fun v => wnear (U v0, U v1) <= tau v <= wfar (U v0, U v1)) values.
Proof.
  intros Hi H0 H1. apply Forall_forall. intros v Hv. pose proof (time_span U values v Hi Hv) as Hs. unfold first_time, last_time in Hs. rewrite H0, H1 in Hs. both; cbn [fst snd]; lia.
Qed.

Lemma ends_exist {A} (l : list A) : l <> [] -> exists a b, head l = Some a /\ last l = Some b /\ a ∈ l /\ b ∈ l.
Proof.
  intros H. destruct l as [|a l]; [congruence|]. destruct (last (a :: l)) as [b|] eqn:E; [|apply last_None in E; discriminate].
  exists a, b. split; [reflexivity|]. split; [reflexivity|]. split; [left|apply last_Some_elem_of, E].
Qed.

(** What is left of a block that is not read. *)
Lemma left_values T l x :
  at_T T l x -> loc_read l = false -> let values := List.filter (beyond T) (surviving x) in
  T < far (loc_entry l) /\ exists v0 v1, head values = Some v0 /\ last values = Some v1 /\ v0 ∈ x.1 /\ v1 ∈ x.1 /\ increasing U values /\ wfar (U v0, U v1) = far (loc_entry l).
Proof.
  intros Ha Hr values. rewrite (loc_read_iff T l x Ha) in Hr. pose proof Ha as [H _]. destruct (lh_far _ _ H) as (v & Hv & Ev).
  assert (increasing U values) as Hi by (apply increasing_filter, increasing_filter, H).
  assert (v ∈ values) as Hin by (apply list_elem_of_In, filter_In; rewrite <- list_elem_of_In; split; [exact Hv|]; unfold beyond; lia).
  destruct (ends_exist values) as (v0 & v1 & H0 & H1 & I0 & I1); [intros E; rewrite E in Hin; apply elem_of_nil in Hin as []|].
  assert (forall u, u ∈ values -> u ∈ x.1) as Hsub by (intros u Hu; apply list_elem_of_In, filter_In in Hu as [Hu _]; apply list_elem_of_In, surviving_elem in Hu; apply Hu).
  split; [lia|]. exists v0, v1. split; [exact H0|]. split; [exact H1|]. split; [auto|]. split; [auto|]. split; [exact Hi|].
  pose proof (values_window values v0 v1 Hi H0 H1) as F. rewrite Forall_forall in F. specialize (F v Hin).
  pose proof (lh_span _ _ v0 H (Hsub v0 I0)). pose proof (lh_span _ _ v1 H (Hsub v1 I1)). clear -F Ev H2 H3. both; cbn [fst snd] in *; lia.
Qed.

(** What a read has done: the values between [T] and [M] have come out. *)
Definition read_done (T : Z) (pieces : list bpiece) (c : KeyCursor) (r : res werr (list V) * KeyCursor) : Prop :=
  exists out seeks M, r = (Ok out, kc_set seeks (kc_current c) (kc_pos c) c) /\ T < M /\ Forall2 (at_T M) seeks pieces
    /\ out <> [] /\ increasing U out /\ to_map U out = to_map U (concat (map (win T M) pieces)).

Lemma win_whole T M l x : at_T T l x -> far (loc_entry l) <= M -> List.filter (beyond T) (surviving x) = win T M x.
Proof.
  intros [H _] Hf. apply List.filter_ext_in. intros v Hv. apply list_elem_of_In, surviving_elem in Hv as [Hv _]. pose proof (lh_span _ _ v H Hv).
  unfold beyond, within. zcases; cbn; lia || reflexivity.
Qed.

Lemma Forall2_at T seeks (pieces : list bpiece) i x : Forall2 (at_T T) seeks pieces -> pieces !! i = Some x -> exists l, seeks !! i = Some l /\ at_T T l x.
Proof. intros F E. exact (Forall2_lookup_r _ _ _ _ _ F E). Qed.

Lemma moved_all T M idx (pieces : list bpiece) seeks :
  moved T M idx pieces seeks -> T <= M -> (forall i x, i ∉ idx -> pieces !! i = Some x -> forall v, v ∈ x.1 -> tau v <= T \/ M < tau v) -> Forall2 (at_T M) seeks pieces.
Proof.
  intros [Hl Hm] Hle Hq. apply Forall2_same_length_lookup. split; [exact Hl|]. intros i l x El Ex. specialize (Hm i l x El Ex). specialize (Hq i x).
  destruct (decide (i ∈ idx)) as [Hi|Hi]; [exact Hm|]. apply (taken_later T); auto.
Qed.

(** Only one block is current, and no other has values where it has. *)
Lemma ReadBlock_one T c pieces i0 l0 :
  Forall2 (at_T T) (kc_seeks c) pieces -> kc_key c = key -> kc_current c = [i0] -> kc_seeks c !! i0 = Some l0 -> loc_read l0 = false ->
  (forall j x, j <> i0 -> pieces !! j = Some x -> forall v, v ∈ x.1 -> tau v <= T \/ far (loc_entry l0) < tau v) ->
  read_done T pieces c (ReadBlock U ReadBlockAt h c).
Proof.
  intros F Ek Ec El Hr Hq. destruct (Forall2_lookup_l _ _ _ _ _ F El) as (x0 & Ex & Ha). destruct (left_values T l0 x0 Ha Hr) as (HT & v0 & v1 & H0 & H1 & I0 & I1 & Hi & Hw).
  set (M := far (loc_entry l0)) in *. unfold ReadBlock. rewrite Ec, El, Ek, (read_first_spec T l0 x0 Ha), H0, H1.
  assert (at_T M (loc_markRead (U v0) (U v1) l0) x0) as Ha'.
  { rewrite <- Hw. apply (mark_taken T l0 x0 (U v0, U v1) Ha); [lia|]. destruct Ha as [H _]. pose proof (lh_lowest _ _ v0 H I0). pose proof (lh_lowest _ _ v1 H I1). clear -H2 H3. both; cbn [fst snd]; lia. }
  exists (List.filter (beyond T) (surviving x0)), (mark_at i0 (U v0) (U v1) (kc_seeks c)), M. rewrite Ec. split; [reflexivity|]. split; [exact HT|]. split; [|split; [|split; [exact Hi|]]].
  - apply (moved_all T M [i0]); [|lia|intros i x Hn; apply Hq; set_solver]. split; [unfold mark_at; rewrite length_alter; apply (Forall2_length _ _ _ F)|].
    intros i l x Hl Hx. unfold mark_at in Hl. destruct (decide (i = i0)) as [-> | Hne].
    + rewrite decide_True by left. rewrite list_lookup_alter_eq, El in Hl. injection Hl as <-. assert (x = x0) as -> by congruence. exact Ha'.
    + rewrite decide_False by set_solver. rewrite list_lookup_alter_ne in Hl by congruence. destruct (Forall2_lookup_lr _ _ _ _ _ _ F Hl Hx) as [Hh Ht]. split; assumption.
  - intros E. rewrite E in H0. discriminate.
  - rewrite <- map_win_at. rewrite (win_whole T M l0 x0 Ha) by (unfold M; lia). f_equal.
    assert (win T M x0 = concat (map (win_at T M pieces) [i0])) as -> by (cbn; unfold win_at; rewrite Ex, app_nil_r; reflexivity).
    apply (concat_sparse (win_at T M pieces) 0 (length pieces)); [repeat constructor|constructor; [apply lookup_lt_Some in Ex; lia|constructor]|].
    intros j _ Hj. unfold win_at. destruct (pieces !! j) as [x|] eqn:E; [|reflexivity]. apply win_none. apply (Hq j x); [set_solver|exact E].
Qed.

(** Several blocks are current: all that are not read. *)
Lemma ReadBlock_many T c pieces i0 l0 idx tl :
  Forall2 (at_T T) (kc_seeks c) pieces -> kc_key c = key -> kc_ascending c = asc -> kc_current c = i0 :: idx -> kc_seeks c !! i0 = Some l0 -> loc_read l0 = false ->
  idx <> [] -> idx = tl \/ asc = false /\ idx = i0 :: tl -> StronglySorted idx_lt (i0 :: tl) -> Forall (fun i => i < length pieces)%nat (i0 :: tl) ->
  (forall j l, kc_seeks c !! j = Some l -> loc_read l = false -> j ∈ i0 :: tl) ->
  read_done T pieces c (ReadBlock U ReadBlockAt h c).
Proof.
  intros F Ek Ea Ec El Hr Hne Hidx Hs Hb Hall. destruct (Forall2_lookup_l _ _ _ _ _ F El) as (x0 & Ex & Ha). destruct (left_values T l0 x0 Ha Hr) as (HT & v0 & v1 & H0 & H1 & I0 & I1 & Hi & Hw).
  unfold ReadBlock. rewrite Ec, El, Ek, Ea, (read_first_spec T l0 x0 Ha), H0, H1. set (values := List.filter (beyond T) (surviving x0)) in *.
  set (others := omap (fun j => kc_seeks c !! j) idx). destruct idx as [|i1 idx']; [congruence|]. set (idx := i1 :: idx') in *.
  pose proof (widen_spec others (U v0, U v1)) as (W1 & W2 & W3 & W4). cbv zeta in *. set (w1 := widen asc others (U v0, U v1)) in *.
  destruct (shrink_window_spec others w1 values) as (w & Ew & N & M1); [|exact Hi|].
  { eapply Forall_impl; [apply (values_window values v0 v1 Hi H0 H1)|]. intros v Hv. cbv beta in Hv |- *. lia. }
  rewrite Ew. set (M := wfar w) in *. assert (far (loc_entry l0) <= M) as HM by lia.
  assert (lowest <= wnear w) as Hlow.
  { rewrite N. destruct W4 as [W4|(l & Hl & W4)].
    - rewrite W4. destruct Ha as [H _]. pose proof (lh_lowest _ _ v0 H I0). pose proof (lh_lowest _ _ v1 H I1). clear -H2 H3. both; cbn [fst snd]; lia.
    - rewrite W4. unfold others in Hl. apply list_elem_of_omap in Hl as (j & _ & Hj). destruct (Forall2_lookup_l _ _ _ _ _ F Hj) as (x & _ & [H _]). apply (lh_near _ _ H). }
  assert (NoDup (i0 :: tl)) as Hnd. { clear -Hs. induction Hs as [|i l Hs IH Hf]; constructor; [|exact IH]. intros Hin. rewrite Forall_forall in Hf. specialize (Hf i Hin). unfold idx_lt in Hf. destruct asc; lia. }
  assert (NoDup idx /\ forall j, j ∈ i0 :: idx <-> j ∈ i0 :: tl) as [Hnd' Hmem].
  { destruct Hidx as [E|[_ E]]; rewrite E; [split; [apply NoDup_cons in Hnd; apply Hnd|reflexivity]|split; [exact Hnd|set_solver]]. }
  destruct (merge_others_spec T w pieces idx [] (kc_seeks c) values) as (values' & seeks' & Em & Hm & Hi' & Hp).
  { split; [apply (Forall2_length _ _ _ F)|]. intros i l x Hl Hx. rewrite decide_False by apply not_elem_of_nil. exact (Forall2_lookup_lr _ _ _ _ _ _ F Hl Hx). }
  { fold M. lia. } { exact Hlow. } { exact Hnd'. }
  { apply Forall_forall. intros j Hj. split; [|apply not_elem_of_nil]. rewrite Forall_forall in Hb. apply Hb, Hmem. right. exact Hj. }
  { apply Forall_forall. intros j Hj l Hl Hu. rewrite N. rewrite Forall_forall in W3. apply W3; [|exact Hu]. apply list_elem_of_omap. eauto. }
  { exact Hi. }
  rewrite Em. fold M in Hm, Hp. rewrite app_nil_r in Hm.
  assert (forall j x, j ∉ i0 :: idx -> pieces !! j = Some x -> forall v, v ∈ x.1 -> tau v <= T \/ M < tau v) as Hquiet.
  { intros j x Hj Hx. destruct (Forall2_at _ _ _ _ _ F Hx) as (l & Hl & Hal). apply (read_quiet T M l x Hal). destruct (loc_read l) eqn:E; [reflexivity|]. exfalso. apply Hj, Hmem, (Hall j l Hl E). }
  assert (win_at T M pieces i0 = values) as Ewin by (unfold win_at; rewrite Ex; symmetry; apply (win_whole T M l0 x0 Ha HM)).
  assert (to_map U values' = to_map U (concat (map (win T M) pieces))) as Hmap.
  { rewrite Hp. destruct Hidx as [E|[Ef E]].
    - rewrite E. apply (visited_windows T M pieces i0 tl values Hs Hb); [|rewrite Ewin; reflexivity]. intros j Hj. unfold win_at. destruct (pieces !! j) as [x|] eqn:Ej; [|reflexivity]. apply win_none, (Hquiet j x); [rewrite Hmem; exact Hj|exact Ej].
    - rewrite <- (visited_windows T M pieces i0 tl values Hs Hb); [|intros j Hj; unfold win_at; destruct (pieces !! j) as [x|] eqn:Ej; [|reflexivity]; apply win_none, (Hquiet j x); [rewrite Hmem; exact Hj|exact Ej]|rewrite Ewin; reflexivity].
      rewrite Ef, E, reverse_cons, map_app, concat_app. cbn [map concat]. rewrite app_nil_r, to_map_app, Ewin, map_union_assoc, map_union_idemp. reflexivity. }
  exists values', (mark_at i0 w.1 w.2 seeks'), M. rewrite Ec. split; [reflexivity|]. split; [lia|]. split; [|split; [|split; [exact Hi'|exact Hmap]]].
  - apply (moved_all T M (i0 :: idx)); [|lia|exact Hquiet]. destruct Hm as [Hlen Hm]. split; [unfold mark_at; rewrite length_alter; exact Hlen|].
    intros j l x Hl Hx. unfold mark_at in Hl. destruct (decide (j = i0)) as [-> | Hji].
    + rewrite decide_True by left. rewrite list_lookup_alter_eq in Hl. destruct (seeks' !! i0) as [l1|] eqn:E1; [|discriminate]. injection Hl as <-. specialize (Hm i0 l1 x E1 Hx).
      destruct (decide (i0 ∈ idx)); [apply (mark_taken M l1 x w Hm)|apply (mark_taken T l1 x w Hm)]; fold M; lia.
    + rewrite list_lookup_alter_ne in Hl by congruence. specialize (Hm j l x Hl Hx). destruct (decide (j ∈ idx)), (decide (j ∈ i0 :: idx)); try exact Hm; exfalso; set_solver.
  - intros ->. assert (v0 ∈ values) as Hv by (destruct values; [discriminate|injection H0 as ->; left]).
    assert (is_Some (to_map U (concat (map (win T M) pieces)) !! U v0)) as [y Hy].
    { apply to_map_dom. exists v0. split; [|reflexivity]. apply list_elem_of_In, in_concat. exists (win T M x0). split; [|apply list_elem_of_In; rewrite <- Ewin in Hv; unfold win_at in Hv; rewrite Ex in Hv; exact Hv].
      apply in_map, list_elem_of_In. eapply list_elem_of_lookup_2. exact Ex. }
    rewrite <- Hmap in Hy. discriminate.
Qed.

(** ** The states of a cursor *)

Definition pfar (x : bpiece) : Z := if asc then last_time U x.1 else - first_time U x.1.
Definition unread_at (T : Z) (pieces : list bpiece) (j : nat) : Prop := exists x, pieces !! j = Some x /\ T < pfar x.

(** The first current position, and the others in the order of the visit: with
    duplicates all that are not read; without, there is one and the rest lies
    ahead. *)
Definition cur_ok (T : Z) (pieces : list bpiece) (c : KeyCursor) : Prop :=
  match kc_current c with
  | [] => forall j, ~ unread_at T pieces j
  | i0 :: idx =>
      kc_pos c = Z.of_nat i0 /\ exists tl, (idx = tl \/ asc = false /\ idx = i0 :: tl) /\ StronglySorted idx_lt (i0 :: tl) /\ Forall (fun i => i < length pieces)%nat (i0 :: tl)
        /\ if kc_duplicates c then forall j, unread_at T pieces j -> j ∈ i0 :: tl else idx = [] /\ forall j, unread_at T pieces j -> j = i0 \/ idx_lt i0 j
  end.

Record cursor_at (T : Z) (pieces : list bpiece) (c : KeyCursor) : Prop := {
  ca_at : Forall2 (at_T T) (kc_seeks c) pieces; ca_key : kc_key c = key; ca_asc : kc_ascending c = asc;
  ca_sep : kc_duplicates c = false -> StronglySorted (fun x y : bpiece => last_time U x.1 < first_time U y.1) pieces;
  ca_cur : cur_ok T pieces c }.

(** The cursor stands on something to read, or at the end. *)
Definition ready_at (T : Z) (pieces : list bpiece) (c : KeyCursor) : Prop :=
  match kc_current c with [] => True | i0 :: _ => unread_at T pieces i0 end.

Lemma pfar_far l x : loc_holds l x -> pfar x = far (loc_entry l).
Proof. intros H. unfold pfar. pose proof (lh_min _ _ H). pose proof (lh_max _ _ H). both; lia. Qed.

Lemma unread_iff T seeks pieces j : Forall2 (at_T T) seeks pieces -> is_unread seeks j = true <-> unread_at T pieces j.
Proof.
  intros F. unfold is_unread, unread_at. destruct (seeks !! j) as [l|] eqn:E.
  - destruct (Forall2_lookup_l _ _ _ _ _ F E) as (x & Ex & Ha). rewrite (loc_read_iff T l x Ha), negb_true_iff, <- (pfar_far l x) by apply Ha. split.
    + intros H. exists x. split; [exact Ex|lia].
    + intros (x' & Ex' & H). assert (x' = x) as -> by congruence. lia.
  - split; [discriminate|]. intros (x & Ex & _). destruct (Forall2_lookup_r _ _ _ _ _ F Ex) as (l & E' & _). congruence.
Qed.

Lemma cur_later T M pieces c : T <= M -> cur_ok T pieces c -> cur_ok M pieces c.
Proof.
  assert (forall j, T <= M -> unread_at M pieces j -> unread_at T pieces j) as Hm by (intros j Hle (x & E & H); exists x; split; [exact E|lia]).
  intros Hle. unfold cur_ok. destruct (kc_current c) as [|i0 idx]; [intros H j Hj; apply (H j), Hm; assumption|]. intros (Ep & tl & Hi & Hs & Hb & H).
  split; [exact Ep|]. exists tl. split; [exact Hi|]. split; [exact Hs|]. split; [exact Hb|]. destruct (kc_duplicates c); [intros j Hj; apply H, Hm; assumption|]. destruct H as [E H]. split; [exact E|]. intros j Hj. apply H, Hm; assumption.
Qed.

(** Blocks apart: what lies ahead is beyond the block. *)
Lemma ahead_beyond (pieces : list bpiece) i j x y v :
  StronglySorted (fun x y : bpiece => last_time U x.1 < first_time U y.1) pieces -> Forall (fun x => increasing U x.1) pieces ->
  pieces !! i = Some x -> pieces !! j = Some y -> idx_lt i j -> v ∈ y.1 -> pfar x < tau v.
Proof.
  intros Hs Hi Ex Ey Hlt Hv. rewrite Forall_forall in Hi. pose proof (time_span U _ v (Hi y ltac:(eapply list_elem_of_lookup_2; exact Ey)) Hv) as Sp.
  unfold idx_lt, pfar in *. both.
  - pose proof (StronglySorted_lookup_lt _ _ _ _ _ _ Hs Ex Ey Hlt) as H. cbn in H. lia.
  - pose proof (StronglySorted_lookup_lt _ _ _ _ _ _ Hs Ey Ex Hlt) as H. cbn in H. lia.
Qed.

Lemma read_step T pieces c i0 idx :
  cursor_at T pieces c -> kc_current c = i0 :: idx -> unread_at T pieces i0 ->
  exists out c' M, ReadBlock U ReadBlockAt h c = (Ok out, c') /\ cursor_at M pieces c' /\ T < M /\ out <> [] /\ increasing U out
    /\ to_map U out = to_map U (concat (map (win T M) pieces)).
Proof.
  intros [F Ek Ea Hsep Hc] Ec (x0 & Ex & Hu). destruct (Forall2_at _ _ _ _ _ F Ex) as (l0 & El & Ha). pose proof (pfar_far l0 x0 (proj1 Ha)) as Ef.
  assert (loc_read l0 = false) as Hr by (rewrite (loc_read_iff T l0 x0 Ha); lia).
  assert (read_done T pieces c (ReadBlock U ReadBlockAt h c)) as (out & seeks & M & E & HT & F' & R).
  { unfold cur_ok in Hc. rewrite Ec in Hc. destruct Hc as (_ & tl & Hidx & Hs & Hb & H). destruct (kc_duplicates c) eqn:Ed.
    - destruct idx as [|i1 idx'].
      + apply (ReadBlock_one T c pieces i0 l0); auto. intros j x Hj Hx. destruct (Forall2_at _ _ _ _ _ F Hx) as (l & Hl & Hal). apply (read_quiet T _ l x Hal).
        destruct (loc_read l) eqn:E; [reflexivity|]. exfalso. apply Hj. assert (tl = []) as -> by (destruct Hidx as [Hidx|[_ Hidx]]; [congruence|discriminate]). apply list_elem_of_singleton.
        apply H, (unread_iff T _ _ _ F). unfold is_unread. rewrite Hl, E. reflexivity.
      + apply (ReadBlock_many T c pieces i0 l0 (i1 :: idx') tl); auto. intros j l Hl Hrl. apply H, (unread_iff T _ _ _ F). unfold is_unread. rewrite Hl, Hrl. reflexivity.
    - destruct H as [-> H]. apply (ReadBlock_one T c pieces i0 l0); auto. intros j x Hj Hx v Hv. rewrite <- Ef.
      assert (T < pfar x \/ pfar x <= T) as [Hux|Hux] by lia.
      + right. destruct (H j ltac:(exists x; auto)) as [-> | Hlt]; [congruence|]. apply (ahead_beyond pieces i0 j x0 x); auto.
        apply Forall_forall. intros y Hy. apply list_elem_of_lookup in Hy as [k Hk]. destruct (Forall2_at _ _ _ _ _ F Hk) as (l & _ & [Hh _]). apply Hh.
      + left. destruct (Forall2_at _ _ _ _ _ F Hx) as (l & _ & [Hh _]). pose proof (lh_span _ _ v Hh Hv). rewrite (pfar_far l x Hh) in Hux. lia. }
  exists out, (kc_set seeks (kc_current c) (kc_pos c) c), M. split; [exact E|]. split; [|auto]. split; cbn; auto. apply (cur_later T M); [lia|]. exact Hc.
Qed.

(** ** The next position *)

Definition visit (n i0 : nat) : list nat := if asc then seq (S i0) (n - S i0) else reverse (seq 0 i0).

Lemma seq_sorted a n : StronglySorted lt (seq a n).
Proof. revert a. induction n as [|n IH]; intros a; cbn; constructor; [apply IH|]. apply Forall_forall. intros j Hj. apply elem_of_seq in Hj. lia. Qed.

Lemma visit_sorted n i0 : StronglySorted idx_lt (visit n i0).
Proof.
  unfold visit, idx_lt. destruct asc; [apply seq_sorted|]. generalize (seq_sorted 0 i0). generalize (seq 0 i0). induction 1 as [|i l Hs IH Hf]; [constructor|].
  rewrite reverse_cons. apply StronglySorted_app. split_and!; [|exact IH|repeat constructor]. intros a b Ha Hb. apply list_elem_of_singleton in Hb as ->. rewrite elem_of_reverse in Ha.
  rewrite Forall_forall in Hf. apply Hf, Ha.
Qed.

Lemma visit_elem n i0 j : (i0 < n)%nat -> j ∈ visit n i0 <-> idx_lt i0 j /\ (j < n)%nat.
Proof. intros H. unfold visit, idx_lt. destruct asc; [rewrite elem_of_seq; lia|]. rewrite elem_of_reverse, elem_of_seq. lia. Qed.

Lemma filter_sorted {A} (R : A -> A -> Prop) (f : A -> bool) l : StronglySorted R l -> StronglySorted R (List.filter f l).
Proof.
  induction 1 as [|x l Hs IH Hf]; cbn; [constructor|]. destruct (f x); [|exact IH]. constructor; [exact IH|]. rewrite Forall_forall in Hf |- *. intros y Hy.
  apply list_elem_of_In, filter_In in Hy as [Hy _]. apply Hf, list_elem_of_In, Hy.
Qed.

(** The list of the positions that are not read, made current. *)
Lemma visit_cur T pieces c i0 (pos : Z) c' :
  Forall2 (at_T T) (kc_seeks c) pieces -> (i0 < length pieces)%nat -> (forall j, unread_at T pieces j -> idx_lt i0 j) -> kc_duplicates c' = kc_duplicates c ->
  match List.filter (is_unread (kc_seeks c)) (visit (length pieces) i0) with
  | [] => kc_current c' = []
  | i :: l => kc_current c' = (if kc_duplicates c then if asc then i :: l else i :: i :: l else [i]) /\ kc_pos c' = Z.of_nat i
  end -> cur_ok T pieces c' /\ ready_at T pieces c'.
Proof.
  intros F Hlt Hu Ed. pose proof (filter_sorted idx_lt (is_unread (kc_seeks c)) _ (visit_sorted (length pieces) i0)) as Hs.
  assert (forall j, j ∈ List.filter (is_unread (kc_seeks c)) (visit (length pieces) i0) <-> unread_at T pieces j) as Hin.
  { intros j. rewrite list_elem_of_In, filter_In, <- list_elem_of_In, (unread_iff T _ _ _ F), visit_elem by exact Hlt. split; [tauto|]. intros H. split; [|exact H]. split; [apply Hu, H|]. destruct H as (x & E & _). apply lookup_lt_Some in E. exact E. }
  assert (Forall (fun i => i < length pieces)%nat (List.filter (is_unread (kc_seeks c)) (visit (length pieces) i0))) as Hb.
  { apply Forall_forall. intros j Hj. apply Hin in Hj as (x & E & _). apply lookup_lt_Some in E. exact E. }
  destruct (List.filter _ _) as [|i l] eqn:El.
  - intros E. unfold cur_ok, ready_at. rewrite E. split; [|exact I]. intros j Hj. apply Hin, elem_of_nil in Hj as [].
  - intros [E Ep]. assert (unread_at T pieces i) as Hi by (apply Hin; left).  unfold cur_ok, ready_at. rewrite E, Ed. destruct (kc_duplicates c) eqn:Edup.
    + assert (exists idx, (if asc then i :: l else i :: i :: l) = i :: idx /\ (idx = l \/ asc = false /\ idx = i :: l)) as (idx & -> & Hidx) by (destruct asc; eauto).
      split; [|exact Hi]. split; [exact Ep|]. exists l. split; [exact Hidx|]. split; [exact Hs|]. split; [exact Hb|]. intros j Hj. apply Hin, Hj.
    + split; [|exact Hi]. split; [exact Ep|]. exists []. split; [auto|]. split; [repeat constructor|]. split; [apply Forall_cons in Hb as [Hb _]; repeat constructor; exact Hb|]. split; [reflexivity|].
      intros j Hj. apply Hin, elem_of_cons in Hj as [-> | Hj]; [auto|]. right. apply StronglySorted_inv in Hs as [_ Hs]. rewrite Forall_forall in Hs. apply Hs, Hj.
Qed.

Lemma next_step T pieces c : cursor_at T pieces c -> exists c', kc_Next c = Some c' /\ cursor_at T pieces c' /\ ready_at T pieces c'.
Proof.
  intros [F Ek Ea Hsep Hc]. unfold kc_Next. destruct (kc_current c) as [|i0 idx] eqn:Ec.
  { exists c. split; [reflexivity|]. split; [split; assumption|]. unfold ready_at. rewrite Ec. exact I. }
  pose proof Hc as Hc'. unfold cur_ok in Hc'. rewrite Ec in Hc'. destruct Hc' as (Ep & tl & Hidx & Hs & Hb & Hd). apply Forall_cons in Hb as [Hb0 Hb].
  destruct (lookup_lt_is_Some_2 pieces i0 Hb0) as [x0 Ex]. destruct (Forall2_at _ _ _ _ _ F Ex) as (l0 & El & Ha). rewrite El. cbn [mbind option_bind]. destruct (loc_read l0) eqn:Er; cbn [negb].
  2:{ exists c. split; [reflexivity|]. split; [split; assumption|]. unfold ready_at. rewrite Ec. apply (unread_iff T _ _ _ F). unfold is_unread. rewrite El, Er. reflexivity. }
  assert (forall j, unread_at T pieces j -> idx_lt i0 j) as Hu.
  { intros j Hj. assert (j <> i0) as Hne by (intros ->; apply (unread_iff T _ _ _ F) in Hj; unfold is_unread in Hj; rewrite El, Er in Hj; discriminate).
    destruct (kc_duplicates c); [|destruct Hd as [_ Hd]; destruct (Hd j Hj); [contradiction|assumption]]. apply Hd, elem_of_cons in Hj as [Hj|Hj]; [contradiction|].
    apply StronglySorted_inv in Hs as [_ Hs]. rewrite Forall_forall in Hs. apply Hs, Hj. }
  eexists. split; [reflexivity|]. set (c' := if kc_ascending c then nextAscending c else nextDescending c).
  assert (kc_seeks c' = kc_seeks c /\ kc_key c' = kc_key c /\ kc_ascending c' = kc_ascending c /\ kc_duplicates c' = kc_duplicates c) as (E1 & E2 & E3 & E4).
  { unfold c'. destruct (kc_ascending c) eqn:E0; unfold nextAscending, nextDescending; destruct (List.filter _ _); cbn; auto. }
  destruct (visit_cur T pieces c i0 0 c' F Hb0 Hu E4) as [H1 H2].
  { unfold c'. rewrite Ea. unfold visit, nextAscending, nextDescending. rewrite Ep, (Forall2_length _ _ _ F). replace (Z.to_nat (Z.of_nat i0 + 1)) with (S i0) by lia. rewrite Nat2Z.id.
    destruct asc; destruct (List.filter _ _) as [|i l]; cbn; auto. }
  split; [|exact H2]. split; [rewrite E1; exact F|congruence|congruence|rewrite E4; exact Hsep|exact H1].
Qed.

(** ** All blocks *)

(** A block, then [Next] and a block again, until there is none. *)
Fixpoint kc_drain (fuel : nat) (c : KeyCursor) : option (list (list V)) :=
  match fuel with
  | O => None
  | S fuel' =>
      match ReadBlock U ReadBlockAt h c with
      | (Ok [], _) => Some []
      | (Ok out, c) => c ← kc_Next c; l ← kc_drain fuel' c; Some (out :: l)
      | _ => None
      end
  end.

Definition overlay (pieces : list bpiece) : gmap Z V := to_map U (concat (map surviving pieces)).
Definition after (T : Z) (m : gmap Z V) : gmap Z V := filter (fun kv => T < dir kv.1) m.

Lemma win_overlay T M pieces : to_map U (concat (map (win T M) pieces)) = filter (fun kv => T < dir kv.1 <= M) (overlay pieces).
Proof.
  unfold win, overlay. rewrite <- filter_concat_map. rewrite (to_map_filter U (fun t => (T <? dir t) && (dir t <=? M))). apply map_filter_ext. intros t v _. cbn. lia.
Qed.

Lemma after_split T M m : T <= M -> after T m = after M m ∪ filter (fun kv => T < dir kv.1 <= M) m.
Proof.
  intros Hle. apply map_eq. intros t. apply option_eq. intros v. unfold after. rewrite lookup_union_Some_raw, map_lookup_filter_None, !map_lookup_filter_Some. cbn. split.
  - intros [H1 H2]. destruct (Z.le_gt_cases (dir t) M) as [H|H]; [|left; split; [exact H1|lia]]. right. split; [right; intros y Hy E; lia|]. split; [exact H1|lia].
  - intros [[H1 H2]|[_ [H1 H2]]]; (split; [exact H1|lia]).
Qed.

(** The blocks in the order of time. *)
Definition in_time (outs : list (list V)) : list V := concat (if asc then outs else reverse outs).

Lemma in_time_cons out outs : in_time (out :: outs) = if asc then out ++ in_time outs else in_time outs ++ out.
Proof. unfold in_time. destruct asc; [reflexivity|]. rewrite reverse_cons, concat_app. cbn. rewrite app_nil_r. reflexivity. Qed.

Lemma nothing_after T pieces seeks : Forall2 (at_T T) seeks pieces -> (forall j, ~ unread_at T pieces j) -> after T (overlay pieces) = ∅.
Proof.
  intros F H. apply map_empty. intros t. apply map_lookup_filter_None. right. intros v Hv Ht. cbn in Ht. unfold overlay in Hv. assert (is_Some (to_map U (concat (map surviving pieces)) !! t)) as Hs by (rewrite Hv; eauto).
  apply to_map_dom in Hs as (u & Hu & <-). apply list_elem_of_In, in_concat in Hu as (l & Hl & Hu). apply in_map_iff in Hl as (x & <- & Hx). apply list_elem_of_In, surviving_elem in Hu as [Hu _].
  apply list_elem_of_In, list_elem_of_lookup in Hx as [j Hj]. destruct (Forall2_at _ _ _ _ _ F Hj) as (l & _ & [Hh _]). pose proof (lh_span _ _ u Hh Hu) as Hs. apply (H j). exists x. split; [exact Hj|].
  rewrite (pfar_far l x Hh). unfold tau in Hs. lia.
Qed.

Lemma kc_drain_spec fuel T pieces c :
  cursor_at T pieces c -> ready_at T pieces c -> (size (after T (overlay pieces)) < fuel)%nat ->
  exists outs, kc_drain fuel c = Some outs /\ Forall (fun o => o <> []) outs /\ increasing U (in_time outs) /\ to_map U (in_time outs) = after T (overlay pieces).
Proof.
  revert T c. induction fuel as [|fuel IH]; intros T c Hc Hr Hf; [lia|]. cbn [kc_drain]. destruct (kc_current c) as [|i0 idx] eqn:Ec.
  - unfold ReadBlock. rewrite Ec. exists []. split; [reflexivity|]. split; [constructor|]. assert (in_time [] = []) as -> by (unfold in_time; destruct asc; reflexivity).
    split; [constructor|]. symmetry. apply (nothing_after T pieces (kc_seeks c)); [apply Hc|]. pose proof (ca_cur _ _ _ Hc) as H. unfold cur_ok in H. rewrite Ec in H. exact H.
  - unfold ready_at in Hr. rewrite Ec in Hr. destruct (read_step T pieces c i0 idx Hc Ec Hr) as (out & c1 & M & E & Hc1 & HT & Hne & Hi & Hm). rewrite E.
    destruct (next_step M pieces c1 Hc1) as (c2 & En & Hc2 & Hr2). rewrite win_overlay in Hm. pose proof (after_split T M (overlay pieces) ltac:(lia)) as Hsp. rewrite <- Hm in Hsp.
    assert (forall v, v ∈ out -> T < tau v <= M) as Hout.
    { intros v Hv. assert (is_Some (to_map U out !! U v)) as [y Hy] by (apply to_map_dom; eauto). rewrite Hm, map_lookup_filter_Some in Hy. apply Hy. }
    assert (size (after M (overlay pieces)) < fuel)%nat as Hf'.
    { enough (size (after M (overlay pieces)) < size (after T (overlay pieces)))%nat by lia. apply map_subset_size. split.
      - rewrite Hsp. apply map_union_subseteq_l.
      - intros Hsub. destruct out as [|v out]; [congruence|]. assert (is_Some (to_map U (v :: out) !! U v)) as [y Hy] by (apply to_map_dom; exists v; split; [left|reflexivity]).
        assert (after T (overlay pieces) !! U v = Some y) as Hy'. { rewrite Hsp. apply lookup_union_Some_raw. right. split; [|exact Hy]. unfold after. apply map_lookup_filter_None. right. intros z _. cbn. specialize (Hout v ltac:(left)). unfold tau in Hout. lia. }
        eapply map_subseteq_spec in Hy'; [|exact Hsub]. apply map_lookup_filter_Some in Hy' as [_ Hy']. cbn in Hy'. specialize (Hout v ltac:(left)). unfold tau in Hout. lia. }
    destruct (IH M c2 Hc2 Hr2 Hf') as (outs & Ed & Hn & Hi2 & Hm2). exists (out :: outs). rewrite En. cbn [mbind option_bind]. rewrite Ed. cbn [mbind option_bind].
    split; [destruct out; [congruence|reflexivity]|]. split; [constructor; assumption|].
    assert (forall v, v ∈ in_time outs -> M < tau v) as Hlater.
    { intros v Hv. assert (is_Some (to_map U (in_time outs) !! U v)) as [y Hy] by (apply to_map_dom; eauto). rewrite Hm2 in Hy. unfold after in Hy. apply map_lookup_filter_Some in Hy. apply Hy. }
    rewrite in_time_cons, Hsp, <- Hm2. unfold tau, dir in Hout, Hlater. destruct asc.
    + split; [|rewrite to_map_app; reflexivity]. apply StronglySorted_app. split_and!; [|exact Hi|exact Hi2]. intros a b Ha Hb. specialize (Hout a Ha). specialize (Hlater b Hb). lia.
    + split; [apply StronglySorted_app; split_and!; [|exact Hi2|exact Hi]; intros a b Ha Hb; specialize (Hout b Hb); specialize (Hlater a Ha); lia|].
      rewrite to_map_app. apply map_union_comm, map_disjoint_spec. intros t a b Ha Hb.
      assert (is_Some (to_map U out !! t)) as Ho by eauto. assert (is_Some (to_map U (in_time outs) !! t)) as Hl by eauto. apply to_map_dom in Ho as (u & Hu & Eu). apply to_map_dom in Hl as (u' & Hu' & Eu').
      specialize (Hout u Hu). specialize (Hlater u' Hu'). lia.
Qed.
End Facts.
