(* ===== verification/CursorStore.v ===== *)
(** * Reading a key from a store

    [FileStore.KeyCursor] from the files to the values: what a cursor hands out, read
    to its end, is the blocks of the key in all files overlaid in the order of
    the files, from the time that was asked for on. *)

From S2P Require Import Prelude Values Varint BoolCodec Simple8b TimeCodec IntCodec StringCodec BitReader FloatCodec ValueCodec Blocks BlockFacts TypedValues Bytes.
From S2P Require Import TSMWriter TSMIndex TSMDelete Tombstone TSMReader TSMFile TSMStore KeyIterator KeyMerge KeyTypes KeyFiles KeyCursor CursorFacts.

(** ** Overlays in another order *)

Lemma string_lt_asym a b : string_lt a b = true -> string_lt b a = false.
Proof. unfold string_lt. rewrite (String.compare_antisym b a). destruct (String.compare a b); cbn; congruence. Qed.

Lemma string_lt_irrefl a : string_lt a a = false.
Proof. destruct (string_lt a a) eqn:E; [|reflexivity]. rewrite (string_lt_asym a a E) in E. discriminate. Qed.

Lemma sorted_perm {A} (R : A -> A -> Prop) l l' : (forall a b, R a b -> R b a) -> l ≡ₚ l' -> StronglySorted R l -> StronglySorted R l'.
Proof.
  intros Hsym P. induction P as [|x l l' P IH|x y l|l1 l2 l3 P1 IH1 P2 IH2]; intros H; auto.
  - apply StronglySorted_inv in H as [H F]. constructor; [auto|]. rewrite <- P. exact F.
  - apply StronglySorted_inv in H as [H F]. apply StronglySorted_inv in H as [H F2]. apply Forall_cons in F as [F1 F]. constructor; [constructor; assumption|]. constructor; auto.
Qed.

Section Ranked.
Context {V A : Type} (U : V -> Z) (f : A -> list V) (rank : A -> string).

(** Elements with a time in common are in the order of their rank. *)
Definition clash (a b : A) : Prop := exists t, is_Some (to_map U (f a) !! t) /\ is_Some (to_map U (f b) !! t).
Definition ranked (l : list A) : Prop := StronglySorted (fun a b => clash a b -> string_lt (rank a) (rank b) = true) l.

Lemma ranked_lookup l t v : ranked l ->
  to_map U (concat (map f l)) !! t = Some v
  <-> exists a, a ∈ l /\ to_map U (f a) !! t = Some v /\ forall b, b ∈ l -> is_Some (to_map U (f b) !! t) -> b = a \/ string_lt (rank b) (rank a) = true.
Proof.
  intros H. induction H as [|a l H IH F]; cbn [map concat].
  { split; [discriminate|]. intros (a & Ha & _). apply elem_of_nil in Ha as []. }
  rewrite to_map_app, lookup_union_Some_raw, IH. clear IH. rewrite Forall_forall in F.
  assert (to_map U (concat (map f l)) !! t = None <-> forall b, b ∈ l -> to_map U (f b) !! t = None) as Hnone.
  { split.
    - intros E b Hb. apply eq_None_not_Some. intros Hs. apply to_map_dom in Hs as (u & Hu & Eu). enough (is_Some (to_map U (concat (map f l)) !! t)) as [y Hy] by congruence.
      apply to_map_dom. exists u. split; [|exact Eu]. apply list_elem_of_In, in_concat. exists (f b). rewrite <- !list_elem_of_In. split; [apply list_elem_of_In, in_map, list_elem_of_In, Hb|exact Hu].
    - intros E. apply eq_None_not_Some. intros Hs. apply to_map_dom in Hs as (u & Hu & Eu). apply list_elem_of_In, in_concat in Hu as (lf & Hl & Hu). apply in_map_iff in Hl as (b & <- & Hb).
      apply list_elem_of_In in Hb, Hu. enough (is_Some (to_map U (f b) !! t)) as [y Hy] by (rewrite (E b Hb) in Hy; discriminate). apply to_map_dom. eauto. }
  split.
  - intros [(x & Hx & Hv & Hm)|[Hn Hv]].
    + exists x. split; [right; exact Hx|]. split; [exact Hv|]. intros b Hb Hs. apply elem_of_cons in Hb as [-> | Hb]; [|auto]. right. apply (F x Hx). exists t. split; [exact Hs|eauto].
    + exists a. split; [left|]. split; [exact Hv|]. intros b Hb Hs. apply elem_of_cons in Hb as [-> | Hb]; [auto|]. rewrite Hnone in Hn. rewrite (Hn b Hb) in Hs. destruct Hs. discriminate.
  - intros (x & Hx & Hv & Hm). apply elem_of_cons in Hx as [-> | Hx]; [|left; exists x; split; [exact Hx|]; split; [exact Hv|]; intros b Hb; apply Hm; right; exact Hb].
    right. split; [|exact Hv]. apply Hnone. intros b Hb. apply eq_None_not_Some. intros Hs. pose proof (F b Hb ltac:(exists t; eauto)) as Hlt. cbn in Hlt.
    destruct (Hm b ltac:(right; exact Hb) Hs) as [-> | Hm']; [rewrite string_lt_irrefl in Hlt; discriminate|]. rewrite (string_lt_asym _ _ Hm') in Hlt. discriminate.
Qed.

Lemma ranked_perm l l' : l ≡ₚ l' -> ranked l -> ranked l' -> to_map U (concat (map f l)) = to_map U (concat (map f l')).
Proof.
  intros P H H'. apply map_eq. intros t. apply option_eq. intros v. rewrite !ranked_lookup by assumption. setoid_rewrite P. reflexivity.
Qed.
End Ranked.

(** ** Files and their blocks *)

(** What a reader promises the cursor: the references on it do not change what is
    read. *)
Class BlockReader (V : Type) := {
  br_time : V -> Z;
  br_ReadAt : TSMReader -> IndexEntry -> res werr (list V);
  br_refs n r e : br_ReadAt (set_refs n r) e = br_ReadAt r e }.

Section Readers.
Context `{S8 : Simple8b} `{SN : Snappy} `{BS : BitStream} (q : decoders).
Program Definition float_reader : BlockReader (tv Z) := {| br_time := unixnano; br_ReadAt := ReadFloatBlockAt q |}.
Next Obligation. reflexivity. Qed.
Program Definition integer_reader : BlockReader (tv Z) := {| br_time := unixnano; br_ReadAt := ReadIntegerBlockAt q |}.
Next Obligation. reflexivity. Qed.
Program Definition unsigned_reader : BlockReader (tv Z) := {| br_time := unixnano; br_ReadAt := ReadUnsignedBlockAt q |}.
Next Obligation. reflexivity. Qed.
Program Definition string_reader : BlockReader (tv (list Z)) := {| br_time := unixnano; br_ReadAt := ReadStringBlockAt q |}.
Next Obligation. reflexivity. Qed.
Program Definition boolean_reader : BlockReader (tv bool) := {| br_time := unixnano; br_ReadAt := ReadBooleanBlockAt q |}.
Next Obligation. reflexivity. Qed.
End Readers.

(** What [sort.Sort] promises: a permutation, sorted when [Less] is a strict weak
    order. *)
Definition weak_order {A} (less : A -> A -> bool) (l : list A) : Prop :=
  forall a b c, a ∈ l -> b ∈ l -> c ∈ l -> (less a b = true -> less b a = false) /\ (less a c = true -> less a b = true \/ less b c = true).
Record sorts {A} (sort : (A -> A -> bool) -> list A -> list A) : Prop := {
  so_perm less l : sort less l ≡ₚ l;
  so_sorted less l : weak_order less l -> StronglySorted (fun a b => less b a = false) (sort less l) }.

Section Store.
Context {V : Type} {BR : BlockReader V} `{BU : BytesUtil}.
Context (key : list Z) (asc : bool).

Abbreviation U := br_time.

(** A block of the key: its entry and its values. *)
Definition kblock : Type := IndexEntry * list V.

Definition block_holds (f : tsmFile) (b : kblock) : Prop :=
  br_ReadAt (tf_rd f) b.1 = Ok b.2 /\ b.2 <> [] /\ increasing U b.2 /\ Forall (fun v => is_i64 (U v)) b.2
  /\ MinTime b.1 = first_time U b.2 /\ MaxTime b.1 = last_time U b.2.

Definition deleted_of (f : tsmFile) : list TimeRange := ix_TombstoneRange (rd_index (tf_rd f)) key.

(** The blocks of the key in a file, one after the other, within the times of the
    file. *)
Record file_blocks (f : tsmFile) (bs : list kblock) : Prop := {
  fb_entries : ix_Entries (rd_index (tf_rd f)) key = Ok (map fst bs);
  fb_holds : Forall (block_holds f) bs;
  fb_sorted : StronglySorted (fun a b : kblock => MaxTime a.1 < MinTime b.1) bs;
  fb_span : Forall (fun b : kblock => ix_minTime (rd_index (tf_rd f)) <= MinTime b.1 /\ MaxTime b.1 <= ix_maxTime (rd_index (tf_rd f))) bs }.

(** Deletions leave the last value of a block (the first, going down) or take the
    whole block at once. *)
Definition ends_kept (f : tsmFile) (bs : list kblock) : Prop :=
  Forall (fun b : kblock => tombstoned (deleted_of f) b.1 = true \/ covered (deleted_of f) (if asc then last_time U b.2 else first_time U b.2) = false) bs.

Definition pieces_of (f : tsmFile) (bs : list kblock) : list (bpiece (V := V)) := map (fun b => (b.2, deleted_of f)) bs.

(** The values of the key in the files: later files override earlier ones. *)
Definition store_values (fs : list (tsmFile * list kblock)) : gmap Z V := overlay U (concat (map (fun x => pieces_of x.1 x.2) fs)).

(** ** The locations of the key *)

Context (h : fileHeap) (t : Z) (Ht : if asc then MinInt64 < t <= MaxInt64 else MinInt64 <= t < MaxInt64).

(** What is read before the first block. *)
Definition start : Z := if asc then t - 1 else - (t + 1).

Definition keep (f : tsmFile) (b : kblock) : bool :=
  let d := rd_index (tf_rd f) in
  negb (asc && (ix_maxTime d <? t)) && negb (negb asc && (ix_minTime d >? t))
  && (negb (tombstoned (deleted_of f) b.1) && negb (asc && (MaxTime b.1 <? t)) && negb (negb asc && (MinTime b.1 >? t))).

Definition loc_of (id : nat) (e : IndexEntry) : location := if asc then mkLoc id e MinInt64 (i64 (t - 1)) else mkLoc id e (i64 (t + 1)) MaxInt64.

Definition labelled (id : nat) (f : tsmFile) (bs : list kblock) : list (location * bpiece (V := V)) :=
  map (fun b => (loc_of id b.1, (b.2, deleted_of f))) (List.filter (keep f) bs).

Lemma filter_map {A B} (g : A -> B) (p : B -> bool) l : List.filter p (map g l) = map g (List.filter (fun x => p (g x)) l).
Proof. induction l as [|x l IH]; [reflexivity|]. cbn. destruct (p (g x)); cbn; rewrite IH; reflexivity. Qed.

Lemma file_locations_spec id f bs : file_blocks f bs -> file_locations key t asc id f = Ok (map fst (labelled id f bs)).
Proof.
  intros H. unfold file_locations, labelled, keep. rewrite (fb_entries _ _ H). cbn [res_map]. cbv zeta. fold (deleted_of f).
  destruct (asc && (ix_maxTime (rd_index (tf_rd f)) <? t)); cbn [negb andb]; [rewrite filter_none by (apply Forall_forall; auto); reflexivity|].
  destruct (negb asc && (ix_minTime (rd_index (tf_rd f)) >? t)); cbn [negb andb]; [rewrite filter_none by (apply Forall_forall; auto); reflexivity|].
  rewrite filter_map, !map_map. f_equal.
Qed.

(** A block that is left out has nothing to read. *)
Lemma not_kept f b : block_holds f b -> (ix_minTime (rd_index (tf_rd f)) <= MinTime b.1 /\ MaxTime b.1 <= ix_maxTime (rd_index (tf_rd f))) -> keep f b = false ->
  List.filter (beyond U asc start) (surviving U (b.2, deleted_of f)) = [].
Proof.
  intros (_ & _ & Hi & _ & Emin & Emax) [S1 S2] Hk. apply filter_none, Forall_forall. intros v Hv. apply surviving_elem in Hv as [Hv Hc]. cbn [fst snd] in Hv, Hc. pose proof (time_span U _ v Hi Hv) as Sp.
  assert (tombstoned (deleted_of f) b.1 = false) as Ht'.
  { apply not_true_iff_false. intros Ht'. apply existsb_exists in Ht' as (r & Hr & Hb). enough (covered (deleted_of f) (U v) = true) by congruence. apply covered_in. exists r. rewrite list_elem_of_In. split; [exact Hr|]. lia. }
  unfold keep in Hk. rewrite Ht' in Hk. unfold beyond, tau, dir, start. destruct asc; cbn [negb andb] in Hk; zcases; cbn in Hk; try discriminate; lia || reflexivity.
Qed.

Lemma loc_of_at id f b : h !! id = Some f -> block_holds f b -> ends_kept f [b] -> keep f b = true ->
  at_T U br_ReadAt key h asc start (loc_of id b.1) (b.2, deleted_of f) /\ loc_path h (loc_of id b.1) = tf_path f /\ start < pfar U asc (b.2, deleted_of f)
  /\ (if asc then (t <? MinTime b.1) || entry_Contains b.1 t else (t >? MaxTime b.1) || entry_Contains b.1 t) = true.
Proof.
  intros Ef (Hr & Hne & Hi & Hz & Emin & Emax) He Hk. apply Forall_cons in He as [He _]. unfold keep in Hk.
  assert (tombstoned (deleted_of f) b.1 = false) as Ets by (destruct (tombstoned (deleted_of f) b.1); [rewrite andb_false_r in Hk; discriminate|reflexivity]).
  rewrite Ets in *. destruct He as [He|He]; [discriminate|]. unfold MinInt64, MaxInt64 in *. repeat split.
  - cbn. unfold loc_of. exists f. destruct asc; cbn; auto.
  - exact Hne.
  - exact Hi.
  - exact Hz.
  - cbn. unfold loc_of. destruct asc; exact Emin.
  - cbn. unfold loc_of. destruct asc; exact Emax.
  - exact He.
  - unfold edge, loc_of. destruct asc; reflexivity.
  - unfold tau, dir, readFar, loc_of, start. destruct asc; cbn; rewrite i64_small by (unfold is_i64; lia); lia.
  - unfold tau, dir, readFar, loc_of, start. destruct asc; cbn; rewrite i64_small by (unfold is_i64; lia); lia.
  - unfold loc_path, loc_of. destruct asc; cbn; rewrite Ef; reflexivity.
  - unfold start, pfar. cbn. destruct asc; cbn [negb andb] in Hk; zcases; cbn in Hk; try discriminate; lia.
  - unfold entry_Contains. destruct asc; cbn [negb andb] in Hk; zcases; cbn in *; try discriminate; lia || reflexivity.
Qed.

Definition good_file (id : nat) (x : tsmFile * list kblock) : Prop := h !! id = Some x.1 /\ file_blocks x.1 x.2 /\ ends_kept x.1 x.2.

Fixpoint all_labelled (ids : list nat) (fs : list (tsmFile * list kblock)) : list (location * bpiece (V := V)) :=
  match ids, fs with
  | id :: ids', x :: fs' => labelled id x.1 x.2 ++ all_labelled ids' fs'
  | _, _ => []
  end.

Lemma locations_spec ids fs : Forall2 good_file ids fs -> locations h ids key t asc = Ok (map fst (all_labelled ids fs)).
Proof.
  induction 1 as [|id x ids fs (Ef & Hb & _) F IH]; [reflexivity|]. cbn [locations all_labelled]. rewrite Ef, (file_locations_spec id _ _ Hb), IH. cbn [res_map]. rewrite map_app. reflexivity.
Qed.

(** What holds of a location and its block. *)
Definition label_ok (fs : list (tsmFile * list kblock)) (y : location * bpiece (V := V)) : Prop :=
  at_T U br_ReadAt key h asc start y.1 y.2 /\ start < pfar U asc y.2 /\ (exists x, x ∈ fs /\ loc_path h y.1 = tf_path x.1)
  /\ (if asc then (t <? MinTime (loc_entry y.1)) || entry_Contains (loc_entry y.1) t else (t >? MaxTime (loc_entry y.1)) || entry_Contains (loc_entry y.1) t) = true.

Lemma labelled_ok id x : good_file id x -> Forall (label_ok [x]) (labelled id x.1 x.2).
Proof.
  intros (Ef & Hb & He). unfold labelled. rewrite Forall_map. apply Forall_forall. intros b Hin. apply list_elem_of_In, filter_In in Hin as [Hin Hk]. apply list_elem_of_In in Hin.
  pose proof (fb_holds _ _ Hb) as Hh. unfold ends_kept in He. rewrite Forall_forall in Hh, He. destruct (loc_of_at id x.1 b Ef (Hh b Hin) ltac:(constructor; [apply He, Hin|constructor]) Hk) as (H1 & H2 & H3 & H4).
  split; [exact H1|]. split; [exact H3|]. split; [exists x; split; [left|exact H2]|]. unfold loc_of. cbn. destruct asc; exact H4.
Qed.

Lemma all_labelled_ok ids fs : Forall2 good_file ids fs -> Forall (label_ok fs) (all_labelled ids fs).
Proof.
  induction 1 as [|id x ids fs H F IH]; cbn; [constructor|]. apply Forall_app. split.
  - eapply Forall_impl; [apply labelled_ok, H|]. intros y (H1 & H2 & (x' & Hx & Hp) & H4). split; [exact H1|]. split; [exact H2|]. split; [|exact H4]. exists x'. apply list_elem_of_singleton in Hx as ->. split; [left|exact Hp].
  - eapply Forall_impl; [exact IH|]. intros y (H1 & H2 & (x' & Hx & Hp) & H4). split; [exact H1|]. split; [exact H2|]. split; [|exact H4]. exists x'. split; [right; exact Hx|exact Hp].
Qed.

Definition shown (y : location * bpiece (V := V)) : list V := surviving U y.2.
Definition label_path (y : location * bpiece (V := V)) : string := loc_path h y.1.

(** Blocks with a time in common overlap. *)
Lemma clash_overlaps fs a b : label_ok fs a -> label_ok fs b -> clash U shown a b -> loc_overlaps a.1 b.1 = true.
Proof.
  intros [[Ha _] _] [[Hb _] _] (u & Hu & Hu'). apply to_map_dom in Hu as (v & Hv & Ev). apply to_map_dom in Hu' as (v' & Hv' & Ev').
  apply surviving_elem in Hv as [Hv _]. apply surviving_elem in Hv' as [Hv' _].
  pose proof (time_span U _ v (lh_inc _ _ _ _ _ _ _ Ha) Hv) as S1. pose proof (time_span U _ v' (lh_inc _ _ _ _ _ _ _ Hb) Hv') as S2.
  rewrite <- (lh_min _ _ _ _ _ _ _ Ha), <- (lh_max _ _ _ _ _ _ _ Ha) in S1. rewrite <- (lh_min _ _ _ _ _ _ _ Hb), <- (lh_max _ _ _ _ _ _ _ Hb) in S2.
  unfold loc_overlaps, entry_OverlapsTimeRange. zcases; lia || reflexivity.
Qed.

Lemma labelled_apart id x : file_blocks x.1 x.2 -> StronglySorted (fun a b : location * bpiece (V := V) => MaxTime (loc_entry a.1) < MinTime (loc_entry b.1)) (labelled id x.1 x.2).
Proof.
  intros Hb. unfold labelled. pose proof (filter_sorted _ (keep x.1) _ (fb_sorted _ _ Hb)) as S. induction S as [|b l S IH F]; cbn; constructor; [exact IH|].
  rewrite Forall_map. eapply Forall_impl; [exact F|]. intros c Hc. unfold loc_of. destruct asc; exact Hc.
Qed.

Lemma sorted_impl_in {A} (R Q : A -> A -> Prop) l : (forall a b, a ∈ l -> b ∈ l -> R a b -> Q a b) -> StronglySorted R l -> StronglySorted Q l.
Proof.
  intros H S. induction S as [|a l S IH F]; constructor.
  - apply IH. intros x y Hx Hy. apply H; right; assumption.
  - rewrite Forall_forall in F |- *. intros b Hb. apply H; [left|right; exact Hb|apply F, Hb].
Qed.

(** In the order of the files, blocks with a time in common are in the order of
    the paths. *)
Lemma labelled_ranked ids fs :
  Forall2 good_file ids fs -> StronglySorted (fun x y => string_lt (tf_path x.1) (tf_path y.1) = true) fs -> ranked U shown label_path (all_labelled ids fs).
Proof.
  intros F. induction F as [|id x ids fs H F IH]; intros Hp; cbn; [constructor|]. apply StronglySorted_inv in Hp as [Hp Hx]. apply StronglySorted_app. split_and!; [|clear IH|apply IH, Hp].
  - intros a b Ha Hb _. pose proof (labelled_ok id x H) as Fa. pose proof (all_labelled_ok ids fs F) as Fb. rewrite Forall_forall in Fa, Fb. rewrite Forall_forall in Hx.
    destruct (Fa a Ha) as (_ & _ & (x' & Hx' & Ea) & _). apply list_elem_of_singleton in Hx' as ->. destruct (Fb b Hb) as (_ & _ & (y & Hy & Eb) & _). unfold label_path. rewrite Ea, Eb. apply Hx, Hy.
  - pose proof (labelled_ok id x H) as Fa. destruct H as (_ & Hb & _). rewrite Forall_forall in Fa. eapply sorted_impl_in; [|apply (labelled_apart id x Hb)]. intros a b Ha Hb' Hlt Hc. exfalso.
    pose proof (clash_overlaps [x] a b (Fa a Ha) (Fa b Hb') Hc) as Ho. unfold loc_overlaps, entry_OverlapsTimeRange in Ho. cbn in Hlt. lia.
Qed.

(** Together they hold what there is to read. *)
Lemma labelled_values ids fs : Forall2 good_file ids fs ->
  concat (map (fun y => List.filter (beyond U asc start) (shown y)) (all_labelled ids fs))
  = concat (map (fun y => List.filter (beyond U asc start) (surviving U y)) (concat (map (fun x => pieces_of x.1 x.2) fs))).
Proof.
  induction 1 as [|id x ids fs (_ & Hb & _) F IH]; [reflexivity|]. cbn [all_labelled map concat]. rewrite !map_app, !concat_app, IH. f_equal. unfold labelled, pieces_of, shown. rewrite !map_map. cbn [fst snd].
  pose proof (fb_holds _ _ Hb) as Hh. pose proof (fb_span _ _ Hb) as Hs. clear -Hh Hs Ht. induction x.2 as [|b bs IH]; [reflexivity|]. apply Forall_cons in Hh as [Hb Hh]. apply Forall_cons in Hs as [Hs1 Hs].
  cbn [List.filter map concat]. destruct (keep x.1 b) eqn:Ek; cbn [map concat]; rewrite (IH Hh Hs); [reflexivity|]. rewrite (not_kept x.1 b Hb Hs1 Ek). reflexivity.
Qed.

(** ** References *)

Definition same_files (h' : fileHeap) : Prop := forall id f, h !! id = Some f -> exists n, h' !! id = Some (mkTF (tf_path f) (set_refs n (tf_rd f))).

Lemma ref_all_same seeks : same_files (ref_all seeks h).
Proof.
  unfold ref_all. assert (same_files h) as H0 by (intros id f E; exists (rd_refs (tf_rd f)); rewrite E; destruct f as [p []]; reflexivity). enough (forall h0, same_files h0 -> same_files (fold_left (adjust rd_Ref) seeks h0)) as H by (apply H, H0). clear H0.
  induction seeks as [|l seeks IH]; intros h0 H; [exact H|]. cbn. apply IH. intros id f E. destruct (H id f E) as [n En]. unfold adjust. destruct (decide (id = loc_r l)) as [-> | Hne].
  - rewrite lookup_alter_eq, En. cbn. eexists. reflexivity.
  - rewrite lookup_alter_ne by congruence. eauto.
Qed.

Lemma at_T_same h' T l x : same_files h' -> at_T U br_ReadAt key h asc T l x -> at_T U br_ReadAt key h' asc T l x.
Proof.
  intros Hs [[(f & E & Hr & Htomb) ? ? ? ? ? ?] Hta]. split; [|exact Hta]. split; try assumption. destruct (Hs _ _ E) as [n En]. exists (mkTF (tf_path f) (set_refs n (tf_rd f))).
  split; [exact En|]. cbn. rewrite br_refs. auto.
Qed.

(** ** The cursor at its start *)

Lemma sorted_and {A} (R Q : A -> A -> Prop) l : StronglySorted R l -> StronglySorted Q l -> StronglySorted (fun a b => R a b /\ Q a b) l.
Proof. intros H. induction H as [|a l H IH F]; intros H2; [constructor|]. apply StronglySorted_inv in H2 as [H2 F2]. constructor; [auto|]. apply Forall_and. auto. Qed.

Lemma sorted_map {A B} (g : A -> B) (R : B -> B -> Prop) l : StronglySorted R (map g l) <-> StronglySorted (fun a b => R (g a) (g b)) l.
Proof.
  induction l as [|a l IH]; cbn; [split; constructor|]. split; intros H; apply StronglySorted_inv in H as [H F]; constructor; try (apply IH; exact H); [rewrite Forall_map in F; exact F|rewrite Forall_map; exact F].
Qed.

Definition cursor_less : location -> location -> bool := if asc then ascLess h else descLess h.

Lemma less_overlap a b : loc_overlaps b a = true -> cursor_less b a = string_lt (loc_path h b) (loc_path h a).
Proof. intros H. unfold cursor_less, ascLess, descLess. destruct asc; rewrite H; reflexivity. Qed.

Lemma overlaps_comm a b : loc_overlaps a b = loc_overlaps b a.
Proof. unfold loc_overlaps, entry_OverlapsTimeRange. zcases; lia || reflexivity. Qed.

(** Sorted, they are in the order of the paths as well. *)
Lemma sorted_ranked fs Q Q' :
  Q ≡ₚ Q' -> Forall (label_ok fs) Q -> ranked U shown label_path Q -> StronglySorted (fun a b => cursor_less b a = false) (map fst Q') -> ranked U shown label_path Q'.
Proof.
  intros P F R S. rewrite sorted_map in S. assert (Forall (label_ok fs) Q') as F' by (rewrite <- P; exact F). rewrite Forall_forall in F'.
  assert (StronglySorted (fun a b => clash U shown a b -> string_lt (label_path a) (label_path b) = true \/ string_lt (label_path b) (label_path a) = true) Q') as R'.
  { apply (sorted_perm _ Q); [|exact P|].
    - intros a b H (u & Hu). destruct (H ltac:(exists u; tauto)); auto.
    - eapply sorted_impl_in; [|exact R]. cbn. auto. }
  eapply sorted_impl_in; [|apply (sorted_and _ _ _ S R')]. intros a b Ha Hb [H1 H2] Hc. destruct (H2 Hc) as [H|H]; [exact H|].
  rewrite less_overlap in H1 by (rewrite overlaps_comm; apply (clash_overlaps fs a b); auto). unfold label_path in H. congruence.
Qed.

Definition spanned (l : location) : Prop := MinTime (loc_entry l) <= MaxTime (loc_entry l).

Lemma no_overlap_sorted l : Forall spanned l -> hasOverlappingBlocks l = false -> StronglySorted (fun a b => MaxTime (loc_entry a) < MinTime (loc_entry b)) l.
Proof.
  intros F. destruct l as [|a l]; [constructor|]. cbn [hasOverlappingBlocks]. revert a F. induction l as [|b l IH]; intros a F E; [repeat constructor|].
  cbn [overlapping] in E. apply orb_false_iff in E as [E1 E2]. apply Forall_cons in F as [Fa F]. specialize (IH b F E2). constructor; [exact IH|]. pose proof IH as IH'. apply StronglySorted_inv in IH' as [_ Hl].
  apply Forall_cons in F as [Fb F]. unfold spanned in *. constructor; [lia|]. rewrite Forall_forall in Hl |- *. intros c Hc. specialize (Hl c Hc). cbn in Hl. lia.
Qed.

Lemma no_overlap_seeks l seeks :
  Forall spanned l -> hasOverlappingBlocks l = false -> seeks ≡ₚ l -> StronglySorted (fun a b => cursor_less b a = false) seeks ->
  StronglySorted (fun a b => MaxTime (loc_entry a) < MinTime (loc_entry b)) seeks.
Proof.
  intros F E P S. assert (Forall spanned seeks) as F' by (rewrite P; exact F). rewrite Forall_forall in F'. pose proof (no_overlap_sorted l F E) as H.
  assert (StronglySorted (fun a b => MaxTime (loc_entry a) < MinTime (loc_entry b) \/ MaxTime (loc_entry b) < MinTime (loc_entry a)) seeks) as H'.
  { apply (sorted_perm _ l); [tauto|symmetry; exact P|]. eapply sorted_impl_in; [|exact H]. auto. }
  eapply sorted_impl_in; [|apply (sorted_and _ _ _ S H')]. intros a b Ha Hb [H1 H2]. pose proof (F' a Ha) as Sa. pose proof (F' b Hb) as Sb. unfold spanned in Sa, Sb. cbv beta in H1, H2 |- *.
  unfold cursor_less, ascLess, descLess, loc_overlaps, entry_OverlapsTimeRange in H1. revert H1. destruct asc; zcases; cbn; intros Hless; try discriminate; lia.
Qed.

(** Where the cursor stands after the seek: every location matches. *)
Definition all_idx (n : nat) : list nat := if asc then seq 0 n else reverse (seq 0 n).

Lemma all_idx_sorted n : StronglySorted (idx_lt asc) (all_idx n).
Proof. unfold all_idx. pose proof (visit_sorted asc 0 n) as H. unfold visit, idx_lt in *. destruct asc; [apply seq_sorted|exact H]. Qed.

Lemma all_idx_elem n j : j ∈ all_idx n <-> (j < n)%nat.
Proof. unfold all_idx. destruct asc; rewrite ?elem_of_reverse, elem_of_seq; lia. Qed.

Lemma seek_all fs Q : Forall (label_ok fs) Q -> seek_matches (map fst Q) t asc = all_idx (length Q).
Proof.
  intros F. unfold seek_matches, all_idx. rewrite length_map. rewrite Forall_forall in F.
  assert (forall i, (i < length Q)%nat -> exists y, map fst Q !! i = Some y.1 /\ label_ok fs y) as H.
  { intros i Hi. destruct (lookup_lt_is_Some_2 Q i Hi) as [y Ey]. exists y. rewrite list_lookup_fmap, Ey. split; [reflexivity|]. apply F. eapply list_elem_of_lookup_2. exact Ey. }
  destruct asc eqn:Ea; apply filter_all, Forall_forall; intros i Hi; rewrite ?elem_of_reverse, elem_of_seq in Hi; (destruct (H i ltac:(lia)) as (y & -> & _ & _ & _ & Hy)); rewrite Ea in Hy; exact Hy.
Qed.

Lemma start_ready fs Q dup :
  Forall (label_ok fs) Q -> let c := kc_seek t (mkKC key (map fst Q) [] 0 asc dup) in
  kc_seeks c = map fst Q /\ kc_key c = key /\ kc_ascending c = asc /\ kc_duplicates c = dup /\ cur_ok U asc start (map snd Q) c /\ ready_at U asc start (map snd Q) c.
Proof.
  intros F. cbv zeta. unfold kc_seek. cbn [kc_seeks kc_ascending]. destruct Q as [|y Q]; [cbn; repeat split; intros j (x & E & _); destruct j; discriminate|].
  pose proof (seek_all fs (y :: Q) F) as Es. cbn [map] in Es |- *. rewrite Es. clear Es. pose proof (all_idx_sorted (length (y :: Q))) as Hs. pose proof (all_idx_elem (length (y :: Q))) as He. rewrite Forall_forall in F.
  assert (forall j, (j < length (y :: Q))%nat -> unread_at U asc start (map snd (y :: Q)) j) as Hu.
  { intros j Hj. destruct (lookup_lt_is_Some_2 (y :: Q) j Hj) as [z Ez]. exists z.2. rewrite list_lookup_fmap, Ez. split; [reflexivity|]. apply F. eapply list_elem_of_lookup_2. exact Ez. }
  assert (forall j, unread_at U asc start (map snd (y :: Q)) j -> (j < length (y :: Q))%nat) as Hlen by (intros j (x & E & _); apply lookup_lt_Some in E; rewrite length_map in E; exact E).
  destruct (all_idx (length (y :: Q))) as [|i l] eqn:Ei; [exfalso; specialize (He 0%nat); cbn in He; apply (not_elem_of_nil 0%nat), He; lia|].
  cbn [map] in *. cbn. split; [reflexivity|]. split; [reflexivity|]. split; [reflexivity|]. split; [reflexivity|]. unfold cur_ok, ready_at. cbn [kc_current kc_pos kc_duplicates kc_set].
  assert (unread_at U asc start (y.2 :: map snd Q) i) as Hi by (apply Hu, He; left).
  destruct dup; (split; [|exact Hi]); (split; [reflexivity|]).
  - exists l. split; [auto|]. split; [exact Hs|]. split; [apply Forall_forall; intros j Hj; cbn; rewrite length_map; apply He in Hj; cbn in Hj; exact Hj|]. intros j Hj. apply He, Hlen, Hj.
  - exists []. split; [auto|]. split; [repeat constructor|]. split; [constructor; [cbn; rewrite length_map; apply (He i); left|constructor]|]. split; [reflexivity|].
    intros j Hj. apply Hlen, He, elem_of_cons in Hj as [Hj|Hj]; [auto|]. right. apply StronglySorted_inv in Hs as [_ Hs]. rewrite Forall_forall in Hs. apply Hs, Hj.
Qed.

Lemma label_spanned fs y : label_ok fs y -> spanned y.1.
Proof. intros [[H _] _]. unfold spanned. rewrite (lh_min _ _ _ _ _ _ _ H), (lh_max _ _ _ _ _ _ _ H). apply first_le_last; apply H. Qed.

Lemma Forall2_fst_snd {A B} (R : A -> B -> Prop) (l : list (A * B)) : Forall (fun y => R y.1 y.2) l -> Forall2 R (map fst l) (map snd l).
Proof. induction 1; cbn; constructor; assumption. Qed.

(** What there is to read does not depend on the order the locations are put in. *)
Lemma seeks_values ids fs Q' :
  Forall2 good_file ids fs -> all_labelled ids fs ≡ₚ Q' -> ranked U shown label_path (all_labelled ids fs) -> ranked U shown label_path Q' ->
  after asc start (overlay U (map snd Q')) = filter (fun kv => (if asc then t <=? kv.1 else kv.1 <=? t) = true) (store_values fs).
Proof.
  intros F P R R'. assert (overlay U (map snd Q') = to_map U (concat (map shown (all_labelled ids fs)))) as ->.
  { unfold overlay. rewrite map_map. symmetry. apply (ranked_perm U shown label_path _ Q' P R R'). }
  assert (forall l, after asc start (to_map U l) = to_map U (List.filter (beyond U asc start) l)) as Ha.
  { intros l. unfold after, beyond, tau. rewrite (to_map_filter U (fun u => start <? dir asc u)). apply map_filter_ext. intros u v _. cbn. lia. }
  rewrite Ha, filter_concat_map, (labelled_values ids fs F). unfold store_values, overlay. rewrite <- filter_concat_map, <- Ha. unfold after. apply map_filter_ext. intros u v _. cbn. unfold dir, start. destruct asc; lia.
Qed.

(** The cursor from its start to its end. *)
Lemma cursor_gives (sort_Sort : (location -> location -> bool) -> list location -> list location) (ids : list nat) (fs : list (tsmFile * list kblock)) :
  sorts sort_Sort -> Forall2 good_file ids fs -> StronglySorted (fun x y => string_lt (tf_path x.1) (tf_path y.1) = true) fs ->
  (forall l, locations h ids key t asc = Ok l -> weak_order (if asc then ascLess h else descLess h) l) ->
  exists c h' outs, newKeyCursor sort_Sort h ids key t asc = Ok (c, h')
    /\ kc_drain U br_ReadAt h' (S (size (store_values fs))) c = Some outs /\ Forall (fun o => o <> []) outs
    /\ increasing U (concat (if asc then outs else reverse outs))
    /\ to_map U (concat (if asc then outs else reverse outs)) = filter (fun kv => (if asc then t <=? kv.1 else kv.1 <=? t) = true) (store_values fs).
Proof.
  intros [Sp Ss] F Hp Ho. pose proof (locations_spec ids fs F) as El. pose proof (all_labelled_ok ids fs F) as FQ. pose proof (labelled_ranked ids fs F Hp) as RQ. specialize (Ho _ El).
  set (Q := all_labelled ids fs) in *. fold cursor_less in Ho. pose proof (Ss _ _ Ho) as Sseeks. set (seeks := sort_Sort cursor_less (map fst Q)) in *.
  destruct (Permutation_map_inv fst Q (Sp cursor_less (map fst Q))) as (Q' & E' & P). fold seeks in E'. assert (Forall (label_ok fs) Q') as FQ' by (rewrite <- P; exact FQ).
  set (h' := ref_all seeks h). pose proof (ref_all_same seeks) as Hsame. fold h' in Hsame. set (dup := hasOverlappingBlocks (map fst Q)).
  destruct (start_ready fs Q' dup FQ') as (C1 & C2 & C3 & C4 & C5 & C6). rewrite <- E' in *. set (c := kc_seek t (mkKC key seeks [] 0 asc dup)) in *.
  assert (cursor_at U br_ReadAt key h' asc start (map snd Q') c) as Hc.
  { split; [|exact C2|exact C3| |exact C5].
    - rewrite C1, E'. apply Forall2_fst_snd. eapply Forall_impl; [exact FQ'|]. intros y [Hy _]. apply (at_T_same h'); assumption.
    - rewrite C4. intros Ed. assert (Forall spanned (map fst Q)) as Fs by (rewrite Forall_map; eapply Forall_impl; [exact FQ|]; intros y Hy; apply (label_spanned fs y Hy)).
      pose proof (no_overlap_seeks (map fst Q) seeks Fs Ed (Sp cursor_less (map fst Q)) Sseeks) as Hs. rewrite E', sorted_map in Hs. rewrite sorted_map. rewrite Forall_forall in FQ'.
      eapply sorted_impl_in; [|exact Hs]. intros a b Ha Hb Hlt. cbv beta in *. destruct (FQ' a Ha) as [[La _] _]. destruct (FQ' b Hb) as [[Lb _] _].
      rewrite <- (lh_max _ _ _ _ _ _ _ La), <- (lh_min _ _ _ _ _ _ _ Lb). exact Hlt. }
  pose proof (sorted_ranked fs Q Q' P FQ RQ ltac:(rewrite <- E'; exact Sseeks)) as RQ'. pose proof (seeks_values ids fs Q' F P RQ RQ') as Hv.
  destruct (kc_drain_spec U br_ReadAt key h' asc (S (size (store_values fs))) start (map snd Q') c Hc C6) as (outs & Hd & Hne & Hi & Hm).
  { rewrite Hv. apply Nat.lt_succ_r, map_subseteq_size, map_filter_subseteq. }
  exists c, h', outs. split; [unfold newKeyCursor; rewrite El; reflexivity|]. split; [exact Hd|]. split; [exact Hne|]. unfold in_time in Hi, Hm. split; [exact Hi|]. rewrite Hm. exact Hv.
Qed.

(** C8 (functional). Reading a key through a cursor, in either direction and for any
    of the five types: whatever the number of files and however their blocks overlap,
    reading block after block ends, without an error or a panic; every block read
    has values; put in the order of time they are strictly increasing, and they are
    exactly the values of the key from the time of the seek on, later files
    overriding earlier ones, without what the tombstones of each file delete.  The
    order that [Less] gives the blocks found has to be one ([sort_order_cycle]), and
    deletions must not cut off the end of a block ([cut_block_ends_cursor]); the seek
    is not at the lowest time, descending not at the highest
    ([seek_lowest_reads_nothing]). *)
Theorem cursor_reads (sort_Sort : (location -> location -> bool) -> list location -> list location) (ids : list nat) (fs : list (tsmFile * list kblock)) :
  sorts sort_Sort -> Forall2 good_file ids fs -> StronglySorted (fun x y => string_lt (tf_path x.1) (tf_path y.1) = true) fs ->
  (forall l, locations h ids key t asc = Ok l -> weak_order (if asc then ascLess h else descLess h) l) ->
  exists c h' outs, newKeyCursor sort_Sort h ids key t asc = Ok (c, h')
    /\ kc_drain U br_ReadAt h' (S (size (store_values fs))) c = Some outs /\ Forall (fun o => o <> []) outs
    /\ increasing U (concat (if asc then outs else reverse outs))
    /\ to_map U (concat (if asc then outs else reverse outs)) = filter (fun kv => (if asc then t <=? kv.1 else kv.1 <=? t) = true) (store_values fs).
Proof. exact (cursor_gives sort_Sort ids fs). Qed.
End Store.

(** * Cursors on concrete files

    A sort that keeps its promise, a witness of what a cursor reads, and the
    situations in which a cursor misses values. *)

(** ** Insertion sort *)

Section Insertion.
Context {A : Type}.

Fixpoint insert_by (less : A -> A -> bool) (x : A) (l : list A) : list A :=
  match l with
  | y :: l' => if less y x then y :: insert_by less x l' else x :: l
  | [] => [x]
  end.
Definition insertion_sort (less : A -> A -> bool) (l : list A) : list A := fold_right (insert_by less) [] l.

Lemma insert_perm less x l : insert_by less x l ≡ₚ x :: l.
Proof. induction l as [|y l IH]; cbn; [reflexivity|]. destruct (less y x); [|reflexivity]. rewrite IH. apply Permutation_swap. Qed.

Lemma insertion_perm less l : insertion_sort less l ≡ₚ l.
Proof. induction l as [|x l IH]; cbn; [reflexivity|]. rewrite insert_perm, IH. reflexivity. Qed.

Lemma weak_sub (less : A -> A -> bool) l l' : (forall a, a ∈ l' -> a ∈ l) -> weak_order less l -> weak_order less l'.
Proof. intros H W a b c Ha Hb Hc. apply W; auto. Qed.

Lemma insert_sorted less x l :
  weak_order less (x :: l) -> StronglySorted (fun a b => less b a = false) l -> StronglySorted (fun a b => less b a = false) (insert_by less x l).
Proof.
  intros W S. induction S as [|y l S IH F]; cbn; [repeat constructor|].
  assert (weak_order less (x :: l)) as W' by (eapply weak_sub; [|exact W]; intros a Ha; apply elem_of_cons in Ha as [-> | Ha]; [left|right; right; exact Ha]).
  assert (x ∈ x :: y :: l) as Hx by left. assert (y ∈ x :: y :: l) as Hy by (right; left). destruct (less y x) eqn:E.
  - constructor; [apply IH, W'|]. rewrite insert_perm. constructor; [|exact F]. apply (W y x x Hy Hx Hx), E.
  - constructor; [constructor; assumption|]. constructor; [exact E|]. rewrite Forall_forall in F |- *. intros z Hz. specialize (F z Hz). cbn in F.
    destruct (less z x) eqn:Ez; [|reflexivity]. destruct (W z y x ltac:(right; right; exact Hz) Hy Hx) as [_ Hn]. destruct (Hn Ez); congruence.
Qed.

Lemma insertion_sorts : sorts insertion_sort.
Proof.
  split; [apply insertion_perm|]. intros less l W. induction l as [|x l IH]; cbn; [constructor|]. apply insert_sorted.
  - eapply weak_sub; [|exact W]. intros a Ha. rewrite elem_of_cons, (insertion_perm less l) in Ha. apply elem_of_cons. exact Ha.
  - apply IH. eapply weak_sub; [|exact W]. intros a Ha. right. exact Ha.
Qed.
End Insertion.

(** ** Two files *)

#[local] Existing Instances plain_words plain_laws list_stream list_stream_laws id_snappy id_snappy_laws list_bytesutil id_gzip ex_blocks.
#[local] Instance int_reader : BlockReader (tv Z) := integer_reader decoders_ex.

Definition heap_of (l : list TSMReader) : fileHeap := list_to_map (imap (fun i r => (i, mkTF (("00000000" ++ String (Ascii.ascii_of_nat (49 + i)) "-000000001.tsm")%string) r)) l).
Definition points (l : list (Z * Z)) : list (tv Z) := map (fun x => mkTV x.1 x.2) l.
Definition shown_points (o : option (list (list (tv Z)))) : option (list (list (Z * Z))) := option_map (map (map (fun v => (unixnano v, value v)))) o.

Definition read_key (sort : (location -> location -> bool) -> list location -> list location) (rs : list TSMReader) (key : list Z) (t : Z) (asc : bool) : option (list (list (Z * Z))) :=
  match newKeyCursor sort (heap_of rs) (seq 0 (length rs)) key t asc with
  | Ok (c, h) => shown_points (kc_drain unixnano (ReadIntegerBlockAt decoders_ex) h 10 c)
  | _ => None
  end.

Example reads_up : read_key insertion_sort [older; newer] [97] 0 true = Some [[(3, 11); (5, 99)]; [(7, 70)]].
Proof. vm_compute. reflexivity. Qed.
Example reads_down : read_key insertion_sort [newer; newer] [97] 6 false = Some [[(3, 11); (5, 99)]].
Proof. vm_compute. reflexivity. Qed.

(** The blocks of the key in the two files. *)
Definition two_store : list (tsmFile * list (kblock (V := tv Z))) := Eval vm_compute in
  match heap_of [older; newer] !! 0%nat, heap_of [older; newer] !! 1%nat, ix_Entries (rd_index older) [97], ix_Entries (rd_index newer) [97] with
  | Some f, Some g, Ok [e1], Ok [e2; e3] => [(f, [(e1, points [(1, 10); (5, 20)])]); (g, [(e2, points [(3, 11); (5, 99)]); (e3, points [(7, 70)])])]
  | _, _, _, _ => []
  end.

(** A block of points, checked by computation. *)
Lemma points_hold f e l :
  br_ReadAt (tf_rd f) e = Ok (points l) -> forallb (fun x => (- 2 ^ 63 <=? x.1) && (x.1 <? 2 ^ 63)) l = true -> ordered unixnano (points l) = true -> l <> [] ->
  MinTime e = first_time unixnano (points l) -> MaxTime e = last_time unixnano (points l) -> block_holds f (e, points l).
Proof.
  intros Hr Hz Ho Hne Emin Emax. split; [exact Hr|]. split; [destruct l; [congruence|discriminate]|]. split; [apply ordered_increasing, Ho|]. split; [|auto].
  rewrite forallb_forall in Hz. apply Forall_forall. intros v Hv. apply list_elem_of_In, in_map_iff in Hv as (x & <- & Hx). specialize (Hz x Hx). unfold is_i64. cbn. lia.
Qed.

Lemma two_store_good : Forall2 (good_file [97] true (heap_of [older; newer])) [0%nat; 1%nat] two_store.
Proof.
  constructor; [|constructor; [|constructor]].
  - split; [vm_compute; reflexivity|]. split; [split|].
    + vm_compute. reflexivity.
    + constructor; [|constructor]. apply (points_hold _ _ [(1, 10); (5, 20)]); vm_compute; congruence.
    + repeat constructor.
    + constructor; [|constructor]. split; vm_compute; congruence.
    + constructor; [|constructor]. right. vm_compute. reflexivity.
  - split; [vm_compute; reflexivity|]. split; [split|].
    + vm_compute. reflexivity.
    + constructor; [|constructor; [|constructor]]; [apply (points_hold _ _ [(3, 11); (5, 99)])|apply (points_hold _ _ [(7, 70)])]; vm_compute; congruence.
    + repeat constructor.
    + constructor; [|constructor; [|constructor]]; split; vm_compute; congruence.
    + constructor; [|constructor; [|constructor]]; right; vm_compute; reflexivity.
Qed.

Definition two_found : list location := Eval vm_compute in
  match locations (heap_of [older; newer]) [0%nat; 1%nat] [97] 0 true with Ok l => l | _ => [] end.

Lemma two_ordered : weak_order (ascLess (heap_of [older; newer])) two_found.
Proof.
  assert (forall a, a ∈ two_found -> exists i : nat, (i < 3)%nat /\ two_found !! i = Some a) as H by (intros a Ha; apply list_elem_of_lookup in Ha as [i Hi]; exists i; split; [apply lookup_lt_Some in Hi; exact Hi|exact Hi]).
  intros a b c Ha Hb Hc. destruct (H a Ha) as (i & Hi & Ei), (H b Hb) as (j & Hj & Ej), (H c Hc) as (k & Hk & Ek).
  destruct i as [|[|[|i]]]; [| | |lia]; destruct j as [|[|[|j]]]; [| | |lia| | | |lia| | | |lia]; destruct k as [|[|[|k]]]; try lia; vm_compute in Ei, Ej, Ek; injection Ei as <-; injection Ej as <-; injection Ek as <-; vm_compute; auto.
Qed.

Lemma cursor_reads_witness :
  exists c h' outs, newKeyCursor insertion_sort (heap_of [older; newer]) [0%nat; 1%nat] [97] 0 true = Ok (c, h')
    /\ kc_drain unixnano (ReadIntegerBlockAt decoders_ex) h' (S (size (store_values [97] two_store))) c = Some outs /\ Forall (fun o => o <> []) outs
    /\ increasing unixnano (concat outs)
    /\ to_map unixnano (concat outs) = filter (fun kv => (0 <=? kv.1) = true) (store_values [97] two_store).
Proof.
  apply (cursor_reads [97] true (heap_of [older; newer]) 0 ltac:(split; vm_compute; congruence) insertion_sort [0%nat; 1%nat] two_store).
  - exact insertion_sorts.
  - exact two_store_good.
  - repeat constructor.
  - intros l E. assert (l = two_found) as -> by (vm_compute in E; injection E as <-; reflexivity). exact two_ordered.
Defined.

(** ** Values that are missed *)

(** The last value of the first block is deleted.  The block then never counts as
    read, the next read finds nothing left of it, and the cursor says that it is at
    the end: the blocks after it are not read. *)
Definition cut_file : TSMReader := (rd_DeleteRange true [[97]] 5 5 (reader_of [([97], [ints [(1, 10); (5, 20)]; ints [(7, 70)]])])).2.
Example cut_block_ends_cursor :
  read_key insertion_sort [cut_file] [97] 0 true = Some [[(1, 10)]]
  /\ (rd_ReadAll cut_file [97] decoders_ex).1 = Ok (ints [(1, 10); (7, 70)]).
Proof. vm_compute. auto. Qed.

(** Three blocks in three files.  The first and the third do not overlap and are
    ordered by time, the others overlap and are ordered by file: [Less] goes round in
    a circle.  A sort may put the newest block first, and then an older value
    wins. *)
Definition circle : list TSMReader := [reader_of [([97], [ints [(20, 1); (30, 1)]])]; reader_of [([97], [ints [(5, 2); (25, 2)]])]; reader_of [([97], [ints [(0, 3); (5, 3)]])]].
Definition rotate {A} (l : list A) : list A := match l with [a; b; c] => [c; a; b] | _ => l end.
Example sort_order_cycle :
  (exists a b c, locations (heap_of circle) [0%nat; 1%nat; 2%nat] [97] 0 true = Ok [a; b; c]
     /\ ascLess (heap_of circle) c a = true /\ ascLess (heap_of circle) a b = true /\ ascLess (heap_of circle) b c = true)
  /\ read_key insertion_sort circle [97] 0 true = Some [[(0, 3); (5, 3); (20, 1); (25, 2); (30, 1)]]
  /\ read_key (fun _ => rotate) circle [97] 0 true = Some [[(0, 3); (5, 2); (20, 1); (25, 2)]; [(30, 1)]].
Proof. vm_compute. split; [eexists _, _, _; auto|auto]. Qed.

(** A seek to the least time wraps around and finds everything read already. *)
Example seek_lowest_reads_nothing : read_key insertion_sort [newer] [97] (- 2 ^ 63) true = Some [] /\ read_key insertion_sort [newer] [97] (- 2 ^ 63 + 1) true = Some [[(3, 11); (5, 99)]; [(7, 70)]].
Proof. vm_compute. auto. Qed.
