(* ===== verification/ValueCursor.v ===== *)
(** * Cursors over the cache and the files

    The cursors of [tsdb/engine/tsm1/iterator.gen.go] and
    [batch_cursor.gen.go]: the values of a key in the cache and in the TSM files,
    merged as they are read, one at a time or in batches.  Both files are templates
    generated for five value types; the templates are here once and instantiated
    five times.  A cursor holds its two sources at a position each; what the files
    give comes block by block from a [KeyCursor].  A panic has no result. *)

From S2P Require Import Prelude Bytes Values Varint Simple8b TimeCodec IntCodec BoolCodec StringCodec BitReader FloatCodec ValueCodec Blocks TypedValues.
From S2P Require Import TSMWriter TSMIndex TSMReader KeyCursor.

(** Indexing: out of range is a panic. *)
Definition at_pos {X} (l : list X) (p : Z) : option X := if p <? 0 then None else l !! Z.to_nat p.

(** [sort.Search(len(l), func(i int) bool { return l[i].UnixNano() >= seek })]: the
    function is called within the bounds only. *)
Definition search_time {X} (time : X -> Z) (l : list X) (seek : Z) : Z :=
  Search (zlen l) (fun i => match at_pos l i with Some x => time x >=? seek | None => false end).

(** What the structs of the cursors of one type share: [cache] and [tsm]. *)
Record sources (A : Type) := mkSrc {
  cache_values : list Value; cache_pos : Z; tsm_values : list (tv A); tsm_pos : Z; tsm_keyCursor : option KeyCursor }.
Arguments mkSrc {A} _ _ _ _ _.
Arguments cache_values {A} _.
Arguments cache_pos {A} _.
Arguments tsm_values {A} _.
Arguments tsm_pos {A} _.
Arguments tsm_keyCursor {A} _.

(** The interfaces [floatCursor], ... and [tsdb.FloatBatchCursor], ...: the state
    behind one and what it answers. *)
Record cursor_of (A : Type) := mkCursor {
  cur_new : fileHeap -> Z -> list Value -> KeyCursor -> option (sources A);
  cur_next : fileHeap -> sources A -> option ((Z * A) * sources A);
  cur_close : fileHeap -> sources A -> option (sources A * fileHeap) }.
Arguments cur_new {A} _.
Arguments cur_next {A} _.
Arguments cur_close {A} _.

(** A batch cursor with its key and the buffers its answers are slices of. *)
Record batch (A : Type) := mkBatch { b_src : sources A; b_key : list Z; b_t : list Z; b_v : list A }.
Arguments mkBatch {A} _ _ _ _.
Arguments b_src {A} _.
Arguments b_key {A} _.
Arguments b_t {A} _.
Arguments b_v {A} _.

Record batch_cursor_of (A : Type) := mkBatchCursor {
  bc_new : fileHeap -> list Z -> Z -> list Value -> KeyCursor -> option (batch A);
  bc_Next : fileHeap -> batch A -> option (nat * batch A);
  bc_Close : fileHeap -> batch A -> option (batch A * fileHeap) }.
Arguments bc_new {A} _.
Arguments bc_Next {A} _.
Arguments bc_Close {A} _.

Section Template.
Context {A : Type} (zero : A) (as_type : Value -> option (tv A)) (tsdb_EOF : Z).
Context (ReadBlock : fileHeap -> KeyCursor -> res werr (list (tv A)) * KeyCursor).

Definition set_cache_pos (p : Z) (c : sources A) : sources A := mkSrc (cache_values c) p (tsm_values c) (tsm_pos c) (tsm_keyCursor c).
Definition set_tsm (l : list (tv A)) (p : Z) (k : option KeyCursor) (c : sources A) : sources A := mkSrc (cache_values c) (cache_pos c) l p k.

(** [values, _ = keyCursor.ReadFloatBlock(...)]: an error leaves no values. *)
Definition load (h : fileHeap) (k : KeyCursor) : option (list (tv A) * KeyCursor) :=
  match ReadBlock h k with
  | (Ok l, k') => Some (l, k')
  | (Err _, k') => Some ([], k')
  | (Panic, _) => None
  end.

(** [keyCursor.Next()] and the read that follows it. *)
Definition load_next (h : fileHeap) (k : option KeyCursor) : option (list (tv A) * KeyCursor) := k ← k; k ← kc_Next k; load h k.

Definition cache_item (c : sources A) : option (Z * A) :=
  item ← at_pos (cache_values c) (cache_pos c); x ← as_type item; Some (Value_UnixNano tsdb_EOF item, value x).
Definition tsm_item (c : sources A) : option (Z * A) :=
  item ← at_pos (tsm_values c) (tsm_pos c); Some (unixnano item, value item).

Definition src_close (h : fileHeap) (c : sources A) : option (sources A * fileHeap) :=
  k ← tsm_keyCursor c; Some (mkSrc [] (cache_pos c) [] (tsm_pos c) None, (kc_Close k h).2).

(** ** One at a time, ascending *)

Definition asc_peekCache (c : sources A) : option (Z * A) :=
  if cache_pos c >=? zlen (cache_values c) then Some (tsdb_EOF, zero) else cache_item c.
Definition asc_peekTSM (c : sources A) : option (Z * A) :=
  if (tsm_pos c <? 0) || (tsm_pos c >=? zlen (tsm_values c)) then Some (tsdb_EOF, zero) else tsm_item c.
Definition asc_nextCache (c : sources A) : sources A :=
  if cache_pos c >=? zlen (cache_values c) then c else set_cache_pos (cache_pos c + 1) c.
Definition asc_nextTSM (h : fileHeap) (c : sources A) : option (sources A) :=
  let pos := tsm_pos c + 1 in
  if pos >=? zlen (tsm_values c) then
    '(l, k) ← load_next h (tsm_keyCursor c);
    Some (set_tsm l (if zlen l =? 0 then pos else 0) (Some k) c)
  else Some (set_tsm (tsm_values c) pos (tsm_keyCursor c) c).

Definition asc_next (h : fileHeap) (c : sources A) : option ((Z * A) * sources A) :=
  '(ckey, cvalue) ← asc_peekCache c;
  '(tkey, tvalue) ← asc_peekTSM c;
  if (ckey =? tsdb_EOF) && (tkey =? tsdb_EOF) then Some ((tsdb_EOF, zero), c)
  else if ckey =? tkey then c ← asc_nextTSM h (asc_nextCache c); Some ((ckey, cvalue), c)
  else if negb (ckey =? tsdb_EOF) && ((ckey <? tkey) || (tkey =? tsdb_EOF)) then Some ((ckey, cvalue), asc_nextCache c)
  else c ← asc_nextTSM h c; Some ((tkey, tvalue), c).

Definition newAscendingCursor (h : fileHeap) (seek : Z) (cacheValues : list Value) (k : KeyCursor) : option (sources A) :=
  '(l, k) ← load h k;
  Some (mkSrc cacheValues (search_time (Value_UnixNano tsdb_EOF) cacheValues seek) l (search_time unixnano l seek) (Some k)).

Definition ascending_cursor : cursor_of A := mkCursor A newAscendingCursor asc_next src_close.

(** ** One at a time, descending *)

Definition desc_peekCache (c : sources A) : option (Z * A) :=
  if (cache_pos c <? 0) || (cache_pos c >=? zlen (cache_values c)) then Some (tsdb_EOF, zero) else cache_item c.
Definition desc_peekTSM (c : sources A) : option (Z * A) := asc_peekTSM c.
Definition desc_nextCache (c : sources A) : sources A := if cache_pos c <? 0 then c else set_cache_pos (cache_pos c - 1) c.
Definition desc_nextTSM (h : fileHeap) (c : sources A) : option (sources A) :=
  let pos := tsm_pos c - 1 in
  if pos <? 0 then
    '(l, k) ← load_next h (tsm_keyCursor c);
    Some (set_tsm l (if zlen l =? 0 then pos else zlen l - 1) (Some k) c)
  else Some (set_tsm (tsm_values c) pos (tsm_keyCursor c) c).

Definition desc_next (h : fileHeap) (c : sources A) : option ((Z * A) * sources A) :=
  '(ckey, cvalue) ← desc_peekCache c;
  '(tkey, tvalue) ← desc_peekTSM c;
  if (ckey =? tsdb_EOF) && (tkey =? tsdb_EOF) then Some ((tsdb_EOF, zero), c)
  else if ckey =? tkey then c ← desc_nextTSM h (desc_nextCache c); Some ((ckey, cvalue), c)
  else if negb (ckey =? tsdb_EOF) && ((ckey >? tkey) || (tkey =? tsdb_EOF)) then Some ((ckey, cvalue), desc_nextCache c)
  else c ← desc_nextTSM h c; Some ((tkey, tvalue), c).

Definition newDescendingCursor (h : fileHeap) (seek : Z) (cacheValues : list Value) (k : KeyCursor) : option (sources A) :=
  let c := mkSrc cacheValues (search_time (Value_UnixNano tsdb_EOF) cacheValues seek) [] 0 (Some k) in
  '(t, _) ← desc_peekCache c;
  let c := if negb (t =? seek) then set_cache_pos (cache_pos c - 1) c else c in
  '(l, k) ← load h k;
  let c := set_tsm l (search_time unixnano l seek) (Some k) c in
  '(t, _) ← desc_peekTSM c;
  Some (if negb (t =? seek) then set_tsm l (tsm_pos c - 1) (Some k) c else c).

Definition descending_cursor : cursor_of A := mkCursor A newDescendingCursor desc_next src_close.

(** [newFloatCursor], ... *)
Definition typed_cursor (ascending : bool) : cursor_of A := if ascending then ascending_cursor else descending_cursor.

(** ** Batches, ascending *)

(** [c.t[pos], c.v[pos] = k, v] *)
Definition b_store (pos : nat) (k : Z) (v : A) (c : sources A) (b : batch A) : option (batch A) :=
  if (pos <? length (b_t b))%nat && (pos <? length (b_v b))%nat
  then Some (mkBatch c (b_key b) (<[pos := k]> (b_t b)) (<[pos := v]> (b_v b))) else None.

Definition asc_batch_peekTSM (c : sources A) : option (Z * A) :=
  if tsm_pos c >=? zlen (tsm_values c) then Some (tsdb_EOF, zero) else tsm_item c.
Definition asc_batch_nextCache (c : sources A) : sources A :=
  if cache_pos c <? zlen (cache_values c) then set_cache_pos (cache_pos c + 1) c else c.
Definition asc_batch_nextTSM (h : fileHeap) (c : sources A) : option (sources A) :=
  let pos := tsm_pos c + 1 in
  if pos >=? zlen (tsm_values c) then '(l, k) ← load_next h (tsm_keyCursor c); Some (set_tsm l 0 (Some k) c)
  else Some (set_tsm (tsm_values c) pos (tsm_keyCursor c) c).

(** The loop of [Next]; [n] is [cap(c.t) - pos]. *)
Fixpoint asc_batch_loop (h : fileHeap) (n pos : nat) (b : batch A) : option (nat * batch A) :=
  match n with
  | O => Some (pos, b)
  | S n' =>
      let c := b_src b in
      '(tkey, tvalue) ← asc_batch_peekTSM c;
      if cache_pos c <? zlen (cache_values c) then
        '(ckey, cvalue) ← cache_item c;
        '(k, v, c) ← (if ckey =? tkey then c ← asc_batch_nextTSM h (asc_batch_nextCache c); Some (ckey, cvalue, c)
                      else if (ckey <? tkey) || (tkey =? tsdb_EOF) then Some (ckey, cvalue, asc_batch_nextCache c)
                      else c ← asc_batch_nextTSM h c; Some (tkey, tvalue, c));
        b ← b_store pos k v c b; asc_batch_loop h n' (S pos) b
      else if tkey =? tsdb_EOF then Some (pos, b)
      else c ← asc_batch_nextTSM h c; b ← b_store pos tkey tvalue c b; asc_batch_loop h n' (S pos) b
  end.

Definition asc_batch_Next (h : fileHeap) (b : batch A) : option (nat * batch A) := asc_batch_loop h (length (b_t b)) 0 b.

Context (DefaultMaxPointsPerBlock : nat).
Definition buffers (key : list Z) (c : sources A) : batch A := mkBatch c key (replicate DefaultMaxPointsPerBlock 0) (replicate DefaultMaxPointsPerBlock zero).

Definition newAscendingBatchCursor (h : fileHeap) (key : list Z) (seek : Z) (cacheValues : list Value) (k : KeyCursor) : option (batch A) :=
  '(l, k) ← load h k;
  Some (buffers key (mkSrc cacheValues (search_time (Value_UnixNano tsdb_EOF) cacheValues seek) l (search_time unixnano l seek) (Some k))).

Definition b_close (h : fileHeap) (b : batch A) : option (batch A * fileHeap) :=
  '(c, h) ← src_close h (b_src b); Some (mkBatch c (b_key b) (b_t b) (b_v b), h).

Definition ascending_batch_cursor : batch_cursor_of A := mkBatchCursor A newAscendingBatchCursor asc_batch_Next b_close.

(** ** Batches, descending *)

Definition desc_batch_peekTSM (c : sources A) : option (Z * A) := if tsm_pos c <? 0 then Some (tsdb_EOF, zero) else tsm_item c.
Definition desc_batch_nextCache (c : sources A) : sources A := if cache_pos c >=? 0 then set_cache_pos (cache_pos c - 1) c else c.
Definition desc_batch_nextTSM (h : fileHeap) (c : sources A) : option (sources A) :=
  let pos := tsm_pos c - 1 in
  if pos <? 0 then '(l, k) ← load_next h (tsm_keyCursor c); Some (set_tsm l (zlen l - 1) (Some k) c)
  else Some (set_tsm (tsm_values c) pos (tsm_keyCursor c) c).

Fixpoint desc_batch_loop (h : fileHeap) (n pos : nat) (b : batch A) : option (nat * batch A) :=
  match n with
  | O => Some (pos, b)
  | S n' =>
      let c := b_src b in
      '(tkey, tvalue) ← desc_batch_peekTSM c;
      if cache_pos c >=? 0 then
        '(ckey, cvalue) ← cache_item c;
        '(k, v, c) ← (if ckey =? tkey then c ← desc_batch_nextTSM h (desc_batch_nextCache c); Some (ckey, cvalue, c)
                      else if (ckey >? tkey) || (tkey =? tsdb_EOF) then Some (ckey, cvalue, desc_batch_nextCache c)
                      else c ← desc_batch_nextTSM h c; Some (tkey, tvalue, c));
        b ← b_store pos k v c b; desc_batch_loop h n' (S pos) b
      else if tkey =? tsdb_EOF then Some (pos, b)
      else c ← desc_batch_nextTSM h c; b ← b_store pos tkey tvalue c b; desc_batch_loop h n' (S pos) b
  end.

Definition desc_batch_Next (h : fileHeap) (b : batch A) : option (nat * batch A) := desc_batch_loop h (length (b_t b)) 0 b.

Definition newDescendingBatchCursor (h : fileHeap) (key : list Z) (seek : Z) (cacheValues : list Value) (k : KeyCursor) : option (batch A) :=
  cpos ← (if 0 <? zlen cacheValues then
            let c := mkSrc cacheValues (search_time (Value_UnixNano tsdb_EOF) cacheValues seek) ([] : list (tv A)) 0 (Some k) in
            if cache_pos c =? zlen cacheValues then Some (cache_pos c - 1)
            else '(t, _) ← cache_item c; Some (if negb (t =? seek) then cache_pos c - 1 else cache_pos c)
          else Some (-1));
  '(l, k) ← load h k;
  let c := mkSrc cacheValues cpos l (search_time unixnano l seek) (Some k) in
  tpos ← (if 0 <? zlen l then
            if tsm_pos c =? zlen l then Some (tsm_pos c - 1)
            else '(t, _) ← desc_batch_peekTSM c; Some (if negb (t =? seek) then tsm_pos c - 1 else tsm_pos c)
          else Some (-1));
  Some (buffers key (set_tsm l tpos (Some k) c)).

Definition descending_batch_cursor : batch_cursor_of A := mkBatchCursor A newDescendingBatchCursor desc_batch_Next b_close.

Definition typed_batch_cursor (ascending : bool) : batch_cursor_of A := if ascending then ascending_batch_cursor else descending_batch_cursor.

(** ** Batches up to a time *)

(** The loop that leaves out the end of a batch, from [k[:n]]. *)
Fixpoint strip (out : Z -> bool) (k : list Z) (n : nat) : nat :=
  match n with
  | O => O
  | S i => match k !! i with Some t => if out t then strip out k i else S i | None => S i end
  end.

(** The struct embeds a batch cursor; [Next] cuts what it answers. *)
Definition asc_range_Next (t : Z) (cur : batch_cursor_of A) (h : fileHeap) (b : batch A) : option (nat * batch A) :=
  '(n, b) ← bc_Next cur h b; Some (strip (fun k => k >? t) (b_t b) n, b).
Definition desc_range_Next (t : Z) (cur : batch_cursor_of A) (h : fileHeap) (b : batch A) : option (nat * batch A) :=
  '(n, b) ← bc_Next cur h b; Some (strip (fun k => k <? t) (b_t b) n, b).

Definition range_batch_cursor (time : Z) (asc : bool) (cur : batch_cursor_of A) : batch_cursor_of A :=
  mkBatchCursor A (bc_new cur) (if asc then asc_range_Next time cur else desc_range_Next time cur) (bc_Close cur).
End Template.

(** ** The five instances *)

Section Instances.
Context `{S8 : Simple8b} `{SN : Snappy} `{BS : BitStream} (q : decoders) (tsdb_EOF : Z) (DefaultMaxPointsPerBlock : nat).

Definition floatAscendingCursor : cursor_of Z := ascending_cursor 0 as_float tsdb_EOF (ReadFloatBlock q).
Definition floatDescendingCursor : cursor_of Z := descending_cursor 0 as_float tsdb_EOF (ReadFloatBlock q).
Definition newFloatCursor (ascending : bool) : cursor_of Z := if ascending then floatAscendingCursor else floatDescendingCursor.
Definition floatAscendingBatchCursor : batch_cursor_of Z := ascending_batch_cursor 0 as_float tsdb_EOF (ReadFloatBlock q) DefaultMaxPointsPerBlock.
Definition floatDescendingBatchCursor : batch_cursor_of Z := descending_batch_cursor 0 as_float tsdb_EOF (ReadFloatBlock q) DefaultMaxPointsPerBlock.
Definition newFloatBatchCursor (ascending : bool) : batch_cursor_of Z := if ascending then floatAscendingBatchCursor else floatDescendingBatchCursor.
Definition newFloatRangeBatchCursor (time : Z) (asc : bool) (cur : batch_cursor_of Z) : batch_cursor_of Z := range_batch_cursor time asc cur.

Definition integerAscendingCursor : cursor_of Z := ascending_cursor 0 as_integer tsdb_EOF (ReadIntegerBlock q).
Definition integerDescendingCursor : cursor_of Z := descending_cursor 0 as_integer tsdb_EOF (ReadIntegerBlock q).
Definition newIntegerCursor (ascending : bool) : cursor_of Z := if ascending then integerAscendingCursor else integerDescendingCursor.
Definition integerAscendingBatchCursor : batch_cursor_of Z := ascending_batch_cursor 0 as_integer tsdb_EOF (ReadIntegerBlock q) DefaultMaxPointsPerBlock.
Definition integerDescendingBatchCursor : batch_cursor_of Z := descending_batch_cursor 0 as_integer tsdb_EOF (ReadIntegerBlock q) DefaultMaxPointsPerBlock.
Definition newIntegerBatchCursor (ascending : bool) : batch_cursor_of Z := if ascending then integerAscendingBatchCursor else integerDescendingBatchCursor.
Definition newIntegerRangeBatchCursor (time : Z) (asc : bool) (cur : batch_cursor_of Z) : batch_cursor_of Z := range_batch_cursor time asc cur.

Definition unsignedAscendingCursor : cursor_of Z := ascending_cursor 0 as_unsigned tsdb_EOF (ReadUnsignedBlock q).
Definition unsignedDescendingCursor : cursor_of Z := descending_cursor 0 as_unsigned tsdb_EOF (ReadUnsignedBlock q).
Definition newUnsignedCursor (ascending : bool) : cursor_of Z := if ascending then unsignedAscendingCursor else unsignedDescendingCursor.
Definition unsignedAscendingBatchCursor : batch_cursor_of Z := ascending_batch_cursor 0 as_unsigned tsdb_EOF (ReadUnsignedBlock q) DefaultMaxPointsPerBlock.
Definition unsignedDescendingBatchCursor : batch_cursor_of Z := descending_batch_cursor 0 as_unsigned tsdb_EOF (ReadUnsignedBlock q) DefaultMaxPointsPerBlock.
Definition newUnsignedBatchCursor (ascending : bool) : batch_cursor_of Z := if ascending then unsignedAscendingBatchCursor else unsignedDescendingBatchCursor.
Definition newUnsignedRangeBatchCursor (time : Z) (asc : bool) (cur : batch_cursor_of Z) : batch_cursor_of Z := range_batch_cursor time asc cur.

Definition stringAscendingCursor : cursor_of (list Z) := ascending_cursor [] as_string tsdb_EOF (ReadStringBlock q).
Definition stringDescendingCursor : cursor_of (list Z) := descending_cursor [] as_string tsdb_EOF (ReadStringBlock q).
Definition newStringCursor (ascending : bool) : cursor_of (list Z) := if ascending then stringAscendingCursor else stringDescendingCursor.
Definition stringAscendingBatchCursor : batch_cursor_of (list Z) := ascending_batch_cursor [] as_string tsdb_EOF (ReadStringBlock q) DefaultMaxPointsPerBlock.
Definition stringDescendingBatchCursor : batch_cursor_of (list Z) := descending_batch_cursor [] as_string tsdb_EOF (ReadStringBlock q) DefaultMaxPointsPerBlock.
Definition newStringBatchCursor (ascending : bool) : batch_cursor_of (list Z) := if ascending then stringAscendingBatchCursor else stringDescendingBatchCursor.
Definition newStringRangeBatchCursor (time : Z) (asc : bool) (cur : batch_cursor_of (list Z)) : batch_cursor_of (list Z) := range_batch_cursor time asc cur.

Definition booleanAscendingCursor : cursor_of bool := ascending_cursor false as_boolean tsdb_EOF (ReadBooleanBlock q).
Definition booleanDescendingCursor : cursor_of bool := descending_cursor false as_boolean tsdb_EOF (ReadBooleanBlock q).
Definition newBooleanCursor (ascending : bool) : cursor_of bool := if ascending then booleanAscendingCursor else booleanDescendingCursor.
Definition booleanAscendingBatchCursor : batch_cursor_of bool := ascending_batch_cursor false as_boolean tsdb_EOF (ReadBooleanBlock q) DefaultMaxPointsPerBlock.
Definition booleanDescendingBatchCursor : batch_cursor_of bool := descending_batch_cursor false as_boolean tsdb_EOF (ReadBooleanBlock q) DefaultMaxPointsPerBlock.
Definition newBooleanBatchCursor (ascending : bool) : batch_cursor_of bool := if ascending then booleanAscendingBatchCursor else booleanDescendingBatchCursor.
Definition newBooleanRangeBatchCursor (time : Z) (asc : bool) (cur : batch_cursor_of bool) : batch_cursor_of bool := range_batch_cursor time asc cur.
End Instances.
