(* ===== verification/ValueCursorFacts.v ===== *)
(** * What the merging cursors give

    The cursors of [ValueCursor], one at a time and in batches, ascending and
    descending, against one specification: the rest of the cache and the rest of the
    files, merged with the cache winning. *)

From S2P Require Import Prelude Values Varint BoolCodec Simple8b TimeCodec IntCodec StringCodec BitReader FloatCodec ValueCodec Blocks TypedValues Bytes TSMWriter.
From S2P Require Import TSMIndex TSMReader KeyCursor ValueCursor.

(** ** Positions in a list *)

Section Ahead.
Context (asc : bool).

(** In the direction of the cursor: a list, what is left of it at a position, the
    position after one. *)
Definition in_dir {X} (l : list X) : list X := if asc then l else reverse l.
Definition ahead {X} (l : list X) (pos : Z) : list X := if asc then drop (Z.to_nat pos) l else reverse (take (Z.to_nat (pos + 1)) l).
Definition onward (pos : Z) : Z := if asc then pos + 1 else pos - 1.

Lemma ahead_cons {X} (l : list X) pos : 0 <= pos < zlen l -> exists x, at_pos l pos = Some x /\ ahead l pos = x :: ahead l (onward pos).
Proof.
  unfold zlen, at_pos, ahead, onward. intros H. destruct (Z.ltb_spec pos 0) as [Hlt|_]; [lia|]. destruct (lookup_lt_is_Some_2 l (Z.to_nat pos)) as [x E]; [lia|]. exists x. split; [exact E|]. destruct asc.
  - rewrite (drop_S l x (Z.to_nat pos) E). do 2 f_equal. lia.
  - replace (Z.to_nat (pos + 1)) with (S (Z.to_nat pos)) by lia. rewrite (take_S_r l _ x E), reverse_snoc. do 3 f_equal. lia.
Qed.

Lemma ahead_end {X} (l : list X) pos : (if asc then zlen l <= pos else pos < 0) -> ahead l pos = [].
Proof.
  unfold ahead, zlen. destruct asc; intros H; [apply drop_ge; lia|]. replace (Z.to_nat (pos + 1)) with 0%nat by lia. reflexivity.
Qed.

Lemma ahead_all {X} (l : list X) : ahead l (if asc then 0 else zlen l - 1) = in_dir l.
Proof. unfold ahead, in_dir, zlen. destruct asc; [reflexivity|]. f_equal. apply take_ge. lia. Qed.

(** ** Where a search ends *)

Section Search.
Context {X : Type} (time : X -> Z).

Lemma search_time_split l seek : increasing time l ->
  let p := search_time time l seek in
  0 <= p <= zlen l /\ Forall (fun x => time x < seek) (take (Z.to_nat p) l) /\ Forall (fun x => seek <= time x) (drop (Z.to_nat p) l).
Proof.
  intros Hi p. unfold search_time in p. set (f := fun i => match at_pos l i with Some x => time x >=? seek | None => false end) in p.
  destruct (Search_spec (zlen l) f (zlen_nonneg l)) as (Hp & Hlo & Hhi).
  { intros a b Hab Hb. unfold f, at_pos. destruct (Z.ltb_spec a 0); [lia|]. destruct (Z.ltb_spec b 0); [lia|]. unfold zlen in Hb.
    destruct (lookup_lt_is_Some_2 l (Z.to_nat a)) as [x Ex]; [lia|]. destruct (lookup_lt_is_Some_2 l (Z.to_nat b)) as [y Ey]; [lia|]. rewrite Ex, Ey. intros Hx.
    destruct (decide (a = b)) as [-> | Hne]; [congruence|]. pose proof (StronglySorted_lookup_lt _ l _ _ x y Hi Ex Ey ltac:(lia)) as Hlt. cbn in Hlt. lia. }
  fold p in Hp, Hlo, Hhi. split; [exact Hp|]. unfold f, at_pos in Hlo, Hhi. split; apply Forall_lookup; intros i x E.
  - apply lookup_take_Some in E as [E Hi']. specialize (Hlo (Z.of_nat i) ltac:(lia)). destruct (Z.ltb_spec (Z.of_nat i) 0); [lia|]. rewrite Nat2Z.id, E in Hlo. lia.
  - rewrite lookup_drop in E. pose proof (lookup_lt_Some _ _ _ E) as Hl. specialize (Hhi (p + Z.of_nat i) ltac:(unfold zlen in *; lia)). destruct (Z.ltb_spec (p + Z.of_nat i) 0); [lia|].
    replace (Z.to_nat (p + Z.of_nat i)) with (Z.to_nat p + i)%nat in Hhi by lia. rewrite E in Hhi. lia.
Qed.
End Search.
End Ahead.

(** ** The merge *)

Section Merge.
Context {X : Type} (time : X -> Z) (asc : bool).

Definition before (x y : X) : bool := if asc then time x <? time y else time x >? time y.

Fixpoint merged (rc : list X) : list X -> list X :=
  fix go (rt : list X) : list X :=
    match rc, rt with
    | [], _ => rt
    | _, [] => rc
    | x :: rc', y :: rt' =>
        if time x =? time y then x :: merged rc' rt' else if before x y then x :: merged rc' rt else y :: go rt'
    end.

Lemma merged_nil_l rt : merged [] rt = rt.
Proof. destruct rt; reflexivity. Qed.
Lemma merged_nil_r rc : merged rc [] = rc.
Proof. destruct rc; reflexivity. Qed.
Lemma merged_cons x rc y rt :
  merged (x :: rc) (y :: rt) = if time x =? time y then x :: merged rc rt else if before x y then x :: merged rc (y :: rt) else y :: merged (x :: rc) rt.
Proof. reflexivity. Qed.

(** Two rests have to be merged by what they begin with. *)
Lemma merged_ind (P : list X -> list X -> Prop) :
  (forall rt, P [] rt) -> (forall rc, P rc []) ->
  (forall x rc y rt, P rc rt -> P rc (y :: rt) -> P (x :: rc) rt -> P (x :: rc) (y :: rt)) -> forall rc rt, P rc rt.
Proof. intros H1 H2 H3 rc. induction rc as [|x rc IH]; [exact H1|]. intros rt. induction rt as [|y rt IHt]; [apply H2|]. apply H3; [apply IH|apply IH|exact IHt]. Qed.

Definition go_on : X -> X -> Prop := fun x y => before x y = true.
Abbreviation sorted := (StronglySorted go_on).

Lemma merged_in rc rt z : z ∈ merged rc rt -> z ∈ rc \/ z ∈ rt.
Proof.
  revert rc rt. apply (merged_ind (fun rc rt => z ∈ merged rc rt -> z ∈ rc \/ z ∈ rt)); [intros rt; rewrite merged_nil_l; auto|intros rc; rewrite merged_nil_r; auto|].
  intros x rc y rt H1 H2 H3. rewrite merged_cons. rewrite !elem_of_cons in *. destruct (time x =? time y); [|destruct (before x y)]; rewrite elem_of_cons; tauto.
Qed.

Lemma before_cases x y : time x <> time y -> before x y = false -> before y x = true.
Proof. unfold before. destruct asc; lia. Qed.
Lemma before_trans x y z : before x y = true -> before y z = true -> before x z = true.
Proof. unfold before. destruct asc; lia. Qed.
Lemma before_same x y z : time x = time y -> before x z = before y z.
Proof. unfold before. intros ->. reflexivity. Qed.
Lemma before_ne x y : before x y = true -> time x <> time y.
Proof. unfold before. destruct asc; lia. Qed.

Lemma sorted_ahead x l z : sorted (x :: l) -> z ∈ l -> before x z = true.
Proof. intros H Hz. apply StronglySorted_inv in H as [_ F]. rewrite Forall_forall in F. apply F, Hz. Qed.

(** In order, and exactly the first list with what it does not override of the
    second. *)
Lemma merged_spec rc rt : sorted rc -> sorted rt ->
  sorted (merged rc rt) /\ forall z, z ∈ merged rc rt <-> z ∈ rc \/ z ∈ rt /\ forall x, x ∈ rc -> time x <> time z.
Proof.
  revert rc rt. apply (merged_ind (fun rc rt => sorted rc -> sorted rt -> sorted (merged rc rt) /\ forall z, z ∈ merged rc rt <-> z ∈ rc \/ z ∈ rt /\ forall x, x ∈ rc -> time x <> time z)).
  - intros rt _ Ht. rewrite merged_nil_l. split; [exact Ht|]. intros z. split; [intros Hz; right; split; [exact Hz|]; intros x Hx; apply elem_of_nil in Hx as []|]. intros [Hz|[Hz _]]; [apply elem_of_nil in Hz as []|exact Hz].
  - intros rc Hc _. rewrite merged_nil_r. split; [exact Hc|]. intros z. split; [auto|]. intros [Hz|[Hz _]]; [exact Hz|apply elem_of_nil in Hz as []].
  - intros x rc y rt IH1 IH2 IH3 Hc Ht. pose proof (fun z => sorted_ahead x rc z Hc) as Ax. pose proof (fun z => sorted_ahead y rt z Ht) as Ay.
    pose proof (proj1 (StronglySorted_inv Hc)) as Hc'. pose proof (proj1 (StronglySorted_inv Ht)) as Ht'. rewrite merged_cons. destruct (Z.eqb_spec (time x) (time y)) as [E|E]; [|destruct (before x y) eqn:Eb].
    + destruct (IH1 Hc' Ht') as [S1 M1]. split.
      * constructor; [exact S1|]. apply Forall_forall. intros z Hz. apply merged_in in Hz as [Hz|Hz]; [apply Ax, Hz|]. unfold go_on. rewrite (before_same x y z E). apply Ay, Hz.
      * intros z. rewrite !elem_of_cons, M1. split.
        -- intros [-> | [Hz|[Hz Hn]]]; [auto|auto|]. right. split; [auto|]. intros u Hu. apply elem_of_cons in Hu as [-> | Hu]; [|apply Hn, Hu]. rewrite E. apply before_ne, Ay, Hz.
        -- intros [[-> | Hz]|[[-> | Hz] Hn]]; [auto|auto| |]; [exfalso; apply (Hn x); [left|exact E]|]. right. right. split; [exact Hz|]. intros u Hu. apply Hn. right. exact Hu.
    + destruct (IH2 Hc' Ht) as [S2 M2]. split.
      * constructor; [exact S2|]. apply Forall_forall. intros z Hz. apply merged_in in Hz as [Hz|Hz]; [apply Ax, Hz|]. apply elem_of_cons in Hz as [-> | Hz]; [exact Eb|]. eapply before_trans; [exact Eb|apply Ay, Hz].
      * intros z. rewrite !elem_of_cons, M2, !elem_of_cons. assert (forall u, u = y \/ u ∈ rt -> time x <> time u) as Hxu by (intros u [-> | Hu]; [exact E|apply before_ne; eapply before_trans; [exact Eb|apply Ay, Hu]]).
        split; [intros [-> | [Hz|[Hz Hn]]]; auto; right; split; [exact Hz|]; intros u Hu; apply elem_of_cons in Hu as [-> | Hu]; auto|].
        intros [[-> | Hz]|[Hz Hn]]; auto. right. right. split; [exact Hz|]. intros u Hu. apply Hn. right. exact Hu.
    + destruct (IH3 Hc Ht') as [S3 M3]. pose proof (before_cases x y E Eb) as Eb'. split.
      * constructor; [exact S3|]. apply Forall_forall. intros z Hz. apply merged_in in Hz as [Hz|Hz]; [|apply Ay, Hz]. apply elem_of_cons in Hz as [-> | Hz]; [exact Eb'|]. eapply before_trans; [exact Eb'|apply Ax, Hz].
      * intros z. rewrite !elem_of_cons, M3, !elem_of_cons. split; [|intros [[-> | Hz]|[[-> | Hz] Hn]]; auto].
        intros [-> | [Hz|[Hz Hn]]]; [|auto|auto]. right. split; [auto|]. intros u Hu. apply elem_of_cons in Hu as [-> | Hu]; [exact E|]. intros E'. apply (before_ne y u); [eapply before_trans; [exact Eb'|apply Ax, Hu]|congruence].
Qed.

(** Sorted in the direction is increasing when put in the order of time. *)
Lemma sorted_in_dir l : sorted l <-> increasing time (in_dir asc l).
Proof.
  assert (forall (R : X -> X -> Prop) l, StronglySorted R (reverse l) <-> StronglySorted (fun a b => R b a) l) as Hrev.
  { clear. intros R l. induction l as [|x l IH]; [split; constructor|]. rewrite reverse_cons. rewrite StronglySorted_app. split.
    - intros (H1 & H2 & _). constructor; [apply IH; exact H2 || apply IH; exact H1|]. apply Forall_forall. intros y Hy. apply H1 || apply H2; [rewrite elem_of_reverse; exact Hy|left].
    - intros H. apply StronglySorted_inv in H as [H F]. rewrite Forall_forall in F. split_and!; [|apply IH, H|repeat constructor]. intros a b Ha Hb. rewrite elem_of_reverse in Ha. apply list_elem_of_singleton in Hb as ->. apply F, Ha. }
  unfold increasing, in_dir, go_on, before. destruct asc; [|rewrite Hrev]; split; intros H; induction H as [|x l H IH F]; constructor; try exact IH; eapply Forall_impl; try exact F; cbn; intros; lia.
Qed.

(** As maps: the first overrides. *)
Lemma increasing_map_lookup l t v : increasing time l -> to_map time l !! t = Some v <-> v ∈ l /\ time v = t.
Proof.
  intros H. split.
  - intros E. split; [eapply to_map_elem; exact E|]. destruct (proj1 (to_map_dom time l t) ltac:(eauto)) as (u & Hu & Eu). pose proof (increasing_in_map time l u H Hu) as E'. rewrite Eu in E'. congruence.
  - intros [Hv <-]. apply increasing_in_map; assumption.
Qed.

Lemma in_dir_elem l (x : X) : x ∈ in_dir asc l <-> x ∈ l.
Proof. unfold in_dir. destruct asc; [reflexivity|apply elem_of_reverse]. Qed.

Lemma merged_map rc rt : sorted rc -> sorted rt ->
  increasing time (in_dir asc (merged rc rt)) /\ to_map time (in_dir asc (merged rc rt)) = to_map time (in_dir asc rc) ∪ to_map time (in_dir asc rt).
Proof.
  intros Hc Ht. destruct (merged_spec rc rt Hc Ht) as [Hs Hm]. apply sorted_in_dir in Hs, Hc, Ht. split; [exact Hs|]. apply map_eq. intros t. apply option_eq. intros v.
  rewrite lookup_union_Some_raw, !increasing_map_lookup by assumption. rewrite !in_dir_elem, Hm. split.
  - intros [[Hv|[Hv Hn]] E]; [auto|]. right. split; [|auto]. apply eq_None_not_Some. intros (u & Hu). apply increasing_map_lookup in Hu as [Hu Eu]; [|exact Hc]. apply (Hn u); [apply in_dir_elem, Hu|congruence].
  - intros [[Hv E]|[Hn [Hv E]]]; [auto|]. split; [|exact E]. right. split; [exact Hv|]. intros u Hu Eu. enough (is_Some (to_map time (in_dir asc rc) !! t)) as [w Hw] by congruence. exists u. apply increasing_map_lookup; [exact Hc|]. split; [apply in_dir_elem, Hu|congruence].
Qed.
End Merge.

(** ** The rest of a cursor *)

Section Sources.
Context {A : Type} (zero : A) (as_type : Value -> option (tv A)) (tsdb_EOF : Z).
Context (ReadBlock : fileHeap -> KeyCursor -> res werr (list (tv A)) * KeyCursor) (h : fileHeap) (asc : bool).
Context (as_time : forall v x, as_type v = Some x -> Value_UnixNano tsdb_EOF v = unixnano x).

(** The blocks a key cursor has left: read one, move on, until there is none. *)
Inductive reads : KeyCursor -> list (list (tv A)) -> Prop :=
| reads_end k k' : ReadBlock h k = (Ok [], k') -> reads k []
| reads_block k l k1 k2 ls : ReadBlock h k = (Ok l, k1) -> l <> [] -> kc_Next k1 = Some k2 -> reads k2 ls -> reads k (l :: ls).

Definition cache_at (c : sources A) (rc : list (tv A)) : Prop :=
  exists xs, mapM as_type (cache_values c) = Some xs /\ (if asc then 0 <= cache_pos c <= zlen xs else -1 <= cache_pos c < zlen xs) /\ rc = ahead asc xs (cache_pos c).

(** The block in hand, then the blocks to come. *)
Definition tsm_at (c : sources A) (rt : list (tv A)) : Prop :=
  tsm_values c = [] /\ rt = [] /\ (if asc then 0 <= tsm_pos c else tsm_pos c < 0)
  \/ exists k k' ls, tsm_keyCursor c = Some k /\ kc_Next k = Some k' /\ reads k' ls /\ 0 <= tsm_pos c < zlen (tsm_values c)
       /\ rt = ahead asc (tsm_values c) (tsm_pos c) ++ concat (map (in_dir asc) ls).

Definition point (x : tv A) : Z * A := (unixnano x, value x).
Definition peeked (r : list (tv A)) : Z * A := match r with [] => (tsdb_EOF, zero) | x :: _ => point x end.

Lemma zlen_mapM xs (l : list Value) : mapM as_type l = Some xs -> zlen l = zlen xs.
Proof. intros H. unfold zlen. apply mapM_Some in H. rewrite (Forall2_length _ _ _ H). reflexivity. Qed.

Lemma cache_head c x rc : cache_at c (x :: rc) -> cache_item as_type tsdb_EOF c = Some (point x) /\ 0 <= cache_pos c < zlen (cache_values c).
Proof.
  intros (xs & Em & Hp & E). pose proof (zlen_mapM xs _ Em) as El. assert (0 <= cache_pos c < zlen xs) as Hb.
  { destruct (decide (0 <= cache_pos c < zlen xs)) as [H|H]; [exact H|]. rewrite (ahead_end asc xs) in E by (destruct asc; lia). discriminate. }
  rewrite El. split; [|exact Hb]. destruct (ahead_cons asc xs _ Hb) as (y & Ey & Ea). rewrite Ea in E. injection E as -> _. unfold cache_item, at_pos in *. destruct (cache_pos c <? 0); [discriminate|].
  apply mapM_Some in Em. destruct (Forall2_lookup_r _ _ _ _ _ Em Ey) as (v & -> & Ev). cbn. rewrite Ev. cbn. rewrite (as_time v y Ev). reflexivity.
Qed.

Lemma cache_nil c : cache_at c [] -> if asc then zlen (cache_values c) <= cache_pos c else cache_pos c < 0.
Proof.
  intros (xs & Em & Hp & E). rewrite (zlen_mapM xs _ Em). destruct (decide (0 <= cache_pos c < zlen xs)) as [H|H]; [|destruct asc; lia].
  destruct (ahead_cons asc xs _ H) as (y & _ & Ea). congruence.
Qed.

Lemma cache_moves c x rc : cache_at c (x :: rc) -> cache_at (set_cache_pos (onward asc (cache_pos c)) c) rc.
Proof.
  intros H. destruct (cache_head c x rc H) as [_ Hb]. destruct H as (xs & Em & Hp & E). rewrite (zlen_mapM xs _ Em) in Hb. exists xs. split; [exact Em|]. cbn. split; [unfold onward; destruct asc; lia|].
  destruct (ahead_cons asc xs _ Hb) as (y & _ & Ea). congruence.
Qed.

Lemma tsm_head c x rt : tsm_at c (x :: rt) -> tsm_item c = Some (point x) /\ 0 <= tsm_pos c < zlen (tsm_values c).
Proof.
  intros [(_ & [=] & _)|(k & k' & ls & _ & _ & _ & Hb & E)]. split; [|exact Hb]. destruct (ahead_cons asc _ _ Hb) as (y & Ey & Ea). rewrite Ea in E. injection E as -> _. unfold tsm_item. rewrite Ey. reflexivity.
Qed.

Lemma tsm_nil c : tsm_at c [] -> tsm_values c = [] /\ if asc then 0 <= tsm_pos c else tsm_pos c < 0.
Proof. intros [(H & _ & Hp)|(k & k' & ls & _ & _ & _ & Hb & E)]; [auto|]. destruct (ahead_cons asc _ _ Hb) as (y & _ & Ea). rewrite Ea in E. discriminate. Qed.

(** Where a block is entered. *)
Definition entry_pos (l : list (tv A)) : Z := if asc then 0 else zlen l - 1.

(** After the last value of a block the next block is read. *)
Lemma load_spec k ls c : reads k ls ->
  exists l k', load ReadBlock h k = Some (l, k') /\ (l = [] -> ls = []) /\
    forall pos, pos = entry_pos l \/ l = [] /\ (if asc then 0 <= pos else pos < 0) -> tsm_at (set_tsm l pos (Some k') c) (concat (map (in_dir asc) ls)).
Proof.
  intros [k0 k' E|k0 l k1 k2 ls' E Hne En Hr]; unfold load; rewrite E.
  - exists [], k'. split; [reflexivity|]. split; [auto|]. intros pos Hp. left. cbn. split; [reflexivity|]. split; [reflexivity|]. destruct Hp as [-> | [_ Hp]]; [unfold entry_pos; destruct asc; [lia|reflexivity]|exact Hp].
  - exists l, k1. split; [reflexivity|]. split; [congruence|]. intros pos Hp. right. exists k1, k2, ls'. cbn. split; [reflexivity|]. split; [exact En|]. split; [exact Hr|].
    destruct Hp as [-> | [Hp _]]; [|congruence]. split; [destruct l; [congruence|]; unfold entry_pos; destruct asc; zlen_lia|]. unfold entry_pos. rewrite ahead_all. reflexivity.
Qed.

(** [nextTSM] within a block, and at its end. *)
Lemma tsm_next c x rt : tsm_at c (x :: rt) ->
  (0 <= onward asc (tsm_pos c) < zlen (tsm_values c) /\ tsm_at (set_tsm (tsm_values c) (onward asc (tsm_pos c)) (tsm_keyCursor c) c) rt)
  \/ ((if asc then zlen (tsm_values c) <= tsm_pos c + 1 else tsm_pos c - 1 < 0)
      /\ exists l k', load_next ReadBlock h (tsm_keyCursor c) = Some (l, k')
         /\ forall pos, pos = entry_pos l \/ l = [] /\ (if asc then 0 <= pos else pos < 0) -> tsm_at (set_tsm l pos (Some k') c) rt).
Proof.
  intros [(_ & [=] & _)|(k & k' & ls & Ek & En & Hr & Hb & E)]. destruct (ahead_cons asc _ _ Hb) as (y & _ & Ea). rewrite Ea in E. injection E as -> ->.
  destruct (decide (0 <= onward asc (tsm_pos c) < zlen (tsm_values c))) as [H|H]; [left|right].
  - split; [exact H|]. right. exists k, k', ls. cbn. auto.
  - split; [unfold onward in H; destruct asc; lia|]. rewrite ahead_end by (unfold onward in *; destruct asc; lia). cbn [app].
    unfold load_next. rewrite Ek. cbn. rewrite En. cbn. destruct (load_spec k' ls c Hr) as (l & k2 & El & _ & Ht). exists l, k2. auto.
Qed.

Lemma cache_set_tsm c rc l p k : cache_at c rc -> cache_at (set_tsm l p k c) rc.
Proof. exact id. Qed.
Lemma tsm_set_cache c rt p : tsm_at c rt -> tsm_at (set_cache_pos p c) rt.
Proof. exact id. Qed.
End Sources.

(** ** One at a time *)

Section Single.
Context {A : Type} (zero : A) (as_type : Value -> option (tv A)) (tsdb_EOF : Z).
Context (ReadBlock : fileHeap -> KeyCursor -> res werr (list (tv A)) * KeyCursor) (h : fileHeap) (asc : bool).
Context (as_time : forall v x, as_type v = Some x -> Value_UnixNano tsdb_EOF v = unixnano x).

Abbreviation cache_at := (cache_at as_type asc).
Abbreviation tsm_at := (tsm_at ReadBlock h asc).
Abbreviation peeked := (peeked zero tsdb_EOF).
Abbreviation cur := (typed_cursor zero as_type tsdb_EOF ReadBlock asc).

Lemma peek_cache c rc : cache_at c rc -> (if asc then asc_peekCache zero as_type tsdb_EOF c else desc_peekCache zero as_type tsdb_EOF c) = Some (peeked rc).
Proof.
  intros H. destruct rc as [|x rc].
  - apply cache_nil in H. unfold asc_peekCache, desc_peekCache. destruct asc; zcases; try lia; reflexivity.
  - destruct (cache_head as_type tsdb_EOF asc as_time c x rc H) as [E Hb]. unfold asc_peekCache, desc_peekCache. rewrite E. destruct asc; zcases; try lia; reflexivity.
Qed.

Lemma peek_tsm c rt : tsm_at c rt -> asc_peekTSM zero tsdb_EOF c = Some (peeked rt).
Proof.
  intros H. unfold asc_peekTSM. destruct rt as [|x rt].
  - apply tsm_nil in H as [-> H]. unfold zlen; cbn [length]; destruct asc; zcases; try lia; reflexivity.
  - destruct (tsm_head ReadBlock h asc c x rt H) as [-> Hb]. zcases; try lia; reflexivity.
Qed.

Lemma next_cache c x rc : cache_at c (x :: rc) -> (if asc then asc_nextCache c else desc_nextCache c) = set_cache_pos (onward asc (cache_pos c)) c.
Proof. intros H. destruct (cache_head as_type tsdb_EOF asc as_time c x rc H) as [_ Hb]. unfold asc_nextCache, desc_nextCache, onward. destruct asc; zcases; try lia; reflexivity. Qed.

Lemma next_tsm c x rt : tsm_at c (x :: rt) ->
  exists l p k, (if asc then asc_nextTSM ReadBlock h c else desc_nextTSM ReadBlock h c) = Some (set_tsm l p k c) /\ tsm_at (set_tsm l p k c) rt.
Proof.
  intros H. destruct (tsm_head ReadBlock h asc c x rt H) as [_ Hb]. unfold asc_nextTSM, desc_nextTSM. destruct (tsm_next ReadBlock h asc c x rt H) as [[Hp Ht]|(Hp & l & k' & El & Ht)].
  - exists (tsm_values c), (onward asc (tsm_pos c)), (tsm_keyCursor c). split; [|exact Ht]. unfold onward in *. destruct asc; zcases; try lia; reflexivity.
  - rewrite El. exists l, (if zlen l =? 0 then onward asc (tsm_pos c) else entry_pos asc l), (Some k'). split; [unfold onward, entry_pos; destruct asc; cbn; zcases; try lia; reflexivity|].
    apply Ht. destruct l as [|y l]; [right|left].
    + split; [reflexivity|]. change (zlen (@nil (tv A)) =? 0) with true. unfold onward. destruct asc; lia.
    + destruct (Z.eqb_spec (zlen (y :: l)) 0); [zlen_lia|reflexivity].
Qed.

Definition src_at (c : sources A) (rc rt : list (tv A)) : Prop := cache_at c rc /\ tsm_at c rt.
Definition no_eof (r : list (tv A)) : Prop := Forall (fun x => unixnano x <> tsdb_EOF) r.

(** One call of [nextFloat]: the head of the merge. *)
Lemma next_spec c rc rt : src_at c rc rt -> no_eof rc -> no_eof rt ->
  match merged unixnano asc rc rt with
  | [] => cur_next cur h c = Some ((tsdb_EOF, zero), c)
  | x :: l => exists c' rc' rt', cur_next cur h c = Some (point x, c') /\ src_at c' rc' rt' /\ no_eof rc' /\ no_eof rt' /\ merged unixnano asc rc' rt' = l
  end.
Proof.
  intros [Hc Ht] Nc Nt. pose proof (peek_cache c rc Hc) as Pc. pose proof (peek_tsm c rt Ht) as Pt.
  assert (forall x rc', rc = x :: rc' -> exists c', (if asc then asc_nextCache c else desc_nextCache c) = c' /\ unixnano x <> tsdb_EOF /\ no_eof rc' /\ cache_at c' rc' /\ tsm_at c' rt) as Mc.
  { intros x rc' ->. apply Forall_cons in Nc as [Nx Nc]. eexists. split; [apply (next_cache c x rc' Hc)|]. split; [exact Nx|]. split; [exact Nc|]. split; [apply (cache_moves as_type tsdb_EOF asc as_time c x rc' Hc)|exact Ht]. }
  assert (forall c0 y rt' rc0, rt = y :: rt' -> cache_at c0 rc0 -> tsm_at c0 rt ->
    exists c', (if asc then asc_nextTSM ReadBlock h c0 else desc_nextTSM ReadBlock h c0) = Some c' /\ unixnano y <> tsdb_EOF /\ no_eof rt' /\ cache_at c' rc0 /\ tsm_at c' rt') as Mt.
  { intros c0 y rt' rc0 -> H1 H2. apply Forall_cons in Nt as [Ny Nt]. destruct (next_tsm c0 y rt' H2) as (l & p & k & E & H3). exists (set_tsm l p k c0). auto. }
  assert (forall x rc' y rt', rc = x :: rc' -> rt = y :: rt' -> exists c', (if asc then asc_nextTSM ReadBlock h (asc_nextCache c) else desc_nextTSM ReadBlock h (desc_nextCache c)) = Some c'
    /\ unixnano x <> tsdb_EOF /\ unixnano y <> tsdb_EOF /\ no_eof rc' /\ no_eof rt' /\ cache_at c' rc' /\ tsm_at c' rt') as Mb.
  { intros x rc' y rt' Ex Ey. destruct (Mc x rc' Ex) as (c1 & E1 & Nx & Nc' & H1 & H2). destruct (Mt c1 y rt' rc' Ey H1 H2) as (c2 & E2 & Ny & Nt' & H3 & H4). exists c2. rewrite <- E1 in E2. destruct asc; auto 10. }
  destruct rc as [|x rc]; destruct rt as [|y rt]; rewrite ?merged_nil_l, ?merged_nil_r, ?merged_cons.
  - destruct asc; cbn; unfold asc_next, desc_next, desc_peekTSM; rewrite Pc, Pt; cbn; rewrite Z.eqb_refl; reflexivity.
  - destruct (Mt c y rt [] eq_refl Hc Ht) as (c' & E & Ny & Nt' & H1 & H2). exists c', [], rt. rewrite merged_nil_l. split; [|repeat split; auto].
    destruct asc; cbn; unfold asc_next, desc_next, desc_peekTSM; rewrite Pc, Pt; cbn; rewrite Z.eqb_refl; cbn; destruct (Z.eqb_spec (unixnano y) tsdb_EOF); try congruence; destruct (Z.eqb_spec tsdb_EOF (unixnano y)); try congruence; cbn; rewrite E; reflexivity.
  - destruct (Mc x rc eq_refl) as (c' & E & Nx & Nc' & H1 & H2). exists c', rc, []. rewrite merged_nil_r. split; [|repeat split; auto].
    destruct asc; cbn; unfold asc_next, desc_next, desc_peekTSM; rewrite Pc, Pt; cbn; rewrite Z.eqb_refl; cbn; destruct (Z.eqb_spec (unixnano x) tsdb_EOF); try congruence; cbn; rewrite orb_true_r, E; reflexivity.
  - destruct (Mb x rc y rt eq_refl eq_refl) as (c2 & E2 & Nx & Ny & Nc' & Nt' & H3 & H4). destruct (Mc x rc eq_refl) as (c1 & E1 & _ & _ & H1 & H2). destruct (Mt c y rt (x :: rc) eq_refl Hc Ht) as (c3 & E3 & _ & _ & H5 & H6).
    assert (cur_next cur h c
      = if unixnano x =? unixnano y then Some (point x, c2) else if before unixnano asc x y then Some (point x, c1) else Some (point y, c3)) as ->.
    { unfold before. destruct asc; cbn; unfold asc_next, desc_next, desc_peekTSM; rewrite Pc, Pt; cbn; destruct (Z.eqb_spec (unixnano x) tsdb_EOF); try congruence; cbn; destruct (Z.eqb_spec (unixnano y) tsdb_EOF); try congruence;
        rewrite ?orb_false_r, E2, E3, E1; reflexivity. }
    destruct (unixnano x =? unixnano y); [|destruct (before unixnano asc x y)]; [exists c2, rc, rt|exists c1, rc, (y :: rt)|exists c3, (x :: rc), rt]; repeat split; auto.
Qed.

(** Calls until the end. *)
Fixpoint cur_drain (fuel : nat) (c : sources A) : option (list (Z * A)) :=
  match fuel with
  | O => None
  | S fuel' => '((t, v), c) ← cur_next cur h c; if t =? tsdb_EOF then Some [] else l ← cur_drain fuel' c; Some ((t, v) :: l)
  end.

Lemma merged_no_eof rc rt : no_eof rc -> no_eof rt -> no_eof (merged unixnano asc rc rt).
Proof. unfold no_eof. rewrite !Forall_forall. intros H1 H2 x Hx. apply merged_in in Hx as [Hx|Hx]; auto. Qed.

Lemma cur_drain_spec fuel c rc rt : src_at c rc rt -> no_eof rc -> no_eof rt -> (length (merged unixnano asc rc rt) < fuel)%nat ->
  cur_drain fuel c = Some (map point (merged unixnano asc rc rt)).
Proof.
  revert c rc rt. induction fuel as [|fuel IH]; intros c rc rt H Nc Nt Hf; [lia|]. cbn [cur_drain]. pose proof (next_spec c rc rt H Nc Nt) as Hn. pose proof (merged_no_eof rc rt Nc Nt) as Nm.
  destruct (merged unixnano asc rc rt) as [|x l] eqn:E.
  - rewrite Hn. cbn. rewrite Z.eqb_refl. reflexivity.
  - destruct Hn as (c' & rc' & rt' & -> & H' & Nc' & Nt' & <-). cbn. apply Forall_cons in Nm as [Nx _]. destruct (Z.eqb_spec (unixnano x) tsdb_EOF); [congruence|]. rewrite (IH c' rc' rt') by (auto; cbn in Hf; lia). reflexivity.
Qed.
End Single.

(** ** Where a cursor starts *)

Lemma Search_loop_ext fuel f g i j : (forall a, f a = g a) -> Search_loop fuel f i j = Search_loop fuel g i j.
Proof. intros H. revert i j. induction fuel as [|fuel IH]; intros i j; [reflexivity|]. cbn. rewrite H, !IH. reflexivity. Qed.

Section Start.
Context {X : Type} (time : X -> Z).

Definition on_side (asc : bool) (seek : Z) (x : X) : bool := if asc then seek <=? time x else time x <=? seek.

Lemma filter_split (p : X -> bool) n l : Forall (fun x => p x = false) (take n l) -> List.filter p l = List.filter p (drop n l).
Proof. intros H. rewrite <- (take_drop n l) at 1. rewrite List.filter_app, filter_none by exact H. reflexivity. Qed.

Lemma search_up l seek : increasing time l -> let p := search_time time l seek in 0 <= p <= zlen l /\ ahead true l p = List.filter (on_side true seek) l.
Proof.
  intros Hi. destruct (search_time_split time l seek Hi) as (Hp & Hlo & Hhi). split; [exact Hp|]. unfold ahead. set (n := Z.to_nat _) in *. rewrite (filter_split _ n l).
  - rewrite filter_all; [reflexivity|]. eapply Forall_impl; [exact Hhi|]. intros x Hx. cbn in *. lia.
  - eapply Forall_impl; [exact Hlo|]. intros x Hx. cbn in *. lia.
Qed.

(** Descending, the position goes back by one unless it is exactly at [seek]. *)
Lemma search_down l seek t : increasing time l -> let p := search_time time l seek in
  (forall x, at_pos l p = Some x -> t = time x) -> (p = zlen l -> t <> seek) ->
  let p' := if negb (t =? seek) then p - 1 else p in -1 <= p' < zlen l /\ ahead false l p' = reverse (List.filter (on_side false seek) l).
Proof.
  intros Hi p Ht He. destruct (search_time_split time l seek Hi) as (Hp & Hlo & Hhi). fold p in Hp, Hlo, Hhi. set (n := Z.to_nat p) in *.
  assert (List.filter (on_side false seek) l = take n l ++ List.filter (on_side false seek) (drop n l)) as E.
  { rewrite <- (take_drop n l) at 1. rewrite List.filter_app. f_equal. apply filter_all. eapply Forall_impl; [exact Hlo|]. intros x Hx. cbn in *. lia. }
  pose proof Hi as Hd. rewrite <- (take_drop n l) in Hd. apply StronglySorted_app in Hd as (_ & _ & Hd). unfold ahead.
  destruct (decide (p = zlen l)) as [El|El].
  - specialize (He El). destruct (Z.eqb_spec t seek); [congruence|]. cbn [negb]. split; [lia|]. replace (p - 1 + 1) with p by lia. fold n. f_equal. rewrite E, (drop_ge l n) by (unfold zlen in *; lia). cbn. rewrite app_nil_r. reflexivity.
  - destruct (lookup_lt_is_Some_2 l n) as [x Ex]; [unfold zlen in *; lia|]. specialize (Ht x). unfold at_pos in Ht. destruct (Z.ltb_spec p 0); [lia|]. fold n in Ht. rewrite (Ht Ex) in *. rewrite (drop_S l x n Ex) in *.
    apply Forall_cons in Hhi as [Hx Hhi]. apply StronglySorted_inv in Hd as [_ Hd].
    assert (List.filter (on_side false seek) (x :: drop (S n) l) = if time x =? seek then [x] else []) as Ef.
    { cbn. rewrite (filter_none _ (drop (S n) l)) by (eapply Forall_impl; [exact Hd|]; intros z Hz; cbn in *; lia). destruct (Z.leb_spec (time x) seek); destruct (Z.eqb_spec (time x) seek); lia || reflexivity. }
    rewrite E, Ef. destruct (Z.eqb_spec (time x) seek); cbn [negb]; (split; [lia|]); f_equal.
    + replace (Z.to_nat (p + 1)) with (S n) by lia. apply take_S_r, Ex.
    + replace (p - 1 + 1) with p by lia. rewrite app_nil_r. reflexivity.
Qed.

(** In a block that lies on the side of [seek] the whole block is ahead. *)
Lemma search_up_all l seek : increasing time l -> Forall (fun x => on_side true seek x = true) l -> search_time time l seek = 0.
Proof.
  intros Hi F. destruct (search_time_split time l seek Hi) as (Hp & Hlo & _). destruct (Z.to_nat (search_time time l seek)) eqn:E; [lia|]. destruct l as [|x l]; [change (zlen (@nil X)) with 0 in Hp; lia|].
  cbn in Hlo. apply Forall_cons in Hlo as [Hlo _]. apply Forall_cons in F as [F _]. cbn in F. lia.
Qed.

Lemma search_down_all l seek t : increasing time l -> Forall (fun x => on_side false seek x = true) l -> let p := search_time time l seek in
  (forall x, at_pos l p = Some x -> t = time x) -> (p = zlen l -> t <> seek) -> (if negb (t =? seek) then p - 1 else p) = zlen l - 1.
Proof.
  intros Hi F p Ht He. destruct (search_down l seek t Hi Ht He) as [Hb E]. fold p in Hb, E. rewrite (filter_all (on_side false seek) l F) in E. unfold ahead in E. apply (f_equal (@length X)) in E.
  rewrite !length_reverse, length_take in E. unfold zlen in *. lia.
Qed.
End Start.

Lemma search_mapM {A} (as_type : Value -> option (tv A)) (tsdb_EOF : Z) l xs seek :
  (forall v x, as_type v = Some x -> Value_UnixNano tsdb_EOF v = unixnano x) -> mapM as_type l = Some xs -> search_time (Value_UnixNano tsdb_EOF) l seek = search_time unixnano xs seek.
Proof.
  intros Ht Hm. unfold search_time, Search. rewrite (zlen_mapM as_type xs l Hm). apply Search_loop_ext. intros i. unfold at_pos. destruct (i <? 0); [reflexivity|]. apply mapM_Some in Hm.
  destruct (l !! Z.to_nat i) as [v|] eqn:E.
  - destruct (Forall2_lookup_l _ _ _ _ _ Hm E) as (x & -> & Ex). rewrite (Ht v x Ex). reflexivity.
  - apply lookup_ge_None in E. rewrite (Forall2_length _ _ _ Hm) in E. rewrite (proj2 (lookup_ge_None xs _)) by exact E. reflexivity.
Qed.

Section New.
Context {A : Type} (zero : A) (as_type : Value -> option (tv A)) (tsdb_EOF : Z).
Context (ReadBlock : fileHeap -> KeyCursor -> res werr (list (tv A)) * KeyCursor) (h : fileHeap) (asc : bool).
Context (as_time : forall v x, as_type v = Some x -> Value_UnixNano tsdb_EOF v = unixnano x).

(** What a cursor is given: sorted values of its type from the cache, and a key
    cursor whose first block lies on the side of [seek]. *)
Record given (seek : Z) (cacheValues : list Value) (xs : list (tv A)) (k : KeyCursor) (ls : list (list (tv A))) : Prop := {
  gv_cache : mapM as_type cacheValues = Some xs; gv_inc : increasing unixnano xs; gv_reads : reads ReadBlock h k ls;
  gv_first : match ls with [] => True | l :: _ => increasing unixnano l /\ Forall (fun x => on_side unixnano asc seek x = true) l end }.

(** What it has ahead of it. *)
Definition rest_cache (seek : Z) (xs : list (tv A)) : list (tv A) := in_dir asc (List.filter (on_side unixnano asc seek) xs).
Definition rest_tsm (ls : list (list (tv A))) : list (tv A) := concat (map (in_dir asc) ls).

Lemma loaded seek cacheValues xs k ls c : given seek cacheValues xs k ls ->
  exists l k', load ReadBlock h k = Some (l, k') /\ increasing unixnano l /\ Forall (fun x => on_side unixnano asc seek x = true) l
    /\ forall pos, pos = entry_pos asc l \/ l = [] /\ (if asc then 0 <= pos else pos < 0) -> tsm_at ReadBlock h asc (set_tsm l pos (Some k') c) (rest_tsm ls).
Proof.
  intros [_ _ Hr Hf]. destruct (load_spec ReadBlock h asc k ls c Hr) as (l & k' & El & Hn & Ht). exists l, k'. split; [exact El|].
  assert (increasing unixnano l /\ Forall (fun x => on_side unixnano asc seek x = true) l) as [H1 H2].
  { destruct Hr as [k0 k1 E|k0 l0 k1 k2 ls' E Hne En Hr]; unfold load in El; rewrite E in El; injection El as <- _; [split; constructor|exact Hf]. }
  auto.
Qed.

Lemma cache_item_at c xs p : mapM as_type (cache_values c) = Some xs -> cache_pos c = p -> 0 <= p < zlen xs -> exists x, at_pos xs p = Some x /\ cache_item as_type tsdb_EOF c = Some (point x).
Proof.
  intros Hm <- Hp. destruct (ahead_cons true xs _ Hp) as (x & Ex & _). exists x. split; [exact Ex|]. unfold cache_item, at_pos in *. destruct (cache_pos c <? 0); [discriminate|]. apply mapM_Some in Hm.
  destruct (Forall2_lookup_r _ _ _ _ _ Hm Ex) as (v & -> & Ev). cbn. rewrite Ev. cbn. rewrite (as_time v x Ev). reflexivity.
Qed.

Lemma tsm_item_at (c : sources A) p : tsm_pos c = p -> 0 <= p < zlen (tsm_values c) -> exists x, at_pos (tsm_values c) p = Some x /\ tsm_item c = Some (point x).
Proof. intros <- Hp. destruct (ahead_cons true _ _ Hp) as (x & Ex & _). exists x. split; [exact Ex|]. unfold tsm_item. rewrite Ex. reflexivity. Qed.

Lemma new_up seek cacheValues xs k ls : asc = true -> given seek cacheValues xs k ls ->
  exists l k', load ReadBlock h k = Some (l, k')
    /\ src_at as_type ReadBlock h asc (mkSrc cacheValues (search_time (Value_UnixNano tsdb_EOF) cacheValues seek) l (search_time unixnano l seek) (Some k')) (rest_cache seek xs) (rest_tsm ls).
Proof.
  intros Ea G. set (c0 := mkSrc cacheValues (search_time (Value_UnixNano tsdb_EOF) cacheValues seek) ([] : list (tv A)) 0 None). destruct (loaded seek cacheValues xs k ls c0 G) as (l & k' & El & Hi & Hs & Ht). exists l, k'. split; [exact El|]. split.
  - exists xs. cbn [cache_values cache_pos]. split; [apply G|]. rewrite (search_mapM as_type tsdb_EOF cacheValues xs seek as_time) by apply G. destruct (search_up unixnano xs seek (gv_inc _ _ _ _ _ G)) as [Hp E]. unfold rest_cache, in_dir. rewrite Ea in *. auto.
  - rewrite Ea in *. rewrite (search_up_all unixnano l seek Hi Hs). apply (Ht 0). left. reflexivity.
Qed.

(** What is found at the position of a search: the end, or a value. *)
Definition probes {X} (time : X -> Z) (l : list X) (seek t : Z) : Prop :=
  let p := search_time time l seek in (forall x, at_pos l p = Some x -> t = time x) /\ (p = zlen l -> t <> seek).

Lemma probes_end (l : list (tv A)) seek t : search_time unixnano l seek = zlen l -> t <> seek -> probes unixnano l seek t.
Proof.
  intros E Ne. split; [|auto]. intros x Hx. rewrite E in Hx. unfold at_pos in Hx. destruct (zlen l <? 0); [discriminate|]. apply lookup_lt_Some in Hx. unfold zlen in Hx. lia.
Qed.

Lemma probes_at (l : list (tv A)) seek x : at_pos l (search_time unixnano l seek) = Some x -> probes unixnano l seek (unixnano x).
Proof.
  intros E. split; [congruence|]. intros Ep. rewrite Ep in E. unfold at_pos in E. destruct (zlen l <? 0); [discriminate|]. apply lookup_lt_Some in E. unfold zlen in E. lia.
Qed.

Lemma probe_cache seek cacheValues xs k : mapM as_type cacheValues = Some xs -> increasing unixnano xs -> seek <> tsdb_EOF ->
  exists t v, desc_peekCache zero as_type tsdb_EOF (mkSrc cacheValues (search_time (Value_UnixNano tsdb_EOF) cacheValues seek) [] 0 k) = Some (t, v) /\ probes unixnano xs seek t.
Proof.
  intros Hm Hx Ne. set (c0 := mkSrc _ _ _ _ _). pose proof (search_mapM as_type tsdb_EOF cacheValues xs seek as_time Hm) as Ep. pose proof (zlen_mapM as_type xs _ Hm) as Ez. destruct (search_time_split unixnano xs seek Hx) as (Hp & _ & _).
  unfold desc_peekCache. cbn [cache_pos cache_values c0]. rewrite Ep, Ez. destruct (decide (search_time unixnano xs seek = zlen xs)) as [E|E].
  - exists tsdb_EOF, zero. split; [zcases; lia || reflexivity|]. apply probes_end; auto.
  - destruct (cache_item_at c0 xs _ Hm Ep) as (x & Ex & Ei); [lia|]. exists (unixnano x), (value x). split; [|apply probes_at, Ex]. zcases; try lia. exact Ei.
Qed.

Lemma probe_tsm seek l k (c : sources A) : increasing unixnano l -> seek <> tsdb_EOF ->
  exists t v, desc_peekTSM zero tsdb_EOF (set_tsm l (search_time unixnano l seek) k c) = Some (t, v) /\ probes unixnano l seek t.
Proof.
  intros Hi Ne. set (c0 := set_tsm _ _ _ _). destruct (search_time_split unixnano l seek Hi) as (Hp & _ & _).
  unfold desc_peekTSM, asc_peekTSM. cbn [tsm_pos tsm_values c0 set_tsm]. destruct (decide (search_time unixnano l seek = zlen l)) as [E|E].
  - exists tsdb_EOF, zero. split; [zcases; lia || reflexivity|]. apply probes_end; auto.
  - destruct (tsm_item_at c0 _ eq_refl) as (x & Ex & Ei); [cbn [tsm_pos tsm_values c0 set_tsm]; lia|]. exists (unixnano x), (value x). split; [|apply probes_at, Ex]. zcases; try lia. exact Ei.
Qed.

(** Descending, with the positions moved back where they have to be. *)
Lemma new_down seek cacheValues xs k ls t t' l k' : asc = false -> given seek cacheValues xs k ls -> load ReadBlock h k = Some (l, k') -> probes unixnano xs seek t -> probes unixnano l seek t' ->
  let p := search_time unixnano xs seek in let p' := search_time unixnano l seek in
  src_at as_type ReadBlock h asc (mkSrc cacheValues (if negb (t =? seek) then p - 1 else p) l (if negb (t' =? seek) then p' - 1 else p') (Some k')) (rest_cache seek xs) (rest_tsm ls).
Proof.
  intros Ea G El [Ht He] [Ht' He'] p p'. set (c0 := mkSrc cacheValues (if negb (t =? seek) then p - 1 else p) ([] : list (tv A)) 0 None). destruct (loaded seek cacheValues xs k ls c0 G) as (l2 & k2 & El2 & Hi & Hs & Hl).
  rewrite El in El2. injection El2 as <- <-. rewrite Ea in *. split.
  - exists xs. split; [apply G|]. destruct (search_down unixnano xs seek t (gv_inc _ _ _ _ _ G) Ht He) as [Hb Ha]. cbn. split; [exact Hb|]. unfold rest_cache. rewrite Ea. symmetry. exact Ha.
  - unfold p'. rewrite (search_down_all unixnano l seek t' Hi Hs Ht' He'). apply (Hl (zlen l - 1)). left. reflexivity.
Qed.

Lemma new_spec seek cacheValues xs k ls : given seek cacheValues xs k ls -> seek <> tsdb_EOF ->
  exists c, cur_new (typed_cursor zero as_type tsdb_EOF ReadBlock asc) h seek cacheValues k = Some c /\ src_at as_type ReadBlock h asc c (rest_cache seek xs) (rest_tsm ls).
Proof.
  intros G Ne. assert (asc = true \/ asc = false) as [Ea|Ea] by (destruct asc; auto).
  - destruct (new_up seek cacheValues xs k ls Ea G) as (l & k' & El & Hs). eexists. split; [|exact Hs]. rewrite Ea. cbn. unfold newAscendingCursor. rewrite El. reflexivity.
  - pose proof (gv_cache _ _ _ _ _ G) as Hm. destruct (probe_cache seek cacheValues xs (Some k) Hm (gv_inc _ _ _ _ _ G) Ne) as (t & v & Et & Pt). set (c0 := mkSrc _ _ _ _ _) in Et.
    set (c1 := if negb (t =? seek) then set_cache_pos (cache_pos c0 - 1) c0 else c0). destruct (loaded seek cacheValues xs k ls c1 G) as (l & k' & El & Hi & _). destruct (probe_tsm seek l (Some k') c1 Hi Ne) as (t' & v' & Et' & Pt').
    eexists. split; [|apply (new_down seek cacheValues xs k ls t t' l k' Ea G El Pt Pt')]. rewrite Ea. unfold typed_cursor, descending_cursor. cbn [cur_new]. unfold newDescendingCursor. fold c0. rewrite Et. cbn [mbind option_bind]. fold c1. rewrite El. cbn [mbind option_bind]. rewrite Et'. cbn [mbind option_bind]. f_equal.
    unfold c1, c0. rewrite <- (search_mapM as_type tsdb_EOF cacheValues xs seek as_time Hm). destruct (negb (t =? seek)), (negb (t' =? seek)); reflexivity.
Qed.
End New.

(** * Batches of the merging cursors

    [Next] of the batch cursors fills its buffers with the next values of the merge,
    and the range cursors cut the batches at a time. *)

Section Batch.
Context {A : Type} (zero : A) (as_type : Value -> option (tv A)) (tsdb_EOF : Z).
Context (ReadBlock : fileHeap -> KeyCursor -> res werr (list (tv A)) * KeyCursor) (h : fileHeap) (asc : bool) (max_points : nat).
Context (as_time : forall v x, as_type v = Some x -> Value_UnixNano tsdb_EOF v = unixnano x).

Abbreviation cache_at := (cache_at as_type asc).
Abbreviation tsm_at := (tsm_at ReadBlock h asc).
Abbreviation src_at := (src_at as_type ReadBlock h asc).
Abbreviation no_eof := (no_eof (A := A) tsdb_EOF).
Abbreviation merged := (merged unixnano asc).
Abbreviation bcur := (typed_batch_cursor zero as_type tsdb_EOF ReadBlock max_points asc).

Definition batch_peekTSM (c : sources A) : option (Z * A) := if asc then asc_batch_peekTSM zero tsdb_EOF c else desc_batch_peekTSM zero tsdb_EOF c.
Definition batch_nextCache (c : sources A) : sources A := if asc then asc_batch_nextCache c else desc_batch_nextCache c.
Definition batch_nextTSM (c : sources A) : option (sources A) := if asc then asc_batch_nextTSM ReadBlock h c else desc_batch_nextTSM ReadBlock h c.
Definition batch_loop (n pos : nat) (b : batch A) : option (nat * batch A) := if asc then asc_batch_loop zero as_type tsdb_EOF ReadBlock h n pos b else desc_batch_loop zero as_type tsdb_EOF ReadBlock h n pos b.
Definition more_cache (c : sources A) : bool := if asc then cache_pos c <? zlen (cache_values c) else cache_pos c >=? 0.

Lemma batch_peek_tsm c rt : tsm_at c rt -> batch_peekTSM c = Some (peeked zero tsdb_EOF rt).
Proof.
  intros H. unfold batch_peekTSM, asc_batch_peekTSM, desc_batch_peekTSM. destruct rt as [|x rt].
  - apply tsm_nil in H as [-> H]. change (zlen (@nil (tv A))) with 0. destruct asc; zcases; try lia; reflexivity.
  - destruct (tsm_head ReadBlock h asc c x rt H) as [-> Hb]. destruct asc; zcases; try lia; reflexivity.
Qed.

Lemma batch_next_cache c x rc : cache_at c (x :: rc) -> batch_nextCache c = set_cache_pos (onward asc (cache_pos c)) c.
Proof. intros H. destruct (cache_head as_type tsdb_EOF asc as_time c x rc H) as [_ Hb]. unfold batch_nextCache, asc_batch_nextCache, desc_batch_nextCache, onward. destruct asc; zcases; try lia; reflexivity. Qed.

Lemma batch_next_tsm c x rt : tsm_at c (x :: rt) -> exists l p k, batch_nextTSM c = Some (set_tsm l p k c) /\ tsm_at (set_tsm l p k c) rt.
Proof.
  intros H. destruct (tsm_head ReadBlock h asc c x rt H) as [_ Hb]. unfold batch_nextTSM, asc_batch_nextTSM, desc_batch_nextTSM. destruct (tsm_next ReadBlock h asc c x rt H) as [[Hp Ht]|(Hp & l & k' & El & Ht)].
  - exists (tsm_values c), (onward asc (tsm_pos c)), (tsm_keyCursor c). split; [|exact Ht]. unfold onward in *. destruct asc; zcases; try lia; reflexivity.
  - rewrite El. exists l, (entry_pos asc l), (Some k'). split; [|apply Ht; auto]. unfold entry_pos. destruct asc; zcases; try lia; reflexivity.
Qed.

Lemma more_cache_spec c rc : cache_at c rc -> more_cache c = match rc with [] => false | _ => true end.
Proof.
  intros H. unfold more_cache. destruct rc as [|x rc].
  - apply cache_nil in H. destruct asc; zcases; lia || reflexivity.
  - destruct (cache_head as_type tsdb_EOF asc as_time c x rc H) as [_ Hb]. destruct asc; zcases; lia || reflexivity.
Qed.

(** One round of the loop, for both directions. *)
Lemma batch_loop_unfold n pos b :
  batch_loop (S n) pos b =
    (let c := b_src b in
     '(tkey, tvalue) ← batch_peekTSM c;
     if more_cache c then
       '(ckey, cvalue) ← cache_item as_type tsdb_EOF c;
       '(k, v, c) ← (if ckey =? tkey then c ← batch_nextTSM (batch_nextCache c); Some (ckey, cvalue, c)
                     else if (if asc then ckey <? tkey else ckey >? tkey) || (tkey =? tsdb_EOF) then Some (ckey, cvalue, batch_nextCache c)
                     else c ← batch_nextTSM c; Some (tkey, tvalue, c));
       b ← b_store pos k v c b; batch_loop n (S pos) b
     else if tkey =? tsdb_EOF then Some (pos, b)
     else c ← batch_nextTSM c; b ← b_store pos tkey tvalue c b; batch_loop n (S pos) b).
Proof. unfold batch_loop, batch_peekTSM, more_cache, batch_nextTSM, batch_nextCache. destruct asc; reflexivity. Qed.

Lemma b_store_ok pos k (v : A) c (b : batch A) : (pos < length (b_t b))%nat -> (pos < length (b_v b))%nat -> b_store pos k v c b = Some (mkBatch c (b_key b) (<[pos := k]> (b_t b)) (<[pos := v]> (b_v b))).
Proof. intros H1 H2. unfold b_store. rewrite (proj2 (Nat.ltb_lt _ _) H1), (proj2 (Nat.ltb_lt _ _) H2). reflexivity. Qed.

(** A round stops at the end of the merge and otherwise stores its head. *)
Lemma batch_round n pos b rc rt :
  src_at (b_src b) rc rt -> no_eof rc -> no_eof rt -> (pos < length (b_t b))%nat -> (pos < length (b_v b))%nat ->
  match merged rc rt with
  | [] => batch_loop (S n) pos b = Some (pos, b)
  | x :: l => exists c' rc' rt', batch_loop (S n) pos b = batch_loop n (S pos) (mkBatch c' (b_key b) (<[pos := unixnano x]> (b_t b)) (<[pos := value x]> (b_v b)))
      /\ src_at c' rc' rt' /\ no_eof rc' /\ no_eof rt' /\ merged rc' rt' = l
  end.
Proof.
  intros [Hc Ht] Nc Nt L1 L2. rewrite batch_loop_unfold. cbv zeta. rewrite (batch_peek_tsm _ rt Ht), (more_cache_spec _ rc Hc). cbn [mbind option_bind].
  destruct rc as [|x rc]; [rewrite merged_nil_l|]; destruct rt as [|y rt]; rewrite ?merged_nil_r, ?merged_cons; cbn [peeked].
  - rewrite Z.eqb_refl. reflexivity.
  - apply Forall_cons in Nt as [Ny Nt]. destruct (Z.eqb_spec (unixnano y) tsdb_EOF); [congruence|]. cbn [point]. destruct (Z.eqb_spec (unixnano y) tsdb_EOF); [congruence|].
    destruct (batch_next_tsm _ y rt Ht) as (l & p & k & -> & H3). cbn [mbind option_bind]. rewrite b_store_ok by assumption. cbn [mbind option_bind]. eexists _, [], rt. rewrite merged_nil_l. repeat split; auto.
  - apply Forall_cons in Nc as [Nx Nc]. destruct (cache_head as_type tsdb_EOF asc as_time _ x rc Hc) as [-> _]. cbn [mbind option_bind]. unfold point. cbn.
    destruct (Z.eqb_spec (unixnano x) tsdb_EOF); [congruence|]. rewrite Z.eqb_refl, orb_true_r. cbn. rewrite b_store_ok by assumption. cbn [mbind option_bind]. rewrite (batch_next_cache _ x rc Hc). eexists _, rc, []. rewrite merged_nil_r. split; [reflexivity|].
    split; [|auto]. split; [apply (cache_moves as_type tsdb_EOF asc as_time _ x rc Hc)|exact Ht].
  - apply Forall_cons in Nc as [Nx Nc]. apply Forall_cons in Nt as [Ny Nt]. destruct (cache_head as_type tsdb_EOF asc as_time _ x rc Hc) as [-> _]. cbn [mbind option_bind]. unfold point. cbn [fst snd]. unfold before.
    destruct (Z.eqb_spec (unixnano y) tsdb_EOF); [congruence|]. rewrite orb_false_r. rewrite (batch_next_cache _ x rc Hc). pose proof (cache_moves as_type tsdb_EOF asc as_time _ x rc Hc) as Hc'.
    destruct (unixnano x =? unixnano y).
    + destruct (batch_next_tsm (set_cache_pos (onward asc (cache_pos (b_src b))) (b_src b)) y rt Ht) as (l & p & k & -> & H3). cbn [mbind option_bind]. rewrite b_store_ok by assumption. cbn [mbind option_bind].
      eexists _, rc, rt. repeat split; auto.
    + destruct (if asc then unixnano x <? unixnano y else unixnano x >? unixnano y).
      * cbn [mbind option_bind]. rewrite b_store_ok by assumption. cbn [mbind option_bind]. eexists _, rc, (y :: rt). repeat split; auto. constructor; assumption.
      * destruct (batch_next_tsm _ y rt Ht) as (l & p & k & -> & H3). cbn [mbind option_bind]. rewrite b_store_ok by assumption. cbn [mbind option_bind]. eexists _, (x :: rc), rt. repeat split; auto. constructor; assumption.
Qed.

(** The slices [c.t[:n]], [c.v[:n]] of a batch. *)
Definition slice (n : nat) (b : batch A) : list (Z * A) := zip (take n (b_t b)) (take n (b_v b)).
Definition room (cap : nat) (b : batch A) : Prop := length (b_t b) = cap /\ length (b_v b) = cap.

Lemma slice_store pos k (v : A) c (b : batch A) cap : room cap b -> (pos < cap)%nat -> slice (S pos) (mkBatch c (b_key b) (<[pos := k]> (b_t b)) (<[pos := v]> (b_v b))) = slice pos b ++ [(k, v)].
Proof.
  intros [H1 H2] Hp. unfold slice. cbn [b_t b_v]. rewrite (take_S_r _ pos k) by (apply list_lookup_insert_eq; lia). rewrite (take_S_r _ pos v) by (apply list_lookup_insert_eq; lia).
  rewrite !take_insert_ge by lia. rewrite zip_with_app by (rewrite !length_take; lia). reflexivity.
Qed.

Lemma batch_loop_spec cap n pos b rc rt :
  src_at (b_src b) rc rt -> no_eof rc -> no_eof rt -> room cap b -> (pos + n = cap)%nat ->
  exists m b' rc' rt', batch_loop n pos b = Some (m, b') /\ slice m b' = slice pos b ++ map point (take n (merged rc rt)) /\ m = (pos + length (take n (merged rc rt)))%nat
    /\ room cap b' /\ src_at (b_src b') rc' rt' /\ no_eof rc' /\ no_eof rt' /\ merged rc' rt' = drop n (merged rc rt).
Proof.
  revert pos b rc rt. induction n as [|n IH]; intros pos b rc rt H Nc Nt Hr Hp.
  - exists pos, b, rc, rt. rewrite take_0, app_nil_r, Nat.add_0_r. split; [unfold batch_loop; destruct asc; reflexivity|]. split; [reflexivity|]. split; [reflexivity|]. split; [exact Hr|]. split; [exact H|]. auto.
  - pose proof (batch_round n pos b rc rt H Nc Nt) as R. destruct Hr as [R1 R2]. specialize (R ltac:(lia) ltac:(lia)). destruct (merged rc rt) as [|x l] eqn:Em.
    + exists pos, b, rc, rt. rewrite take_nil, app_nil_r. cbn [length]. rewrite Nat.add_0_r. split; [exact R|]. split; [reflexivity|]. split; [reflexivity|]. split; [split; assumption|]. split; [exact H|]. auto.
    + destruct R as (c' & rc1 & rt1 & -> & H' & Nc' & Nt' & El). set (b1 := mkBatch c' _ _ _). assert (room cap b1) as Hr1 by (split; cbn; rewrite length_insert; assumption).
      destruct (IH (S pos) b1 rc1 rt1 H' Nc' Nt' Hr1 ltac:(lia)) as (m & b' & rc' & rt' & -> & Hs & Hm & Hr' & H'' & N1 & N2 & Hd). exists m, b', rc', rt'. rewrite El in Hs, Hm, Hd. split; [reflexivity|].
      split; [rewrite Hs; unfold b1; rewrite (slice_store pos _ _ c' b cap) by (split || idtac; assumption || lia); rewrite <- app_assoc; reflexivity|]. split; [rewrite Hm; cbn; lia|]. auto.
Qed.

Lemma batch_Next_spec cap b rc rt : src_at (b_src b) rc rt -> no_eof rc -> no_eof rt -> room cap b ->
  exists m b' rc' rt', bc_Next bcur h b = Some (m, b') /\ slice m b' = map point (take cap (merged rc rt)) /\ m = length (take cap (merged rc rt))
    /\ room cap b' /\ src_at (b_src b') rc' rt' /\ no_eof rc' /\ no_eof rt' /\ merged rc' rt' = drop cap (merged rc rt).
Proof.
  intros H Nc Nt Hr. destruct (batch_loop_spec cap cap 0 b rc rt H Nc Nt Hr eq_refl) as (m & b' & rc' & rt' & El & Hs & Hm & Hrest). exists m, b', rc', rt'. split; [|split; [exact Hs|split; [exact Hm|exact Hrest]]].
  rewrite <- El. destruct Hr as [R1 _]. unfold batch_loop, typed_batch_cursor, ascending_batch_cursor, descending_batch_cursor. destruct asc; cbn; unfold asc_batch_Next, desc_batch_Next; rewrite R1; reflexivity.
Qed.

(** ** The start *)

Lemma probe_batch_cache seek cacheValues xs k : mapM as_type cacheValues = Some xs -> increasing unixnano xs ->
  exists t, probes unixnano xs seek t /\
  (if 0 <? zlen cacheValues then
     let c := mkSrc cacheValues (search_time (Value_UnixNano tsdb_EOF) cacheValues seek) ([] : list (tv A)) 0 k in
     if cache_pos c =? zlen cacheValues then Some (cache_pos c - 1)
     else '(t, _) ← cache_item as_type tsdb_EOF c; Some (if negb (t =? seek) then cache_pos c - 1 else cache_pos c)
   else Some (-1)) = Some (let p := search_time unixnano xs seek in if negb (t =? seek) then p - 1 else p).
Proof.
  intros Hm Hx. cbv zeta. set (c := mkSrc _ _ _ _ _). pose proof (search_mapM as_type tsdb_EOF cacheValues xs seek as_time Hm) as Ep. pose proof (zlen_mapM as_type xs _ Hm) as Ez. destruct (search_time_split unixnano xs seek Hx) as (Hp & _ & _).
  change (cache_pos c) with (search_time (Value_UnixNano tsdb_EOF) cacheValues seek). rewrite Ep, Ez. assert (seek + 1 <> seek) as Ne by lia. destruct (Z.eqb_spec (search_time unixnano xs seek) (zlen xs)) as [E|E].
  - exists (seek + 1). split; [apply probes_end; assumption|]. destruct (Z.eqb_spec (seek + 1) seek); [lia|]. cbn [negb]. destruct (Z.ltb_spec 0 (zlen xs)); [reflexivity|]. f_equal. lia.
  - destruct (cache_item_at as_type tsdb_EOF as_time c xs _ Hm Ep) as (x & Ex & Ei); [lia|]. exists (unixnano x). split; [apply probes_at, Ex|]. destruct (Z.ltb_spec 0 (zlen xs)); [|lia]. rewrite Ei. reflexivity.
Qed.

Lemma probe_batch_tsm seek l k cacheValues cpos : increasing unixnano l ->
  exists t, probes unixnano l seek t /\
  (let c := mkSrc cacheValues cpos l (search_time unixnano l seek) k in
   if 0 <? zlen l then
     if tsm_pos c =? zlen l then Some (tsm_pos c - 1)
     else '(t, _) ← desc_batch_peekTSM zero tsdb_EOF c; Some (if negb (t =? seek) then tsm_pos c - 1 else tsm_pos c)
   else Some (-1)) = Some (let p := search_time unixnano l seek in if negb (t =? seek) then p - 1 else p).
Proof.
  intros Hi. cbv zeta. set (c := mkSrc _ _ _ _ _). destruct (search_time_split unixnano l seek Hi) as (Hp & _ & _). change (tsm_pos c) with (search_time unixnano l seek). assert (seek + 1 <> seek) as Ne by lia.
  destruct (Z.eqb_spec (search_time unixnano l seek) (zlen l)) as [E|E].
  - exists (seek + 1). split; [apply probes_end; assumption|]. destruct (Z.eqb_spec (seek + 1) seek); [lia|]. cbn [negb]. destruct (Z.ltb_spec 0 (zlen l)); [reflexivity|]. f_equal. lia.
  - destruct (tsm_item_at c _ eq_refl) as (x & Ex & Ei); [change (0 <= search_time unixnano l seek < zlen l); lia|]. exists (unixnano x). split; [apply probes_at, Ex|]. destruct (Z.ltb_spec 0 (zlen l)); [|lia].
    unfold desc_batch_peekTSM. change (tsm_pos c) with (search_time unixnano l seek). destruct (Z.ltb_spec (search_time unixnano l seek) 0); [lia|]. rewrite Ei. reflexivity.
Qed.

Lemma batch_new_spec key seek cacheValues xs k ls : given as_type ReadBlock h asc seek cacheValues xs k ls ->
  exists b, bc_new bcur h key seek cacheValues k = Some b /\ room max_points b /\ b_key b = key /\ src_at (b_src b) (rest_cache asc seek xs) (rest_tsm asc ls).
Proof.
  intros G. assert (forall c, room max_points (buffers zero max_points key c)) as Hr by (intros c; split; apply length_replicate). assert (asc = true \/ asc = false) as [Ea|Ea] by (destruct asc; auto).
  - destruct (new_up as_type tsdb_EOF ReadBlock h asc as_time seek cacheValues xs k ls Ea G) as (l & k' & El & Hs). eexists. split; [|split; [apply Hr|split; [reflexivity|exact Hs]]].
    rewrite Ea. unfold typed_batch_cursor, ascending_batch_cursor. cbn [bc_new]. unfold newAscendingBatchCursor. rewrite El. reflexivity.
  - destruct (probe_batch_cache seek cacheValues xs (Some k) (gv_cache _ _ _ _ _ _ _ _ _ G) (gv_inc _ _ _ _ _ _ _ _ _ G)) as (t & Pt & Ec).
    destruct (loaded as_type ReadBlock h asc seek cacheValues xs k ls (mkSrc [] 0 [] 0 None) G) as (l & k' & El & Hi & _).
    destruct (probe_batch_tsm seek l (Some k') cacheValues (let p := search_time unixnano xs seek in if negb (t =? seek) then p - 1 else p) Hi) as (t' & Pt' & Et).
    eexists. split; [|split; [apply Hr|split; [reflexivity|apply (new_down as_type ReadBlock h asc seek cacheValues xs k ls t t' l k' Ea G El Pt Pt')]]].
    rewrite Ea. unfold typed_batch_cursor, descending_batch_cursor. cbn [bc_new]. unfold newDescendingBatchCursor. cbv zeta in Ec, Et |- *. rewrite Ec. cbn [mbind option_bind]. rewrite El. cbn [mbind option_bind]. rewrite Et. reflexivity.
Qed.

(** ** All batches *)

Fixpoint bc_drain (bc : batch_cursor_of A) (fuel : nat) (b : batch A) : option (list (list (Z * A))) :=
  match fuel with
  | O => None
  | S fuel' => '(n, b) ← bc_Next bc h b; match n with O => Some [] | _ => l ← bc_drain bc fuel' b; Some (slice n b :: l) end
  end.

Lemma point_nonempty n (l : list (tv A)) : (0 < n)%nat -> length (take n l) = 0%nat -> l = [].
Proof. intros Hn H. destruct l; [reflexivity|]. destruct n; [lia|]. discriminate H. Qed.

Lemma bc_drain_spec fuel cap b rc rt :
  src_at (b_src b) rc rt -> no_eof rc -> no_eof rt -> room cap b -> (0 < cap)%nat -> (length (merged rc rt) < fuel)%nat ->
  exists bs, bc_drain bcur fuel b = Some bs /\ concat bs = map point (merged rc rt) /\ Forall (fun l => l <> [] /\ (length l <= cap)%nat) bs.
Proof.
  revert b rc rt. induction fuel as [|fuel IH]; intros b rc rt H Nc Nt Hr Hcap Hf; [lia|]. cbn [bc_drain]. destruct (batch_Next_spec cap b rc rt H Nc Nt Hr) as (m & b' & rc' & rt' & -> & Hs & Hm & Hr' & H' & Nc' & Nt' & Hd). cbn [mbind option_bind].
  destruct m as [|m]; [exists []; rewrite (point_nonempty cap (merged rc rt) Hcap) by auto; auto|].
  destruct (IH b' rc' rt' H' Nc' Nt' Hr' Hcap) as (bs & -> & Hc & Fl); [rewrite Hd, length_drop; rewrite length_take in Hm; lia|]. cbn [mbind option_bind]. eexists. split; [reflexivity|]. cbn [concat]. rewrite Hs, Hc, Hd, <- map_app, take_drop. split; [reflexivity|].
  constructor; [|exact Fl]. split; [intros E; apply (f_equal length) in E; rewrite length_map, <- Hm in E; discriminate|]. rewrite length_map, length_take. lia.
Qed.

(** ** Up to a time *)

(** What is cut off is at the end. *)
Lemma strip_spec out k n good bad : take n k = good ++ bad -> (n <= length k)%nat -> Forall (fun t => out t = true) bad -> Forall (fun t => out t = false) good -> strip out k n = length good.
Proof.
  revert bad. induction n as [|n IH]; intros bad E Hn Fb Fg; [rewrite take_0 in E; symmetry in E; apply app_eq_nil in E as [-> _]; reflexivity|]. cbn [strip].
  destruct (lookup_lt_is_Some_2 k n) as [t Et]; [lia|]. rewrite Et. rewrite (take_S_r k n t Et) in E. destruct bad as [|u bad _] using rev_ind.
  - rewrite app_nil_r in E. subst good. apply Forall_app in Fg as [_ Fg]. apply Forall_cons in Fg as [-> _]. rewrite length_app, length_take. cbn. lia.
  - rewrite app_assoc in E. apply app_inj_tail in E as [E ->]. apply Forall_app in Fb as [Fb Fu]. apply Forall_cons in Fu as [-> _]. apply (IH bad); auto. lia.
Qed.

Context (last : Z).
Definition kept (x : tv A) : bool := if asc then unixnano x <=? last else last <=? unixnano x.

(** In a sorted list what is kept comes first. *)
Lemma kept_prefix l : StronglySorted (go_on unixnano asc) l -> exists bad, l = List.filter kept l ++ bad /\ Forall (fun x => kept x = false) bad.
Proof.
  induction 1 as [|x l H IH F]; [exists []; auto|]. cbn. destruct (kept x) eqn:E.
  - destruct IH as (bad & El & Fb). exists bad. split; [cbn; congruence|exact Fb].
  - assert (Forall (fun x => kept x = false) l) as Fk by (eapply Forall_impl; [exact F|]; intros y Hy; unfold go_on, before, kept in *; destruct asc; lia). exists (x :: l). rewrite filter_none by exact Fk. split; [reflexivity|]. constructor; assumption.
Qed.

Abbreviation rcur := (range_batch_cursor last asc bcur).

Lemma range_Next_spec cap b rc rt : src_at (b_src b) rc rt -> no_eof rc -> no_eof rt -> room cap b -> StronglySorted (go_on unixnano asc) (merged rc rt) ->
  exists m b' rc' rt', bc_Next rcur h b = Some (m, b') /\ slice m b' = map point (List.filter kept (take cap (merged rc rt))) /\ m = length (List.filter kept (take cap (merged rc rt)))
    /\ room cap b' /\ src_at (b_src b') rc' rt' /\ no_eof rc' /\ no_eof rt' /\ merged rc' rt' = drop cap (merged rc rt).
Proof.
  intros H Nc Nt Hr Hsort. destruct (batch_Next_spec cap b rc rt H Nc Nt Hr) as (m & b' & rc' & rt' & En & Hs & Hm & [R1 R2] & Hrest). set (l := take cap (merged rc rt)) in *.
  assert (StronglySorted (go_on unixnano asc) l) as Hl by (rewrite <- (take_drop cap (merged rc rt)) in Hsort; apply StronglySorted_app in Hsort as (_ & Hsort & _); exact Hsort).
  destruct (kept_prefix l Hl) as (bad & El & Fb). set (good := List.filter kept l) in *. assert (m <= cap)%nat as Hmc by (rewrite Hm; unfold l; rewrite length_take; lia).
  assert (take m (b_t b') = map unixnano l) as Et.
  { apply (f_equal (map fst)) in Hs. unfold slice in Hs. rewrite map_map in Hs. change (map (fun x => (point x).1) l) with (map (unixnano (V := A)) l) in Hs. rewrite <- Hs. symmetry. apply fst_zip. rewrite !length_take. lia. }
  set (out := if asc then fun k => k >? last else fun k => k <? last).
  assert (strip out (b_t b') m = length good) as Es.
  { rewrite <- (length_map unixnano good). apply (strip_spec out _ m (map unixnano good) (map unixnano bad)); [rewrite Et, <- map_app; congruence|lia| |]; rewrite Forall_map.
    - eapply Forall_impl; [exact Fb|]. intros x Hx. cbn. unfold out, kept in *. destruct asc; lia.
    - apply Forall_forall. intros x Hx. apply list_elem_of_In, filter_In in Hx as [_ Hx]. unfold out, kept in *. destruct asc; lia. }
  exists (length good), b', rc', rt'. split; [|split; [|split; [reflexivity|split; [split; assumption|exact Hrest]]]].
  - unfold range_batch_cursor, asc_range_Next, desc_range_Next. cbn [bc_Next]. unfold out in Es. destruct asc; rewrite En; cbn [mbind option_bind]; rewrite Es; reflexivity.
  - assert (length good <= m)%nat as Hg by (rewrite Hm, El, length_app; lia). apply (f_equal (take (length good))) in Hs. rewrite El, map_app, take_app_length' in Hs by (rewrite length_map; reflexivity). rewrite <- Hs.
    unfold slice. rewrite zip_with_take, !take_take. replace (length good `min` m)%nat with (length good) by lia. reflexivity.
Qed.

Lemma range_drain_spec fuel cap b rc rt :
  src_at (b_src b) rc rt -> no_eof rc -> no_eof rt -> room cap b -> (0 < cap)%nat -> StronglySorted (go_on unixnano asc) (merged rc rt) -> (length (merged rc rt) < fuel)%nat ->
  exists bs, bc_drain rcur fuel b = Some bs /\ concat bs = map point (List.filter kept (merged rc rt)).
Proof.
  revert b rc rt. induction fuel as [|fuel IH]; intros b rc rt H Nc Nt Hr Hcap Hsort Hf; [lia|]. cbn [bc_drain]. destruct (range_Next_spec cap b rc rt H Nc Nt Hr Hsort) as (m & b' & rc' & rt' & -> & Hs & Hm & Hr' & H' & Nc' & Nt' & Hd). cbn [mbind option_bind].
  assert (StronglySorted (go_on unixnano asc) (merged rc' rt')) as Hsort' by (rewrite Hd; rewrite <- (take_drop cap (merged rc rt)) in Hsort; apply StronglySorted_app in Hsort as (_ & _ & Hsort); exact Hsort).
  destruct m as [|m].
  - exists []. split; [reflexivity|]. destruct (kept_prefix (merged rc rt) Hsort) as (bad & E & Fb). enough (List.filter kept (merged rc rt) = []) as -> by reflexivity. destruct (merged rc rt) as [|x l]; [reflexivity|].
    destruct cap; [lia|]. cbn in Hm |- *. destruct (kept x) eqn:Ex; [discriminate|]. cbn in E. rewrite Ex in E. apply filter_none. destruct (List.filter kept l) as [|y f] eqn:Ef; [cbn in E; subst bad; apply Forall_cons in Fb as [_ Fb]; exact Fb|].
    exfalso. injection E as -> _. assert (List.In y (List.filter kept l)) as Hy by (rewrite Ef; left; reflexivity). apply filter_In in Hy as [_ Hy]. congruence.
  - destruct (IH b' rc' rt' H' Nc' Nt' Hr' Hcap Hsort') as (bs & -> & Hc).
    { rewrite Hd, length_drop. pose proof (List.filter_length_le kept (take cap (merged rc rt))) as Hl. rewrite length_take in Hl. lia. }
    cbn [mbind option_bind]. eexists. split; [reflexivity|]. cbn [concat]. rewrite Hs, Hc, Hd, <- map_app, <- List.filter_app, take_drop. reflexivity.
Qed.
End Batch.
