(* ===== verification/QueryRead.v ===== *)
(** * Reading a field of a series

    [buildFloatCursor], [buildFloatBatchCursor], ... of
    [tsdb/engine/tsm1/batch_cursor.gen.go]: what a query reads of one field, from the
    cache and the TSM files of the engine together. *)

From S2P Require Import Prelude Values Varint BoolCodec Simple8b TimeCodec IntCodec StringCodec BitReader FloatCodec ValueCodec Blocks BlockFacts TypedValues Bytes.
From S2P Require Import TSMWriter TSMIndex TSMDelete Tombstone TSMReader TSMFile TSMStore Ring Cache CacheFacts KeyIterator KeyMerge KeyTypes KeyFiles KeyCursor.
From S2P Require Import CursorFacts CursorStore ValueCursor ValueCursorFacts.

(** ** Keys *)

Definition keyFieldSeparator : list Z := [35; 33; 126; 35].
Definition SeriesFieldKeyBytes (seriesKey field : list Z) : list Z := seriesKey ++ keyFieldSeparator ++ field.

(** [query.IteratorOptions]: what is used of it here. *)
Record IteratorOptions := mkOpt { opt_SeekTime : Z; opt_Ascending : bool }.

(** The parts of an engine that are read: its cache, the files of its store. *)
Record engine := mkEngine { eng_cache : Cache; eng_heap : fileHeap; eng_files : list nat }.

Section Build.
Context `{BU : BytesUtil} (Sum64 : list Z -> Z) (tsdb_EOF : Z) (DefaultMaxPointsPerBlock : nat).
Context (sort_Sort : (location -> location -> bool) -> list location -> list location).

(** [key := SeriesFieldKeyBytes(...)], [e.Cache.Values(key)] and [e.KeyCursor(...)];
    a panic has no result. *)
Definition field_sources (seriesKey field : list Z) (opt : IteratorOptions) (e : engine) : option (list Value * KeyCursor * engine) :=
  let key := SeriesFieldKeyBytes seriesKey field in
  match c_Values Sum64 tsdb_EOF key (eng_cache e) with
  | (Ok cacheValues, cache) =>
      match newKeyCursor sort_Sort (eng_heap e) (eng_files e) key (opt_SeekTime opt) (opt_Ascending opt) with
      | Ok (keyCursor, h) => Some (cacheValues, keyCursor, mkEngine cache h (eng_files e))
      | _ => None
      end
  | _ => None
  end.

Definition build_cursor {A} (new : bool -> cursor_of A) (seriesKey field : list Z) (opt : IteratorOptions) (e : engine) : option (sources A * engine) :=
  '(cacheValues, keyCursor, e) ← field_sources seriesKey field opt e;
  c ← cur_new (new (opt_Ascending opt)) (eng_heap e) (opt_SeekTime opt) cacheValues keyCursor; Some (c, e).
Definition build_batch_cursor {A} (new : bool -> batch_cursor_of A) (seriesKey field : list Z) (opt : IteratorOptions) (e : engine) : option (batch A * engine) :=
  '(cacheValues, keyCursor, e) ← field_sources seriesKey field opt e;
  b ← bc_new (new (opt_Ascending opt)) (eng_heap e) seriesKey (opt_SeekTime opt) cacheValues keyCursor; Some (b, e).

Section Instances.
Context `{S8 : Simple8b} `{SN : Snappy} `{BS : BitStream} (q : decoders).
Definition buildFloatCursor := build_cursor (newFloatCursor q tsdb_EOF).
Definition buildFloatBatchCursor := build_batch_cursor (newFloatBatchCursor q tsdb_EOF DefaultMaxPointsPerBlock).
Definition buildIntegerCursor := build_cursor (newIntegerCursor q tsdb_EOF).
Definition buildIntegerBatchCursor := build_batch_cursor (newIntegerBatchCursor q tsdb_EOF DefaultMaxPointsPerBlock).
Definition buildUnsignedCursor := build_cursor (newUnsignedCursor q tsdb_EOF).
Definition buildUnsignedBatchCursor := build_batch_cursor (newUnsignedBatchCursor q tsdb_EOF DefaultMaxPointsPerBlock).
Definition buildStringCursor := build_cursor (newStringCursor q tsdb_EOF).
Definition buildStringBatchCursor := build_batch_cursor (newStringBatchCursor q tsdb_EOF DefaultMaxPointsPerBlock).
Definition buildBooleanCursor := build_cursor (newBooleanCursor q tsdb_EOF).
Definition buildBooleanBatchCursor := build_batch_cursor (newBooleanBatchCursor q tsdb_EOF DefaultMaxPointsPerBlock).
End Instances.
End Build.

(** ** The five types *)

(** What the templates take of a type. *)
Class TypedReader (A : Type) := {
  ty_zero : A;
  ty_as : Value -> option (tv A);
  ty_ReadAt : TSMReader -> IndexEntry -> res werr (list (tv A));
  ty_refs n r e : ty_ReadAt (set_refs n r) e = ty_ReadAt r e;
  ty_time tsdb_EOF v x : ty_as v = Some x -> Value_UnixNano tsdb_EOF v = unixnano x }.

#[global] Instance typed_block_reader {A} (TR : TypedReader A) : BlockReader (tv A) := {| br_time := unixnano; br_ReadAt := ty_ReadAt; br_refs := ty_refs |}.

Section Types.
Context `{S8 : Simple8b} `{SN : Snappy} `{BS : BitStream} (q : decoders).
#[local] Obligation Tactic := try reflexivity; intros ? [] ? [=]; subst; reflexivity.
Program Definition float_type : TypedReader Z := {| ty_zero := 0; ty_as := as_float; ty_ReadAt := ReadFloatBlockAt q |}.
Program Definition integer_type : TypedReader Z := {| ty_zero := 0; ty_as := as_integer; ty_ReadAt := ReadIntegerBlockAt q |}.
Program Definition unsigned_type : TypedReader Z := {| ty_zero := 0; ty_as := as_unsigned; ty_ReadAt := ReadUnsignedBlockAt q |}.
Program Definition string_type : TypedReader (list Z) := {| ty_zero := []; ty_as := as_string; ty_ReadAt := ReadStringBlockAt q |}.
Program Definition boolean_type : TypedReader bool := {| ty_zero := false; ty_as := as_boolean; ty_ReadAt := ReadBooleanBlockAt q |}.
End Types.

(** ** What is read *)

Section Query.
Context {A : Type} {TR : TypedReader A} `{BU : BytesUtil} (Sum64 : list Z -> Z) (tsdb_EOF : Z) (max_points : nat).
Context (sort_Sort : (location -> location -> bool) -> list location -> list location) (sort_ok : sorts sort_Sort).

Abbreviation ReadBlock := (KeyCursor.ReadBlock unixnano ty_ReadAt).
Definition point_cursor (ascending : bool) : cursor_of A := typed_cursor ty_zero ty_as tsdb_EOF ReadBlock ascending.
Definition points_cursor (ascending : bool) : batch_cursor_of A := typed_batch_cursor ty_zero ty_as tsdb_EOF ReadBlock max_points ascending.

(** The blocks of a key cursor that is drained. *)
Lemma drain_reads h fuel k outs : kc_drain unixnano ty_ReadAt h fuel k = Some outs -> reads ReadBlock h k outs.
Proof.
  revert k outs. induction fuel as [|fuel IH]; intros k outs E; [discriminate|]. cbn [kc_drain] in E. destruct (ReadBlock h k) as [[[|x l]|e|] k1] eqn:Er; try discriminate.
  - injection E as <-. eapply reads_end. exact Er.
  - destruct (kc_Next k1) as [k2|] eqn:En; [|discriminate]. cbn in E. destruct (kc_drain unixnano ty_ReadAt h fuel k2) as [ls|] eqn:Ed; [|discriminate]. injection E as <-. eapply reads_block; [exact Er|discriminate|exact En|apply IH, Ed].
Qed.

Lemma in_dir_blocks (asc : bool) (outs : list (list (tv A))) : in_dir asc (rest_tsm asc outs) = concat (if asc then outs else reverse outs).
Proof.
  unfold rest_tsm, in_dir. destruct asc; [f_equal; induction outs as [|l outs IH]; [reflexivity|cbn; f_equal; exact IH]|].
  induction outs as [|l outs IH]; [reflexivity|]. cbn [map concat]. rewrite reverse_app, IH, reverse_involutive, reverse_cons, concat_app. cbn. rewrite app_nil_r. reflexivity.
Qed.

Lemma first_block (asc : bool) l (outs : list (list (tv A))) : increasing unixnano (concat (if asc then l :: outs else reverse (l :: outs))) -> increasing unixnano l.
Proof.
  intros H. destruct asc; [cbn in H; apply StronglySorted_app in H as (_ & H & _); exact H|]. rewrite reverse_cons, concat_app in H. apply StronglySorted_app in H as (_ & _ & H). cbn in H. rewrite app_nil_r in H. exact H.
Qed.

Lemma block_in (asc : bool) l (outs : list (list (tv A))) x : x ∈ l -> x ∈ concat (if asc then l :: outs else reverse (l :: outs)).
Proof. intros H. destruct asc; [cbn; apply elem_of_app; auto|]. rewrite reverse_cons, concat_app, elem_of_app. right. cbn. rewrite app_nil_r. exact H. Qed.

(** Values from the cache are sorted, whatever is in it. *)
Lemma cache_values_sorted key c l c' : c_Values Sum64 tsdb_EOF key c = (Ok l, c') -> increasing (Value_UnixNano tsdb_EOF) l.
Proof.
  unfold c_Values. destruct (st_entry _ _ _) as [e|err|]; [|discriminate|discriminate]. destruct (match c_snapshot c with Some sn => _ | None => _ end) as [s|err|]; [|discriminate|discriminate]. cbv zeta.
  intros E. destruct e as [e|], s as [s|]; injection E as <- _; try constructor; match goal with |- context [match ?v with [] => _ | _ => _ end] => destruct v eqn:Ev end; try constructor; apply Deduplicate_spec.
Qed.

Lemma typed_sorted l (xs : list (tv A)) : mapM ty_as l = Some xs -> increasing (Value_UnixNano tsdb_EOF) l -> increasing unixnano xs.
Proof.
  intros Hm. apply mapM_Some in Hm. intros Hi. induction Hm as [|v x l xs Hv Hm IH]; [constructor|]. apply StronglySorted_inv in Hi as [Hi F]. constructor; [apply IH, Hi|]. clear IH Hi. rewrite Forall_forall in F.
  apply Forall_lookup. intros i y Ey. destruct (Forall2_lookup_r _ _ _ _ _ Hm Ey) as (w & Ew & Hw). rewrite <- (ty_time tsdb_EOF v x Hv), <- (ty_time tsdb_EOF w y Hw). apply F. eapply list_elem_of_lookup_2. exact Ew.
Qed.

Context (seriesKey field : list Z) (opt : IteratorOptions) (e : engine) (fs : list (tsmFile * list (kblock (V := tv A)))) (cv : list Value) (cache' : Cache) (xs : list (tv A)).
Abbreviation key := (SeriesFieldKeyBytes seriesKey field).
Abbreviation asc := (opt_Ascending opt).
Abbreviation seek := (opt_SeekTime opt).

(** The situation of a query: the seek time is not the lowest time (descending: not
    the highest) and not the one that stands for the end; the files are in the order
    of their names and hold blocks of the key whose ends are not deleted; the order of
    the locations by [Less] is a weak order; the values in the cache are of the type
    of the field; and no value is at the time that stands for the end.  The code
    checks none of this: [seek_lowest_reads_nothing], [cut_block_ends_cursor] and
    [sort_order_cycle] of CursorStore show what happens otherwise. *)
Record readable : Prop := {
  rd_seek : if asc then MinInt64 < seek <= MaxInt64 else MinInt64 <= seek < MaxInt64;
  rd_eof : seek <> tsdb_EOF;
  rd_files : Forall2 (good_file key asc (eng_heap e)) (eng_files e) fs;
  rd_paths : StronglySorted (fun x y => string_lt (tf_path x.1) (tf_path y.1) = true) fs;
  rd_order : forall l, locations (eng_heap e) (eng_files e) key seek asc = Ok l -> weak_order (if asc then ascLess (eng_heap e) else descLess (eng_heap e)) l;
  rd_cache : c_Values Sum64 tsdb_EOF key (eng_cache e) = (Ok cv, cache');
  rd_typed : mapM ty_as cv = Some xs;
  rd_cache_eof : no_eof tsdb_EOF xs;
  rd_files_eof : map_Forall (fun u _ => u <> tsdb_EOF) (store_values key fs) }.

(** The values of the field from the time of the seek on: those of the cache override
    those of the files. *)
Definition field_values : gmap Z (tv A) := filter (fun kv => (if asc then seek <=? kv.1 else kv.1 <=? seek) = true) (to_map unixnano xs ∪ store_values key fs).

Lemma filter_union {B} (P : Z -> bool) (m1 m2 : gmap Z B) : filter (fun kv => P kv.1 = true) (m1 ∪ m2) = filter (fun kv => P kv.1 = true) m1 ∪ filter (fun kv => P kv.1 = true) m2.
Proof.
  apply map_eq. intros t. apply option_eq. intros v. rewrite map_lookup_filter_Some, !lookup_union_Some_raw, !map_lookup_filter_Some, map_lookup_filter_None. cbn. split.
  - intros [[H|[H1 H2]] Hp]; [auto|]. right. split; [left; exact H1|auto].
  - intros [[H Hp]|[H [H2 Hp]]]; [auto|]. split; [|exact Hp]. destruct H as [H|H]; [auto|]. destruct (m1 !! t) as [w|] eqn:Ew; [|auto]. exfalso. apply (H w eq_refl). exact Hp.
Qed.

Lemma query_sources : readable -> exists k h' outs, field_sources Sum64 tsdb_EOF sort_Sort seriesKey field opt e = Some (cv, k, mkEngine cache' h' (eng_files e))
  /\ given ty_as ReadBlock h' asc seek cv xs k outs /\ no_eof tsdb_EOF (rest_cache asc seek xs) /\ no_eof tsdb_EOF (rest_tsm asc outs)
  /\ let m := merged unixnano asc (rest_cache asc seek xs) (rest_tsm asc outs) in
     StronglySorted (go_on unixnano asc) m /\ increasing unixnano (in_dir asc m) /\ to_map unixnano (in_dir asc m) = field_values.
Proof.
  intros [R1 R2 R3 R4 R5 R6 R7 R8 R9]. destruct (cursor_gives key asc (eng_heap e) seek R1 sort_Sort (eng_files e) fs sort_ok R3 R4 R5) as (k & h' & outs & Ek & Ed & Hne & Hi & Hmap).
  change (kc_drain unixnano ty_ReadAt h' (S (size (store_values key fs))) k = Some outs) in Ed. change (increasing unixnano (concat (if asc then outs else reverse outs))) in Hi. change (br_time (V := tv A)) with (unixnano (V := A)) in Hmap.
  pose proof (typed_sorted cv xs R7 (cache_values_sorted key _ cv cache' R6)) as Hx.
  assert (forall x, x ∈ concat (if asc then outs else reverse outs) -> on_side unixnano asc seek x = true /\ unixnano x <> tsdb_EOF) as Hin.
  { intros x Hx'. pose proof (increasing_in_map unixnano _ x Hi Hx') as L. rewrite Hmap in L. apply map_lookup_filter_Some in L as [L Hs]. split; [exact Hs|]. apply (R9 (unixnano x) x L). }
  exists k, h', outs. split; [unfold field_sources; rewrite R6; cbv zeta; rewrite Ek; reflexivity|].
  assert (StronglySorted (go_on unixnano asc) (rest_tsm asc outs)) as St by (apply sorted_in_dir; rewrite in_dir_blocks; exact Hi).
  assert (increasing unixnano (in_dir asc (rest_cache asc seek xs))) as Ic.
  { unfold rest_cache, in_dir. destruct asc; rewrite ?reverse_involutive; apply increasing_filter, Hx. }
  assert (StronglySorted (go_on unixnano asc) (rest_cache asc seek xs)) as Sc by (apply sorted_in_dir; exact Ic).
  split; [split; [exact R7|exact Hx|eapply drain_reads; exact Ed|]|].
  { destruct outs as [|l outs]; [exact I|]. split; [apply (first_block asc l outs), Hi|]. apply Forall_forall. intros x Hx'. apply Hin, block_in, Hx'. }
  split; [unfold no_eof in *; apply Forall_forall; intros x Hx'; rewrite Forall_forall in R8; apply R8; unfold rest_cache in Hx'; apply in_dir_elem, list_elem_of_In, filter_In in Hx' as [Hx' _]; apply list_elem_of_In, Hx'|].
  split; [apply Forall_forall; intros x Hx'; apply Hin; rewrite <- in_dir_blocks; apply in_dir_elem, Hx'|]. cbv zeta.
  split; [apply merged_spec; assumption|]. destruct (merged_map unixnano asc _ _ Sc St) as [Im Em]. split; [exact Im|]. rewrite Em, in_dir_blocks, Hmap. unfold field_values.
  rewrite (filter_union (fun u => if asc then seek <=? u else u <=? seek)). f_equal. unfold rest_cache. assert (forall l : list (tv A), in_dir asc (in_dir asc l) = l) as -> by (intros l; unfold in_dir; destruct asc; rewrite ?reverse_involutive; reflexivity).
  exact (to_map_filter unixnano (fun u => if asc then seek <=? u else u <=? seek) xs).
Qed.

Lemma in_dir_length (l : list (tv A)) : length (in_dir asc l) = length l.
Proof. unfold in_dir. destruct asc; [reflexivity|apply length_reverse]. Qed.

(** Draining a cursor: as many calls as there are values, and one. *)
Definition read_points (c : sources A) (e' : engine) : option (list (Z * A)) := cur_drain ty_zero ty_as tsdb_EOF ReadBlock (eng_heap e') asc (S (size field_values)) c.
Definition read_batches (bc : batch_cursor_of A) (b : batch A) (e' : engine) : option (list (list (Z * A))) := bc_drain (eng_heap e') bc (S (size field_values)) b.

Lemma merged_fits outs : let m := merged unixnano asc (rest_cache asc seek xs) (rest_tsm asc outs) in
  increasing unixnano (in_dir asc m) -> to_map unixnano (in_dir asc m) = field_values -> (length m < S (size field_values))%nat.
Proof. intros m Hi <-. rewrite (size_increasing unixnano), in_dir_length by exact Hi. lia. Qed.

(** C7 (functional). What a query reads of one field of a series, in either direction
    and for any of the five types: building the cursor succeeds, its calls end, and
    they give, in the order of the direction and each time once, exactly the values of
    the field from the time of the seek on, where the cache overrides the TSM files,
    later files override earlier ones and deleted values are left out.  This is in a
    [readable] situation: the seek is not at the extreme of time, no deletion cuts off
    the end of a block, the blocks are ordered by [Less], values are of one type and
    none is at the time that stands for the end. *)
Theorem query_reads : readable ->
  exists c e' out, build_cursor Sum64 tsdb_EOF sort_Sort point_cursor seriesKey field opt e = Some (c, e') /\ eng_cache e' = cache' /\ eng_files e' = eng_files e
    /\ read_points c e' = Some (map point out) /\ increasing unixnano (in_dir asc out) /\ to_map unixnano (in_dir asc out) = field_values.
Proof.
  intros R. destruct (query_sources R) as (k & h' & outs & Es & G & Nc & Nt & _ & Hi & Hm). destruct (new_spec ty_zero ty_as tsdb_EOF ReadBlock h' asc (ty_time tsdb_EOF) seek cv xs k outs G (rd_eof R)) as (c & Ec & Hc).
  exists c, (mkEngine cache' h' (eng_files e)), (merged unixnano asc (rest_cache asc seek xs) (rest_tsm asc outs)). split; [unfold build_cursor; rewrite Es; cbn [mbind option_bind]; unfold point_cursor; cbn [eng_heap]; rewrite Ec; reflexivity|].
  split; [reflexivity|]. split; [reflexivity|]. split; [|auto]. apply (cur_drain_spec ty_zero ty_as tsdb_EOF ReadBlock h' asc (ty_time tsdb_EOF) _ _ _ _ Hc Nc Nt). apply (merged_fits outs Hi Hm).
Qed.

(** C11 (equivalence). The batch cursor of a field gives exactly the points its point
    cursor gives, cut into batches that are not empty and not longer than the buffers;
    wrapped in a range cursor it gives exactly those up to the end of the range.  The
    situation is [readable] as above. *)
Theorem batches_read_the_same (last : Z) : readable -> (0 < max_points)%nat ->
  exists c e1 out b e2 bs rs, build_cursor Sum64 tsdb_EOF sort_Sort point_cursor seriesKey field opt e = Some (c, e1) /\ read_points c e1 = Some (map point out)
    /\ build_batch_cursor Sum64 tsdb_EOF sort_Sort points_cursor seriesKey field opt e = Some (b, e2)
    /\ read_batches (points_cursor asc) b e2 = Some bs /\ concat bs = map point out /\ Forall (fun l => l <> [] /\ (length l <= max_points)%nat) bs
    /\ read_batches (range_batch_cursor last asc (points_cursor asc)) b e2 = Some rs /\ concat rs = map point (List.filter (kept asc last) out).
Proof.
  intros R Hmax. destruct (query_sources R) as (k & h' & outs & Es & G & Nc & Nt & Hs & Hi & Hm). pose proof (merged_fits outs Hi Hm) as Hf. destruct (new_spec ty_zero ty_as tsdb_EOF ReadBlock h' asc (ty_time tsdb_EOF) seek cv xs k outs G (rd_eof R)) as (c & Ec & Hc).
  destruct (batch_new_spec ty_zero ty_as tsdb_EOF ReadBlock h' asc max_points (ty_time tsdb_EOF) seriesKey seek cv xs k outs G) as (b & Eb & Hr & _ & Hb).
  destruct (bc_drain_spec ty_zero ty_as tsdb_EOF ReadBlock h' asc max_points (ty_time tsdb_EOF) _ max_points b _ _ Hb Nc Nt Hr Hmax Hf) as (bs & E1 & E2 & E3).
  destruct (range_drain_spec ty_zero ty_as tsdb_EOF ReadBlock h' asc max_points (ty_time tsdb_EOF) last _ max_points b _ _ Hb Nc Nt Hr Hmax Hs Hf) as (rs & E4 & E5).
  exists c, (mkEngine cache' h' (eng_files e)), (merged unixnano asc (rest_cache asc seek xs) (rest_tsm asc outs)), b, (mkEngine cache' h' (eng_files e)), bs, rs.
  split; [unfold build_cursor; rewrite Es; cbn [mbind option_bind]; unfold point_cursor; cbn [eng_heap]; rewrite Ec; reflexivity|].
  split; [apply (cur_drain_spec ty_zero ty_as tsdb_EOF ReadBlock h' asc (ty_time tsdb_EOF) _ _ _ _ Hc Nc Nt Hf)|].
  split; [unfold build_batch_cursor; rewrite Es; cbn [mbind option_bind]; unfold points_cursor; cbn [eng_heap]; rewrite Eb; reflexivity|]. auto 10.
Qed.
End Query.

(** * Queries on a concrete engine

    The instances of [QueryRead] are those of the code; a cache over two files, read
    up and down, one at a time and in batches. *)

(** The cursors that the generated functions build are those of the template. *)
Lemma built_cursors `{BU : BytesUtil} `{S8 : Simple8b} `{SN : Snappy} `{BS : BitStream} (q : decoders) (Sum64 : list Z -> Z) (tsdb_EOF : Z) (max_points : nat) sort_Sort :
  let float := float_type q in let integer := integer_type q in let unsigned := unsigned_type q in let str := string_type q in let boolean := boolean_type q in
  buildFloatCursor Sum64 tsdb_EOF sort_Sort q = build_cursor Sum64 tsdb_EOF sort_Sort (point_cursor (TR := float) tsdb_EOF)
  /\ buildIntegerCursor Sum64 tsdb_EOF sort_Sort q = build_cursor Sum64 tsdb_EOF sort_Sort (point_cursor (TR := integer) tsdb_EOF)
  /\ buildUnsignedCursor Sum64 tsdb_EOF sort_Sort q = build_cursor Sum64 tsdb_EOF sort_Sort (point_cursor (TR := unsigned) tsdb_EOF)
  /\ buildStringCursor Sum64 tsdb_EOF sort_Sort q = build_cursor Sum64 tsdb_EOF sort_Sort (point_cursor (TR := str) tsdb_EOF)
  /\ buildBooleanCursor Sum64 tsdb_EOF sort_Sort q = build_cursor Sum64 tsdb_EOF sort_Sort (point_cursor (TR := boolean) tsdb_EOF)
  /\ buildFloatBatchCursor Sum64 tsdb_EOF max_points sort_Sort q = build_batch_cursor Sum64 tsdb_EOF sort_Sort (points_cursor (TR := float) tsdb_EOF max_points)
  /\ buildIntegerBatchCursor Sum64 tsdb_EOF max_points sort_Sort q = build_batch_cursor Sum64 tsdb_EOF sort_Sort (points_cursor (TR := integer) tsdb_EOF max_points)
  /\ buildUnsignedBatchCursor Sum64 tsdb_EOF max_points sort_Sort q = build_batch_cursor Sum64 tsdb_EOF sort_Sort (points_cursor (TR := unsigned) tsdb_EOF max_points)
  /\ buildStringBatchCursor Sum64 tsdb_EOF max_points sort_Sort q = build_batch_cursor Sum64 tsdb_EOF sort_Sort (points_cursor (TR := str) tsdb_EOF max_points)
  /\ buildBooleanBatchCursor Sum64 tsdb_EOF max_points sort_Sort q = build_batch_cursor Sum64 tsdb_EOF sort_Sort (points_cursor (TR := boolean) tsdb_EOF max_points).
Proof. repeat split; reflexivity. Qed.

#[local] Existing Instances plain_words plain_laws list_stream list_stream_laws id_snappy id_snappy_laws list_bytesutil id_gzip ex_blocks.
#[local] Instance int_type : TypedReader Z := integer_type decoders_ex.

(** ** An engine *)

Definition fkey : list Z := SeriesFieldKeyBytes [97] [102].
Definition first_file : TSMReader := Eval vm_compute in reader_of [(fkey, [ints [(1, 10); (5, 20)]])].
Definition second_file : TSMReader := Eval vm_compute in reader_of [(fkey, [ints [(3, 11); (5, 99)]; ints [(7, 70)]])].
Definition small_engine : engine :=
  mkEngine (exec sum_ex MinInt64 (OWrite fkey (ints [(5, 55); (9, 90)])) (NewCache 1000 0)).2 (heap_of [first_file; second_file]) [0%nat; 1%nat].

Definition small_files : list (tsmFile * list (kblock (V := tv Z))) := Eval vm_compute in
  match heap_of [first_file; second_file] !! 0%nat, heap_of [first_file; second_file] !! 1%nat, ix_Entries (rd_index first_file) fkey, ix_Entries (rd_index second_file) fkey with
  | Some f, Some g, Ok [e1], Ok [e2; e3] => [(f, [(e1, points [(1, 10); (5, 20)])]); (g, [(e2, points [(3, 11); (5, 99)]); (e3, points [(7, 70)])])]
  | _, _, _, _ => []
  end.

(** An order on few locations, by computation. *)
Definition weak_orderb {X} (less : X -> X -> bool) (l : list X) : bool :=
  forallb (fun a => forallb (fun b => forallb (fun c => implb (less a b) (negb (less b a)) && implb (less a c) (less a b || less b c)) l) l) l.
Lemma weak_orderb_ok {X} (less : X -> X -> bool) l : weak_orderb less l = true -> weak_order less l.
Proof.
  intros H a b c Ha Hb Hc. unfold weak_orderb in H. rewrite forallb_forall in H. specialize (H a (proj1 (list_elem_of_In _ _) Ha)). rewrite forallb_forall in H. specialize (H b (proj1 (list_elem_of_In _ _) Hb)).
  rewrite forallb_forall in H. specialize (H c (proj1 (list_elem_of_In _ _) Hc)). destruct (less a b), (less b a), (less a c), (less b c); cbn in H; try discriminate; auto.
Qed.

Lemma small_good asc : Forall2 (good_file fkey asc (heap_of [first_file; second_file])) [0%nat; 1%nat] small_files.
Proof.
  constructor; [|constructor; [|constructor]].
  - split; [vm_compute; reflexivity|]. split; [split|].
    + vm_compute. reflexivity.
    + constructor; [|constructor]. apply (points_hold _ _ [(1, 10); (5, 20)]); vm_compute; congruence.
    + repeat constructor.
    + constructor; [|constructor]. split; vm_compute; congruence.
    + constructor; [|constructor]. right. destruct asc; vm_compute; reflexivity.
  - split; [vm_compute; reflexivity|]. split; [split|].
    + vm_compute. reflexivity.
    + constructor; [|constructor; [|constructor]]; [apply (points_hold _ _ [(3, 11); (5, 99)])|apply (points_hold _ _ [(7, 70)])]; vm_compute; congruence.
    + repeat constructor.
    + constructor; [|constructor; [|constructor]]; split; vm_compute; congruence.
    + constructor; [|constructor; [|constructor]]; right; destruct asc; vm_compute; reflexivity.
Qed.

Definition small_cache : Cache := (c_Values sum_ex MinInt64 fkey (eng_cache small_engine)).2.

Lemma small_readable opt : opt = mkOpt 2 true \/ opt = mkOpt 8 false ->
  readable sum_ex MinInt64 [97] [102] opt small_engine small_files (ints [(5, 55); (9, 90)]) small_cache (points [(5, 55); (9, 90)]).
Proof.
  intros Ho. split.
  - destruct Ho as [-> | ->]; cbn; unfold MinInt64, MaxInt64; lia.
  - destruct Ho as [-> | ->]; cbn; unfold MinInt64; lia.
  - exact (small_good (opt_Ascending opt)).
  - repeat constructor.
  - intros l E. apply weak_orderb_ok. destruct Ho as [-> | ->]; vm_compute in E; injection E as <-; vm_compute; reflexivity.
  - vm_compute. reflexivity.
  - reflexivity.
  - repeat constructor; cbn; unfold MinInt64; lia.
  - apply map_Forall_to_list. apply Forall_forall. intros [u v] Hv. cbn. apply (elem_of_map fst) in Hv.
    assert (forallb (fun u => negb (u =? MinInt64)) (map fst (map_to_list (store_values fkey small_files))) = true) as H by (vm_compute; reflexivity).
    rewrite forallb_forall in H. specialize (H u (proj1 (list_elem_of_In _ _) Hv)). lia.
Qed.

(** ** Read *)

Definition up : IteratorOptions := mkOpt 2 true.
Definition down : IteratorOptions := mkOpt 8 false.

Definition read_small (opt : IteratorOptions) : option (list (Z * Z)) :=
  '(c, e) ← buildIntegerCursor sum_ex MinInt64 insertion_sort decoders_ex [97] [102] opt small_engine;
  cur_drain 0 as_integer MinInt64 (ReadIntegerBlock decoders_ex) (eng_heap e) (opt_Ascending opt) 10 c.
Definition read_small_batches (opt : IteratorOptions) (range : batch_cursor_of Z -> batch_cursor_of Z) : option (list (list (Z * Z))) :=
  '(b, e) ← buildIntegerBatchCursor sum_ex MinInt64 3 insertion_sort decoders_ex [97] [102] opt small_engine;
  bc_drain (eng_heap e) (range (newIntegerBatchCursor decoders_ex MinInt64 3 (opt_Ascending opt))) 10 b.

Example small_up : read_small up = Some [(3, 11); (5, 55); (7, 70); (9, 90)].
Proof. vm_compute. reflexivity. Qed.
Example small_down : read_small down = Some [(7, 70); (5, 55); (3, 11); (1, 10)].
Proof. vm_compute. reflexivity. Qed.
Example small_batches : read_small_batches up id = Some [[(3, 11); (5, 55); (7, 70)]; [(9, 90)]] /\ read_small_batches down (newIntegerRangeBatchCursor 4 false) = Some [[(7, 70); (5, 55)]].
Proof. vm_compute. auto. Qed.

Lemma query_reads_witness :
  exists c e' out, build_cursor sum_ex MinInt64 insertion_sort (point_cursor MinInt64) [97] [102] up small_engine = Some (c, e') /\ eng_cache e' = small_cache /\ eng_files e' = [0%nat; 1%nat]
    /\ read_points MinInt64 [97] [102] up small_files (points [(5, 55); (9, 90)]) c e' = Some (map point out) /\ increasing unixnano out
    /\ to_map unixnano out = field_values [97] [102] up small_files (points [(5, 55); (9, 90)]).
Proof.
  exact (query_reads sum_ex MinInt64 insertion_sort insertion_sorts [97] [102] up small_engine small_files (ints [(5, 55); (9, 90)]) small_cache (points [(5, 55); (9, 90)]) (small_readable up (or_introl eq_refl))).
Defined.

Lemma batches_read_the_same_witness :
  exists c e1 out b e2 bs rs, build_cursor sum_ex MinInt64 insertion_sort (point_cursor MinInt64) [97] [102] down small_engine = Some (c, e1)
    /\ read_points MinInt64 [97] [102] down small_files (points [(5, 55); (9, 90)]) c e1 = Some (map point out)
    /\ build_batch_cursor sum_ex MinInt64 insertion_sort (points_cursor MinInt64 3) [97] [102] down small_engine = Some (b, e2)
    /\ read_batches [97] [102] down small_files (points [(5, 55); (9, 90)]) (points_cursor MinInt64 3 false) b e2 = Some bs /\ concat bs = map point out /\ Forall (fun l => l <> [] /\ (length l <= 3)%nat) bs
    /\ read_batches [97] [102] down small_files (points [(5, 55); (9, 90)]) (range_batch_cursor 4 false (points_cursor MinInt64 3 false)) b e2 = Some rs
    /\ concat rs = map point (List.filter (kept false 4) out).
Proof.
  exact (batches_read_the_same sum_ex MinInt64 3 insertion_sort insertion_sorts [97] [102] down small_engine small_files (ints [(5, 55); (9, 90)]) small_cache (points [(5, 55); (9, 90)]) 4 (small_readable down (or_intror eq_refl)) ltac:(lia)).
Defined.
