(* ===== verification/Iterators.v ===== *)
(** * Iterators

    The iterators of [tsdb/engine/tsm1/iterator.gen.go] and the cursors of
    [iterator.go]: a main cursor gives points, buffered cursors of other fields are
    brought to the time of each point for its auxiliary values and for the fields of
    the condition, and points that fail the condition are passed over.  The five
    iterators are one template.  A panic has no result. *)

From S2P Require Import Prelude Bytes Values Varint Simple8b TimeCodec IntCodec BoolCodec StringCodec BitReader FloatCodec ValueCodec Blocks TypedValues.
From S2P Require Import TSMWriter TSMIndex TSMReader KeyCursor ValueCursor.

(** ** Values of any type *)

(** [interface{}] as the cursors fill it, with the nil pointers that stand for a
    missing value of a type. *)
Inductive any :=
| AFloat (v : Z)
| AInteger (v : Z)
| AUnsigned (v : Z)
| AString (v : list Z)
| ABoolean (v : bool)
| NilFloat
| NilInteger
| NilUnsigned
| NilString
| NilBoolean.

(** ** Conversions between numbers *)

(** [float64(v)] as the bits of the float: rounded to 53 bits, half to even. *)
Definition float_magnitude (a : Z) : Z :=
  if a =? 0 then 0
  else
    let e := Z.log2 a in
    let q := if e <=? 52 then a * 2 ^ (52 - e)
             else
               let s := e - 52 in
               let q := a / 2 ^ s in
               let r := a mod 2 ^ s in
               if (2 * r >? 2 ^ s) || ((2 * r =? 2 ^ s) && Z.odd q) then q + 1 else q in
    (e + 1023) * 2 ^ 52 + (q - 2 ^ 52).
Definition float64_of (v : Z) : Z := if v <? 0 then 2 ^ 63 + float_magnitude (- v) else float_magnitude v.

(** [int64(v)], [uint64(v)] of a float by its bits: the fraction is dropped; outside
    the range (and for infinities and NaN) the result depends on the machine. *)
Definition float_trunc (bits : Z) : option Z :=
  let s := bits / 2 ^ 63 in
  let e := (bits / 2 ^ 52) mod 2 ^ 11 in
  let m := bits mod 2 ^ 52 in
  if e =? 2047 then None
  else
    let a := if e =? 0 then 0 else if e - 1075 >=? 0 then (2 ^ 52 + m) * 2 ^ (e - 1075) else (2 ^ 52 + m) / 2 ^ (1075 - e) in
    Some (if s =? 0 then a else - a).

Section Conversions.
Context (machine_int machine_uint : Z -> Z).
Definition int64_of_float (bits : Z) : Z :=
  match float_trunc bits with Some z => if (- 2 ^ 63 <=? z) && (z <? 2 ^ 63) then z else machine_int bits | None => machine_int bits end.
Definition uint64_of_float (bits : Z) : Z :=
  match float_trunc bits with Some z => if (0 <=? z) && (z <? 2 ^ 64) then z else machine_uint bits | None => machine_uint bits end.
End Conversions.

(** ** The cursors behind [cursor] *)

Inductive cursor :=
| FloatCursor (ascending : bool) (s : sources Z)
| IntegerCursor (ascending : bool) (s : sources Z)
| UnsignedCursor (ascending : bool) (s : sources Z)
| StringCursor (ascending : bool) (s : sources (list Z))
| BooleanCursor (ascending : bool) (s : sources bool)
| floatCastIntegerCursor (ascending : bool) (s : sources Z)
| floatCastUnsignedCursor (ascending : bool) (s : sources Z)
| integerCastFloatCursor (ascending : bool) (s : sources Z)
| integerCastUnsignedCursor (ascending : bool) (s : sources Z)
| unsignedCastFloatCursor (ascending : bool) (s : sources Z)
| unsignedCastIntegerCursor (ascending : bool) (s : sources Z)
| stringSliceCursor (values : list (list Z)).

Section Cursors.
Context `{S8 : Simple8b} `{SN : Snappy} `{BS : BitStream} (q : decoders) (tsdb_EOF : Z) (machine_int machine_uint : Z -> Z) (h : fileHeap).

Definition step_as {A} (c : cursor_of A) (s : sources A) (wrap : A -> any) (back : sources A -> cursor) : option ((Z * any) * cursor) :=
  '((t, v), s) ← cur_next c h s; Some ((t, wrap v), back s).

(** [stringSliceCursor.nextString] *)
Definition slice_nextString (values : list (list Z)) : (Z * list Z) * list (list Z) :=
  match values with [] => ((tsdb_EOF, []), []) | v :: l => ((0, v), l) end.

(** [next] *)
Definition cursor_next (c : cursor) : option ((Z * any) * cursor) :=
  match c with
  | FloatCursor asc s => step_as (newFloatCursor q tsdb_EOF asc) s AFloat (FloatCursor asc)
  | IntegerCursor asc s => step_as (newIntegerCursor q tsdb_EOF asc) s AInteger (IntegerCursor asc)
  | UnsignedCursor asc s => step_as (newUnsignedCursor q tsdb_EOF asc) s AUnsigned (UnsignedCursor asc)
  | StringCursor asc s => step_as (newStringCursor q tsdb_EOF asc) s AString (StringCursor asc)
  | BooleanCursor asc s => step_as (newBooleanCursor q tsdb_EOF asc) s ABoolean (BooleanCursor asc)
  | floatCastIntegerCursor asc s => step_as (newIntegerCursor q tsdb_EOF asc) s (fun v => AFloat (float64_of v)) (floatCastIntegerCursor asc)
  | floatCastUnsignedCursor asc s => step_as (newUnsignedCursor q tsdb_EOF asc) s (fun v => AFloat (float64_of v)) (floatCastUnsignedCursor asc)
  | integerCastFloatCursor asc s => step_as (newFloatCursor q tsdb_EOF asc) s (fun v => AInteger (int64_of_float machine_int v)) (integerCastFloatCursor asc)
  | integerCastUnsignedCursor asc s => step_as (newUnsignedCursor q tsdb_EOF asc) s (fun v => AInteger (i64 v)) (integerCastUnsignedCursor asc)
  | unsignedCastFloatCursor asc s => step_as (newFloatCursor q tsdb_EOF asc) s (fun v => AUnsigned (uint64_of_float machine_uint v)) (unsignedCastFloatCursor asc)
  | unsignedCastIntegerCursor asc s => step_as (newIntegerCursor q tsdb_EOF asc) s (fun v => AUnsigned (u64 v)) (unsignedCastIntegerCursor asc)
  | stringSliceCursor values => let '((t, v), l) := slice_nextString values in Some ((t, AString v), stringSliceCursor l)
  end.
End Cursors.

(** The nil value for the type of a cursor, the switch of [nextAt]. *)
Definition nil_of (c : cursor) : any :=
  match c with
  | FloatCursor _ _ | floatCastIntegerCursor _ _ | floatCastUnsignedCursor _ _ => NilFloat
  | IntegerCursor _ _ | integerCastFloatCursor _ _ | integerCastUnsignedCursor _ _ => NilInteger
  | UnsignedCursor _ _ | unsignedCastFloatCursor _ _ | unsignedCastIntegerCursor _ _ => NilUnsigned
  | StringCursor _ _ | stringSliceCursor _ => NilString
  | BooleanCursor _ _ => NilBoolean
  end.

Definition cursor_close (h : fileHeap) (c : cursor) : option fileHeap :=
  let close {A} (s : sources A) := '(_, h) ← src_close h s; Some h in
  match c with
  | FloatCursor _ s | IntegerCursor _ s | UnsignedCursor _ s => close s
  | floatCastIntegerCursor _ s | floatCastUnsignedCursor _ s | integerCastFloatCursor _ s => close s
  | integerCastUnsignedCursor _ s | unsignedCastFloatCursor _ s | unsignedCastIntegerCursor _ s => close s
  | StringCursor _ s => close s
  | BooleanCursor _ s => close s
  | stringSliceCursor _ => Some h
  end.

(** ** Buffered cursors *)

(** What the buffered cursor and the iterator use of a cursor. *)
Class CursorOps (C X : Type) := { cu_next : C -> option ((Z * X) * C); cu_close : fileHeap -> C -> option fileHeap }.

(** [cur] is nil once it is closed. *)
Record bufCursor (C : Type) := mkBuf { bu_cur : option C; bu_key : Z; bu_value : any; bu_filled : bool; bu_ascending : bool }.
Arguments mkBuf {C} _ _ _ _ _.
Arguments bu_cur {C} _.
Arguments bu_key {C} _.
Arguments bu_value {C} _.
Arguments bu_filled {C} _.
Arguments bu_ascending {C} _.

Section Buffered.
Context {C : Type} {CO : CursorOps C any} (nil_value : C -> any) (tsdb_EOF : Z).

Definition newBufCursor (cur : C) (ascending : bool) : bufCursor C := mkBuf (Some cur) 0 NilFloat false ascending.

Definition buf_close (h : fileHeap) (b : bufCursor C) : option (bufCursor C * fileHeap) :=
  c ← bu_cur b; h ← cu_close h c; Some (mkBuf None (bu_key b) (bu_value b) (bu_filled b) (bu_ascending b), h).

Definition buf_next (b : bufCursor C) : option ((Z * any) * bufCursor C) :=
  if bu_filled b then Some ((bu_key b, bu_value b), mkBuf (bu_cur b) (bu_key b) (bu_value b) false (bu_ascending b))
  else c ← bu_cur b; '(kv, c) ← cu_next c; Some (kv, mkBuf (Some c) (bu_key b) (bu_value b) false (bu_ascending b)).

Definition unread (k : Z) (v : any) (b : bufCursor C) : bufCursor C := mkBuf (bu_cur b) k v true (bu_ascending b).

Definition buf_peek (b : bufCursor C) : option ((Z * any) * bufCursor C) := '((k, v), b) ← buf_next b; Some ((k, v), unread k v b).

(** The nil value for the type of the cursor. *)
Definition buf_nil (b : bufCursor C) : option (any * bufCursor C) := c ← bu_cur b; Some (nil_value c, b).

(** The loop of [nextAt]; out of fuel there is no result. *)
Fixpoint buf_nextAt (fuel : nat) (seek : Z) (b : bufCursor C) : option (any * bufCursor C) :=
  match fuel with
  | O => None
  | S fuel' =>
      '((k, v), b) ← buf_next b;
      if negb (k =? tsdb_EOF) then
        if k =? seek then Some (v, b)
        else if bu_ascending b && (k <? seek) then buf_nextAt fuel' seek b
        else if negb (bu_ascending b) && (k >? seek) then buf_nextAt fuel' seek b
        else buf_nil (unread k v b)
      else buf_nil b
  end.

(** [cursorAt]: a buffered cursor or a literal. *)
Inductive cursorAt := CBuf (b : bufCursor C) | CLit (v : any).

Definition at_peek (c : cursorAt) : option ((Z * any) * cursorAt) :=
  match c with
  | CBuf b => '(kv, b) ← buf_peek b; Some (kv, CBuf b)
  | CLit v => Some ((tsdb_EOF, v), c)
  end.
Definition at_nextAt (fuel : nat) (seek : Z) (c : cursorAt) : option (any * cursorAt) :=
  match c with
  | CBuf b => '(v, b) ← buf_nextAt fuel seek b; Some (v, CBuf b)
  | CLit v => Some (v, c)
  end.
Definition at_close (h : fileHeap) (c : cursorAt) : option fileHeap := match c with CBuf b => '(_, h) ← buf_close h b; Some h | CLit _ => Some h end.

(** [cursorsAt.close] *)
Fixpoint close_all (h : fileHeap) (l : list cursorAt) : option fileHeap := match l with [] => Some h | c :: l' => h ← at_close h c; close_all h l' end.

(** ** The iterator *)

Context {C0 A : Type} {CO0 : CursorOps C0 A} {Cond : Type} (EvalBool : Cond -> gmap string any -> bool).

(** Of [query.IteratorOptions]; [io_Aux] is the number of auxiliary fields. *)
Record iter_opt := mkIO { io_Ascending : bool; io_StartTime : Z; io_EndTime : Z; io_Aux : nat; io_Condition : option Cond }.
Record point_of := mkPoint { pt_Time : Z; pt_Value : A; pt_Aux : list any }.
Record iterator := mkIt {
  it_cur : option C0; it_aux : list cursorAt; it_names : list string; it_curs : list cursorAt; it_opt : iter_opt;
  it_m : option (gmap string any); it_point : point_of; it_stats : Z; it_statsBuf : Z }.

Definition statsBufferCopyIntervalN : Z := 100.

Definition newIterator (zero : A) (opt : iter_opt) (cur : option C0) (aux conds : list cursorAt) (condNames : list string) : iterator :=
  mkIt cur aux condNames conds opt (match io_Condition opt with Some _ => Some ∅ | None => None end)
    (mkPoint 0 zero (replicate (length aux) NilFloat)) 0 0.

(** [for i := range itr.aux]: the time that comes first among the auxiliary ones. *)
Fixpoint first_aux (asc : bool) (seek : Z) (l : list cursorAt) : option (Z * list cursorAt) :=
  match l with
  | [] => Some (seek, [])
  | c :: l' =>
      '((k, _), c) ← at_peek c;
      let seek := if negb (k =? tsdb_EOF) then if (seek =? tsdb_EOF) || (asc && (k <? seek)) || (negb asc && (k >? seek)) then k else seek else seek in
      '(seek, l) ← first_aux asc seek l'; Some (seek, c :: l)
  end.

(** [for i := range itr.opt.Aux]: [n] values from the cursors into the point. *)
Fixpoint read_aux (fuel n : nat) (seek : Z) (l : list cursorAt) (out : list any) : option (list any * list cursorAt) :=
  match n with
  | O => Some (out, l)
  | S n' =>
      match l, out with
      | c :: l', _ :: out' => '(v, c) ← at_nextAt fuel seek c; '(vs, l) ← read_aux fuel n' seek l' out'; Some (v :: vs, c :: l)
      | _, _ => None
      end
  end.

(** [for i := range itr.conds.curs] *)
Fixpoint read_conds (fuel : nat) (seek : Z) (names : list string) (l : list cursorAt) (m : option (gmap string any)) {struct l} : option (option (gmap string any) * list cursorAt) :=
  match l with
  | [] => Some (m, [])
  | c :: l' =>
      '(v, c) ← at_nextAt fuel seek c;
      match names, m with
      | name :: names', Some m => '(m, l) ← read_conds fuel seek names' l' (Some (<[name := v]> m)); Some (m, c :: l)
      | _, _ => None
      end
  end.

Definition copyStats (i : iterator) : iterator := mkIt (it_cur i) (it_aux i) (it_names i) (it_curs i) (it_opt i) (it_m i) (it_point i) (it_statsBuf i) (it_statsBuf i).

(** The start of a round: the time of the next point. *)
Definition next_time (i : iterator) : option iterator :=
  match it_cur i with
  | Some c =>
      '((t, v), c) ← cu_next c;
      Some (mkIt (Some c) (it_aux i) (it_names i) (it_curs i) (it_opt i) (it_m i) (mkPoint t v (pt_Aux (it_point i))) (it_stats i) (it_statsBuf i))
  | None =>
      '(t, aux) ← first_aux (io_Ascending (it_opt i)) tsdb_EOF (it_aux i);
      Some (mkIt None aux (it_names i) (it_curs i) (it_opt i) (it_m i) (mkPoint t (pt_Value (it_point i)) (pt_Aux (it_point i))) (it_stats i) (it_statsBuf i))
  end.

(** The loop of [Next]: the inner option is the point or nil. *)
Fixpoint it_Next (fuel : nat) (i : iterator) : option (option point_of * iterator) :=
  match fuel with
  | O => None
  | S fuel' =>
      i ← next_time i;
      let t := pt_Time (it_point i) in
      let opt := it_opt i in
      if t =? tsdb_EOF then Some (None, copyStats i)
      else if io_Ascending opt && (t >? io_EndTime opt) then Some (None, copyStats i)
      else if negb (io_Ascending opt) && (t <? io_StartTime opt) then Some (None, copyStats i)
      else
        '(vals, aux) ← read_aux fuel (io_Aux opt) t (it_aux i) (pt_Aux (it_point i));
        '(m, curs) ← read_conds fuel t (it_names i) (it_curs i) (it_m i);
        let i := mkIt (it_cur i) aux (it_names i) curs opt m (mkPoint t (pt_Value (it_point i)) vals) (it_stats i) (it_statsBuf i) in
        if match io_Condition opt with Some cond => negb (EvalBool cond (default ∅ m)) | None => false end then it_Next fuel' i
        else
          let n := it_statsBuf i + 1 in
          let i := mkIt (it_cur i) (it_aux i) (it_names i) (it_curs i) opt m (it_point i) (it_stats i) n in
          Some (Some (it_point i), if n mod statsBufferCopyIntervalN =? 0 then copyStats i else i)
  end.

Definition it_Stats (i : iterator) : Z := it_stats i.

Definition it_Close (h : fileHeap) (i : iterator) : option (iterator * fileHeap) :=
  h ← close_all h (it_aux i);
  h ← close_all h (it_curs i);
  h ← match it_cur i with Some c => cu_close h c | None => Some h end;
  Some (mkIt None [] (it_names i) [] (it_opt i) (it_m i) (it_point i) (it_stats i) (it_statsBuf i), h).
End Buffered.

(** ** The limit *)

Section Limit.
Context {I P : Type} (input_Next : I -> option (option P * I)).

Record limitIterator := mkLimit { li_input : I; li_Offset : Z; li_Limit : Z; li_n : Z }.
Definition newLimitIterator (input : I) (Offset Limit : Z) : limitIterator := mkLimit input Offset Limit 0.

Definition li_Next (l : limitIterator) : option (option P * limitIterator) :=
  if li_n l - li_Offset l >? li_Limit l then Some (None, l)
  else
    '(p, i) ← input_Next (li_input l);
    match p with
    | None => Some (None, mkLimit i (li_Offset l) (li_Limit l) (li_n l))
    | Some p => Some (Some p, mkLimit i (li_Offset l) (li_Limit l) (li_n l + 1))
    end.
End Limit.
