(* ===== verification/IteratorFacts.v ===== *)
(** * What the iterators give

    The iterator against the streams of its cursors: one point for each point of the
    main cursor up to the end of the range that meets the condition, with the values
    the other cursors have at its time. *)

From S2P Require Import Prelude Values Blocks TSMReader KeyCursor ValueCursor Iterators.

(** ** Streams *)

(** A cursor that has a list of points left, none at the time of the end. *)
Class CursorLaws (C X : Type) {CO : CursorOps C X} (tsdb_EOF : Z) := {
  cl_at : C -> list (Z * X) -> Prop;
  cl_end c : cl_at c [] -> exists x c', cu_next c = Some ((tsdb_EOF, x), c') /\ cl_at c' [];
  cl_more c t x l : cl_at c ((t, x) :: l) -> t <> tsdb_EOF /\ exists c', cu_next c = Some ((t, x), c') /\ cl_at c' l }.

Section Facts.
Context (asc : bool) (tsdb_EOF : Z).

Definition ahead_of (t u : Z) : bool := if asc then t <? u else t >? u.
Definition in_order {X} (l : list (Z * X)) : Prop := StronglySorted (fun a b => ahead_of a.1 b.1 = true) l.

Lemma ahead_trans t u w : ahead_of t u = true -> ahead_of u w = true -> ahead_of t w = true.
Proof. unfold ahead_of. destruct asc; lia. Qed.

(** The value of a stream at a time, and what is left after it. *)
Fixpoint value_at {X} (t : Z) (l : list (Z * X)) : option X := match l with [] => None | (u, x) :: l' => if u =? t then Some x else value_at t l' end.
Definition later {X} (t : Z) (l : list (Z * X)) : list (Z * X) := List.filter (fun p => ahead_of t p.1) l.

Lemma later_order {X} t (l : list (Z * X)) : in_order l -> in_order (later t l).
Proof.
  unfold in_order, later. induction 1 as [|p l H IH F]; cbn; [constructor|]. destruct (ahead_of t p.1); [|exact IH]. constructor; [exact IH|]. rewrite Forall_forall in F |- *. intros q Hq.
  apply list_elem_of_In, filter_In in Hq as [Hq _]. apply F, list_elem_of_In, Hq.
Qed.

Lemma value_later {X} s t (l : list (Z * X)) : ahead_of s t = true -> value_at t (later s l) = value_at t l.
Proof.
  intros H. induction l as [|[u x] l IH]; [reflexivity|]. cbn. destruct (Z.eqb_spec u t) as [-> | Hne]; [rewrite H; cbn; rewrite Z.eqb_refl; reflexivity|].
  destruct (ahead_of s u); cbn; [|exact IH]. destruct (Z.eqb_spec u t); [congruence|exact IH].
Qed.

Lemma later_later {X} s t (l : list (Z * X)) : ahead_of s t = true -> later t (later s l) = later t l.
Proof.
  intros H. unfold later. induction l as [|[u x] l IH]; [reflexivity|]. cbn. destruct (ahead_of s u) eqn:E1; cbn; rewrite ?IH; [reflexivity|].
  destruct (ahead_of t u) eqn:E2; [|reflexivity]. rewrite (ahead_trans s t u H E2) in E1. discriminate.
Qed.

Lemma order_later {X} (p : Z * X) l t : in_order (p :: l) -> ahead_of t p.1 = true -> later t (p :: l) = p :: l /\ value_at t (p :: l) = None.
Proof.
  intros H Hp. apply StronglySorted_inv in H as [_ F]. rewrite Forall_forall in F. assert (forall q, q ∈ p :: l -> ahead_of t q.1 = true) as Ha by (intros q Hq; apply elem_of_cons in Hq as [-> | Hq]; [exact Hp|eapply ahead_trans; [exact Hp|apply F, Hq]]).
  split.
  - unfold later. induction (p :: l) as [|q k IH]; [reflexivity|]. cbn. rewrite (Ha q) by left. f_equal. apply IH. intros r Hr. apply Ha. right. exact Hr.
  - induction (p :: l) as [|[u x] k IH]; [reflexivity|]. cbn. destruct (Z.eqb_spec u t) as [-> | _]; [|apply IH; intros r Hr; apply Ha; right; exact Hr].
    exfalso. specialize (Ha (t, x) ltac:(left)). cbn in Ha. unfold ahead_of in Ha. destruct asc; lia.
Qed.

(** ** Buffered cursors *)

Section Buffered.
Context {C : Type} {CO : CursorOps C any} {CL : CursorLaws C any tsdb_EOF} (nil_value : C -> any) (nil_same : forall c kv c', cu_next c = Some (kv, c') -> nil_value c' = nil_value c).

(** A buffered cursor of which a list is left; its nil is [n]. *)
Definition buf_at (n : any) (l : list (Z * any)) (b : bufCursor C) : Prop :=
  bu_ascending b = asc /\ exists c, bu_cur b = Some c /\ nil_value c = n /\
    if bu_filled b then (bu_key b = tsdb_EOF /\ l = [] /\ cl_at c [] \/ exists l', bu_key b <> tsdb_EOF /\ l = (bu_key b, bu_value b) :: l' /\ cl_at c l') else cl_at c l.

Lemma buf_next_spec n l b : buf_at n l b ->
  exists kv b', buf_next b = Some (kv, b') /\ bu_filled b' = false /\ buf_at n (tail l) b' /\ match l with [] => kv.1 = tsdb_EOF | p :: _ => kv = p /\ p.1 <> tsdb_EOF end.
Proof.
  intros (Ha & c & Ec & En & H). unfold buf_next. destruct (bu_filled b).
  - eexists _, _. split; [reflexivity|]. split; [reflexivity|]. destruct H as [(Ek & -> & Hc)|(l' & Ek & -> & Hc)]; (split; [split; [exact Ha|]; exists c; auto|]); cbn; auto.
  - rewrite Ec. cbn. destruct l as [|[t x] l].
    + destruct (cl_end c H) as (x & c' & E & Hc). rewrite E. cbn. eexists _, _. split; [reflexivity|]. split; [reflexivity|]. split; [|reflexivity]. split; [exact Ha|]. exists c'. cbn. rewrite (nil_same _ _ _ E). auto.
    + destruct (cl_more c t x l H) as (Hne & c' & E & Hc). rewrite E. cbn. eexists _, _. split; [reflexivity|]. split; [reflexivity|]. split; [|auto]. split; [exact Ha|]. exists c'. cbn. rewrite (nil_same _ _ _ E). auto.
Qed.

Lemma unread_at n l b kv : buf_at n (tail l) b -> bu_filled b = false -> match l with [] => kv.1 = tsdb_EOF | p :: _ => kv = p /\ p.1 <> tsdb_EOF end -> buf_at n l (unread kv.1 kv.2 b).
Proof.
  intros (Ha & c & Ec & En & H) Hf Hkv. rewrite Hf in H. split; [exact Ha|]. exists c. cbn. split; [exact Ec|]. split; [exact En|]. destruct l as [|p l]; [auto|]. destruct Hkv as [-> Hne]. right. exists l. destruct p. auto.
Qed.

Lemma buf_peek_spec n l b : buf_at n l b -> exists kv b', buf_peek b = Some (kv, b') /\ buf_at n l b' /\ match l with [] => kv.1 = tsdb_EOF | p :: _ => kv = p /\ p.1 <> tsdb_EOF end.
Proof.
  intros H. destruct (buf_next_spec n l b H) as ([k v] & b' & E & Hf & Hb & Hkv). unfold buf_peek. rewrite E. cbn. eexists _, _. split; [reflexivity|]. split; [|exact Hkv]. apply (unread_at n l b' (k, v) Hb Hf Hkv).
Qed.

Lemma buf_nextAt_spec fuel n l b t : buf_at n l b -> in_order l -> (length l < fuel)%nat ->
  exists b', buf_nextAt nil_value tsdb_EOF fuel t b = Some (default n (value_at t l), b') /\ buf_at n (later t l) b'.
Proof.
  revert l b. induction fuel as [|fuel IH]; intros l b H Ho Hf; [lia|]. cbn [buf_nextAt]. destruct (buf_next_spec n l b H) as ([k v] & b' & -> & Hfl & Hb & Hkv). cbn [mbind option_bind]. destruct l as [|[u x] l].
  - cbn in Hkv. subst k. rewrite Z.eqb_refl. cbn. unfold buf_nil. pose proof Hb as (_ & c & Ec & En & _). rewrite Ec. cbn. rewrite En. eauto.
  - destruct Hkv as [E Hne]. injection E as -> ->. cbn in Hne. destruct (Z.eqb_spec u tsdb_EOF); [congruence|]. cbn [negb]. pose proof Ho as Ho'. apply StronglySorted_inv in Ho as [Ho F]. cbn [tail] in Hb.
    pose proof Hb as (Ea & c & Ec & En & _). rewrite Ea. destruct (Z.eqb_spec u t) as [-> | Hut].
    + cbn. rewrite Z.eqb_refl. unfold later. cbn. assert (ahead_of t t = false) as -> by (unfold ahead_of; destruct asc; lia). exists b'. split; [reflexivity|].
      replace (List.filter (fun p => ahead_of t p.1) l) with l; [exact Hb|]. symmetry. clear -F. induction l as [|q l IHl]; [reflexivity|]. apply Forall_cons in F as [Fq F]. cbn in *. rewrite Fq. f_equal. apply IHl, F.
    + destruct (ahead_of t u) eqn:Et.
      * destruct (order_later (u, x) l t Ho' Et) as [-> ->]. assert ((asc && (u <? t)) = false /\ (negb asc && (u >? t)) = false) as [-> ->] by (unfold ahead_of in Et; destruct asc; cbn; lia).
        exists (unread u x b'). unfold buf_nil. cbn. rewrite Ec. cbn. rewrite En. split; [reflexivity|]. apply (unread_at n ((u, x) :: l) b' (u, x)); [exact Hb|exact Hfl|auto].
      * assert (value_at t ((u, x) :: l) = value_at t l /\ later t ((u, x) :: l) = later t l) as [-> ->] by (unfold later; cbn; rewrite Et; destruct (Z.eqb_spec u t); [congruence|auto]).
        destruct (IH l b' Hb Ho ltac:(cbn in Hf; lia)) as (b2 & E2 & H2). exists b2. split; [|exact H2]. rewrite <- E2. unfold ahead_of in Et. destruct asc; cbn; zcases; try lia; reflexivity.
Qed.

(** ** Cursors for the other fields *)

(** What such a cursor stands for: a stream with its nil, or a literal. *)
Inductive aux_desc := DStream (n : any) (l : list (Z * any)) | DLit (v : any).
Definition desc_value (t : Z) (d : aux_desc) : any := match d with DStream n l => default n (value_at t l) | DLit v => v end.
Definition desc_len (d : aux_desc) : nat := match d with DStream _ l => length l | DLit _ => 0 end.

(** At [T] what is not later was passed over. *)
Definition since (T : option Z) (l : list (Z * any)) : list (Z * any) := match T with Some t => later t l | None => l end.
Definition desc_at (T : option Z) (c : cursorAt (C := C)) (d : aux_desc) : Prop :=
  match c, d with
  | CBuf b, DStream n l => in_order l /\ buf_at n (since T l) b
  | CLit v, DLit w => v = w
  | _, _ => False
  end.
Definition before_time (T : option Z) (t : Z) : Prop := match T with Some s => ahead_of s t = true | None => True end.

Lemma at_nextAt_spec fuel T t c d : desc_at T c d -> before_time T t -> (desc_len d < fuel)%nat ->
  exists c', at_nextAt nil_value tsdb_EOF fuel t c = Some (desc_value t d, c') /\ desc_at (Some t) c' d.
Proof.
  intros H HT Hf. destruct c as [b|v], d as [n l|w]; cbn in H; try contradiction; [|subst w; cbn; exists (CLit v); split; reflexivity]. destruct H as [Ho Hb].
  assert (in_order (since T l)) as Ho' by (destruct T; [apply later_order, Ho|exact Ho]).
  assert (length (since T l) <= length l)%nat as Hl by (destruct T; [apply List.filter_length_le|reflexivity]).
  destruct (buf_nextAt_spec fuel n (since T l) b t Hb Ho' ltac:(cbn in Hf; lia)) as (b' & E & Hb'). cbn. rewrite E. cbn. exists (CBuf b').
  assert (value_at t (since T l) = value_at t l /\ later t (since T l) = later t l) as [-> E2] by (destruct T as [s|]; [split; [apply value_later, HT|apply later_later, HT]|auto]).
  split; [reflexivity|]. split; [exact Ho|]. rewrite E2 in Hb'. exact Hb'.
Qed.

Definition fits (fuel : nat) (ds : list aux_desc) : Prop := Forall (fun d => (desc_len d < fuel)%nat) ds.

Lemma read_aux_spec fuel T t cs ds out : Forall2 (desc_at T) cs ds -> before_time T t -> fits fuel ds -> length out = length cs ->
  exists cs', read_aux nil_value tsdb_EOF fuel (length cs) t cs out = Some (map (desc_value t) ds, cs') /\ Forall2 (desc_at (Some t)) cs' ds.
Proof.
  intros F HT Hf. revert out. induction F as [|c d cs ds H F IH]; intros out Ho; [destruct out; [|discriminate]; exists []; split; [reflexivity|constructor]|]. apply Forall_cons in Hf as [Hd Hf]. destruct out as [|o out]; [discriminate|]. injection Ho as Ho. cbn.
  destruct (at_nextAt_spec fuel T t c d H HT Hd) as (c' & -> & Hc). cbn. destruct (IH Hf out Ho) as (cs' & -> & Hcs). cbn. exists (c' :: cs'). split; [reflexivity|]. constructor; assumption.
Qed.

(** The fields of the condition at a time. *)
Definition put (m : gmap string any) (kv : string * any) : gmap string any := <[kv.1 := kv.2]> m.
Definition cond_map (t : Z) (names : list string) (ds : list aux_desc) : gmap string any := fold_left put (zip names (map (desc_value t) ds)) ∅.

Lemma put_all_same kvs m : (forall k, is_Some (m !! k) -> k ∈ map fst kvs) -> fold_left put kvs m = fold_left put kvs ∅.
Proof.
  enough (forall m m', (forall k, k ∉ map fst kvs -> m !! k = m' !! k) -> fold_left put kvs m = fold_left put kvs m') as H.
  { intros Hm. apply H. intros k Hk. rewrite lookup_empty. apply eq_None_not_Some. intros Hs. apply Hk, Hm, Hs. }
  clear m. induction kvs as [|[k v] kvs IH]; intros m m' H; cbn; [apply map_eq; intros k; apply H; apply not_elem_of_nil|]. apply IH. intros k' Hk'. unfold put. cbn. destruct (decide (k = k')) as [-> | Hne]; [rewrite !lookup_insert_eq; reflexivity|].
  rewrite !lookup_insert_ne by exact Hne. apply H. cbn. intros Hin. apply elem_of_cons in Hin as [Hin|Hin]; [congruence|contradiction].
Qed.

Lemma put_keys kvs m k : is_Some (fold_left put kvs m !! k) -> is_Some (m !! k) \/ k ∈ map fst kvs.
Proof.
  revert m. induction kvs as [|[k' v] kvs IH]; intros m H; cbn in *; [auto|]. apply IH in H as [H|H]; [|right; right; exact H]. unfold put in H. cbn in H. apply lookup_insert_is_Some in H as [<-|[_ H]]; [right; left|auto].
Qed.

Lemma read_conds_spec fuel T t names cs ds m : Forall2 (desc_at T) cs ds -> before_time T t -> fits fuel ds -> length names = length cs ->
  exists cs', read_conds nil_value tsdb_EOF fuel t names cs (Some m) = Some (Some (fold_left put (zip names (map (desc_value t) ds)) m), cs') /\ Forall2 (desc_at (Some t)) cs' ds.
Proof.
  intros F HT Hf. revert names m. induction F as [|c d cs ds H F IH]; intros names m Hn; [destruct names; [|discriminate]; exists []; split; [reflexivity|constructor]|]. apply Forall_cons in Hf as [Hd Hf]. destruct names as [|k names]; [discriminate|]. injection Hn as Hn. cbn.
  destruct (at_nextAt_spec fuel T t c d H HT Hd) as (c' & -> & Hc). cbn. destruct (IH Hf names (<[k := desc_value t d]> m) Hn) as (cs' & -> & Hcs). cbn. exists (c' :: cs'). split; [reflexivity|]. constructor; assumption.
Qed.

(** The times of the streams, and the first of them. *)
Definition desc_times (T : option Z) (d : aux_desc) : list Z := match d with DStream _ l => map fst (since T l) | DLit _ => [] end.
Definition times (T : option Z) (ds : list aux_desc) : list Z := concat (map (desc_times T) ds).

Lemma times_cons T d ds u : u ∈ times T (d :: ds) <-> u ∈ desc_times T d \/ u ∈ times T ds.
Proof. unfold times. cbn. apply elem_of_app. Qed.

Lemma later_elem t (l : list (Z * any)) u : u ∈ map fst (later t l) <-> u ∈ map fst l /\ ahead_of t u = true.
Proof.
  rewrite !list_elem_of_In, !in_map_iff. unfold later. split.
  - intros (p & <- & Hp). apply filter_In in Hp as [Hp Ha]. eauto.
  - intros ((p & <- & Hp) & Ha). exists p. split; [reflexivity|]. apply filter_In. auto.
Qed.

Lemma times_later T t ds u : before_time T t -> u ∈ times (Some t) ds <-> u ∈ times T ds /\ ahead_of t u = true.
Proof.
  intros HT. induction ds as [|d ds IH]; [unfold times; cbn; split; [intros H; apply elem_of_nil in H as []|intros [H _]; exact H]|]. rewrite !times_cons, IH.
  assert (u ∈ desc_times (Some t) d <-> u ∈ desc_times T d /\ ahead_of t u = true) as ->; [|tauto]. destruct d as [n l|v]; cbn [desc_times]; [|split; [intros H; apply elem_of_nil in H as []|intros [H _]; exact H]].
  assert (later t l = later t (since T l)) as E by (destruct T as [s|]; [symmetry; apply later_later, HT|reflexivity]). unfold since at 1. rewrite E. apply later_elem.
Qed.

Lemma at_peek_spec T c d : desc_at T c d ->
  exists kv c', at_peek tsdb_EOF c = Some (kv, c') /\ desc_at T c' d
    /\ (kv.1 = tsdb_EOF /\ desc_times T d = [] \/ kv.1 <> tsdb_EOF /\ kv.1 ∈ desc_times T d /\ forall u, u ∈ desc_times T d -> u = kv.1 \/ ahead_of kv.1 u = true).
Proof.
  intros H. destruct c as [b|v], d as [n l|w]; cbn in H; try contradiction.
  - destruct H as [Ho Hb]. destruct (buf_peek_spec n _ b Hb) as ([k v] & b' & E & Hb' & Hk). cbn. rewrite E. cbn. eexists _, _. split; [reflexivity|]. split; [split; [exact Ho|exact Hb']|]. cbn in Hk.
    assert (in_order (since T l)) as Ho' by (destruct T; [apply later_order, Ho|exact Ho]). destruct (since T l) as [|p r]; [left; auto|]. destruct Hk as [<- Hne]. right. cbn in *. split; [exact Hne|]. split; [left|].
    intros u Hu. apply elem_of_cons in Hu as [-> | Hu]; [auto|right]. apply StronglySorted_inv in Ho' as [_ F]. rewrite Forall_forall in F. apply list_elem_of_In, in_map_iff in Hu as (q & <- & Hq). apply (F q), list_elem_of_In, Hq.
  - subst w. cbn. eexists _, _. split; [reflexivity|]. split; [reflexivity|]. left. auto.
Qed.

Lemma first_aux_spec T seek cs ds : Forall2 (desc_at T) cs ds ->
  exists t cs', first_aux tsdb_EOF asc seek cs = Some (t, cs') /\ Forall2 (desc_at T) cs' ds
    /\ (t = tsdb_EOF /\ seek = tsdb_EOF /\ times T ds = []
        \/ t <> tsdb_EOF /\ (t = seek \/ t ∈ times T ds) /\ (forall u, u ∈ times T ds -> u = t \/ ahead_of t u = true) /\ (seek = tsdb_EOF \/ seek = t \/ ahead_of t seek = true)).
Proof.
  intros F. revert seek. induction F as [|c d cs ds H F IH]; intros seek; cbn [first_aux].
  { exists seek, []. split; [reflexivity|]. split; [constructor|]. destruct (decide (seek = tsdb_EOF)) as [E|E]; [left; auto|right]. split; [exact E|]. split; [auto|]. split; [intros u Hu; apply elem_of_nil in Hu as []|auto]. }
  destruct (at_peek_spec T c d H) as ([k v] & c' & -> & Hc & Hk). cbn [mbind option_bind]. cbn in Hk.
  set (seek' := if negb (k =? tsdb_EOF) then if (seek =? tsdb_EOF) || (asc && (k <? seek)) || (negb asc && (k >? seek)) then k else seek else seek).
  destruct (IH seek') as (t & cs' & -> & Hcs & Ht). cbn [mbind option_bind]. exists t, (c' :: cs'). split; [reflexivity|]. split; [constructor; assumption|].
  assert (k = tsdb_EOF /\ seek' = seek \/ k <> tsdb_EOF /\ seek' <> tsdb_EOF /\ (seek' = k \/ seek' = seek) /\ (seek' = k \/ ahead_of seek' k = true) /\ (seek = tsdb_EOF \/ seek' = seek \/ ahead_of seek' seek = true)) as Hs.
  { unfold seek', ahead_of. destruct (Z.eqb_spec k tsdb_EOF) as [-> | Hne]; [left; auto|right]. cbn [negb]. split; [exact Hne|]. destruct (Z.eqb_spec seek tsdb_EOF) as [-> | Hs]; [cbn; auto|]. cbn [orb]. destruct asc; cbn; zcases; cbn; repeat split; auto; cbn in *; lia. }
  clearbody seek'. destruct Hs as [[-> Es]|(Hk0 & Hs0 & Hs1 & Hs2 & Hs3)].
  - rewrite Es in Ht. destruct Hk as [[_ Ed]|[Hne _]]; [|congruence]. assert (forall u, u ∈ times T (d :: ds) <-> u ∈ times T ds) as Eu by (intros u; rewrite times_cons, Ed; split; [intros [Hu|Hu]; [apply elem_of_nil in Hu as []|exact Hu]|auto]).
    destruct Ht as [(H1 & H2 & H3)|(H1 & H2 & H3 & H4)]; [left; split; [exact H1|]; split; [exact H2|]; unfold times in *; cbn; rewrite Ed; exact H3|]. right. setoid_rewrite Eu. auto.
  - destruct Hk as [[Hk _]|(_ & Hin & Hfirst)]; [congruence|]. destruct Ht as [(_ & H2 & _)|(H1 & H2 & H3 & H4)]; [congruence|]. destruct H4 as [H4|H4]; [congruence|]. right. split; [exact H1|].
    split; [destruct H2 as [-> | H2]; [destruct Hs1 as [-> | ->]; [right; apply times_cons; auto|auto]|right; apply times_cons; auto]|].
    assert (forall u, u = seek' \/ ahead_of seek' u = true -> u = t \/ ahead_of t u = true) as Hle by (intros u [-> | Hu]; [destruct H4 as [-> | H4]; auto|destruct H4 as [E|H4]; [subst t; auto|right; eapply ahead_trans; eauto]]).
    split; [|destruct Hs3 as [E|[<-|Hs3]]; [auto|right; destruct H4 as [-> | H4]; auto|right; destruct (Hle seek (or_intror Hs3)) as [-> | Hx]; auto]].
    intros u Hu. apply times_cons in Hu as [Hu|Hu]; [|apply H3, Hu]. apply Hle. destruct (Hfirst u Hu) as [-> | Hku]; [destruct Hs2 as [-> | Hs2]; auto|]. right. destruct Hs2 as [-> | Hs2]; [exact Hku|eapply ahead_trans; eauto].
Qed.

(** ** The iterator *)

Section Iterator.
Context {C0 A : Type} {CO0 : CursorOps C0 A} {CL0 : CursorLaws C0 A tsdb_EOF} {Cond : Type} (EvalBool : Cond -> gmap string any -> bool).
Context (opt : iter_opt (Cond := Cond)) (names : list string) (auxd condd : list aux_desc).
Context (opt_dir : io_Ascending opt = asc) (opt_aux : io_Aux opt = length auxd) (opt_names : length names = length condd) (opt_cond : io_Condition opt = None -> condd = []).

(** Which points are given, and as what.  As in the code only the far end of the
    range is looked at: the cursors start at the near one. *)
Definition in_range (t : Z) : bool := if asc then t <=? io_EndTime opt else io_StartTime opt <=? t.
Definition holds (t : Z) : bool := match io_Condition opt with Some cond => EvalBool cond (cond_map t names condd) | None => true end.
Definition given_point (p : Z * A) : bool := in_range p.1 && holds p.1.
Definition as_point (p : Z * A) : point_of := mkPoint p.1 p.2 (map (desc_value p.1) auxd).

Definition map_ok (m : option (gmap string any)) : Prop := match io_Condition opt with Some _ => exists g, m = Some g /\ forall k, is_Some (g !! k) -> k ∈ names | None => m = None end.

(** Where the times come from: the main cursor, or without one the other fields. *)
Definition source_at (T : option Z) (S : list (Z * A)) (cur : option C0) (v : A) : Prop :=
  match cur with
  | Some c => cl_at c S
  | None => Forall (fun p => p.2 = v) S /\ forall u, u ∈ map fst S <-> u ∈ times T auxd
  end.

Record iter_at (T : option Z) (S : list (Z * A)) (i : iterator (C := C) (C0 := C0) (A := A) (Cond := Cond)) : Prop := {
  ia_cur : source_at T S (it_cur i) (pt_Value (it_point i)); ia_order : in_order S; ia_since : Forall (fun p => before_time T p.1) S;
  ia_aux : Forall2 (desc_at T) (it_aux i) auxd; ia_curs : Forall2 (desc_at T) (it_curs i) condd;
  ia_opt : it_opt i = opt; ia_names : it_names i = names; ia_vals : length (pt_Aux (it_point i)) = length (it_aux i); ia_m : map_ok (it_m i) }.

Lemma conds_step fuel T t i S : iter_at T S i -> before_time T t -> fits fuel condd ->
  exists m cs, read_conds nil_value tsdb_EOF fuel t (it_names i) (it_curs i) (it_m i) = Some (m, cs) /\ Forall2 (desc_at (Some t)) cs condd /\ map_ok m
    /\ match io_Condition opt with Some cond => negb (EvalBool cond (default ∅ m)) | None => false end = negb (holds t).
Proof.
  intros I HT Hf. pose proof (ia_m _ _ _ I) as Hm. pose proof (ia_curs _ _ _ I) as F. rewrite (ia_names _ _ _ I). unfold map_ok, holds in *. destruct (io_Condition opt) as [cond|] eqn:Eo.
  - destruct Hm as (g & -> & Hg). destruct (read_conds_spec fuel T t names (it_curs i) condd g F HT Hf) as (cs & -> & Hcs); [rewrite (Forall2_length _ _ _ F); exact opt_names|]. eexists _, cs. split; [reflexivity|]. split; [exact Hcs|].
    assert (map fst (zip names (map (desc_value t) condd)) = names) as Ek by (apply fst_zip; rewrite length_map; lia).
    split; [eexists; split; [reflexivity|]; intros k Hk; apply put_keys in Hk as [Hk|Hk]; [apply Hg, Hk|rewrite Ek in Hk; exact Hk]|]. cbn. unfold cond_map. rewrite put_all_same; [reflexivity|]. rewrite Ek. exact Hg.
  - rewrite (opt_cond eq_refl) in *. apply Forall2_nil_inv_r in F. rewrite F. cbn. exists (it_m i), []. split; [reflexivity|]. split; [constructor|]. auto.
Qed.

(** The start of a round. *)
Definition next_round (i : iterator (C := C) (C0 := C0) (A := A) (Cond := Cond)) (t : Z) (v : A) (cur : option C0) (aux : list (cursorAt (C := C))) : iterator :=
  mkIt cur aux (it_names i) (it_curs i) (it_opt i) (it_m i) (mkPoint t v (pt_Aux (it_point i))) (it_stats i) (it_statsBuf i).

Lemma next_time_end T i : iter_at T [] i -> exists i', next_time tsdb_EOF i = Some i' /\ pt_Time (it_point i') = tsdb_EOF.
Proof.
  intros I. pose proof (ia_cur _ _ _ I) as Hc. unfold next_time. destruct (it_cur i) as [c|].
  - destruct (cl_end c Hc) as (x & c' & -> & _). eexists. split; reflexivity.
  - rewrite (ia_opt _ _ _ I), opt_dir. destruct (first_aux_spec T tsdb_EOF _ _ (ia_aux _ _ _ I)) as (t & aux & -> & _ & Ht). eexists. split; [reflexivity|]. cbn. destruct Ht as [[-> _]|(Hne & [Ht|Ht] & _)]; [reflexivity|exact Ht|].
    apply Hc in Ht. apply elem_of_nil in Ht as [].
Qed.

Lemma next_time_more T t v S i : iter_at T ((t, v) :: S) i ->
  exists cur aux, next_time tsdb_EOF i = Some (next_round i t v cur aux) /\ t <> tsdb_EOF /\ Forall2 (desc_at T) aux auxd /\ source_at (Some t) S cur v.
Proof.
  intros I. pose proof (ia_cur _ _ _ I) as Hc. pose proof (ia_order _ _ _ I) as Ho. pose proof (ia_since _ _ _ I) as Hs. apply Forall_cons in Hs as [HT _]. cbn in HT. unfold next_time. destruct (it_cur i) as [c|] eqn:Ec.
  - destruct (cl_more c t v S Hc) as (Hne & c' & -> & Hc'). eexists _, _. split; [reflexivity|]. split; [exact Hne|]. split; [apply I|exact Hc'].
  - rewrite (ia_opt _ _ _ I), opt_dir. destruct Hc as [Fv Hc]. apply Forall_cons in Fv as [Ev Fv]. cbn in Ev. destruct (first_aux_spec T tsdb_EOF _ _ (ia_aux _ _ _ I)) as (u & aux & -> & FA & Ht). cbn [mbind option_bind].
    apply StronglySorted_inv in Ho as [Ho F]. rewrite Forall_forall in F. assert (t ∈ times T auxd) as Hin by (apply Hc; left). assert (forall w, w ∈ map fst S -> ahead_of t w = true) as Hw by (intros w Hw; apply list_elem_of_In, in_map_iff in Hw as (p & <- & Hp); apply (F p), list_elem_of_In, Hp).
    destruct Ht as [(_ & _ & Ht)|(Hne & Hu & Hall & _)]; [rewrite Ht in Hin; apply elem_of_nil in Hin as []|].
    assert (u = t) as ->.
    { assert (u ∈ times T auxd) as Hu' by (destruct Hu as [Hu|Hu]; [congruence|exact Hu]). apply Hc in Hu'. cbn in Hu'. apply elem_of_cons in Hu' as [Hu'|Hu']; [exact Hu'|]. destruct (Hall t Hin) as [->|Hlt]; [reflexivity|]. specialize (Hw u Hu'). unfold ahead_of in *. destruct asc; lia. }
    exists None, aux. subst v. split; [unfold next_round; rewrite (ia_opt _ _ _ I); reflexivity|]. split; [exact Hne|]. split; [exact FA|]. split; [exact Fv|]. intros w. rewrite (times_later T t auxd w HT), <- (Hc w). cbn. rewrite elem_of_cons. split; [intros Hw'; auto|].
    intros [[-> | Hw'] Ha]; [unfold ahead_of in Ha; destruct asc; lia|exact Hw'].
Qed.

(** One call of [Next]. *)
Lemma it_Next_spec fuel T S i : iter_at T S i -> Forall (fun d => length S + desc_len d < fuel)%nat (auxd ++ condd) -> (length S < fuel)%nat ->
  match List.filter given_point S with
  | [] => exists i', it_Next nil_value tsdb_EOF EvalBool fuel i = Some (None, i')
  | p :: l => exists i' S' T', it_Next nil_value tsdb_EOF EvalBool fuel i = Some (Some (as_point p), i') /\ iter_at T' S' i' /\ List.filter given_point S' = l /\ (length S' < length S)%nat
  end.
Proof.
  revert T S i. induction fuel as [|fuel IH]; intros T S i I Hd Hf; [lia|]. cbn [it_Next]. destruct S as [|[t v] S].
  { destruct (next_time_end T i I) as (i' & -> & E). cbn [mbind option_bind]. cbv zeta. rewrite E, Z.eqb_refl. eexists. reflexivity. }
  destruct (next_time_more T t v S i I) as (cur & aux & -> & Hne & FA & Hc'). cbn [mbind option_bind]. cbv zeta. unfold next_round. cbn [it_point pt_Time it_opt pt_Value it_aux it_names it_curs it_m pt_Aux it_cur it_stats it_statsBuf]. destruct (Z.eqb_spec t tsdb_EOF); [congruence|].
  rewrite (ia_opt _ _ _ I), opt_dir. pose proof (ia_order _ _ _ I) as Ho. pose proof Ho as Ho'. apply StronglySorted_inv in Ho' as [Ho' F]. pose proof (ia_since _ _ _ I) as Hs. apply Forall_cons in Hs as [HT _]. cbn in HT.
  destruct (in_range t) eqn:Er.
  2:{ rewrite (filter_none given_point).
      - assert ((asc && (t >? io_EndTime opt)) = true \/ (asc && (t >? io_EndTime opt)) = false /\ (negb asc && (t <? io_StartTime opt)) = true) as [-> | [-> ->]] by (unfold in_range in Er; destruct asc; cbn; lia); eexists; reflexivity.
      - constructor; [unfold given_point; cbn; rewrite Er; reflexivity|]. eapply Forall_impl; [exact F|]. intros p Hp. cbn in Hp. unfold given_point, in_range, ahead_of in *. destruct asc; destruct (holds p.1); lia. }
  assert ((asc && (t >? io_EndTime opt)) = false /\ (negb asc && (t <? io_StartTime opt)) = false) as [-> ->] by (unfold in_range in Er; destruct asc; cbn; lia).
  assert (forall k ds, Forall (fun d => length ((t, v) :: S) + desc_len d < k)%nat ds -> fits k ds) as Hfit by (intros k ds Hk; eapply Forall_impl; [exact Hk|]; intros d Hd'; cbn in *; lia).
  assert (Forall (fun d => length S + desc_len d < fuel)%nat (auxd ++ condd)) as Hd' by (eapply Forall_impl; [exact Hd|]; intros d Hd'; cbn in *; lia). apply Forall_app in Hd as [Hd1 Hd2].
  pose proof (Forall2_length _ _ _ FA) as La. destruct (read_aux_spec (Datatypes.S fuel) T t aux auxd (pt_Aux (it_point i)) FA HT (Hfit _ _ Hd1)) as (aux' & Ea & FA'); [rewrite (ia_vals _ _ _ I), (Forall2_length _ _ _ (ia_aux _ _ _ I)); auto|]. rewrite opt_aux, <- La, Ea. cbn [mbind option_bind].
  destruct (conds_step (Datatypes.S fuel) T t i _ I HT (Hfit _ _ Hd2)) as (m & cs & -> & FC & Hm & Eh). cbn [mbind option_bind]. cbn [it_cur it_aux it_names it_curs it_point it_stats it_statsBuf pt_Value]. rewrite Eh.
  assert (forall st sb, iter_at (Some t) S (mkIt cur aux' (it_names i) cs opt m (mkPoint t v (map (desc_value t) auxd)) st sb)) as I'.
  { intros st sb. split; cbn; [exact Hc'|exact Ho'|exact F|exact FA'|exact FC|reflexivity|apply I|rewrite length_map; symmetry; apply (Forall2_length _ _ _ FA')|exact Hm]. }
  assert (given_point (t, v) = holds t) as Eg by (unfold given_point; cbn; rewrite Er; reflexivity). cbn [List.filter]. rewrite Eg. destruct (holds t); cbn [negb].
  - eexists _, S, (Some t). split; [reflexivity|]. split; [|split; [reflexivity|cbn; lia]]. destruct (_ =? 0); apply I'.
  - specialize (IH (Some t) S _ (I' (it_stats i) (it_statsBuf i)) Hd' ltac:(cbn in Hf; lia)). destruct (List.filter given_point S) as [|p l]; [exact IH|].
    destruct IH as (i' & S' & T' & E & H1 & H2 & H3). exists i', S', T'. split; [exact E|]. cbn. auto with lia.
Qed.

(** All points. *)
Fixpoint it_drain (n fuel : nat) (i : iterator (C := C) (C0 := C0) (A := A) (Cond := Cond)) : option (list (point_of (A := A))) :=
  match n with
  | O => None
  | Datatypes.S n' => '(p, i) ← it_Next nil_value tsdb_EOF EvalBool fuel i; match p with None => Some [] | Some p => l ← it_drain n' fuel i; Some (p :: l) end
  end.

Lemma it_drain_spec n fuel T S i : iter_at T S i -> Forall (fun d => length S + desc_len d < fuel)%nat (auxd ++ condd) -> (length S < fuel)%nat -> (length S < n)%nat ->
  it_drain n fuel i = Some (map as_point (List.filter given_point S)).
Proof.
  revert T S i. induction n as [|n IH]; intros T S i I Hd Hf Hn; [lia|]. cbn [it_drain]. pose proof (it_Next_spec fuel T S i I Hd Hf) as H. destruct (List.filter given_point S) as [|p l].
  - destruct H as (i' & ->). reflexivity.
  - destruct H as (i' & S' & T' & -> & I' & <- & Hl). cbn [mbind option_bind]. rewrite (IH T' S' i' I') by (lia || (eapply Forall_impl; [exact Hd|]; intros d H; cbn in *; lia)). reflexivity.
Qed.

Lemma new_iter_at zero cur S aux conds : source_at None S cur zero -> in_order S -> Forall2 (desc_at None) aux auxd -> Forall2 (desc_at None) conds condd ->
  iter_at None S (newIterator zero opt cur aux conds names).
Proof.
  intros Hc Ho Fa Fc. split; cbn; [exact Hc|exact Ho|apply Forall_true; auto|exact Fa|exact Fc|reflexivity|reflexivity|apply length_replicate|].
  unfold map_ok. destruct (io_Condition opt); [|reflexivity]. exists ∅. split; [reflexivity|]. intros k [x Hx]. rewrite lookup_empty in Hx. discriminate.
Qed.
End Iterator.
End Buffered.
End Facts.
