(* ===== verification/IteratorRead.v ===== *)
(** * Iterators over the engine

    The cursors of the engine are streams, so that what the iterators give is what the
    fields of the series hold; and the limit. *)

From S2P Require Import Prelude Values Varint BoolCodec Simple8b TimeCodec IntCodec StringCodec BitReader FloatCodec ValueCodec Blocks BlockFacts TypedValues Bytes.
From S2P Require Import TSMWriter TSMIndex TSMDelete Tombstone TSMReader TSMFile TSMStore Ring Cache CacheFacts KeyIterator KeyMerge KeyTypes KeyFiles KeyCursor.
From S2P Require Import CursorFacts CursorStore ValueCursor ValueCursorFacts QueryRead Iterators IteratorFacts.

(** ** Typed cursors are streams *)

Section Typed.
Context {A : Type} {TR : TypedReader A} (tsdb_EOF : Z) (h : fileHeap) (asc : bool).

#[global] Instance typed_ops : CursorOps (sources A) A := {| cu_next := cur_next (point_cursor tsdb_EOF asc) h; cu_close h' c := '(_, h2) ← src_close h' c; Some h2 |}.

Definition typed_at (c : sources A) (l : list (Z * A)) : Prop :=
  exists rc rt, src_at ty_as (KeyCursor.ReadBlock unixnano ty_ReadAt) h asc c rc rt /\ no_eof tsdb_EOF rc /\ no_eof tsdb_EOF rt /\ l = map point (merged unixnano asc rc rt).

#[global, refine] Instance typed_laws : CursorLaws (CO := typed_ops) (sources A) A tsdb_EOF := {| cl_at := typed_at |}.
Proof.
  - intros c (rc & rt & H & Nc & Nt & E). symmetry in E. apply map_eq_nil in E. pose proof (next_spec ty_zero ty_as tsdb_EOF _ h asc (ty_time tsdb_EOF) c rc rt H Nc Nt) as Hn. rewrite E in Hn. exists ty_zero, c. split; [exact Hn|]. exists rc, rt. rewrite E. auto.
  - intros c t x l (rc & rt & H & Nc & Nt & E). pose proof (next_spec ty_zero ty_as tsdb_EOF _ h asc (ty_time tsdb_EOF) c rc rt H Nc Nt) as Hn. pose proof (merged_no_eof tsdb_EOF asc rc rt Nc Nt) as Nm. destruct (merged unixnano asc rc rt) as [|y m]; [discriminate|].
    injection E as E1 E2 ->. apply Forall_cons in Nm as [Ny _]. destruct Hn as (c' & rc' & rt' & En & H' & Nc' & Nt' & Em). split; [congruence|]. exists c'. split; [rewrite E1, E2; exact En|]. exists rc', rt'. rewrite Em. auto.
Defined.
End Typed.

(** A field that is read is the stream of its values. *)
Section Field.
Context {A : Type} {TR : TypedReader A} `{BU : BytesUtil} (Sum64 : list Z -> Z) (tsdb_EOF : Z).
Context (sort_Sort : (location -> location -> bool) -> list location -> list location) (sort_ok : sorts sort_Sort).
Context (seriesKey field : list Z) (opt : IteratorOptions) (e : engine) (fs : list (tsmFile * list (kblock (V := tv A)))) (cv : list Value) (cache' : Cache) (xs : list (tv A)).

Lemma field_stream : readable Sum64 tsdb_EOF seriesKey field opt e fs cv cache' xs ->
  exists c e' l, build_cursor Sum64 tsdb_EOF sort_Sort (point_cursor tsdb_EOF) seriesKey field opt e = Some (c, e') /\ typed_at tsdb_EOF (eng_heap e') (opt_Ascending opt) c l /\ in_order (opt_Ascending opt) l
    /\ forall t v, value_at t l = Some v <-> value <$> field_values seriesKey field opt fs xs !! t = Some v.
Proof.
  intros R. destruct (query_sources Sum64 tsdb_EOF sort_Sort sort_ok seriesKey field opt e fs cv cache' xs R) as (k & h' & outs & Es & G & Nc & Nt & Hs & Hi & Hm).
  destruct (new_spec ty_zero ty_as tsdb_EOF _ h' (opt_Ascending opt) (ty_time tsdb_EOF) _ cv xs k outs G (rd_eof _ _ _ _ _ _ _ _ _ _ R)) as (c & Ec & Hc). set (m := merged unixnano (opt_Ascending opt) (rest_cache (opt_Ascending opt) (opt_SeekTime opt) xs) (rest_tsm (opt_Ascending opt) outs)) in *.
  exists c, (mkEngine cache' h' (eng_files e)), (map point m). split; [unfold build_cursor; rewrite Es; cbn [mbind option_bind]; unfold point_cursor; cbn [eng_heap]; rewrite Ec; reflexivity|].
  split; [eexists _, _; split; [exact Hc|auto]|]. split; [unfold in_order; clear -Hs; induction Hs as [|x l H IH F]; [constructor|]; cbn; constructor; [exact IH|]; rewrite Forall_map; exact F|].
  intros t v. rewrite <- Hm. assert (forall x, to_map unixnano (in_dir (opt_Ascending opt) m) !! t = Some x <-> x ∈ m /\ unixnano x = t) as Hl by (intros x; rewrite increasing_map_lookup by exact Hi; rewrite in_dir_elem; reflexivity).
  assert (forall l, NoDup (map unixnano l) -> value_at t (map point l) = Some v <-> exists x : tv A, x ∈ l /\ unixnano x = t /\ value x = v) as Hv.
  { clear. intros l. induction l as [|y l IH]; cbn; intros Hn; [split; [discriminate|intros (x & Hx & _); apply elem_of_nil in Hx as []]|]. apply NoDup_cons in Hn as [Hy Hn]. destruct (Z.eqb_spec (unixnano y) t) as [Et|Et].
    - split; [intros [= <-]; exists y; split; [left|auto]|]. intros (x & Hx & Ex & <-). apply elem_of_cons in Hx as [-> | Hx]; [reflexivity|]. exfalso. apply Hy. rewrite Et, <- Ex. apply elem_of_map, Hx.
    - rewrite (IH Hn). split; intros (x & Hx & H); exists x; [split; [right; exact Hx|exact H]|]. apply elem_of_cons in Hx as [-> | Hx]; [tauto|]. auto. }
  rewrite Hv.
  - rewrite fmap_Some. setoid_rewrite Hl. split; [intros (x & Hx & Et & Ev); exists x; auto|intros (x & [Hx Et] & Ev); exists x; auto].
  - clear -Hs. induction Hs as [|x l H IH F]; [constructor|]. cbn. apply NoDup_cons. split; [|exact IH]. intros Hx. apply list_elem_of_In, in_map_iff in Hx as (y & Ey & Hy). rewrite Forall_forall in F. specialize (F y (proj2 (list_elem_of_In _ _) Hy)). apply before_ne in F. congruence.
Qed.
End Field.

(** ** Cursors of any type are streams *)

Section Any.
Context `{S8 : Simple8b} `{SN : Snappy} `{BS : BitStream} (q : decoders) (tsdb_EOF : Z) (machine_int machine_uint : Z -> Z) (h : fileHeap).

#[global] Instance any_ops : CursorOps cursor any := {| cu_next := cursor_next q tsdb_EOF machine_int machine_uint h; cu_close := cursor_close |}.

(** The points of a typed stream as those of an untyped one. *)
Definition wrapped {A} (wrap : A -> any) (l : list (Z * A)) : list (Z * any) := map (fun p => (p.1, wrap p.2)) l.
Definition stands {A} (TR : TypedReader A) (asc : bool) (s : sources A) (wrap : A -> any) (l : list (Z * any)) : Prop := exists k, typed_at tsdb_EOF h asc s k /\ l = wrapped wrap k.

Definition any_at (c : cursor) (l : list (Z * any)) : Prop :=
  match c with
  | FloatCursor asc s => stands (float_type q) asc s AFloat l
  | IntegerCursor asc s => stands (integer_type q) asc s AInteger l
  | UnsignedCursor asc s => stands (unsigned_type q) asc s AUnsigned l
  | StringCursor asc s => stands (string_type q) asc s AString l
  | BooleanCursor asc s => stands (boolean_type q) asc s ABoolean l
  | floatCastIntegerCursor asc s => stands (integer_type q) asc s (fun v => AFloat (float64_of v)) l
  | floatCastUnsignedCursor asc s => stands (unsigned_type q) asc s (fun v => AFloat (float64_of v)) l
  | integerCastFloatCursor asc s => stands (float_type q) asc s (fun v => AInteger (int64_of_float machine_int v)) l
  | integerCastUnsignedCursor asc s => stands (unsigned_type q) asc s (fun v => AInteger (i64 v)) l
  | unsignedCastFloatCursor asc s => stands (float_type q) asc s (fun v => AUnsigned (uint64_of_float machine_uint v)) l
  | unsignedCastIntegerCursor asc s => stands (integer_type q) asc s (fun v => AUnsigned (u64 v)) l
  | stringSliceCursor values => tsdb_EOF <> 0 /\ l = map (fun v => (0, AString v)) values
  end.

Lemma stands_end {A} (TR : TypedReader A) asc s wrap back : stands TR asc s wrap [] ->
  exists x s', step_as h (point_cursor tsdb_EOF asc) s wrap back = Some ((tsdb_EOF, x), back s') /\ stands TR asc s' wrap [].
Proof.
  intros (k & Hk & E). symmetry in E. apply map_eq_nil in E. subst k. destruct (cl_end (CursorLaws := typed_laws tsdb_EOF h asc) s Hk) as (x & s' & En & H'). cbn in En. unfold step_as. rewrite En. cbn. eexists _, s'. split; [reflexivity|]. exists []. auto.
Qed.

Lemma stands_more {A} (TR : TypedReader A) asc s wrap back t x l : stands TR asc s wrap ((t, x) :: l) ->
  t <> tsdb_EOF /\ exists s', step_as h (point_cursor tsdb_EOF asc) s wrap back = Some ((t, x), back s') /\ stands TR asc s' wrap l.
Proof.
  intros ([|[u v] k] & Hk & E); [discriminate|]. injection E as -> -> ->. destruct (cl_more (CursorLaws := typed_laws tsdb_EOF h asc) s u v k Hk) as (Hne & s' & En & H'). split; [exact Hne|]. cbn in En. unfold step_as. rewrite En. cbn. exists s'. split; [reflexivity|]. exists k. auto.
Qed.

#[global, refine] Instance any_laws : CursorLaws (CO := any_ops) cursor any tsdb_EOF := {| cl_at := any_at |}.
Proof.
  - intros c H. destruct c as [a s|a s|a s|a s|a s|a s|a s|a s|a s|a s|a s|values]; cbn [any_at] in H;
      try (match goal with |- context [cu_next (?K a s)] => destruct (stands_end _ a s _ (K a) H) as (y & s2 & E & H2) end; eexists _, _; split; [exact E|exact H2]).
    destruct H as [Hne E]. destruct values; [|discriminate]. eexists _, (stringSliceCursor []). split; [reflexivity|]. split; [exact Hne|reflexivity].
  - intros c t x l H. destruct c as [a s|a s|a s|a s|a s|a s|a s|a s|a s|a s|a s|values]; cbn [any_at] in H;
      try (match goal with |- context [cu_next (?K a s)] => destruct (stands_more _ a s _ (K a) t x l H) as (Hne & s2 & E & H2) end; split; [exact Hne|]; eexists; split; [exact E|exact H2]).
    destruct H as [Hne E]. destruct values as [|v values]; [discriminate|]. injection E as -> -> ->. split; [congruence|]. exists (stringSliceCursor values). split; [reflexivity|]. split; [exact Hne|reflexivity].
Defined.

Lemma any_nil_same c kv c' : cursor_next q tsdb_EOF machine_int machine_uint h c = Some (kv, c') -> nil_of c' = nil_of c.
Proof.
  destruct c as [a s|a s|a s|a s|a s|a s|a s|a s|a s|a s|a s|[|v values]]; cbn [cursor_next]; unfold step_as; intros E; try (injection E as _ <-; reflexivity);
    match type of E with (?o ≫= _) = _ => destruct o as [[[? ?] ?]|]; [|discriminate] end; cbn in E; injection E as _ <-; reflexivity.
Qed.
End Any.

(** ** Conversions *)

Lemma float_fields e m : 0 <= e < 2 ^ 11 -> 0 <= m < 2 ^ 52 -> let b := e * 2 ^ 52 + m in b / 2 ^ 63 = 0 /\ (b / 2 ^ 52) mod 2 ^ 11 = e /\ b mod 2 ^ 52 = m /\ (2 ^ 63 + b) / 2 ^ 63 = 1 /\ ((2 ^ 63 + b) / 2 ^ 52) mod 2 ^ 11 = e /\ (2 ^ 63 + b) mod 2 ^ 52 = m.
Proof.
  intros He Hm b. assert (b / 2 ^ 52 = e) as E1 by (unfold b; rewrite Z.div_add_l, (Z.div_small m) by lia; lia). assert (b mod 2 ^ 52 = m) as E2 by (unfold b; rewrite Z.add_comm, Z.mod_add, Z.mod_small by lia; lia).
  assert (0 <= b < 2 ^ 63) as Hb by (unfold b; lia).
  assert ((2 ^ 63 + b) / 2 ^ 52 = 2 ^ 11 + e) as E3 by (replace (2 ^ 63 + b) with (2 ^ 11 * 2 ^ 52 + b) by lia; rewrite Z.div_add_l, E1 by lia; reflexivity).
  assert ((2 ^ 63 + b) mod 2 ^ 52 = m) as E4 by (replace (2 ^ 63 + b) with (b + 2 ^ 11 * 2 ^ 52) by lia; rewrite Z.mod_add, E2 by lia; reflexivity).
  rewrite E1, E2, E3, E4. split; [apply Z.div_small, Hb|]. split; [apply Z.mod_small, He|]. split; [reflexivity|]. split; [replace (2 ^ 63 + b) with (1 * 2 ^ 63 + b) by lia; rewrite Z.div_add_l, (Z.div_small b) by lia; lia|]. split; [|reflexivity].
  replace (2 ^ 11 + e) with (e + 1 * 2 ^ 11) by lia. rewrite Z.mod_add, Z.mod_small by lia. reflexivity.
Qed.

Lemma magnitude_exact a : 0 < a < 2 ^ 53 -> exists e m, float_magnitude a = e * 2 ^ 52 + m /\ 0 < e < 2047 /\ 0 <= m < 2 ^ 52
  /\ (if e - 1075 >=? 0 then (2 ^ 52 + m) * 2 ^ (e - 1075) else (2 ^ 52 + m) / 2 ^ (1075 - e)) = a.
Proof.
  intros Ha. destruct (Z.log2_spec a) as [L1 L2]; [lia|]. set (e := Z.log2 a) in *. assert (0 <= e <= 52) as He.
  { split; [apply Z.log2_nonneg|]. assert (e < 53); [|lia]. apply (Z.pow_lt_mono_r_iff 2); lia. }
  exists (e + 1023), (a * 2 ^ (52 - e) - 2 ^ 52). assert (2 ^ 52 <= a * 2 ^ (52 - e) < 2 ^ 53) as Hq.
  { replace (2 ^ 52) with (2 ^ e * 2 ^ (52 - e)) by (rewrite <- Z.pow_add_r by lia; f_equal; lia). replace (2 ^ 53) with (2 ^ Z.succ e * 2 ^ (52 - e)) by (rewrite <- Z.pow_add_r by lia; f_equal; lia). pose proof (Z.pow_pos_nonneg 2 (52 - e)). nia. }
  split; [unfold float_magnitude; fold e; destruct (Z.eqb_spec a 0); [lia|]; destruct (Z.leb_spec e 52); [reflexivity|lia]|]. split; [lia|]. split; [lia|].
  replace (2 ^ 52 + (a * 2 ^ (52 - e) - 2 ^ 52)) with (a * 2 ^ (52 - e)) by lia. destruct (Z.geb_spec (e + 1023 - 1075) 0).
  - replace e with 52 by lia. cbn. lia.
  - replace (1075 - (e + 1023)) with (52 - e) by lia. apply Z.div_mul. pose proof (Z.pow_pos_nonneg 2 (52 - e)). lia.
Qed.

(** An integer of up to 53 bits read as a float and back is itself. *)
Lemma cast_exact v mi : - 2 ^ 53 < v < 2 ^ 53 -> int64_of_float mi (float64_of v) = v.
Proof.
  intros Hv. enough (float_trunc (float64_of v) = Some v) as Ht by (unfold int64_of_float; rewrite Ht; zcases; cbn; lia || reflexivity). destruct (Z.eq_dec v 0) as [-> | Hne]; [reflexivity|].
  unfold float64_of, float_trunc. destruct (Z.ltb_spec v 0).
  - destruct (magnitude_exact (- v)) as (e & m & -> & He & Hm & E); [lia|]. destruct (float_fields e m) as (_ & _ & _ & -> & -> & ->); [lia|lia|]. destruct (Z.eqb_spec e 2047); [lia|]. destruct (Z.eqb_spec e 0); [lia|]. rewrite E. cbn. f_equal. lia.
  - destruct (magnitude_exact v) as (e & m & -> & He & Hm & E); [lia|]. destruct (float_fields e m) as (-> & -> & -> & _); [lia|lia|]. destruct (Z.eqb_spec e 2047); [lia|]. destruct (Z.eqb_spec e 0); [lia|]. rewrite E. reflexivity.
Qed.

(** ** The limit *)

Section Drain.
Context {I P : Type} (next : I -> option (option P * I)).

Fixpoint drain (n : nat) (i : I) : option (list P) :=
  match n with
  | O => None
  | S n' => '(p, i) ← next i; match p with None => Some [] | Some p => l ← drain n' i; Some (p :: l) end
  end.
End Drain.

(** The limit iterator stops one point after the offset and the limit: what is above
    it drops the rest. *)
Lemma limit_drain {I P} (next : I -> option (option P * I)) n i l off lim k : drain next n i = Some l -> 0 <= k -> k <= off + lim + 1 ->
  drain (li_Next next) n (mkLimit i off lim k) = Some (take (Z.to_nat (off + lim + 1 - k)) l).
Proof.
  revert i l k. induction n as [|n IH]; intros i l k E Hk Hle; [discriminate|]. cbn [drain] in *.
  assert (li_Next next (mkLimit i off lim k) = if k - off >? lim then Some (None, mkLimit i off lim k)
    else '(p, i) ← next i; match p with None => Some (None, mkLimit i off lim k) | Some p => Some (Some p, mkLimit i off lim (k + 1)) end) as -> by reflexivity.
  destruct (Z.gtb_spec (k - off) lim); [cbn [mbind option_bind]; replace (Z.to_nat (off + lim + 1 - k)) with 0%nat by lia; rewrite take_0; reflexivity|].
  destruct (next i) as [[[p|] i']|]; cbn [mbind option_bind] in *; [|injection E as <-; rewrite take_nil; reflexivity|discriminate].
  destruct (drain next n i') as [l'|] eqn:El; [|discriminate]. cbn in E. injection E as <-. rewrite (IH i' l' (k + 1) El) by lia. cbn [mbind option_bind].
  replace (Z.to_nat (off + lim + 1 - k)) with (S (Z.to_nat (off + lim + 1 - (k + 1)))) by lia. reflexivity.
Qed.

(** ** What an iterator gives *)

Section Iterate.
Context `{S8 : Simple8b} `{SN : Snappy} `{BS : BitStream} (q : decoders) (tsdb_EOF : Z) (machine_int machine_uint : Z -> Z) (h : fileHeap) (asc : bool).
Context {A : Type} {TR : TypedReader A} {Cond : Type} (EvalBool : Cond -> gmap string any -> bool).
Context (opt : iter_opt (Cond := Cond)) (names : list string) (auxd condd : list aux_desc).

#[local] Existing Instance typed_ops.
#[local] Existing Instance typed_laws.
#[local] Existing Instance any_ops.
#[local] Existing Instance any_laws.

Definition engine_iterator_Next (fuel : nat) := it_Next (CO := any_ops q tsdb_EOF machine_int machine_uint h) nil_of tsdb_EOF (CO0 := typed_ops tsdb_EOF h asc) EvalBool fuel.

(** What the other cursors stand for. *)
Definition others (cs : list (cursorAt (C := cursor))) (ds : list aux_desc) : Prop :=
  Forall2 (desc_at asc tsdb_EOF (CL := any_laws q tsdb_EOF machine_int machine_uint h) nil_of None) cs ds.

(** The points the times come from. *)
Definition points_of (cur : option (sources A)) (zero : A) (S : list (Z * A)) : Prop := source_at asc tsdb_EOF (CL0 := typed_laws tsdb_EOF h asc) auxd None S cur zero.

Lemma drain_iter fuel n i : drain (engine_iterator_Next fuel) n i = it_drain tsdb_EOF (CO := any_ops q tsdb_EOF machine_int machine_uint h) nil_of (CO0 := typed_ops tsdb_EOF h asc) EvalBool n fuel i.
Proof. revert i. induction n as [|n IH]; intros i; [reflexivity|]. cbn [drain it_drain]. change (it_Next nil_of tsdb_EOF EvalBool fuel i) with (engine_iterator_Next fuel i). destruct (engine_iterator_Next fuel i) as [[[p|] i']|]; [|reflexivity|reflexivity]. cbn [mbind option_bind]. rewrite IH. reflexivity. Qed.

(** C10 (functional). An iterator over the cursors of the engine gives, in order, one
    point for every point of its main cursor that is not beyond the far end of the
    range of the query and meets the condition; each carries the values the auxiliary fields have at exactly
    its time, or the nil of their type, and the condition sees the values of its fields
    at that time.  Without a main cursor there is a point for every time at which some
    auxiliary field has a value.  Under a limit the points end one after the offset
    and the limit together.  The number of calls and of steps within them is bounded
    by the points that are left. *)
Theorem iterator_points (zero : A) (cur : option (sources A)) (S : list (Z * A)) (aux conds : list (cursorAt (C := cursor))) (off lim : Z) (fuel : nat) :
  io_Ascending opt = asc -> io_Aux opt = length auxd -> length names = length condd -> (io_Condition opt = None -> condd = []) ->
  points_of cur zero S -> in_order asc S -> others aux auxd -> others conds condd ->
  Forall (fun d => length S + desc_len d < fuel)%nat (auxd ++ condd) -> (length S < fuel)%nat -> 0 <= off + lim + 1 ->
  let i := newIterator zero opt cur aux conds names in
  let out := map (as_point auxd) (List.filter (given_point asc EvalBool opt names condd) S) in
  drain (engine_iterator_Next fuel) (Datatypes.S (length S)) i = Some out
  /\ drain (li_Next (engine_iterator_Next fuel)) (Datatypes.S (length S)) (newLimitIterator i off lim) = Some (take (Z.to_nat (off + lim + 1)) out).
Proof.
  intros H1 H2 H3 H4 Hs Ho Ha Hc Hd Hf Hl i out. assert (drain (engine_iterator_Next fuel) (Datatypes.S (length S)) i = Some out) as E.
  { rewrite drain_iter. apply (it_drain_spec asc tsdb_EOF (CO := any_ops q tsdb_EOF machine_int machine_uint h) (CL := any_laws q tsdb_EOF machine_int machine_uint h) nil_of (CO0 := typed_ops tsdb_EOF h asc) (CL0 := typed_laws tsdb_EOF h asc) (any_nil_same q tsdb_EOF machine_int machine_uint h) EvalBool opt names auxd condd H1 H2 H3 H4 _ fuel None S); [|exact Hd|exact Hf|lia]. apply new_iter_at; assumption. }
  split; [exact E|]. unfold newLimitIterator. rewrite (limit_drain _ _ _ _ off lim 0 E) by lia. rewrite Z.sub_0_r. reflexivity.
Qed.
End Iterate.

(** ** The five instances *)

Section Instances.
Context `{S8 : Simple8b} `{SN : Snappy} `{BS : BitStream} (q : decoders) (tsdb_EOF : Z) (machine_int machine_uint : Z -> Z) (h : fileHeap) (asc : bool).
Context {Cond : Type} (EvalBool : Cond -> gmap string any -> bool).

Definition newFloatIterator := newIterator (C := cursor) (C0 := sources Z) (Cond := Cond) (0 : Z).
Definition floatIterator_Next := engine_iterator_Next (TR := float_type q) q tsdb_EOF machine_int machine_uint h asc EvalBool.
Definition floatIterator_Close := it_Close (Cond := Cond) (CO := any_ops q tsdb_EOF machine_int machine_uint h) (CO0 := typed_ops (TR := float_type q) tsdb_EOF h asc).
Definition floatLimitIterator_Next (fuel : nat) := li_Next (floatIterator_Next fuel).

Definition newIntegerIterator := newIterator (C := cursor) (C0 := sources Z) (Cond := Cond) (0 : Z).
Definition integerIterator_Next := engine_iterator_Next (TR := integer_type q) q tsdb_EOF machine_int machine_uint h asc EvalBool.
Definition integerIterator_Close := it_Close (Cond := Cond) (CO := any_ops q tsdb_EOF machine_int machine_uint h) (CO0 := typed_ops (TR := integer_type q) tsdb_EOF h asc).
Definition integerLimitIterator_Next (fuel : nat) := li_Next (integerIterator_Next fuel).

Definition newUnsignedIterator := newIterator (C := cursor) (C0 := sources Z) (Cond := Cond) (0 : Z).
Definition unsignedIterator_Next := engine_iterator_Next (TR := unsigned_type q) q tsdb_EOF machine_int machine_uint h asc EvalBool.
Definition unsignedIterator_Close := it_Close (Cond := Cond) (CO := any_ops q tsdb_EOF machine_int machine_uint h) (CO0 := typed_ops (TR := unsigned_type q) tsdb_EOF h asc).
Definition unsignedLimitIterator_Next (fuel : nat) := li_Next (unsignedIterator_Next fuel).

Definition newStringIterator := newIterator (C := cursor) (C0 := sources (list Z)) (Cond := Cond) ([] : (list Z)).
Definition stringIterator_Next := engine_iterator_Next (TR := string_type q) q tsdb_EOF machine_int machine_uint h asc EvalBool.
Definition stringIterator_Close := it_Close (Cond := Cond) (CO := any_ops q tsdb_EOF machine_int machine_uint h) (CO0 := typed_ops (TR := string_type q) tsdb_EOF h asc).
Definition stringLimitIterator_Next (fuel : nat) := li_Next (stringIterator_Next fuel).

Definition newBooleanIterator := newIterator (C := cursor) (C0 := sources bool) (Cond := Cond) (false : bool).
Definition booleanIterator_Next := engine_iterator_Next (TR := boolean_type q) q tsdb_EOF machine_int machine_uint h asc EvalBool.
Definition booleanIterator_Close := it_Close (Cond := Cond) (CO := any_ops q tsdb_EOF machine_int machine_uint h) (CO0 := typed_ops (TR := boolean_type q) tsdb_EOF h asc).
Definition booleanLimitIterator_Next (fuel : nat) := li_Next (booleanIterator_Next fuel).
End Instances.

(** * Iterators on a concrete engine

    A query over the small engine of [QueryRead]: the field itself once more and a
    literal as auxiliary values, and a condition on the field. *)

#[local] Existing Instances plain_words plain_laws list_stream list_stream_laws id_snappy id_snappy_laws list_bytesutil id_gzip ex_blocks.
#[local] Instance int_type_ex : TypedReader Z := integer_type decoders_ex.

(** The condition [f > n]. *)
Definition more_than (n : Z) (m : gmap string any) : bool := match m !! "f"%string with Some (AInteger v) => v >? n | _ => false end.
Definition query_opt (n : Z) : iter_opt (Cond := Z) := mkIO true 0 8 2 (Some n).

Definition field_again (c : sources Z) : cursorAt (C := cursor) := CBuf (newBufCursor (IntegerCursor true c) true).

Definition run_query (n : Z) : option (list (Z * Z * list any)) :=
  '(c, e) ← buildIntegerCursor sum_ex MinInt64 insertion_sort decoders_ex [97] [102] up small_engine;
  l ← drain (engine_iterator_Next decoders_ex MinInt64 id id (eng_heap e) true more_than 20) 10 (newIterator 0 (query_opt n) (Some c) [field_again c; CLit (AString [120])] [field_again c] ["f"%string]);
  Some (map (fun p => (pt_Time p, pt_Value p, pt_Aux p)) l).
Definition run_aux_only : option (list (Z * list any)) :=
  '(c, e) ← buildIntegerCursor sum_ex MinInt64 insertion_sort decoders_ex [97] [102] up small_engine;
  l ← drain (engine_iterator_Next decoders_ex MinInt64 id id (eng_heap e) true more_than 20) 10 (newIterator 0 (mkIO true 0 8 2 None) None [field_again c; CLit (AString [120])] [] []);
  Some (map (fun p => (pt_Time p, pt_Aux p)) l).

Example query_all : run_query 0 = Some [(3, 11, [AInteger 11; AString [120]]); (5, 55, [AInteger 55; AString [120]]); (7, 70, [AInteger 70; AString [120]])].
Proof. vm_compute. reflexivity. Qed.
Example query_some : run_query 50 = Some [(5, 55, [AInteger 55; AString [120]]); (7, 70, [AInteger 70; AString [120]])].
Proof. vm_compute. reflexivity. Qed.
Example query_aux_only : run_aux_only = Some [(3, [AInteger 11; AString [120]]); (5, [AInteger 55; AString [120]]); (7, [AInteger 70; AString [120]])].
Proof. vm_compute. reflexivity. Qed.

Lemma wrapped_order (S : list (Z * Z)) : in_order true S -> in_order true (wrapped AInteger S).
Proof. unfold in_order, wrapped. induction 1 as [|p l H IH F]; cbn; constructor; [exact IH|]. rewrite Forall_map. exact F. Qed.

Lemma field_again_at h c S : typed_at MinInt64 h true c S -> in_order true S ->
  desc_at true MinInt64 (CL := any_laws decoders_ex MinInt64 id id h) nil_of None (field_again c) (DStream NilInteger (wrapped AInteger S)).
Proof. intros Ht Ho. split; [apply wrapped_order, Ho|]. split; [reflexivity|]. exists (IntegerCursor true c). split; [reflexivity|]. split; [reflexivity|]. exists S. split; [exact Ht|reflexivity]. Qed.

Lemma iterator_points_witness :
  exists c e' S, build_cursor sum_ex MinInt64 insertion_sort (point_cursor MinInt64) [97] [102] up small_engine = Some (c, e') /\
    let auxd := [DStream NilInteger (wrapped AInteger S); DLit (AString [120])] in
    let condd := [DStream NilInteger (wrapped AInteger S)] in
    let fuel := Datatypes.S (length S + length S) in
    let i := newIterator 0 (query_opt 50) (Some c) [field_again c; CLit (AString [120])] [field_again c] ["f"%string] in
    let out := map (as_point auxd) (List.filter (given_point true more_than (query_opt 50) ["f"%string] condd) S) in
    drain (engine_iterator_Next decoders_ex MinInt64 id id (eng_heap e') true more_than fuel) (Datatypes.S (length S)) i = Some out
    /\ drain (li_Next (engine_iterator_Next decoders_ex MinInt64 id id (eng_heap e') true more_than fuel)) (Datatypes.S (length S)) (newLimitIterator i 0 1) = Some (take 2 out).
Proof.
  destruct (field_stream sum_ex MinInt64 insertion_sort insertion_sorts [97] [102] up small_engine small_files (ints [(5, 55); (9, 90)]) small_cache (points [(5, 55); (9, 90)]) (small_readable up (or_introl eq_refl))) as (c & e' & S & Eb & Ht & Ho & _).
  exists c, e', S. split; [exact Eb|]. cbv zeta. assert (length (wrapped AInteger S) = length S) as El by apply length_map. pose proof (field_again_at (eng_heap e') c S Ht Ho) as Hfa.
  assert (others decoders_ex MinInt64 id id (eng_heap e') true [field_again c; CLit (AString [120])] [DStream NilInteger (wrapped AInteger S); DLit (AString [120])]) as Ha by (constructor; [exact Hfa|]; constructor; [reflexivity|constructor]).
  assert (others decoders_ex MinInt64 id id (eng_heap e') true [field_again c] [DStream NilInteger (wrapped AInteger S)]) as Hc by (constructor; [exact Hfa|constructor]).
  refine (iterator_points decoders_ex MinInt64 id id (eng_heap e') true more_than (query_opt 50) ["f"%string] [DStream NilInteger (wrapped AInteger S); DLit (AString [120])] [DStream NilInteger (wrapped AInteger S)] 0 (Some c) S
    [field_again c; CLit (AString [120])] [field_again c] 0 1 _ eq_refl eq_refl eq_refl _ Ht Ho Ha Hc _ _ _); [discriminate| |lia|lia].
  cbn [app]. apply Forall_cons. split; [|apply Forall_cons; split; [|apply Forall_cons; split; [|apply Forall_nil]]]; cbn [desc_len]; rewrite ?El; lia.
Defined.
