(* ===== verification/FileStoreKeys.v ===== *)
(** * The keys of a file store

    [FileStore.WalkKeys], [Keys], [Type] and the merge of key streams of
    [tsdb/engine/tsm1/file_store.go].  A stream is a channel that one goroutine
    fills and closes and one goroutine drains, so what comes out of it is a list,
    whatever the scheduling.  The theorem: [Keys] holds exactly the keys of the
    files, each with the type that [Type] gives.  The merge drops duplicates, so
    that the walk passes a key once ([walk_keys_once]), where its comment says
    once for each file. *)

From S2P Require Import Prelude Values Varint Simple8b TimeCodec IntCodec BoolCodec StringCodec BitReader FloatCodec ValueCodec Blocks TypedValues.
From S2P Require Import Bytes TSMWriter TSMIndex TSMIndexFacts TSMDelete Tombstone TSMReader TSMFile TSMStore KeyIterator KeyFiles KeyCursor CursorStore.

(** ** Streams *)

Definition seriesKey : Type := list Z * Z.

(** A key that is empty, which is also what a closed channel gives. *)
Definition no_key (x : seriesKey) : bool := (length x.1 =? 0)%nat.

(** Merging two streams; the heads of the lists are the values in the buffers
    [av] and [bv].  When one of them is empty, the other is sent and what is left
    of the two streams is sent one after the other. *)
Fixpoint merge_two (l : list seriesKey) : list seriesKey -> list seriesKey :=
  fix go (r : list seriesKey) : list seriesKey :=
    match l, r with
    | [], [] => []
    | [], b :: r' => if no_key b then r' else b :: r'
    | a :: l', [] => if no_key a then l' else a :: l'
    | a :: l', b :: r' =>
        if no_key a && no_key b then l' ++ r'
        else if no_key a then b :: l' ++ r'
        else if no_key b then a :: l' ++ r'
        else match bytes_compare a.1 b.1 with
             | Lt => a :: merge_two l' r
             | Eq => a :: merge_two l' r'
             | Gt => b :: go r'
             end
    end.

(** The recursion halves the list of streams; [fuel] bounds its depth. *)
Fixpoint merge_n (fuel : nat) (c : list (list seriesKey)) : list seriesKey :=
  match fuel with
  | O => []
  | S fuel =>
      match c with
      | [] => []
      | [a] => a
      | [a; b] => merge_two a b
      | _ => let half := (length c / 2)%nat in merge_two (merge_n fuel (take half c)) (merge_n fuel (drop half c))
      end
  end.

Definition merge (c : list (list seriesKey)) : list seriesKey := merge_n (S (length c)) c.

(** ** Walking *)

(** What the goroutine of a file sends: [KeyAt] of every position below the count
    of keys it saw first. *)
Definition file_keys (r : TSMReader) : res werr (list seriesKey) :=
  foldr (fun (i : nat) acc => match ix_KeyAt (rd_index r) (Z.of_nat i), acc with
                      | Ok x, Ok l => Ok (x :: l)
                      | Err e, _ | _, Err e => Err e
                      | _, _ => Panic
                      end) (Ok []) (seq 0 (Z.to_nat (ix_KeyCount (rd_index r)))).

Fixpoint streams (files : list tsmFile) : res werr (list (list seriesKey)) :=
  match files with
  | [] => Ok []
  | f :: files => match file_keys (tf_rd f), streams files with
                  | Ok l, Ok c => Ok (l :: c)
                  | Err e, _ | _, Err e => Err e
                  | _, _ => Panic
                  end
  end.

Section Walk.
Context {S E : Type} (fn : list Z -> Z -> S -> option E * S).

Fixpoint for_each (l : list seriesKey) (s : S) : option E * S :=
  match l with
  | [] => (None, s)
  | (key, typ) :: l => match fn key typ s with (None, s') => for_each l s' | (Some e, s') => (Some e, s') end
  end.

Definition WalkKeys (files : list tsmFile) (s : S) : res werr (option E * S) :=
  match files with
  | [] => Ok (None, s)
  | _ => match streams files with Ok c => Ok (for_each (merge c) s) | Err e => Err e | Panic => Panic end
  end.
End Walk.

(** The map is [nil] when the walk fails, which it does not: the callback has no
    error. *)
Definition Keys (files : list tsmFile) : res werr (option (gmap (list Z) Z)) :=
  match WalkKeys (E := werr) (fun key typ m => (None, <[key := typ]> m)) files ∅ with
  | Ok (None, m) => Ok (Some m)
  | Ok (Some _, _) => Ok None
  | Err e => Err e
  | Panic => Panic
  end.

Section Type_.
Context `{BU : BytesUtil}.

Fixpoint fs_Type (files : list tsmFile) (key : list Z) : res werr Z :=
  match files with
  | [] => Err (ErrFormat "unknown type")
  | f :: files => match ix_Contains (rd_index (tf_rd f)) key with
                  | Ok true => ix_Type (rd_index (tf_rd f)) key
                  | Ok false => fs_Type files key
                  | Err e => Err e
                  | Panic => Panic
                  end
  end.
End Type_.

(** ** Merging streams *)

Definition key_sorted (l : list seriesKey) : Prop := StronglySorted (fun x y => bytes_lt x.1 y.1) l.
Definition stream_ok (l : list seriesKey) : Prop := key_sorted l /\ Forall (fun x => no_key x = false) l.

(** The type a stream has for a key. *)
Definition assoc (key : list Z) (l : list seriesKey) : option Z := snd <$> List.find (fun x => bool_decide (x.1 = key)) l.

Fixpoint first_some {A} (l : list (option A)) : option A :=
  match l with [] => None | Some x :: _ => Some x | None :: l => first_some l end.

Definition or_else {A} (a b : option A) : option A := match a with Some x => Some x | None => b end.

Lemma first_some_app {A} (l k : list (option A)) : first_some (l ++ k) = or_else (first_some l) (first_some k).
Proof. induction l as [|[x|] l IH]; cbn; auto. Qed.

Lemma or_else_none {A} (a : option A) : or_else a None = a.
Proof. destruct a; reflexivity. Qed.

Lemma assoc_cons key x l : assoc key (x :: l) = if bool_decide (x.1 = key) then Some x.2 else assoc key l.
Proof. unfold assoc. cbn [List.find]. destruct (bool_decide _); reflexivity. Qed.

Lemma assoc_lower key l : Forall (fun x => bytes_lt key x.1) l -> assoc key l = None.
Proof.
  induction 1 as [|x l Hx _ IH]; [reflexivity|]. rewrite assoc_cons, bool_decide_eq_false_2; [exact IH|].
  intros E. rewrite E in Hx. exact (bytes_lt_irrefl _ Hx).
Qed.

Lemma merge_two_nil_l r : stream_ok r -> merge_two [] r = r.
Proof. intros [_ H]. destruct H as [|b r Hb _]; cbn; [reflexivity|]. rewrite Hb. reflexivity. Qed.

Lemma merge_two_nil_r l : stream_ok l -> merge_two l [] = l.
Proof. intros [_ H]. destruct H as [|b r Hb _]; cbn; [reflexivity|]. rewrite Hb. reflexivity. Qed.

Lemma merge_two_cons a l b r :
  no_key a = false -> no_key b = false ->
  merge_two (a :: l) (b :: r) = match bytes_compare a.1 b.1 with
                                | Lt => a :: merge_two l (b :: r) | Eq => a :: merge_two l r | Gt => b :: merge_two (a :: l) r end.
Proof. intros Ha Hb. cbn [merge_two]. rewrite Ha, Hb. reflexivity. Qed.

Lemma stream_cons a l : stream_ok (a :: l) -> no_key a = false /\ stream_ok l /\ Forall (fun x => bytes_lt a.1 x.1) l.
Proof. intros [S F]. apply StronglySorted_inv in S as [S L]. apply Forall_cons in F as [Fa F]. repeat split; assumption. Qed.

Lemma above_trans k a (l : list seriesKey) : bytes_lt k a -> Forall (fun x => bytes_lt a x.1) l -> Forall (fun x => bytes_lt k x.1) l.
Proof. intros H F. eapply Forall_impl; [exact F|]. intros x Hx. exact (bytes_lt_trans _ _ _ H Hx). Qed.

(** What a merge of two streams is: a stream above whatever both are above, with
    the types of the first where it has the key. *)
Definition merged (l r m : list seriesKey) : Prop :=
  stream_ok m
  /\ (forall k, Forall (fun x => bytes_lt k x.1) l -> Forall (fun x => bytes_lt k x.1) r -> Forall (fun x => bytes_lt k x.1) m)
  /\ forall key, assoc key m = or_else (assoc key l) (assoc key r).

Lemma merged_left a l r m :
  no_key a = false -> Forall (fun x => bytes_lt a.1 x.1) l -> Forall (fun x => bytes_lt a.1 x.1) r -> merged l r m -> merged (a :: l) r (a :: m).
Proof.
  intros Ha Hl Hr ((Ms & Mn) & Mb & Ma). repeat split.
  - constructor; [exact Ms|]. apply Mb; assumption.
  - constructor; assumption.
  - intros k Kl Kr. apply Forall_cons in Kl as [Ka Kl]. constructor; [exact Ka|]. apply Mb; assumption.
  - intros key. rewrite !assoc_cons, Ma. destruct (bool_decide _); reflexivity.
Qed.

Lemma merged_swap a l r m :
  no_key a = false -> Forall (fun x => bytes_lt a.1 x.1) l -> Forall (fun x => bytes_lt a.1 x.1) r -> merged l r m -> merged l (a :: r) (a :: m).
Proof.
  intros Ha Hl Hr ((Ms & Mn) & Mb & Ma). repeat split.
  - constructor; [exact Ms|]. apply Mb; assumption.
  - constructor; assumption.
  - intros k Kl Kr. apply Forall_cons in Kr as [Ka Kr]. constructor; [exact Ka|]. apply Mb; assumption.
  - intros key. rewrite !assoc_cons, Ma. case_bool_decide as E; [|reflexivity]. subst key. rewrite (assoc_lower _ l) by exact Hl. reflexivity.
Qed.

Lemma merged_same a l b r m :
  a.1 = b.1 -> no_key a = false -> Forall (fun x => bytes_lt a.1 x.1) l -> Forall (fun x => bytes_lt a.1 x.1) r ->
  merged l r m -> merged (a :: l) (b :: r) (a :: m).
Proof.
  intros E Ha Hl Hr M. destruct (merged_left a l r m Ha Hl Hr M) as (Ms & Mb & Ma). split; [exact Ms|]. split.
  - intros k Kl Kr. apply Forall_cons in Kr as [_ Kr]. apply Mb; assumption.
  - intros key. rewrite Ma, !assoc_cons, <- E. case_bool_decide; reflexivity.
Qed.

Lemma merge_two_spec l r : stream_ok l -> stream_ok r -> merged l r (merge_two l r).
Proof.
  revert r. induction l as [|a l IHl]; intros r Hl Hr.
  { rewrite merge_two_nil_l by exact Hr. split; [exact Hr|]. split; [auto|reflexivity]. }
  induction r as [|b r IHr].
  { rewrite merge_two_nil_r by exact Hl. split; [exact Hl|]. split; [auto|]. intros key. symmetry. apply or_else_none. }
  pose proof (stream_cons _ _ Hl) as (Na & Sl & La). pose proof (stream_cons _ _ Hr) as (Nb & Sr & Lb).
  rewrite merge_two_cons by assumption. destruct (bytes_compare a.1 b.1) eqn:C.
  - apply bytes_compare_eq in C. apply merged_same; auto. rewrite C. exact Lb.
  - apply merged_left; auto. constructor; [exact C|]. exact (above_trans _ _ _ C Lb).
  - apply bytes_gt_lt in C. apply merged_swap; auto. constructor; [exact C|]. exact (above_trans _ _ _ C La).
Qed.

Lemma merge_n_spec fuel c :
  (length c < fuel)%nat -> Forall stream_ok c ->
  stream_ok (merge_n fuel c) /\ forall key, assoc key (merge_n fuel c) = first_some (map (assoc key) c).
Proof.
  revert c. induction fuel as [|fuel IH]; intros c Hf Hc; [lia|]. destruct c as [|a [|b [|d c]]]; cbn [merge_n].
  - split; [split; constructor|reflexivity].
  - apply Forall_cons in Hc as [Ha _]. split; [exact Ha|]. intros key. cbn. destruct (assoc key a); reflexivity.
  - apply Forall_cons in Hc as [Ha Hc]. apply Forall_cons in Hc as [Hb _]. destruct (merge_two_spec a b Ha Hb) as (M & _ & A).
    split; [exact M|]. intros key. rewrite A. cbn. destruct (assoc key a), (assoc key b); reflexivity.
  - set (l := a :: b :: d :: c) in *. set (half := (length l / 2)%nat).
    assert (0 < half < length l)%nat as Hh. { unfold half. assert (3 <= length l)%nat by (cbn; lia). pose proof (Nat.div_le_lower_bound (length l) 2 1 ltac:(lia) ltac:(lia)). pose proof (Nat.div_lt (length l) 2 ltac:(lia) ltac:(lia)). lia. }
    destruct (IH (take half l)) as [S1 A1]; [rewrite length_take; lia|apply Forall_take; exact Hc|].
    destruct (IH (drop half l)) as [S2 A2]; [rewrite length_drop; lia|apply Forall_drop; exact Hc|].
    destruct (merge_two_spec _ _ S1 S2) as (M & _ & A). split; [exact M|]. intros key. rewrite A, A1, A2, <- first_some_app, <- map_app, take_drop. reflexivity.
Qed.

Lemma merge_spec c : Forall stream_ok c -> stream_ok (merge c) /\ forall key, assoc key (merge c) = first_some (map (assoc key) c).
Proof. apply merge_n_spec. lia. Qed.

(** ** The keys of a file *)

Section Store.
Context `{BU : BytesUtil} {BL : BytesUtilLaws}.

Lemma Type_live d live key :
  ix_rep d live -> ix_Type d key = match find_live live key with Some (_, s) => Ok (s_type s) | None => Err (ErrFormat "key does not exist") end.
Proof.
  intros R. unfold ix_Type. rewrite (search_live _ _ _ R). destruct (find_live live key) as [[ofs s]|] eqn:E.
  - apply find_live_some in E as [Hin _]. destruct R as [_ P _]. rewrite Forall_forall in P. destruct (P _ Hin) as [A B]. cbn in A, B.
    destruct (Z.ltb_spec ofs (zlen (ix_b d))) as [_|H]; [|pose proof (at_pos_lt _ _ _ A); lia].
    rewrite (key_at_pos _ _ _ A B). destruct (entries_at_pos _ _ _ A) as [rest ->]. reflexivity.
  - rewrite Z.ltb_irrefl. reflexivity.
Qed.

Lemma Contains_live d live key : ix_rep d live -> ix_Contains d key = Ok (bool_decide (is_Some (find_live live key))).
Proof.
  intros R. unfold ix_Contains. rewrite (Entries_live _ _ _ R). unfold live_entries. cbn. f_equal.
  destruct (find_live live key) as [[ofs s]|] eqn:E.
  - apply find_live_some in E as [Hin _]. destruct R as [_ P _]. rewrite Forall_forall in P. destruct (P _ Hin) as [_ (_ & Hn & _)]. cbn in Hn.
    rewrite bool_decide_eq_true_2 by eauto. apply Z.ltb_lt. lia.
  - rewrite bool_decide_eq_false_2 by (intros [? ?]; discriminate). reflexivity.
Qed.

Definition keys_of (live : list (Z * series)) : list seriesKey := map (fun x => (s_key x.2, s_type x.2)) live.

Lemma file_keys_live r live : ix_rep (rd_index r) live -> file_keys r = Ok (keys_of live).
Proof.
  intros R. unfold file_keys, ix_KeyCount. rewrite (rep_offsets _ _ R). unfold zlen. rewrite length_map, Nat2Z.id.
  assert (forall pre l, live = pre ++ l ->
    foldr (fun (i : nat) acc => match ix_KeyAt (rd_index r) (Z.of_nat i), acc with
                      | Ok x, Ok l => Ok (x :: l) | Err e, _ | _, Err e => Err e | _, _ => Panic end) (Ok []) (seq (length pre) (length l)) = Ok (keys_of l)) as H.
  { intros pre l. revert pre. induction l as [|[ofs s] l IH]; intros pre E; [reflexivity|]. cbn [length seq foldr].
    rewrite (KeyAt_live _ _ (length pre) ofs s R) by (rewrite E, list_lookup_middle; reflexivity).
    specialize (IH (pre ++ [(ofs, s)])). rewrite length_app, Nat.add_1_r in IH. rewrite IH by (rewrite <- app_assoc; exact E). reflexivity. }
  exact (H [] live eq_refl).
Qed.

Lemma assoc_live key live : assoc key (keys_of live) = (fun x => s_type x.2) <$> find_live live key.
Proof.
  induction live as [|x live IH]; [reflexivity|]. unfold keys_of, find_live. cbn [map List.find]. rewrite assoc_cons. cbn [fst snd].
  destruct (bool_decide _); [reflexivity|exact IH].
Qed.

(** A file whose index is represented by series with keys that are not empty. *)
Definition keyed (f : tsmFile) (live : list (Z * series)) : Prop :=
  ix_rep (rd_index (tf_rd f)) live /\ Forall (fun x => s_key x.2 <> []) live.

Lemma keys_of_ok f live : keyed f live -> stream_ok (keys_of live).
Proof.
  intros [R N]. split.
  - apply sorted_map. exact (rep_sorted _ _ R).
  - unfold keys_of. rewrite Forall_map. eapply Forall_impl; [exact N|]. intros x Hx. unfold no_key. cbn. destruct (s_key x.2) eqn:E; [destruct (Hx E)|reflexivity].
Qed.

Lemma streams_live files lives : Forall2 keyed files lives -> streams files = Ok (map keys_of lives) /\ Forall stream_ok (map keys_of lives).
Proof.
  induction 1 as [|f live files lives K _ [IH1 IH2]]; [split; [reflexivity|constructor]|]. cbn [streams map].
  rewrite (file_keys_live _ _ (proj1 K)), IH1. split; [reflexivity|]. constructor; [exact (keys_of_ok _ _ K)|exact IH2].
Qed.

Lemma Type_first files lives key :
  Forall2 keyed files lives ->
  fs_Type files key = match first_some (map (assoc key) (map keys_of lives)) with Some t => Ok t | None => Err (ErrFormat "unknown type") end.
Proof.
  induction 1 as [|f live files lives [R _] _ IH]; [reflexivity|]. cbn [fs_Type map].
  rewrite (Contains_live _ _ _ R), (Type_live _ _ _ R), assoc_live. destruct (find_live live key) as [[ofs s]|]; cbn; [reflexivity|exact IH].
Qed.

Lemma for_each_keys (l : list seriesKey) (m : gmap (list Z) Z) (key : list Z) : key_sorted l ->
  exists m', for_each (E := werr) (fun key typ m => (None, <[key := typ]> m)) l m = (None, m') /\ m' !! key = or_else (assoc key l) (m !! key).
Proof.
  intros H. revert m. induction H as [|[k t] l H IH L]; intros m; cbn [for_each]; [eauto|].
  destruct (IH (<[k := t]> m)) as (m' & E & Hm). exists m'. split; [exact E|]. rewrite Hm, assoc_cons. cbn [fst snd].
  case_bool_decide as D; [subst k; rewrite assoc_lower by exact L; cbn; apply lookup_insert_eq|rewrite lookup_insert_ne by congruence; reflexivity].
Qed.

Lemma assoc_elem key l : key ∈ map fst l <-> is_Some (assoc key l).
Proof.
  induction l as [|x l IH]; cbn [map]; [split; [intros H; apply elem_of_nil in H as []|intros [? ?]; discriminate]|].
  rewrite elem_of_cons, assoc_cons. case_bool_decide as D; [split; eauto|]. rewrite <- IH. intuition congruence.
Qed.

(** The walk passes every key of any file once and in the order of the keys,
    until the function fails.  The comment of [WalkKeys] says that a key is passed
    once for each file that has it. *)
Lemma walk_keys_once files lives :
  Forall2 keyed files lives ->
  exists walk, (forall (S E : Type) (fn : list Z -> Z -> S -> option E * S) s, WalkKeys fn files s = Ok (for_each fn walk s))
    /\ key_sorted walk /\ forall key, assoc key walk = first_some (map (assoc key) (map keys_of lives)).
Proof.
  intros K. destruct (streams_live _ _ K) as [Es Ok_]. destruct (merge_spec _ Ok_) as [[Sm _] Am]. exists (merge (map keys_of lives)).
  split; [|split; [exact Sm|exact Am]]. intros S E fn s. unfold WalkKeys. destruct K; [reflexivity|]. rewrite Es. reflexivity.
Qed.

(** The key and the type of a series of an index. *)
Definition held (live : list (Z * series)) (key : list Z) (t : Z) : Prop := exists x, x ∈ live /\ s_key x.2 = key /\ s_type x.2 = t.

Lemma held_assoc f live key t : keyed f live -> held live key t <-> assoc key (keys_of live) = Some t.
Proof.
  intros [R _]. rewrite assoc_live. split.
  - intros ([ofs s] & Hin & <- & <-). change (s_key (ofs, s).2) with (s_key s). pose proof (find_live_in live (ofs, s) (rep_sorted _ _ R) Hin) as Ef. cbn in Ef. cbn. rewrite Ef. reflexivity.
  - destruct (find_live live key) as [[ofs s]|] eqn:F; cbn; [|discriminate]. intros [= <-].
    apply find_live_some in F as [Hin <-]. exists (ofs, s). auto.
Qed.

(** The first of the files that has the key has it with this type. *)
Fixpoint first_held (lives : list (list (Z * series))) (key : list Z) (t : Z) : Prop :=
  match lives with
  | [] => False
  | live :: lives => held live key t \/ ((forall t', ~ held live key t') /\ first_held lives key t)
  end.

Lemma first_held_assoc files lives key t :
  Forall2 keyed files lives -> first_held lives key t <-> first_some (map (assoc key) (map keys_of lives)) = Some t.
Proof.
  induction 1 as [|f live files lives K _ IH]; cbn [first_held map first_some]; [split; [contradiction|discriminate]|].
  pose proof (fun t => held_assoc _ _ key t K) as A. destruct (assoc key (keys_of live)) as [u|].
  - rewrite (A t). split; [intros [E|[N _]]; [exact E|]|tauto]. destruct (N u). apply A. reflexivity.
  - rewrite (A t), IH. split; [intros [E|[_ E]]; [discriminate|exact E]|]. intros E. right. split; [|exact E]. intros u Hu. apply A in Hu. discriminate.
Qed.

Lemma some_file_holds files lives key :
  Forall2 keyed files lives -> is_Some (first_some (map (assoc key) (map keys_of lives))) <-> exists live t, live ∈ lives /\ held live key t.
Proof.
  induction 1 as [|f live files lives K _ IH]; cbn [map first_some]; [split; [intros [? ?]; discriminate|intros (? & ? & H & _); apply elem_of_nil in H as []]|].
  pose proof (fun t => held_assoc _ _ key t K) as A. destruct (assoc key (keys_of live)) as [u|].
  - split; [|eauto]. intros _. exists live, u. split; [left|apply A; reflexivity].
  - rewrite IH. split; intros (l & t & Hl & Ht); [exists l, t; split; [right|]; auto|].
    apply elem_of_cons in Hl as [->|Hl]; [apply A in Ht; discriminate|eauto].
Qed.

(** C13 (equivalence). Over files with non-empty keys [Keys], which collects what the
    tree of merging goroutines passes on, returns a map that holds a key exactly
    when some file holds it, and with the type that the first such file has for
    it; this is the type that [Type] finds by asking the files one after the other,
    and where the map holds nothing [Type] fails. *)
Theorem keys_agree (files : list tsmFile) (lives : list (list (Z * series))) :
  Forall2 keyed files lives ->
  exists m, Keys files = Ok (Some m)
    /\ forall key, fs_Type files key = match m !! key with Some t => Ok t | None => Err (ErrFormat "unknown type") end
        /\ (forall t, m !! key = Some t <-> first_held lives key t)
        /\ (is_Some (m !! key) <-> exists live t, live ∈ lives /\ held live key t).
Proof.
  intros K. destruct (walk_keys_once _ _ K) as (walk & W & Sm & Am). destruct (for_each_keys walk ∅ [] Sm) as (m & E & _).
  exists m. split; [unfold Keys; rewrite W, E; reflexivity|]. intros key.
  destruct (for_each_keys walk ∅ key Sm) as (m' & E' & Hm). rewrite E in E'. injection E' as <-. rewrite lookup_empty, or_else_none, Am in Hm.
  split; [rewrite (Type_first _ _ _ K), Hm; reflexivity|]. split; [intros t; rewrite Hm, (first_held_assoc _ _ _ _ K); reflexivity|].
  rewrite Hm. exact (some_file_holds _ _ _ K).
Qed.
End Store.

(** ** Two files *)

#[local] Existing Instances plain_words plain_laws list_stream list_stream_laws id_snappy id_snappy_laws list_bytesutil list_bytesutil_laws id_gzip ex_blocks.

Definition keys_ab : tsmFile := Eval vm_compute in mkTF "000000001-000000001.tsm" (reader_of [([97], [ints [(1, 10)]]); ([98], [ints [(2, 20)]])]).
Definition keys_bc : tsmFile := Eval vm_compute in mkTF "000000002-000000001.tsm" (reader_of [([98], [ints [(3, 30)]]); ([99], [ints [(4, 40)]])]).

(** The series of an index, read from it. *)
Definition series_of (d : indirectIndex) : list (Z * series) :=
  imap (fun i ofs => (ofs, match ix_Key d (Z.of_nat i) with Ok (key, typ, es) => mkSeries key typ es | _ => mkSeries [] 0 [] end)) (ix_offsets d).

Definition live_ab : list (Z * series) := Eval vm_compute in series_of (rd_index (tf_rd keys_ab)).
Definition live_bc : list (Z * series) := Eval vm_compute in series_of (rd_index (tf_rd keys_bc)).

Lemma at_pos_compute b ofs s :
  0 <= ofs -> b = take (Z.to_nat ofs) b ++ enc_series s ++ drop (Z.to_nat ofs + length (enc_series s)) b -> zlen (take (Z.to_nat ofs) b) = ofs -> at_pos b ofs s.
Proof. intros _ E L. exists (take (Z.to_nat ofs) b), (drop (Z.to_nat ofs + length (enc_series s)) b). split; [exact E|]. symmetry. exact L. Qed.

Lemma series_placed b ofs s :
  0 <= ofs -> b = take (Z.to_nat ofs) b ++ enc_series s ++ drop (Z.to_nat ofs + length (enc_series s)) b -> zlen (take (Z.to_nat ofs) b) = ofs ->
  zlen (s_key s) <= maxKeyLength -> 0 < zlen (s_entries s) <= maxIndexEntries ->
  forallb (fun e => bool_decide (- 2 ^ 63 <= MinTime e < 2 ^ 63) && bool_decide (- 2 ^ 63 <= MaxTime e < 2 ^ 63) && bool_decide (- 2 ^ 63 <= Offset e < 2 ^ 63) && bool_decide (0 <= Size e < 2 ^ 32)) (s_entries s) = true ->
  at_pos b ofs s /\ series_ok s.
Proof.
  intros H0 E L Hk Hn He. split; [exact (at_pos_compute _ _ _ H0 E L)|]. split; [exact Hk|]. split; [exact Hn|].
  rewrite forallb_forall in He. apply Forall_forall. intros e Hin. apply list_elem_of_In in Hin. specialize (He e Hin). rewrite !andb_true_iff, !bool_decide_eq_true in He.
  unfold entry_ok, is_i64. tauto.
Qed.

Lemma two_keyed : Forall2 keyed [keys_ab; keys_bc] [live_ab; live_bc].
Proof.
  constructor; [|constructor; [|constructor]]; (split; [split; [reflexivity| |]|]).
  1, 4: (constructor; [|constructor; [|constructor]]; apply series_placed; vm_compute; try reflexivity; try (split; congruence); congruence).
  1, 3: (constructor; [constructor; constructor|constructor; [vm_compute; reflexivity|constructor]]).
  all: (constructor; [|constructor; [|constructor]]; vm_compute; congruence).
Qed.

Lemma keys_agree_witness :
  exists m, Keys [keys_ab; keys_bc] = Ok (Some m)
    /\ forall key, fs_Type [keys_ab; keys_bc] key = match m !! key with Some t => Ok t | None => Err (ErrFormat "unknown type") end
        /\ (forall t, m !! key = Some t <-> first_held [live_ab; live_bc] key t)
        /\ (is_Some (m !! key) <-> exists live t, live ∈ [live_ab; live_bc] /\ held live key t).
Proof. exact (keys_agree [keys_ab; keys_bc] [live_ab; live_bc] two_keyed). Defined.

Example walk_abc :
  WalkKeys (E := unit) (fun key _ l => (None, l ++ [key])) [keys_ab; keys_bc] [] = Ok (None, [[97]; [98]; [99]]).
Proof. vm_compute. reflexivity. Qed.
