(* ===== verification/FileStore.v ===== *)
(** * The file store

    [FileStore] and [purger] of [tsdb/engine/tsm1/file_store.go], with the
    operations of [TSMReader] and [mmapAccessor] of [reader.go] that touch files,
    [Tombstoner.TombstoneFiles], and the cleaning of a shard directory of
    [engine.go].  The state is the shard directory, the readers as objects of a
    heap, and the store.  File names are relative to the directory: every path the
    code compares starts with it.

    Every system call asks a plan what happens: it works, it fails, or the process
    dies there, so that a run is any run with failures and crashes ([Panic] is
    the death of the process, by a crash or a run-time panic).  What the calls did
    before is on disk in the order of the calls.  The cached stats of a
    tombstone file are those of the file: they are dropped when it changes. *)

From Stdlib Require Import Ascii.
From S2P Require Import Prelude OSFile Values Varint Simple8b TimeCodec IntCodec BoolCodec StringCodec BitReader FloatCodec ValueCodec Blocks TypedValues.
From S2P Require Import Bytes TSMWriter TSMIndex TSMDelete Tombstone TSMReader TSMFile TSMStore KeyIterator WAL TSMNames CompactPlan KeyCursor.

(** ** Names *)

(** The pattern [*.tsm]; a star does not match a slash. *)
Definition is_tsm (p : string) : bool := has_suffix p dot_tsm && bool_decide (Forall (fun c => c <> "/"%char) (chars p)).
Definition is_tmp (p : string) : bool := has_suffix p dot_tmp && bool_decide (Forall (fun c => c <> "/"%char) (chars p)).

Definition add_tmp (p : string) : string := soa (chars p ++ dot_tmp).
(** [file[:len(file)-4]] *)
Definition cut_tmp (p : string) : string := soa (take (length (chars p) - 4) (chars p)).

(** A name without what [filepath.Ext] gives: the part from the last dot on. *)
Fixpoint drop_ext (rev : list ascii) : option (list ascii) :=
  match rev with
  | [] => None
  | c :: l => if bool_decide (c = "."%char) then Some l else drop_ext l
  end.
Definition strip_ext (l : list ascii) : list ascii := match drop_ext (rev l) with Some r => rev r | None => l end.

Definition tombstonePath (path : string) : string :=
  if has_suffix path (chars "tombstone") then path else soa (strip_ext (chars path) ++ chars ".tombstone").

(** ** Files, readers and the store *)

Record inode := mkIN { in_data : list Z; in_mtime : Z }.

(** A reader: the name of its file ([None] when [m.f] is nil), the path of its
    [Tombstoner], which a rename does not change, whether [m.b] refers to
    memory that was unmapped, and the time its file was modified. *)
Record storeFile := mkSF { sf_name : option string; sf_tpath : string; sf_rd : TSMReader; sf_stale : bool; sf_mtime : Z }.

Definition set_name (n : option string) (f : storeFile) : storeFile := mkSF n (sf_tpath f) (sf_rd f) (sf_stale f) (sf_mtime f).
Definition set_stale (b : bool) (f : storeFile) : storeFile := mkSF (sf_name f) (sf_tpath f) (sf_rd f) b (sf_mtime f).
Definition set_rd (r : TSMReader) (f : storeFile) : storeFile := mkSF (sf_name f) (sf_tpath f) r (sf_stale f) (sf_mtime f).
Definition set_acc (m : mmapAccessor) (r : TSMReader) : TSMReader := mkRD (rd_refs r) m (rd_index r) (rd_tomb r) (rd_size r).

Record FileStore := mkFS {
  fs_lastModified : Z; fs_lastFileStats : list FileStat; fs_currentGeneration : Z; fs_files : list nat;
  fs_DiskBytes : Z; fs_FileCount : Z; fs_purging : gmap string nat; fs_running : bool; fs_currentTempDirID : Z }.

(** [time.Time{}] in nanoseconds. *)
Definition zero_time : Z := - 62135596800 * 10 ^ 9.

Definition NewFileStore : FileStore := mkFS zero_time [] 0 [] 0 0 ∅ false 0.

Definition set_times (lm : Z) (stats : list FileStat) (s : FileStore) : FileStore :=
  mkFS lm stats (fs_currentGeneration s) (fs_files s) (fs_DiskBytes s) (fs_FileCount s) (fs_purging s) (fs_running s) (fs_currentTempDirID s).
Definition set_generation (g : Z) (s : FileStore) : FileStore :=
  mkFS (fs_lastModified s) (fs_lastFileStats s) g (fs_files s) (fs_DiskBytes s) (fs_FileCount s) (fs_purging s) (fs_running s) (fs_currentTempDirID s).
Definition set_files (l : list nat) (s : FileStore) : FileStore :=
  mkFS (fs_lastModified s) (fs_lastFileStats s) (fs_currentGeneration s) l (fs_DiskBytes s) (fs_FileCount s) (fs_purging s) (fs_running s) (fs_currentTempDirID s).
Definition set_stats (bytes count : Z) (s : FileStore) : FileStore :=
  mkFS (fs_lastModified s) (fs_lastFileStats s) (fs_currentGeneration s) (fs_files s) bytes count (fs_purging s) (fs_running s) (fs_currentTempDirID s).
Definition set_purging (m : gmap string nat) (running : bool) (s : FileStore) : FileStore :=
  mkFS (fs_lastModified s) (fs_lastFileStats s) (fs_currentGeneration s) (fs_files s) (fs_DiskBytes s) (fs_FileCount s) m running (fs_currentTempDirID s).
Definition set_tempID (n : Z) (s : FileStore) : FileStore :=
  mkFS (fs_lastModified s) (fs_lastFileStats s) (fs_currentGeneration s) (fs_files s) (fs_DiskBytes s) (fs_FileCount s) (fs_purging s) (fs_running s) n.

Record world := mkW { w_disk : gmap string inode; w_dirs : gset string; w_heap : gmap nat storeFile; w_next : nat; w_tick : nat; w_fs : FileStore }.

Definition set_disk (d : gmap string inode) (w : world) : world := mkW d (w_dirs w) (w_heap w) (w_next w) (w_tick w) (w_fs w).
Definition set_dirs (d : gset string) (w : world) : world := mkW (w_disk w) d (w_heap w) (w_next w) (w_tick w) (w_fs w).
Definition set_heap (h : gmap nat storeFile) (w : world) : world := mkW (w_disk w) (w_dirs w) h (w_next w) (w_tick w) (w_fs w).
Definition set_fs (s : FileStore) (w : world) : world := mkW (w_disk w) (w_dirs w) (w_heap w) (w_next w) (w_tick w) s.
Definition tick (w : world) : world := mkW (w_disk w) (w_dirs w) (w_heap w) (w_next w) (S (w_tick w)) (w_fs w).

(** ** System calls *)

Inductive ferr := EIO | ENotExist | EExist | EInUse | EName | EReader (e : werr).

Inductive syscall :=
| SRename (a b : string) | SOpen (p : string) | SStat (p : string) | SMmap (p : string) | SMunmap (p : option string) | SFClose (p : option string)
| SRemoveAll (p : string) | SRemove (p : string) | SSyncDir | SReadDir | SMkdir (p : string) | SLink (a b : string) | SWriteTombstone (p : string) | SMadvise (p : option string).

Inductive fault := Good | Fail | Crash.
#[export] Instance fault_eq : EqDecision fault.
Proof. solve_decision. Defined.

Abbreviation FM := (M world ferr).

Section Ops.
Context (plan : nat -> syscall -> fault).

Definition sys (c : syscall) : FM unit :=
  fun w => match plan (w_tick w) c with
           | Good => (Ok tt, tick w)
           | Fail => (Err EIO, tick w)
           | Crash => (Panic, tick w)
           end.

Definition lookup_file (p : string) : FM inode := fun w => match w_disk w !! p with Some i => (Ok i, w) | None => (Err ENotExist, w) end.
Definition mod_disk (g : gmap string inode -> gmap string inode) : FM unit := modify (fun w => set_disk (g (w_disk w)) w).
Definition mod_store (g : FileStore -> FileStore) : FM unit := modify (fun w => set_fs (g (w_fs w)) w).
Definition the_store : FM FileStore := fun w => (Ok (w_fs w), w).

Definition os_Rename (a b : string) : FM unit :=
  do* sys (SRename a b) in let* i := lookup_file a in mod_disk (fun d => <[b := i]> (delete a d)).
Definition os_Open (p : string) : FM inode := do* sys (SOpen p) in lookup_file p.
Definition os_Stat (p : string) : FM inode := do* sys (SStat p) in lookup_file p.
Definition os_RemoveAll (p : string) : FM unit := do* sys (SRemoveAll p) in mod_disk (delete p).
Definition os_Remove (p : string) : FM unit := do* sys (SRemove p) in let* i := lookup_file p in mod_disk (delete p).
Definition os_Link (a b : string) : FM unit :=
  do* sys (SLink a b) in let* i := lookup_file a in
  let* w := get in match w_disk w !! b with Some _ => throw EExist | None => mod_disk (<[b := i]>) end.
Definition os_Mkdir (p : string) : FM unit :=
  do* sys (SMkdir p) in let* w := get in if bool_decide (p ∈ w_dirs w) then throw EExist else modify (set_dirs ({[p]} ∪ w_dirs w)).

(** ** Readers *)

Definition deref (id : nat) : FM storeFile := fun w => match w_heap w !! id with Some f => (Ok f, w) | None => (Panic, w) end.
Definition assign (id : nat) (f : storeFile) : FM unit := modify (fun w => set_heap (<[id := f]> (w_heap w)) w).
Definition alloc (f : storeFile) : FM nat :=
  fun w => (Ok (w_next w), mkW (w_disk w) (w_dirs w) (<[w_next w := f]> (w_heap w)) (S (w_next w)) (w_tick w) (w_fs w)).

Definition Path (id : nat) : FM string := let* f := deref id in match sf_name f with Some p => ret p | None => panic end.

Definition InUse (id : nat) : FM bool := let* f := deref id in ret (rd_InUse (sf_rd f)).

(** [Tombstoner.TombstoneFiles]: a file that cannot be looked at counts as none. *)
Definition TombstoneFiles (id : nat) : FM (list (string * inode)) :=
  let* f := deref id in
  let tp := tombstonePath (sf_tpath f) in
  catch (os_Stat tp) (fun r => match r with inl i => ret [(tp, i)] | inr _ => ret [] end).

Definition LastModified (id : nat) : FM Z :=
  let* f := deref id in let* ts := TombstoneFiles id in
  ret (fold_left (fun lm (t : string * inode) => if in_mtime t.2 >? lm then in_mtime t.2 else lm) ts (sf_mtime f)).

Definition file_Size (f : storeFile) : Z := u32 (rd_size (sf_rd f)).

Section Opening.
Context `{BU : BytesUtil} `{GZ : Gzip}.

(** [NewTSMReader] on an open file. *)
Definition open_reader (p : string) (i : inode) : FM nat :=
  do* sys (SStat p) in do* sys (SMmap p) in
  match ma_init (in_data i) with
  | Err e => throw (EReader e)
  | Panic => panic
  | Ok _ =>
      let* tomb := catch (os_Open (tombstonePath p))
                     (fun r => match r with inl t => ret (Some (in_data t)) | inr ENotExist => ret None | inr e => throw e end) in
      match NewTSMReader (in_data i) tomb with
      | Ok r => alloc (mkSF (Some p) p r false (in_mtime i))
      | Err e => throw (EReader e)
      | Panic => panic
      end
  end.
End Opening.

(** [TSMReader.Close]: unmapping what is not mapped fails. *)
Definition Close (id : nat) : FM unit :=
  let* f := deref id in
  if rd_InUse (sf_rd f) then throw EInUse
  else match ma_b (rd_acc (sf_rd f)) with
       | None => ret tt
       | Some _ =>
           do* sys (SMunmap (sf_name f)) in
           if sf_stale f then throw EIO
           else do* assign id (set_rd (set_acc (ma_close (rd_acc (sf_rd f))) (sf_rd f)) f) in sys (SFClose (sf_name f))
       end.

(** [TSMReader.Remove]: the error of the first removal is dropped. *)
Definition Remove (id : nat) : FM unit :=
  let* p := Path id in
  let* used := InUse id in
  if used then throw EInUse
  else
    let* f := deref id in
    do* (if bool_decide (p = ""%string) then ret tt else catch (os_RemoveAll p) (fun _ => ret tt)) in
    os_RemoveAll (tombstonePath (sf_tpath f)).

(** [TSMReader.Rename], which is [mmapAccessor.rename]. *)
Definition Rename (id : nat) (path : string) : FM unit :=
  let* f0 := deref id in
  let f := set_rd (set_acc (incAccess (rd_acc (sf_rd f0))) (sf_rd f0)) f0 in
  do* assign id f in
  do* sys (SMunmap (sf_name f)) in
  match sf_stale f, ma_b (rd_acc (sf_rd f)) with
  | true, _ | _, None => throw EIO
  | false, Some _ =>
      do* assign id (set_stale true f) in
      do* sys (SFClose (sf_name f)) in
      match sf_name f with
      | None => panic
      | Some p =>
          do* os_Rename p path in
          catch (os_Open path) (fun r =>
            match r with
            | inr e => do* assign id (set_name None (set_stale true f)) in throw e
            | inl i =>
                do* assign id (set_name (Some path) (set_stale true f)) in
                do* sys (SStat path) in
                let m := rd_acc (sf_rd f) in
                let remap b := assign id (set_name (Some path) (set_stale false (set_rd (set_acc (mkMA b (ma_access m) (ma_free m)) (sf_rd f)) f))) in
                catch (sys (SMmap path)) (fun r => match r with inl _ => remap (Some (in_data i)) | inr e => do* remap None in throw e end)
            end)
      end
  end.

(** ** The purger *)

Fixpoint paths_to (ids : list nat) (m : gmap string nat) : FM (gmap string nat) :=
  match ids with
  | [] => ret m
  | id :: ids => let* p := Path id in paths_to ids (<[p := id]> m)
  end.

(** [purger.add], which starts the goroutine unless it runs. *)
Definition purger_add (ids : list nat) : FM unit :=
  let* s := the_store in
  let* m := paths_to ids (fs_purging s) in
  mod_store (set_purging m true).

(** What a pass does with one entry: errors are logged. *)
Definition purge_one (k : string) (id : nat) : FM unit :=
  let* used := InUse id in
  if used then ret tt
  else catch (do* Close id in Remove id)
         (fun r => match r with inl _ => mod_store (fun s => set_purging (delete k (fs_purging s)) (fs_running s) s) | inr _ => ret tt end).

(** One pass of the goroutine over the entries, in the order [ks] the map is
    ranged over; it ends when nothing is left. *)
Fixpoint purge_entries (ks : list string) : FM unit :=
  match ks with
  | [] => ret tt
  | k :: ks =>
      let* s := the_store in
      do* match fs_purging s !! k with Some id => purge_one k id | None => ret tt end in
      purge_entries ks
  end.

Definition purge_pass (ks : list string) : FM unit :=
  do* purge_entries ks in
  mod_store (fun s => set_purging (fs_purging s) (fs_running s && negb (bool_decide (fs_purging s = ∅))) s).

(** ** Replacing files *)

Section Replace.
Context `{BU : BytesUtil} `{GZ : Gzip}.

(** Make the new files live and open them; the latest time they were modified. *)
Fixpoint load_new (newFiles : list string) (maxTime : Z) : FM (list nat * Z) :=
  match newFiles with
  | [] => ret ([], maxTime)
  | file :: rest =>
      let newName := if has_suffix file dot_tmp then cut_tmp file else file in
      do* (if has_suffix file dot_tmp then os_Rename file newName else ret tt) in
      let* i := os_Open newName in
      let* maxTime := catch (sys (SStat newName)) (fun r => match r with inl _ => ret (if in_mtime i >? maxTime then in_mtime i else maxTime) | inr _ => ret maxTime end) in
      let* id := open_reader newName i in
      let* res := load_new rest maxTime in let '(ids, maxTime) := res in
      ret (id :: ids, maxTime)
  end.

Fixpoint remove_all (paths : list string) : FM unit :=
  match paths with [] => ret tt | p :: paths => do* os_RemoveAll p in remove_all paths end.

(** A file that queries use is renamed out of the way. *)
Definition move_away (id : nat) : FM unit :=
  let* ts := TombstoneFiles id in
  let* p := Path id in
  do* Rename id (add_tmp p) in
  remove_all (map fst ts ++ [p]).

(** One file against the files to remove: whether it stays, and whether it is
    one of those in use.  After a file was moved away the loop goes on. *)
Fixpoint prune_file (id : nat) (oldFiles : list string) : FM (bool * list nat) :=
  match oldFiles with
  | [] => ret (true, [])
  | remove :: rest =>
      let* p := Path id in
      if bool_decide (remove = p) then
        let* used := InUse id in
        if used then
          do* move_away id in
          let* res := prune_file id rest in let '(_, l) := res in
          ret (false, id :: l)
        else do* Close id in do* Remove id in ret (false, [])
      else prune_file id rest
  end.

Fixpoint prune (ids : list nat) (oldFiles : list string) : FM (list nat * list nat) :=
  match ids with
  | [] => ret ([], [])
  | id :: ids =>
      let* res := prune_file id oldFiles in let '(keep, used) := res in
      let* res := prune ids oldFiles in let '(active, inuse) := res in
      ret (if keep then id :: active else active, used ++ inuse)
  end.

(** [sort.Sort(tsmReaders(...))] *)
Context (sort_Sort : (nat -> nat -> bool) -> list nat -> list nat).

Fixpoint all_paths (ids : list nat) : FM (gmap nat string) :=
  match ids with
  | [] => ret ∅
  | id :: ids => let* p := Path id in let* m := all_paths ids in ret (<[id := p]> m)
  end.

Definition path_less (m : gmap nat string) (a b : nat) : bool := string_lt (default ""%string (m !! a)) (default ""%string (m !! b)).

Definition sort_files (ids : list nat) : FM (list nat) := let* m := all_paths ids in ret (sort_Sort (path_less m) ids).

Fixpoint total_size (ids : list nat) (total : Z) : FM Z :=
  match ids with
  | [] => ret total
  | id :: ids =>
      let* f := deref id in
      let* ts := TombstoneFiles id in
      total_size ids (fold_left (fun n (t : string * inode) => i64 (n + u32 (zlen (in_data t.2)))) ts (i64 (total + file_Size f)))
  end.

(** The end of a replacement, with the files that stay and those in use. *)
Definition finish_replace (active inuse : list nat) (maxTime lastModified : Z) : FM unit :=
  do* sys SSyncDir in
  do* purger_add inuse in
  do* mod_store (set_times (if maxTime <=? lastModified then lastModified + 1 else maxTime) []) in
  let* sorted := sort_files active in
  do* mod_store (fun s => set_files sorted (set_stats (fs_DiskBytes s) (zlen sorted) s)) in
  let* totalSize := total_size sorted 0 in
  mod_store (fun s => set_stats totalSize (fs_FileCount s) s).

(** [updatedFn] returns ([true]) or panics. *)
Definition replace (oldFiles newFiles : list string) (updatedFn : option (list nat -> world -> bool)) : FM unit :=
  match oldFiles, newFiles with
  | [], [] => ret tt
  | _, _ =>
      let* s0 := the_store in
      let* res := load_new newFiles (fs_lastModified s0) in let '(updated, maxTime) := res in
      do* match updatedFn with
          | Some fn => let* w := get in if fn updated w then ret tt else panic
          | None => ret tt
          end in
      let* s1 := the_store in
      let* res := prune (updated ++ fs_files s1) oldFiles in let '(active, inuse) := res in
      finish_replace active inuse maxTime (fs_lastModified s1)
  end.

Definition ReplaceWithCallback (oldFiles newFiles : list string) (fn : list nat -> world -> bool) : FM unit := replace oldFiles newFiles (Some fn).
Definition Replace (oldFiles newFiles : list string) : FM unit := replace oldFiles newFiles None.

(** ** Opening and closing *)

(** [strconv.Atoi]: the number and whether there is no error; out of range it
    is the bound. *)
Definition Atoi (l : list ascii) : Z * bool :=
  let unsigned (neg : bool) (d : list ascii) :=
    match d with
    | [] => (0, false)
    | _ => match fold_left parse_step d (Some 0) with
           | None => (0, false)
           | Some n => if neg then if n <=? 2 ^ 63 then (- n, true) else (- 2 ^ 63, false)
                       else if n <? 2 ^ 63 then (n, true) else (2 ^ 63 - 1, false)
           end
    end in
  match l with
  | "+"%char :: d => unsigned false d
  | "-"%char :: d => unsigned true d
  | d => unsigned false d
  end.

(** The loop over the directories ending in [.tmp]: the number is taken when it
    does not parse. *)
Definition temp_dir_id (cur : Z) (name : string) : Z :=
  if has_suffix name dot_tmp then
    match split_dots [] (chars name) with
    | [n; _] => let '(i, ok) := Atoi n in if negb ok && (i >? cur) then i else cur
    | _ => cur
    end
  else cur.

(** The files of a directory, in the order of their names. *)
Definition glob (match_ : string -> bool) (d : gmap string inode) : list string :=
  merge_sort String.le (List.filter match_ (map fst (map_to_list d))).

(** Opening the files in turn keeps track of the generation. *)
Fixpoint open_files (names : list string) : FM (list (string * inode)) :=
  match names with
  | [] => ret []
  | fn :: names =>
      match ParseTSMFileName fn with
      | None => throw EName
      | Some (generation, _) =>
          do* mod_store (fun s => if fs_currentGeneration s <=? generation then set_generation (generation + 1) s else s) in
          let* i := os_Open fn in
          let* l := open_files names in
          ret ((fn, i) :: l)
      end
  end.

(** The readers in the order in which the goroutines deliver them. *)
Fixpoint collect_readers (l : list (string * inode)) (lm : Z) : FM Z :=
  match l with
  | [] => ret lm
  | (fn, i) :: l =>
      let* id := open_reader fn i in
      do* mod_store (fun s => set_files (fs_files s ++ [id]) s) in
      let* f := deref id in
      let* ts := TombstoneFiles id in
      do* mod_store (fun s => set_stats (fold_left (fun n (t : string * inode) => i64 (n + u32 (zlen (in_data t.2)))) ts (i64 (fs_DiskBytes s + file_Size f))) (fs_FileCount s) s) in
      let* m := LastModified id in
      collect_readers l (if m >? lm then m else lm)
  end.

Definition Open (deliver : list (string * inode) -> list (string * inode)) : FM unit :=
  do* sys SReadDir in
  let* w := get in
  do* mod_store (fun s => set_tempID (fold_left temp_dir_id (elements (w_dirs w)) (fs_currentTempDirID s)) s) in
  let* l := open_files (glob is_tsm (w_disk w)) in
  let* lm := collect_readers (deliver l) 0 in
  do* mod_store (fun s => set_times lm (fs_lastFileStats s) s) in
  let* s := the_store in
  let* sorted := sort_files (fs_files s) in
  mod_store (fun s => set_files sorted (set_stats (fs_DiskBytes s) (zlen sorted) s)).
End Replace.

(** The errors of closing are dropped. *)
Fixpoint close_all (ids : list nat) : FM unit :=
  match ids with [] => ret tt | id :: ids => do* catch (Close id) (fun _ => ret tt) in close_all ids end.

Definition CloseStore : FM unit :=
  let* s := the_store in
  do* close_all (fs_files s) in
  mod_store (fun s => set_files [] (set_stats (fs_DiskBytes s) 0 (set_times (fs_lastModified s) [] s))).

(** [FileStore.Free]: readers give their pages back until one fails. *)
Fixpoint free_all (ids : list nat) : FM unit :=
  match ids with
  | [] => ret tt
  | id :: ids =>
      let* f := deref id in
      let '(advise, m) := ma_free_pages (rd_acc (sf_rd f)) in
      do* assign id (set_rd (set_acc m (sf_rd f)) f) in
      do* (if advise then sys (SMadvise (sf_name f)) else ret tt) in
      free_all ids
  end.

Definition Free : FM unit := let* s := the_store in free_all (fs_files s).

(** [cleanup] of the engine, before a store opens: directories and files ending in
    [.tmp]. *)
Fixpoint remove_files (names : list string) : FM unit :=
  match names with [] => ret tt | p :: names => do* os_Remove p in remove_files names end.

Fixpoint remove_dirs (names : list string) : FM unit :=
  match names with
  | [] => ret tt
  | p :: names =>
      do* sys (SRemoveAll p) in
      do* modify (fun w => set_dirs (w_dirs w ∖ {[p]}) (set_disk (filter (fun x => negb (String.prefix (String.append p "/") x.1) = true) (w_disk w)) w)) in
      remove_dirs names
  end.

Definition cleanupTempTSMFiles : FM unit := let* w := get in remove_files (glob is_tmp (w_disk w)).

Definition cleanup : FM unit :=
  do* sys SReadDir in
  let* w := get in
  do* remove_dirs (List.filter (fun p => has_suffix p dot_tmp) (elements (w_dirs w))) in
  cleanupTempTSMFiles.

(** ** Deleting *)

Section Delete.
Context `{BU : BytesUtil} `{GZ : Gzip}.

(** [TSMReader.DeleteRange]; the tombstone file is the one on disk. *)
Definition file_DeleteRange (now : Z) (keys : list (list Z)) (mn mx : Z) (id : nat) : FM unit :=
  fun w =>
    match w_heap w !! id with
    | None => (Panic, w)
    | Some f =>
        let tp := tombstonePath (sf_tpath f) in
        match plan (w_tick w) (SWriteTombstone tp) with
        | Crash => (Panic, tick w)
        | io =>
            let old := in_data <$> w_disk w !! tp in
            let '(x, r) := rd_DeleteRange (bool_decide (io = Good)) keys mn mx (set_tomb old (sf_rd f)) in
            let d := if bool_decide (rd_tomb r = old) then w_disk w
                     else match rd_tomb r with Some b => <[tp := mkIN b now]> (w_disk w) | None => delete tp (w_disk w) end in
            (match x with Ok _ => Ok tt | Err e => Err (EReader e) | Panic => Panic end, set_heap (<[id := set_rd r f]> (w_heap w)) (set_disk d (tick w)))
        end
    end.

(** Every file is walked; the result is the first error delivered. *)
Fixpoint walkFiles (fn : nat -> FM unit) (ids : list nat) : FM (option ferr) :=
  match ids with
  | [] => ret None
  | id :: ids =>
      let* r := catch (fn id) (fun r => match r with inl _ => ret None | inr e => ret (Some e) end) in
      let* r' := walkFiles fn ids in
      ret match r with Some e => Some e | None => r' end
  end.

(** [deliver] is the order in which the goroutines finish. *)
Definition DeleteRange (deliver : list nat -> list nat) (now : Z) (keys : list (list Z)) (mn mx : Z) : FM unit :=
  let* s := the_store in
  let* r := walkFiles (file_DeleteRange now keys mn mx) (deliver (fs_files s)) in
  match r with
  | Some e => throw e
  | None => mod_store (set_times now [])
  end.

Definition Delete (deliver : list nat -> list nat) (now : Z) (keys : list (list Z)) : FM unit := DeleteRange deliver now keys (- 2 ^ 63) (2 ^ 63 - 1).
End Delete.

(** ** Stats and snapshots *)

Definition file_Stats (id : nat) : FM FileStat :=
  let* f := deref id in
  let* p := Path id in
  let* lm := LastModified id in
  let* ts := TombstoneFiles id in
  let d := rd_index (sf_rd f) in
  ret (mkStat p match ts with (_, i) :: _ => 0 <? u32 (zlen (in_data i)) | [] => false end (file_Size f) lm (ix_minTime d) (ix_maxTime d) (ix_minKey d) (ix_maxKey d)).

Fixpoint all_stats (ids : list nat) : FM (list FileStat) :=
  match ids with [] => ret [] | id :: ids => let* x := file_Stats id in let* l := all_stats ids in ret (x :: l) end.

Definition Stats : FM (list FileStat) :=
  let* s := the_store in
  match fs_lastFileStats s with
  | [] => let* l := all_stats (fs_files s) in do* mod_store (fun s => set_times (fs_lastModified s) l s) in ret l
  | l => ret l
  end.

Fixpoint link_tombstones (tmpPath : string) (ts : list (string * inode)) : FM unit :=
  match ts with [] => ret tt | (p, _) :: ts => do* os_Link p (String.append tmpPath (String.append "/" p)) in link_tombstones tmpPath ts end.

Fixpoint link_files (tmpPath : string) (ids : list nat) : FM unit :=
  match ids with
  | [] => ret tt
  | id :: ids =>
      let* p := Path id in
      do* os_Link p (String.append tmpPath (String.append "/" p)) in
      let* ts := TombstoneFiles id in
      do* link_tombstones tmpPath ts in
      link_files tmpPath ids
  end.

Definition FormatInt (n : Z) : string := if n <? 0 then String.append "-" (FormatUint (- n)) else FormatUint n.

Definition CreateSnapshot : FM string :=
  let* s := the_store in
  do* mod_store (fun s => set_tempID (i64 (fs_currentTempDirID s + 1)) s) in
  let* s' := the_store in
  let tmpPath := String.append (FormatInt (fs_currentTempDirID s')) ".tmp" in
  do* os_Mkdir tmpPath in
  do* link_files tmpPath (fs_files s) in
  ret tmpPath.

Fixpoint find_path (path : string) (ids : list nat) : FM (option nat) :=
  match ids with
  | [] => ret None
  | id :: ids => let* p := Path id in if bool_decide (p = path) then ret (Some id) else find_path path ids
  end.

Definition reader_at (path : string) : FM (option nat) := let* s := the_store in find_path path (fs_files s).

Section Counting.
Context `{S8 : Simple8b}.

(** [FileStore.BlockCount]: after [idx] steps of an iterator over the blocks. *)
Fixpoint skip_blocks (idx : nat) (r : TSMReader) (b : BlockIterator) : res werr (option BlockIterator) :=
  match idx with
  | O => Ok (Some b)
  | S idx => match bi_Next r b with
             | (Ok true, b') => skip_blocks idx r b'
             | (Ok false, _) => Ok None
             | (Err e, _) => Err e
             | (Panic, _) => Panic
             end
  end.

Definition block_count (r : TSMReader) (idx : Z) : res werr Z :=
  match skip_blocks (Z.to_nat idx) r (rd_BlockIterator r) with
  | Ok None => Ok 0
  | Ok (Some b) =>
      match bi_Read r b with
      | Ok (_, _, _, _, _, block) => match Blocks.BlockCount block with Some n => Ok n | None => Panic end
      | Err _ => match Blocks.BlockCount [] with Some n => Ok n | None => Panic end
      | Panic => Panic
      end
  | Err e => Err e
  | Panic => Panic
  end.

Definition fs_BlockCount (path : string) (idx : Z) : FM Z :=
  if idx <? 0 then ret 0
  else let* o := reader_at path in
       match o with
       | None => ret 0
       | Some id => let* f := deref id in match block_count (sf_rd f) idx with Ok n => ret n | Err e => throw (EReader e) | Panic => panic end
       end.

End Counting.

Definition fs_NextGeneration : FM Z :=
  do* mod_store (fun s => set_generation (fs_currentGeneration s + 1) s) in let* s := the_store in ret (fs_currentGeneration s).
End Ops.

(** ** Reading *)

Definition stat_OverlapsTimeRange (f : FileStat) (min max : Z) : bool := (st_MinTime f <=? max) && (st_MaxTime f >=? min).

Definition stat_OverlapsKeyRange (f : FileStat) (min max : list Z) : bool :=
  negb (zlen min =? 0) && negb (zlen max =? 0)
  && match bytes_compare (st_MinKey f) max with Gt => false | _ => true end
  && match bytes_compare (st_MaxKey f) min with Lt => false | _ => true end.

Definition stat_ContainsKey (f : FileStat) (key : list Z) : bool :=
  match bytes_compare (st_MinKey f) key with Lt => false | _ => true end || match bytes_compare key (st_MaxKey f) with Gt => false | _ => true end.

Section Read.
Context {V D : Type} `{BC : BlockCodec V D} `{BU : BytesUtil}.

(** [FileStore.Read]: the first file that has the key and a value. *)
Fixpoint fs_Read (files : list tsmFile) (key : list Z) (t : Z) (q : D) : res werr (list V) * D :=
  match files with
  | [] => (Ok [], q)
  | f :: files =>
      match ix_Contains (rd_index (tf_rd f)) key with
      | Ok false => fs_Read files key t q
      | Ok true => match rd_Read (tf_rd f) key t q with
                   | (Ok [], q') => fs_Read files key t q'
                   | r => r
                   end
      | Err e => (Err e, q)
      | Panic => (Panic, q)
      end
  end.

Record IteratorCost := mkCost { NumFiles : Z; BlocksRead : Z; BlockSize : Z }.

(** A block that counts: it is in the range and not deleted as a whole. *)
Definition costs (min max : Z) (ts : list TimeRange) (ie : IndexEntry) : bool :=
  (MaxTime ie >? min) && (MinTime ie <? max) && negb (tombstoned ts ie).

Definition file_cost (key : list Z) (min max : Z) (r : TSMReader) (c : IteratorCost) : res werr IteratorCost :=
  let d := rd_index r in
  if negb ((ix_maxTime d >? min) && (ix_minTime d <? max)) then Ok c
  else res_map (fun entries =>
         let read := List.filter (costs min max (ix_TombstoneRange d key)) entries in
         mkCost (NumFiles c + match read with [] => 0 | _ => 1 end) (BlocksRead c + zlen read)
                (fold_left (fun n ie => i64 (n + Size ie)) read (BlockSize c))) (ix_Entries d key).

Fixpoint fs_cost (files : list tsmFile) (key : list Z) (min max : Z) (c : IteratorCost) : res werr IteratorCost :=
  match files with
  | [] => Ok c
  | f :: files => match file_cost key min max (tf_rd f) c with Ok c' => fs_cost files key min max c' | Err e => Err e | Panic => Panic end
  end.

Definition Cost (files : list tsmFile) (key : list Z) (min max : Z) : res werr IteratorCost := fs_cost files key min max (mkCost 0 0 0).
End Read.
