(* ===== verification/FileStoreFacts.v ===== *)
(** * Replacing files is atomic for readers

    A compaction ends with [FileStore.replace]: the new files are renamed to their
    live names and opened, then the old files and their tombstones are removed.
    The directory shows for a point the value of the last file, in the order of
    names, that has it.  The theorem: whatever calls fail and wherever the process
    dies, the directory shows the same values before and after, also once it was
    cleaned for a restart. *)

From Stdlib Require Import Ascii.
From S2P Require Import Prelude OSFile Values Varint Simple8b TimeCodec IntCodec BoolCodec StringCodec BitReader FloatCodec ValueCodec Blocks TypedValues.
From S2P Require Import Bytes TSMWriter TSMIndex TSMDelete Tombstone TSMReader TSMFile TSMStore KeyIterator KeyFiles WAL TSMNames CompactPlan KeyCursor CursorStore FileStore.

(** ** Names *)

(** Two endings of which neither ends the other. *)
Lemma suffix_clash p a b : has_suffix p a = true -> has_suffix p b = true -> (length a <= length b)%nat -> drop (length b - length a) b = a.
Proof.
  rewrite !has_suffix_iff. intros [x Ex] [y Ey] H. rewrite Ex in Ey. clear Ex.
  assert (length x = length y + (length b - length a))%nat as L by (apply (f_equal length) in Ey; rewrite !length_app in Ey; lia).
  apply (f_equal (drop (length x))) in Ey. rewrite drop_app_length, L, <- drop_drop, drop_app_length in Ey. congruence.
Qed.

Lemma tsm_not_tmp p : is_tsm p = true -> has_suffix p dot_tmp = false.
Proof.
  intros H. apply andb_true_iff in H as [H _]. destruct (has_suffix p dot_tmp) eqn:E; [|reflexivity].
  pose proof (suffix_clash _ _ _ H E ltac:(cbn; lia)) as C. discriminate.
Qed.

Lemma add_tmp_suffix p : has_suffix (add_tmp p) dot_tmp = true.
Proof. apply has_suffix_iff. exists (chars p). apply chars_soa. Qed.

Lemma add_tmp_not_tsm p : is_tsm (add_tmp p) = false.
Proof. destruct (is_tsm (add_tmp p)) eqn:E; [|reflexivity]. apply tsm_not_tmp in E. rewrite add_tmp_suffix in E. discriminate. Qed.

Lemma cut_add_tmp p : cut_tmp (add_tmp p) = p.
Proof.
  unfold cut_tmp, add_tmp. rewrite chars_soa, length_app. change (length dot_tmp) with 4%nat. rewrite Nat.add_sub, take_app_length. apply soa_chars.
Qed.

Lemma add_cut_tmp p : has_suffix p dot_tmp = true -> add_tmp (cut_tmp p) = p.
Proof.
  rewrite has_suffix_iff. intros [base E]. unfold cut_tmp, add_tmp. rewrite chars_soa, E, length_app. change (length dot_tmp) with 4%nat.
  rewrite Nat.add_sub, take_app_length, <- E. apply soa_chars.
Qed.

Lemma drop_ext_app a l : Forall (fun c => c <> "."%char) a -> drop_ext (a ++ "."%char :: l) = Some l.
Proof.
  induction 1 as [|c a Hc _ IH]; cbn; [reflexivity|]. rewrite bool_decide_eq_false_2 by exact Hc. exact IH.
Qed.

Lemma strip_ext_tsm base : strip_ext (base ++ dot_tsm) = base.
Proof.
  unfold strip_ext. rewrite rev_app_distr. change (rev dot_tsm) with (["m"; "s"; "t"]%char ++ ["."%char]). rewrite <- app_assoc. change (["."%char] ++ rev base) with ("."%char :: rev base).
  rewrite (drop_ext_app ["m"; "s"; "t"]%char (rev base)); [apply rev_involutive|]. repeat constructor; discriminate.
Qed.

Lemma tombstonePath_tsm p base : chars p = base ++ dot_tsm -> tombstonePath p = soa (base ++ chars ".tombstone").
Proof.
  intros E. unfold tombstonePath. destruct (has_suffix p (chars "tombstone")) eqn:H.
  - assert (has_suffix p dot_tsm = true) as T by (apply has_suffix_iff; eauto).
    pose proof (suffix_clash _ _ _ T H ltac:(cbn; lia)) as C. discriminate.
  - rewrite E, strip_ext_tsm. reflexivity.
Qed.

Lemma is_tsm_iff p : is_tsm p = true <-> exists base, chars p = base ++ dot_tsm /\ Forall (fun c => c <> "/"%char) base.
Proof.
  unfold is_tsm. rewrite andb_true_iff, bool_decide_eq_true, has_suffix_iff. split.
  - intros [[base E] F]. exists base. rewrite E in F. apply Forall_app in F as [F _]. auto.
  - intros (base & E & F). split; [eauto|]. rewrite E. apply Forall_app. split; [exact F|]. repeat constructor; discriminate.
Qed.

Lemma tomb_inj p q : is_tsm p = true -> is_tsm q = true -> tombstonePath p = tombstonePath q -> p = q.
Proof.
  rewrite !is_tsm_iff. intros (a & Ea & _) (b & Eb & _). rewrite (tombstonePath_tsm _ _ Ea), (tombstonePath_tsm _ _ Eb). intros E.
  apply (f_equal chars) in E. rewrite !chars_soa in E. apply app_inv_tail in E. subst b. rewrite <- (soa_chars p), Ea, <- Eb. apply soa_chars.
Qed.

Lemma tomb_suffix p : is_tsm p = true -> has_suffix (tombstonePath p) (chars ".tombstone") = true.
Proof. rewrite is_tsm_iff. intros (a & Ea & _). rewrite (tombstonePath_tsm _ _ Ea). apply has_suffix_iff. exists a. apply chars_soa. Qed.

Lemma tomb_not_tsm p q : is_tsm p = true -> is_tsm q = true -> tombstonePath p <> q.
Proof.
  intros Hp Hq <-. apply andb_true_iff in Hq as [Hq _]. pose proof (suffix_clash _ _ _ Hq (tomb_suffix p Hp) ltac:(cbn; lia)) as C. discriminate.
Qed.

Lemma tomb_not_tmp p q : is_tsm p = true -> has_suffix q dot_tmp = true -> tombstonePath p <> q.
Proof. intros Hp Hq <-. pose proof (suffix_clash _ _ _ Hq (tomb_suffix p Hp) ltac:(cbn; lia)) as C. discriminate. Qed.

Lemma tsm_ne_tmp p q : is_tsm p = true -> has_suffix q dot_tmp = true -> p <> q.
Proof. intros Hp Hq <-. rewrite (tsm_not_tmp _ Hp) in Hq. discriminate. Qed.

Lemma tomb_no_slash p : is_tsm p = true -> Forall (fun c => c <> "/"%char) (chars (tombstonePath p)).
Proof.
  rewrite is_tsm_iff. intros (a & Ea & F). rewrite (tombstonePath_tsm _ _ Ea), chars_soa. apply Forall_app. split; [exact F|]. repeat constructor; discriminate.
Qed.

(** ** The last file that has a point *)

Lemma string_lt_trans a b c : string_lt a b = true -> string_lt b c = true -> string_lt a c = true.
Proof.
  unfold string_lt. revert b c. induction a as [|x a IH]; intros [|y b] [|z c]; cbn; try discriminate; try reflexivity.
  unfold Ascii.compare. destruct (N.compare_spec (N_of_ascii x) (N_of_ascii y)) as [E|E|E]; try discriminate;
    destruct (N.compare_spec (N_of_ascii y) (N_of_ascii z)) as [F|F|F]; try discriminate; intros H1 H2.
  - rewrite E, F, N.compare_refl. exact (IH b c H1 H2).
  - rewrite E. apply N.compare_lt_iff in F. rewrite F. reflexivity.
  - rewrite <- F. apply N.compare_lt_iff in E. rewrite E. reflexivity.
  - assert (N_of_ascii x < N_of_ascii z)%N as L by lia. apply N.compare_lt_iff in L. rewrite L. reflexivity.
Qed.

Lemma string_lt_total a b : string_lt a b = true \/ a = b \/ string_lt b a = true.
Proof.
  unfold string_lt. rewrite (String.compare_antisym b a). destruct (String.compare a b) eqn:E; cbn; auto.
  apply String.compare_eq_iff in E. auto.
Qed.

Definition upto (q p : string) : Prop := string_lt q p = true \/ q = p.

Lemma upto_lt a b c : upto a b -> string_lt b c = true -> string_lt a c = true.
Proof. intros [H| ->] L; [exact (string_lt_trans _ _ _ H L)|exact L]. Qed.

Lemma lt_upto a b : string_lt a b = true -> upto b a -> False.
Proof. intros L [H| ->]; [rewrite (string_lt_asym _ _ L) in H|rewrite string_lt_irrefl in L]; discriminate. Qed.

Section Newest.
Context {V : Type}.
Implicit Types s : string -> option V.

(** [v] is what the last of the files that have the point gives. *)
Definition newest_in (l : string -> Prop) s (v : V) : Prop := exists p, l p /\ s p = Some v /\ forall q, l q -> is_Some (s q) -> upto q p.
Definition newest s (v : V) : Prop := newest_in (fun _ => True) s v.

Lemma newest_in_fun l s v v' : newest_in l s v -> newest_in l s v' -> v = v'.
Proof.
  intros (p & Lp & E & H) (p' & Lp' & E' & H'). specialize (H p' Lp' (ex_intro _ _ E')). specialize (H' p Lp (ex_intro _ _ E)).
  destruct H' as [H'| ->]; [destruct (lt_upto _ _ H' H)|congruence].
Qed.

(** Among finitely many files that have the point there is a last one. *)
Lemma newest_in_list s (l : list string) : Exists (fun p => is_Some (s p)) l -> exists v, newest_in (fun p => p ∈ l) s v.
Proof.
  induction l as [|a l IH]; intros H; [inversion H|]. destruct (s a) as [x|] eqn:Ea.
  - destruct (decide (Exists (fun p => is_Some (s p)) l)) as [D|D].
    + destruct (IH D) as (v & p & Lp & E & M). destruct (string_lt_total a p) as [L|[-> |L]].
      * exists v, p. split; [right; exact Lp|]. split; [exact E|]. intros q Hq Sq. apply elem_of_cons in Hq as [-> |Hq]; [left; exact L|auto].
      * exists v, p. split; [right; exact Lp|]. split; [exact E|]. intros q Hq Sq. apply elem_of_cons in Hq as [-> |Hq]; [right; reflexivity|auto].
      * exists x, a. split; [left|]. split; [exact Ea|]. intros q Hq Sq. apply elem_of_cons in Hq as [-> |Hq]; [right; reflexivity|]. left. exact (upto_lt _ _ _ (M q Hq Sq) L).
    + exists x, a. split; [left|]. split; [exact Ea|]. intros q Hq Sq. apply elem_of_cons in Hq as [-> |Hq]; [right; reflexivity|].
      destruct D. apply Exists_exists. eauto.
  - assert (Exists (fun p => is_Some (s p)) l) as D by (inversion H as [? ? [? X]|]; subst; [congruence|assumption]).
    destruct (IH D) as (v & p & Lp & E & M). exists v, p. split; [right; exact Lp|]. split; [exact E|].
    intros q Hq Sq. apply elem_of_cons in Hq as [-> |Hq]; [destruct Sq; congruence|auto].
Qed.

(** Files [old] are to be replaced by files [new], which show [nv]. *)
Record replaces (old new : list string) (s0 nv : string -> option V) : Prop := {
  rp_fresh : forall n, n ∈ new -> s0 n = None /\ n ∉ old;
  rp_same : forall v, (exists n, n ∈ new /\ nv n = Some v) <-> newest_in (fun p => p ∈ old) s0 v;
  rp_above : forall o n, o ∈ old -> n ∈ new -> string_lt o n = true;
  rp_gap : forall q, is_Some (s0 q) -> q ∉ old -> (forall o, o ∈ old -> string_lt q o = true) \/ (forall n, n ∈ new -> string_lt n q = true) }.

(** A directory on the way: either the old files are all there and some of the new
    ones are, or the new ones are all there and some of the old. *)
Record between (old new : list string) (s0 nv s1 : string -> option V) : Prop := {
  bt_other : forall q, q ∉ old -> q ∉ new -> s1 q = s0 q;
  bt_old : forall q, q ∈ old -> s1 q = None \/ s1 q = s0 q;
  bt_new : forall n, n ∈ new -> s1 n = None \/ s1 n = nv n;
  bt_side : (forall q, q ∈ old -> s1 q = s0 q) \/ (forall n, n ∈ new -> s1 n = nv n) }.

Section Between.
Context (old new : list string) (s0 nv s1 : string -> option V) (R : replaces old new s0 nv) (B : between old new s0 nv s1).

(** A new file that has the point has the value of the last old one. *)
Lemma new_value n v v' : newest_in (fun p => p ∈ old) s0 v -> n ∈ new -> s1 n = Some v' -> v' = v.
Proof.
  intros O Hn E. destruct (bt_new _ _ _ _ _ B n Hn) as [X|X]; rewrite E in X; [discriminate|].
  apply (newest_in_fun _ _ _ _ (proj1 (rp_same _ _ _ _ R v') (ex_intro _ n (conj Hn (eq_sym X)))) O).
Qed.

(** The value of a point that an old file shows last. *)
Lemma between_old p v : p ∈ old -> s0 p = Some v -> (forall q, is_Some (s0 q) -> upto q p) -> newest s1 v.
Proof.
  intros Hp E M. assert (newest_in (fun q => q ∈ old) s0 v) as O by (exists p; auto).
  assert (forall q, q ∉ old -> q ∉ new -> is_Some (s1 q) -> is_Some (s0 q) /\ upto q p) as Hq.
  { intros q Ho Hn S. rewrite (bt_other _ _ _ _ _ B q Ho Hn) in S. auto. }
  assert (forall q, q ∈ old -> is_Some (s1 q) -> upto q p) as Hold.
  { intros q Ho S. apply M. destruct (bt_old _ _ _ _ _ B q Ho) as [X|X]; rewrite X in S; [destruct S; discriminate|exact S]. }
  destruct (decide (Exists (fun n => is_Some (s1 n)) new)) as [D|D].
  - destruct (newest_in_list s1 new D) as (x & n & Hn & En & Mn). pose proof (new_value n v x O Hn En) as ->.
    pose proof (rp_above _ _ _ _ R p n Hp Hn) as L. exists n. split; [exact I|]. split; [exact En|]. intros q _ S.
    destruct (decide (q ∈ new)) as [Qn|Qn]; [auto|]. destruct (decide (q ∈ old)) as [Qo|Qo]; [left; exact (upto_lt _ _ _ (Hold q Qo S) L)|].
    left. exact (upto_lt _ _ _ (proj2 (Hq q Qo Qn S)) L).
  - exists p. split; [exact I|]. assert (s1 p = s0 p) as Ep.
    { destruct (bt_side _ _ _ _ _ B) as [X|X]; [auto|]. destruct (proj2 (rp_same _ _ _ _ R v) O) as (n & Hn & En). destruct D. apply Exists_exists. exists n. rewrite (X n Hn). eauto. }
    rewrite Ep. split; [exact E|]. intros q _ S. destruct (decide (q ∈ old)) as [Qo|Qo]; [auto|].
    destruct (decide (q ∈ new)) as [Qn|Qn]; [|exact (proj2 (Hq q Qo Qn S))]. destruct D. apply Exists_exists. eauto.
Qed.

(** Some old file shows the point if a new one does. *)
Lemma old_of_new n : n ∈ new -> is_Some (s1 n) -> exists o, o ∈ old /\ is_Some (s0 o).
Proof.
  intros Hn [v E]. destruct (bt_new _ _ _ _ _ B n Hn) as [X|X]; rewrite E in X; [discriminate|].
  destruct (proj1 (rp_same _ _ _ _ R v) (ex_intro _ n (conj Hn (eq_sym X)))) as (o & Ho & Eo & _). eauto.
Qed.

Lemma between_other p v : p ∉ old -> s0 p = Some v -> (forall q, is_Some (s0 q) -> upto q p) -> newest s1 v.
Proof.
  intros Hp E M. assert (p ∉ new) as Np by (intros H; destruct (rp_fresh _ _ _ _ R p H); congruence).
  exists p. split; [exact I|]. rewrite (bt_other _ _ _ _ _ B p Hp Np). split; [exact E|]. intros q _ S.
  destruct (decide (q ∈ new)) as [Qn|Qn].
  - destruct (old_of_new q Qn S) as (o & Ho & So). destruct (rp_gap _ _ _ _ R p (ex_intro _ _ E) Hp) as [G|G]; [|left; auto].
    destruct (lt_upto _ _ (G o Ho) (M o So)).
  - apply M. destruct (decide (q ∈ old)) as [Qo|Qo]; [destruct (bt_old _ _ _ _ _ B q Qo) as [X|X]; rewrite X in S; [destruct S; discriminate|exact S]|].
    rewrite (bt_other _ _ _ _ _ B q Qo Qn) in S. exact S.
Qed.

Lemma between_some q : is_Some (s1 q) -> exists o, is_Some (s0 o).
Proof.
  intros S. destruct (decide (q ∈ new)) as [Qn|Qn]; [destruct (old_of_new q Qn S) as (o & _ & H); eauto|].
  destruct (decide (q ∈ old)) as [Qo|Qo]; [destruct (bt_old _ _ _ _ _ B q Qo) as [X|X]; rewrite X in S; [destruct S; discriminate|eauto]|].
  rewrite (bt_other _ _ _ _ _ B q Qo Qn) in S. eauto.
Qed.

Lemma between_newest (names : list string) v : (forall q, is_Some (s0 q) -> q ∈ names) -> newest s1 v <-> newest s0 v.
Proof.
  intros F. assert (forall x, newest s0 x -> newest s1 x) as H.
  { intros x (p & _ & E & M). destruct (decide (p ∈ old)); [eapply between_old|eapply between_other]; eauto. }
  split; [|apply H]. intros N. destruct N as (q & Lq & Eq & Mq) eqn:EN. clear EN. destruct (between_some q (ex_intro _ _ Eq)) as (o & So).
  destruct (newest_in_list s0 names) as (x & p & _ & Ep & Mp); [apply Exists_exists; eauto|].
  assert (newest s0 x) as Nx by (exists p; split; [exact I|]; split; [exact Ep|]; intros a _ Sa; auto).
  rewrite (newest_in_fun _ _ _ _ (ex_intro _ q (conj Lq (conj Eq Mq))) (H x Nx)). exact Nx.
Qed.
End Between.
End Newest.

(** ** Calls that leave the files alone *)

(** A reader of a live file has its tombstones beside it. *)
Definition file_ok (f : storeFile) : Prop := forall p, sf_name f = Some p -> is_tsm p = true -> sf_tpath f = p.
Definition heap_ok (h : gmap nat storeFile) : Prop := forall id f, h !! id = Some f -> file_ok f.

Lemma heap_ok_insert h id f : heap_ok h -> file_ok f -> heap_ok (<[id := f]> h).
Proof. intros H F i g. rewrite lookup_insert_Some. intros [[_ <-]|[_ E]]; [exact F|exact (H i g E)]. Qed.

(** [m] changes neither the files nor the store, whatever its outcome. *)
Definition calm {A} (m : FM A) : Prop :=
  forall w, heap_ok (w_heap w) -> wp m (fun _ w' => w_disk w' = w_disk w /\ w_fs w' = w_fs w /\ heap_ok (w_heap w')) w.

Definition still {A} (m : FM A) : Prop := forall w, w_disk (m w).2 = w_disk w.

Section Calm.
Context (plan : nat -> syscall -> fault).

Lemma calm_ret {A} (a : A) : calm (ret a).
Proof. intros w H. apply wp_ret. auto. Qed.
Lemma calm_throw {A} e : calm (throw (A := A) e).
Proof. intros w H. apply wp_throw. auto. Qed.
Lemma calm_panic {A} : calm (panic (A := A)).
Proof. intros w H. cbn. auto. Qed.
Lemma calm_sys c : calm (sys plan c).
Proof. intros w H. unfold wp, sys. destruct (plan (w_tick w) c); cbn; auto. Qed.
Lemma calm_lookup p : calm (lookup_file p).
Proof. intros w H. unfold wp, lookup_file. destruct (w_disk w !! p); auto. Qed.

Lemma calm_bind {A B} (m : FM A) (k : A -> FM B) : calm m -> (forall a, calm (k a)) -> calm (bind m k).
Proof.
  intros Hm Hk w H. apply wp_bind. eapply wp_mono; [exact (Hm w H)|]. intros [a|e|] w' (E1 & E2 & H'); cbn; auto.
  eapply wp_mono; [exact (Hk a w' H')|]. intros r w2 (F1 & F2 & H2). rewrite F1, F2. auto.
Qed.

Lemma calm_catch {A B} (m : FM A) (k : A + ferr -> FM B) : calm m -> (forall a, calm (k a)) -> calm (catch m k).
Proof.
  intros Hm Hk w H. apply wp_catch. eapply wp_mono; [exact (Hm w H)|]. intros [a|e|] w' (E1 & E2 & H'); cbn; auto;
    (eapply wp_mono; [apply Hk; exact H'|]); intros r w2 (F1 & F2 & H2); rewrite F1, F2; auto.
Qed.

Lemma calm_deref {B} id (k : storeFile -> FM B) : (forall f, file_ok f -> calm (k f)) -> calm (bind (deref id) k).
Proof.
  intros Hk w H. apply wp_bind. unfold wp, deref. destruct (w_heap w !! id) as [f|] eqn:E; cbn; [|auto]. exact (Hk f (H id f E) w H).
Qed.

Lemma calm_assign id f : file_ok f -> calm (assign id f).
Proof. intros F w H. apply wp_modify. cbn. auto using heap_ok_insert. Qed.

Lemma calm_alloc f : file_ok f -> calm (alloc f).
Proof. intros F w H. unfold wp, alloc. cbn. auto using heap_ok_insert. Qed.

Lemma calm_open p : calm (os_Open plan p).
Proof. apply calm_bind; [apply calm_sys|intros _; apply calm_lookup]. Qed.
Lemma calm_stat p : calm (os_Stat plan p).
Proof. apply calm_bind; [apply calm_sys|intros _; apply calm_lookup]. Qed.

Lemma calm_Path id : calm (Path id).
Proof. apply calm_deref. intros f _. destruct (sf_name f); [apply calm_ret|apply calm_panic]. Qed.
Lemma calm_InUse id : calm (InUse id).
Proof. apply calm_deref. intros f _. apply calm_ret. Qed.
Lemma calm_TombstoneFiles id : calm (TombstoneFiles plan id).
Proof. apply calm_deref. intros f _. apply calm_catch; [apply calm_stat|]. intros [i|e]; apply calm_ret. Qed.

Lemma calm_open_reader `{BU : BytesUtil} `{GZ : Gzip} p i : calm (open_reader plan p i).
Proof.
  unfold open_reader. apply calm_bind; [apply calm_sys|intros _]. apply calm_bind; [apply calm_sys|intros _].
  destruct (ma_init (in_data i)); [|apply calm_throw|apply calm_panic].
  apply calm_bind; [apply calm_catch; [apply calm_open|intros [t|[]]; first [apply calm_ret|apply calm_throw]]|]. intros tomb.
  destruct (NewTSMReader (in_data i) tomb); [|apply calm_throw|apply calm_panic]. apply calm_alloc. intros q E _. injection E as <-. reflexivity.
Qed.

Lemma calm_Close id : calm (Close plan id).
Proof.
  apply calm_deref. intros f F. destruct (rd_InUse (sf_rd f)); [apply calm_throw|]. destruct (ma_b _); [|apply calm_ret].
  apply calm_bind; [apply calm_sys|intros _]. destruct (sf_stale f); [apply calm_throw|]. apply calm_bind; [|intros _; apply calm_sys].
  apply calm_assign. exact F.
Qed.

Lemma still_ret {A} (a : A) : still (ret a).
Proof. intros w. reflexivity. Qed.
Lemma still_sys c : still (sys plan c).
Proof. intros w. unfold sys. destruct (plan (w_tick w) c); reflexivity. Qed.
Lemma still_store g : still (mod_store g).
Proof. intros w. reflexivity. Qed.
Lemma still_bind {A B} (m : FM A) (k : A -> FM B) : still m -> (forall a, still (k a)) -> still (bind m k).
Proof. intros Hm Hk w. unfold bind. specialize (Hm w). destruct (m w) as [[a|e|] w'] eqn:E; cbn in *; [|exact Hm|exact Hm]. rewrite (Hk a w'). exact Hm. Qed.
Lemma still_catch {A B} (m : FM A) (k : A + ferr -> FM B) : still m -> (forall a, still (k a)) -> still (catch m k).
Proof. intros Hm Hk w. unfold catch. specialize (Hm w). destruct (m w) as [[a|e|] w'] eqn:E; cbn in *; [| |exact Hm]; rewrite (Hk _ w'); exact Hm. Qed.
Lemma still_deref id : still (deref id).
Proof. intros w. unfold deref. destruct (w_heap w !! id); reflexivity. Qed.
Lemma still_the_store : still the_store.
Proof. intros w. reflexivity. Qed.
Lemma still_Path id : still (Path id).
Proof. apply still_bind; [apply still_deref|]. intros f w. destruct (sf_name f); reflexivity. Qed.
Lemma still_stat p : still (os_Stat plan p).
Proof. apply still_bind; [apply still_sys|]. intros _ w. unfold lookup_file. destruct (w_disk w !! p); reflexivity. Qed.
Lemma still_TombstoneFiles id : still (TombstoneFiles plan id).
Proof. apply still_bind; [apply still_deref|]. intros f. apply still_catch; [apply still_stat|]. intros [i|e] w; reflexivity. Qed.
End Calm.

Create HintDb calm.
#[export] Hint Resolve calm_ret calm_throw calm_panic calm_sys calm_open calm_stat calm_Path calm_InUse calm_TombstoneFiles calm_open_reader calm_Close : calm.
#[export] Hint Resolve still_ret still_sys still_store still_deref still_the_store still_Path still_TombstoneFiles : calm.

(** ** Making the new files live *)

Abbreviation dir := (gmap string inode).

Definition tmp_names (l : list string) : Prop := NoDup l /\ Forall (fun n => has_suffix n dot_tmp = true /\ is_tsm (cut_tmp n) = true) l.

Lemma cut_tmp_inj a b : has_suffix a dot_tmp = true -> has_suffix b dot_tmp = true -> cut_tmp a = cut_tmp b -> a = b.
Proof. intros Ha Hb E. rewrite <- (add_cut_tmp a Ha), <- (add_cut_tmp b Hb), E. reflexivity. Qed.

(** What loading did to a directory: tombstones and other files are as before, and
    a live name holds what it held or what the temporary file held. *)
Record loading (new : list string) (d0 d : dir) : Prop := {
  ld_tomb : forall p, is_tsm p = true -> d !! tombstonePath p = d0 !! tombstonePath p;
  ld_other : forall p, is_tsm p = true -> p ∉ map cut_tmp new -> d !! p = d0 !! p;
  ld_new : forall n, n ∈ new -> d !! cut_tmp n = d0 !! cut_tmp n \/ d !! cut_tmp n = d0 !! n }.

Lemma loading_refl new d : loading new d d.
Proof. split; auto. Qed.

Lemma loading_cons n new i d0 d :
  tmp_names (n :: new) -> d0 !! n = Some i -> loading new (<[cut_tmp n := i]> (delete n d0)) d ->
  loading (n :: new) d0 d /\ d !! cut_tmp n = d0 !! n
  /\ forall m, m ∈ new -> (<[cut_tmp n := i]> (delete n d0)) !! m = d0 !! m.
Proof.
  intros [ND F] E [T O N]. apply NoDup_cons in ND as [Hn ND]. apply Forall_cons in F as [[Sn Tn] F]. rewrite Forall_forall in F.
  assert (forall p, is_tsm p = true -> p <> cut_tmp n -> (<[cut_tmp n := i]> (delete n d0)) !! p = d0 !! p) as Hp.
  { intros p Hp Hne. rewrite lookup_insert_ne by congruence. apply lookup_delete_ne. intros <-. exact (tsm_ne_tmp _ _ Hp Sn eq_refl). }
  assert (forall m, m ∈ new -> (<[cut_tmp n := i]> (delete n d0)) !! m = d0 !! m) as Hm.
  { intros m Hm. destruct (F m Hm) as [Sm _]. rewrite lookup_insert_ne by (intros X; exact (tsm_ne_tmp _ _ Tn Sm X)). apply lookup_delete_ne. intros ->. contradiction. }
  assert (cut_tmp n ∉ map cut_tmp new) as Cn.
  { intros X. apply list_elem_of_fmap in X as (m & X & Hm'). destruct (F m Hm') as [Sm _]. apply (cut_tmp_inj _ _ Sn Sm) in X. subst m. contradiction. }
  assert (d !! cut_tmp n = d0 !! n) as En by (rewrite (O _ Tn Cn), lookup_insert_eq; symmetry; exact E).
  split; [|split; [exact En|exact Hm]]. split.
  - intros p Hp'. rewrite (T p Hp'). rewrite lookup_insert_ne by (intros X; exact (tomb_not_tsm _ _ Hp' Tn (eq_sym X))).
    apply lookup_delete_ne. intros X. exact (tomb_not_tmp _ _ Hp' Sn (eq_sym X)).
  - intros p Hp' Hout. cbn [map] in Hout. apply not_elem_of_cons in Hout as [Hne Hout]. rewrite (O p Hp' Hout). auto.
  - intros m Hin. apply elem_of_cons in Hin as [-> |Hin]; [right; exact En|]. destruct (F m Hin) as [Sm Tm]. rewrite <- (Hm m Hin).
    assert (cut_tmp m <> cut_tmp n) as Hne by (intros X; apply (cut_tmp_inj _ _ Sm Sn) in X; subst m; contradiction).
    destruct (N m Hin) as [X|X]; [left; rewrite X; auto|right; exact X].
Qed.

Section Loading.
Context (plan : nat -> syscall -> fault) `{BU : BytesUtil} `{GZ : Gzip}.

Lemma Rename_file_wp a b w :
  wp (os_Rename plan a b) (fun r w' => w_fs w' = w_fs w /\ w_heap w' = w_heap w
    /\ match r with Ok _ => exists i, w_disk w !! a = Some i /\ w_disk w' = <[b := i]> (delete a (w_disk w)) | _ => w_disk w' = w_disk w end) w.
Proof.
  unfold wp, os_Rename, bind, sys, lookup_file, mod_disk, modify. destruct (plan (w_tick w) (SRename a b)); cbn; auto.
  destruct (w_disk w !! a) as [i|] eqn:E; cbn; eauto.
Qed.

(** The outcome of loading. *)
Definition loaded (new : list string) (w : world) {A} (r : res ferr A) (w' : world) : Prop :=
  loading new (w_disk w) (w_disk w') /\ w_fs w' = w_fs w /\ heap_ok (w_heap w')
  /\ match r with Ok _ => forall n, n ∈ new -> w_disk w' !! cut_tmp n = w_disk w !! n | _ => True end.

Lemma load_new_wp new mt w : tmp_names new -> heap_ok (w_heap w) -> wp (load_new plan new mt) (loaded new w) w.
Proof.
  revert mt w. induction new as [|n new IH]; intros mt w HN H.
  { apply wp_ret. split; [apply loading_refl|]. split; [reflexivity|]. split; [exact H|]. intros m Hm. apply elem_of_nil in Hm as []. }
  cbn [load_new]. pose proof HN as [ND F]. apply NoDup_cons in ND as [_ ND]. apply Forall_cons in F as [[Sn Tn] F]. rewrite Sn.
  apply wp_bind. eapply wp_mono; [apply Rename_file_wp|]. intros [u|e|] w1 (E1 & E2 & E3); cbn [seq_post].
  2, 3: (split; [rewrite E3; apply loading_refl|rewrite E2; auto]).
  destruct E3 as (i & Ei & Ed). assert (heap_ok (w_heap w1)) as H1 by (rewrite E2; exact H).
  assert (forall B (m : FM B) (k : B -> FM (list nat * Z)), calm m ->
    (forall b w2, w_disk w2 = w_disk w1 -> w_fs w2 = w_fs w1 -> heap_ok (w_heap w2) -> wp (k b) (loaded (n :: new) w) w2) ->
    forall w2, w_disk w2 = w_disk w1 -> w_fs w2 = w_fs w1 -> heap_ok (w_heap w2) -> wp (bind m k) (loaded (n :: new) w) w2) as Step.
  { intros B m k Hm Hk w2 D2 S2 H2. apply wp_bind. eapply wp_mono; [exact (Hm w2 H2)|]. intros r w3 (D3 & S3 & H3).
    assert (loading (n :: new) (w_disk w) (w_disk w3)) as L.
    { rewrite D3, D2, Ed. exact (proj1 (loading_cons n new i _ _ HN Ei (loading_refl _ _))). }
    destruct r as [b|e|]; cbn [seq_post]; [apply Hk; congruence || exact H3| |]; (split; [exact L|]); (split; [congruence|auto]). }
  apply Step; auto with calm. intros j. apply Step.
  { apply calm_catch; [apply calm_sys|]. intros [x|e]; apply calm_ret. }
  intros mt'. apply Step; auto with calm. intros id w2 D2 S2 H2. apply wp_bind.
  eapply wp_mono; [exact (IH mt' w2 (conj ND F) H2)|]. intros r w3 (L & S3 & H3 & P). rewrite D2, Ed in L.
  destruct (loading_cons n new i _ _ HN Ei L) as (L' & En & Hm).
  assert (w_fs w3 = w_fs w) as S by congruence.
  destruct r as [[ids m]|e|]; cbn [seq_post]; [apply wp_ret| |]; (split; [exact L'|]); (split; [exact S|]); (split; [exact H3|]); auto.
  intros m' Hin. apply elem_of_cons in Hin as [-> |Hin]; [exact En|]. rewrite (P m' Hin), D2, Ed. auto.
Qed.
End Loading.

(** ** Removing the old files *)

Definition intact (d0 d : dir) (p : string) : Prop := d !! p = d0 !! p /\ d !! tombstonePath p = d0 !! tombstonePath p.

(** Only old files are gone, and a file that is there has its tombstones. *)
Definition pruned (old : list string) (d0 d : dir) : Prop :=
  forall p, is_tsm p = true -> (p ∉ old -> intact d0 d p) /\ (p ∈ old -> d !! p = None \/ intact d0 d p).

Lemma pruned_refl old d : pruned old d d.
Proof. intros p _. split; [split; reflexivity|right; split; reflexivity]. Qed.

(** Changing a directory at [p] only, or at the tombstones of [p] once it is gone,
    or at a name that is neither. *)
Lemma pruned_at old d0 d d' p :
  p ∈ old -> is_tsm p = true -> pruned old d0 d -> d' !! p = None ->
  (forall q, is_tsm q = true -> q <> p -> d' !! q = d !! q /\ d' !! tombstonePath q = d !! tombstonePath q) -> pruned old d0 d'.
Proof.
  intros Ho Hp P E Hq q Tq. destruct (decide (q = p)) as [-> |Hne]; [split; [contradiction|auto]|].
  destruct (Hq q Tq Hne) as [E1 E2]. unfold intact. rewrite E1, E2. apply P. exact Tq.
Qed.

Lemma pruned_delete old d0 d p : p ∈ old -> is_tsm p = true -> pruned old d0 d -> pruned old d0 (delete p d).
Proof.
  intros Ho Hp P. apply (pruned_at old d0 d _ p Ho Hp P); [apply lookup_delete_eq|]. intros q Tq Hne. split; apply lookup_delete_ne; [congruence|].
  intros X. exact (tomb_not_tsm _ _ Tq Hp (eq_sym X)).
Qed.

Lemma pruned_tomb old d0 d p : p ∈ old -> is_tsm p = true -> d !! p = None -> pruned old d0 d -> pruned old d0 (delete (tombstonePath p) d).
Proof.
  intros Ho Hp E P. apply (pruned_at old d0 d _ p Ho Hp P); [rewrite lookup_delete_ne by (exact (tomb_not_tsm _ _ Hp Hp)); exact E|].
  intros q Tq Hne. split; apply lookup_delete_ne; [exact (tomb_not_tsm _ _ Hp Tq)|]. intros X. apply Hne. symmetry. exact (tomb_inj _ _ Hp Tq X).
Qed.

Lemma pruned_rename old d0 d p i : p ∈ old -> is_tsm p = true -> pruned old d0 d -> pruned old d0 (<[add_tmp p := i]> (delete p d)).
Proof.
  intros Ho Hp P. apply (pruned_at old d0 d _ p Ho Hp P).
  - rewrite lookup_insert_ne by (intros X; exact (tsm_ne_tmp _ _ Hp (add_tmp_suffix p) (eq_sym X))). apply lookup_delete_eq.
  - intros q Tq Hne. rewrite lookup_insert_ne by (intros X; exact (tsm_ne_tmp _ _ Tq (add_tmp_suffix p) (eq_sym X))).
    rewrite lookup_insert_ne by (intros X; exact (tomb_not_tmp _ _ Tq (add_tmp_suffix p) (eq_sym X))).
    split; apply lookup_delete_ne; [congruence|]. intros X. exact (tomb_not_tsm _ _ Tq Hp (eq_sym X)).
Qed.

(** The heap is the one before. *)
Ltac same_heap := repeat match goal with E : w_heap ?a = w_heap _ |- heap_ok (w_heap ?a) => rewrite E end; assumption.

Section Pruning.
Context (plan : nat -> syscall -> fault) (old : list string) (d0 : dir) (s : FileStore).
Context (Hold : Forall (fun p => is_tsm p = true) old) (Hplan : forall n p, plan n (SRemoveAll p) <> Fail).

Definition pruning (w : world) : Prop := pruned old d0 (w_disk w) /\ w_fs w = s /\ heap_ok (w_heap w).
Definition named (id : nat) (p : string) (w : world) : Prop := exists f, w_heap w !! id = Some f /\ sf_name f = Some p.

Lemma old_tsm p : p ∈ old -> is_tsm p = true.
Proof. intros H. rewrite Forall_forall in Hold. auto. Qed.

Lemma calm_pruning {A} (m : FM A) w : calm m -> pruning w -> wp m (fun _ w' => pruning w' /\ w_disk w' = w_disk w) w.
Proof. intros C (P & S & H). eapply wp_mono; [exact (C w H)|]. intros r w' (E1 & E2 & H'). unfold pruning. rewrite E1, E2. auto. Qed.

(** A removal works or the process dies. *)
Lemma RemoveAll_wp p w :
  wp (os_RemoveAll plan p) (fun r w' => w_fs w' = w_fs w /\ w_heap w' = w_heap w
    /\ match r with Ok _ => w_disk w' = delete p (w_disk w) | Err _ => False | Panic => w_disk w' = w_disk w end) w.
Proof.
  unfold wp, os_RemoveAll, bind, sys, mod_disk, modify. destruct (plan (w_tick w) (SRemoveAll p)) eqn:E; cbn; auto. destruct (Hplan _ _ E).
Qed.

Lemma Path_wp id w : wp (Path id) (fun r w' => w' = w /\ match r with Ok p => named id p w | _ => True end) w.
Proof.
  unfold wp, Path, bind, deref. destruct (w_heap w !! id) as [f|] eqn:E; cbn; [|auto]. destruct (sf_name f) as [p|] eqn:En; cbn; [|auto].
  split; [reflexivity|]. exists f. auto.
Qed.

Lemma InUse_wp id w : wp (InUse id) (fun _ w' => w' = w) w.
Proof. unfold wp, InUse, bind, deref. destruct (w_heap w !! id); reflexivity. Qed.

Lemma Close_named id p w : named id p w -> wp (Close plan id) (fun _ w' => named id p w') w.
Proof.
  intros (f & E & En). unfold Close. apply wp_bind. unfold wp, deref. rewrite E. cbn [seq_post].
  destruct (rd_InUse (sf_rd f)); [exists f; auto|]. destruct (ma_b _); [|exists f; auto].
  apply wp_bind. unfold wp, sys. destruct (plan _ _); cbn [seq_post]; [|exists f; auto|exists f; auto].
  destruct (sf_stale f); [exists f; auto|]. apply wp_bind, wp_modify. cbn [seq_post]. unfold wp, sys. cbn.
  destruct (plan _ _); cbn; eexists; (split; [apply lookup_insert_eq|exact En]).
Qed.

Lemma Remove_wp id p w : p ∈ old -> named id p w -> pruning w -> wp (Remove plan id) (fun _ w' => pruning w') w.
Proof.
  intros Ho (f & E & En) (P & Es & H). pose proof (old_tsm p Ho) as Tp. pose proof (H id f E p En Tp) as Et.
  unfold Remove. apply wp_bind. unfold wp at 1, Path, bind at 1, deref at 1. rewrite E, En. cbn [seq_post ret].
  apply wp_bind. unfold wp at 1, InUse, bind at 1, deref at 1. rewrite E. cbn [seq_post ret].
  destruct (rd_InUse (sf_rd f)); [split; auto|]. apply wp_bind. unfold wp at 1, deref at 1. rewrite E. cbn [seq_post].
  rewrite bool_decide_eq_false_2 by (intros ->; discriminate Tp). apply wp_bind, wp_catch.
  eapply wp_mono; [apply RemoveAll_wp|]. intros [u|e|] w1 (S1 & H1 & D1); cbn [seq_post]; [|contradiction|split; [rewrite D1; exact P|split; [congruence|same_heap]]].
  apply wp_ret. cbn [seq_post]. eapply wp_mono; [apply RemoveAll_wp|]. rewrite Et.
  assert (pruned old d0 (w_disk w1)) as P1 by (rewrite D1; apply pruned_delete; assumption).
  intros [u'|e|] w2 (S2 & H2 & D2); [|contradiction|]; (split; [rewrite D2; auto|split; [congruence|same_heap]]).
  apply pruned_tomb; auto. rewrite D1. apply lookup_delete_eq.
Qed.

(** Renaming a reader: on every way out at most the file was renamed, and it was
    when there is no error. *)
Lemma Rename_wp id p w : p ∈ old -> named id p w -> pruning w ->
  wp (Rename plan id (add_tmp p)) (fun r w' => pruning w' /\ match r with Ok _ => w_disk w' !! p = None | _ => True end) w.
Proof.
  intros Ho (f & E & En) (P & Es & H). pose proof (old_tsm p Ho) as Tp. pose proof (H id f E) as F.
  assert (forall g, file_ok g -> forall w1, pruned old d0 (w_disk w1) -> w_fs w1 = s -> heap_ok (w_heap w1) -> pruning (set_heap (<[id := g]> (w_heap w1)) w1)) as Up.
  { intros g Fg w1 P1 S1 H1. split; [exact P1|]. split; [exact S1|]. apply heap_ok_insert; assumption. }
  assert (forall b g, sf_name g = Some (add_tmp p) -> file_ok (set_stale b g)) as Ft.
  { intros b g Eg q Eq Tq. cbn in Eq. rewrite Eg in Eq. injection Eq as <-. rewrite add_tmp_not_tsm in Tq. discriminate. }
  unfold Rename. apply wp_bind. unfold wp at 1, deref. rewrite E. cbn [seq_post]. set (f1 := set_rd _ f).
  apply wp_bind, wp_modify. cbn [seq_post]. destruct (Up f1 F w P Es H) as (P1 & S1 & H1). set (w1 := set_heap _ w) in *.
  apply wp_bind. eapply wp_mono; [apply (calm_pruning _ w1 (calm_sys plan _)); split; auto|]. intros [u|e|] w2 [(P2 & S2 & H2) D2]; cbn [seq_post]; [|split; [split|]; auto..].
  destruct (sf_stale f1); [split; [split|]; auto|]. destruct (ma_b (rd_acc (sf_rd f1))); [|split; [split|]; auto].
  apply wp_bind, wp_modify. cbn [seq_post]. destruct (Up (set_stale true f1) F w2 P2 S2 H2) as (P3 & S3 & H3). set (w3 := set_heap _ w2) in *.
  apply wp_bind. eapply wp_mono; [apply (calm_pruning _ w3 (calm_sys plan _)); split; auto|]. intros [u1|e|] w4 [(P4 & S4 & H4) D4]; cbn [seq_post]; [|split; [split|]; auto..].
  change (sf_name f1) with (sf_name f). rewrite En. apply wp_bind. eapply wp_mono; [apply Rename_file_wp|].
  intros [u2|e|] w5 (S5 & H5 & D5); cbn [seq_post]; [|split; [split; [rewrite D5; exact P4|split; [congruence|same_heap]]|exact I]..].
  destruct D5 as (i & _ & D5). assert (pruning w5) as Q5 by (split; [rewrite D5; apply pruned_rename; auto|split; [congruence|same_heap]]).
  assert (w_disk w5 !! p = None) as Gone.
  { rewrite D5. rewrite lookup_insert_ne by (intros X; exact (tsm_ne_tmp _ _ Tp (add_tmp_suffix p) (eq_sym X))). apply lookup_delete_eq. }
  clearbody w1 w3. clear - Ft Q5 Gone Up. apply wp_catch. eapply wp_mono; [apply (calm_pruning _ w5 (calm_open plan _) Q5)|].
  intros [j|e|] w6 [(P6 & S6 & H6) D6]; [| |split; [split|]; auto].
  2: { apply wp_bind, wp_modify. cbn [seq_post]. split; [|exact I]. apply Up; auto. intros q Eq. discriminate. }
  apply wp_bind, wp_modify. cbn [seq_post]. destruct (Up (set_name (Some (add_tmp p)) (set_stale true f1)) (Ft true (set_name (Some (add_tmp p)) f1) eq_refl) w6 P6 S6 H6) as (P7 & S7 & H7).
  set (w7 := set_heap _ w6) in *. assert (w_disk w7 = w_disk w5) as D7 by exact D6. clearbody w7.
  apply wp_bind. eapply wp_mono; [apply (calm_pruning _ w7 (calm_sys plan _)); split; auto|]. intros [u|e|] w8 [(P8 & S8 & H8) D8]; cbn [seq_post]; [|split; [split|]; auto..].
  apply wp_catch. eapply wp_mono; [apply (calm_pruning _ w8 (calm_sys plan _)); split; auto|]. intros [u1|e|] w9 [(P9 & S9 & H9) D9]; [| |split; [split|]; auto].
  - apply wp_modify. cbn. rewrite D9, D8, D7. split; [|exact Gone]. apply Up; auto. apply (Ft false). reflexivity.
  - apply wp_bind, wp_modify. cbn [seq_post]. split; [|exact I]. apply Up; auto. apply (Ft false). reflexivity.
Qed.

Lemma remove_all_wp p ps w : p ∈ old -> Forall (fun x => x = p \/ x = tombstonePath p) ps -> pruning w -> w_disk w !! p = None ->
  wp (remove_all plan ps) (fun _ w' => pruning w') w.
Proof.
  intros Ho Hps. pose proof (old_tsm p Ho) as Tp. revert w. induction Hps as [|x ps Hx _ IH]; intros w (P & S & H) E; [split; auto|].
  cbn [remove_all]. apply wp_bind. eapply wp_mono; [apply RemoveAll_wp|].
  intros [u|e|] w1 (S1 & H1 & D1); cbn [seq_post]; [|contradiction|split; [rewrite D1; exact P|split; [congruence|same_heap]]].
  assert (pruned old d0 (delete x (w_disk w)) /\ delete x (w_disk w) !! p = None) as [P1 E1].
  { destruct Hx as [-> | ->]; [split; [apply pruned_delete; assumption|apply lookup_delete_eq]|].
    split; [apply pruned_tomb; assumption|]. rewrite lookup_delete_ne by (exact (tomb_not_tsm _ _ Tp Tp)). exact E. }
  apply IH; [split; [|split; [congruence|same_heap]]|]; rewrite D1; assumption.
Qed.

Lemma TombstoneFiles_wp id f w : w_heap w !! id = Some f ->
  wp (TombstoneFiles plan id) (fun r w' => w_heap w' = w_heap w /\ match r with Ok ts => Forall (fun t => t.1 = tombstonePath (sf_tpath f)) ts | _ => True end) w.
Proof.
  intros E. unfold TombstoneFiles. apply wp_bind. unfold wp at 1, deref. rewrite E. cbn [seq_post]. apply wp_catch.
  unfold wp at 1, os_Stat, bind, sys, lookup_file. destruct (plan _ _); cbn; [destruct (w_disk w !! _); cbn| |]; split; auto; repeat constructor.
Qed.

Lemma wp_and {A} (m : FM A) Q Q' w : wp m Q w -> wp m Q' w -> wp m (fun r w' => Q r w' /\ Q' r w') w.
Proof. unfold wp. destruct (m w). auto. Qed.

Lemma move_away_wp id p w : p ∈ old -> named id p w -> pruning w -> wp (move_away plan id) (fun _ w' => pruning w') w.
Proof.
  intros Ho N Pw. pose proof N as (f & E & En). pose proof (old_tsm p Ho) as Tp. pose proof (proj2 (proj2 Pw) id f E p En Tp) as Et.
  unfold move_away. apply wp_bind. eapply wp_mono; [exact (wp_and _ _ _ w (TombstoneFiles_wp id f w E) (calm_pruning _ w (calm_TombstoneFiles plan id) Pw))|].
  intros [ts|e|] w1 [[H1 Hts] [P1 D1]]; cbn [seq_post]; auto. assert (named id p w1) as N1 by (exists f; rewrite H1; auto).
  apply wp_bind. eapply wp_mono; [apply Path_wp|]. intros [p'|e|] w2 [-> N2]; cbn [seq_post]; auto.
  assert (p' = p) as -> by (destruct N1 as (f1 & F1 & M1), N2 as (f2 & F2 & M2); congruence).
  apply wp_bind. eapply wp_mono; [exact (Rename_wp id p w1 Ho N1 P1)|]. intros [u|e|] w3 [P3 G]; cbn [seq_post]; auto.
  apply (remove_all_wp p); auto. apply Forall_app. split; [|repeat constructor]. apply Forall_map. eapply Forall_impl; [exact Hts|]. intros t Ht. right. rewrite Ht, Et. reflexivity.
Qed.

Lemma prune_file_wp id l w : (forall x, x ∈ l -> x ∈ old) -> pruning w -> wp (prune_file plan id l) (fun _ w' => pruning w') w.
Proof.
  revert w. induction l as [|x l IH]; intros w Hl Pw; [exact Pw|]. cbn [prune_file]. apply wp_bind. eapply wp_mono; [apply Path_wp|].
  intros [p|e|] w1 [-> N]; cbn [seq_post]; auto. assert (forall y, y ∈ l -> y ∈ old) as Hl' by (intros y Hy; apply Hl; right; exact Hy).
  case_bool_decide as D; [|auto]. subst x. assert (p ∈ old) as Ho by (apply Hl; left).
  apply wp_bind. eapply wp_mono; [apply InUse_wp|]. intros [[]|e|] w2 ->; cbn [seq_post]; auto.
  - apply wp_bind. eapply wp_mono; [exact (move_away_wp id p w Ho N Pw)|]. intros [u|e|] w3 P3; cbn [seq_post]; auto.
    apply wp_bind. eapply wp_mono; [exact (IH w3 Hl' P3)|]. intros [[k l']|e|] w4 P4; cbn [seq_post]; auto.
  - apply wp_bind. eapply wp_mono; [exact (wp_and _ _ _ w (Close_named id p w N) (calm_pruning _ w (calm_Close plan id) Pw))|].
    intros [u|e|] w3 [N3 [P3 _]]; cbn [seq_post]; auto.
    apply wp_bind. eapply wp_mono; [exact (Remove_wp id p w3 Ho N3 P3)|]. intros [u'|e|] w4 P4; cbn [seq_post]; auto.
Qed.

Lemma prune_wp ids w : pruning w -> wp (prune plan ids old) (fun _ w' => pruning w') w.
Proof.
  revert w. induction ids as [|id ids IH]; intros w Pw; [exact Pw|]. cbn [prune]. apply wp_bind.
  eapply wp_mono; [exact (prune_file_wp id old w (fun _ H => H) Pw)|]. intros [[k l]|e|] w1 P1; cbn [seq_post]; auto.
  apply wp_bind. eapply wp_mono; [exact (IH w1 P1)|]. intros [[a i]|e|] w2 P2; cbn [seq_post]; auto.
Qed.
End Pruning.

(** ** The whole replacement *)

Section Replace.
Context (plan : nat -> syscall -> fault) `{BU : BytesUtil} `{GZ : Gzip} (sort_Sort : (nat -> nat -> bool) -> list nat -> list nat).

Lemma still_paths_to ids m : still (paths_to ids m).
Proof. revert m. induction ids as [|id ids IH]; intros m; [apply still_ret|]. apply still_bind; auto with calm. Qed.
Lemma still_all_paths ids : still (all_paths ids).
Proof. induction ids as [|id ids IH]; [apply still_ret|]. apply still_bind; [auto with calm|]. intros p. apply still_bind; auto with calm. Qed.
Lemma still_total_size ids t : still (total_size plan ids t).
Proof. revert t. induction ids as [|id ids IH]; intros t; [apply still_ret|]. apply still_bind; [auto with calm|]. intros f. apply still_bind; auto with calm. Qed.

(** What a directory is after a replacement, however it ended: the new files were
    being loaded, or they were all loaded and the old ones were being removed. *)
Definition replaced (old new : list string) (d0 d : dir) : Prop :=
  loading new d0 d
  \/ exists d1, loading new d0 d1 /\ (forall n, n ∈ new -> d1 !! cut_tmp n = d0 !! n) /\ pruned old d1 d.

Lemma wp_still {A} (m : FM A) (Q : dir -> Prop) w : still m -> Q (w_disk w) -> wp m (fun _ w' => Q (w_disk w')) w.
Proof. intros St H. unfold wp. specialize (St w). destruct (m w) as [r w']. cbn in St. rewrite St. exact H. Qed.

Lemma replace_wp old new fn w :
  heap_ok (w_heap w) -> tmp_names new -> Forall (fun p => is_tsm p = true) old -> (forall n p, plan n (SRemoveAll p) <> Fail) ->
  wp (replace plan sort_Sort old new fn) (fun _ w' => replaced old new (w_disk w) (w_disk w')) w.
Proof.
  intros H HN Ho Hplan. unfold replace.
  assert (forall (m : FM unit), wp m (fun _ w' => replaced old new (w_disk w) (w_disk w')) w ->
    wp (match old, new with [], [] => ret tt | _, _ => m end) (fun _ w' => replaced old new (w_disk w) (w_disk w')) w) as Skip.
  { intros m Hm. destruct old; [destruct new|]; try exact Hm. apply wp_ret. left. apply loading_refl. }
  apply Skip. apply wp_bind. unfold wp at 1, the_store. cbn [seq_post].
  apply wp_bind. eapply wp_mono; [exact (load_new_wp plan new _ w HN H)|]. intros [[updated mt]|e|] w1 (L & S1 & H1 & All); cbn [seq_post]; [|left; exact L..].
  apply wp_bind. eapply (wp_mono _ (fun _ w' => w' = w1)).
  { destruct fn as [g|]; [|reflexivity]. unfold wp, bind, get. destruct (g updated w1); reflexivity. }
  intros [u|e|] w2 ->; cbn [seq_post]; [|left; exact L..].
  apply wp_bind. unfold wp at 1, the_store. cbn [seq_post]. apply wp_bind.
  assert (pruning old (w_disk w1) (w_fs w1) w1) as P1 by (split; [apply pruned_refl|auto]).
  assert (forall w3, pruned old (w_disk w1) (w_disk w3) -> replaced old new (w_disk w) (w_disk w3)) as Done by (intros w3 P3; right; exists (w_disk w1); auto).
  eapply wp_mono; [exact (prune_wp plan old (w_disk w1) (w_fs w1) Ho Hplan _ w1 P1)|].
  intros [[active inuse]|e|] w3 [P3 _]; cbn [seq_post]; auto. apply (wp_still _ (fun d => replaced old new (w_disk w) d)); [|auto].
  apply still_bind; [auto with calm|]. intros _. apply still_bind.
  { apply still_bind; [auto with calm|]. intros x. apply still_bind; [apply still_paths_to|]. auto with calm. }
  intros _. apply still_bind; [auto with calm|]. intros _. apply still_bind; [apply still_bind; [apply still_all_paths|auto with calm]|].
  intros sorted. apply still_bind; [auto with calm|]. intros _. apply still_bind; [apply still_total_size|auto with calm].
Qed.
End Replace.

(** ** Cleaning before a restart *)

Lemma glob_elem g (d : dir) p : p ∈ glob g d <-> g p = true /\ is_Some (d !! p).
Proof.
  unfold glob. rewrite (merge_sort_Permutation String.le), list_elem_of_In, filter_In, in_map_iff. split.
  - intros [([q i] & <- & Hin) Hg]. apply list_elem_of_In, elem_of_map_to_list in Hin. cbn in *. eauto.
  - intros [Hg [i Hi]]. split; [|exact Hg]. exists (p, i). split; [reflexivity|]. apply list_elem_of_In, elem_of_map_to_list. exact Hi.
Qed.

Lemma prefix_chars a b : String.prefix a b = true -> exists t, chars b = chars a ++ t.
Proof.
  revert b. induction a as [|c a IH]; intros b H; [eexists; reflexivity|]. destruct b as [|x b]; [discriminate|]. cbn in H.
  destruct (ascii_dec c x) as [-> |]; [|discriminate]. destruct (IH b H) as [t E]. exists t. cbn. rewrite E. reflexivity.
Qed.

Lemma under_dir p x : String.prefix (String.append p "/") x = true -> ~ Forall (fun c => c <> "/"%char) (chars x).
Proof.
  intros H F. destruct (prefix_chars _ _ H) as [t E]. rewrite E in F. apply Forall_app in F as [F _].
  assert ("/"%char ∈ chars (String.append p "/")) as Hin by (clear; induction p as [|c p IH]; cbn; [left|right; exact IH]).
  rewrite Forall_forall in F. exact (F _ Hin eq_refl).
Qed.

(** Live files and their tombstones are as in [d0]. *)
Definition untouched (d0 d : dir) : Prop := forall p, is_tsm p = true -> intact d0 d p.

Lemma untouched_step d0 d1 d2 : untouched d0 d1 -> untouched d1 d2 -> untouched d0 d2.
Proof. intros H1 H2 p Hp. destruct (H1 p Hp), (H2 p Hp). split; congruence. Qed.

Lemma untouched_delete d p : has_suffix p dot_tmp = true -> untouched d (delete p d).
Proof. intros Hp q Hq. split; apply lookup_delete_ne; intros ->; [exact (tsm_ne_tmp _ _ Hq Hp eq_refl)|exact (tomb_not_tmp _ _ Hq Hp eq_refl)]. Qed.

Lemma untouched_filter d p : untouched d (filter (fun x : string * inode => negb (String.prefix (String.append p "/") x.1) = true) d).
Proof.
  assert (forall q, Forall (fun c => c <> "/"%char) (chars q) -> filter (fun x : string * inode => negb (String.prefix (String.append p "/") x.1) = true) d !! q = d !! q) as H.
  { intros q Hq. rewrite map_lookup_filter. destruct (d !! q) as [i|]; cbn; [|reflexivity].
    destruct (String.prefix (String.append p "/") q) eqn:E; [destruct (under_dir _ _ E Hq)|reflexivity]. }
  intros q Hq. split; apply H; [|exact (tomb_no_slash q Hq)]. apply andb_true_iff in Hq as [_ Hq]. apply bool_decide_eq_true in Hq. exact Hq.
Qed.

Section Cleanup.
Context (plan : nat -> syscall -> fault).

Lemma remove_files_wp names w : Forall (fun p => has_suffix p dot_tmp = true) names -> wp (remove_files plan names) (fun _ w' => untouched (w_disk w) (w_disk w')) w.
Proof.
  intros F. revert w. induction F as [|p names Hp _ IH]; intros w; [split; reflexivity|]. cbn [remove_files]. apply wp_bind.
  unfold wp at 1, os_Remove, bind, sys, lookup_file. destruct (plan _ _); cbn [seq_post]; [|split; reflexivity..].
  cbn. destruct (w_disk w !! p); cbn; [|split; reflexivity]. eapply wp_mono; [apply IH|]. intros r w' H. cbn in H.
  eapply untouched_step; [exact (untouched_delete _ p Hp)|exact H].
Qed.

Lemma remove_dirs_wp names w : wp (remove_dirs plan names) (fun _ w' => untouched (w_disk w) (w_disk w')) w.
Proof.
  revert w. induction names as [|p names IH]; intros w; [split; reflexivity|]. cbn [remove_dirs]. apply wp_bind.
  unfold wp at 1, sys. destruct (plan _ _); cbn [seq_post]; [|split; reflexivity..]. apply wp_bind, wp_modify. cbn [seq_post].
  eapply wp_mono; [apply IH|]. intros r w' H. cbn in H. eapply untouched_step; [exact (untouched_filter _ p)|exact H].
Qed.

Lemma cleanup_wp w : wp (cleanup plan) (fun _ w' => untouched (w_disk w) (w_disk w')) w.
Proof.
  unfold cleanup. apply wp_bind. unfold wp at 1, sys. destruct (plan _ _); cbn [seq_post]; [|split; reflexivity..].
  apply wp_bind, wp_get. cbn [seq_post]. apply wp_bind. eapply wp_mono; [apply remove_dirs_wp|].
  intros [u|e|] w1 H1; cbn [seq_post]; auto. unfold cleanupTempTSMFiles. apply wp_bind, wp_get. cbn [seq_post].
  eapply wp_mono; [apply remove_files_wp|].
  - apply Forall_forall. intros p Hp. apply glob_elem in Hp as [Hp _]. apply andb_true_iff in Hp as [Hp _]. exact Hp.
  - intros r w2 H2. exact (untouched_step _ _ _ H1 H2).
Qed.
End Cleanup.

(** ** What a directory shows *)

Section Shows.
Context {K V : Type} (den : list Z -> option (list Z) -> K -> option V).

(** The value a live file has for a point: [den] of its bytes and its tombstones. *)
Definition shown (d : dir) (k : K) (p : string) : option V :=
  if is_tsm p then match d !! p with Some i => den (in_data i) (in_data <$> d !! tombstonePath p) k | None => None end else None.

Lemma shown_intact d0 d k p : (is_tsm p = true -> intact d0 d p) -> shown d k p = shown d0 k p.
Proof. unfold shown. destruct (is_tsm p); [|reflexivity]. intros H. destruct (H eq_refl) as [-> ->]. reflexivity. Qed.

(** The temporary files [new] hold what the live files [old] show together: their
    names are new and come after the old ones, with no other file in between. *)
Record compacted (old new : list string) (d : dir) : Prop := {
  cm_fresh : forall n, n ∈ new -> d !! cut_tmp n = None /\ d !! tombstonePath (cut_tmp n) = None /\ cut_tmp n ∉ old;
  cm_same : forall k v, (exists n i, n ∈ new /\ d !! n = Some i /\ den (in_data i) None k = Some v) <-> newest_in (fun p => p ∈ old) (shown d k) v;
  cm_above : forall o n, o ∈ old -> n ∈ new -> string_lt o (cut_tmp n) = true;
  cm_gap : forall q, is_tsm q = true -> is_Some (d !! q) -> q ∉ old ->
           (forall o, o ∈ old -> string_lt q o = true) \/ (forall n, n ∈ new -> string_lt (cut_tmp n) q = true) }.

(** What a new file shows once it is live. *)
Definition new_shown (d : dir) (k : K) (p : string) : option V :=
  match d !! add_tmp p with Some i => den (in_data i) None k | None => None end.

Section Commit.
Context (old new : list string) (d0 : dir) (HN : tmp_names new) (Ho : Forall (fun p => is_tsm p = true) old) (C : compacted old new d0).

Lemma new_tmp n : n ∈ new -> has_suffix n dot_tmp = true /\ is_tsm (cut_tmp n) = true.
Proof. intros H. destruct HN as [_ F]. rewrite Forall_forall in F. auto. Qed.

Lemma compacted_replaces k : replaces old (map cut_tmp new) (shown d0 k) (new_shown d0 k).
Proof.
  split.
  - intros p Hp. apply list_elem_of_fmap in Hp as (n & -> & Hn). destruct (cm_fresh _ _ _ C n Hn) as (E & _ & H). split; [|exact H].
    unfold shown. rewrite E. destruct (is_tsm _); reflexivity.
  - intros v. rewrite <- (cm_same _ _ _ C k v). split.
    + intros (p & Hp & E). apply list_elem_of_fmap in Hp as (n & -> & Hn). unfold new_shown in E. rewrite (add_cut_tmp n (proj1 (new_tmp n Hn))) in E.
      destruct (d0 !! n) as [i|] eqn:D; [eauto|discriminate].
    + intros (n & i & Hn & D & E). exists (cut_tmp n). split; [apply list_elem_of_fmap; eauto|]. unfold new_shown. rewrite (add_cut_tmp n (proj1 (new_tmp n Hn))), D. exact E.
  - intros o p Hin Hp. apply list_elem_of_fmap in Hp as (n & -> & Hn). exact (cm_above _ _ _ C o n Hin Hn).
  - intros q Hq Hout. assert (is_tsm q = true /\ is_Some (d0 !! q)) as [Tq Sq].
    { unfold shown in Hq. destruct (is_tsm q); [|destruct Hq; discriminate]. destruct (d0 !! q); [eauto|destruct Hq; discriminate]. }
    destruct (cm_gap _ _ _ C q Tq Sq Hout) as [G|G]; [left; exact G|right]. intros p Hp. apply list_elem_of_fmap in Hp as (n & -> & Hn). auto.
Qed.

Lemma loading_other d k q : loading new d0 d -> q ∉ map cut_tmp new -> shown d k q = shown d0 k q.
Proof. intros [T O _] Hq. apply shown_intact. intros Tq. split; auto. Qed.

Lemma loading_new d k n : loading new d0 d -> n ∈ new -> d !! cut_tmp n = d0 !! n -> shown d k (cut_tmp n) = new_shown d0 k (cut_tmp n).
Proof.
  intros [T _ _] Hn E. destruct (new_tmp n Hn) as [Sn Tn]. destruct (cm_fresh _ _ _ C n Hn) as (_ & Et & _).
  unfold shown, new_shown. rewrite Tn, E, (T _ Tn), Et, (add_cut_tmp n Sn). reflexivity.
Qed.

Lemma old_not_new q : q ∈ old -> q ∉ map cut_tmp new.
Proof. intros H Hq. apply list_elem_of_fmap in Hq as (n & -> & Hn). destruct (cm_fresh _ _ _ C n Hn) as (_ & _ & X). contradiction. Qed.

Lemma loading_between d k : loading new d0 d -> between old (map cut_tmp new) (shown d0 k) (new_shown d0 k) (shown d k).
Proof.
  intros L. split.
  - intros q _ Hq. exact (loading_other d k q L Hq).
  - intros q Hq. right. exact (loading_other d k q L (old_not_new q Hq)).
  - intros p Hp. apply list_elem_of_fmap in Hp as (n & -> & Hn). destruct (ld_new _ _ _ L n Hn) as [E|E]; [left|right; exact (loading_new d k n L Hn E)].
    destruct (cm_fresh _ _ _ C n Hn) as (F & _). unfold shown. rewrite E, F. destruct (is_tsm _); reflexivity.
  - left. intros q Hq. exact (loading_other d k q L (old_not_new q Hq)).
Qed.

Lemma pruned_between d1 d k : loading new d0 d1 -> (forall n, n ∈ new -> d1 !! cut_tmp n = d0 !! n) -> pruned old d1 d ->
  between old (map cut_tmp new) (shown d0 k) (new_shown d0 k) (shown d k).
Proof.
  intros L All P. assert (forall q, q ∉ old -> shown d k q = shown d1 k q) as Keep by (intros q Hq; apply shown_intact; intros Tq; exact (proj1 (P q Tq) Hq)).
  assert (forall p, p ∈ map cut_tmp new -> shown d k p = new_shown d0 k p) as New.
  { intros p Hp. apply list_elem_of_fmap in Hp as (n & -> & Hn). destruct (cm_fresh _ _ _ C n Hn) as (_ & _ & X).
    rewrite (Keep _ X). exact (loading_new d1 k n L Hn (All n Hn)). }
  split; auto.
  - intros q Hq Hn. rewrite (Keep q Hq). exact (loading_other d1 k q L Hn).
  - intros q Hq. rewrite Forall_forall in Ho. destruct (proj2 (P q (Ho q Hq)) Hq) as [E|E].
    + left. unfold shown. rewrite E. destruct (is_tsm q); reflexivity.
    + right. rewrite (shown_intact d1 d k q (fun _ => E)). exact (loading_other d1 k q L (old_not_new q Hq)).
Qed.

Lemma replaced_newest d k v : replaced old new d0 d -> newest (shown d k) v <-> newest (shown d0 k) v.
Proof.
  intros H. apply (between_newest old (map cut_tmp new) (shown d0 k) (new_shown d0 k) (shown d k) (compacted_replaces k)) with (names := map fst (map_to_list d0)).
  - destruct H as [L|(d1 & L & All & P)]; [exact (loading_between d k L)|exact (pruned_between d1 d k L All P)].
  - intros q Hq. unfold shown in Hq. destruct (is_tsm q); [|destruct Hq; discriminate]. destruct (d0 !! q) as [i|] eqn:E; [|destruct Hq; discriminate].
    apply list_elem_of_fmap. exists (q, i). split; [reflexivity|]. apply elem_of_map_to_list. exact E.
Qed.
End Commit.

(** C6 (safety). A store replaces the live files [old] by the temporary files
    [new] that hold what the old files show together, and no other live file is
    between the first of the old names and the last of the new ones ([cm_gap]; the
    full plan of a cold shard can leave such a file, see [plan_spans_gap] of
    CompactPlan, and then older values win).  However the replacement
    goes (calls may fail, except a removal, and the process may die at any call),
    the directory then shows for every point the value it showed before, and
    so it does after the directory was cleaned for a restart, wherever the
    cleaning stops. *)
Theorem replace_crash_safe (plan : nat -> syscall -> fault) `{BU : BytesUtil} `{GZ : Gzip} (sort_Sort : (nat -> nat -> bool) -> list nat -> list nat)
    (old new : list string) (fn : option (list nat -> world -> bool)) (w w' : world) (r : res ferr unit) :
  heap_ok (w_heap w) -> tmp_names new -> Forall (fun p => is_tsm p = true) old -> (forall n p, plan n (SRemoveAll p) <> Fail) ->
  compacted old new (w_disk w) -> replace plan sort_Sort old new fn w = (r, w') ->
  forall k v, (newest (shown (w_disk w') k) v <-> newest (shown (w_disk w) k) v)
    /\ forall plan' w2, (cleanup plan' w').2 = w2 -> (newest (shown (w_disk w2) k) v <-> newest (shown (w_disk w) k) v).
Proof.
  intros H HN Ho Hplan C E k v. pose proof (replace_wp plan sort_Sort old new fn w H HN Ho Hplan) as R. unfold wp in R. rewrite E in R.
  pose proof (replaced_newest old new _ HN Ho C _ k v R) as N. split; [exact N|]. intros plan' w2 <-. rewrite <- N.
  pose proof (cleanup_wp plan' w') as U. unfold wp in U. destruct (cleanup plan' w') as [r2 w2]. cbn.
  assert (forall p, shown (w_disk w2) k p = shown (w_disk w') k p) as S by (intros p; apply shown_intact; exact (U p)).
  unfold newest, newest_in. split; intros (p & Lp & Ep & Mp); exists p; (split; [exact I|]); (split; [congruence|]); intros q Lq Sq; apply Mp; auto; congruence.
Qed.
End Shows.

(** ** A compaction of two files *)

#[local] Existing Instances plain_words plain_laws list_stream list_stream_laws id_snappy id_snappy_laws list_bytesutil id_gzip ex_blocks.
#[local] Open Scope string_scope.

(** The last of two files. *)
Lemma newest_two {V} (s : string -> option V) a b v :
  string_lt a b = true -> newest_in (fun p => p ∈ [a; b]) s v <-> match s b with Some x => Some x | None => s a end = Some v.
Proof.
  intros L. split.
  - intros (p & Hp & E & M). apply elem_of_cons in Hp as [-> |Hp]; [|apply list_elem_of_singleton in Hp as ->; rewrite E; reflexivity].
    destruct (s b) as [x|] eqn:Eb; [|exact E]. destruct (lt_upto _ _ L (M b ltac:(right; left) ltac:(eauto))).
  - assert (forall q, q ∈ [a; b] -> q = a \/ q = b) as Two by (intros q Hq; apply elem_of_cons in Hq as [-> |Hq]; [auto|apply list_elem_of_singleton in Hq; auto]).
    destruct (s b) as [x|] eqn:Eb; intros E.
    + exists b. split; [right; left|]. split; [congruence|]. intros q Hq _. destruct (Two q Hq) as [-> | ->]; [left; exact L|right; reflexivity].
    + exists a. split; [left|]. split; [exact E|]. intros q Hq [y Sq]. destruct (Two q Hq) as [-> | ->]; [right; reflexivity|congruence].
Qed.

Inductive point_ex := Deleted_a1 | Rewritten_a5 | Kept_b1 | Other_a9.
Definition point_of (k : point_ex) : list Z * Z :=
  match k with Deleted_a1 => ([97], 1) | Rewritten_a5 => ([97], 5) | Kept_b1 => ([98], 1) | Other_a9 => ([97], 9) end.

(** What a reader of the file gives for the point. *)
Definition read_point (data : list Z) (tomb : option (list Z)) (k : point_ex) : option Z :=
  match NewTSMReader data tomb with
  | Ok r => match read_key insertion_sort [r] (point_of k).1 0 true with
            | Some l => snd <$> List.find (fun x => bool_decide (x.1 = (point_of k).2)) (concat l)
            | None => None
            end
  | _ => None
  end.

Definition bytes_of (r : TSMReader) : list Z := mapped (rd_acc r).
Definition compacted_ex : TSMReader := Eval vm_compute in reader_of [([97], [ints [(3, 11); (5, 99); (7, 70)]]); ([98], [ints [(1, 30)]])].
Definition later_ex : TSMReader := Eval vm_compute in reader_of [([97], [ints [(9, 90)]])].

Definition old1 : string := "000000001-000000001.tsm".
Definition old2 : string := "000000002-000000001.tsm".
Definition new1 : string := "000000002-000000002.tsm.tmp".
Definition later1 : string := "000000003-000000001.tsm".

Definition disk_ex : dir :=
  <[old1 := mkIN (bytes_of older) 1]> (<["000000001-000000001.tombstone" := mkIN (default [] (rd_tomb older)) 2]>
  (<[old2 := mkIN (bytes_of newer) 3]> (<[new1 := mkIN (bytes_of compacted_ex) 4]> (<[later1 := mkIN (bytes_of later_ex) 5]> ∅)))).

(** The second file is in use. *)
Definition world_ex : world :=
  mkW disk_ex ∅ (<[0%nat := mkSF (Some old1) old1 older false 1]> (<[1%nat := mkSF (Some old2) old2 (set_refs 1 newer) false 3]>
                 (<[2%nat := mkSF (Some later1) later1 later_ex false 5]> ∅))) 3 0 (set_files [0%nat; 1%nat; 2%nat] NewFileStore).

(** The process dies when the tombstones of the first file are about to go. *)
Definition crash_ex (n : nat) (c : syscall) : fault := match c with SRemoveAll p => if bool_decide (p = "000000001-000000001.tombstone") then Crash else Good | _ => Good end.

Lemma disk_ex_names q i : disk_ex !! q = Some i -> q = old1 \/ q = "000000001-000000001.tombstone" \/ q = old2 \/ q = new1 \/ q = later1.
Proof.
  unfold disk_ex. rewrite !lookup_insert_Some. intros [[<- _]|[_ [[<- _]|[_ [[<- _]|[_ [[<- _]|[_ [[<- _]|[_ H]]]]]]]]]]; auto 6. rewrite lookup_empty in H. discriminate.
Qed.

Lemma compacted_two : compacted read_point [old1; old2] [new1] disk_ex.
Proof.
  split.
  - intros n Hn. apply list_elem_of_singleton in Hn as ->. split; [vm_compute; reflexivity|]. split; [vm_compute; reflexivity|].
    intros X. apply elem_of_cons in X as [X|X]; [discriminate|]. apply list_elem_of_singleton in X. discriminate.
  - intros k v. rewrite newest_two by reflexivity. split.
    + intros (n & i & Hn & D & E). apply list_elem_of_singleton in Hn as ->. assert (disk_ex !! new1 = Some (mkIN (bytes_of compacted_ex) 4)) as X by (vm_compute; reflexivity).
      rewrite X in D. injection D as <-. rewrite <- E. destruct k; vm_compute; reflexivity.
    + intros E. exists new1, (mkIN (bytes_of compacted_ex) 4). split; [left|]. split; [vm_compute; reflexivity|]. rewrite <- E. destruct k; vm_compute; reflexivity.
  - intros o n Ho Hn. apply list_elem_of_singleton in Hn as ->. apply elem_of_cons in Ho as [-> |Ho]; [|apply list_elem_of_singleton in Ho as ->]; reflexivity.
  - intros q Tq [i Sq] Hout. right. intros n Hn. apply list_elem_of_singleton in Hn as ->. apply not_elem_of_cons in Hout as [H1 H2]. apply not_elem_of_cons in H2 as [H2 _].
    destruct (disk_ex_names q i Sq) as [-> |[-> |[-> |[-> | ->]]]]; try contradiction; try discriminate; reflexivity.
Qed.

Lemma replace_crash_safe_witness :
  exists r w', replace crash_ex insertion_sort [old1; old2] [new1] None world_ex = (r, w')
    /\ forall k v, (newest (shown read_point (w_disk w') k) v <-> newest (shown read_point (w_disk world_ex) k) v)
        /\ forall plan' w2, (cleanup plan' w').2 = w2 -> (newest (shown read_point (w_disk w2) k) v <-> newest (shown read_point (w_disk world_ex) k) v).
Proof.
  set (r := (replace crash_ex insertion_sort [old1; old2] [new1] None world_ex).1). set (w' := (replace crash_ex insertion_sort [old1; old2] [new1] None world_ex).2).
  exists r, w'. split; [apply surjective_pairing|]. apply (replace_crash_safe read_point crash_ex insertion_sort [old1; old2] [new1] None world_ex w' r).
  - unfold world_ex. cbn [w_heap]. repeat apply heap_ok_insert; try (intros p E _; injection E as <-; reflexivity). intros id f E. rewrite lookup_empty in E. discriminate.
  - split; [apply NoDup_singleton|]. constructor; [|constructor]. split; vm_compute; reflexivity.
  - repeat constructor.
  - intros n p. cbn. case_bool_decide; discriminate.
  - exact compacted_two.
  - apply surjective_pairing.
Defined.

(** The files at the crash and after the replacement without one. *)
Example files_at_crash :
  let '(r, w') := replace crash_ex insertion_sort [old1; old2] [new1] None world_ex in
  r = Panic /\ glob (fun _ => true) (w_disk w') = ["000000001-000000001.tombstone"; old2; cut_tmp new1; later1].
Proof. vm_compute. auto. Qed.

Example replaced_files :
  let '(r, w') := replace (fun _ _ => Good) insertion_sort [old1; old2] [new1] None world_ex in
  r = Ok tt /\ glob (fun _ => true) (w_disk w') = [add_tmp old2; cut_tmp new1; later1] /\ fs_files (w_fs w') = [3%nat; 2%nat]
  /\ map_to_list (fs_purging (w_fs w')) = [(add_tmp old2, 1%nat)].
Proof. vm_compute. auto. Qed.

Example shown_before :
  map (fun k => map (shown read_point disk_ex k) [old1; old2; later1]) [Deleted_a1; Rewritten_a5; Kept_b1; Other_a9]
  = [[None; None; None]; [Some 20; Some 99; None]; [Some 30; None; None]; [None; None; Some 90]].
Proof. vm_compute. reflexivity. Qed.

(** ** When calls fail *)

Definition fail_remove (n : nat) (c : syscall) : fault := match c with SRemoveAll p => if bool_decide (p = old1) then Fail else Good | _ => Good end.
Definition fail_sync (n : nat) (c : syscall) : fault := match c with SSyncDir => Fail | _ => Good end.
Definition fail_open (n : nat) (c : syscall) : fault := match c with SOpen p => if bool_decide (p = add_tmp old2) then Fail else Good | _ => Good end.

(** The removal of a file fails without being reported and its tombstones are
    removed: the directory shows a value that was deleted. *)
Example deleted_value_returns :
  let '(r, w') := replace fail_remove insertion_sort [old1; old2] [new1] None world_ex in
  r = Ok tt /\ map (shown read_point disk_ex Deleted_a1) [old1; old2; later1] = [None; None; None]
  /\ map (shown read_point (w_disk w') Deleted_a1) [old1; cut_tmp new1; later1] = [Some 10; None; None].
Proof. vm_compute. auto. Qed.

(** After an error the store keeps its old list, with a reader that was closed and
    whose file is gone. *)
Example store_keeps_closed :
  let '(r, w') := replace fail_sync insertion_sort [old1; old2] [new1] None world_ex in
  r = Err EIO /\ fs_files (w_fs w') = fs_files (w_fs world_ex) /\ (fun f => ma_b (rd_acc (sf_rd f))) <$> w_heap w' !! 0%nat = Some None /\ w_disk w' !! old1 = None.
Proof. vm_compute. auto. Qed.

(** A reader that cannot be opened again after its rename has no file, and the next
    [Stats] of the store panics. *)
Example stats_panics :
  let '(r, w') := replace fail_open insertion_sort [old1; old2] [new1] None world_ex in r = Err EIO /\ (Stats (fun _ _ => Good) w').1 = Panic.
Proof. vm_compute. auto. Qed.

(** The numbers of the temporary directories are not taken over when a store opens,
    and the next snapshot finds its directory taken. *)
Example temp_ids_forgotten :
  let '(r, w') := Open (fun _ _ => Good) insertion_sort id (set_dirs {["1.tmp"]} (set_fs NewFileStore world_ex)) in
  r = Ok tt /\ fs_currentTempDirID (w_fs w') = 0 /\ (CreateSnapshot (fun _ _ => Good) w').1 = Err EExist.
Proof. vm_compute. auto. Qed.

(** [BlockCount] counts from one and panics at zero. *)
Example block_counts : (fs_BlockCount old2 0 world_ex).1 = Panic /\ map (fun i => (fs_BlockCount old2 i world_ex).1) [1; 2; 3] = [Ok 2; Ok 1; Ok 0].
Proof. vm_compute. auto. Qed.

(** Every key up to the last key of the file is taken to be in its range. *)
Lemma ContainsKey_upto_max f key :
  bytes_le (st_MinKey f) (st_MaxKey f) -> stat_ContainsKey f key = negb (bool_decide (bytes_lt (st_MaxKey f) key)).
Proof.
  intros H. unfold stat_ContainsKey. rewrite (bytes_compare_antisym (st_MaxKey f) key).
  destruct (bytes_compare (st_MaxKey f) key) eqn:E; cbn; rewrite ?orb_true_r.
  - rewrite bool_decide_eq_false_2; [reflexivity|]. unfold bytes_lt. congruence.
  - rewrite bool_decide_eq_true_2 by exact E. cbn. rewrite orb_false_r. assert (bytes_lt (st_MinKey f) key) as L.
    { destruct (bytes_trichotomy (st_MinKey f) (st_MaxKey f)) as [X|[X|X]]; [exact (bytes_lt_trans _ _ _ X E)|rewrite X; exact E|].
      apply bytes_gt_lt in X. unfold bytes_le in H. contradiction. }
    rewrite L. reflexivity.
  - rewrite bool_decide_eq_false_2; [reflexivity|]. unfold bytes_lt. congruence.
Qed.
