(* ===== verification/FileStoreRun.v ===== *)
(** * What a replacement of files achieves

    When every call works, [FileStore.replace] ends: the store lists the new files
    and those of its files that were not to be replaced, in the order of their
    names; the replaced ones and their tombstones are gone from the directory, or
    with the purger as long as queries use them; and the time of the last change,
    which the planner compares, is later than before. *)

From Stdlib Require Import Ascii.
From S2P Require Import Prelude OSFile Values Varint Simple8b TimeCodec IntCodec BoolCodec StringCodec BitReader FloatCodec ValueCodec Blocks TypedValues.
From S2P Require Import Bytes TSMWriter TSMIndex TSMDelete Tombstone TSMReader TSMFile TSMStore KeyIterator KeyFiles WAL TSMNames CompactPlan KeyCursor CursorStore FileStore FileStoreFacts.

Definition works (n : nat) (c : syscall) : fault := Good.

(** ** Single calls *)

Lemma sys_works c w : sys works c w = (Ok tt, tick w).
Proof. reflexivity. Qed.

Lemma RemoveAll_works p w : os_RemoveAll works p w = (Ok tt, set_disk (delete p (w_disk w)) (tick w)).
Proof. reflexivity. Qed.

Lemma Path_named id p w : named id p w -> Path id w = (Ok p, w).
Proof. intros (f & E & En). unfold Path, bind, deref. rewrite E, En. reflexivity. Qed.

Definition tombs_on (d : dir) (p : string) : list (string * inode) := match d !! tombstonePath p with Some i => [(tombstonePath p, i)] | None => [] end.

Lemma TombstoneFiles_works id f w : w_heap w !! id = Some f -> TombstoneFiles works id w = (Ok (tombs_on (w_disk w) (sf_tpath f)), tick w).
Proof.
  intros E. unfold TombstoneFiles, catch, os_Stat, bind, deref, tombs_on, lookup_file. rewrite E, sys_works. cbn.
  destruct (w_disk w !! tombstonePath (sf_tpath f)); reflexivity.
Qed.

(** A reader the store holds: its file is live, with its tombstones beside it; one
    that is to be replaced is mapped and its file is there. *)
Record ready (old : list string) (w : world) (id : nat) (p : string) : Prop := {
  rd_file : exists f, w_heap w !! id = Some f /\ sf_name f = Some p /\ sf_tpath f = p
            /\ (p ∈ old -> sf_stale f = false /\ is_Some (ma_b (rd_acc (sf_rd f))));
  rd_tsm : is_tsm p = true;
  rd_disk : p ∈ old -> is_Some (w_disk w !! p) }.

Definition in_use (w : world) (id : nat) : bool := match w_heap w !! id with Some f => rd_InUse (sf_rd f) | None => false end.

Lemma ready_named old w id p : ready old w id p -> named id p w.
Proof. intros [(f & E & En & _) _ _]. exists f. auto. Qed.

Lemma InUse_works id p old w : ready old w id p -> InUse id w = (Ok (in_use w id), w).
Proof. intros [(f & E & _) _ _]. unfold InUse, in_use, bind, deref. rewrite E. reflexivity. Qed.

(** [p] and its tombstones are gone, other live files and temporary files are not
    touched; of the readers only [id] is, which is named [q] then. *)
Record dropped (id : nat) (p q : string) (w w' : world) : Prop := {
  dr_file : w_disk w' !! p = None;
  dr_tomb : w_disk w' !! tombstonePath p = None;
  dr_other : forall x, is_tsm x = true -> x <> p -> intact (w_disk w) (w_disk w') x;
  dr_heap : forall j, j <> id -> w_heap w' !! j = w_heap w !! j;
  dr_named : named id q w';
  dr_store : w_fs w' = w_fs w }.

Lemma bind_assoc {A B C} (m : FM A) (k : A -> FM B) (h : B -> FM C) w : bind m (fun a => bind (k a) h) w = bind (bind m k) h w.
Proof. unfold bind. destruct (m w) as [[a|e|] w1]; reflexivity. Qed.

(** A reader that nobody uses is closed and removed, with its tombstones. *)
Lemma close_remove_works id f p w :
  w_heap w !! id = Some f -> sf_name f = Some p -> p <> ""%string -> rd_InUse (sf_rd f) = false -> sf_stale f = false -> is_Some (ma_b (rd_acc (sf_rd f))) ->
  exists w', bind (Close works id) (fun _ => Remove works id) w = (Ok tt, w') /\ w_disk w' = delete (tombstonePath (sf_tpath f)) (delete p (w_disk w))
    /\ (forall j, j <> id -> w_heap w' !! j = w_heap w !! j) /\ named id p w' /\ w_fs w' = w_fs w.
Proof.
  intros E En Hp U Es [b Eb]. set (g := set_rd (set_acc (ma_close (rd_acc (sf_rd f))) (sf_rd f)) f).
  set (w1 := tick (set_heap (<[id := g]> (w_heap w)) (tick w))).
  assert (Close works id w = (Ok tt, w1)) as C.
  { unfold Close, bind, deref. rewrite E, U, Eb, sys_works, Es. reflexivity. }
  rewrite (bind_ok _ _ _ _ _ C). assert (w_heap w1 !! id = Some g) as E1 by apply lookup_insert_eq.
  exists (set_disk (delete (tombstonePath (sf_tpath f)) (delete p (w_disk w))) (tick (tick w1))). split; [|split; [reflexivity|split; [|split; [|reflexivity]]]].
  - unfold Remove. rewrite (bind_ok _ _ w1 p w1) by (apply Path_named; exists g; auto).
    unfold bind at 1, InUse, bind at 1, deref at 1. rewrite E1. cbn [ret]. change (rd_InUse (sf_rd g)) with (rd_InUse (sf_rd f)). rewrite U.
    unfold bind at 1, deref. rewrite E1. rewrite bool_decide_eq_false_2 by exact Hp. unfold catch, bind. rewrite RemoveAll_works. cbn [ret].
    rewrite RemoveAll_works. reflexivity.
  - intros j Hj. apply lookup_insert_ne. congruence.
  - exists g. auto.
Qed.

Lemma remove_works old id p w : ready old w id p -> p ∈ old -> in_use w id = false ->
  exists w', bind (Close works id) (fun _ => bind (Remove works id) (fun _ => ret (false, @nil nat))) w = (Ok (false, []), w') /\ dropped id p p w w'.
Proof.
  intros [(f & E & En & Et & M) T _] Ho U. destruct (M Ho) as [Es Eb]. unfold in_use in U. rewrite E in U.
  destruct (close_remove_works id f p w E En) as (w' & R & D & H & N & S); auto; [intros ->; discriminate T|]. rewrite Et in D.
  rewrite bind_assoc, (bind_ok _ _ _ _ _ R). exists w'. split; [reflexivity|]. split; auto; rewrite D.
  - rewrite lookup_delete_ne by (exact (tomb_not_tsm _ _ T T)). apply lookup_delete_eq.
  - apply lookup_delete_eq.
  - intros x Tx Hne. split.
    + rewrite lookup_delete_ne by (exact (tomb_not_tsm _ _ T Tx)). apply lookup_delete_ne. congruence.
    + rewrite lookup_delete_ne by (intros X; apply Hne; symmetry; exact (tomb_inj _ _ T Tx X)). apply lookup_delete_ne. intros X. exact (tomb_not_tsm _ _ Tx T (eq_sym X)).
Qed.

Lemma Rename_works id f p i b w :
  w_heap w !! id = Some f -> sf_name f = Some p -> sf_stale f = false -> ma_b (rd_acc (sf_rd f)) = Some b -> w_disk w !! p = Some i ->
  exists w', Rename works id (add_tmp p) w = (Ok tt, w') /\ w_disk w' = <[add_tmp p := i]> (delete p (w_disk w)) /\ w_fs w' = w_fs w
    /\ (forall j, j <> id -> w_heap w' !! j = w_heap w !! j) /\ named id (add_tmp p) w'.
Proof.
  intros E En Es Eb Ei. unfold Rename, bind at 1, deref. rewrite E. cbv zeta. set (f1 := set_rd _ f).
  rewrite (bind_ok _ _ _ tt (set_heap (<[id := f1]> (w_heap w)) w)) by reflexivity. rewrite (bind_ok _ _ _ _ _ (sys_works _ _)).
  change (sf_stale f1) with (sf_stale f). rewrite Es. change (ma_b (rd_acc (sf_rd f1))) with (ma_b (rd_acc (sf_rd f))). rewrite Eb.
  unfold bind at 1, assign at 1, modify. rewrite (bind_ok _ _ _ _ _ (sys_works _ _)). change (sf_name f1) with (sf_name f). rewrite En.
  unfold bind at 1, os_Rename, bind at 1. rewrite sys_works. unfold bind at 1, lookup_file at 1. cbn [w_disk tick set_heap]. rewrite Ei. cbn [mod_disk modify].
  unfold catch at 1, os_Open, bind at 1. rewrite sys_works. unfold lookup_file. cbn [w_disk tick set_heap set_disk]. rewrite lookup_insert_eq.
  unfold bind at 1, assign at 1, modify. rewrite (bind_ok _ _ _ _ _ (sys_works _ _)). unfold catch. rewrite sys_works.
  eexists. split; [reflexivity|]. cbn. split; [reflexivity|]. split; [reflexivity|]. split.
  - intros j Hj. rewrite !lookup_insert_ne by congruence. reflexivity.
  - eexists. split; [apply lookup_insert_eq|reflexivity].
Qed.

Lemma remove_all_works ps w : exists w', remove_all works ps w = (Ok tt, w') /\ w_disk w' = foldr delete (w_disk w) (rev ps) /\ w_heap w' = w_heap w /\ w_fs w' = w_fs w.
Proof.
  revert w. induction ps as [|p ps IH]; intros w; [exists w; auto|]. cbn [remove_all]. rewrite (bind_ok _ _ _ _ _ (RemoveAll_works p w)).
  destruct (IH (set_disk (delete p (w_disk w)) (tick w))) as (w' & E & D & H & S). exists w'. split; [exact E|]. split; [|auto].
  rewrite D. cbn [rev]. rewrite foldr_app. reflexivity.
Qed.

Lemma move_away_works old id p w : ready old w id p -> p ∈ old ->
  exists w', move_away works id w = (Ok tt, w') /\ dropped id p (add_tmp p) w w' /\ w_disk w' !! add_tmp p = w_disk w !! p.
Proof.
  intros [(f & E & En & Et & M) T D] Ho. destruct (M Ho) as [Es [b Eb]], (D Ho) as [i Ei]. unfold move_away.
  rewrite (bind_ok _ _ _ _ _ (TombstoneFiles_works id f w E)). rewrite (bind_ok _ _ _ p (tick w)) by (apply Path_named; exists f; auto).
  destruct (Rename_works id f p i b (tick w) E En Es Eb Ei) as (w1 & R & D1 & S1 & H1 & N1). rewrite (bind_ok _ _ _ _ _ R).
  destruct (remove_all_works (map fst (tombs_on (w_disk w) (sf_tpath f)) ++ [p]) w1) as (w2 & R2 & D2 & H2 & S2). exists w2. split; [exact R2|].
  assert (p <> add_tmp p) as Hp by (exact (tsm_ne_tmp _ _ T (add_tmp_suffix p))).
  assert (forall x, x <> p -> x <> tombstonePath p -> w_disk w2 !! x = w_disk w1 !! x) as Same.
  { intros x Hx Ht. rewrite D2, rev_app_distr. cbn. rewrite lookup_delete_ne by congruence. unfold tombs_on. rewrite Et.
    destruct (w_disk w !! tombstonePath p); cbn; [rewrite lookup_delete_ne by congruence|]; reflexivity. }
  assert (w_disk w2 !! p = None) as Gp by (rewrite D2, rev_app_distr; apply lookup_delete_eq).
  assert (w_disk w2 !! tombstonePath p = None) as Gt.
  { rewrite D2, rev_app_distr. cbn. rewrite lookup_delete_ne by (intros X; exact (tomb_not_tsm _ _ T T (eq_sym X))). unfold tombs_on. rewrite Et.
    destruct (w_disk w !! tombstonePath p) eqn:X; cbn; [apply lookup_delete_eq|]. rewrite D1.
    rewrite lookup_insert_ne by (intros Y; exact (tomb_not_tmp _ _ T (add_tmp_suffix p) (eq_sym Y))). rewrite lookup_delete_ne by (intros Y; exact (tomb_not_tsm _ _ T T (eq_sym Y))). exact X. }
  split.
  - split; auto.
    + intros x Tx Hne. split.
      * rewrite Same by (auto; intros X; exact (tomb_not_tsm _ _ T Tx (eq_sym X))). rewrite D1, lookup_insert_ne by (intros X; exact (tsm_ne_tmp _ _ Tx (add_tmp_suffix p) (eq_sym X))).
        apply lookup_delete_ne. congruence.
      * rewrite Same; [|exact (tomb_not_tsm _ _ Tx T)|intros X; apply Hne; exact (tomb_inj _ _ Tx T X)].
        rewrite D1, lookup_insert_ne by (intros X; exact (tomb_not_tmp _ _ Tx (add_tmp_suffix p) (eq_sym X))). apply lookup_delete_ne. intros X. exact (tomb_not_tsm _ _ Tx T (eq_sym X)).
    + intros j Hj. rewrite H2. exact (H1 j Hj).
    + destruct N1 as (g & G1 & G2). exists g. rewrite H2. auto.
    + rewrite S2, S1. reflexivity.
  - rewrite Same by (auto; exact (fun X => tomb_not_tmp _ _ T (add_tmp_suffix p) (eq_sym X))). rewrite D1, lookup_insert_eq. symmetry. exact Ei.
Qed.

(** ** The loop over the files *)

Lemma prune_keep id p l w : named id p w -> p ∉ l -> prune_file works id l w = (Ok (true, []), w).
Proof.
  intros N. induction l as [|x l IH]; intros Hp; [reflexivity|]. apply not_elem_of_cons in Hp as [Hne Hp]. cbn [prune_file].
  rewrite (bind_ok _ _ _ _ _ (Path_named id p w N)). rewrite bool_decide_eq_false_2 by congruence. auto.
Qed.

Lemma prune_drop old id p l w : Forall (fun x => is_tsm x = true) l -> ready old w id p -> p ∈ old -> p ∈ l ->
  exists w', prune_file works id l w = (Ok (false, if in_use w id then [id] else []), w') /\ dropped id p (if in_use w id then add_tmp p else p) w w'.
Proof.
  intros F R Ho. induction F as [|x l Tx F IH]; intros Hp; [apply elem_of_nil in Hp as []|]. cbn [prune_file].
  rewrite (bind_ok _ _ _ _ _ (Path_named id p w (ready_named _ _ _ _ R))). case_bool_decide as D; [|apply elem_of_cons in Hp as [Hp|Hp]; [congruence|auto]]. subst x.
  rewrite (bind_ok _ _ _ _ _ (InUse_works id p old w R)). destruct (in_use w id) eqn:U; [|exact (remove_works old id p w R Ho U)].
  destruct (move_away_works old id p w R Ho) as (w1 & E & Dr & _). rewrite (bind_ok _ _ _ _ _ E).
  rewrite (bind_ok _ _ _ (true, []) w1). { exists w1. split; [reflexivity|exact Dr]. }
  apply (prune_keep id (add_tmp p)); [exact (dr_named _ _ _ _ _ Dr)|]. intros X. rewrite Forall_forall in F. pose proof (F _ X) as Y. rewrite add_tmp_not_tsm in Y. discriminate.
Qed.

Definition out (old : list string) (x : nat * string) : bool := bool_decide (x.2 ∈ old).

(** What the loop did to the world. *)
Record pruned_run (old : list string) (xs : list (nat * string)) (w w' : world) : Prop := {
  pr_gone : forall x, x ∈ xs -> x.2 ∈ old -> w_disk w' !! x.2 = None /\ w_disk w' !! tombstonePath x.2 = None;
  pr_other : forall q, is_tsm q = true -> (q ∈ old -> q ∉ map snd xs) -> intact (w_disk w) (w_disk w') q;
  pr_heap : forall j, (forall p, (j, p) ∈ xs -> p ∉ old) -> w_heap w' !! j = w_heap w !! j;
  pr_used : forall x, x ∈ xs -> x.2 ∈ old -> in_use w x.1 = true -> named x.1 (add_tmp x.2) w';
  pr_store : w_fs w' = w_fs w }.

Lemma ready_same old id p w w' : w_heap w' !! id = w_heap w !! id -> (p ∈ old -> w_disk w' !! p = w_disk w !! p) -> ready old w id p -> ready old w' id p.
Proof. intros Eh Ed [(f & E & R) T D]. split; [exists f; rewrite Eh; auto|exact T|]. intros Ho. rewrite (Ed Ho). auto. Qed.

Lemma dropped_ready old id p q w w' j y :
  dropped id p q w w' -> j <> id -> y <> p -> ready old w j y -> ready old w' j y /\ in_use w' j = in_use w j.
Proof.
  intros D Hj Hy R. pose proof (rd_tsm _ _ _ _ R) as T. split.
  - apply (ready_same old j y w w'); [exact (dr_heap _ _ _ _ _ D j Hj)| |exact R]. intros _. exact (proj1 (dr_other _ _ _ _ _ D y T Hy)).
  - unfold in_use. rewrite (dr_heap _ _ _ _ _ D j Hj). reflexivity.
Qed.

Lemma prune_works old xs w :
  Forall (fun x => is_tsm x = true) old -> NoDup (map fst xs) -> NoDup (map snd xs) -> Forall (fun x => ready old w x.1 x.2) xs ->
  exists w', prune works (map fst xs) old w
      = (Ok (map fst (List.filter (fun x => negb (out old x)) xs), map fst (List.filter (fun x => out old x && in_use w x.1) xs)), w')
    /\ pruned_run old xs w w'.
Proof.
  intros F. revert w. induction xs as [|[id p] xs IH]; intros w N1 N2 R.
  { exists w. split; [reflexivity|]. split; auto; try (intros x H; apply elem_of_nil in H as []). intros q _ _. split; reflexivity. }
  apply NoDup_cons in N1 as [Hid N1], N2 as [Hp N2]. apply Forall_cons in R as [R0 R]. cbn [fst snd] in *. cbn [map fst prune List.filter].
  assert (forall x, x ∈ xs -> x.1 <> id /\ x.2 <> p) as Other.
  { intros x Hx. split; intros E; [apply Hid|apply Hp]; rewrite <- E; apply list_elem_of_fmap; eauto. }
  assert (out old (id, p) = bool_decide (p ∈ old)) as -> by reflexivity. case_bool_decide as Ho; cbn [negb andb].
  - destruct (prune_drop old id p old w F R0 Ho Ho) as (w1 & E & D). rewrite (bind_ok _ _ _ _ _ E).
    assert (Forall (fun x => ready old w1 x.1 x.2) xs /\ forall x, x ∈ xs -> in_use w1 x.1 = in_use w x.1) as [R1 U1].
    { rewrite Forall_forall in R. split; [apply Forall_forall|]; intros x Hx; destruct (Other x Hx) as [H1 H2]; apply (dropped_ready old _ _ _ _ _ _ _ D H1 H2 (R x Hx)). }
    destruct (IH w1 N1 N2 R1) as (w' & E' & [G O H U S]). rewrite (bind_ok _ _ _ _ _ E'). exists w'. split.
    + unfold ret. do 3 f_equal. assert (List.filter (fun x => out old x && in_use w1 x.1) xs = List.filter (fun x => out old x && in_use w x.1) xs) as ->.
      { apply List.filter_ext_in. intros x Hx. rewrite (U1 x) by (apply list_elem_of_In; exact Hx). reflexivity. }
      destruct (in_use w id); reflexivity.
    + assert (w_disk w' !! p = None /\ w_disk w' !! tombstonePath p = None) as Gp.
      { destruct (O p (rd_tsm _ _ _ _ R0) (fun _ => Hp)) as [-> ->]. split; [exact (dr_file _ _ _ _ _ D)|exact (dr_tomb _ _ _ _ _ D)]. }
      split.
      * intros x Hx Hxo. apply elem_of_cons in Hx as [-> |Hx]; [exact Gp|auto].
      * intros q Tq Hq. cbn [map snd] in Hq. assert (q <> p) as Hne by (intros ->; apply (Hq Ho); left).
        destruct (O q Tq (fun X Y => Hq X (list_elem_of_further _ _ _ Y))) as [A1 A2], (dr_other _ _ _ _ _ D q Tq Hne) as [B1 B2]. split; congruence.
      * intros j Hj. rewrite H by (intros y Hy; apply Hj; right; exact Hy). apply (dr_heap _ _ _ _ _ D). intros ->. exact (Hj p ltac:(left) Ho).
      * intros x Hx Hxo Ux. apply elem_of_cons in Hx as [-> |Hx]; [|apply U; auto; rewrite (U1 x Hx); exact Ux]. cbn [fst snd] in *.
        pose proof (dr_named _ _ _ _ _ D) as (g & Eg & Ng). rewrite Ux in Ng. exists g. split; [|exact Ng].
        rewrite H; [exact Eg|]. intros y Hy. destruct Hid. apply list_elem_of_fmap. exists (id, y). auto.
      * rewrite S. exact (dr_store _ _ _ _ _ D).
  - rewrite (bind_ok _ _ _ _ _ (prune_keep id p old w (ready_named _ _ _ _ R0) Ho)).
    destruct (IH w N1 N2 R) as (w' & E' & [G O H U S]). rewrite (bind_ok _ _ _ _ _ E'). exists w'. split; [reflexivity|]. split; auto.
    + intros x Hx Hxo. apply elem_of_cons in Hx as [-> |Hx]; [contradiction|auto].
    + intros q Tq Hq. apply O; [exact Tq|]. intros X Y. apply (Hq X). right. exact Y.
    + intros j Hj. apply H. intros y Hy. apply Hj. right. exact Hy.
    + intros x Hx Hxo Ux. apply elem_of_cons in Hx as [-> |Hx]; [contradiction|auto].
Qed.

(** ** Loading and listing *)

Section Run.
Context `{BU : BytesUtil} `{GZ : Gzip}.

(** A temporary file that a reader accepts, with no tombstones waiting for it. *)
Definition loadable (d : dir) (n : string) : Prop :=
  exists i r, d !! n = Some i /\ d !! tombstonePath (cut_tmp n) = None /\ NewTSMReader (in_data i) None = Ok r.

Definition holds (w : world) (id : nat) (p : string) : Prop := exists f, w_heap w !! id = Some f /\ sf_name f = Some p /\ sf_tpath f = p.

Lemma open_reader_works p i r w :
  NewTSMReader (in_data i) (in_data <$> w_disk w !! tombstonePath p) = Ok r ->
  exists n, open_reader works p i w = (Ok (w_next w), mkW (w_disk w) (w_dirs w) (<[w_next w := mkSF (Some p) p r false (in_mtime i)]> (w_heap w)) (S (w_next w)) n (w_fs w)).
Proof.
  intros R. assert (is_Some (match ma_init (in_data i) with Ok x => Some x | _ => None end)) as [x X].
  { unfold NewTSMReader in R. destruct (ma_init (in_data i)) as [[m d]|e|]; [eauto|discriminate|discriminate]. }
  unfold open_reader. rewrite !(bind_ok _ _ _ _ _ (sys_works _ _)). destruct (ma_init (in_data i)) as [y|e|]; [|discriminate|discriminate].
  unfold bind, catch, os_Open, bind. rewrite sys_works. unfold lookup_file. cbn [w_disk tick]. destruct (w_disk w !! tombstonePath p); cbn [ret fmap option_fmap option_map] in *; rewrite R; eexists; reflexivity.
Qed.

Lemma load_works new mt w :
  tmp_names new -> (forall id, is_Some (w_heap w !! id) -> (id < w_next w)%nat) -> Forall (loadable (w_disk w)) new ->
  exists ids mt' w', load_new works new mt w = (Ok (ids, mt'), w') /\ mt <= mt' /\ w_fs w' = w_fs w /\ Forall2 (fun id n => holds w' id (cut_tmp n)) ids new
    /\ NoDup ids /\ (forall id, id ∈ ids -> (w_next w <= id)%nat) /\ (forall id, (id < w_next w)%nat -> w_heap w' !! id = w_heap w !! id).
Proof.
  revert mt w. induction new as [|n new IH]; intros mt w HN Hnext HL.
  { exists [], mt, w. split; [reflexivity|]. split; [lia|]. split; [reflexivity|]. split; [constructor|]. split; [constructor|]. split; [intros id H; apply elem_of_nil in H as []|auto]. }
  pose proof HN as [ND F]. apply NoDup_cons in ND as [Hn ND]. apply Forall_cons in F as [[Sn Tn] F]. apply Forall_cons in HL as [(i & r & Ei & Et & Er) HL].
  cbn [load_new]. rewrite Sn. set (d1 := <[cut_tmp n := i]> (delete n (w_disk w))).
  assert (os_Rename works n (cut_tmp n) w = (Ok tt, set_disk d1 (tick w))) as R.
  { unfold os_Rename, bind. rewrite sys_works. unfold lookup_file. cbn [w_disk tick]. rewrite Ei. reflexivity. }
  rewrite (bind_ok _ _ _ _ _ R). destruct (loading_cons n new i (w_disk w) d1 HN Ei (loading_refl _ _)) as (L & _ & Hm).
  rewrite (bind_ok _ _ _ i (tick (set_disk d1 (tick w)))) by (unfold os_Open, bind, lookup_file; rewrite sys_works; cbn [w_disk tick set_disk]; unfold d1; rewrite lookup_insert_eq; reflexivity).
  set (mt1 := if in_mtime i >? mt then in_mtime i else mt).
  rewrite (bind_ok _ _ _ mt1 (tick (tick (set_disk d1 (tick w))))) by reflexivity.
  destruct (open_reader_works (cut_tmp n) i r (tick (tick (set_disk d1 (tick w))))) as [k E]; [cbn [w_disk set_disk tick]; rewrite (ld_tomb _ _ _ L _ Tn), Et; exact Er|].
  rewrite (bind_ok _ _ _ _ _ E). cbn [w_next w_heap w_disk w_dirs w_fs tick set_disk].
  set (w1 := mkW d1 (w_dirs w) (<[w_next w := mkSF (Some (cut_tmp n)) (cut_tmp n) r false (in_mtime i)]> (w_heap w)) (S (w_next w)) k (w_fs w)).
  destruct (IH mt1 w1 (conj ND F)) as (ids & mt' & w' & E' & Hmt & S & H & NDi & Hge & Hlt).
  { intros id [f Hf]. cbn in Hf |- *. apply lookup_insert_Some in Hf as [[<- _]|[_ Hf]]; [lia|]. specialize (Hnext id (ex_intro _ _ Hf)). lia. }
  { rewrite Forall_forall in HL, F. apply Forall_forall. intros m Hin. destruct (HL m Hin) as (j & r' & Ej & Etj & Erj). exists j, r'.
    cbn. split; [rewrite <- Ej; exact (Hm m Hin)|]. split; [|exact Erj]. rewrite (ld_tomb _ _ _ L _ (proj2 (F m Hin))). exact Etj. }
  rewrite (bind_ok _ _ _ _ _ E'). exists (w_next w :: ids), mt', w'. split; [reflexivity|]. split; [unfold mt1 in Hmt; destruct (in_mtime i >? mt) eqn:X; lia|].
  split; [exact S|]. cbn in Hge, Hlt. split; [|split; [|split]].
  - constructor; [|exact H]. exists (mkSF (Some (cut_tmp n)) (cut_tmp n) r false (in_mtime i)). rewrite Hlt by lia. rewrite lookup_insert_eq. auto.
  - constructor; [|exact NDi]. intros X. specialize (Hge _ X). lia.
  - intros id Hid. apply elem_of_cons in Hid as [-> |Hid]; [lia|]. specialize (Hge id Hid). lia.
  - intros id Hid. rewrite Hlt by lia. apply lookup_insert_ne. lia.
Qed.
End Run.

Lemma paths_to_works xs m w : Forall (fun x => named x.1 x.2 w) xs -> paths_to (map fst xs) m w = (Ok (fold_left (fun m x => <[x.2 := x.1]> m) xs m), w).
Proof.
  intros F. revert m. induction F as [|[id p] xs N _ IH]; intros m; [reflexivity|]. cbn [map fst paths_to fold_left].
  rewrite (bind_ok _ _ _ _ _ (Path_named id p w N)). apply IH.
Qed.

Lemma insert_all_lookup xs (m : gmap string nat) x : NoDup (map snd xs) -> x ∈ xs -> fold_left (fun m (x : nat * string) => <[x.2 := x.1]> m) xs m !! x.2 = Some x.1.
Proof.
  assert (forall (l : list (nat * string)) (m0 : gmap string nat) k, k ∉ map snd l -> fold_left (fun m (x : nat * string) => <[x.2 := x.1]> m) l m0 !! k = m0 !! k) as Out.
  { intros l. induction l as [|y l IH]; intros m0 k Hk; [reflexivity|]. cbn [map fold_left] in *. apply not_elem_of_cons in Hk as [Hne Hk]. rewrite (IH _ _ Hk). apply lookup_insert_ne. congruence. }
  revert m. induction xs as [|y xs IH]; intros m N Hx; [apply elem_of_nil in Hx as []|]. cbn [map] in N. apply NoDup_cons in N as [Hy N]. cbn [fold_left].
  apply elem_of_cons in Hx as [-> |Hx]; [|auto]. rewrite (Out _ _ _ Hy). apply lookup_insert_eq.
Qed.

Lemma all_paths_works xs w : Forall (fun x => named x.1 x.2 w) xs -> all_paths (map fst xs) w = (Ok (list_to_map xs), w).
Proof.
  induction 1 as [|[id p] xs N _ IH]; [reflexivity|]. cbn [map fst all_paths]. rewrite (bind_ok _ _ _ _ _ (Path_named id p w N)). rewrite (bind_ok _ _ _ _ _ IH). reflexivity.
Qed.

Lemma total_size_works ids t w : Forall (fun id => is_Some (w_heap w !! id)) ids ->
  exists z w', total_size works ids t w = (Ok z, w') /\ w_heap w' = w_heap w /\ w_disk w' = w_disk w /\ w_fs w' = w_fs w.
Proof.
  intros F. revert t w F. induction ids as [|id ids IH]; intros t w F; [exists t, w; auto|]. apply Forall_cons in F as [[f E] F]. cbn [total_size].
  unfold bind at 1, deref. rewrite E. rewrite (bind_ok _ _ _ _ _ (TombstoneFiles_works id f w E)).
  match goal with |- context [total_size works ids ?u] => destruct (IH u (tick w)) as (z & w' & Ez & H & D & S) end; [exact F|].
  exists z, w'. auto.
Qed.

(** Sorting by distinct names. *)
Lemma sort_files_works (sort_Sort : (nat -> nat -> bool) -> list nat -> list nat) xs w :
  sorts sort_Sort -> NoDup (map fst xs) -> NoDup (map snd xs) -> Forall (fun x => named x.1 x.2 w) xs ->
  exists ys, sort_files sort_Sort (map fst xs) w = (Ok (map fst ys), w) /\ ys ≡ₚ xs /\ StronglySorted (fun a b => string_lt a.2 b.2 = true) ys.
Proof.
  intros So N1 N2 F. set (m := list_to_map xs : gmap nat string).
  assert (forall x, x ∈ xs -> default ""%string (m !! x.1) = x.2) as Hm.
  { intros [id p] Hx. unfold m. rewrite (elem_of_list_to_map_1 xs id p); [reflexivity| |exact Hx]. exact N1. }
  assert (map (fun id => (id, default ""%string (m !! id))) (map fst xs) = xs) as Exs.
  { rewrite map_map. rewrite <- (map_id xs) at 2. apply map_ext_in. intros x Hx. apply list_elem_of_In in Hx. rewrite (Hm x Hx). symmetry. apply surjective_pairing. }
  pose proof (so_perm _ So (path_less m) (map fst xs)) as P. set (l := sort_Sort (path_less m) (map fst xs)) in *.
  exists (map (fun id => (id, default ""%string (m !! id))) l). split; [|split].
  - unfold sort_files. rewrite (bind_ok _ _ _ _ _ (all_paths_works xs w F)). fold m l. rewrite map_map, map_id. reflexivity.
  - rewrite P, Exs. reflexivity.
  - assert (weak_order (path_less m) (map fst xs)) as W.
    { intros a b c _ _ _. unfold path_less. split; [apply string_lt_asym|]. intros L. destruct (string_lt_total (default ""%string (m !! a)) (default ""%string (m !! b))) as [X|[X|X]]; auto.
      - rewrite <- X. auto.
      - right. exact (string_lt_trans _ _ _ X L). }
    apply sorted_map. pose proof (so_sorted _ So _ _ W) as Ss. fold l in Ss.
    assert (NoDup (map (fun id => default ""%string (m !! id)) l)) as ND.
    { rewrite P. rewrite map_map. erewrite map_ext_in; [exact N2|]. intros x Hx. apply Hm. apply list_elem_of_In. exact Hx. }
    clear - Ss ND. induction Ss as [|a l Ss IH Fa]; [constructor|]. cbn [map] in ND. apply NoDup_cons in ND as [Ha ND]. constructor; [auto|].
    rewrite Forall_forall in Fa. apply Forall_forall. intros b Hb. specialize (Fa b Hb). unfold path_less in Fa. cbn.
    destruct (string_lt_total (default ""%string (m !! a)) (default ""%string (m !! b))) as [X|[X|X]]; [exact X| |congruence].
    destruct Ha. rewrite X. apply list_elem_of_fmap. eauto.
Qed.

(** ** The replacement *)

Lemma filter_NoDup {A B} (f : A -> bool) (g : A -> B) l : NoDup (map g l) -> NoDup (map g (List.filter f l)).
Proof.
  induction l as [|a l IH]; cbn; [auto|]. intros N. apply NoDup_cons in N as [H N]. destruct (f a); [|auto]. cbn. constructor; [|auto].
  intros X. apply H. apply list_elem_of_fmap in X as (x & -> & Hx). apply list_elem_of_fmap. exists x. split; [reflexivity|]. apply list_elem_of_In, filter_In in Hx as [Hx _]. apply list_elem_of_In. exact Hx.
Qed.

Lemma in_filter {A} (f : A -> bool) x l : x ∈ List.filter f l <-> x ∈ l /\ f x = true.
Proof. rewrite !list_elem_of_In. apply filter_In. Qed.

Section Installs.
Context `{BU : BytesUtil} `{GZ : Gzip} (sort_Sort : (nat -> nat -> bool) -> list nat -> list nat).

(** What the end of a replacement did, with the files [act] that stay and the
    files [us] in use. *)
Record finished (act us : list (nat * string)) (lm : Z) (w w' : world) (ys : list (nat * string)) : Prop := {
  fi_list : fs_files (w_fs w') = map fst ys;
  fi_perm : ys ≡ₚ act;
  fi_sorted : StronglySorted (fun a b => string_lt a.2 b.2 = true) ys;
  fi_purge : forall x, x ∈ us -> fs_purging (w_fs w') !! x.2 = Some x.1;
  fi_time : lm < fs_lastModified (w_fs w');
  fi_stats : fs_lastFileStats (w_fs w') = [];
  fi_disk : w_disk w' = w_disk w;
  fi_heap : w_heap w' = w_heap w }.

Lemma finish_works act us mt lm w :
  sorts sort_Sort -> NoDup (map fst act) -> NoDup (map snd act) -> NoDup (map snd us) -> Forall (fun x => named x.1 x.2 w) act -> Forall (fun x => named x.1 x.2 w) us -> lm <= mt ->
  exists w' ys, finish_replace works sort_Sort (map fst act) (map fst us) mt lm w = (Ok tt, w') /\ finished act us lm w w' ys.
Proof.
  intros So N1 N2 N3 Nact Nus Hmt. set (lm' := if mt <=? lm then lm + 1 else mt).
  set (pm := fold_left (fun m (x : nat * string) => <[x.2 := x.1]> m) us (fs_purging (w_fs w))).
  set (w3 := set_fs (set_times lm' [] (set_purging pm true (w_fs w))) (tick w)).
  destruct (sort_files_works sort_Sort act w3 So N1 N2 Nact) as (ys & E3 & P3 & Ss).
  set (w4 := set_fs (set_files (map fst ys) (set_stats (fs_DiskBytes (w_fs w3)) (zlen (map fst ys)) (w_fs w3))) w3).
  destruct (total_size_works (map fst ys) 0 w4) as (z & w5 & E4 & H4 & D4 & S4).
  { apply Forall_map, Forall_forall. intros y Hy. rewrite P3 in Hy. rewrite Forall_forall in Nact. destruct (Nact y Hy) as (f & Ey & _). exists f. exact Ey. }
  exists (set_fs (set_stats z (fs_FileCount (w_fs w5)) (w_fs w5)) w5), ys. split.
  - unfold finish_replace. rewrite (bind_ok _ _ _ _ _ (sys_works _ _)).
    rewrite (bind_ok _ _ _ tt (set_fs (set_purging pm true (w_fs w)) (tick w))).
    2: { unfold purger_add. rewrite (bind_ok _ _ _ (w_fs w) (tick w)) by reflexivity. rewrite (bind_ok _ _ _ _ _ (paths_to_works us (fs_purging (w_fs w)) (tick w) Nus)). reflexivity. }
    fold lm'. rewrite (bind_ok _ _ _ tt w3) by reflexivity. rewrite (bind_ok _ _ _ _ _ E3). rewrite (bind_ok _ _ _ tt w4) by reflexivity. rewrite (bind_ok _ _ _ _ _ E4). reflexivity.
  - split; cbn; rewrite ?S4; auto.
    + intros x Hx. exact (insert_all_lookup us _ x N3 Hx).
    + unfold lm'. cbn. destruct (Z.leb_spec mt lm); lia.
Qed.

(** A store with the files [xs], about to replace [old] by [new]. *)
Record replaceable (old new : list string) (xs : list (nat * string)) (w : world) : Prop := {
  re_files : fs_files (w_fs w) = map fst xs;
  re_ids : NoDup (map fst xs);
  re_names : NoDup (map snd xs);
  re_ready : Forall (fun x => ready old w x.1 x.2) xs;
  re_heap : heap_ok (w_heap w);
  re_next : forall id, is_Some (w_heap w !! id) -> (id < w_next w)%nat;
  re_some : old <> [] \/ new <> [];
  re_tmp : tmp_names new;
  re_old : Forall (fun p => is_tsm p = true) old;
  re_load : Forall (loadable (w_disk w)) new;
  re_fresh : forall n, n ∈ new -> w_disk w !! cut_tmp n = None /\ (cut_tmp n ∉ old) /\ (cut_tmp n ∉ map snd xs) }.

(** After the loading: the new readers before the others. *)
Definition all_files (ids : list nat) (new : list string) (xs : list (nat * string)) : list (nat * string) := zip ids (map cut_tmp new) ++ xs.

Lemma zip_fst_snd {A B} (l : list A) (k : list B) : length l = length k -> map fst (zip l k) = l /\ map snd (zip l k) = k.
Proof. revert k. induction l as [|a l IH]; intros [|b k] E; try discriminate; [auto|]. cbn. injection E as E. destruct (IH k E) as [-> ->]. auto. Qed.

Lemma after_load old new xs w w1 ids :
  replaceable old new xs w -> Forall2 (fun id n => holds w1 id (cut_tmp n)) ids new -> NoDup ids -> (forall id, id ∈ ids -> (w_next w <= id)%nat) ->
  (forall id, (id < w_next w)%nat -> w_heap w1 !! id = w_heap w !! id) -> loading new (w_disk w) (w_disk w1) ->
  let ys := all_files ids new xs in
  ids ++ map fst xs = map fst ys /\ map cut_tmp new ++ map snd xs = map snd ys /\ NoDup (map fst ys) /\ NoDup (map snd ys) /\ Forall (fun x => ready old w1 x.1 x.2) ys.
Proof.
  intros R H ND Hge Hlt L ys. pose proof (Forall2_length _ _ _ H) as Len. destruct (zip_fst_snd ids (map cut_tmp new)) as [Z1 Z2]; [rewrite length_map; exact Len|].
  assert (map fst ys = ids ++ map fst xs) as E1 by (unfold ys, all_files; rewrite map_app, Z1; reflexivity).
  assert (map snd ys = map cut_tmp new ++ map snd xs) as E2 by (unfold ys, all_files; rewrite map_app, Z2; reflexivity).
  destruct (re_tmp _ _ _ _ R) as [NDn Fn]. rewrite Forall_forall in Fn. pose proof (re_ready _ _ _ _ R) as Rd. rewrite Forall_forall in Rd.
  rewrite E1, E2. split; [reflexivity|]. split; [reflexivity|]. split; [|split].
  - apply NoDup_app. split; [exact ND|]. split; [|exact (re_ids _ _ _ _ R)]. intros id Hid Hx. apply list_elem_of_fmap in Hx as (x & -> & Hx).
    destruct (rd_file _ _ _ _ (Rd x Hx)) as (f & Ef & _). pose proof (re_next _ _ _ _ R _ (ex_intro _ _ Ef)). specialize (Hge _ Hid). lia.
  - apply NoDup_app. split; [|split; [|exact (re_names _ _ _ _ R)]].
    + clear - NDn Fn. induction NDn as [|n new Hn ND IH]; [constructor|]. cbn. constructor; [|apply IH; intros m Hm; apply Fn; right; exact Hm].
      intros X. apply list_elem_of_fmap in X as (m & X & Hm). apply Hn. rewrite (cut_tmp_inj n m); [exact Hm|apply Fn; left|apply Fn; right; exact Hm|exact X].
    + intros p Hp. apply list_elem_of_fmap in Hp as (n & -> & Hn). exact (proj2 (proj2 (re_fresh _ _ _ _ R n Hn))).
  - unfold ys, all_files. apply Forall_app. split.
    + clear - H R Fn. assert (forall n, n ∈ new -> (cut_tmp n ∉ old) /\ is_tsm (cut_tmp n) = true) as Hn by (intros n Hn; split; [exact (proj1 (proj2 (re_fresh _ _ _ _ R n Hn)))|exact (proj2 (Fn n Hn))]).
      clear R Fn. induction H as [|id n ids new (f & Ef & En & Et) _ IH]; cbn; constructor; [|apply IH; intros m Hm; apply Hn; right; exact Hm]. destruct (Hn n ltac:(left)) as [Ho Tn].
      split; cbn; [exists f; repeat split; auto; contradiction|exact Tn|contradiction].
    + apply Forall_forall. intros x Hx. specialize (Rd x Hx). apply (ready_same old _ _ w w1); [| |exact Rd].
      * destruct (rd_file _ _ _ _ Rd) as (f & Ef & _). apply Hlt. exact (re_next _ _ _ _ R _ (ex_intro _ _ Ef)).
      * intros Ho. apply (ld_other _ _ _ L _ (rd_tsm _ _ _ _ Rd)). intros X. apply list_elem_of_fmap in X as (n & X & Hn). destruct (re_fresh _ _ _ _ R n Hn) as (_ & Y & _). rewrite <- X in Y. contradiction.
Qed.

Lemma add_tmp_NoDup (l : list (nat * string)) : NoDup (map snd l) -> NoDup (map snd (map (fun x => (x.1, add_tmp x.2)) l)).
Proof.
  induction l as [|[id p] l IH]; cbn [map fst snd]; [auto|]. intros N. apply NoDup_cons in N as [H N]. constructor; [|auto]. intros X. apply H.
  apply list_elem_of_fmap in X as (y & X & Hy). apply list_elem_of_fmap in Hy as (z & -> & Hz). cbn [fst snd] in X. apply list_elem_of_fmap. exists z. split; [|exact Hz].
  apply (f_equal cut_tmp) in X. rewrite !cut_add_tmp in X. exact X.
Qed.

Definition staying (old : list string) (l : list (nat * string)) : list (nat * string) := List.filter (fun x => negb (out old x)) l.
Definition moved (old : list string) (w : world) (l : list (nat * string)) : list (nat * string) :=
  map (fun x => (x.1, add_tmp x.2)) (List.filter (fun x => out old x && in_use w x.1) l).

Lemma staying_elem old x l : x ∈ staying old l <-> x ∈ l /\ (x.2 ∉ old).
Proof. unfold staying. rewrite in_filter, negb_true_iff. unfold out. rewrite bool_decide_eq_false. reflexivity. Qed.

(** A file that stays keeps its reader. *)
Lemma staying_named old xs w w' :
  NoDup (map fst xs) -> Forall (fun x => ready old w x.1 x.2) xs -> pruned_run old xs w w' -> Forall (fun x => named x.1 x.2 w') (staying old xs).
Proof.
  intros ND Rd P. apply Forall_forall. intros [id q] Hx. apply staying_elem in Hx as [Hx Ho]. rewrite Forall_forall in Rd.
  destruct (rd_file _ _ _ _ (Rd _ Hx)) as (f & Ex & En & _). exists f. split; [|exact En]. rewrite (pr_heap _ _ _ _ P); [exact Ex|]. cbn in *.
  intros p Hp. assert (p = q) as ->; [|exact Ho]. apply list_elem_of_lookup in Hx as [i Hi], Hp as [j Hj].
  assert (i = j) as -> by (apply (NoDup_lookup _ _ _ id ND); rewrite list_lookup_fmap; [rewrite Hi|rewrite Hj]; reflexivity). congruence.
Qed.

Lemma moved_named old xs w w' : pruned_run old xs w w' -> Forall (fun x => named x.1 x.2 w') (moved old w xs).
Proof.
  intros P. apply Forall_forall. intros y Hy. apply list_elem_of_fmap in Hy as (x & -> & Hx). apply in_filter in Hx as [Hx Ux]. apply andb_true_iff in Ux as [Ux1 Ux2].
  apply bool_decide_eq_true in Ux1. exact (pr_used _ _ _ _ P x Hx Ux1 Ux2).
Qed.

(** The replacement, phase by phase. *)
Lemma replace_phases old new xs fn w :
  sorts sort_Sort -> replaceable old new xs w -> (forall g l w1, fn = Some g -> g l w1 = true) ->
  exists ids w1 w2 w' ys, replace works sort_Sort old new fn w = (Ok tt, w')
    /\ length ids = length new /\ loading new (w_disk w) (w_disk w1) /\ (forall n, n ∈ new -> w_disk w1 !! cut_tmp n = w_disk w !! n)
    /\ (forall id, (id < w_next w)%nat -> w_heap w1 !! id = w_heap w !! id)
    /\ pruned_run old (all_files ids new xs) w1 w2 /\ Forall (fun x => named x.1 x.2 w2) (staying old (all_files ids new xs))
    /\ finished (staying old (all_files ids new xs)) (moved old w1 (all_files ids new xs)) (fs_lastModified (w_fs w)) w2 w' ys.
Proof.
  intros So R Hfn. destruct (load_works new (fs_lastModified (w_fs w)) w (re_tmp _ _ _ _ R) (re_next _ _ _ _ R) (re_load _ _ _ _ R)) as (ids & mt & w1 & E1 & Hmt & S1 & H1 & ND1 & Hge & Hlt).
  pose proof (load_new_wp works new (fs_lastModified (w_fs w)) w (re_tmp _ _ _ _ R) (re_heap _ _ _ _ R)) as L. unfold wp in L. rewrite E1 in L. destruct L as (L & _ & _ & All).
  destruct (after_load old new xs w w1 ids R H1 ND1 Hge Hlt L) as (Ef & Es & NDf & NDs & Rd). set (ys0 := all_files ids new xs) in *.
  destruct (prune_works old ys0 w1 (re_old _ _ _ _ R) NDf NDs Rd) as (w2 & E2 & P).
  pose proof (staying_named old ys0 w1 w2 NDf Rd P) as Nact. pose proof (moved_named old ys0 w1 w2 P) as Nus.
  assert (map fst (moved old w1 ys0) = map fst (List.filter (fun x => out old x && in_use w1 x.1) ys0)) as Eus by (unfold moved; rewrite map_map; reflexivity).
  destruct (finish_works (staying old ys0) (moved old w1 ys0) mt (fs_lastModified (w_fs w)) w2 So) as (w' & ys & E3 & Fin); auto.
  1, 2: apply filter_NoDup; assumption.
  { apply add_tmp_NoDup, filter_NoDup. exact NDs. }
  exists ids, w1, w2, w', ys. split; [|split; [exact (Forall2_length _ _ _ H1)|auto 12]].
  unfold replace. assert (forall m : FM unit, match old with [] => match new with [] => ret tt | _ :: _ => m end | _ :: _ => m end = m) as Skip.
  { intros m. destruct (re_some _ _ _ _ R) as [X|X]; destruct old, new; try contradiction; reflexivity. }
  rewrite Skip. rewrite (bind_ok _ _ _ (w_fs w) w) by reflexivity. rewrite (bind_ok _ _ _ _ _ E1).
  rewrite (bind_ok _ _ _ tt w1) by (destruct fn as [g|]; [unfold bind, get; rewrite (Hfn g) by reflexivity|]; reflexivity).
  rewrite (bind_ok _ _ _ (w_fs w1) w1) by reflexivity. rewrite S1, (re_files _ _ _ _ R), Ef. rewrite (bind_ok _ _ _ _ _ E2). rewrite <- Eus. exact E3.
Qed.

(** C9 (functional). When every call works and the callback returns, a replacement
    of the files [old] by the temporary files [new] ends without error.  The
    store then lists the new files and its files that are not in [old], each
    once and in the order of their names; the new files are live with what the
    temporary ones held; a file of the store in [old] is gone with its tombstones,
    and if queries use it its reader is with the purger under a temporary name;
    other files are as before, the time of the last change has grown
    and the cached stats are dropped. *)
Theorem replace_installs (old new : list string) (xs : list (nat * string)) (fn : option (list nat -> world -> bool)) (w : world) :
  sorts sort_Sort -> replaceable old new xs w -> (forall g l w1, fn = Some g -> g l w1 = true) ->
  exists w' ys, replace works sort_Sort old new fn w = (Ok tt, w')
    /\ fs_files (w_fs w') = map fst ys /\ Forall (fun y => named y.1 y.2 w') ys /\ StronglySorted (fun a b => string_lt a.2 b.2 = true) ys
    /\ (forall p, p ∈ map snd ys <-> p ∈ map cut_tmp new \/ (p ∈ map snd xs /\ (p ∉ old))) /\ (forall x, x ∈ xs -> (x.2 ∉ old) -> x ∈ ys)
    /\ (forall n, n ∈ new -> w_disk w' !! cut_tmp n = w_disk w !! n)
    /\ (forall x, x ∈ xs -> x.2 ∈ old -> w_disk w' !! x.2 = None /\ w_disk w' !! tombstonePath x.2 = None
         /\ (in_use w x.1 = true -> fs_purging (w_fs w') !! add_tmp x.2 = Some x.1 /\ named x.1 (add_tmp x.2) w'))
    /\ (forall q, is_tsm q = true -> (q ∉ map cut_tmp new) -> (q ∈ old -> q ∉ map snd xs) -> intact (w_disk w) (w_disk w') q)
    /\ fs_lastModified (w_fs w) < fs_lastModified (w_fs w') /\ fs_lastFileStats (w_fs w') = [].
Proof.
  intros So R Hfn. destruct (replace_phases old new xs fn w So R Hfn) as (ids & w1 & w2 & w' & ys & E & Len & L & All & Hlt & [G O Hh U S2] & Nact & [Fl Fp Fs Fu Ft Fst Fd Fh]).
  set (ys0 := all_files ids new xs) in *.
  assert (map snd ys0 = map cut_tmp new ++ map snd xs) as Es.
  { unfold ys0, all_files. rewrite map_app. destruct (zip_fst_snd ids (map cut_tmp new)) as [_ ->]; [rewrite length_map; exact Len|reflexivity]. }
  assert (forall x, x ∈ xs -> x ∈ ys0) as Sub by (intros x Hx; unfold ys0, all_files; apply elem_of_app; right; exact Hx).
  assert (forall n, n ∈ new -> (cut_tmp n ∉ old) /\ is_tsm (cut_tmp n) = true) as Hnew.
  { intros n Hn. split; [exact (proj1 (proj2 (re_fresh _ _ _ _ R n Hn)))|]. destruct (re_tmp _ _ _ _ R) as [_ F]. rewrite Forall_forall in F. exact (proj2 (F n Hn)). }
  exists w', ys. split; [exact E|]. split; [exact Fl|]. split; [|split; [exact Fs|split; [|split; [|split; [|split; [|split; [|auto]]]]]]].
  - apply Forall_forall. intros y Hy. rewrite Fp in Hy. rewrite Forall_forall in Nact. destruct (Nact y Hy) as (f & Ey & En). exists f. rewrite Fh. auto.
  - intros p. rewrite Fp. split.
    + intros Hp. apply list_elem_of_fmap in Hp as (x & -> & Hx). apply staying_elem in Hx as [Hx Ho]. assert (x.2 ∈ map snd ys0) as Hs by (apply list_elem_of_fmap; eauto).
      rewrite Es in Hs. apply elem_of_app in Hs as [Hs|Hs]; auto.
    + intros Hp. assert (p ∈ map snd ys0 /\ (p ∉ old)) as [Hs Ho].
      { rewrite Es, elem_of_app. destruct Hp as [Hp|[Hp Ho]]; [|auto]. split; [auto|]. apply list_elem_of_fmap in Hp as (n & -> & Hn). exact (proj1 (Hnew n Hn)). }
      apply list_elem_of_fmap in Hs as (x & -> & Hx). apply list_elem_of_fmap. exists x. split; [reflexivity|]. apply staying_elem. auto.
  - intros x Hx Ho. rewrite Fp. apply staying_elem. auto.
  - intros n Hn. destruct (Hnew n Hn) as [Ho Tn]. rewrite Fd, (proj1 (O _ Tn (fun X => False_ind _ (Ho X)))). auto.
  - intros x Hx Ho. rewrite Fd. destruct (G x (Sub x Hx) Ho) as [G1 G2]. split; [exact G1|]. split; [exact G2|]. intros Ux.
    assert (in_use w1 x.1 = true) as Ux1.
    { pose proof (re_ready _ _ _ _ R) as Rd. rewrite Forall_forall in Rd. destruct (rd_file _ _ _ _ (Rd x Hx)) as (f & Ef & _). unfold in_use in *. rewrite Hlt; [exact Ux|]. exact (re_next _ _ _ _ R _ (ex_intro _ _ Ef)). }
    split.
    + apply (Fu (x.1, add_tmp x.2)). apply list_elem_of_fmap. exists x. split; [reflexivity|]. apply in_filter. split; [auto|]. rewrite Ux1. unfold out. rewrite bool_decide_eq_true_2 by exact Ho. reflexivity.
    + destruct (U x (Sub x Hx) Ho Ux1) as (f & Ef & En). exists f. rewrite Fh. auto.
  - intros q Tq Hq Ho. rewrite Fd. destruct (O q Tq) as [A1 A2]; [intros X; rewrite Es, not_elem_of_app; auto|].
    split; [rewrite A1; exact (ld_other _ _ _ L q Tq Hq)|rewrite A2; exact (ld_tomb _ _ _ L q Tq)].
Qed.
End Installs.

(** ** The purger *)

(** An entry of the purger: a reader under the temporary name [k], of a file that
    was live. *)
Definition purgeable (w : world) (k : string) (id : nat) : Prop :=
  has_suffix k dot_tmp = true /\ exists f, w_heap w !! id = Some f /\ sf_name f = Some k /\ is_tsm (sf_tpath f) = true
    /\ sf_stale f = false /\ is_Some (ma_b (rd_acc (sf_rd f))).

Lemma purge_used k id w : purgeable w k id -> in_use w id = true -> purge_one works k id w = (Ok tt, w).
Proof. intros [_ (f & E & _)] U. unfold in_use in U. rewrite E in U. unfold purge_one, bind, InUse, bind, deref. rewrite E. cbn [ret]. rewrite U. reflexivity. Qed.

Lemma purge_unused k id w :
  purgeable w k id -> in_use w id = false -> exists w', purge_one works k id w = (Ok tt, w')
    /\ fs_purging (w_fs w') = delete k (fs_purging (w_fs w)) /\ fs_running (w_fs w') = fs_running (w_fs w)
    /\ w_disk w' !! k = None /\ (forall q, has_suffix q dot_tmp = true -> q <> k -> w_disk w' !! q = w_disk w !! q)
    /\ (forall j, j <> id -> w_heap w' !! j = w_heap w !! j).
Proof.
  intros [Sk (f & E & En & T & Es & Eb)] U. unfold in_use in U. rewrite E in U. unfold purge_one. unfold bind at 1, InUse, bind at 1, deref at 1. rewrite E. cbn [ret]. rewrite U.
  destruct (close_remove_works id f k w E En) as (w1 & R & D & H & _ & S); auto; [intros ->; discriminate Sk|].
  exists (set_fs (set_purging (delete k (fs_purging (w_fs w1))) (fs_running (w_fs w1)) (w_fs w1)) w1). split; [unfold catch; rewrite R; reflexivity|].
  cbn. rewrite S, D. repeat split; auto.
  - rewrite lookup_delete_ne by (exact (tomb_not_tmp _ _ T Sk)). apply lookup_delete_eq.
  - intros q Sq Hq. rewrite lookup_delete_ne by (exact (tomb_not_tmp _ _ T Sq)). apply lookup_delete_ne. congruence.
Qed.

(** The entries of a purger, each with a reader of its own. *)
Definition purger_ok (w : world) : Prop :=
  (forall k id, fs_purging (w_fs w) !! k = Some id -> purgeable w k id)
  /\ forall k k' id, fs_purging (w_fs w) !! k = Some id -> fs_purging (w_fs w) !! k' = Some id -> k = k'.

(** What a pass over the entries [ks] leaves. *)
Record purged (ks : list string) (w w' : world) : Prop := {
  pg_running : fs_running (w_fs w') = fs_running (w_fs w);
  pg_left : forall k id, fs_purging (w_fs w') !! k = Some id <-> fs_purging (w_fs w) !! k = Some id /\ (in_use w id = true \/ (k ∉ ks));
  pg_used : forall k id, fs_purging (w_fs w) !! k = Some id -> in_use w id = true -> w_disk w' !! k = w_disk w !! k;
  pg_gone : forall k id, fs_purging (w_fs w) !! k = Some id -> in_use w id = false -> k ∈ ks -> w_disk w' !! k = None;
  pg_kept : forall q, has_suffix q dot_tmp = true -> (q ∉ ks) -> w_disk w' !! q = w_disk w !! q }.

Lemma purger_ok_step k id w w1 :
  purger_ok w -> fs_purging (w_fs w) !! k = Some id -> fs_purging (w_fs w1) = delete k (fs_purging (w_fs w)) ->
  (forall j, j <> id -> w_heap w1 !! j = w_heap w !! j) ->
  purger_ok w1 /\ forall k' id', fs_purging (w_fs w1) !! k' = Some id' -> k' <> k /\ fs_purging (w_fs w) !! k' = Some id' /\ in_use w1 id' = in_use w id'.
Proof.
  intros [P Inj] E0 Pu Hh. assert (forall k' id', fs_purging (w_fs w1) !! k' = Some id' -> k' <> k /\ fs_purging (w_fs w) !! k' = Some id' /\ w_heap w1 !! id' = w_heap w !! id') as Sub.
  { intros k' id'. rewrite Pu, lookup_delete_Some. intros [Hne H]. split; [congruence|]. split; [exact H|]. apply Hh. intros ->. apply Hne. exact (Inj _ _ _ E0 H). }
  split; [split|].
  - intros k' id' H. destruct (Sub k' id' H) as (_ & H' & Eh). destruct (P k' id' H') as [Sk (f & F)]. split; [exact Sk|]. exists f. rewrite Eh. exact F.
  - intros k1 k2 id' H1 H2. exact (Inj _ _ _ (proj1 (proj2 (Sub _ _ H1))) (proj1 (proj2 (Sub _ _ H2)))).
  - intros k' id' H. destruct (Sub k' id' H) as (Hne & H' & Eh). split; [exact Hne|]. split; [exact H'|]. unfold in_use. rewrite Eh. reflexivity.
Qed.

Lemma purge_entries_works ks w : NoDup ks -> purger_ok w -> exists w', purge_entries works ks w = (Ok tt, w') /\ purged ks w w'.
Proof.
  revert w. induction ks as [|k ks IH]; intros w ND P.
  { exists w. split; [reflexivity|]. split; auto.
    - intros k id. split; [intros H; split; [exact H|right; apply not_elem_of_nil]|intros [H _]; exact H].
    - intros k id _ _ H. apply elem_of_nil in H as []. }
  apply NoDup_cons in ND as [Hk ND]. cbn [purge_entries]. rewrite (bind_ok _ _ _ (w_fs w) w) by reflexivity.
  assert (forall w', purged ks w w' -> (forall id, fs_purging (w_fs w) !! k = Some id -> in_use w id = true) -> purged (k :: ks) w w') as Skip.
  { intros w' [Rn L Us G K] Hu. split; auto.
    - intros k' id. rewrite L. split; intros [H1 [H2|H2]]; (split; [exact H1|]); auto; [|right; apply not_elem_of_cons in H2; tauto].
      destruct (decide (k' = k)) as [-> |Hne]; [left; auto|right; apply not_elem_of_cons; auto].
    - intros k' id H Hn Hin. apply elem_of_cons in Hin as [-> |Hin]; [rewrite (Hu id H) in Hn; discriminate|eauto].
    - intros q Sq Hq. apply not_elem_of_cons in Hq as [_ Hq]. auto. }
  destruct (fs_purging (w_fs w) !! k) as [id0|] eqn:E0.
  2: { rewrite (bind_ok _ _ _ tt w) by reflexivity. destruct (IH w ND P) as (w' & E & Pg). exists w'. split; [exact E|]. apply Skip; [exact Pg|discriminate]. }
  pose proof (proj1 P k id0 E0) as P0. destruct (in_use w id0) eqn:U.
  { rewrite (bind_ok _ _ _ _ _ (purge_used k id0 w P0 U)). destruct (IH w ND P) as (w' & E & Pg). exists w'. split; [exact E|]. apply Skip; [exact Pg|congruence]. }
  destruct (purge_unused k id0 w P0 U) as (w1 & E1 & Pu & Rn1 & G1 & Same & Hh). rewrite (bind_ok _ _ _ _ _ E1).
  destruct (purger_ok_step k id0 w w1 P E0 Pu Hh) as [P1 Sub]. destruct (IH w1 ND P1) as (w' & E & [Rn L Us G K]). exists w'. split; [exact E|].
  assert (forall k' id, k' <> k -> fs_purging (w_fs w) !! k' = Some id -> fs_purging (w_fs w1) !! k' = Some id /\ in_use w1 id = in_use w id) as Back.
  { intros k' id Hne H. assert (fs_purging (w_fs w1) !! k' = Some id) as X by (rewrite Pu, lookup_delete_ne by congruence; exact H). split; [exact X|apply (Sub k' id X)]. }
  assert (forall k' id, fs_purging (w_fs w) !! k' = Some id -> has_suffix k' dot_tmp = true) as Tmp by (intros k' id H; exact (proj1 (proj1 P k' id H))).
  split.
  - congruence.
  - intros k' id. rewrite L. split.
    + intros [H1 H2]. destruct (Sub k' id H1) as (Hne & H & Eu). split; [exact H|]. rewrite Eu in H2. destruct H2 as [H2|H2]; [auto|right; apply not_elem_of_cons; auto].
    + intros [H1 H2]. destruct (decide (k' = k)) as [-> |Hne]; [rewrite E0 in H1; injection H1 as <-; destruct H2 as [H2|H2]; [congruence|apply not_elem_of_cons in H2; tauto]|].
      destruct (Back k' id Hne H1) as [H3 Eu]. rewrite Eu. split; [exact H3|]. destruct H2 as [H2|H2]; [auto|apply not_elem_of_cons in H2; tauto].
  - intros k' id H Hu. assert (k' <> k) as Hne by congruence. destruct (Back k' id Hne H) as [H3 Eu]. rewrite (Us k' id H3) by congruence. exact (Same k' (Tmp k' id H) Hne).
  - intros k' id H Hn Hin. apply elem_of_cons in Hin as [-> |Hin]; [rewrite (K k (Tmp k id H) Hk); exact G1|].
    destruct (Back k' id) as [H3 Eu]; [intros ->; contradiction|exact H|]. apply (G k' id H3); [congruence|exact Hin].
  - intros q Sq Hq. apply not_elem_of_cons in Hq as [Hne Hq]. rewrite (K q Sq Hq). exact (Same q Sq Hne).
Qed.

(** A pass over all entries, in any order, removes the files nobody uses and
    keeps those in use with their files; the goroutine goes on exactly when
    some are left. *)
Theorem purge_pass_works (ks : list string) (w : world) :
  NoDup ks -> (forall k, is_Some (fs_purging (w_fs w) !! k) -> k ∈ ks) -> purger_ok w -> fs_running (w_fs w) = true ->
  exists w', purge_pass works ks w = (Ok tt, w')
    /\ (forall k id, fs_purging (w_fs w') !! k = Some id <-> fs_purging (w_fs w) !! k = Some id /\ in_use w id = true)
    /\ (forall k id, fs_purging (w_fs w) !! k = Some id -> w_disk w' !! k = if in_use w id then w_disk w !! k else None)
    /\ (fs_running (w_fs w') = true <-> exists k id, fs_purging (w_fs w) !! k = Some id /\ in_use w id = true).
Proof.
  intros ND All P Rn0. destruct (purge_entries_works ks w ND P) as (w1 & E & [Rn L Us G _]). unfold purge_pass. rewrite (bind_ok _ _ _ _ _ E).
  assert (forall k id, fs_purging (w_fs w1) !! k = Some id <-> fs_purging (w_fs w) !! k = Some id /\ in_use w id = true) as L'.
  { intros k id. rewrite L. split; intros [H1 H2]; (split; [exact H1|]); [|auto]. destruct H2 as [H2|H2]; [exact H2|]. destruct H2. apply All. eauto. }
  eexists. split; [reflexivity|]. cbn. split; [exact L'|]. split.
  - intros k id H. destruct (in_use w id) eqn:U; [eauto|]. apply (G k id H U), All. eauto.
  - rewrite Rn, Rn0. cbn. rewrite negb_true_iff, bool_decide_eq_false. split.
    + intros Hne. apply map_choose in Hne as (k & id & H). exists k, id. apply L'. exact H.
    + intros (k & id & H) X. apply L' in H. rewrite X, lookup_empty in H. discriminate.
Qed.

(** ** Opening a store *)

Section Opens.
Context `{BU : BytesUtil} `{GZ : Gzip} (sort_Sort : (nat -> nat -> bool) -> list nat -> list nat).

Lemma open_files_works names w :
  Forall (fun p => is_Some (ParseTSMFileName p) /\ is_Some (w_disk w !! p)) names ->
  exists l w', open_files works names w = (Ok l, w') /\ map fst l = names /\ Forall (fun x => w_disk w !! x.1 = Some x.2) l
    /\ w_disk w' = w_disk w /\ w_heap w' = w_heap w /\ w_next w' = w_next w /\ fs_files (w_fs w') = fs_files (w_fs w)
    /\ fs_currentGeneration (w_fs w) <= fs_currentGeneration (w_fs w')
    /\ forall p g q, p ∈ names -> ParseTSMFileName p = Some (g, q) -> g < fs_currentGeneration (w_fs w').
Proof.
  intros F. revert w F. induction names as [|p names IH]; intros w F.
  { exists [], w. repeat (split; [first [reflexivity|constructor|lia]|]). intros p g q H. apply elem_of_nil in H as []. }
  apply Forall_cons in F as [[[[g q] Eg] [i Ei]] F]. cbn [open_files]. rewrite Eg.
  set (w1 := set_fs (if fs_currentGeneration (w_fs w) <=? g then set_generation (g + 1) (w_fs w) else w_fs w) w).
  rewrite (bind_ok _ _ _ tt w1) by reflexivity.
  rewrite (bind_ok _ _ _ i (tick w1)) by (unfold os_Open, bind, lookup_file; rewrite sys_works; cbn [w_disk tick w1 set_fs]; rewrite Ei; reflexivity).
  destruct (IH (tick w1) F) as (l & w' & E & El & Fl & D & H & N & Fs & G & Gn). rewrite (bind_ok _ _ _ _ _ E). exists ((p, i) :: l), w'.
  assert (fs_currentGeneration (w_fs w) <= fs_currentGeneration (w_fs w1) /\ g < fs_currentGeneration (w_fs w1) /\ fs_files (w_fs w1) = fs_files (w_fs w)) as (G1 & G2 & G3).
  { unfold w1. cbn. destruct (Z.leb_spec (fs_currentGeneration (w_fs w)) g); cbn; repeat split; lia. }
  change (w_fs (tick w1)) with (w_fs w1) in *. split; [reflexivity|]. split; [cbn; rewrite El; reflexivity|]. split; [constructor; [exact Ei|exact Fl]|].
  split; [exact D|]. split; [exact H|]. split; [exact N|]. split; [congruence|]. split; [lia|].
  intros p' g' q' Hp Eg'. apply elem_of_cons in Hp as [-> |Hp]; [rewrite Eg in Eg'; injection Eg' as <- <-; lia|eauto].
Qed.

(** The reader [id] is what opening the live file [p] gives. *)
Definition reads_file (w : world) (id : nat) (p : string) : Prop :=
  exists f i, w_heap w !! id = Some f /\ sf_name f = Some p /\ sf_tpath f = p /\ w_disk w !! p = Some i
    /\ NewTSMReader (in_data i) (in_data <$> w_disk w !! tombstonePath p) = Ok (sf_rd f).

Lemma collect_works l lm w :
  Forall (fun x => w_disk w !! x.1 = Some x.2 /\ exists r, NewTSMReader (in_data x.2) (in_data <$> w_disk w !! tombstonePath x.1) = Ok r) l ->
  exists ids lm' w', collect_readers works l lm w = (Ok lm', w') /\ w_disk w' = w_disk w /\ fs_files (w_fs w') = fs_files (w_fs w) ++ ids
    /\ Forall2 (fun id x => reads_file w' id x.1) ids l /\ NoDup ids /\ (forall id, id ∈ ids -> (w_next w <= id)%nat)
    /\ (forall id, (id < w_next w)%nat -> w_heap w' !! id = w_heap w !! id) /\ fs_currentGeneration (w_fs w') = fs_currentGeneration (w_fs w).
Proof.
  intros F. revert lm w F. induction l as [|[p i] l IH]; intros lm w F.
  { exists [], lm, w. rewrite app_nil_r. repeat (split; [first [reflexivity|constructor]|]). split; [intros id H; apply elem_of_nil in H as []|auto]. }
  apply Forall_cons in F as [[Ei [r Er]] F]. cbn [fst snd] in Ei, Er. cbn [collect_readers].
  destruct (open_reader_works p i r w Er) as [k E]. rewrite (bind_ok _ _ _ _ _ E). set (f := mkSF (Some p) p r false (in_mtime i)) in *.
  set (h := <[w_next w := f]> (w_heap w)). assert (h !! w_next w = Some f) as Ef by apply lookup_insert_eq.
  set (w1 := set_fs (set_files (fs_files (w_fs w) ++ [w_next w]) (w_fs w)) (mkW (w_disk w) (w_dirs w) h (S (w_next w)) k (w_fs w))).
  rewrite (bind_ok _ _ _ tt w1) by reflexivity. rewrite (bind_ok _ _ _ f w1) by (unfold deref; cbn [w_heap w1 set_fs]; rewrite Ef; reflexivity).
  rewrite (bind_ok _ _ _ _ _ (TombstoneFiles_works (w_next w) f w1 Ef)).
  match goal with |- context [bind (mod_store ?g) ?c] => rewrite (bind_ok (mod_store g) c _ tt (set_fs (g (w_fs w1)) (tick w1))) by reflexivity; set (w2 := set_fs (g (w_fs w1)) (tick w1)) end.
  assert (exists m, LastModified works (w_next w) w2 = (Ok m, tick w2)) as [m Em].
  { unfold LastModified. rewrite (bind_ok _ _ _ f w2) by (unfold deref; cbn [w_heap w2 w1 set_fs tick]; rewrite Ef; reflexivity).
    rewrite (bind_ok _ _ _ _ _ (TombstoneFiles_works (w_next w) f w2 Ef)). eexists. reflexivity. }
  rewrite (bind_ok _ _ _ _ _ Em). destruct (IH (if m >? lm then m else lm) (tick w2)) as (ids & lm' & w' & E' & D & Fs & Fa & ND & Hge & Hlt & G).
  { exact F. }
  exists (w_next w :: ids), lm', w'. split; [exact E'|]. split; [exact D|]. split; [rewrite Fs; cbn; rewrite <- app_assoc; reflexivity|]. cbn in Hge, Hlt.
  split; [|split; [|split; [|split; [|exact G]]]].
  - constructor; [|exact Fa]. exists f, i. rewrite Hlt by lia. rewrite D. cbn. auto.
  - constructor; [|exact ND]. intros X. specialize (Hge _ X). lia.
  - intros id Hid. apply elem_of_cons in Hid as [-> |Hid]; [lia|]. specialize (Hge id Hid). lia.
  - intros id Hid. rewrite Hlt by lia. apply lookup_insert_ne. lia.
Qed.

Lemma glob_NoDup g (d : dir) : NoDup (glob g d).
Proof.
  unfold glob. rewrite (merge_sort_Permutation String.le). assert (NoDup (map fst (map_to_list d))) as N by apply NoDup_fst_map_to_list.
  rewrite <- (map_id (List.filter _ _)). apply filter_NoDup. rewrite map_id. exact N.
Qed.

(** C12 (functional). In a directory whose live files have proper names and are
    accepted by a reader with the tombstones beside them, a new store opens when
    every call works, in whatever order the goroutines deliver the readers.  It
    then lists exactly the live files, each once and in the order of their names,
    each with the reader of its bytes and tombstones, the directory is as before,
    and the next generation is above that of every file. *)
Theorem open_lists_live (deliver : list (string * inode) -> list (string * inode)) (w : world) :
  sorts sort_Sort -> (forall l, deliver l ≡ₚ l) -> fs_files (w_fs w) = [] ->
  (forall p i, is_tsm p = true -> w_disk w !! p = Some i -> is_Some (ParseTSMFileName p) /\ exists r, NewTSMReader (in_data i) (in_data <$> w_disk w !! tombstonePath p) = Ok r) ->
  exists w' ys, Open works sort_Sort deliver w = (Ok tt, w') /\ w_disk w' = w_disk w
    /\ fs_files (w_fs w') = map fst ys /\ StronglySorted (fun a b => string_lt a.2 b.2 = true) ys
    /\ (forall p, p ∈ map snd ys <-> is_tsm p = true /\ is_Some (w_disk w !! p)) /\ Forall (fun y => reads_file w' y.1 y.2) ys
    /\ (forall p g q, is_tsm p = true -> is_Some (w_disk w !! p) -> ParseTSMFileName p = Some (g, q) -> g < fs_currentGeneration (w_fs w')).
Proof.
  intros So Hd F0 Hlive. set (w0 := set_fs (set_tempID (fold_left temp_dir_id (elements (w_dirs w)) (fs_currentTempDirID (w_fs w))) (w_fs w)) (tick w)).
  assert (forall p, p ∈ glob is_tsm (w_disk w) <-> is_tsm p = true /\ is_Some (w_disk w !! p)) as Hg by (intros p; apply glob_elem).
  destruct (open_files_works (glob is_tsm (w_disk w)) w0) as (l & w1 & E1 & El & Fl & D1 & H1 & N1 & Fs1 & _ & G1).
  { apply Forall_forall. intros p Hp. apply Hg in Hp as [Tp [i Ei]]. split; [exact (proj1 (Hlive p i Tp Ei))|exists i; exact Ei]. }
  assert (map fst (deliver l) ≡ₚ glob is_tsm (w_disk w)) as Pl by (rewrite (Hd l), El; reflexivity).
  destruct (collect_works (deliver l) 0 w1) as (ids & lm & w2 & E2 & D2 & Fs2 & Fa & ND & _ & _ & G2).
  { apply Forall_forall. intros x Hx. rewrite D1. cbn [w_disk w0 set_fs tick]. rewrite (Hd l) in Hx. rewrite Forall_forall in Fl. pose proof (Fl x Hx) as Ex. split; [exact Ex|].
    assert (x.1 ∈ glob is_tsm (w_disk w)) as Hin by (rewrite <- El; apply list_elem_of_fmap; eauto). apply Hg in Hin as [Tx _]. exact (proj2 (Hlive _ _ Tx Ex)). }
  assert (fs_files (w_fs w2) = ids) as Fs by (rewrite Fs2, Fs1; cbn; rewrite F0; reflexivity).
  pose proof (Forall2_length _ _ _ Fa) as Len. destruct (zip_fst_snd ids (map fst (deliver l))) as [Z1 Z2]; [rewrite length_map; exact Len|]. set (xs := zip ids (map fst (deliver l))) in *.
  set (w3 := set_fs (set_times lm (fs_lastFileStats (w_fs w2)) (w_fs w2)) w2).
  assert (Forall (fun x => reads_file w2 x.1 x.2) xs) as Rx.
  { unfold xs. clear - Fa. induction Fa as [|id x ids' l' H _ IH]; cbn; constructor; auto. }
  assert (NoDup (map snd xs)) as NDs by (rewrite Z2, Pl; apply glob_NoDup). rewrite <- Z1 in ND.
  destruct (sort_files_works sort_Sort xs w3 So ND NDs) as (ys & E3 & P3 & Ss).
  { eapply Forall_impl; [exact Rx|]. intros x (f & i & Ef & En & _). exists f. auto. }
  exists (set_fs (set_files (map fst ys) (set_stats (fs_DiskBytes (w_fs w3)) (zlen (map fst ys)) (w_fs w3))) w3), ys.
  split; [|cbn [w_disk w_fs set_fs fs_files set_files w3]; split; [rewrite D2, D1; reflexivity|split; [reflexivity|split; [exact Ss|split; [|split]]]]].
  - unfold Open. rewrite (bind_ok _ _ _ _ _ (sys_works _ _)). rewrite (bind_ok _ _ _ (tick w) (tick w)) by reflexivity. rewrite (bind_ok _ _ _ tt w0) by reflexivity.
    change (w_disk (tick w)) with (w_disk w). rewrite (bind_ok _ _ _ _ _ E1), (bind_ok _ _ _ _ _ E2). rewrite (bind_ok _ _ _ tt w3) by reflexivity.
    rewrite (bind_ok _ _ _ (w_fs w3) w3) by reflexivity. change (fs_files (w_fs w3)) with (fs_files (w_fs w2)). rewrite Fs, <- Z1. rewrite (bind_ok _ _ _ _ _ E3). reflexivity.
  - intros p. rewrite P3, Z2, Pl. apply Hg.
  - apply Forall_forall. intros y Hy. rewrite P3 in Hy. rewrite Forall_forall in Rx. destruct (Rx y Hy) as (f & i & R). exists f, i. exact R.
  - intros p g q Tp Sp Eg. cbn. rewrite G2. apply (G1 p g q); [apply Hg; auto|exact Eg].
Qed.
End Opens.

(** ** The compaction of two files *)

#[local] Existing Instances plain_words plain_laws list_stream list_stream_laws id_snappy id_snappy_laws list_bytesutil id_gzip ex_blocks.

Definition files_ex : list (nat * string) := [(0%nat, old1); (1%nat, old2); (2%nat, later1)].

Lemma replaceable_ex : replaceable [old1; old2] [new1] files_ex world_ex.
Proof.
  assert (forall id p f, w_heap world_ex !! id = Some f -> sf_name f = Some p -> sf_tpath f = p -> sf_stale f = false -> is_Some (ma_b (rd_acc (sf_rd f))) -> is_tsm p = true ->
    is_Some (w_disk world_ex !! p) -> ready [old1; old2] world_ex id p) as Rd by (intros id p f H1 H2 H3 H4 H5 H6 H7; split; auto; exists f; auto).
  split.
  - reflexivity.
  - repeat constructor; intros X; repeat (apply elem_of_cons in X as [X|X]; [discriminate|]); apply elem_of_nil in X as [].
  - repeat constructor; intros X; repeat (apply elem_of_cons in X as [X|X]; [discriminate|]); apply elem_of_nil in X as [].
  - constructor; [|constructor; [|constructor; [|constructor]]]; cbn [fst snd]; (eapply Rd; [reflexivity|reflexivity|reflexivity|reflexivity|eexists; reflexivity|reflexivity|eexists; vm_compute; reflexivity]).
  - unfold world_ex. cbn [w_heap]. repeat apply heap_ok_insert; try (intros p E _; injection E as <-; reflexivity). intros id f E. rewrite lookup_empty in E. discriminate.
  - intros id [f E]. cbn [w_heap world_ex w_next] in *. rewrite !lookup_insert_Some, lookup_empty in E. intuition (subst; try discriminate; lia).
  - left. discriminate.
  - split; [apply NoDup_singleton|]. constructor; [|constructor]. split; reflexivity.
  - repeat constructor.
  - constructor; [|constructor]. exists (mkIN (bytes_of compacted_ex) 4), compacted_ex. split; [|split]; vm_compute; reflexivity.
  - intros n Hn. apply list_elem_of_singleton in Hn as ->. split; [vm_compute; reflexivity|].
    split; intros X; repeat (apply elem_of_cons in X as [X|X]; [discriminate|]); apply elem_of_nil in X as [].
Qed.

Lemma replace_installs_witness :
  exists w' ys, replace works insertion_sort [old1; old2] [new1] None world_ex = (Ok tt, w')
    /\ fs_files (w_fs w') = map fst ys /\ Forall (fun y => named y.1 y.2 w') ys /\ StronglySorted (fun a b => string_lt a.2 b.2 = true) ys
    /\ (forall p, p ∈ map snd ys <-> p ∈ map cut_tmp [new1] \/ (p ∈ map snd files_ex /\ (p ∉ [old1; old2]))) /\ (forall x, x ∈ files_ex -> (x.2 ∉ [old1; old2]) -> x ∈ ys)
    /\ (forall n, n ∈ [new1] -> w_disk w' !! cut_tmp n = w_disk world_ex !! n)
    /\ (forall x, x ∈ files_ex -> x.2 ∈ [old1; old2] -> w_disk w' !! x.2 = None /\ w_disk w' !! tombstonePath x.2 = None
         /\ (in_use world_ex x.1 = true -> fs_purging (w_fs w') !! add_tmp x.2 = Some x.1 /\ named x.1 (add_tmp x.2) w'))
    /\ (forall q, is_tsm q = true -> (q ∉ map cut_tmp [new1]) -> (q ∈ [old1; old2] -> q ∉ map snd files_ex) -> intact (w_disk world_ex) (w_disk w') q)
    /\ fs_lastModified (w_fs world_ex) < fs_lastModified (w_fs w') /\ fs_lastFileStats (w_fs w') = [].
Proof.
  apply (replace_installs insertion_sort [old1; old2] [new1] files_ex None world_ex).
  - exact insertion_sorts.
  - exact replaceable_ex.
  - intros g l w1 E. discriminate.
Defined.

(** Opening the directory of the example. *)
Definition closed_ex : world := set_fs NewFileStore world_ex.

Lemma open_lists_live_witness :
  exists w' ys, Open works insertion_sort (@rev _) closed_ex = (Ok tt, w') /\ w_disk w' = w_disk closed_ex
    /\ fs_files (w_fs w') = map fst ys /\ StronglySorted (fun a b => string_lt a.2 b.2 = true) ys
    /\ (forall p, p ∈ map snd ys <-> is_tsm p = true /\ is_Some (w_disk closed_ex !! p)) /\ Forall (fun y => reads_file w' y.1 y.2) ys
    /\ (forall p g q, is_tsm p = true -> is_Some (w_disk closed_ex !! p) -> ParseTSMFileName p = Some (g, q) -> g < fs_currentGeneration (w_fs w')).
Proof.
  apply (open_lists_live insertion_sort (@rev _) closed_ex).
  - exact insertion_sorts.
  - intros l. symmetry. apply Permutation_rev.
  - reflexivity.
  - intros p i Tp E. destruct (disk_ex_names p i E) as [-> |[-> |[-> |[-> | ->]]]]; try discriminate Tp; vm_compute in E; injection E as <-;
      (split; [eexists; vm_compute; reflexivity|eexists; vm_compute; reflexivity]).
Defined.
